(* ===== verification/_CoqProject ===== *)
-Q . S2P
Prelude.v
GoError.v
GoText.v
Alphabet.v
StateMachine.v
WorkReport.v
Workflow.v
Batch.v
BatchStep.v
BatchAtomic.v
Resilience.v
CircuitBreaker.v
Bulkhead.v
Snowflake.v
Uuid.v
Collections.v
RingBuffer.v
BoundedStack.v
Slices.v
Bloom.v
Envelope.v
BatchWrite.v
RuleSet.v
RuleEngine.v
Wildcard.v
Core.v
AuditRepo.v
AuditLaws.v
MemoryCache.v
RoundRobin.v
TextSearch.v
TextSearchTrie.v
TextSearchLaws.v
Leader.v
SqlLeader.v
SqlLeaderLaws.v
RedisLeader.v
GoEncoding.v
KmsEnvelope.v
KmsEnvelopeLaws.v
SqlCheckpoint.v
RedisKey.v
RedisLock.v
Ksuid.v
Permutations.v
SqlKit.v
SqlKitLaws.v
Encrypt.v
KmsProvider.v
SqlColumn.v
SqlSession.v
RateLimit.v
SqlRateLimit.v
RedisRateLimit.v
Outbox.v
OutboxLaws.v
Process.v
LocalState.v
RedisValue.v
TieredCache.v
TieredLaws.v
TieredCoord.v
JwtKey.v
JwtRotation.v
JwtRedis.v
JwtRedisLaws.v
JwtMongo.v
JwtMongoLaws.v
JwtProvider.v
JwtProviderLaws.v
Graph.v
GoCsv.v
GraphIO.v
GraphCSV.v
GraphCSVLaws.v
SqsExtended.v
StepFunctions.v
RedisMap.v
S3Vectors.v
CloudValues.v
