(* ===== verification/Prelude.v ===== *)
(** * bluetape-go: a verification development

    The repository is a toolkit of Go packages.  This library models the
    packages whose guarantees come from their own logic, and not from a
    database, a broker or a numeric library, and proves what they promise.

    ** The program and the files that model it

    - [Prelude.v] (this file): Go calls as functions on a world ([Call], and
      [Go] for loops that take fuel) with weakest-precondition rules and
      tactics, 64-bit wrap-around, lemmas on lists and integers.
    - [GoError.v]: [error] values with [errors.Is] and [errors.Join], the
      [(T, error)] convention, [context.Context].
    - [Alphabet.v]: src/codec/alphabet.go, base58.go, base62.go.  The
      long-division encoder and decoder on their in-place buffers, over numerals
      in a base.
    - [StateMachine.v]: src/state.  [NewMachine], [Transition],
      [CanTransition], [AllowedEvents]; concurrent [Transition] calls as a step
      relation whose steps are the critical sections.
    - [WorkReport.v]: src/workreport.  Reports and their aggregation.
    - [Workflow.v]: src/workflow/workflow.go over [WorkReport.v].  Sequential
      and conditional runs as calls, the goroutines of a parallel run as a step
      relation.
    - [Batch.v]: src/batch.  Policies, reports, readers, writers and checkpoint
      stores as records of calls, [Step.Run], [Step.runAtomic], [Job.Run].
      [BatchStep.v] proves the chunked step and the job, [BatchAtomic.v] the
      atomic step.
    - [Resilience.v]: src/resilience errors.go, events.go, policy.go, retry.go,
      timeout.go and the backoffs without floating point.
      [CircuitBreaker.v] and [Bulkhead.v] build on it for circuit_breaker.go
      and bulkhead.go.
    - [Snowflake.v] and [Uuid.v]: src/id/snowflake.go and uuid.go, with the
      error types of src/id/errors.go.
    - [Collections.v], [RingBuffer.v], [BoundedStack.v], [Slices.v]:
      src/collections.
    - [Bloom.v]: src/probabilistic bloom_filter.go, config.go, hasher.go and
      internal/bloomhash.
    - [Envelope.v]: src/serialization/envelope.go and the bytes serializer.
    - [BatchWrite.v]: src/dynamodb/batchwrite.
    - [RuleSet.v] and [RuleEngine.v]: src/rules.  Facts and rule sets as finite
      maps, composite rules, [Engine.Run] and [InferenceEngine.Run] over a world
      that holds the facts and the shared rule set.
    - [GoText.v]: strings as lists of code points or bytes, trimming, order.
    - [Wildcard.v]: src/core/wildcard.go.  [Core.v]: the ranges, number, string
      and argument helpers of src/core.
    - [AuditRepo.v]: src/audit.  Events, entries, histories, the in-memory
      repository and the aggregate recorder; [AuditLaws.v] has their laws and
      the theorems.
    - [MemoryCache.v]: src/cache.  The critical sections of the TTL cache and
      [GetOrLoad] over a single-flight group.
    - [RoundRobin.v]: src/concurrency/round_robin.go, with the loads and swaps
      of concurrent callers as a step relation.
    - [TextSearch.v]: src/textsearch.  Normalization, the Aho-Corasick trie,
      scanning, replacement and blockword dictionaries.  [TextSearchTrie.v]
      proves the trie and its failure links, [TextSearchLaws.v] the search and
      masking.
    - [Leader.v]: src/leader options, errors and election strategies.
      [SqlLeader.v]: src/leader/sql, a lease row in PostgreSQL with any number
      of electors whose calls and renewal loops interleave statement by
      statement; [SqlLeaderLaws.v] its invariants.  [RedisLeader.v]:
      src/leader/redis/elector.go in the same style.
    - [GoEncoding.v]: base64, JSON strings and UTF-8 of Go's library.
      [KmsEnvelope.v]: src/encrypt/kms/envelope.go, writer, canonical parser and
      associated data; [KmsEnvelopeLaws.v] proves them inverse.
      [Encrypt.v]: the ciphers of src/encrypt over an AEAD ([AEADLaws]);
      [KmsProvider.v]: src/encrypt/kms/provider.go over a key service ([KMS])
      and AES-GCM ([GCM]); [SqlColumn.v]: encrypted SQL columns over it.
    - [SqlCheckpoint.v]: src/batch/sqlcheckpoint over a PostgreSQL interface,
      an instance of the atomic writer of [Batch.v].
    - [RedisKey.v]: src/redis keys, tokens, leases, errors.  [RedisLock.v]:
      src/redis/lock and src/redis/semaphore, scripts as functions on the keys.
    - [Ksuid.v]: src/id/ksuid_millis.go.  [Permutations.v]:
      src/collections/permutations.go.
    - [SqlKit.v] and [SqlKitLaws.v]: the statement builders of src/sqlkit;
      [SqlSession.v]: its queries and transactions over a cursor ([Cursor]) and
      a transaction interface ([Transactions]).
    - [RateLimit.v]: what a token bucket promises ([QuotaBound]).
      [SqlRateLimit.v] and [RedisRateLimit.v]: src/ratelimit/sql and
      src/ratelimit/redis, which are instances of it.
    - [Outbox.v] and [OutboxLaws.v]: src/audit/sqloutbox, the table, the store
      and any number of relays that interleave statement by statement.
    - [Process.v]: concurrent calls as trees of atomic commands, systems that run
      them in any order, and disciplines on what a goroutine holds.
      [LocalState.v], [RedisValue.v], [TieredCache.v]: src/cache/redisvalue on
      top of it; [TieredLaws.v] and [TieredCoord.v] are the disciplines of its
      leases and of its tokens, and the theorems.
    - [JwtKey.v]: src/jwt algorithms, errors, key chains and the stored form of a
      key, over RSA keys ([CryptoRSA]) and JSON ([KeyJSON]).  [JwtRedis.v] and
      [JwtMongo.v]: the key repositories in Redis and in MongoDB, every method a
      process of [Process.v] whose commands are the scripts and the calls of the
      driver; [JwtRotation.v] is the argument both share, [JwtRedisLaws.v] and
      [JwtMongoLaws.v] instantiate it.  [JwtProvider.v] and
      [JwtProviderLaws.v]: the repository in memory, composing tokens and
      choosing the key that verifies one.
    - [Graph.v]: src/graph elements and paths.  [GoCsv.v]: Go's encoding/csv.
      [GraphIO.v] and [GraphCSV.v]: src/graph/graphio options, records, reports,
      the CSV writer and reader; [GraphCSVLaws.v] proves that reading ends with a
      graph and that what was written comes back.
    - [RedisMap.v]: src/redis/mapcache and src/redis/bucket, the scripts and the
      typed operations over any client.
    - [StepFunctions.v]: src/workflow/stepfunctions, starting, describing, stopping
      and waiting for executions over any client.
    - [SqsExtended.v]: src/messaging/sqsextended, the envelope and the provider
      over any SQS and S3 clients, and what it promises.
    - [S3Vectors.v]: src/s3vectors, the operations over any client.
      [CloudValues.v]: src/ssm and src/secretsmanager over any client and cache
      ([CacheLaws]).

    ** Conventions

    A definition has the name of the function or type it models; a loop of a
    function is a Fixpoint of its own.  An interface, a callback, a clock or a
    service is a call on a world type that is a parameter, so that it may do
    anything its contract does not forbid; what a theorem needs of it is a
    named hypothesis, and a witness instantiates it.  Machine integers are [Z]:
    where the code can overflow the wrap-around is written out ([Slices.v],
    [Snowflake.v], [Uuid.v], [Bloom.v]); counters that count items, attempts or
    permits of one run are unbounded.  A run-time panic is a value ([None] or
    [Panics]).  Code under a mutex is one atomic step.

    ** What the theorems show

    - Exactly-once output of atomic batch steps across any number of restarts,
      with a processor that may answer an item differently each time, and the
      accounting, termination and retry and skip bounds of chunked
      steps and jobs.
    - Linearizability of the state machine: concurrent transitions form a path
      of the table, and final states are absorbing.
    - Round trips: alphabet codecs in both directions, Snowflake decoding,
      serialization envelopes across versions.
    - Uniqueness and monotonicity of Snowflake identifiers and version 7 UUIDs
      whatever the clock does.
    - Resilience: retry budgets, a timeout's own deadline, the circuit breaker
      as a refinement of its documented state machine, at the clock readings of
      admission and completion, for calls that do not overlap with an invariant
      for calls that do, the concurrency bound of the bulkhead with callbacks
      that may panic.
    - Workflows: every child joined exactly once, prefix execution,
      termination of parallel runs.
    - Containers: the ring buffer and the stack refine bounded histories, the
      Bloom filter has no false negatives, chunking and page arithmetic are
      exact within [int].
    - Batch writes: every write is accounted for whatever the service answers.
    - Rules: the execution order is deterministic whatever order Go visits a
      map in, a run accounts for every rule, inference is bounded and its
      verdict right, composite groups run exactly what they promise.
    - Text: the Aho-Corasick matcher finds what naive search finds, wildcard
      matching decides the language of the pattern, masking changes exactly the
      covered characters, truncation never cuts a rune.
    - Audit: every reachable repository holds gap-free histories, appending is
      all or nothing and accepts exactly the right batches, and what a recorder
      numbers the repository accepts.
    - Cache and round robin: the cache refines a map with deadlines; the round
      robin is lock free and fair.
    - Leadership: at most one elector of the SQL table is leader while leases
      are honoured, an idle elector leaves no row behind, renewals fit the
      lease; for Redis an execution of two overlapping resignations that ends
      with two leaders.
    - The BTKMS envelope is canonical: parsing accepts exactly what the writer
      writes, and the associated data is injective.
    - Encryption: what a provider encrypts it decrypts, and what it decrypts was
      sealed under its key and context; columns round-trip.
    - SQL: PostgreSQL reads a built statement with each argument in its place when
      the marks of the fragments are well placed, quoting is injective; a commit
      of the SQL checkpoint is atomic with its callback, so that restarts write
      exactly once; transactions end.
    - Redis: keys are injective, fencing tokens increase over every lease handed
      out, released or not, a semaphore bounds its leases.
    - Rate limits: in any window a bucket grants at most its burst, what the rate
      refills and what an expired bucket regains when it is created anew, in SQL
      and in Redis, with the clocks at will; the SQL bucket tells exactly when to
      come back.
    - Outbox: an event is handed to the publisher only when every earlier event of
      its aggregate that the claim could see was published or a dead letter; marks
      of an outdated claim are refused.
    - Tiered cache: no counter underflows, a healthy local tier holds only values
      of its generation, a blocked one stays closed without an explicit repair,
      and the writes of a key are serialized.
    - Keys: however rotations of a repository interleave, with answers lost and
      keys expiring, the callers of a period agree on one key and a key that is
      handed out can be found, in Redis, in MongoDB and in memory; tokens stay
      verifiable while their key is kept.
    - Typed values in Redis: every operation takes effect at one moment as the map
      of values with times to live says, whatever other clients do, and an error
      says whether the effect is open ([redis_map_refines]).
    - Executions of Step Functions: a wait with a timeout ends, with the delays the
      backoff says, and reports the status it has observed; only requests within the
      limits of the service are sent ([wait_bounded], [start_sends_acceptable]).
    - Vectors: no operation sends a request outside of the limits, and it sends what
      the caller gave ([vectors_sends_acceptable]).  Parameters and secrets: a value
      is what the service has answered for this name, in this mode, whatever is
      cached ([parameters_genuine]).
    - Large messages: the services are called in the order that keeps a message's
      object, what is received has the size and checksum of a canonical envelope,
      and the payloads that were sent are received unless the context ends or S3
      breaks off ([sqs_calls_ordered], [sqs_receive_verified], [sqs_roundtrip]).
    - Graphs: reading CSV always ends and gives a well-formed graph within the
      limits, and a graph that was written without an error comes back, with
      texts that look like formulas escaped.
    - Enumeration: permutations are those of a reference, once each and in its
      order; a KSUID gives its time back.
    - Ranges are sets: membership, inclusion and overlap agree.
    - Where the code and its documentation part ways the theorems say so:
      checkpoints saved over an unwritten chunk, probes of an earlier half-open
      period, integer overflow of huge chunk sizes, a cancelled child hidden by
      a failed one, a failed rule hidden by a later one, fragments that are not
      grouped, a transaction left open by a panic, a lease with the token of
      another owner, a polled Redis bucket that never refills and one whose
      truncated idle time refills it early, a permit leaked by a handler that
      panics, a mark that becomes part of an identifier, a clear that
      leaves removed values in the local tier, a loader whose panic blocks a key,
      an error text cut inside a character, a trimming that removes the current
      key of another rotation, an oversized key that replaces the current one,
      rows lost after a blank line, a graph without properties that is not
      written.

    ** Fuel and bounds

    The loops over a reader take fuel: a step that reads [n] items returns with
    any fuel above [n], and the theorems on [Step.Run] prove that it returns.
    The retry loops take the configured number of attempts, inference the
    configured number of cycles; the failure links of a trie and the queue that
    builds them take one unit per node, which [TextSearchTrie.v] proves to be
    enough; a single-flight load one unit per retry; the encoder and the decoder take one unit per
    buffer slot, which the round trip proves to be enough; [chunkItems] and
    [Chunk] one unit per element.  The loops of the JSON scanner and of
    unquoting take one unit per byte, the context parser [MaxContextEntries].
    The KSUID encoder takes one unit per bit, the permutation generator one per
    position, the row loops one per row, the lock's acquisition one per attempt.
    The rows of a CSV stream take one unit each, and a record of encoding/csv one
    unit per character, which [GoCsv.v] proves to be enough; the inspection of an
    SQS body takes two units per token ([inspect_total]), a wait for an execution
    one per poll, which the timeout bounds ([wait_bounded]).
    The waiting loops of the tiered cache take one unit per round; its theorems
    hold for any fuel, since a call that runs out is one that still waits.

    ** Not modelled

    Floating point (exponential backoff, Bloom sizing from a false-positive
    rate, rate-limiter tokens, geometry, units), code that is a wrapper of a
    third-party library or of a database, broker, cloud or HTTP client, the text
    of error messages beyond the errors they wrap, and the aliasing of slices
    that a callback keeps after it returns.

    A SQL statement whose call reports an error has taken effect by the time the
    call returns, or never does.  A SQL statement and a Redis script are atomic.
    A listing of MongoDB documents is read at once; the keys of a Redis repository
    are one record with one deadline; the identifiers of new keys do not repeat.
    PostgreSQL refuses text that is not UTF-8; the quotients of [numeric] in the
    rate limiter are exact; the numbers of a Lua script are exact below 2^53.

    Of src/jwt the signing and the parsing of tokens belong to the token library;
    of src/graph the other formats and the database clients are left out.

    Possible extensions: worker pools and groups (src/concurrency), the mutex of
    src/lock/redis, the group elector of src/leader/redis. *)

From stdpp Require Export base list gmap strings option numbers sorting.
From Stdlib Require Export ZArith Lia.

#[export] Set Default Goal Selector "!".

(** ** Effects

    A Go call is a function on a world [W]: it reads and updates everything
    that is not local to the modelled code (readers, writers, clocks, the
    cancellation of a context).  A call always returns; [Go] adds the
    possibility that a loop is still running when its fuel is used up. *)
Definition Call (W A : Type) : Type := W → A * W.

#[export] Instance call_ret W : MRet (Call W) := λ A x w, (x, w).
#[export] Instance call_bind W : MBind (Call W) := λ A B f m w, let '(a, w') := m w in f a w'.

Definition Go (W A : Type) : Type := W → option (A * W).

#[export] Instance go_ret W : MRet (Go W) := λ A x w, Some (x, w).
#[export] Instance go_bind W : MBind (Go W) := λ A B f m w,
  match m w with
  | Some (a, w') => f a w'
  | None => None
  end.

(** A call used as a computation. *)
Definition call {W A} (c : Call W A) : Go W A := λ w, Some (c w).

(** A loop whose fuel is used up: it has not returned. *)
Definition out_of_fuel {W A} : Go W A := λ _, None.

(** Total-correctness weakest precondition: the computation returns, and its
    result and final world satisfy [Q]. *)
Definition wp {W A} (m : Go W A) (Q : A → W → Prop) (w : W) : Prop :=
  ∃ a w', m w = Some (a, w') ∧ Q a w'.

(** Partial-correctness counterpart, for invariants that hold whatever the
    fuel. *)
Definition wlp {W A} (m : Go W A) (Q : A → W → Prop) (w : W) : Prop :=
  ∀ a w', m w = Some (a, w') → Q a w'.

(** ** Machine integers *)

Definition maxInt64 : Z := 2 ^ 63 - 1.
Definition wrap_u64 (z : Z) : Z := z mod 2 ^ 64.
Definition wrap_i64 (z : Z) : Z := (z + 2 ^ 63) mod 2 ^ 64 - 2 ^ 63.
Definition in_i64 (z : Z) : Prop := (- 2 ^ 63 ≤ z < 2 ^ 63)%Z.
Definition in_u64 (z : Z) : Prop := (0 ≤ z < 2 ^ 64)%Z.
Definition is_byte (z : Z) : Prop := (0 ≤ z < 256)%Z.

(** ** Reachability *)

Section reach.
Context {A : Type} (R : A → A → Prop).

(** An invariant of a step relation holds in every reachable state. *)
Lemma rtc_invariant (I : A → Prop) :
  (∀ a b, I a → R a b → I b) → ∀ a b, rtc R a b → I a → I b.
Proof. intros Hstep a b Hr. induction Hr; eauto. Qed.
End reach.

(** ** Weakest-precondition rules *)

Create HintDb go.

Section wp_rules.
Context {W : Type}.
Implicit Types w : W.

Lemma wp_ret {A} (x : A) (Q : A → W → Prop) w : Q x w → wp (mret x) Q w.
Proof. intros HQ. by exists x, w. Qed.

Lemma wp_bind {A B} (m : Go W A) (f : A → Go W B) Q w :
  wp m (λ a w', wp (f a) Q w') w → wp (m ≫= f) Q w.
Proof.
  intros (a & w' & Hm & b & w'' & Hf & HQ).
  exists b, w''. unfold mbind, go_bind. by rewrite Hm.
Qed.

Lemma wp_mono {A} (m : Go W A) (P Q : A → W → Prop) w :
  (∀ a w', P a w' → Q a w') → wp m P w → wp m Q w.
Proof. intros H (a & w' & Hm & HP). exists a, w'. auto. Qed.

Lemma wp_call {A} (c : Call W A) (Q : A → W → Prop) w :
  Q (c w).1 (c w).2 → wp (call c) Q w.
Proof. intros HQ. exists (c w).1, (c w).2. by rewrite <-surjective_pairing. Qed.

Lemma wlp_ret {A} (x : A) (Q : A → W → Prop) w : Q x w → wlp (mret x) Q w.
Proof. intros HQ a w' [=]; subst. done. Qed.

Lemma wlp_bind {A B} (m : Go W A) (f : A → Go W B) Q w :
  wlp m (λ a w', wlp (f a) Q w') w → wlp (m ≫= f) Q w.
Proof.
  intros H b w''. unfold mbind, go_bind.
  destruct (m w) as [[a w']|] eqn:Hm; [|done]. intros Hf. by eapply H.
Qed.

Lemma wlp_call {A} (c : Call W A) (Q : A → W → Prop) w :
  Q (c w).1 (c w).2 → wlp (call c) Q w.
Proof. intros HQ a w' [= Hc]. by rewrite Hc in HQ. Qed.

Lemma wlp_mono {A} (m : Go W A) (P Q : A → W → Prop) w :
  (∀ a w', P a w' → Q a w') → wlp m P w → wlp m Q w.
Proof. intros H Hm a w' Ha. eauto. Qed.

Lemma wlp_out_of_fuel {A} (Q : A → W → Prop) w : wlp out_of_fuel Q w.
Proof. by intros a w' [=]. Qed.

Lemma wp_wlp {A} (m : Go W A) (P Q : A → W → Prop) w :
  wp m P w → wlp m Q w → wp m (λ a w', P a w' ∧ Q a w') w.
Proof. intros (a & w' & Hm & HP) HQ. exists a, w'. eauto. Qed.
End wp_rules.

(** The same for a computation that is a single call. *)
Definition cwp {W A} (c : Call W A) (Q : A → W → Prop) (w : W) : Prop := Q (c w).1 (c w).2.

Lemma cwp_ret {W A} (x : A) (Q : A → W → Prop) (w : W) : Q x w → cwp (mret x) Q w.
Proof. done. Qed.

Lemma cwp_bind {W A B} (c : Call W A) (f : A → Call W B) Q (w : W) :
  cwp c (λ a, cwp (f a) Q) w → cwp (c ≫= f) Q w.
Proof. unfold cwp, mbind, call_bind. by destruct (c w). Qed.

Lemma cwp_mono {W A} (c : Call W A) (P Q : A → W → Prop) (w : W) :
  cwp c P w → (∀ a w', P a w' → Q a w') → cwp c Q w.
Proof. unfold cwp. auto. Qed.

(** A call with any answer. *)
Lemma cwp_any {W A} (c : Call W A) (Q : A → W → Prop) w :
  (∀ r w', c w = (r, w') → Q r w') → cwp c Q w.
Proof. intros H. unfold cwp. destruct (c w) eqn:E. by apply H. Qed.

#[export] Hint Resolve wp_ret wp_call wlp_ret wlp_call wlp_out_of_fuel : go.

(** One step of symbolic execution of a modelled function. *)
Ltac wp_step :=
  lazymatch goal with
  | |- wp (mret _) _ _ => apply wp_ret
  | |- wp (_ ≫= _) _ _ => apply wp_bind
  | |- wp (call _) _ _ => apply wp_call
  | |- wlp (mret _) _ _ => apply wlp_ret
  | |- wlp (_ ≫= _) _ _ => apply wlp_bind
  | |- wlp (call _) _ _ => apply wlp_call
  | |- wlp out_of_fuel _ _ => apply wlp_out_of_fuel
  end.

(** Name the answer and the next world of a call in the goal. *)
Ltac run_call x w' :=
  match goal with
  | |- context [fst (?c ?w)] =>
      let E := fresh "Hcall" in
      destruct (c w) as [x w'] eqn:E; simpl
  end.

(** Split a conjunction of booleans tests into propositions. *)
Ltac bools :=
  repeat match goal with
  | H : (_ && _)%bool = true |- _ => apply andb_true_iff in H as [? ?]
  | H : (_ || _)%bool = false |- _ => apply orb_false_iff in H as [? ?]
  | H : negb _ = true |- _ => apply negb_true_iff in H
  | H : negb _ = false |- _ => apply negb_false_iff in H
  | H : (_ <? _)%Z = true |- _ => apply Z.ltb_lt in H
  | H : (_ <? _)%Z = false |- _ => apply Z.ltb_ge in H
  | H : (_ <=? _)%Z = true |- _ => apply Z.leb_le in H
  | H : (_ <=? _)%Z = false |- _ => apply Z.leb_gt in H
  | H : (_ =? _)%Z = true |- _ => apply Z.eqb_eq in H
  | H : (_ =? _)%Z = false |- _ => apply Z.eqb_neq in H
  end.

(** ** List lemmas *)

Section lists.
Context {A : Type}.
Implicit Types (x y : A) (l k : list A).

Lemma list_insert_middle l k x y n :
  n = length l → <[n := y]> (l ++ x :: k) = l ++ y :: k.
Proof.
  intros ->. rewrite insert_app_r_alt by lia. by rewrite Nat.sub_diag.
Qed.

(** Writing the slot before the filled part of a buffer. *)
Lemma insert_fill o x y k :
  <[o := y]> (replicate (S o) x ++ k) = replicate o x ++ y :: k.
Proof.
  rewrite replicate_S_end, <-(assoc_L app). simpl.
  apply list_insert_middle. by rewrite length_replicate.
Qed.

Lemma drop_replicate_app n x k : drop n (replicate n x ++ k) = k.
Proof. apply drop_app_length'. by rewrite length_replicate. Qed.
End lists.

(** ** Counting *)

(** The number of elements that pass a test. *)
Definition countb {A} (f : A → bool) (l : list A) : nat := length (filter f l).

Section counting.
Context {A : Type}.
Implicit Types (f g : A → bool) (c : A) (cs : list A).

Lemma countb_insert f cs i c c' :
  cs !! i = Some c →
  (Z.of_nat (countb f (<[i := c']> cs)) = Z.of_nat (countb f cs) - Z.b2z (f c) + Z.b2z (f c'))%Z.
Proof.
  intros Hi. unfold countb. rewrite <-(take_drop_middle _ _ _ Hi) at 2.
  rewrite insert_take_drop by (by eapply lookup_lt_Some).
  rewrite !filter_app, !filter_cons, !length_app.
  destruct (f c), (f c'); simpl; lia.
Qed.

Lemma countb_pos f cs i c : cs !! i = Some c → f c = true → (1 ≤ countb f cs)%nat.
Proof.
  intros Hi Hc. pose proof (countb_insert f cs i c c Hi) as Hn. unfold countb.
  apply list_elem_of_lookup_2 in Hi.
  assert (c ∈ filter f cs) as Hin by (apply list_elem_of_filter; split; [by apply Is_true_true|done]).
  destruct (filter f cs); [by apply not_elem_of_nil in Hin|simpl; lia].
Qed.

Lemma countb_le f g cs : (∀ c, f c = true → g c = true) → (countb f cs ≤ countb g cs)%nat.
Proof.
  intros Hfg. unfold countb. induction cs as [|c cs IH]; [done|]. rewrite !filter_cons.
  specialize (Hfg c). destruct (f c), (g c); simpl; try lia; by specialize (Hfg eq_refl).
Qed.

Lemma countb_none f cs : Forall (λ c, f c = false) cs → countb f cs = 0%nat.
Proof.
  unfold countb. induction 1 as [|c cs Hc _ IH]; [done|]. rewrite filter_cons, Hc. exact IH.
Qed.

Lemma countb_app f cs c : countb f (cs ++ [c]) = (countb f cs + (if f c then 1 else 0))%nat.
Proof. unfold countb. rewrite filter_app, length_app, filter_cons, filter_nil. by destruct (f c). Qed.

Lemma countb_cons f c cs : countb f (c :: cs) = ((if f c then 1 else 0) + countb f cs)%nat.
Proof. unfold countb. rewrite filter_cons. by destruct (f c). Qed.

Lemma countb_two f cs i j a b :
  cs !! i = Some a → cs !! j = Some b → i ≠ j → f a = true → f b = true → (2 ≤ countb f cs)%nat.
Proof.
  revert i j. induction cs as [|c cs IH]; intros [|i] [|j] Hi Hj Hij Ha Hb; simplify_eq/=; rewrite countb_cons.
  - rewrite Ha. pose proof (countb_pos f cs j b Hj Hb). lia.
  - rewrite Hb. pose proof (countb_pos f cs i a Hi Ha). lia.
  - assert (i ≠ j) as Hij' by congruence. specialize (IH i j Hi Hj Hij' Ha Hb). lia.
Qed.
End counting.

(** The entries of a list with one element changed. *)
Lemma lookup_changed {A} (l : list A) i j x y :
  <[i := x]> l !! j = Some y → (i = j ∧ x = y) ∨ (i ≠ j ∧ l !! j = Some y).
Proof. intros H. apply list_lookup_insert_Some in H as [(? & ? & ?)|(? & ?)]; auto. Qed.

Ltac changed :=
  repeat match goal with
  | H : <[_ := _]> _ !! _ = Some _ |- _ => apply lookup_changed in H as [[? ?]|[? H]]; [subst|]
  end.

(** ** Integer lemmas *)

Section integers.
Local Open Scope Z_scope.

Lemma wrap_i64_id z : in_i64 z → wrap_i64 z = z.
Proof. unfold in_i64, wrap_i64. intros H. rewrite Z.mod_small; lia. Qed.

Lemma wrap_u64_id z : in_u64 z → wrap_u64 z = z.
Proof. unfold in_u64, wrap_u64. intros H. rewrite Z.mod_small; lia. Qed.

Lemma wrap_u64_range z : in_u64 (wrap_u64 z).
Proof. unfold in_u64, wrap_u64. apply Z.mod_pos_bound. lia. Qed.

(** A field of [n] bits put below a shifted value. *)
Lemma lor_shiftl_add x y n : 0 ≤ n → 0 ≤ y < 2 ^ n → Z.lor (Z.shiftl x n) y = x * 2 ^ n + y.
Proof.
  intros Hn Hy. rewrite <-Z.shiftl_mul_pow2 by done.
  assert (Z.land (Z.shiftl x n) y = 0) as Hland.
  { apply Z.bits_inj'. intros i Hi. rewrite Z.land_spec, Z.bits_0.
    destruct (Z_lt_ge_dec i n) as [Hlt|Hge].
    - by rewrite Z.shiftl_spec_low.
    - rewrite (Z.testbit_odd y), Z.shiftr_div_pow2, Z.div_small; [apply andb_false_r| |lia].
      split; [lia|]. eapply Z.lt_le_trans; [apply Hy|]. apply Z.pow_le_mono_r; lia. }
  rewrite <-Z.lxor_lor by done. symmetry. by apply Z.add_nocarry_lxor.
Qed.

Lemma land_ones_mod x n : 0 ≤ n → Z.land x (2 ^ n - 1) = x mod 2 ^ n.
Proof. intros Hn. rewrite <-Z.land_ones by done. f_equal. rewrite Z.ones_equiv. lia. Qed.

Lemma shiftr_div x n : 0 ≤ n → Z.shiftr x n = x / 2 ^ n.
Proof. apply Z.shiftr_div_pow2. Qed.
End integers.
