(* ===== verification/GoError.v ===== *)
(** * Go errors and contexts

    Models the parts of the Go standard library that the components share:
    error values with [errors.Is]/[errors.Join], the two-valued result
    convention, and [context.Context] as far as [Err] is observed. *)

From S2P Require Import Prelude.

(** A field of a typed error value. *)
Inductive field : Type :=
| FStr (s : string)
| FInt (z : Z).

(** A value of another type as a field of an error: its code, or 0 for the
    zero value of a field that is not set. *)
Definition fieldOf {A} `{Countable A} (x : A) : field := FInt (Z.pos (encode x)).
Definition zeroField : field := FInt 0.

(** A non-nil Go error.  [Sentinel] is a package variable made by
    [errors.New], identified by its qualified name; [Errorf] a value of
    [fmt.Errorf] with the operands of its [%w] verbs; [Joined] a value of
    [errors.Join]; [Typed] a struct that implements [error], with the
    sentinels its [Is] method answers [true] for and the error its [Unwrap]
    method returns. *)
Inductive error : Type :=
| Sentinel (name : string)
| Errorf (format : string) (wrapped : list error)
| Joined (errs : list error)
| Typed (ty : string) (fields : list field) (matches : list string) (cause : option error).

(** [errors.Is(err, target)] for a sentinel target. *)
Fixpoint errors_Is (err : error) (target : string) : bool :=
  match err with
  | Sentinel n => String.eqb n target
  | Errorf _ ws => existsb (λ e, errors_Is e target) ws
  | Joined es => existsb (λ e, errors_Is e target) es
  | Typed _ _ ms cause =>
      existsb (String.eqb target) ms ||
      match cause with Some e => errors_Is e target | None => false end
  end.

(** [errors.Is] on a possibly nil error. *)
Definition opt_Is (err : option error) (target : string) : bool :=
  match err with Some e => errors_Is e target | None => false end.

(** [errors.Join(a, b)]: nil operands are discarded, nil when none is left. *)
Definition errors_Join (a b : option error) : option error :=
  match a, b with
  | None, None => None
  | Some x, None => Some (Joined [x])
  | None, Some y => Some (Joined [y])
  | Some x, Some y => Some (Joined [x; y])
  end.

(** [errors.Join(errs...)] for non-nil operands. *)
Definition errors_JoinAll (errs : list error) : option error :=
  match errs with [] => None | _ => Some (Joined errs) end.

Definition Canceled : error := Sentinel "context.Canceled".
Definition DeadlineExceeded : error := Sentinel "context.DeadlineExceeded".

(** [errors.Is(err, context.Canceled) || errors.Is(err, context.DeadlineExceeded)] *)
Definition isContextError (err : error) : bool :=
  errors_Is err "context.Canceled" || errors_Is err "context.DeadlineExceeded".

(** A Go function's [(T, error)] result where the value is the zero value
    whenever the error is not nil. *)
Inductive result (A : Type) : Type :=
| Ok (a : A)
| Fail (e : error).
Arguments Ok {A} a.
Arguments Fail {A} e.

Definition is_Ok {A} (r : result A) : Prop := ∃ a, r = Ok a.

(** A context: what [ctx.Err()] answers.  It is a call, so a context can be
    cancelled by anything that runs between two observations. *)
Record Context (W : Type) := mkContext {
  ctx_Err : Call W (option error)
}.
Arguments ctx_Err {W} _.
Arguments mkContext {W} _.

Definition Background {W} : Context W := mkContext (λ w, (None, w)).

(** [if ctx == nil { ctx = context.Background() }] *)
Definition orBackground {W} (ctx : option (Context W)) : Context W :=
  match ctx with None => Background | Some c => c end.

(** [context.WithoutCancel(ctx)]: never reports an error. *)
Definition WithoutCancel {W} (ctx : Context W) : Context W := Background.

(** ** Lemmas *)

Lemma errors_Join_None a b : errors_Join a b = None ↔ a = None ∧ b = None.
Proof. destruct a, b; naive_solver. Qed.

Lemma errors_Is_Join a b t :
  opt_Is (errors_Join a b) t = (opt_Is a t || opt_Is b t)%bool.
Proof.
  destruct a as [x|], b as [y|]; simpl; rewrite ?orb_false_r; try done.
Qed.

Lemma errors_Is_JoinAll es t :
  opt_Is (errors_JoinAll es) t = existsb (λ e, errors_Is e t) es.
Proof. by destruct es. Qed.


