(* ===== verification/GoText.v ===== *)
(** * Go strings

    A Go string as the list of its code points, compared like the code compares
    bytes (UTF-8 keeps that order), with the functions of package [strings] the
    components use.  Strings are valid UTF-8: the replacement of invalid bytes
    by [[]rune] and [range] is not represented. *)

From S2P Require Import Prelude.

Local Open Scope Z_scope.

Definition text : Type := list Z.

#[export] Instance text_eq : EqDecision text := _.
#[export] Instance text_countable : Countable text := _.

(** [unicode.IsSpace] *)
Definition isSpace (r : Z) : bool :=
  ((9 <=? r) && (r <=? 13)) || (r =? 32) || (r =? 133) || (r =? 160) || (r =? 5760) ||
  ((8192 <=? r) && (r <=? 8202)) || (r =? 8232) || (r =? 8233) || (r =? 8239) || (r =? 8287) ||
  (r =? 12288).

Fixpoint trimLeft (s : text) : text :=
  match s with
  | [] => []
  | r :: s' => if isSpace r then trimLeft s' else s
  end.

(** [strings.TrimSpace] *)
Definition TrimSpace (s : text) : text := reverse (trimLeft (reverse (trimLeft s))).

(** [a < b] on strings. *)
Fixpoint text_lt (a b : text) : bool :=
  match a, b with
  | _, [] => false
  | [], _ :: _ => true
  | x :: a', y :: b' => (x <? y) || ((x =? y) && text_lt a' b')
  end.

(** [sort.Strings] *)
Definition text_le (a b : text) : Prop := text_lt b a = false.
#[export] Instance text_le_dec : RelDecision text_le.
Proof. intros a b. unfold text_le. apply _. Defined.

(** A literal of the source, for its ASCII characters. *)
Definition lit (s : string) : text := map (λ c, Z.of_N (Ascii.N_of_ascii c)) (String.list_ascii_of_string s).

(** [strings.FieldsFunc]: the maximal runs of code points that do not satisfy
    [f]; [current] is the run being read. *)
Fixpoint fieldsLoop (f : Z → bool) (s current : text) : list text :=
  match s with
  | [] => match current with [] => [] | _ => [current] end
  | r :: s' =>
      if f r then match current with [] => fieldsLoop f s' [] | _ => current :: fieldsLoop f s' [] end
      else fieldsLoop f s' (current ++ [r])
  end.

Definition FieldsFunc (f : Z → bool) (s : text) : list text := fieldsLoop f s [].

(** [utf8.RuneLen] *)
Definition RuneLen (r : Z) : Z :=
  if r <=? 127 then 1 else if r <=? 2047 then 2 else if r <=? 65535 then 3 else 4.

(** [len] of a string, in bytes. *)
Definition byteLen (s : text) : Z := foldr (λ r n, RuneLen r + n) 0 s.

(** [unicode.IsControl] *)
Definition IsControl (r : Z) : bool := ((0 <=? r) && (r <=? 31)) || ((127 <=? r) && (r <=? 159)).

(** [strings.ContainsAny] *)
Definition ContainsAny (s chars : text) : bool := existsb (λ r, bool_decide (r ∈ chars)) s.

(** [strings.Split] on a separator of one character; [current] is the part
    being read. *)
Fixpoint splitOn (sep : Z) (s current : text) : list text :=
  match s with
  | [] => [current]
  | r :: s' => if r =? sep then current :: splitOn sep s' [] else splitOn sep s' (current ++ [r])
  end.

Definition Split (s : text) (sep : Z) : list text := splitOn sep s [].

(** [strings.Join] with a separator of one character. *)
Fixpoint Join (parts : list text) (sep : Z) : text :=
  match parts with
  | [] => []
  | [p] => p
  | p :: rest => p ++ sep :: Join rest sep
  end.

(** [strconv.Itoa] on a natural number. *)
Fixpoint digitsLoop (fuel : nat) (n : Z) (acc : text) : text :=
  match fuel with
  | O => acc
  | S fuel' => let acc := (48 + n mod 10) :: acc in
               if n <? 10 then acc else digitsLoop fuel' (n / 10) acc
  end.

Definition Itoa (n : nat) : text := digitsLoop (S n) (Z.of_nat n) [].

(** A character of a decimal number, and the number that characters spell. *)
Definition isDigit (c : Z) : bool := (48 <=? c) && (c <=? 57).

Definition digitsValue (ds : text) : Z := foldl (λ v d, v * 10 + (d - 48)) 0 ds.

(** [strings.Join]. *)
Fixpoint JoinText (parts : list text) (sep : text) : text :=
  match parts with
  | [] => []
  | [p] => p
  | p :: rest => p ++ sep ++ JoinText rest sep
  end.

(** ** Lemmas *)

(** What comes before the first occurrence of a character is determined. *)
Lemma first_occurrence_unique (c : Z) (x1 x2 y1 y2 : text) :
  c ∉ x1 → c ∉ x2 → x1 ++ c :: y1 = x2 ++ c :: y2 → x1 = x2 ∧ y1 = y2.
Proof.
  revert x2. induction x1 as [|a x1 IH]; intros [|b x2] H1 H2 E; simplify_eq/=; [done|set_solver..|].
  destruct (IH x2) as [-> ->]; [set_solver..|done|done].
Qed.

Lemma splitOn_app sep s s' current :
  sep ∉ s → splitOn sep (s ++ s') current = splitOn sep s' (current ++ s).
Proof.
  revert current. induction s as [|r s IH]; intros current Hs; simpl; [by rewrite app_nil_r|].
  destruct (Z.eqb_spec r sep) as [->|_]; [set_solver|].
  rewrite IH by set_solver. by rewrite <-(assoc_L app).
Qed.

Lemma splitOn_nonempty sep s current : splitOn sep s current ≠ [].
Proof. revert current. induction s as [|r s IH]; intros c; simpl; [done|]. by case_match. Qed.

(** Splitting undoes joining when no part contains the separator. *)
Lemma Split_Join parts sep :
  parts ≠ [] → Forall (λ p, sep ∉ p) parts → Split (Join parts sep) sep = parts.
Proof.
  unfold Split. intros Hne H. induction H as [|p parts Hp Hall IH]; [done|].
  destruct parts as [|q parts].
  - simpl. rewrite <-(app_nil_r p) at 1. by rewrite splitOn_app.
  - change (Join (p :: q :: parts) sep) with (p ++ sep :: Join (q :: parts) sep).
    rewrite splitOn_app by done. simpl splitOn at 1. rewrite Z.eqb_refl. f_equal. by apply IH.
Qed.

Lemma Join_app a b sep : a ≠ [] → b ≠ [] → Join (a ++ b) sep = Join a sep ++ sep :: Join b sep.
Proof.
  intros Ha Hb. induction a as [|p a IH]; [done|]. destruct a as [|q a].
  - by destruct b.
  - change ((p :: q :: a) ++ b) with (p :: (q :: a) ++ b).
    destruct ((q :: a) ++ b) as [|r l] eqn:E; [done|]. rewrite <-E in *.
    change (Join (p :: q :: a) sep) with (p ++ sep :: Join (q :: a) sep).
    transitivity (p ++ sep :: Join ((q :: a) ++ b) sep); [by rewrite E|].
    rewrite IH by done. by rewrite <-!(assoc_L app).
Qed.

Lemma Join_free (c : Z) parts sep :
  c ≠ sep → Forall (λ p, c ∉ p) parts → c ∉ Join parts sep.
Proof.
  intros Hc H. induction H as [|p parts Hp Hall IH]; [set_solver|].
  destruct parts as [|q parts]; [done|].
  change (Join (p :: q :: parts) sep) with (p ++ sep :: Join (q :: parts) sep). set_solver.
Qed.

Lemma RuneLen_pos r : 0 < RuneLen r.
Proof. unfold RuneLen. repeat case_match; lia. Qed.

Lemma byteLen_app a b : byteLen (a ++ b) = byteLen a + byteLen b.
Proof. unfold byteLen. induction a as [|r a IH]; simpl; [done|]. rewrite IH. lia. Qed.

Lemma ContainsAny_false s chars : ContainsAny s chars = false ↔ ∀ r, r ∈ s → r ∉ chars.
Proof.
  unfold ContainsAny. induction s as [|x s IH]; simpl; [set_solver|].
  rewrite orb_false_iff, IH, bool_decide_eq_false. set_solver.
Qed.

Lemma text_lt_irrefl a : text_lt a a = false.
Proof. induction a as [|x a IH]; [done|]. simpl. by rewrite Z.ltb_irrefl, Z.eqb_refl. Qed.

Lemma text_lt_cons x y a b :
  text_lt (x :: a) (y :: b) = true ↔ x < y ∨ (x = y ∧ text_lt a b = true).
Proof.
  simpl. rewrite orb_true_iff, andb_true_iff, Z.ltb_lt, Z.eqb_eq. done.
Qed.

Lemma text_lt_trans a b c : text_lt a b = true → text_lt b c = true → text_lt a c = true.
Proof.
  revert b c. induction a as [|x a IH]; intros [|y b] [|z c]; try done.
  rewrite !text_lt_cons. intros [|[]] [|[]]; try lia. right. split; [lia|eauto].
Qed.

Lemma text_lt_trichotomy a b : text_lt a b = true ∨ a = b ∨ text_lt b a = true.
Proof.
  revert b. induction a as [|x a IH]; intros [|y b]; [by auto..|].
  rewrite !text_lt_cons. destruct (Z.lt_trichotomy x y) as [|[->|]]; auto.
  destruct (IH b) as [|[->|]]; auto.
Qed.

Lemma trimLeft_idem s : trimLeft (trimLeft s) = trimLeft s.
Proof.
  induction s as [|r s IH]; simpl; [done|]. destruct (isSpace r) eqn:E; [done|].
  simpl. by rewrite E.
Qed.

Lemma trimLeft_suffix s : ∃ p, s = p ++ trimLeft s.
Proof.
  induction s as [|r s [p IH]]; simpl; [by exists []|].
  destruct (isSpace r); [|by exists []]. exists (r :: p). simpl. by rewrite <-IH.
Qed.

Lemma trimLeft_prefix a b : trimLeft (a ++ b) = a ++ b → trimLeft a = a.
Proof.
  destruct a as [|r a]; [done|]. simpl. destruct (isSpace r); [|done].
  intros Ht. destruct (trimLeft_suffix (a ++ b)) as [p Hp]. rewrite Ht in Hp.
  apply (f_equal length) in Hp. rewrite !length_app in Hp. simpl in Hp. rewrite length_app in Hp. lia.
Qed.

(** Trimming is idempotent, so a normalized key finds what was stored. *)
Lemma TrimSpace_idem k : TrimSpace (TrimSpace k) = TrimSpace k.
Proof.
  unfold TrimSpace. set (t := trimLeft k).
  destruct (trimLeft_suffix (reverse t)) as [p Hp].
  assert (t = reverse (trimLeft (reverse t)) ++ reverse p) as Ht.
  { by rewrite <-reverse_app, <-Hp, reverse_involutive. }
  assert (trimLeft (reverse (trimLeft (reverse t))) = reverse (trimLeft (reverse t))) as ->.
  { apply (trimLeft_prefix _ (reverse p)). rewrite <-Ht. apply trimLeft_idem. }
  by rewrite reverse_involutive, trimLeft_idem.
Qed.

Lemma trimLeft_keeps c s : c ∈ s → isSpace c = false → c ∈ trimLeft s.
Proof.
  induction s as [|r s IH]; [done|]. intros [->|Hin]%elem_of_cons Hc; simpl; [rewrite Hc; by left|].
  destruct (isSpace r); [auto|by right].
Qed.

(** Text with a character that is not white space is not blank. *)
Lemma TrimSpace_keeps c s : c ∈ s → isSpace c = false → c ∈ TrimSpace s.
Proof.
  intros Hin Hc. unfold TrimSpace. apply elem_of_reverse, trimLeft_keeps; [|done].
  apply elem_of_reverse. by apply trimLeft_keeps.
Qed.

#[export] Instance text_le_total : Total text_le.
Proof.
  intros a b. unfold text_le. destruct (text_lt_trichotomy a b) as [H|[->|H]].
  - left. apply not_true_is_false. intros H'. pose proof (text_lt_trans _ _ _ H H') as E.
    by rewrite text_lt_irrefl in E.
  - left. apply text_lt_irrefl.
  - right. apply not_true_is_false. intros H'. pose proof (text_lt_trans _ _ _ H H') as E.
    by rewrite text_lt_irrefl in E.
Qed.

#[export] Instance text_le_trans : Transitive text_le.
Proof.
  intros a b c Hab Hbc. unfold text_le in *. apply not_true_is_false. intros Hca.
  destruct (text_lt_trichotomy a b) as [H|[->|H]]; [|congruence|congruence].
  pose proof (text_lt_trans _ _ _ Hca H). congruence.
Qed.

#[export] Instance text_le_antisymm : AntiSymm (=) text_le.
Proof.
  intros a b Hab Hba. unfold text_le in *.
  destruct (text_lt_trichotomy a b) as [H|[->|H]]; [congruence|done|congruence].
Qed.

(** [Itoa] spells its argument in decimal digits. *)
Lemma digitsLoop_spec fuel n acc :
  0 ≤ n < Z.of_nat fuel →
  ∃ ds, digitsLoop fuel n acc = ds ++ acc ∧ ds ≠ [] ∧ Forall (λ d, isDigit d = true) ds ∧
        digitsValue ds = n.
Proof.
  revert n acc. induction fuel as [|fuel IH]; intros n acc Hn; [lia|]. simpl.
  assert (Hd : isDigit (48 + n mod 10) = true).
  { unfold isDigit. pose proof (Z.mod_pos_bound n 10). rewrite andb_true_iff, !Z.leb_le. lia. }
  destruct (Z.ltb_spec n 10).
  - exists [48 + n mod 10]. rewrite Z.mod_small in * by lia.
    split_and!; [done|done|by repeat constructor|unfold digitsValue; simpl; lia].
  - destruct (IH (n / 10) ((48 + n mod 10) :: acc)) as (ds & -> & Hne & Hall & Hv).
    { pose proof (Z.div_lt n 10). pose proof (Z.div_pos n 10). lia. }
    exists (ds ++ [48 + n mod 10]). split_and!.
    + by rewrite <-(assoc_L app).
    + by destruct ds.
    + apply Forall_app; split; [done|by repeat constructor].
    + unfold digitsValue in *. rewrite foldl_app, Hv. simpl. pose proof (Z.div_mod n 10). lia.
Qed.

Lemma Itoa_spec n :
  Itoa n ≠ [] ∧ Forall (λ d, isDigit d = true) (Itoa n) ∧ digitsValue (Itoa n) = Z.of_nat n.
Proof.
  unfold Itoa. destruct (digitsLoop_spec (S n) (Z.of_nat n) []) as (ds & E & ?); [lia|].
  rewrite app_nil_r in E. by rewrite E.
Qed.
