(* ===== verification/Alphabet.v ===== *)
(** * Alphabet encodings

    The codecs of src/codec over an alphabet, on top of big-endian digit lists
    over a base: their value, bounds, uniqueness of canonical numerals, and
    schoolbook long division by a small divisor. *)

From S2P Require Import Prelude GoError.

Local Open Scope Z_scope.
#[local] Coercion Z.of_nat : nat >-> Z.

(** The value of a big-endian digit list. *)
Definition eval (base : Z) (ds : list Z) : Z :=
  foldl (λ acc d, acc * base + d) 0 ds.

Definition digits_in (base : Z) (ds : list Z) : Prop :=
  Forall (λ d, 0 ≤ d < base) ds.

(** No leading zero digit. *)
Definition canonical (ds : list Z) : Prop :=
  match ds with [] => True | d :: _ => d ≠ 0 end.

(** Number of leading zeros, and the rest. *)
Fixpoint leading_zeros (ds : list Z) : nat :=
  match ds with
  | [] => O
  | d :: ds' => if d =? 0 then S (leading_zeros ds') else O
  end.

(** Quotient digits and remainder of [r * base^n + ds] by [divisor]. *)
Fixpoint long_div (base divisor r : Z) (ds : list Z) : list Z * Z :=
  match ds with
  | [] => ([], r)
  | d :: ds' =>
      let t := r * base + d in
      let '(qs, r') := long_div base divisor (t mod divisor) ds' in
      (t / divisor :: qs, r')
  end.

(** ** Value *)

Lemma eval_from base ds a :
  foldl (λ acc d, acc * base + d) a ds = a * base ^ length ds + eval base ds.
Proof.
  unfold eval. revert a. induction ds as [|d ds IH]; intros a; simpl.
  - rewrite Z.mul_1_r. lia.
  - rewrite IH, (IH (0 * base + d)). rewrite Nat2Z.inj_succ, Z.pow_succ_r by lia. lia.
Qed.

Lemma eval_cons base d ds : eval base (d :: ds) = d * base ^ length ds + eval base ds.
Proof. unfold eval at 1. simpl. rewrite eval_from. lia. Qed.

Lemma eval_nil base : eval base [] = 0.
Proof. done. Qed.

Lemma eval_app base xs ys :
  eval base (xs ++ ys) = eval base xs * base ^ length ys + eval base ys.
Proof. unfold eval at 1. rewrite foldl_app. apply eval_from. Qed.

Lemma eval_zeros base n : eval base (replicate n 0) = 0.
Proof. induction n as [|n IH]; [done|]. simpl. rewrite eval_cons, IH. lia. Qed.

Lemma eval_zeros_app base n ds : eval base (replicate n 0 ++ ds) = eval base ds.
Proof. rewrite eval_app, eval_zeros. lia. Qed.

Lemma eval_bounds base ds :
  0 < base → digits_in base ds → 0 ≤ eval base ds < base ^ length ds.
Proof.
  intros Hb H. induction H as [|d ds Hd _ IH]; [simpl; rewrite eval_nil; lia|].
  rewrite eval_cons. cbn [length].
  rewrite Nat2Z.inj_succ, Z.pow_succ_r by lia. nia.
Qed.

Lemma eval_canonical_lower base d ds :
  0 < base → digits_in base (d :: ds) → d ≠ 0 → base ^ length ds ≤ eval base (d :: ds).
Proof.
  intros Hb H Hd. inv H. rewrite eval_cons.
  pose proof (eval_bounds base ds Hb ltac:(done)). nia.
Qed.

(** ** Uniqueness of canonical numerals *)

Lemma eval_inj_length base xs ys :
  0 < base → digits_in base xs → digits_in base ys → length xs = length ys →
  eval base xs = eval base ys → xs = ys.
Proof.
  intros Hb Hx. revert ys.
  induction Hx as [|x xs Hxd Hxs IH]; intros [|y ys] Hy Hlen Heq; try done.
  inv Hy. rewrite !eval_cons in Heq.
  assert (length xs = length ys) as Hl by (simpl in *; lia).
  clear Hlen. rename Hl into Hlen. rewrite Hlen in Heq.
  pose proof (eval_bounds base xs Hb Hxs) as B1.
  pose proof (eval_bounds base ys Hb ltac:(done)) as B2.
  rewrite Hlen in B1.
  set (p := base ^ length ys) in *.
  assert (Hxy : x = y) by nia. subst y.
  f_equal. apply IH; [done..|]. lia.
Qed.

Lemma canonical_length_le base xs ys :
  1 < base → digits_in base xs → digits_in base ys → canonical xs →
  eval base xs = eval base ys → (length xs ≤ length ys)%nat.
Proof.
  intros Hb Hx Hy Hc Heq. destruct xs as [|x xs]; [simpl; lia|].
  pose proof (eval_canonical_lower base x xs ltac:(lia) Hx Hc) as Hlo.
  pose proof (eval_bounds base ys ltac:(lia) Hy) as Hhi.
  cbn [length].
  assert (base ^ length xs < base ^ length ys) as Hlt by lia.
  apply Z.pow_lt_mono_r_iff in Hlt; lia.
Qed.

(** A canonical numeral is determined by its value. *)
Lemma eval_inj base xs ys :
  1 < base → digits_in base xs → digits_in base ys →
  canonical xs → canonical ys → eval base xs = eval base ys → xs = ys.
Proof.
  intros Hb Hx Hy Hcx Hcy Heq.
  apply (eval_inj_length base); try done; [lia|].
  apply Nat.le_antisymm; eapply canonical_length_le; eauto.
Qed.

(** ** Leading zeros *)

Lemma leading_zeros_le ds : (leading_zeros ds ≤ length ds)%nat.
Proof. induction ds as [|d ds IH]; simpl; [lia|]. destruct (d =? 0); lia. Qed.

Lemma leading_zeros_split ds :
  ds = replicate (leading_zeros ds) 0 ++ drop (leading_zeros ds) ds ∧
  canonical (drop (leading_zeros ds) ds).
Proof.
  induction ds as [|d ds [IH1 IH2]]; [done|]. simpl.
  destruct (d =? 0) eqn:E; bools.
  - subst d. simpl. split; [|done]. by rewrite <-IH1.
  - done.
Qed.

Lemma leading_zeros_app n ds :
  canonical ds → leading_zeros (replicate n 0 ++ ds) = n.
Proof.
  intros Hc. induction n as [|n IH]; simpl; [|by rewrite IH].
  destruct ds as [|d ds]; [done|]. simpl in *.
  destruct (d =? 0) eqn:E; bools; done.
Qed.

Lemma digits_in_app base xs ys :
  digits_in base (xs ++ ys) ↔ digits_in base xs ∧ digits_in base ys.
Proof. apply Forall_app. Qed.

Lemma digits_in_drop base n ds : digits_in base ds → digits_in base (drop n ds).
Proof. apply Forall_drop. Qed.

Lemma digits_in_zeros base n : 0 < base → digits_in base (replicate n 0).
Proof. intros. apply Forall_replicate. lia. Qed.

#[export] Hint Resolve digits_in_drop digits_in_zeros : go.

(** ** Long division *)

Lemma long_div_length base divisor r ds :
  length (long_div base divisor r ds).1 = length ds.
Proof.
  revert r. induction ds as [|d ds IH]; intros r; [done|]. simpl.
  specialize (IH ((r * base + d) mod divisor)).
  destruct (long_div base divisor _ ds). simpl in *. by rewrite IH.
Qed.

(** Long division computes the quotient and the remainder, and its quotient
    digits are digits of the same base. *)
Lemma long_div_spec base divisor r ds qs r' :
  0 < base → 0 < divisor → 0 ≤ r < divisor → digits_in base ds →
  long_div base divisor r ds = (qs, r') →
  digits_in base qs ∧ 0 ≤ r' < divisor ∧
  r * base ^ length ds + eval base ds = eval base qs * divisor + r'.
Proof.
  intros Hb Hd Hr Hds. revert r qs r' Hr.
  induction Hds as [|d ds Hdd Hds IH]; intros r qs r' Hr Heq; simpl in Heq.
  - injection Heq as <- <-. repeat split; [constructor|lia..|].
    simpl. rewrite !eval_nil. lia.
  - set (t := r * base + d) in *.
    destruct (long_div base divisor (t mod divisor) ds) as [qs1 r1] eqn:E.
    injection Heq as <- <-.
    pose proof (Z.mod_pos_bound t divisor ltac:(lia)) as Hm.
    destruct (IH _ _ _ Hm E) as (Hq & Hr1 & Hval).
    pose proof (Z.div_mod t divisor ltac:(lia)) as Hdm.
    pose proof (long_div_length base divisor (t mod divisor) ds) as Hlen.
    rewrite E in Hlen. simpl in Hlen.
    assert (0 ≤ t / divisor < base).
    { split; [apply Z.div_pos; unfold t; nia|].
      apply Z.div_lt_upper_bound; [lia|]. unfold t. nia. }
    repeat split; [by constructor|lia..|].
    rewrite !eval_cons, Hlen. cbn [length].
    rewrite Nat2Z.inj_succ, Z.pow_succ_r by lia.
    set (p := base ^ length ds) in *.
    replace (r * (base * p) + (d * p + eval base ds))
      with (t * p + eval base ds) by (unfold t; ring).
    rewrite Hdm at 1.
    transitivity (t / divisor * divisor * p + ((t mod divisor) * p + eval base ds)); [ring|].
    rewrite Hval. ring.
Qed.

(** ** codec: alphabet encodings (Base58, Base62, URL62)

    Models [src/codec/alphabet.go], [base58.go] and [base62.go].  Byte slices
    are lists of integers; the in-place buffers of the code ([source],
    [encoded], [decoded]) are lists updated by index.  [None] is a run-time
    panic (an index out of range, or the constructor's [panic]). *)

(** The bytes of a Go string literal. *)
Definition bytes_of (s : string) : list Z :=
  map (λ c, Z.of_N (Ascii.N_of_ascii c)) (String.list_ascii_of_string s).

Record alphabetEncoding := mkAlphabetEncoding {
  name : string;
  alphabet : list Z;
  indexes : list Z
}.

(** The loop [for index, char := range encoding.alphabet]. *)
Fixpoint fill_indexes (chars : list Z) (index : Z) (idx : list Z) : option (list Z) :=
  match chars with
  | [] => Some idx
  | char :: rest =>
      if 128 <=? char then None
      else match idx !! Z.to_nat char with
           | None => None
           | Some old =>
               if 0 <=? old then None
               else fill_indexes rest (index + 1) (<[Z.to_nat char := index]> idx)
           end
  end.

Definition newAlphabetEncoding (nm : string) (chars : list Z) : option alphabetEncoding :=
  if (length chars <? 2)%nat then None
  else match fill_indexes chars 0 (replicate 128 (-1)) with
       | None => None
       | Some idx => Some (mkAlphabetEncoding nm chars idx)
       end.

(** [divmod]: divides the number held in [number[firstDigit:]] in place and
    returns the remainder. *)
Fixpoint divmod_loop (fuel : nat) (number : list Z) (index : nat) (remainder base divisor : Z)
    : Z * list Z :=
  match fuel with
  | O => (remainder, number)
  | S fuel' =>
      match number !! index with
      | None => (remainder, number)
      | Some digit =>
          let temp := remainder * base + digit in
          divmod_loop fuel' (<[index := Z.quot temp divisor mod 256]> number) (S index)
            (Z.rem temp divisor) base divisor
      end
  end.

Definition divmod (number : list Z) (firstDigit : nat) (base divisor : Z) : Z * list Z :=
  divmod_loop (length number - firstDigit) number firstDigit 0 base divisor.

(** [for zeros < len(input) && input[zeros] == 0 { zeros++ }] is
    [leading_zeros input]; the same loop from [start], for a byte [c]. *)
Fixpoint skip_from (fuel : nat) (buf : list Z) (start : nat) (c : Z) : nat :=
  match fuel with
  | O => start
  | S fuel' =>
      match buf !! start with
      | Some x => if x =? c then skip_from fuel' buf (S start) c else start
      | None => start
      end
  end.

(** The main loop of [encode].  Every iteration writes one output byte, so
    [len(encoded)] iterations exhaust the buffer and one more would index it
    at [-1]: the fuel is never the reason for stopping. *)
Fixpoint encode_loop (fuel : nat) (e : alphabetEncoding) (source : list Z) (inputStart : nat)
    (encoded : list Z) (outputStart : nat) : option (list Z * nat) :=
  if (length source <=? inputStart)%nat then Some (encoded, outputStart)
  else match fuel, outputStart with
       | S fuel', S out' =>
           let '(remainder, source') := divmod source inputStart 256 (length (alphabet e)) in
           match alphabet e !! Z.to_nat remainder, source' !! inputStart with
           | Some c, Some lead =>
               encode_loop fuel' e source' (if lead =? 0 then S inputStart else inputStart)
                 (<[out' := c]> encoded) out'
           | _, _ => None
           end
       | _, _ => None
       end.

(** [for range zeros { outputStart--; encoded[outputStart] = e.alphabet[0] }] *)
Fixpoint prepend_zeros (zeros : nat) (zero : Z) (encoded : list Z) (outputStart : nat)
    : option (list Z * nat) :=
  match zeros with
  | O => Some (encoded, outputStart)
  | S z =>
      match outputStart with
      | O => None
      | S out' => prepend_zeros z zero (<[out' := zero]> encoded) out'
      end
  end.

Definition encode (e : alphabetEncoding) (input : list Z) : option (list Z) :=
  match input with
  | [] => Some []
  | _ =>
      let zeros := leading_zeros input in
      let size := (length input * 138 / 100 + 2)%nat in
      match encode_loop (S size) e input zeros (replicate size 0) size, alphabet e !! O with
      | Some (encoded, outputStart), Some zero =>
          let start := skip_from size encoded outputStart zero in
          match prepend_zeros zeros zero encoded start with
          | Some (encoded', start') => Some (drop start' encoded')
          | None => None
          end
      | _, _ => None
      end
  end.

(** The first loop of [decode]: characters to digits. *)
Fixpoint decode_digits (e : alphabetEncoding) (input : list Z) (index : Z) : result (list Z) :=
  match input with
  | [] => Ok []
  | char :: rest =>
      let bad := Fail (Typed "fmt.Errorf" [FStr (name e); FInt char; FInt index] [] None) in
      if 128 <=? char then bad
      else match indexes e !! Z.to_nat char with
           | None => bad
           | Some ix =>
               if ix <? 0 then bad
               else match decode_digits e rest (index + 1) with
                    | Ok ds => Ok (ix mod 256 :: ds)
                    | Fail err => Fail err
                    end
           end
  end.

Fixpoint decode_loop (fuel : nat) (e : alphabetEncoding) (source : list Z) (inputStart : nat)
    (decoded : list Z) (outputStart : nat) : option (list Z * nat) :=
  if (length source <=? inputStart)%nat then Some (decoded, outputStart)
  else match fuel, outputStart with
       | S fuel', S out' =>
           let '(remainder, source') := divmod source inputStart (length (alphabet e)) 256 in
           match source' !! inputStart with
           | Some lead =>
               decode_loop fuel' e source' (if lead =? 0 then S inputStart else inputStart)
                 (<[out' := remainder mod 256]> decoded) out'
           | None => None
           end
       | _, _ => None
       end.

Definition decode (e : alphabetEncoding) (input : list Z) : option (result (list Z)) :=
  match input with
  | [] => Some (Ok [])
  | _ =>
      match decode_digits e input 0 with
      | Fail err => Some (Fail err)
      | Ok source =>
          let zeros := leading_zeros source in
          let size := length input in
          match decode_loop (S size) e source zeros (replicate size 0) size with
          | None => None
          | Some (decoded, outputStart) =>
              let start := skip_from size decoded outputStart 0 in
              Some (Ok (replicate zeros 0 ++ drop start decoded))
          end
      end
  end.

Definition base58Alphabet : list Z :=
  bytes_of "123456789ABCDEFGHJKLMNPQRSTUVWXYZabcdefghijkmnopqrstuvwxyz".
Definition base62Alphabet : list Z :=
  bytes_of "0123456789ABCDEFGHIJKLMNOPQRSTUVWXYZabcdefghijklmnopqrstuvwxyz".

(** [var base58 = newAlphabetEncoding(...)]; that the constructor does not
    panic on the two alphabets is [base58_ok] and [base62_ok]. *)
Definition base58 : alphabetEncoding :=
  default (mkAlphabetEncoding "" [] []) (newAlphabetEncoding "Base58" base58Alphabet).
Definition base62 : alphabetEncoding :=
  default (mkAlphabetEncoding "" [] []) (newAlphabetEncoding "Base62" base62Alphabet).

Definition EncodeBase58 (input : list Z) : option (list Z) := encode base58 input.
Definition DecodeBase58 (input : list Z) : option (result (list Z)) := decode base58 input.
Definition EncodeBase62 (input : list Z) : option (list Z) := encode base62 input.
Definition DecodeBase62 (input : list Z) : option (result (list Z)) := decode base62 input.
Definition EncodeURL62 (input : list Z) : option (list Z) := EncodeBase62 input.
Definition DecodeURL62 (input : list Z) : option (result (list Z)) := DecodeBase62 input.

(** What [newAlphabetEncoding] establishes: the index table inverts the
    alphabet. *)
Definition alphabet_wf (e : alphabetEncoding) : Prop :=
  length (indexes e) = 128%nat ∧
  (∀ i c, alphabet e !! i = Some c → 0 ≤ c < 128 ∧ indexes e !! Z.to_nat c = Some (Z.of_nat i)) ∧
  (∀ c ix, indexes e !! c = Some ix → ix = -1 ∨
     ∃ i, ix = Z.of_nat i ∧ alphabet e !! i = Some (Z.of_nat c)).

(** The alphabet is large enough for the size estimate of [encode]. *)
Definition alphabet_size_ok (e : alphabetEncoding) : Prop :=
  58 ≤ length (alphabet e) ≤ 128.

(** The characters of a digit list. *)
Definition spell (e : alphabetEncoding) (ds : list Z) (cs : list Z) : Prop :=
  Forall2 (λ d c, 0 ≤ d ∧ alphabet e !! Z.to_nat d = Some c) ds cs.

Example encode58_sample :
  EncodeBase58 (0 :: 0 :: bytes_of "Hello World!") = Some (bytes_of "112NEpo7TZRRrLZSi2U").
Proof. vm_compute. reflexivity. Qed.

Example decode58_sample :
  DecodeBase58 (bytes_of "112NEpo7TZRRrLZSi2U") = Some (Ok (0 :: 0 :: bytes_of "Hello World!")).
Proof. vm_compute. reflexivity. Qed.

(** ** Division in place *)

Lemma divmod_loop_spec base divisor pre suf r :
  0 < base ≤ 256 → 0 < divisor → 0 ≤ r < divisor → digits_in base suf →
  divmod_loop (length suf) (pre ++ suf) (length pre) r base divisor =
    ((long_div base divisor r suf).2, pre ++ (long_div base divisor r suf).1).
Proof.
  intros Hb Hd Hr Hs. revert pre r Hr.
  induction Hs as [|d suf Hdd Hs IH]; intros pre r Hr; simpl; [done|].
  rewrite (list_lookup_middle _ _ _ _ eq_refl).
  assert (0 ≤ r * base + d) as Hpos by nia.
  rewrite Z.quot_div_nonneg, Z.rem_mod_nonneg by lia.
  set (t := r * base + d) in *.
  rewrite (Z.mod_small (t / divisor)).
  2:{ split; [apply Z.div_pos; lia|].
      apply Z.div_lt_upper_bound; [lia|]. unfold t. nia. }
  rewrite (list_insert_middle _ _ _ _ _ eq_refl).
  replace (pre ++ t / divisor :: suf) with ((pre ++ [t / divisor]) ++ suf)
    by by rewrite <-(assoc_L app).
  replace (S (length pre)) with (length (pre ++ [t / divisor]))
    by (rewrite length_app; simpl; lia).
  rewrite IH by (apply Z.mod_pos_bound; lia).
  destruct (long_div base divisor (t mod divisor) suf) as [qs r']; simpl.
  by rewrite <-(assoc_L app).
Qed.

Lemma divmod_spec base divisor pre suf :
  0 < base ≤ 256 → 0 < divisor → digits_in base suf →
  divmod (pre ++ suf) (length pre) base divisor =
    ((long_div base divisor 0 suf).2, pre ++ (long_div base divisor 0 suf).1).
Proof.
  intros. unfold divmod. rewrite length_app.
  replace (length pre + length suf - length pre)%nat with (length suf) by lia.
  apply divmod_loop_spec; try done; lia.
Qed.

(** One division of a canonical byte string by a divisor of at most 256 loses
    at most one leading byte. *)
Lemma div_step_canonical divisor d suf q qs r :
  0 < divisor ≤ 256 → digits_in 256 (d :: suf) → d ≠ 0 →
  long_div 256 divisor 0 (d :: suf) = (q :: qs, r) → q = 0 → canonical qs.
Proof.
  intros Hd Hs Hnz Heq ->.
  destruct qs as [|q' qs]; [done|]. intros ->.
  destruct (long_div_spec 256 divisor 0 (d :: suf) _ _ ltac:(lia) ltac:(lia) ltac:(lia) Hs Heq)
    as (Hq & Hr & Hval).
  pose proof (long_div_length 256 divisor 0 (d :: suf)) as Hlen.
  rewrite Heq in Hlen. cbn [fst length] in Hlen. injection Hlen as Hlen.
  pose proof (eval_canonical_lower 256 d suf ltac:(lia) Hs Hnz) as Hlo.
  apply Forall_cons in Hq as [_ Hq]. apply Forall_cons in Hq as [_ Hq].
  pose proof (eval_bounds 256 qs ltac:(lia) Hq) as Hhi.
  rewrite !eval_cons in Hval. rewrite <-Hlen in Hlo.
  cbn [length] in Hlo. rewrite Nat2Z.inj_succ, Z.pow_succ_r in Hlo by lia.
  set (p := 256 ^ length qs) in *. rewrite eval_cons in Hlo. nia.
Qed.

(** ** Spelling digits *)

Lemma spell_length e ds cs : spell e ds cs → length ds = length cs.
Proof. apply Forall2_length. Qed.

Lemma spell_app e ds1 ds2 cs1 cs2 :
  spell e ds1 cs1 → spell e ds2 cs2 → spell e (ds1 ++ ds2) (cs1 ++ cs2).
Proof. apply Forall2_app. Qed.

Lemma spell_digits_in e ds cs : spell e ds cs → digits_in (length (alphabet e)) ds.
Proof.
  intros H. induction H as [|d c ds cs [H0 Hd] _ IH]; constructor; [|done].
  apply lookup_lt_Some in Hd. lia.
Qed.

Lemma spell_fun e ds cs cs' : spell e ds cs → spell e ds cs' → cs = cs'.
Proof.
  intros H. revert cs'. induction H as [|d c ds cs [_ Hd] _ IH]; intros cs' H'; inv H'; [done|].
  f_equal; [|auto]. destruct_and?. congruence.
Qed.

Lemma alphabet_inj e i j c :
  alphabet_wf e → alphabet e !! i = Some c → alphabet e !! j = Some c → i = j.
Proof.
  intros (_ & Hwf & _) Hi Hj.
  destruct (Hwf _ _ Hi) as [_ H1], (Hwf _ _ Hj) as [_ H2].
  rewrite H1 in H2. injection H2. lia.
Qed.

Lemma spell_inj e ds ds' cs : alphabet_wf e → spell e ds cs → spell e ds' cs → ds = ds'.
Proof.
  intros Hwf H. revert ds'.
  induction H as [|d c ds cs [H0 Hd] _ IH]; intros ds' H'; inv H'; [done|].
  f_equal; [|auto].
  match goal with H : 0 ≤ _ ∧ _ |- _ => destruct H as [? Hd'] end.
  pose proof (alphabet_inj _ _ _ _ Hwf Hd Hd'). lia.
Qed.

(** ** The main loop of encode *)

Section encode_loop.
Context (e : alphabetEncoding).
Let B : Z := length (alphabet e).
Hypothesis HB : 2 ≤ B ≤ 256.

Lemma encode_loop_spec fuel pre suf acc (o z : nat) :
  digits_in 256 suf → canonical suf → (o < fuel)%nat → (z ≤ o)%nat →
  eval 256 suf < B ^ (o - z)%nat →
  ∃ ds cs,
    encode_loop fuel e (pre ++ suf) (length pre) (replicate o 0 ++ acc) o =
      Some (replicate (o - length ds) 0 ++ cs ++ acc, (o - length ds)%nat) ∧
    spell e ds cs ∧ canonical ds ∧ eval B ds = eval 256 suf ∧ (length ds + z ≤ o)%nat.
Proof.
  revert pre suf acc o.
  induction fuel as [|fuel IH]; intros pre suf acc o Hs Hc Ho Hz Hroom; [lia|].
  destruct suf as [|d suf].
  { exists [], []. rewrite app_nil_r. simpl. rewrite Nat.leb_refl, Nat.sub_0_r.
    repeat split; [constructor|lia]. }
  cbn [encode_loop]. rewrite length_app. cbn [length].
  replace (length pre + S (length suf) <=? length pre)%nat with false
    by (symmetry; apply Nat.leb_gt; lia).
  pose proof (eval_canonical_lower 256 d suf eq_refl Hs Hc) as Hlo.
  assert (0 < 256 ^ length suf) as Hp by (apply Z.pow_pos_nonneg; lia).
  destruct o as [|o].
  { replace (0 - z)%nat with O in Hroom by lia. change (Z.of_nat 0) with 0 in Hroom. rewrite Z.pow_0_r in Hroom. lia. }
  rewrite divmod_spec by (try done; lia).
  destruct (long_div 256 B 0 (d :: suf)) as [qs r] eqn:Hdiv.
  pose proof (long_div_length 256 B 0 (d :: suf)) as Hlen.
  rewrite Hdiv in Hlen. destruct qs as [|q qs]; [done|].
  destruct (long_div_spec 256 B 0 (d :: suf) (q :: qs) r eq_refl ltac:(lia) ltac:(lia) Hs Hdiv)
    as (Hq & Hr & Hval).
  fold B. rewrite Hdiv. cbn [fst snd].
  destruct (lookup_lt_is_Some_2 (alphabet e) (Z.to_nat r)) as [c Hch].
  { unfold B in Hr. lia. }
  rewrite Hch, (list_lookup_middle _ _ _ _ eq_refl), insert_fill.
  assert (eval 256 (q :: qs) < B ^ (o - z)%nat ∧ (z ≤ o)%nat) as [Hroom' Hz'].
  { destruct (decide (z ≤ o)%nat) as [Hle|Hgt].
    - replace (S o - z)%nat with (S (o - z)) in Hroom by lia.
      rewrite Nat2Z.inj_succ, Z.pow_succ_r in Hroom by lia. split; [nia|done].
    - replace (S o - z)%nat with O in Hroom by lia. change (Z.of_nat 0) with 0 in Hroom. rewrite Z.pow_0_r in Hroom. lia. }
  assert (∃ pre' suf', pre ++ q :: qs = pre' ++ suf' ∧
    (if q =? 0 then S (length pre) else length pre) = length pre' ∧
    digits_in 256 suf' ∧ canonical suf' ∧ eval 256 suf' = eval 256 (q :: qs))
    as (pre' & suf' & -> & -> & Hs' & Hc' & Heq').
  { destruct (q =? 0) eqn:Hq0; bools.
    - exists (pre ++ [q]), qs. rewrite <-(assoc_L app), length_app. simpl.
      apply Forall_cons in Hq as [_ Hq'].
      split; [done|]. split; [lia|]. split; [done|]. split.
      + eapply (div_step_canonical B d suf q qs r); try done. lia.
      + rewrite eval_cons. subst q. lia.
    - exists pre, (q :: qs). done. }
  destruct (IH pre' suf' (c :: acc) o Hs' Hc' ltac:(lia) Hz' ltac:(lia))
    as (ds & cs & -> & Hsp & Hcan & Hev & Hle).
  exists (ds ++ [r]), (cs ++ [c]).
  rewrite length_app. cbn [length].
  replace (S o - (length ds + 1))%nat with (o - length ds)%nat by lia.
  rewrite <-(assoc_L app). repeat split.
  - apply spell_app; [done|]. repeat constructor; [lia|done].
  - destruct ds; [|done]. simpl. rewrite eval_nil in Hev. intros ->. lia.
  - rewrite eval_app, Hev, Heq', (eval_cons B r), (eval_nil B).
    change (Z.of_nat (length [r])) with 1. change (Z.of_nat (length (A:=Z) [])) with 0.
    rewrite Z.pow_1_r, Z.pow_0_r. lia.
  - lia.
Qed.
End encode_loop.

(** ** The constructor *)

(** The index table inverts the part of the alphabet read so far. *)
Definition indexes_of (pre idx : list Z) : Prop :=
  length idx = 128%nat ∧
  (∀ i c, pre !! i = Some c → 0 ≤ c < 128 ∧ idx !! Z.to_nat c = Some (Z.of_nat i)) ∧
  (∀ c ix, idx !! c = Some ix → ix = -1 ∨ ∃ i, ix = Z.of_nat i ∧ pre !! i = Some (Z.of_nat c)).

Lemma indexes_of_snoc pre idx char :
  indexes_of pre idx → 0 ≤ char < 128 → idx !! Z.to_nat char = Some (-1) →
  indexes_of (pre ++ [char]) (<[Z.to_nat char := Z.of_nat (length pre)]> idx).
Proof.
  intros (Hlen & Hfwd & Hbwd) Hc Hold. split; [by rewrite length_insert|].
  assert (Z.to_nat char < length idx)%nat as Hlt by lia. split.
  - intros i c [[Hi Hin]|[-> <-]]%lookup_snoc_Some.
    + destruct (Hfwd _ _ Hin) as [? Hix]. split; [done|].
      rewrite list_lookup_insert_ne; [done|].
      intros Heq. rewrite Heq, Hix in Hold. injection Hold. lia.
    + split; [done|]. by apply list_lookup_insert_eq.
  - intros c ix Hix. destruct (decide (Z.to_nat char = c)) as [<-|Hne].
    + rewrite list_lookup_insert_eq in Hix by done. injection Hix as <-. right.
      exists (length pre). split; [done|]. rewrite list_lookup_middle by done.
      f_equal. lia.
    + rewrite list_lookup_insert_ne in Hix by done.
      destruct (Hbwd _ _ Hix) as [|(i & -> & Hi)]; [by left|right].
      exists i. split; [done|]. by apply lookup_app_l_Some.
Qed.

Lemma fill_indexes_spec rest pre idx idx' :
  Forall is_byte rest → indexes_of pre idx →
  fill_indexes rest (Z.of_nat (length pre)) idx = Some idx' →
  indexes_of (pre ++ rest) idx'.
Proof.
  intros Hb. revert pre idx. induction Hb as [|char rest Hc _ IH]; intros pre idx Hidx Hf.
  { simpl in Hf. injection Hf as <-. by rewrite app_nil_r. }
  simpl in Hf. destruct (128 <=? char) eqn:E1; [done|]. bools. unfold is_byte in Hc.
  destruct (idx !! Z.to_nat char) as [old|] eqn:Eold; [|done].
  destruct (0 <=? old) eqn:E2; [done|]. bools.
  assert (old = -1) as ->.
  { destruct Hidx as (_ & _ & Hbwd).
    destruct (Hbwd _ _ Eold) as [|(i & -> & _)]; [done|lia]. }
  replace (pre ++ char :: rest) with ((pre ++ [char]) ++ rest) by by rewrite <-(assoc_L app).
  eapply IH; [apply indexes_of_snoc; [done|lia|done]|].
  rewrite length_app. cbn [length].
  by replace (Z.of_nat (length pre + 1)) with (Z.of_nat (length pre) + 1) by lia.
Qed.

Lemma indexes_of_init : indexes_of [] (replicate 128 (-1)).
Proof.
  split; [by rewrite length_replicate|]. split; [done|].
  intros c ix [-> _]%lookup_replicate. by left.
Qed.

(** A constructed encoding has an index table that inverts its alphabet. *)
Lemma newAlphabetEncoding_wf nm chars e :
  Forall is_byte chars → newAlphabetEncoding nm chars = Some e →
  alphabet_wf e ∧ alphabet e = chars.
Proof.
  intros Hb. unfold newAlphabetEncoding. destruct (length chars <? 2)%nat; [done|].
  destruct (fill_indexes chars 0 (replicate 128 (-1))) as [idx|] eqn:E; [|done].
  intros [= <-]. split; [|done].
  apply (fill_indexes_spec chars [] (replicate 128 (-1)) idx); eauto using indexes_of_init.
Qed.

Lemma base58_ok : newAlphabetEncoding "Base58" base58Alphabet = Some base58.
Proof. vm_compute. reflexivity. Qed.

Lemma base62_ok : newAlphabetEncoding "Base62" base62Alphabet = Some base62.
Proof. vm_compute. reflexivity. Qed.

Lemma bytes_of_is_byte s : Forall is_byte (bytes_of s).
Proof.
  unfold bytes_of. apply Forall_map, Forall_true. intros c. unfold is_byte. simpl.
  pose proof (Ascii.N_ascii_bounded c). lia.
Qed.

Lemma base58_wf : alphabet_wf base58 ∧ alphabet_size_ok base58.
Proof.
  split; [|vm_compute; split; discriminate].
  eapply newAlphabetEncoding_wf; [apply bytes_of_is_byte|apply base58_ok].
Qed.

Lemma base62_wf : alphabet_wf base62 ∧ alphabet_size_ok base62.
Proof.
  split; [|vm_compute; split; discriminate].
  eapply newAlphabetEncoding_wf; [apply bytes_of_is_byte|apply base62_ok].
Qed.

(** ** The output buffer is large enough *)

(** [58 ^ 138 >= 256 ^ 100], hence [n * 138 / 100 + 1] digits hold [n] bytes. *)
Lemma buffer_bound (B : Z) (n : nat) :
  58 ≤ B → 256 ^ n ≤ B ^ (n * 138 / 100 + 1)%nat.
Proof.
  intros HB. set (q := (n * 138 / 100 + 1)%nat).
  assert (138 * n ≤ 100 * q) as Hq.
  { unfold q. pose proof (Nat.div_mod_eq (n * 138) 100).
    pose proof (Nat.mod_upper_bound (n * 138) 100). lia. }
  destruct (Z.le_gt_cases (256 ^ n) (B ^ q)) as [|Hgt]; [done|exfalso].
  assert ((B ^ q) ^ 100 < (256 ^ n) ^ 100) as Hgt'.
  { apply Z.pow_lt_mono_l; [lia|]. split; [apply Z.pow_nonneg; lia|done]. }
  clear Hgt. rename Hgt' into Hgt. rewrite <-!Z.pow_mul_r in Hgt by lia.
  assert (256 ^ (n * 100) ≤ B ^ (q * 100)); [|lia].
  transitivity (58 ^ (138 * n)).
  - rewrite (Z.mul_comm n), !Z.pow_mul_r by lia. apply Z.pow_le_mono_l.
    split; [apply Z.pow_nonneg; lia|]. vm_compute. discriminate.
  - transitivity (58 ^ (q * 100)); [apply Z.pow_le_mono_r; lia|].
    apply Z.pow_le_mono_l. lia.
Qed.

(** ** Skipping loops *)

Lemma skip_from_stop fuel pre c x rest :
  x ≠ c → skip_from fuel (pre ++ x :: rest) (length pre) c = length pre.
Proof.
  intros Hne. destruct fuel; [done|]. simpl.
  rewrite (list_lookup_middle _ _ _ _ eq_refl).
  by apply Z.eqb_neq in Hne as ->.
Qed.

Lemma skip_from_end fuel buf start c : buf !! start = None → skip_from fuel buf start c = start.
Proof. intros H. destruct fuel; simpl; [done|]. by rewrite H. Qed.

Lemma skip_from_zeros fuel pre bs :
  (length bs ≤ fuel)%nat →
  skip_from fuel (pre ++ bs) (length pre) 0 = (length pre + leading_zeros bs)%nat.
Proof.
  revert fuel pre. induction bs as [|b bs IH]; intros fuel pre Hf.
  { rewrite skip_from_end; [simpl; lia|]. apply lookup_ge_None. rewrite app_nil_r. lia. }
  destruct fuel as [|fuel]; [simpl in Hf; lia|]. simpl in Hf. cbn [skip_from leading_zeros].
  rewrite (list_lookup_middle _ _ _ _ eq_refl).
  destruct (b =? 0) eqn:E; [|lia].
  replace (pre ++ b :: bs) with ((pre ++ [b]) ++ bs) by by rewrite <-(assoc_L app).
  replace (S (length pre)) with (length (pre ++ [b])) by (rewrite length_app; simpl; lia).
  rewrite IH by lia. rewrite length_app. simpl. lia.
Qed.

Lemma prepend_zeros_spec z zero acc (o : nat) :
  (z ≤ o)%nat →
  prepend_zeros z zero (replicate o 0 ++ acc) o =
    Some (replicate (o - z) 0 ++ replicate z zero ++ acc, (o - z)%nat).
Proof.
  revert o acc. induction z as [|z IH]; intros o acc Hz; simpl.
  { by rewrite Nat.sub_0_r. }
  destruct o as [|o]; [lia|]. rewrite insert_fill, IH by lia. simpl.
  rewrite app_comm_cons, replicate_cons_app. by rewrite <-!(assoc_L app).
Qed.

(** ** Encode and decode against the positional specification *)

(** The first character of a canonical spelling is not the zero character, so
    the loop that trims leading zero characters stops at once. *)
Lemma trim_spelled e fuel ds cs zero (o : nat) :
  alphabet_wf e → alphabet e !! O = Some zero → spell e ds cs → canonical ds →
  skip_from fuel (replicate o 0 ++ cs) o zero = o.
Proof.
  intros Hwf Hzero Hsp Hc. destruct Hsp as [|d c ds cs [H0 Hd] _].
  - apply skip_from_end, lookup_ge_None. rewrite app_nil_r, length_replicate. lia.
  - rewrite <-(length_replicate o 0) at 2 3. apply skip_from_stop. intros ->.
    pose proof (alphabet_inj _ _ _ _ Hwf Hd Hzero). simpl in Hc. lia.
Qed.

Lemma spell_zeros e zero n :
  alphabet e !! O = Some zero → spell e (replicate n 0) (replicate n zero).
Proof. intros H. induction n; simpl; constructor; [split; [lia|done]|done]. Qed.

Lemma encode_spec e input :
  alphabet_wf e → alphabet_size_ok e → digits_in 256 input →
  ∃ ds cs, encode e input = Some cs ∧
    spell e (replicate (leading_zeros input) 0 ++ ds) cs ∧ canonical ds ∧
    eval (length (alphabet e)) ds = eval 256 input.
Proof.
  intros Hwf Hsz Hin. destruct input as [|b input'].
  { exists [], []. repeat split. constructor. }
  unfold encode. cbv beta iota. set (input := b :: input') in *.
  set (z := leading_zeros input). set (size := (length input * 138 / 100 + 2)%nat).
  destruct (leading_zeros_split input) as [Hsplit Hcan]. fold z in Hsplit, Hcan.
  pose proof (leading_zeros_le input) as Hzle. fold z in Hzle.
  destruct (lookup_lt_is_Some_2 (alphabet e) 0) as [zero Hzero].
  { unfold alphabet_size_ok in Hsz. lia. }
  set (suf := drop z input) in *.
  assert (digits_in 256 suf) as Hsuf by (unfold suf; auto with go).
  assert (length suf = length input - z)%nat as Hls by (unfold suf; by rewrite length_drop).
  assert (length suf * 138 / 100 + 1 + z ≤ size)%nat as Hroom.
  { unfold size. pose proof (Nat.div_mod_eq (length input * 138) 100).
    pose proof (Nat.div_mod_eq (length suf * 138) 100).
    pose proof (Nat.mod_upper_bound (length input * 138) 100).
    pose proof (Nat.mod_upper_bound (length suf * 138) 100). lia. }
  destruct (encode_loop_spec e ltac:(unfold alphabet_size_ok in Hsz; lia) (S size)
    (replicate z 0) suf [] size z Hsuf Hcan) as (ds & cs & Hloop & Hsp & Hcds & Hev & Hle);
    [lia..| |].
  { pose proof (eval_bounds 256 suf eq_refl Hsuf).
    pose proof (buffer_bound (length (alphabet e)) (length suf) ltac:(apply Hsz)).
    eapply Z.lt_le_trans; [apply H|]. etrans; [exact H0|].
    apply Z.pow_le_mono_r; unfold alphabet_size_ok in Hsz; lia. }
  rewrite <-Hsplit, length_replicate, !app_nil_r in Hloop.
  rewrite Hloop, Hzero, (trim_spelled e _ ds) by done.
  rewrite prepend_zeros_spec by lia.
  rewrite drop_replicate_app.
  exists ds, (replicate z zero ++ cs). split; [done|]. repeat split; [|done|].
  - apply spell_app; [by apply spell_zeros|done].
  - rewrite Hev. rewrite Hsplit. by rewrite eval_zeros_app.
Qed.

Lemma decode_digits_spell e ds cs index :
  alphabet_wf e → length (alphabet e) ≤ 128 → spell e ds cs → decode_digits e cs index = Ok ds.
Proof.
  intros Hwf Hsz H. revert index.
  induction H as [|d c ds cs [H0 Hd] _ IH]; intros index; simpl; [done|].
  destruct Hwf as (_ & Hfwd & _). destruct (Hfwd _ _ Hd) as [Hc Hix].
  apply lookup_lt_Some in Hd.
  destruct (128 <=? c) eqn:E; bools; [lia|].
  rewrite Hix, IH. destruct (Z.of_nat (Z.to_nat d) <? 0) eqn:E2; bools; [lia|].
  rewrite Z2Nat.id, Z.mod_small by lia. done.
Qed.

(** Conversely, the digits [decode] reads spell the input. *)
Lemma decode_digits_Ok e ds cs index :
  alphabet_wf e → length (alphabet e) ≤ 128 → Forall is_byte cs →
  decode_digits e cs index = Ok ds → spell e ds cs.
Proof.
  intros Hwf Hsz Hb. revert ds index.
  induction Hb as [|c cs Hc _ IH]; intros ds index; simpl; [by intros [= <-]; constructor|].
  destruct (128 <=? c) eqn:E; [done|]. bools.
  destruct (indexes e !! Z.to_nat c) as [ix|] eqn:Hix; [|done].
  destruct (ix <? 0) eqn:E2; [done|]. bools.
  destruct (decode_digits e cs (index + 1)) as [ds'|] eqn:Hd; [|done]. intros [= <-].
  destruct Hwf as (_ & _ & Hbwd).
  destruct (Hbwd _ _ Hix) as [->|(i & -> & Hi)]; [lia|].
  pose proof (lookup_lt_Some _ _ _ Hi).
  constructor; [|by eapply IH]. rewrite Z.mod_small by lia. split; [lia|].
  unfold is_byte in Hc. rewrite Nat2Z.id, Hi, Z2Nat.id by lia. done.
Qed.

Section decode_loop.
Context (e : alphabetEncoding).
Let B : Z := length (alphabet e).
Hypothesis HB : 2 ≤ B ≤ 256.

(** Every iteration of the decode loop consumes one digit, because a digit is
    smaller than the divisor 256. *)
Lemma decode_loop_spec fuel pre suf acc (o : nat) :
  digits_in B suf → (length suf ≤ o < fuel)%nat →
  ∃ bs,
    decode_loop fuel e (pre ++ suf) (length pre) (replicate o 0 ++ acc) o =
      Some (replicate (o - length suf) 0 ++ bs ++ acc, (o - length suf)%nat) ∧
    length bs = length suf ∧ digits_in 256 bs ∧ eval 256 bs = eval B suf.
Proof.
  revert pre suf acc o.
  induction fuel as [|fuel IH]; intros pre suf acc o Hs Ho; [lia|].
  destruct suf as [|d suf].
  { exists []. rewrite app_nil_r. simpl. rewrite Nat.leb_refl, Nat.sub_0_r.
    repeat split. constructor. }
  cbn [decode_loop length] in *. rewrite length_app. cbn [length].
  replace (length pre + S (length suf) <=? length pre)%nat with false
    by (symmetry; apply Nat.leb_gt; lia).
  destruct o as [|o]; [lia|].
  rewrite divmod_spec by (try done; lia). fold B.
  destruct (long_div B 256 0 (d :: suf)) as [qs r] eqn:Hdiv.
  pose proof (long_div_length B 256 0 (d :: suf)) as Hlen.
  rewrite Hdiv in Hlen. destruct qs as [|q qs]; [done|].
  destruct (long_div_spec B 256 0 (d :: suf) (q :: qs) r ltac:(lia) eq_refl ltac:(lia) Hs Hdiv)
    as (Hq & Hr & Hval).
  assert (q = 0) as ->.
  { simpl in Hdiv. destruct (long_div B 256 _ suf). injection Hdiv as <- _ _.
    apply Forall_cons in Hs as [? _]. apply Z.div_small. lia. }
  cbn [fst snd]. rewrite (list_lookup_middle _ _ _ _ eq_refl), insert_fill.
  cbn [Z.eqb]. cbn [fst length] in Hlen. injection Hlen as Hlen.
  apply Forall_cons in Hq as [_ Hq].
  replace (pre ++ 0 :: qs) with ((pre ++ [0]) ++ qs) by by rewrite <-(assoc_L app).
  replace (S (length pre)) with (length (pre ++ [0])) by (rewrite length_app; simpl; lia).
  destruct (IH (pre ++ [0]) qs (r mod 256 :: acc) o Hq ltac:(lia)) as (bs & -> & Hl & Hbs & Hev).
  exists (bs ++ [r]). rewrite Hlen in *. rewrite Z.mod_small by lia.
  rewrite <-(assoc_L app), length_app. cbn [length].
  replace (S o - S (length suf))%nat with (o - length suf)%nat by lia.
  split; [done|]. split; [lia|]. split.
  - apply digits_in_app. split; [done|]. repeat constructor; lia.
  - rewrite eval_app, Hev, (eval_cons 256 r), (eval_nil 256).
    change (Z.of_nat (length [r])) with 1. change (Z.of_nat (length (A:=Z) [])) with 0.
    rewrite (eval_cons B 0 qs) in Hval. rewrite Z.pow_1_r, Z.pow_0_r. lia.
Qed.
End decode_loop.

Lemma decode_spec e ds cs :
  alphabet_wf e → alphabet_size_ok e → spell e ds cs →
  ∃ bs, decode e cs = Some (Ok (replicate (leading_zeros ds) 0 ++ bs)) ∧
    digits_in 256 bs ∧ canonical bs ∧ eval 256 bs = eval (length (alphabet e)) ds.
Proof.
  intros Hwf Hsz Hsp. unfold alphabet_size_ok in Hsz.
  destruct cs as [|c cs'].
  { inv Hsp. exists []. repeat split. constructor. }
  unfold decode. cbv beta iota. set (cs := c :: cs') in *.
  rewrite (decode_digits_spell _ ds) by (try done; lia).
  pose proof (spell_length _ _ _ Hsp) as Hlen.
  destruct (leading_zeros_split ds) as [Hsplit _].
  pose proof (leading_zeros_le ds) as Hzle.
  set (z := leading_zeros ds) in *. set (suf := drop z ds) in *.
  assert (digits_in (length (alphabet e)) suf) as Hsuf.
  { unfold suf. apply digits_in_drop. by eapply spell_digits_in. }
  assert (length suf = length ds - z)%nat as Hls by (unfold suf; by rewrite length_drop).
  destruct (decode_loop_spec e ltac:(lia) (S (length cs)) (replicate z 0) suf [] (length cs) Hsuf
    ltac:(lia)) as (bs & Hloop & Hl & Hbs & Hev).
  rewrite <-Hsplit, length_replicate, !app_nil_r in Hloop. rewrite Hloop.
  set (o := (length cs - length suf)%nat) in *.
  pose proof (skip_from_zeros (length cs) (replicate o 0) bs ltac:(lia)) as Hskip.
  rewrite length_replicate in Hskip. rewrite Hskip.
  exists (drop (leading_zeros bs) bs).
  rewrite drop_app_add' by by rewrite length_replicate.
  destruct (leading_zeros_split bs) as [Hbsp Hcb].
  split; [done|]. split; [auto with go|]. split; [done|].
  rewrite Hsplit, eval_zeros_app, <-Hev.
  by rewrite <-(eval_zeros_app 256 (leading_zeros bs) (drop _ _)), <-Hbsp.
Qed.

(** ** Properties *)

(** C31. Round trip of an alphabet encoding: for every alphabet of 58 to 128
    distinct ASCII characters that the constructor accepts (Base58 and Base62
    are two of them) and every byte slice, [encode] returns without an index
    panic (its [len*138/100+2] byte buffer is large enough) and [decode]
    returns exactly the original bytes, leading zero bytes included. *)
Theorem alphabet_decode_encode nm chars e input :
  Forall is_byte chars → 58 ≤ length chars ≤ 128 →
  newAlphabetEncoding nm chars = Some e → Forall is_byte input →
  ∃ cs, encode e input = Some cs ∧ decode e cs = Some (Ok input).
Proof.
  intros Hch Hlen Hnew Hin.
  destruct (newAlphabetEncoding_wf _ _ _ Hch Hnew) as [Hwf Hal].
  assert (alphabet_size_ok e) as Hsz by (unfold alphabet_size_ok; by rewrite Hal).
  destruct (encode_spec e input Hwf Hsz Hin) as (ds & cs & Henc & Hsp & Hcds & Hev).
  exists cs. split; [done|].
  destruct (decode_spec e _ cs Hwf Hsz Hsp) as (bs & -> & Hbs & Hcb & Hevb).
  rewrite leading_zeros_app by done. do 2 f_equal.
  destruct (leading_zeros_split input) as [Hsplit Hcan]. rewrite Hsplit at 2. f_equal.
  apply (eval_inj 256); try done; [by apply digits_in_drop|].
  rewrite Hevb, eval_zeros_app, Hev. rewrite Hsplit at 1. by rewrite eval_zeros_app.
Qed.

Lemma alphabet_decode_encode_witness :
  ∃ cs, encode base58 (0 :: 255 :: bytes_of "bluetape") = Some cs ∧
        decode base58 cs = Some (Ok (0 :: 255 :: bytes_of "bluetape")).
Proof.
  apply (alphabet_decode_encode "Base58" base58Alphabet).
  - apply bytes_of_is_byte.
  - vm_compute. split; discriminate.
  - apply base58_ok.
  - repeat constructor; discriminate.
Defined.

(** Decoding is injective and canonical: whenever [decode] accepts a
    string, encoding the decoded bytes gives that very string back. *)
Theorem alphabet_encode_decode nm chars e cs bs :
  Forall is_byte chars → 58 ≤ length chars ≤ 128 →
  newAlphabetEncoding nm chars = Some e → Forall is_byte cs →
  decode e cs = Some (Ok bs) → encode e bs = Some cs.
Proof.
  intros Hch Hlen Hnew Hcs Hdec.
  destruct (newAlphabetEncoding_wf _ _ _ Hch Hnew) as [Hwf Hal].
  assert (alphabet_size_ok e) as Hsz by (unfold alphabet_size_ok; by rewrite Hal).
  assert (∃ ds, decode_digits e cs 0 = Ok ds) as [ds Hds].
  { unfold decode in Hdec. destruct cs; [by eexists|].
    destruct (decode_digits e (z :: cs) 0); [by eexists|done]. }
  apply decode_digits_Ok in Hds as Hsp; [|done|rewrite Hal; lia|done].
  destruct (decode_spec e ds cs Hwf Hsz Hsp) as (b' & Hdec' & Hb' & Hcb & Hev).
  rewrite Hdec in Hdec'. injection Hdec' as ->.
  assert (digits_in 256 (replicate (leading_zeros ds) 0 ++ b')) as Hall.
  { apply digits_in_app. split; [by apply digits_in_zeros|done]. }
  destruct (encode_spec e _ Hwf Hsz Hall) as (ds' & cs' & -> & Hsp' & Hcds' & Hev').
  rewrite leading_zeros_app in Hsp' by done. rewrite eval_zeros_app, Hev in Hev'. f_equal.
  eapply spell_fun; [exact Hsp'|].
  destruct (leading_zeros_split ds) as [Hsplit Hcan]. rewrite Hsplit in Hsp.
  replace ds' with (drop (leading_zeros ds) ds); [done|].
  unfold alphabet_size_ok in Hsz. apply (eval_inj (length (alphabet e))); try done; [lia|..].
  - apply spell_digits_in in Hsp. by apply digits_in_app in Hsp as [_ ?].
  - apply spell_digits_in in Hsp'. by apply digits_in_app in Hsp' as [_ ?].
  - by rewrite Hev', <-(eval_zeros_app _ (leading_zeros ds) (drop _ _)), <-Hsplit.
Qed.

Lemma alphabet_encode_decode_witness :
  encode base62 [0; 1; 226; 64] = Some (bytes_of "0W7E").
Proof.
  apply (alphabet_encode_decode "Base62" base62Alphabet).
  - apply bytes_of_is_byte.
  - vm_compute. split; discriminate.
  - apply base62_ok.
  - apply bytes_of_is_byte.
  - vm_compute. reflexivity.
Defined.

(** The first character outside the alphabet, with its position. *)
Fixpoint first_invalid (e : alphabetEncoding) (cs : list Z) (index : Z) : option (Z * Z) :=
  match cs with
  | [] => None
  | c :: cs' => if bool_decide (c ∈ alphabet e) then first_invalid e cs' (index + 1)
                else Some (c, index)
  end.

Lemma decode_digits_valid e c :
  alphabet_wf e → is_byte c →
  (∃ ix, 0 ≤ ix ∧ c < 128 ∧ indexes e !! Z.to_nat c = Some ix) ↔ c ∈ alphabet e.
Proof.
  intros (_ & Hfwd & Hbwd) Hc. unfold is_byte in Hc. rewrite list_elem_of_lookup. split.
  - intros (ix & H0 & H1 & Hix). destruct (Hbwd _ _ Hix) as [->|(i & -> & Hi)]; [lia|].
    exists i. by rewrite Hi, Z2Nat.id by lia.
  - intros [i Hi]. destruct (Hfwd _ _ Hi) as [? Hix]. exists (Z.of_nat i). auto with lia.
Qed.

Lemma decode_digits_invalid e cs index :
  alphabet_wf e → Forall is_byte cs →
  match first_invalid e cs index with
  | None => ∃ ds, decode_digits e cs index = Ok ds
  | Some (c, pos) =>
      decode_digits e cs index =
        Fail (Typed "fmt.Errorf" [FStr (name e); FInt c; FInt pos] [] None)
  end.
Proof.
  intros Hwf Hb. revert index. induction Hb as [|c cs Hc Hb IH]; intros index; simpl; [by eexists|].
  pose proof (decode_digits_valid e c Hwf Hc) as Hv. specialize (IH (index + 1)).
  case_bool_decide as Hin.
  - apply Hv in Hin as (ix & H0 & H1 & Hix).
    destruct (128 <=? c) eqn:E; bools; [lia|]. rewrite Hix.
    destruct (ix <? 0) eqn:E2; bools; [lia|].
    destruct (first_invalid e cs (index + 1)) as [[c' pos]|]; [by rewrite IH|].
    destruct IH as [ds ->]. by eexists.
  - destruct (128 <=? c) eqn:E; [done|]. bools.
    destruct (indexes e !! Z.to_nat c) as [ix|] eqn:Hix; [|done].
    destruct (ix <? 0) eqn:E2; [done|]. bools.
    destruct Hin. apply Hv. exists ix. repeat split; [lia..|done].
Qed.

(** [decode] never panics; it rejects exactly the strings that contain a
    character outside the alphabet, and the error names the first such
    character and its position. *)
Theorem decode_rejects nm chars e cs :
  Forall is_byte chars → 58 ≤ length chars ≤ 128 →
  newAlphabetEncoding nm chars = Some e → Forall is_byte cs →
  match first_invalid e cs 0 with
  | None => ∃ bs, decode e cs = Some (Ok bs)
  | Some (c, pos) =>
      decode e cs = Some (Fail (Typed "fmt.Errorf" [FStr (name e); FInt c; FInt pos] [] None))
  end.
Proof.
  intros Hch Hlen Hnew Hcs.
  destruct (newAlphabetEncoding_wf _ _ _ Hch Hnew) as [Hwf Hal].
  assert (alphabet_size_ok e) as Hsz by (unfold alphabet_size_ok; by rewrite Hal).
  pose proof (decode_digits_invalid e cs 0 Hwf Hcs) as H.
  destruct (first_invalid e cs 0) as [[c pos]|] eqn:Hfi.
  - unfold decode. destruct cs; [done|]. by rewrite H.
  - destruct H as [ds Hds]. apply decode_digits_Ok in Hds; [|done|rewrite Hal; lia|done].
    destruct (decode_spec e ds cs Hwf Hsz Hds) as (bs & -> & _). by eexists.
Qed.

Lemma decode_rejects_witness :
  decode base58 (bytes_of "1a0b") =
    Some (Fail (Typed "fmt.Errorf" [FStr "Base58"; FInt 48; FInt 2] [] None)).
Proof.
  apply (decode_rejects "Base58" base58Alphabet base58 (bytes_of "1a0b")).
  - apply bytes_of_is_byte.
  - vm_compute. split; discriminate.
  - apply base58_ok.
  - apply bytes_of_is_byte.
Defined.
