(* ===== verification/StateMachine.v ===== *)
(** * state: finite state machines

    Models [src/state/machine.go], [types.go] and [errors.go].  The immutable
    tables of a [Machine] are a record; its one mutable field, [current], is
    part of the world next to the environment [W], because a guard runs
    without the lock and may itself drive the machine.  Concurrent use is a
    step relation whose atomic steps are the critical sections of the code. *)

From S2P Require Import Prelude GoError.

(** [errors.go] *)
Definition ErrInvalidTransition : error := Sentinel "state.ErrInvalidTransition".
Definition ErrGuardRejected : error := Sentinel "state.ErrGuardRejected".
Definition ErrFinalState : error := Sentinel "state.ErrFinalState".
Definition ErrConcurrentTransition : error := Sentinel "state.ErrConcurrentTransition".
Definition ErrDuplicateTransition : error := Sentinel "state.ErrDuplicateTransition".
Definition ErrUnknownInitialState : error := Sentinel "state.ErrUnknownInitialState".

(** [TransitionError]: its [Is] matches [Kind], its [Unwrap] returns [Cause]. *)
Definition TransitionError (kind : string) (from event to : field) (cause : option error) : error :=
  Typed "state.TransitionError" [from; event; to] [kind] cause.

Section machine.
Context {S E W : Type} `{EqDecision S, Countable S, EqDecision E, Countable E}.

(** The world of a machine's callbacks: its current state and the rest. *)
Abbreviation world := (S * W)%type.

Definition Guard : Type := Context world → S → E → Call world (option error).

Record Transition_ := mkTransition {
  From : S;
  Event : E;
  To : S;
  Guard_ : option Guard
}.

Record Result := mkResult {
  Previous : S;
  REvent : E;
  Current : S
}.

Record config := mkConfig { cfg_finalStates : option (gset S) }.

Definition Option_ : Type := config → config.

(** [WithFinalStates] *)
Definition WithFinalStates (states : list S) : Option_ := λ cfg,
  mkConfig (Some (list_to_set states ∪ default ∅ (cfg_finalStates cfg))).

Record transitionTarget := mkTarget {
  to : S;
  guard : option Guard
}.

Record Machine := mkMachine {
  transitions : gmap (S * E) transitionTarget;
  allowed : gmap S (list E);
  finalStates : gset S
}.

(** [transitionKey] of a transition. *)
Definition key_of (t : Transition_) : S * E := (From t, Event t).

(** The loop of [NewMachine] over the transitions. *)
Fixpoint register (ts : list Transition_) (registered : gmap (S * E) transitionTarget)
    (allow : gmap S (list E)) (known : gset S)
    : result (gmap (S * E) transitionTarget * gmap S (list E) * gset S) :=
  match ts with
  | [] => Ok (registered, allow, known)
  | t :: ts' =>
      let key := key_of t in
      match registered !! key with
      | Some _ => Fail (TransitionError "state.ErrDuplicateTransition"
                          (fieldOf (From t)) (fieldOf (Event t)) (fieldOf (To t)) None)
      | None =>
          register ts'
            (<[key := mkTarget (To t) (Guard_ t)]> registered)
            (<[From t := default [] (allow !! From t) ++ [Event t]]> allow)
            ({[To t]} ∪ ({[From t]} ∪ known))
      end
  end.

(** [NewMachine]: the machine's tables, with [initial] as its current state.
    A nil option is skipped. *)
Definition NewMachine (initial : S) (ts : list Transition_) (options : list (option Option_))
    : result (Machine * S) :=
  let cfg := foldl (λ c o, match o with Some f => f c | None => c end)
               (mkConfig (Some ∅)) options in
  let finals := default ∅ (cfg_finalStates cfg) in
  match register ts ∅ ∅ finals with
  | Fail e => Fail e
  | Ok (registered, allow, known) =>
      if decide (initial ∈ known) then Ok (mkMachine registered allow finals, initial)
      else Fail (TransitionError "state.ErrUnknownInitialState"
                   (fieldOf initial) zeroField zeroField None)
  end.

(** [State] *)
Definition State : Call world S := λ σ, (σ.1, σ).

(** [lookup]: the read-locked section. *)
Definition lookup_ (m : Machine) (current : S) (event : E) : result (S * transitionTarget) :=
  if decide (current ∈ finalStates m)
  then Fail (TransitionError "state.ErrFinalState" (fieldOf current) (fieldOf event) zeroField None)
  else match transitions m !! (current, event) with
       | None => Fail (TransitionError "state.ErrInvalidTransition"
                         (fieldOf current) (fieldOf event) zeroField None)
       | Some target => Ok (current, target)
       end.

(** The write-locked section that ends [Transition]: compare and set. *)
Definition commit (current from : S) (event : E) (target : transitionTarget)
    : result Result * S :=
  if decide (current = from) then (Ok (mkResult from event (to target)), to target)
  else (Fail (TransitionError "state.ErrConcurrentTransition"
                (fieldOf from) (fieldOf event) (fieldOf (to target)) None), current).

(** [Transition] *)
Definition Transition (m : Machine) (octx : option (Context world)) (event : E)
    : Call world (result Result) := λ σ,
  let ctx := orBackground octx in
  match ctx_Err ctx σ with
  | (Some err, σ1) => (Fail err, σ1)
  | (None, σ1) =>
      match lookup_ m σ1.1 event with
      | Fail err => (Fail err, σ1)
      | Ok (from, target) =>
          let '(gerr, σ2) :=
            match guard target with
            | None => (None, σ1)
            | Some g => g ctx from event σ1
            end in
          match gerr with
          | Some err =>
              (Fail (TransitionError "state.ErrGuardRejected" (fieldOf from) (fieldOf event)
                       (fieldOf (to target)) (Some err)), σ2)
          | None =>
              match ctx_Err ctx σ2 with
              | (Some err, σ3) => (Fail err, σ3)
              | (None, σ3) =>
                  let '(r, current') := commit σ3.1 from event target in
                  (r, (current', σ3.2))
              end
          end
      end
  end.

(** [CanTransition] *)
Definition CanTransition (m : Machine) (octx : option (Context world)) (event : E)
    : Call world (bool * option error) := λ σ,
  let ctx := orBackground octx in
  match ctx_Err ctx σ with
  | (Some err, σ1) => ((false, Some err), σ1)
  | (None, σ1) =>
      match lookup_ m σ1.1 event with
      | Fail err =>
          if errors_Is err "state.ErrInvalidTransition" || errors_Is err "state.ErrFinalState"
          then ((false, None), σ1) else ((false, Some err), σ1)
      | Ok (from, target) =>
          match guard target with
          | None => ((true, None), σ1)
          | Some g =>
              match g ctx from event σ1 with
              | (Some err, σ2) =>
                  ((false, Some (TransitionError "state.ErrGuardRejected" (fieldOf from)
                                   (fieldOf event) (fieldOf (to target)) (Some err))), σ2)
              | (None, σ2) =>
                  match ctx_Err ctx σ2 with
                  | (Some err, σ3) => ((false, Some err), σ3)
                  | (None, σ3) => ((true, None), σ3)
                  end
              end
          end
      end
  end.

(** [AllowedEvents] *)
Definition AllowedEvents (m : Machine) (current : S) : list E :=
  if decide (current ∈ finalStates m) then [] else default [] (allowed m !! current).

(** ** Concurrent use

    A goroutine that calls [Transition] is before its read-locked section,
    between the two sections (its guard runs, other goroutines may move the
    machine), or done.  The guard and the context are not constrained: they
    answer anything. *)
Inductive goroutine : Type :=
| Calling (event : E)
| Guarding (event : E) (from : S) (target : transitionTarget)
| Done (event : E) (r : result Result).

(** The shared machine, its goroutines, and the committed transitions in the
    order of their write-locked sections. *)
Record system := mkSystem {
  sys_current : S;
  sys_threads : list goroutine;
  sys_history : list Result
}.

Inductive step (m : Machine) : system → system → Prop :=
| StepSpawn s event :
    step m s (mkSystem (sys_current s) (sys_threads s ++ [Calling event]) (sys_history s))
| StepCtxErr s i event err :
    sys_threads s !! i = Some (Calling event) →
    step m s (mkSystem (sys_current s) (<[i := Done event (Fail err)]> (sys_threads s))
                (sys_history s))
| StepLookupOk s i event from target :
    sys_threads s !! i = Some (Calling event) →
    lookup_ m (sys_current s) event = Ok (from, target) →
    step m s (mkSystem (sys_current s)
                (<[i := Guarding event from target]> (sys_threads s)) (sys_history s))
| StepLookupFail s i event err :
    sys_threads s !! i = Some (Calling event) →
    lookup_ m (sys_current s) event = Fail err →
    step m s (mkSystem (sys_current s)
                (<[i := Done event (Fail err)]> (sys_threads s)) (sys_history s))
| StepGuardFail s i event from target err :
    sys_threads s !! i = Some (Guarding event from target) →
    step m s (mkSystem (sys_current s)
                (<[i := Done event (Fail err)]> (sys_threads s)) (sys_history s))
| StepCommit s i event from target r current' :
    sys_threads s !! i = Some (Guarding event from target) →
    commit (sys_current s) from event target = (r, current') →
    step m s (mkSystem current' (<[i := Done event r]> (sys_threads s))
                (sys_history s ++ (match r with Ok res => [res] | Fail _ => [] end))).

(** The abstract machine: a path in the transition table that never leaves a
    final state. *)
Definition edge (m : Machine) (r : Result) : Prop :=
  Previous r ∉ finalStates m ∧
  ∃ target, transitions m !! (Previous r, REvent r) = Some target ∧ to target = Current r.

Inductive path (m : Machine) : S → list Result → S → Prop :=
| path_nil s : path m s [] s
| path_snoc s rs r :
    path m s rs (Previous r) → edge m r → path m s (rs ++ [r]) (Current r).

(** Every successful call is in the history. *)
Definition recorded (s : system) : Prop :=
  ∀ i event r, sys_threads s !! i = Some (Done event (Ok r)) →
    r ∈ sys_history s ∧ REvent r = event.

(** A goroutine between its two sections holds an enabled transition. *)
Definition guarding_ok (m : Machine) (s : system) : Prop :=
  ∀ i event from target, sys_threads s !! i = Some (Guarding event from target) →
    lookup_ m from event = Ok (from, target).

(** ** Construction *)

(** What [register] accumulates: the first binding of every pair, the events
    of a state in order, and the states that occur. *)
Lemma register_spec ts reg allow known reg' allow' known' :
  register ts reg allow known = Ok (reg', allow', known') →
  NoDup (map key_of ts) ∧
  (∀ t, t ∈ ts → reg !! key_of t = None) ∧
  (∀ key, reg' !! key = match list_find (λ t, key_of t = key) ts with
                        | Some (_, t) => Some (mkTarget (To t) (Guard_ t))
                        | None => reg !! key
                        end) ∧
  (∀ s, default [] (allow' !! s) =
        default [] (allow !! s) ++ map Event (filter (λ t, From t = s) ts)) ∧
  (∀ s, s ∈ known' ↔ s ∈ known ∨ ∃ t, t ∈ ts ∧ (s = From t ∨ s = To t)).
Proof.
  revert reg allow known. induction ts as [|t ts IH]; intros reg allow known; simpl.
  { intros [= <- <- <-]. split; [constructor|]. split; [by intros t ?%not_elem_of_nil|].
    split; [done|]. split; [intros s; by rewrite app_nil_r|].
    intros s. split; [by left|]. intros [|(t & ?%not_elem_of_nil & _)]; done. }
  destruct (reg !! key_of t) eqn:Hnone; [done|].
  intros Hreg. destruct (IH _ _ _ Hreg) as (Hnd & Hfresh & Hlook & Hall & Hkn).
  assert (∀ u, u ∈ ts → key_of u ≠ key_of t) as Hne.
  { intros u Hu Heq. specialize (Hfresh u Hu). rewrite Heq in Hfresh.
    by rewrite lookup_insert_eq in Hfresh. }
  split; [|split; [|split; [|split]]].
  - constructor; [|done]. intros (u & Hu & Hin)%list_elem_of_fmap. by apply (Hne u).
  - intros u [->|Hu]%elem_of_cons; [done|].
    specialize (Hfresh u Hu). rewrite lookup_insert_ne in Hfresh; [done|].
    intros Heq. by apply (Hne u Hu).
  - intros key. rewrite Hlook. simpl. case_decide as Hk.
    + subst key. destruct (list_find _ ts) as [[i u]|] eqn:Hf.
      * apply list_find_Some in Hf as (Hi & Heq & _).
        destruct (Hne u); [|done]. by eapply list_elem_of_lookup_2.
      * by rewrite lookup_insert_eq.
    + destruct (list_find _ ts) as [[i u]|]; simpl; [done|].
      by rewrite lookup_insert_ne.
  - intros s. rewrite Hall. rewrite filter_cons. case_decide as Hs.
    + subst s. rewrite lookup_insert_eq. simpl. by rewrite <-(assoc_L app).
    + by rewrite lookup_insert_ne.
  - intros s. rewrite Hkn. set_solver.
Qed.

(** The machine that [NewMachine] builds. *)
Lemma NewMachine_tables initial ts options m s0 :
  NewMachine initial ts options = Ok (m, s0) →
  NoDup (map key_of ts) ∧
  (∀ s event, transitions m !! (s, event) =
     (λ p, mkTarget (To p.2) (Guard_ p.2)) <$> list_find (λ t, key_of t = (s, event)) ts) ∧
  (∀ s, default [] (allowed m !! s) = map Event (filter (λ t, From t = s) ts)).
Proof.
  unfold NewMachine. destruct (register _ _ _ _) as [[[reg al] known]|] eqn:Hreg; [|done].
  case_decide; [|done]. intros [= <- <-].
  destruct (register_spec _ _ _ _ _ _ _ Hreg) as (Hnd & _ & Hlook & Hall & _).
  split; [done|]. split.
  - intros s event. simpl. rewrite Hlook. by destruct (list_find _ ts) as [[??]|].
  - intros s. simpl. rewrite Hall, lookup_empty. done.
Qed.

Lemma register_total ts reg allow known :
  NoDup (map key_of ts) →
  (∀ t, t ∈ ts → reg !! key_of t = None) →
  ∃ reg' allow' known', register ts reg allow known = Ok (reg', allow', known').
Proof.
  revert reg allow known. induction ts as [|t ts IH]; intros reg allow known Hnd Hfresh; simpl.
  { by repeat eexists. }
  apply NoDup_cons in Hnd as [Hnin Hnd].
  rewrite Hfresh by apply list_elem_of_here. apply IH; [done|].
  intros u Hu. rewrite lookup_insert_ne; [by apply Hfresh, list_elem_of_further|].
  intros Heq. apply Hnin, list_elem_of_fmap. eauto.
Qed.

(** A failing registration names the first transition whose pair is taken. *)
Lemma register_Fail ts reg allow known e :
  register ts reg allow known = Fail e →
  ∃ pre t post, ts = pre ++ t :: post ∧ NoDup (map key_of pre) ∧
    (∀ u, u ∈ pre → reg !! key_of u = None) ∧
    (is_Some (reg !! key_of t) ∨ key_of t ∈ map key_of pre) ∧
    e = TransitionError "state.ErrDuplicateTransition"
          (fieldOf (From t)) (fieldOf (Event t)) (fieldOf (To t)) None.
Proof.
  revert reg allow known. induction ts as [|t ts IH]; intros reg allow known; simpl; [done|].
  destruct (reg !! _) eqn:Ht.
  { intros [= <-]. exists [], t, ts. split_and!; [done|constructor|set_solver| |done].
    left. eexists. done. }
  intros (pre & u & post & -> & Hnd & Hfresh & Hu & ->)%IH.
  exists (t :: pre), u, post. split_and!; [done| | | |done].
  - simpl. constructor; [|done]. intros (v & Hv & Hin)%list_elem_of_fmap.
    specialize (Hfresh v Hin). rewrite <-Hv in Hfresh. unfold key_of in Hfresh.
    by rewrite lookup_insert_eq in Hfresh.
  - intros v [->|Hv]%elem_of_cons; [done|].
    by destruct (proj1 (lookup_insert_None _ _ _ _) (Hfresh v Hv)).
  - destruct Hu as [[x Hx]|Hu]; [|right; by right].
    apply lookup_insert_Some in Hx as [[Hx _]|[_ Hx]]; [right; simpl; rewrite <-Hx; left|].
    left. by eexists.
Qed.

Lemma register_first_duplicate ts allow known e :
  register ts ∅ allow known = Fail e →
  ∃ pre t post, ts = pre ++ t :: post ∧ NoDup (map key_of pre) ∧
    key_of t ∈ map key_of pre ∧
    e = TransitionError "state.ErrDuplicateTransition"
          (fieldOf (From t)) (fieldOf (Event t)) (fieldOf (To t)) None.
Proof.
  intros (pre & t & post & -> & Hnd & _ & [Ht|Ht] & ->)%register_Fail.
  - rewrite lookup_empty in Ht. by apply is_Some_None in Ht.
  - exists pre, t, post. by split_and!.
Qed.

(** The final states collected from the options. *)
Definition optionFinals (options : list (option Option_)) : gset S :=
  default ∅ (cfg_finalStates
    (foldl (λ c o, match o with Some f => f c | None => c end) (mkConfig (Some ∅)) options)).

Definition knownState (ts : list Transition_) (options : list (option Option_)) (s : S) : Prop :=
  s ∈ optionFinals options ∨ ∃ t, t ∈ ts ∧ (s = From t ∨ s = To t).

(** ** Invariants of concurrent use *)

Lemma lookup_from m current event from target :
  lookup_ m current event = Ok (from, target) →
  from = current ∧ current ∉ finalStates m ∧ transitions m !! (current, event) = Some target.
Proof.
  unfold lookup_. case_decide; [done|].
  destruct (transitions m !! _) eqn:Ht; [|done]. by intros [= <- <-].
Qed.

Lemma step_guarding m s s' : guarding_ok m s → step m s s' → guarding_ok m s'.
Proof.
  intros Hg Hstep j ev f tg Hj.
  destruct Hstep; simpl in Hj;
    try (apply list_lookup_insert_Some in Hj as [(-> & Heq & _)|[_ Hj]]; [|by eapply Hg]);
    simplify_eq.
  - apply lookup_snoc_Some in Hj as [[_ Hj]|[_ ?]]; [by eapply Hg|done].
  - by destruct (lookup_from _ _ _ _ _ H2) as [-> _].
Qed.

Lemma commit_Ok current from event target res current' :
  commit current from event target = (Ok res, current') →
  current = from ∧ res = mkResult from event (to target) ∧ current' = to target.
Proof. unfold commit. case_decide; naive_solver. Qed.

Lemma commit_Fail current from event target e current' :
  commit current from event target = (Fail e, current') → current' = current.
Proof. unfold commit. case_decide; naive_solver. Qed.

Lemma step_path m s0 s s' :
  guarding_ok m s → path m s0 (sys_history s) (sys_current s) → step m s s' →
  path m s0 (sys_history s') (sys_current s').
Proof.
  intros Hg Hp Hstep. destruct Hstep; simpl in *; try done.
  destruct r as [res|e].
  - apply commit_Ok in H2 as (Hcur & -> & ->). apply Hg in H1.
    destruct (lookup_from _ _ _ _ _ H1) as (_ & Hnf & Ht).
    apply (path_snoc m s0 (sys_history s) (mkResult from event (to target))).
    + simpl. by rewrite <-Hcur.
    + split; [done|]. by exists target.
  - apply commit_Fail in H2 as ->. by rewrite app_nil_r.
Qed.

Lemma step_recorded m s s' : recorded s → step m s s' → recorded s'.
Proof.
  intros Hrec Hstep j ev r0 Hj. destruct Hstep; simpl in *;
    try (apply list_lookup_insert_Some in Hj as [(-> & Heq & _)|[_ Hj]];
         [simplify_eq|]); try (by eapply Hrec).
  - apply lookup_snoc_Some in Hj as [[_ Hj]|[_ ?]]; [by eapply Hrec|done].
  - apply commit_Ok in H2 as (_ & -> & _). split; [|done]. set_solver.
  - destruct (Hrec _ _ _ Hj). set_solver.
Qed.

(** Invariant of a running system started in [s0]. *)
Definition sys_inv (m : Machine) (s0 : S) (s : system) : Prop :=
  guarding_ok m s ∧ path m s0 (sys_history s) (sys_current s) ∧ recorded s.

Lemma sys_inv_init m s0 : sys_inv m s0 (mkSystem s0 [] []).
Proof. split; [by intros ???? ?|]. split; [constructor|]. by intros ??? ?. Qed.

Lemma sys_inv_step m s0 s s' : sys_inv m s0 s → step m s s' → sys_inv m s0 s'.
Proof.
  intros (Hg & Hp & Hr) Hs. repeat split;
    eauto using step_guarding, step_path; by eapply step_recorded.
Qed.

Lemma final_step m s s' :
  guarding_ok m s → sys_current s ∈ finalStates m → step m s s' →
  sys_current s' = sys_current s ∧ sys_history s' = sys_history s.
Proof.
  intros Hg Hf Hstep. destruct Hstep; simpl in *; try done.
  destruct r as [res|e].
  - apply commit_Ok in H2 as (Hcur & _ & _). apply Hg in H1.
    destruct (lookup_from _ _ _ _ _ H1) as (_ & Hnf & _). by subst.
  - apply commit_Fail in H2 as ->. by rewrite app_nil_r.
Qed.
End machine.

(** ** Properties *)

(** Construction: [NewMachine] fails with a duplicate-transition error
    exactly when two transitions share a (state, event) pair, and the error
    names the first one whose pair is taken; otherwise it fails
    with an unknown-initial-state error exactly when the initial state occurs
    neither in a transition nor among the final states, and otherwise builds
    the machine in its initial state. *)
Theorem NewMachine_spec {S E W} `{Countable S, Countable E}
    (initial : S) (ts : list (@Transition_ S E W)) options :
  match NewMachine initial ts options with
  | Ok (m, s0) =>
      NoDup (map key_of ts) ∧ knownState ts options initial ∧ s0 = initial
  | Fail e =>
      (¬ NoDup (map key_of ts) ∧
         ∃ pre t post, ts = pre ++ t :: post ∧ NoDup (map key_of pre) ∧
           key_of t ∈ map key_of pre ∧
           e = TransitionError "state.ErrDuplicateTransition"
                 (fieldOf (From t)) (fieldOf (Event t)) (fieldOf (To t)) None) ∨
      (NoDup (map key_of ts) ∧ ¬ knownState ts options initial ∧
         e = TransitionError "state.ErrUnknownInitialState" (fieldOf initial) zeroField zeroField None)
  end.
Proof.
  unfold NewMachine. fold (optionFinals (S:=S) options).
  destruct (register _ _ _ _) as [[[reg al] known]|e] eqn:Hreg.
  - destruct (register_spec _ _ _ _ _ _ _ Hreg) as (Hnd & _ & _ & _ & Hkn).
    case_decide as Hin; rewrite Hkn in Hin; [by split_and!|by right].
  - left. split; [|by eapply register_first_duplicate]. intros Hnd.
    destruct (register_total ts ∅ ∅ (optionFinals options) Hnd) as (? & ? & ? & Heq);
      [by intros; apply lookup_empty|]. by rewrite Hreg in Heq.
Qed.

(** C13. Linearizability of [Transition]: however many goroutines call it,
    whatever their guards and contexts answer and however their critical
    sections interleave, the committed transitions, in the order of their
    write-locked sections, form a path of the transition table from the
    initial state to the current state that never leaves a final state, and
    every call that reported success is one of them. *)
Theorem concurrent_transitions_form_path {S E W} `{Countable S, Countable E}
    (m : @Machine S E W _ _ _ _) (s0 : S) s :
  rtc (step m) (mkSystem s0 [] []) s →
  path m s0 (sys_history s) (sys_current s) ∧ recorded s.
Proof.
  intros Hr. destruct (rtc_invariant (step m) (sys_inv m s0) (sys_inv_step m s0) _ _ Hr)
    as (_ & ? & ?); [apply sys_inv_init|done].
Qed.

(** Final states are absorbing under concurrency: once the machine is in
    a final state, no later step of any goroutine changes the current state
    or commits a transition. *)
Theorem final_state_absorbing {S E W} `{Countable S, Countable E}
    (m : @Machine S E W _ _ _ _) (s0 : S) s s' :
  rtc (step m) (mkSystem s0 [] []) s → sys_current s ∈ finalStates m →
  rtc (step m) s s' →
  sys_current s' = sys_current s ∧ sys_history s' = sys_history s.
Proof.
  intros Hr Hf Hr'.
  destruct (rtc_invariant (step m) (sys_inv m s0) (sys_inv_step m s0) _ _ Hr)
    as (Hg & _); [apply sys_inv_init|].
  clear Hr. induction Hr' as [|a b c Hab Hbc IH]; [done|].
  destruct (final_step _ _ _ Hg Hf Hab) as [Hc Hh].
  destruct IH as [-> ->]; [by rewrite Hc|by eapply step_guarding|done].
Qed.

(** [AllowedEvents] is exact: for a constructed machine it lists, without
    repetition, precisely the events for which [lookup] finds a transition
    from the current state. *)
Theorem AllowedEvents_exact {S E W} `{Countable S, Countable E}
    (initial : S) (ts : list (@Transition_ S E W)) options m s0 :
  NewMachine initial ts options = Ok (m, s0) →
  ∀ current, NoDup (AllowedEvents m current) ∧
    ∀ event, event ∈ AllowedEvents m current ↔ is_Ok (lookup_ m current event).
Proof.
  intros Hnew current. destruct (NewMachine_tables _ _ _ _ _ Hnew) as (Hnd & Htr & Hal).
  unfold AllowedEvents, lookup_. case_decide as Hf.
  { split; [constructor|]. intros ev. split; [by intros ?%not_elem_of_nil|by intros [? ?]]. }
  rewrite Hal. split.
  - apply NoDup_fmap_1 with (f := pair current).
    replace (pair current <$> map Event (filter (λ t, From t = current) ts))
      with (map key_of (filter (λ t, From t = current) ts)).
    + eapply sublist_NoDup; [exact Hnd|]. apply fmap_sublist, sublist_filter.
    + clear. induction ts as [|t ts IH]; [done|].
      rewrite filter_cons. case_decide as Ht; simpl; [|done]. unfold key_of at 1. by rewrite IH, Ht.
  - intros ev. rewrite Htr. split.
    + intros (t & -> & Hin%list_elem_of_filter)%list_elem_of_fmap. destruct Hin as [Hft Hin].
      destruct (list_find_elem_of (λ u, key_of u = (current, Event t)) ts t)
        as [[i u] ->]; [done|by rewrite <-Hft|]. by eexists.
    + intros [[from tg] Hok].
      destruct (list_find _ ts) as [[i u]|] eqn:Hfind; [|done].
      apply list_find_Some in Hfind as (Hi & [= Hfu Heu] & _).
      apply list_elem_of_fmap. exists u. split; [done|].
      apply list_elem_of_filter. split; [done|]. by eapply list_elem_of_lookup_2.
Qed.

(** [CanTransition] predicts [Transition]: in the same world, a transition
    that succeeds was announced as possible; and with no context, when the
    guard does not itself move the machine, an event announced as possible
    does move it along an edge of the table, from the state the guard saw. *)
Theorem CanTransition_agrees {S E W} `{Countable S, Countable E}
    (m : @Machine S E W _ _ _ _) octx event σ σ' :
  (∀ r, Transition m octx event σ = (Ok r, σ') →
     (CanTransition m octx event σ).1 = (true, None)) ∧
  (CanTransition m None event σ = ((true, None), σ') → σ'.1 = σ.1 →
     ∃ r, Transition m None event σ = (Ok r, (Current r, σ'.2)) ∧
       Previous r = σ.1 ∧ REvent r = event ∧ edge m r).
Proof.
  unfold Transition, CanTransition. split.
  - intros r. destruct (ctx_Err _ σ) as [[e|] σ1]; [done|].
    destruct (lookup_ m σ1.1 event) as [[from target]|]; [|done].
    destruct (guard target) as [g|]; [|done].
    destruct (g _ from event σ1) as [[e|] σ2]; [done|].
    by destruct (ctx_Err _ σ2) as [[e|] σ3].
  - simpl. destruct (lookup_ m σ.1 event) as [[from target]|e] eqn:Hlk.
    2:{ by destruct (errors_Is e _ || errors_Is e _)%bool. }
    destruct (lookup_from _ _ _ _ _ Hlk) as (-> & Hnf & Ht).
    set (r := mkResult σ.1 event (to target)).
    assert (edge m r) as Hedge by (split; [done|by exists target]).
    intros Hcan Heq.
    assert (match guard target with None => (None, σ) | Some g => g Background σ.1 event σ end
            = (None, σ')) as ->.
    { destruct (guard target) as [g|]; [|by simplify_eq].
      destruct (g Background σ.1 event σ) as [[e|] σ2]; by simplify_eq. }
    exists r. unfold commit. rewrite Heq. by rewrite decide_True.
Qed.

(** *** A sample machine for the witnesses: 0 -0-> 1 -1-> 2, 2 final *)

Definition sampleTransitions : list (@Transition_ nat nat unit) :=
  [mkTransition 0%nat 0%nat 1%nat None; mkTransition 1%nat 1%nat 2%nat None].

Definition sampleOptions : list (option (@Option_ nat _ _)) := [None; Some (WithFinalStates [2%nat])].

Definition sampleMachine : @Machine nat nat unit _ _ _ _ :=
  mkMachine
    {[ (0%nat, 0%nat) := mkTarget 1%nat None; (1%nat, 1%nat) := mkTarget 2%nat None ]}
    {[ 0%nat := [0%nat]; 1%nat := [1%nat] ]} {[ 2%nat ]}.

(** Two goroutines race on event 0: one commits, the other is refused. *)
Definition raceResult : @Result nat nat := mkResult 0%nat 0%nat 1%nat.
Definition raceEnd : @system nat nat unit :=
  mkSystem 1%nat
    [Done 0%nat (Fail (TransitionError "state.ErrConcurrentTransition"
                          (fieldOf 0%nat) (fieldOf 0%nat) (fieldOf 1%nat) None));
     Done 0%nat (Ok raceResult)] [raceResult].

Lemma race_runs : rtc (step sampleMachine) (mkSystem 0%nat [] []) raceEnd.
Proof.
  set (t := mkTarget 1%nat None : @transitionTarget nat nat unit).
  eapply rtc_l; [apply (StepSpawn _ _ 0%nat)|]. simpl.
  eapply rtc_l; [apply (StepSpawn _ _ 0%nat)|]. simpl.
  eapply rtc_l; [apply (StepLookupOk _ _ 0%nat 0%nat 0%nat t); reflexivity|]. simpl.
  eapply rtc_l; [apply (StepLookupOk _ _ 1%nat 0%nat 0%nat t); reflexivity|]. simpl.
  eapply rtc_l; [eapply (StepCommit _ _ 1%nat 0%nat 0%nat t); reflexivity|]. simpl.
  eapply rtc_l; [eapply (StepCommit _ _ 0%nat 0%nat 0%nat t); reflexivity|]. simpl.
  apply rtc_refl.
Qed.

Lemma concurrent_transitions_form_path_witness :
  path sampleMachine 0%nat [raceResult] 1%nat ∧ recorded raceEnd.
Proof.
  apply (concurrent_transitions_form_path sampleMachine 0%nat raceEnd). apply race_runs.
Defined.

Lemma CanTransition_agrees_witness :
  (CanTransition sampleMachine None 0%nat (0%nat, tt)).1 = (true, None) ∧
  ∃ r, Transition sampleMachine None 0%nat (0%nat, tt) = (Ok r, (Current r, tt)) ∧
       Previous r = 0%nat ∧ REvent r = 0%nat ∧ edge sampleMachine r.
Proof.
  split.
  - apply (proj1 (CanTransition_agrees sampleMachine None 0%nat (0%nat, tt) (1%nat, tt))
             raceResult). reflexivity.
  - apply (proj2 (CanTransition_agrees sampleMachine None 0%nat (0%nat, tt) (0%nat, tt)));
      reflexivity.
Defined.
