(* ===== verification/WorkReport.v ===== *)
(** * workreport: report trees and failure policies

    Models [src/workreport].  A [Status] is a string in the code, so any
    string is a status here and [known] singles out the five terminal ones.
    [time.Now()] is an argument of the constructors. *)

From S2P Require Import Prelude GoError.

Local Open Scope Z_scope.

Definition StatusCompleted : string := "completed".
Definition StatusFailed : string := "failed".
Definition StatusPartial : string := "partial".
Definition StatusAborted : string := "aborted".
Definition StatusCancelled : string := "cancelled".

Definition known (s : string) : bool :=
  String.eqb s StatusCompleted || String.eqb s StatusFailed || String.eqb s StatusPartial ||
  String.eqb s StatusAborted || String.eqb s StatusCancelled.

(** [type FailurePolicy int] *)
Definition StopOnFailure : Z := 0.
Definition ContinueOnFailure : Z := 1.

Definition valid (p : Z) : bool := (p =? StopOnFailure) || (p =? ContinueOnFailure).

(** [FailurePolicyError] *)
Definition FailurePolicyError (policy : Z) : error :=
  Typed "workreport.FailurePolicyError" [FInt policy] ["workreport.ErrUnknownFailurePolicy"] None.

(** A nil slice of children and an empty one are both the empty list. *)
Inductive Report : Type := mkReport {
  Name : string;
  Status : string;
  StartedAt : Z;
  EndedAt : Z;
  Err : option error;
  Reason : string;
  Children : list Report
}.

(** [copyReports] *)
Definition copyReports (reports : list Report) : list Report :=
  match reports with [] => [] | _ => reports end.

(** [newReport] *)
Definition newReport (now : Z) (name status : string) (err : option error) (reason : string)
    (children : list Report) : Report :=
  mkReport name status now now err reason (copyReports children).

Definition Completed (now : Z) (name : string) : Report :=
  newReport now name StatusCompleted None "" [].
Definition Failed (now : Z) (name : string) (err : option error) : Report :=
  newReport now name StatusFailed err "" [].
Definition Partial (now : Z) (name : string) (children : list Report) : Report :=
  newReport now name StatusPartial None "" children.
Definition Aborted (now : Z) (name reason : string) : Report :=
  newReport now name StatusAborted None reason [].
Definition Cancelled (now : Z) (name : string) (err : option error) : Report :=
  newReport now name StatusCancelled err "" [].

Definition IsSuccess (r : Report) : bool := String.eqb (Status r) StatusCompleted.
Definition IsFailed (r : Report) : bool := String.eqb (Status r) StatusFailed.
Definition IsPartial (r : Report) : bool := String.eqb (Status r) StatusPartial.
Definition IsAborted (r : Report) : bool := String.eqb (Status r) StatusAborted.
Definition IsCancelled (r : Report) : bool := String.eqb (Status r) StatusCancelled.

Definition IsFailure (r : Report) : bool :=
  String.eqb (Status r) StatusFailed || String.eqb (Status r) StatusPartial ||
  String.eqb (Status r) StatusAborted || String.eqb (Status r) StatusCancelled.

Definition IsTerminal (r : Report) : bool := known (Status r).

(** The loop of [aggregateStopOnFailure]; [included] is in order. *)
Fixpoint stopLoop (now : Z) (name : string) (included children : list Report) : Report :=
  match children with
  | [] => newReport now name StatusCompleted None "" included
  | child :: rest =>
      let included' := included ++ [child] in
      if negb (String.eqb (Status child) StatusCompleted)
      then newReport now name (Status child) (Err child) (Reason child) included'
      else stopLoop now name included' rest
  end.

Definition aggregateStopOnFailure (now : Z) (name : string) (children : list Report) : Report :=
  stopLoop now name [] children.

(** The loop of [aggregateContinueOnFailure] over the copy. *)
Fixpoint continueLoop (now : Z) (name : string) (copied rest : list Report) : Report :=
  match rest with
  | [] => newReport now name StatusCompleted None "" copied
  | child :: rest' =>
      if negb (String.eqb (Status child) StatusCompleted)
      then newReport now name StatusPartial None "" copied
      else continueLoop now name copied rest'
  end.

Definition aggregateContinueOnFailure (now : Z) (name : string) (children : list Report) : Report :=
  let copied := copyReports children in continueLoop now name copied copied.

(** [Aggregate] *)
Definition Aggregate (now : Z) (name : string) (policy : Z) (children : list Report)
    : result Report :=
  if negb (valid policy) then Fail (FailurePolicyError policy)
  else match children with
       | [] => Ok (Completed now name)
       | _ =>
           if policy =? StopOnFailure then Ok (aggregateStopOnFailure now name children)
           else if policy =? ContinueOnFailure
           then Ok (aggregateContinueOnFailure now name children)
           else Fail (FailurePolicyError policy)
       end.

(** ** Lemmas *)

Lemma IsSuccess_spec r : IsSuccess r = true ↔ Status r = StatusCompleted.
Proof. apply String.eqb_eq. Qed.

Lemma copyReports_id rs : copyReports rs = rs.
Proof. by destruct rs. Qed.

(** The children up to and including the first one that is not completed. *)
Fixpoint upto_failure (children : list Report) : list Report :=
  match children with
  | [] => []
  | c :: rest => if IsSuccess c then c :: upto_failure rest else [c]
  end.

(** The first child that is not completed. *)
Fixpoint first_failure (children : list Report) : option Report :=
  match children with
  | [] => None
  | c :: rest => if IsSuccess c then first_failure rest else Some c
  end.

Lemma first_failure_None children :
  first_failure children = None ↔ Forall (λ c, Status c = StatusCompleted) children.
Proof.
  induction children as [|c rest IH]; simpl; [done|].
  destruct (IsSuccess c) eqn:E; [apply IsSuccess_spec in E|].
  - rewrite IH, Forall_cons. naive_solver.
  - split; [done|]. intros H. apply Forall_cons in H as [H _].
    apply IsSuccess_spec in H. congruence.
Qed.

Lemma first_failure_Some children c :
  first_failure children = Some c → c ∈ children ∧ Status c ≠ StatusCompleted.
Proof.
  induction children as [|x rest IH]; simpl; [done|].
  destruct (IsSuccess x) eqn:E.
  - intros H. destruct (IH H). set_solver.
  - intros [= <-]. split; [set_solver|]. intros H. apply IsSuccess_spec in H. congruence.
Qed.

Lemma upto_failure_all children : first_failure children = None → upto_failure children = children.
Proof.
  induction children as [|c rest IH]; simpl; [done|].
  destruct (IsSuccess c); [|done]. intros H. by rewrite IH.
Qed.

Lemma stopLoop_spec now name included children :
  stopLoop now name included children =
    match first_failure children with
    | None => newReport now name StatusCompleted None "" (included ++ children)
    | Some c => newReport now name (Status c) (Err c) (Reason c) (included ++ upto_failure children)
    end.
Proof.
  revert included. induction children as [|c rest IH]; intros included; simpl.
  { by rewrite app_nil_r. }
  unfold IsSuccess in *. destruct (String.eqb (Status c) StatusCompleted); simpl; [|done].
  rewrite IH. destruct (first_failure rest); by rewrite <-(assoc_L app).
Qed.

Lemma continueLoop_spec now name copied rest :
  continueLoop now name copied rest =
    newReport now name
      (if first_failure rest then StatusPartial else StatusCompleted) None "" copied.
Proof.
  induction rest as [|c rest IH]; simpl; [done|].
  unfold IsSuccess in *. by destruct (String.eqb (Status c) StatusCompleted).
Qed.

(** ** Properties *)

(** Aggregation: an unknown policy is an error and nothing else is;
    [StopOnFailure] reports the status, error and reason of the first child
    that is not completed and keeps the children up to it; [ContinueOnFailure]
    keeps every child and is partial exactly when some child is not
    completed; with only completed children both report completion and keep
    them all. *)
Theorem Aggregate_spec now name policy children :
  match Aggregate now name policy children with
  | Fail e => policy ≠ StopOnFailure ∧ policy ≠ ContinueOnFailure ∧
      errors_Is e "workreport.ErrUnknownFailurePolicy" = true
  | Ok r => (policy = StopOnFailure ∨ policy = ContinueOnFailure) ∧
      Name r = name ∧ StartedAt r = now ∧ EndedAt r = now ∧
      match first_failure children with
      | None => Status r = StatusCompleted ∧ Children r = children ∧ Err r = None
      | Some c =>
          if policy =? StopOnFailure
          then Status r = Status c ∧ Err r = Err c ∧ Reason r = Reason c ∧
               Children r = upto_failure children
          else Status r = StatusPartial ∧ Err r = None ∧ Children r = children
      end
  end.
Proof.
  unfold Aggregate, valid.
  destruct (policy =? StopOnFailure) eqn:E0; bools; simpl.
  { destruct children as [|c rest]; [by split_and!; auto|].
    unfold aggregateStopOnFailure. rewrite stopLoop_spec.
    destruct (first_failure (c :: rest)); simpl; rewrite ?copyReports_id; split_and!; auto. }
  destruct (policy =? ContinueOnFailure) eqn:E1; bools; simpl; [|by split_and!].
  destruct children as [|c rest]; [by split_and!; auto|].
  unfold aggregateContinueOnFailure. rewrite copyReports_id, continueLoop_spec.
  destruct (first_failure (c :: rest)); simpl; rewrite ?copyReports_id; split_and!; auto.
Qed.
