(* ===== verification/Workflow.v ===== *)
(** * workflow: sequential, conditional and parallel runners

    Models [src/workflow/workflow.go].  A work item is a call on the world; a
    nil function is [None].  [now] is [time.Now].  The parallel runner is a
    step relation: its goroutines run [runWork] in any order and race on the
    [sync.Once] that records the stop cause. *)

From stdpp Require Import pretty.
From S2P Require Import Prelude GoError WorkReport.

Local Open Scope Z_scope.

Definition ErrNilWork : error := Sentinel "workflow.ErrNilWork".
Definition ErrNilPredicate : error := Sentinel "workflow.ErrNilPredicate".
Definition ErrTooManyFalseBranches : error := Sentinel "workflow.ErrTooManyFalseBranches".
Definition ErrUnknownReportStatus : error := Sentinel "workflow.ErrUnknownReportStatus".

(** [childName] and [branchName] *)
Definition childName (name : string) (index : nat) : string :=
  if String.eqb name "" then "work[" +:+ pretty (N.of_nat index) +:+ "]"
  else name +:+ "[" +:+ pretty (N.of_nat index) +:+ "]".

Definition branchName (name branch : string) : string :=
  if String.eqb name "" then branch else name +:+ "." +:+ branch.

Definition shouldStopSequential (policy : Z) (report : Report) : bool :=
  if IsAborted report || IsCancelled report then true
  else (policy =? StopOnFailure) && negb (IsSuccess report).

Definition shouldCancelParallel (policy : Z) (report : Report) : bool :=
  if IsAborted report || IsCancelled report then true
  else (policy =? StopOnFailure) && negb (IsSuccess report).

(** [validatePolicy] *)
Definition validatePolicy (now : Z) (policy : Z) : option error :=
  match Aggregate now "" policy [] with Ok _ => None | Fail e => Some e end.

(** [aggregate] *)
Definition aggregate (now : Z) (name : string) (policy : Z) (children : list Report) : Report :=
  match Aggregate now name policy children with
  | Ok report => report
  | Fail err => Failed now name (Some err)
  end.

(** [parentFrom] *)
Definition parentFrom (now : Z) (name : string) (cause : Report) (children : list Report) : Report :=
  mkReport name (Status cause) now now (Err cause) (Reason cause) (copyReports children).

(** [if report.Name == "" { report.Name = name }] *)
Definition nameReport (name : string) (r : Report) : Report :=
  if String.eqb (Name r) ""
  then mkReport name (Status r) (StartedAt r) (EndedAt r) (Err r) (Reason r) (Children r)
  else r.

Section runners.
Context {W : Type} (now : Call W Z).

Definition Work : Type := Context W → Call W Report.
Definition Predicate : Type := Context W → Call W (bool * option error).

(** [runWork] *)
Definition runWork (ctx : Context W) (name : string) (work : option Work) : Call W Report :=
  err ← ctx_Err ctx;
  match err, work with
  | Some e, _ => t ← now; mret (Cancelled t name (Some e))
  | None, None => t ← now; mret (Failed t name (Some ErrNilWork))
  | None, Some f =>
      r ← f ctx;
      let report := nameReport name r in
      if IsTerminal report then mret report
      else (t ← now; mret (Failed t (Name report) (Some ErrUnknownReportStatus)))
  end.

Record sequentialRunner := mkSequential {
  s_name : string; s_policy : Z; s_works : list (option Work)
}.
Record conditionalRunner := mkConditional {
  c_name : string; c_predicate : option Predicate; c_trueWork : option Work;
  c_falseBranch : list (option Work)
}.
Record parallelRunner := mkParallel {
  p_name : string; p_policy : Z; p_works : list (option Work)
}.

(** The loop of [sequentialRunner.Run]. *)
Fixpoint seqLoop (name : string) (policy : Z) (ctx : Context W) (index : nat)
    (works : list (option Work)) (children : list Report) : Call W Report :=
  match works with
  | [] => t ← now; mret (aggregate t name policy children)
  | work :: rest =>
      child ← runWork ctx (childName name index) work;
      let children' := children ++ [child] in
      if shouldStopSequential policy child
      then (t ← now; mret (aggregate t name StopOnFailure children'))
      else seqLoop name policy ctx (S index) rest children'
  end.

Definition Sequential_Run (r : sequentialRunner) (octx : option (Context W)) : Call W Report :=
  let ctx := orBackground octx in
  t ← now;
  match validatePolicy t (s_policy r) with
  | Some err => t' ← now; mret (Failed t' (s_name r) (Some err))
  | None =>
      err ← ctx_Err ctx;
      match err with
      | Some e => t' ← now; mret (Cancelled t' (s_name r) (Some e))
      | None => seqLoop (s_name r) (s_policy r) ctx 0 (s_works r) []
      end
  end.

Definition Conditional_Run (r : conditionalRunner) (octx : option (Context W)) : Call W Report :=
  let ctx := orBackground octx in
  match c_predicate r with
  | None => t ← now; mret (Failed t (c_name r) (Some ErrNilPredicate))
  | Some predicate =>
      if (1 <? length (c_falseBranch r))%nat
      then (t ← now; mret (Failed t (c_name r) (Some ErrTooManyFalseBranches)))
      else
        err ← ctx_Err ctx;
        match err with
        | Some e => t ← now; mret (Cancelled t (c_name r) (Some e))
        | None =>
            p ← predicate ctx;
            match p with
            | (_, Some e) =>
                t ← now;
                mret (if isContextError e then Cancelled t (c_name r) (Some e)
                      else Failed t (c_name r) (Some e))
            | (selected, None) =>
                err2 ← ctx_Err ctx;
                match err2 with
                | Some e => t ← now; mret (Cancelled t (c_name r) (Some e))
                | None =>
                    if (selected : bool)
                    then (child ← runWork ctx (branchName (c_name r) "true") (c_trueWork r);
                          t ← now; mret (aggregate t (c_name r) StopOnFailure [child]))
                    else match c_falseBranch r with
                         | [] => t ← now; mret (Completed t (c_name r))
                         | work :: _ =>
                             child ← runWork ctx (branchName (c_name r) "false") work;
                             t ← now; mret (aggregate t (c_name r) StopOnFailure [child])
                         end
                end
            end
        end
  end.

(** ** The parallel runner *)

Inductive phase : Type :=
| PRunning
| PReported (r : Report)
| PDone.

(** [results], [stopCause] (its zero value as [None]) and the goroutines. *)
Record parState := mkPar {
  results : list Report;
  stopCause : option Report;
  phases : list phase
}.

Definition zeroReport : Report := mkReport "" "" 0 0 None "" [].

Definition parInit (r : parallelRunner) : parState :=
  mkPar (replicate (length (p_works r)) zeroReport) None
    (replicate (length (p_works r)) PRunning).

(** [runWork] may return [report] for goroutine [index]. *)
Definition mayReport (r : parallelRunner) (index : nat) (report : Report) : Prop :=
  ∃ work ctx w w', p_works r !! index = Some work ∧
    runWork ctx (childName (p_name r) index) work w = (report, w').

Inductive parStep (r : parallelRunner) : parState → parState → Prop :=
| ParReport s i report :
    phases s !! i = Some PRunning → mayReport r i report →
    parStep r s (mkPar (<[i := report]> (results s)) (stopCause s)
                   (<[i := PReported report]> (phases s)))
| ParStop s i report :
    phases s !! i = Some (PReported report) → shouldCancelParallel (p_policy r) report = true →
    parStep r s (mkPar (results s)
                   (match stopCause s with None => Some report | Some c => Some c end)
                   (<[i := PDone]> (phases s)))
| ParDone s i report :
    phases s !! i = Some (PReported report) → shouldCancelParallel (p_policy r) report = false →
    parStep r s (mkPar (results s) (stopCause s) (<[i := PDone]> (phases s))).

(** What [parallelRunner.Run] returns after [wg.Wait()]. *)
Definition parReport (t : Z) (r : parallelRunner) (s : parState) : Report :=
  match stopCause s with
  | Some c => if IsTerminal c then parentFrom t (p_name r) c (results s)
              else aggregate t (p_name r) (p_policy r) (results s)
  | None => aggregate t (p_name r) (p_policy r) (results s)
  end.

(** [parallelRunner.Run] can return [report] when called with [octx] in [w]. *)
Inductive Parallel_Run (r : parallelRunner) (octx : option (Context W)) (w : W) : Report → Prop :=
| ParallelPolicy t t' err :
    validatePolicy t (p_policy r) = Some err →
    Parallel_Run r octx w (Failed t' (p_name r) (Some err))
| ParallelCancelled t t' err w' :
    validatePolicy t (p_policy r) = None →
    ctx_Err (orBackground octx) w = (Some err, w') →
    Parallel_Run r octx w (Cancelled t' (p_name r) (Some err))
| ParallelEmpty t t' w' :
    validatePolicy t (p_policy r) = None →
    ctx_Err (orBackground octx) w = (None, w') →
    p_works r = [] →
    Parallel_Run r octx w (aggregate t' (p_name r) (p_policy r) [])
| ParallelJoined t t' w' s :
    validatePolicy t (p_policy r) = None →
    ctx_Err (orBackground octx) w = (None, w') →
    p_works r ≠ [] →
    rtc (parStep r) (parInit r) s →
    Forall (eq PDone) (phases s) →
    Parallel_Run r octx w (parReport t' r s).

(** ** Work reports *)

(** Every report of [runWork] has one of the five known statuses. *)
Lemma runWork_terminal ctx name work w r w' :
  runWork ctx name work w = (r, w') → IsTerminal r = true.
Proof.
  unfold runWork, mbind, call_bind, mret, call_ret.
  destruct (ctx_Err ctx w) as [[e|] w1]; [destruct (now w1); by intros [= <- <-]|].
  destruct work as [f|]; [|destruct (now w1); by intros [= <- <-]].
  destruct (f ctx w1) as [r0 w2].
  destruct (IsTerminal (nameReport name r0)) eqn:E; [by intros [= <- <-]|].
  destruct (now w2). by intros [= <- <-].
Qed.

(** ** Aggregation of children *)

Lemma aggregate_valid t name policy children :
  policy = StopOnFailure ∨ policy = ContinueOnFailure →
  match first_failure children with
  | None => Status (aggregate t name policy children) = StatusCompleted ∧
            Children (aggregate t name policy children) = children
  | Some c =>
      if policy =? StopOnFailure
      then Status (aggregate t name policy children) = Status c ∧
           Children (aggregate t name policy children) = upto_failure children
      else Status (aggregate t name policy children) = StatusPartial ∧
           Children (aggregate t name policy children) = children
  end.
Proof.
  intros Hp. unfold aggregate, Aggregate.
  replace (valid policy) with true by (destruct Hp as [-> | ->]; done). simpl.
  destruct children as [|c rest]; [done|].
  destruct Hp as [-> | ->]; simpl (_ =? _).
  - unfold aggregateStopOnFailure. rewrite stopLoop_spec.
    destruct (first_failure (c :: rest)); simpl; rewrite ?copyReports_id; done.
  - unfold aggregateContinueOnFailure. rewrite copyReports_id, continueLoop_spec.
    destruct (first_failure (c :: rest)); simpl; rewrite ?copyReports_id; done.
Qed.

(** ** Invariant of the parallel runner *)

Definition parInv (r : parallelRunner) (s : parState) : Prop :=
  length (results s) = length (p_works r) ∧ length (phases s) = length (p_works r) ∧
  (∀ i report, phases s !! i = Some (PReported report) →
     results s !! i = Some report ∧ mayReport r i report) ∧
  (∀ i, phases s !! i = Some PDone → ∃ report, results s !! i = Some report ∧
     mayReport r i report ∧
     (shouldCancelParallel (p_policy r) report = true → is_Some (stopCause s))) ∧
  (∀ c, stopCause s = Some c → shouldCancelParallel (p_policy r) c = true ∧
     IsTerminal c = true ∧ ∃ i, phases s !! i ≠ Some PRunning ∧ results s !! i = Some c).

Lemma mayReport_terminal r i report : mayReport r i report → IsTerminal report = true.
Proof. intros (work & ctx & w & w' & _ & Hrun). by eapply runWork_terminal. Qed.

Lemma parInv_init r : parInv r (parInit r).
Proof.
  split_and!; simpl; try by rewrite length_replicate.
  - intros i report [? _]%lookup_replicate. done.
  - intros i [? _]%lookup_replicate. done.
  - done.
Qed.

Lemma parInv_step r s s' : parInv r s → parStep r s s' → parInv r s'.
Proof.
  intros (Hl1 & Hl2 & Hrep & Hdone & Hstop) Hstep.
  destruct Hstep as [s i report Hi Hmay|s i report Hi Hc|s i report Hi Hc]; simpl.
  - assert (i < length (results s))%nat as Hlt by (apply lookup_lt_Some in Hi; lia).
    assert (∀ j, j ≠ i → <[i:=report]> (results s) !! j = results s !! j) as Hother
      by (intros j ?; by rewrite list_lookup_insert_ne).
    split_and!; simpl; rewrite ?length_insert; try done.
    + intros j rep [(-> & [= ->] & _)|[Hne Hj]]%list_lookup_insert_Some.
      * by rewrite list_lookup_insert_eq.
      * rewrite Hother by done. eauto.
    + intros j [(-> & [=] & _)|[Hne Hj]]%list_lookup_insert_Some.
      rewrite Hother by done. eauto.
    + intros c Hs. destruct (Hstop c Hs) as (? & ? & j & Hj & Hres). split_and!; [done..|].
      destruct (decide (j = i)) as [->|Hne]; [done|].
      exists j. by rewrite list_lookup_insert_ne, Hother by done.
  - split_and!; simpl; rewrite ?length_insert; try done.
    + intros j rep [(-> & [=] & _)|[Hne Hj]]%list_lookup_insert_Some. eauto.
    + intros j [(-> & _ & _)|[Hne Hj]]%list_lookup_insert_Some.
      * exists report. destruct (Hrep _ _ Hi). split_and!; [done..|].
        destruct (stopCause s); intros; by eexists.
      * destruct (Hdone _ Hj) as (rep & ? & ? & Himp). exists rep. split_and!; [done..|].
        intros Hc'. destruct (Himp Hc') as [c ->]. by eexists.
    + intros c Hs. destruct (stopCause s) as [c0|] eqn:Es; simplify_eq.
      * destruct (Hstop _ eq_refl) as (? & ? & j & Hj & Hres). split_and!; [done..|].
        exists j. split; [|done]. destruct (decide (j = i)) as [->|Hne].
        -- rewrite list_lookup_insert_eq by (by eapply lookup_lt_Some). done.
        -- by rewrite list_lookup_insert_ne.
      * destruct (Hrep _ _ Hi) as [Hres Hmay].
        split_and!; [done|by eapply mayReport_terminal|].
        exists i. rewrite list_lookup_insert_eq by (by eapply lookup_lt_Some). done.
  - split_and!; simpl; rewrite ?length_insert; try done.
    + intros j rep [(-> & [=] & _)|[Hne Hj]]%list_lookup_insert_Some. eauto.
    + intros j [(-> & _ & _)|[Hne Hj]]%list_lookup_insert_Some; [|eauto].
      exists report. destruct (Hrep _ _ Hi). split_and!; [done..|]. congruence.
    + intros c Hs. destruct (Hstop c Hs) as (? & ? & j & Hj & Hres). split_and!; [done..|].
      exists j. split; [|done]. destruct (decide (j = i)) as [->|Hne].
      * rewrite list_lookup_insert_eq by (by eapply lookup_lt_Some). done.
      * by rewrite list_lookup_insert_ne.
Qed.

(** Steps a goroutine still has to make. *)
Definition phaseLeft (p : phase) : nat :=
  match p with PRunning => 2 | PReported _ => 1 | PDone => 0 end.

Definition stepsLeft (s : parState) : nat := sum_list (phaseLeft <$> phases s).

Lemma stepsLeft_insert s i p q :
  phases s !! i = Some p → phaseLeft q = pred (phaseLeft p) → phaseLeft p ≠ 0%nat →
  (sum_list (phaseLeft <$> <[i := q]> (phases s)) < stepsLeft s)%nat.
Proof.
  intros Hi Hq Hp. unfold stepsLeft.
  rewrite <-(take_drop_middle _ _ _ Hi) at 2.
  rewrite insert_take_drop by (by eapply lookup_lt_Some).
  rewrite !fmap_app, !fmap_cons, !sum_list_with_app. simpl. lia.
Qed.

Lemma parStep_decreases r s s' : parStep r s s' → (stepsLeft s' < stepsLeft s)%nat.
Proof.
  destruct 1 as [s i report Hi _|s i report Hi _|s i report Hi _];
    unfold stepsLeft at 1; simpl; by eapply stepsLeft_insert.
Qed.

(** A goroutine that has not finished can make a step, given the world. *)
Lemma parStep_enabled r s (w : W) i p :
  parInv r s → phases s !! i = Some p → p ≠ PDone → ∃ s', parStep r s s'.
Proof.
  intros (_ & Hlen & _) Hi Hp. destruct p as [|report|]; [| |done].
  - apply lookup_lt_Some in Hi as Hlt. rewrite Hlen in Hlt.
    apply lookup_lt_is_Some in Hlt as [work Hwork].
    destruct (runWork Background (childName (p_name r) i) work w) as [report w'] eqn:E.
    eexists. eapply ParReport; [done|]. by exists work, Background, w, w'.
  - destruct (shouldCancelParallel (p_policy r) report) eqn:E; eexists;
      [by eapply ParStop|by eapply ParDone].
Qed.

Lemma shouldCancelParallel_not_success policy report :
  shouldCancelParallel policy report = true → Status report ≠ StatusCompleted.
Proof.
  unfold shouldCancelParallel, IsAborted, IsCancelled, IsSuccess. intros H Hs.
  revert H. rewrite Hs. simpl. by rewrite andb_false_r.
Qed.

Lemma shouldCancelParallel_stop policy report :
  policy = StopOnFailure → shouldCancelParallel policy report = false →
  Status report = StatusCompleted.
Proof.
  intros -> H. unfold shouldCancelParallel in H.
  destruct (IsAborted report || IsCancelled report); [done|]. simpl in H. bools.
  by apply IsSuccess_spec.
Qed.

(** What the parallel runner returns when every goroutine is done. *)
Lemma parReport_done r s t :
  parInv r s → Forall (eq PDone) (phases s) →
  p_policy r = StopOnFailure ∨ p_policy r = ContinueOnFailure →
  (∀ i work, p_works r !! i = Some work → ∃ report, results s !! i = Some report ∧
     mayReport r i report) ∧
  (stopCause s = None → Forall (λ c, shouldCancelParallel (p_policy r) c = false) (results s)) ∧
  Children (parReport t r s) = results s.
Proof.
  intros (Hl1 & Hl2 & _ & Hdone & Hstop) Hall Hp.
  assert (∀ i, (i < length (p_works r))%nat → phases s !! i = Some PDone) as Hph.
  { intros i Hlt. rewrite <-Hl2 in Hlt. apply lookup_lt_is_Some in Hlt as [p Hi].
    rewrite Hi. f_equal. symmetry. by eapply Forall_lookup_1 in Hall. }
  assert (stopCause s = None → Forall (λ c, shouldCancelParallel (p_policy r) c = false) (results s))
    as Hno.
  { intros Hnone. apply Forall_lookup_2. intros i c Hi.
    destruct (Hdone i) as (report & Hr & _ & Himp).
    { apply Hph. rewrite <-Hl1. by eapply lookup_lt_Some. }
    simplify_eq. destruct (shouldCancelParallel (p_policy r) c) eqn:E; [|done].
    destruct (Himp eq_refl). congruence. }
  split_and!; [|done|].
  - intros i work Hi. destruct (Hdone i) as (report & ? & ? & _); eauto.
    apply Hph. by eapply lookup_lt_Some.
  - unfold parReport. destruct (stopCause s) as [c|] eqn:Es.
    { destruct (Hstop c eq_refl) as (_ & -> & _). simpl. apply copyReports_id. }
    specialize (Hno eq_refl). pose proof (aggregate_valid t (p_name r) (p_policy r) (results s) Hp) as Ha.
    destruct (first_failure (results s)) as [c|] eqn:Ef; [|by apply Ha].
    destruct (p_policy r =? StopOnFailure) eqn:Epol; [|by apply Ha].
    apply first_failure_Some in Ef as [Hin Hne].
    rewrite Forall_forall in Hno. bools. by destruct Hne; eapply shouldCancelParallel_stop, Hno.
Qed.

Lemma validatePolicy_None t policy :
  validatePolicy t policy = None ↔ policy = StopOnFailure ∨ policy = ContinueOnFailure.
Proof.
  unfold validatePolicy, Aggregate, valid.
  destruct (policy =? StopOnFailure) eqn:E0; bools; simpl; [naive_solver|].
  destruct (policy =? ContinueOnFailure) eqn:E1; bools; simpl; naive_solver.
Qed.

Lemma parReport_status r s t :
  parInv r s → Forall (eq PDone) (phases s) →
  p_policy r = StopOnFailure ∨ p_policy r = ContinueOnFailure →
  match stopCause s with
  | Some c => Status (parReport t r s) = Status c ∧ Err (parReport t r s) = Err c ∧
      c ∈ results s ∧ shouldCancelParallel (p_policy r) c = true
  | None => Forall (λ c, shouldCancelParallel (p_policy r) c = false) (results s) ∧
      Status (parReport t r s) =
        (if first_failure (results s) then StatusPartial else StatusCompleted)
  end.
Proof.
  intros Hinv Hall Hp. destruct (parReport_done r s t Hinv Hall Hp) as (_ & Hno & _).
  destruct Hinv as (_ & _ & _ & _ & Hstop). unfold parReport.
  destruct (stopCause s) as [c|].
  { destruct (Hstop c eq_refl) as (? & -> & i & _ & Hi). split_and!; [done..| |done].
    by eapply list_elem_of_lookup_2. }
  specialize (Hno eq_refl). split; [done|].
  pose proof (aggregate_valid t (p_name r) (p_policy r) (results s) Hp) as Ha.
  destruct (first_failure (results s)) as [c|] eqn:Ef; [|by apply Ha].
  destruct (p_policy r =? StopOnFailure) eqn:Epol; [|by apply Ha].
  apply first_failure_Some in Ef as [Hin Hne].
  rewrite Forall_forall in Hno. bools. by destruct Hne; eapply shouldCancelParallel_stop, Hno.
Qed.

(** ** Properties of the parallel runner *)

(** Whatever the interleaving of the goroutines, a parallel run under a
    valid policy and a live context reports exactly one child per work, at the
    work's index and as [runWork] returned it; it is completed exactly when
    all children are, and otherwise it is partial, with no child that asks for
    cancellation, or carries the status and error of such a child. *)
Theorem parallel_joins_every_child (r : parallelRunner) octx (w : W) report :
  p_policy r = StopOnFailure ∨ p_policy r = ContinueOnFailure →
  (ctx_Err (orBackground octx) w).1 = None →
  Parallel_Run r octx w report →
  length (Children report) = length (p_works r) ∧
  (∀ i work, p_works r !! i = Some work →
     ∃ child, Children report !! i = Some child ∧ mayReport r i child) ∧
  (Status report = StatusCompleted ↔ Forall (λ c, Status c = StatusCompleted) (Children report)) ∧
  (Status report = StatusCompleted ∨
   Status report = StatusPartial ∧
     Forall (λ c, shouldCancelParallel (p_policy r) c = false) (Children report) ∨
   ∃ child, child ∈ Children report ∧ shouldCancelParallel (p_policy r) child = true ∧
     Status report = Status child ∧ Err report = Err child).
Proof.
  intros Hp Hlive Hrun.
  destruct Hrun as [t t' err Hv|t t' err w' _ Hc|t t' w' _ _ Hempty|t t' w' s _ _ _ Hreach Hall].
  { apply (validatePolicy_None t) in Hp. congruence. }
  { rewrite Hc in Hlive. done. }
  { rewrite Hempty. unfold aggregate, Aggregate.
    replace (valid (p_policy r)) with true by (destruct Hp as [-> | ->]; done). simpl.
    split_and!; [done| |done|auto]. done. }
  assert (parInv r s) as Hinv.
  { eapply rtc_invariant; [by apply parInv_step|done|apply parInv_init]. }
  destruct (parReport_done r s t' Hinv Hall Hp) as (Hres & _ & Hch).
  pose proof (parReport_status r s t' Hinv Hall Hp) as Hst.
  rewrite Hch. split_and!; [apply Hinv|done| |].
  - rewrite <-first_failure_None. destruct (stopCause s) as [c|].
    + destruct Hst as (-> & _ & Hin & Hcan%shouldCancelParallel_not_success).
      split; [done|]. intros Hall'%first_failure_None. rewrite Forall_forall in Hall'.
      by apply Hall' in Hin.
    + destruct Hst as (_ & ->). by destruct (first_failure (results s)).
  - destruct (stopCause s) as [c|]; [right; right; exists c; naive_solver|].
    destruct Hst as (Hno & ->). destruct (first_failure (results s)); auto.
Qed.

(** A parallel run always joins: every interleaving of its goroutines
    takes at most two steps per work, and a reachable state in which no step
    is possible is one where every goroutine has finished. *)
Theorem parallel_terminates (r : parallelRunner) (w : W) :
  (∀ n s, nsteps (parStep r) n (parInit r) s → (n ≤ 2 * length (p_works r))%nat) ∧
  (∀ s, rtc (parStep r) (parInit r) s → Forall (eq PDone) (phases s) ∨ ∃ s', parStep r s s').
Proof.
  split.
  - intros n s Hn.
    assert (∀ m a b, nsteps (parStep r) m a b → (m + stepsLeft b ≤ stepsLeft a)%nat) as Hle.
    { intros m a b Hm. induction Hm as [|m a b c Hstep _ IH]; [done|].
      apply parStep_decreases in Hstep. lia. }
    apply Hle in Hn. revert Hn. unfold stepsLeft at 2, parInit. simpl.
    rewrite fmap_replicate. simpl. rewrite sum_list_replicate. lia.
  - intros s Hreach.
    assert (parInv r s) as Hinv.
    { eapply rtc_invariant; [by apply parInv_step|done|apply parInv_init]. }
    destruct (decide (Forall (λ p, phaseLeft p = 0%nat) (phases s))) as [Hall|Hnot].
    { left. eapply Forall_impl; [done|]. by intros []. }
    apply not_Forall_Exists in Hnot; [|apply _].
    apply Exists_exists in Hnot as (p & Hin & Hp). apply list_elem_of_lookup in Hin as [i Hi].
    right. apply (parStep_enabled r s w i p Hinv Hi). intros ->. by apply Hp.
Qed.

(** ** The sequential runner *)

(** The works run one after the other, without a stop rule. *)
Fixpoint runWorks (ctx : Context W) (name : string) (index : nat) (works : list (option Work))
    : Call W (list Report) :=
  match works with
  | [] => mret []
  | work :: rest =>
      child ← runWork ctx (childName name index) work;
      children ← runWorks ctx name (S index) rest;
      mret (child :: children)
  end.

(** [Run] executed the works [ran], with reports [reports], and not [rest]. *)
Record seqRan (policy : Z) (name : string) (ctx : Context W) (index : nat)
    (works : list (option Work)) (w : W) (ran rest : list (option Work)) (reports : list Report)
    (w2 : W) : Prop := mkSeqRan {
  ran_split : works = ran ++ rest;
  ran_reports : runWorks ctx name index ran w = (reports, w2);
  ran_stopped : rest ≠ [] → ∃ init c, reports = init ++ [c] ∧
    shouldStopSequential policy c = true;
  ran_running : ∀ init c, reports = init ++ [c] →
    Forall (λ r, shouldStopSequential policy r = false) init
}.

Lemma seqLoop_spec name policy ctx works : ∀ index children w report w',
  seqLoop name policy ctx index works children w = (report, w') →
  ∃ ran rest reports w2 t, seqRan policy name ctx index works w ran rest reports w2 ∧
    now w2 = (t, w') ∧
    (if existsb (shouldStopSequential policy) reports
     then report = aggregate t name StopOnFailure (children ++ reports)
     else rest = [] ∧ report = aggregate t name policy (children ++ reports)).
Proof.
  induction works as [|work works IH]; intros index children w report w'; simpl;
    unfold mbind, call_bind, mret, call_ret.
  { destruct (now w) as [t wt] eqn:Et. intros [= <- <-].
    exists [], [], [], w, t. rewrite app_nil_r. split_and!; try done.
    split; try done. by intros [] ?. }
  destruct (runWork ctx (childName name index) work w) as [c w1] eqn:Ec.
  destruct (shouldStopSequential policy c) eqn:Es.
  - destruct (now w1) as [t wt] eqn:Et. intros [= <- <-].
    exists [work], works, [c], w1, t. simpl. rewrite Es. split_and!; try done.
    split; simpl; [done| | |].
    + unfold mbind, call_bind, mret, call_ret. by rewrite Ec.
    + intros _. by exists [], c.
    + intros [|? []] ?; by simplify_list_eq.
  - intros Hloop. apply IH in Hloop as (ran & rest & reports & w2 & t & Hran & Ht & Hrep).
    exists (work :: ran), rest, (c :: reports), w2, t. simpl. rewrite Es. simpl.
    rewrite <-(assoc_L app) in Hrep. split_and!; [|done|done].
    destruct Hran as [-> Hruns Hst Hrun]. split; simpl; [done| | |].
    + unfold mbind, call_bind, mret, call_ret. by rewrite Ec, Hruns.
    + intros Hne. destruct (Hst Hne) as (init & c' & -> & ?). by exists (c :: init), c'.
    + intros [|c0 init] c' ?; simplify_list_eq; [done|]. constructor; [done|]. by eapply Hrun.
Qed.

Lemma shouldStopSequential_not_success policy report :
  shouldStopSequential policy report = true → Status report ≠ StatusCompleted.
Proof. apply shouldCancelParallel_not_success. Qed.

Lemma first_failure_stops policy reports :
  existsb (shouldStopSequential policy) reports = true → is_Some (first_failure reports).
Proof.
  intros (c & Hin & Hs)%existsb_exists. apply shouldStopSequential_not_success in Hs.
  destruct (first_failure reports) eqn:E; [done|].
  apply first_failure_None in E. rewrite Forall_forall in E.
  apply list_elem_of_In in Hin. by apply E in Hin.
Qed.

(** ** Properties of the sequential runner *)

(** A sequential run under a valid policy and a live context executes a
    prefix of its works, each once and in order; it leaves out works only
    after a report that asks to stop, and the works left out have not touched
    the world.  It is completed exactly when every work ran and completed.
    When no report asks to stop (never the case of a failure under
    [StopOnFailure]) every work ran and the report holds every child. *)
Theorem sequential_runs_prefix (r : sequentialRunner) octx (w : W) report w' :
  s_policy r = StopOnFailure ∨ s_policy r = ContinueOnFailure →
  (ctx_Err (orBackground octx) (now w).2).1 = None →
  Sequential_Run r octx w = (report, w') →
  ∃ ran rest reports w2,
    seqRan (s_policy r) (s_name r) (orBackground octx) 0 (s_works r)
      (ctx_Err (orBackground octx) (now w).2).2 ran rest reports w2 ∧
    (now w2).2 = w' ∧
    (Status report = StatusCompleted ↔
       rest = [] ∧ Forall (λ c, Status c = StatusCompleted) reports) ∧
    (existsb (shouldStopSequential (s_policy r)) reports = false →
       rest = [] ∧ Children report = reports ∧
       (Status report = StatusCompleted ∨ Status report = StatusPartial)) ∧
    (existsb (shouldStopSequential (s_policy r)) reports = true →
       ∃ c, first_failure reports = Some c ∧ Status report = Status c ∧
            Children report = upto_failure reports).
Proof.
  intros Hp Hlive. unfold Sequential_Run, mbind, call_bind, mret, call_ret.
  destruct (now w) as [t0 w0]. rewrite (proj2 (validatePolicy_None t0 (s_policy r)) Hp).
  simpl in Hlive |- *. destruct (ctx_Err (orBackground octx) w0) as [e w1]. simpl in Hlive. subst e.
  intros (ran & rest & reports & w2 & t & Hran & Ht & Hrep)%seqLoop_spec.
  exists ran, rest, reports, w2. simpl. rewrite Ht. split_and!; [done|done|..];
    destruct (existsb (shouldStopSequential (s_policy r)) reports) eqn:Ex; simpl in Hrep; try done.
  - subst report. destruct (first_failure_stops _ _ Ex) as [c Hc].
    pose proof (aggregate_valid t (s_name r) StopOnFailure reports (or_introl eq_refl)) as Ha.
    rewrite Hc in Ha. simpl in Ha. destruct Ha as [-> _].
    rewrite <-first_failure_None, Hc. apply first_failure_Some in Hc as [_ Hc]. naive_solver.
  - destruct Hrep as [-> ->]. rewrite <-first_failure_None.
    pose proof (aggregate_valid t (s_name r) (s_policy r) reports Hp) as Ha.
    destruct (first_failure reports) as [c|] eqn:Ec; [|naive_solver].
    apply first_failure_Some in Ec as [_ Ec].
    destruct (s_policy r =? StopOnFailure); destruct Ha as [-> _]; naive_solver.
  - destruct Hrep as [-> ->]. intros _.
    pose proof (aggregate_valid t (s_name r) (s_policy r) reports Hp) as Ha.
    destruct (first_failure reports) as [c|] eqn:Ec; [|naive_solver].
    destruct (s_policy r =? StopOnFailure) eqn:Epol; [|naive_solver].
    apply first_failure_Some in Ec as [Hin Hc]. exfalso. apply Hc.
    bools. apply (shouldCancelParallel_stop (s_policy r)); [done|].
    change (shouldStopSequential (s_policy r) c = false).
    destruct (shouldStopSequential (s_policy r) c) eqn:E; [|done].
    rewrite <-Ex. symmetry. apply existsb_exists. exists c. split; [by apply list_elem_of_In|done].
  - subst report. intros _. destruct (first_failure_stops _ _ Ex) as [c Hc]. exists c.
    pose proof (aggregate_valid t (s_name r) StopOnFailure reports (or_introl eq_refl)) as Ha.
    rewrite Hc in Ha. done.
Qed.
End runners.

(** Under [ContinueOnFailure] a failed child followed by a cancelled one
    makes the parent failed with the failed child alone: the sequence is
    aggregated as [StopOnFailure], so the cancelled child is missing from the
    report of a policy documented to keep every child. *)
Theorem continue_hides_cancelled_child (t : Z) (e : error) :
  let work r : option (Work (W := unit)) := Some (λ _ w, (r, w)) in
  let failed := Failed t "load" (Some e) in
  let cancelled := Cancelled t "save" (Some Canceled) in
  ∃ report,
    Sequential_Run (λ w, (t, w)) (mkSequential "job" ContinueOnFailure [work failed; work cancelled])
      None tt = (report, tt) ∧
    Status report = StatusFailed ∧ Children report = [failed].
Proof. eexists. split; [reflexivity|]. done. Qed.

(** ** Witnesses *)

Definition okWork : option (Work (W := unit)) := Some (λ _ w, (Completed 1 "ok", w)).
Definition badWork : option (Work (W := unit)) := Some (λ _ w, (Failed 1 "bad" None, w)).
Definition clock1 : Call unit Z := λ w, (1, w).
Definition twoParallel : parallelRunner := mkParallel "p" ContinueOnFailure [okWork; badWork].
Definition threeSequential : sequentialRunner := mkSequential "s" StopOnFailure [okWork; badWork; okWork].

Lemma twoParallel_run : Parallel_Run clock1 twoParallel None tt
  (mkReport "p" StatusPartial 1 1 None "" [Completed 1 "ok"; Failed 1 "bad" None]).
Proof.
  assert (∀ i work, p_works twoParallel !! i = Some work →
    mayReport clock1 twoParallel i (runWork clock1 Background (childName "p" i) work tt).1) as Hmay.
  { intros i work Hi. exists work, Background, tt, tt. split; [done|].
    by destruct (runWork _ _ _ _ _) as [? []]. }
  apply (ParallelJoined clock1 twoParallel None tt 0 1 tt
    (mkPar [Completed 1 "ok"; Failed 1 "bad" None] None [PDone; PDone])); try done.
  - eapply rtc_l; [apply (ParReport _ _ _ 1%nat (Failed 1 "bad" None)); [done|by apply (Hmay 1%nat badWork)]|].
    eapply rtc_l; [apply (ParReport _ _ _ 0%nat (Completed 1 "ok")); [done|by apply (Hmay 0%nat okWork)]|].
    eapply rtc_l; [by apply (ParDone _ _ _ 0%nat (Completed 1 "ok"))|].
    eapply rtc_l; [by apply (ParDone _ _ _ 1%nat (Failed 1 "bad" None))|].
    done.
  - by repeat constructor.
Qed.

Lemma parallel_joins_every_child_witness :
  length (Children (mkReport "p" StatusPartial 1 1 None "" [Completed 1 "ok"; Failed 1 "bad" None]))
  = length (p_works twoParallel).
Proof.
  apply (parallel_joins_every_child clock1 twoParallel None tt);
    [right; reflexivity|reflexivity|apply twoParallel_run].
Defined.

Lemma sequential_runs_prefix_witness :
  let out := Sequential_Run clock1 threeSequential None tt in
  Status out.1 = StatusFailed ∧ length (Children out.1) = 2%nat ∧
  ∃ ran rest reports w2,
    seqRan clock1 StopOnFailure "s" Background 0 (s_works threeSequential) tt ran rest reports w2.
Proof.
  split; [reflexivity|]. split; [reflexivity|].
  destruct (sequential_runs_prefix clock1 threeSequential None tt
    (Sequential_Run clock1 threeSequential None tt).1 tt) as (ran & rest & reports & w2 & H & _);
    [left; reflexivity|reflexivity|reflexivity|].
  exists ran, rest, reports, w2. exact H.
Defined.
