(* ===== verification/Batch.v ===== *)
(** * batch: policies, reports, chunked steps, checkpoints and jobs

    Models [src/batch].  Readers, processors, writers and checkpoint stores
    are interfaces in the code, so they are records of calls on the world [W];
    [I], [O] and [K] are the item, output and checkpoint types.  Counters are
    unbounded integers: a counter of a run is at most the number of items it
    reads.  A loop over the reader takes fuel. *)

From S2P Require Import Prelude GoError.

Local Open Scope Z_scope.

Definition ErrCheckpointConflict : error := Sentinel "batch.ErrCheckpointConflict".
Definition ErrCommitUnknown : error := Sentinel "batch.ErrCommitUnknown".
Definition ErrAtomicityUnknown : error := Sentinel "batch.ErrAtomicityUnknown".
Definition ErrUnsafeWriterSkipCheckpoint : error := Sentinel "batch.ErrUnsafeWriterSkipCheckpoint".

Definition StatusCompleted : string := "completed".
Definition StatusFailed : string := "failed".
Definition StatusCancelled : string := "cancelled".
Definition StatusPartial : string := "partial".

(** ** Reports *)

Inductive Report : Type := mkReport {
  Name : string;
  Status : string;
  StartedAt : Z;
  EndedAt : Z;
  ReadCount : Z;
  WriteCount : Z;
  FilterCount : Z;
  SkipCount : Z;
  RetryCount : Z;
  Err : option error;
  Children : list Report
}.

Definition IsSuccess (r : Report) : bool := String.eqb (Status r) StatusCompleted.
Definition IsFailure (r : Report) : bool :=
  String.eqb (Status r) StatusFailed || String.eqb (Status r) StatusCancelled ||
  String.eqb (Status r) StatusPartial.

Definition newReport (now : Z) (name : string) : Report :=
  mkReport name StatusCompleted now now 0 0 0 0 0 None [].

(** [finish] *)
Definition finish (now : Z) (r : Report) (status : string) (err : option error) : Report :=
  mkReport (Name r) status (StartedAt r) now (ReadCount r) (WriteCount r) (FilterCount r)
    (SkipCount r) (RetryCount r) err (Children r).

(** Assignments to one field of the report. *)
Definition addCounts (r : Report) (read write filter skip retry : Z) : Report :=
  mkReport (Name r) (Status r) (StartedAt r) (EndedAt r) (ReadCount r + read)
    (WriteCount r + write) (FilterCount r + filter) (SkipCount r + skip) (RetryCount r + retry)
    (Err r) (Children r).
Definition setErr (r : Report) (err : option error) : Report :=
  mkReport (Name r) (Status r) (StartedAt r) (EndedAt r) (ReadCount r)
    (WriteCount r) (FilterCount r) (SkipCount r) (RetryCount r) err (Children r).
Definition setChildren (r : Report) (children : list Report) : Report :=
  mkReport (Name r) (Status r) (StartedAt r) (EndedAt r) (ReadCount r)
    (WriteCount r) (FilterCount r) (SkipCount r) (RetryCount r) (Err r) children.

Definition copyReports (reports : list Report) : list Report :=
  match reports with [] => [] | _ => reports end.

(** ** Policies *)

Record RetryPolicy := mkRetryPolicy { MaxAttempts : Z; RetryIf : option (error → bool) }.
Record SkipPolicy := mkSkipPolicy { MaxSkips : Z; SkipIf : option (error → bool) }.

Definition nonContextError (err : error) : bool := negb (isContextError err).

Definition RetryErrors (maxAttempts : Z) (retryIf : option (error → bool)) : result RetryPolicy :=
  if maxAttempts <=? 0 then Fail (Errorf "max attempts must be positive" [])
  else Ok (mkRetryPolicy maxAttempts retryIf).

Definition SkipErrors (maxSkips : Z) (skipIf : option (error → bool)) : result SkipPolicy :=
  if maxSkips <=? 0 then Fail (Errorf "max skips must be positive" [])
  else Ok (mkSkipPolicy maxSkips skipIf).

(** [RetryPolicy.normalize] *)
Definition normalizeRetry (p : RetryPolicy) : result RetryPolicy :=
  let max := if MaxAttempts p =? 0 then 1 else MaxAttempts p in
  if max <? 0 then Fail (Errorf "max attempts must be positive" [])
  else Ok (mkRetryPolicy max
             (match RetryIf p with
              | None => if 1 <? max then Some nonContextError else None
              | Some f => Some f
              end)).

Definition shouldRetry (p : RetryPolicy) (err : error) (attempt : Z) : bool :=
  if (MaxAttempts p <=? attempt) || isContextError err then false
  else match RetryIf p with None => false | Some f => f err end.

(** [SkipPolicy.normalize] *)
Definition normalizeSkip (p : SkipPolicy) : result SkipPolicy :=
  if MaxSkips p <? 0 then Fail (Errorf "max skips must not be negative" [])
  else Ok (mkSkipPolicy (MaxSkips p)
             (match SkipIf p with
              | None => if 0 <? MaxSkips p then Some nonContextError else None
              | Some f => Some f
              end)).

Definition shouldSkip (p : SkipPolicy) (err : error) (used cost : Z) : bool :=
  if (cost <=? 0) || (MaxSkips p <=? 0) || isContextError err then false
  else if MaxSkips p <? used + cost then false
  else match SkipIf p with None => false | Some f => f err end.

(** [statusForError] *)
Definition statusForError (err : error) : string :=
  if errors_Is err "batch.ErrCommitUnknown" || errors_Is err "batch.ErrAtomicityUnknown"
  then StatusFailed
  else if isContextError err then StatusCancelled else StatusFailed.

Definition DefaultChunkSize : Z := 100.

Section batch.
Context {W I O K : Type} (now : Call W Z).

(** ** Interfaces *)

(** [CheckpointReader] *)
Record CheckpointReader := mkCheckpointReader {
  Restore : Context W → K → Call W (option error);
  Checkpoint : Context W → Call W (result (option K))
}.

(** [Reader]; [Read] answers [Ok None] for [ok = false].  The type assertion
    to [CheckpointReader] is the field [asCheckpoint]. *)
Record Reader := mkReader {
  rOpen : Context W → Call W (option error);
  Read : Context W → Call W (result (option I));
  rClose : Context W → Call W (option error);
  asCheckpoint : option CheckpointReader
}.

(** [Processor]; [Ok None] is [keep = false]. *)
Definition Processor : Type := Context W → I → Call W (result (option O)).

Record Writer := mkWriter {
  wOpen : Context W → Call W (option error);
  Write : Context W → list O → Call W (option error);
  wClose : Context W → Call W (option error)
}.

Record CheckpointStore := mkStore {
  Load : Context W → string → Call W (result (option K));
  Save : Context W → string → K → Call W (option error)
}.

(** [AtomicCheckpointWriter] with [VersionedCheckpoint] as a pair. *)
Record AtomicCheckpointWriter := mkAtomic {
  aLoad : Context W → string → Call W (result (option (K * Z)));
  Commit : Context W → string → Z → list O → K → Call W (result Z)
}.

(** [NewStep] sets [writer] and leaves [atomic] nil, [NewAtomicStep] the other
    way round. *)
Inductive Sink : Type :=
| ToWriter (writer : Writer)
| ToAtomic (atomic : AtomicCheckpointWriter).

Record Step := mkStep {
  name : string;
  chunkSize : Z;
  reader : Reader;
  processor : Processor;
  sink : Sink;
  retry : RetryPolicy;
  skip : SkipPolicy;
  store : option CheckpointStore;
  key : string
}.

Record StepOptions := mkStepOptions {
  o_Name : string;
  o_ChunkSize : Z;
  o_Reader : option Reader;
  o_Processor : option Processor;
  o_Writer : option Writer;
  o_RetryPolicy : RetryPolicy;
  o_SkipPolicy : SkipPolicy;
  o_CheckpointStore : option CheckpointStore;
  o_CheckpointKey : string
}.

Record AtomicStepOptions := mkAtomicStepOptions {
  a_Name : string;
  a_ChunkSize : Z;
  a_Reader : option Reader;
  a_Processor : option Processor;
  a_AtomicWriter : option AtomicCheckpointWriter;
  a_RetryPolicy : RetryPolicy;
  a_SkipPolicy : SkipPolicy;
  a_CheckpointKey : string
}.

Definition NewStep (options : StepOptions) : result Step :=
  if String.eqb (o_Name options) "" then Fail (Errorf "step name must not be empty" [])
  else
    let size := if o_ChunkSize options =? 0 then DefaultChunkSize else o_ChunkSize options in
    if size <? 0 then Fail (Errorf "chunk size must be positive" [])
    else match o_Reader options, o_Processor options, o_Writer options with
    | None, _, _ => Fail (Errorf "reader must not be nil" [])
    | _, None, _ => Fail (Errorf "processor must not be nil" [])
    | _, _, None => Fail (Errorf "writer must not be nil" [])
    | Some rd, Some pr, Some wr =>
        match normalizeRetry (o_RetryPolicy options) with
        | Fail e => Fail e
        | Ok rt =>
            match normalizeSkip (o_SkipPolicy options) with
            | Fail e => Fail e
            | Ok sk =>
                let k := match o_CheckpointStore options with
                         | Some _ => if String.eqb (o_CheckpointKey options) ""
                                     then o_Name options else o_CheckpointKey options
                         | None => o_CheckpointKey options
                         end in
                Ok (mkStep (o_Name options) size rd pr (ToWriter wr) rt sk
                      (o_CheckpointStore options) k)
            end
        end
    end.

Definition NewAtomicStep (options : AtomicStepOptions) : result Step :=
  if String.eqb (a_Name options) "" then Fail (Errorf "step name must not be empty" [])
  else
    let size := if a_ChunkSize options =? 0 then DefaultChunkSize else a_ChunkSize options in
    if size <? 0 then Fail (Errorf "chunk size must be positive" [])
    else match a_Reader options, a_Processor options, a_AtomicWriter options with
    | None, _, _ => Fail (Errorf "reader must not be nil" [])
    | _, None, _ => Fail (Errorf "processor must not be nil" [])
    | _, _, None => Fail (Errorf "atomic writer must not be nil" [])
    | Some rd, Some pr, Some aw =>
        match asCheckpoint rd with
        | None => Fail (Errorf "reader does not support checkpoints" [])
        | Some _ =>
            match normalizeRetry (a_RetryPolicy options) with
            | Fail e => Fail e
            | Ok rt =>
                match normalizeSkip (a_SkipPolicy options) with
                | Fail e => Fail e
                | Ok sk =>
                    let k := if String.eqb (a_CheckpointKey options) ""
                             then a_Name options else a_CheckpointKey options in
                    Ok (mkStep (a_Name options) size rd pr (ToAtomic aw) rt sk None k)
                end
            end
        end
    end.

(** ** The operations of a step

    The report that the code mutates through a pointer is passed along. *)

(** [report.finish(status, err); return report] *)
Definition finishWith (report : Report) (status : string) (err : option error) : Go W Report :=
  t ← call now; mret (finish t report status err).

(** [report.finish(statusForError(err), err); return report] *)
Definition failWith (report : Report) (err : error) : Go W Report :=
  finishWith report (statusForError err) (Some err).

Section step.
Variable s : Step.

(** The loop of [process]; [fuel] bounds the attempts. *)
Fixpoint processLoop (fuel : nat) (ctx : Context W) (report : Report) (item : I) (attempt : Z)
    : Go W (result (option O) * Report) :=
  match fuel with
  | 0%nat => out_of_fuel
  | S fuel' =>
      err ← call (ctx_Err ctx);
      match err with
      | Some e => mret (Fail e, report)
      | None =>
          r ← call (processor s ctx item);
          match r with
          | Ok v => mret (Ok v, report)
          | Fail e =>
              if negb (shouldRetry (retry s) e attempt) then mret (Fail e, report)
              else processLoop fuel' ctx (addCounts report 0 0 0 0 1) item (attempt + 1)
          end
      end
  end.

Definition process (ctx : Context W) (report : Report) (item : I)
    : Go W (result (option O) * Report) :=
  processLoop (Z.to_nat (MaxAttempts (retry s))) ctx report item 1.

(** The loop of [write]. *)
Fixpoint writeLoop (fuel : nat) (wr : Writer) (ctx : Context W) (report : Report)
    (chunk : list O) (attempt : Z) : Go W (option error * Report) :=
  match fuel with
  | 0%nat => out_of_fuel
  | S fuel' =>
      err ← call (ctx_Err ctx);
      match err with
      | Some e => mret (Some e, report)
      | None =>
          r ← call (Write wr ctx chunk);
          match r with
          | None => mret (None, report)
          | Some e =>
              if negb (shouldRetry (retry s) e attempt) then mret (Some e, report)
              else writeLoop fuel' wr ctx (addCounts report 0 0 0 0 1) chunk (attempt + 1)
          end
      end
  end.

Definition write (wr : Writer) (ctx : Context W) (report : Report) (chunk : list O)
    : Go W (option error * Report) :=
  writeLoop (Z.to_nat (MaxAttempts (retry s))) wr ctx report chunk 1.

Definition restoreCheckpoint (ctx : Context W) : Go W (option error) :=
  match store s with
  | None => mret None
  | Some st =>
      match asCheckpoint (reader s) with
      | None => mret (Some (Errorf "reader does not support checkpoints" []))
      | Some cr =>
          r ← call (Load st ctx (key s));
          match r with
          | Fail e => mret (Some e)
          | Ok None => mret None
          | Ok (Some checkpoint) => call (Restore cr ctx checkpoint)
          end
      end
  end.

Definition saveCheckpoint (ctx : Context W) : Go W (option error) :=
  match store s with
  | None => mret None
  | Some st =>
      match asCheckpoint (reader s) with
      | None => mret (Some (Errorf "reader does not support checkpoints" []))
      | Some cr =>
          r ← call (Checkpoint cr ctx);
          match r with
          | Fail e => mret (Some e)
          | Ok None => mret None
          | Ok (Some checkpoint) => call (Save st ctx (key s) checkpoint)
          end
      end
  end.

Definition flush (wr : Writer) (ctx : Context W) (report : Report) (chunk : list O)
    : Go W (option error * Report) :=
  match chunk with
  | [] => mret (None, report)
  | _ =>
      err ← call (ctx_Err ctx);
      match err with
      | Some e => mret (Some e, report)
      | None =>
          r ← write wr ctx report chunk;
          match r with
          | (Some e, report') =>
              if shouldSkip (skip s) e (SkipCount report') (Z.of_nat (length chunk))
              then match store s with
                   | Some _ => mret (Some (Errorf "%w: %w" [ErrUnsafeWriterSkipCheckpoint; e]), report')
                   | None => mret (None, addCounts report' 0 0 0 (Z.of_nat (length chunk)) 0)
                   end
              else mret (Some e, report')
          | (None, report') =>
              e ← saveCheckpoint ctx;
              mret (e, addCounts report' 0 (Z.of_nat (length chunk)) 0 0 0)
          end
      end
  end.

(** The [for] loop of [Run]. *)
Fixpoint runLoop (fuel : nat) (wr : Writer) (ctx : Context W) (report : Report) (chunk : list O)
    : Go W Report :=
  match fuel with
  | 0%nat => out_of_fuel
  | S fuel' =>
      err ← call (ctx_Err ctx);
      match err with
      | Some e => finishWith report StatusCancelled (Some e)
      | None =>
          r ← call (Read (reader s) ctx);
          match r with
          | Fail e => failWith report e
          | Ok None =>
              f ← flush wr ctx report chunk;
              match f with
              | (Some e, report') => failWith report' e
              | (None, report') => finishWith report' StatusCompleted None
              end
          | Ok (Some item) =>
              p ← process ctx (addCounts report 1 0 0 0 0) item;
              match p with
              | (Fail e, report') =>
                  if shouldSkip (skip s) e (SkipCount report') 1
                  then (let report'' := addCounts report' 0 0 0 1 0 in
                        c ← saveCheckpoint ctx;
                        match c with
                        | Some e' => failWith report'' e'
                        | None => runLoop fuel' wr ctx report'' chunk
                        end)
                  else failWith report' e
              | (Ok None, report') =>
                  let report'' := addCounts report' 0 0 1 0 0 in
                  c ← saveCheckpoint ctx;
                  match c with
                  | Some e' => failWith report'' e'
                  | None => runLoop fuel' wr ctx report'' chunk
                  end
              | (Ok (Some processed), report') =>
                  let chunk' := chunk ++ [processed] in
                  if Z.of_nat (length chunk') =? chunkSize s
                  then (f ← flush wr ctx report' chunk';
                        match f with
                        | (Some e, report'') => failWith report'' e
                        | (None, report'') => runLoop fuel' wr ctx report'' []
                        end)
                  else runLoop fuel' wr ctx report' chunk'
              end
          end
      end
  end.

(** [closeResources] *)
Definition closeResources (ctx : Context W) (report : Report) (openWriter : option Writer)
    (readerOpened : bool) : Go W Report :=
  e1 ← match openWriter with
       | Some wr => e ← call (wClose wr ctx); mret (errors_Join None e)
       | None => mret None
       end;
  e2 ← (if readerOpened then (e ← call (rClose (reader s) ctx); mret (errors_Join e1 e))
        else mret e1);
  match e2 with
  | None => mret report
  | Some _ =>
      if (match Err report with None => true | _ => false end) &&
         String.eqb (Status report) StatusCompleted
      then finishWith report StatusFailed e2
      else mret (setErr report (errors_Join (Err report) e2))
  end.

(** The non-atomic part of [Step.Run], the deferred close at every return. *)
Definition runWriter (fuel : nat) (wr : Writer) (ctx : Context W) : Go W Report :=
  t ← call now;
  let report := newReport t (name s) in
  let closeCtx := WithoutCancel ctx in
  err ← call (ctx_Err ctx);
  match err with
  | Some e =>
      r ← finishWith report StatusCancelled (Some e); closeResources closeCtx r None false
  | None =>
      e1 ← call (rOpen (reader s) ctx);
      match e1 with
      | Some e => r ← failWith report e; closeResources closeCtx r None false
      | None =>
          e2 ← call (wOpen wr ctx);
          match e2 with
          | Some e => r ← failWith report e; closeResources closeCtx r None true
          | None =>
              e3 ← restoreCheckpoint ctx;
              match e3 with
              | Some e => r ← failWith report e; closeResources closeCtx r (Some wr) true
              | None => r ← runLoop fuel wr ctx report []; closeResources closeCtx r (Some wr) true
              end
          end
      end
  end.

(** [commitAtomic] *)
Definition commitAtomic (aw : AtomicCheckpointWriter) (cr : CheckpointReader) (ctx : Context W)
    (report : Report) (expected : Z) (pending : list O) : Go W (result Z * Report) :=
  err ← call (ctx_Err ctx);
  match err with
  | Some e => mret (Fail e, report)
  | None =>
      c ← call (Checkpoint cr ctx);
      match c with
      | Fail e => mret (Fail e, report)
      | Ok None => mret (Fail (Errorf "reader checkpoint is unavailable" []), report)
      | Ok (Some checkpoint) =>
          err2 ← call (ctx_Err ctx);
          match err2 with
          | Some e => mret (Fail e, report)
          | None =>
              v ← call (Commit aw ctx (key s) expected pending checkpoint);
              match v with
              | Fail e => mret (Fail e, report)
              | Ok version =>
                  mret (Ok version, addCounts report 0 (Z.of_nat (length pending)) 0 0 0)
              end
          end
      end
  end.

(** The outcome of [process] as [runAtomic] accounts for it: the report, and
    the output to append; [Fail] when the step gives up. *)
Definition absorb (p : result (option O) * Report) : result (list O) * Report :=
  match p with
  | (Fail e, report) =>
      if shouldSkip (skip s) e (SkipCount report) 1
      then (Ok [], addCounts report 0 0 0 1 0)
      else (Fail e, report)
  | (Ok None, report) => (Ok [], addCounts report 0 0 1 0 0)
  | (Ok (Some processed), report) => (Ok [processed], report)
  end.

(** The [for] loop of [runAtomic]. *)
Fixpoint atomicLoop (fuel : nat) (aw : AtomicCheckpointWriter) (cr : CheckpointReader)
    (ctx : Context W) (report : Report) (expected : Z) (pending : list O) (progressCount : Z)
    : Go W Report :=
  match fuel with
  | 0%nat => out_of_fuel
  | S fuel' =>
      err ← call (ctx_Err ctx);
      match err with
      | Some e => finishWith report StatusCancelled (Some e)
      | None =>
          r ← call (Read (reader s) ctx);
          match r with
          | Fail e => failWith report e
          | Ok None =>
              if 0 <? progressCount
              then (c ← commitAtomic aw cr ctx report expected pending;
                    match c with
                    | (Fail e, report') => failWith report' e
                    | (Ok _, report') => finishWith report' StatusCompleted None
                    end)
              else finishWith report StatusCompleted None
          | Ok (Some item) =>
              p ← process ctx (addCounts report 1 0 0 0 0) item;
              match absorb p with
              | (Fail e, report') => failWith report' e
              | (Ok out, report') =>
                  if progressCount + 1 =? chunkSize s
                  then (c ← commitAtomic aw cr ctx report' expected (pending ++ out);
                        match c with
                        | (Fail e, report'') => failWith report'' e
                        | (Ok version, report'') =>
                            atomicLoop fuel' aw cr ctx report'' version [] 0
                        end)
                  else atomicLoop fuel' aw cr ctx report' expected (pending ++ out)
                         (progressCount + 1)
              end
          end
      end
  end.

(** The deferred function of [runAtomic] once the reader is open. *)
Definition closeReader (ctx : Context W) (report : Report) : Go W Report :=
  e ← call (rClose (reader s) (WithoutCancel ctx));
  match e with
  | None => mret report
  | Some _ =>
      if (match Err report with None => true | _ => false end) &&
         String.eqb (Status report) StatusCompleted
      then finishWith report StatusFailed e
      else mret (setErr report (errors_Join (Err report) e))
  end.

(** [runAtomic] *)
Definition runAtomic (fuel : nat) (aw : AtomicCheckpointWriter) (ctx : Context W) : Go W Report :=
  t ← call now;
  let report := newReport t (name s) in
  err ← call (ctx_Err ctx);
  match err with
  | Some e => finishWith report StatusCancelled (Some e)
  | None =>
      e1 ← call (rOpen (reader s) ctx);
      match e1 with
      | Some e => failWith report e
      | None =>
          r ← match asCheckpoint (reader s) with
              | None =>
                  finishWith report StatusFailed
                    (Some (Errorf "reader does not support checkpoints" []))
              | Some cr =>
                  l ← call (aLoad aw ctx (key s));
                  match l with
                  | Fail e => failWith report e
                  | Ok None => atomicLoop fuel aw cr ctx report 0 [] 0
                  | Ok (Some (value, version)) =>
                      e2 ← call (Restore cr ctx value);
                      match e2 with
                      | Some e => failWith report e
                      | None => atomicLoop fuel aw cr ctx report version [] 0
                      end
                  end
              end;
          closeReader ctx r
      end
  end.
End step.

(** [Step.Run] *)
Definition Run (fuel : nat) (os : option Step) (octx : option (Context W)) : Go W Report :=
  let ctx := orBackground octx in
  match os with
  | None =>
      t ← call now;
      finishWith (newReport t "") StatusFailed (Some (Errorf "step must not be nil" []))
  | Some s =>
      match sink s with
      | ToAtomic aw => runAtomic s fuel aw ctx
      | ToWriter wr => runWriter s fuel wr ctx
      end
  end.

(** ** Jobs *)

(** [Runner] *)
Record Runner := mkRunner { runnerName : string; runRunner : Context W → Go W Report }.

Record Job := mkJob { j_name : string; j_steps : list Runner }.

Fixpoint allSteps (steps : list (option Runner)) : option (list Runner) :=
  match steps with
  | [] => Some []
  | None :: _ => None
  | Some r :: rest => match allSteps rest with Some rs => Some (r :: rs) | None => None end
  end.

Definition NewJob (jname : string) (steps : list (option Runner)) : result Job :=
  if String.eqb jname "" then Fail (Errorf "job name must not be empty" [])
  else match steps with
       | [] => Fail (Errorf "at least one step is required" [])
       | _ =>
           match allSteps steps with
           | None => Fail (Errorf "step %d must not be nil" [])
           | Some rs => Ok (mkJob jname rs)
           end
       end.

(** The loop of [Job.Run]. *)
Fixpoint jobLoop (ctx : Context W) (steps : list Runner) (report : Report)
    (children : list Report) : Go W Report :=
  match steps with
  | [] => finishWith (setChildren report (copyReports children)) StatusCompleted None
  | step :: rest =>
      child ← runRunner step ctx;
      let children' := children ++ [child] in
      let report' := addCounts report (ReadCount child) (WriteCount child) (FilterCount child)
                       (SkipCount child) (RetryCount child) in
      if negb (IsSuccess child)
      then
        let status := if (1 <? length children')%nat && String.eqb (Status child) StatusFailed
                      then StatusPartial else Status child in
        finishWith (setChildren report' (copyReports children')) status (Err child)
      else jobLoop ctx rest report' children'
  end.

Definition Job_Run (oj : option Job) (octx : option (Context W)) : Go W Report :=
  let ctx := orBackground octx in
  match oj with
  | None =>
      t ← call now;
      finishWith (newReport t "") StatusFailed (Some (Errorf "job must not be nil" []))
  | Some j => t ← call now; jobLoop ctx (j_steps j) (newReport t (j_name j)) []
  end.
End batch.

Arguments CheckpointReader : clear implicits.
Arguments Reader : clear implicits.
Arguments Processor : clear implicits.
Arguments Writer : clear implicits.
Arguments CheckpointStore : clear implicits.
Arguments AtomicCheckpointWriter : clear implicits.
Arguments Step : clear implicits.
Arguments Runner : clear implicits.
Arguments Job : clear implicits.

(** [IdentityProcessor] *)
Definition IdentityProcessor {W T} : Processor W T T := λ ctx item,
  err ← ctx_Err ctx;
  match err with
  | Some e => mret (Fail e)
  | None => mret (Ok (Some item))
  end.

(** ** MemoryCheckpointStore, its map as the component [get] of the world *)
Section memory_store.
Context {W K : Type} (get : W → gmap string K) (set : W → gmap string K → W).

Definition memoryLoad (ctx : Context W) (key : string) : Call W (result (option K)) :=
  err ← ctx_Err ctx;
  match err with
  | Some e => mret (Fail e)
  | None => (λ w, (Ok (get w !! key), w)) : Call W _
  end.

Definition memorySave (ctx : Context W) (key : string) (checkpoint : K) : Call W (option error) :=
  err ← ctx_Err ctx;
  match err with
  | Some e => mret (Some e)
  | None => (λ w, (None, set w (<[key := checkpoint]> (get w)))) : Call W _
  end.

Definition MemoryCheckpointStore : CheckpointStore W K := mkStore memoryLoad memorySave.
End memory_store.
