(* ===== verification/BatchStep.v ===== *)
(** * batch: correctness of chunked steps

    Accounting, termination, retry and skip bounds of [Step.Run] with a
    [Writer], and of [Job.Run]. *)

From S2P Require Import Prelude GoError Batch.

Local Open Scope Z_scope.

(** ** Policies *)

Lemma shouldSkip_budget p err used cost :
  shouldSkip p err used cost = true →
  0 < cost ∧ used + cost ≤ MaxSkips p ∧ isContextError err = false.
Proof.
  unfold shouldSkip. destruct (_ || _ || _) eqn:E; [done|]. bools.
  destruct (MaxSkips p <? used + cost) eqn:E2; [done|]. bools. by intros _.
Qed.

Lemma shouldRetry_budget p err attempt :
  shouldRetry p err attempt = true → attempt < MaxAttempts p ∧ isContextError err = false.
Proof. unfold shouldRetry. destruct (_ || _) eqn:E; [done|]. bools. by intros _. Qed.

(** ** Reports *)

Lemma addCounts_0 r : addCounts r 0 0 0 0 0 = r.
Proof. destruct r. unfold addCounts. simpl. by rewrite !Z.add_0_r. Qed.

Lemma addCounts_retry r k :
  addCounts (addCounts r 0 0 0 0 1) 0 0 0 0 k = addCounts r 0 0 0 0 (k + 1).
Proof. unfold addCounts. simpl. f_equal; lia. Qed.

(** ** Calls bounded by the retry policy

    [R] relates the world before and after the calls that the loops make; it
    is any preorder that those calls respect. *)
Section frame.
Context {W I O K : Type} (s : Step W I O K) (ctx : Context W).
Context (R : W → W → Prop) `{!PreOrder R}.
Hypothesis ctx_frame : ∀ w, R w (ctx_Err ctx w).2.

Lemma processLoop_spec (may : result (option O) → Prop) item :
  (∀ w, R w (processor s ctx item w).2) →
  (∀ w, may (processor s ctx item w).1) →
  (∀ w e, (ctx_Err ctx w).1 = Some e → may (Fail e)) →
  ∀ fuel report attempt w,
  (1 ≤ fuel)%nat → Z.of_nat fuel = MaxAttempts (retry s) - attempt + 1 →
  wp (processLoop s fuel ctx report item attempt) (λ p w', R w w' ∧ may p.1 ∧
    ∃ k, 0 ≤ k < Z.of_nat fuel ∧ p.2 = addCounts report 0 0 0 0 k) w.
Proof.
  intros Hp Hmay Hctx. induction fuel as [|fuel IH]; intros report attempt w Hf Heq; [lia|].
  simpl. wp_step. wp_step. pose proof (ctx_frame w) as HR1. specialize (Hctx w).
  run_call err w1. simpl in HR1, Hctx. destruct err as [e|].
  { wp_step. split_and!; [done|by apply Hctx|]. exists 0. rewrite addCounts_0. split; [lia|done]. }
  wp_step. wp_step. pose proof (Hp w1) as HR2. pose proof (Hmay w1) as Hm.
  run_call r w2. simpl in HR2, Hm. assert (R w w2) as HR by (by etrans).
  assert (∃ k, 0 ≤ k < Z.of_nat (S fuel) ∧ report = addCounts report 0 0 0 0 k) as Hk.
  { exists 0. rewrite addCounts_0. split; [lia|done]. }
  destruct r as [v|e]; [wp_step; by split_and!|].
  destruct (shouldRetry (retry s) e attempt) eqn:E; simpl; [|wp_step; by split_and!].
  apply shouldRetry_budget in E as [Hlt _]. eapply wp_mono; [|apply IH; lia].
  intros [r rep] w' (HR' & Hr & k & Hk' & Hrep). simpl in *. split_and!; [by etrans|done|].
  exists (k + 1). split; [lia|]. by rewrite Hrep, addCounts_retry.
Qed.

Lemma writeLoop_spec wr chunk :
  (∀ w, R w (Write wr ctx chunk w).2) →
  ∀ fuel report attempt w,
  (1 ≤ fuel)%nat → Z.of_nat fuel = MaxAttempts (retry s) - attempt + 1 →
  wp (writeLoop s fuel wr ctx report chunk attempt) (λ p w', R w w' ∧
    ∃ k, 0 ≤ k < Z.of_nat fuel ∧ p.2 = addCounts report 0 0 0 0 k) w.
Proof.
  intros Hp. induction fuel as [|fuel IH]; intros report attempt w Hf Heq; [lia|].
  simpl. wp_step. wp_step. pose proof (ctx_frame w) as HR1.
  run_call err w1. simpl in HR1. destruct err as [e|].
  { wp_step. split; [done|]. exists 0. rewrite addCounts_0. split; [lia|done]. }
  wp_step. wp_step. pose proof (Hp w1) as HR2.
  run_call r w2. simpl in HR2. assert (R w w2) as HR by (by etrans).
  assert (∃ k, 0 ≤ k < Z.of_nat (S fuel) ∧ report = addCounts report 0 0 0 0 k) as Hk.
  { exists 0. rewrite addCounts_0. split; [lia|done]. }
  destruct r as [e|]; [|wp_step; by split_and!].
  destruct (shouldRetry (retry s) e attempt) eqn:E; simpl; [|wp_step; by split_and!].
  apply shouldRetry_budget in E as [Hlt _]. eapply wp_mono; [|apply IH; lia].
  intros [r rep] w' (HR' & k & Hk' & Hrep). simpl in *. split; [by etrans|].
  exists (k + 1). split; [lia|]. by rewrite Hrep, addCounts_retry.
Qed.
End frame.

(** ** Steps made by the constructors *)

Record stepOk {W I O K} (s : Step W I O K) : Prop := mkStepOk {
  ok_attempts : 1 ≤ MaxAttempts (retry s);
  ok_skips : 0 ≤ MaxSkips (skip s);
  ok_chunk : 1 ≤ chunkSize s
}.

Lemma normalizeRetry_ok p rt : normalizeRetry p = Ok rt → 1 ≤ MaxAttempts rt.
Proof.
  unfold normalizeRetry. destruct (MaxAttempts p =? 0) eqn:E0; simpl.
  { by intros [= <-]. }
  destruct (MaxAttempts p <? 0) eqn:E; [done|]. intros [= <-]. simpl. bools. lia.
Qed.

Lemma normalizeSkip_ok p sk : normalizeSkip p = Ok sk → 0 ≤ MaxSkips sk.
Proof.
  unfold normalizeSkip. destruct (MaxSkips p <? 0) eqn:E; [done|]. intros [= <-]. simpl. by bools.
Qed.

Lemma chunkSize_ok n :
  ((if n =? 0 then DefaultChunkSize else n) <? 0) = false →
  1 ≤ (if n =? 0 then DefaultChunkSize else n).
Proof. unfold DefaultChunkSize. destruct (n =? 0) eqn:E; intros H; bools; lia. Qed.

Lemma NewStep_ok {W I O K} (options : StepOptions (W:=W) (I:=I) (O:=O) (K:=K)) s :
  NewStep options = Ok s → stepOk s ∧ ∃ wr, sink s = ToWriter wr.
Proof.
  unfold NewStep. destruct (String.eqb _ _); [done|].
  destruct (_ <? 0) eqn:Ec; [done|]. apply chunkSize_ok in Ec.
  destruct (o_Reader options), (o_Processor options), (o_Writer options) as [wr|]; try done.
  destruct (normalizeRetry _) eqn:Er; [|done]. apply normalizeRetry_ok in Er.
  destruct (normalizeSkip _) eqn:Es; [|done]. apply normalizeSkip_ok in Es.
  intros [= <-]. split; [by split|]. by exists wr.
Qed.

Lemma NewAtomicStep_ok {W I O K} (options : AtomicStepOptions (W:=W) (I:=I) (O:=O) (K:=K)) s :
  NewAtomicStep options = Ok s → stepOk s ∧ ∃ aw cr, sink s = ToAtomic aw ∧
    asCheckpoint (reader s) = Some cr.
Proof.
  unfold NewAtomicStep. destruct (String.eqb _ _); [done|].
  destruct (_ <? 0) eqn:Ec; [done|]. apply chunkSize_ok in Ec.
  destruct (a_Reader options) as [rd|], (a_Processor options), (a_AtomicWriter options) as [aw|];
    try done.
  destruct (asCheckpoint rd) as [cr|] eqn:Ecr; [|done].
  destruct (normalizeRetry _) eqn:Er; [|done]. apply normalizeRetry_ok in Er.
  destruct (normalizeSkip _) eqn:Es; [|done]. apply normalizeSkip_ok in Es.
  intros [= <-]. split; [by split|]. by exists aw, cr.
Qed.

(** ** Accounting *)

(** Every item read is written, filtered, skipped or one of [n] others. *)
Definition accounted {W I O K} (s : Step W I O K) (r : Report) (n : Z) : Prop :=
  ReadCount r = WriteCount r + FilterCount r + SkipCount r + n ∧
  0 ≤ SkipCount r ≤ MaxSkips (skip s).

(** The result of a run: complete accounting when it is completed, at most a
    chunk of items unaccounted for otherwise. *)
Definition runResult {W I O K} (s : Step W I O K) (r : Report) : Prop :=
  (Status r = StatusCompleted → Err r = None ∧ accounted s r 0) ∧
  (∃ n, 0 ≤ n ≤ chunkSize s ∧ accounted s r n) ∧
  (Status r = StatusCompleted ∨ Status r = StatusFailed ∨ Status r = StatusCancelled).

Lemma accounted_retry {W I O K} (s : Step W I O K) r n k :
  accounted s (addCounts r 0 0 0 0 k) n ↔ accounted s r n.
Proof. unfold accounted, addCounts. simpl. by rewrite !Z.add_0_r. Qed.

Lemma accounted_add {W I O K} (s : Step W I O K) r n read write filter sk retry m :
  accounted s r n → 0 ≤ sk → SkipCount r + sk ≤ MaxSkips (skip s) →
  m = n + read - write - filter - sk →
  accounted s (addCounts r read write filter sk retry) m.
Proof. unfold accounted. simpl. lia. Qed.

Lemma finish_result {W I O K} (s : Step W I O K) t r status err n :
  accounted s r n → 0 ≤ n ≤ chunkSize s →
  status = StatusFailed ∨ status = StatusCancelled →
  runResult s (finish t r status err).
Proof.
  intros Hacc Hn Hst. split_and!; simpl; [by destruct Hst as [-> | ->]| |auto]. by exists n.
Qed.

Lemma statusForError_cases e : statusForError e = StatusFailed ∨ statusForError e = StatusCancelled.
Proof. unfold statusForError. repeat case_match; auto. Qed.

(** ** A finite input

    What a step needs of its environment to terminate: the reader has at most
    [bound] items left in any world, reading one uses it up, and no other call
    of the loop puts items back. *)
Class FiniteInput {W I O K} (now : Call W Z) (s : Step W I O K) (wr : Writer W O)
    (ctx : Context W) (remaining : W → nat) (bound : nat) : Prop := {
  fi_bound w : (remaining w ≤ bound)%nat;
  fi_ctx w : (remaining (ctx_Err ctx w).2 ≤ remaining w)%nat;
  fi_item w i : (Read (reader s) ctx w).1 = Ok (Some i) →
    (remaining (Read (reader s) ctx w).2 < remaining w)%nat;
  fi_process i w : (remaining (processor s ctx i w).2 ≤ remaining w)%nat;
  fi_write o w : (remaining (Write wr ctx o w).2 ≤ remaining w)%nat;
  fi_checkpoint cr w : asCheckpoint (reader s) = Some cr →
    (remaining (Checkpoint cr ctx w).2 ≤ remaining w)%nat;
  fi_save st x w : store s = Some st → (remaining (Save st ctx (key s) x w).2 ≤ remaining w)%nat
}.

Section step.
Context {W I O K : Type} (now : Call W Z) (s : Step W I O K) (wr : Writer W O).
Context (ctx : Context W) (remaining : W → nat) (bound : nat).
Context `{Hfin : !FiniteInput now s wr ctx remaining bound}.
Hypothesis Hok : stepOk s.

Local Definition shrinks (w w' : W) : Prop := (remaining w' ≤ remaining w)%nat.
Local Instance shrinks_preorder : PreOrder shrinks.
Proof. split; unfold shrinks; repeat intro; lia. Qed.

Lemma process_spec report item w :
  wp (process s ctx report item) (λ p w', shrinks w w' ∧
    ∃ k, p.2 = addCounts report 0 0 0 0 k) w.
Proof.
  destruct Hok as [Ha _ _]. eapply wp_mono;
    [|apply (processLoop_spec s ctx shrinks fi_ctx (λ _, True)); [apply fi_process|done|done|lia..]].
  intros p w' (? & _ & k & _ & ?). eauto.
Qed.

Lemma write_spec report chunk w :
  wp (write s wr ctx report chunk) (λ p w', shrinks w w' ∧
    ∃ k, p.2 = addCounts report 0 0 0 0 k) w.
Proof.
  destruct Hok as [Ha _ _]. eapply wp_mono;
    [|apply (writeLoop_spec s ctx shrinks fi_ctx); [apply fi_write|lia..]].
  intros p w' (? & k & _ & ?). eauto.
Qed.

Lemma saveCheckpoint_spec w : wp (saveCheckpoint s ctx) (λ _ w', shrinks w w') w.
Proof.
  unfold saveCheckpoint. destruct (store s) as [st|] eqn:Est; [|wp_step; done].
  destruct (asCheckpoint (reader s)) as [cr|] eqn:Ecr; [|wp_step; done].
  do 2 wp_step. pose proof (fi_checkpoint (ctx:=ctx) (remaining:=remaining) cr w Ecr) as H1.
  run_call c w1. simpl in H1. destruct c as [[k|]|e]; [|by wp_step..].
  wp_step. pose proof (fi_save (ctx:=ctx) (remaining:=remaining) st k w1 Est). unfold shrinks. lia.
Qed.

Lemma flush_spec report chunk w :
  accounted s report (Z.of_nat (length chunk)) →
  wp (flush s wr ctx report chunk) (λ p w', shrinks w w' ∧
    (p.1 = None → accounted s p.2 0) ∧
    ∃ n, 0 ≤ n ≤ Z.of_nat (length chunk) ∧ accounted s p.2 n) w.
Proof.
  intros Hacc. unfold flush. destruct chunk as [|o os].
  { wp_step. split_and!; [done|done|]. by exists 0. }
  generalize dependent (o :: os). intros chunk Hacc.
  do 2 wp_step. pose proof (fi_ctx (ctx:=ctx) (remaining:=remaining) w) as H1.
  run_call err w1. simpl in H1. destruct err as [e|].
  { wp_step. split_and!; [done|done|]. eexists. split; [|done]. lia. }
  wp_step. eapply wp_mono; [|apply write_spec].
  intros [err rep] w2 (H2 & k & Hrep). simpl in Hrep. subst rep.
  assert (shrinks w w2) as HR by (by etrans).
  assert (accounted s (addCounts report 0 0 0 0 k) (Z.of_nat (length chunk))) as Hacc'
    by (by apply accounted_retry).
  destruct err as [e|].
  - destruct (shouldSkip _ _ _ _) eqn:Esk.
    + apply shouldSkip_budget in Esk as (? & ? & _).
      destruct (store s); wp_step; split_and!; try done.
      * eexists. split; [|done]. lia.
      * intros _. eapply accounted_add; [done|lia|lia|lia].
      * exists 0. split; [lia|]. eapply accounted_add; [done|lia|lia|lia].
    + wp_step. split_and!; [done|done|]. eexists. split; [|done]. lia.
  - wp_step. eapply wp_mono; [|apply saveCheckpoint_spec].
    intros e w3 H3. wp_step. simpl.
    assert (accounted s (addCounts (addCounts report 0 0 0 0 k) 0 (Z.of_nat (length chunk)) 0 0 0) 0).
    { eapply accounted_add; [done|lia| |lia]. destruct Hacc'. lia. }
    split_and!; [by etrans|done|]. exists 0. split; [lia|done].
Qed.

Lemma failWith_spec report e n w :
  accounted s report n → 0 ≤ n ≤ chunkSize s →
  wp (failWith now report e) (λ r _, runResult s r) w.
Proof.
  intros. unfold failWith, finishWith. do 3 wp_step. eapply finish_result; [done..|apply statusForError_cases].
Qed.

(** After an item that is filtered or skipped. *)
Local Definition saveAndContinue (fuel : nat) (report : Report) (chunk : list O) : Go W Report :=
  c ← saveCheckpoint s ctx;
  match c with
  | Some e' => failWith now report e'
  | None => runLoop now s fuel wr ctx report chunk
  end.

Lemma saveAndContinue_spec fuel report chunk w :
  (∀ w', shrinks w w' → wp (runLoop now s fuel wr ctx report chunk) (λ r _, runResult s r) w') →
  accounted s report (Z.of_nat (length chunk)) → Z.of_nat (length chunk) ≤ chunkSize s →
  wp (saveAndContinue fuel report chunk) (λ r _, runResult s r) w.
Proof.
  intros Hloop Hacc Hlen. unfold saveAndContinue. wp_step.
  eapply wp_mono; [|apply saveCheckpoint_spec]. intros [e|] w' Hw'; [|by apply Hloop].
  eapply failWith_spec; [done|lia].
Qed.

Lemma runLoop_spec fuel : ∀ report chunk w,
  (remaining w < fuel)%nat → accounted s report (Z.of_nat (length chunk)) →
  Z.of_nat (length chunk) < chunkSize s →
  wp (runLoop now s fuel wr ctx report chunk) (λ r _, runResult s r) w.
Proof.
  induction fuel as [|fuel IH]; intros report chunk w Hfuel Hacc Hlen; [lia|].
  simpl. do 2 wp_step. pose proof (fi_ctx (ctx:=ctx) (remaining:=remaining) w) as H1.
  run_call err w1. simpl in H1. destruct err as [e|].
  { unfold finishWith. do 3 wp_step. eapply finish_result; [done|lia|auto]. }
  do 2 wp_step. pose proof (fi_item (ctx:=ctx) (remaining:=remaining) w1) as H2.
  run_call r w2. simpl in H2. destruct r as [[item|]|e].
  - specialize (H2 item eq_refl). wp_step. eapply wp_mono; [|apply process_spec].
    intros [res rep] w3 (H3 & k & Hrep). simpl in Hrep. subst rep. unfold shrinks in H3.
    assert (accounted s (addCounts (addCounts report 1 0 0 0 0) 0 0 0 0 k)
              (Z.of_nat (length chunk) + 1)) as Hacc'.
    { apply accounted_retry. eapply accounted_add; [done|lia| |lia]. destruct Hacc. lia. }
    assert (∀ rep w4, shrinks w3 w4 → accounted s rep (Z.of_nat (length chunk)) →
      wp (runLoop now s fuel wr ctx rep chunk) (λ r _, runResult s r) w4) as Hgo.
    { unfold shrinks. intros. apply IH; [lia|done|lia]. }
    destruct res as [[o|]|e].
    + assert (length (chunk ++ [o]) = S (length chunk)) as Hl by (rewrite length_app; simpl; lia).
      destruct (_ =? chunkSize s) eqn:Ec; bools.
      * wp_step. eapply wp_mono; [|apply flush_spec; rewrite Hl, Nat2Z.inj_succ; done].
        intros [[e|] rep] w4 (H4 & Hnone & n & Hn & Haccn); simpl in *.
        -- eapply failWith_spec; [done|lia].
        -- unfold shrinks in H4. destruct Hok. apply IH; [lia|by apply Hnone|simpl; lia].
      * apply IH; [lia| |lia]. by rewrite Hl, Nat2Z.inj_succ.
    + apply saveAndContinue_spec; [|eapply accounted_add; [done|lia| |lia]; destruct Hacc'; lia|lia].
      intros w4 H4. apply Hgo; [done|]. eapply accounted_add; [done|lia| |lia]. destruct Hacc'. lia.
    + destruct (shouldSkip _ _ _ _) eqn:Esk; [|eapply failWith_spec; [done|lia]].
      apply shouldSkip_budget in Esk as (_ & ? & _).
      apply saveAndContinue_spec; [|eapply accounted_add; [done|lia..]|lia].
      intros w4 H4. apply Hgo; [done|]. by eapply accounted_add; [done|lia..].
  - wp_step. eapply wp_mono; [|by apply flush_spec].
    intros [[e|] rep] w4 (H4 & Hnone & n & Hn & Haccn); simpl in *.
    + eapply failWith_spec; [done|lia].
    + unfold finishWith. do 3 wp_step. destruct Hok. split_and!; simpl; [|exists 0|auto].
      * intros _. split; [done|]. by apply Hnone.
      * split; [lia|]. by apply Hnone.
  - eapply failWith_spec; [done|lia].
Qed.

Lemma closeResources_spec report ow b c w :
  runResult s report → wp (closeResources now s c report ow b) (λ r _, runResult s r) w.
Proof.
  intros Hr. unfold closeResources. wp_step.
  assert (∀ e1 w', wp (if b then (e ← call (rClose (reader s) c); mret (errors_Join e1 e))
                       else mret e1) (λ _ _, True) w') as Hmid.
  { intros. destruct b; repeat wp_step; done. }
  assert (∀ (e2 : option error) w', wp (match e2 with
    | None => mret report
    | Some _ =>
        if (match Err report with None => true | _ => false end) &&
           String.eqb (Status report) StatusCompleted
        then finishWith now report StatusFailed e2
        else mret (setErr report (errors_Join (Err report) e2))
    end) (λ r _, runResult s r) w') as Hend.
  { intros [e|] w'; [|by wp_step]. destruct Hr as (Hc & (n & Hn & Hacc) & Hst).
    destruct (_ && _) eqn:E.
    - unfold finishWith. do 3 wp_step. eapply finish_result; [done..|auto].
    - wp_step. split_and!; simpl; [|by exists n|done].
      intros Hcomp. destruct (Hc Hcomp) as [Herr _]. rewrite Herr, Hcomp in E. done. }
  destruct ow as [wr'|]; repeat (wp_step || (eapply wp_mono; [|apply Hmid]; intros)); apply Hend.
Qed.
End step.

(** ** Jobs *)

Section job.
Context {W : Type} (now : Call W Z).

Definition sumOf (f : Report → Z) (children : list Report) : Z :=
  foldr (λ c n, f c + n) 0 children.

(** The steps run one after the other, without a stop rule. *)
Fixpoint runSteps (ctx : Context W) (steps : list (Runner W)) : Go W (list Report) :=
  match steps with
  | [] => mret []
  | step :: rest =>
      child ← runRunner step ctx;
      children ← runSteps ctx rest;
      mret (child :: children)
  end.

(** The job ran the steps [ran] with reports [children], and not [rest]. *)
Record jobRan (ctx : Context W) (steps : list (Runner W)) (w : W) (ran rest : list (Runner W))
    (children : list Report) (w2 : W) : Prop := mkJobRan {
  job_split : steps = ran ++ rest;
  job_children : runSteps ctx ran w = Some (children, w2);
  job_stopped : rest ≠ [] → ∃ init c, children = init ++ [c] ∧ IsSuccess c = false;
  job_running : ∀ init c, children = init ++ [c] → Forall (λ r, IsSuccess r = true) init
}.

Definition jobStatus (n : nat) (children : list Report) : string :=
  match last children with
  | None => StatusCompleted
  | Some c => if IsSuccess c then StatusCompleted
              else if (1 <? n)%nat && String.eqb (Status c) StatusFailed
              then StatusPartial else Status c
  end.

Lemma sumOf_cons f c cs : sumOf f (c :: cs) = f c + sumOf f cs.
Proof. done. Qed.

Lemma jobLoop_spec ctx steps : ∀ report before w r w',
  jobLoop now ctx steps report before w = Some (r, w') →
  ∃ ran rest children w2, jobRan ctx steps w ran rest children w2 ∧ w' = (now w2).2 ∧
    Children r = before ++ children ∧
    Status r = jobStatus (length before + length children) children ∧
    ReadCount r = ReadCount report + sumOf ReadCount children ∧
    WriteCount r = WriteCount report + sumOf WriteCount children ∧
    FilterCount r = FilterCount report + sumOf FilterCount children ∧
    SkipCount r = SkipCount report + sumOf SkipCount children ∧
    RetryCount r = RetryCount report + sumOf RetryCount children.
Proof.
  assert (∀ l, copyReports l = l) as Hcopy by (by intros []).
  induction steps as [|step steps IH]; intros report before w r w'; simpl;
    unfold finishWith, mbind, go_bind, mret, go_ret, call.
  { destruct (now w) as [t wt] eqn:Et. intros [= <- <-].
    exists [], [], [], w. rewrite Et, Hcopy, app_nil_r. simpl. split_and!; try lia; try done.
    split; try done. by intros [] ?. }
  destruct (runRunner step ctx w) as [[c w1]|] eqn:Ec; [|done].
  destruct (IsSuccess c) eqn:Es; simpl.
  - intros Hloop. apply IH in Hloop as (ran & rest & children & w2 & Hran & -> & Hch & Hst & Hcounts).
    exists (step :: ran), rest, (c :: children), w2. rewrite !sumOf_cons. simpl in Hcounts.
    rewrite Hch, Hst, <-(assoc_L app). simpl.
    split_and!; try done; try lia.
    + destruct Hran as [-> Hr Hstop Hrun]. split; simpl.
      * done.
      * unfold mbind, go_bind, mret, go_ret. by rewrite Ec, Hr.
      * intros Hne. destruct (Hstop Hne) as (init & c' & -> & ?). by exists (c :: init), c'.
      * intros [|c0 init] c' ?; simplify_list_eq; [done|]. constructor; [done|]. by eapply Hrun.
    + rewrite length_app. simpl. unfold jobStatus. destruct children as [|c1 cs].
      * simpl. by rewrite Es.
      * rewrite last_cons_cons. simpl.
        by replace (length before + 1 + S (length cs))%nat
          with (length before + S (S (length cs)))%nat by lia.
  - destruct (now w1) as [t wt] eqn:Et. intros [= <- <-].
    exists [step], steps, [c], w1. rewrite Et, Hcopy. unfold jobStatus, finish, setChildren, addCounts.
    simpl. rewrite Es, length_app. simpl. split_and!; try lia; try done.
    split; simpl.
    + done.
    + unfold mbind, go_bind, mret, go_ret. by rewrite Ec.
    + intros _. by exists [], c.
    + intros [|? []] ?; by simplify_list_eq.
Qed.

Lemma jobLoop_total ctx steps :
  Forall (λ step, ∀ w, wp (runRunner step ctx) (λ _ _, True) w) steps →
  ∀ report before w, wp (jobLoop now ctx steps report before) (λ _ _, True) w.
Proof.
  induction 1 as [|step steps Hs _ IH]; intros report before w; simpl.
  - unfold finishWith. by do 3 wp_step.
  - wp_step. eapply wp_mono; [|apply Hs]. intros c w1 _. destruct (IsSuccess c); simpl; [apply IH|].
    unfold finishWith. by do 3 wp_step.
Qed.
End job.

(** ** Properties *)

(** C36. A step built by [NewStep] over a finite input always returns; every
    item it read is accounted for: written, filtered or skipped when the run
    completes, with at most one chunk of items left over when it fails or is
    cancelled; the skips never exceed the budget, and a completed run has no
    error. *)
Theorem step_run_accounts {W I O K} (now : Call W Z)
    (options : StepOptions (W:=W) (I:=I) (O:=O) (K:=K)) (s : Step W I O K) (wr : Writer W O)
    (ctx : Context W) (remaining : W → nat) (bound : nat) :
  NewStep options = Ok s → sink s = ToWriter wr →
  FiniteInput now s wr ctx remaining bound →
  ∀ fuel w, (bound < fuel)%nat →
  wp (Run now fuel (Some s) (Some ctx)) (λ r _, runResult s r) w.
Proof.
  intros [Hok _]%NewStep_ok Hsink Hfin fuel w Hfuel. unfold Run. rewrite Hsink. simpl.
  unfold runWriter. do 2 wp_step. do 2 wp_step.
  assert (∀ t, accounted s (newReport t (name s)) 0) as Hacc.
  { intros t. destruct Hok. split; simpl; lia. }
  assert (0 ≤ 0 ≤ chunkSize s) as H0 by (destruct Hok; lia).
  set (t := (now w).1). run_call err w1. destruct err as [e|].
  { wp_step. unfold finishWith. do 3 wp_step. apply closeResources_spec.
    eapply finish_result; [done|done|auto]. }
  do 2 wp_step. run_call e1 w2. destruct e1 as [e|].
  { wp_step. eapply wp_mono; [|by eapply failWith_spec]. intros. by apply closeResources_spec. }
  do 2 wp_step. run_call e2 w3. destruct e2 as [e|].
  { wp_step. eapply wp_mono; [|by eapply failWith_spec]. intros. by apply closeResources_spec. }
  wp_step. eapply (wp_mono _ (λ _ _, True)).
  2:{ unfold restoreCheckpoint. destruct (store s); [|by wp_step].
      destruct (asCheckpoint (reader s)); [|by wp_step]. do 2 wp_step. run_call l w4.
      destruct l as [[k|]|]; by wp_step. }
  intros [e|] w4 _.
  { wp_step. eapply wp_mono; [|by eapply failWith_spec]. intros. by apply closeResources_spec. }
  wp_step. eapply wp_mono;
    [|eapply (runLoop_spec now s wr ctx remaining bound Hok fuel)];
    [intros; by apply closeResources_spec| |apply Hacc|destruct Hok; simpl; lia].
  pose proof (fi_bound (ctx:=ctx) (remaining:=remaining) w4). lia.
Qed.

(** With a checkpoint store a chunk is never skipped: [flush] either
    fails, or has written the whole chunk; a writer error that the skip policy
    accepts is reported as [ErrUnsafeWriterSkipCheckpoint]. *)
Theorem flush_with_store_never_skips {W I O K} (s : Step W I O K) (wr : Writer W O)
    (ctx : Context W) (report : Report) (chunk : list O) (w w' : W) (e : option error)
    (report' : Report) :
  is_Some (store s) →
  flush s wr ctx report chunk w = Some ((e, report'), w') →
  SkipCount report' = SkipCount report ∧
  (e = None → WriteCount report' = WriteCount report + Z.of_nat (length chunk)) ∧
  (∀ w1 report1 w2 werr, (ctx_Err ctx w) = (None, w1) → chunk ≠ [] →
     write s wr ctx report chunk w1 = Some ((Some werr, report1), w2) →
     shouldSkip (skip s) werr (SkipCount report1) (Z.of_nat (length chunk)) = true →
     opt_Is e "batch.ErrUnsafeWriterSkipCheckpoint" = true).
Proof.
  intros [st Hst]. unfold flush. destruct chunk as [|o os].
  { intros [= <- <- <-]. simpl. split_and!; [done|lia|done]. }
  generalize (o :: os). clear o os. intros chunk. unfold mbind, go_bind, call, mret, go_ret.
  destruct (ctx_Err ctx w) as [[ce|] w1]; [by intros [= <- <- <-]|].
  assert (wlp (write s wr ctx report chunk)
    (λ p _, SkipCount p.2 = SkipCount report ∧ WriteCount p.2 = WriteCount report) w1) as Hw.
  { unfold write. generalize (Z.to_nat (MaxAttempts (retry s))) 1. intros fuel. clear.
    revert report w1. induction fuel as [|fuel IH]; intros report w1 attempt; [apply wlp_out_of_fuel|].
    simpl. do 2 wp_step. run_call ce w2. destruct ce; [by wp_step|]. do 2 wp_step.
    run_call r w3. destruct r; [|by wp_step]. destruct (negb _); [by wp_step|].
    eapply wlp_mono; [|apply IH]. simpl. intros. lia. }
  destruct (write s wr ctx report chunk w1) as [[[err rep] w2]|] eqn:Ew; [|done].
  destruct (Hw _ _ Ew) as [Hs Hc]. simpl in Hs, Hc. destruct err as [we|].
  - destruct (shouldSkip (skip s) we (SkipCount rep) _) eqn:Esk.
    + rewrite Hst. intros [= <- <- <-]. split_and!; [done|done|].
      intros. simplify_eq. done.
    + intros [= <- <- <-]. split_and!; [done|done|]. intros ? ? ? ? [= <-] _ ? ?. congruence.
  - destruct (saveCheckpoint s ctx w2) as [[ce w3]|] eqn:Esv; [|done]. intros [= <- <- <-].
    simpl. split_and!; [lia|lia|]. intros ? ? ? ? [= <-] _ ?. congruence.
Qed.

(** A processor instrumented with a counter of its calls. *)
Definition counting {W I O} (p : Processor W I O) : Processor (W * nat) I O := λ _ item '(w, n),
  let '(r, w') := p Background item w in (r, (w', S n)).

(** The processor is called at most [MaxAttempts] times per item, and
    once more than the number of retries the report counts. *)
Theorem process_attempts_bounded {W I O K} (s : Step (W * nat) I O K) (p : Processor W I O)
    (ctx : Context (W * nat)) (report : Report) (item : I) (w : W) (n : nat) :
  1 ≤ MaxAttempts (retry s) → processor s = counting p →
  (∀ w0 n0, (ctx_Err ctx (w0, n0)).2.2 = n0) →
  wp (process s ctx report item) (λ r w',
    (n ≤ w'.2)%nat ∧ Z.of_nat (w'.2 - n) ≤ MaxAttempts (retry s) ∧
    Z.of_nat (w'.2 - n) ≤ RetryCount r.2 - RetryCount report + 1 ∧
    RetryCount r.2 - RetryCount report ≤ Z.of_nat (w'.2 - n)) (w, n).
Proof.
  intros Hmax Hp Hctx. unfold process.
  assert (∀ fuel report attempt w n, (1 ≤ fuel)%nat →
    Z.of_nat fuel = MaxAttempts (retry s) - attempt + 1 →
    wp (processLoop s fuel ctx report item attempt) (λ r w',
      (n ≤ w'.2)%nat ∧ Z.of_nat (w'.2 - n) ≤ Z.of_nat fuel ∧
      Z.of_nat (w'.2 - n) ≤ RetryCount r.2 - RetryCount report + 1 ∧
      RetryCount r.2 - RetryCount report ≤ Z.of_nat (w'.2 - n)) (w, n)) as Hloop.
  { clear Hmax report w n. induction fuel as [|fuel IH]; intros report attempt w n Hf Heq; [lia|].
    simpl. do 2 wp_step. specialize (Hctx w n). run_call err w1. destruct w1 as [w1 n1].
    simpl in Hctx. subst n1. destruct err as [e|]; [wp_step; simpl; lia|].
    do 2 wp_step. rewrite Hp. unfold counting. destruct (p Background item w1) as [r w2]. simpl.
    destruct r as [v|e]; [wp_step; simpl; lia|].
    destruct (shouldRetry (retry s) e attempt) eqn:E; simpl; [|wp_step; simpl; lia].
    apply shouldRetry_budget in E as [Hlt _]. eapply wp_mono; [|apply IH; lia].
    intros r' [w3 n3]. simpl. intros (? & ? & ? & ?). split_and!; lia. }
  eapply wp_mono; [|apply Hloop; lia]. intros r w' (? & ? & ? & ?). split_and!; lia.
Qed.

(** A job runs a prefix of its steps in order and stops after the first
    one that does not complete, whose later steps leave the world untouched.
    Its counters are the sums over the children it ran; it is completed
    exactly when all steps ran and completed, and a failure after an earlier
    completed step is partial. *)
Theorem job_run_spec {W} (now : Call W Z) (j : Job W) (octx : option (Context W)) (w : W) r w' :
  Job_Run now (Some j) octx w = Some (r, w') →
  ∃ ran rest children w2,
    jobRan (orBackground octx) (j_steps j) (now w).2 ran rest children w2 ∧
    w' = (now w2).2 ∧ Children r = children ∧
    (Status r = StatusCompleted ↔ rest = [] ∧ Forall (λ c, IsSuccess c = true) children) ∧
    (∀ init c, children = init ++ [c] → IsSuccess c = false →
       Status r = (if decide (init ≠ [] ∧ Status c = StatusFailed)
                   then StatusPartial else Status c)) ∧
    ReadCount r = sumOf ReadCount children ∧ WriteCount r = sumOf WriteCount children ∧
    FilterCount r = sumOf FilterCount children ∧ SkipCount r = sumOf SkipCount children ∧
    RetryCount r = sumOf RetryCount children.
Proof.
  unfold Job_Run, mbind, go_bind, call. destruct (now w) as [t w1].
  intros (ran & rest & children & w2 & Hran & Hw' & Hch & Hst & Hcounts)%jobLoop_spec.
  exists ran, rest, children, w2. simpl in *. split_and!; try lia; try done.
  - rewrite Hst. unfold jobStatus. destruct Hran as [_ _ Hstop Hrun].
    destruct (last children) as [c|] eqn:El.
    + apply last_Some in El as [init ->]. specialize (Hrun init c eq_refl).
      destruct (IsSuccess c) eqn:Ec.
      * split; [|done]. intros _. split; [|by apply Forall_app; split; [|constructor]].
        destruct rest as [|x rest]; [done|].
        destruct Hstop as (i2 & c2 & [_ <-]%app_inj_tail & ?); [done|]. congruence.
      * assert (Status c ≠ StatusCompleted) as Hne.
        { intros Heq. unfold IsSuccess in Ec. by rewrite Heq in Ec. }
        split.
        -- case_match; [done|]. intros; done.
        -- intros [_ [_ [? _]%Forall_cons]%Forall_app]. congruence.
    + apply last_None in El as ->. split; [|done]. intros _. split; [|done].
      destruct rest as [|x rest]; [done|]. destruct Hstop as ([] & ? & ? & _); done.
  - intros init c -> Hc. rewrite Hst. unfold jobStatus. rewrite last_snoc, Hc, length_app. simpl.
    destruct (String.eqb_spec (Status c) StatusFailed) as [Heq|Hne].
    + rewrite andb_true_r. destruct init as [|x init]; case_decide as Hd; try naive_solver.
      simpl. by destruct (length init).
    + rewrite andb_false_r. case_decide as Hd; naive_solver.
Qed.

(** ** Witnesses *)
Module Demo.

(** A world with a reader position, the written items and a checkpoint map;
    [budget] reads succeed before the reader breaks. *)
Record world := mkWorld {
  position : nat; written : list Z; saved : gmap string nat; budget : nat
}.

Definition source : list Z := [1; 2; 3].

Definition listRead : Context world → Call world (result (option Z)) := λ _ w,
  match budget w with
  | 0%nat => (Fail (Sentinel "demo.ErrRead"), w)
  | S b =>
      match source !! position w with
      | Some x => (Ok (Some x), mkWorld (S (position w)) (written w) (saved w) b)
      | None => (Ok None, w)
      end
  end.

Definition listCheckpoint : CheckpointReader world nat := mkCheckpointReader
  (λ _ k w, (None, mkWorld k (written w) (saved w) (budget w)))
  (λ _ w, (Ok (Some (position w)), w)).

Definition listReader : Reader world Z nat := mkReader
  (λ _ w, (None, mkWorld 0 (written w) (saved w) (budget w)))
  listRead (λ _ w, (None, w)) (Some listCheckpoint).

Definition listWriter : Writer world Z := mkWriter
  (λ _ w, (None, w))
  (λ _ items w, (None, mkWorld (position w) (written w ++ items) (saved w) (budget w)))
  (λ _ w, (None, w)).

Definition memory : CheckpointStore world nat := MemoryCheckpointStore saved
  (λ w m, mkWorld (position w) (written w) m (budget w)).

(** Keeps odd items. *)
Definition oddOnly : Processor world Z Z := λ _ item w,
  (Ok (if Z.odd item then Some item else None), w).

Definition options : StepOptions (W:=world) (I:=Z) (O:=Z) (K:=nat) :=
  mkStepOptions "demo" 2 (Some listReader) (Some oddOnly) (Some listWriter)
    (mkRetryPolicy 0 None) (mkSkipPolicy 0 None) (Some memory) "".

Definition demoStep : Step world Z Z nat :=
  mkStep "demo" 2 listReader oddOnly (ToWriter listWriter) (mkRetryPolicy 1 None)
    (mkSkipPolicy 0 None) (Some memory) "demo".

Definition clock : Call world Z := λ w, (0, w).

(** [n] reads succeed, from a fresh store. *)
Definition start (n : nat) : world := mkWorld 0 [] ∅ n.
Definition refill (n : nat) (w : world) : world := mkWorld (position w) (written w) (saved w) n.

Definition left_items (w : world) : nat := length source - position w.

#[export] Instance demo_finite :
  FiniteInput clock demoStep listWriter Background left_items 3.
Proof.
  split; try done.
  - intros w. unfold left_items. simpl. lia.
  - intros w i. unfold left_items. simpl. unfold listRead. destruct (budget w); [done|].
    destruct (source !! position w) eqn:E; [|done]. intros _. simpl.
    apply lookup_lt_Some in E. simpl in E. lia.
  - intros cr w [= <-]. simpl. lia.
  - intros st x w [= <-]. done.
Qed.
End Demo.

(** A step with a checkpoint store can lose items: it saves the reader's
    position after a filtered item although earlier items still wait in the
    chunk.  A run that fails there and a restart that completes have together
    read every item once, and the kept item 1 was never written. *)
Theorem filtered_item_checkpoint_loses_chunk :
  let run w := Run Demo.clock 10 (Some Demo.demoStep) None w in
  NewStep Demo.options = Ok Demo.demoStep ∧
  match run (Demo.start 2) with
  | None => False
  | Some (r1, w1) => Status r1 = StatusFailed ∧ ReadCount r1 = 2 ∧ Demo.written w1 = [] ∧
      match run (Demo.refill 9 w1) with
      | None => False
      | Some (r2, w2) => Status r2 = StatusCompleted ∧ ReadCount r2 = 1 ∧ Demo.written w2 = [3]
      end
  end.
Proof. split; [reflexivity|]. vm_compute. by split_and!. Qed.

Lemma step_run_accounts_witness :
  wp (Run Demo.clock 4 (Some Demo.demoStep) (Some Background)) (λ r _, runResult Demo.demoStep r)
    (Demo.start 9).
Proof.
  apply (step_run_accounts Demo.clock Demo.options Demo.demoStep Demo.listWriter Background
    Demo.left_items 3); [reflexivity|reflexivity|apply Demo.demo_finite|lia].
Defined.

Lemma flush_with_store_never_skips_witness :
  let out := flush Demo.demoStep Demo.listWriter Background (newReport 0 "r") [7; 8] (Demo.start 0) in
  ∃ e r w', out = Some ((e, r), w') ∧ SkipCount r = 0.
Proof.
  do 3 eexists. split; [reflexivity|].
  eapply (flush_with_store_never_skips Demo.demoStep Demo.listWriter Background
    (newReport 0 "r") [7; 8] (Demo.start 0)); [eexists; reflexivity|reflexivity].
Defined.

Definition fixedRunner (r : Report) : Runner unit := mkRunner (Name r) (λ _, mret r).
Definition demoJob : Job unit :=
  mkJob "job" [fixedRunner (newReport 1 "a");
               fixedRunner (finish 2 (newReport 1 "b") StatusFailed None);
               fixedRunner (newReport 1 "c")].

Definition demoClock : Call unit Z := λ w, (0, w).
Definition demoJobReport : Report :=
  match Job_Run demoClock (Some demoJob) None tt with Some (r, _) => r | None => newReport 0 "" end.

Lemma job_run_spec_witness :
  Job_Run demoClock (Some demoJob) None tt = Some (demoJobReport, tt) ∧
  Status demoJobReport = StatusPartial ∧
  RetryCount demoJobReport = sumOf RetryCount (Children demoJobReport).
Proof.
  assert (Job_Run demoClock (Some demoJob) None tt = Some (demoJobReport, tt)) as Hrun by reflexivity.
  split; [exact Hrun|]. split; [reflexivity|].
  destruct (job_run_spec demoClock demoJob None tt _ _ Hrun)
    as (ran & rest & children & w2 & _ & _ & Hc & _ & _ & _ & _ & _ & _ & Hretry).
  rewrite Hc. exact Hretry.
Defined.
