(* ===== verification/BatchAtomic.v ===== *)
(** * batch: exactly-once output of atomic steps

    [NewAtomicStep] and [runAtomic] against what the interfaces promise: a
    reader over a fixed sequence of items whose checkpoint is its position, and
    an [AtomicCheckpointWriter] that commits output and checkpoint together or
    not at all.  Restarting a step, whatever way its earlier runs ended, never
    commits an item twice and never leaves one out. *)

From S2P Require Import Prelude GoError Batch BatchStep.

Local Open Scope Z_scope.

(** What the processor has answered, in order: the position of the reader, the
    item and the answer. *)
Definition answers (I O : Type) : Type := list (nat * (I * result (option O))).

(** The last answer for a position. *)
Definition lastAnswer {I O} (n : nat) (h : list (nat * (I * result (option O)))) : option (I * result (option O)) :=
  last (snd <$> filter (λ a, a.1 = n) h).

(** The output of an answer; an item that is filtered or skipped has none. *)
Definition outputOf {O} (r : result (option O)) : option O := match r with Ok o => o | Fail _ => None end.
Definition outputs {O} (rs : list (result (option O))) : list O := omap outputOf rs.

(** The skip policy of the step covers the error. *)
Definition skippable {W I O K} (s : Step W I O K) (e : error) : Prop := ∃ used, shouldSkip (skip s) e used 1 = true.

(** The version that [Commit] must be called with. *)
Definition versionOf {K} (c : option (K * Z)) : Z :=
  match c with None => 0 | Some (_, v) => v end.

(** What an [AtomicCheckpointWriter] promises for one key: [log] and [ckpt] are
    the committed output and the stored checkpoint of a world, [pos] is what the
    reader and the processor know, which is not the writer's to change. *)
Class AtomicStore {W L O K} (aw : AtomicCheckpointWriter W O K) (ctx : Context W) (key : string)
    (pos : W → L) (log : W → list O) (ckpt : W → option (K * Z)) : Prop := {
  as_version w k v : ckpt w = Some (k, v) → 0 ≤ v;
  as_load w : let '(r, w') := aLoad aw ctx key w in
    pos w' = pos w ∧ log w' = log w ∧ ckpt w' = ckpt w ∧ (∀ c, r = Ok c → c = ckpt w);
  as_commit v out k w : 0 ≤ v → let '(r, w') := Commit aw ctx key v out k w in pos w' = pos w ∧
    ((∃ e, r = Fail e) ∧ log w' = log w ∧ ckpt w' = ckpt w ∨
     v = versionOf (ckpt w) ∧ log w' = log w ++ out ∧
     ∃ v', ckpt w' = Some (k, v') ∧ (∀ v'', r = Ok v'' → v'' = v'))
}.

Lemma atomicStore_map {W L L' O K} (aw : AtomicCheckpointWriter W O K) ctx key (pos : W → L) (g : L → L') log ckpt :
  AtomicStore aw ctx key pos log ckpt → AtomicStore aw ctx key (g ∘ pos) log ckpt.
Proof.
  intros [H1 H2 H3]. split; [done| |].
  - intros w. specialize (H2 w). destruct (aLoad aw ctx key w) as [r w']. cbn. destruct H2 as (-> & ?). done.
  - intros v out k w Hv. specialize (H3 v out k w Hv). destruct (Commit aw ctx key v out k w) as [r w']. cbn.
    destruct H3 as [-> ?]. done.
Qed.

(** What the rest of the environment of an atomic step promises: a clock, a
    context, a reader over [items] and a processor, none of which touches the
    store.  [cp n] is the checkpoint value for position [n].  The processor may
    answer differently each time it is asked; [heard] are its answers so far. *)
Class StepEnv {W I O K} (now : Call W Z) (s : Step W I O K)
    (cr : CheckpointReader W K) (ctx : Context W)
    (items : list I) (pos : W → nat) (heard : W → answers I O) (log : W → list O) (ckpt : W → option (K * Z))
    (cp : nat → K) : Prop := {
  ae_now w : let w' := (now w).2 in pos w' = pos w ∧ heard w' = heard w ∧ log w' = log w ∧ ckpt w' = ckpt w;
  ae_ctx w : let w' := (ctx_Err ctx w).2 in pos w' = pos w ∧ heard w' = heard w ∧ log w' = log w ∧ ckpt w' = ckpt w;
  ae_ctx_error w e : (ctx_Err ctx w).1 = Some e → isContextError e = true;
  ae_process i w : let '(r, w') := processor s ctx i w in
    pos w' = pos w ∧ heard w' = heard w ++ [(pos w, (i, r))] ∧ log w' = log w ∧ ckpt w' = ckpt w;
  ae_open w : let w' := (rOpen (reader s) ctx w).2 in heard w' = heard w ∧ log w' = log w ∧ ckpt w' = ckpt w ∧
    ((rOpen (reader s) ctx w).1 = None → pos w' = 0%nat);
  ae_close w : let w' := (rClose (reader s) (WithoutCancel ctx) w).2 in
    heard w' = heard w ∧ log w' = log w ∧ ckpt w' = ckpt w;
  ae_read w : let '(r, w') := Read (reader s) ctx w in heard w' = heard w ∧ log w' = log w ∧ ckpt w' = ckpt w ∧
    match r with
    | Ok (Some i) => items !! pos w = Some i ∧ pos w' = S (pos w)
    | Ok None => (length items ≤ pos w)%nat ∧ pos w' = pos w
    | Fail _ => True
    end;
  ae_checkpoint w : let '(r, w') := Checkpoint cr ctx w in
    pos w' = pos w ∧ heard w' = heard w ∧ log w' = log w ∧ ckpt w' = ckpt w ∧
    (∀ k, r = Ok (Some k) → k = cp (pos w));
  ae_restore n w : let '(r, w') := Restore cr ctx (cp n) w in heard w' = heard w ∧ log w' = log w ∧ ckpt w' = ckpt w ∧
    (r = None → pos w' = n)
}.

Class AtomicEnv {W I O K} (now : Call W Z) (s : Step W I O K)
    (aw : AtomicCheckpointWriter W O K) (cr : CheckpointReader W K) (ctx : Context W)
    (items : list I) (pos : W → nat) (heard : W → answers I O) (log : W → list O) (ckpt : W → option (K * Z))
    (cp : nat → K) : Prop := {
  ae_step :: StepEnv now s cr ctx items pos heard log ckpt cp;
  ae_store :: AtomicStore aw ctx (key s) (λ w, (pos w, heard w)) log ckpt
}.

Section atomic.
Context {W I O K : Type} (now : Call W Z) (s : Step W I O K).
Context (aw : AtomicCheckpointWriter W O K) (cr : CheckpointReader W K) (ctx : Context W).
Context (items : list I) (pos : W → nat) (heard : W → answers I O) (log : W → list O) (ckpt : W → option (K * Z)).
Context (cp : nat → K).

(** The stored checkpoint is that of position [n]. *)
Definition ckptAt (w : W) (n : nat) : Prop :=
  match ckpt w with None => n = 0%nat | Some (k, _) => k = cp n end.

(** [rs] are the last answers for the first items of the source; one that is an
    error is covered by the skip policy. *)
Definition settled (w : W) (rs : list (result (option O))) : Prop :=
  ∀ k r, rs !! k = Some r → ∃ i, items !! k = Some i ∧ lastAnswer (S k) (heard w) = Some (i, r) ∧
    ∀ e, r = Fail e → skippable s e.

(** The committed output is that of the items before position [n], each once
    and in order, as the processor has answered last. *)
Definition committed (w : W) (n : nat) : Prop :=
  ∃ rs, length rs = n ∧ settled w rs ∧ log w = outputs rs ∧ ckptAt w n.

Context `{Henv : !AtomicEnv now s aw cr ctx items pos heard log ckpt cp}.
Hypothesis Hok : stepOk s.
Let Hstep : StepEnv now s cr ctx items pos heard log ckpt cp := ae_step.

Local Definition same (w w' : W) : Prop := pos w' = pos w ∧ heard w' = heard w ∧ log w' = log w ∧ ckpt w' = ckpt w.
Local Instance same_preorder : PreOrder same.
Proof. split; unfold same; repeat intro; [done|]. destruct_and!. split_and!; congruence. Qed.

Lemma versionOf_nonneg w : 0 ≤ versionOf (ckpt w).
Proof.
  destruct (ckpt w) as [[k v]|] eqn:E; simpl; [|done].
  by eapply (as_version (aw:=aw) (ctx:=ctx) (pos:=λ w, (pos w, heard w))).
Qed.

Lemma settled_length w rs : settled w rs → (length rs ≤ length items)%nat.
Proof.
  intros Hs. destruct rs as [|r rs _] using rev_ind; [simpl; lia|]. rewrite length_app. simpl.
  destruct (Hs (length rs) r) as (i & Hi & _); [by apply list_lookup_middle|]. apply lookup_lt_Some in Hi. lia.
Qed.

Lemma settled_prefix w a b : settled w (a ++ b) → settled w a.
Proof. intros Hs k r Hk. apply Hs. by apply lookup_app_l_Some. Qed.

Lemma committed_frame w w' n : heard w' = heard w → log w' = log w → ckpt w' = ckpt w → committed w n → committed w' n.
Proof.
  intros Hh Hl Hc (rs & ? & Hs & ? & Hat). exists rs. unfold settled, ckptAt in *.
  rewrite Hh, Hl, Hc. done.
Qed.

(** What a run leaves behind. *)
Local Definition atomicResult (r : Report) (w : W) : Prop :=
  ∃ n, committed w n ∧ (Status r = StatusCompleted → n = length items).

(** In the loop: the items between the checkpoint and the reader's position
    are pending. *)
Local Definition loopInv (expected : Z) (pending : list O) (progress : Z) (w : W) : Prop :=
  ∃ done po, length (done ++ po) = pos w ∧ settled w (done ++ po) ∧
    log w = outputs done ∧ pending = outputs po ∧ progress = Z.of_nat (length po) ∧
    ckptAt w (length done) ∧ expected = versionOf (ckpt w).

Lemma loopInv_frame expected pending progress w w' :
  same w w' → loopInv expected pending progress w → loopInv expected pending progress w'.
Proof. unfold loopInv, settled, ckptAt. intros (-> & -> & -> & ->). done. Qed.

Lemma loopInv_le expected pending progress w : loopInv expected pending progress w → (pos w ≤ length items)%nat.
Proof. intros (a & b & <- & Hs & _). by eapply settled_length. Qed.

Lemma loopInv_committed expected pending progress w :
  loopInv expected pending progress w → ∃ n, committed w n ∧ Z.of_nat n + progress = Z.of_nat (pos w).
Proof.
  intros (a & b & Hpos & Hs & Hlog & -> & -> & Hat & ->). rewrite length_app in Hpos.
  exists (length a). split; [|lia]. exists a. split_and!; try done. by eapply settled_prefix.
Qed.

Lemma finishWith_spec report status err w n :
  committed w n → (status = StatusCompleted → n = length items) →
  wp (finishWith now report status err) atomicResult w.
Proof.
  intros Hc Hst. unfold finishWith. do 2 wp_step. destruct (ae_now (StepEnv:=Hstep) w) as (_ & Hh & Hl & Hk).
  run_call t w'. simpl in Hh, Hl, Hk. wp_step. exists n. split; [by eapply committed_frame|done].
Qed.

Lemma failWith_atomic report e expected pending progress w :
  loopInv expected pending progress w → wp (failWith now report e) atomicResult w.
Proof.
  intros (n & Hc & _)%loopInv_committed. unfold failWith. eapply finishWith_spec; [done|].
  by destruct (statusForError_cases e) as [-> | ->].
Qed.

Lemma lastAnswer_other n m r (h : answers I O) : m ≠ n →
  lastAnswer n (h ++ [(m, r)]) = lastAnswer n h.
Proof. intros Hm. unfold lastAnswer. rewrite list.filter_app, list.filter_cons_False by done. by rewrite app_nil_r. Qed.

Lemma lastAnswer_same n r (h : answers I O) : lastAnswer n (h ++ [(n, r)]) = Some r.
Proof. unfold lastAnswer. rewrite list.filter_app, list.filter_cons_True by done. rewrite fmap_app. apply last_snoc. Qed.

(** The answers of the processor to one item: the store is left alone, only
    answers for the current position are added, and the result is the last of
    them, unless the context has ended. *)
Lemma processLoop_heard item : ∀ fuel report attempt w,
  (1 ≤ fuel)%nat → Z.of_nat fuel = MaxAttempts (retry s) - attempt + 1 →
  wp (processLoop s fuel ctx report item attempt) (λ p w',
    pos w' = pos w ∧ log w' = log w ∧ ckpt w' = ckpt w ∧
    (∀ n, n ≠ pos w → lastAnswer n (heard w') = lastAnswer n (heard w)) ∧
    (lastAnswer (pos w) (heard w') = Some (item, p.1) ∨ ∃ e, p.1 = Fail e ∧ isContextError e = true)) w.
Proof.
  induction fuel as [|fuel IH]; intros report attempt w Hf Heq; [lia|]. simpl. do 2 wp_step.
  pose proof (ae_ctx (StepEnv:=Hstep) w) as H1. pose proof (ae_ctx_error (StepEnv:=Hstep) w) as He.
  run_call err w1. simpl in H1, He. destruct H1 as (Hp1 & Hh1 & Hl1 & Hk1). destruct err as [e|].
  { wp_step. rewrite Hh1. split_and!; try done. right. eauto. }
  do 2 wp_step. pose proof (ae_process (StepEnv:=Hstep) item w1) as H2. run_call r w2.
  destruct H2 as (Hp2 & Hh2 & Hl2 & Hk2). rewrite Hp1 in Hp2, Hh2. rewrite Hh1 in Hh2.
  assert (∀ n, n ≠ pos w → lastAnswer n (heard w2) = lastAnswer n (heard w)) as Hother.
  { intros n Hn. rewrite Hh2. by apply lastAnswer_other. }
  assert (lastAnswer (pos w) (heard w2) = Some (item, r)) as Hlast by (rewrite Hh2; apply lastAnswer_same).
  destruct r as [v|e]; [wp_step; split_and!; try done; [congruence..|by left]|].
  destruct (shouldRetry (retry s) e attempt) eqn:E; simpl; [|wp_step; split_and!; try done; [congruence..|by left]].
  apply shouldRetry_budget in E as [Hlt _]. eapply wp_mono; [|apply IH; lia].
  intros p w' (Hp & Hl & Hk & Ho & Hr). rewrite Hp2 in *. split_and!; try done; try congruence.
  intros n Hn. by rewrite Ho, Hother.
Qed.

(** The outcome of one item, retries and skip policy included. *)
Lemma process_absorb_spec report item w :
  wp (process s ctx report item) (λ p w',
    pos w' = pos w ∧ log w' = log w ∧ ckpt w' = ckpt w ∧
    (∀ n, n ≠ pos w → lastAnswer n (heard w') = lastAnswer n (heard w)) ∧
    match absorb s p with
    | (Ok out, _) => ∃ r, lastAnswer (pos w) (heard w') = Some (item, r) ∧ out = outputs [r] ∧
        ∀ e, r = Fail e → skippable s e
    | (Fail _, _) => True
    end) w.
Proof.
  destruct Hok as [Ha _ _]. eapply wp_mono; [|apply processLoop_heard; lia].
  intros [r rep] w' (Hp & Hl & Hk & Ho & Hr). split_and!; try done. simpl in *.
  destruct r as [[o|]|e]; [destruct Hr as [Hr|(e & [=] & _)]; by eexists..|].
  destruct (shouldSkip _ _ _ _) eqn:E; [|done]. pose proof (shouldSkip_budget _ _ _ _ E) as (_ & _ & Hc).
  destruct Hr as [Hr|(? & [= <-] & ?)]; [|congruence]. exists (Fail e). split_and!; [done|done|].
  intros ? [= <-]. by eexists.
Qed.

Lemma commitAtomic_spec report expected pending progress w :
  loopInv expected pending progress w →
  wp (commitAtomic s aw cr ctx report expected pending) (λ p w', pos w' = pos w ∧
    match p.1 with
    | Ok version => loopInv version [] 0 w'
    | Fail _ => ∃ n, committed w' n
    end) w.
Proof.
  intros Hinv. unfold commitAtomic. do 2 wp_step.
  assert (∀ w', same w w' → pos w' = pos w ∧ ∃ n, committed w' n) as Hsame.
  { intros w' Hs. split; [apply Hs|]. destruct (loopInv_committed _ _ _ _ Hinv) as (n & Hn & _).
    destruct Hs as (_ & ? & ? & ?). exists n. by eapply committed_frame. }
  pose proof (ae_ctx (StepEnv:=Hstep) w) as H1. run_call err w1. simpl in H1.
  destruct err as [e|]; [wp_step; by apply Hsame|].
  do 2 wp_step. pose proof (ae_checkpoint (StepEnv:=Hstep) w1) as H2.
  run_call c w2. destruct H2 as (Hp2 & Hh2 & Hl2 & Hk2 & Hcp).
  assert (same w w2) as HS2 by (etrans; [exact H1|done]).
  destruct c as [[k|]|e]; [|wp_step; by apply Hsame..].
  rewrite (Hcp k eq_refl). do 2 wp_step. pose proof (ae_ctx (StepEnv:=Hstep) w2) as H3.
  run_call err2 w3. simpl in H3. assert (same w w3) as HS3 by (by etrans).
  destruct err2 as [e|]; [wp_step; by apply Hsame|].
  assert (0 ≤ expected) as Hu.
  { destruct Hinv as (? & ? & _ & _ & _ & _ & _ & _ & ->). by apply versionOf_nonneg. }
  do 2 wp_step. pose proof (as_commit (aw:=aw) (ctx:=ctx) (pos:=λ w, (pos w, heard w)) expected pending (cp (pos w1)) w3 Hu) as H4.
  run_call r w4. destruct H4 as [[= Hp4 Hh4] [(He & Hl4 & Hk4)|(Hv & Hl4 & v' & Hk4 & Hr)]].
  { destruct He as [e ->]. wp_step. apply Hsame. etrans; [done|]. by split_and!. }
  assert (pos w1 = pos w) as Hpos1 by apply H1. rewrite Hpos1 in Hk4.
  destruct Hinv as (oc & po & Hlen & Hall & Hlog & -> & -> & Hat & ->).
  destruct HS3 as (Hp3 & Hh3 & Hl3 & Hk3).
  assert (settled w4 (oc ++ po)) as Hall4 by (unfold settled; by rewrite Hh4, Hh3).
  assert (log w4 = outputs (oc ++ po)) as Hlog4.
  { unfold outputs in *. rewrite Hl4, Hl3, Hlog. by rewrite omap_app. }
  destruct r as [v|e]; wp_step; simpl; (split; [congruence|]).
  - exists (oc ++ po), []. rewrite app_nil_r, Hp4, Hp3. split_and!; try done.
    + unfold ckptAt. by rewrite Hk4, Hlen.
    + rewrite Hk4. simpl. by apply Hr.
  - exists (pos w), (oc ++ po). split_and!; try done. unfold ckptAt. by rewrite Hk4.
Qed.

(** Answers for later positions do not change what is settled. *)
Lemma settled_later w w' rs :
  (∀ n, (n ≤ length rs)%nat → lastAnswer n (heard w') = lastAnswer n (heard w)) → settled w rs → settled w' rs.
Proof.
  intros Hh Hs k r Hk. apply lookup_lt_Some in Hk as Hlt. rewrite Hh by lia. by apply Hs.
Qed.

(** Reading and processing one more item extends the pending part. *)
Lemma loopInv_read expected pending progress w w' item r :
  loopInv expected pending progress w → items !! pos w = Some item →
  lastAnswer (S (pos w)) (heard w') = Some (item, r) → (∀ e, r = Fail e → skippable s e) →
  (∀ n, n ≠ S (pos w) → lastAnswer n (heard w') = lastAnswer n (heard w)) →
  pos w' = S (pos w) → log w' = log w → ckpt w' = ckpt w →
  loopInv expected (pending ++ outputs [r]) (progress + 1) w'.
Proof.
  intros (oc & po & Hlen & Hall & Hlog & -> & -> & Hat & ->) Hi Hr Hskip Hother Hp Hl Hk.
  exists oc, (po ++ [r]). unfold ckptAt, outputs in *. rewrite Hp, Hl, Hk, (assoc_L app), omap_app, !length_app in *.
  split_and!; try done; [simpl; lia| |simpl; lia].
  intros k r' [Hk'|[Hk' E]]%lookup_app_Some.
  - eapply settled_later; [|exact Hall|done]. intros n Hn. apply Hother. rewrite length_app in Hn. lia.
  - apply list_lookup_singleton_Some in E as [E <-]. rewrite length_app in *.
    assert (k = pos w) as -> by lia. by exists item.
Qed.

Lemma atomicLoop_spec fuel : ∀ report expected pending progress w,
  (length items - pos w < fuel)%nat → loopInv expected pending progress w →
  wp (atomicLoop now s fuel aw cr ctx report expected pending progress) atomicResult w.
Proof.
  induction fuel as [|fuel IH]; intros report expected pending progress w Hfuel Hinv; [lia|].
  simpl. do 2 wp_step. pose proof (ae_ctx (StepEnv:=Hstep) w) as H1.
  run_call err w1. simpl in H1. eapply loopInv_frame in Hinv as Hinv1; [|exact H1].
  destruct (loopInv_committed _ _ _ _ Hinv1) as (n & Hn & Hprog).
  destruct err as [e|]; [by eapply finishWith_spec|].
  do 2 wp_step. pose proof (ae_read (StepEnv:=Hstep) w1) as H2.
  run_call r w2. destruct H2 as (Hh2 & Hl2 & Hk2 & Hr).
  assert (committed w2 n) as Hn2 by (by eapply committed_frame).
  destruct r as [[item|]|e].
  - destruct Hr as [Hi Hp2]. wp_step. eapply wp_mono; [|apply process_absorb_spec].
    intros p w3 (Hp3 & Hl3 & Hk3 & Hother & Habs). rewrite Hp2, Hh2 in *. destruct (absorb s p) as [[out|e] rep].
    2:{ unfold failWith. eapply (finishWith_spec _ _ _ _ n).
        - destruct Hn as (rs & Hrs & Hs & Hlog & Hat). exists rs. unfold ckptAt in *. rewrite Hl3, Hk3, Hl2, Hk2.
          split_and!; try done. eapply settled_later; [|exact Hs]. intros m Hm. apply Hother.
          destruct Hinv1 as (? & ? & _ & _ & _ & _ & -> & _). lia.
        - by destruct (statusForError_cases e) as [-> | ->]. }
    destruct Habs as (o & Hlast & -> & Hskip).
    assert (loopInv expected (pending ++ outputs [o]) (progress + 1) w3) as Hinv3.
    { eapply loopInv_read; [exact Hinv1|done..|congruence|congruence]. }
    assert (pos w1 = pos w) as Hp1 by apply H1. apply lookup_lt_Some in Hi.
    destruct (progress + 1 =? chunkSize s); [|apply IH; [lia|done]].
    wp_step. eapply wp_mono; [|by apply (commitAtomic_spec _ _ _ (progress + 1))].
    intros [[v|e] rep'] w4 [Hp4 Hc]; simpl in Hc; [apply IH; [lia|done]|].
    destruct Hc as [n' Hn']. unfold failWith. eapply finishWith_spec; [done|].
    by destruct (statusForError_cases e) as [-> | ->].
  - destruct Hr as [Hend Hp2].
    assert (loopInv expected pending progress w2) as Hinv2
      by (eapply loopInv_frame; [|exact Hinv1]; by split_and!).
    destruct (0 <? progress) eqn:Eprog; bools.
    + wp_step. eapply wp_mono; [|by apply (commitAtomic_spec _ _ _ progress)].
      intros [[v|e] rep'] w4 [Hp4 Hc]; simpl in Hc.
      * destruct (loopInv_committed _ _ _ _ Hc) as (m & Hm & Hmp).
        eapply finishWith_spec; [done|]. intros _.
        apply loopInv_le in Hc. lia.
      * destruct Hc as [n' Hn']. unfold failWith. eapply finishWith_spec; [done|].
        by destruct (statusForError_cases e) as [-> | ->].
    + eapply finishWith_spec; [done|]. intros _.
      pose proof (loopInv_le _ _ _ _ Hinv2). destruct Hinv2 as (? & ? & _ & _ & _ & _ & Hpr & _). lia.
  - unfold failWith. eapply finishWith_spec; [done|].
    by destruct (statusForError_cases e) as [-> | ->].
Qed.

Lemma closeReader_spec report w :
  atomicResult report w → wp (closeReader now s ctx report) atomicResult w.
Proof.
  intros (n & Hc & Hst). unfold closeReader. do 2 wp_step.
  pose proof (ae_close (StepEnv:=Hstep) w) as H1. run_call e w1. simpl in H1. destruct H1 as (Hh & Hl & Hk).
  assert (committed w1 n) as Hn by (by eapply committed_frame).
  destruct e as [e|]; [|wp_step; by exists n].
  destruct (_ && _); [by eapply finishWith_spec|]. wp_step. by exists n.
Qed.

Lemma runAtomic_spec fuel w n :
  (length items < fuel)%nat → asCheckpoint (reader s) = Some cr → committed w n →
  wp (runAtomic now s fuel aw ctx) atomicResult w.
Proof.
  intros Hfuel Hcr Hc. unfold runAtomic. do 2 wp_step.
  destruct (ae_now (StepEnv:=Hstep) w) as (_ & Hh0 & Hl0 & Hk0). run_call t w0. simpl in Hh0, Hl0, Hk0.
  do 2 wp_step. pose proof (ae_ctx (StepEnv:=Hstep) w0) as H1. run_call err w1.
  simpl in H1. destruct H1 as (_ & Hh1 & Hl1 & Hk1).
  assert (committed w1 n) as Hc1 by (eapply committed_frame; [| | |done]; congruence).
  destruct err as [e|]; [by eapply finishWith_spec|].
  do 2 wp_step. pose proof (ae_open (StepEnv:=Hstep) w1) as H2. run_call e1 w2.
  simpl in H2. destruct H2 as (Hh2 & Hl2 & Hk2 & Hpos2).
  assert (committed w2 n) as Hc2 by (by eapply committed_frame).
  destruct e1 as [e|].
  { unfold failWith. eapply finishWith_spec; [done|].
    by destruct (statusForError_cases e) as [-> | ->]. }
  specialize (Hpos2 eq_refl). wp_step. rewrite Hcr.
  eapply wp_mono; [intros r w'; apply closeReader_spec|].
  do 2 wp_step. pose proof (as_load (aw:=aw) (ctx:=ctx) (pos:=λ w, (pos w, heard w)) w2) as H3. run_call l w3.
  destruct H3 as ([= Hp3 Hh3] & Hl3 & Hk3 & Hload).
  assert (committed w3 n) as Hc3 by (by eapply committed_frame).
  destruct Hc3 as (oc & Hlen & Hall & Hlog & Hat).
  destruct l as [[[k v]|]|e].
  - specialize (Hload _ eq_refl). unfold ckptAt in Hat. rewrite Hk3, <-Hload in Hat. subst k.
    do 2 wp_step. pose proof (ae_restore (StepEnv:=Hstep) n w3) as H4. run_call e2 w4.
    destruct H4 as (Hh4 & Hl4 & Hk4 & Hp4).
    assert (committed w4 n) as Hc4.
    { eapply committed_frame; [done|done|done|]. exists oc. unfold ckptAt.
      by rewrite Hk3, <-Hload. }
    destruct e2 as [e|].
    { unfold failWith. eapply finishWith_spec; [done|].
      by destruct (statusForError_cases e) as [-> | ->]. }
    specialize (Hp4 eq_refl). apply atomicLoop_spec; [lia|].
    exists oc, []. unfold ckptAt, settled. rewrite app_nil_r, Hp4, Hk4, Hk3, <-Hload, Hl4, Hh4.
    split_and!; try done. by rewrite Hlen.
  - specialize (Hload _ eq_refl). unfold ckptAt in Hat. rewrite Hk3, <-Hload in Hat.
    destruct oc as [|o oc]; [|simpl in Hlen; lia].
    apply atomicLoop_spec; [lia|]. exists [], [].
    unfold ckptAt. rewrite Hp3, Hk3, <-Hload, Hpos2. by split_and!; try done; lia.
  - unfold failWith. eapply (finishWith_spec _ _ _ _ n); [by exists oc|].
    by destruct (statusForError_cases e) as [-> | ->].
Qed.
End atomic.

(** ** Properties *)

Section properties.
Context {W I O K : Type} (now : Call W Z).
Context (options : AtomicStepOptions (W:=W) (I:=I) (O:=O) (K:=K)) (s : Step W I O K).
Context (aw : AtomicCheckpointWriter W O K) (cr : CheckpointReader W K).
Context (items : list I) (pos : W → nat) (heard : W → answers I O) (log : W → list O) (ckpt : W → option (K * Z)).
Context (cp : nat → K).

(** A run of the step under one of the contexts [usable] from [w] to [w']. *)
Definition restart (usable : Context W → Prop) (w w' : W) : Prop :=
  ∃ ctx fuel r, usable ctx ∧ (length items < fuel)%nat ∧
    Run now fuel (Some s) (Some ctx) w = Some (r, w').

(** One run over a consistent store. *)
Lemma atomic_run_consistent (ctx : Context W) fuel w n :
  NewAtomicStep options = Ok s → sink s = ToAtomic aw → asCheckpoint (reader s) = Some cr →
  AtomicEnv now s aw cr ctx items pos heard log ckpt cp →
  (length items < fuel)%nat → committed s items heard log ckpt cp w n →
  wp (Run now fuel (Some s) (Some ctx)) (λ r w',
    ∃ m, committed s items heard log ckpt cp w' m ∧
      (Status r = StatusCompleted → m = length items)) w.
Proof.
  intros [Hok _]%NewAtomicStep_ok Hsink Hcr Henv Hfuel Hc. unfold Run. rewrite Hsink.
  by eapply runAtomic_spec.
Qed.

Lemma restarts_exactly_once (usable : Context W → Prop) w w1 ctx fuel :
  NewAtomicStep options = Ok s → sink s = ToAtomic aw → asCheckpoint (reader s) = Some cr →
  (∀ ctx, usable ctx → AtomicEnv now s aw cr ctx items pos heard log ckpt cp) →
  ckpt w = None → log w = [] →
  rtc (restart usable) w w1 → usable ctx → (length items < fuel)%nat →
  ∃ r w', Run now fuel (Some s) (Some ctx) w1 = Some (r, w') ∧
    ∃ n, committed s items heard log ckpt cp w' n ∧ (Status r = StatusCompleted → n = length items).
Proof.
  intros Hnew Hsink Hcr Henv Hk0 Hl0 Hruns Hctx Hfuel.
  assert (∃ n, committed s items heard log ckpt cp w1 n) as (n & Hn).
  { eapply (rtc_invariant _ (λ w, ∃ n, committed s items heard log ckpt cp w n)); [|done|].
    - intros a b (n & Hc) (ctx' & fuel' & r & Hu & Hf & Hrun).
      destruct (atomic_run_consistent ctx' fuel' a n Hnew Hsink Hcr (Henv ctx' Hu) Hf Hc)
        as (r' & b' & Hrun' & m & Hm & _). exists m. congruence.
    - exists 0%nat, []. unfold ckptAt. rewrite Hk0, Hl0. by split_and!. }
  destruct (atomic_run_consistent ctx fuel w1 n Hnew Hsink Hcr (Henv ctx Hctx) Hfuel Hn) as (r & w' & Hrun & Hm).
  eauto.
Qed.

(** C1. Exactly-once output across restarts.  However often an atomic step was
    run on an initially empty store, one run after the other and however these
    runs ended, a further run returns, and then the committed output is exactly
    this: for each item before the stored checkpoint, once and in order, what the
    processor answered when it was asked for this item the last time, in this run
    or in an earlier one; an item without output was filtered by that answer, or
    that answer was an error of the skip policy.  When the run completes, these
    are all the items.  The processor may answer an item differently each time,
    so failures that go away are covered; the reader gives the same items each
    time, and the writer commits output and checkpoint together or not at all. *)
Theorem atomic_restarts_exactly_once (usable : Context W → Prop) w w1 ctx fuel :
  NewAtomicStep options = Ok s → sink s = ToAtomic aw → asCheckpoint (reader s) = Some cr →
  (∀ ctx, usable ctx → AtomicEnv now s aw cr ctx items pos heard log ckpt cp) →
  ckpt w = None → log w = [] →
  rtc (restart usable) w w1 → usable ctx → (length items < fuel)%nat →
  ∃ r w', Run now fuel (Some s) (Some ctx) w1 = Some (r, w') ∧
    ∃ n, committed s items heard log ckpt cp w' n ∧ (Status r = StatusCompleted → n = length items).
Proof. apply restarts_exactly_once. Qed.
End properties.

(** ** Witnesses *)
Module AtomicDemo.

(** [unknown] commits still report [ErrCommitUnknown] although they apply. *)
Record world := mkWorld {
  position : nat; told : answers Z Z; output : list Z; stored : option (nat * N); unknown : nat
}.
Definition checkpoint (w : world) : option (nat * Z) := prod_map id Z.of_N <$> stored w.

Definition source : list Z := [1; 2; 3; 4; 5].
Definition moveTo (n : nat) (w : world) : world := mkWorld n (told w) (output w) (stored w) (unknown w).

Definition listCheckpoint : CheckpointReader world nat := mkCheckpointReader
  (λ _ k w, (None, moveTo k w)) (λ _ w, (Ok (Some (position w)), w)).

Definition listReader : Reader world Z nat := mkReader
  (λ _ w, (None, moveTo 0 w))
  (λ _ w, match source !! position w with
          | Some x => (Ok (Some x), moveTo (S (position w)) w)
          | None => (Ok None, w)
          end)
  (λ _ w, (None, w)) (Some listCheckpoint).

Definition commit (v : Z) (items : list Z) (k : nat) : Call world (result Z) := λ w,
  if v =? versionOf (checkpoint w)
  then
    let w' n := mkWorld (position w) (told w) (output w ++ items) (Some (k, Z.to_N (v + 1))) n in
    match unknown w with
    | S n => (Fail ErrCommitUnknown, w' n)
    | 0%nat => (Ok (v + 1), w' 0%nat)
    end
  else (Fail ErrCheckpointConflict, w).

Definition table : AtomicCheckpointWriter world Z nat := mkAtomic
  (λ _ _ w, (Ok (checkpoint w), w)) (λ _ _ v items k w, commit v items k w).

Definition square (i : Z) : option Z := if Z.even i then None else Some (i * i).

(** The third item fails the first three times it is asked for. *)
Definition squares : Processor world Z Z := λ _ i w,
  let r := if (i =? 3) && (length (filter (λ a, a.1 = position w) (told w)) <? 3)%nat
           then Fail (Sentinel "unavailable") else Ok (square i) in
  (r, mkWorld (position w) (told w ++ [(position w, (i, r))]) (output w) (stored w) (unknown w)).

Definition options : AtomicStepOptions (W:=world) (I:=Z) (O:=Z) (K:=nat) :=
  mkAtomicStepOptions "squares" 2 (Some listReader) (Some squares) (Some table)
    (mkRetryPolicy 2 None) (mkSkipPolicy 0 None) "".

Definition step : Step world Z Z nat :=
  mkStep "squares" 2 listReader squares (ToAtomic table) (mkRetryPolicy 2 (Some nonContextError))
    (mkSkipPolicy 0 None) None "squares".

Definition clock : Call world Z := λ w, (0, w).
Definition start : world := mkWorld 0 [] [] None 1.
Definition runFrom (w : world) : option (Report * world) :=
  Run clock 6 (Some step) (Some Background) w.

#[export] Instance demo_env :
  AtomicEnv clock step table listCheckpoint Background source position told output checkpoint id.
Proof.
  split; [split; try done|split].
  - intros w. simpl. destruct (source !! position w) eqn:E; [done|].
    apply lookup_ge_None in E. done.
  - intros w. simpl. split_and!; try done. by intros k [= <-].
  - intros w k v. unfold checkpoint. destruct (stored w) as [[k' n]|]; [|done].
    intros [= <- <-]. lia.
  - intros w. simpl. split_and!; try done. by intros c [= <-].
  - intros v out k w Hv. simpl. unfold commit. destruct (v =? _) eqn:E; bools.
    + destruct (unknown w); simpl; (split; [done|]); right; split_and!; try done;
        (exists (v + 1); split; [unfold checkpoint; simpl; by rewrite Z2N.id by lia|]);
        intros v'' H; by simplify_eq.
    + split; [done|]. left. split; [by eexists|done].
Qed.
End AtomicDemo.

(** The first run loses the answer of its first commit, the second one fails at
    the third item, and the third one completes. *)
Lemma atomic_restarts_exactly_once_witness :
  ∃ r1 w1 r2 w2, AtomicDemo.runFrom AtomicDemo.start = Some (r1, w1) ∧ Status r1 = StatusFailed ∧
    AtomicDemo.runFrom w1 = Some (r2, w2) ∧ Status r2 = StatusFailed ∧ AtomicDemo.output w2 = [1] ∧
    ∃ r w, AtomicDemo.runFrom w2 = Some (r, w) ∧ AtomicDemo.output w = [1; 9; 25] ∧
    ∃ n, committed AtomicDemo.step AtomicDemo.source AtomicDemo.told AtomicDemo.output AtomicDemo.checkpoint id w n ∧
      (Status r = StatusCompleted → n = 5%nat).
Proof.
  destruct (AtomicDemo.runFrom AtomicDemo.start) as [[r1 w1]|] eqn:E1;
    [|exfalso; vm_compute in E1; discriminate E1].
  destruct (AtomicDemo.runFrom w1) as [[r2 w2]|] eqn:E2;
    [|exfalso; vm_compute in E1; injection E1 as <- <-; vm_compute in E2; discriminate E2].
  exists r1, w1, r2, w2.
  assert (Status r1 = StatusFailed) by (vm_compute in E1; injection E1 as <- <-; reflexivity).
  assert (Status r2 = StatusFailed ∧ AtomicDemo.output w2 = [1] ∧
    (AtomicDemo.output ∘ snd) <$> AtomicDemo.runFrom w2 = Some [1; 9; 25]) as (Hs2 & Ho2 & Ho3).
  { vm_compute in E1. injection E1 as <- <-. vm_compute in E2. injection E2 as <- <-. vm_compute. by split_and!. }
  split_and!; [reflexivity|assumption..|].
  destruct (atomic_restarts_exactly_once AtomicDemo.clock AtomicDemo.options AtomicDemo.step
    AtomicDemo.table AtomicDemo.listCheckpoint AtomicDemo.source AtomicDemo.position AtomicDemo.told
    AtomicDemo.output AtomicDemo.checkpoint id (λ c, c = Background)
    AtomicDemo.start w2 Background 6) as (r & w & Hrun & Hn);
    [reflexivity|reflexivity|reflexivity|intros c ->; apply AtomicDemo.demo_env
    |reflexivity|reflexivity| |reflexivity|simpl; lia|].
  - eapply rtc_l; [|apply rtc_once].
    + exists Background, 6%nat, r1. split; [reflexivity|]. split; [simpl; lia|exact E1].
    + exists Background, 6%nat, r2. split; [reflexivity|]. split; [simpl; lia|exact E2].
  - exists r, w. split; [exact Hrun|]. split; [|exact Hn].
    unfold AtomicDemo.runFrom in Ho3. rewrite Hrun in Ho3. injection Ho3 as Ho3. exact Ho3.
Defined.
