(* ===== verification/Resilience.v ===== *)
(** * resilience: errors, events, composition, retry and timeout

    Models [src/resilience] (errors.go, events.go, policy.go, retry.go,
    timeout.go and the float-free backoffs of backoff.go).  A policy maps an
    operation to an operation; event handlers, sleepers and clocks are calls
    on the world. *)

From S2P Require Import Prelude GoError.

Local Open Scope Z_scope.

(** ** Errors *)

Definition NonRetryableError (cause : error) : error :=
  Typed "resilience.NonRetryableError" [] ["resilience.ErrNonRetryable"] (Some cause).
Definition RetryError (policyName : string) (attempts : Z) (cause : option error) : error :=
  Typed "resilience.RetryError" [FStr policyName; FInt attempts] ["resilience.ErrRetryExhausted"] cause.
Definition TimeoutError (policyName : string) (timeout : Z) (cause : error) : error :=
  Typed "resilience.TimeoutError" [FStr policyName; FInt timeout] ["resilience.ErrTimeout"] (Some cause).
Definition CircuitOpenError (policyName state : string) : error :=
  Typed "resilience.CircuitOpenError" [FStr policyName; FStr state] ["resilience.ErrCircuitOpen"] None.
Definition BulkheadRejectedError (policyName : string) : error :=
  Typed "resilience.BulkheadRejectedError" [FStr policyName] ["resilience.ErrBulkheadRejected"] None.

Definition IsNonRetryable (err : option error) : bool := opt_Is err "resilience.ErrNonRetryable".

Definition NonRetryable (err : option error) : option error :=
  match err with
  | None => None
  | Some e => if IsNonRetryable err then err else Some (NonRetryableError e)
  end.

(** [errors.As] for a target of the struct type [ty]. *)
Fixpoint errors_As (err : error) (ty : string) : bool :=
  match err with
  | Sentinel _ => false
  | Errorf _ ws => existsb (λ e, errors_As e ty) ws
  | Joined es => existsb (λ e, errors_As e ty) es
  | Typed t _ _ cause =>
      String.eqb t ty || match cause with Some e => errors_As e ty | None => false end
  end.

(** ** Events *)

(** [EventKind] *)
Inductive EventKind : Type :=
| EventSuccess | EventRetry | EventTimeout | EventCircuitStateTransition | EventCircuitRejected
| EventBulkheadAccepted | EventBulkheadRejected | EventFailure.

(** [EventCategory] *)
Inductive EventCategory : Type :=
| EventCategorySuccess | EventCategoryRetry | EventCategoryAdmission | EventCategoryTimeout
| EventCategoryRejection | EventCategoryTransition | EventCategoryFailure.

(** [ErrorCategory] *)
Inductive ErrorCategory : Type :=
| ErrorCategoryNone | ErrorCategoryTimeout | ErrorCategoryCircuitOpen
| ErrorCategoryBulkheadRejected | ErrorCategoryRetryExhausted | ErrorCategoryContextCanceled
| ErrorCategoryContextDeadline | ErrorCategoryFailure.

#[export] Instance EventKind_eq : EqDecision EventKind.
Proof. solve_decision. Defined.
#[export] Instance EventCategory_eq : EqDecision EventCategory.
Proof. solve_decision. Defined.
#[export] Instance ErrorCategory_eq : EqDecision ErrorCategory.
Proof. solve_decision. Defined.

Record Event := mkEvent {
  PolicyName : string;
  PolicyType : string;
  Kind : EventKind;
  Category : EventCategory;
  Attempt : Z;
  Delay : Z;
  Timeout : Z;
  EventErr : option error;
  EventErrorCategory : ErrorCategory;
  State : string;
  PreviousState : string;
  InFlight : Z
}.

Definition categorizeError (err : option error) : ErrorCategory :=
  match err with
  | None => ErrorCategoryNone
  | Some _ =>
      if opt_Is err "resilience.ErrRetryExhausted" then ErrorCategoryRetryExhausted
      else if opt_Is err "resilience.ErrTimeout" then ErrorCategoryTimeout
      else if opt_Is err "resilience.ErrCircuitOpen" then ErrorCategoryCircuitOpen
      else if opt_Is err "resilience.ErrBulkheadRejected" then ErrorCategoryBulkheadRejected
      else if opt_Is err "context.Canceled" then ErrorCategoryContextCanceled
      else if opt_Is err "context.DeadlineExceeded" then ErrorCategoryContextDeadline
      else ErrorCategoryFailure
  end.

Definition EventHandler (W : Type) : Type := Context W → Event → Call W unit.

Definition emitEvent {W} (ctx : Context W) (handler : option (EventHandler W)) (event : Event)
    : Call W unit :=
  match handler with Some h => h ctx event | None => mret tt end.

(** ** Operations and policies *)

(** [Operation[T]], nil as [None]; both results are returned. *)
Definition Operation (W T : Type) : Type := option (Context W → Call W (T * option error)).
Definition Policy (W T : Type) : Type := Operation W T → Operation W T.

Section policies.
Context {W T : Type} (zero : T).

(** The loop of [Compose], from the last policy to the first. *)
Fixpoint composeLoop (reversed : list (option (Policy W T))) (wrapped : Operation W T)
    : Operation W T :=
  match reversed with
  | [] => wrapped
  | None :: rest => composeLoop rest wrapped
  | Some p :: rest => composeLoop rest (p wrapped)
  end.

Definition Compose (policies : list (option (Policy W T))) : Policy W T :=
  λ operation, composeLoop (reverse policies) operation.

Definition runOperation (octx : option (Context W)) (operation : Operation W T)
    : Call W (T * option error) :=
  match operation with
  | None => mret (zero, Some (Errorf "operation must not be nil" []))
  | Some op =>
      let ctx := orBackground octx in
      err ← ctx_Err ctx;
      match err with
      | Some e => mret (zero, Some e)
      | None => op ctx
      end
  end.

Definition Run (octx : option (Context W)) (operation : Operation W T)
    (policies : list (option (Policy W T))) : Call W (T * option error) :=
  runOperation (Some (orBackground octx)) (Compose policies operation).

(** ** Retry *)

(** [isTimeoutError]: the error holds a [TimeoutError]. *)
Definition isTimeoutError (err : error) : bool := errors_As err "resilience.TimeoutError".

Definition retryAllButCanceled (err : error) : bool :=
  if errors_Is err "context.Canceled" then false
  else if isTimeoutError err then true
  else negb (errors_Is err "context.DeadlineExceeded").

(** [Backoff], [Sleeper] *)
Definition Backoff : Type := Z → Call W Z.
Definition Sleeper : Type := Context W → Z → Call W (option error).

Definition NoBackoff : Backoff := λ _, mret 0.
Definition ConstantBackoff (delay : Z) : Backoff := λ _, mret (if delay <? 0 then 0 else delay).

(** [realSleeper]; [timer] is the [select] on a timer and [ctx.Done()]. *)
Definition realSleeper (timer : Sleeper) : Sleeper := λ ctx delay,
  if delay <=? 0 then ctx_Err ctx else timer ctx delay.

Record RetryOptions := mkRetryOptions {
  r_Name : string;
  MaxAttempts : Z;
  r_Backoff : option Backoff;
  RetryIf : option (error → bool);
  r_Sleeper : option Sleeper;
  r_OnEvent : option (EventHandler W)
}.

(** [RetryPolicy] holds the options with the defaults filled in. *)
Record RetryPolicy := mkRetryPolicy {
  p_name : string;
  p_maxAttempts : Z;
  p_backoff : Backoff;
  p_retryIf : error → bool;
  p_sleeper : Sleeper;
  p_onEvent : option (EventHandler W)
}.

Definition NewRetry (timer : Sleeper) (options : RetryOptions) : result RetryPolicy :=
  if MaxAttempts options <=? 0 then Fail (Errorf "max attempts must be positive" [])
  else Ok (mkRetryPolicy (r_Name options) (MaxAttempts options)
             (match r_Backoff options with None => NoBackoff | Some b => b end)
             (match RetryIf options with None => retryAllButCanceled | Some f => f end)
             (match r_Sleeper options with None => realSleeper timer | Some s => s end)
             (r_OnEvent options)).

(** The events of a retry. *)
Definition retryEvent (p : RetryPolicy) (kind : EventKind) (category : EventCategory)
    (attempt delay : Z) (err : option error) : Event :=
  mkEvent (p_name p) "retry" kind category attempt delay 0 err (categorizeError err) "" "" 0.

(** The loop of [RetryPolicy.Apply], [left] attempts before [MaxAttempts]. *)
Fixpoint retryLoop (p : RetryPolicy) (operation : Operation W T) (ctx : Context W)
    (left : nat) (attempt : Z) (lastErr : option error) : Call W (T * option error) :=
  match left with
  | 0%nat => mret (zero, Some (RetryError (p_name p) (p_maxAttempts p) lastErr))
  | S left' =>
      cerr ← ctx_Err ctx;
      match cerr with
      | Some e => mret (zero, Some e)
      | None =>
          out ← runOperation (Some ctx) operation;
          match out with
          | (value, None) =>
              _ ← emitEvent ctx (p_onEvent p)
                    (retryEvent p EventSuccess EventCategorySuccess attempt 0 None);
              mret (value, None)
          | (_, Some err) =>
              if IsNonRetryable (Some err)
              then (_ ← emitEvent ctx (p_onEvent p)
                          (retryEvent p EventFailure EventCategoryFailure attempt 0 (Some err));
                    mret (zero, Some err))
              else if negb (p_retryIf p err)
              then (_ ← emitEvent ctx (p_onEvent p)
                          (retryEvent p EventFailure EventCategoryFailure attempt 0 (Some err));
                    mret (zero, Some err))
              else if attempt =? p_maxAttempts p
              then (let retryErr := RetryError (p_name p) attempt (Some err) in
                    _ ← emitEvent ctx (p_onEvent p)
                          (retryEvent p EventFailure EventCategoryFailure attempt 0 (Some retryErr));
                    mret (zero, Some retryErr))
              else (delay ← p_backoff p attempt;
                    _ ← emitEvent ctx (p_onEvent p)
                          (retryEvent p EventRetry EventCategoryRetry attempt delay (Some err));
                    serr ← p_sleeper p ctx delay;
                    match serr with
                    | Some e => mret (zero, Some e)
                    | None => retryLoop p operation ctx left' (attempt + 1) (Some err)
                    end)
          end
      end
  end.

Definition RetryPolicy_Apply (p : RetryPolicy) : Policy W T := λ operation,
  Some (λ ctx, retryLoop p operation ctx (Z.to_nat (p_maxAttempts p)) 1 None).

(** ** Timeout *)

Record TimeoutOptions := mkTimeoutOptions {
  t_Name : string; t_Timeout : Z; t_OnEvent : option (EventHandler W)
}.

Definition NewTimeout (options : TimeoutOptions) : result TimeoutOptions :=
  if t_Timeout options <=? 0 then Fail (Errorf "timeout must be positive" []) else Ok options.

(** [err == context.DeadlineExceeded] *)
Definition isDeadlineSentinel (err : option error) : bool :=
  match err with Some (Sentinel n) => String.eqb n "context.DeadlineExceeded" | _ => false end.

(** [TimeoutPolicy.Apply]; [withTimeout] is [context.WithTimeout]. *)
Definition TimeoutPolicy_Apply (withTimeout : Context W → Z → Call W (Context W))
    (p : TimeoutOptions) : Policy W T := λ operation,
  Some (λ ctx,
    timeoutCtx ← withTimeout ctx (t_Timeout p);
    out ← runOperation (Some timeoutCtx) operation;
    match out with
    | (value, None) =>
        _ ← emitEvent ctx (t_OnEvent p)
              (mkEvent (t_Name p) "timeout" EventSuccess EventCategorySuccess 0 0 (t_Timeout p)
                 None ErrorCategoryNone "" "" 0);
        mret (value, None)
    | (value, Some err) =>
        if errors_Is err "context.DeadlineExceeded" then
          (terr ← ctx_Err timeoutCtx;
           if isDeadlineSentinel terr then
             (cerr ← ctx_Err ctx;
              match cerr with
              | None =>
                  let timeoutErr := TimeoutError (t_Name p) (t_Timeout p) err in
                  _ ← emitEvent ctx (t_OnEvent p)
                        (mkEvent (t_Name p) "timeout" EventTimeout EventCategoryTimeout 0 0
                           (t_Timeout p) (Some timeoutErr) (categorizeError (Some timeoutErr)) "" "" 0);
                  mret (value, Some timeoutErr)
              | Some _ => mret (value, Some err)
              end)
           else mret (value, Some err))
        else mret (value, Some err)
    end).
End policies.

Arguments RetryOptions : clear implicits.
Arguments RetryPolicy : clear implicits.

(** ** Composition *)

Section compose.
Context {W T : Type}.
Implicit Types (ps : list (option (Policy W T))).

Lemma composeLoop_app ps qs op :
  composeLoop (ps ++ qs) op = composeLoop qs (composeLoop ps op).
Proof. revert op. induction ps as [|[p|] ps IH]; intros op; simpl; auto. Qed.

(** [Compose] applies the first policy as the outermost wrapper and skips
    nil policies: it is the fold of the policies around the operation, and
    composing two lists nests their compositions. *)
Theorem Compose_order ps qs (op : Operation W T) :
  Compose ps op = foldr (λ p wrapped, match p with Some f => f wrapped | None => wrapped end) op ps ∧
  Compose (ps ++ qs) op = Compose ps (Compose qs op).
Proof.
  unfold Compose. split; [|by rewrite reverse_app, composeLoop_app].
  induction ps as [|p ps IH]; [done|]. rewrite reverse_cons, composeLoop_app, IH.
  by destruct p.
Qed.
End compose.

(** ** Retry *)

(** A call that leaves the log of attempts alone, and an operation that
    records every outcome in it. *)
Definition quiet {W L A} (c : Call (W * L) A) : Prop := ∀ w l, (c (w, l)).2.2 = l.
Definition recording {W T} (op : Context (W * list (T * option error)) → Call W (T * option error))
    : Operation (W * list (T * option error)) T :=
  Some (λ ctx '(w, l), let '(out, w') := op ctx w in (out, (w', l ++ [out]))).

Section retry.
Context {W T : Type} (zero : T).
Notation World := (W * list (T * option error))%type.
Context (p : RetryPolicy World) (ctx : Context World).
Context (op : Context World → Call W (T * option error)).

(** The environment of a retry does not call the operation. *)
Record retryEnv : Prop := mkRetryEnv {
  re_ctx : quiet (ctx_Err ctx);
  re_event e : quiet (emitEvent ctx (p_onEvent p) e);
  re_backoff n : quiet (p_backoff p n);
  re_sleep d : quiet (p_sleeper p ctx d)
}.

(** The failure [err] is one the policy retries. *)
Definition retryable (err : error) : bool := negb (IsNonRetryable (Some err)) && p_retryIf p err.

(** [e] is an error that the context, or a sleep, reported. *)
Definition interruption (e : error) : Prop :=
  ∃ w, (ctx_Err ctx w).1 = Some e ∨ ∃ d, (p_sleeper p ctx d w).1 = Some e.

(** The outcome [(v, e)] after the attempts [new]. *)
Definition retryOutcome (attempts : Z) (v : T) (e : option error) (new : list (T * option error)) : Prop :=
  match e with
  | None => last new = Some (v, None)
  | Some err =>
      (∃ x, last new = Some (x, Some err) ∧ retryable err = false) ∨
      ((Z.of_nat (length new) = attempts ∨ ∃ ce, interruption ce) ∧
         ∃ x cause, last new = Some (x, Some cause) ∧ retryable cause = true ∧
           err = RetryError (p_name p) (p_maxAttempts p) (Some cause)) ∨
      (∃ ce, interruption ce ∧
         (err = ce ∨ err = RetryError (p_name p) (p_maxAttempts p) (Some ce)))
  end.

Lemma quiet_run {L A} (c : Call (W * L) A) w l a w' :
  quiet c → c (w, l) = (a, w') → ∃ w1, w' = (w1, l).
Proof.
  intros Hq Hc. specialize (Hq w l). rewrite Hc in Hq. destruct w' as [w1 l']. simpl in Hq.
  subst. by eexists.
Qed.

Lemma ctx_interruption w e w' : ctx_Err ctx w = (Some e, w') → interruption e.
Proof. intros Hc. exists w. left. by rewrite Hc. Qed.

Lemma sleep_interruption d w e w' : p_sleeper p ctx d w = (Some e, w') → interruption e.
Proof. intros Hc. exists w. right. exists d. by rewrite Hc. Qed.

(** One attempt is recorded, unless the context stopped it. *)
Lemma attempt_spec w l v e w' :
  retryEnv → runOperation zero (Some ctx) (recording op) (w, l) = ((v, e), w') →
  ∃ w1 k, w' = (w1, l ++ k) ∧ 
    (k = [(v, e)] ∨ k = [] ∧ ∃ err, e = Some err ∧ interruption err).
Proof.
  intros Henv. unfold runOperation, recording, mbind, call_bind, mret, call_ret. simpl.
  destruct (ctx_Err ctx (w, l)) as [cerr w1] eqn:E1.
  destruct (quiet_run _ _ _ _ _ (re_ctx Henv) E1) as [w2 ->]. destruct cerr as [ce|].
  - intros [= <- <- <-]. exists w2, []. rewrite app_nil_r. split; [done|]. right.
    split; [done|]. exists ce. split; [done|by eapply ctx_interruption].
  - destruct (op ctx w2) as [out w3]. intros [= -> <-]. exists w3, [(v, e)]. auto.
Qed.

(** Outcomes compose: one attempt, then the rest of the loop. *)
Definition goodRun (attempts : nat) (v : T) (e : option error) (new : list (T * option error)) : Prop :=
  (length new ≤ attempts)%nat ∧
  (∀ i x, new !! i = Some x → (S i < length new)%nat →
     ∃ err, x.2 = Some err ∧ retryable err = true) ∧
  retryOutcome (Z.of_nat attempts) v e new.

Lemma goodRun_interrupted n v err : interruption err → goodRun n v (Some err) [].
Proof. intros Hi. split_and!; simpl; [lia|done|]. right. right. eauto. Qed.

Lemma goodRun_one n v e x :
  (1 ≤ n)%nat → retryOutcome (Z.of_nat n) v e [x] → goodRun n v e [x].
Proof. intros Hn Hr. split_and!; simpl; [lia| |done]. intros [|i] y ?; simpl; [lia|done]. Qed.

Lemma goodRun_cons n x err v e new :
  retryable err = true → goodRun n v e new → goodRun (S n) v e ((x, Some err) :: new).
Proof.
  intros Hr (Hl & Hprev & Hout). split_and!; simpl; [lia| |].
  - intros [|i] y; simpl; [intros [= <-] _; by exists err|]. intros Hy Hlt. apply (Hprev i); [done|lia].
  - assert (∀ y, last new = Some y → last ((x, Some err) :: new) = Some y) as Hlast.
    { intros y Hy. destruct new; [done|]. by rewrite last_cons_cons. }
    destruct e as [er|]; simpl in *; [|by apply Hlast].
    destruct Hout as [(y & Hy & ?)|[(Hlen & y & cause & Hy & ?)|Hi]]; [left|right; left|auto].
    + exists y. auto.
    + split; [destruct Hlen; [left; lia|by right]|]. exists y, cause. auto.
Qed.

Lemma goodRun_skip n ce v e new : interruption ce → goodRun n v e new → goodRun (S n) v e new.
Proof.
  intros Hi (Hl & Hprev & Hout). split_and!; [lia|done|]. destruct e as [er|]; [|done].
  simpl in *. destruct Hout as [?|[(_ & ?)|?]]; [by left| |auto]. right. left. split; [|done]. eauto.
Qed.

Lemma retryLoop_spec left : ∀ attempt lastErr w l v e w',
  retryEnv → (1 ≤ left)%nat → Z.of_nat left = p_maxAttempts p - attempt + 1 →
  retryLoop zero p (recording op) ctx left attempt lastErr (w, l) = ((v, e), w') →
  ∃ new, w'.2 = l ++ new ∧ goodRun left v e new.
Proof.
  induction left as [|left IH]; intros attempt lastErr w l v e w' Henv Hl Heq; [lia|].
  cbn [retryLoop]. unfold mbind, call_bind, mret, call_ret.
  destruct (ctx_Err ctx (w, l)) as [cerr w1] eqn:E1.
  destruct (quiet_run _ _ _ _ _ (re_ctx Henv) E1) as [w2 ->]. destruct cerr as [ce|].
  { intros [= <- <- <-]. exists []. rewrite app_nil_r.
    split; [done|]. by eapply goodRun_interrupted, ctx_interruption. }
  destruct (runOperation zero (Some ctx) (recording op) (w2, l)) as [[v0 e0] w3] eqn:E2.
  destruct (attempt_spec _ _ _ _ _ Henv E2) as (w4 & k & -> & Hk).
  (* an event does not change the log *)
  assert (∀ ev r, (let '(_, w5) := emitEvent ctx (p_onEvent p) ev (w4, l ++ k) in (r, w5)) = ((v, e), w') →
    (v, e) = r ∧ w'.2 = l ++ k) as Hev.
  { intros ev r. destruct (emitEvent ctx (p_onEvent p) ev (w4, l ++ k)) as [[] w5] eqn:E3.
    destruct (quiet_run _ _ _ _ _ (re_event Henv ev) E3) as [w6 ->]. by intros [= -> <-]. }
  destruct e0 as [err|].
  2:{ intros [[= -> ->] Hw]%Hev. exists k. split; [done|].
      destruct Hk as [-> | (_ & ? & ? & _)]; [|done]. by apply goodRun_one. }
  destruct (IsNonRetryable (Some err)) eqn:En.
  { intros [[= -> ->] Hw]%Hev. exists k. split; [done|].
    destruct Hk as [-> | (-> & ? & [= <-] & Hi)]; [|by apply goodRun_interrupted].
    apply goodRun_one; [lia|]. left. exists v0. unfold retryable. by rewrite En. }
  destruct (p_retryIf p err) eqn:Er; cbn [negb].
  2:{ intros [[= -> ->] Hw]%Hev. exists k. split; [done|].
      destruct Hk as [-> | (-> & ? & [= <-] & Hi)]; [|by apply goodRun_interrupted].
      apply goodRun_one; [lia|]. left. exists v0. unfold retryable. by rewrite Er, andb_false_r. }
  assert (retryable err = true) as Hretry by (unfold retryable; by rewrite En, Er).
  destruct (attempt =? p_maxAttempts p) eqn:Ea; bools.
  { intros [[= -> ->] Hw]%Hev. exists k. split; [done|].
    destruct Hk as [-> | (-> & ? & [= <-] & Hi)].
    - apply goodRun_one; [lia|]. right. left. split; [left; simpl; lia|].
      exists v0, err. by rewrite <-Ea.
    - split_and!; simpl; [lia|done|]. right. right. exists err. rewrite <-Ea. auto. }
  destruct (p_backoff p attempt (w4, l ++ k)) as [delay w5] eqn:E4.
  destruct (quiet_run _ _ _ _ _ (re_backoff Henv _) E4) as [w6 ->].
  destruct (emitEvent _ _ _ (w6, l ++ k)) as [[] w7] eqn:E5.
  destruct (quiet_run _ _ _ _ _ (re_event Henv _) E5) as [w8 ->].
  destruct (p_sleeper p ctx delay (w8, l ++ k)) as [serr w9] eqn:E6.
  destruct (quiet_run _ _ _ _ _ (re_sleep Henv _) E6) as [w10 ->].
  destruct serr as [se|].
  { intros [= <- <- <-]. exists k. split; [done|].
    apply sleep_interruption in E6.
    destruct Hk as [-> | (-> & _)]; [|by apply goodRun_interrupted].
    apply goodRun_one; [lia|]. right. right. eauto. }
  intros Hrec. apply IH in Hrec as (new & Hw & Hgood); [|done|lia|lia].
  exists (k ++ new). rewrite (assoc_L app). split; [done|].
  destruct Hk as [-> | (-> & ce & _ & Hi)]; [by apply goodRun_cons|by eapply goodRun_skip].
Qed.
End retry.

(** A retry policy calls the operation at most [MaxAttempts] times, and
    calls it again only after a failure that the policy retries.  It returns
    the value of the last call when that succeeds; a failure is the last
    call's own when the policy does not retry it, or a [RetryError] around the
    last call's retryable error after [MaxAttempts] calls (fewer only when the
    context refused an attempt), or the error of the context or of a sleep,
    bare or as the cause of a [RetryError]. *)
Theorem retry_attempts {W T} (zero : T) (timer : Sleeper) options (p : RetryPolicy (W * list (T * option error)))
    ctx (op : Context _ → Call W (T * option error)) f w v e w' :
  NewRetry timer options = Ok p → retryEnv p ctx →
  RetryPolicy_Apply zero p (recording op) = Some f →
  f ctx (w, []) = ((v, e), w') →
  Z.of_nat (length w'.2) ≤ p_maxAttempts p ∧
  (∀ i x, w'.2 !! i = Some x → (S i < length w'.2)%nat →
     ∃ err, x.2 = Some err ∧ retryable p err = true) ∧
  retryOutcome p ctx (p_maxAttempts p) v e w'.2.
Proof.
  unfold NewRetry. destruct (MaxAttempts options <=? 0) eqn:E; [done|]. bools.
  intros Hp Henv [= <-] Hrun. assert (1 ≤ p_maxAttempts p) as Hmax by (injection Hp as <-; simpl; lia).
  apply (retryLoop_spec zero p ctx op) in Hrun as (new & -> & Hl & Hprev & Hout); [|done|lia|lia].
  rewrite Z2Nat.id in Hout by lia. split_and!; [simpl; lia|done|done].
Qed.

(** ** Timeout *)

(** A timeout policy returns [TimeoutError] exactly for its own deadline:
    the operation failed with a deadline error, the derived context reports
    the deadline and the caller's context is still alive; the error then wraps
    the operation's.  Every other outcome of the operation is passed through. *)
Theorem timeout_own_deadline {W T} (zero : T) withTimeout (p : TimeoutOptions) (operation : Operation W T)
    f ctx w v err w' tctx w1 w2 :
  TimeoutPolicy_Apply zero withTimeout p operation = Some f →
  withTimeout ctx (t_Timeout p) w = (tctx, w1) →
  runOperation zero (Some tctx) operation w1 = ((v, err), w2) →
  (f ctx w).1 = w' →
  w'.1 = v ∧
  match err with
  | None => w'.2 = None
  | Some e =>
      if errors_Is e "context.DeadlineExceeded" && isDeadlineSentinel (ctx_Err tctx w2).1 &&
         (match (ctx_Err ctx (ctx_Err tctx w2).2).1 with None => true | Some _ => false end)
      then w'.2 = Some (TimeoutError (t_Name p) (t_Timeout p) e)
      else w'.2 = Some e
  end.
Proof.
  intros [= <-] Ht Hop. unfold mbind, call_bind, mret, call_ret. rewrite Ht, Hop.
  destruct err as [e|].
  2:{ destruct (emitEvent _ _ _ _). by intros <-. }
  destruct (errors_Is e _); simpl; [|by intros <-].
  destruct (ctx_Err tctx w2) as [terr w3]. simpl.
  destruct (isDeadlineSentinel terr); simpl; [|by intros <-].
  destruct (ctx_Err ctx w3) as [[ce|] w4]; simpl; [by intros <-|].
  destruct (emitEvent _ _ _ _). by intros <-.
Qed.

(** ** Witnesses *)

Definition flaky : Context (nat * list (Z * option error)) → Call nat (Z * option error) :=
  λ _ n, ((7, if (n <? 2)%nat then Some (Sentinel "demo.Err") else None), S n).

Definition noTimer {W} : Sleeper (W:=W) := λ _ _ w, (None, w).
Definition demoRetry : RetryPolicy (nat * list (Z * option error)) :=
  mkRetryPolicy "demo" 3 NoBackoff retryAllButCanceled (realSleeper noTimer) None.
Definition demoRun : (Z * option error) * (nat * list (Z * option error)) :=
  match RetryPolicy_Apply 0 demoRetry (recording flaky) with
  | Some f => f Background (0%nat, [])
  | None => ((0, None), (0%nat, []))
  end.

Lemma retry_attempts_witness :
  demoRun.1 = (7, None) ∧ length demoRun.2.2 = 3%nat ∧
  retryOutcome demoRetry Background 3 7 None demoRun.2.2.
Proof.
  split; [reflexivity|]. split; [reflexivity|].
  apply (retry_attempts 0 noTimer (mkRetryOptions "demo" 3 None None None None) demoRetry
    Background flaky _ 0%nat 7 None demoRun.2 eq_refl) with (2 := eq_refl); [|reflexivity].
  split; intros; intros w l; try reflexivity. unfold demoRetry, realSleeper, noTimer. simpl.
  by destruct (_ <=? 0).
Defined.
