(* ===== verification/CircuitBreaker.v ===== *)
(** * resilience: the circuit breaker

    Models [src/resilience/circuit_breaker.go].  The fields that the mutex
    guards are the record [breaker]; [beforeCall] and [afterCall] are one
    atomic step each, and return the events to emit after the unlock.  Calls
    that overlap are a step relation on the breaker and the calls in flight;
    one call on its own is [CircuitBreaker_Apply].  The options [Now] and
    [OnEvent] are arguments of it. *)

From S2P Require Import Prelude GoError Resilience.

Local Open Scope Z_scope.

(** [CircuitState] *)
Inductive CircuitState : Type := CircuitStateClosed | CircuitStateOpen | CircuitStateHalfOpen.

#[export] Instance CircuitState_eq : EqDecision CircuitState.
Proof. solve_decision. Defined.

Definition stateName (s : CircuitState) : string :=
  match s with
  | CircuitStateClosed => "closed"
  | CircuitStateOpen => "open"
  | CircuitStateHalfOpen => "half-open"
  end.

Definition defaultFailurePredicate (err : option error) : bool :=
  match err with
  | None => false
  | Some e =>
      if IsNonRetryable err then true
      else if errors_Is e "context.Canceled" then false
      else true
  end.

Record CircuitBreakerOptions := mkCBOptions {
  cb_Name : string;
  FailureThreshold : Z;
  SuccessThreshold : Z;
  OpenTimeout : Z;
  HalfOpenMaxConcurrent : Z;
  FailureIf : option (option error → bool)
}.

(** The mutable fields of [CircuitBreakerPolicy]. *)
Record breaker := mkBreaker {
  state : CircuitState;
  failureCount : Z;
  successCount : Z;
  openedAt : Z;
  halfOpenInFlight : Z
}.

(** [NewCircuitBreaker]: the options with defaults and the initial fields. *)
Definition NewCircuitBreaker (options : CircuitBreakerOptions)
    : result (CircuitBreakerOptions * breaker) :=
  if FailureThreshold options <=? 0 then Fail (Errorf "failure threshold must be positive" [])
  else if OpenTimeout options <=? 0 then Fail (Errorf "open timeout must be positive" [])
  else Ok (mkCBOptions (cb_Name options) (FailureThreshold options)
             (if SuccessThreshold options <=? 0 then 1 else SuccessThreshold options)
             (OpenTimeout options)
             (if HalfOpenMaxConcurrent options <=? 0 then 1 else HalfOpenMaxConcurrent options)
             (match FailureIf options with None => Some defaultFailurePredicate | Some f => Some f end),
           mkBreaker CircuitStateClosed 0 0 0 0).

Section breaker.
Variable o : CircuitBreakerOptions.

Definition transitionLocked (next : CircuitState) (now : Z) (p : breaker) : breaker * option Event :=
  if decide (state p = next) then (p, None)
  else (mkBreaker next 0 0 (if decide (next = CircuitStateOpen) then now else openedAt p) 0,
        Some (mkEvent (cb_Name o) "circuit_breaker" EventCircuitStateTransition
                EventCategoryTransition 0 0 0 None ErrorCategoryNone (stateName next)
                (stateName (state p)) 0)).

(** The rejection event and error of [beforeCall]. *)
Definition rejection (s : CircuitState) : error := CircuitOpenError (cb_Name o) (stateName s).
Definition rejectionEvent (s : CircuitState) (inFlight : Z) : Event :=
  mkEvent (cb_Name o) "circuit_breaker" EventCircuitRejected EventCategoryRejection 0 0 0
    (Some (rejection s)) (categorizeError (Some (rejection s))) (stateName s) "" inFlight.

(** [beforeCall] at time [now]: the new fields, the state the call is admitted
    in or the rejection, and the event. *)
Definition beforeCall (now : Z) (p : breaker) : breaker * result CircuitState * option Event :=
  let '(p1, transition) :=
    if decide (state p = CircuitStateOpen) then
      (if OpenTimeout o <=? now - openedAt p
       then transitionLocked CircuitStateHalfOpen now p else (p, None))
    else (p, None) in
  match state p1 with
  | CircuitStateOpen =>
      (p1, Fail (rejection CircuitStateOpen), Some (rejectionEvent CircuitStateOpen 0))
  | CircuitStateHalfOpen =>
      if HalfOpenMaxConcurrent o <=? halfOpenInFlight p1
      then (p1, Fail (rejection CircuitStateHalfOpen),
            Some (rejectionEvent CircuitStateHalfOpen (halfOpenInFlight p1)))
      else (mkBreaker (state p1) (failureCount p1) (successCount p1) (openedAt p1)
              (halfOpenInFlight p1 + 1),
            Ok CircuitStateHalfOpen, transition)
  | CircuitStateClosed => (p1, Ok CircuitStateClosed, transition)
  end.

(** [afterCall] *)
Definition afterCall (now : Z) (callState : CircuitState) (failed : bool) (p : breaker)
    : breaker * option Event :=
  match callState with
  | CircuitStateClosed =>
      if failed then
        let p1 := mkBreaker (state p) (failureCount p + 1) (successCount p) (openedAt p)
                    (halfOpenInFlight p) in
        if FailureThreshold o <=? failureCount p1
        then transitionLocked CircuitStateOpen now p1 else (p1, None)
      else (mkBreaker (state p) 0 (successCount p) (openedAt p) (halfOpenInFlight p), None)
  | CircuitStateHalfOpen =>
      let inFlight := if 0 <? halfOpenInFlight p then halfOpenInFlight p - 1
                      else halfOpenInFlight p in
      if failed then
        transitionLocked CircuitStateOpen now
          (mkBreaker (state p) (failureCount p) (successCount p) (openedAt p) inFlight)
      else
        let p1 := mkBreaker (state p) (failureCount p) (successCount p + 1) (openedAt p) inFlight in
        if SuccessThreshold o <=? successCount p1
        then transitionLocked CircuitStateClosed now p1 else (p1, None)
  | CircuitStateOpen => (p, None)
  end.

(** [State] *)
Definition CircuitBreaker_State (p : breaker) : CircuitState := state p.

(** [FailureIf] of options that went through [NewCircuitBreaker]. *)
Definition callFailed (err : option error) : bool :=
  match FailureIf o with Some f => f err | None => defaultFailurePredicate err end.

(** ** Overlapping calls

    [running] holds the admission state of every call in flight. *)
Record system := mkSystem { fields : breaker; running : list CircuitState }.

Inductive step : system → system → Prop :=
| StepAdmit now p cs p' c ev :
    beforeCall now p = (p', Ok c, ev) → step (mkSystem p cs) (mkSystem p' (c :: cs))
| StepReject now p cs p' e ev :
    beforeCall now p = (p', Fail e, ev) → step (mkSystem p cs) (mkSystem p' cs)
| StepFinish now p cs1 c cs2 failed p' ev :
    afterCall now c failed p = (p', ev) →
    step (mkSystem p (cs1 ++ c :: cs2)) (mkSystem p' (cs1 ++ cs2)).

(** ** Sequential calls

    One call at a time, admitted at [t1] and finished at [t2]; [false] when it
    was rejected. *)
Definition sequentialCall (t1 t2 : Z) (failed : bool) (p : breaker) : breaker * bool :=
  match beforeCall t1 p with
  | (p1, Fail _, _) => (p1, false)
  | (p1, Ok c, _) => ((afterCall t2 c failed p1).1, true)
  end.

(** The breaker as documented: consecutive failures open it, it rejects calls
    while the open interval lasts, and consecutive successful probes close it. *)
Inductive spec : Type :=
| Closed (failures : Z)
| Opened (since : Z)
| HalfOpen (successes : Z).

Definition specFinish (t2 : Z) (failed : bool) (s : spec) : spec :=
  match s with
  | Closed n =>
      if failed then (if FailureThreshold o <=? n + 1 then Opened t2 else Closed (n + 1))
      else Closed 0
  | HalfOpen n =>
      if failed then Opened t2
      else if SuccessThreshold o <=? n + 1 then Closed 0 else HalfOpen (n + 1)
  | Opened t => Opened t
  end.

Definition specCall (t1 t2 : Z) (failed : bool) (s : spec) : spec * bool :=
  match s with
  | Opened t =>
      if OpenTimeout o <=? t1 - t then (specFinish t2 failed (HalfOpen 0), true) else (s, false)
  | _ => (specFinish t2 failed s, true)
  end.

(** What the fields of an idle breaker stand for. *)
Definition abstracts (p : breaker) : spec :=
  match state p with
  | CircuitStateClosed => Closed (failureCount p)
  | CircuitStateOpen => Opened (openedAt p)
  | CircuitStateHalfOpen => HalfOpen (successCount p)
  end.

(** ** Invariant *)

Definition inv (p : breaker) : Prop :=
  0 ≤ halfOpenInFlight p ≤ HalfOpenMaxConcurrent o ∧
  (state p ≠ CircuitStateHalfOpen → halfOpenInFlight p = 0) ∧
  0 ≤ failureCount p ∧ 0 ≤ successCount p ∧
  (state p = CircuitStateClosed → failureCount p < FailureThreshold o) ∧
  (state p = CircuitStateHalfOpen → successCount p < SuccessThreshold o).

Hypothesis Ho : 1 ≤ FailureThreshold o ∧ 1 ≤ SuccessThreshold o ∧ 1 ≤ OpenTimeout o ∧
  1 ≤ HalfOpenMaxConcurrent o.

Lemma transitionLocked_spec next now p p' ev :
  transitionLocked next now p = (p', ev) →
  (state p = next ∧ p' = p ∧ ev = None) ∨
  (state p ≠ next ∧ state p' = next ∧ failureCount p' = 0 ∧ successCount p' = 0 ∧
   halfOpenInFlight p' = 0 ∧ (next = CircuitStateOpen → openedAt p' = now)).
Proof.
  unfold transitionLocked. case_decide as Hs; intros [= <- <-]; [by left|right].
  simpl. split_and!; try done. intros ->. by rewrite decide_True.
Qed.

Lemma inv_transition next now p p' ev :
  transitionLocked next now p = (p', ev) → (state p = next → inv p) → inv p'.
Proof.
  intros [(Hs & -> & _)|(Hs & Hn & Hf & Hsu & Hin & _)]%transitionLocked_spec Hinv; [auto|].
  unfold inv. rewrite Hf, Hsu, Hin. lia.
Qed.

Lemma inv_beforeCall now p p' r ev : inv p → beforeCall now p = (p', r, ev) → inv p'.
Proof.
  intros Hinv. unfold beforeCall.
  assert (∀ p1 tr, inv p1 → match state p1 with
    | CircuitStateOpen =>
        (p1, Fail (rejection CircuitStateOpen), Some (rejectionEvent CircuitStateOpen 0))
    | CircuitStateHalfOpen =>
        if HalfOpenMaxConcurrent o <=? halfOpenInFlight p1
        then (p1, Fail (rejection CircuitStateHalfOpen),
              Some (rejectionEvent CircuitStateHalfOpen (halfOpenInFlight p1)))
        else (mkBreaker (state p1) (failureCount p1) (successCount p1) (openedAt p1)
                (halfOpenInFlight p1 + 1), Ok CircuitStateHalfOpen, tr)
    | CircuitStateClosed => (p1, Ok CircuitStateClosed, tr)
    end = (p', r, ev) → inv p') as Hadmit.
  { intros p1 tr H1. destruct (state p1) eqn:Es; [by intros [= <- _ _]..|].
    destruct (_ <=? _) eqn:E; bools; intros [= <- _ _]; [done|].
    unfold inv in *. simpl. destruct H1 as (? & ? & ? & ? & ? & ?). split_and!; try done; try lia.
    by intros _; apply H4. }
  case_decide as Hs; [|by apply Hadmit].
  destruct (OpenTimeout o <=? now - openedAt p); [|by apply Hadmit].
  destruct (transitionLocked _ _ _) as [p1 tr] eqn:Et. apply Hadmit.
  eapply inv_transition; [done|]. by rewrite Hs.
Qed.

Lemma inv_afterCall now c failed p p' ev :
  inv p → afterCall now c failed p = (p', ev) → inv p'.
Proof.
  intros Hinv. pose proof Hinv as (Hin & Hz & Hf & Hsu & Hcl & Hho).
  unfold afterCall. destruct c.
  - destruct failed; [|intros [= <- _]; unfold inv; simpl; split_and!; auto; lia].
    destruct (_ <=? _) eqn:E; bools; simpl in E.
    + intros Ht. eapply inv_transition; [done|]. simpl. intros Hs. unfold inv. simpl.
      rewrite Hs in Hz, Hcl, Hho |- *. split_and!; auto with lia; done.
    + intros [= <- _]. unfold inv; simpl; split_and!; auto; lia.
  - by intros [= <- _].
  - set (n := if 0 <? halfOpenInFlight p then halfOpenInFlight p - 1 else halfOpenInFlight p).
    assert (0 ≤ n ≤ HalfOpenMaxConcurrent o ∧ (halfOpenInFlight p = 0 → n = 0)) as [Hn Hn0].
    { unfold n. destruct (0 <? halfOpenInFlight p) eqn:E; bools; lia. }
    destruct failed.
    + intros Ht. eapply inv_transition; [done|]. simpl. intros Hs. unfold inv. simpl.
      rewrite Hs in Hz, Hcl, Hho |- *. split_and!; auto with lia; done.
    + destruct (_ <=? _) eqn:E; bools; simpl in E.
      * intros Ht. eapply inv_transition; [done|]. simpl. intros Hs. unfold inv. simpl.
        rewrite Hs in Hz, Hcl, Hho |- *. split_and!; auto with lia; done.
      * intros [= <- _]. unfold inv; simpl; split_and!; auto; lia.
Qed.

(** A call is admitted only by a closed breaker, by a half-open one with a
    free slot, or by an open one whose interval is over. *)
Lemma beforeCall_admits now p p' c ev :
  beforeCall now p = (p', Ok c, ev) →
  (state p = CircuitStateClosed ∧ c = CircuitStateClosed ∧ p' = p) ∨
  (c = CircuitStateHalfOpen ∧ state p' = CircuitStateHalfOpen ∧
   ((state p = CircuitStateHalfOpen ∧ halfOpenInFlight p < HalfOpenMaxConcurrent o ∧
     successCount p' = successCount p) ∨
    (state p = CircuitStateOpen ∧ OpenTimeout o ≤ now - openedAt p ∧ successCount p' = 0))).
Proof.
  unfold beforeCall. case_decide as Hs.
  - destruct (OpenTimeout o <=? now - openedAt p) eqn:E; bools; [|by rewrite Hs].
    unfold transitionLocked. rewrite decide_False by (by rewrite Hs). simpl.
    destruct (_ <=? 0); [done|]. intros [= <- <- <-]. right. split_and!; auto.
  - destruct (state p) eqn:Es; [intros [= <- <- <-]; auto|done|].
    destruct (_ <=? _) eqn:E; bools; [done|]. intros [= <- <- <-]. right. simpl. auto 6.
Qed.

Lemma inv_step s s' : step s s' → inv (fields s) → inv (fields s').
Proof.
  destruct 1; simpl; eauto using inv_beforeCall, inv_afterCall.
Qed.
End breaker.

(** ** Apply

    The mutable fields are part of the world of the operation. *)
Section apply.
Context {W T : Type} (zero : T) (o : CircuitBreakerOptions).
Notation World := (breaker * W)%type.
Context (Now : Call World Z) (OnEvent : option (EventHandler World)).

(** A section under the mutex. *)
Definition locked {A} (f : breaker → breaker * A) : Call World A := λ σ,
  let '(p', a) := f σ.1 in (a, (p', σ.2)).

Definition emitOption (ctx : Context World) (ev : option Event) : Call World unit :=
  match ev with Some e => emitEvent ctx OnEvent e | None => mret tt end.

Definition before (ctx : Context World) : Call World (result CircuitState) :=
  now ← Now;
  r ← locked (λ p, let '(p', r, ev) := beforeCall o now p in (p', (r, ev)));
  _ ← emitOption ctx r.2;
  mret r.1.

Definition after (ctx : Context World) (callState : CircuitState) (failed : bool) : Call World unit :=
  now ← Now;
  ev ← locked (afterCall o now callState failed);
  emitOption ctx ev.

(** [Apply]; an operation that panics is a failed call of the step relation. *)
Definition CircuitBreaker_Apply : Policy World T := λ operation,
  Some (λ ctx,
    r ← before ctx;
    match r with
    | Fail e => mret (zero, Some e)
    | Ok callState =>
        out ← runOperation zero (Some ctx) operation;
        _ ← after ctx callState (callFailed o out.2);
        mret out
    end).

(** A call that does not use this breaker. *)
Definition foreign {A} (c : Call World A) : Prop := ∀ σ, (c σ).2.1 = σ.1.

Lemma emitOption_foreign ctx ev :
  (∀ e, foreign (emitEvent ctx OnEvent e)) → foreign (emitOption ctx ev).
Proof. intros He σ. by destruct ev; [apply He|]. Qed.

Lemma before_run ctx p w :
  foreign Now → (∀ e, foreign (emitEvent ctx OnEvent e)) →
  ∃ w', before ctx (p, w) = ((beforeCall o (Now (p, w)).1 p).1.2,
                             ((beforeCall o (Now (p, w)).1 p).1.1, w')).
Proof.
  intros Hn He. unfold before, locked, mbind, call_bind, mret, call_ret.
  pose proof (Hn (p, w)) as Hnow. destruct (Now (p, w)) as [t [p1 w1]]. simpl in Hnow. subst p1. simpl.
  destruct (beforeCall o t p) as [[p2 r] ev]. simpl.
  pose proof (emitOption_foreign ctx ev He (p2, w1)) as Hev.
  destruct (emitOption ctx ev (p2, w1)) as [[] [p3 w3]]. simpl in Hev. subst p3. by eexists.
Qed.

Lemma after_run ctx c failed p w :
  foreign Now → (∀ e, foreign (emitEvent ctx OnEvent e)) →
  ∃ w', after ctx c failed (p, w) = (tt, ((afterCall o (Now (p, w)).1 c failed p).1, w')).
Proof.
  intros Hn He. unfold after, locked, mbind, call_bind.
  pose proof (Hn (p, w)) as Hnow. destruct (Now (p, w)) as [t [p1 w1]]. simpl in Hnow. subst p1. simpl.
  destruct (afterCall o t c failed p) as [p2 ev]. simpl.
  pose proof (emitOption_foreign ctx ev He (p2, w1)) as Hev.
  destruct (emitOption ctx ev (p2, w1)) as [[] [p3 w3]]. simpl in Hev. subst p3. by eexists.
Qed.
End apply.

(** ** Properties *)

Lemma NewCircuitBreaker_ok options o p :
  NewCircuitBreaker options = Ok (o, p) →
  (1 ≤ FailureThreshold o ∧ 1 ≤ SuccessThreshold o ∧ 1 ≤ OpenTimeout o ∧
   1 ≤ HalfOpenMaxConcurrent o) ∧ p = mkBreaker CircuitStateClosed 0 0 0 0.
Proof.
  unfold NewCircuitBreaker. destruct (FailureThreshold options <=? 0) eqn:E1; [done|].
  destruct (OpenTimeout options <=? 0) eqn:E2; [done|]. intros [= <- <-]. simpl. bools.
  destruct (SuccessThreshold options <=? 0) eqn:E3, (HalfOpenMaxConcurrent options <=? 0) eqn:E4;
    bools; split; try done; lia.
Qed.

(** In every state that overlapping calls can reach, the half-open slot
    counter stays between 0 and [HalfOpenMaxConcurrent] and is 0 outside the
    half-open state, the failure count of a closed breaker is below its
    threshold, and so is the success count of a half-open one. *)
Theorem breaker_invariant options o p s :
  NewCircuitBreaker options = Ok (o, p) →
  rtc (step o) (mkSystem p []) s →
  inv o (fields s).
Proof.
  intros [Ho ->]%NewCircuitBreaker_ok Hreach.
  eapply (rtc_invariant _ (λ s, inv o (fields s))); [|done|].
  - intros a b Ha Hstep. by eapply inv_step.
  - unfold inv. simpl. lia.
Qed.

(** One call from an idle state follows the abstract machine. *)
Lemma sequentialCall_refines o p t1 t2 failed :
  1 ≤ HalfOpenMaxConcurrent o → halfOpenInFlight p = 0 →
  let '(p', admitted) := sequentialCall o t1 t2 failed p in
  specCall o t1 t2 failed (abstracts p) = (abstracts p', admitted) ∧ halfOpenInFlight p' = 0.
Proof.
  intros Hmax Hzero. unfold sequentialCall, beforeCall, abstracts.
  destruct p as [st fc sc oa ho]. simpl in *. subst ho.
  assert ((HalfOpenMaxConcurrent o <=? 0) = false) as Hle by (apply Z.leb_gt; lia).
  destruct st; simpl.
  - destruct failed; simpl; [|done].
    destruct (FailureThreshold o <=? fc + 1) eqn:E; simpl; rewrite ?E; done.
  - destruct (OpenTimeout o <=? t1 - oa) eqn:E; simpl; [|done].
    rewrite Hle. simpl. destruct failed; simpl; [done|].
    destruct (SuccessThreshold o <=? 0 + 1); done.
  - rewrite Hle. simpl. destruct failed; simpl; [done|].
    destruct (SuccessThreshold o <=? sc + 1) eqn:E2; simpl; rewrite ?E2; done.
Qed.

(** An idle breaker rejects only while it is open. *)
Lemma idle_rejection o t p p' e ev :
  1 ≤ HalfOpenMaxConcurrent o → halfOpenInFlight p = 0 →
  beforeCall o t p = (p', Fail e, ev) → e = rejection o CircuitStateOpen.
Proof.
  intros Hmax Hzero. unfold beforeCall, transitionLocked.
  destruct p as [st fc sc oa ho]. simpl in *. subst ho.
  assert ((HalfOpenMaxConcurrent o <=? 0) = false) as Hle by (apply Z.leb_gt; lia).
  destruct st; simpl; [done| |by rewrite Hle].
  destruct (OpenTimeout o <=? t - oa); simpl; [by rewrite Hle|by intros [= _ <- _]].
Qed.

(** C32. Calls that do not overlap see the documented breaker: [Apply] from
    any idle state follows the abstract machine (admission, consecutive
    failure and success counts, the moments it opens, half-opens and closes).
    It decides the admission at the clock reading made when the call starts,
    and an admitted call changes the machine at the reading made in the world
    the operation has left behind: that is the moment the breaker opens.  An
    admitted call returns exactly what the operation returned when it was run
    after the admission, which [FailureIf] classifies; a call that is not
    admitted returns the zero value and [ErrCircuitOpen].  The clock, the
    event handler and the operation do not call this breaker, and none of them
    panics. *)
Theorem sequential_refines_spec {W T} (zero : T) o (Now : Call (breaker * W) Z) OnEvent ctx
    (operation : Operation (breaker * W) T) f p w v err p' w' :
  1 ≤ HalfOpenMaxConcurrent o → halfOpenInFlight p = 0 →
  foreign Now → (∀ e, foreign (emitEvent ctx OnEvent e)) →
  foreign (runOperation zero (Some ctx) operation) →
  CircuitBreaker_Apply zero o Now OnEvent operation = Some f →
  f ctx (p, w) = ((v, err), (p', w')) →
  halfOpenInFlight p' = 0 ∧
  let t1 := (Now (p, w)).1 in
  let admitted := (before o Now OnEvent ctx (p, w)).2 in
  let completed := (runOperation zero (Some ctx) operation admitted).2 in
  ((runOperation zero (Some ctx) operation admitted).1 = (v, err) ∧
     specCall o t1 (Now completed).1 (callFailed o err) (abstracts p) = (abstracts p', true)) ∨
  ((∀ t2 failed, specCall o t1 t2 failed (abstracts p) = (abstracts p', false)) ∧
     v = zero ∧ err = Some (rejection o CircuitStateOpen)).
Proof.
  intros Hmax Hzero Hn He Hop [= <-]. unfold mbind, call_bind, mret, call_ret.
  destruct (before_run o Now OnEvent ctx p w Hn He) as [w1 ->]. cbv zeta.
  set (t1 := (Now (p, w)).1).
  pose proof (λ t2 failed, sequentialCall_refines o p t1 t2 failed Hmax Hzero) as Href.
  unfold sequentialCall in Href.
  destruct (beforeCall o t1 p) as [[p1 [c|e]] ev] eqn:Hb; cbn [fst snd].
  - pose proof (Hop (p1, w1)) as Hf.
    destruct (runOperation zero (Some ctx) operation (p1, w1)) as [[v0 e0] [p2 w2]] eqn:Hrun.
    simpl in Hf. subst p2.
    destruct (after_run o Now OnEvent ctx c (callFailed o e0) p1 w2 Hn He) as [w3 Ha].
    cbn [snd]. rewrite Ha. intros [= <- <- <- <-].
    destruct (Href (Now (p1, w2)).1 (callFailed o e0)) as [Hs Hz]. split; [done|]. left.
    done.
  - intros [= <- <- <- <-]. destruct (Href 0 false) as [_ Hz]. split; [done|]. right.
    split_and!; [intros t2 failed; apply Href|done|f_equal; exact (idle_rejection _ _ _ _ _ _ Hmax Hzero Hb)].
Qed.

(** While the open interval lasts nothing is admitted: from the moment
    the breaker opens at [t], every [beforeCall] earlier than
    [t + OpenTimeout] is rejected with [ErrCircuitOpen] and changes nothing. *)
Lemma open_rejects o p now :
  state p = CircuitStateOpen → now < openedAt p + OpenTimeout o →
  ∃ e ev, beforeCall o now p = (p, Fail e, Some ev) ∧
    errors_Is e "resilience.ErrCircuitOpen" = true ∧ Kind ev = EventCircuitRejected.
Proof.
  intros Hs Hnow. unfold beforeCall. rewrite decide_True by done.
  replace (OpenTimeout o <=? now - openedAt p) with false by (symmetry; apply Z.leb_gt; lia).
  rewrite Hs. do 2 eexists. split_and!; [done|done|done].
Qed.

(** A probe that outlives its half-open period closes an open breaker:
    with two slots, one probe fails and opens the breaker, then the success of
    the other one closes it at once, before the open interval is over. *)
Theorem stale_probe_closes_open_breaker :
  let o := mkCBOptions "cb" 1 1 100 2 (Some defaultFailurePredicate) in
  ∃ s1 s2, rtc (step o) (mkSystem (mkBreaker CircuitStateClosed 0 0 0 0) []) s1 ∧
    state (fields s1) = CircuitStateOpen ∧ openedAt (fields s1) = 102 ∧
    afterCall o 103 CircuitStateHalfOpen false (fields s1) = s2 ∧
    running s1 = [CircuitStateHalfOpen] ∧ state s2.1 = CircuitStateClosed.
Proof.
  intros o.
  exists (mkSystem (mkBreaker CircuitStateOpen 0 0 102 0) [CircuitStateHalfOpen]). eexists.
  split_and!; [|done..].
  eapply rtc_l; [by eapply (StepAdmit o 0)|].
  eapply rtc_l; [by eapply (StepFinish o 1 _ [] CircuitStateClosed [] true)|].
  eapply rtc_l; [by eapply (StepAdmit o 101)|].
  eapply rtc_l; [by eapply (StepAdmit o 101)|].
  eapply rtc_l; [by eapply (StepFinish o 102 _ [] CircuitStateHalfOpen _ true)|].
  done.
Qed.

(** More probes than [HalfOpenMaxConcurrent] can run at once: with one
    slot, a probe of an earlier half-open period that finishes gives back a
    slot it does not hold, and two later probes run together. *)
Theorem stale_probe_frees_foreign_slot :
  let o := mkCBOptions "cb" 1 2 100 1 (Some defaultFailurePredicate) in
  ∃ s, rtc (step o) (mkSystem (mkBreaker CircuitStateClosed 0 0 0 0) []) s ∧
    state (fields s) = CircuitStateHalfOpen ∧
    running s = [CircuitStateHalfOpen; CircuitStateHalfOpen] ∧
    openedAt (fields s) = 102.
Proof.
  intros o. exists (mkSystem (mkBreaker CircuitStateHalfOpen 0 1 102 1)
    [CircuitStateHalfOpen; CircuitStateHalfOpen]).
  split_and!; [|done..].
  (* two calls admitted while closed; the first fails and opens the breaker *)
  eapply rtc_l; [by eapply (StepAdmit o 0)|].
  eapply rtc_l; [by eapply (StepAdmit o 0)|].
  eapply rtc_l; [by eapply (StepFinish o 1 _ [] CircuitStateClosed _ true)|].
  (* probe A; the second early call fails and opens the breaker again *)
  eapply rtc_l; [by eapply (StepAdmit o 101)|].
  eapply rtc_l; [by eapply (StepFinish o 102 _ [CircuitStateHalfOpen] CircuitStateClosed [] true)|].
  (* probe B; A succeeds and frees B's slot; probe C *)
  eapply rtc_l; [by eapply (StepAdmit o 202)|].
  eapply rtc_l; [by eapply (StepFinish o 203 _ [CircuitStateHalfOpen] CircuitStateHalfOpen [] false)|].
  eapply rtc_l; [by eapply (StepAdmit o 204)|].
  done.
Qed.

(** ** Witnesses *)

Definition demoOptions : CircuitBreakerOptions := mkCBOptions "cb" 1 0 100 0 None.
Definition demoBreaker : CircuitBreakerOptions :=
  mkCBOptions "cb" 1 1 100 1 (Some defaultFailurePredicate).

Lemma breaker_invariant_witness :
  inv demoBreaker (mkBreaker CircuitStateOpen 0 0 7 0).
Proof.
  apply (breaker_invariant demoOptions demoBreaker (mkBreaker CircuitStateClosed 0 0 0 0)
    (mkSystem (mkBreaker CircuitStateOpen 0 0 7 0) [])); [reflexivity|].
  eapply rtc_l; [eapply (StepAdmit demoBreaker 0); reflexivity|].
  eapply rtc_l; [eapply (StepFinish demoBreaker 7 _ [] CircuitStateClosed [] true); reflexivity|].
  apply rtc_refl.
Defined.

(** The world is a clock that every reading advances by one, and the operation
    takes 50 and fails: the probe is admitted at 200, and the breaker opens
    again at 251, the reading after the operation. *)
Definition demoClock : Call (breaker * Z) Z := λ σ, (σ.2, (σ.1, σ.2 + 1)).
Definition demoFailure : error := Sentinel "failure".
Definition demoProbe : Operation (breaker * Z) Z := Some (λ _ σ, ((0, Some demoFailure), (σ.1, σ.2 + 50))).
Definition demoOpened : breaker := mkBreaker CircuitStateOpen 0 0 7 0.

Lemma sequential_refines_spec_witness :
  ∃ f, CircuitBreaker_Apply 0 demoBreaker demoClock None demoProbe = Some f ∧
    f Background (demoOpened, 200) = ((0, Some demoFailure), (mkBreaker CircuitStateOpen 0 0 251 0, 252)) ∧
    specCall demoBreaker 200 251 true (Opened 7) = (Opened 251, true).
Proof.
  eexists. split; [reflexivity|]. split; [reflexivity|].
  assert (∀ f, CircuitBreaker_Apply 0 demoBreaker demoClock None demoProbe = Some f →
    f Background (demoOpened, 200) = ((0, Some demoFailure), (mkBreaker CircuitStateOpen 0 0 251 0, 252)) →
    specCall demoBreaker 200 251 true (Opened 7) = (Opened 251, true)) as Hspec.
  { intros f Hf Hrun.
    destruct (sequential_refines_spec 0 demoBreaker demoClock None Background demoProbe f demoOpened 200 0
      (Some demoFailure) (mkBreaker CircuitStateOpen 0 0 251 0) 252 ltac:(simpl; lia) eq_refl (λ σ, eq_refl)
      (λ e σ, eq_refl) (λ σ, eq_refl) Hf Hrun) as [_ [[_ H]|(_ & _ & H)]]; [exact H|discriminate H]. }
  eapply Hspec; reflexivity.
Defined.
