(* ===== verification/Bulkhead.v ===== *)
(** * resilience: the bulkhead

    Models [src/resilience/bulkhead.go].  The permit channel is its length.
    The calls of [Apply] are goroutines: each one is a program counter, and
    every observation of the context, channel operation and event emission is
    a step of its own, so that the [InFlight] of an event is the length of the
    channel when the event is built.  The operation and the handler of an event
    may panic. *)

From S2P Require Import Prelude GoError Resilience.

Local Open Scope Z_scope.

Record BulkheadOptions := mkBulkheadOptions {
  b_Name : string; MaxConcurrent : Z; Wait : bool
}.

(** [NewBulkhead]: the options and the permits in use. *)
Definition NewBulkhead (options : BulkheadOptions) : result (BulkheadOptions * Z) :=
  if MaxConcurrent options <=? 0 then Fail (Errorf "max concurrent must be positive" [])
  else Ok (options, 0).

(** [InFlight] *)
Definition Bulkhead_InFlight (permits : Z) : Z := permits.

(** The events of the bulkhead. *)
Definition acceptedEvent (o : BulkheadOptions) (permits : Z) : Event :=
  mkEvent (b_Name o) "bulkhead" EventBulkheadAccepted EventCategoryAdmission 0 0 0 None
    ErrorCategoryNone "" "" (Bulkhead_InFlight permits).
Definition rejectedEvent (o : BulkheadOptions) (permits : Z) : Event :=
  let rejection := BulkheadRejectedError (b_Name o) in
  mkEvent (b_Name o) "bulkhead" EventBulkheadRejected EventCategoryRejection 0 0 0 (Some rejection)
    (categorizeError (Some rejection)) "" "" (Bulkhead_InFlight permits).
Definition successEvent (o : BulkheadOptions) (permits : Z) : Event :=
  mkEvent (b_Name o) "bulkhead" EventSuccess EventCategorySuccess 0 0 0 None ErrorCategoryNone
    "" "" (Bulkhead_InFlight permits).

(** A branch that a [select] of [acquire] takes. *)
Inductive branch : Type :=
| Sent (permits : Z)
| CtxDone (err : error)
| Default.

(** The branches that are ready in the [select] of [acquire], for the permits
    in use and what [ctx.Done()] answers; the [select] blocks when there is
    none. *)
Definition acquire (o : BulkheadOptions) (doneErr : option error) (permits : Z) : list branch :=
  let send := if permits <? MaxConcurrent o then [Sent (permits + 1)] else [] in
  if Wait o then send ++ match doneErr with Some e => [CtxDone e] | None => [] end
  else match send with [] => [Default] | _ => send end.

(** [release]: a receive on a non-empty channel; it would block on an empty one. *)
Definition release (permits : Z) : option Z := if 0 <? permits then Some (permits - 1) else None.

(** How a call of [Apply] ends: it returns the error, or panics with the
    operation or the event handler. *)
Inductive exit : Type :=
| Return (err : option error)
| Panic.

(** A goroutine in [Apply]: before and inside [acquire], at one of its two
    events, inside the operation, at the success event, at the deferred
    [release], and finished.  [Abandoned]: the handler of the accepted event
    panicked inside [acquire], before [Apply] could defer the release. *)
Inductive caller : Type :=
| Entering
| Selecting
| Accepting
| Rejecting
| Holding
| Succeeding
| Releasing (out : exit)
| Finished (out : exit)
| Abandoned.

Record pool := mkPool { permits : Z; callers : list caller; events : list Event }.

Definition move (s : pool) (i : nat) (c : caller) (n : Z) (evs : list Event) : pool :=
  mkPool n (<[i := c]> (callers s)) (events s ++ evs).

(** [panicked]: the handler of the event panics. *)
Inductive bstep (o : BulkheadOptions) (s : pool) (i : nat) : pool → Prop :=
| BEnter (entryErr : option error) :
    callers s !! i = Some Entering →
    bstep o s i (move s i (match entryErr with Some e => Finished (Return (Some e)) | None => Selecting end)
                   (permits s) [])
| BSend doneErr n :
    callers s !! i = Some Selecting → Sent n ∈ acquire o doneErr (permits s) →
    bstep o s i (move s i Accepting n [])
| BCancel doneErr e :
    callers s !! i = Some Selecting → CtxDone e ∈ acquire o doneErr (permits s) →
    bstep o s i (move s i (Finished (Return (Some e))) (permits s) [])
| BDefault doneErr :
    callers s !! i = Some Selecting → Default ∈ acquire o doneErr (permits s) →
    bstep o s i (move s i Rejecting (permits s) [])
| BAccept (panicked : bool) :
    callers s !! i = Some Accepting →
    bstep o s i (move s i (if panicked then Abandoned else Holding) (permits s) [acceptedEvent o (permits s)])
| BReject (panicked : bool) :
    callers s !! i = Some Rejecting →
    bstep o s i (move s i (Finished (if panicked then Panic else Return (Some (BulkheadRejectedError (b_Name o)))))
                   (permits s) [rejectedEvent o (permits s)])
| BOperation (out : exit) :
    callers s !! i = Some Holding →
    bstep o s i (move s i (match out with Return None => Succeeding | _ => Releasing out end)
                   (permits s) [])
| BSuccess (panicked : bool) :
    callers s !! i = Some Succeeding →
    bstep o s i (move s i (Releasing (if panicked then Panic else Return None)) (permits s)
                   [successEvent o (permits s)])
| BRelease out n :
    callers s !! i = Some (Releasing out) → release (permits s) = Some n →
    bstep o s i (move s i (Finished out) n []).

(** A step of some goroutine. *)
Definition pstep (o : BulkheadOptions) (s s' : pool) : Prop := ∃ i, bstep o s i s'.

(** ** Invariant *)

(** The goroutine has a permit. *)
Definition holds (c : caller) : bool :=
  match c with Accepting | Holding | Succeeding | Releasing _ | Abandoned => true | _ => false end.
Definition abandoned (c : caller) : bool := match c with Abandoned => true | _ => false end.
Definition inOperation (c : caller) : bool := match c with Holding => true | _ => false end.

Definition poolInv (o : BulkheadOptions) (s : pool) : Prop :=
  permits s = Z.of_nat (countb holds (callers s)) ∧ permits s ≤ MaxConcurrent o.

Lemma acquire_Sent o e n n' : Sent n' ∈ acquire o e n → n' = n + 1 ∧ n < MaxConcurrent o.
Proof.
  unfold acquire. destruct (n <? MaxConcurrent o) eqn:E, (Wait o), e as [e|]; bools; simpl;
    set_unfold; intros H; destruct_or?; simplify_eq; done.
Qed.

Lemma poolInv_step o s s' : poolInv o s → pstep o s s' → poolInv o s'.
Proof.
  intros [Hp Hmax] [i Hstep]. unfold poolInv.
  destruct Hstep as [[?|] Hi|e n Hi Ha%acquire_Sent|? ? Hi _|? Hi _|[] Hi|[] Hi|[[?|]|] Hi|[] Hi|out n Hi Hr];
    simpl; rewrite (countb_insert _ _ _ _ _ Hi); simpl; try lia.
  unfold release in Hr. destruct (0 <? permits s) eqn:E; simplify_eq. bools. lia.
Qed.

(** ** Properties *)

(** C34. The bulkhead bounds concurrency, and only a panic of the event
    handler can leak a permit: in every state that any number of callers can
    reach, with operations and event handlers that may panic, at most
    [MaxConcurrent] callers are inside the operation; the permits in use are
    exactly the callers between their [acquire] and their [release] and those
    whose handler panicked on the accepted event, which never release; a
    caller that is to release always can, whether it returned or panicked; and
    once every call has ended, the permits in use are the calls whose handler
    panicked on the accepted event, so none when no handler did. *)
Theorem bulkhead_bounds_concurrency options o n cs s :
  NewBulkhead options = Ok (o, n) → Forall (eq Entering) cs →
  rtc (pstep o) (mkPool n cs []) s →
  Z.of_nat (countb inOperation (callers s)) ≤ MaxConcurrent o ∧
  permits s = Z.of_nat (countb holds (callers s)) ∧ permits s ≤ MaxConcurrent o ∧
  (∀ i out, callers s !! i = Some (Releasing out) → ∃ s', bstep o s i s' ∧
     callers s' !! i = Some (Finished out) ∧ permits s' = permits s - 1) ∧
  (Forall (λ c, c = Abandoned ∨ ∃ out, c = Finished out) (callers s) →
     permits s = Z.of_nat (countb abandoned (callers s))).
Proof.
  unfold NewBulkhead. destruct (MaxConcurrent options <=? 0) eqn:E; [done|]. bools.
  intros [= <- <-] Hcs Hreach.
  assert (poolInv options s) as [Hp Hmax].
  { eapply rtc_invariant; [by apply poolInv_step|done|]. split; simpl; [|lia].
    rewrite countb_none; [done|]. by eapply Forall_impl; [done|]; intros ? <-. }
  split_and!; [|done|done| |].
  - pose proof (countb_le inOperation holds (callers s)). rewrite Hp in Hmax.
    enough (countb inOperation (callers s) ≤ countb holds (callers s))%nat by lia.
    apply H. by intros [].
  - intros i out Hi. exists (move s i (Finished out) (permits s - 1) []). split.
    + apply (BRelease _ _ _ out); [done|]. unfold release.
      pose proof (countb_pos holds _ _ _ Hi eq_refl).
      by rewrite (proj2 (Z.ltb_lt 0 (permits s))) by lia.
    + simpl. split; [|done]. apply list_lookup_insert_eq. by eapply lookup_lt_Some.
  - intros Hdone. rewrite Hp. f_equal. clear -Hdone. induction Hdone as [|c cs Hc _ IH]; [done|].
    unfold countb in *. rewrite !list.filter_cons. by destruct Hc as [->|[? ->]]; simpl; rewrite IH.
Qed.

(** The handler of the accepted event runs after the permit is taken and before
    [Apply] defers its release: when it panics the permit is lost, and a
    bulkhead of one permit rejects every later call. *)
Theorem accept_panic_leaks_permit name doneErr :
  let o := mkBulkheadOptions name 1 false in
  ∃ s, rtc (pstep o) (mkPool 0 [Entering] []) s ∧ callers s = [Abandoned] ∧ permits s = 1 ∧
    acquire o doneErr (permits s) = [Default].
Proof.
  intros o. exists (mkPool 1 [Abandoned] [acceptedEvent o 1]). split; [|done].
  eapply rtc_l; [exists 0%nat; by apply (BEnter _ _ _ None)|].
  eapply rtc_l; [exists 0%nat; apply (BSend _ _ _ None 1); [done|left]|].
  eapply rtc_l; [exists 0%nat; by apply (BAccept _ _ _ true)|]. apply rtc_refl.
Qed.

(** Without [Wait] the bulkhead never blocks a caller and rejects only when it
    is full: the [select] of [acquire] has exactly one ready branch, the send
    when a permit is free and the default otherwise.  With [Wait] a caller is
    never rejected, and gets a permit when one is free. *)
Lemma bulkhead_admission o doneErr n :
  (Wait o = false →
     acquire o doneErr n = [if n <? MaxConcurrent o then Sent (n + 1) else Default]) ∧
  (Wait o = true → Default ∉ acquire o doneErr n ∧
     (n < MaxConcurrent o → Sent (n + 1) ∈ acquire o doneErr n)).
Proof.
  unfold acquire. split; intros ->.
  - by destruct (n <? MaxConcurrent o).
  - split; [|intros ->%Z.ltb_lt; left].
    destruct (n <? MaxConcurrent o), doneErr; set_solver.
Qed.

(** ** Witnesses *)

Definition demoBulkhead : BulkheadOptions := mkBulkheadOptions "b" 2 false.

(** The handler of the first caller panicked, the operation of the second one
    panicked and released its permit, and the third one was rejected while both
    permits were in use. *)
Definition demoPool : pool :=
  mkPool 1 [Abandoned; Finished Panic; Finished (Return (Some (BulkheadRejectedError "b")))]
    [acceptedEvent demoBulkhead 1; acceptedEvent demoBulkhead 2; rejectedEvent demoBulkhead 2].

Lemma bulkhead_bounds_concurrency_witness :
  Z.of_nat (countb inOperation (callers demoPool)) ≤ 2 ∧ permits demoPool = Z.of_nat (countb abandoned (callers demoPool)).
Proof.
  destruct (bulkhead_bounds_concurrency demoBulkhead demoBulkhead 0 [Entering; Entering; Entering] demoPool)
    as (H1 & _ & _ & _ & H2).
  - reflexivity.
  - repeat constructor.
  - eapply rtc_l; [exists 0%nat; apply (BEnter _ _ _ None); reflexivity|].
    eapply rtc_l; [exists 1%nat; apply (BEnter _ _ _ None); reflexivity|].
    eapply rtc_l; [exists 2%nat; apply (BEnter _ _ _ None); reflexivity|].
    eapply rtc_l; [exists 0%nat; apply (BSend _ _ _ None 1); [reflexivity|left]|].
    eapply rtc_l; [exists 0%nat; apply (BAccept _ _ _ true); reflexivity|].
    eapply rtc_l; [exists 1%nat; apply (BSend _ _ _ None 2); [reflexivity|left]|].
    eapply rtc_l; [exists 1%nat; apply (BAccept _ _ _ false); reflexivity|].
    eapply rtc_l; [exists 2%nat; apply (BDefault _ _ _ None); [reflexivity|left]|].
    eapply rtc_l; [exists 2%nat; apply (BReject _ _ _ false); reflexivity|].
    eapply rtc_l; [exists 1%nat; apply (BOperation _ _ _ Panic); reflexivity|].
    eapply rtc_l; [exists 1%nat; eapply (BRelease _ _ _ Panic 1); reflexivity|].
    apply rtc_refl.
  - split; [exact H1|]. apply H2. repeat apply Forall_cons_2; [by left|right; by eexists..|apply Forall_nil_2].
Defined.
