(* ===== verification/Snowflake.v ===== *)
(** * id: Snowflake generator

    Models [src/id/snowflake.go] and the errors of [src/id/errors.go] it uses.
    A [time.Time] is its instant in nanoseconds since the Unix epoch; the
    configured [now] is an argument of each call.  A call holds the mutex from
    start to end, so calls from any goroutines are a sequence. *)

From stdpp Require Import pretty.
From S2P Require Import Prelude GoError.

Local Open Scope Z_scope.

(** ** Errors *)

Definition errorsNew (message : string) : error := Typed "id.simpleError" [FStr message] [] None.
Definition ErrInvalidOptions : error := Sentinel "id.ErrInvalidOptions".
Definition OptionError (option : string) (err : error) : error :=
  Typed "id.OptionError" [FStr option] ["id.ErrInvalidOptions"] (Some err).
Definition ParseError (kind value : string) (err : error) : error :=
  Typed "id.ParseError" [FStr kind; FStr value] ["id.ErrInvalidID"] (Some err).
Definition EntropyError (kind : string) (err : error) : error :=
  Typed "id.EntropyError" [FStr kind] ["id.ErrEntropy"] (Some err).
Definition ClockRollbackError (last now : Z) : error :=
  Typed "id.ClockRollbackError" [FInt last; FInt now] ["id.ErrClockRollback"] None.
Definition SequenceExhaustedError (millis : Z) : error :=
  Typed "id.SequenceExhaustedError" [FInt millis] ["id.ErrSequenceExhausted"] None.

(** ** Constants *)

Definition snowflakeMachineBits : Z := 10.
Definition snowflakeSequenceBits : Z := 12.
Definition snowflakeMaxMachineID : Z := 2 ^ snowflakeMachineBits - 1.
Definition snowflakeMaxSequence : Z := 2 ^ snowflakeSequenceBits - 1.
Definition snowflakeMachineShift : Z := snowflakeSequenceBits.
Definition snowflakeTimeShift : Z := snowflakeMachineBits + snowflakeSequenceBits.
Definition snowflakeMaxTimestamp : Z := 2 ^ (63 - snowflakeTimeShift) - 1.

Definition Millisecond : Z := 10 ^ 6.
(** 2020-01-01T00:00:00Z and the zero time, 0001-01-01T00:00:00Z. *)
Definition defaultSnowflakeEpoch : Z := 1577836800 * 10 ^ 9.
Definition zeroTime : Z := - 62135596800 * 10 ^ 9.

(** [time.Time.Sub]: the difference saturates at the bounds of a duration. *)
Definition timeSub (t u : Z) : Z := Z.max (- 2 ^ 63) (Z.min maxInt64 (t - u)).

(** ** Configuration *)

(** [snowflakeConfig], less the clock. *)
Record snowflakeConfig := mkConfig { epoch : Z }.
Definition SnowflakeOption : Type := snowflakeConfig → result snowflakeConfig.

Definition WithSnowflakeEpoch (e : Z) : SnowflakeOption := λ c,
  if e =? zeroTime then Fail (OptionError "epoch" (errorsNew "must not be zero"))
  else Ok (mkConfig e).

Fixpoint applyOptions (config : snowflakeConfig) (options : list (option SnowflakeOption))
    : result snowflakeConfig :=
  match options with
  | [] => Ok config
  | None :: _ => Fail (OptionError "option" (errorsNew "must not be nil"))
  | Some option :: rest =>
      match option config with
      | Fail e => Fail e
      | Ok config' => applyOptions config' rest
      end
  end.

Definition newSnowflakeConfig (options : list (option SnowflakeOption)) : result snowflakeConfig :=
  applyOptions (mkConfig defaultSnowflakeEpoch) options.

(** ** Generator *)

Record snowflakeGenerator := mkGenerator {
  machineID : Z;
  config : snowflakeConfig;
  lastMs : Z;
  sequence : Z
}.

Definition NewSnowflakeGenerator (machine : Z) (options : list (option SnowflakeOption))
    : result snowflakeGenerator :=
  if (machine <? 0) || (snowflakeMaxMachineID <? machine)
  then Fail (OptionError "machineID" ErrInvalidOptions)
  else match newSnowflakeConfig options with
       | Fail e => Fail e
       | Ok c => Ok (mkGenerator machine c (-1) 0)
       end.

(** [nowMs] of [NextInt64]: Go's integer division truncates. *)
Definition elapsedMs (g : snowflakeGenerator) (now : Z) : Z :=
  Z.quot (timeSub now (epoch (config g))) Millisecond.

(** [NextInt64] at time [now]. *)
Definition NextInt64 (g : snowflakeGenerator) (now : Z) : result Z * snowflakeGenerator :=
  let nowMs := elapsedMs g now in
  if nowMs <? 0 then (Fail (OptionError "time" (errorsNew "before epoch")), g)
  else if snowflakeMaxTimestamp <? nowMs
  then (Fail (OptionError "time" (errorsNew "outside 63-bit range")), g)
  else if nowMs <? lastMs g then (Fail (ClockRollbackError (lastMs g) nowMs), g)
  else if (nowMs =? lastMs g) && (sequence g =? snowflakeMaxSequence)
  then (Fail (SequenceExhaustedError nowMs), g)
  else
    let g' := if nowMs =? lastMs g
              then mkGenerator (machineID g) (config g) (lastMs g) (sequence g + 1)
              else mkGenerator (machineID g) (config g) nowMs 0 in
    (Ok (Z.lor (Z.lor (Z.shiftl nowMs snowflakeTimeShift)
                      (Z.shiftl (machineID g) snowflakeMachineShift)) (sequence g')), g').

(** A sequence of calls, one per reading of the clock. *)
Fixpoint generate (g : snowflakeGenerator) (clock : list Z) : list (result Z) * snowflakeGenerator :=
  match clock with
  | [] => ([], g)
  | t :: rest =>
      let '(r, g1) := NextInt64 g t in
      let '(rs, g2) := generate g1 rest in (r :: rs, g2)
  end.

(** ** Decoding *)

Record SnowflakeParts := mkParts { Time : Z; MachineID : Z; Sequence : Z }.

Definition DecodeSnowflake (value : Z) (options : list (option SnowflakeOption))
    : result SnowflakeParts :=
  if value <? 0
  then Fail (ParseError "snowflake" (pretty value) (errorsNew "must be non-negative"))
  else match newSnowflakeConfig options with
  | Fail e => Fail e
  | Ok c =>
      let timestamp := Z.shiftr value snowflakeTimeShift in
      Ok (mkParts (epoch c + wrap_i64 (timestamp * Millisecond))
            (Z.land (Z.shiftr value snowflakeMachineShift) snowflakeMaxMachineID)
            (Z.land value snowflakeMaxSequence))
  end.

(** ** Invariant *)

Definition generatorInv (g : snowflakeGenerator) : Prop :=
  0 ≤ machineID g ≤ snowflakeMaxMachineID ∧ -1 ≤ lastMs g ≤ snowflakeMaxTimestamp ∧
  0 ≤ sequence g ≤ snowflakeMaxSequence.

(** The last identifier of a generator; negative when there is none. *)
Definition lastID (g : snowflakeGenerator) : Z :=
  lastMs g * 2 ^ 22 + machineID g * 2 ^ 12 + sequence g.

Lemma pack_id ms m seq :
  0 ≤ m ≤ snowflakeMaxMachineID → 0 ≤ seq ≤ snowflakeMaxSequence →
  Z.lor (Z.lor (Z.shiftl ms snowflakeTimeShift) (Z.shiftl m snowflakeMachineShift)) seq =
  ms * 2 ^ 22 + m * 2 ^ 12 + seq.
Proof.
  unfold snowflakeMaxMachineID, snowflakeMaxSequence, snowflakeTimeShift, snowflakeMachineShift,
    snowflakeMachineBits, snowflakeSequenceBits. intros Hm Hs.
  rewrite (Z.shiftl_mul_pow2 m) by lia.
  rewrite (lor_shiftl_add ms (m * 2 ^ 12)) by lia.
  replace (ms * 2 ^ (10 + 12) + m * 2 ^ 12) with (Z.shiftl (ms * 2 ^ 10 + m) 12)
    by (rewrite Z.shiftl_mul_pow2 by lia; lia).
  rewrite lor_shiftl_add by lia. lia.
Qed.

Lemma NextInt64_spec g now r g' :
  generatorInv g → NextInt64 g now = (r, g') →
  generatorInv g' ∧ machineID g' = machineID g ∧ config g' = config g ∧
  match r with
  | Ok v => v = lastID g' ∧ lastID g < v ∧ 0 ≤ lastMs g' ∧ lastMs g' = elapsedMs g now
  | Fail _ => g' = g
  end.
Proof.
  intros (Hm & Hl & Hs). unfold NextInt64.
  destruct (elapsedMs g now <? 0) eqn:E1; [by intros [= <- <-]|].
  destruct (snowflakeMaxTimestamp <? elapsedMs g now) eqn:E2; [by intros [= <- <-]|].
  destruct (elapsedMs g now <? lastMs g) eqn:E3; [by intros [= <- <-]|].
  destruct (elapsedMs g now =? lastMs g) eqn:E4; simpl.
  - destruct (sequence g =? snowflakeMaxSequence) eqn:E5; [by intros [= <- <-]|]. bools.
    intros [= <- <-]. simpl. rewrite pack_id by lia. unfold lastID, generatorInv. simpl.
    split_and!; try done; lia.
  - bools. intros [= <- <-]. simpl.
    rewrite pack_id by (unfold snowflakeMaxSequence, snowflakeSequenceBits; lia).
    unfold lastID, generatorInv, snowflakeMaxSequence, snowflakeMaxMachineID, snowflakeSequenceBits,
      snowflakeMachineBits in *. simpl. split_and!; try done; lia.
Qed.

Lemma NewSnowflakeGenerator_ok m options g :
  NewSnowflakeGenerator m options = Ok g → generatorInv g ∧ machineID g = m ∧ lastMs g = -1.
Proof.
  unfold NewSnowflakeGenerator. destruct (_ || _) eqn:E; [done|]. bools.
  destruct (newSnowflakeConfig options); [|done]. intros [= <-].
  unfold generatorInv, snowflakeMaxTimestamp, snowflakeMaxSequence, snowflakeTimeShift,
    snowflakeSequenceBits, snowflakeMachineBits. simpl. lia.
Qed.

(** The identifiers among the answers of a sequence of calls. *)
Definition ids (rs : list (result Z)) : list Z :=
  omap (λ r, match r with Ok v => Some v | Fail _ => None end) rs.

Lemma lastID_range g : generatorInv g → 0 ≤ lastMs g → 0 ≤ lastID g < 2 ^ 63.
Proof.
  unfold generatorInv, lastID, snowflakeMaxTimestamp, snowflakeMaxSequence, snowflakeMaxMachineID,
    snowflakeTimeShift, snowflakeSequenceBits, snowflakeMachineBits. simpl. lia.
Qed.

Lemma generate_spec clock : ∀ g rs g',
  generatorInv g → generate g clock = (rs, g') →
  generatorInv g' ∧ machineID g' = machineID g ∧
  Forall (λ v, lastID g < v ∧ 0 ≤ v < 2 ^ 63 ∧ (v / 2 ^ 12) mod 2 ^ 10 = machineID g) (ids rs) ∧
  StronglySorted Z.lt (ids rs).
Proof.
  induction clock as [|t clock IH]; intros g rs g' Hg; simpl.
  { intros [= <- <-]. split_and!; try done. constructor. }
  destruct (NextInt64 g t) as [r g1] eqn:E1. destruct (generate g1 clock) as [rs2 g2] eqn:E2.
  intros [= <- <-]. apply NextInt64_spec in E1 as (Hg1 & Hm1 & _ & Hr); [|done].
  apply IH in E2 as (Hg2 & Hm2 & Hall & Hsort); [|done].
  split_and!; [done|congruence| |]; destruct r as [v|e]; unfold ids; csimpl; fold (ids rs2).
  - destruct Hr as (-> & Hlt & Hpos & _). constructor.
    + split; [done|]. split; [by apply lastID_range|].
      pose proof Hg1 as (Hb & _ & Hsq). unfold lastID, snowflakeMaxMachineID, snowflakeMachineBits,
        snowflakeMaxSequence, snowflakeSequenceBits in *.
      replace (lastMs g1 * 2 ^ 22 + machineID g1 * 2 ^ 12 + sequence g1)
        with ((lastMs g1 * 2 ^ 10 + machineID g1) * 2 ^ 12 + sequence g1) by lia.
      rewrite Z.div_add_l, (Z.div_small (sequence g1)), Z.add_0_r by lia.
      rewrite Z.add_comm, Z.mod_add, Z.mod_small by lia. done.
    + eapply Forall_impl; [done|]. intros x (? & ? & ?). split_and!; lia.
  - subst g1. eapply Forall_impl; [done|]. intros x (? & ? & ?). split_and!; lia.
  - destruct Hr as (-> & _). constructor; [done|]. eapply Forall_impl; [done|]. intros x (? & _). lia.
  - done.
Qed.

(** ** Properties *)

(** C30. Whatever the clock does, the identifiers a Snowflake generator issues
    are strictly increasing, hence unique, fit in 63 bits and carry its
    machine, so generators of different machines never issue the same one. *)
Theorem snowflake_ids_unique m1 m2 opts1 opts2 g1 g2 clock1 clock2 :
  NewSnowflakeGenerator m1 opts1 = Ok g1 → NewSnowflakeGenerator m2 opts2 = Ok g2 →
  let ids1 := ids (generate g1 clock1).1 in
  let ids2 := ids (generate g2 clock2).1 in
  StronglySorted Z.lt ids1 ∧ Forall (λ v, 0 ≤ v < 2 ^ 63) ids1 ∧
  (m1 ≠ m2 → ∀ v, v ∈ ids1 → v ∉ ids2).
Proof.
  intros (Hg1 & Hm1 & _)%NewSnowflakeGenerator_ok (Hg2 & Hm2 & _)%NewSnowflakeGenerator_ok.
  destruct (generate g1 clock1) as [rs1 g1'] eqn:E1, (generate g2 clock2) as [rs2 g2'] eqn:E2. simpl.
  apply generate_spec in E1 as (_ & _ & Hall1 & Hs1); [|done].
  apply generate_spec in E2 as (_ & _ & Hall2 & _); [|done].
  split_and!; [done|eapply Forall_impl; [done|]; naive_solver|].
  intros Hne v Hv1 Hv2. rewrite Forall_forall in Hall1. rewrite Forall_forall in Hall2.
  apply Hall1 in Hv1 as (_ & _ & ?). apply Hall2 in Hv2 as (_ & _ & ?). congruence.
Qed.

(** An error leaves the generator as it was, and says why: the time is
    out of range, the clock went back, or the 4096 identifiers of the
    millisecond are used up. *)
Theorem NextInt64_error g now e g' :
  generatorInv g → NextInt64 g now = (Fail e, g') →
  g' = g ∧
  (errors_Is e "id.ErrClockRollback" = true ∧ 0 ≤ elapsedMs g now < lastMs g ∨
   errors_Is e "id.ErrSequenceExhausted" = true ∧ elapsedMs g now = lastMs g ∧ sequence g = 4095 ∨
   errors_Is e "id.ErrInvalidOptions" = true ∧
     (elapsedMs g now < 0 ∨ snowflakeMaxTimestamp < elapsedMs g now)).
Proof.
  intros Hg. unfold NextInt64.
  destruct (elapsedMs g now <? 0) eqn:E1; bools; [intros [= <- <-]; auto 6|].
  destruct (snowflakeMaxTimestamp <? elapsedMs g now) eqn:E2; bools; [intros [= <- <-]; auto 6|].
  destruct (elapsedMs g now <? lastMs g) eqn:E3; bools; [intros [= <- <-]; auto 6|].
  destruct ((elapsedMs g now =? lastMs g) && (sequence g =? snowflakeMaxSequence)) eqn:E4; bools;
    [|done]. intros [= <- <-]. split; [done|]. right. left. done.
Qed.

(** [DecodeSnowflake] with the generator's epoch recovers the machine,
    the sequence number and the millisecond of every identifier. *)
Theorem DecodeSnowflake_NextInt64 options g now v g' :
  generatorInv g → newSnowflakeConfig options = Ok (config g) →
  NextInt64 g now = (Ok v, g') →
  DecodeSnowflake v options =
    Ok (mkParts (epoch (config g) + elapsedMs g now * Millisecond) (machineID g) (sequence g')).
Proof.
  intros Hg Hconf Hnext. apply NextInt64_spec in Hnext as (Hg' & Hm & Hc & -> & _ & Hpos & Hms); [|done].
  unfold DecodeSnowflake. pose proof (lastID_range g' Hg' Hpos) as Hrange.
  replace (lastID g' <? 0) with false by (symmetry; apply Z.ltb_ge; lia). rewrite Hconf.
  destruct Hg' as (Hmb & Hlb & Hsb). rewrite <-Hm, <-Hms.
  unfold lastID, snowflakeMaxTimestamp, snowflakeMaxMachineID, snowflakeMaxSequence, snowflakeTimeShift,
    snowflakeMachineShift, snowflakeSequenceBits, snowflakeMachineBits, Millisecond in *.
  rewrite !land_ones_mod, !shiftr_div by lia.
  replace (lastMs g' * 2 ^ 22 + machineID g' * 2 ^ 12 + sequence g')
    with ((lastMs g' * 2 ^ 10 + machineID g') * 2 ^ 12 + sequence g') by lia.
  rewrite (Z.div_add_l _ (2 ^ 12)), (Z.div_small (sequence g')), Z.add_0_r by lia.
  f_equal. f_equal.
  - rewrite wrap_i64_id.
    + f_equal. f_equal. change (2 ^ (10 + 12)) with (2 ^ 12 * 2 ^ 10).
      rewrite <-Z.div_div, Z.div_add_l, (Z.div_small (sequence g')), Z.add_0_r by lia.
      rewrite Z.div_add_l, Z.div_small, Z.add_0_r by lia. done.
    + change (2 ^ (10 + 12)) with (2 ^ 12 * 2 ^ 10).
      rewrite <-Z.div_div, Z.div_add_l, (Z.div_small (sequence g')), Z.add_0_r by lia.
      rewrite Z.div_add_l, Z.div_small, Z.add_0_r by lia. unfold in_i64. lia.
  - rewrite Z.add_comm, Z.mod_add, Z.mod_small by lia. done.
  - rewrite Z.add_comm, Z.mod_add, Z.mod_small by lia. done.
Qed.

(** ** Witnesses *)

Definition demoGenerator (m : Z) : snowflakeGenerator :=
  mkGenerator m (mkConfig defaultSnowflakeEpoch) (-1) 0.
(** A clock that stands still, advances and goes back. *)
Definition demoClock : list Z := map (λ ms, defaultSnowflakeEpoch + ms * Millisecond) [5; 5; 9; 3].

Lemma snowflake_ids_unique_witness :
  ids (generate (demoGenerator 3) demoClock).1 =
    [5 * 2 ^ 22 + 3 * 2 ^ 12; 5 * 2 ^ 22 + 3 * 2 ^ 12 + 1; 9 * 2 ^ 22 + 3 * 2 ^ 12] ∧
  StronglySorted Z.lt (ids (generate (demoGenerator 3) demoClock).1).
Proof.
  split; [reflexivity|].
  apply (snowflake_ids_unique 3 4 [] [] (demoGenerator 3) (demoGenerator 4) demoClock demoClock);
    reflexivity.
Defined.

Lemma DecodeSnowflake_NextInt64_witness :
  DecodeSnowflake (5 * 2 ^ 22 + 3 * 2 ^ 12) [] =
    Ok (mkParts (defaultSnowflakeEpoch + 5 * Millisecond) 3 0).
Proof.
  apply (DecodeSnowflake_NextInt64 [] (demoGenerator 3) (defaultSnowflakeEpoch + 5 * Millisecond) _
    (mkGenerator 3 (mkConfig defaultSnowflakeEpoch) 5 0)); [|reflexivity|reflexivity].
  unfold generatorInv. vm_compute. repeat split; intros H; discriminate H.
Defined.
