(* ===== verification/Uuid.v ===== *)
(** * id: UUID generators

    Models [src/id/uuid.go].  The random source, the version 4 constructor,
    [String] and [Parse] of github.com/google/uuid are parameters; a UUID is
    its 16 bytes.  [now] answers an instant in nanoseconds since the Unix
    epoch. *)

From S2P Require Import Prelude GoError Snowflake.

Local Open Scope Z_scope.

Definition ErrUnsupportedVersion : error := Sentinel "id.ErrUnsupportedVersion".
Definition uuidVersion4 : Z := 4.
Definition uuidVersion7 : Z := 7.
Definition uuidV7MaxUnixMilli : Z := 2 ^ 48 - 1.

(** [byte(x)] *)
Definition to_byte (x : Z) : Z := x mod 256.

(** [uuidV7Tick] *)
Definition uuidV7Tick (now : Z) : result Z :=
  let milli := now / 10 ^ 6 in
  if milli <? 0 then Fail (OptionError "time" (errorsNew "before Unix epoch"))
  else if uuidV7MaxUnixMilli <? milli
  then Fail (OptionError "time" (errorsNew "outside UUID v7 timestamp range"))
  else
    let fraction := Z.shiftr (Z.rem (now mod 10 ^ 9) (10 ^ 6)) 8 in
    Ok (Z.lor (Z.shiftl milli 12) (Z.land fraction 4095)).

(** The bytes of [nextV7] for [tick], over the random bytes [uuid]. *)
Definition stampV7 (tick : Z) (uuid : list Z) : list Z :=
  let milli := Z.shiftr tick 12 in
  let seq := Z.land tick 4095 in
  <[8%nat := Z.lor (Z.land (default 0 (uuid !! 8%nat)) 63) 128]>
  (<[7%nat := to_byte seq]>
  (<[6%nat := Z.lor 112 (to_byte (Z.shiftr seq 8))]>
  (<[5%nat := to_byte milli]>
  (<[4%nat := to_byte (Z.shiftr milli 8)]>
  (<[3%nat := to_byte (Z.shiftr milli 16)]>
  (<[2%nat := to_byte (Z.shiftr milli 24)]>
  (<[1%nat := to_byte (Z.shiftr milli 32)]>
  (<[0%nat := to_byte (Z.shiftr milli 40)]> uuid)))))))).

Section uuid.
Context {W : Type} (now : Call W Z).
(** [io.ReadFull(reader, uuid[:])], [googleuuid.NewRandomFromReader(reader)],
    [UUID.String] and [googleuuid.Parse]. *)
Context (readFull : Call W (result (list Z))) (newRandom : Call W (result (list Z))).
Context (uuidString : list Z → string) (uuidParse : string → result (list Z)).

Record uuidGenerator := mkUuidGenerator { version : Z; lastV7Tick : Z }.

Definition newUUIDGenerator (v : Z) : uuidGenerator := mkUuidGenerator v (-1).

(** [nextV7] *)
Definition nextV7 (g : uuidGenerator) : Call W (result (list Z) * uuidGenerator) :=
  t ← now;
  match uuidV7Tick t with
  | Fail e => mret (Fail e, g)
  | Ok tick0 =>
      let tick := if tick0 <=? lastV7Tick g then lastV7Tick g + 1 else tick0 in
      if Z.lor (Z.shiftl uuidV7MaxUnixMilli 12) 4095 <? tick
      then mret (Fail (OptionError "time" (errorsNew "outside UUID v7 timestamp range")), g)
      else
        r ← readFull;
        match r with
        | Fail e => mret (Fail e, g)
        | Ok uuid => mret (Ok (stampV7 tick uuid), mkUuidGenerator (version g) tick)
        end
  end.

(** [uuidGenerator.NextString] *)
Definition UUID_NextString (g : uuidGenerator) : Call W (result string * uuidGenerator) :=
  if version g =? uuidVersion4 then
    (r ← newRandom;
     match r with
     | Ok uuid => mret (Ok (uuidString uuid), g)
     | Fail e => mret (if errors_Is e "id.ErrInvalidOptions" then Fail e
                       else Fail (EntropyError "uuid" e), g)
     end)
  else if version g =? uuidVersion7 then
    (r ← nextV7 g;
     match r with
     | (Ok uuid, g') => mret (Ok (uuidString uuid), g')
     | (Fail e, g') => mret (if errors_Is e "id.ErrInvalidOptions" then Fail e
                             else Fail (EntropyError "uuid" e), g')
     end)
  else mret (Fail (OptionError "version" ErrUnsupportedVersion), g).

(** [ParseUUID] *)
Definition ParseUUID (value : string) : result string :=
  match uuidParse value with
  | Fail e => Fail (ParseError "uuid" value e)
  | Ok parsed =>
      let canonical := uuidString parsed in
      if negb (String.eqb value canonical)
      then Fail (ParseError "uuid" value (errorsNew "must be canonical UUID string"))
      else Ok canonical
  end.
End uuid.

(** ** Layout of a version 7 UUID *)

(** The big-endian value of some bytes. *)
Definition be (bytes : list Z) : Z := foldl (λ a b, a * 256 + b) 0 bytes.

Lemma stampV7_shape tick uuid :
  length uuid = 16%nat → 0 ≤ tick < 2 ^ 60 → Forall is_byte uuid →
  ∃ b8, stampV7 tick uuid =
    [to_byte (tick / 2 ^ 12 / 2 ^ 40); to_byte (tick / 2 ^ 12 / 2 ^ 32);
     to_byte (tick / 2 ^ 12 / 2 ^ 24); to_byte (tick / 2 ^ 12 / 2 ^ 16);
     to_byte (tick / 2 ^ 12 / 2 ^ 8); to_byte (tick / 2 ^ 12);
     112 + tick mod 2 ^ 12 / 2 ^ 8; tick mod 2 ^ 12 mod 2 ^ 8; 128 + b8] ++ drop 9 uuid ∧
    0 ≤ b8 < 64.
Proof.
  intros Hlen Ht Hb. do 16 (destruct uuid as [|? uuid]; [done|]). destruct uuid; [|done].
  assert (0 ≤ tick mod 2 ^ 12 < 2 ^ 12) as Hseq by (apply Z.mod_pos_bound; lia).
  unfold stampV7. change 4095 with (2 ^ 12 - 1). rewrite (land_ones_mod tick 12) by lia.
  rewrite !shiftr_div by lia. cbn -[Z.div Z.modulo Z.pow Z.lor Z.land Z.mul Z.add to_byte].
  change 63 with (2 ^ 6 - 1). rewrite (land_ones_mod _ 6) by lia.
  rewrite (Z.lor_comm _ 128). change 128 with (Z.shiftl 2 6) at 1.
  change 112 with (Z.shiftl 7 4) at 1.
  rewrite !lor_shiftl_add; [|lia|apply Z.mod_pos_bound; lia|lia|].
  - eexists. split; [|apply Z.mod_pos_bound; lia]. unfold to_byte.
    rewrite (Z.mod_small (tick mod _ / _)); [done|].
    split; [apply Z.div_pos; lia|apply Z.div_lt_upper_bound; lia].
  - unfold to_byte. rewrite Z.mod_small;
      (split; [apply Z.div_pos; lia|apply Z.div_lt_upper_bound; lia]).
Qed.

(** The first eight bytes are the millisecond, the version and the sequence. *)
Lemma be_stampV7 tick uuid :
  length uuid = 16%nat → 0 ≤ tick < 2 ^ 60 → Forall is_byte uuid →
  be (take 8 (stampV7 tick uuid)) = (tick / 2 ^ 12) * 2 ^ 16 + 7 * 2 ^ 12 + tick mod 2 ^ 12.
Proof.
  intros Hlen Ht Hb. destruct (stampV7_shape tick uuid Hlen Ht Hb) as (b8 & -> & _).
  set (x := tick / 2 ^ 12). set (q := tick mod 2 ^ 12).
  assert (0 ≤ x < 2 ^ 48) as Hx.
  { unfold x. split; [apply Z.div_pos; lia|apply Z.div_lt_upper_bound; lia]. }
  unfold be, to_byte. simpl take. simpl foldl.
  assert (∀ k, 0 ≤ k → x / 2 ^ (k + 8) = x / 2 ^ k / 256) as Hdd.
  { intros k Hk. rewrite Z.pow_add_r, <-Z.div_div by lia. done. }
  pose proof (Hdd 8 ltac:(lia)) as H16. pose proof (Hdd 16 ltac:(lia)) as H24.
  pose proof (Hdd 24 ltac:(lia)) as H32. pose proof (Hdd 32 ltac:(lia)) as H40.
  change (8 + 8) with 16 in H16. change (16 + 8) with 24 in H24.
  change (24 + 8) with 32 in H32. change (32 + 8) with 40 in H40.
  assert (x / 2 ^ 40 < 256) as Hlast by (apply Z.div_lt_upper_bound; lia).
  pose proof (Z.div_mod x (2 ^ 8) ltac:(lia)). pose proof (Z.div_mod (x / 2 ^ 8) 256 ltac:(lia)).
  pose proof (Z.div_mod (x / 2 ^ 16) 256 ltac:(lia)). pose proof (Z.div_mod (x / 2 ^ 24) 256 ltac:(lia)).
  pose proof (Z.div_mod (x / 2 ^ 32) 256 ltac:(lia)).
  pose proof (Z.mod_small (x / 2 ^ 40) 256 ltac:(split; [apply Z.div_pos; lia|lia])).
  pose proof (Z.div_mod q (2 ^ 8) ltac:(lia)). change (2 ^ 8) with 256 in *.
  clearbody x q. clear -H16 H24 H32 H40 H H0 H1 H2 H3 H4 H5. lia.
Qed.

Lemma uuidV7Tick_spec t tick :
  uuidV7Tick t = Ok tick → 0 ≤ tick < 2 ^ 60 ∧ tick / 2 ^ 12 = t / 10 ^ 6.
Proof.
  unfold uuidV7Tick, uuidV7MaxUnixMilli. destruct (_ <? 0) eqn:E1; [done|].
  destruct (2 ^ 48 - 1 <? _) eqn:E2; [done|]. bools. intros [= <-].
  change 4095 with (2 ^ 12 - 1). rewrite land_ones_mod by lia.
  rewrite lor_shiftl_add by (try lia; apply Z.mod_pos_bound; lia).
  set (f := _ mod 2 ^ 12). assert (0 ≤ f < 2 ^ 12) by (apply Z.mod_pos_bound; lia).
  clearbody f. split; [lia|]. rewrite Z.div_add_l, (Z.div_small f) by lia. apply Z.add_0_r.
Qed.

Section properties.
Context {W : Type} (now : Call W Z) (readFull : Call W (result (list Z))).

(** What [io.ReadFull] into the 16 bytes of a UUID promises. *)
Definition fillsUUID : Prop := ∀ w bytes w', readFull w = (Ok bytes, w') →
  length bytes = 16%nat ∧ Forall is_byte bytes.

(** A sequence of calls of [nextV7]. *)
Fixpoint generateV7 (n : nat) (g : uuidGenerator) : Call W (list (list Z)) :=
  match n with
  | 0%nat => mret []
  | S n' =>
      r ← nextV7 now readFull g;
      rest ← generateV7 n' r.2;
      mret (match r.1 with Ok uuid => uuid :: rest | Fail _ => rest end)
  end.

Lemma nextV7_spec g w r g' w' :
  fillsUUID → -1 ≤ lastV7Tick g → nextV7 now readFull g w = ((r, g'), w') →
  match r with
  | Fail _ => g' = g
  | Ok uuid => version g' = version g ∧ lastV7Tick g < lastV7Tick g' ∧ 0 ≤ lastV7Tick g' < 2 ^ 60 ∧
      ∃ bytes, length bytes = 16%nat ∧ Forall is_byte bytes ∧ uuid = stampV7 (lastV7Tick g') bytes
  end.
Proof.
  intros Hfill Hg. unfold nextV7, mbind, call_bind, mret, call_ret. destruct (now w) as [t w1].
  destruct (uuidV7Tick t) as [tick0|e] eqn:Et; [|by intros [= <- <- <-]].
  apply uuidV7Tick_spec in Et as [Ht _].
  set (tick := if tick0 <=? lastV7Tick g then lastV7Tick g + 1 else tick0).
  assert (lastV7Tick g < tick ∧ 0 ≤ tick) as [Hlt Hpos].
  { unfold tick. destruct (tick0 <=? lastV7Tick g) eqn:E; bools; lia. }
  destruct (_ <? tick) eqn:E; [by intros [= <- <- <-]|]. bools.
  rewrite lor_shiftl_add in E by lia.
  destruct (readFull w1) as [[bytes|e] w2] eqn:Er; [|by intros [= <- <- <-]].
  intros [= <- <- <-]. apply Hfill in Er as [? ?]. unfold uuidV7MaxUnixMilli in E. simpl.
  split_and!; try done; try lia. by exists bytes.
Qed.

(** Version 7 UUIDs of one generator are strictly increasing in their
    first eight bytes, so they are distinct and sort in the order they were
    made, whatever the clock (standing still or going back) and the random
    source do. *)
Theorem uuid_v7_increasing n v w :
  fillsUUID →
  StronglySorted (λ a b, be (take 8 a) < be (take 8 b)) (generateV7 n (newUUIDGenerator v) w).1.
Proof.
  intros Hfill.
  assert (∀ g w, -1 ≤ lastV7Tick g →
    let us := (generateV7 n g w).1 in
    StronglySorted (λ a b, be (take 8 a) < be (take 8 b)) us ∧
    Forall (λ u, ∃ tick bytes, lastV7Tick g < tick ∧ 0 ≤ tick < 2 ^ 60 ∧ length bytes = 16%nat ∧
      Forall is_byte bytes ∧ u = stampV7 tick bytes) us) as Hgen.
  { clear w. induction n as [|n IH]; intros g w Hg; simpl; [split; constructor|].
    unfold mbind, call_bind, mret, call_ret. destruct (nextV7 now readFull g w) as [[r g'] w1] eqn:E.
    apply nextV7_spec in E; [|done..]. simpl.
    destruct (generateV7 n g' w1) as [rest w2] eqn:E2. simpl.
    destruct r as [uuid|e].
    - destruct E as (_ & Hlt & Hpos & bytes & Hlen & Hb & ->).
      destruct (IH g' w1 ltac:(lia)) as [Hs Hall]. rewrite E2 in Hs, Hall. simpl in Hs, Hall. split.
      + constructor; [done|]. eapply Forall_impl; [done|].
        intros u (tick & bytes' & ? & ? & ? & ? & ->). rewrite !be_stampV7 by done.
        pose proof (Z.div_mod (lastV7Tick g') (2 ^ 12) ltac:(lia)).
        pose proof (Z.div_mod tick (2 ^ 12) ltac:(lia)).
        pose proof (Z.mod_pos_bound (lastV7Tick g') (2 ^ 12) ltac:(lia)).
        pose proof (Z.mod_pos_bound tick (2 ^ 12) ltac:(lia)). lia.
      + constructor; [by exists (lastV7Tick g'), bytes|]. eapply Forall_impl; [done|].
        intros u (tick & bytes' & ? & ?). exists tick, bytes'. naive_solver lia.
    - subst g'. destruct (IH g w1 Hg) as [Hs Hall]. rewrite E2 in Hs, Hall. done. }
  apply Hgen. simpl. lia.
Qed.

(** C39. Every version 7 UUID is well formed: 16 bytes, version nibble 7,
    variant bits 10, and the 48-bit timestamp is the clock's millisecond
    whenever the clock has advanced beyond the last tick. *)
Theorem uuid_v7_layout g w uuid g' w' :
  fillsUUID → -1 ≤ lastV7Tick g → nextV7 now readFull g w = ((Ok uuid, g'), w') →
  length uuid = 16%nat ∧
  (∃ b6, uuid !! 6%nat = Some b6 ∧ b6 / 16 = 7) ∧
  (∃ b8, uuid !! 8%nat = Some b8 ∧ b8 / 64 = 2) ∧
  be (take 6 uuid) = lastV7Tick g' / 2 ^ 12 ∧
  (∀ tick, uuidV7Tick (now w).1 = Ok tick → lastV7Tick g < tick → be (take 6 uuid) = (now w).1 / 10 ^ 6).
Proof.
  intros Hfill Hg Hrun. pose proof (nextV7_spec _ _ _ _ _ Hfill Hg Hrun)
    as (_ & Hlt & Hpos & bytes & Hlen & Hb & ->).
  assert (be (take 6 (stampV7 (lastV7Tick g') bytes)) = lastV7Tick g' / 2 ^ 12) as Hbe.
  { pose proof (be_stampV7 _ _ Hlen Hpos Hb) as H8.
    destruct (stampV7_shape _ _ Hlen Hpos Hb) as (b8 & Hshape & _). rewrite Hshape in H8 |- *.
    unfold be in *. simpl take in *. simpl foldl in *.
    pose proof (Z.mod_pos_bound (lastV7Tick g') (2 ^ 12) ltac:(lia)).
    pose proof (Z.div_mod (lastV7Tick g' mod 2 ^ 12) (2 ^ 8) ltac:(lia)). lia. }
  split_and!; [| | |done|].
  - destruct (stampV7_shape _ _ Hlen Hpos Hb) as (b8 & -> & _).
    rewrite length_app, length_drop, Hlen. done.
  - destruct (stampV7_shape _ _ Hlen Hpos Hb) as (b8 & -> & _). eexists. split; [done|].
    pose proof (Z.mod_pos_bound (lastV7Tick g') (2 ^ 12) ltac:(lia)).
    assert (0 ≤ lastV7Tick g' mod 2 ^ 12 / 2 ^ 8 < 16).
    { split; [apply Z.div_pos; lia|apply Z.div_lt_upper_bound; lia]. }
    replace 112 with (7 * 16) by lia. rewrite Z.div_add_l, Z.div_small by lia. lia.
  - destruct (stampV7_shape _ _ Hlen Hpos Hb) as (b8 & -> & Hb8). eexists. split; [done|].
    replace 128 with (2 * 64) by lia. rewrite Z.div_add_l, Z.div_small by lia. lia.
  - intros tick Htick Hgt. rewrite Hbe. revert Hrun.
    unfold nextV7, mbind, call_bind, mret, call_ret. destruct (now w) as [t w1]. simpl in *.
    rewrite Htick. replace (tick <=? lastV7Tick g) with false by (symmetry; apply Z.leb_gt; lia).
    destruct (_ <? tick); [done|]. destruct (readFull w1) as [[?|?] ?]; [|done].
    intros [= _ <- _]. simpl. by apply uuidV7Tick_spec in Htick as [_ ?].
Qed.
End properties.

(** ** Witnesses *)

Definition demoNow : Call Z Z := λ w, (w * 10 ^ 6, w).
Definition demoRead : Call Z (result (list Z)) := λ w, (Ok (replicate 16 255), w).

Lemma demo_fills : fillsUUID demoRead.
Proof.
  intros w bytes w' [= <- _]. split; [done|]. by repeat constructor.
Qed.

Lemma uuid_v7_increasing_witness :
  length (generateV7 demoNow demoRead 3 (newUUIDGenerator 7) 1000).1 = 3%nat ∧
  StronglySorted (λ a b, be (take 8 a) < be (take 8 b))
    (generateV7 demoNow demoRead 3 (newUUIDGenerator 7) 1000).1.
Proof. split; [reflexivity|]. apply (uuid_v7_increasing demoNow demoRead). apply demo_fills. Defined.

Definition demoUUID : list Z :=
  match (nextV7 demoNow demoRead (newUUIDGenerator 7) 1000).1.1 with Ok u => u | Fail _ => [] end.

Lemma uuid_v7_layout_witness : length demoUUID = 16%nat.
Proof.
  apply (uuid_v7_layout demoNow demoRead (newUUIDGenerator 7) 1000 demoUUID
    (mkUuidGenerator 7 (1000 * 2 ^ 12)) 1000); [apply demo_fills|simpl; lia|reflexivity].
Defined.
