(* ===== verification/Collections.v ===== *)
(** * collections: what its parts share

    Errors of [src/collections], outcomes of calls that can panic, and the
    bounded histories that the ring buffer and the stack implement. *)

From S2P Require Import Prelude GoError.

Local Open Scope Z_scope.

Definition ErrInvalidArgument : error := Sentinel "collections.ErrInvalidArgument".
Definition invalid (format : string) : error := Errorf format [ErrInvalidArgument].

(** What a Go call can do: return, or panic. *)
Inductive outcome (A : Type) : Type :=
| Returns (a : A)
| Panics.
Arguments Returns {A} a.
Arguments Panics {A}.

(** The last [n] elements of a history. *)
Definition lastn {T} (n : nat) (l : list T) : list T := drop (length l - n) l.

Lemma reverse_lastn {T} (n : nat) (l : list T) : reverse (lastn n l) = take n (reverse l).
Proof.
  unfold lastn. rewrite <-(take_drop (length l - n) l) at 3.
  rewrite reverse_app. destruct (decide (n ≤ length l)%nat).
  - rewrite take_app_length'; [done|]. rewrite length_reverse, length_drop. lia.
  - replace (length l - n)%nat with 0%nat by lia. rewrite drop_0, take_0, reverse_nil, app_nil_r.
    rewrite take_ge; [done|]. rewrite length_reverse. lia.
Qed.
