(* ===== verification/RingBuffer.v ===== *)
(** * collections: RingBuffer

    Models [src/collections/ring_buffer.go].  Lengths and indices inside the
    buffer are naturals below its capacity; the [int] arguments of the
    operations are integers. *)

From S2P Require Import Prelude GoError Collections.

Local Open Scope Z_scope.

(** ** RingBuffer *)
Module Ring.
Section ring.
Context {T : Type} (zero : T).

Record RingBuffer := mkRing {
  values : list T;
  start : nat;
  len : nat;
  capacity : nat
}.

Definition NewRingBuffer (cap : Z) : result RingBuffer :=
  if cap <=? 0 then Fail (invalid "%w: ring buffer capacity[%d] must be positive")
  else Ok (mkRing (replicate (Z.to_nat cap) zero) 0 0 (Z.to_nat cap)).

Definition Len (r : RingBuffer) : nat := len r.
Definition Empty (r : RingBuffer) : bool := (Len r =? 0)%nat.

Definition Add (r : RingBuffer) (value : T) : RingBuffer :=
  if (capacity r =? 0)%nat then r
  else if (len r <? capacity r)%nat
  then mkRing (<[((start r + len r) mod capacity r)%nat := value]> (values r))
         (start r) (len r + 1) (capacity r)
  else mkRing (<[start r := value]> (values r)) ((start r + 1) mod capacity r)
         (len r) (capacity r).

Definition AddAll (r : RingBuffer) (vs : list T) : RingBuffer := foldl Add r vs.

(** [r.values[(r.start+index)%r.capacity]] *)
Definition slot (r : RingBuffer) (index : nat) : T :=
  default zero (values r !! ((start r + index) mod capacity r)%nat).

Definition At (r : RingBuffer) (index : Z) : option T :=
  if (index <? 0) || (Z.of_nat (len r) <=? index) then None else Some (slot r (Z.to_nat index)).

Definition Values (r : RingBuffer) : list T := map (slot r) (seq 0 (len r)).

(** The loop that zeroes the first [n] slots. *)
Definition zeroSlots (r : RingBuffer) (n : nat) : list T :=
  foldl (λ vs index, <[((start r + index) mod capacity r)%nat := zero]> vs) (values r) (seq 0 n).

Definition Clear (r : RingBuffer) : RingBuffer :=
  mkRing (zeroSlots r (len r)) 0 0 (capacity r).

Definition Drop (r : RingBuffer) (n : Z) : option error * RingBuffer :=
  if n <? 0 then (Some (invalid "%w: drop count[%d] must be non-negative"), r)
  else if n =? 0 then (None, r)
  else if Z.of_nat (len r) <=? n then (None, Clear r)
  else
    let k := Z.to_nat n in
    (None, mkRing (zeroSlots r k) ((start r + k) mod capacity r) (len r - k) (capacity r)).

(** ** Invariant and view *)

Definition ringInv (r : RingBuffer) : Prop :=
  length (values r) = capacity r ∧ (0 < capacity r)%nat ∧ (start r < capacity r)%nat ∧
  (len r ≤ capacity r)%nat.

Lemma wrap_index s i cap : (s < cap)%nat → (i ≤ cap)%nat →
  ((s + i) mod cap = if s + i <? cap then s + i else s + i - cap)%nat.
Proof.
  intros Hs Hi. destruct (Nat.ltb_spec (s + i) cap).
  - by apply Nat.mod_small.
  - replace (s + i)%nat with ((s + i - cap) + 1 * cap)%nat at 1 by lia.
    rewrite Nat.Div0.mod_add. apply Nat.mod_small. lia.
Qed.

Lemma wrap_index_lt s i cap : (s < cap)%nat → ((s + i) mod cap < cap)%nat.
Proof. intros. apply Nat.mod_upper_bound. lia. Qed.

Lemma wrap_index_inj s i j cap : (s < cap)%nat → (i < cap)%nat → (j < cap)%nat →
  ((s + i) mod cap = (s + j) mod cap → i = j)%nat.
Proof.
  intros. rewrite !wrap_index in * by lia.
  destruct (Nat.ltb_spec (s + i) cap), (Nat.ltb_spec (s + j) cap); lia.
Qed.

Lemma length_Values r : length (Values r) = len r.
Proof. unfold Values. by rewrite length_map, length_seq. Qed.

Lemma lookup_Values r i : (i < len r)%nat → Values r !! i = Some (slot r i).
Proof. intros Hi. unfold Values. by rewrite list_lookup_fmap, lookup_seq_lt. Qed.

Lemma length_zeroSlots r n : length (zeroSlots r n) = length (values r).
Proof.
  unfold zeroSlots. generalize 0%nat. revert n. intros n.
  assert (∀ l (vs : list T), length (foldl (λ vs index,
    <[((start r + index) mod capacity r)%nat := zero]> vs) vs l) = length vs) as H.
  { induction l as [|x l IH]; intros vs; simpl; [done|]. by rewrite IH, length_insert. }
  intros k. apply H.
Qed.

(** Zeroing the first [n] slots leaves the later ones. *)
Lemma lookup_zeroSlots r n j :
  ringInv r → (n ≤ j)%nat → (j < capacity r)%nat →
  zeroSlots r n !! ((start r + j) mod capacity r)%nat = values r !! ((start r + j) mod capacity r)%nat.
Proof.
  intros (Hlen & Hcap & Hs & Hl) Hnj Hj. unfold zeroSlots.
  assert (∀ l (vs : list T), Forall (λ i, i < n)%nat l →
    foldl (λ vs index, <[((start r + index) mod capacity r)%nat := zero]> vs) vs l
      !! ((start r + j) mod capacity r)%nat = vs !! ((start r + j) mod capacity r)%nat) as H.
  { induction l as [|x l IH]; intros vs Hall; simpl; [done|].
    apply Forall_cons in Hall as [Hx Hall]. rewrite IH by done.
    apply list_lookup_insert_ne. intros Heq. apply wrap_index_inj in Heq; lia. }
  apply H. apply Forall_seq. lia.
Qed.

Lemma Add_spec r v : ringInv r → ringInv (Add r v) ∧ capacity (Add r v) = capacity r ∧
  Values (Add r v) = lastn (capacity r) (Values r ++ [v]).
Proof.
  intros Hinv. pose proof Hinv as (Hlen & Hcap & Hs & Hl). unfold Add.
  destruct (Nat.eqb_spec (capacity r) 0); [lia|].
  unfold lastn. rewrite length_app, length_Values. simpl.
  destruct (Nat.ltb_spec (len r) (capacity r)) as [Hlt|Hge].
  - split; [|split; [done|]].
    { unfold ringInv. simpl. rewrite length_insert. lia. }
    replace (len r + 1 - capacity r)%nat with 0%nat by lia. rewrite drop_0.
    apply list_eq_same_length with (n := (len r + 1)%nat);
      [by rewrite length_app, length_Values|by rewrite length_Values|].
    intros i x y Hi. rewrite lookup_Values by done. unfold slot. simpl.
    destruct (decide (i = len r)) as [->|Hne].
    + rewrite list_lookup_insert_eq by (rewrite Hlen; by apply wrap_index_lt).
      rewrite lookup_app_r, length_Values, Nat.sub_diag by (rewrite length_Values; lia).
      simpl. congruence.
    + rewrite list_lookup_insert_ne by (intros Heq; apply wrap_index_inj in Heq; lia).
      rewrite lookup_app_l, lookup_Values by (rewrite ?length_Values; lia). unfold slot. congruence.
  - assert (len r = capacity r) as Hfull by lia. split; [|split; [done|]].
    { unfold ringInv. simpl. rewrite length_insert. split_and!; try lia. by apply wrap_index_lt. }
    replace (len r + 1 - capacity r)%nat with 1%nat by lia.
    apply list_eq_same_length with (n := len r);
      [rewrite length_drop, length_app, length_Values; simpl; lia|by rewrite length_Values|].
    intros i x y Hi. rewrite lookup_Values, lookup_drop by done. unfold slot. simpl.
    rewrite Nat.Div0.add_mod_idemp_l.
    replace (start r + 1 + i)%nat with (start r + S i)%nat by lia.
    destruct (decide (S i = capacity r)) as [Heq|Hne].
    + rewrite Heq. rewrite wrap_index by lia.
      destruct (Nat.ltb_spec (start r + capacity r) (capacity r)); [lia|].
      replace (start r + capacity r - capacity r)%nat with (start r) by lia.
      rewrite list_lookup_insert_eq by lia.
      rewrite lookup_app_r, length_Values by (rewrite length_Values; lia).
      replace (capacity r - len r)%nat with 0%nat by lia. simpl. congruence.
    + rewrite list_lookup_insert_ne.
      2:{ intros Heq. rewrite <-(Nat.add_0_r (start r)) in Heq at 1.
          rewrite <-(Nat.mod_small (start r + 0) (capacity r)) in Heq by lia.
          apply wrap_index_inj in Heq; lia. }
      rewrite lookup_app_l, lookup_Values by (rewrite ?length_Values; lia). unfold slot. congruence.
Qed.

Lemma Clear_spec r : ringInv r → ringInv (Clear r) ∧ capacity (Clear r) = capacity r ∧
  Values (Clear r) = [].
Proof.
  intros (Hlen & Hcap & Hs & Hl). unfold ringInv, Clear. simpl. rewrite length_zeroSlots.
  split_and!; try done; lia.
Qed.

Lemma Drop_spec r n : ringInv r → 0 ≤ n →
  (Drop r n).1 = None ∧ ringInv (Drop r n).2 ∧ capacity (Drop r n).2 = capacity r ∧
  Values (Drop r n).2 = drop (Z.to_nat n) (Values r).
Proof.
  intros Hinv Hn. pose proof Hinv as (Hlen & Hcap & Hs & Hl). unfold Drop.
  destruct (n <? 0) eqn:E1; bools; [lia|].
  destruct (n =? 0) eqn:E2; bools; [subst; by rewrite drop_0|].
  destruct (Z.of_nat (len r) <=? n) eqn:E3; bools; simpl.
  { destruct (Clear_spec r Hinv) as (? & ? & ->). split_and!; try done.
    rewrite drop_ge; [done|]. rewrite length_Values. lia. }
  set (k := Z.to_nat n). assert (k < len r)%nat by lia. split_and!; try done.
  { unfold ringInv. simpl. rewrite length_zeroSlots. split_and!; try lia. by apply wrap_index_lt. }
  apply list_eq_same_length with (n := (len r - k)%nat);
    [by rewrite length_drop, length_Values|by rewrite length_Values|].
  intros i x y Hi. rewrite lookup_Values, lookup_drop, lookup_Values by (simpl; lia).
  unfold slot. simpl. rewrite Nat.Div0.add_mod_idemp_l, <-Nat.add_assoc.
  rewrite lookup_zeroSlots by (done || lia). congruence.
Qed.
End ring.
End Ring.

(** ** Histories

    Operations on a bounded history; the abstract value is the list of the
    elements still held, oldest first. *)
Inductive ringOp (T : Type) : Type :=
| OpAdd (v : T)
| OpDrop (n : Z)
| OpClear.
Arguments OpAdd {T} v.
Arguments OpDrop {T} n.
Arguments OpClear {T}.

Definition ringExec {T} (zero : T) (r : Ring.RingBuffer) (op : ringOp T) : Ring.RingBuffer :=
  match op with
  | OpAdd v => Ring.Add r v
  | OpDrop n => (Ring.Drop zero r n).2
  | OpClear => Ring.Clear zero r
  end.

Definition historyExec {T} (cap : nat) (l : list T) (op : ringOp T) : list T :=
  match op with
  | OpAdd v => lastn cap (l ++ [v])
  | OpDrop n => if n <? 0 then l else drop (Z.to_nat n) l
  | OpClear => []
  end.

(** A ring buffer is the bounded history of what was added: after any
    sequence of additions, drops and clears its contents are the newest
    [capacity] elements not dropped yet, oldest first, and [At] indexes
    them. *)
Theorem ring_refines_history {T} (zero : T) cap r ops :
  Ring.NewRingBuffer zero cap = Ok r →
  let r' := foldl (ringExec zero) r ops in
  let l := foldl (historyExec (Z.to_nat cap)) [] ops in
  Ring.Values zero r' = l ∧ Ring.Len r' = length l ∧ (length l ≤ Z.to_nat cap)%nat ∧
  (∀ i, Ring.At zero r' i = if i <? 0 then None else l !! Z.to_nat i).
Proof.
  unfold Ring.NewRingBuffer. destruct (cap <=? 0) eqn:Ecap; [done|]. bools. intros [= <-].
  assert (∀ ops r l, Ring.ringInv r → Ring.Values zero r = l → Ring.capacity r = Z.to_nat cap →
    Ring.ringInv (foldl (ringExec zero) r ops) ∧
    Ring.Values zero (foldl (ringExec zero) r ops) = foldl (historyExec (Z.to_nat cap)) l ops ∧
    Ring.capacity (foldl (ringExec zero) r ops) = Z.to_nat cap) as Hops.
  { clear ops. induction ops as [|op ops IH]; intros r l Hinv Hv Hc; simpl; [done|].
    destruct op as [v|n|]; simpl; apply IH.
    - by apply Ring.Add_spec.
    - destruct (Ring.Add_spec zero r v Hinv) as (_ & _ & ->). by rewrite Hv, Hc.
    - destruct (Ring.Add_spec zero r v Hinv) as (_ & -> & _). done.
    - destruct (n <? 0) eqn:E; bools; [unfold Ring.Drop; by apply Z.ltb_lt in E as ->|].
      by apply Ring.Drop_spec.
    - destruct (n <? 0) eqn:E; [unfold Ring.Drop; by rewrite E|]. bools.
      destruct (Ring.Drop_spec zero r n Hinv E) as (_ & _ & _ & ->). by rewrite Hv.
    - destruct (n <? 0) eqn:E; [unfold Ring.Drop; by rewrite E|]. bools.
      destruct (Ring.Drop_spec zero r n Hinv E) as (_ & _ & -> & _). done.
    - by apply Ring.Clear_spec.
    - by apply Ring.Clear_spec.
    - done. }
  destruct (Hops ops (Ring.mkRing (replicate (Z.to_nat cap) zero) 0 0 (Z.to_nat cap)) [])
    as (Hinv & Hv & Hc); [|done|done|].
  { unfold Ring.ringInv. simpl. rewrite length_replicate. lia. }
  simpl. rewrite <-Hv, Ring.length_Values. destruct Hinv as (? & ? & ? & ?).
  split_and!; [done|done|lia|]. intros i. unfold Ring.At.
  destruct (i <? 0) eqn:E; bools; simpl; [done|]. destruct (Z.leb_spec (Z.of_nat (Ring.len
    (foldl (ringExec zero) (Ring.mkRing (replicate (Z.to_nat cap) zero) 0 0 (Z.to_nat cap)) ops))) i).
  - rewrite lookup_ge_None_2; [done|]. rewrite Ring.length_Values. lia.
  - rewrite Ring.lookup_Values by lia. done.
Qed.

Lemma ring_refines_history_witness :
  let r := foldl (ringExec 0) (Ring.mkRing [0; 0] 0 0 2) [OpAdd 1; OpAdd 2; OpAdd 3; OpDrop 1] in
  Ring.Values 0 r = [3] ∧ Ring.Len r = 1%nat.
Proof.
  split; [reflexivity|].
  apply (ring_refines_history 0 2 (Ring.mkRing [0; 0] 0 0 2) [OpAdd 1; OpAdd 2; OpAdd 3; OpDrop 1]).
  reflexivity.
Defined.
