(* ===== verification/BoundedStack.v ===== *)
(** * collections: BoundedStack

    Models [src/collections/bounded_stack.go]; the backing array is shifted,
    zeroed and cut as the code does. *)

From S2P Require Import Prelude GoError Collections.

Local Open Scope Z_scope.

(** ** BoundedStack *)
Module Stack.
Section stack.
Context {T : Type} (zero : T).

Record BoundedStack := mkStack { values : list T; capacity : nat }.

Definition NewBoundedStack (cap : Z) : result BoundedStack :=
  if cap <=? 0 then Fail (invalid "%w: bounded stack capacity[%d] must be positive")
  else Ok (mkStack [] (Z.to_nat cap)).

Definition Len (s : BoundedStack) : nat := length (values s).
Definition Empty (s : BoundedStack) : bool := (Len s =? 0)%nat.

(** [copy(dst, src)] *)
Definition copy (dst src : list T) : list T := take (length dst) src ++ drop (length src) dst.

(** The loop that zeroes [values[from:]]. *)
Definition zeroFrom (from : nat) (vs : list T) : list T :=
  foldl (λ vs index, <[index := zero]> vs) vs (seq from (length vs - from)).

Definition Push (s : BoundedStack) (value : T) : BoundedStack :=
  if (capacity s =? 0)%nat then s
  else
    let vs := values s ++ [value] in
    if (capacity s <? length vs)%nat
    then
      let overflow := (length vs - capacity s)%nat in
      let copied := copy vs (drop overflow vs) in
      mkStack (take (capacity s) (zeroFrom (capacity s) copied)) (capacity s)
    else mkStack vs (capacity s).

Definition PushAll (s : BoundedStack) (vs : list T) : BoundedStack := foldl Push s vs.

Definition Pop (s : BoundedStack) : option T * BoundedStack :=
  match length (values s) with
  | 0%nat => (None, s)
  | S last =>
      (values s !! last,
       mkStack (take last (<[last := zero]> (values s))) (capacity s))
  end.

Definition Peek (s : BoundedStack) : option T :=
  match length (values s) with 0%nat => None | S last => values s !! last end.

Definition At (s : BoundedStack) (index : Z) : option T :=
  if (index <? 0) || (Z.of_nat (length (values s)) <=? index) then None
  else values s !! (length (values s) - 1 - Z.to_nat index)%nat.

Definition Values (s : BoundedStack) : list T :=
  map (λ index, default zero (values s !! (length (values s) - 1 - index)%nat))
    (seq 0 (length (values s))).

Definition Clear (s : BoundedStack) : BoundedStack :=
  mkStack (take 0 (zeroFrom 0 (values s))) (capacity s).

Definition stackInv (s : BoundedStack) : Prop :=
  (0 < capacity s)%nat ∧ (length (values s) ≤ capacity s)%nat.

Lemma Values_reverse s : Values s = reverse (values s).
Proof.
  unfold Values. apply list_eq_same_length with (n := length (values s));
    [by rewrite length_reverse|by rewrite length_map, length_seq|].
  intros i x y Hi. rewrite list_lookup_fmap, lookup_seq_lt by done. simpl.
  rewrite reverse_lookup by done. replace (length (values s) - 1 - i)%nat
    with (length (values s) - S i)%nat by lia. intros [= <-] ->. done.
Qed.

Lemma take_zeroFrom n (vs : list T) : take n (zeroFrom n vs) = take n vs.
Proof.
  unfold zeroFrom.
  assert (∀ l (vs : list T), Forall (λ i, n ≤ i)%nat l →
    take n (foldl (λ vs index, <[index := zero]> vs) vs l) = take n vs) as H.
  { induction l as [|x l IH]; intros vs' Hall; simpl; [done|].
    apply Forall_cons in Hall as [Hx Hall]. rewrite IH by done. by apply take_insert_ge. }
  apply H. apply Forall_seq. lia.
Qed.

Lemma Push_spec s v : stackInv s →
  stackInv (Push s v) ∧ capacity (Push s v) = capacity s ∧
  values (Push s v) = lastn (capacity s) (values s ++ [v]).
Proof.
  intros [Hcap Hlen]. unfold Push. destruct (Nat.eqb_spec (capacity s) 0); [lia|].
  unfold lastn. set (vs := values s ++ [v]).
  assert (length vs = S (length (values s))) as Hvs by (unfold vs; rewrite length_app; simpl; lia).
  destruct (Nat.ltb_spec (capacity s) (length vs)) as [Hlt|Hge]; unfold stackInv; simpl.
  - rewrite take_zeroFrom. unfold copy. rewrite length_drop.
    rewrite take_app_le by (rewrite length_take, length_drop; lia).
    rewrite take_take, take_ge by (rewrite length_drop; lia).
    rewrite length_drop. split_and!; try done; lia.
  - replace (length vs - capacity s)%nat with 0%nat by lia. rewrite drop_0. split_and!; try done; lia.
Qed.

Lemma Pop_spec s : stackInv s →
  (Pop s).1 = last (values s) ∧ stackInv (Pop s).2 ∧ capacity (Pop s).2 = capacity s ∧
  values (Pop s).2 = take (length (values s) - 1) (values s).
Proof.
  intros [Hcap Hlen]. unfold Pop. destruct (length (values s)) as [|l] eqn:El.
  - apply nil_length_inv in El. destruct s as [vs cap]. simpl in *. subst. done.
  - simpl. rewrite take_insert_ge by lia. rewrite Nat.sub_0_r. unfold stackInv. simpl.
    rewrite length_take. split_and!; try done; try lia. rewrite last_lookup, El. done.
Qed.
End stack.
End Stack.

(** ** Histories *)

Inductive stackOp (T : Type) : Type :=
| OpPush (v : T)
| OpPop.
Arguments OpPush {T} v.
Arguments OpPop {T}.

Definition stackExec {T} (zero : T) (s : Stack.BoundedStack) (op : stackOp T) : Stack.BoundedStack :=
  match op with
  | OpPush v => Stack.Push zero s v
  | OpPop => (Stack.Pop zero s).2
  end.

(** Top first: pushing keeps the newest [cap] elements. *)
Definition lifoExec {T} (cap : nat) (l : list T) (op : stackOp T) : list T :=
  match op with
  | OpPush v => take cap (v :: l)
  | OpPop => tail l
  end.

(** A bounded stack is a stack of the newest elements: after any
    sequence of pushes and pops [Values] is the abstract stack, top first,
    that forgets its oldest element when it overflows, and the next [Pop]
    answers its top. *)
Theorem stack_refines_lifo {T} (zero : T) cap s ops :
  Stack.NewBoundedStack cap = Ok s →
  let s' := foldl (stackExec zero) s ops in
  let l := foldl (lifoExec (Z.to_nat cap)) [] ops in
  Stack.Values zero s' = l ∧ (Stack.Pop zero s').1 = head l ∧ (length l ≤ Z.to_nat cap)%nat.
Proof.
  unfold Stack.NewBoundedStack. destruct (cap <=? 0) eqn:Ecap; [done|]. bools. intros [= <-].
  assert (∀ ops s l, Stack.stackInv s → reverse (Stack.values s) = l →
    Stack.capacity s = Z.to_nat cap →
    Stack.stackInv (foldl (stackExec zero) s ops) ∧
    reverse (Stack.values (foldl (stackExec zero) s ops)) = foldl (lifoExec (Z.to_nat cap)) l ops ∧
    Stack.capacity (foldl (stackExec zero) s ops) = Z.to_nat cap) as Hops.
  { clear ops. induction ops as [|op ops IH]; intros s l Hinv Hv Hc; simpl; [done|].
    destruct op as [v|]; simpl.
    - destruct (Stack.Push_spec zero s v Hinv) as (? & ? & Hp). apply IH; [done| |congruence].
      rewrite Hp, reverse_lastn, reverse_snoc, Hv, Hc. done.
    - destruct (Stack.Pop_spec zero s Hinv) as (_ & ? & ? & Hp). apply IH; [done| |congruence].
      rewrite Hp, <-Hv. destruct (Stack.values s) as [|x vs] using rev_ind; [done|].
      rewrite length_app, reverse_snoc. simpl.
      rewrite take_app_length' by lia. done. }
  destruct (Hops ops (Stack.mkStack [] (Z.to_nat cap)) []) as (Hinv & Hv & Hc); [|done|done|].
  { unfold Stack.stackInv. simpl. lia. }
  destruct (Stack.Pop_spec zero _ Hinv) as (Hpop & _). destruct Hinv as [_ Hlen].
  split_and!.
  - by rewrite Stack.Values_reverse.
  - rewrite Hpop, <-Hv. by rewrite head_reverse.
  - rewrite <-Hv, length_reverse. lia.
Qed.

Lemma stack_refines_lifo_witness :
  let s := foldl (stackExec 0) (Stack.mkStack [] 2) [OpPush 1; OpPush 2; OpPush 3] in
  Stack.Values 0 s = [3; 2] ∧ (Stack.Pop 0 s).1 = Some 3.
Proof.
  split; [reflexivity|].
  apply (stack_refines_lifo 0 2 (Stack.mkStack [] 2) [OpPush 1; OpPush 2; OpPush 3]). reflexivity.
Defined.
