(* ===== verification/Slices.v ===== *)
(** * collections: slice and map helpers, pages

    Models [src/collections/slices.go], [maps.go] and [page.go].  A slice is
    [option (list T)], [None] for nil.  [int] is 64 bits: sums that the code
    computes are wrapped, and a negative capacity or slice bound panics. *)

From S2P Require Import Prelude GoError Collections.

Local Open Scope Z_scope.

Section slices.
Context {T : Type}.

Definition len (values : list T) : Z := Z.of_nat (length values).

(** [values[from:to]], which panics unless [0 <= from <= to <= len]. *)
Definition subslice (values : list T) (from to : Z) : outcome (list T) :=
  if (0 <=? from) && (from <=? to) && (to <=? len values)
  then Returns (take (Z.to_nat to - Z.to_nat from) (drop (Z.to_nat from) values))
  else Panics.

(** The loop of [Chunk]; [fuel] bounds the chunks. *)
Fixpoint chunkLoop (fuel : nat) (values : list T) (size start : Z) (chunks : list (list T))
    : option (outcome (list (list T))) :=
  match fuel with
  | 0%nat => None
  | S fuel' =>
      if start <? len values then
        let end_ := wrap_i64 (start + size) in
        let end_ := if len values <? end_ then len values else end_ in
        match subslice values start end_ with
        | Panics => Some Panics
        | Returns c => chunkLoop fuel' values size (wrap_i64 (start + size)) (chunks ++ [c])
        end
      else Some (Returns chunks)
  end.

(** [Chunk]: [make] panics on a negative capacity.  [None] is the loop still
    running. *)
Definition Chunk (fuel : nat) (values : option (list T)) (size : Z)
    : option (outcome (result (option (list (list T))))) :=
  if size <=? 0 then Some (Returns (Fail (invalid "%w: chunk size[%d] must be positive")))
  else match values with
  | None => Some (Returns (Ok None))
  | Some [] => Some (Returns (Ok (Some [])))
  | Some vs =>
      if Z.quot (wrap_i64 (wrap_i64 (len vs + size) - 1)) size <? 0 then Some Panics
      else match chunkLoop fuel vs size 0 [] with
           | None => None
           | Some Panics => Some Panics
           | Some (Returns chunks) => Some (Returns (Ok (Some chunks)))
           end
  end.

(** The loop of [Sliding], over the remaining indices. *)
Fixpoint slidingLoop (values : list T) (size : Z) (partialWindows : bool) (indices : list nat)
    (windows : list (list T)) : outcome (list (list T)) :=
  match indices with
  | [] => Returns windows
  | start :: rest =>
      let end_ := wrap_i64 (Z.of_nat start + size) in
      if len values <? end_ then
        if negb partialWindows then Returns windows
        else match subslice values (Z.of_nat start) (len values) with
             | Panics => Panics
             | Returns c => slidingLoop values size partialWindows rest (windows ++ [c])
             end
      else match subslice values (Z.of_nat start) end_ with
           | Panics => Panics
           | Returns c => slidingLoop values size partialWindows rest (windows ++ [c])
           end
  end.

Definition Sliding (values : option (list T)) (size : Z) (partialWindows : bool)
    : outcome (result (option (list (list T)))) :=
  if size <=? 0 then Returns (Fail (invalid "%w: sliding size[%d] must be positive"))
  else match values with
  | None => Returns (Ok None)
  | Some [] => Returns (Ok (Some []))
  | Some vs =>
      match slidingLoop vs size partialWindows (seq 0 (length vs)) [] with
      | Panics => Panics
      | Returns windows => Returns (Ok (Some windows))
      end
  end.

(** The loop of [ChunkBy]: [current] is [values[start:index]]. *)
Fixpoint chunkByLoop (startsNew : T → bool) (current rest : list T) : list (list T) :=
  match rest with
  | [] => [current]
  | v :: rest' =>
      if startsNew v then current :: chunkByLoop startsNew [v] rest'
      else chunkByLoop startsNew (current ++ [v]) rest'
  end.

Definition ChunkBy (values : option (list T)) (startsNew : option (T → bool))
    : result (option (list (list T))) :=
  match startsNew with
  | None => Fail (invalid "%w: startsNew must not be nil")
  | Some f =>
      match values with
      | None => Ok None
      | Some [] => Ok (Some [])
      | Some (v :: rest) => Ok (Some (chunkByLoop f [v] rest))
      end
  end.

Definition SafeSubslice (values : option (list T)) (from to : Z) : outcome (option (list T)) :=
  match values with
  | None => Returns None
  | Some vs =>
      let from := if from <? 0 then 0 else from in
      let from := if len vs <? from then len vs else from in
      let to := if to <? from then from else to in
      let to := if len vs <? to then len vs else to in
      match subslice vs from to with Returns r => Returns (Some r) | Panics => Panics end
  end.

Definition PadTo (values : list T) (newSize : Z) (item : T) : result (list T) :=
  if newSize <? 0 then Fail (invalid "%w: pad size[%d] must be non-negative")
  else if newSize <=? len values then Ok values
  else Ok (values ++ replicate (Z.to_nat newSize - length values) item).

(** The loops of [Distinct] and [DistinctBy], with the keys seen. *)
Fixpoint distinctLoop `{Countable K} (key : T → K) (seen : gset K) (values : list T) : list T :=
  match values with
  | [] => []
  | v :: rest =>
      if decide (key v ∈ seen) then distinctLoop key seen rest
      else v :: distinctLoop key ({[key v]} ∪ seen) rest
  end.

Definition DistinctBy `{Countable K} (values : option (list T)) (key : option (T → K))
    : result (option (list T)) :=
  match key with
  | None => Fail (invalid "%w: key must not be nil")
  | Some f =>
      match values with
      | None => Ok None
      | Some [] => Ok (Some [])
      | Some vs => Ok (Some (distinctLoop f ∅ vs))
      end
  end.

Definition Distinct `{Countable T} (values : option (list T)) : option (list T) :=
  match values with
  | None => None
  | Some [] => Some []
  | Some vs => Some (distinctLoop id ∅ vs)
  end.

(** [counts[key(value)]++] over the slice; [Count] is the case of the
    identity. *)
Definition countLoop `{Countable K} (key : T → K) (values : list T) : gmap K Z :=
  foldl (λ counts v, <[key v := default 0 (counts !! key v) + 1]> counts) ∅ values.

Definition CountBy `{Countable K} (values : option (list T)) (key : option (T → K))
    : result (option (gmap K Z)) :=
  match key with
  | None => Fail (invalid "%w: key must not be nil")
  | Some f => match values with None => Ok None | Some vs => Ok (Some (countLoop f vs)) end
  end.

Definition Count `{Countable T} (values : option (list T)) : option (gmap T Z) :=
  match values with None => None | Some vs => Some (countLoop id vs) end.

Definition groupLoop `{Countable K} (key : T → K) (values : list T) : gmap K (list T) :=
  foldl (λ groups v, <[key v := default [] (groups !! key v) ++ [v]]> groups) ∅ values.

Definition GroupBy `{Countable K} (values : option (list T)) (key : option (T → K))
    : result (option (gmap K (list T))) :=
  match key with
  | None => Fail (invalid "%w: key must not be nil")
  | Some f => match values with None => Ok None | Some vs => Ok (Some (groupLoop f vs)) end
  end.

Definition ZipWithIndex (values : option (list T)) : option (list (nat * T)) :=
  match values with None => None | Some vs => Some (imap (λ index v, (index, v)) vs) end.

(** The loops of [MapErr], [FilterErr] and [ForEachErr]. *)
Fixpoint mapErrLoop {R} (mapper : T → result R) (values : list T) : result (list R) :=
  match values with
  | [] => Ok []
  | v :: rest =>
      match mapper v with
      | Fail e => Fail e
      | Ok r => match mapErrLoop mapper rest with Fail e => Fail e | Ok rs => Ok (r :: rs) end
      end
  end.

Definition MapErr {R} (values : option (list T)) (mapper : option (T → result R))
    : result (option (list R)) :=
  match mapper with
  | None => Fail (invalid "%w: mapper must not be nil")
  | Some f =>
      match values with
      | None => Ok None
      | Some vs => match mapErrLoop f vs with Fail e => Fail e | Ok rs => Ok (Some rs) end
      end
  end.

Fixpoint filterErrLoop (predicate : T → result bool) (values : list T) : result (list T) :=
  match values with
  | [] => Ok []
  | v :: rest =>
      match predicate v with
      | Fail e => Fail e
      | Ok keep =>
          match filterErrLoop predicate rest with
          | Fail e => Fail e
          | Ok vs => Ok (if keep then v :: vs else vs)
          end
      end
  end.

Definition FilterErr (values : option (list T)) (predicate : option (T → result bool))
    : result (option (list T)) :=
  match predicate with
  | None => Fail (invalid "%w: predicate must not be nil")
  | Some f =>
      match values with
      | None => Ok None
      | Some vs => match filterErrLoop f vs with Fail e => Fail e | Ok r => Ok (Some r) end
      end
  end.

Definition FilterMap {R} (values : option (list T)) (mapper : option (T → option R))
    : result (option (list R)) :=
  match mapper with
  | None => Fail (invalid "%w: mapper must not be nil")
  | Some f => match values with None => Ok None | Some vs => Ok (Some (omap f vs)) end
  end.

(** ** Page *)

Record Page := mkPage { items : option (list T); page : Z; size : Z; total : Z; offset : Z }.

Definition PageOf (its : option (list T)) (p s t : Z) : result Page :=
  if p <? 0 then Fail (invalid "%w: page[%d] must be non-negative")
  else if s <=? 0 then Fail (invalid "%w: page size[%d] must be positive")
  else if t <? 0 then Fail (invalid "%w: total[%d] must be non-negative")
  else if Z.quot maxInt64 s <? p then Fail (invalid "%w: page offset overflows int64")
  else Ok (mkPage its p s t (wrap_i64 (p * s))).

Definition TotalPages (p : Page) : Z :=
  if (total p <=? 0) || (size p <=? 0) then 0
  else
    let pages := Z.quot (total p) (size p) in
    if negb (Z.rem (total p) (size p) =? 0) then wrap_i64 (pages + 1) else pages.

Definition HasNext (p : Page) : bool :=
  (0 <? TotalPages p) && (page p <? TotalPages p - 1).
Definition HasPrevious (p : Page) : bool := 0 <? page p.
End slices.
Arguments Page : clear implicits.

(** ** Chunks *)

Section chunk.
Context {T : Type}.

(** The chunks [cs] cut [values] into pieces of [size], the last one perhaps
    shorter. *)
Definition cuts (size : Z) (values : list T) (cs : list (list T)) : Prop :=
  mjoin cs = values ∧ Forall (λ c, 0 < len c ≤ size) cs ∧
  (∀ i c, cs !! i = Some c → (S i < length cs)%nat → len c = size).

Lemma subslice_ok (values : list T) from to :
  0 ≤ from ≤ to → to ≤ len values →
  subslice values from to = Returns (take (Z.to_nat to - Z.to_nat from) (drop (Z.to_nat from) values)).
Proof.
  intros [H1 H2] H3. unfold subslice. apply Z.leb_le in H1, H2, H3. by rewrite H1, H2, H3.
Qed.

Lemma cuts_cons size (c rest : list T) cs :
  0 < len c ≤ size → (rest ≠ [] → len c = size) → cuts size rest cs → cuts size (c ++ rest) (c :: cs).
Proof.
  intros Hc Hfull (Hjoin & Hall & Hlast). split_and!.
  - simpl. by rewrite Hjoin.
  - by constructor.
  - intros [|i] x; simpl; [intros [= <-] Hlt; apply Hfull|intros Hi Hlt; apply (Hlast i x Hi); lia].
    intros ->. destruct cs as [|c' cs]; [simpl in Hlt; lia|].
    apply Forall_cons in Hall as [[Hpos _] _]. simpl in Hjoin.
    apply app_eq_nil in Hjoin as [-> _]. by unfold len in Hpos; simpl in Hpos.
Qed.

Lemma chunkLoop_spec (values : list T) size : ∀ fuel start chunks,
  0 < size → len values + size - 1 ≤ maxInt64 → 0 ≤ start → start - size < len values ∨ start = 0 →
  (length values - Z.to_nat start < fuel)%nat →
  ∃ cs, chunkLoop fuel values size start chunks = Some (Returns (chunks ++ cs)) ∧
    cuts size (drop (Z.to_nat start) values) cs.
Proof.
  intros fuel. induction fuel as [|fuel IH]; intros start chunks Hsize Hmax Hpos Hstart Hfuel; [lia|].
  simpl. destruct (start <? len values) eqn:E; bools.
  - assert (wrap_i64 (start + size) = start + size) as Hwrap.
    { apply wrap_i64_id. unfold in_i64, maxInt64 in *. lia. }
    rewrite Hwrap. unfold len in *.
    set (e := if Z.of_nat (length values) <? start + size then Z.of_nat (length values)
              else start + size).
    assert (start < e ∧ e ≤ Z.of_nat (length values) ∧ e ≤ start + size ∧
            (e < Z.of_nat (length values) → e = start + size)) as (He1 & He2 & He3 & He4).
    { unfold e. destruct (_ <? start + size) eqn:E2; bools; lia. }
    clearbody e. rewrite subslice_ok by (unfold len; lia).
    destruct (IH (start + size) (chunks ++ [take (Z.to_nat e - Z.to_nat start) (drop (Z.to_nat start) values)]))
      as (cs & Hrun & Hcuts); [lia..|].
    rewrite Hrun, <-(assoc_L app). eexists. split; [done|]. simpl.
    assert (length (take (Z.to_nat e - Z.to_nat start) (drop (Z.to_nat start) values)) =
            (Z.to_nat e - Z.to_nat start)%nat) as Hlen.
    { rewrite length_take, length_drop. lia. }
    rewrite <-(take_drop (Z.to_nat e - Z.to_nat start) (drop (Z.to_nat start) values)) at 1.
    rewrite drop_drop. replace (drop (Z.to_nat start + (Z.to_nat e - Z.to_nat start)) values)
      with (drop (Z.to_nat (start + size)) values).
    2:{ destruct (decide (e = start + size)) as [->|Hne]; [f_equal; lia|].
        rewrite !drop_ge; [done|lia|lia]. }
    apply cuts_cons; [unfold len; rewrite Hlen; lia| |done].
    intros Hne. unfold len. rewrite Hlen.
    destruct (decide (e = start + size)) as [->|Hne2]; [lia|].
    exfalso. apply Hne. apply drop_ge. lia.
  - exists []. rewrite app_nil_r. split; [done|]. rewrite drop_ge by (unfold len in *; lia). done.
Qed.

(** [Chunk] cuts a slice into consecutive pieces of the given size, the
    last one perhaps shorter, and returns, for every size such that length
    plus size stays in the range of [int]. *)
Theorem Chunk_cuts (v : T) (vs : list T) size fuel :
  0 < size → len (v :: vs) + size - 1 ≤ maxInt64 → (length (v :: vs) < fuel)%nat →
  ∃ cs, Chunk fuel (Some (v :: vs)) size = Some (Returns (Ok (Some cs))) ∧ cuts size (v :: vs) cs.
Proof.
  intros Hsize Hmax Hfuel. unfold Chunk.
  replace (size <=? 0) with false by (symmetry; apply Z.leb_gt; lia).
  assert (0 ≤ len (v :: vs)) as Hlen by (unfold len; lia).
  assert (wrap_i64 (wrap_i64 (len (v :: vs) + size) - 1) = len (v :: vs) + size - 1) as ->.
  { destruct (decide (len (v :: vs) + size = 2 ^ 63)) as [->|Hne]; [done|].
    rewrite (wrap_i64_id (len (v :: vs) + size)), wrap_i64_id; unfold in_i64, maxInt64 in *; lia. }
  replace (_ <? 0) with false by (symmetry; apply Z.ltb_ge, Z.quot_pos; lia).
  destruct (chunkLoop_spec (v :: vs) size fuel 0 []) as (cs & -> & Hcuts); [done..|lia|auto|simpl in *; lia|].
  by exists cs.
Qed.
End chunk.

(** Large sizes make the helpers panic: [Chunk] of two elements with the
    largest [int] computes a negative capacity, and [Sliding] with partial
    windows computes a negative slice bound. *)
Theorem large_size_panics {T} (a b : T) fuel :
  Chunk fuel (Some [a; b]) maxInt64 = Some Panics ∧
  Sliding (Some [a; b]) maxInt64 true = Panics.
Proof. split; reflexivity. Qed.

(** ** Pages *)

(** Page arithmetic does not overflow: an accepted page has the exact
    offset [page * size], in the range of [int64]; the number of pages is the
    total divided by the size, rounded up, and there is a next page exactly
    when items remain after this one. *)
Theorem PageOf_spec {T} (its : option (list T)) p s t pg :
  0 ≤ t ≤ maxInt64 → PageOf its p s t = Ok pg →
  offset pg = p * s ∧ 0 ≤ offset pg ≤ maxInt64 ∧
  (TotalPages pg - 1) * s < t ≤ TotalPages pg * s ∧
  (HasNext pg = true ↔ (p + 1) * s < t) ∧ (HasPrevious pg = true ↔ 0 < p).
Proof.
  intros Ht. unfold PageOf. destruct (p <? 0) eqn:E1; [done|]. destruct (s <=? 0) eqn:E2; [done|].
  destruct (t <? 0) eqn:E3; [done|]. destruct (_ <? p) eqn:E4; [done|]. bools. intros [= <-].
  assert (p * s ≤ maxInt64) as Hoff.
  { rewrite Z.quot_div_nonneg in E4 by (unfold maxInt64; lia).
    pose proof (Z.mul_div_le maxInt64 s ltac:(lia)). nia. }
  assert (TotalPages (mkPage its p s t (p * s)) = (t + s - 1) / s) as Hpages.
  { unfold TotalPages. simpl. destruct (t <=? 0) eqn:Et; bools; simpl.
    { replace t with 0 by lia. symmetry. apply Z.div_small. lia. }
    replace (s <=? 0) with false by (symmetry; apply Z.leb_gt; lia).
    rewrite Z.quot_div_nonneg, Z.rem_mod_nonneg by lia.
    pose proof (Z.div_mod t s ltac:(lia)) as Hdm. pose proof (Z.mod_pos_bound t s ltac:(lia)) as Hm.
    assert (0 ≤ t / s ≤ t) as Hq by (split; [apply Z.div_pos; lia|apply Z.div_le_upper_bound; nia]).
    destruct (t mod s =? 0) eqn:Em; bools; simpl.
    - rewrite Hdm at 2. rewrite Em. replace (s * (t / s) + 0 + s - 1) with ((t / s) * s + (s - 1)) by lia.
      rewrite Z.div_add_l, (Z.div_small (s - 1)) by lia. lia.
    - rewrite wrap_i64_id.
      2:{ unfold in_i64. assert (t / s < maxInt64 ∨ t / s = maxInt64) as [|Heq] by lia; [unfold maxInt64 in *; lia|].
          assert (s = 1 ∨ 2 ≤ s) as [->|] by lia; [rewrite Z.mod_1_r in Em; done|].
          assert (t / s ≤ t / 2) by (apply Z.div_le_compat_l; lia).
          assert (t / 2 * 2 ≤ t) by (pose proof (Z.mul_div_le t 2 ltac:(lia)); lia).
          unfold maxInt64 in *. lia. }
      rewrite Hdm at 2. replace (s * (t / s) + t mod s + s - 1) with ((t / s + 1) * s + (t mod s - 1)) by lia.
      rewrite Z.div_add_l, (Z.div_small (t mod s - 1)) by lia. lia. }
  rewrite (wrap_i64_id (p * s)) by (unfold in_i64, maxInt64 in *; nia).
  unfold HasNext, HasPrevious. simpl in *. rewrite Hpages.
  pose proof (Z.div_mod (t + s - 1) s ltac:(lia)) as Hdm.
  pose proof (Z.mod_pos_bound (t + s - 1) s ltac:(lia)) as Hm. set (q := (t + s - 1) / s) in *.
  split_and!; nia.
Qed.

(** ** Witnesses *)

Lemma Chunk_cuts_witness :
  ∃ cs, Chunk 9 (Some [1; 2; 3; 4; 5]) 2 = Some (Returns (Ok (Some cs))) ∧ cuts 2 [1; 2; 3; 4; 5] cs.
Proof.
  apply (Chunk_cuts 1 [2; 3; 4; 5] 2 9); [lia|vm_compute; intros H; discriminate H|simpl; lia].
Defined.

Lemma PageOf_spec_witness :
  let pg := mkPage (Some [7]) 2 10 25 20 in
  PageOf (Some [7]) 2 10 25 = Ok pg ∧ TotalPages pg = 3 ∧ offset pg = 2 * 10.
Proof.
  split; [reflexivity|]. split; [reflexivity|].
  apply (PageOf_spec (Some [7]) 2 10 25); [split; vm_compute; intros H; discriminate H|reflexivity].
Defined.
