(* ===== verification/Bloom.v ===== *)
(** * probabilistic: Bloom filter

    Models [src/probabilistic/bloom_filter.go], the integer part of
    [config.go], [hasher.go] and [internal/bloomhash/indexes.go].  Words are
    64-bit integers.  SHA-256 is the parameter [sum256]; the false-positive
    probability is a value of a type [F] that is only compared and
    range-checked ([fppZero], [fppValid]).  The read-write mutex makes every
    operation one step. *)

From S2P Require Import Prelude GoError.

Local Open Scope Z_scope.

Definition ErrIncompatibleFilter : error := Sentinel "probabilistic.ErrIncompatibleFilter".
Definition ErrNilFilter : error := Sentinel "probabilistic.ErrNilFilter".
Definition ErrNilHasher : error := Sentinel "probabilistic.ErrNilHasher".
Definition ErrEmptyHasherKey : error := Sentinel "probabilistic.ErrEmptyHasherKey".
Definition ConfigError (field message : string) : error :=
  Typed "probabilistic.ConfigError" [FStr field; FStr message] ["probabilistic.ErrInvalidConfig"] None.

Definition maxSupportedMachineWordCount : Z := maxInt64.
Definition bitsPerWord : Z := 64.

(** [wordCount]: the sum wraps. *)
Definition wordCount (bitSize : Z) : Z := wrap_u64 (wrap_u64 (bitSize + bitsPerWord) - 1) / bitsPerWord.

Definition validateWordCount (bitSize : Z) : option error :=
  if bitSize =? 0 then Some (ConfigError "bitSize" "must be greater than zero")
  else
    let words := wordCount bitSize in
    if (words =? 0) || (maxSupportedMachineWordCount <? words)
    then Some (ConfigError "bitSize" "exceeds supported word count") else None.

(** [bits.OnesCount64] *)
Definition OnesCount64 (word : Z) : Z :=
  Z.of_nat (length (filter (λ k, Z.testbit word k = true) (seqZ 0 64))).

(** [countBits]: the total wraps. *)
Definition countBits (words : list Z) : Z :=
  foldl (λ total word, wrap_u64 (total + OnesCount64 word)) 0 words.

(** [binary.BigEndian.Uint64] *)
Definition bigEndianUint64 (bytes : list Z) : Z := foldl (λ a b, a * 256 + b) 0 bytes.

Definition hash2Fallback : Z := 11400714819323198485.

Section bloom.
Context {F T : Type} `{EqDecision F} (fppZero fppValid : F → bool).
Context (sum256 : list Z → list Z).

Definition hashes (bytes : list Z) : Z * Z :=
  let sum := sum256 bytes in
  let hash1 := bigEndianUint64 (take 8 sum) in
  let hash2 := bigEndianUint64 (take 8 (drop 8 sum)) in
  (hash1, if hash2 =? 0 then hash2Fallback else hash2).

(** [Indexes]: the sums and products wrap. *)
Definition Indexes (bytes : list Z) (hashFunctionCount bitSize : Z) : list Z :=
  let '(hash1, hash2) := hashes bytes in
  map (λ i, wrap_u64 (hash1 + wrap_u64 (i * hash2)) mod bitSize) (seqZ 0 hashFunctionCount).

Record Config := mkConfig {
  expectedInsertions : Z;
  falsePositiveProbability : F;
  bitSize : Z;
  hashFunctionCount : Z
}.

(** [normalized] and [normalizeConfig]; [defaultConfig] is [DefaultConfig()]. *)
Definition normalized (defaultConfig c : Config) : Config :=
  if (expectedInsertions c =? 0) && fppZero (falsePositiveProbability c) &&
     (bitSize c =? 0) && (hashFunctionCount c =? 0)
  then defaultConfig else c.

Definition normalizeConfig (defaultConfig c : Config) : result Config :=
  let c := normalized defaultConfig c in
  if (expectedInsertions c =? 0) || (bitSize c =? 0) || (hashFunctionCount c =? 0)
  then Fail (ConfigError "" "must be created with NewConfig or DefaultConfig")
  else if negb (fppValid (falsePositiveProbability c))
  then Fail (ConfigError "falsePositiveProbability" "must be between 0 and 1")
  else match validateWordCount (bitSize c) with
       | Some e => Fail e
       | None => Ok c
       end.

(** [Hasher] *)
Record Hasher := mkHasher { key : string; sum : option (T → list Z) }.

Definition NewHasher (k : string) (s : option (T → list Z)) : result Hasher :=
  if String.eqb k "" then Fail ErrEmptyHasherKey
  else match s with None => Fail ErrNilHasher | Some _ => Ok (mkHasher k s) end.

Definition Hasher_validate (h : Hasher) : option error :=
  if String.eqb (key h) "" then Some ErrEmptyHasherKey
  else match sum h with None => Some ErrNilHasher | Some _ => None end.

Definition Hasher_Bytes (h : Hasher) (value : T) : result (list Z) :=
  match Hasher_validate h, sum h with
  | Some e, _ => Fail e
  | None, Some s => Ok (s value)
  | None, None => Fail ErrNilHasher
  end.

(** [bloomFilter] *)
Record bloomFilter := mkFilter {
  config : Config;
  hasher : Hasher;
  words : list Z;
  bitCount : Z
}.

Definition NewBloomFilter (defaultConfig cfg : Config) (h : Hasher) : result bloomFilter :=
  match normalizeConfig defaultConfig cfg with
  | Fail e => Fail e
  | Ok c =>
      match Hasher_validate h with
      | Some e => Fail e
      | None => Ok (mkFilter c h (replicate (Z.to_nat (wordCount (bitSize c))) 0) 0)
      end
  end.

Definition offsets (f : bloomFilter) (value : T) : result (list Z) :=
  match Hasher_Bytes (hasher f) value with
  | Fail e => Fail e
  | Ok bytes => Ok (Indexes bytes (hashFunctionCount (config f)) (bitSize (config f)))
  end.

Definition getBit (ws : list Z) (index : Z) : bool :=
  let wordIndex := Z.to_nat (Z.shiftr index 6) in
  let mask := Z.shiftl 1 (Z.land index 63) in
  negb (Z.land (default 0 (ws !! wordIndex)) mask =? 0).

(** [setBit]: whether the bit was clear, and the new words. *)
Definition setBit (ws : list Z) (index : Z) : bool * list Z :=
  let wordIndex := Z.to_nat (Z.shiftr index 6) in
  let mask := Z.shiftl 1 (Z.land index 63) in
  let before := default 0 (ws !! wordIndex) in
  (Z.land before mask =? 0, <[wordIndex := Z.lor before mask]> ws).

Definition MightContain (f : bloomFilter) (value : T) : bool :=
  match offsets f value with
  | Fail _ => false
  | Ok os => forallb (getBit (words f)) os
  end.

(** The loop of [Put]. *)
Fixpoint putLoop (os : list Z) (ws : list Z) (count : Z) (changed : bool) : bool * (list Z * Z) :=
  match os with
  | [] => (changed, (ws, count))
  | index :: rest =>
      let '(clear, ws') := setBit ws index in
      if (clear : bool) then putLoop rest ws' (wrap_u64 (count + 1)) true
      else putLoop rest ws' count changed
  end.

Definition Put (f : bloomFilter) (value : T) : bool * bloomFilter :=
  match offsets f value with
  | Fail _ => (false, f)
  | Ok os =>
      let '(changed, (ws, count)) := putLoop os (words f) (bitCount f) false in
      (changed, mkFilter (config f) (hasher f) ws count)
  end.

Definition compatible (f source : bloomFilter) : bool :=
  (expectedInsertions (config f) =? expectedInsertions (config source)) &&
  bool_decide (falsePositiveProbability (config f) = falsePositiveProbability (config source)) &&
  (bitSize (config f) =? bitSize (config source)) &&
  (hashFunctionCount (config f) =? hashFunctionCount (config source)) &&
  String.eqb (key (hasher f)) (key (hasher source)) &&
  (length (words f) =? length (words source))%nat.

(** The argument of [PutAll]: nil, another implementation of the interface, the
    filter itself, or another filter of this package. *)
Inductive otherFilter : Type :=
| NilFilter
| ForeignFilter
| ItselfFilter
| OwnFilter (source : bloomFilter).

Definition PutAll (f : bloomFilter) (other : otherFilter) : option error * bloomFilter :=
  match other with
  | NilFilter => (Some ErrNilFilter, f)
  | ForeignFilter => (Some ErrIncompatibleFilter, f)
  | ItselfFilter => (None, f)
  | OwnFilter source =>
      if negb (compatible f source) then (Some ErrIncompatibleFilter, f)
      else
        let ws := zip_with Z.lor (words f) (words source) in
        (None, mkFilter (config f) (hasher f) ws (countBits ws))
  end.

Definition Clear (f : bloomFilter) : bloomFilter :=
  mkFilter (config f) (hasher f) (replicate (length (words f)) 0) 0.

Definition IsEmpty (f : bloomFilter) : bool := bitCount f =? 0.
End bloom.

(** ** Bits *)

(** The bit at [index] of the words. *)
Definition bitAt (ws : list Z) (index : Z) : bool :=
  Z.testbit (default 0 (ws !! Z.to_nat (index / 64))) (index mod 64).

Lemma land_mask w k : 0 ≤ k → Z.land w (2 ^ k) = if Z.testbit w k then 2 ^ k else 0.
Proof.
  intros Hk. apply Z.bits_inj'. intros i Hi. rewrite Z.land_spec, Z.pow2_bits_eqb by done.
  destruct (Z.eqb_spec k i) as [<-|Hne].
  - destruct (Z.testbit w k); [by rewrite Z.pow2_bits_true|by rewrite Z.bits_0].
  - rewrite andb_false_r. destruct (Z.testbit w k); [|by rewrite Z.bits_0].
    by rewrite Z.pow2_bits_false.
Qed.

Lemma index_split index : 0 ≤ index →
  Z.shiftr index 6 = index / 64 ∧ Z.shiftl 1 (Z.land index 63) = 2 ^ (index mod 64) ∧
  0 ≤ index mod 64 < 64.
Proof.
  intros. split_and!; [by rewrite shiftr_div| |apply Z.mod_pos_bound; lia..].
  change 63 with (2 ^ 6 - 1). by rewrite land_ones_mod, Z.shiftl_1_l by lia.
Qed.

Lemma getBit_spec ws index : 0 ≤ index → getBit ws index = bitAt ws index.
Proof.
  intros Hi. unfold getBit, bitAt. destruct (index_split index Hi) as (-> & -> & Hm).
  rewrite land_mask by lia. destruct (Z.testbit _ _); [|done].
  rewrite (proj2 (Z.eqb_neq _ _)); [done|]. apply Z.pow_nonzero; lia.
Qed.

Lemma setBit_spec ws index clear ws' :
  0 ≤ index < 64 * Z.of_nat (length ws) → setBit ws index = (clear, ws') →
  clear = negb (bitAt ws index) ∧ length ws' = length ws ∧
  ∀ j, 0 ≤ j → bitAt ws' j = (bitAt ws j || (j =? index))%bool.
Proof.
  intros Hi. unfold setBit, bitAt. destruct (index_split index ltac:(lia)) as (-> & -> & Hm).
  assert (Z.to_nat (index / 64) < length ws)%nat as Hlt.
  { assert (index / 64 < Z.of_nat (length ws)) by (apply Z.div_lt_upper_bound; lia).
    assert (0 ≤ index / 64) by (apply Z.div_pos; lia). lia. }
  rewrite land_mask by lia. intros [= <- <-]. split_and!; [|by rewrite length_insert|].
  { destruct (Z.testbit _ _); [|done].
    rewrite (proj2 (Z.eqb_neq _ _)); [done|]. apply Z.pow_nonzero; lia. }
  intros j Hj. assert (0 ≤ j / 64) as Hj1 by (apply Z.div_pos; lia).
  assert (0 ≤ index / 64) by (apply Z.div_pos; lia).
  pose proof (Z.div_mod j 64 ltac:(lia)) as Hdj. pose proof (Z.div_mod index 64 ltac:(lia)) as Hdi.
  pose proof (Z.mod_pos_bound j 64 ltac:(lia)) as Hmj.
  destruct (decide (j / 64 = index / 64)) as [Heq|Hne].
  - rewrite Heq, list_lookup_insert_eq by done. simpl.
    rewrite Z.lor_spec, Z.pow2_bits_eqb by lia. f_equal.
    destruct (Z.eqb_spec (index mod 64) (j mod 64)), (Z.eqb_spec j index); try done; nia.
  - rewrite list_lookup_insert_ne by lia.
    destruct (Z.eqb_spec j index); [congruence|]. by rewrite orb_false_r.
Qed.

(** ** Counting bits *)

Lemma length_filter_add (l : list Z) (P P' : Z → bool) k :
  NoDup l → k ∈ l → (∀ x, P' x = (P x || (x =? k))%bool) →
  length (filter (λ x, P' x = true) l) =
    (length (filter (λ x, P x = true) l) + if P k then 0 else 1)%nat.
Proof.
  intros Hnd Hk HP. induction l as [|x l IH]; [set_solver|].
  apply NoDup_cons in Hnd as [Hx Hnd]. rewrite !filter_cons.
  destruct (decide (x = k)) as [->|Hne].
  - rewrite (decide_True (P := P' k = true)) by (by rewrite HP, Z.eqb_refl, orb_true_r).
    assert (filter (λ x, P' x = true) l = filter (λ x, P x = true) l) as Heq.
    { clear -Hx HP. induction l as [|y l IHl]; [done|]. rewrite !filter_cons, IHl by set_solver.
      rewrite HP. assert ((y =? k) = false) as -> by (apply Z.eqb_neq; set_solver).
      by rewrite orb_false_r. }
    rewrite Heq. destruct (P k); simpl; lia.
  - rewrite HP. assert ((x =? k) = false) as -> by (by apply Z.eqb_neq).
    rewrite orb_false_r. assert (k ∈ l) as Hk' by set_solver.
    specialize (IH Hnd Hk'). destruct (P x); simpl; lia.
Qed.

Lemma OnesCount64_set w k : 0 ≤ k < 64 →
  OnesCount64 (Z.lor w (2 ^ k)) = OnesCount64 w + if Z.testbit w k then 0 else 1.
Proof.
  intros Hk. unfold OnesCount64.
  rewrite (length_filter_add _ (Z.testbit w) (Z.testbit (Z.lor w (2 ^ k))) k).
  - destruct (Z.testbit w k); lia.
  - apply NoDup_seqZ.
  - apply elem_of_seqZ. lia.
  - intros x. rewrite Z.lor_spec, Z.pow2_bits_eqb by lia. by rewrite Z.eqb_sym.
Qed.

(** The number of bits set, not wrapped. *)
Definition total (ws : list Z) : Z := foldr (λ w n, OnesCount64 w + n) 0 ws.

Lemma total_insert ws i w w' : ws !! i = Some w →
  total (<[i := w']> ws) = total ws - OnesCount64 w + OnesCount64 w'.
Proof.
  revert i. induction ws as [|x ws IH]; intros [|i] Hi; simplify_eq/=; [lia|]. rewrite IH by done. lia.
Qed.

Lemma wrap_u64_add_l a b : wrap_u64 (wrap_u64 a + b) = wrap_u64 (a + b).
Proof. unfold wrap_u64. by rewrite Zplus_mod_idemp_l. Qed.

Lemma countBits_total ws : countBits ws = wrap_u64 (total ws).
Proof.
  unfold countBits.
  assert (∀ a, foldl (λ t w, wrap_u64 (t + OnesCount64 w)) (wrap_u64 a) ws = wrap_u64 (a + total ws)) as H.
  { induction ws as [|w ws IH]; intros a; simpl; [f_equal; lia|].
    rewrite wrap_u64_add_l, IH. f_equal. lia. }
  apply (H 0).
Qed.

Lemma total_setBit ws index clear ws' :
  0 ≤ index < 64 * Z.of_nat (length ws) → setBit ws index = (clear, ws') →
  total ws' = total ws + if clear then 1 else 0.
Proof.
  intros Hi Hset. pose proof (setBit_spec ws index clear ws' Hi Hset) as (Hclear & _ & _).
  revert Hset Hclear. unfold setBit, bitAt.
  destruct (index_split index ltac:(lia)) as (-> & -> & Hm). intros [= _ <-] ->.
  assert (Z.to_nat (index / 64) < length ws)%nat as Hlt.
  { assert (index / 64 < Z.of_nat (length ws)) by (apply Z.div_lt_upper_bound; lia).
    assert (0 ≤ index / 64) by (apply Z.div_pos; lia). lia. }
  apply lookup_lt_is_Some in Hlt as [w Hw]. rewrite Hw. simpl.
  rewrite (total_insert _ _ w) by done. rewrite OnesCount64_set by done.
  destruct (Z.testbit w (index mod 64)); simpl; lia.
Qed.

(** ** The loop of [Put] *)

Lemma putLoop_spec os : ∀ ws count changed ch ws' count',
  Forall (λ i, 0 ≤ i < 64 * Z.of_nat (length ws)) os → count = countBits ws →
  putLoop os ws count changed = (ch, (ws', count')) →
  length ws' = length ws ∧ count' = countBits ws' ∧
  (∀ j, 0 ≤ j → bitAt ws' j = (bitAt ws j || existsb (Z.eqb j) os)%bool) ∧
  ch = (changed || negb (forallb (bitAt ws) os))%bool.
Proof.
  induction os as [|i os IH]; intros ws count changed ch ws' count' Hall Hcount;
    cbn [putLoop existsb forallb].
  { intros [= <- <- <-]. split_and!; try done; [intros; by rewrite orb_false_r|by rewrite orb_false_r]. }
  apply Forall_cons in Hall as [Hi Hall]. destruct (setBit ws i) as [clear ws1] eqn:Es.
  pose proof (setBit_spec _ _ _ _ Hi Es) as (Hclear & Hlen & Hbits).
  pose proof (total_setBit _ _ _ _ Hi Es) as Htot.
  assert (Forall (λ i, 0 ≤ i < 64 * Z.of_nat (length ws1)) os) as Hall1 by (by rewrite Hlen).
  assert (∀ l, Forall (λ i, 0 ≤ i < 64 * Z.of_nat (length ws)) l →
    forallb (bitAt ws1) l = forallb (λ j, bitAt ws j || (j =? i)) l) as Hfb.
  { induction 1 as [|x l Hx _ IHl]; simpl; [done|]. by rewrite IHl, Hbits by lia. }
  destruct clear.
  - intros Hloop. apply IH in Hloop as (Hl & Hc & Hb & Hch); [|done|].
    2:{ rewrite Hcount, !countBits_total, Htot. by rewrite wrap_u64_add_l. }
    split_and!; [congruence|done| |].
    + intros j Hj. rewrite Hb, Hbits by done. rewrite <-orb_assoc. f_equal.
    + rewrite Hch. destruct (bitAt ws i); [done|]. simpl. by rewrite !orb_true_r.
  - intros Hloop. apply IH in Hloop as (Hl & Hc & Hb & Hch); [|done|].
    2:{ rewrite Hcount, !countBits_total, Htot. f_equal. lia. }
    split_and!; [congruence|done| |].
    + intros j Hj. rewrite Hb, Hbits by done. rewrite <-orb_assoc. f_equal.
    + rewrite Hch, Hfb by done. destruct (bitAt ws i) eqn:Ei; [|done]. simpl. f_equal. f_equal.
      clear -Ei. induction os as [|x os IHos]; simpl; [done|]. rewrite IHos. f_equal.
      destruct (Z.eqb_spec x i) as [->|]; [by rewrite Ei|by rewrite orb_false_r].
Qed.

(** ** Filters *)

Section filter.
Context {F T : Type} `{EqDecision F} (fppZero fppValid : F → bool).
Context (sum256 : list Z → list Z).
Notation Filter := (bloomFilter (F:=F) (T:=T)).
Notation offsets := (offsets sum256).
Notation MightContain := (MightContain sum256).
Notation Put := (Put sum256).

Definition filterInv (f : Filter) : Prop :=
  0 < bitSize (config f) ≤ 64 * Z.of_nat (length (words f)) ∧ bitCount f = countBits (words f).

Lemma offsets_range (f : Filter) v os : filterInv f → offsets f v = Ok os →
  Forall (λ i, 0 ≤ i < 64 * Z.of_nat (length (words f))) os.
Proof.
  intros [Hsize _]. unfold Bloom.offsets. destruct (Hasher_Bytes (hasher f) v); [|done].
  intros [= <-]. unfold Indexes. destruct (hashes sum256 a) as [h1 h2].
  apply Forall_forall. intros x (i & -> & _)%list_elem_of_fmap.
  pose proof (Z.mod_pos_bound (wrap_u64 (h1 + wrap_u64 (i * h2))) (bitSize (config f))). lia.
Qed.

(** The offsets of a value depend on the configuration and the hasher only. *)
Lemma offsets_ext (f g : Filter) v : config f = config g → hasher f = hasher g →
  offsets f v = offsets g v.
Proof. unfold Bloom.offsets. by intros -> ->. Qed.

Lemma MightContain_spec (f : Filter) v : filterInv f →
  MightContain f v = match offsets f v with
    | Fail _ => false
    | Ok os => forallb (bitAt (words f)) os
    end.
Proof.
  intros Hf. unfold Bloom.MightContain. destruct (offsets f v) as [os|] eqn:Eo; [|done].
  apply offsets_range in Eo; [|done]. induction Eo as [|i os Hi _ IH]; simpl; [done|].
  by rewrite getBit_spec, IH by lia.
Qed.

(** More bits, more answers. *)
Lemma forallb_bits_mono ws ws' os :
  (∀ j, 0 ≤ j → bitAt ws j = true → bitAt ws' j = true) → Forall (λ i, 0 ≤ i) os →
  forallb (bitAt ws) os = true → forallb (bitAt ws') os = true.
Proof.
  intros Hmono. induction 1 as [|i os Hi _ IH]; simpl; [done|].
  rewrite !andb_true_iff. intros [? ?]. auto.
Qed.

Lemma MightContain_mono (f f' : Filter) v :
  filterInv f → filterInv f' → config f' = config f → hasher f' = hasher f →
  (∀ j, 0 ≤ j → bitAt (words f) j = true → bitAt (words f') j = true) →
  MightContain f v = true → MightContain f' v = true.
Proof.
  intros Hf Hf' Hc Hh Hmono. rewrite !MightContain_spec by done.
  rewrite (offsets_ext f' f) by done. destruct (offsets f v) as [os|] eqn:Eo; [|done].
  apply forallb_bits_mono; [done|].
  eapply Forall_impl; [exact (offsets_range f v os Hf Eo)|]. simpl. lia.
Qed.

Lemma Put_spec (f f' : Filter) v changed : filterInv f → Put f v = (changed, f') →
  filterInv f' ∧ config f' = config f ∧ hasher f' = hasher f ∧
  (∀ j, 0 ≤ j → bitAt (words f) j = true → bitAt (words f') j = true) ∧
  match offsets f v with
  | Fail _ => f' = f ∧ changed = false
  | Ok _ => MightContain f' v = true ∧ changed = negb (MightContain f v)
  end.
Proof.
  intros Hf. unfold Bloom.Put. destruct (offsets f v) as [os|e] eqn:Eo.
  2:{ intros [= <- <-]. by split_and!. }
  destruct (putLoop os (words f) (bitCount f) false) as [ch [ws count]] eqn:Ep.
  intros [= <- <-]. apply offsets_range in Eo as Hr; [|done].
  apply putLoop_spec in Ep as (Hl & Hc & Hb & Hch); [|done|apply Hf].
  assert (filterInv (mkFilter (config f) (hasher f) ws count)) as Hf'.
  { destruct Hf as [? _]. split; simpl; [by rewrite Hl|done]. }
  split_and!; try done.
  - intros j Hj Hbit. simpl. by rewrite Hb, Hbit.
  - rewrite MightContain_spec by done. rewrite (offsets_ext _ f) by done. rewrite Eo. simpl.
    apply forallb_forall. intros j Hj. rewrite Forall_forall in Hr.
    rewrite Hb by (apply Hr; by apply list_elem_of_In). apply orb_true_iff. right.
    apply existsb_exists. exists j. split; [done|]. apply Z.eqb_refl.
  - rewrite MightContain_spec, Eo by done. done.
Qed.

Lemma zip_lor_bits ws1 ws2 j : length ws1 = length ws2 →
  bitAt (zip_with Z.lor ws1 ws2) j = (bitAt ws1 j || bitAt ws2 j)%bool.
Proof.
  intros Hlen. unfold bitAt. rewrite lookup_zip_with.
  destruct (ws1 !! Z.to_nat (j / 64)) as [w1|] eqn:E1; simpl.
  - destruct (ws2 !! Z.to_nat (j / 64)) as [w2|] eqn:E2; simpl; [apply Z.lor_spec|].
    apply lookup_ge_None in E2. apply lookup_lt_Some in E1. lia.
  - destruct (ws2 !! Z.to_nat (j / 64)) as [w2|] eqn:E2; simpl; [|by rewrite Z.bits_0].
    apply lookup_ge_None in E1. apply lookup_lt_Some in E2. lia.
Qed.

Lemma compatible_config (f g : Filter) :
  compatible f g = true → config f = config g ∧ length (words f) = length (words g).
Proof.
  unfold compatible. rewrite !andb_true_iff, bool_decide_eq_true, !Z.eqb_eq, Nat.eqb_eq.
  destruct (config f), (config g). simpl. intros (((((-> & ->) & ->) & ->) & _) & ?). done.
Qed.

Lemma PutAll_spec (f g f' : Filter) err : filterInv f → PutAll f (OwnFilter g) = (err, f') →
  filterInv f' ∧ config f' = config f ∧ hasher f' = hasher f ∧
  match err with
  | Some _ => f' = f ∧ compatible f g = false
  | None => config g = config f ∧ ∀ j, bitAt (words f') j = (bitAt (words f) j || bitAt (words g) j)%bool
  end.
Proof.
  intros Hf. unfold PutAll. destruct (compatible f g) eqn:Ec; simpl; [|by intros [= <- <-]].
  apply compatible_config in Ec as [Hc Hl]. intros [= <- <-]. simpl. split_and!; try done.
  - destruct Hf as [? _]. split; simpl; [|done]. rewrite length_zip_with. lia.
  - intros j. by apply zip_lor_bits.
Qed.

Lemma NewBloomFilter_ok dc cfg h (f : Filter) :
  in_u64 (bitSize (normalized fppZero dc cfg)) → NewBloomFilter fppZero fppValid dc cfg h = Ok f →
  filterInv f.
Proof.
  intros Hu. unfold NewBloomFilter, normalizeConfig. set (c := normalized fppZero dc cfg) in *.
  destruct (_ || _ || _) eqn:E0; [done|]. bools. destruct (negb (fppValid _)); [done|].
  unfold validateWordCount. destruct (bitSize c =? 0) eqn:E1; [done|].
  destruct (_ || _) eqn:E2; [done|]. apply orb_false_iff in E2 as [E2 _]. bools.
  destruct (Hasher_validate h); [done|].
  intros [= <-]. unfold filterInv. simpl. rewrite length_replicate. split.
  - unfold wordCount, bitsPerWord, in_u64 in *.
    assert (bitSize c + 63 < 2 ^ 64) as Hlt.
    { destruct (Z_lt_ge_dec (bitSize c + 63) (2 ^ 64)); [done|]. exfalso. apply E2.
      unfold wrap_u64. rewrite (Zminus_mod_idemp_l (bitSize c + 64) 1).
      replace (bitSize c + 64 - 1) with ((bitSize c + 63 - 2 ^ 64) + 1 * 2 ^ 64) by lia.
      rewrite Z.mod_add, Z.mod_small, Z.div_small by lia. done. }
    unfold wrap_u64 in *. rewrite (Zminus_mod_idemp_l (bitSize c + 64) 1) in *.
    rewrite (Z.mod_small (bitSize c + 64 - 1)) in * by lia.
    pose proof (Z.div_mod (bitSize c + 64 - 1) 64 ltac:(lia)).
    pose proof (Z.mod_pos_bound (bitSize c + 64 - 1) 64 ltac:(lia)). lia.
  - rewrite countBits_total. generalize (Z.to_nat (wordCount (bitSize c))). intros n.
    induction n as [|n IH]; [done|]. simpl in *. done.
Qed.

(** ** Sequences of operations *)

Inductive bloomOp : Type :=
| OpPut (v : T)
| OpPutAll (other : otherFilter (F:=F) (T:=T))
| OpClear.

Definition bloomExec (f : Filter) (op : bloomOp) : Filter :=
  match op with
  | OpPut v => (Put f v).2
  | OpPutAll g => (PutAll f g).2
  | OpClear => Clear f
  end.

(** The values a filter has been told of since the last [Clear]: those put,
    and those that a filter with the same hasher merged into it answers for. *)
Definition told (f : Filter) (known : T → Prop) (op : bloomOp) : T → Prop :=
  match op with
  | OpPut v => λ u, u = v ∨ known u
  | OpPutAll (OwnFilter g) => λ u, known u ∨
      (compatible f g = true ∧ hasher g = hasher f ∧ filterInv g ∧ MightContain g u = true)
  | OpPutAll _ => known
  | OpClear => λ _, False
  end.

Fixpoint toldAll (f : Filter) (known : T → Prop) (ops : list bloomOp) : T → Prop :=
  match ops with
  | [] => known
  | op :: rest => toldAll (bloomExec f op) (told f known op) rest
  end.

Lemma bloomExec_told (f : Filter) known op :
  filterInv f → Hasher_validate (hasher f) = None → (∀ u, known u → MightContain f u = true) →
  filterInv (bloomExec f op) ∧ hasher (bloomExec f op) = hasher f ∧
  ∀ u, told f known op u → MightContain (bloomExec f op) u = true.
Proof.
  intros Hf Hh Hknown. destruct op as [v|g|]; simpl.
  - destruct (Put f v) as [ch f'] eqn:Ep. apply Put_spec in Ep as (Hf' & Hc & Hha & Hm & Hr); [|done].
    simpl. split_and!; [done|done|]. intros u [->|Hu].
    + unfold Bloom.offsets, Hasher_Bytes in Hr. rewrite Hh in Hr.
      unfold Hasher_validate in Hh. destruct (String.eqb _ _); [done|].
      destruct (sum (hasher f)); [|done]. apply Hr.
    + eapply (MightContain_mono f); auto.
  - destruct g as [| | |g]; [by split_and!..|].
    destruct (PutAll f (OwnFilter g)) as [err f'] eqn:Ep. pose proof Ep as Hrun.
    apply PutAll_spec in Ep as (Hf' & Hc & Hha & Hr); [|done]. simpl. split_and!; [done|done|].
    intros u [Hu|(Hcomp & Hhg & Hg & Hu)].
    + eapply (MightContain_mono f); auto. destruct err; [by destruct Hr as [-> _]|].
      destruct Hr as [_ Hb]. intros j _ Hj. by rewrite Hb, Hj.
    + destruct err; [destruct Hr; congruence|]. destruct Hr as [Hcg Hb].
      eapply (MightContain_mono g); [done|done|congruence|congruence| |done].
      intros j _ Hj. by rewrite Hb, Hj, orb_true_r.
  - split_and!; [|done|done]. destruct Hf as [? _]. split; simpl; [by rewrite length_replicate|].
    rewrite countBits_total. generalize (length (words f)). intros n.
    induction n as [|n IH]; [done|]. simpl in *. done.
Qed.

(** C37. A Bloom filter has no false negatives: after any sequence of [Put],
    [PutAll] and [Clear], it answers [true] for every value put, or merged from
    a compatible filter that answered [true], since the last [Clear].  Its bit
    count is always the number of bits set, and [Put] reports a change exactly
    when the filter did not contain the value before. *)
Theorem bloom_no_false_negatives dc cfg h (f : Filter) ops :
  in_u64 (bitSize (normalized fppZero dc cfg)) → NewBloomFilter fppZero fppValid dc cfg h = Ok f →
  let f' := foldl bloomExec f ops in
  (∀ u, toldAll f (λ _, False) ops u → MightContain f' u = true) ∧
  bitCount f' = countBits (words f') ∧
  (∀ v, (Put f' v).1 = negb (MightContain f' v)).
Proof.
  intros Hu Hnew. pose proof (NewBloomFilter_ok _ _ _ _ Hu Hnew) as Hf.
  assert (Hasher_validate (hasher f) = None) as Hh.
  { unfold NewBloomFilter in Hnew. destruct (normalizeConfig _ _ _ _); [|done].
    destruct (Hasher_validate h) eqn:Eh; [done|]. by injection Hnew as <-. }
  assert (∀ ops (f : Filter) known, filterInv f → Hasher_validate (hasher f) = None →
    (∀ u, known u → MightContain f u = true) →
    filterInv (foldl bloomExec f ops) ∧ Hasher_validate (hasher (foldl bloomExec f ops)) = None ∧
    ∀ u, toldAll f known ops u → MightContain (foldl bloomExec f ops) u = true) as Hops.
  { clear. induction ops as [|op ops IH]; intros f known Hf Hh Hk; [done|]. simpl.
    destruct (bloomExec_told f known op Hf Hh Hk) as (Hf1 & Hh1 & Hk1).
    apply IH; [done|by rewrite Hh1|done]. }
  destruct (Hops ops f (λ _, False) Hf Hh) as (Hf' & Hh' & Htold); [done|]. simpl. split_and!.
  - done.
  - apply Hf'.
  - intros v. destruct (Put (foldl bloomExec f ops) v) as [ch f2] eqn:Ep.
    apply Put_spec in Ep as (_ & _ & _ & _ & Hr); [|done]. simpl.
    unfold Bloom.offsets, Hasher_Bytes in Hr. rewrite Hh' in Hr.
    unfold Hasher_validate in Hh'. destruct (String.eqb _ _); [done|].
    destruct (sum (hasher _)); [|done]. apply Hr.
Qed.
End filter.

(** ** Witnesses *)

Definition demoSum (bytes : list Z) : list Z := replicate 7 0 ++ take 1 bytes ++ replicate 24 1.
Definition demoHasher : Hasher (T:=Z) := mkHasher "demo" (Some (λ v, [v])).
Definition demoConfig : Config (F:=nat) := mkConfig 10 1%nat 100 3.
Definition demoFilter : bloomFilter (F:=nat) (T:=Z) := mkFilter demoConfig demoHasher [0; 0] 0.

Lemma bloom_no_false_negatives_witness :
  MightContain demoSum (foldl (bloomExec demoSum) demoFilter [OpPut 5; OpPut 9]) 5 = true ∧
  MightContain demoSum (foldl (bloomExec demoSum) demoFilter [OpPut 5; OpPut 9]) 6 = false.
Proof.
  split; [|vm_compute; reflexivity].
  destruct (bloom_no_false_negatives (λ p, Nat.eqb p 0) (λ p, Nat.eqb p 1) demoSum demoConfig demoConfig
    demoHasher demoFilter [OpPut 5; OpPut 9]) as [H _].
  - split; vm_compute; [intros H; discriminate H|reflexivity].
  - vm_compute. reflexivity.
  - apply H. exact (or_intror (or_introl eq_refl)).
Defined.
