(* ===== verification/Envelope.v ===== *)
(** * serialization: the versioned envelope

    Models [src/serialization/envelope.go] and [BytesSerializer] of
    [raw.go].  Byte slices are lists of integers below 256; a format name is
    its bytes.  A serializer is a record of its operations, and [Faithful]
    states what the envelope relies on. *)

From S2P Require Import Prelude GoError.

Local Open Scope Z_scope.

Definition ErrInvalidEnvelope : error := Sentinel "serialization.ErrInvalidEnvelope".
Definition ErrFormatMismatch : error := Sentinel "serialization.ErrFormatMismatch".
Definition ErrUnsupportedVersion : error := Sentinel "serialization.ErrUnsupportedVersion".

(** "BTGS" *)
Definition envelopeMagic : list Z := [66; 84; 71; 83].

(** [copy(buf[off:], src)] *)
Definition copyAt (off : nat) (src buf : list Z) : list Z :=
  take off buf ++ take (length buf - off) src ++ drop (off + length src) buf.

(** [binary.BigEndian.PutUint16] and [Uint16] *)
Definition putUint16 (off : nat) (v : Z) (buf : list Z) : list Z :=
  <[S off := v mod 256]> (<[off := Z.shiftr v 8 mod 256]> buf).
Definition uint16 (bytes : list Z) : Z :=
  Z.lor (Z.shiftl (default 0 (bytes !! 0%nat)) 8) (default 0 (bytes !! 1%nat)).

(** [NamedSerializer] *)
Record NamedSerializer (T : Type) := mkNamed {
  Format : list Z;
  Marshal : T → result (list Z);
  Unmarshal : list Z → result T
}.
Arguments Format {T} _.
Arguments Marshal {T} _ _.
Arguments Unmarshal {T} _ _.

(** What a serializer promises: its output reads back, and formats are bytes. *)
Class Faithful {T} (s : NamedSerializer T) : Prop := {
  faithful_roundtrip v bytes : Marshal s v = Ok bytes → Unmarshal s bytes = Ok v;
  faithful_format : Forall is_byte (Format s)
}.

Record VersionedSerializer (T : Type) := mkVersioned {
  serializer : NamedSerializer T;
  version : Z
}.
Arguments serializer {T} _.
Arguments version {T} _.
Arguments mkVersioned {T} _ _.

Section envelope.
Context {T : Type}.

Definition NewVersionedSerializer (s : option (NamedSerializer T)) (v : Z)
    : result (VersionedSerializer T) :=
  match s with
  | None => Fail (Errorf "serializer must not be nil" [])
  | Some s =>
      match Format s with
      | [] => Fail (Errorf "serializer format must not be empty" [])
      | _ =>
          if (255 <? length (Format s))%nat
          then Fail (Errorf "serializer format must fit in 255 bytes" [])
          else if v =? 0 then Fail (Errorf "serializer version must be positive" [])
          else Ok (mkVersioned s v)
      end
  end.

(** [VersionedSerializer.Marshal] *)
Definition VMarshal (s : VersionedSerializer T) (value : T) : result (list Z) :=
  match Marshal (serializer s) value with
  | Fail e => Fail e
  | Ok payload =>
      let format := Format (serializer s) in
      let headerLen := (length envelopeMagic + 2 + 1 + length format)%nat in
      let result := replicate (headerLen + length payload) 0 in
      let result := copyAt 0 envelopeMagic result in
      let result := putUint16 4 (version s) result in
      let result := <[6%nat := Z.of_nat (length format) mod 256]> result in
      let result := copyAt 7 format result in
      Ok (copyAt headerLen payload result)
  end.

(** [VersionedSerializer.payload] *)
Definition payload (s : VersionedSerializer T) (data : list Z) : result (list Z) :=
  if (length data <? 7)%nat then Fail (Errorf "%w: header too short" [ErrInvalidEnvelope])
  else if negb (bool_decide (take 4 data = envelopeMagic))
  then Fail (Errorf "%w: bad magic" [ErrInvalidEnvelope])
  else
    let v := uint16 (take 2 (drop 4 data)) in
    if version s <? v then Fail (Errorf "%w: got %d want <= %d" [ErrUnsupportedVersion])
    else
      let formatLen := Z.to_nat (default 0 (data !! 6%nat)) in
      let headerLen := (7 + formatLen)%nat in
      if (length data <? headerLen)%nat
      then Fail (Errorf "%w: format truncated" [ErrInvalidEnvelope])
      else if negb (bool_decide (take formatLen (drop 7 data) = Format (serializer s)))
      then Fail (Errorf "%w: got %q want %q" [ErrFormatMismatch])
      else Ok (drop headerLen data).

(** [VersionedSerializer.Unmarshal] *)
Definition VUnmarshal (s : VersionedSerializer T) (data : list Z) : result T :=
  match payload s data with
  | Fail e => Fail e
  | Ok p => Unmarshal (serializer s) p
  end.
End envelope.

(** [BytesSerializer.Unmarshal] of a slice that may be nil. *)
Definition bytesUnmarshal (data : option (list Z)) : result (list Z) :=
  match data with
  | None => Fail (Errorf "unmarshal bytes: input must not be nil" [])
  | Some d => Ok (copyAt 0 d (replicate (length d) 0))
  end.

(** [BytesSerializer]; the payload of an envelope is never nil. *)
Definition BytesSerializer : NamedSerializer (list Z) :=
  mkNamed _ [98; 121; 116; 101; 115] (λ value, Ok (copyAt 0 value (replicate (length value) 0)))
    (λ data, bytesUnmarshal (Some data)).

Lemma copyAt_whole src buf : length src = length buf → copyAt 0 src buf = src.
Proof.
  intros Hl. unfold copyAt. rewrite take_0. simpl.
  rewrite take_ge, drop_ge by lia. apply app_nil_r.
Qed.

#[export] Instance bytes_faithful : Faithful BytesSerializer.
Proof.
  split; [|by repeat constructor]. intros v bytes. simpl.
  rewrite !copyAt_whole by (by rewrite length_replicate). by intros [= ->].
Qed.

(** ** The bytes of an envelope *)

Definition envelope (format : list Z) (v : Z) (body : list Z) : list Z :=
  envelopeMagic ++ [v / 256; v mod 256; Z.of_nat (length format)] ++ format ++ body.

Lemma copyAt_middle off src (l m r : list Z) :
  length l = off → length m = length src → copyAt off src (l ++ m ++ r) = l ++ src ++ r.
Proof.
  intros <- Hm. unfold copyAt. rewrite take_app_length. f_equal.
  rewrite !length_app, take_ge by lia. f_equal.
  rewrite drop_app_ge by lia. replace (length l + length src - length l)%nat with (length m) by lia.
  apply drop_app_length.
Qed.

Section roundtrip.
Context {T : Type}.

Lemma VMarshal_envelope (s : VersionedSerializer T) value body :
  1 ≤ version s < 2 ^ 16 → (length (Format (serializer s)) ≤ 255)%nat →
  Marshal (serializer s) value = Ok body →
  VMarshal s value = Ok (envelope (Format (serializer s)) (version s) body).
Proof.
  intros Hv Hf Hm. unfold VMarshal. rewrite Hm. set (fmt := Format (serializer s)) in *. f_equal.
  replace (replicate (length envelopeMagic + 2 + 1 + length fmt + length body) 0)
    with ([] ++ replicate 4 0 ++ [0; 0; 0] ++ replicate (length fmt) 0 ++ replicate (length body) 0).
  2:{ rewrite !replicate_add. by rewrite <-!(assoc_L app). }
  rewrite copyAt_middle by done. unfold putUint16. simpl.
  rewrite shiftr_div by lia. rewrite (Z.mod_small (version s / 2 ^ 8)).
  2:{ split; [apply Z.div_pos; lia|apply Z.div_lt_upper_bound; lia]. }
  rewrite (Z.mod_small (Z.of_nat (length fmt))) by lia.
  set (head := [66; 84; 71; 83; version s / 2 ^ 8; version s mod 256; Z.of_nat (length fmt)]).
  change (copyAt (length (head ++ fmt)) body
    (copyAt 7 fmt (head ++ replicate (length fmt) 0 ++ replicate (length body) 0)) =
    head ++ fmt ++ body).
  rewrite (copyAt_middle 7) by (by rewrite ?length_replicate).
  rewrite <-(app_nil_r (replicate (length body) 0)), (assoc_L app).
  rewrite copyAt_middle by (by rewrite ?length_replicate).
  by rewrite app_nil_r, <-(assoc_L app).
Qed.

Lemma payload_envelope (s : VersionedSerializer T) fmt v body :
  0 ≤ v < 2 ^ 16 → (length fmt ≤ 255)%nat →
  payload s (envelope fmt v body) =
    if version s <? v then Fail (Errorf "%w: got %d want <= %d" [ErrUnsupportedVersion])
    else if negb (bool_decide (fmt = Format (serializer s)))
    then Fail (Errorf "%w: got %q want %q" [ErrFormatMismatch])
    else Ok body.
Proof.
  intros Hv Hf. unfold payload, envelope.
  assert (uint16 [v / 256; v mod 256] = v) as Huint.
  { unfold uint16. simpl default. rewrite lor_shiftl_add by (try lia; apply Z.mod_pos_bound; lia).
    change (2 ^ 8) with 256. pose proof (Z.div_mod v 256 ltac:(lia)). lia. }
  set (data := envelopeMagic ++ _).
  assert (length data = (7 + length fmt + length body)%nat) as Hlen.
  { unfold data. rewrite !length_app. simpl. lia. }
  rewrite (proj2 (Nat.ltb_ge (length data) 7)) by lia.
  rewrite bool_decide_eq_true_2 by done. simpl negb. cbv iota.
  change (take 2 (drop 4 data)) with [v / 256; v mod 256]. rewrite Huint.
  change (data !! 6%nat) with (Some (Z.of_nat (length fmt))). simpl default. rewrite Nat2Z.id.
  destruct (version s <? v); [done|].
  rewrite (proj2 (Nat.ltb_ge (length data) _)) by lia.
  change (drop 7 data) with (drop 0 (fmt ++ body)). rewrite drop_0, take_app_length.
  replace (drop (7 + length fmt) data) with body; [done|].
  rewrite <-drop_drop. change (drop 7 data) with (drop 0 (fmt ++ body)). by rewrite drop_0, drop_app_length.
Qed.

(** An envelope reads back: whatever a versioned serializer writes, every
    serializer of the same format and of that version or a later one reads as
    the same value.  An older one answers [ErrUnsupportedVersion], and one of
    another format [ErrFormatMismatch], never a wrong value. *)
Theorem envelope_roundtrip (inner inner' : NamedSerializer T) v v' s s' value data :
  Faithful inner → NewVersionedSerializer (Some inner) v = Ok s →
  NewVersionedSerializer (Some inner') v' = Ok s' → 0 ≤ v < 2 ^ 16 →
  VMarshal s value = Ok data →
  (v ≤ v' → inner' = inner → VUnmarshal s' data = Ok value) ∧
  (v' < v → ∃ e, VUnmarshal s' data = Fail e ∧
     errors_Is e "serialization.ErrUnsupportedVersion" = true) ∧
  (v ≤ v' → Format inner' ≠ Format inner → ∃ e, VUnmarshal s' data = Fail e ∧
     errors_Is e "serialization.ErrFormatMismatch" = true).
Proof.
  intros Hfaith Hnew Hnew' Hv Hm.
  assert (s = mkVersioned inner v ∧ (length (Format inner) ≤ 255)%nat ∧ v ≠ 0) as (-> & Hlen & Hv0).
  { unfold NewVersionedSerializer in Hnew. destruct (Format inner); [done|].
    destruct (Nat.ltb_spec 255 (length (z :: l))); [done|].
    destruct (v =? 0) eqn:E; [done|]. bools. injection Hnew as <-. auto. }
  assert (s' = mkVersioned inner' v') as ->.
  { unfold NewVersionedSerializer in Hnew'. destruct (Format inner'); [done|].
    destruct (_ <? _)%nat; [done|]. destruct (v' =? 0); [done|]. by injection Hnew' as <-. }
  destruct (Marshal inner value) as [body|e] eqn:Em.
  2:{ unfold VMarshal in Hm. simpl in Hm. by rewrite Em in Hm. }
  rewrite (VMarshal_envelope (mkVersioned inner v) value body) in Hm by (simpl; auto; lia).
  injection Hm as <-. unfold VUnmarshal. rewrite payload_envelope by (done || lia). simpl.
  split_and!.
  - intros Hle ->. destruct (v' <? v) eqn:E; bools; [lia|].
    rewrite bool_decide_eq_true_2 by done. simpl. by apply faithful_roundtrip.
  - intros Hlt. apply Z.ltb_lt in Hlt as ->. by eexists.
  - intros Hle Hne. destruct (v' <? v) eqn:E; bools; [lia|].
    rewrite bool_decide_eq_false_2 by congruence. by eexists.
Qed.
End roundtrip.

Lemma envelope_roundtrip_witness :
  VUnmarshal (mkVersioned BytesSerializer 9)
    [66; 84; 71; 83; 0; 3; 5; 98; 121; 116; 101; 115; 1; 2] = Ok [1; 2].
Proof.
  apply (envelope_roundtrip BytesSerializer BytesSerializer 3 9 (mkVersioned BytesSerializer 3)
    (mkVersioned BytesSerializer 9) [1; 2]); try reflexivity; [apply bytes_faithful|lia|lia].
Defined.
