(* ===== verification/BatchWrite.v ===== *)
(** * dynamodb/batchwrite: chunked batch writes with retry of unprocessed items

    Models [src/dynamodb/batchwrite/batchwrite.go].  The DynamoDB client is a
    call on the world; items ([types.WriteRequest]), consumed-capacity records
    and metrics are opaque types.  [timer] is the [select] on a timer and
    [ctx.Done()].  A nil map and an empty one are both the empty map. *)

From S2P Require Import Prelude GoError.

Local Open Scope Z_scope.

Definition MaxItemsPerBatch : nat := 25.
Definition DefaultMaxAttempts : Z := 3.
Definition ErrNilClient : error := Sentinel "batchwrite.ErrNilClient".
Definition ErrEmptyRequestItems : error := Sentinel "batchwrite.ErrEmptyRequestItems".
Definition ErrInvalidMaxAttempts : error := Sentinel "batchwrite.ErrInvalidMaxAttempts".

(** The order of [sort.Strings]. *)
Definition string_le (a b : string) : Prop := String.leb a b = true.
#[export] Instance string_le_dec : RelDecision string_le.
Proof. intros a b. unfold string_le. apply _. Defined.

Section batchwrite.
Context {W Item Capacity Metrics : Type}.
Notation requests := (gmap string (list Item)).

(** The errors of [WriteAll]: an [UnprocessedItemsError] value with its two
    fields, or any other error. *)
Inductive writeError : Type :=
| UnprocessedItemsError (attempts : Z) (items : requests)
| OtherError (e : error).

(** [errors.Is(err, ErrUnprocessedItems)] *)
Definition isUnprocessed (err : writeError) : bool :=
  match err with
  | UnprocessedItemsError _ _ => true
  | OtherError e => errors_Is e "batchwrite.ErrUnprocessedItems"
  end.

(** [dynamodb.BatchWriteItemInput] *)
Record BatchWriteItemInput := mkInput {
  RequestItems : requests;
  InConsumedCapacity : string;
  InItemCollectionMetrics : string
}.

(** [dynamodb.BatchWriteItemOutput] *)
Record BatchWriteItemOutput := mkOutput {
  UnprocessedItems : requests;
  OutConsumedCapacity : list Capacity;
  OutItemCollectionMetrics : gmap string (list Metrics)
}.

(** [Client]: the output is nil for [None]. *)
Definition Client : Type :=
  Context W → BatchWriteItemInput → Call W (result (option BatchWriteItemOutput)).

(** [Backoff]: the delay after a 1-based attempt. *)
Definition Backoff : Type := Z → Call W Z.

Record Options := mkOptions {
  MaxAttempts : Z;
  OptBackoff : option Backoff;
  ReturnConsumedCapacity : string;
  ReturnItemCollectionMetrics : string
}.
Definition Option_ : Type := Options → Options.

Record Result := mkResult {
  Attempts : Z;
  Processed : Z;
  ConsumedCapacity : list Capacity;
  ItemCollectionMetrics : gmap string (list Metrics)
}.

Definition WithMaxAttempts (n : Z) : Option_ := λ o,
  mkOptions n (OptBackoff o) (ReturnConsumedCapacity o) (ReturnItemCollectionMetrics o).
Definition WithBackoff (b : option Backoff) : Option_ := λ o,
  mkOptions (MaxAttempts o) b (ReturnConsumedCapacity o) (ReturnItemCollectionMetrics o).
Definition WithReturnConsumedCapacity (v : string) : Option_ := λ o,
  mkOptions (MaxAttempts o) (OptBackoff o) v (ReturnItemCollectionMetrics o).
Definition WithReturnItemCollectionMetrics (v : string) : Option_ := λ o,
  mkOptions (MaxAttempts o) (OptBackoff o) (ReturnConsumedCapacity o) v.

Definition noDelay : Backoff := λ _, mret 0.

(** The backoff of options that went through [newOptions]. *)
Definition cfgBackoff (cfg : Options) : Backoff :=
  match OptBackoff cfg with Some b => b | None => noDelay end.

(** [newOptions] *)
Definition newOptions (optionFns : list (option Option_)) : result Options :=
  let cfg := foldl (λ cfg o, match o with Some f => f cfg | None => cfg end)
               (mkOptions DefaultMaxAttempts (Some noDelay) "" "") optionFns in
  if MaxAttempts cfg <=? 0 then Fail ErrInvalidMaxAttempts
  else match OptBackoff cfg with
       | Some _ => Ok cfg
       | None => Ok (WithBackoff (Some noDelay) cfg)
       end.

Definition tableWrite : Type := string * Item.

(** [flattenRequestItems] *)
Definition flattenRequestItems (requestItems : requests) : list tableWrite :=
  let tables := merge_sort string_le (map_to_list requestItems).*1 in
  mjoin (map (λ table, map (pair table) (default [] (requestItems !! table))) tables).

(** [chunkItems]; the loop runs at most once per item. *)
Fixpoint chunkItemsLoop (fuel : nat) (items : list tableWrite) (size : nat) : list (list tableWrite) :=
  match fuel, items with
  | S fuel', _ :: _ => take size items :: chunkItemsLoop fuel' (drop size items) size
  | _, _ => []
  end.

Definition chunkItems (items : list tableWrite) (size : nat) : list (list tableWrite) :=
  chunkItemsLoop (length items) items size.

Definition itemsToRequestMap (items : list tableWrite) : requests :=
  foldl (λ m '(table, item), <[table := default [] (m !! table) ++ [item]]> m) ∅ items.

(** [cloneRequestItems]: a map of copied slices, nil for an empty one; the
    same finite map. *)
Definition cloneRequestItems (requestItems : requests) : requests :=
  if decide (size requestItems = 0%nat) then ∅ else (λ items, [] ++ items) <$> requestItems.

Definition countRequestItems (requestItems : requests) : Z :=
  foldr (λ p n, Z.of_nat (length p.2) + n) 0 (map_to_list requestItems).

(** [sleep] *)
Definition sleep (timer : Context W → Z → Call W (option error)) (ctx : Context W) (delay : Z)
    : Call W (option error) :=
  if delay <=? 0 then ctx_Err ctx else timer ctx delay.

(** [Result.merge] *)
Definition merge (r : Result) (out : option BatchWriteItemOutput) : Result :=
  match out with
  | None => r
  | Some o =>
      mkResult (Attempts r) (Processed r) (ConsumedCapacity r ++ OutConsumedCapacity o)
        (map_fold (λ table metrics m, <[table := default [] (m !! table) ++ metrics]> m)
           (ItemCollectionMetrics r) (OutItemCollectionMetrics o))
  end.

Definition addAttempt (r : Result) : Result :=
  mkResult (Attempts r + 1) (Processed r) (ConsumedCapacity r) (ItemCollectionMetrics r).
Definition addProcessed (r : Result) (n : Z) : Result :=
  mkResult (Attempts r) (Processed r + n) (ConsumedCapacity r) (ItemCollectionMetrics r).

Section write.
Context (timer : Context W → Z → Call W (option error)) (client : Client).
Context (cfg : Options) (ctx : Context W).

(** The attempts of one chunk, [left] of them before [cfg.MaxAttempts]. *)
Fixpoint attemptLoop (left : nat) (attempt : Z) (chunkTotal : Z) (pending : requests) (r : Result)
    : Call W (Result * option writeError) :=
  match left with
  | 0%nat => mret (r, None)
  | S left' =>
      cerr ← ctx_Err ctx;
      match cerr with
      | Some e => mret (r, Some (OtherError e))
      | None =>
          let r1 := addAttempt r in
          res ← client ctx (mkInput pending (ReturnConsumedCapacity cfg)
                              (ReturnItemCollectionMetrics cfg));
          match res with
          | Fail e => mret (r1, Some (OtherError (Errorf "batch write items attempt %d: %w" [e])))
          | Ok out =>
              let r2 := merge r1 out in
              let unprocessed := cloneRequestItems
                                   match out with Some o => UnprocessedItems o | None => ∅ end in
              let remaining := countRequestItems unprocessed in
              if remaining =? 0 then mret (addProcessed r2 chunkTotal, None)
              else if attempt =? MaxAttempts cfg
              then mret (addProcessed r2 (chunkTotal - remaining),
                         Some (UnprocessedItemsError attempt unprocessed))
              else
                delay ← cfgBackoff cfg attempt;
                serr ← sleep timer ctx delay;
                match serr with
                | Some e => mret (r2, Some (OtherError e))
                | None => attemptLoop left' (attempt + 1) chunkTotal unprocessed r2
                end
          end
      end
  end.

(** The loop over the chunks. *)
Fixpoint chunksLoop (chunks : list (list tableWrite)) (r : Result) : Call W (Result * option writeError) :=
  match chunks with
  | [] => mret (r, None)
  | chunk :: rest =>
      out ← attemptLoop (Z.to_nat (MaxAttempts cfg)) 1 (Z.of_nat (length chunk)) (itemsToRequestMap chunk) r;
      match out with
      | (r', Some e) => mret (r', Some e)
      | (r', None) => chunksLoop rest r'
      end
  end.
End write.

Definition zeroResult : Result := mkResult 0 0 [] ∅.

(** [WriteAll] *)
Definition WriteAll (timer : Context W → Z → Call W (option error)) (octx : option (Context W))
    (client : option Client) (requestItems : requests) (options : list (option Option_))
    : Call W (Result * option writeError) :=
  let ctx := orBackground octx in
  match client with
  | None => mret (zeroResult, Some (OtherError ErrNilClient))
  | Some c =>
      match newOptions options with
      | Fail e => mret (zeroResult, Some (OtherError e))
      | Ok cfg =>
          let items := flattenRequestItems requestItems in
          match items with
          | [] => mret (zeroResult, Some (OtherError ErrEmptyRequestItems))
          | _ => chunksLoop timer c cfg ctx (chunkItems items MaxItemsPerBatch) zeroResult
          end
      end
  end.
End batchwrite.
Arguments Client : clear implicits.
Arguments Result : clear implicits.

(** ** The request maps as multisets of writes *)

Section request_maps.
Context {Item : Type}.
Notation requests := (gmap string (list Item)).
Implicit Types (m : requests) (l : list (@tableWrite Item)).

Definition entries (p : string * list Item) : list (@tableWrite Item) := pair p.1 <$> p.2.
Notation writes m := (map_to_list m ≫= entries).

Lemma flatten_writes m : flattenRequestItems m ≡ₚ writes m.
Proof.
  unfold flattenRequestItems.
  assert (∀ k, k ⊆ map_to_list m →
    mjoin (map (λ t, map (pair t) (default [] (m !! t))) k.*1) = k ≫= entries) as Hin.
  { induction k as [|[t its] k IH]; intros Hk; [done|]. simpl.
    assert (m !! t = Some its) as -> by (apply elem_of_map_to_list, Hk; left).
    f_equal. apply IH. intros ??. apply Hk. by right. }
  rewrite <-Hin by done.
  rewrite (merge_sort_Permutation string_le). done.
Qed.

Lemma count_writes m : countRequestItems m = Z.of_nat (length (flattenRequestItems m)).
Proof.
  rewrite flatten_writes. unfold countRequestItems.
  induction (map_to_list m) as [|[t its] k IH]; [done|].
  rewrite bind_cons, length_app. cbn [foldr snd]. rewrite IH.
  unfold entries at 2. cbn [fst snd]. rewrite length_fmap. by rewrite Nat2Z.inj_add.
Qed.

Lemma writes_insert m t x :
  writes (<[t := default [] (m !! t) ++ [x]]> m) ≡ₚ writes m ++ [(t, x)].
Proof.
  destruct (m !! t) as [its|] eqn:Ht; simpl.
  - rewrite <-(insert_delete_id m t its Ht) at 2. rewrite <-insert_delete_eq.
    rewrite !map_to_list_insert by apply lookup_delete_eq. simpl.
    unfold entries at 1 3; simpl. rewrite fmap_app. simpl. solve_Permutation.
  - rewrite map_to_list_insert by done. simpl. unfold entries at 1; simpl. solve_Permutation.
Qed.

Lemma flatten_itemsToRequestMap l : flattenRequestItems (itemsToRequestMap l) ≡ₚ l.
Proof.
  rewrite flatten_writes. unfold itemsToRequestMap.
  assert (∀ m, writes (foldl (λ m '(t, x), <[t := default [] (m !! t) ++ [x]]> m) m l)
               ≡ₚ writes m ++ l) as Hm.
  { induction l as [|[t x] l IH]; intros m; simpl; [by rewrite app_nil_r|].
    rewrite IH, writes_insert. by rewrite <-(assoc_L app). }
  by rewrite Hm.
Qed.

Lemma cloneRequestItems_id m : cloneRequestItems m = m.
Proof.
  unfold cloneRequestItems. case_decide as Hs; [symmetry; by apply map_size_empty_iff|].
  by rewrite map_fmap_id.
Qed.

(** The chunks are the items in order, cut into full batches and a rest. *)
Lemma chunkItemsLoop_spec fuel l k : (0 < k)%nat → (length l ≤ fuel)%nat →
  mjoin (chunkItemsLoop fuel l k) = l ∧
  Forall (λ c, 1 ≤ length c ≤ k)%nat (chunkItemsLoop fuel l k) ∧
  length (chunkItemsLoop fuel l k) = ((length l + k - 1) / k)%nat.
Proof.
  intros Hk. revert l. induction fuel as [|fuel IH]; intros l Hl.
  { destruct l; [|simpl in Hl; lia]. simpl.
    rewrite (Nat.div_small (k - 1) k) by lia. done. }
  destruct l as [|x l]; [simpl; rewrite (Nat.div_small (k - 1) k) by lia; done|].
  cbn [chunkItemsLoop].
  destruct (IH (drop k (x :: l))) as (Hj & Hf & Hn).
  { rewrite length_drop. simpl in *. lia. }
  split_and!.
  - etrans; [exact (f_equal (app (take k (x :: l))) Hj)|]. apply take_drop.
  - constructor; [|done]. rewrite length_take. simpl. lia.
  - cbn [length]. rewrite Hn, length_drop. cbn [length].
    destruct (decide (S (length l) ≤ k)%nat) as [Hle|Hgt].
    + replace (S (length l) - k + k - 1)%nat with (k - 1)%nat by lia.
      rewrite (Nat.div_small (k - 1) k) by lia.
      apply (Nat.div_unique _ _ _ (length l)); lia.
    + replace (S (length l) + k - 1)%nat with (S (length l) - k + k - 1 + 1 * k)%nat by lia.
      rewrite Nat.div_add by lia. lia.
Qed.

Lemma chunkItems_spec l :
  mjoin (chunkItems l MaxItemsPerBatch) = l ∧
  Forall (λ c, 1 ≤ length c ≤ MaxItemsPerBatch)%nat (chunkItems l MaxItemsPerBatch) ∧
  length (chunkItems l MaxItemsPerBatch)
    = ((length l + MaxItemsPerBatch - 1) / MaxItemsPerBatch)%nat.
Proof. apply chunkItemsLoop_spec; unfold MaxItemsPerBatch; lia. Qed.
End request_maps.

(** ** Every write is accounted for *)

Section accounting.
Context {W Item Capacity Metrics : Type}.
Notation requests := (gmap string (list Item)).
Notation write := (@tableWrite Item).
Notation Output := (@BatchWriteItemOutput Item Capacity Metrics).
Notation client_t := (@Client W Item Capacity Metrics).
Notation result_t := (@Result Capacity Metrics).

Definition unprocessedOf (out : option Output) : requests :=
  match out with Some o => UnprocessedItems o | None => ∅ end.

(** What [BatchWriteItem] documents, with the writes the tables have taken
    ([accepted]) as the observable: a request of 1 to 25 writes is either
    answered, and then every write that is not returned as unprocessed was
    applied, or fails, and then some of its writes may have been applied.
    Requests of another size carry no promise. *)
Record BatchWriteItemLaw (accepted : W → list write) (client : client_t) : Prop := {
  law_ok ctx inp w out w' :
    (1 ≤ length (flattenRequestItems (RequestItems inp)) ≤ 25)%nat →
    client ctx inp w = (Ok out, w') →
    ∃ newly, flattenRequestItems (RequestItems inp)
               ≡ₚ newly ++ flattenRequestItems (unprocessedOf out) ∧
             accepted w' ≡ₚ newly ++ accepted w;
  law_fail ctx inp w e w' :
    (1 ≤ length (flattenRequestItems (RequestItems inp)) ≤ 25)%nat →
    client ctx inp w = (Fail e, w') →
    ∃ newly rest, flattenRequestItems (RequestItems inp) ≡ₚ newly ++ rest ∧
                  accepted w' ≡ₚ newly ++ accepted w
}.

(** A call that does not write to the tables. *)
Definition quiet {A} (accepted : W → list write) (c : Call W A) : Prop :=
  ∀ w, accepted (c w).2 = accepted w.

(** The writes [items] split into those the tables took between [w] and [w']
    and the rest, and the counters and the error agree with that split. *)
Definition accounts (accepted : W → list write) (maxAttempts : Z) (items : list write) (base : Z)
    (w : W) (out : (result_t * option (@writeError Item)) * W) : Prop :=
  let '(r, err, w') := out in
  ∃ taken rest, items ≡ₚ taken ++ rest ∧ accepted w' ≡ₚ taken ++ accepted w ∧
    match err with
    | None => rest = [] ∧ Processed r = base + Z.of_nat (length taken)
    | Some (UnprocessedItemsError n u) =>
        n = maxAttempts ∧ countRequestItems u ≠ 0 ∧
        (∃ later, rest ≡ₚ flattenRequestItems u ++ later) ∧
        Processed r = base + Z.of_nat (length taken)
    | Some (OtherError _) => Processed r ≤ base + Z.of_nat (length taken)
    end.

Context (accepted : W → list write) (timer : Context W → Z → Call W (option error)).
Context (client : client_t) (cfg : @Options W) (ctx : Context W).
Hypothesis law : BatchWriteItemLaw accepted client.
Hypothesis timer_quiet : ∀ c d, quiet accepted (timer c d).
Hypothesis backoff_quiet : ∀ n, quiet accepted (cfgBackoff cfg n).
Hypothesis ctx_quiet : quiet accepted (ctx_Err ctx).

Lemma sleep_quiet d : quiet accepted (sleep timer ctx d).
Proof. unfold sleep. by destruct (d <=? 0). Qed.

Lemma newOptions_positive options c :
  newOptions (W:=W) options = Ok c → 0 < MaxAttempts c.
Proof.
  unfold newOptions. destruct (_ <=? 0) eqn:Hm; [done|]. bools.
  destruct (OptBackoff _); by intros [= <-].
Qed.

Lemma merge_counts (r : result_t) (out : option Output) :
  Processed (merge (addAttempt r) out) = Processed r ∧
  Attempts (merge (addAttempt r) out) = Attempts r + 1.
Proof. by destruct out. Qed.

(** Writes the tables took before a run count for the run. *)
Lemma accounts_frame max newly items items' base w w1 out :
  items ≡ₚ newly ++ items' → accepted w1 ≡ₚ newly ++ accepted w →
  accounts accepted max items' (base + Z.of_nat (length newly)) w1 out →
  accounts accepted max items base w out.
Proof.
  destruct out as [[r err] w']. intros Hi Hw (taken & rest & Hs & Ha & He).
  exists (newly ++ taken), rest. split_and!.
  - by rewrite Hi, Hs, (assoc_L app).
  - rewrite Ha, Hw. solve_Permutation.
  - rewrite length_app. destruct err as [[]|]; naive_solver lia.
Qed.

(** A run that ends with an error leaves the later chunks untouched. *)
Lemma accounts_later max items later base w r e w' :
  accounts accepted max items base w ((r, Some e), w') →
  accounts accepted max (items ++ later) base w ((r, Some e), w').
Proof.
  intros (taken & rest & Hs & Ha & He). exists taken, (rest ++ later). split_and!.
  - by rewrite Hs, (assoc_L app).
  - done.
  - destruct e; [|done]. destruct He as (? & ? & [l Hl] & ?). split_and!; try done.
    exists (l ++ later). by rewrite Hl, (assoc_L app).
Qed.

Lemma accounts_stopped max items newly rest base w w' r e :
  items ≡ₚ newly ++ rest → accepted w' ≡ₚ newly ++ accepted w → Processed r ≤ base →
  accounts accepted max items base w ((r, Some (OtherError e)), w').
Proof. intros ???. exists newly, rest. split_and!; try done. lia. Qed.

(** An answered request: the counters follow the unprocessed writes. *)
Lemma accounts_answered max items newly (u : requests) base w w' r n :
  items ≡ₚ newly ++ flattenRequestItems u → accepted w' ≡ₚ newly ++ accepted w →
  Processed r = base + Z.of_nat (length newly) →
  accounts accepted max items base w
    ((r, if countRequestItems u =? 0 then None else Some (UnprocessedItemsError n u)), w')
  ↔ countRequestItems u = 0 ∨ n = max.
Proof.
  intros Hi Ha Hr. destruct (countRequestItems u =? 0) eqn:Hu; bools.
  - split; [by left|]. intros _. exists newly, (flattenRequestItems u).
    rewrite count_writes in Hu. split_and!; try done. apply nil_length_inv. lia.
  - split; [by intros (? & ? & ? & ? & ? & _); right|]. intros [?|?]; [done|].
    exists newly, (flattenRequestItems u). split_and!; try done.
    exists []. by rewrite app_nil_r.
Qed.

Lemma attemptLoop_accounts left attempt total pending r w :
  (0 < left)%nat → attempt + Z.of_nat left = MaxAttempts cfg + 1 →
  (1 ≤ length (flattenRequestItems pending) ≤ 25)%nat → countRequestItems pending ≤ total →
  let out := attemptLoop timer client cfg ctx left attempt total pending r w in
  accounts accepted (MaxAttempts cfg) (flattenRequestItems pending)
    (Processed r + total - countRequestItems pending) w out ∧
  Attempts out.1.1 ≤ Attempts r + Z.of_nat left.
Proof.
  revert attempt pending r w.
  induction left as [|left IH]; intros attempt pending r w Hpos Hatt Hlen Htot; [lia|].
  cbn [attemptLoop]. unfold mbind, call_bind.
  pose proof (ctx_quiet w) as Hq. destruct (ctx_Err ctx w) as [[e|] w1]; cbn in Hq.
  { split; [|cbn; lia]. eapply (accounts_stopped _ _ []); [by rewrite app_nil_l|by rewrite Hq|lia]. }
  destruct (client ctx _ w1) as [[out|e] w2] eqn:Hc.
  2:{ apply (law_fail _ _ law) in Hc as (newly & rest & Hp & Ha); [|done].
      split; [|cbn; lia]. eapply accounts_stopped; [done|by rewrite <-Hq|cbn; lia]. }
  apply (law_ok _ _ law) in Hc as (newly & Hp & Ha); [|done]. cbn [RequestItems] in Hp.
  fold (unprocessedOf out). rewrite cloneRequestItems_id. rewrite Hq in Ha.
  destruct (merge_counts r out) as [Hproc Hattn].
  assert (countRequestItems pending
    = Z.of_nat (length newly) + countRequestItems (unprocessedOf out)) as Hcount.
  { rewrite !count_writes, Hp, length_app. apply Nat2Z.inj_add. }
  pose proof (λ r', accounts_answered (MaxAttempts cfg) _ _ _
    (Processed r + total - countRequestItems pending) _ _ r' attempt Hp Ha) as Hans.
  revert Hans. destruct (_ =? 0) eqn:Hrem; bools; intros Hans.
  { split; [|cbn; lia]. apply Hans; [cbn; lia|by left]. }
  destruct (attempt =? MaxAttempts cfg) eqn:Hlast; bools.
  { split; [|cbn; lia]. apply Hans; [cbn; lia|by right]. }
  pose proof (backoff_quiet attempt w2) as Hb.
  destruct (cfgBackoff cfg attempt w2) as [delay w3]; cbn in Hb.
  pose proof (sleep_quiet delay w3) as Hs.
  destruct (sleep timer ctx delay w3) as [[e|] w4]; cbn in Hs; rewrite Hb in Hs.
  { split; [|cbn; lia]. eapply accounts_stopped; [done|by rewrite Hs|lia]. }
  destruct (IH (attempt + 1) (unprocessedOf out) (merge (addAttempt r) out) w4) as [Hi Hn]; try lia.
  { rewrite !count_writes in *. lia. }
  split; [|lia]. eapply accounts_frame; [done|by rewrite Hs|]. 
  by replace (_ + _) with (Processed (merge (addAttempt r) out) + total
    - countRequestItems (unprocessedOf out)) by lia.
Qed.
Lemma chunksLoop_accounts chunks r w :
  0 < MaxAttempts cfg → Forall (λ c, 1 ≤ length c ≤ 25)%nat chunks →
  let out := chunksLoop timer client cfg ctx chunks r w in
  accounts accepted (MaxAttempts cfg) (mjoin chunks) (Processed r) w out ∧
  Attempts out.1.1 ≤ Attempts r + MaxAttempts cfg * Z.of_nat (length chunks).
Proof.
  intros Hmax Hch. revert r w.
  induction Hch as [|chunk rest Hlen Hrest IH]; intros r w.
  { cbn. split; [|lia]. exists [], []. cbn. split_and!; try done. lia. }
  cbn [chunksLoop length]. unfold mbind, call_bind.
  pose proof (flatten_itemsToRequestMap chunk) as Hfl.
  assert (countRequestItems (itemsToRequestMap chunk) = Z.of_nat (length chunk)) as Hcnt
    by by rewrite count_writes, Hfl.
  destruct (attemptLoop_accounts (Z.to_nat (MaxAttempts cfg)) 1 (Z.of_nat (length chunk))
    (itemsToRequestMap chunk) r w) as [Ha Hn]; [lia|lia|by rewrite Hfl|lia|].
  rewrite Hcnt, Z.add_simpl_r in Ha.
  destruct (attemptLoop _ _ _ _ _ _ _ _ _ _) as [[r1 [e|]] w1]; cbn in Hn.
  - split; [|cbn; lia]. apply (accounts_later _ _ (mjoin rest)) in Ha.
    destruct Ha as (taken & left & Hs & Ha). exists taken, left. split; [|done].
    by rewrite <-Hs, Hfl.
  - destruct Ha as (taken & left & Hs & Ha & -> & Hp). rewrite Hfl, app_nil_r in Hs.
    destruct (IH r1 w1) as [Hi Hm]. split; [|lia].
    eapply (accounts_frame _ taken _ (mjoin rest)); [|done|by rewrite <-Hp].
    cbn. by rewrite Hs.
Qed.
End accounting.

(** [WriteAll] accounts for every write.  Against a client that keeps
    DynamoDB's promise for requests of at most 25 writes, whatever the
    outcome, the requested writes split into those the tables took, each
    exactly once, and the rest.  No error means nothing is left and
    [Result.Processed] is the number of writes; an [UnprocessedItemsError]
    carries the configured number of attempts and writes that are part of the
    rest, and [Processed] is exactly the number of writes taken; after any
    other error [Processed] never overstates it.  The client is called at most
    [MaxAttempts] times per batch of 25. *)
Theorem WriteAll_accounts {W Item Capacity Metrics} (accepted : W → list (@tableWrite Item))
    timer (client : @Client W Item Capacity Metrics) octx requestItems options cfg w :
  BatchWriteItemLaw accepted client →
  (∀ c d, quiet accepted (timer c d)) →
  quiet accepted (ctx_Err (orBackground octx)) →
  newOptions options = Ok cfg → (∀ n, quiet accepted (cfgBackoff cfg n)) →
  let out := WriteAll timer octx (Some client) requestItems options w in
  let items := flattenRequestItems requestItems in
  accounts accepted (MaxAttempts cfg) items 0 w out ∧
  Attempts out.1.1 ≤ MaxAttempts cfg * Z.of_nat ((length items + 24) / 25).
Proof.
  intros Hlaw Ht Hctx Hcfg Hb. unfold WriteAll. rewrite Hcfg.
  assert (0 < MaxAttempts cfg) as Hpos by (eapply newOptions_positive; done).
  destruct (chunkItems_spec (flattenRequestItems requestItems)) as (Hj & Hf & Hn).
  pose proof (chunksLoop_accounts accepted timer client cfg (orBackground octx) Hlaw Ht Hb Hctx
    _ zeroResult w Hpos Hf) as [Ha Hatt].
  rewrite Hj in Ha. rewrite Hn in Hatt.
  replace (_ + MaxItemsPerBatch - 1)%nat with (length (flattenRequestItems requestItems) + 24)%nat
    in Hatt by (unfold MaxItemsPerBatch; lia).
  destruct (flattenRequestItems requestItems) eqn:Hitems; [|done].
  split; [|cbn; lia]. exists [], []. by cbn.
Qed.

(** A client that applies the first write of a request and returns the
    others as unprocessed. *)
Definition oneAtATime {Item} : @Client (list (@tableWrite Item)) Item unit unit := λ _ inp w,
  match flattenRequestItems (RequestItems inp) with
  | [] => (Ok None, w)
  | x :: l => (Ok (Some (mkOutput (itemsToRequestMap l) [] ∅)), x :: w)
  end.

Lemma oneAtATime_law {Item} : BatchWriteItemLaw (λ w, w) (@oneAtATime Item).
Proof.
  split; intros ctx inp w ? w' Hlen; unfold oneAtATime;
    destruct (flattenRequestItems (RequestItems inp)) as [|x l]; cbn in Hlen; try lia;
    intros [= <- <-].
  exists [x]. cbn. by rewrite flatten_itemsToRequestMap.
Qed.

Lemma WriteAll_accounts_witness :
  let reqs : gmap string (list nat) := {[ "a" := [1; 2]%nat; "b" := [3]%nat ]} in
  let out := WriteAll (λ _ _, mret None) None (Some oneAtATime) reqs [Some (WithMaxAttempts 2)] [] in
  out.1.2 = Some (UnprocessedItemsError 2 {[ "b" := [3]%nat ]}) ∧
  out.2 = [("a", 2%nat); ("a", 1%nat)] ∧
  accounts (λ w, w) 2 (flattenRequestItems reqs) 0 [] out ∧
  Attempts out.1.1 ≤ 2 * Z.of_nat ((length (flattenRequestItems reqs) + 24) / 25).
Proof.
  split; [vm_compute; reflexivity|]. split; [vm_compute; reflexivity|].
  apply (WriteAll_accounts (λ w, w) (λ _ _, mret None) oneAtATime None
    {[ "a" := [1; 2]%nat; "b" := [3]%nat ]} [Some (WithMaxAttempts 2)]
    (mkOptions 2 (Some noDelay) "" "") []).
  - apply oneAtATime_law.
  - intros c d w. reflexivity.
  - intros w. reflexivity.
  - reflexivity.
  - intros n w. reflexivity.
Defined.
