(* ===== verification/RuleSet.v ===== *)
(** * rules: facts, rules and rule sets

    Models [src/rules/facts.go], [rule.go], [ruleset.go] and [errors.go].  A
    Go string is the list of its code points, compared like the code compares
    bytes (UTF-8 keeps that order); [GoText.v] models them.  The
    mutexes make every operation on facts and rule sets one step.  A [Rule]
    value is a record of its methods; [Name], [Description] and [Priority] are
    constants of a rule, [Evaluate] and [Execute] are calls on the world.  [F]
    is the type of pointers to [Facts]; the facts they point to are in the
    world, shared by all rules. *)

From S2P Require Import Prelude GoError GoText.

Local Open Scope Z_scope.

Definition ErrBlankKey : error := Sentinel "rules.ErrBlankKey".
Definition ErrNilFacts : error := Sentinel "rules.ErrNilFacts".
Definition ErrNilRuleSet : error := Sentinel "rules.ErrNilRuleSet".
Definition ErrNilRule : error := Sentinel "rules.ErrNilRule".
Definition ErrDuplicateRule : error := Sentinel "rules.ErrDuplicateRule".
Definition ErrNilEvaluate : error := Sentinel "rules.ErrNilEvaluate".

(** ** Keys *)

Definition normalizeKey (key : text) : text := TrimSpace key.

(** ** Facts *)

Section facts.
Context {V : Type}.

(** [Facts]: the values; a nil pointer is [None] of an option around it. *)
Definition Facts : Type := gmap text V.

Definition NewFacts : Facts := ∅.

Definition Set_ (f : option Facts) (key : text) (value : V) : option Facts * option error :=
  match f with
  | None => (None, Some ErrNilFacts)
  | Some values =>
      let key := normalizeKey key in
      if decide (key = []) then (f, Some ErrBlankKey)
      else (Some (<[key := value]> values), None)
  end.

(** [NewFactsFrom]; the list is the order in which [range] visits the map. *)
Fixpoint setAll (facts : Facts) (values : list (text * V)) : result Facts :=
  match values with
  | [] => Ok facts
  | (key, value) :: rest =>
      match Set_ (Some facts) key value with
      | (_, Some e) => Fail e
      | (Some facts', None) => setAll facts' rest
      | (None, None) => Ok facts
      end
  end.

Definition NewFactsFrom (values : list (text * V)) : result Facts := setAll NewFacts values.

Definition Get (f : option Facts) (key : text) : option V :=
  match f with
  | None => None
  | Some values =>
      let key := normalizeKey key in
      if decide (key = []) then None else values !! key
  end.

Definition Delete (f : option Facts) (key : text) : option Facts * bool :=
  match f with
  | None => (None, false)
  | Some values =>
      let key := normalizeKey key in
      if decide (key = []) then (f, false)
      else (Some (delete key values), bool_decide (is_Some (values !! key)))
  end.

Definition Has (f : option Facts) (key : text) : bool := bool_decide (is_Some (Get f key)).

Definition Facts_Len (f : option Facts) : nat :=
  match f with None => 0%nat | Some values => size values end.

Definition Keys (f : option Facts) : list text :=
  match f with
  | None => []
  | Some values => merge_sort text_le (map_to_list values).*1
  end.

Definition Snapshot (f : option Facts) : Facts :=
  match f with None => ∅ | Some values => values end.

Definition Clone (f : option Facts) : option Facts := Some (Snapshot f).
End facts.
Arguments Facts : clear implicits.

(** ** Rules *)

Section rules.
Context {W F : Type}.

Record Rule := mkRule {
  Name : text;
  Description : text;
  Priority : Z;
  Evaluate : Context W → option F → Call W (result bool);
  Execute : Context W → option F → Call W (option error)
}.

Definition EvaluateFunc : Type := Context W → option F → Call W (result bool).
Definition ExecuteFunc : Type := Context W → option F → Call W (option error).

Record functionalRule := mkFunctional {
  f_name : text;
  f_description : text;
  f_priority : Z;
  f_evaluate : EvaluateFunc;
  f_execute : option ExecuteFunc
}.

Definition RuleOption : Type := functionalRule → functionalRule.

Definition WithDescription (description : text) : RuleOption := λ r,
  mkFunctional (f_name r) description (f_priority r) (f_evaluate r) (f_execute r).
Definition WithPriority (priority : Z) : RuleOption := λ r,
  mkFunctional (f_name r) (f_description r) priority (f_evaluate r) (f_execute r).

(** The [Rule] interface of a [functionalRule]. *)
Definition functionalAsRule (r : functionalRule) : Rule :=
  mkRule (f_name r) (f_description r) (f_priority r) (f_evaluate r)
    (λ ctx facts, match f_execute r with None => mret None | Some f => f ctx facts end).

Definition NewRule (name : text) (evaluate : option EvaluateFunc) (execute : option ExecuteFunc)
    (options : list (option RuleOption)) : result Rule :=
  let name := normalizeKey name in
  if decide (name = []) then Fail ErrBlankKey
  else match evaluate with
       | None => Fail ErrNilEvaluate
       | Some ev =>
           Ok (functionalAsRule
                 (foldl (λ r o, match o with Some f => f r | None => r end)
                    (mkFunctional name [] 0 ev execute) options))
       end.

(** ** Rule sets *)

Record ruleEntry := mkEntry {
  rule : Rule;
  name : text;
  priority : Z;
  seq : Z
}.

Record RuleSet := mkRuleSet { nextSeq : Z; byName : gmap text ruleEntry }.

Definition emptySet : RuleSet := mkRuleSet 0 ∅.

(** [Add]; a nil set or rule is [None].  [nextSeq] is a [uint64]. *)
Definition Add (s : option RuleSet) (r : option Rule) : option RuleSet * option error :=
  match s, r with
  | None, _ => (None, Some ErrNilRuleSet)
  | Some _, None => (s, Some ErrNilRule)
  | Some set, Some r =>
      let name := normalizeKey (Name r) in
      if decide (name = []) then (s, Some ErrBlankKey)
      else match byName set !! name with
           | Some _ => (s, Some ErrDuplicateRule)
           | None =>
               (Some (mkRuleSet (wrap_u64 (nextSeq set + 1))
                        (<[name := mkEntry r name (Priority r) (nextSeq set)]> (byName set))), None)
           end
  end.

Fixpoint addAll (s : RuleSet) (rules : list (option Rule)) : result RuleSet :=
  match rules with
  | [] => Ok s
  | r :: rest =>
      match Add (Some s) r with
      | (_, Some e) => Fail e
      | (Some s', None) => addAll s' rest
      | (None, None) => Ok s
      end
  end.

Definition NewRuleSet (rules : list (option Rule)) : result RuleSet := addAll emptySet rules.

Definition Remove (s : option RuleSet) (nm : text) : option RuleSet * bool :=
  match s with
  | None => (None, false)
  | Some set =>
      let nm := normalizeKey nm in
      if decide (nm = []) then (s, false)
      else (Some (mkRuleSet (nextSeq set) (delete nm (byName set))),
            bool_decide (is_Some (byName set !! nm)))
  end.

Definition RuleSet_Get (s : option RuleSet) (nm : text) : option Rule :=
  match s with
  | None => None
  | Some set =>
      let nm := normalizeKey nm in
      if decide (nm = []) then None else rule <$> byName set !! nm
  end.

Definition RuleSet_Len (s : option RuleSet) : nat :=
  match s with None => 0%nat | Some set => size (byName set) end.

(** The comparison function of [entries]: [left] before [right]. *)
Definition entryLess (left right : ruleEntry) : bool :=
  if negb (priority left =? priority right) then priority left <? priority right
  else if negb (bool_decide (name left = name right)) then text_lt (name left) (name right)
  else seq left <? seq right.

Definition entryLe (a b : ruleEntry) : Prop := entryLess b a = false.

#[export] Instance entryLe_dec : RelDecision entryLe.
Proof. intros a b. unfold entryLe. apply _. Defined.

(** [sort.SliceStable] with that comparison. *)
Definition sortEntries (l : list ruleEntry) : list ruleEntry := merge_sort entryLe l.

(** [entries]; the iteration order of the map is that of [map_to_list], and
    [entries_canonical] shows that the order does not matter. *)
Definition entries (s : option RuleSet) : list ruleEntry :=
  match s with
  | None => []
  | Some set => sortEntries (map_to_list (byName set)).*2
  end.

Definition Rules (s : option RuleSet) : list Rule := map rule (entries s).
End rules.
Arguments Rule : clear implicits.
Arguments ruleEntry : clear implicits.
Arguments RuleSet : clear implicits.

(** ** Orders *)


Section rulesets.
Context {W F : Type}.
Notation entry := (ruleEntry W F).
Implicit Types (a b c e : entry) (l : list entry) (s : RuleSet W F).

(** [entryLess] as a lexicographic order. *)
Lemma entryLess_iff a b :
  entryLess a b = true ↔
  priority a < priority b ∨
  (priority a = priority b ∧
   (text_lt (name a) (name b) = true ∨ (name a = name b ∧ seq a < seq b))).
Proof.
  unfold entryLess. destruct (priority a =? priority b) eqn:E; bools; simpl; [|rewrite Z.ltb_lt; lia].
  case_bool_decide as Hn; simpl.
  - rewrite Z.ltb_lt, Hn, text_lt_irrefl. naive_solver lia.
  - naive_solver lia.
Qed.

Lemma entryLess_trans a b c : entryLess a b = true → entryLess b c = true → entryLess a c = true.
Proof.
  rewrite !entryLess_iff.
  intros [?|(? & [?|(Hab & ?)])] [?|(? & [?|(Hbc & ?)])]; try (left; lia); right; (split; [lia|]).
  - left. by eapply text_lt_trans.
  - left. by rewrite <-Hbc.
  - left. by rewrite Hab.
  - right. split; [congruence|lia].
Qed.

Lemma entryLess_trichotomy a b :
  entryLess a b = true ∨ (priority a = priority b ∧ name a = name b ∧ seq a = seq b) ∨
  entryLess b a = true.
Proof.
  rewrite !entryLess_iff. destruct (Z.lt_trichotomy (priority a) (priority b)) as [|[|]]; auto.
  destruct (text_lt_trichotomy (name a) (name b)) as [|[|]]; auto 6 using eq_sym.
  destruct (Z.lt_trichotomy (seq a) (seq b)) as [|[|]]; auto 8 using eq_sym.
Qed.

Lemma entryLess_irrefl a : entryLess a a = false.
Proof.
  apply not_true_is_false. rewrite entryLess_iff, text_lt_irrefl. naive_solver lia.
Qed.

#[export] Instance entryLe_total : Total (@entryLe W F).
Proof.
  intros a b. unfold entryLe.
  destruct (entryLess b a) eqn:E1, (entryLess a b) eqn:E2; auto.
  pose proof (entryLess_trans _ _ _ E1 E2) as E. by rewrite entryLess_irrefl in E.
Qed.

#[export] Instance entryLe_trans : Transitive (@entryLe W F).
Proof.
  intros a b c Hab Hbc. unfold entryLe in *. apply not_true_is_false. intros Hca.
  destruct (entryLess_trichotomy a b) as [H|[(H1 & H2 & H3)|H]]; [| |congruence].
  - pose proof (entryLess_trans _ _ _ Hca H). congruence.
  - rewrite entryLess_iff in Hca. rewrite H1, H2, H3 in Hca.
    by apply entryLess_iff in Hca; rewrite Hca in Hbc.
Qed.

(** Without equal names the comparison is strict on priority and name. *)
Definition precedes a b : Prop :=
  priority a < priority b ∨ (priority a = priority b ∧ text_lt (name a) (name b) = true).

Lemma entryLe_precedes a b : entryLe a b → name a ≠ name b → precedes a b.
Proof.
  intros Hle Hne. destruct (entryLess_trichotomy a b) as [H|[(_ & H & _)|H]]; [|done|].
  - apply entryLess_iff in H. unfold precedes. naive_solver.
  - unfold entryLe in Hle. congruence.
Qed.

(** ** The invariant of a rule set *)

(** Every rule is registered under its trimmed, non-blank name. *)
Definition wf s : Prop := ∀ k e, byName s !! k = Some e →
  k ≠ [] ∧ name e = k ∧ normalizeKey (Name (rule e)) = k ∧ priority e = Priority (rule e).

Lemma wf_empty : wf emptySet.
Proof. intros k e. simpl. by rewrite lookup_empty. Qed.

Lemma wf_Add s r s' err : wf s → Add (Some s) r = (Some s', err) → wf s'.
Proof.
  intros Hwf. destruct r as [r|]; simpl; [|by intros [= <- _]].
  case_decide as Hn; [by intros [= <- _]|].
  destruct (byName s !! _) eqn:E; [by intros [= <- _]|]. intros [= <- _].
  intros k e. cbn [byName]. intros [[<- <-]|[_ Hk]]%lookup_insert_Some; [done|by apply Hwf].
Qed.

Lemma wf_Remove s n s' ok : wf s → Remove (Some s) n = (Some s', ok) → wf s'.
Proof.
  intros Hwf. simpl. case_decide; [by intros [= <- _]|]. intros [= <- _].
  intros k e. cbn [byName]. intros [_ Hk]%lookup_delete_Some. by apply Hwf.
Qed.

(** ** The order of the rules *)

Lemma sortEntries_spec l : sortEntries l ≡ₚ l ∧ StronglySorted entryLe (sortEntries l).
Proof. split; [apply merge_sort_Permutation|apply StronglySorted_merge_sort; apply _]. Qed.

Lemma wf_elem s e : wf s → e ∈ (map_to_list (byName s)).*2 ↔ byName s !! name e = Some e.
Proof.
  intros Hwf. rewrite list_elem_of_fmap. split.
  - intros ([k e'] & -> & Hk%elem_of_map_to_list). simpl. by destruct (Hwf _ _ Hk) as (_ & -> & _).
  - intros He. exists (name e, e). split; [done|]. by apply elem_of_map_to_list.
Qed.

Lemma wf_NoDup_names s : wf s → NoDup (name <$> (map_to_list (byName s)).*2).
Proof.
  intros Hwf. replace (name <$> (map_to_list (byName s)).*2) with (map_to_list (byName s)).*1.
  { apply NoDup_fst_map_to_list. }
  rewrite <-list_fmap_compose. apply list_fmap_ext. intros i [k e] Hk%list_elem_of_lookup_2.
  apply elem_of_map_to_list in Hk. simpl. by destruct (Hwf _ _ Hk) as (_ & -> & _).
Qed.

(** A list sorted without equal names is strictly sorted. *)
Lemma StronglySorted_precedes l :
  NoDup (name <$> l) → StronglySorted entryLe l → StronglySorted precedes l.
Proof.
  intros Hnd Hs. induction Hs as [|a l Hs IH Ha]; [constructor|].
  apply NoDup_cons in Hnd as [Hnin Hnd]. constructor; [auto|].
  apply Forall_forall. intros b Hb. rewrite Forall_forall in Ha.
  apply entryLe_precedes; [auto|]. intros Heq. apply Hnin. rewrite Heq. by apply list_elem_of_fmap_2.
Qed.

(** The map may be visited in any order. *)
Lemma sortEntries_unique l1 l2 :
  NoDup (name <$> l1) → l1 ≡ₚ l2 → sortEntries l1 = sortEntries l2.
Proof.
  intros Hnd Hp. destruct (sortEntries_spec l1) as [P1 S1], (sortEntries_spec l2) as [P2 S2].
  assert (sortEntries l1 ≡ₚ sortEntries l2) as Hperm by by rewrite P1, P2.
  eapply (StronglySorted_unique_strong entryLe); [|done|done|done].
  intros a b Ha Hb Hab Hba. rewrite P1 in Ha. rewrite P2, <-Hp in Hb.
  destruct (entryLess_trichotomy a b) as [H|[(_ & Hn & _)|H]];
    [unfold entryLe in *; congruence| |unfold entryLe in *; congruence].
  apply list_elem_of_lookup in Ha as [i Hi], Hb as [j Hj].
  assert (i = j) as ->; [|congruence].
  eapply (NoDup_lookup (name <$> l1) i j (name a)); [done| |]; rewrite list_lookup_fmap.
  - by rewrite Hi.
  - by rewrite Hj, Hn.
Qed.

(** ** Histories of a rule set *)

Inductive edit : Type :=
| EAdd (r : option (Rule W F))
| ERemove (n : text).

Definition applyEdit (s : RuleSet W F) (e : edit) : RuleSet W F :=
  match e with
  | EAdd r => default s (Add (Some s) r).1
  | ERemove n => default s (Remove (Some s) n).1
  end.

Lemma wf_applyEdit s ed : wf s → wf (applyEdit s ed).
Proof.
  intros Hwf. destruct ed as [r|n]; unfold applyEdit.
  - destruct (Add (Some s) r) as [[s'|] err] eqn:E; cbn [fst default]; [exact (wf_Add _ _ _ _ Hwf E)|done].
  - destruct (Remove (Some s) n) as [[s'|] b] eqn:E; cbn [fst default]; [exact (wf_Remove _ _ _ _ Hwf E)|done].
Qed.

Lemma wf_history es : wf (foldl applyEdit emptySet es).
Proof.
  assert (∀ s, wf s → wf (foldl applyEdit s es)) as H; [|by apply H, wf_empty].
  induction es as [|e es IH]; intros s Hs; [done|]. by apply IH, wf_applyEdit.
Qed.

(** [Rules] and [Get] agree. *)
Lemma Rules_Get s r : wf s → r ∈ Rules (Some s) ↔ RuleSet_Get (Some s) (Name r) = Some r.
Proof.
  intros Hwf. unfold Rules. rewrite list_elem_of_fmap. simpl.
  setoid_rewrite (proj1 (sortEntries_spec _)). split.
  - intros (e & -> & He). apply wf_elem in He; [|done].
    destruct (Hwf _ _ He) as (Hne & _ & Hn & _). rewrite Hn.
    rewrite decide_False by done. by rewrite He.
  - case_decide as Hn; [done|]. intros (e & He & ->)%fmap_Some. exists e. split; [done|].
    apply wf_elem; [done|]. by destruct (Hwf _ _ He) as (_ & -> & _).
Qed.
End rulesets.

(** ** Trimming *)

Lemma normalizeKey_idem k : normalizeKey (normalizeKey k) = normalizeKey k.
Proof. apply TrimSpace_idem. Qed.

(** Facts are a map on trimmed keys. *)
Lemma Get_Set {V} (f f' : Facts V) k k' v :
  Set_ (Some f) k v = (Some f', None) →
  Get (Some f') k' = if decide (normalizeKey k' = normalizeKey k) then Some v else Get (Some f) k'.
Proof.
  simpl. case_decide as Hk; [done|]. intros [= <-].
  destruct (decide (normalizeKey k' = normalizeKey k)) as [Heq|Hne].
  - rewrite Heq, decide_False by done. apply (lookup_insert_eq (M:=gmap text)).
  - case_decide; [done|]. by apply (lookup_insert_ne (M:=gmap text)).
Qed.

Lemma Get_Delete {V} (f : Facts V) k k' :
  Get (Delete (Some f) k).1 k' =
    if decide (normalizeKey k' = normalizeKey k) then None else Get (Some f) k'.
Proof.
  simpl. destruct (decide (normalizeKey k' = normalizeKey k)) as [Heq|Hne].
  - case_decide as Hk; simpl; rewrite Heq; [by rewrite Hk|].
    rewrite decide_False by done. apply (lookup_delete_eq (M:=gmap text)).
  - case_decide as Hk; simpl; [done|]. case_decide; [done|]. by apply (lookup_delete_ne (M:=gmap text)).
Qed.

(** ** Properties *)

(** The order of the rules is deterministic.  After any sequence of
    [Add] and [Remove], whatever order Go visits the map in, [entries] is the
    same list: every registered rule once, strictly increasing in (priority,
    name), so the registration sequence never decides; [Rules] holds exactly
    the rules that [Get] finds under their own names, and a set holds at most
    one rule per trimmed name. *)
Theorem entries_canonical {W F} (es : list (@edit W F)) :
  let s := foldl applyEdit emptySet es in
  (∀ visited, visited ≡ₚ (map_to_list (byName s)).*2 → sortEntries visited = entries (Some s)) ∧
  StronglySorted precedes (entries (Some s)) ∧
  NoDup (map (λ r, normalizeKey (Name r)) (Rules (Some s))) ∧
  ∀ r, r ∈ Rules (Some s) ↔ RuleSet_Get (Some s) (Name r) = Some r.
Proof.
  intros s. pose proof (wf_history es) as Hwf. fold s in Hwf.
  pose proof (wf_NoDup_names s Hwf) as Hnd.
  destruct (sortEntries_spec (map_to_list (byName s)).*2) as [Hp Hs].
  assert (NoDup (name <$> entries (Some s))) as Hnd' by (unfold entries; by rewrite Hp).
  split_and!.
  - intros l Hl. apply sortEntries_unique; [by rewrite Hl|done].
  - by apply StronglySorted_precedes.
  - unfold Rules. rewrite map_map. erewrite map_ext_in; [exact Hnd'|].
    intros e He%list_elem_of_In. simpl in He. rewrite Hp in He. apply wf_elem in He; [|done].
    by destruct (Hwf _ _ He) as (_ & _ & -> & _).
  - intros r. by apply Rules_Get.
Qed.
