(* ===== verification/RuleEngine.v ===== *)
(** * rules: composite rules, the engine and bounded inference

    Models [src/rules/composite.go], [engine.go] and [inference.go] on top of
    [RuleSet.v].  The rule set of an engine is shared with its owner and with
    the rules that run, so it is read from the world when [Run] takes its
    snapshot; the children of a composite rule are private to it. *)

From S2P Require Import Prelude GoError GoText RuleSet.

Local Open Scope Z_scope.

Definition ErrEmptyRuleGroup : error := Sentinel "rules.ErrEmptyRuleGroup".
Definition ErrCompositeNotTriggered : error := Sentinel "rules.ErrCompositeNotTriggered".
Definition ErrGuardRuleMissing : error := Sentinel "rules.ErrGuardRuleMissing".
Definition ErrInvalidMaxCycles : error := Sentinel "rules.ErrInvalidMaxCycles".
Definition ErrInvalidInferenceConfig : error := Sentinel "rules.ErrInvalidInferenceConfig".
Definition ErrInferenceNonConverged : error := Sentinel "rules.ErrInferenceNonConverged".

(** [RulePhase] *)
Inductive RulePhase : Type := PhaseEvaluate | PhaseExecute.

Definition RuleError (ruleName : text) (phase : RulePhase) (err : error) : error :=
  match phase with
  | PhaseEvaluate =>
      Typed "rules.RuleError" [fieldOf ruleName; FStr "evaluate"] ["rules.ErrRuleEvaluation"] (Some err)
  | PhaseExecute =>
      Typed "rules.RuleError" [fieldOf ruleName; FStr "execute"] ["rules.ErrRuleExecution"] (Some err)
  end.

Definition InferenceError (cycles : Z) (err : error) : error :=
  Typed "rules.InferenceError" [FInt cycles] [] (Some err).

(** [wrapContextError] *)
Definition wrapContextError (phase : string) (ruleName : text) (err : error) : error :=
  let format := if errors_Is err "context.Canceled"
                then "rules context canceled %s for %s: %w"
                else if errors_Is err "context.DeadlineExceeded"
                then "rules context deadline exceeded %s for %s: %w"
                else "rules context failed %s for %s: %w" in
  Typed "fmt.Errorf" [FStr format; FStr phase; fieldOf ruleName] [] (Some err).

(** "inference" *)
Definition inferenceName : text := [105; 110; 102; 101; 114; 101; 110; 99; 101].

Section engine.
Context {W F : Type}.
Notation Rule := (Rule W F).
Notation ruleEntry := (ruleEntry W F).
Notation RuleSet := (RuleSet W F).

(** ** Composite rules *)

(** [if err := ctx.Err(); err != nil { return ..., err }] *)
Definition unlessDone {A} (ctx : Context W) (onErr : error → A) (k : Call W A) : Call W A :=
  cerr ← ctx_Err ctx;
  match cerr with Some e => mret (onErr e) | None => k end.

(** [firstMatchingRule] *)
Fixpoint firstMatchingRule (ctx : Context W) (es : list ruleEntry) (facts : option F)
    : Call W (result (option ruleEntry)) :=
  match es with
  | [] => mret (Ok None)
  | entry :: rest =>
      unlessDone ctx Fail
        (t ← Evaluate (rule entry) ctx facts;
         match t with
         | Fail e => mret (Fail e)
         | Ok true => mret (Ok (Some entry))
         | Ok false => firstMatchingRule ctx rest facts
         end)
  end.

(** [evaluateNamedRule] *)
Definition evaluateNamedRule (ctx : Context W) (rules : RuleSet) (nm : text) (facts : option F)
    : Call W (result bool) :=
  match RuleSet_Get (Some rules) nm with
  | None => mret (Fail ErrGuardRuleMissing)
  | Some r => unlessDone ctx Fail (Evaluate r ctx facts)
  end.

(** [allRulesMatch] *)
Fixpoint allRulesMatch (ctx : Context W) (es : list ruleEntry) (facts : option F)
    : Call W (result bool) :=
  match es with
  | [] => mret (Ok true)
  | entry :: rest =>
      unlessDone ctx Fail
        (t ← Evaluate (rule entry) ctx facts;
         match t with
         | Fail e => mret (Fail e)
         | Ok false => mret (Ok false)
         | Ok true => allRulesMatch ctx rest facts
         end)
  end.

(** [executeFirstMatchingRule] *)
Definition executeFirstMatchingRule (ctx : Context W) (es : list ruleEntry) (facts : option F)
    : Call W (option error) :=
  m ← firstMatchingRule ctx es facts;
  match m with
  | Fail e => mret (Some e)
  | Ok None => mret (Some ErrCompositeNotTriggered)
  | Ok (Some entry) => unlessDone ctx Some (Execute (rule entry) ctx facts)
  end.

(** The loop of [executeConditionalGroup] over the dependents. *)
Fixpoint dependentsLoop (ctx : Context W) (es : list ruleEntry) (guardName : text)
    (facts : option F) (executed : bool) : Call W (option error) :=
  match es with
  | [] => mret (if executed then None else Some ErrCompositeNotTriggered)
  | entry :: rest =>
      if decide (name entry = guardName) then dependentsLoop ctx rest guardName facts executed
      else
        unlessDone ctx Some
          (t ← Evaluate (rule entry) ctx facts;
           match t with
           | Fail e => mret (Some e)
           | Ok false => dependentsLoop ctx rest guardName facts executed
           | Ok true =>
               unlessDone ctx Some
                 (x ← Execute (rule entry) ctx facts;
                  match x with
                  | Some e => mret (Some e)
                  | None => dependentsLoop ctx rest guardName facts true
                  end)
           end)
  end.

(** [executeConditionalGroup] *)
Definition executeConditionalGroup (ctx : Context W) (children : RuleSet) (guardName : text)
    (facts : option F) : Call W (option error) :=
  t ← evaluateNamedRule ctx children guardName facts;
  match t with
  | Fail e => mret (Some e)
  | Ok false => mret (Some ErrCompositeNotTriggered)
  | Ok true => dependentsLoop ctx (entries (Some children)) guardName facts false
  end.

(** The loop of [executeUnitGroup]. *)
Fixpoint unitLoop (ctx : Context W) (es : list ruleEntry) (facts : option F)
    : Call W (option error) :=
  match es with
  | [] => mret None
  | entry :: rest =>
      unlessDone ctx Some
        (x ← Execute (rule entry) ctx facts;
         match x with
         | Some e => mret (Some e)
         | None => unitLoop ctx rest facts
         end)
  end.

(** [executeUnitGroup] *)
Definition executeUnitGroup (ctx : Context W) (es : list ruleEntry) (facts : option F)
    : Call W (option error) :=
  m ← allRulesMatch ctx es facts;
  match m with
  | Fail e => mret (Some e)
  | Ok false => mret (Some ErrCompositeNotTriggered)
  | Ok true => unitLoop ctx es facts
  end.

Inductive compositeKind : Type := compositeActivation | compositeConditional | compositeUnit.

Record compositeRule := mkComposite {
  c_name : text;
  c_description : text;
  c_priority : Z;
  kind : compositeKind;
  guardName : text;
  children : RuleSet
}.

Definition CompositeOption : Type := compositeRule → compositeRule.

Definition WithCompositeDescription (description : text) : CompositeOption := λ r,
  mkComposite (c_name r) description (c_priority r) (kind r) (guardName r) (children r).
Definition WithCompositePriority (priority : Z) : CompositeOption := λ r,
  mkComposite (c_name r) (c_description r) priority (kind r) (guardName r) (children r).

(** [compositeRule.Evaluate] *)
Definition compositeEvaluate (r : compositeRule) (ctx : Context W) (facts : option F)
    : Call W (result bool) :=
  match kind r with
  | compositeActivation =>
      m ← firstMatchingRule ctx (entries (Some (children r))) facts;
      mret (match m with Fail e => Fail e | Ok o => Ok (bool_decide (is_Some o)) end)
  | compositeConditional => evaluateNamedRule ctx (children r) (guardName r) facts
  | compositeUnit => allRulesMatch ctx (entries (Some (children r))) facts
  end.

(** [compositeRule.Execute] *)
Definition compositeExecute (r : compositeRule) (ctx : Context W) (facts : option F)
    : Call W (option error) :=
  match kind r with
  | compositeActivation => executeFirstMatchingRule ctx (entries (Some (children r))) facts
  | compositeConditional => executeConditionalGroup ctx (children r) (guardName r) facts
  | compositeUnit => executeUnitGroup ctx (entries (Some (children r))) facts
  end.

(** The [Rule] interface of a [compositeRule]. *)
Definition compositeAsRule (r : compositeRule) : Rule :=
  mkRule (c_name r) (c_description r) (c_priority r) (compositeEvaluate r) (compositeExecute r).

(** [newCompositeRule] *)
Definition newCompositeRule (nm : text) (k : compositeKind) (kids : list (option Rule)) (guard : text)
    (options : list (option CompositeOption)) : result compositeRule :=
  let nm := normalizeKey nm in
  if decide (nm = []) then Fail ErrBlankKey
  else match kids with
       | [] => Fail ErrEmptyRuleGroup
       | _ =>
           match NewRuleSet kids with
           | Fail e => Fail e
           | Ok set =>
               Ok (foldl (λ r o, match o with Some f => f r | None => r end)
                     (mkComposite nm [] 0 k guard set) options)
           end
       end.

Definition NewActivationGroup (nm : text) (kids : list (option Rule))
    (options : list (option CompositeOption)) : result Rule :=
  match newCompositeRule nm compositeActivation kids [] options with
  | Fail e => Fail e
  | Ok group => Ok (compositeAsRule group)
  end.

Definition NewConditionalGroup (nm guard : text) (kids : list (option Rule))
    (options : list (option CompositeOption)) : result Rule :=
  let guard := normalizeKey guard in
  if decide (guard = []) then Fail ErrBlankKey
  else match newCompositeRule nm compositeConditional kids guard options with
       | Fail e => Fail e
       | Ok group =>
           match RuleSet_Get (Some (children group)) guard with
           | None => Fail ErrGuardRuleMissing
           | Some _ => Ok (compositeAsRule group)
           end
       end.

Definition NewUnitGroup (nm : text) (kids : list (option Rule))
    (options : list (option CompositeOption)) : result Rule :=
  match newCompositeRule nm compositeUnit kids [] options with
  | Fail e => Fail e
  | Ok group => Ok (compositeAsRule group)
  end.

(** ** The engine *)

Record EngineConfig := mkEngineConfig {
  StopOnFirstApplied : bool;
  StopOnFirstFailed : bool;
  StopOnFirstNotTriggered : bool;
  PriorityThreshold : Z;
  UsePriorityThreshold : bool
}.

Record Engine := mkEngine { e_rules : W → RuleSet; config : EngineConfig }.

(** [NewEngine]; a nil set is replaced by an empty one of its own. *)
Definition NewEngine (rules : option (W → RuleSet)) (cfg : EngineConfig) : Engine :=
  mkEngine (match rules with Some r => r | None => λ _, emptySet end) cfg.

(** [DetailStatus]; [StatusUnset] is its zero value. *)
Inductive DetailStatus : Type :=
| StatusUnset | StatusApplied | StatusCancelled | StatusNotTriggered | StatusEvaluationFailed
| StatusExecutionFailed | StatusNonConverged | StatusSkipped.

#[export] Instance DetailStatus_eq : EqDecision DetailStatus.
Proof. solve_decision. Defined.

Record Detail := mkDetail {
  RuleName : text;
  DetailPriority : Z;
  DStatus : DetailStatus;
  Triggered : bool;
  DApplied : bool;
  DErr : option error
}.

Record Result := mkResult {
  Details : list Detail;
  Applied : Z;
  Failed : Z;
  NotTriggered : Z;
  Skipped : Z;
  Stopped : bool;
  StopReason : DetailStatus
}.

Definition zeroResult : Result := mkResult [] 0 0 0 0 false StatusUnset.

(** Append a detail and count it. *)
Definition note (r : Result) (applied failed notTriggered skipped : Z) (d : Detail) : Result :=
  mkResult (Details r ++ [d]) (Applied r + applied) (Failed r + failed)
    (NotTriggered r + notTriggered) (Skipped r + skipped) (Stopped r) (StopReason r).

Definition stopWith (r : Result) (reason : DetailStatus) : Result :=
  mkResult (Details r) (Applied r) (Failed r) (NotTriggered r) (Skipped r) true reason.

(** [resultError] *)
Definition resultError (r : Result) : option error :=
  if Failed r =? 0 then None else errors_JoinAll (omap DErr (Details r)).

(** The failure of a rule in either phase: stop, or go on with the next. *)
Definition ruleFailed (cfg : EngineConfig) (r : Result) (entry : ruleEntry) (phase : RulePhase)
    (err : error) (continue : Result → Call W (Result * option error))
    : Call W (Result * option error) :=
  let wrapped := RuleError (name entry) phase err in
  let status := match phase with
                | PhaseEvaluate => StatusEvaluationFailed
                | PhaseExecute => StatusExecutionFailed
                end in
  let triggered := match phase with PhaseEvaluate => false | PhaseExecute => true end in
  let r' := note r 0 1 0 0
              (mkDetail (name entry) (priority entry) status triggered false (Some wrapped)) in
  if isContextError err then mret (stopWith r' StatusCancelled, Some wrapped)
  else if StopOnFirstFailed cfg then mret (stopWith r' status, Some wrapped)
  else continue r'.

(** The loop of [Engine.Run] over the entries. *)
Fixpoint engineLoop (cfg : EngineConfig) (ctx : Context W) (facts : option F) (es : list ruleEntry)
    (r : Result) : Call W (Result * option error) :=
  match es with
  | [] => mret (r, resultError r)
  | entry :: rest =>
      if UsePriorityThreshold cfg && (PriorityThreshold cfg <? priority entry)
      then engineLoop cfg ctx facts rest
             (note r 0 0 0 1 (mkDetail (name entry) (priority entry) StatusSkipped false false None))
      else
        unlessDone ctx
          (λ e, (stopWith r StatusCancelled,
                 Some (wrapContextError "before evaluation" (name entry) e)))
          (t ← Evaluate (rule entry) ctx facts;
           match t with
           | Fail err =>
               ruleFailed cfg r entry PhaseEvaluate err (engineLoop cfg ctx facts rest)
           | Ok false =>
               let r' := note r 0 0 1 0
                 (mkDetail (name entry) (priority entry) StatusNotTriggered false false None) in
               if StopOnFirstNotTriggered cfg then mret (stopWith r' StatusNotTriggered, None)
               else engineLoop cfg ctx facts rest r'
           | Ok true =>
               unlessDone ctx
                 (λ e, (stopWith r StatusCancelled,
                        Some (wrapContextError "before execution" (name entry) e)))
                 (x ← Execute (rule entry) ctx facts;
                  match x with
                  | Some err =>
                      ruleFailed cfg r entry PhaseExecute err (engineLoop cfg ctx facts rest)
                  | None =>
                      let r' := note r 1 0 0 0
                        (mkDetail (name entry) (priority entry) StatusApplied true true None) in
                      if StopOnFirstApplied cfg then mret (stopWith r' StatusApplied, None)
                      else engineLoop cfg ctx facts rest r'
                  end)
           end)
  end.

(** [Engine.Run] *)
Definition Engine_Run (e : Engine) (octx : option (Context W)) (facts : option F)
    : Call W (Result * option error) :=
  let ctx := orBackground octx in
  match facts with
  | None => mret (zeroResult, Some ErrNilFacts)
  | Some _ => λ w, engineLoop (config e) ctx facts (entries (Some (e_rules e w))) zeroResult w
  end.

(** ** Inference *)

Record InferenceConfig := mkInferenceConfig { MaxCycles : Z; i_EngineConfig : EngineConfig }.

Record InferenceEngine := mkInference { i_rules : W → RuleSet; i_config : InferenceConfig }.

Definition NewInferenceEngine (rules : option (W → RuleSet)) (cfg : InferenceConfig)
    : result InferenceEngine :=
  if MaxCycles cfg <=? 0 then Fail ErrInvalidMaxCycles
  else if StopOnFirstNotTriggered (i_EngineConfig cfg) then Fail ErrInvalidInferenceConfig
  else Ok (mkInference (match rules with Some r => r | None => λ _, emptySet end) cfg).

Record InferenceResult := mkInferenceResult {
  Cycles : Z;
  CycleResults : list Result;
  i_Applied : Z;
  i_Failed : Z;
  Converged : bool;
  i_Stopped : bool;
  i_StopReason : DetailStatus
}.

Definition zeroInference : InferenceResult := mkInferenceResult 0 [] 0 0 false false StatusUnset.

(** The result after one cycle. *)
Definition addCycle (r : InferenceResult) (cycle : Z) (c : Result) : InferenceResult :=
  mkInferenceResult cycle (CycleResults r ++ [c]) (i_Applied r + Applied c) (i_Failed r + Failed c)
    (Converged r) (if Stopped c then true else i_Stopped r)
    (if Stopped c then StopReason c else i_StopReason r).

Definition i_stopWith (r : InferenceResult) (reason : DetailStatus) : InferenceResult :=
  mkInferenceResult (Cycles r) (CycleResults r) (i_Applied r) (i_Failed r) (Converged r) true reason.

Definition converge (r : InferenceResult) : InferenceResult :=
  mkInferenceResult (Cycles r) (CycleResults r) (i_Applied r) (i_Failed r) true (i_Stopped r)
    (i_StopReason r).

(** The loop of [InferenceEngine.Run]; [left] cycles before [MaxCycles]. *)
Fixpoint inferenceLoop (engine : Engine) (ctx : Context W) (facts : option F) (left : nat) (cycle : Z)
    (r : InferenceResult) : Call W (InferenceResult * option error) :=
  match left with
  | 0%nat => mret (i_stopWith r StatusNonConverged,
                   Some (InferenceError (Cycles r) ErrInferenceNonConverged))
  | S left' =>
      unlessDone ctx
        (λ e, (i_stopWith r StatusCancelled,
               Some (wrapContextError "before inference cycle" inferenceName e)))
        (out ← Engine_Run engine (Some ctx) facts;
         let '(c, err) := out in
         let r1 := addCycle r cycle c in
         match err with
         | Some e => mret (if isContextError e then i_stopWith r1 StatusCancelled else r1, Some e)
         | None =>
             if Applied c =? 0 then mret (converge r1, None)
             else inferenceLoop engine ctx facts left' (cycle + 1) r1
         end)
  end.

(** [InferenceEngine.Run] *)
Definition Inference_Run (e : InferenceEngine) (octx : option (Context W)) (facts : option F)
    : Call W (InferenceResult * option error) :=
  let ctx := orBackground octx in
  match facts with
  | None => mret (zeroInference, Some ErrNilFacts)
  | Some _ =>
      inferenceLoop (NewEngine (Some (i_rules e)) (i_EngineConfig (i_config e))) ctx facts
        (Z.to_nat (MaxCycles (i_config e))) 1 zeroInference
  end.
End engine.
Arguments Engine : clear implicits.
Arguments InferenceEngine : clear implicits.

(** ** Accounting of a run *)

Section accounting.
Context {W F : Type}.
Notation ruleEntry := (ruleEntry W F).
Implicit Types (r : Result) (d : Detail) (es : list ruleEntry) (cfg : EngineConfig).

(** The rule is above the priority threshold. *)
Definition above cfg (e : ruleEntry) : bool :=
  UsePriorityThreshold cfg && (PriorityThreshold cfg <? priority e).

(** What a detail says of its rule. *)
Definition describes cfg (e : ruleEntry) d : Prop :=
  RuleName d = name e ∧ DetailPriority d = priority e ∧
  (DStatus d = StatusSkipped ↔ above cfg e = true) ∧
  match DStatus d with
  | StatusApplied => Triggered d = true ∧ DApplied d = true ∧ DErr d = None
  | StatusNotTriggered | StatusSkipped => Triggered d = false ∧ DApplied d = false ∧ DErr d = None
  | StatusEvaluationFailed => Triggered d = false ∧ DApplied d = false ∧
      ∃ err, DErr d = Some (RuleError (name e) PhaseEvaluate err)
  | StatusExecutionFailed => Triggered d = true ∧ DApplied d = false ∧
      ∃ err, DErr d = Some (RuleError (name e) PhaseExecute err)
  | _ => False
  end.

Definition countStatus (st : DetailStatus) (ds : list Detail) : Z :=
  Z.of_nat (length (filter (λ d, DStatus d = st) ds)).

(** The counters are those of the details. *)
Definition tallies r : Prop :=
  Applied r = countStatus StatusApplied (Details r) ∧
  Failed r = countStatus StatusEvaluationFailed (Details r) +
             countStatus StatusExecutionFailed (Details r) ∧
  NotTriggered r = countStatus StatusNotTriggered (Details r) ∧
  Skipped r = countStatus StatusSkipped (Details r).

(** How a run over the entries [es] may end, with the details of the first of
    them in [r]. *)
Definition ends cfg es r (err : option error) : Prop :=
  match StopReason r with
  | StatusUnset => Stopped r = false ∧ length (Details r) = length es ∧ err = resultError r
  | StatusApplied => StopOnFirstApplied cfg = true ∧ Stopped r = true ∧ err = None ∧
      DStatus <$> last (Details r) = Some StatusApplied
  | StatusNotTriggered => StopOnFirstNotTriggered cfg = true ∧ Stopped r = true ∧ err = None ∧
      DStatus <$> last (Details r) = Some StatusNotTriggered
  | StatusEvaluationFailed | StatusExecutionFailed =>
      StopOnFirstFailed cfg = true ∧ Stopped r = true ∧ is_Some err ∧
      DStatus <$> last (Details r) = Some (StopReason r) ∧ (last (Details r) ≫= DErr) = err
  | StatusCancelled => Stopped r = true ∧ is_Some err
  | _ => False
  end.

(** The stop options bound what one run does. *)
Definition bounded (slack : Z) cfg r : Prop :=
  (StopOnFirstApplied cfg = true → Applied r ≤ slack) ∧
  (StopOnFirstFailed cfg = true → Failed r ≤ slack) ∧
  (StopOnFirstNotTriggered cfg = true → NotTriggered r ≤ slack).

(** The state of the loop after the entries [before]. *)
Definition running cfg (before : list ruleEntry) r : Prop :=
  Forall2 (describes cfg) before (Details r) ∧ tallies r ∧ bounded 0 cfg r ∧
  Stopped r = false ∧ StopReason r = StatusUnset.

(** The outcome of a run. *)
Definition ranOver cfg es r (err : option error) : Prop :=
  (∃ ran later, es = ran ++ later ∧ Forall2 (describes cfg) ran (Details r)) ∧
  tallies r ∧ bounded 1 cfg r ∧ ends cfg es r err.

Lemma countStatus_app st ds d :
  countStatus st (ds ++ [d]) = countStatus st ds + (if decide (DStatus d = st) then 1 else 0).
Proof.
  unfold countStatus. rewrite filter_app, length_app, filter_cons, filter_nil.
  case_decide; simpl; lia.
Qed.

(** One more detail. *)
Lemma tallies_note r a f n k d :
  tallies r →
  a = (if decide (DStatus d = StatusApplied) then 1 else 0) →
  f = (if decide (DStatus d = StatusEvaluationFailed) then 1 else 0) +
      (if decide (DStatus d = StatusExecutionFailed) then 1 else 0) →
  n = (if decide (DStatus d = StatusNotTriggered) then 1 else 0) →
  k = (if decide (DStatus d = StatusSkipped) then 1 else 0) →
  tallies (note r a f n k d).
Proof.
  intros (H1 & H2 & H3 & H4) -> -> -> ->. unfold tallies. cbn [note Applied Failed NotTriggered Skipped Details].
  rewrite !countStatus_app, H1, H2, H3, H4. split_and!; lia.
Qed.

Lemma bounded_note r cfg a f n k d :
  bounded 0 cfg r → a ≤ 1 → f ≤ 1 → n ≤ 1 →
  bounded 1 cfg (note r a f n k d) ∧
  ((StopOnFirstApplied cfg = true → a = 0) → (StopOnFirstFailed cfg = true → f = 0) →
   (StopOnFirstNotTriggered cfg = true → n = 0) → bounded 0 cfg (note r a f n k d)).
Proof.
  unfold bounded. cbn [note Applied Failed NotTriggered]. intros (H1 & H2 & H3) Ha Hf Hn.
  split; [|intros Ha0 Hf0 Hn0]; split_and!; intros H;
    [specialize (H1 H)|specialize (H2 H)|specialize (H3 H)|
     specialize (H1 H); specialize (Ha0 H)|specialize (H2 H); specialize (Hf0 H)|
     specialize (H3 H); specialize (Hn0 H)]; lia.
Qed.

(** A detail of the next entry keeps the loop going. *)
Lemma running_note cfg before entry r a f n k d :
  running cfg before r → describes cfg entry d → tallies (note r a f n k d) →
  a ≤ 1 → f ≤ 1 → n ≤ 1 →
  (StopOnFirstApplied cfg = true → a = 0) → (StopOnFirstFailed cfg = true → f = 0) →
  (StopOnFirstNotTriggered cfg = true → n = 0) →
  running cfg (before ++ [entry]) (note r a f n k d).
Proof.
  intros (Hd & _ & Hb & Hs & Hr) Hdesc Ht Ha Hf Hn H1 H2 H3.
  destruct (bounded_note r cfg a f n k d Hb Ha Hf Hn) as [_ Hb0].
  split_and!; [|done|by apply Hb0|done|done]. simpl. apply Forall2_app; [done|by constructor].
Qed.

(** A run that stops at the next entry. *)
Lemma ranOver_note cfg before entry later r a f n k d reason err :
  running cfg before r → describes cfg entry d → tallies (note r a f n k d) →
  a ≤ 1 → f ≤ 1 → n ≤ 1 →
  ends cfg (before ++ entry :: later) (stopWith (note r a f n k d) reason) err →
  ranOver cfg (before ++ entry :: later) (stopWith (note r a f n k d) reason) err.
Proof.
  intros (Hd & _ & Hb & _ & _) Hdesc Ht Ha Hf Hn Hends.
  destruct (bounded_note r cfg a f n k d Hb Ha Hf Hn) as [Hb1 _].
  split_and!; [|done|done|done]. exists (before ++ [entry]), later. rewrite <-(assoc_L app).
  split; [done|]. simpl. apply Forall2_app; [done|by constructor].
Qed.

(** A run that stops before the next entry has a detail. *)
Lemma ranOver_cancel cfg before later r e :
  running cfg before r → ranOver cfg (before ++ later) (stopWith r StatusCancelled) (Some e).
Proof.
  intros (Hd & Ht & (H1 & H2 & H3) & _ & _). split_and!; [by exists before, later|done| |by split].
  unfold bounded. cbn [stopWith Applied Failed NotTriggered].
  split_and!; intros H; [specialize (H1 H)|specialize (H2 H)|specialize (H3 H)]; lia.
Qed.

(** A run over all the entries. *)
Lemma ranOver_all cfg before r :
  running cfg before r → ranOver cfg before r (resultError r).
Proof.
  intros (Hd & Ht & (H1 & H2 & H3) & Hs & Hr). split_and!.
  - exists before, []. by rewrite app_nil_r.
  - done.
  - unfold bounded. split_and!; intros H; [specialize (H1 H)|specialize (H2 H)|specialize (H3 H)]; lia.
  - unfold ends. rewrite Hr. split_and!; [done|symmetry; by eapply Forall2_length|done].
Qed.

Lemma ruleFailed_spec cfg before entry later r phase err
    (continue : Result → Call W (Result * option error)) w :
  running cfg before r → above cfg entry = false →
  (∀ r' w', running cfg (before ++ [entry]) r' →
     ranOver cfg (before ++ entry :: later) (continue r' w').1.1 (continue r' w').1.2) →
  let out := ruleFailed cfg r entry phase err continue w in
  ranOver cfg (before ++ entry :: later) out.1.1 out.1.2.
Proof.
  intros Hrun Habove Hk. unfold ruleFailed.
  set (d := mkDetail _ _ _ _ _ _).
  assert (describes cfg entry d) as Hd.
  { unfold describes, d. simpl. rewrite Habove. destruct phase; naive_solver. }
  assert (tallies (note r 0 1 0 0 d)) as Ht.
  { apply tallies_note; [by destruct Hrun as (_ & ? & _)|..]; by destruct phase. }
  destruct (isContextError err).
  { simpl. apply ranOver_note; [done|done|done|lia|lia|lia|]. by split. }
  destruct (StopOnFirstFailed cfg) eqn:Hstop.
  - simpl. apply ranOver_note; [done|done|done|lia|lia|lia|].
    unfold ends. simpl. rewrite last_snoc. destruct phase; simpl; by split_and!.
  - apply Hk. apply running_note; [done|done|done|lia|lia|lia|done| |done]. by rewrite Hstop.
Qed.

Lemma engineLoop_spec cfg ctx facts later : ∀ before r w,
  running cfg before r →
  let out := engineLoop cfg ctx facts later r w in
  ranOver cfg (before ++ later) out.1.1 out.1.2.
Proof.
  induction later as [|entry rest IH]; intros before r w Hrun.
  { rewrite app_nil_r. by apply ranOver_all. }
  assert (∀ r' w', running cfg (before ++ [entry]) r' →
    ranOver cfg (before ++ entry :: rest) (engineLoop cfg ctx facts rest r' w').1.1
      (engineLoop cfg ctx facts rest r' w').1.2) as Hnext.
  { intros r' w' Hr'. specialize (IH (before ++ [entry]) r' w' Hr').
    by rewrite <-(assoc_L app) in IH. }
  pose proof Hrun as (_ & Htal & _).
  cbn [engineLoop]. fold (above cfg entry). destruct (above cfg entry) eqn:Habove.
  { apply Hnext, running_note; [done| |by apply tallies_note|lia|lia|lia|done|done|done].
    unfold describes. simpl. rewrite Habove. by split_and!. }
  unfold unlessDone, mbind, call_bind, mret, call_ret.
  destruct (ctx_Err ctx w) as [[ce|] w1]; [by apply ranOver_cancel|].
  destruct (Evaluate (rule entry) ctx facts w1) as [[[]|err] w2].
  - destruct (ctx_Err ctx w2) as [[ce|] w3]; [by apply ranOver_cancel|].
    destruct (Execute (rule entry) ctx facts w3) as [[err|] w4]; [by apply ruleFailed_spec|].
    set (d := mkDetail _ _ _ _ _ _).
    assert (describes cfg entry d) as Hd by (unfold describes; simpl; rewrite Habove; naive_solver).
    assert (tallies (note r 1 0 0 0 d)) as Ht by by apply tallies_note.
    destruct (StopOnFirstApplied cfg) eqn:Hstop.
    + apply ranOver_note; [done|done|done|lia|lia|lia|]. unfold ends. simpl. by rewrite last_snoc.
    + apply Hnext, running_note; [done|done|done|lia|lia|lia|by rewrite Hstop|done|done].
  - set (d := mkDetail _ _ _ _ _ _).
    assert (describes cfg entry d) as Hd by (unfold describes; simpl; rewrite Habove; naive_solver).
    assert (tallies (note r 0 0 1 0 d)) as Ht by by apply tallies_note.
    destruct (StopOnFirstNotTriggered cfg) eqn:Hstop.
    + apply ranOver_note; [done|done|done|lia|lia|lia|]. unfold ends. simpl. by rewrite last_snoc.
    + apply Hnext, running_note; [done|done|done|lia|lia|lia|done|done|by rewrite Hstop].
  - by apply ruleFailed_spec.
Qed.

Lemma running_zero cfg : running cfg [] zeroResult.
Proof. unfold running, tallies, bounded, zeroResult. simpl. split_and!; try done. Qed.
End accounting.

(** ** Inference *)

Section inference.
Context {W F : Type}.
Implicit Types (c : Result) (r : InferenceResult) (cfg : EngineConfig).

(** A cycle in which every rule was looked at and none had anything to do. *)
Definition quietCycle c : Prop :=
  Applied c = 0 ∧ Failed c = 0 ∧ Stopped c = false ∧
  Forall (λ d, DStatus d = StatusNotTriggered ∨ DStatus d = StatusSkipped) (Details c).

Definition total (f : Result → Z) (cs : list Result) : Z := foldr (λ c n, f c + n) 0 cs.

(** What a run of at most [maxCycles] cycles reports. *)
Definition inferred (maxCycles : Z) r (err : option error) : Prop :=
  Cycles r = Z.of_nat (length (CycleResults r)) ∧ Cycles r ≤ maxCycles ∧
  i_Applied r = total Applied (CycleResults r) ∧ i_Failed r = total Failed (CycleResults r) ∧
  (Converged r = true ↔ err = None) ∧
  (err = None → ∃ earlier c, CycleResults r = earlier ++ [c] ∧
     Forall (λ x, 0 < Applied x) earlier ∧ quietCycle c) ∧
  (i_StopReason r = StatusNonConverged → Cycles r = maxCycles ∧
     Forall (λ x, 0 < Applied x) (CycleResults r) ∧
     err = Some (InferenceError maxCycles ErrInferenceNonConverged)).

Lemma countStatus_zero st ds : countStatus st ds = 0 → Forall (λ d, DStatus d ≠ st) ds.
Proof.
  unfold countStatus. intros H. assert (filter (λ d, DStatus d = st) ds = []) as Hnil.
  { apply nil_length_inv. lia. }
  apply Forall_forall. intros d Hd Hst.
  assert (d ∈ filter (λ d, DStatus d = st) ds) as Hin by by apply list_elem_of_filter.
  rewrite Hnil in Hin. by apply not_elem_of_nil in Hin.
Qed.

Lemma countStatus_none st ds : Forall (λ d, DStatus d ≠ st) ds → countStatus st ds = 0.
Proof.
  unfold countStatus. induction 1 as [|d ds Hd _ IH]; [done|].
  by rewrite filter_cons, decide_False.
Qed.

Lemma countStatus_last st ds : DStatus <$> last ds = Some st → 0 < countStatus st ds.
Proof.
  intros (d & Hd & ->)%fmap_Some. apply last_Some in Hd as [ds' ->].
  rewrite countStatus_app, decide_True by done. unfold countStatus. lia.
Qed.

(** A run without an error recorded no failure, unless it stopped early. *)
Lemma resultError_None cfg (es : list (ruleEntry W F)) c :
  (∃ ran later, es = ran ++ later ∧ Forall2 (describes cfg) ran (Details c)) → tallies c →
  resultError c = None → Failed c = 0.
Proof.
  intros (ran & later & _ & Hd) (_ & Hf & _). unfold resultError.
  destruct (Failed c =? 0) eqn:E; bools; [done|]. intros He.
  assert (omap DErr (Details c) = []) as Hnil by (by destruct (omap DErr (Details c))).
  enough (Forall (λ d, DStatus d ≠ StatusEvaluationFailed ∧ DStatus d ≠ StatusExecutionFailed) (Details c))
    as Hno.
  { assert (∀ st, st = StatusEvaluationFailed ∨ st = StatusExecutionFailed →
      countStatus st (Details c) = 0) as Hz; [|rewrite !Hz in Hf by auto; lia].
    intros st Hst. apply countStatus_none. eapply Forall_impl; [done|]. naive_solver. }
  apply Forall_forall. intros d Hin.
  apply list_elem_of_lookup in Hin as [i Hi].
  destruct (Forall2_lookup_r _ _ _ _ _ Hd Hi) as (e & _ & _ & _ & _ & Hdesc).
  assert (DErr d = None) as Hnone.
  { destruct (DErr d) as [x|] eqn:Ex; [|done].
    assert (x ∈ omap DErr (Details c)) as Hx
      by (apply list_elem_of_omap; exists d; split; [by eapply list_elem_of_lookup_2|done]).
    rewrite Hnil in Hx. by apply not_elem_of_nil in Hx. }
  rewrite Hnone in Hdesc. destruct (DStatus d); naive_solver.
Qed.

Lemma quiet_of_run cfg (es : list (ruleEntry W F)) c :
  StopOnFirstNotTriggered cfg = false → ranOver cfg es c None → Applied c = 0 → quietCycle c.
Proof.
  intros Hflag (Hran & Ht & _ & Hends) Ha. pose proof Ht as (Happ & Hfail & _).
  unfold ends in Hends.
  destruct (StopReason c); try done; try (by destruct Hends as (? & ? & [? ?] & _)).
  - destruct Hends as (Hs & _ & Herr). symmetry in Herr.
    pose proof (resultError_None _ _ _ Hran Ht Herr) as Hf.
    split_and!; [done|done|done|].
    assert (countStatus StatusEvaluationFailed (Details c) = 0 ∧
            countStatus StatusExecutionFailed (Details c) = 0) as [Hz1 Hz2]
      by (unfold countStatus in *; lia).
    rewrite Ha in Happ. symmetry in Happ.
    apply countStatus_zero in Happ, Hz1, Hz2. rewrite Forall_forall in Happ, Hz1, Hz2.
    destruct Hran as (ran & later & _ & Hd). apply Forall_forall. intros d Hin.
    specialize (Happ d Hin). specialize (Hz1 d Hin). specialize (Hz2 d Hin).
    apply list_elem_of_lookup in Hin as [i Hi].
    destruct (Forall2_lookup_r _ _ _ _ _ Hd Hi) as (e & _ & _ & _ & _ & Hdesc).
    destruct (DStatus d); auto; done.
  - destruct Hends as (_ & _ & _ & Hl%countStatus_last). lia.
  - destruct Hends as (_ & [? ?]). done.
  - destruct Hends as (Ht' & _). congruence.
Qed.
Lemma total_app f cs c : total f (cs ++ [c]) = total f cs + f c.
Proof. unfold total. induction cs as [|x cs IH]; simpl; [lia|]. rewrite IH. lia. Qed.

(** The result after the cycles before [cycle], all of which applied rules. *)
Definition inferring (cycle : Z) r : Prop :=
  Cycles r = cycle - 1 ∧ Cycles r = Z.of_nat (length (CycleResults r)) ∧
  i_Applied r = total Applied (CycleResults r) ∧ i_Failed r = total Failed (CycleResults r) ∧
  Converged r = false ∧ Forall (λ x, 0 < Applied x) (CycleResults r) ∧
  i_StopReason r ≠ StatusNonConverged.

Lemma addCycle_counts cycle r c :
  inferring cycle r → let r1 := addCycle r cycle c in
  Cycles r1 = cycle ∧ Cycles r1 = Z.of_nat (length (CycleResults r1)) ∧
  i_Applied r1 = total Applied (CycleResults r1) ∧ i_Failed r1 = total Failed (CycleResults r1) ∧
  Converged r1 = false.
Proof.
  intros (H1 & H2 & H3 & H4 & H5 & _). simpl. rewrite length_app, !total_app. simpl.
  split_and!; [done|lia|lia|lia|done].
Qed.

(** A cycle never claims that inference did not converge. *)
Lemma addCycle_reason cfg (es : list (ruleEntry W F)) cycle r c err :
  inferring cycle r → ranOver cfg es c err →
  i_StopReason (addCycle r cycle c) ≠ StatusNonConverged.
Proof.
  intros (_ & _ & _ & _ & _ & _ & Hr) (_ & _ & _ & Hends). simpl.
  destruct (Stopped c); [|done]. unfold ends in Hends. by destruct (StopReason c).
Qed.

Lemma inferenceLoop_spec (engine : Engine W F) ctx facts maxCycles left : ∀ cycle r w,
  StopOnFirstNotTriggered (config engine) = false →
  Z.of_nat left + cycle - 1 = maxCycles → inferring cycle r →
  let out := inferenceLoop engine ctx (Some facts) left cycle r w in
  inferred maxCycles out.1.1 out.1.2.
Proof.
  induction left as [|left IH]; intros cycle r w Hflag Hleft Hr.
  { destruct Hr as (H1 & H2 & H3 & H4 & H5 & H6 & H7). simpl.
    assert (Cycles r = maxCycles) as -> by lia. unfold inferred. simpl. rewrite H5.
    split_and!; naive_solver lia. }
  cbn [inferenceLoop]. unfold unlessDone, mbind, call_bind, mret, call_ret.
  destruct (ctx_Err ctx w) as [[ce|] w1].
  { destruct Hr as (H1 & H2 & H3 & H4 & H5 & _). unfold inferred. simpl. rewrite H5.
    split_and!; naive_solver lia. }
  pose proof (engineLoop_spec (config engine) ctx (Some facts)
    (entries (Some (e_rules engine w1))) [] zeroResult w1 (running_zero _)) as Hrun.
  cbn [Engine_Run orBackground]. cbv zeta in Hrun.
  destruct (engineLoop _ _ _ _ _ w1) as [[c err] w2]. cbn [fst snd] in Hrun. rewrite app_nil_l in Hrun.
  destruct (addCycle_counts cycle r c Hr) as (C1 & C2 & C3 & C4 & C5).
  pose proof (addCycle_reason _ _ _ _ _ _ Hr Hrun) as Hreason.
  destruct err as [e|].
  { cbn [fst snd]. destruct (isContextError e); unfold inferred;
      cbn [i_stopWith Cycles CycleResults i_Applied i_Failed Converged i_StopReason];
      rewrite C5; split_and!; (done || lia || naive_solver). }
  destruct (Applied c =? 0) eqn:Happ; bools.
  - cbn [fst snd]. unfold inferred.
    cbn [converge Cycles CycleResults i_Applied i_Failed Converged i_StopReason].
    split_and!; [done|lia|done|done|done| |done].
    + intros _. exists (CycleResults r), c. split_and!; [done|by destruct Hr as (_ & _ & _ & _ & _ & ? & _)|].
      by eapply quiet_of_run.
  - apply IH; [done|lia|]. pose proof Hrun as (_ & (Hc & _) & _).
    assert (0 < Applied c) as Hpos by (unfold countStatus in Hc; lia).
    destruct Hr as (_ & _ & _ & _ & _ & Hall & _).
    split_and!; [simpl; lia|done|done|done|done| |done].
    simpl. apply Forall_app. by split; [|constructor].
Qed.
End inference.

(** ** Composite rules with side-effect-free predicates *)

Section composite.
Context {W F : Type} (ctx : Context W) (facts : option F) (p : ruleEntry W F → W → bool).

(** A context that is not done, and predicates that only look. *)
Definition live : Prop := ∀ w, ctx_Err ctx w = (None, w).
Definition looksOnly (e : ruleEntry W F) : Prop :=
  ∀ w, Evaluate (rule e) ctx facts w = (Ok (p e w), w).

(** Execute the rules in order, up to the first error. *)
Fixpoint executeInOrder (es : list (ruleEntry W F)) : Call W (option error) :=
  match es with
  | [] => mret None
  | e :: rest =>
      x ← Execute (rule e) ctx facts;
      match x with Some err => mret (Some err) | None => executeInOrder rest end
  end.

(** Execute, in order, the rules whose predicate holds at their turn; an error
    when none does. *)
Fixpoint executeWhere (es : list (ruleEntry W F)) (executed : bool) : Call W (option error) := λ w,
  match es with
  | [] => (if executed then None else Some ErrCompositeNotTriggered, w)
  | e :: rest =>
      if p e w
      then match Execute (rule e) ctx facts w with
           | (Some err, w') => (Some err, w')
           | (None, w') => executeWhere rest true w'
           end
      else executeWhere rest executed w
  end.

Hypothesis Hlive : live.

Lemma firstMatchingRule_spec es w :
  Forall looksOnly es →
  firstMatchingRule ctx es facts w = (Ok (head (filter (λ e, p e w = true) es)), w).
Proof.
  induction 1 as [|e es He _ IH]; [done|].
  cbn [firstMatchingRule]. unfold unlessDone, mbind, call_bind, mret, call_ret.
  rewrite (Hlive w), (He w), filter_cons. destruct (p e w) eqn:E.
  - by rewrite decide_True.
  - by rewrite decide_False.
Qed.

Lemma allRulesMatch_spec es w :
  Forall looksOnly es → allRulesMatch ctx es facts w = (Ok (forallb (λ e, p e w) es), w).
Proof.
  induction 1 as [|e es He _ IH]; [done|].
  cbn [allRulesMatch forallb]. unfold unlessDone, mbind, call_bind, mret, call_ret.
  rewrite (Hlive w), (He w). destruct (p e w); [by rewrite IH|done].
Qed.

Lemma unitLoop_spec es w : unitLoop ctx es facts w = executeInOrder es w.
Proof.
  revert w. induction es as [|e es IH]; intros w; [done|].
  cbn [unitLoop executeInOrder]. unfold unlessDone, mbind, call_bind, mret, call_ret.
  rewrite (Hlive w). by destruct (Execute (rule e) ctx facts w) as [[err|] w1].
Qed.

Lemma dependentsLoop_spec es guard executed w :
  Forall looksOnly es →
  dependentsLoop ctx es guard facts executed w =
    executeWhere (filter (λ e, name e ≠ guard) es) executed w.
Proof.
  intros Hes. revert executed w. induction Hes as [|e es He _ IH]; intros executed w; [done|].
  cbn [dependentsLoop]. rewrite filter_cons. case_decide as Hn.
  - rewrite decide_False by tauto. apply IH.
  - rewrite decide_True by done. cbn [executeWhere].
    unfold unlessDone, mbind, call_bind, mret, call_ret. rewrite (Hlive w), (He w).
    destruct (p e w); [|apply IH]. rewrite (Hlive w).
    destruct (Execute (rule e) ctx facts w) as [[err|] w1]; [done|apply IH].
Qed.
End composite.

(** ** Properties *)

(** The engine accounts for every rule.  The details of a run describe, in
    order, a prefix of the rules in (priority, name) order, and all of them
    unless the run stopped; a rule is skipped exactly when its priority is above
    the threshold in use; the four counters are the numbers of details of their
    statuses, and each stop option bounds its counter by one.  A run that is not
    stopped returns the join of the recorded failures; one stopped by an applied
    or an untriggered rule returns no error, one stopped by a failure returns
    that failure, and one stopped by cancellation an error. *)
Theorem engine_run_accounts {W F} (e : Engine W F) octx facts w :
  let out := Engine_Run e octx (Some facts) w in
  ranOver (config e) (entries (Some (e_rules e w))) out.1.1 out.1.2.
Proof.
  apply (engineLoop_spec (config e) (orBackground octx) (Some facts) _ [] zeroResult w), running_zero.
Qed.

(** Inference is bounded and its verdict is right.  A run makes at most
    [MaxCycles] cycles and its totals are the sums over them; it reports
    convergence exactly when it returns no error, and then every earlier cycle
    applied a rule and the last one looked at all rules, applied none and
    recorded no failure; it reports non-convergence only when all [MaxCycles]
    cycles applied a rule. *)
Theorem inference_bounded {W F} rules cfg (e : InferenceEngine W F) octx facts w :
  NewInferenceEngine rules cfg = Ok e →
  let out := Inference_Run e octx (Some facts) w in
  inferred (MaxCycles cfg) out.1.1 out.1.2.
Proof.
  unfold NewInferenceEngine. destruct (MaxCycles cfg <=? 0) eqn:Hmax; [done|]. bools.
  destruct (StopOnFirstNotTriggered _) eqn:Hflag; [done|]. intros [= <-].
  apply inferenceLoop_spec; [done|simpl; lia|]. by split_and!.
Qed.

(** Composite rules keep their promises when the context is live and the
    predicates of the children are side-effect-free: an activation group runs
    the first child in (priority, name) order that matches and nothing else; a
    unit group runs all its children in order when all match, and nothing at all
    otherwise; a conditional group runs, when its guard matches, the other
    children that match at their turn, and nothing when it does not.  Nothing
    run means that the world is untouched and [ErrCompositeNotTriggered]. *)
Theorem composite_groups {W F} (r : @compositeRule W F) ctx facts p w :
  live ctx → Forall (looksOnly ctx facts p) (entries (Some (children r))) →
  let es := entries (Some (children r)) in
  match kind r with
  | compositeActivation =>
      let first := head (filter (λ e, p e w = true) es) in
      compositeEvaluate r ctx facts w = (Ok (bool_decide (is_Some first)), w) ∧
      compositeExecute r ctx facts w =
        match first with
        | Some e => Execute (rule e) ctx facts w
        | None => (Some ErrCompositeNotTriggered, w)
        end
  | compositeUnit =>
      compositeEvaluate r ctx facts w = (Ok (forallb (λ e, p e w) es), w) ∧
      compositeExecute r ctx facts w =
        if forallb (λ e, p e w) es then executeInOrder ctx facts es w
        else (Some ErrCompositeNotTriggered, w)
  | compositeConditional =>
      ∀ g, g ∈ es → RuleSet_Get (Some (children r)) (guardName r) = Some (rule g) →
      compositeEvaluate r ctx facts w = (Ok (p g w), w) ∧
      compositeExecute r ctx facts w =
        if p g w then executeWhere ctx facts p (filter (λ e, name e ≠ guardName r) es) false w
        else (Some ErrCompositeNotTriggered, w)
  end.
Proof.
  intros Hlive Hes. unfold compositeEvaluate, compositeExecute. destruct (kind r).
  - unfold executeFirstMatchingRule, unlessDone, mbind, call_bind, mret, call_ret.
    rewrite (firstMatchingRule_spec _ _ p Hlive) by done.
    destruct (head _); [|done]. by rewrite (Hlive w).
  - intros g Hg Hget. unfold executeConditionalGroup, evaluateNamedRule, unlessDone, mbind,
      call_bind, mret, call_ret. rewrite Forall_forall in Hes.
    rewrite Hget, (Hlive w), (Hes g Hg w). split; [done|].
    destruct (p g w); [|done]. apply dependentsLoop_spec; [done|]. by apply Forall_forall.
  - unfold executeUnitGroup, mbind, call_bind, mret.
    rewrite (allRulesMatch_spec _ _ p Hlive) by done. split; [done|].
    destruct (forallb _ _); [|done]. by apply unitLoop_spec.
Qed.

(** ** Sample rules: a counter that stops at 3, and a rule that fails *)

Definition counterRule : Rule Z unit :=
  mkRule [98] [] 0 (λ _ _ w, (Ok (w <? 3), w)) (λ _ _ w, (None, w + 1)).
Definition failingRule : Rule Z unit :=
  mkRule [97] [] 0 (λ _ _ w, (Fail (Sentinel "demo.Err"), w)) (λ _ _ w, (None, w)).
Definition setOf (rules : list (Rule Z unit)) : RuleSet Z unit :=
  match NewRuleSet (map Some rules) with Ok s => s | Fail _ => emptySet end.

(** A failed rule can be hidden: with [StopOnFirstApplied] and without
    [StopOnFirstFailed], a run in which one rule fails and a later one applies
    records the failure but returns no error; without [StopOnFirstApplied] the
    same rules return it. *)
Theorem stop_hides_failure :
  let rules := setOf [failingRule; mkRule [98] [] 0 (λ _ _ w, (Ok true, w)) (λ _ _ w, (None, w + 1))] in
  let run stop := (Engine_Run (NewEngine (Some (λ _, rules)) (mkEngineConfig stop false false 0 false))
                     None (Some tt) 0).1 in
  Failed (run true).1 = 1 ∧ (run true).2 = None ∧
  Failed (run false).1 = 1 ∧ is_Some (run false).2.
Proof. vm_compute. split_and!; eauto. Qed.

Lemma inference_bounded_witness :
  let e := mkInference (λ _, setOf [counterRule])
             (mkInferenceConfig 5 (mkEngineConfig false false false 0 false)) in
  let out := Inference_Run e None (Some tt) 0 in
  Cycles out.1.1 = 4 ∧ out.1.2 = None ∧ out.2 = 3 ∧ inferred 5 out.1.1 out.1.2.
Proof.
  split; [vm_compute; reflexivity|]. split; [vm_compute; reflexivity|].
  split; [vm_compute; reflexivity|].
  apply (inference_bounded (Some (λ _, setOf [counterRule]))
           (mkInferenceConfig 5 (mkEngineConfig false false false 0 false))
           (mkInference (λ _, setOf [counterRule])
              (mkInferenceConfig 5 (mkEngineConfig false false false 0 false)))).
  reflexivity.
Defined.

(** A unit group whose only child does not match runs nothing. *)
Lemma composite_groups_witness :
  let r := mkComposite [117] [] 0 compositeUnit [] (setOf [counterRule]) in
  compositeEvaluate r Background (Some tt) 7 = (Ok false, 7) ∧
  compositeExecute r Background (Some tt) 7 = (Some ErrCompositeNotTriggered, 7).
Proof.
  destruct (composite_groups (mkComposite [117] [] 0 compositeUnit [] (setOf [counterRule]))
    Background (Some tt) (λ _ w, w <? 3) 7) as [He Hx].
  - intros w. reflexivity.
  - vm_compute. repeat constructor.
  - split; [exact He|exact Hx].
Defined.
