(* ===== verification/Wildcard.v ===== *)
(** * core: wildcard patterns

    Models [src/core/wildcard.go]: the pattern parser, the row-by-row dynamic
    program that matches tokens against a value, the splitting of patterns and
    paths into segments and the table that matches segments.  The reference is
    the language of a pattern, given as an inductive relation on the text of
    the pattern itself; the theorems show that the dynamic programs decide
    it. *)

From S2P Require Import Prelude GoError GoText.

Local Open Scope Z_scope.

Definition ErrMalformedWildcardPattern : error := Sentinel "core.ErrMalformedWildcardPattern".

(** The characters the code compares with. *)
Definition backslash : Z := 92.
Definition question : Z := 63.
Definition asterisk : Z := 42.
Definition slash : Z := 47.

Inductive wildcardTokenKind : Type := wildcardLiteral | wildcardAny | wildcardStar.

#[export] Instance wildcardTokenKind_eq_dec : EqDecision wildcardTokenKind.
Proof. solve_decision. Defined.

Record wildcardToken : Type := mkToken {
  kind : wildcardTokenKind;
  rune : Z
}.

(** The loop of [parseWildcardPattern] from index [i]: [runes] is [runes[i:]]. *)
Fixpoint parseLoop (runes : text) (tokens : list wildcardToken) : result (list wildcardToken) :=
  match runes with
  | [] => Ok tokens
  | r :: rest =>
      if r =? backslash then
        match rest with
        | [] => Fail (Errorf "%w: trailing escape" [ErrMalformedWildcardPattern])
        | r' :: rest' => parseLoop rest' (tokens ++ [mkToken wildcardLiteral r'])
        end
      else if r =? question then parseLoop rest (tokens ++ [mkToken wildcardAny 0])
      else if r =? asterisk then
        match last tokens with
        | Some t =>
            if decide (kind t = wildcardStar) then parseLoop rest tokens
            else parseLoop rest (tokens ++ [mkToken wildcardStar 0])
        | None => parseLoop rest (tokens ++ [mkToken wildcardStar 0])
        end
      else parseLoop rest (tokens ++ [mkToken wildcardLiteral r])
  end.

Definition parseWildcardPattern (pattern : text) : result (list wildcardToken) :=
  parseLoop pattern [].

(** The body of the loop over the tokens: [next] from [dp]. *)
Definition nextRow (value : text) (dp : list bool) (token : wildcardToken) : list bool :=
  let next := replicate (S (length value)) false in
  match kind token with
  | wildcardStar =>
      foldl (λ next i, <[i := (dp !!! i) || (next !!! (i - 1)%nat)]> next)
        (<[0%nat := dp !!! 0%nat]> next) (seq 1 (length value))
  | wildcardAny =>
      foldl (λ next i, <[i := dp !!! (i - 1)%nat]> next) next (seq 1 (length value))
  | wildcardLiteral =>
      foldl (λ next i, <[i := (dp !!! (i - 1)%nat) && ((value !!! (i - 1)%nat) =? rune token)]> next)
        next (seq 1 (length value))
  end.

Definition matchWildcardTokens (tokens : list wildcardToken) (value : text) : bool :=
  let dp := <[0%nat := true]> (replicate (S (length value)) false) in
  foldl (nextRow value) dp tokens !!! length value.

Definition MatchWildcard (pattern value : text) : result bool :=
  match parseWildcardPattern pattern with
  | Fail e => Fail e
  | Ok tokens => Ok (matchWildcardTokens tokens value)
  end.

(** The loop of [FirstWildcardMatch] and [FirstWildcardPathMatch] from index
    [i]. *)
Fixpoint firstLoop (matcher : text → text → result bool) (value : text) (i : Z) (patterns : list text) :
    Z * option error :=
  match patterns with
  | [] => (-1, None)
  | pattern :: rest =>
      match matcher pattern value with
      | Fail e => (-1, Some e)
      | Ok true => (i, None)
      | Ok false => firstLoop matcher value (i + 1) rest
      end
  end.

Definition FirstWildcardMatch (value : text) (patterns : list text) : Z * option error :=
  firstLoop MatchWildcard value 0 patterns.

(** ** Paths *)

Definition splitWildcardPath (path : text) : list text :=
  filter (λ part, part ≠ []) (FieldsFunc (λ r, (r =? slash) || (r =? backslash)) path).

(** [if current.Len() > 0 { segments = append(segments, current.String()); current.Reset() }] *)
Definition cut (segments : list text) (current : text) : list text :=
  match current with [] => segments | _ => segments ++ [current] end.

(** The loop of [splitWildcardPatternPath] from index [i]. *)
Fixpoint splitLoop (runes : text) (segments : list text) (current : text) : list text :=
  match runes with
  | [] => cut segments current
  | r :: rest =>
      if r =? slash then splitLoop rest (cut segments current) []
      else if r =? backslash then
        match rest with
        | r' :: rest' =>
            if (r' =? asterisk) || (r' =? question) || (r' =? backslash)
            then splitLoop rest' segments (current ++ [r; r'])
            else splitLoop rest (cut segments current) []
        | [] => splitLoop rest (cut segments current) []
        end
      else splitLoop rest segments (current ++ [r])
  end.

Definition splitWildcardPatternPath (pattern : text) : list text := splitLoop pattern [] [].

Definition doubleStar : text := [asterisk; asterisk].

(** The body of the loop over the pattern segments: row [i+1] of the table
    from row [i]. *)
Definition nextSegmentRow (pathSegments : list text) (dp : list bool) (segment : text) :
    result (list bool) :=
  let next := replicate (S (length pathSegments)) false in
  if decide (segment = doubleStar) then
    Ok (foldl (λ next j, <[j := (dp !!! j) || (next !!! (j - 1)%nat)]> next)
          (<[0%nat := dp !!! 0%nat]> next) (seq 1 (length pathSegments)))
  else
    match parseWildcardPattern segment with
    | Fail e => Fail e
    | Ok tokens =>
        Ok (foldl (λ next j, <[j := (dp !!! (j - 1)%nat) &&
                                  matchWildcardTokens tokens (pathSegments !!! (j - 1)%nat)]> next)
              next (seq 1 (length pathSegments)))
    end.

Fixpoint segmentLoop (pathSegments : list text) (dp : list bool) (patternSegments : list text) :
    result (list bool) :=
  match patternSegments with
  | [] => Ok dp
  | segment :: rest =>
      match nextSegmentRow pathSegments dp segment with
      | Fail e => Fail e
      | Ok next => segmentLoop pathSegments next rest
      end
  end.

Definition matchWildcardPathSegments (patternSegments pathSegments : list text) : result bool :=
  let dp := <[0%nat := true]> (replicate (S (length pathSegments)) false) in
  match segmentLoop pathSegments dp patternSegments with
  | Fail e => Fail e
  | Ok row => Ok (row !!! length pathSegments)
  end.

Definition MatchWildcardPath (pattern path : text) : result bool :=
  matchWildcardPathSegments (splitWildcardPatternPath pattern) (splitWildcardPath path).

Definition FirstWildcardPathMatch (path : text) (patterns : list text) : Z * option error :=
  firstLoop MatchWildcardPath path 0 patterns.

(** ** The language of a pattern *)

(** [denotes p v]: the pattern [p], read as text, stands for [v]. *)
Inductive denotes : text → text → Prop :=
| denotes_nil : denotes [] []
| denotes_escape c p v : denotes p v → denotes (backslash :: c :: p) (c :: v)
| denotes_any c p v : denotes p v → denotes (question :: p) (c :: v)
| denotes_star u p v : denotes p v → denotes (asterisk :: p) (u ++ v)
| denotes_literal c p v :
    c ≠ backslash → c ≠ question → c ≠ asterisk → denotes p v → denotes (c :: p) (c :: v).

(** The length of the run of backslashes that ends a pattern: the pattern ends
    inside an escape when it is odd. *)
Fixpoint trailingEscapes (p : text) : nat :=
  match p with
  | [] => 0
  | c :: p' =>
      if (c =? backslash) && (trailingEscapes p' =? length p')%nat
      then S (trailingEscapes p') else trailingEscapes p'
  end.

(** [pathDenotes ps vs]: pattern segments against path segments; [**] stands
    for any number of segments. *)
Inductive pathDenotes : list text → list text → Prop :=
| pathDenotes_nil : pathDenotes [] []
| pathDenotes_stars us ps vs : pathDenotes ps vs → pathDenotes (doubleStar :: ps) (us ++ vs)
| pathDenotes_segment p v ps vs :
    p ≠ doubleStar → denotes p v → pathDenotes ps vs → pathDenotes (p :: ps) (v :: vs).

(** ** Languages and rows *)

Section rows.
Context {A : Type}.
Implicit Types (P Q R : list A → Prop) (v : list A) (dp : list bool).

Definition cat P Q : list A → Prop := λ v, ∃ u w, v = u ++ w ∧ P u ∧ Q w.
Definition eps : list A → Prop := λ v, v = [].
Definition anything : list A → Prop := λ _, True.
Definition single (good : A → Prop) : list A → Prop := λ v, ∃ x, v = [x] ∧ good x.
Definition same P Q : Prop := ∀ v, P v ↔ Q v.

#[local] Instance same_equivalence : Equivalence same.
Proof.
  split; [by intros P v|by intros P Q H v; rewrite (H v)|].
  intros P Q R H1 H2 v. by rewrite (H1 v), (H2 v).
Qed.

#[local] Instance cat_proper : Proper (same ==> same ==> same) cat.
Proof.
  intros P P' HP Q Q' HQ v. unfold cat. split; intros (u & w & -> & Hu & Hw); exists u, w;
    (split; [done|]); (split; [by apply HP|by apply HQ]).
Qed.

Lemma cat_assoc P Q R : same (cat (cat P Q) R) (cat P (cat Q R)).
Proof.
  intros v. unfold cat. split.
  - intros (? & w & -> & (u & x & -> & Hu & Hx) & Hw). exists u, (x ++ w).
    rewrite (assoc_L app). naive_solver.
  - intros (u & ? & -> & Hu & (x & w & -> & Hx & Hw)). exists (u ++ x), w.
    rewrite (assoc_L app). naive_solver.
Qed.

Lemma cat_eps_l P : same (cat eps P) P.
Proof. intros v. unfold cat, eps. split; [by intros (? & ? & -> & -> & ?)|]. by exists [], v. Qed.

Lemma cat_eps_r P : same (cat P eps) P.
Proof.
  intros v. unfold cat, eps. split; [intros (? & ? & -> & ? & ->); by rewrite app_nil_r|].
  exists v, []. by rewrite app_nil_r.
Qed.

Lemma cat_anything_idem P : same (cat anything (cat anything P)) (cat anything P).
Proof.
  intros v. rewrite <-(cat_assoc anything anything P v). unfold cat, anything. split.
  - intros (? & w & -> & _ & Hw). naive_solver.
  - intros (u & w & -> & _ & Hw). exists u, w. split; [done|]. split; [|done].
    exists u, []. by rewrite app_nil_r.
Qed.

Definition concat_all (Ls : list (list A → Prop)) : list A → Prop := foldr cat eps Ls.

Lemma foldl_cat Ls P : same (foldl cat P Ls) (cat P (concat_all Ls)).
Proof.
  revert P. induction Ls as [|L Ls IH]; intros P; simpl.
  - symmetry. apply cat_eps_r.
  - rewrite IH. apply cat_assoc.
Qed.

Lemma concat_all_app Ls Ks : same (concat_all (Ls ++ Ks)) (cat (concat_all Ls) (concat_all Ks)).
Proof.
  unfold concat_all. induction Ls as [|L Ls IH]; simpl; [by rewrite cat_eps_l|].
  by rewrite IH, cat_assoc.
Qed.

(** A row [dp] of the dynamic program marks the prefixes of [v] in [P]. *)
Definition represents P v dp : Prop :=
  length dp = S (length v) ∧ ∀ i, (i ≤ length v)%nat → dp !!! i = true ↔ P (take i v).

Lemma first_row v : represents eps v (<[0%nat := true]> (replicate (S (length v)) false)).
Proof.
  split; [by rewrite length_insert, length_replicate|]. intros i Hi. unfold eps.
  destruct i as [|i]; [done|]. rewrite list_lookup_total_insert_ne by done.
  rewrite lookup_total_replicate_2 by lia. split; [done|].
  destruct v; simpl in *; [lia|done].
Qed.

(** The loop [for i := 1; i <= n; i++ { next[i] = f(i) }]. *)
Lemma fill_row (f : nat → bool) next n j :
  (n < length next)%nat →
  length (foldl (λ next i, <[i := f i]> next) next (seq 1 n)) = length next ∧
  foldl (λ next i, <[i := f i]> next) next (seq 1 n) !!! j =
    if decide (1 ≤ j ≤ n)%nat then f j else next !!! j.
Proof.
  revert j. induction n as [|n IH]; intros j Hn.
  - simpl. rewrite decide_False by lia. done.
  - rewrite seq_S, foldl_app. simpl. destruct (IH j ltac:(lia)) as [Hl Hj].
    split; [by rewrite length_insert|]. destruct (decide (j = S n)) as [->|Hne].
    + rewrite list_lookup_total_insert_eq by lia. rewrite decide_True by lia. done.
    + rewrite list_lookup_total_insert_ne by done. rewrite Hj.
      repeat case_decide; done || lia.
Qed.

(** The loop [for i := 1; i <= n; i++ { next[i] = dp[i] || next[i-1] }]. *)
Lemma star_row dp next n j :
  (n < length next)%nat → next !!! 0%nat = dp !!! 0%nat →
  let row := foldl (λ next i, <[i := (dp !!! i) || (next !!! (i - 1)%nat)]> next) next (seq 1 n) in
  length row = length next ∧
  ((j ≤ n)%nat → row !!! j = true ↔ ∃ k, (k ≤ j)%nat ∧ dp !!! k = true).
Proof.
  revert j. induction n as [|n IH]; intros j Hn H0; cbv zeta.
  - simpl. split; [done|]. intros ?. assert (j = 0%nat) as -> by lia. rewrite H0. split; [eauto|].
    intros (k & ? & Hk). by assert (k = 0%nat) as -> by lia.
  - rewrite seq_S, foldl_app. simpl.
    destruct (IH j ltac:(lia) H0) as [Hl Hj]. split; [by rewrite length_insert|].
    intros Hjn. destruct (decide (j = S n)) as [->|Hne].
    + rewrite list_lookup_total_insert_eq by lia. rewrite orb_true_iff.
      destruct (IH n ltac:(lia) H0) as [_ Hn']. rewrite ?Nat.sub_0_r, Hn' by lia. split.
      * intros [?|(k & ? & ?)]; [eauto|exists k; split; [lia|done]].
      * intros (k & ? & ?). destruct (decide (k = S n)) as [->|]; [by left|].
        right. exists k. split; [lia|done].
    + rewrite list_lookup_total_insert_ne by done. apply Hj. lia.
Qed.

Lemma represents_star P v dp :
  represents P v dp →
  represents (cat P anything) v
    (foldl (λ next i, <[i := (dp !!! i) || (next !!! (i - 1)%nat)]> next)
       (<[0%nat := dp !!! 0%nat]> (replicate (S (length v)) false)) (seq 1 (length v))).
Proof.
  intros [Hl Hdp].
  set (next := <[0%nat := dp !!! 0%nat]> (replicate (S (length v)) false)).
  assert (length next = S (length v)) as Hn by by unfold next; rewrite length_insert, length_replicate.
  assert (length v < length next)%nat as Hlt by lia.
  split.
  - rewrite (proj1 (star_row dp next (length v) 0 Hlt eq_refl)). done.
  - intros i Hi. rewrite (proj2 (star_row dp next (length v) i Hlt eq_refl) Hi).
    unfold cat, anything. split.
    + intros (k & Hk & Hd). exists (take k v), (drop k (take i v)). apply Hdp in Hd; [|lia].
      split; [|done]. rewrite <-(take_drop k (take i v)) at 1. by rewrite take_take, Nat.min_l by lia.
    + intros (u & w & Huw & Hu & _). exists (length u).
      pose proof (f_equal length Huw) as Hlen. rewrite length_take, length_app in Hlen.
      split; [lia|]. apply Hdp; [lia|].
      replace (take (length u) v) with u; [done|].
      rewrite <-(Nat.min_l (length u) i), <-take_take by lia. by rewrite Huw, take_app_length.
Qed.

Lemma represents_single `{Inhabited A} P v dp (test : A → bool) (f : nat → bool) :
  represents P v dp →
  (∀ i, f i = (dp !!! (i - 1)%nat) && test (v !!! (i - 1)%nat)) →
  represents (cat P (single (λ x, test x = true))) v
    (foldl (λ next i, <[i := f i]> next) (replicate (S (length v)) false) (seq 1 (length v))).
Proof.
  intros [Hl Hdp] Hf.
  assert (length v < length (replicate (S (length v)) false))%nat as Hn
    by (rewrite length_replicate; lia).
  split; [rewrite (proj1 (fill_row f _ _ 0 Hn)), length_replicate; done|].
  intros i Hi. rewrite (proj2 (fill_row f _ _ i Hn)), Hf. unfold cat, single. destruct i as [|i].
  { rewrite decide_False by lia. simpl. split; [done|]. intros (u & ? & H0 & _ & x & -> & _).
    by destruct u. }
  rewrite decide_True by lia. replace (S i - 1)%nat with i by lia. rewrite andb_true_iff.
  destruct (lookup_lt_is_Some_2 v i Hi) as [x Hx].
  rewrite (list_lookup_total_correct _ _ _ Hx), Hdp, (take_S_r _ _ _ Hx) by lia. split.
  - intros [HP Ht]. exists (take i v), [x]. naive_solver.
  - intros (u & w & Huw & HP & y & -> & Ht). apply app_inj_tail in Huw as [-> ->]. done.
Qed.
End rows.

#[local] Existing Instance same_equivalence.
#[local] Existing Instance cat_proper.

(** ** Matching tokens *)

Definition tokenLanguage (t : wildcardToken) : text → Prop :=
  match kind t with
  | wildcardStar => anything
  | wildcardAny => single (λ _, true = true)
  | wildcardLiteral => single (λ c, (c =? rune t) = true)
  end.

Lemma nextRow_represents P value dp t :
  represents P value dp → represents (cat P (tokenLanguage t)) value (nextRow value dp t).
Proof.
  intros H. unfold nextRow, tokenLanguage. destruct (kind t).
  - by apply (represents_single P value dp (λ c, c =? rune t)).
  - apply (represents_single P value dp (λ _, true)); [done|]. intros i. by rewrite andb_true_r.
  - by apply represents_star.
Qed.

Lemma rows_represent P value dp ts :
  represents P value dp →
  represents (foldl cat P (tokenLanguage <$> ts)) value (foldl (nextRow value) dp ts).
Proof.
  revert P dp. induction ts as [|t ts IH]; intros P dp H; [done|]. simpl.
  by apply IH, nextRow_represents.
Qed.

Lemma matchWildcardTokens_spec ts value :
  matchWildcardTokens ts value = true ↔ concat_all (tokenLanguage <$> ts) value.
Proof.
  unfold matchWildcardTokens.
  destruct (rows_represent eps value _ ts (first_row value)) as [_ Hr].
  rewrite Hr, firstn_all, (foldl_cat _ _ value) by done. apply cat_eps_l.
Qed.

(** ** Parsing *)

(** Induction on a pattern along its escapes. *)
Lemma pattern_ind (P : text → Prop) :
  P [] → P [backslash] → (∀ c p, P p → P (backslash :: c :: p)) →
  (∀ c p, c ≠ backslash → P p → P (c :: p)) → ∀ p, P p.
Proof.
  intros Hnil Hend Hesc Hcons p.
  induction p as [p IH] using (induction_ltof1 _ (@length Z)). unfold ltof in IH.
  destruct p as [|c p]; [done|]. destruct (decide (c = backslash)) as [->|Hne].
  - destruct p as [|c' p]; [done|]. apply Hesc, IH. simpl. lia.
  - apply Hcons; [done|]. apply IH. simpl. lia.
Qed.

Lemma denotes_nil_iff : same (denotes []) eps.
Proof. intros v. unfold eps. split; [by inversion 1|intros ->; constructor]. Qed.

Lemma denotes_escape_iff c p :
  same (denotes (backslash :: c :: p)) (cat (single (λ x, (x =? c) = true)) (denotes p)).
Proof.
  intros v. unfold cat, single. split.
  - intros H; inversion H; subst; try done.
    eexists [_], _. split; [done|]. split; [|eassumption]. eexists. split; [done|apply Z.eqb_refl].
  - intros (? & w & -> & (x & -> & ->%Z.eqb_eq) & Hw). by constructor.
Qed.

Lemma denotes_any_iff p :
  same (denotes (question :: p)) (cat (single (λ _, true = true)) (denotes p)).
Proof.
  intros v. unfold cat, single. split.
  - intros H; inversion H; subst; try done.
    eexists [_], _. split; [done|]. split; [by eexists|eassumption].
  - intros (? & w & -> & (x & -> & _) & Hw). by constructor.
Qed.

Lemma denotes_star_iff p : same (denotes (asterisk :: p)) (cat anything (denotes p)).
Proof.
  intros v. unfold cat, anything. split.
  - intros H; inversion H; subst; try done. naive_solver.
  - intros (u & w & -> & _ & Hw). by constructor.
Qed.

Lemma denotes_literal_iff c p :
  c ≠ backslash → c ≠ question → c ≠ asterisk →
  same (denotes (c :: p)) (cat (single (λ x, (x =? c) = true)) (denotes p)).
Proof.
  intros H1 H2 H3 v. unfold cat, single. split.
  - intros H; inversion H; subst; try done.
    eexists [_], _. split; [done|]. split; [|eassumption]. eexists. split; [done|apply Z.eqb_refl].
  - intros (? & w & -> & (x & -> & ->%Z.eqb_eq) & Hw). by constructor.
Qed.

(** One more token at the end of the parsed prefix. *)
Lemma concat_all_snoc ts t P :
  same (cat (concat_all (tokenLanguage <$> ts ++ [t])) P)
       (cat (concat_all (tokenLanguage <$> ts)) (cat (tokenLanguage t) P)).
Proof. by rewrite fmap_app, concat_all_app, cat_assoc; simpl; rewrite cat_eps_r. Qed.

(** A star that follows a star adds nothing. *)
Lemma concat_all_star ts t P :
  last ts = Some t → kind t = wildcardStar →
  same (cat (concat_all (tokenLanguage <$> ts)) (cat anything P))
       (cat (concat_all (tokenLanguage <$> ts)) P).
Proof.
  intros [ts' ->]%last_Some Hk. rewrite !concat_all_snoc. unfold tokenLanguage at 2 4. rewrite Hk.
  by rewrite cat_anything_idem.
Qed.

Lemma trailingEscapes_le p : (trailingEscapes p ≤ length p)%nat.
Proof. induction p as [|c p IH]; simpl; [lia|]. case_match; lia. Qed.

Lemma trailingEscapes_escape c p :
  Nat.odd (trailingEscapes (backslash :: c :: p)) = Nat.odd (trailingEscapes p).
Proof.
  pose proof (trailingEscapes_le p) as Hle. simpl.
  destruct (c =? backslash); simpl; [|by rewrite (proj2 (Nat.eqb_neq _ _)) by lia].
  destruct (Nat.eqb_spec (trailingEscapes p) (length p)) as [E|E].
  - by rewrite E, Nat.eqb_refl.
  - by rewrite (proj2 (Nat.eqb_neq _ _)) by lia.
Qed.

Lemma parseLoop_spec p acc :
  if Nat.odd (trailingEscapes p)
  then parseLoop p acc = Fail (Errorf "%w: trailing escape" [ErrMalformedWildcardPattern])
  else ∃ ts, parseLoop p acc = Ok ts ∧
       same (concat_all (tokenLanguage <$> ts)) (cat (concat_all (tokenLanguage <$> acc)) (denotes p)).
Proof.
  revert acc. induction p as [| |c p IH|c p Hne IH] using pattern_ind; intros acc.
  - simpl. exists acc. split; [done|]. by rewrite denotes_nil_iff, cat_eps_r.
  - done.
  - rewrite trailingEscapes_escape.
    specialize (IH (acc ++ [mkToken wildcardLiteral c])). simpl.
    destruct (Nat.odd _); [done|]. destruct IH as (ts & -> & Hts). exists ts. split; [done|].
    by rewrite Hts, concat_all_snoc, denotes_escape_iff.
  - assert (trailingEscapes (c :: p) = trailingEscapes p) as ->.
    { simpl. by rewrite (proj2 (Z.eqb_neq _ _) Hne). }
    simpl. rewrite (proj2 (Z.eqb_neq _ _) Hne).
    destruct (c =? question) eqn:Hq; bools; subst;
      [|destruct (c =? asterisk) eqn:Ha; bools; subst; [destruct (last acc) as [t|] eqn:Hl; [case_decide as Hk|]|]].
    all: match goal with |- context [parseLoop _ ?a] => specialize (IH a) end.
    all: destruct (Nat.odd _); [done|]; destruct IH as (ts & -> & Hts); exists ts; (split; [done|]).
    + by rewrite Hts, concat_all_snoc, denotes_any_iff.
    + by rewrite Hts, denotes_star_iff, (concat_all_star _ _ _ Hl Hk).
    + by rewrite Hts, concat_all_snoc, denotes_star_iff.
    + by rewrite Hts, concat_all_snoc, denotes_star_iff.
    + by rewrite Hts, concat_all_snoc, denotes_literal_iff.
Qed.

Lemma parse_spec p :
  if Nat.odd (trailingEscapes p)
  then parseWildcardPattern p = Fail (Errorf "%w: trailing escape" [ErrMalformedWildcardPattern])
  else ∃ ts, parseWildcardPattern p = Ok ts ∧
       ∀ v, matchWildcardTokens ts v = true ↔ denotes p v.
Proof.
  pose proof (parseLoop_spec p []) as H. unfold parseWildcardPattern.
  destruct (Nat.odd _); [done|]. destruct H as (ts & Hp & Hts). exists ts. split; [done|].
  intros v. rewrite matchWildcardTokens_spec, (Hts v). apply cat_eps_l.
Qed.

(** ** Splitting paths *)

(** A segment of a pattern: no separator, every backslash escapes a wildcard
    character or a backslash. *)
Inductive cleanSegment : text → Prop :=
| clean_nil : cleanSegment []
| clean_escape c p :
    (c = asterisk ∨ c = question ∨ c = backslash) → cleanSegment p →
    cleanSegment (backslash :: c :: p)
| clean_cons c p : c ≠ slash → c ≠ backslash → cleanSegment p → cleanSegment (c :: p).

Lemma clean_app a b : cleanSegment a → cleanSegment b → cleanSegment (a ++ b).
Proof. intros Ha Hb. induction Ha; simpl; [done|by constructor..]. Qed.

Lemma clean_even p : cleanSegment p → Nat.odd (trailingEscapes p) = false.
Proof.
  induction 1 as [|c p Hc Hp IH|c p H1 H2 Hp IH]; [done|by rewrite trailingEscapes_escape|].
  simpl. by rewrite (proj2 (Z.eqb_neq _ _) H2).
Qed.

Definition segmentOK (p : text) : Prop := p ≠ [] ∧ cleanSegment p.

Lemma cut_clean segs cur :
  Forall segmentOK segs → cleanSegment cur → Forall segmentOK (cut segs cur).
Proof.
  intros Hs Hc. unfold cut. destruct cur; [done|]. apply Forall_app_2; [done|].
  by apply Forall_singleton.
Qed.

Lemma splitLoop_clean p segs cur :
  Forall segmentOK segs → cleanSegment cur → Forall segmentOK (splitLoop p segs cur).
Proof.
  revert segs cur. induction p as [p IH] using (induction_ltof1 _ (@length Z)). unfold ltof in IH.
  intros segs cur Hs Hc. destruct p as [|r rest]; simpl; [by apply cut_clean|].
  destruct (r =? slash) eqn:E1; bools.
  { apply IH; [simpl; lia|by apply cut_clean|constructor]. }
  destruct (r =? backslash) eqn:E2; bools; subst.
  - destruct rest as [|r' rest']; [by apply (IH []); [simpl; lia|apply cut_clean|constructor]|].
    case_match eqn:E3.
    + apply IH; [simpl; lia|done|]. apply clean_app; [done|]. constructor; [|constructor].
      rewrite !orb_true_iff, !Z.eqb_eq in E3. tauto.
    + apply IH; [simpl; lia|by apply cut_clean|constructor].
  - apply IH; [simpl; lia|done|]. apply clean_app; [done|]. by repeat constructor.
Qed.

Lemma splitLoop_app s rest segs cur :
  cleanSegment s → splitLoop (s ++ rest) segs cur = splitLoop rest segs (cur ++ s).
Proof.
  intros Hs. revert cur. induction Hs as [|c p Hc Hp IH|c p H1 H2 Hp IH]; intros cur; simpl.
  - by rewrite app_nil_r.
  - assert (((c =? asterisk) || (c =? question) || (c =? backslash)) = true) as ->.
    { rewrite !orb_true_iff, !Z.eqb_eq. tauto. }
    rewrite IH, <-(assoc_L app). done.
  - rewrite (proj2 (Z.eqb_neq _ _) H1), (proj2 (Z.eqb_neq _ _) H2), IH, <-(assoc_L app). done.
Qed.

(** The text of an absolute path or path pattern: every segment after a
    slash. *)
Definition pathText (segments : list text) : text := concat (cons slash <$> segments).

Lemma cut_nonempty segs cur : cur ≠ [] → cut segs cur = segs ++ [cur].
Proof. by destruct cur. Qed.

Lemma splitLoop_pathText ps segs cur :
  Forall segmentOK ps → splitLoop (pathText ps) segs cur = cut segs cur ++ ps.
Proof.
  intros Hps. revert segs cur. induction Hps as [|p ps [Hne Hc] Hps IH]; intros segs cur.
  - simpl. by rewrite app_nil_r.
  - unfold pathText. simpl. rewrite splitLoop_app by done. simpl. rewrite IH.
    rewrite cut_nonempty by done. by rewrite <-(assoc_L app).
Qed.

Definition isSeparator (r : Z) : bool := (r =? slash) || (r =? backslash).

(** A segment of a path. *)
Definition plainSegment (s : text) : Prop := s ≠ [] ∧ Forall (λ r, isSeparator r = false) s.

Lemma fieldsLoop_app f s rest cur :
  Forall (λ r, f r = false) s → fieldsLoop f (s ++ rest) cur = fieldsLoop f rest (cur ++ s).
Proof.
  intros Hs. revert cur. induction Hs as [|c s Hc Hs IH]; intros cur; simpl.
  - by rewrite app_nil_r.
  - rewrite Hc, IH, <-(assoc_L app). done.
Qed.

Lemma fieldsLoop_pathText vs cur :
  Forall plainSegment vs →
  fieldsLoop isSeparator (pathText vs) cur = cut [] cur ++ vs.
Proof.
  intros Hvs. revert cur. induction Hvs as [|v vs [Hne Hv] Hvs IH]; intros cur.
  - by destruct cur.
  - unfold pathText. simpl. rewrite fieldsLoop_app by done. fold (pathText vs). simpl.
    rewrite IH, cut_nonempty by done. by destruct cur.
Qed.

Lemma splitWildcardPath_pathText vs :
  Forall plainSegment vs → splitWildcardPath (pathText vs) = vs.
Proof.
  intros Hvs. unfold splitWildcardPath, FieldsFunc. fold isSeparator.
  change (λ r, (r =? slash) || (r =? backslash)) with isSeparator.
  rewrite (fieldsLoop_pathText vs []) by done. simpl.
  induction Hvs as [|v vs [Hne _] _ IH]; [done|].
  rewrite filter_cons_True by done. f_equal. exact IH.
Qed.

(** ** Matching paths *)

Definition segmentLanguage (p : text) : list text → Prop :=
  if decide (p = doubleStar) then anything else single (denotes p).

Lemma pathDenotes_cons p ps :
  same (pathDenotes (p :: ps)) (cat (segmentLanguage p) (pathDenotes ps)).
Proof.
  intros vs. unfold cat, segmentLanguage. split.
  - inversion 1 as [|us ps' vs' Hm|p' v ps' vs' Hne Hd Hm]; subst.
    + rewrite decide_True by done. by exists us, vs'.
    + rewrite decide_False by done. exists [v], vs'. split; [done|]. split; [by exists v|done].
  - intros (u & w & -> & Hu & Hw). case_decide as Hd; [subst; by constructor|].
    destruct Hu as (v & -> & Hv). by constructor.
Qed.

Lemma represents_same {A} (P Q : list A → Prop) v dp : same P Q → represents P v dp → represents Q v dp.
Proof. intros HPQ [Hl H]. split; [done|]. intros i Hi. by rewrite <-(HPQ _), H. Qed.

Lemma nextSegmentRow_spec P path dp p :
  cleanSegment p → represents P path dp →
  ∃ row, nextSegmentRow path dp p = Ok row ∧ represents (cat P (segmentLanguage p)) path row.
Proof.
  intros Hc Hr. unfold nextSegmentRow, segmentLanguage. case_decide as Hd.
  { eexists. split; [done|]. by apply represents_star. }
  pose proof (parse_spec p) as Hp. rewrite clean_even in Hp by done.
  destruct Hp as (ts & -> & Hts). eexists. split; [done|].
  eapply represents_same; [|by apply (represents_single P path dp (matchWildcardTokens ts))].
  apply cat_proper; [done|]. intros v. unfold single. by setoid_rewrite Hts.
Qed.

Lemma segmentLoop_spec P path dp ps :
  Forall cleanSegment ps → represents P path dp →
  ∃ row, segmentLoop path dp ps = Ok row ∧ represents (cat P (pathDenotes ps)) path row.
Proof.
  intros Hps. revert P dp. induction Hps as [|p ps Hp Hps IH]; intros P dp Hr; simpl.
  - exists dp. split; [done|]. eapply represents_same; [|done].
    rewrite <-(cat_eps_r P) at 1. apply cat_proper; [done|]. intros v. unfold eps.
    split; [intros ->; constructor|by inversion 1].
  - destruct (nextSegmentRow_spec P path dp p Hp Hr) as (row & -> & Hrow).
    destruct (IH _ _ Hrow) as (row' & -> & Hrow'). exists row'. split; [done|].
    eapply represents_same; [|done]. by rewrite pathDenotes_cons, cat_assoc.
Qed.

Lemma matchSegments_spec ps vs :
  Forall cleanSegment ps →
  ∃ b, matchWildcardPathSegments ps vs = Ok b ∧ (b = true ↔ pathDenotes ps vs).
Proof.
  intros Hps. unfold matchWildcardPathSegments.
  destruct (segmentLoop_spec eps vs _ ps Hps (first_row vs)) as (row & -> & [_ Hrow]).
  eexists. split; [done|]. rewrite Hrow, firstn_all by done. apply cat_eps_l.
Qed.

Lemma split_clean p : Forall cleanSegment (splitWildcardPatternPath p).
Proof.
  eapply Forall_impl; [apply splitLoop_clean; constructor|]. by intros s [].
Qed.

(** ** The theorems *)

(** C33. Equivalence with the language of the pattern: [MatchWildcard] rejects a
    pattern exactly when it ends inside an escape (an odd run of trailing
    backslashes), and otherwise the token parser followed by the dynamic
    program answers true exactly for the values the pattern denotes. *)
Theorem MatchWildcard_decides pattern value :
  if Nat.odd (trailingEscapes pattern)
  then MatchWildcard pattern value =
         Fail (Errorf "%w: trailing escape" [ErrMalformedWildcardPattern])
  else ∃ b, MatchWildcard pattern value = Ok b ∧ (b = true ↔ denotes pattern value).
Proof.
  pose proof (parse_spec pattern) as H. unfold MatchWildcard.
  destruct (Nat.odd _); [by rewrite H|]. destruct H as (ts & -> & Hts). eauto.
Qed.

(** [MatchWildcardPath] never fails, whatever the pattern: splitting
    leaves no unfinished escape in a segment.  On a pattern and a path given by
    their segments it answers true exactly when the pattern segments denote the
    path, where [**] stands for any number of segments. *)
Theorem MatchWildcardPath_decides :
  (∀ pattern path, is_Ok (MatchWildcardPath pattern path)) ∧
  (∀ ps vs, Forall segmentOK ps → Forall plainSegment vs →
     ∃ b, MatchWildcardPath (pathText ps) (pathText vs) = Ok b ∧ (b = true ↔ pathDenotes ps vs)).
Proof.
  unfold MatchWildcardPath. split.
  - intros p v. destruct (matchSegments_spec _ (splitWildcardPath v) (split_clean p)) as (b & -> & _).
    by exists b.
  - intros ps vs Hps Hvs. rewrite splitWildcardPath_pathText by done.
    unfold splitWildcardPatternPath. rewrite splitLoop_pathText by done.
    apply matchSegments_spec. eapply Forall_impl; [exact Hps|]. by intros s [].
Qed.

Lemma firstLoop_spec matcher value i ps k :
  firstLoop matcher value i ps = (k, None) →
  (k = -1 ∧ Forall (λ p, matcher p value = Ok false) ps) ∨
  (∃ n p, k = i + Z.of_nat n ∧ ps !! n = Some p ∧ matcher p value = Ok true ∧
          Forall (λ p, matcher p value = Ok false) (take n ps)).
Proof.
  revert i. induction ps as [|p ps IH]; intros i; simpl; [naive_solver|].
  destruct (matcher p value) as [[]|e] eqn:E; [| |done].
  - intros [= <-]. right. exists 0%nat, p. simpl. split; [lia|]. by repeat split.
  - intros [[-> Hf]|(n & p' & -> & Hn & Hp & Hf)]%IH; [left; by auto|].
    right. exists (S n), p'. simpl. split; [lia|]. auto.
Qed.

(** [FirstWildcardPathMatch] answers the least index whose pattern matches, and
    -1 when none does; it never fails. *)
Lemma FirstWildcardPathMatch_spec path ps :
  ∃ k, FirstWildcardPathMatch path ps = (k, None) ∧
  ((k = -1 ∧ Forall (λ p, MatchWildcardPath p path = Ok false) ps) ∨
   (∃ n p, k = Z.of_nat n ∧ ps !! n = Some p ∧ MatchWildcardPath p path = Ok true ∧
           Forall (λ p, MatchWildcardPath p path = Ok false) (take n ps))).
Proof.
  destruct (FirstWildcardPathMatch path ps) as [k [e|]] eqn:E.
  - exfalso. revert E. unfold FirstWildcardPathMatch. generalize 0.
    induction ps as [|p ps IH]; intros i; simpl; [done|]. unfold MatchWildcardPath.
    destruct (matchSegments_spec _ (splitWildcardPath path) (split_clean p)) as ([] & -> & _); [done|].
    apply IH.
  - exists k. split; [done|]. apply firstLoop_spec in E. by setoid_rewrite Z.add_0_l in E.
Qed.

Lemma MatchWildcardPath_decides_witness :
  ∃ b, MatchWildcardPath (pathText [doubleStar; lit "*.go"]) (pathText [lit "core"; lit "a.go"]) = Ok b ∧
       (b = true ↔ pathDenotes [doubleStar; lit "*.go"] [lit "core"; lit "a.go"]).
Proof.
  apply (proj2 MatchWildcardPath_decides).
  - repeat constructor; try done; by apply clean_cons; [done..|repeat constructor].
  - repeat constructor; done.
Defined.
