(* ===== verification/Core.v ===== *)
(** * core: ranges, validation, strings, numbers, zero values

    Models [src/core] range.go, number.go, validate.go, zero.go, ptr.go,
    string.go and errors.go.  The constraint [cmp.Ordered] is the class
    [Ordered]: Go's comparisons as booleans, a total order on the values that
    are not NaN, every comparison with a NaN false.  [TruncateUTF8Bytes] works
    on the bytes of a string, with [utf8.ValidString] as the Go library
    decides it. *)

From S2P Require Import Prelude GoError GoText.
From Stdlib Require Import QArith Qcanon.

Local Open Scope Z_scope.

Definition ErrInvalidArgument : error := Sentinel "core.ErrInvalidArgument".
Definition ErrInvalidUTF8 : error := Sentinel "core.ErrInvalidUTF8".

(** ** Ordered types *)

Class Ordered (T : Type) := {
  go_lt : T → T → bool;
  go_eq : T → T → bool;
  isOrderedNaN : T → bool
}.

Definition go_gt `{Ordered T} (a b : T) : bool := go_lt b a.

(** The laws of the comparisons of integers, strings and floats. *)
Class OrderedLaws (T : Type) `{Ordered T} := {
  nan_lt : ∀ a b : T, isOrderedNaN a = true ∨ isOrderedNaN b = true → go_lt a b = false;
  nan_eq : ∀ a b : T, isOrderedNaN a = true ∨ isOrderedNaN b = true → go_eq a b = false;
  go_eq_iff : ∀ a b : T, isOrderedNaN a = false → isOrderedNaN b = false → go_eq a b = true ↔ a = b;
  go_lt_irrefl : ∀ a : T, go_lt a a = false;
  go_lt_trans : ∀ a b c : T, go_lt a b = true → go_lt b c = true → go_lt a c = true;
  go_trichotomy : ∀ a b : T, isOrderedNaN a = false → isOrderedNaN b = false →
    go_lt a b = true ∨ a = b ∨ go_lt b a = true
}.

(** Between two values there is a third: the rationals, not the integers. *)
Class Dense (T : Type) `{Ordered T} : Prop :=
  dense : ∀ a b : T, go_lt a b = true →
    ∃ c, isOrderedNaN c = false ∧ go_lt a c = true ∧ go_lt c b = true.

#[export] Instance Z_ordered : Ordered Z :=
  { go_lt := Z.ltb; go_eq := Z.eqb; isOrderedNaN := λ _, false }.

#[export] Instance text_ordered : Ordered text :=
  { go_lt := text_lt; go_eq := λ a b, bool_decide (a = b); isOrderedNaN := λ _, false }.

#[export] Instance Qc_ordered : Ordered Qc :=
  { go_lt := λ a b, bool_decide (a < b)%Qc; go_eq := λ a b, bool_decide (a = b);
    isOrderedNaN := λ _, false }.

(** An ordered type with a NaN added, as the floats have it. *)
#[export] Instance nan_ordered `{Ordered T} : Ordered (option T) :=
  { go_lt := λ a b, match a, b with Some x, Some y => go_lt x y | _, _ => false end;
    go_eq := λ a b, match a, b with Some x, Some y => go_eq x y | _, _ => false end;
    isOrderedNaN := λ a, match a with Some x => isOrderedNaN x | None => true end }.

(** ** Ranges *)

Section ranges.
Context {T : Type} `{Ordered T}.

Record Range : Type := mkRange {
  lower : T;
  upper : T;
  lowerInclusive : bool;
  upperInclusive : bool
}.

Definition newRange (lower upper : T) (lowerInclusive upperInclusive : bool) : result Range :=
  if isOrderedNaN lower || isOrderedNaN upper then
    Fail (Errorf "%w: range bounds must not be NaN" [ErrInvalidArgument])
  else if go_gt lower upper then
    Fail (Errorf "%w: invalid range: lower %v must be <= upper %v" [ErrInvalidArgument])
  else if go_eq lower upper && (negb lowerInclusive || negb upperInclusive) then
    Fail (Errorf "%w: invalid empty range: equal bounds require closed endpoints" [ErrInvalidArgument])
  else Ok (mkRange lower upper lowerInclusive upperInclusive).

Definition ClosedRange (lower upper : T) : result Range := newRange lower upper true true.
Definition ClosedOpenRange (lower upper : T) : result Range := newRange lower upper true false.
Definition OpenClosedRange (lower upper : T) : result Range := newRange lower upper false true.
Definition OpenOpenRange (lower upper : T) : result Range := newRange lower upper false false.

Definition Empty (r : Range) : bool :=
  if go_gt (lower r) (upper r) then true
  else if go_eq (lower r) (upper r) then negb (lowerInclusive r) || negb (upperInclusive r)
  else false.

Definition Contains (r : Range) (value : T) : bool :=
  if Empty r then false
  else if isOrderedNaN value then false
  else if go_lt value (lower r) || go_gt value (upper r) then false
  else if go_eq value (lower r) && negb (lowerInclusive r) then false
  else if go_eq value (upper r) && negb (upperInclusive r) then false
  else true.

Definition ContainsRange (r other : Range) : bool :=
  if Empty r || Empty other then false
  else if go_lt (lower other) (lower r) || go_gt (upper other) (upper r) then false
  else if go_eq (lower other) (lower r) && lowerInclusive other && negb (lowerInclusive r) then false
  else if go_eq (upper other) (upper r) && upperInclusive other && negb (upperInclusive r) then false
  else true.

Definition Overlaps (r other : Range) : bool :=
  if Empty r || Empty other then false
  else if go_lt (upper r) (lower other) then false
  else if go_eq (upper r) (lower other) then upperInclusive r && lowerInclusive other
  else if go_lt (upper other) (lower r) then false
  else if go_eq (upper other) (lower r) then upperInclusive other && lowerInclusive r
  else true.

(** ** Numbers and validation *)

Definition Clamp (value lower upper : T) : result T :=
  if go_gt lower upper then
    Fail (Errorf "%w: invalid range: lower %v must be <= upper %v" [ErrInvalidArgument])
  else if go_lt value lower then Ok lower
  else if go_gt value upper then Ok upper
  else Ok value.

(** Go's [a >= b], which is false when one of them is NaN. *)
Definition go_ge (a b : T) : bool := go_gt a b || go_eq a b.

Definition RequireInRange (value lower upper : T) : option error :=
  if go_gt lower upper then
    Some (Errorf "%w: %s range is invalid: lower %v must be <= upper %v" [ErrInvalidArgument])
  else if go_lt value lower || go_gt value upper then
    Some (Errorf "%w: %s[%v] must be in range [%v, %v]" [ErrInvalidArgument])
  else None.

Definition RequireInOpenRange (value lower upper : T) : option error :=
  if go_ge lower upper then
    Some (Errorf "%w: %s range is invalid: lower %v must be < upper %v" [ErrInvalidArgument])
  else if go_lt value lower || go_ge value upper then
    Some (Errorf "%w: %s[%v] must be in range [%v, %v)" [ErrInvalidArgument])
  else None.

Definition RequirePositive (zero value : T) : option error :=
  if go_ge zero value then Some (Errorf "%w: %s[%v] must be positive" [ErrInvalidArgument]) else None.

Definition RequireNonNegative (zero value : T) : option error :=
  if go_lt value zero then Some (Errorf "%w: %s[%v] must be non-negative" [ErrInvalidArgument])
  else None.
End ranges.
Arguments Range : clear implicits.

Definition RequireNotBlank (value : text) : option error :=
  if decide (TrimSpace value = []) then Some (Errorf "%w: %s must not be blank" [ErrInvalidArgument])
  else None.

Definition RequireNotEmpty (value : text) : option error :=
  if decide (value = []) then Some (Errorf "%w: %s must not be empty" [ErrInvalidArgument]) else None.

Definition IsHexDigit (r : Z) : bool :=
  ((48 <=? r) && (r <=? 57)) || ((97 <=? r) && (r <=? 102)) || ((65 <=? r) && (r <=? 70)).

Definition TrimPrefix (s prefix : text) : text :=
  if decide (prefix `prefix_of` s) then drop (length prefix) s else s.

Definition IsHexFormat (value : text) : bool :=
  let s := TrimPrefix (TrimSpace value) (lit "-") in
  if decide (s = []) then false
  else
    let digits :=
      if decide (lit "0x" `prefix_of` s) then Some (drop 2 s)
      else if decide (lit "0X" `prefix_of` s) then Some (drop 2 s)
      else if decide (lit "#" `prefix_of` s) then Some (drop 1 s)
      else None in
    match digits with
    | None => false
    | Some [] => false
    | Some ds => forallb IsHexDigit ds
    end.

(** ** Zero values and pointers

    [zero] is the zero value of the type. *)

Section zero.
Context {T : Type} `{EqDecision T} (zero : T).

Definition IsZero (value : T) : bool := bool_decide (value = zero).

Definition DefaultIfZero (value fallback : T) : T := if IsZero value then fallback else value.

Definition IfZeroOrDefault (value fallback : T) : T := if IsZero value then fallback else value.

Fixpoint FirstNonZero (values : list T) : T :=
  match values with
  | [] => zero
  | value :: rest => if negb (IsZero value) then value else FirstNonZero rest
  end.

Definition ValueOr (ptr : option T) (fallback : T) : T :=
  match ptr with None => fallback | Some v => v end.

Definition ValueOrZero (ptr : option T) : T := ValueOr ptr zero.
End zero.

(** ** Strings *)

Definition HasLength (value : text) : bool := negb (bool_decide (value = [])).
Definition NoLength (value : text) : bool := bool_decide (value = []).
Definition HasText (value : text) : bool := negb (bool_decide (TrimSpace value = [])).
Definition NoText (value : text) : bool := negb (HasText value).
Definition EmptyToDefault (value fallback : text) : text :=
  if decide (value = []) then fallback else value.
Definition BlankToDefault (value fallback : text) : text :=
  if negb (HasText value) then fallback else value.
Definition EmptyToNil (value : text) : option text := if NoLength value then None else Some value.
Definition BlankToNil (value : text) : option text := if NoText value then None else Some value.

Definition Mask (value : text) (mask : Z) : text :=
  if decide (value = []) then [] else foldl (λ builder _, builder ++ [mask]) [] value.

(** The loop of [CommonPrefix] from index [i]; [fuel] is [limit - i]. *)
Fixpoint prefixLoop (ar br : text) (i fuel : nat) : text :=
  match fuel with
  | O => take i ar
  | S fuel' => if negb ((ar !!! i) =? (br !!! i)) then take i ar else prefixLoop ar br (S i) fuel'
  end.

Definition CommonPrefix (a b : text) : text :=
  if decide (a = []) then [] else if decide (b = []) then []
  else if decide (a = b) then a
  else prefixLoop a b 0 (length a `min` length b).

Fixpoint suffixLoop (ar br : text) (i fuel : nat) : text :=
  match fuel with
  | O => drop (length ar - i) ar
  | S fuel' =>
      if negb ((ar !!! (length ar - i - 1)%nat) =? (br !!! (length br - i - 1)%nat))
      then drop (length ar - i) ar else suffixLoop ar br (S i) fuel'
  end.

Definition CommonSuffix (a b : text) : text :=
  if decide (a = []) then [] else if decide (b = []) then []
  else if decide (a = b) then a
  else suffixLoop a b 0 (length a `min` length b).

(** ** UTF-8

    Bytes as [Z].  [decodeRune] reads the first rune of a string the way
    package [unicode/utf8] does: its length, when the bytes are valid. *)

Definition RuneStart (b : Z) : bool := negb (Z.land b 192 =? 128).

Definition continuation (b : Z) : bool := (128 <=? b) && (b <=? 191).

(** The range of the second byte for a first byte, and the rune's length:
    the tables [first] and [acceptRanges]. *)
Definition firstByte (b : Z) : option (nat * Z * Z) :=
  if (0 <=? b) && (b <=? 127) then Some (1%nat, 0, 0)
  else if (194 <=? b) && (b <=? 223) then Some (2%nat, 128, 191)
  else if b =? 224 then Some (3%nat, 160, 191)
  else if ((225 <=? b) && (b <=? 236)) || ((238 <=? b) && (b <=? 239)) then Some (3%nat, 128, 191)
  else if b =? 237 then Some (3%nat, 128, 159)
  else if b =? 240 then Some (4%nat, 144, 191)
  else if (241 <=? b) && (b <=? 243) then Some (4%nat, 128, 191)
  else if b =? 244 then Some (4%nat, 128, 143)
  else None.

Definition runeLength (s : list Z) : option nat :=
  match s with
  | [] => None
  | b0 :: rest =>
      match firstByte b0 with
      | None => None
      | Some (1%nat, _, _) => Some 1%nat
      | Some (n, lo, hi) =>
          if (length s <? n)%nat then None
          else match rest with
               | b1 :: rest' =>
                   if (lo <=? b1) && (b1 <=? hi) && forallb continuation (take (n - 2) rest')
                   then Some n else None
               | [] => None
               end
      end
  end.

Fixpoint validLoop (fuel : nat) (s : list Z) : bool :=
  match s, fuel with
  | [], _ => true
  | _, O => false
  | _, S fuel' => match runeLength s with None => false | Some n => validLoop fuel' (drop n s) end
  end.

(** [utf8.ValidString]; every rune takes at least one byte. *)
Definition ValidString (s : list Z) : bool := validLoop (length s) s.

(** [for maxBytes > 0 && !utf8.RuneStart(value[maxBytes]) { maxBytes-- }] *)
Fixpoint backUp (value : list Z) (maxBytes : nat) : nat :=
  match maxBytes with
  | O => O
  | S n => if negb (RuneStart (value !!! maxBytes)) then backUp value n else maxBytes
  end.

Definition TruncateUTF8Bytes (value : list Z) (maxBytes : Z) : result (list Z) :=
  if maxBytes <? 0 then Fail (Errorf "%w: maxBytes[%d] must be non-negative" [ErrInvalidArgument])
  else if negb (ValidString value) then Fail (Errorf "truncate UTF-8 bytes: %w" [ErrInvalidUTF8])
  else if Z.of_nat (length value) <=? maxBytes then Ok value
  else Ok (take (backUp value (Z.to_nat maxBytes)) value).

(** ** Laws of the instances *)

#[export] Instance Z_ordered_laws : OrderedLaws Z.
Proof.
  split; simpl; [by intros ?? [|]..| | | |].
  - intros. apply Z.eqb_eq.
  - apply Z.ltb_irrefl.
  - intros a b c. rewrite !Z.ltb_lt. lia.
  - intros a b _ _. rewrite !Z.ltb_lt. lia.
Qed.

#[export] Instance text_ordered_laws : OrderedLaws text.
Proof.
  split; simpl; [by intros ?? [|]..| | | |].
  - intros. by rewrite bool_decide_eq_true.
  - apply text_lt_irrefl.
  - apply text_lt_trans.
  - intros a b _ _. apply text_lt_trichotomy.
Qed.

#[export] Instance Qc_ordered_laws : OrderedLaws Qc.
Proof.
  split; simpl; [by intros ?? [|]..| | | |].
  - intros. by rewrite bool_decide_eq_true.
  - intros a. apply bool_decide_eq_false. intros Hlt. by apply (Qclt_not_eq a a).
  - intros a b c. rewrite !bool_decide_eq_true. apply Qclt_trans.
  - intros a b _ _. rewrite !bool_decide_eq_true. destruct (Qc_dec a b) as [[|]|]; auto.
Qed.

#[export] Instance Qc_dense : Dense Qc.
Proof.
  intros a b Hab. simpl in *. apply bool_decide_eq_true in Hab.
  assert (1 + 1 ≠ 0)%Qc as H2 by done.
  assert (∀ x : Qc, x = (x + x) / (1 + 1))%Qc as Hx by (intros; field; done).
  assert (∀ x y : Qc, (x < y)%Qc → (x / (1 + 1) < y / (1 + 1))%Qc) as Hdiv.
  { intros x y Hxy. unfold Qcdiv. apply Qcmult_lt_compat_r; done. }
  exists ((a + b) / (1 + 1))%Qc. split; [done|]. rewrite !bool_decide_eq_true. split.
  - rewrite (Hx a) at 1. apply Hdiv. apply Qclt_minus_iff. ring_simplify (a + b + - (a + a))%Qc.
    apply Qclt_minus_iff in Hab. by rewrite Qcplus_comm.
  - rewrite (Hx b) at 2. apply Hdiv. apply Qclt_minus_iff. ring_simplify (b + b + - (a + b))%Qc.
    by apply Qclt_minus_iff in Hab.
Qed.

#[export] Instance nan_ordered_laws `{OrderedLaws T} : OrderedLaws (option T).
Proof.
  split.
  - intros [a|] [b|]; simpl; try done. apply nan_lt.
  - intros [a|] [b|]; simpl; try done. apply nan_eq.
  - intros [a|] [b|]; simpl; try done. intros Ha Hb. rewrite go_eq_iff by done. naive_solver.
  - intros [a|]; simpl; [apply go_lt_irrefl|done].
  - intros [a|] [b|] [c|]; simpl; try done. apply go_lt_trans.
  - intros [a|] [b|]; simpl; try done. intros Ha Hb. destruct (go_trichotomy a b Ha Hb); naive_solver.
Qed.

(** ** Ranges as sets *)

(** Close a goal by transitivity and irreflexivity of the order. *)
Ltac order :=
  repeat match goal with
  | H1 : go_lt ?a ?b = true, H2 : go_lt ?b ?c = true |- _ =>
      lazymatch goal with
      | _ : go_lt a c = true |- _ => fail
      | _ => pose proof (go_lt_trans a b c H1 H2)
      end
  end;
  match goal with
  | H : go_lt ?a ?a = true |- _ => by rewrite go_lt_irrefl in H
  end.

Section range_laws.
Context {T : Type} `{OrderedLaws T}.
Implicit Types (r o : Range T) (a b v : T).

(** A range the constructors return. *)
Definition wfRange r : Prop :=
  isOrderedNaN (lower r) = false ∧ isOrderedNaN (upper r) = false ∧
  (go_lt (lower r) (upper r) = true ∨
   lower r = upper r ∧ lowerInclusive r = true ∧ upperInclusive r = true).

(** The set of a range. *)
Definition inRange r v : Prop :=
  isOrderedNaN v = false ∧
  (go_lt (lower r) v = true ∨ v = lower r ∧ lowerInclusive r = true) ∧
  (go_lt v (upper r) = true ∨ v = upper r ∧ upperInclusive r = true).

Lemma go_eq_refl a : isOrderedNaN a = false → go_eq a a = true.
Proof. intros Ha. by apply go_eq_iff. Qed.

Lemma lt_not_gt a b : go_lt a b = true → go_lt b a = false.
Proof. intros Hab. apply not_true_is_false. intros Hba. order. Qed.

Lemma lt_not_eq a b : go_lt a b = true → go_eq a b = false.
Proof.
  intros Hab. apply not_true_is_false. intros Heq.
  destruct (isOrderedNaN a) eqn:Ha; [by rewrite nan_eq in Heq by auto|].
  destruct (isOrderedNaN b) eqn:Hb; [by rewrite nan_eq in Heq by auto|].
  apply go_eq_iff in Heq; [|done..]. subst. order.
Qed.

Lemma gt_not_eq a b : go_lt b a = true → go_eq a b = false.
Proof.
  intros Hba. apply not_true_is_false. intros Heq.
  destruct (isOrderedNaN a) eqn:Ha; [by rewrite nan_eq in Heq by auto|].
  destruct (isOrderedNaN b) eqn:Hb; [by rewrite nan_eq in Heq by auto|].
  apply go_eq_iff in Heq; [|done..]. subst. order.
Qed.

(** Decide a comparison by trichotomy. *)
Lemma compare_cases a b :
  isOrderedNaN a = false → isOrderedNaN b = false →
  (go_lt a b = true ∧ go_lt b a = false ∧ go_eq a b = false) ∨
  (a = b ∧ go_lt a b = false ∧ go_lt b a = false ∧ go_eq a b = true) ∨
  (go_lt b a = true ∧ go_lt a b = false ∧ go_eq a b = false).
Proof.
  intros Ha Hb. destruct (go_trichotomy a b Ha Hb) as [H1|[->|H1]].
  - left. auto using lt_not_gt, lt_not_eq.
  - right; left. auto using go_lt_irrefl, go_eq_refl.
  - right; right. auto using lt_not_gt, gt_not_eq.
Qed.

Lemma newRange_wf a b li ui r : newRange a b li ui = Ok r → wfRange r ∧ r = mkRange a b li ui.
Proof.
  unfold newRange, go_gt, wfRange. destruct (isOrderedNaN a) eqn:Ha; [done|].
  destruct (isOrderedNaN b) eqn:Hb; [done|]. simpl.
  destruct (compare_cases a b Ha Hb) as [(H1 & H2 & H3)|[(-> & H1 & H2 & H3)|(H1 & H2 & H3)]];
    rewrite ?H1, ?H2, ?H3; try done; destruct li, ui; simpl; try done; intros [= <-]; simpl; tauto.
Qed.

Lemma wfRange_nonempty r : wfRange r → Empty r = false.
Proof.
  intros (Hl & Hu & Hw). unfold Empty, go_gt.
  destruct Hw as [Hw|(-> & -> & ->)].
  - by rewrite (lt_not_gt _ _ Hw), (lt_not_eq _ _ Hw).
  - by rewrite go_lt_irrefl, go_eq_refl.
Qed.

Lemma Contains_inRange r v : wfRange r → Contains r v = true ↔ inRange r v.
Proof.
  intros Hw. unfold Contains, inRange, go_gt. rewrite wfRange_nonempty by done.
  destruct Hw as (Hl & Hu & _). destruct (isOrderedNaN v) eqn:Hv; [naive_solver|].
  destruct (compare_cases v (lower r) Hv Hl) as [(H1 & H2 & H3)|[(E1 & H1 & H2 & H3)|(H1 & H2 & H3)]];
  destruct (compare_cases v (upper r) Hv Hu) as [(H4 & H5 & H6)|[(E2 & H4 & H5 & H6)|(H4 & H5 & H6)]];
    rewrite ?H1, ?H2, ?H3, ?H4, ?H5, ?H6; simpl.
  all: try (assert (v ≠ lower r) by (intros <-; rewrite go_lt_irrefl in *; congruence)).
  all: try (assert (v ≠ upper r) by (intros <-; rewrite go_lt_irrefl in *; congruence)).
  all: destruct (lowerInclusive r), (upperInclusive r); simpl; intuition congruence.
Qed.

Lemma inRange_lower r : wfRange r → lowerInclusive r = true → inRange r (lower r).
Proof. intros (Hl & Hu & [Hlt|(E & ? & ?)]) Hi; unfold inRange; rewrite <-?E; auto. Qed.

Lemma inRange_upper r : wfRange r → upperInclusive r = true → inRange r (upper r).
Proof. intros (Hl & Hu & [Hlt|(E & ? & ?)]) Hi; unfold inRange; rewrite ?E; auto. Qed.

Lemma inRange_strict r v :
  isOrderedNaN v = false → go_lt (lower r) v = true → go_lt v (upper r) = true → inRange r v.
Proof. unfold inRange. auto. Qed.

(** The comparisons [ContainsRange] and [Overlaps] make, as propositions. *)
Lemma ContainsRange_iff r o :
  wfRange r → wfRange o →
  ContainsRange r o = true ↔
  (go_lt (lower r) (lower o) = true ∨
   lower o = lower r ∧ (lowerInclusive o = true → lowerInclusive r = true)) ∧
  (go_lt (upper o) (upper r) = true ∨
   upper o = upper r ∧ (upperInclusive o = true → upperInclusive r = true)).
Proof.
  intros Hr Ho. unfold ContainsRange, go_gt. rewrite !wfRange_nonempty by done. simpl.
  destruct Hr as (Hl & Hu & _), Ho as (Hl' & Hu' & _).
  destruct (compare_cases _ _ Hl' Hl) as [(H1 & H2 & H3)|[(E1 & H1 & H2 & H3)|(H1 & H2 & H3)]];
  destruct (compare_cases _ _ Hu' Hu) as [(H4 & H5 & H6)|[(E2 & H4 & H5 & H6)|(H4 & H5 & H6)]];
    rewrite ?H1, ?H2, ?H3, ?H4, ?H5, ?H6; simpl.
  all: try (assert (lower o ≠ lower r) by (intros E; rewrite E, go_lt_irrefl in *; congruence)).
  all: try (assert (upper o ≠ upper r) by (intros E; rewrite E, go_lt_irrefl in *; congruence)).
  all: destruct (lowerInclusive r), (lowerInclusive o), (upperInclusive r), (upperInclusive o); simpl;
    intuition congruence.
Qed.

Lemma Overlaps_iff r o :
  wfRange r → wfRange o →
  Overlaps r o = true ↔
  (go_lt (lower o) (upper r) = true ∨
   upper r = lower o ∧ upperInclusive r = true ∧ lowerInclusive o = true) ∧
  (go_lt (lower r) (upper o) = true ∨
   upper o = lower r ∧ upperInclusive o = true ∧ lowerInclusive r = true).
Proof.
  intros Hr Ho. unfold Overlaps. rewrite !wfRange_nonempty by done. simpl.
  destruct Hr as (Hl & Hu & Hw), Ho as (Hl' & Hu' & Hw').
  destruct (compare_cases _ _ Hu Hl') as [(H1 & H2 & H3)|[(E1 & H1 & H2 & H3)|(H1 & H2 & H3)]];
    rewrite ?H1, ?H2, ?H3.
  - split; [done|]. intros [[?|[E _]] _]; [congruence|]. rewrite E, go_lt_irrefl in H1. done.
  - assert (go_lt (lower r) (upper o) = true ∨
      upper o = lower r ∧ upperInclusive o = true ∧ lowerInclusive r = true) as HX.
    { destruct Hw as [Hw|(Ew & ? & ?)], Hw' as [Hw'|(Ew' & ? & ?)].
      - left. rewrite E1 in Hw. by eapply go_lt_trans.
      - left. by rewrite <-Ew', <-E1.
      - left. by rewrite Ew, E1.
      - right. split; [congruence|done]. }
    rewrite andb_true_iff. naive_solver.
  - destruct (compare_cases _ _ Hu' Hl) as [(H4 & H5 & H6)|[(E2 & H4 & H5 & H6)|(H4 & H5 & H6)]];
      rewrite ?H4, ?H5, ?H6, ?andb_true_iff.
    + split; [done|]. intros [_ [?|[E _]]]; [congruence|]. rewrite E, go_lt_irrefl in H4. done.
    + naive_solver.
    + naive_solver.
Qed.

Lemma ContainsRange_subset r o v :
  wfRange r → wfRange o → ContainsRange r o = true → inRange o v → inRange r v.
Proof.
  intros Hr Ho HC (Hv & Hlo & Hup). apply ContainsRange_iff in HC as [Hl Hu]; [|done..].
  split; [done|]. split.
  - destruct Hl as [Hl|[El Hi]].
    + left. destruct Hlo as [Hlo|[-> _]]; [by eapply go_lt_trans|done].
    + rewrite El in Hlo. naive_solver.
  - destruct Hu as [Hu|[Eu Hi]].
    + left. destruct Hup as [Hup|[-> _]]; [by eapply go_lt_trans|done].
    + rewrite Eu in Hup. naive_solver.
Qed.

Lemma common_overlaps r o v :
  wfRange r → wfRange o → inRange r v → inRange o v → Overlaps r o = true.
Proof.
  intros Hr Ho (_ & Hl & Hu) (_ & Hl' & Hu'). apply Overlaps_iff; [done..|].
  split.
  - destruct Hl' as [?|[-> ?]], Hu as [?|[? ?]]; subst; eauto using go_lt_trans.
  - destruct Hl as [?|[-> ?]], Hu' as [?|[? ?]]; subst; eauto using go_lt_trans.
Qed.

Section dense.
Context `{!Dense T}.

Lemma range_near_lower r x :
  wfRange r → isOrderedNaN x = false → go_lt (lower r) x = true →
  ∃ v, inRange r v ∧ go_lt v x = true.
Proof.
  intros Hr Hx Hlx. pose proof Hr as (Hl & Hu & [Hlt|(E & Hi & Hj)]).
  - destruct (go_trichotomy (upper r) x Hu Hx) as [Hux|[<-|Hux]].
    + destruct (dense _ _ Hlt) as (c & ? & ? & ?). exists c. eauto using inRange_strict, go_lt_trans.
    + destruct (dense _ _ Hlt) as (c & ? & ? & ?). exists c. eauto using inRange_strict, go_lt_trans.
    + destruct (dense _ _ Hlx) as (c & ? & ? & ?). exists c. eauto using inRange_strict, go_lt_trans.
  - exists (lower r). split; [by apply inRange_lower|done].
Qed.

Lemma range_near_upper r x :
  wfRange r → isOrderedNaN x = false → go_lt x (upper r) = true →
  ∃ v, inRange r v ∧ go_lt x v = true.
Proof.
  intros Hr Hx Hxu. pose proof Hr as (Hl & Hu & [Hlt|(E & Hi & Hj)]).
  - destruct (go_trichotomy (lower r) x Hl Hx) as [Hux|[<-|Hux]].
    + destruct (dense _ _ Hxu) as (c & ? & ? & ?). exists c. eauto using inRange_strict, go_lt_trans.
    + destruct (dense _ _ Hlt) as (c & ? & ? & ?). exists c. eauto using inRange_strict, go_lt_trans.
    + destruct (dense _ _ Hlt) as (c & ? & ? & ?). exists c. eauto using inRange_strict, go_lt_trans.
  - exists (upper r). split; [by apply inRange_upper|done].
Qed.

Lemma subset_ContainsRange r o :
  wfRange r → wfRange o → (∀ v, inRange o v → inRange r v) → ContainsRange r o = true.
Proof.
  intros Hr Ho Hsub. apply ContainsRange_iff; [done..|].
  pose proof Hr as (Hl & Hu & _). pose proof Ho as (Hl' & Hu' & _). split.
  - destruct (go_trichotomy _ _ Hl' Hl) as [Hlt|[E|Hlt]]; [|right|by left].
    + destruct (range_near_lower o _ Ho Hl Hlt) as (v & (_ & [?|[-> _]] & _)%Hsub & ?); order.
    + split; [done|]. intros Hi. destruct (Hsub _ (inRange_lower o Ho Hi)) as (_ & [Hc|[]] & _);
        [rewrite E in Hc; order|done].
  - destruct (go_trichotomy _ _ Hu' Hu) as [Hlt|[E|Hlt]]; [by left|right|].
    + split; [done|]. intros Hi. destruct (Hsub _ (inRange_upper o Ho Hi)) as (_ & _ & [Hc|[]]);
        [rewrite E in Hc; order|done].
    + destruct (range_near_upper o _ Ho Hu Hlt) as (v & (_ & _ & [?|[-> _]])%Hsub & ?); order.
Qed.

Lemma overlaps_common r o :
  wfRange r → wfRange o → Overlaps r o = true → ∃ v, inRange r v ∧ inRange o v.
Proof.
  intros Hr Ho [H1 H2]%Overlaps_iff; [|done..].
  destruct H1 as [H1|(E & Hi & Hj)]; [|exists (upper r); split; [by apply inRange_upper|]].
  2:{ rewrite E. by apply inRange_lower. }
  destruct H2 as [H2|(E & Hi & Hj)]; [|exists (lower r); split; [by apply inRange_lower|]].
  2:{ rewrite <-E. by apply inRange_upper. }
  pose proof Hr as (Hl & Hu & Hw). pose proof Ho as (Hl' & Hu' & Hw').
  destruct Hw as [Hw|(E & Hi & Hj)].
  2:{ exists (lower r). split; [by apply inRange_lower|]. rewrite <-E in H1. unfold inRange. auto. }
  destruct Hw' as [Hw'|(E & Hi & Hj)].
  2:{ exists (lower o). split; [|by apply inRange_lower]. rewrite <-E in H2. unfold inRange. auto. }
  set (lo := if go_lt (lower r) (lower o) then lower o else lower r).
  set (hi := if go_lt (upper r) (upper o) then upper r else upper o).
  assert (go_lt lo hi = true) as Hlh by (unfold lo, hi; repeat case_match; done).
  destruct (dense _ _ Hlh) as (c & Hc & Hlc & Hch). exists c.
  assert (go_lt (lower r) c = true ∧ go_lt (lower o) c = true) as [??].
  { unfold lo in Hlc. destruct (go_trichotomy _ _ Hl Hl') as [Hx|[Hx|Hx]].
    - rewrite Hx in Hlc. eauto using go_lt_trans.
    - rewrite Hx, go_lt_irrefl in Hlc. rewrite Hx. auto.
    - rewrite (lt_not_gt _ _ Hx) in Hlc. eauto using go_lt_trans. }
  assert (go_lt c (upper r) = true ∧ go_lt c (upper o) = true) as [??].
  { unfold hi in Hch. destruct (go_trichotomy _ _ Hu Hu') as [Hx|[Hx|Hx]].
    - rewrite Hx in Hch. eauto using go_lt_trans.
    - rewrite Hx, go_lt_irrefl in Hch. rewrite Hx. auto.
    - rewrite (lt_not_gt _ _ Hx) in Hch. eauto using go_lt_trans. }
  auto using inRange_strict.
Qed.
End dense.
End range_laws.

(** Ranges over an ordered type behave as sets.  A constructor succeeds
    only on ranges with a proper order of bounds and no NaN; membership is the
    interval with its open or closed ends and never holds for NaN;
    [ContainsRange] implies inclusion, and ranges with a common value overlap.
    Over a dense type both are equivalences. *)
Theorem range_set_semantics `{OrderedLaws T} (a b a' b' : T) li ui li' ui' r o :
  newRange a b li ui = Ok r → newRange a' b' li' ui' = Ok o →
  r = mkRange a b li ui ∧ Empty r = false ∧
  (∀ v, Contains r v = true ↔ inRange r v) ∧
  (ContainsRange r o = true → ∀ v, Contains o v = true → Contains r v = true) ∧
  ((∃ v, Contains r v = true ∧ Contains o v = true) → Overlaps r o = true) ∧
  (Dense T →
   (ContainsRange r o = true ↔ ∀ v, Contains o v = true → Contains r v = true) ∧
   (Overlaps r o = true ↔ ∃ v, Contains r v = true ∧ Contains o v = true)).
Proof.
  intros [Hr Er]%newRange_wf [Ho _]%newRange_wf.
  setoid_rewrite (Contains_inRange r _ Hr). setoid_rewrite (Contains_inRange o _ Ho).
  split; [done|]. split; [by apply wfRange_nonempty|]. split; [done|].
  split; [eauto using ContainsRange_subset|].
  split; [intros (v & ? & ?); eauto using common_overlaps|]. intros HD. split; split.
  - eauto using ContainsRange_subset.
  - by apply subset_ContainsRange.
  - by apply overlaps_common.
  - intros (v & ? & ?); eauto using common_overlaps.
Qed.

Lemma range_set_semantics_witness :
  ∃ r o : Range Qc, newRange 0%Qc 2%Qc true false = Ok r ∧ newRange 1%Qc 2%Qc false false = Ok o ∧
  (ContainsRange r o = true ↔ ∀ v, Contains o v = true → Contains r v = true) ∧
  (Overlaps r o = true ↔ ∃ v, Contains r v = true ∧ Contains o v = true).
Proof.
  eexists _, _. split; [reflexivity|]. split; [reflexivity|].
  apply (range_set_semantics 0%Qc 2%Qc 1%Qc 2%Qc true false false false); [reflexivity..|apply _].
Defined.

(** The result of a successful [Clamp] is in the interval, and is the value
    when the value is. *)
Lemma Clamp_spec `{OrderedLaws T} (v a b c : T) :
  isOrderedNaN v = false → isOrderedNaN a = false → isOrderedNaN b = false →
  Clamp v a b = Ok c →
  go_lt c a = false ∧ go_lt b c = false ∧ (go_lt v a = false → go_lt b v = false → c = v).
Proof.
  intros Hv Ha Hb. unfold Clamp, go_gt. destruct (go_lt b a) eqn:E; [done|].
  destruct (go_lt v a) eqn:E1; [intros [= <-]; by rewrite go_lt_irrefl|].
  destruct (go_lt b v) eqn:E2; intros [= <-]; [|done]. rewrite go_lt_irrefl. split; [|done].
  apply not_true_is_false. intros Hba. congruence.
Qed.

(** ** Common prefixes and suffixes *)

Lemma prefixLoop_spec a b i fuel :
  (i + fuel = length a `min` length b)%nat → take i a = take i b →
  let p := prefixLoop a b i fuel in
  p `prefix_of` a ∧ p `prefix_of` b ∧ ∀ q, q `prefix_of` a → q `prefix_of` b → q `prefix_of` p.
Proof.
  revert i. induction fuel as [|fuel IH]; intros i Hi Heq; simpl.
  - split; [apply prefix_take|]. split; [rewrite Heq; apply prefix_take|].
    intros q Ha Hb. pose proof (prefix_length _ _ Ha). pose proof (prefix_length _ _ Hb).
    assert (q = take (length q) a) as -> by (destruct Ha as [? ->]; by rewrite take_app_length).
    rewrite <-(Nat.min_l (length q) i), <-take_take by lia. apply prefix_take.
  - assert (is_Some (a !! i)) as [x Hx] by (apply lookup_lt_is_Some_2; lia).
    assert (is_Some (b !! i)) as [y Hy] by (apply lookup_lt_is_Some_2; lia).
    rewrite (list_lookup_total_correct _ _ _ Hx), (list_lookup_total_correct _ _ _ Hy).
    destruct (x =? y) eqn:Exy; bools; simpl.
    + subst. apply IH; [lia|]. rewrite (take_S_r _ _ _ Hx), (take_S_r _ _ _ Hy). by rewrite Heq.
    + split; [apply prefix_take|]. split; [rewrite Heq; apply prefix_take|].
      intros q Ha Hb. destruct (decide (length q ≤ i)%nat) as [Hle|Hgt].
      * assert (q = take (length q) a) as -> by (destruct Ha as [? ->]; by rewrite take_app_length).
        rewrite <-(Nat.min_l (length q) i), <-take_take by lia. apply prefix_take.
      * exfalso. assert (is_Some (q !! i)) as [z Hz] by (apply lookup_lt_is_Some_2; lia).
        pose proof (prefix_lookup_Some _ _ _ _ Hz Ha). pose proof (prefix_lookup_Some _ _ _ _ Hz Hb).
        congruence.
Qed.

(** [CommonPrefix] is the longest common prefix. *)
Lemma CommonPrefix_spec a b :
  let p := CommonPrefix a b in
  p `prefix_of` a ∧ p `prefix_of` b ∧ ∀ q, q `prefix_of` a → q `prefix_of` b → q `prefix_of` p.
Proof.
  unfold CommonPrefix. case_decide as Ha; [subst; repeat split; [done|apply prefix_nil|done]|].
  case_decide as Hb; [subst; repeat split; [apply prefix_nil|done|done]|].
  case_decide as E; [subst; by repeat split|]. by apply prefixLoop_spec.
Qed.

Lemma suffixLoop_prefixLoop a b i fuel :
  (i + fuel ≤ length a `min` length b)%nat →
  suffixLoop a b i fuel = reverse (prefixLoop (reverse a) (reverse b) i fuel).
Proof.
  assert (∀ (l : list Z) j, (j < length l)%nat → l !!! (length l - j - 1)%nat = reverse l !!! j) as Hrev.
  { intros l j Hj. rewrite !list_lookup_total_alt, reverse_lookup by done.
    by replace (length l - S j)%nat with (length l - j - 1)%nat by lia. }
  assert (∀ j, drop (length a - j) a = reverse (take j (reverse a))) as Hdrop.
  { intros j. by rewrite take_reverse, reverse_involutive. }
  revert i. induction fuel as [|fuel IH]; intros i Hi; simpl; [apply Hdrop|].
  unfold text in *. rewrite !Hrev by lia. case_match; [apply Hdrop|]. apply IH. lia.
Qed.

(** [CommonSuffix] is the longest common suffix. *)
Lemma CommonSuffix_spec a b :
  let p := CommonSuffix a b in
  p `suffix_of` a ∧ p `suffix_of` b ∧ ∀ q, q `suffix_of` a → q `suffix_of` b → q `suffix_of` p.
Proof.
  unfold CommonSuffix. case_decide as Ha; [subst; repeat split; [done|apply suffix_nil|done]|].
  case_decide as Hb; [subst; repeat split; [apply suffix_nil|done|done]|].
  case_decide as E; [subst; by repeat split|].
  rewrite suffixLoop_prefixLoop by lia. cbv zeta. setoid_rewrite suffix_prefix_reverse.
  rewrite reverse_involutive.
  destruct (prefixLoop_spec (reverse a) (reverse b) 0 (length a `min` length b)) as (H1 & H2 & H3);
    [by rewrite !length_reverse|done|]. eauto.
Qed.

(** ** Truncation *)

Lemma RuneStart_byte b : is_byte b → RuneStart b = negb (continuation b).
Proof.
  intros Hb.
  assert (forallb (λ b, eqb (RuneStart b) (negb (continuation b))) (seqZ 0 256) = true) as Hall
    by by vm_compute.
  rewrite forallb_forall in Hall. apply eqb_prop, Hall. apply list_elem_of_In, elem_of_seqZ.
  unfold is_byte in Hb. lia.
Qed.

(** A sequence of well-formed runes. *)
Inductive utf8 : list Z → Prop :=
| utf8_nil : utf8 []
| utf8_rune n s : runeLength s = Some n → utf8 (drop n s) → utf8 s.

Lemma firstByte_spec b n lo hi :
  firstByte b = Some (n, lo, hi) →
  is_byte b ∧ continuation b = false ∧ (1 ≤ n)%nat ∧ ((2 ≤ n)%nat → 128 ≤ lo ∧ hi ≤ 191).
Proof.
  unfold firstByte, continuation, is_byte. rewrite andb_false_iff, !Z.leb_gt. intros H.
  repeat match type of H with
  | (if ?t then _ else _) = _ => destruct t eqn:?
  end; simplify_eq; rewrite ?orb_true_iff, ?andb_true_iff, ?Z.leb_le, ?Z.eqb_eq in *; lia.
Qed.

Lemma runeLength_spec s n :
  runeLength s = Some n →
  ∃ b0 rest, s = b0 :: rest ∧ RuneStart b0 = true ∧ (1 ≤ n ≤ length s)%nat ∧
  Forall (λ b, RuneStart b = false) (take (n - 1) rest) ∧
  ∀ k, runeLength (take k s) = if decide (n ≤ k)%nat then Some n else None.
Proof.
  destruct s as [|b0 rest]; [done|]. simpl. intros H. exists b0, rest. split; [done|].
  destruct (firstByte b0) as [[[m lo] hi]|] eqn:E; [|done].
  destruct (firstByte_spec _ _ _ _ E) as (Hb & Hc & Hm & Hlohi).
  rewrite RuneStart_byte, Hc by done. split; [done|].
  destruct m as [|[|m]]; [lia| |].
  { simplify_eq. simpl. split; [lia|]. split; [constructor|]. intros [|k]; cbn [take runeLength]; [done|].
    rewrite E. by case_match; [|lia]. }
  destruct (S (length rest) <? S (S m))%nat eqn:El; [done|]. apply Nat.ltb_ge in El.
  destruct rest as [|b1 rest]; [done|]. destruct (_ && _) eqn:Ebs in H; [|done]. simplify_eq.
  bools. destruct Hlohi as [Hlo Hhi]; [lia|]. simpl in *. split; [lia|]. split.
  - rewrite Nat.sub_0_r in *. constructor.
    + rewrite RuneStart_byte by (unfold is_byte; lia). unfold continuation. rewrite negb_false_iff.
      apply andb_true_iff. rewrite !Z.leb_le. lia.
    + rewrite forallb_forall in H0. apply Forall_forall. intros b Hb'%list_elem_of_In%H0.
      pose proof Hb' as Hb''. unfold continuation in Hb''. bools.
      rewrite RuneStart_byte by (unfold is_byte; lia). by rewrite Hb'.
  - intros [|k]; cbn [take runeLength length]; [done|]. rewrite E. destruct (decide (S (S m) ≤ S k)%nat) as [Hk|Hk].
    + rewrite (proj2 (Nat.ltb_ge _ _)) by (rewrite length_take; simpl; lia).
      destruct k as [|k]; [lia|]. simpl. rewrite Nat.sub_0_r in *.
      rewrite take_take, Nat.min_l by lia. rewrite H0, andb_true_r.
      by rewrite (proj2 (Z.leb_le _ _)), (proj2 (Z.leb_le _ _)) by lia.
    + by rewrite (proj2 (Nat.ltb_lt _ _)) by (rewrite length_take; simpl; lia).
Qed.

Lemma validLoop_utf8 fuel s : (length s ≤ fuel)%nat → validLoop fuel s = true ↔ utf8 s.
Proof.
  revert s. induction fuel as [|fuel IH]; intros [|b s] Hl; simpl in Hl; try lia.
  - split; [constructor|done].
  - split; [constructor|done].
  - set (s' := b :: s) in *. assert (length s' = S (length s)) as Hs' by done.
    change (validLoop (S fuel) s') with
      (match runeLength s' with None => false | Some n => validLoop fuel (drop n s') end).
    destruct (runeLength s') as [n|] eqn:E.
    + destruct (runeLength_spec _ _ E) as (_ & _ & _ & _ & Hn & _).
      rewrite IH by (rewrite length_drop; lia). split; [by econstructor|].
      inversion 1. by simplify_eq.
    + split; [done|]. inversion 1. by simplify_eq.
Qed.

Lemma ValidString_utf8 s : ValidString s = true ↔ utf8 s.
Proof. by apply validLoop_utf8. Qed.

(** A prefix of a valid string is valid exactly when it ends where a rune
    starts. *)
Lemma utf8_prefix s k :
  utf8 s → (k ≤ length s)%nat → utf8 (take k s) ↔ k = length s ∨ RuneStart (s !!! k) = true.
Proof.
  intros Hs. revert k. induction Hs as [|n s Hn Hs IH]; intros k Hk.
  { simpl in *. assert (k = 0%nat) as -> by lia. split; [by left|constructor]. }
  destruct (runeLength_spec _ _ Hn) as (b0 & rest & -> & Hb0 & Hle & Hcont & Htake).
  destruct (decide (k = 0%nat)) as [->|Hk0]; [split; [by right|constructor]|].
  destruct (decide (n ≤ k)%nat) as [Hnk|Hnk].
  - transitivity (utf8 (take (k - n) (drop n (b0 :: rest)))).
    + rewrite take_drop_commute. replace (n + (k - n))%nat with k by lia. split.
      * inversion 1 as [E|n' s' E Hu]; [apply (f_equal length) in E; rewrite length_take in E; simpl in *; lia|].
        subst. rewrite Htake, decide_True in E by lia. by simplify_eq.
      * intros Hu. apply (utf8_rune n); [|done]. by rewrite Htake, decide_True by lia.
    + rewrite IH by (rewrite length_drop; lia). rewrite length_drop.
      rewrite lookup_total_drop. replace (n + (k - n))%nat with k by lia.
      by split; (intros [|]; [left; lia|by right]).
  - split.
    + inversion 1 as [E|n' s' E Hu]; [apply (f_equal length) in E; rewrite length_take in E; simpl in *; lia|].
      subst. by rewrite Htake, decide_False in E by lia.
    + intros [->|Hr]; [lia|]. exfalso. destruct k as [|k]; [lia|]. simpl in Hr.
      rewrite Forall_forall in Hcont. assert (is_Some (rest !! k)) as [b Hb].
      { apply lookup_lt_is_Some_2. simpl in *. lia. }
      rewrite (list_lookup_total_correct _ _ _ Hb) in Hr.
      rewrite (Hcont b) in Hr; [done|]. apply list_elem_of_lookup_2 with k.
      rewrite lookup_take_lt by lia. done.
Qed.

Lemma backUp_spec value k :
  (backUp value k ≤ k)%nat ∧
  (backUp value k = 0%nat ∨ RuneStart (value !!! backUp value k) = true) ∧
  ∀ j, (j ≤ k)%nat → RuneStart (value !!! j) = true → (j ≤ backUp value k)%nat.
Proof.
  induction k as [|k (IH1 & IH2 & IH3)]; [simpl; split_and!; [lia|by left|lia]|].
  simpl. destruct (RuneStart (value !!! S k)) eqn:E; simpl; [split_and!; [lia|by right|lia]|].
  split_and!; [lia|done|]. intros j Hj Hr. apply IH3; [|done].
  destruct (decide (j = S k)) as [->|]; [congruence|lia].
Qed.

(** [TruncateUTF8Bytes] of a valid string never cuts a rune: the result is a
    valid prefix within the limit, and no longer prefix within the limit is
    valid.  It fails exactly on a negative limit or invalid text. *)
Theorem TruncateUTF8Bytes_longest value maxBytes :
  match TruncateUTF8Bytes value maxBytes with
  | Ok r =>
      0 ≤ maxBytes ∧ ValidString value = true ∧
      r `prefix_of` value ∧ Z.of_nat (length r) ≤ maxBytes ∧ ValidString r = true ∧
      ∀ q, q `prefix_of` value → Z.of_nat (length q) ≤ maxBytes → ValidString q = true → q `prefix_of` r
  | Fail e =>
      (maxBytes < 0 ∧ errors_Is e "core.ErrInvalidArgument" = true) ∨
      (0 ≤ maxBytes ∧ ValidString value = false ∧ errors_Is e "core.ErrInvalidUTF8" = true)
  end.
Proof.
  unfold TruncateUTF8Bytes. destruct (maxBytes <? 0) eqn:E1; bools; [by left|].
  destruct (ValidString value) eqn:E2; simpl; [|by right].
  destruct (Z.of_nat (length value) <=? maxBytes) eqn:E3; bools; [by split_and!|].
  destruct (backUp_spec value (Z.to_nat maxBytes)) as (Hle & Hb & Hmax).
  set (k := backUp value (Z.to_nat maxBytes)) in *. apply ValidString_utf8 in E2 as Hu.
  split_and!; try done.
  - apply prefix_take.
  - rewrite length_take. lia.
  - apply ValidString_utf8. destruct Hb as [Hb|Hb]; [rewrite Hb; constructor|].
    apply utf8_prefix; [done|lia|by right].
  - intros q [t Ht] Hq Hv%ValidString_utf8.
    assert (q = take (length q) value) as Eq by by rewrite Ht, take_app_length.
    rewrite Eq in Hv. apply utf8_prefix in Hv as [?|Hv]; [lia| |done|].
    + rewrite Eq, <-(Nat.min_l (length q) k), <-take_take by (apply Hmax; [lia|done]).
      apply prefix_take.
    + rewrite Ht, length_app. lia.
Qed.
