(* ===== verification/AuditRepo.v ===== *)
(** * audit: events, entries, histories, the memory repository, the recorder

    Models [src/audit] types.go, errors.go, event.go, entry.go, history.go,
    repository.go, memory_repository.go and recorder.go.  A time is the number
    of nanoseconds since the zero time, metadata is a finite map (nil and empty
    are not told apart), a payload a list of bytes.  [json.Valid] is a
    parameter, so that the theorems hold whatever it accepts; JSON decoding of
    the types is not modelled.  The locked part of an operation is one step: an
    operation takes the repository as it is when it gets the lock, since
    nothing before that reads it. *)

From S2P Require Import Prelude GoError GoText.

Local Open Scope Z_scope.

(** ** Errors *)

Definition ErrInvalidAggregateID : string := "audit.ErrInvalidAggregateID".
Definition ErrInvalidRevision : string := "audit.ErrInvalidRevision".
Definition ErrInvalidEvent : string := "audit.ErrInvalidEvent".
Definition ErrInvalidEntry : string := "audit.ErrInvalidEntry".
Definition ErrInvalidQuery : string := "audit.ErrInvalidQuery".
Definition ErrMixedAggregate : string := "audit.ErrMixedAggregate".
Definition ErrRevisionConflict : string := "audit.ErrRevisionConflict".

(** [ValidationError]: [Is] compares with the kind, [Unwrap] is the cause. *)
Definition ValidationError (kind fld : string) (value : field) (cause : option error) : error :=
  Typed "audit.ValidationError" [FStr fld; value] [kind] cause.

Definition validationError (kind fld : string) (value : field) : error :=
  ValidationError kind fld value None.

Definition validationCause (kind fld : string) (value : field) (cause : error) : error :=
  ValidationError kind fld value (Some cause).

(** ** Types *)

Record AggregateID : Type := mkAggregateID {
  agg_Type : text;
  agg_ID : text
}.

#[export] Instance AggregateID_eq_dec : EqDecision AggregateID.
Proof. solve_decision. Defined.
#[export] Instance AggregateID_countable : Countable AggregateID.
Proof.
  apply (inj_countable' (λ a, (agg_Type a, agg_ID a)) (λ p, mkAggregateID p.1 p.2)). by intros [].
Defined.

Definition AggregateID_Validate (id : AggregateID) : option error :=
  if decide (TrimSpace (agg_Type id) = []) then
    Some (validationError ErrInvalidAggregateID "type" (fieldOf (agg_Type id)))
  else if decide (TrimSpace (agg_ID id) = []) then
    Some (validationError ErrInvalidAggregateID "id" (fieldOf (agg_ID id)))
  else None.

Definition NewAggregateID (typ id : text) : result AggregateID :=
  let aggregate := mkAggregateID (TrimSpace typ) (TrimSpace id) in
  match AggregateID_Validate aggregate with
  | Some e => Fail e
  | None => Ok aggregate
  end.

(** [Revision] is a uint64. *)
Definition Revision : Type := Z.

Definition maxUint64 : Z := 2 ^ 64 - 1.

Definition InitialRevision : Revision := 1.

Definition Revision_Validate (r : Revision) : option error :=
  if r =? 0 then Some (validationError ErrInvalidRevision "revision" (FInt r)) else None.

Definition Next (r : Revision) : result Revision :=
  match Revision_Validate r with
  | Some e => Fail e
  | None =>
      if r =? maxUint64 then Fail (validationError ErrInvalidRevision "revision" (FInt r))
      else Ok (r + 1)
  end.

Definition Metadata : Type := gmap text text.

(** [Metadata.Clone]: the copying loop. *)
Definition Metadata_Clone (m : Metadata) : Metadata :=
  if decide (size m = 0%nat) then ∅
  else map_fold (λ key value clone, <[key := value]> clone) ∅ m.

(** The keys are visited in the order of [map_to_list]; the order only decides
    which blank key is reported. *)
Definition validateMetadata (kind fld : string) (metadata : Metadata) : option error :=
  match filter (λ key, TrimSpace key = []) (map_to_list metadata).*1 with
  | [] => None
  | key :: _ => Some (validationError kind fld (fieldOf key))
  end.

(** A byte string. *)
Definition bytes : Type := list Z.

Definition cloneRawMessage (payload : bytes) : bytes :=
  match payload with
  | [] => []
  | _ => foldr cons [] payload
  end.

(** A time; 0 is the zero time. *)
Definition Time : Type := Z.
Definition Time_IsZero (t : Time) : bool := t =? 0.

Record EventOptions : Type := mkEventOptions {
  eo_EventID : text;
  eo_EventType : text;
  eo_AggregateID : AggregateID;
  eo_Revision : Revision;
  eo_OccurredAt : Time;
  eo_RecordedAt : Time;
  eo_IdempotencyKey : text;
  eo_Metadata : Metadata;
  eo_Payload : bytes
}.

Record DomainEvent : Type := mkDomainEvent {
  EventID : text;
  EventType : text;
  ev_Aggregate : AggregateID;
  ev_Revision : Revision;
  OccurredAt : Time;
  RecordedAt : Time;
  IdempotencyKey : text;
  ev_Metadata : Metadata;
  Payload : bytes
}.

#[export] Instance DomainEvent_eq_dec : EqDecision DomainEvent.
Proof. solve_decision. Defined.
#[export] Instance DomainEvent_countable : Countable DomainEvent.
Proof.
  apply (inj_countable'
    (λ e, (EventID e, EventType e, ev_Aggregate e, (ev_Revision e, OccurredAt e, RecordedAt e),
           (IdempotencyKey e, ev_Metadata e, Payload e)))
    (λ '(i, t, a, (r, o, rec), (k, m, p)), mkDomainEvent i t a r o rec k m p)). by intros [].
Defined.

Record SnapshotMetadata : Type := mkSnapshotMetadata {
  Format : text;
  snap_SchemaVersion : text;
  snap_Payload : bytes
}.

Record ChangeMetadata : Type := mkChangeMetadata {
  ChangedFields : list text;
  Summary : text;
  Attributes : Metadata
}.

Record EntryOptions : Type := mkEntryOptions {
  eno_Author : text;
  eno_Event : DomainEvent;
  eno_Snapshot : option SnapshotMetadata;
  eno_Change : option ChangeMetadata
}.

Record Entry : Type := mkEntry {
  en_SchemaVersion : Z;
  Aggregate : AggregateID;
  en_Revision : Revision;
  Author : text;
  Event : DomainEvent;
  Snapshot : option SnapshotMetadata;
  Change : option ChangeMetadata
}.

Definition SchemaVersion : Z := 1.

(** ** Copies *)

Definition DomainEvent_Clone (e : DomainEvent) : DomainEvent :=
  mkDomainEvent (EventID e) (EventType e) (ev_Aggregate e) (ev_Revision e) (OccurredAt e)
    (RecordedAt e) (IdempotencyKey e) (Metadata_Clone (ev_Metadata e)) (cloneRawMessage (Payload e)).

Definition Snapshot_Clone (m : SnapshotMetadata) : SnapshotMetadata :=
  mkSnapshotMetadata (Format m) (snap_SchemaVersion m) (cloneRawMessage (snap_Payload m)).

Definition Change_Clone (m : ChangeMetadata) : ChangeMetadata :=
  mkChangeMetadata
    (if decide (0 < length (ChangedFields m))%nat then [] ++ ChangedFields m else [])
    (Summary m) (Metadata_Clone (Attributes m)).

Definition Entry_Clone (e : Entry) : Entry :=
  mkEntry (en_SchemaVersion e) (Aggregate e) (en_Revision e) (Author e)
    (DomainEvent_Clone (Event e))
    (match Snapshot e with Some s => Some (Snapshot_Clone s) | None => None end)
    (match Change e with Some c => Some (Change_Clone c) | None => None end).

(** ** Events and entries *)

Section audit.
Context (json_Valid : bytes → bool).

Definition normalizePayload (fld : string) (payload : bytes) (kind : string) : result bytes :=
  let clone := match payload with [] => lit "{}" | _ => payload end in
  let clone := cloneRawMessage clone in
  if negb (json_Valid clone) then Fail (validationError kind fld (fieldOf clone)) else Ok clone.

Definition DomainEvent_Validate (e : DomainEvent) : option error :=
  if decide (TrimSpace (EventID e) = []) then
    Some (validationError ErrInvalidEvent "event_id" (fieldOf (EventID e)))
  else if decide (TrimSpace (EventType e) = []) then
    Some (validationError ErrInvalidEvent "event_type" (fieldOf (EventType e)))
  else match AggregateID_Validate (ev_Aggregate e) with
  | Some err => Some (validationCause ErrInvalidEvent "aggregate" (fieldOf (ev_Aggregate e)) err)
  | None =>
  match Revision_Validate (ev_Revision e) with
  | Some err => Some (validationCause ErrInvalidEvent "revision" (FInt (ev_Revision e)) err)
  | None =>
  if Time_IsZero (OccurredAt e) then
    Some (validationError ErrInvalidEvent "occurred_at" (FInt (OccurredAt e)))
  else if Time_IsZero (RecordedAt e) then
    Some (validationError ErrInvalidEvent "recorded_at" (FInt (RecordedAt e)))
  else if decide (TrimSpace (IdempotencyKey e) = []) then
    Some (validationError ErrInvalidEvent "idempotency_key" (fieldOf (IdempotencyKey e)))
  else match validateMetadata ErrInvalidEvent "metadata" (ev_Metadata e) with
  | Some err => Some (validationCause ErrInvalidEvent "metadata" (fieldOf (ev_Metadata e)) err)
  | None =>
  if bool_decide (Payload e = []) || negb (json_Valid (Payload e)) then
    Some (validationError ErrInvalidEvent "payload" (fieldOf (Payload e)))
  else None
  end end end.

Definition NewDomainEvent (options : EventOptions) : result DomainEvent :=
  match normalizePayload "payload" (eo_Payload options) ErrInvalidEvent with
  | Fail e => Fail e
  | Ok payload =>
      let event :=
        mkDomainEvent (TrimSpace (eo_EventID options)) (TrimSpace (eo_EventType options))
          (eo_AggregateID options) (eo_Revision options) (eo_OccurredAt options)
          (eo_RecordedAt options) (TrimSpace (eo_IdempotencyKey options))
          (Metadata_Clone (eo_Metadata options)) payload in
      match DomainEvent_Validate event with
      | Some e => Fail e
      | None => Ok event
      end
  end.

Definition Snapshot_Validate (m : SnapshotMetadata) : option error :=
  if decide (TrimSpace (Format m) = []) then
    Some (validationError ErrInvalidEntry "snapshot.format" (fieldOf (Format m)))
  else if decide (TrimSpace (snap_SchemaVersion m) = []) then
    Some (validationError ErrInvalidEntry "snapshot.schema_version" (fieldOf (snap_SchemaVersion m)))
  else if bool_decide (snap_Payload m = []) || negb (json_Valid (snap_Payload m)) then
    Some (validationError ErrInvalidEntry "snapshot.payload" (fieldOf (snap_Payload m)))
  else None.

(** The loop of [ChangeMetadata.Validate]. *)
Fixpoint uniqueFields (seen : gset text) (fields : list text) : option error :=
  match fields with
  | [] => None
  | f :: rest =>
      let f := TrimSpace f in
      if decide (f = []) then
        Some (validationError ErrInvalidEntry "change.changed_fields" (fieldOf f))
      else if decide (f ∈ seen) then
        Some (validationError ErrRevisionConflict "change.changed_fields" (fieldOf f))
      else uniqueFields ({[f]} ∪ seen) rest
  end.

Definition Change_Validate (m : ChangeMetadata) : option error :=
  match ChangedFields m with
  | [] => Some (validationError ErrInvalidEntry "change.changed_fields" (fieldOf (ChangedFields m)))
  | _ =>
      match uniqueFields ∅ (ChangedFields m) with
      | Some e => Some e
      | None => validateMetadata ErrInvalidEntry "change.attributes" (Attributes m)
      end
  end.

(** The loop of [NewChangeMetadata]. *)
Fixpoint normalizeFields (seen : gset text) (normalized : list text) (fields : list text) :
    result (list text) :=
  match fields with
  | [] => Ok normalized
  | f :: rest =>
      let f := TrimSpace f in
      if decide (f = []) then
        Fail (validationError ErrInvalidEntry "change.changed_fields" (fieldOf f))
      else if decide (f ∈ seen) then normalizeFields seen normalized rest
      else normalizeFields ({[f]} ∪ seen) (normalized ++ [f]) rest
  end.

Definition NewChangeMetadata (fields : list text) (summary : text) (attributes : Metadata) :
    result ChangeMetadata :=
  match normalizeFields ∅ [] fields with
  | Fail e => Fail e
  | Ok normalized =>
      let change :=
        mkChangeMetadata (merge_sort text_le normalized) (TrimSpace summary)
          (Metadata_Clone attributes) in
      match Change_Validate change with
      | Some e => Fail e
      | None => Ok change
      end
  end.

Definition Entry_Validate (e : Entry) : option error :=
  if negb (en_SchemaVersion e =? SchemaVersion) then
    Some (validationError ErrInvalidEntry "schema_version" (FInt (en_SchemaVersion e)))
  else match AggregateID_Validate (Aggregate e) with
  | Some err => Some (validationCause ErrInvalidEntry "aggregate" (fieldOf (Aggregate e)) err)
  | None =>
  match Revision_Validate (en_Revision e) with
  | Some err => Some (validationCause ErrInvalidEntry "revision" (FInt (en_Revision e)) err)
  | None =>
  if decide (TrimSpace (Author e) = []) then
    Some (validationError ErrInvalidEntry "author" (fieldOf (Author e)))
  else match DomainEvent_Validate (Event e) with
  | Some err => Some (validationCause ErrInvalidEntry "event" (fieldOf (Event e)) err)
  | None =>
  if negb (bool_decide (ev_Aggregate (Event e) = Aggregate e)) then
    Some (validationError ErrInvalidEntry "event.aggregate" (fieldOf (ev_Aggregate (Event e))))
  else if negb (ev_Revision (Event e) =? en_Revision e) then
    Some (validationError ErrInvalidEntry "event.revision" (FInt (ev_Revision (Event e))))
  else
    match match Snapshot e with Some s => Snapshot_Validate s | None => None end with
    | Some err => Some err
    | None => match Change e with Some c => Change_Validate c | None => None end
    end
  end end end.

Definition NewEntry (options : EntryOptions) : result Entry :=
  let entry :=
    mkEntry SchemaVersion (ev_Aggregate (eno_Event options)) (ev_Revision (eno_Event options))
      (TrimSpace (eno_Author options)) (DomainEvent_Clone (eno_Event options))
      (match eno_Snapshot options with Some s => Some (Snapshot_Clone s) | None => None end)
      (match eno_Change options with Some c => Some (Change_Clone c) | None => None end) in
  match Entry_Validate entry with
  | Some e => Fail e
  | None => Ok entry
  end.

(** ** Histories *)

Record History : Type := mkHistory {
  aggregate : AggregateID;
  entries : list Entry;
  head : Revision
}.

(** [sort.Slice] by revision.  The order of entries with equal revisions is not
    specified by Go; such entries never form a history. *)
Definition revision_le (a b : Entry) : Prop := en_Revision a ≤ en_Revision b.
#[global] Instance revision_le_dec : RelDecision revision_le.
Proof. intros a b. unfold revision_le. apply _. Defined.

(** The loop of [NewHistory] from index [i]. *)
Fixpoint historyLoop (agg : AggregateID) (i : Z) (ordered : list Entry)
    (seenEventIDs : gset text) (seenIdempotencyKeys : gmap text text) : option error :=
  match ordered with
  | [] => None
  | entry :: rest =>
      match Entry_Validate entry with
      | Some e => Some e
      | None =>
      if negb (bool_decide (Aggregate entry = agg)) then
        Some (validationError ErrMixedAggregate "aggregate" (fieldOf (Aggregate entry)))
      else if negb (en_Revision entry =? i + 1) || negb (en_Revision entry =? ev_Revision (Event entry))
      then Some (validationError ErrRevisionConflict "revision" (FInt (en_Revision entry)))
      else if decide (EventID (Event entry) ∈ seenEventIDs) then
        Some (validationError ErrRevisionConflict "event_id" (fieldOf (EventID (Event entry))))
      else
        let id := EventID (Event entry) in
        let key := IdempotencyKey (Event entry) in
        let again := historyLoop agg (i + 1) rest ({[id]} ∪ seenEventIDs)
                       (<[key := id]> seenIdempotencyKeys) in
        match seenIdempotencyKeys !! key with
        | Some existing =>
            if negb (bool_decide (existing = id)) then
              Some (validationError ErrRevisionConflict "idempotency_key" (fieldOf key))
            else again
        | None => again
        end
      end
  end.

Definition NewHistory (entries : list Entry) : result History :=
  let ordered := merge_sort revision_le (map Entry_Clone entries) in
  match ordered, last ordered with
  | first :: _, Some final =>
      match AggregateID_Validate (Aggregate first) with
      | Some e => Fail e
      | None =>
          match historyLoop (Aggregate first) 0 ordered ∅ ∅ with
          | Some e => Fail e
          | None => Ok (mkHistory (Aggregate first) ordered (en_Revision final))
          end
      end
  | _, _ => Fail (validationError ErrInvalidEntry "entries" (FInt (Z.of_nat (length entries))))
  end.

Definition HeadRevision (h : History) : Revision := head h.
Definition History_AggregateID (h : History) : AggregateID := aggregate h.
Definition Entries (h : History) : list Entry := map Entry_Clone (entries h).

(** ** Queries *)

Record Query : Type := mkQuery {
  q_Aggregate : option AggregateID;
  AggregateType : text;
  FromRevision : Revision;
  ToRevision : Revision;
  FromRecordedAt : Time;
  ToRecordedAt : Time;
  NewestFirst : bool;
  Limit : Z
}.

Definition optional_Revision_Validate (fld : string) (r : Revision) : option error :=
  if negb (r =? 0) then
    match Revision_Validate r with
    | Some e => Some (validationCause ErrInvalidQuery fld (FInt r) e)
    | None => None
    end
  else None.

Definition Query_Validate (q : Query) : result Query :=
  match
    match q_Aggregate q with
    | Some a =>
        match AggregateID_Validate a with
        | Some e => Some (validationCause ErrInvalidQuery "aggregate" (fieldOf a) e)
        | None => None
        end
    | None => None
    end
  with
  | Some e => Fail e
  | None =>
  let normalized :=
    mkQuery (q_Aggregate q) (TrimSpace (AggregateType q)) (FromRevision q) (ToRevision q)
      (FromRecordedAt q) (ToRecordedAt q) (NewestFirst q) (Limit q) in
  match optional_Revision_Validate "from_revision" (FromRevision q) with
  | Some e => Fail e
  | None =>
  match optional_Revision_Validate "to_revision" (ToRevision q) with
  | Some e => Fail e
  | None =>
  if negb (FromRevision q =? 0) && negb (ToRevision q =? 0) && (ToRevision q <? FromRevision q) then
    Fail (validationError ErrInvalidQuery "revision_range" (FInt (FromRevision q)))
  else if negb (Time_IsZero (FromRecordedAt q)) && negb (Time_IsZero (ToRecordedAt q)) &&
          (ToRecordedAt q <? FromRecordedAt q) then
    Fail (validationError ErrInvalidQuery "recorded_at_range" (FInt (FromRecordedAt q)))
  else if Limit q <? 0 then
    Fail (validationError ErrInvalidQuery "limit" (FInt (Limit q)))
  else Ok normalized
  end end end.

Definition matchesQuery (entry : Entry) (query : Query) : bool :=
  negb (match q_Aggregate query with
        | Some a => negb (bool_decide (Aggregate entry = a))
        | None => false
        end) &&
  negb (negb (bool_decide (AggregateType query = [])) &&
        negb (bool_decide (agg_Type (Aggregate entry) = AggregateType query))) &&
  negb (negb (FromRevision query =? 0) && (en_Revision entry <? FromRevision query)) &&
  negb (negb (ToRevision query =? 0) && (ToRevision query <? en_Revision entry)) &&
  negb (negb (Time_IsZero (FromRecordedAt query)) && (RecordedAt (Event entry) <? FromRecordedAt query)) &&
  negb (negb (Time_IsZero (ToRecordedAt query)) && (ToRecordedAt query <? RecordedAt (Event entry))).

(** ** The memory repository

    Its state is the list of entries in the order they were appended. *)

Definition MemoryRepository : Type := list Entry.

Definition NewMemoryRepository : MemoryRepository := [].

(** [reverseEntries]: swaps from both ends; [i] and [j] are the indices, [fuel]
    a bound on the swaps. *)
Fixpoint reverseLoop (es : list Entry) (i j fuel : nat) : list Entry :=
  match fuel with
  | O => es
  | S fuel' =>
      if (i <? j)%nat then
        match es !! i, es !! j with
        | Some a, Some b => reverseLoop (<[j := a]> (<[i := b]> es)) (S i) (j - 1) fuel'
        | _, _ => es
        end
      else es
  end.

Definition reverseEntries (es : list Entry) : list Entry :=
  reverseLoop es 0 (length es - 1) (length es).

(** The loop of [validateAppendBatch]; [prev] is the entry before. *)
Fixpoint batchLoop (agg : AggregateID) (prev : option Entry) (es : list Entry)
    (seenEventIDs : gset text) (seenIdempotencyKeys : gmap text text) : option error :=
  match es with
  | [] => None
  | entry :: rest =>
      if negb (bool_decide (Aggregate entry = agg)) then
        Some (validationError ErrMixedAggregate "aggregate" (fieldOf (Aggregate entry)))
      else if match prev with
              | Some p => negb (en_Revision entry =? wrap_u64 (en_Revision p + 1))
              | None => false
              end
      then Some (validationError ErrRevisionConflict "revision" (FInt (en_Revision entry)))
      else if decide (EventID (Event entry) ∈ seenEventIDs) then
        Some (validationError ErrRevisionConflict "event_id" (fieldOf (EventID (Event entry))))
      else
        let id := EventID (Event entry) in
        let key := IdempotencyKey (Event entry) in
        let again := batchLoop agg (Some entry) rest ({[id]} ∪ seenEventIDs)
                       (<[key := id]> seenIdempotencyKeys) in
        match seenIdempotencyKeys !! key with
        | Some existing =>
            if negb (bool_decide (existing = id)) then
              Some (validationError ErrRevisionConflict "idempotency_key" (fieldOf key))
            else again
        | None => again
        end
  end.

(** [entries[0]] exists: [Append] returns before on an empty batch. *)
Definition validateAppendBatch (es : list Entry) : option error :=
  match es with
  | [] => None
  | first :: _ => batchLoop (Aggregate first) None es ∅ ∅
  end.

(** The second loop of [validateContinuationLocked]. *)
Fixpoint freshLoop (existingEventIDs : gset text) (existingIdempotencyKeys : gmap text text)
    (es : list Entry) : option error :=
  match es with
  | [] => None
  | entry :: rest =>
      let id := EventID (Event entry) in
      let key := IdempotencyKey (Event entry) in
      if decide (id ∈ existingEventIDs) then
        Some (validationError ErrRevisionConflict "event_id" (fieldOf id))
      else
        match existingIdempotencyKeys !! key with
        | Some existing =>
            if negb (bool_decide (existing = id)) then
              Some (validationError ErrRevisionConflict "idempotency_key" (fieldOf key))
            else freshLoop existingEventIDs existingIdempotencyKeys rest
        | None => freshLoop existingEventIDs existingIdempotencyKeys rest
        end
  end.

Definition validateContinuationLocked (r : MemoryRepository) (es : list Entry) : option error :=
  match es with
  | [] => None
  | first :: _ =>
      let '(existingEventIDs, existingIdempotencyKeys, existing) :=
        foldl (λ '(ids, keys, existing) entry,
                 ({[EventID (Event entry)]} ∪ ids,
                  <[IdempotencyKey (Event entry) := EventID (Event entry)]> keys,
                  if decide (Aggregate entry = Aggregate first)
                  then existing ++ [Entry_Clone entry] else existing))
          (∅ : gset text, ∅ : gmap text text, []) r in
      match freshLoop existingEventIDs existingIdempotencyKeys es with
      | Some e => Some e
      | None =>
          match
            match existing with
            | [] => Ok 0
            | _ => match NewHistory existing with Fail e => Fail e | Ok h => Ok (HeadRevision h) end
            end
          with
          | Fail e => Some e
          | Ok hd =>
              match if negb (hd =? 0) then Next hd else Ok InitialRevision with
              | Fail e => Some e
              | Ok want =>
                  if negb (en_Revision first =? want) then
                    Some (validationError ErrRevisionConflict "revision" (FInt (en_Revision first)))
                  else None
              end
          end
      end
  end.

(** The copying loop of [Append] from index [i]. *)
Fixpoint cloneLoop (i : Z) (es : list Entry) : result (list Entry) :=
  match es with
  | [] => Ok []
  | entry :: rest =>
      let clone := Entry_Clone entry in
      match Entry_Validate clone with
      | Some e => Fail (validationCause ErrInvalidEntry "entries" (FInt i) e)
      | None =>
          match cloneLoop (i + 1) rest with
          | Fail e => Fail e
          | Ok clones => Ok (clone :: clones)
          end
      end
  end.

Section operations.
Context {W : Type}.

Definition checkContext (ctx : Context W) : Call W (option error) := ctx_Err ctx.

(** [Append]: the repository afterwards and the error. *)
Definition Append (ctx : option (Context W)) (r : MemoryRepository) (es : list Entry) :
    Call W (MemoryRepository * option error) :=
  let ctx := orBackground ctx in
  err ← checkContext ctx;
  match err with
  | Some e => mret (r, Some e)
  | None =>
      match es with
      | [] => mret (r, None)
      | _ =>
          match cloneLoop 0 es with
          | Fail e => mret (r, Some e)
          | Ok clones =>
              match validateAppendBatch clones with
              | Some e => mret (r, Some e)
              | None =>
                  err ← checkContext ctx;
                  match err with
                  | Some e => mret (r, Some e)
                  | None =>
                      match validateContinuationLocked r clones with
                      | Some e => mret (r, Some e)
                      | None => mret (foldl (λ r entry, r ++ [Entry_Clone entry]) r clones, None)
                      end
                  end
              end
          end
      end
  end.

Definition Find (ctx : option (Context W)) (r : MemoryRepository) (query : Query) :
    Call W (result (list Entry)) :=
  let ctx := orBackground ctx in
  err ← checkContext ctx;
  match err with
  | Some e => mret (Fail e)
  | None =>
      match Query_Validate query with
      | Fail e => mret (Fail e)
      | Ok normalized =>
          err ← checkContext ctx;
          match err with
          | Some e => mret (Fail e)
          | None =>
              let matched :=
                foldl (λ matched entry,
                         if negb (matchesQuery entry normalized) then matched
                         else matched ++ [Entry_Clone entry]) [] r in
              let matched := if NewestFirst normalized then reverseEntries matched else matched in
              mret (Ok (if (0 <? Limit normalized) && (Limit normalized <? Z.of_nat (length matched))
                        then take (Z.to_nat (Limit normalized)) matched else matched))
          end
      end
  end.

Definition aggregateQuery (a : AggregateID) (newestFirst : bool) (limit : Z) : Query :=
  mkQuery (Some a) [] 0 0 0 0 newestFirst limit.

(** The results [(T, bool, error)] as an option in a result. *)
Definition LoadHistory (ctx : option (Context W)) (r : MemoryRepository) (a : AggregateID) :
    Call W (result (option History)) :=
  match AggregateID_Validate a with
  | Some e => mret (Fail (validationCause ErrInvalidQuery "aggregate" (fieldOf a) e))
  | None =>
      found ← Find ctx r (aggregateQuery a false 0);
      match found with
      | Fail e => mret (Fail e)
      | Ok [] => mret (Ok None)
      | Ok es => match NewHistory es with
                 | Fail e => mret (Fail e)
                 | Ok history => mret (Ok (Some history))
                 end
      end
  end.

Definition Latest (ctx : option (Context W)) (r : MemoryRepository) (a : AggregateID) :
    Call W (result (option Entry)) :=
  match AggregateID_Validate a with
  | Some e => mret (Fail (validationCause ErrInvalidQuery "aggregate" (fieldOf a) e))
  | None =>
      found ← Find ctx r (aggregateQuery a true 1);
      match found with
      | Fail e => mret (Fail e)
      | Ok [] => mret (Ok None)
      | Ok (entry :: _) => mret (Ok (Some entry))
      end
  end.

(** The loop of [findSnapshot]. *)
Fixpoint snapshotLoop (before : Revision) (es : list Entry) : option Entry :=
  match es with
  | [] => None
  | entry :: rest =>
      if negb (before =? 0) && (before <=? en_Revision entry) then snapshotLoop before rest
      else match Snapshot entry with
           | Some _ => Some entry
           | None => snapshotLoop before rest
           end
  end.

Definition findSnapshot (ctx : option (Context W)) (r : MemoryRepository) (a : AggregateID)
    (before : Revision) : Call W (result (option Entry)) :=
  match AggregateID_Validate a with
  | Some e => mret (Fail (validationCause ErrInvalidQuery "aggregate" (fieldOf a) e))
  | None =>
      found ← Find ctx r (aggregateQuery a true 0);
      match found with
      | Fail e => mret (Fail e)
      | Ok es => mret (Ok (snapshotLoop before es))
      end
  end.

Definition LatestSnapshot (ctx : option (Context W)) (r : MemoryRepository) (a : AggregateID) :
    Call W (result (option Entry)) := findSnapshot ctx r a 0.

Definition PreviousSnapshot (ctx : option (Context W)) (r : MemoryRepository) (a : AggregateID)
    (before : Revision) : Call W (result (option Entry)) :=
  match Revision_Validate before with
  | Some e => mret (Fail (validationCause ErrInvalidQuery "before" (FInt before) e))
  | None => findSnapshot ctx r a before
  end.
End operations.

(** ** The recorder *)

Record EventRecord : Type := mkEventRecord {
  rec_EventID : text;
  rec_EventType : text;
  rec_OccurredAt : Time;
  rec_IdempotencyKey : text;
  rec_Metadata : Metadata;
  rec_Payload : bytes
}.

Record AggregateRecorder : Type := mkRecorder {
  rec_aggregate : AggregateID;
  rec_head : Revision;
  pending : list DomainEvent
}.

Definition NewAggregateRecorderFromHead (a : AggregateID) (hd : Revision) : result AggregateRecorder :=
  match AggregateID_Validate a with
  | Some e => Fail e
  | None =>
      match if negb (hd =? 0) then Revision_Validate hd else None with
      | Some e => Fail e
      | None => Ok (mkRecorder a hd [])
      end
  end.

Definition NewAggregateRecorder (a : AggregateID) : result AggregateRecorder :=
  NewAggregateRecorderFromHead a 0.

(** [Record]; [now] is what [time.Now] answers.  A nil recorder is [None]. *)
Definition Record_ (r : option AggregateRecorder) (record : EventRecord) (now : Time) :
    option AggregateRecorder * result DomainEvent :=
  match r with
  | None => (None, Fail (validationError ErrInvalidEvent "recorder" zeroField))
  | Some rr =>
  let eventID := TrimSpace (rec_EventID record) in
  let eventType := TrimSpace (rec_EventType record) in
  let idempotencyKey := TrimSpace (rec_IdempotencyKey record) in
  let metadata := Metadata_Clone (rec_Metadata record) in
  match normalizePayload "payload" (rec_Payload record) ErrInvalidEvent with
  | Fail e => (r, Fail e)
  | Ok payload =>
  if decide (eventID = []) then
    (r, Fail (validationError ErrInvalidEvent "event_id" (fieldOf (rec_EventID record))))
  else if decide (eventType = []) then
    (r, Fail (validationError ErrInvalidEvent "event_type" (fieldOf (rec_EventType record))))
  else if Time_IsZero (rec_OccurredAt record) then
    (r, Fail (validationError ErrInvalidEvent "occurred_at" (FInt (rec_OccurredAt record))))
  else if decide (idempotencyKey = []) then
    (r, Fail (validationError ErrInvalidEvent "idempotency_key" (fieldOf (rec_IdempotencyKey record))))
  else match validateMetadata ErrInvalidEvent "metadata" metadata with
  | Some e => (r, Fail (validationCause ErrInvalidEvent "metadata" (fieldOf metadata) e))
  | None =>
  match if negb (rec_head rr =? 0) then Next (rec_head rr) else Ok InitialRevision with
  | Fail e => (r, Fail e)
  | Ok next =>
  match NewDomainEvent (mkEventOptions eventID eventType (rec_aggregate rr) next
          (rec_OccurredAt record) now idempotencyKey metadata payload) with
  | Fail e => (r, Fail e)
  | Ok event =>
      (Some (mkRecorder (rec_aggregate rr) next (pending rr ++ [DomainEvent_Clone event])),
       Ok (DomainEvent_Clone event))
  end end end end end.

Definition PendingEvents (r : option AggregateRecorder) : list DomainEvent :=
  match r with
  | None => []
  | Some rr => map DomainEvent_Clone (pending rr)
  end.

(** The loop that counts the acknowledged events. *)
Fixpoint keepLoop (revision : Revision) (events : list DomainEvent) : nat :=
  match events with
  | [] => 0
  | e :: rest => if ev_Revision e <=? revision then S (keepLoop revision rest) else 0
  end.

Definition AckThrough (r : option AggregateRecorder) (revision : Revision) :
    option AggregateRecorder * option error :=
  match r with
  | None => (None, Some (validationError ErrInvalidRevision "recorder" zeroField))
  | Some rr =>
      match Revision_Validate revision with
      | Some e => (r, Some e)
      | None =>
          if rec_head rr <? revision then
            (r, Some (validationError ErrInvalidRevision "revision" (FInt revision)))
          else
            let keep := keepLoop revision (pending rr) in
            if (keep =? 0)%nat then (r, None)
            else (Some (mkRecorder (rec_aggregate rr) (rec_head rr) (drop keep (pending rr))), None)
      end
  end.

Definition Recorder_HeadRevision (r : option AggregateRecorder) : Revision :=
  match r with None => 0 | Some rr => rec_head rr end.
End audit.
