(* ===== verification/AuditLaws.v ===== *)
(** * audit: the theorems

    The invariant of the memory repository, exact acceptance of [Append], the
    results of the queries, and the recorder together with the repository. *)

From S2P Require Import Prelude GoError GoText AuditRepo.

Local Open Scope Z_scope.

(** ** Copies are equal to the original *)

Lemma Metadata_Clone_id m : Metadata_Clone m = m.
Proof.
  unfold Metadata_Clone. case_decide as Hs; [by apply map_size_empty_iff in Hs|].
  apply (map_fold_weak_ind (λ c m, c = m)); [done|]. by intros i x m' c Hm ->.
Qed.

Lemma cloneRawMessage_id p : cloneRawMessage p = p.
Proof. destruct p as [|b p]; [done|]. simpl. f_equal. induction p; simpl; by f_equal. Qed.

Lemma DomainEvent_Clone_id e : DomainEvent_Clone e = e.
Proof.
  destruct e. unfold DomainEvent_Clone. simpl. by rewrite Metadata_Clone_id, cloneRawMessage_id.
Qed.

Lemma Entry_Clone_id e : Entry_Clone e = e.
Proof.
  destruct e as [v a r au ev s c]. unfold Entry_Clone. simpl. rewrite DomainEvent_Clone_id.
  f_equal; [destruct s as [[]|]|destruct c as [[fs ? ?]|]]; try done; f_equal.
  - unfold Snapshot_Clone. simpl. by rewrite cloneRawMessage_id.
  - unfold Change_Clone. simpl. rewrite Metadata_Clone_id. f_equal.
    case_decide as Hl; [done|]. by destruct fs; [|simpl in Hl; lia].
Qed.

Lemma map_Entry_Clone es : map Entry_Clone es = es.
Proof. induction es as [|e es IH]; simpl; [done|]. by rewrite Entry_Clone_id, IH. Qed.

(** ** [reverseEntries] *)

Lemma reverseLoop_middle (l m r : list Entry) fuel :
  (length m ≤ fuel)%nat →
  reverseLoop (l ++ m ++ r) (length l) (length l + length m - 1) fuel = l ++ reverse m ++ r.
Proof.
  revert l m r. induction fuel as [|fuel IH]; intros l m r Hf.
  { destruct m; simpl in *; [done|lia]. }
  simpl. destruct (Nat.ltb_spec (length l) (length l + length m - 1)) as [Hlt|Hge].
  - destruct m as [|a m]; simpl in *; [lia|].
    destruct m as [|b' m' _] using rev_ind; simpl in *; [lia|].
    rewrite length_app in *. simpl in *.
    rewrite lookup_app_r, Nat.sub_diag by lia. simpl.
    rewrite lookup_app_r by lia.
    replace (length l + S (length m' + 1) - 1 - length l)%nat with (S (length m')) by lia. simpl.
    rewrite <-(assoc_L app). simpl. rewrite lookup_app_r, Nat.sub_diag by lia. simpl.
    rewrite insert_app_r_alt, Nat.sub_diag by lia. simpl.
    rewrite insert_app_r_alt by lia.
    replace (length l + S (length m' + 1) - 1 - length l)%nat with (S (length m')) by lia. simpl.
    rewrite list_insert_middle by done.
    specialize (IH (l ++ [b']) m' (a :: r)). rewrite length_app in IH. simpl in IH.
    rewrite <-!(assoc_L app) in IH. simpl in IH.
    replace (S (length l)) with (length l + 1)%nat by lia.
    replace (length l + S (length m' + 1) - 1 - 1)%nat with (length l + 1 + length m' - 1)%nat by lia.
    rewrite IH by lia. rewrite reverse_cons, reverse_app. simpl. by rewrite <-!(assoc_L app).
  - destruct m as [|a [|b m]]; simpl in *; [done|done|lia].
Qed.

Lemma reverseEntries_reverse es : reverseEntries es = reverse es.
Proof.
  unfold reverseEntries. pose proof (reverseLoop_middle [] es [] (length es) (le_n _)) as H.
  simpl in H. by rewrite !app_nil_r in H.
Qed.

(** ** What the loops check *)

Section laws.
Context (json_Valid : bytes → bool).
Notation valid e := (Entry_Validate json_Valid e = None).
Notation id e := (EventID (Event e)).
Notation key e := (IdempotencyKey (Event e)).
Implicit Types (e : Entry) (es : list Entry) (r : MemoryRepository) (a : AggregateID).

(** The type of [Revision]. *)
Definition typedEntry e : Prop := in_u64 (en_Revision e).

Lemma valid_facts e :
  valid e →
  AggregateID_Validate (Aggregate e) = None ∧ en_Revision e ≠ 0 ∧ ev_Revision (Event e) = en_Revision e ∧
  DomainEvent_Validate json_Valid (Event e) = None.
Proof.
  unfold Entry_Validate, Revision_Validate. intros H.
  repeat (case_match; try done); bools; split_and!; try done; by bools.
Qed.

(** Fresh event identifiers and idempotency keys along a list. *)
Fixpoint uniq (ids : gset text) (keys : gmap text text) es : Prop :=
  match es with
  | [] => True
  | e :: rest => id e ∉ ids ∧ keys !! key e = None ∧ uniq ({[id e]} ∪ ids) (<[key e := id e]> keys) rest
  end.

(** Every recorded key belongs to a recorded identifier. *)
Definition keysOf (keys : gmap text text) (ids : gset text) : Prop :=
  ∀ k i, keys !! k = Some i → i ∈ ids.

Lemma keysOf_insert keys ids k i : keysOf keys ids → keysOf (<[k := i]> keys) ({[i]} ∪ ids).
Proof. intros H k' i' [[_ <-]|[_ Hk]]%lookup_insert_Some; [set_solver|]. apply H in Hk. set_solver. Qed.

Lemma keysOf_empty : keysOf ∅ ∅.
Proof. intros k i. by rewrite lookup_empty. Qed.

Lemma uniq_iff ids keys es :
  uniq ids keys es ↔
  NoDup ((λ e, id e) <$> es) ∧ NoDup ((λ e, key e) <$> es) ∧
  Forall (λ e, id e ∉ ids ∧ keys !! key e = None) es.
Proof.
  revert ids keys. induction es as [|e es IH]; intros ids keys; simpl; [by repeat split; try constructor|].
  rewrite IH, !NoDup_cons, !list_elem_of_fmap, Forall_cons, !Forall_forall. split.
  - intros (Hi & Hk & Hnd & Hnd' & Hall). split_and!; try done.
    + intros (e' & Heq & He'). apply Hall in He' as [He' _]. set_solver.
    + intros (e' & Heq & He'). apply Hall in He' as [_ He']. rewrite <-Heq, lookup_insert_eq in He'. done.
    + intros e' He'. destruct (Hall e' He') as [? Hx]. split; [set_solver|].
      apply lookup_insert_None in Hx. tauto.
  - intros ([Hi Hnd] & [Hk Hnd'] & (Hf & Hf') & Hall). split_and!; try done. intros e' He'. split.
    + apply not_elem_of_union. split; [|by apply Hall].
      rewrite elem_of_singleton. intros Heq. apply Hi. eauto.
    + apply lookup_insert_None. split; [by apply Hall|]. intros Heq. apply Hk. eauto.
Qed.

(** The common tail of the loops: the check of the idempotency key. *)
Lemma key_check keys ids e (err : error) (again : option error) :
  keysOf keys ids → id e ∉ ids →
  match keys !! key e with
  | Some existing => if negb (bool_decide (existing = id e)) then Some err else again
  | None => again
  end = None ↔ keys !! key e = None ∧ again = None.
Proof.
  intros HK Hi. destruct (keys !! key e) as [x|] eqn:E; [|tauto].
  rewrite bool_decide_eq_false_2; [by split; [done|intros [? _]]|]. intros ->. apply Hi. by eapply HK.
Qed.

Lemma revisions_cons n e es :
  en_Revision <$> e :: es = seqZ n (Z.of_nat (length (e :: es))) ↔
  en_Revision e = n ∧ en_Revision <$> es = seqZ (n + 1) (Z.of_nat (length es)).
Proof.
  rewrite fmap_cons. cbn [length]. rewrite seqZ_cons by lia.
  replace (Z.pred (Z.of_nat (S (length es)))) with (Z.of_nat (length es)) by lia.
  rewrite <-Z.add_1_r. split; [by intros [= -> ->]|by intros [-> ->]].
Qed.

Lemma historyLoop_spec a i es ids keys :
  keysOf keys ids →
  historyLoop json_Valid a i es ids keys = None ↔
  Forall (λ e, valid e) es ∧ Forall (λ e, Aggregate e = a) es ∧
  en_Revision <$> es = seqZ (i + 1) (Z.of_nat (length es)) ∧ uniq ids keys es.
Proof.
  revert i ids keys. induction es as [|e es IH]; intros i ids keys HK; simpl historyLoop; [done|].
  rewrite revisions_cons, !Forall_cons. cbn [uniq].
  destruct (Entry_Validate json_Valid e) eqn:Ev; [naive_solver|].
  destruct (valid_facts _ Ev) as (_ & _ & Hrev & _). rewrite Hrev, Z.eqb_refl, orb_false_r.
  destruct (bool_decide (Aggregate e = a)) eqn:Ea; simpl; [|apply bool_decide_eq_false in Ea; naive_solver].
  apply bool_decide_eq_true in Ea. destruct (en_Revision e =? i + 1) eqn:Er; bools; simpl; [|naive_solver].
  case_decide as Hi; [naive_solver|].
  rewrite (key_check keys ids) by done. rewrite IH by by apply keysOf_insert. naive_solver.
Qed.

Lemma batchLoop_spec a prev es ids keys :
  keysOf keys ids → Forall typedEntry es → Forall (λ e, valid e) es →
  (∀ p, prev = Some p → typedEntry p) →
  batchLoop a prev es ids keys = None ↔
  Forall (λ e, Aggregate e = a) es ∧
  match prev with
  | Some p => en_Revision <$> es = seqZ (en_Revision p + 1) (Z.of_nat (length es))
  | None => ∀ e, list.head es = Some e → en_Revision <$> es = seqZ (en_Revision e) (Z.of_nat (length es))
  end ∧ uniq ids keys es.
Proof.
  revert prev ids keys. induction es as [|e es IH]; intros prev ids keys HK Ht Hv Hp; simpl batchLoop.
  { split; [|done]. intros _. split; [constructor|]. split; [|done]. by destruct prev. }
  apply Forall_cons in Ht as [Hte Ht], Hv as [Hve Hv]. rewrite !Forall_cons. cbn [uniq].
  destruct (valid_facts _ Hve) as (_ & Hr0 & _ & _).
  destruct (bool_decide (Aggregate e = a)) eqn:Ea; cbn [negb]; [|apply bool_decide_eq_false in Ea; naive_solver].
  apply bool_decide_eq_true in Ea.
  assert (match prev with Some p => negb (en_Revision e =? wrap_u64 (en_Revision p + 1)) | None => false end
          = false ↔ match prev with Some p => en_Revision e = en_Revision p + 1 | None => True end) as Hw.
  { destruct prev as [p|]; [|done]. rewrite negb_false_iff, Z.eqb_eq.
    specialize (Hp p eq_refl). unfold typedEntry, in_u64 in *.
    destruct (decide (en_Revision p + 1 = 2 ^ 64)) as [E|E].
    - rewrite E. change (wrap_u64 (2 ^ 64)) with 0. lia.
    - rewrite wrap_u64_id by (unfold in_u64; lia). done. }
  destruct (match prev with Some p => negb _ | None => false end) eqn:Ep.
  { destruct prev as [p|]; [|done]. split; [done|]. rewrite revisions_cons. intros (_ & [Hc _] & _).
    apply Hw in Hc. congruence. }
  pose proof (proj1 Hw eq_refl) as Hc. clear Hw.
  case_decide as Hi; [naive_solver|].
  rewrite (key_check keys ids) by done.
  rewrite IH; [|by apply keysOf_insert|done|done|by intros p [= <-]].
  destruct prev as [p|].
  - rewrite revisions_cons. rewrite <-Hc. naive_solver.
  - cbn [list.head]. split.
    + intros (? & ? & Hrest & ?). split_and!; try done. intros e' [= <-]. by rewrite revisions_cons.
    + intros (? & Hrest & ?). specialize (Hrest e eq_refl). rewrite revisions_cons in Hrest. naive_solver.
Qed.

Lemma freshLoop_spec ids keys es :
  keysOf keys ids →
  freshLoop ids keys es = None ↔ Forall (λ e, id e ∉ ids ∧ keys !! key e = None) es.
Proof.
  intros HK. induction es as [|e es IH]; simpl; [done|]. rewrite Forall_cons.
  case_decide as Hi; [naive_solver|]. rewrite (key_check keys ids) by done. rewrite IH. naive_solver.
Qed.

Lemma cloneLoop_spec i es :
  (Forall (λ e, valid e) es ∧ cloneLoop json_Valid i es = Ok es) ∨
  (¬ Forall (λ e, valid e) es ∧ ∃ err, cloneLoop json_Valid i es = Fail err).
Proof.
  revert i. induction es as [|e es IH]; intros i; simpl; [by left|]. rewrite Entry_Clone_id, Forall_cons.
  destruct (Entry_Validate json_Valid e) eqn:Ev; [right; naive_solver|].
  destruct (IH (i + 1)) as [[Hv ->]|[Hv [err ->]]]; [left; naive_solver|right; naive_solver].
Qed.

(** ** The invariant of the repository *)

Definition ofAggregate a es : list Entry := filter (λ e, Aggregate e = a) es.

(** Every entry is valid, the revisions of an aggregate are 1, 2, 3, ... in the
    order of the entries, no event identifier and no idempotency key occurs
    twice. *)
Record repoInv r : Prop := {
  inv_valid : Forall (λ e, valid e) r;
  inv_revisions a :
    en_Revision <$> ofAggregate a r = seqZ 1 (Z.of_nat (length (ofAggregate a r)));
  inv_ids : NoDup ((λ e, id e) <$> r);
  inv_keys : NoDup ((λ e, key e) <$> r)
}.

Lemma ofAggregate_app a es es' : ofAggregate a (es ++ es') = ofAggregate a es ++ ofAggregate a es'.
Proof. apply filter_app. Qed.

Lemma ofAggregate_all a es : Forall (λ e, Aggregate e = a) es → ofAggregate a es = es.
Proof.
  unfold ofAggregate. induction 1 as [|e es He Hes IH]; [done|]. by rewrite filter_cons_True, IH.
Qed.

Lemma ofAggregate_none a b es : Forall (λ e, Aggregate e = a) es → a ≠ b → ofAggregate b es = [].
Proof.
  unfold ofAggregate. intros Hes Hne. induction Hes as [|e es He Hes IH]; [done|].
  by rewrite filter_cons_False by congruence.
Qed.

Lemma ofAggregate_Forall a es : Forall (λ e, Aggregate e = a) (ofAggregate a es).
Proof. apply Forall_forall. intros e He%list_elem_of_filter. tauto. Qed.

Lemma sublist_ofAggregate a es : sublist (ofAggregate a es) es.
Proof. apply sublist_filter. Qed.

(** Sorting entries whose revisions already increase changes nothing. *)
Lemma revisions_sorted n es :
  en_Revision <$> es = seqZ n (Z.of_nat (length es)) → merge_sort revision_le es = es.
Proof.
  intros Hrev.
  assert (∀ i e, es !! i = Some e → en_Revision e = n + Z.of_nat i) as Hi.
  { intros i e He. assert ((en_Revision <$> es) !! i = Some (en_Revision e)) as Hf
      by by rewrite list_lookup_fmap, He.
    rewrite Hrev in Hf. apply lookup_seqZ in Hf. lia. }
  assert (StronglySorted revision_le es) as Hs.
  { clear -Hi. revert n Hi. induction es as [|e es IH]; intros n Hi; constructor.
    - apply (IH (n + 1)). intros i e' He'. rewrite (Hi (S i) e') by done. lia.
    - apply Forall_forall. intros e' [i He']%list_elem_of_lookup. unfold revision_le.
      rewrite (Hi 0%nat e), (Hi (S i) e') by done. lia. }
  assert (Transitive revision_le) by (intros ???; unfold revision_le; lia).
  assert (Total revision_le) by (intros ??; unfold revision_le; lia).
  eapply (StronglySorted_unique_strong revision_le); [| |done|apply merge_sort_Permutation].
  - intros e1 e2 H1 H2 H12 H21. rewrite merge_sort_Permutation in H1.
    apply list_elem_of_lookup in H1 as [i1 H1], H2 as [i2 H2].
    unfold revision_le in *. rewrite (Hi _ _ H1), (Hi _ _ H2) in *.
    assert (i1 = i2) as -> by lia. congruence.
  - apply StronglySorted_merge_sort; apply _.
Qed.

(** [NewHistory] accepts exactly the histories of one aggregate; this is the
    direction the repository needs. *)
Lemma NewHistory_ok a es :
  es ≠ [] → Forall (λ e, valid e) es → Forall (λ e, Aggregate e = a) es →
  en_Revision <$> es = seqZ 1 (Z.of_nat (length es)) →
  NoDup ((λ e, id e) <$> es) → NoDup ((λ e, key e) <$> es) →
  NewHistory json_Valid es = Ok (mkHistory a es (Z.of_nat (length es))).
Proof.
  intros Hne Hv Ha Hrev Hids Hkeys. unfold NewHistory.
  rewrite map_Entry_Clone, (revisions_sorted 1) by done.
  destruct es as [|e es]; [done|]. destruct (last (e :: es)) as [l|] eqn:El; [|by apply last_None in El].
  pose proof Ha as [Hae _]%Forall_cons. pose proof Hv as [Hve _]%Forall_cons.
  destruct (valid_facts _ Hve) as (Hagg & _). rewrite Hagg.
  rewrite Hae. rewrite (proj2 (historyLoop_spec a 0 (e :: es) ∅ ∅ keysOf_empty)).
  - do 2 f_equal. rewrite last_lookup in El.
    assert ((en_Revision <$> e :: es) !! pred (length (e :: es)) = Some (en_Revision l)) as Hl.
    { by rewrite list_lookup_fmap, El. }
    rewrite Hrev in Hl. apply lookup_seqZ in Hl. simpl length in *. lia.
  - split_and!; try done. apply uniq_iff. split_and!; try done.
    apply Forall_true. intros e'. rewrite lookup_empty. set_solver.
Qed.

Lemma inv_history r a :
  repoInv r → ofAggregate a r ≠ [] →
  NewHistory json_Valid (ofAggregate a r) =
    Ok (mkHistory a (ofAggregate a r) (Z.of_nat (length (ofAggregate a r)))).
Proof.
  intros [Hv Hrev Hids Hkeys] Hne.
  pose proof (sublist_ofAggregate a r) as Hsub. apply NewHistory_ok; try done.
  - apply Forall_forall. intros e [_ He]%list_elem_of_filter. by eapply Forall_forall in Hv.
  - apply ofAggregate_Forall.
  - eapply sublist_NoDup; [exact Hids|]. by apply fmap_sublist.
  - eapply sublist_NoDup; [exact Hkeys|]. by apply fmap_sublist.
Qed.

(** ** Appending *)

(** The batches [Append] accepts: valid entries of one aggregate that continue
    its revisions, with fresh identifiers and keys. *)
Definition accepted r es : Prop :=
  ∃ a, Forall (λ e, valid e) es ∧ Forall (λ e, Aggregate e = a) es ∧
    en_Revision <$> es = seqZ (Z.of_nat (length (ofAggregate a r)) + 1) (Z.of_nat (length es)) ∧
    NoDup ((λ e, id e) <$> r ++ es) ∧ NoDup ((λ e, key e) <$> r ++ es).

(** The scan of [validateContinuationLocked]. *)
Lemma scan_spec a r ids0 keys0 ex0 :
  keysOf keys0 ids0 →
  ∃ ids keys,
    foldl (λ '(ids, keys, existing) entry,
             ({[id entry]} ∪ ids, <[key entry := id entry]> keys,
              if decide (Aggregate entry = a) then existing ++ [Entry_Clone entry] else existing))
      (ids0, keys0, ex0) r = (ids, keys, ex0 ++ ofAggregate a r) ∧
    keysOf keys ids ∧
    (∀ i, i ∈ ids ↔ i ∈ ids0 ∨ i ∈ (λ e, id e) <$> r) ∧
    (∀ k, keys !! k = None ↔ keys0 !! k = None ∧ k ∉ (λ e, key e) <$> r).
Proof.
  revert ids0 keys0 ex0. induction r as [|e r IH]; intros ids0 keys0 ex0 HK; simpl.
  { exists ids0, keys0. rewrite app_nil_r. split_and!; try done; set_solver. }
  destruct (IH ({[id e]} ∪ ids0) (<[key e := id e]> keys0)
              (if decide (Aggregate e = a) then ex0 ++ [Entry_Clone e] else ex0))
    as (ids & keys & Hf & HK' & Hi & Hk); [by apply keysOf_insert|].
  exists ids, keys. rewrite Hf. split_and!; [|done|..].
  - unfold ofAggregate. rewrite filter_cons, Entry_Clone_id. case_decide; [|done].
    by rewrite <-(assoc_L app).
  - intros i. rewrite Hi. set_solver.
  - intros k. rewrite Hk, lookup_insert_None. set_solver.
Qed.

Lemma continuation_spec r a e es :
  repoInv r → typedEntry e → Aggregate e = a →
  validateContinuationLocked json_Valid r (e :: es) = None ↔
  en_Revision e = Z.of_nat (length (ofAggregate a r)) + 1 ∧
  Forall (λ e', id e' ∉ (λ e, id e) <$> r ∧ key e' ∉ (λ e, key e) <$> r) (e :: es).
Proof.
  intros Hinv Ht Ha. unfold validateContinuationLocked. rewrite Ha.
  destruct (scan_spec a r ∅ ∅ [] keysOf_empty) as (ids & keys & -> & HK & Hi & Hk). simpl app.
  assert (freshLoop ids keys (e :: es) = None ↔
    Forall (λ e', id e' ∉ (λ e, id e) <$> r ∧ key e' ∉ (λ e, key e) <$> r) (e :: es)) as <-.
  { rewrite freshLoop_spec by done. apply Forall_iff. intros e'. rewrite Hi, Hk, lookup_empty. set_solver. }
  destruct (freshLoop ids keys (e :: es)); [naive_solver|].
  set (n := Z.of_nat (length (ofAggregate a r))).
  assert (match ofAggregate a r with
          | [] => Ok 0
          | _ => match NewHistory json_Valid (ofAggregate a r) with
                 | Fail e => Fail e
                 | Ok h => Ok (HeadRevision h)
                 end
          end = Ok n) as ->.
  { destruct (ofAggregate a r) as [|e0 l] eqn:E; [done|]. rewrite <-E.
    rewrite (inv_history r a Hinv) by by rewrite E. unfold n. by rewrite E. }
  unfold typedEntry, in_u64, Next, Revision_Validate, maxUint64, InitialRevision in *.
  destruct (n =? 0) eqn:En; cbn [negb]; bools.
  - destruct (en_Revision e =? 1) eqn:Er; bools; simpl.
    all: first [split; [split; [lia|done]|done]|split; [done|intros [? _]; lia]].
  - rewrite ?(proj2 (Z.eqb_neq n 0)) by done.
    destruct (n =? 2 ^ 64 - 1) eqn:Em; bools.
    + split; [done|]. intros [? _]. lia.
    + destruct (en_Revision e =? n + 1) eqn:Er; bools; simpl.
    all: first [split; [split; [lia|done]|done]|split; [done|intros [? _]; lia]].
Qed.

Lemma NoDup_fmap_app {B} (f : Entry → B) r es :
  NoDup (f <$> r ++ es) ↔
  NoDup (f <$> r) ∧ NoDup (f <$> es) ∧ Forall (λ e, f e ∉ f <$> r) es.
Proof.
  rewrite fmap_app, NoDup_app, Forall_forall. split.
  - intros (? & Hd & ?). split_and!; try done. intros e He Hin. eapply Hd; [done|].
    by apply list_elem_of_fmap_2.
  - intros (? & ? & Hd). split_and!; try done. intros x Hr (e & -> & He)%list_elem_of_fmap.
    by eapply Hd.
Qed.

Lemma append_checks r es :
  repoInv r → es ≠ [] → Forall typedEntry es → Forall (λ e, valid e) es →
  validateAppendBatch es = None ∧ validateContinuationLocked json_Valid r es = None ↔ accepted r es.
Proof.
  intros Hinv Hne Ht Hv. destruct es as [|e es]; [done|]. unfold validateAppendBatch.
  rewrite batchLoop_spec; [|apply keysOf_empty|done|done|done]. cbn [list.head].
  pose proof Ht as [Hte _]%Forall_cons. rewrite (continuation_spec r (Aggregate e)) by done.
  rewrite uniq_iff. unfold accepted. split.
  - intros ((Ha & Hrev & Hid & Hkey & _) & Hn & Hfresh). exists (Aggregate e). split_and!; try done.
    + rewrite <-Hn. by apply Hrev.
    + apply NoDup_fmap_app. split_and!; [apply Hinv|done|]. eapply Forall_impl; [exact Hfresh|by intros ? []].
    + apply NoDup_fmap_app. split_and!; [apply Hinv|done|]. eapply Forall_impl; [exact Hfresh|by intros ? []].
  - intros (a & _ & Ha & Hrev & Hid & Hkey). pose proof Ha as [Hae _]%Forall_cons. rewrite Hae.
    apply NoDup_fmap_app in Hid as (_ & Hid & Hid'), Hkey as (_ & Hkey & Hkey').
    pose proof Hrev as Hrev'. apply revisions_cons in Hrev' as [Hr _]. split_and!; try done.
    + intros e' [= <-]. by rewrite Hr.
    + apply Forall_true. intros e'. rewrite lookup_empty. set_solver.
    + rewrite Forall_forall in Hid', Hkey'. apply Forall_forall. auto.
Qed.

Lemma accepted_inv r es : repoInv r → accepted r es → repoInv (r ++ es).
Proof.
  intros Hinv (a & Hv & Ha & Hrev & Hid & Hkey). split; try done.
  - apply Forall_app. split; [apply Hinv|done].
  - intros b. rewrite ofAggregate_app. destruct (decide (a = b)) as [<-|Hne].
    + rewrite (ofAggregate_all a es), fmap_app, length_app, (inv_revisions r Hinv), Hrev by done.
      rewrite Nat2Z.inj_add, seqZ_app by lia. by rewrite Z.add_comm.
    + rewrite (ofAggregate_none a b es), app_nil_r by done. apply Hinv.
Qed.

Lemma foldl_clone_app r es : foldl (λ r e, r ++ [Entry_Clone e]) r es = r ++ es.
Proof.
  revert r. induction es as [|e es IH]; intros r; simpl; [by rewrite app_nil_r|].
  by rewrite IH, Entry_Clone_id, <-(assoc_L app).
Qed.

(** [Append] in terms of [accepted]: it is all or nothing, whatever the
    context does. *)
Lemma Append_cases {W} (ctx : option (Context W)) r es w :
  repoInv r → Forall typedEntry es →
  let '(r', err) := (Append json_Valid ctx r es w).1 in
  (err ≠ None ∧ r' = r) ∨ (err = None ∧ r' = r ++ es ∧ (es = [] ∨ accepted r es)).
Proof.
  intros Hinv Ht. unfold Append, mbind, call_bind, checkContext, mret, call_ret.
  destruct (ctx_Err _ w) as [[e|] w1]; cbv beta iota; cbn [fst]; [by left|].
  destruct es as [|e es]; [right; rewrite app_nil_r; by auto|].
  destruct (cloneLoop_spec 0 (e :: es)) as [[Hv Hc]|[_ [err Hc]]]; rewrite Hc; [|by left].
  destruct (validateAppendBatch (e :: es)) eqn:Eb; [by left|].
  destruct (ctx_Err _ w1) as [[e'|] w2]; cbv beta iota; cbn [fst]; [by left|].
  destruct (validateContinuationLocked json_Valid r (e :: es)) eqn:Ec; [by left|].
  right. split; [done|]. split; [apply foldl_clone_app|]. right. by apply append_checks.
Qed.

Lemma Append_accepts {W} r es (w : W) :
  repoInv r → Forall typedEntry es → accepted r es →
  Append json_Valid None r es w = ((r ++ es, None), w).
Proof.
  intros Hinv Ht Hacc. destruct es as [|e es]; [by rewrite app_nil_r|].
  unfold Append, mbind, call_bind, checkContext, mret, call_ret. simpl ctx_Err. cbv beta iota.
  pose proof Hacc as (a & Hv & _).
  destruct (cloneLoop_spec 0 (e :: es)) as [[_ ->]|[Hn _]]; [|done].
  apply append_checks in Hacc as [-> ->]; try done. by rewrite foldl_clone_app.
Qed.

(** ** Queries *)

Lemma foldl_filter_clone (test : Entry → bool) acc es :
  foldl (λ m e, if negb (test e) then m else m ++ [Entry_Clone e]) acc es =
  acc ++ filter (λ e, test e = true) es.
Proof.
  revert acc. induction es as [|e es IH]; intros acc; cbn [foldl]; [by rewrite app_nil_r|].
  rewrite IH, Entry_Clone_id. destruct (test e) eqn:E; cbn [negb].
  - rewrite filter_cons_True by done. by rewrite <-(assoc_L app).
  - by rewrite filter_cons_False by by rewrite E.
Qed.

Lemma matches_aggregate a newest limit e :
  matchesQuery e (aggregateQuery a newest limit) = true ↔ Aggregate e = a.
Proof.
  unfold matchesQuery, aggregateQuery. simpl. rewrite !andb_true_r, negb_involutive.
  apply bool_decide_eq_true.
Qed.

Lemma Query_Validate_aggregate a newest limit :
  AggregateID_Validate a = None → 0 ≤ limit →
  Query_Validate (aggregateQuery a newest limit) = Ok (aggregateQuery a newest limit).
Proof.
  intros Ha Hl. unfold Query_Validate, optional_Revision_Validate. cbn.
  by rewrite Ha, (proj2 (Z.ltb_ge limit 0)).
Qed.

Lemma Find_aggregate {W} (r : list Entry) a newest limit (w : W) :
  AggregateID_Validate a = None → limit = 0 ∨ limit = 1 →
  Find None r (aggregateQuery a newest limit) w =
    (Ok (let m := if newest then reverse (ofAggregate a r) else ofAggregate a r in
         if decide (limit = 1) then take 1 m else m), w).
Proof.
  intros Ha Hl. unfold Find, mbind, call_bind, checkContext, mret, call_ret. simpl ctx_Err.
  cbv beta iota. rewrite Query_Validate_aggregate by (done || lia).
  rewrite foldl_filter_clone. cbn [app].
  assert (filter (λ e, matchesQuery e (aggregateQuery a newest limit) = true) r = ofAggregate a r) as ->.
  { apply list_filter_iff. intros e. apply matches_aggregate. }
  rewrite reverseEntries_reverse. cbn [NewestFirst Limit aggregateQuery].
  set (m := if newest then reverse (ofAggregate a r) else ofAggregate a r).
  destruct Hl as [->| ->]; [done|]. rewrite decide_True by done. cbv zeta.
  destruct m as [|e [|e' m]]; [done..|].
  by rewrite (proj2 (Z.ltb_lt 1 (Z.of_nat (length (e :: e' :: m))))) by (simpl; lia).
Qed.

(** Appending, in any number of calls and with any contexts. *)
Inductive repo_step (W : Type) : MemoryRepository → MemoryRepository → Prop :=
| repo_append ctx r es (w : W) :
    Forall typedEntry es → repo_step W r (Append json_Valid ctx r es w).1.1.

Lemma repo_step_inv W r r' : repoInv r → repo_step W r r' → repoInv r'.
Proof.
  intros Hinv Hs. destruct Hs as [ctx r0 es w Ht]. pose proof (Append_cases ctx r0 es w Hinv Ht) as H.
  destruct (Append json_Valid ctx r0 es w) as [[r' err] w']. simpl in *.
  destruct H as [[_ ->]|(_ & -> & [->|Hacc])]; [done|by rewrite app_nil_r|by apply accepted_inv].
Qed.

Lemma repoInv_empty : repoInv [].
Proof. split; by try constructor. Qed.

Lemma reachable_inv W r : rtc (repo_step W) NewMemoryRepository r → repoInv r.
Proof.
  intros Hr. eapply (rtc_invariant (repo_step W) repoInv); [|exact Hr|apply repoInv_empty].
  apply repo_step_inv.
Qed.

(** The loop of [findSnapshot] on entries in decreasing order of revision. *)
Lemma snapshotLoop_spec before es n :
  reverse (en_Revision <$> es) = seqZ n (Z.of_nat (length es)) →
  match snapshotLoop before es with
  | Some e =>
      e ∈ es ∧ Snapshot e ≠ None ∧ (before = 0 ∨ en_Revision e < before) ∧
      ∀ e', e' ∈ es → Snapshot e' ≠ None → (before = 0 ∨ en_Revision e' < before) →
            en_Revision e' ≤ en_Revision e
  | None => ∀ e', e' ∈ es → Snapshot e' ≠ None → ¬ (before = 0 ∨ en_Revision e' < before)
  end.
Proof.
  induction es as [|e es IH]; intros Hrev; simpl; [set_solver|].
  rewrite fmap_cons, reverse_cons in Hrev. cbn [length] in Hrev.
  replace (Z.of_nat (S (length es))) with (Z.of_nat (length es) + 1) in Hrev by lia.
  rewrite seqZ_app in Hrev by lia. simpl in Hrev. apply app_inj_tail in Hrev as [Hrev He].
  specialize (IH Hrev).
  assert (∀ e', e' ∈ es → en_Revision e' < en_Revision e) as Hlt.
  { intros e' He'. assert (en_Revision e' ∈ seqZ n (Z.of_nat (length es))) as Hin.
    { rewrite <-Hrev. by apply elem_of_reverse, list_elem_of_fmap_2. }
    apply elem_of_seqZ in Hin. lia. }
  destruct (negb (before =? 0) && (before <=? en_Revision e)) eqn:Eb; bools.
  - destruct (snapshotLoop before es) as [e0|].
    + destruct IH as (H1 & H2 & H3 & H4). split_and!; try done; [by right|].
      intros e' [->|He']%elem_of_cons; [lia|auto].
    + intros e' [->|He']%elem_of_cons; [lia|auto].
  - assert (before = 0 ∨ en_Revision e < before) as Hb.
    { apply andb_false_iff in Eb as [Eb|Eb]; bools; [by left|right; lia]. }
    destruct (Snapshot e) as [sn|] eqn:Es.
    + split_and!; [by left|by rewrite Es|done|].
      intros e' [->|He']%elem_of_cons; [lia|]. intros _ _. apply Hlt in He'. lia.
    + destruct (snapshotLoop before es) as [e0|].
      * destruct IH as (H1 & H2 & H3 & H4). split_and!; try done; [by right|].
        intros e' [->|He']%elem_of_cons; [by rewrite Es|auto].
      * intros e' [->|He']%elem_of_cons; [by rewrite Es|auto].
Qed.
End laws.

(** ** audit: the properties

    The theorems on the memory repository and on the recorder, from the lemmas
    of [AuditLaws.v]. *)

Section theorems.
Context (json_Valid : bytes → bool).
Notation valid e := (Entry_Validate json_Valid e = None).
Notation id e := (EventID (Event e)).
Notation key e := (IdempotencyKey (Event e)).

(** C14. In every repository that can be reached by appending, with any
    contexts, every entry is valid, event identifiers and idempotency keys are
    unique, and the revisions of an aggregate are 1, 2, 3, ... without a gap;
    so loading a history never fails and returns all entries of the aggregate
    in order with their number as head revision, and the latest entry is the
    last of them. *)
Theorem repository_histories {W} r a (w : W) :
  rtc (repo_step json_Valid W) NewMemoryRepository r → AggregateID_Validate a = None →
  repoInv json_Valid r ∧
  LoadHistory json_Valid None r a w =
    (Ok (if decide (ofAggregate a r = []) then None
         else Some (mkHistory a (ofAggregate a r) (Z.of_nat (length (ofAggregate a r))))), w) ∧
  Latest None r a w = (Ok (last (ofAggregate a r)), w).
Proof.
  intros Hinv%reachable_inv Ha. split; [done|].
  unfold LoadHistory, Latest. rewrite Ha. unfold mbind, call_bind. split.
  - rewrite Find_aggregate by auto. cbv beta iota zeta. rewrite decide_False by done.
    pose proof (inv_history json_Valid r a Hinv) as Hh.
    destruct (ofAggregate a r) as [|e l]; [done|]. rewrite Hh by done. by rewrite decide_False by done.
  - rewrite Find_aggregate by auto. cbv beta iota zeta. rewrite decide_True by done.
    rewrite <-head_reverse. destruct (reverse (ofAggregate a r)); done.
Qed.

(** [Append] is all or nothing and accepts exactly the right batches: on an
    error the repository is unchanged; without one the whole batch has been
    added, and it is empty or continues its aggregate with fresh identifiers;
    and such a batch is never refused unless the context is done. *)
Theorem append_exact {W} (ctx : option (Context W)) r es (w : W) :
  repoInv json_Valid r → Forall typedEntry es →
  (let '(r', err) := (Append json_Valid ctx r es w).1 in
   (err ≠ None ∧ r' = r) ∨
   (err = None ∧ r' = r ++ es ∧ (es = [] ∨ accepted json_Valid r es) ∧ repoInv json_Valid r')) ∧
  (accepted json_Valid r es → Append json_Valid None r es w = ((r ++ es, None), w)).
Proof.
  intros Hinv Ht. split; [|by apply Append_accepts].
  pose proof (Append_cases json_Valid ctx r es w Hinv Ht) as H.
  destruct (Append json_Valid ctx r es w) as [[r' err] w']. simpl in *.
  destruct H as [?|(-> & -> & Hacc)]; [by left|]. right. split_and!; try done.
  destruct Hacc as [->|Hacc]; [by rewrite app_nil_r|by apply accepted_inv].
Qed.

(** [PreviousSnapshot] finds the entry with the greatest revision below the
    bound that carries a snapshot, and nothing exactly when there is none. *)
Theorem previous_snapshot_is_greatest {W} (r : list Entry) a before (w : W) :
  repoInv json_Valid r → AggregateID_Validate a = None → before ≠ 0 →
  ∃ res, PreviousSnapshot None r a before w = (Ok res, w) ∧
  match res with
  | Some e =>
      e ∈ r ∧ Aggregate e = a ∧ Snapshot e ≠ None ∧ en_Revision e < before ∧
      ∀ e', e' ∈ r → Aggregate e' = a → Snapshot e' ≠ None → en_Revision e' < before →
            en_Revision e' ≤ en_Revision e
  | None =>
      ∀ e', e' ∈ r → Aggregate e' = a → Snapshot e' ≠ None → ¬ en_Revision e' < before
  end.
Proof.
  intros Hinv Ha Hb. unfold PreviousSnapshot, Revision_Validate, findSnapshot.
  rewrite (proj2 (Z.eqb_neq _ _) Hb), Ha. unfold mbind, call_bind, mret, call_ret.
  rewrite Find_aggregate by auto. cbv beta iota zeta. rewrite decide_False by done.
  eexists. split; [done|].
  pose proof (snapshotLoop_spec before (reverse (ofAggregate a r)) 1) as H.
  rewrite fmap_reverse, reverse_involutive, length_reverse in H.
  specialize (H (inv_revisions _ r Hinv a)).
  assert (∀ e, e ∈ reverse (ofAggregate a r) ↔ Aggregate e = a ∧ e ∈ r) as Hin.
  { intros e. rewrite elem_of_reverse. unfold ofAggregate. by rewrite list_elem_of_filter. }
  destruct (snapshotLoop before _) as [e|].
  - destruct H as ([Hag He]%Hin & Hs & [?|Hlt] & Hmax); [done|]. split_and!; try done.
    intros e' He' Hag' Hs' Hlt'. apply Hmax; [by apply Hin|done|by right].
  - intros e' He' Hag' Hs' Hlt'. eapply (H e'); [by apply Hin|done|by right].
Qed.

(** ** The recorder *)

(** A recorder that starts at revision [base] for a valid aggregate. *)
Record recInv (a : AggregateID) (base : Z) (rr : AggregateRecorder) : Prop := {
  ri_aggregate : rec_aggregate rr = a;
  ri_head : rec_head rr = base + Z.of_nat (length (pending rr));
  ri_range : in_u64 (rec_head rr);
  ri_revisions : ev_Revision <$> pending rr = seqZ (base + 1) (Z.of_nat (length (pending rr)));
  ri_events : Forall (λ e, DomainEvent_Validate json_Valid e = None ∧ ev_Aggregate e = a) (pending rr)
}.

(** The revision the next event gets. *)
Lemma next_revision base n r' :
  0 ≤ base → in_u64 (base + Z.of_nat n) →
  (if negb (base + Z.of_nat n =? 0) then Next (base + Z.of_nat n) else Ok InitialRevision) = Ok r' →
  r' = base + Z.of_nat n + 1 ∧ in_u64 r'.
Proof.
  unfold Next, Revision_Validate, InitialRevision, maxUint64, in_u64. intros Hb Hr.
  destruct (base + Z.of_nat n =? 0) eqn:E; simpl; bools; [intros [= <-]; lia|].
  rewrite ?E. case_match eqn:Em; [done|]. bools. intros [= <-]. lia.
Qed.

Lemma Record_spec a base rr record now rr' ev :
  0 ≤ base → recInv a base rr →
  Record_ json_Valid (Some rr) record now = (Some rr', Ok ev) →
  recInv a base rr' ∧ pending rr' = pending rr ++ [ev] ∧ RecordedAt ev = now ∧
  EventID ev = TrimSpace (rec_EventID record) ∧
  IdempotencyKey ev = TrimSpace (rec_IdempotencyKey record).
Proof.
  intros Hb [Ha Hh Hr Hrev Hev]. unfold Record_. intros H.
  destruct (normalizePayload json_Valid "payload" (rec_Payload record) ErrInvalidEvent) as [payload|]; [|done].
  do 2 (case_decide; [done|]). case_match; [done|]. case_decide; [done|]. case_match; [done|].
  destruct (if negb (rec_head rr =? 0) then _ else _) as [next|] eqn:En; [|done].
  rewrite Hh in En. apply next_revision in En as [En Hnext]; [|done|by rewrite <-Hh].
  unfold NewDomainEvent in H. cbn [eo_Payload eo_EventID eo_EventType eo_AggregateID eo_Revision
    eo_OccurredAt eo_RecordedAt eo_IdempotencyKey eo_Metadata] in H.
  destruct (normalizePayload json_Valid "payload" payload ErrInvalidEvent) as [payload'|]; [|done].
  destruct (DomainEvent_Validate json_Valid _) eqn:Ev; [done|].
  rewrite DomainEvent_Clone_id in H. injection H as <- <-.
  split; [|cbn; rewrite !TrimSpace_idem; done]. split; cbn [rec_aggregate rec_head pending]; try done.
  - rewrite length_app. simpl. lia.
  - rewrite fmap_app, length_app, Nat2Z.inj_add, seqZ_app, Hrev by lia. f_equal.
    change (Z.of_nat (length [_])) with 1. rewrite seqZ_cons by lia. cbn. f_equal. lia.
  - apply Forall_app_2; [done|]. apply Forall_singleton. split; [done|]. done.
Qed.

(** Recording a sequence of events, each of which is accepted. *)
Inductive records : AggregateRecorder → AggregateRecorder → Prop :=
| records_nil rr : records rr rr
| records_cons rr rr1 rr2 record now ev :
    Record_ json_Valid (Some rr) record now = (Some rr1, Ok ev) → records rr1 rr2 → records rr rr2.

Lemma records_inv a base rr rr' :
  0 ≤ base → records rr rr' → recInv a base rr → recInv a base rr'.
Proof.
  intros Hb. induction 1 as [|rr rr1 rr2 record now ev Hrec Hrest IH]; [done|].
  intros Hinv. apply IH. by eapply Record_spec in Hrec as [? _].
Qed.

(** The entries made of events. *)
Definition entriesOf (author : text) (events : list DomainEvent) (es : list Entry) : Prop :=
  Forall2 (λ ev e, NewEntry json_Valid (mkEntryOptions author ev None None) = Ok e) events es.

Lemma NewEntry_spec author ev e :
  NewEntry json_Valid (mkEntryOptions author ev None None) = Ok e →
  valid e ∧ Event e = ev ∧ Aggregate e = ev_Aggregate ev ∧ en_Revision e = ev_Revision ev.
Proof.
  unfold NewEntry. simpl. rewrite DomainEvent_Clone_id.
  case_match eqn:E; [done|]. intros [= <-]. by rewrite E.
Qed.

Lemma entriesOf_fmap {B} (f : DomainEvent → B) (g : Entry → B) author events es :
  (∀ ev e, NewEntry json_Valid (mkEntryOptions author ev None None) = Ok e → g e = f ev) →
  entriesOf author events es → g <$> es = f <$> events.
Proof. intros Hfg H. induction H; [done|]. rewrite !fmap_cons. f_equal; eauto. Qed.

Lemma keepLoop_all rev events :
  Forall (λ e, ev_Revision e ≤ rev) events → keepLoop rev events = length events.
Proof.
  induction 1 as [|e es He _ IH]; simpl; [done|]. by rewrite (proj2 (Z.leb_le _ _) He), IH.
Qed.

Lemma PendingEvents_pending rr : PendingEvents (Some rr) = pending rr.
Proof. simpl. induction (pending rr) as [|e l IH]; simpl; [done|]. by rewrite DomainEvent_Clone_id, IH. Qed.

(** The entries of the pending events continue the aggregate. *)
Lemma recorded_accepted r a rr author es :
  recInv a (Z.of_nat (length (ofAggregate a r))) rr → entriesOf author (pending rr) es →
  NoDup ((λ e, id e) <$> r ++ es) → NoDup ((λ e, key e) <$> r ++ es) →
  accepted json_Valid r es ∧ Forall typedEntry es ∧ Forall (λ e, Aggregate e = a) es.
Proof.
  set (n := Z.of_nat (length (ofAggregate a r))).
  intros [Ha Hh Hr Hrev Hev] Hes Hids Hkeys. pose proof (Forall2_length _ _ _ Hes) as Hl.
  assert (en_Revision <$> es = seqZ (n + 1) (Z.of_nat (length es))) as Hrev'.
  { rewrite (entriesOf_fmap ev_Revision en_Revision author (pending rr) es), Hrev, Hl; [done| |done].
    intros ev e H. by apply NewEntry_spec in H as (_ & _ & _ & ?). }
  assert (Forall (λ e, Aggregate e = a) es ∧ Forall (λ e, valid e) es) as [Hag Hv].
  { split; apply Forall_forall; intros e [i Hi]%list_elem_of_lookup;
      destruct (Forall2_lookup_r _ _ _ _ _ Hes Hi) as (ev & Hev' & Hnew');
      apply NewEntry_spec in Hnew' as (? & ? & Hagg & ?); [|done].
    rewrite Hagg. rewrite Forall_lookup in Hev. by apply Hev in Hev' as [_ ?]. }
  split; [exists a; done|]. split; [|done]. apply Forall_forall. intros e He. unfold typedEntry.
  assert (en_Revision e ∈ seqZ (n + 1) (Z.of_nat (length es))) as Hin
    by (rewrite <-Hrev'; by apply list_elem_of_fmap_2).
  apply elem_of_seqZ in Hin. unfold in_u64 in *. lia.
Qed.

Lemma ack_head a base rr :
  0 ≤ base → recInv a base rr → pending rr ≠ [] →
  AckThrough (Some rr) (rec_head rr) = (Some (mkRecorder (rec_aggregate rr) (rec_head rr) []), None).
Proof.
  intros Hb [Ha Hh Hr Hrev Hev] Hne.
  assert (0 < length (pending rr))%nat as Hpos by (destruct (pending rr); simpl; [done|lia]).
  unfold AckThrough, Revision_Validate. rewrite (proj2 (Z.eqb_neq _ _)) by lia.
  rewrite Z.ltb_irrefl, keepLoop_all.
  - rewrite (proj2 (Nat.eqb_neq _ _)) by lia. by rewrite drop_all.
  - apply Forall_forall. intros e He.
    assert (ev_Revision e ∈ seqZ (base + 1) (Z.of_nat (length (pending rr)))) as Hin
      by (rewrite <-Hrev; by apply list_elem_of_fmap_2).
    apply elem_of_seqZ in Hin. lia.
Qed.

(** The recorder and the repository fit together.  A recorder that starts at
    the head of an aggregate's history numbers the events it records so that
    the entries made of its pending events are accepted by [Append] (as long
    as their identifiers and keys are fresh), and acknowledging the head
    revision then leaves nothing pending. *)
Theorem recorded_events_append {W} r a rr rr' author es (w : W) :
  repoInv json_Valid r →
  Z.of_nat (length (ofAggregate a r)) < 2 ^ 64 →
  NewAggregateRecorderFromHead a (Z.of_nat (length (ofAggregate a r))) = Ok rr →
  records rr rr' → entriesOf author (PendingEvents (Some rr')) es → pending rr' ≠ [] →
  NoDup ((λ e, id e) <$> r ++ es) → NoDup ((λ e, key e) <$> r ++ es) →
  Append json_Valid None r es w = ((r ++ es, None), w) ∧ repoInv json_Valid (r ++ es) ∧
  rec_head rr' = Z.of_nat (length (ofAggregate a (r ++ es))) ∧
  (AckThrough (Some rr') (rec_head rr')).2 = None ∧
  PendingEvents (AckThrough (Some rr') (rec_head rr')).1 = [].
Proof.
  intros Hinv Hlen Hnew Hrecs Hes Hne Hids Hkeys.
  assert (recInv a (Z.of_nat (length (ofAggregate a r))) rr') as Hrec.
  { eapply records_inv; [|exact Hrecs|]; [lia|].
    unfold NewAggregateRecorderFromHead in Hnew. case_match; [done|]. case_match; [done|].
    injection Hnew as <-. split; simpl; try done; [lia|unfold in_u64; lia]. }
  rewrite PendingEvents_pending in Hes. pose proof (Forall2_length _ _ _ Hes) as Hl.
  destruct (recorded_accepted r a rr' author es Hrec Hes Hids Hkeys) as (Hacc & Ht & Hag).
  split; [by apply Append_accepts|]. split; [by apply accepted_inv|].
  rewrite ofAggregate_app, (ofAggregate_all a es), length_app by done.
  split; [rewrite (ri_head _ _ _ Hrec); lia|].
  by rewrite (ack_head a (Z.of_nat (length (ofAggregate a r))) rr' ltac:(lia) Hrec Hne).
Qed.
End theorems.

(** ** Witnesses *)

(** A validator that accepts every payload, and sample data. *)
Definition anyJson : bytes → bool := λ _, true.
Definition sampleAggregate : AggregateID := mkAggregateID (lit "order") (lit "1").
Definition sampleEvent (name : string) (rev : Z) : DomainEvent :=
  mkDomainEvent (lit name) (lit "created") sampleAggregate rev 5 6 (lit name) ∅ (lit "{}").
Definition sampleEntry (name : string) (rev : Z) : Entry :=
  mkEntry 1 sampleAggregate rev (lit "me") (sampleEvent name rev) None None.
Definition sampleRecord (name : string) : EventRecord :=
  mkEventRecord (lit name) (lit "created") 5 (lit name) ∅ [].

Lemma sample_inv : repoInv anyJson [sampleEntry "a" 1].
Proof.
  apply (accepted_inv anyJson [] [sampleEntry "a" 1]); [apply repoInv_empty|].
  exists sampleAggregate. split_and!; repeat constructor; set_solver.
Qed.

Lemma repository_histories_witness :
  Latest None [sampleEntry "a" 1] sampleAggregate tt = (Ok (Some (sampleEntry "a" 1)), tt).
Proof.
  refine (proj2 (proj2 (repository_histories anyJson _ sampleAggregate tt _ eq_refl))).
  apply rtc_once.
  refine (repo_append anyJson unit None [] [sampleEntry "a" 1] tt _).
  apply Forall_singleton. done.
Defined.

Lemma append_exact_witness :
  Append anyJson None [sampleEntry "a" 1] [sampleEntry "b" 2] tt =
    (([sampleEntry "a" 1; sampleEntry "b" 2], None), tt).
Proof.
  apply (append_exact anyJson None [sampleEntry "a" 1] [sampleEntry "b" 2] tt).
  - apply sample_inv.
  - apply Forall_singleton. done.
  - exists sampleAggregate. split_and!; try (by repeat constructor); apply NoDup_ListNoDup;
      vm_compute; repeat constructor; simpl; intuition discriminate.
Defined.

Lemma previous_snapshot_is_greatest_witness :
  ∃ res, PreviousSnapshot None [sampleEntry "a" 1] sampleAggregate 2 tt = (Ok res, tt).
Proof.
  destruct (previous_snapshot_is_greatest anyJson [sampleEntry "a" 1] sampleAggregate 2 tt) as (res & H & _).
  - apply sample_inv.
  - reflexivity.
  - discriminate.
  - by exists res.
Defined.

Lemma recorded_events_append_witness :
  Append anyJson None [sampleEntry "a" 1] [sampleEntry "b" 2] tt =
    (([sampleEntry "a" 1; sampleEntry "b" 2], None), tt).
Proof.
  apply (recorded_events_append anyJson [sampleEntry "a" 1] sampleAggregate
           (mkRecorder sampleAggregate 1 []) (mkRecorder sampleAggregate 2 [sampleEvent "b" 2])
           (lit "me") [sampleEntry "b" 2] tt).
  - apply sample_inv.
  - reflexivity.
  - reflexivity.
  - eapply (records_cons anyJson _ _ _ (sampleRecord "b") 6); [reflexivity|constructor].
  - repeat constructor.
  - discriminate.
  - apply NoDup_ListNoDup. vm_compute. repeat constructor; simpl; intuition discriminate.
  - apply NoDup_ListNoDup. vm_compute. repeat constructor; simpl; intuition discriminate.
Defined.
