(* ===== verification/MemoryCache.v ===== *)
(** * cache: the in-memory TTL cache

    Models [src/cache] cache.go, errors.go and memory.go.  A time is a number
    of nanoseconds, 0 the zero time; a nil map and an empty one are not told
    apart (every operation used treats them alike); a flight key is the number
    whose decimal text the code uses.  The world holds the cache next to
    everything else, so a loader may use the cache it loads for.  The clock and
    [singleflight.Group.DoChan] are parameters. *)

From S2P Require Import Prelude GoError.

Local Open Scope Z_scope.

Definition ErrCacheMiss : error := Sentinel "cache.ErrCacheMiss".

Section cache.
Context {K : Type} `{Countable K} {V W : Type}.

Record entry : Type := mkEntry {
  value : V;
  expiresAt : Z
}.

Definition expired (e : entry) (now : Z) : bool :=
  negb (expiresAt e =? 0) && negb (now <? expiresAt e).

Record Memory : Type := mkMemory {
  values : gmap K entry;
  flightKeys : gmap K Z;
  nextFlight : Z
}.

Definition NewMemory : Memory := mkMemory ∅ ∅ 0.

Definition validateTTL (ttl : Z) : option error :=
  if ttl <? 0 then Some (Errorf "ttl must not be negative" []) else None.

(** ** The critical sections *)

Definition getLocked (m : Memory) (key : K) (now : Z) : Memory * result V :=
  match values m !! key with
  | None => (m, Fail ErrCacheMiss)
  | Some item =>
      if expired item now then
        (mkMemory (delete key (values m)) (delete key (flightKeys m)) (nextFlight m), Fail ErrCacheMiss)
      else (m, Ok (value item))
  end.

Definition setLocked (m : Memory) (key : K) (v : V) (expiresAt : Z) : Memory :=
  mkMemory (<[key := mkEntry v expiresAt]> (values m)) (flightKeys m) (nextFlight m).

Definition deleteLocked (m : Memory) (key : K) : Memory :=
  mkMemory (delete key (values m)) (delete key (flightKeys m)) (nextFlight m).

Definition clearLocked (m : Memory) : Memory := mkMemory ∅ ∅ (nextFlight m).

Definition flightKeyLocked (m : Memory) (key : K) : Memory * Z :=
  match flightKeys m !! key with
  | Some existing => (m, existing)
  | None =>
      let next := wrap_u64 (nextFlight m + 1) in
      (mkMemory (values m) (<[key := next]> (flightKeys m)) next, next)
  end.

Definition deleteFlightKeyLocked (m : Memory) (key : K) : Memory :=
  mkMemory (values m) (delete key (flightKeys m)) (nextFlight m).

(** ** The operations *)

Definition World : Type := Memory * W.

(** A critical section on the cache. *)
Definition locked {A} (f : Memory → Memory * A) : Call World A :=
  λ '(m, w), let '(m', a) := f m in (a, (m', w)).

Section operations.
Context (currentTime : Call World Z).

Definition Get (ctx : option (Context World)) (key : K) : Call World (result V) :=
  err ← ctx_Err (orBackground ctx);
  match err with
  | Some e => mret (Fail e)
  | None =>
      (* the clock is read inside the critical section, and only for a value
         that is there *)
      λ w, match values w.1 !! key with
           | None => (Fail ErrCacheMiss, w)
           | Some _ => (now ← currentTime; locked (λ m, getLocked m key now)) w
           end
  end.

Definition Set_ (ctx : option (Context World)) (key : K) (v : V) (ttl : Z) : Call World (option error) :=
  err ← ctx_Err (orBackground ctx);
  match err with
  | Some e => mret (Some e)
  | None =>
      match validateTTL ttl with
      | Some e => mret (Some e)
      | None =>
          expiresAt ← (if 0 <? ttl then now ← currentTime; mret (now + ttl) else mret 0);
          locked (λ m, (setLocked m key v expiresAt, None))
      end
  end.

Definition Delete (ctx : option (Context World)) (key : K) : Call World (option error) :=
  err ← ctx_Err (orBackground ctx);
  match err with
  | Some e => mret (Some e)
  | None => locked (λ m, (deleteLocked m key, None))
  end.

Definition Clear (ctx : option (Context World)) : Call World (option error) :=
  err ← ctx_Err (orBackground ctx);
  match err with
  | Some e => mret (Some e)
  | None => locked (λ m, (clearLocked m, None))
  end.

Definition flightKey (key : K) : Call World Z := locked (λ m, flightKeyLocked m key).

Definition deleteFlightKey (key : K) : Call World unit :=
  locked (λ m, (deleteFlightKeyLocked m key, tt)).

Definition Loader : Type := Context World → K → Call World (result V).

(** The function [GetOrLoad] hands to [DoChan]. *)
Definition flight (ctx : Context World) (key : K) (ttl : Z) (loader : Loader) :
    Call World (result V) :=
  got ← Get (Some ctx) key;
  match got with
  | Ok loaded => mret (Ok loaded)
  | Fail err =>
      if negb (errors_Is err "cache.ErrCacheMiss") then
        if isContextError err then _ ← deleteFlightKey key; mret (Fail err) else mret (Fail err)
      else
        cerr ← ctx_Err ctx;
        match cerr with
        | Some e => _ ← deleteFlightKey key; mret (Fail e)
        | None =>
            loaded ← loader ctx key;
            match loaded with
            | Fail e => _ ← deleteFlightKey key; mret (Fail e)
            | Ok v =>
                cerr ← ctx_Err ctx;
                match cerr with
                | Some e => _ ← deleteFlightKey key; mret (Fail e)
                | None =>
                    serr ← Set_ (Some ctx) key v ttl;
                    match serr with
                    | Some e => _ ← deleteFlightKey key; mret (Fail e)
                    | None => mret (Ok v)
                    end
                end
            end
        end
  end.

(** What arrives first in the [select]: the result of the call, shared or not,
    or the end of the context. *)
Inductive arrival : Type :=
| Arrived (res : result V) (shared : bool)
| CtxDone (err : error).

(** [DoChan] followed by the [select]. *)
Context (DoChan : Context World → Z → Call World (result V) → Call World arrival).
Context (Forget : Z → Call World unit).

(** The loop of [GetOrLoad]; [fuel] bounds the retries. *)
Fixpoint loadLoop (fuel : nat) (ctx : Context World) (key : K) (ttl : Z) (loader : Loader) :
    Go World (result V) :=
  match fuel with
  | O => out_of_fuel
  | S fuel' =>
      fk ← call (flightKey key);
      res ← call (DoChan ctx fk (flight ctx key ttl loader));
      match res with
      | CtxDone e => mret (Fail e)
      | Arrived (Ok v) _ => mret (Ok v)
      | Arrived (Fail e) shared =>
          if shared && isContextError e then
            cerr ← call (ctx_Err ctx);
            match cerr with
            | None => _ ← call (Forget fk); loadLoop fuel' ctx key ttl loader
            | Some _ => mret (Fail e)
            end
          else mret (Fail e)
      end
  end.

Definition GetOrLoad (fuel : nat) (ctx : option (Context World)) (key : K) (ttl : Z)
    (loader : option Loader) : Go World (result V) :=
  let ctx := orBackground ctx in
  err ← call (ctx_Err ctx);
  match err with
  | Some e => mret (Fail e)
  | None =>
      match validateTTL ttl with
      | Some e => mret (Fail e)
      | None =>
          match loader with
          | None => mret (Fail (Errorf "loader must not be nil" []))
          | Some loader =>
              got ← call (Get (Some ctx) key);
              match got with
              | Ok v => mret (Ok v)
              | Fail e =>
                  if negb (errors_Is e "cache.ErrCacheMiss") then mret (Fail e)
                  else loadLoop fuel ctx key ttl loader
              end
          end
      end
  end.
End operations.
End cache.
Arguments Memory : clear implicits.
Arguments Memory K {_ _} V.
Arguments entry : clear implicits.
Arguments arrival : clear implicits.

(** ** The cache as a map with deadlines *)

Section refinement.
Context {K : Type} `{Countable K} {V : Type}.

(** The critical sections as operations, each with the time its clock showed. *)
Inductive op : Type :=
| OGet (key : K) (now : Z)
| OSet (key : K) (v : V) (ttl now : Z)
| ODelete (key : K)
| OClear
| OFlight (key : K)
| ODeleteFlight (key : K).

Definition deadline (ttl now : Z) : Z := if 0 <? ttl then now + ttl else 0.

Definition exec (o : op) (m : Memory K V) : Memory K V * option (result V) :=
  match o with
  | OGet k now => let '(m', r) := getLocked m k now in (m', Some r)
  | OSet k v ttl now => (setLocked m k v (deadline ttl now), None)
  | ODelete k => (deleteLocked m k, None)
  | OClear => (clearLocked m, None)
  | OFlight k => ((flightKeyLocked m k).1, None)
  | ODeleteFlight k => (deleteFlightKeyLocked m k, None)
  end.

Fixpoint answers (m : Memory K V) (ops : list op) : list (option (result V)) :=
  match ops with
  | [] => []
  | o :: rest => let '(m', a) := exec o m in a :: answers m' rest
  end.

(** The specification: a map that only [Set], [Delete] and [Clear] change, read
    at a time. *)
Definition spec_exec (o : op) (s : gmap K (entry V)) : gmap K (entry V) * option (result V) :=
  match o with
  | OGet k now =>
      (s, Some (match s !! k with
                | Some e => if expired e now then Fail ErrCacheMiss else Ok (value e)
                | None => Fail ErrCacheMiss
                end))
  | OSet k v ttl now => (<[k := mkEntry v (deadline ttl now)]> s, None)
  | ODelete k => (delete k s, None)
  | OClear => (∅, None)
  | _ => (s, None)
  end.

Fixpoint spec_answers (s : gmap K (entry V)) (ops : list op) : list (option (result V)) :=
  match ops with
  | [] => []
  | o :: rest => let '(s', a) := spec_exec o s in a :: spec_answers s' rest
  end.

Definition readTime (o : op) : option Z :=
  match o with OGet _ now => Some now | _ => None end.

(** The cache may have dropped a value that was expired at time [t]. *)
Definition refines (t : Z) (m : Memory K V) (s : gmap K (entry V)) : Prop :=
  ∀ k, values m !! k = s !! k ∨
       (values m !! k = None ∧ ∃ e, s !! k = Some e ∧ expired e t = true).

Lemma expired_mono (e : entry V) t t' : t ≤ t' → expired e t = true → expired e t' = true.
Proof.
  unfold expired. intros Ht He. bools. apply andb_true_iff. rewrite !negb_true_iff.
  split; [by apply Z.eqb_neq|]. apply Z.ltb_ge. lia.
Qed.

Lemma refines_mono t t' m s : t ≤ t' → refines t m s → refines t' m s.
Proof. intros Ht Hr k. destruct (Hr k) as [|(? & e & ? & ?)]; [by left|]. right. eauto using expired_mono. Qed.

(** One operation: the answers agree and the relation is kept. *)
Lemma exec_refines t m s o :
  refines t m s → (∀ now, readTime o = Some now → t ≤ now) →
  (exec o m).2 = (spec_exec o s).2 ∧
  refines (default t (readTime o)) (exec o m).1 (spec_exec o s).1.
Proof.
  intros Hr Ht. destruct o as [k now|k v ttl now|k| |k|k]; simpl.
  - specialize (Ht now eq_refl). apply (refines_mono _ _ _ _ Ht) in Hr.
    unfold getLocked. pose proof (Hr k) as Hk.
    destruct (values m !! k) as [e|] eqn:E; simpl.
    + destruct Hk as [Hk|[? _]]; [|done]. rewrite <-Hk.
      destruct (expired e now) eqn:Ee; simpl; split; try done.
      intros k'. simpl. destruct (decide (k' = k)) as [->|Hne].
      * right. rewrite lookup_delete_eq. eauto.
      * rewrite lookup_delete_ne by done. apply Hr.
    + split; [|done]. do 2 f_equal. destruct Hk as [<-|(_ & e & -> & He)]; [done|by rewrite He].
  - split; [done|]. intros k'. simpl. destruct (decide (k' = k)) as [->|Hne].
    + left. by rewrite !lookup_insert_eq.
    + rewrite !lookup_insert_ne by done. apply Hr.
  - split; [done|]. intros k'. simpl. destruct (decide (k' = k)) as [->|Hne].
    + left. by rewrite !lookup_delete_eq.
    + rewrite !lookup_delete_ne by done. apply Hr.
  - split; [done|]. intros k'. left. simpl. by rewrite !lookup_empty.
  - split; [done|]. unfold flightKeyLocked. by destruct (flightKeys m !! k).
  - done.
Qed.

Lemma answers_refine t m s ops :
  refines t m s → StronglySorted Z.le (t :: omap readTime ops) → answers m ops = spec_answers s ops.
Proof.
  revert t m s. induction ops as [|o ops IH]; intros t m s Hr Hs; [done|].
  apply StronglySorted_inv in Hs as [Hs Hall].
  assert (∀ now, readTime o = Some now → t ≤ now) as Ht.
  { intros now Hn. simpl in Hall. rewrite Hn in Hall. by apply Forall_cons in Hall as [? _]. }
  destruct (exec_refines t m s o Hr Ht) as [Ha Hr']. simpl.
  destruct (exec o m) as [m' a], (spec_exec o s) as [s' a']. simpl in *. subst. f_equal.
  eapply IH; [exact Hr'|]. destruct (readTime o); [done|]. by constructor.
Qed.

(** C15. The cache refines a map with deadlines.  Whatever sequence of locked
    operations runs, in whatever interleaving of goroutines, as long as the
    clock does not go backwards between reads, every [Get] answers what a map
    answers that is changed by [Set], [Delete] and [Clear] only and whose
    values disappear at their deadline: dropping expired values and the
    bookkeeping of flights are invisible. *)
Theorem cache_refines_ttl_map ops :
  StronglySorted Z.le (omap readTime ops) → answers NewMemory ops = spec_answers ∅ ops.
Proof.
  intros Hs. destruct (omap readTime ops) as [|t ts] eqn:E.
  - apply (answers_refine 0); [intros k; left; by rewrite !lookup_empty|]. rewrite E. by repeat constructor.
  - apply (answers_refine t); [intros k; left; by rewrite !lookup_empty|]. rewrite E.
    constructor; [done|]. apply StronglySorted_inv in Hs as [_ Hs]. by constructor.
Qed.
End refinement.

Lemma cache_refines_ttl_map_witness :
  answers NewMemory [OSet 1%Z 7%Z 5 0; OGet 1%Z 4; OGet 1%Z 5; OGet 1%Z 9] =
  [None; Some (Ok 7%Z); Some (Fail ErrCacheMiss); Some (Fail ErrCacheMiss)].
Proof.
  rewrite (cache_refines_ttl_map [OSet 1%Z 7%Z 5 0; OGet 1%Z 4; OGet 1%Z 5; OGet 1%Z 9]);
    [reflexivity|repeat constructor; discriminate].
Defined.

(** ** Loading *)

Section loading.
Context {K : Type} `{Countable K} {V W : Type}.
Notation World := (@World K _ _ V W).
Context (currentTime : Call World Z)
        (DoChan : Context World → Z → Call World (result V) → Call World (arrival V))
        (Forget : Z → Call World unit).

(** Reading the clock does not touch the cache. *)
Context (clock_pure : ∀ w, (currentTime w).2.1 = w.1).

(** [DoChan] without another caller of the same key: it runs the function and
    delivers its result, not shared, before the context ends. *)
Context (DoChan_alone : ∀ ctx fk f w, DoChan ctx fk f w = (Arrived (f w).1 false, (f w).2)).

Lemma Get_miss key w w1 e :
  Get currentTime None key w = (Fail e, w1) → e = ErrCacheMiss ∧ values w1.1 !! key = None.
Proof.
  unfold Get, mbind, call_bind. simpl. destruct (values w.1 !! key) as [it|] eqn:E; [|by intros [= <- <-]].
  pose proof (clock_pure w) as Hc. destruct (currentTime w) as [now [m w']]. simpl in *. subst m.
  unfold getLocked. rewrite E. destruct (expired it now); intros [= <- <-].
  split; [done|]. simpl. by rewrite lookup_delete_eq.
Qed.

Lemma Get_absent ctx key w :
  ctx = Background → values w.1 !! key = None →
  Get currentTime (Some ctx) key w = (Fail ErrCacheMiss, w).
Proof. intros -> E. unfold Get, mbind, call_bind. simpl. by rewrite E. Qed.

Lemma flightKey_values key (w : World) : values (flightKey key w).2.1 = values w.1.
Proof.
  unfold flightKey, locked, flightKeyLocked. destruct w as [m w]. simpl.
  by destruct (flightKeys m !! key).
Qed.

Lemma Set_background key v ttl w :
  0 ≤ ttl →
  ∃ w' t, Set_ currentTime (Some Background) key v ttl w = (None, w') ∧
    w'.1 = setLocked w.1 key v t ∧ (ttl = 0 → t = 0).
Proof.
  intros Ht. unfold Set_, mbind, call_bind, validateTTL. simpl.
  rewrite (proj2 (Z.ltb_ge ttl 0)) by done. destruct (0 <? ttl) eqn:E; bools.
  - pose proof (clock_pure w) as Hc. destruct (currentTime w) as [now [m w']]. simpl in *. subst m.
    eexists _, (now + ttl). split; [done|]. split; [done|lia].
  - destruct w as [m w]. eexists _, 0. by split_and!.
Qed.

(** A caller alone on its key gets cache-aside behaviour from
    [GetOrLoad].  A cached value is returned and the loader is not called.
    Otherwise the loader is called once, on a cache without the key: a value it
    returns is stored and returned, an error is returned, the cache stays as
    the loader left it and the flight of the key is forgotten. *)
Theorem GetOrLoad_cache_aside fuel key ttl loader (w : World) :
  0 ≤ ttl →
  match Get currentTime None key w with
  | (Ok v, w1) => GetOrLoad currentTime DoChan Forget (S fuel) None key ttl (Some loader) w = Some (Ok v, w1)
  | (Fail _, w1) =>
      let w2 := (flightKey key w1).2 in
      values w2.1 !! key = None ∧
      match loader Background key w2 with
      | (Ok v, w3) =>
          ∃ w4 t, GetOrLoad currentTime DoChan Forget (S fuel) None key ttl (Some loader) w = Some (Ok v, w4) ∧
            w4.1 = setLocked w3.1 key v t ∧ (ttl = 0 → t = 0)
      | (Fail e, w3) =>
          GetOrLoad currentTime DoChan Forget (S fuel) None key ttl (Some loader) w =
            Some (Fail e, (deleteFlightKeyLocked w3.1 key, w3.2))
      end
  end.
Proof.
  intros Ht. destruct (Get currentTime None key w) as [[v|e] w1] eqn:Eg.
  - unfold GetOrLoad, mbind, go_bind, call. simpl. unfold validateTTL.
    rewrite (proj2 (Z.ltb_ge ttl 0)) by done. change (Get currentTime (Some Background) key w) with
      (Get currentTime None key w). by rewrite Eg.
  - destruct (Get_miss _ _ _ _ Eg) as [-> Hnone]. cbv zeta.
    assert (values (flightKey key w1).2.1 !! key = None) as Hn by by rewrite flightKey_values.
    split; [done|].
    assert (GetOrLoad currentTime DoChan Forget (S fuel) None key ttl (Some loader) w =
            let '(r, w4) := flight currentTime Background key ttl loader (flightKey key w1).2 in
            Some (r, w4)) as ->.
    { unfold GetOrLoad, mbind, go_bind, call. cbn [orBackground ctx_Err Background].
      unfold validateTTL. rewrite (proj2 (Z.ltb_ge ttl 0)) by done.
      change (Get currentTime (Some Background) key w) with (Get currentTime None key w).
      rewrite Eg. change (negb (errors_Is ErrCacheMiss "cache.ErrCacheMiss")) with false.
      cbn [loadLoop].
      unfold mbind, go_bind, call. destruct (flightKey key w1) as [fk w2]. rewrite DoChan_alone.
      cbn [snd]. by destruct (flight currentTime Background key ttl loader w2) as [[v|e] w4]. }
    unfold flight, mbind, call_bind. rewrite Get_absent by done.
    change (negb (errors_Is ErrCacheMiss "cache.ErrCacheMiss")) with false.
    cbn [ctx_Err Background].
    destruct (loader Background key (flightKey key w1).2) as [[v|e] w3].
    + destruct (Set_background key v ttl w3 Ht) as (w4 & t & -> & H4 & Ht0). eauto.
    + by destruct w3.
Qed.

(** A loaded value without expiry is served from then on. *)
Lemma loaded_then_served key v (w : World) m t :
  w.1 = setLocked m key v t → t = 0 → ∃ w', Get currentTime None key w = (Ok v, w').
Proof.
  intros Hw ->. unfold Get, mbind, call_bind. simpl. rewrite Hw. simpl. rewrite lookup_insert_eq.
  pose proof (clock_pure w) as Hc. destruct (currentTime w) as [now [m' w']]. simpl in *. subst m'.
  rewrite Hw. unfold getLocked. simpl. rewrite lookup_insert_eq. simpl. eauto.
Qed.
End loading.

Lemma GetOrLoad_cache_aside_witness :
  let clock : Call (Memory Z Z * unit) Z := λ w, (3, w) in
  let DoChan := λ (_ : Context (Memory Z Z * unit)) (_ : Z) f w,
    (Arrived (f w).1 false, (f w).2 : Memory Z Z * unit) in
  ∃ w4 t, GetOrLoad clock DoChan (λ _ w, (tt, w)) 1 None 5 0 (Some (λ _ k w, (Ok (k + 1), w)))
            (NewMemory, tt) = Some (Ok 6, w4) ∧
          w4.1 = setLocked (flightKey 5 (NewMemory, tt)).2.1 5 6 t ∧ (0 = 0 → t = 0).
Proof.
  intros clock DoChan.
  destruct (GetOrLoad_cache_aside clock DoChan (λ _ w, (tt, w)) (λ _, eq_refl) (λ _ _ _ _, eq_refl)
              0 5 0 (λ _ k w, (Ok (k + 1), w)) (NewMemory, tt)) as [_ H]; [discriminate|exact H].
Defined.
