(* ===== verification/RoundRobin.v ===== *)
(** * concurrency: the lock-free round robin

    Models [src/concurrency/round_robin.go]: the compare-and-swap loop of
    [Next] as a step relation on goroutines that share the counter, whose steps
    are the atomic loads and swaps.  Every execution is finite, without any
    assumption on the scheduler, and hands out the positions in cyclic order. *)

From S2P Require Import Prelude GoError.

Local Open Scope Z_scope.

Record RoundRobin : Type := mkRoundRobin {
  maximum : Z;
  counter : Z
}.

Definition NewRoundRobin (max : Z) : result RoundRobin :=
  if max <=? 0 then Fail (Errorf "maximum must be positive" []) else Ok (mkRoundRobin max 0).

(** A nil pointer is [None]. *)
Definition Get (r : option RoundRobin) : Z :=
  match r with
  | None => 0
  | Some rr => if maximum rr =? 0 then 0 else counter rr
  end.

Definition Set_ (r : option RoundRobin) (value : Z) : option RoundRobin * option error :=
  match r with
  | None => (None, Some (Errorf "round robin is nil" []))
  | Some rr =>
      if maximum rr =? 0 then (r, Some (Errorf "round robin is nil" []))
      else if (value <? 0) || (maximum rr <=? value) then
        (r, Some (Errorf "value must be in range [0,%d)" []))
      else (Some (mkRoundRobin (maximum rr) value), None)
  end.

(** [next := current + 1; if next >= r.maximum { next = 0 }] in uint64. *)
Definition successor (max current : Z) : Z :=
  let next := wrap_u64 (current + 1) in if max <=? next then 0 else next.

(** [Next] when nothing else touches the counter: the first swap succeeds. *)
Definition Next (r : option RoundRobin) : option RoundRobin * Z :=
  match r with
  | None => (None, 0)
  | Some rr =>
      if maximum rr =? 0 then (r, 0)
      else let next := successor (maximum rr) (counter rr) in (Some (mkRoundRobin (maximum rr) next), next)
  end.

(** ** Concurrent callers *)

(** A goroutine that still has to make [calls] calls of [Next]; [loaded] is
    what its current call loaded, if it is between the load and the swap;
    [returned] are the results of its finished calls. *)
Record thread : Type := mkThread {
  calls : nat;
  loaded : option Z;
  returned : list Z
}.

(** The counter, the goroutines, and all results in the order of the swaps. *)
Record state : Type := mkState {
  rr : RoundRobin;
  threads : list thread;
  log : list Z
}.

Inductive step : state → state → Prop :=
| step_load s i n rs :
    threads s !! i = Some (mkThread (S n) None rs) →
    step s (mkState (rr s) (<[i := mkThread (S n) (Some (counter (rr s))) rs]> (threads s)) (log s))
| step_swap s i n rs :
    threads s !! i = Some (mkThread (S n) (Some (counter (rr s))) rs) →
    let next := successor (maximum (rr s)) (counter (rr s)) in
    step s (mkState (mkRoundRobin (maximum (rr s)) next)
              (<[i := mkThread n None (rs ++ [next])]> (threads s)) (log s ++ [next]))
| step_retry s i n rs current :
    threads s !! i = Some (mkThread (S n) (Some current) rs) → current ≠ counter (rr s) →
    step s (mkState (rr s) (<[i := mkThread (S n) None rs]> (threads s)) (log s)).

(** ** Termination *)

Definition remaining (s : state) : nat := sum_list (calls <$> threads s).

(** Steps a call is away from its swap when nobody interferes: a stale load
    costs a failed swap and a new load. *)
Definition weight (c : Z) (t : thread) : nat :=
  match loaded t with
  | None => 1
  | Some x => if decide (x = c) then 0 else 2
  end.

Definition work (s : state) : nat := sum_list (weight (counter (rr s)) <$> threads s).

Lemma sum_list_insert (l : list nat) i x y :
  l !! i = Some x → (sum_list (<[i := y]> l) + x = sum_list l + y)%nat.
Proof.
  revert i. induction l as [|z l IH]; intros [|i]; simpl; [done..| |].
  - intros [= ->]. lia.
  - intros Hl. specialize (IH _ Hl). lia.
Qed.

Lemma fmap_insert_sum (f : thread → nat) ts i t t' :
  ts !! i = Some t → (sum_list (f <$> <[i := t']> ts) + f t = sum_list (f <$> ts) + f t')%nat.
Proof.
  intros Ht. rewrite list_fmap_insert. apply sum_list_insert. by rewrite list_lookup_fmap, Ht.
Qed.

(** A swap finishes a call; any other step brings one closer. *)
Lemma step_decreases s s' :
  step s s' →
  (remaining s' < remaining s)%nat ∨ (remaining s' = remaining s ∧ (work s' < work s)%nat).
Proof.
  unfold remaining, work. intros Hs.
  destruct Hs as [s i n rs Hi|s i n rs Hi next|s i n rs c Hi Hne]; simpl.
  - right. pose proof (fmap_insert_sum calls _ _ _ (mkThread (S n) (Some (counter (rr s))) rs) Hi) as H1.
    pose proof (fmap_insert_sum (weight (counter (rr s))) _ _ _ (mkThread (S n) (Some (counter (rr s))) rs) Hi) as H2.
    unfold weight in H2 at 2 4. simpl in *. rewrite decide_True in H2 by done. lia.
  - left. pose proof (fmap_insert_sum calls _ _ _ (mkThread n None (rs ++ [next])) Hi) as H1.
    simpl in *. lia.
  - right. pose proof (fmap_insert_sum calls _ _ _ (mkThread (S n) None rs) Hi) as H1.
    pose proof (fmap_insert_sum (weight (counter (rr s))) _ _ _ (mkThread (S n) None rs) Hi) as H2.
    unfold weight in H2 at 2 4. simpl in *. rewrite decide_False in H2 by done. lia.
Qed.

Lemma step_terminates s : Acc (flip step) s.
Proof.
  remember (remaining s) as n eqn:En. revert s En.
  induction n as [n IHn] using lt_wf_ind. intros s ->.
  remember (work s) as k eqn:Ek. revert s IHn Ek.
  induction k as [k IHk] using lt_wf_ind. intros s IHn ->.
  constructor. intros s' [Hlt|[Heq Hlt]]%step_decreases.
  - by eapply IHn.
  - eapply IHk; [exact Hlt| |done]. by rewrite Heq.
Qed.

(** ** What the calls return *)

Definition wf (r : RoundRobin) : Prop := 0 ≤ counter r < maximum r ∧ maximum r ≤ maxInt64.

Lemma successor_mod max c : 0 ≤ c < max → max ≤ maxInt64 → successor max c = (c + 1) mod max.
Proof.
  intros Hc Hm. unfold successor, maxInt64 in *. rewrite wrap_u64_id by (unfold in_u64; lia).
  destruct (max <=? c + 1) eqn:E; bools.
  - assert (c + 1 = max) as -> by lia. by rewrite Z.mod_same by lia.
  - by rewrite Z.mod_small by lia.
Qed.

(** The positions after [start], in cyclic order. *)
Definition cycle (max start : Z) (n : nat) : list Z :=
  (λ k, (start + 1 + k) mod max) <$> seqZ 0 (Z.of_nat n).

(** All results of the goroutines. *)
Definition results (s : state) : list Z := concat (returned <$> threads s).

(** From [n] calls that start at position [start]. *)
Record inv (max start : Z) (total : nat) (s : state) : Prop := {
  inv_wf : wf (rr s);
  inv_max : maximum (rr s) = max;
  inv_counter : counter (rr s) = (start + Z.of_nat (length (log s))) mod max;
  inv_log : log s = cycle max start (length (log s));
  inv_total : (length (log s) + remaining s = total)%nat;
  inv_results : results s ≡ₚ log s;
  inv_loaded t : t ∈ threads s → loaded t ≠ None → (0 < calls t)%nat
}.

Lemma concat_insert (ts : list thread) i t t' x :
  ts !! i = Some t → returned t' = returned t ++ x →
  concat (returned <$> <[i := t']> ts) ≡ₚ concat (returned <$> ts) ++ x.
Proof.
  intros Ht Hr. rewrite <-(take_drop_middle ts i t Ht) at 2.
  rewrite insert_take_drop by by eapply lookup_lt_Some.
  rewrite !fmap_app, !fmap_cons, !concat_app. simpl. rewrite Hr, <-!(assoc_L app).
  f_equiv. f_equiv. by rewrite (comm app).
Qed.

Lemma cycle_S max start n : cycle max start (S n) = cycle max start n ++ [(start + 1 + Z.of_nat n) mod max].
Proof.
  unfold cycle. rewrite Nat2Z.inj_succ, <-Z.add_1_r, seqZ_app, fmap_app by lia. by rewrite Z.add_0_l.
Qed.

Lemma rr_inv_step max start total s s' : step s s' → inv max start total s → inv max start total s'.
Proof.
  intros Hs [Hwf Hmax Hc Hlog Htot Hres Hld].
  destruct Hs as [s i n rs Hi|s i n rs Hi next|s i n rs c Hi Hne].
  - split; simpl; try done.
    + pose proof (fmap_insert_sum calls _ _ _ (mkThread (S n) (Some (counter (rr s))) rs) Hi) as H1.
      unfold remaining in *. simpl in *. lia.
    + unfold results. simpl. rewrite (concat_insert _ _ _ _ [] Hi) by by rewrite app_nil_r.
      by rewrite app_nil_r.
    + intros t [j Hj]%list_elem_of_lookup Hl. apply list_lookup_insert_Some in Hj as [(<- & <- & _)|[_ Hj]];
        [simpl; lia|]. eapply Hld; [by eapply list_elem_of_lookup_2|done].
  - assert (next = (start + 1 + Z.of_nat (length (log s))) mod max) as Hnext.
    { unfold next. destruct Hwf as [? ?]. rewrite successor_mod, Hc, Hmax, Zplus_mod_idemp_l by (done || lia).
      f_equal. lia. }
    assert (0 < max) by (destruct Hwf; lia).
    split; simpl; rewrite ?length_app; simpl; try done.
    + destruct Hwf as [? ?]. split; [|done]. simpl. rewrite Hnext, Hmax. by apply Z.mod_pos_bound.
    + rewrite Hnext. f_equal. lia.
    + rewrite Nat.add_1_r, cycle_S, <-Hlog. by rewrite Hnext.
    + pose proof (fmap_insert_sum calls _ _ _ (mkThread n None (rs ++ [next])) Hi) as H1.
      unfold remaining in *. simpl in *. lia.
    + unfold results. simpl. rewrite (concat_insert _ _ _ _ [next] Hi) by done. by rewrite Hres.
    + intros t [j Hj]%list_elem_of_lookup Hl. apply list_lookup_insert_Some in Hj as [(<- & <- & _)|[_ Hj]];
        [done|]. eapply Hld; [by eapply list_elem_of_lookup_2|done].
  - split; simpl; try done.
    + pose proof (fmap_insert_sum calls _ _ _ (mkThread (S n) None rs) Hi) as H1.
      unfold remaining in *. simpl in *. lia.
    + unfold results. simpl. rewrite (concat_insert _ _ _ _ [] Hi) by by rewrite app_nil_r.
      by rewrite app_nil_r.
    + intros t [j Hj]%list_elem_of_lookup Hl. apply list_lookup_insert_Some in Hj as [(<- & <- & _)|[_ Hj]];
        [done|]. eapply Hld; [by eapply list_elem_of_lookup_2|done].
Qed.

(** The goroutines before their first call. *)
Definition initial (r : RoundRobin) (ns : list nat) : state :=
  mkState r ((λ n, mkThread n None []) <$> ns) [].

Lemma rr_inv_initial r ns :
  wf r → inv (maximum r) (counter r) (sum_list ns) (initial r ns).
Proof.
  intros Hwf. split; simpl; try done.
  - destruct Hwf. by rewrite Z.add_0_r, Z.mod_small.
  - unfold remaining. simpl. f_equal. induction ns as [|n ns IH]; [done|]. rewrite !fmap_cons. by f_equal.
  - unfold results. simpl. by induction ns.
  - intros t (n & -> & _)%list_elem_of_fmap. done.
Qed.

(** A state without a step has no call left. *)
Lemma stuck_done max start total s :
  inv max start total s → (∀ s', ¬ step s s') → remaining s = 0%nat.
Proof.
  intros Hinv Hstuck. unfold remaining.
  assert (∀ t, t ∈ threads s → calls t = 0%nat) as H0.
  { intros [[|n] l rs] [i Hi]%list_elem_of_lookup; [done|]. exfalso. destruct l as [c|].
    - destruct (decide (c = counter (rr s))) as [->|Hne].
      + eapply Hstuck. by eapply step_swap.
      + eapply Hstuck. by eapply step_retry.
    - eapply Hstuck. by eapply step_load. }
  clear -H0. induction (threads s) as [|t ts IH]; [done|]. rewrite fmap_cons. simpl.
  rewrite H0 by by left. simpl. apply IH. intros t' Ht'. apply H0. by right.
Qed.

(** C38. Lock freedom and fairness of the round robin.  However the loads and
    swaps of any number of goroutines interleave, no execution is infinite; one
    that cannot continue has finished every call, and the results of all calls
    together are exactly the positions after the start in cyclic order, each
    handed out once per round. *)
Theorem round_robin_completes r ns :
  wf r →
  Acc (flip step) (initial r ns) ∧
  ∀ s, rtc step (initial r ns) s → (∀ s', ¬ step s s') →
    Forall (λ t, calls t = 0%nat) (threads s) ∧
    log s = cycle (maximum r) (counter r) (sum_list ns) ∧
    results s ≡ₚ cycle (maximum r) (counter r) (sum_list ns).
Proof.
  intros Hwf. split; [apply step_terminates|]. intros s Hr Hstuck.
  assert (inv (maximum r) (counter r) (sum_list ns) s) as Hinv.
  { eapply (rtc_invariant step (inv _ _ _)); [|exact Hr|by apply rr_inv_initial].
    intros a b Ha Hab. by eapply rr_inv_step. }
  pose proof (stuck_done _ _ _ _ Hinv Hstuck) as Hrem.
  destruct Hinv as [_ _ _ Hlog Htot Hres _]. rewrite Hrem, Nat.add_0_r in Htot.
  rewrite Htot in Hlog. split_and!; [|done|by rewrite Hres, Hlog].
  clear -Hrem. unfold remaining in Hrem. induction (threads s) as [|t ts IH]; constructor;
    rewrite fmap_cons in Hrem; simpl in Hrem; [lia|apply IH; lia].
Qed.

Lemma round_robin_completes_witness :
  Acc (flip step) (initial (mkRoundRobin 3 0) [2; 3]%nat).
Proof. apply (round_robin_completes (mkRoundRobin 3 0) [2; 3]%nat). done. Defined.

(** [Set] keeps the counter in range, so [Next] always has a position to
    return. *)
Lemma Set_wf r v r' err : wf r → Set_ (Some r) v = (Some r', err) → wf r'.
Proof.
  unfold Set_. intros [? ?]. case_match; [by intros [= <- _]|]. case_match eqn:E; [by intros [= <- _]|].
  intros [= <- _]. bools. split; simpl; lia.
Qed.
