(* ===== verification/TextSearch.v ===== *)
(** * textsearch: the Aho-Corasick matcher

    Models [src/textsearch] types.go, errors.go, normalize.go, matcher.go,
    replace.go and blockword.go.  A string is the list of its code points
    ([GoText.v]); the offsets of a match are byte offsets as in the code.  The
    tables of package [unicode], [strings.ToLower] and the segments of
    [norm.Iter] are parameters, and so is the order in which [range] visits a
    map of children. *)

From S2P Require Import Prelude GoError GoText.

Local Open Scope Z_scope.

Definition ErrEmptyPattern : error := Sentinel "textsearch.ErrEmptyPattern".
Definition ErrNoPatterns : error := Sentinel "textsearch.ErrNoPatterns".
Definition ErrDuplicatePatternID : error := Sentinel "textsearch.ErrDuplicatePatternID".
Definition ErrBlockwordTextTooLong : error := Sentinel "textsearch.ErrBlockwordTextTooLong".
Definition ErrBlankBlockwordText : error := Sentinel "textsearch.ErrBlankBlockwordText".

Inductive NormalizeMode : Type := NormalizeNone | NormalizeNFC | NormalizeNFKC.
Inductive BoundaryMode : Type := BoundaryNone | BoundaryASCIIWord | BoundaryUnicodeWord.
Inductive OverlapMode : Type := OverlapAll | OverlapLeftmostLongest.

#[export] Instance NormalizeMode_eq_dec : EqDecision NormalizeMode.
Proof. solve_decision. Defined.
#[export] Instance OverlapMode_eq_dec : EqDecision OverlapMode.
Proof. solve_decision. Defined.

Record Pattern : Type := mkPattern {
  ID : text;
  Text : text
}.

Record Config : Type := mkConfig {
  IgnoreCase : bool;
  Normalize : NormalizeMode;
  Boundary : BoundaryMode;
  Overlap : OverlapMode
}.

Record Match : Type := mkMatch {
  m_Pattern : Pattern;
  Start : Z;
  End_ : Z;
  m_Text : text
}.

(** ** Byte offsets *)

(** The code points of a string with their byte offsets, from offset [o]. *)
Fixpoint offsets (o : Z) (s : text) : list (Z * Z) :=
  match s with
  | [] => []
  | r :: s' => (o, r) :: offsets (o + RuneLen r) s'
  end.

(** [s[a:b]]: the code points that start at a byte offset in [a, b). *)
Definition byteSlice (s : text) (a b : Z) : text :=
  (filter (λ p, a ≤ p.1 ∧ p.1 < b) (offsets 0 s)).*2.

(** [s[a:]] *)
Definition byteSliceFrom (s : text) (a : Z) : text :=
  (filter (λ p, a ≤ p.1) (offsets 0 s)).*2.

(** ** The matcher *)

Record normalizedText : Type := mkNormalized {
  nt_runes : text;
  nt_starts : list Z;
  nt_ends : list Z
}.

Record compiledPattern : Type := mkCompiled {
  cp_Pattern : Pattern;
  runes : text;
  length_ : Z;
  order : Z
}.

Record output : Type := mkOutput {
  out_pattern : nat;
  out_length : Z;
  out_order : Z
}.

Record node : Type := mkNode {
  next : gmap Z nat;
  fail : nat;
  outputs : list output
}.

Definition emptyNode : node := mkNode ∅ 0 [].

#[export] Instance node_inhabited : Inhabited node := populate emptyNode.

Record Matcher : Type := mkMatcher {
  cfg : Config;
  patterns : list compiledPattern;
  nodes : list node
}.

Record rankedMatch : Type := mkRanked {
  rm_Match : Match;
  startRune : Z;
  endRune : Z;
  rm_order : Z
}.

Definition setNext (n : node) (r : Z) (child : nat) : node := mkNode (<[r := child]> (next n)) (fail n) (outputs n).
Definition addOutputs (n : node) (os : list output) : node := mkNode (next n) (fail n) (outputs n ++ os).
Definition setFail (n : node) (f : nat) : node := mkNode (next n) f (outputs n).

(** The loop of [addPattern] over the runes. *)
Fixpoint addLoop (ns : list node) (state : nat) (rs : text) : list node * nat :=
  match rs with
  | [] => (ns, state)
  | r :: rest =>
      match next (ns !!! state) !! r with
      | Some nxt => addLoop ns nxt rest
      | None =>
          let nxt := length ns in
          addLoop (<[state := setNext (ns !!! state) r nxt]> ns ++ [emptyNode]) nxt rest
      end
  end.

Definition addPattern (ns : list node) (index : nat) (p : compiledPattern) : list node :=
  let '(ns, state) := addLoop ns 0 (runes p) in
  <[state := addOutputs (ns !!! state) [mkOutput index (length_ p) (order p)]]> ns.

(** [for failure != 0 { ... }]; every round shortens the word of the state, so
    as many rounds as there are nodes are enough. *)
Fixpoint failureLoop (ns : list node) (r : Z) (failure fuel : nat) : nat :=
  match fuel with
  | O => failure
  | S fuel' =>
      match failure with
      | O => O
      | _ =>
          match next (ns !!! failure) !! r with
          | Some nxt => nxt
          | None => failureLoop ns r (fail (ns !!! failure)) fuel'
          end
      end
  end.

(** The body of the loop over the children of [current]. *)
Definition linkChild (current : nat) (ns : list node) (r : Z) (child : nat) : list node :=
  let failure := failureLoop ns r (fail (ns !!! current)) (S (length ns)) in
  let failure :=
    if (failure =? 0)%nat then
      match next (ns !!! 0%nat) !! r with
      | Some nxt => if negb (nxt =? child)%nat then nxt else failure
      | None => failure
      end
    else failure in
  let ns := <[child := setFail (ns !!! child) failure]> ns in
  <[child := addOutputs (ns !!! child) (outputs (ns !!! failure))]> ns.

Section unicode.
Context (visit : gmap Z nat → list (Z * nat)).

(** The breadth-first loop; [queue] is [queue[head:]].  A node enters the queue
    once, so one round per node is enough. *)
Fixpoint queueLoop (ns : list node) (queue : list nat) (fuel : nat) : list node :=
  match queue, fuel with
  | [], _ => ns
  | _, O => ns
  | current :: rest, S fuel' =>
      let children := visit (next (ns !!! current)) in
      queueLoop (foldl (λ ns '(r, child), linkChild current ns r child) ns children)
        (rest ++ children.*2) fuel'
  end.

Definition buildFailures (ns : list node) : list node :=
  queueLoop ns (visit (next (ns !!! 0%nat))).*2 (length ns).

Context (ToLower : text → text) (unicode_IsLetter unicode_IsDigit : Z → bool).
Context (norm_Iter : NormalizeMode → text → list (text * Z * Z)).

(** [appendNormalizedSegment] over the segments of the input. *)
Definition appendNormalizedSegment (c : Config) (n : normalizedText) (seg : text * Z * Z) : normalizedText :=
  let '(segment, start, end_) := seg in
  let segment := if IgnoreCase c then ToLower segment else segment in
  foldl (λ n r, mkNormalized (nt_runes n ++ [r]) (nt_starts n ++ [start]) (nt_ends n ++ [end_])) n segment.

Definition normalizeByRuneSegments (input : text) (c : Config) : normalizedText :=
  foldl (appendNormalizedSegment c) (mkNormalized [] [] [])
    (map (λ p, ([p.2], p.1, p.1 + RuneLen p.2)) (offsets 0 input)).

Definition normalizeString (input : text) (c : Config) : normalizedText :=
  match input with
  | [] => mkNormalized [] [] []
  | _ =>
      if decide (Normalize c = NormalizeNone) then normalizeByRuneSegments input c
      else foldl (appendNormalizedSegment c) (mkNormalized [] [] []) (norm_Iter (Normalize c) input)
  end.

Definition normalizedPatternText (p : Pattern) (index : nat) (c : Config) : result compiledPattern :=
  match Text p with
  | [] => Fail ErrEmptyPattern
  | _ =>
      let p := match ID p with [] => mkPattern (Itoa index) (Text p) | _ => p end in
      let normalized := normalizeString (Text p) c in
      match nt_runes normalized with
      | [] => Fail ErrEmptyPattern
      | rs => Ok (mkCompiled p rs (Z.of_nat (length rs)) (Z.of_nat index))
      end
  end.

(** The loop of [Compile] from [index]. *)
Fixpoint compileLoop (c : Config) (index : nat) (ps : list Pattern) (ns : list node)
    (compiled : list compiledPattern) : result (list node * list compiledPattern) :=
  match ps with
  | [] => Ok (ns, compiled)
  | p :: rest =>
      match normalizedPatternText p index c with
      | Fail e => Fail e
      | Ok cp =>
          compileLoop c (S index) rest (addPattern ns (length compiled) cp) (compiled ++ [cp])
      end
  end.

Definition Compile (ps : list Pattern) (c : Config) : result Matcher :=
  match ps with
  | [] => Fail ErrNoPatterns
  | _ =>
      match compileLoop c 0 ps [emptyNode] [] with
      | Fail e => Fail e
      | Ok (ns, compiled) => Ok (mkMatcher c compiled (buildFailures ns))
      end
  end.

Definition CompileStrings (ps : list text) (c : Config) : result Matcher :=
  Compile (map (mkPattern []) ps) c.

(** ** Searching *)

Definition isASCIIWordRune (r : Z) : bool :=
  (r =? 95) || ((48 <=? r) && (r <=? 57)) || ((65 <=? r) && (r <=? 90)) || ((97 <=? r) && (r <=? 122)).

Definition isUnicodeWordRune (r : Z) : bool := (r =? 95) || unicode_IsLetter r || unicode_IsDigit r.

Definition isBoundary (rs : text) (start end_ : Z) (word : Z → bool) : bool :=
  ((start =? 0) || negb (word (rs !!! Z.to_nat (start - 1)))) &&
  ((end_ =? Z.of_nat (length rs)) || negb (word (rs !!! Z.to_nat end_))).

Definition acceptBoundary (c : Config) (rs : text) (start end_ : Z) : bool :=
  match Boundary c with
  | BoundaryASCIIWord => isBoundary rs start end_ isASCIIWordRune
  | BoundaryUnicodeWord => isBoundary rs start end_ isUnicodeWordRune
  | BoundaryNone => true
  end.

(** [for state != 0 { ... }] and the transition after it. *)
Fixpoint advanceLoop (ns : list node) (r : Z) (state fuel : nat) : nat :=
  match fuel with
  | O => state
  | S fuel' =>
      match state with
      | O => O
      | _ => if decide (is_Some (next (ns !!! state) !! r)) then state
             else advanceLoop ns r (fail (ns !!! state)) fuel'
      end
  end.

Definition advance (ns : list node) (state : nat) (r : Z) : nat :=
  let state := advanceLoop ns r state (S (length ns)) in
  match next (ns !!! state) !! r with
  | Some nxt => nxt
  | None => state
  end.

(** The match of one output that ends at [index], when its start and its
    boundaries are accepted. *)
Definition matchOf (c : Config) (ps : list compiledPattern) (input : text) (n : normalizedText)
    (index : Z) (out : output) : option rankedMatch :=
  let start := index - out_length out + 1 in
  if (start <? 0) || negb (acceptBoundary c (nt_runes n) start (index + 1)) then None
  else
    let s := nt_starts n !!! Z.to_nat start in
    let e := nt_ends n !!! Z.to_nat index in
    match ps !! out_pattern out with
    | None => None
    | Some p => Some (mkRanked (mkMatch (cp_Pattern p) s e (byteSlice input s e)) start (index + 1)
                        (out_order out))
    end.

(** The loop over the runes from [index]. *)
Fixpoint scanLoop (c : Config) (ps : list compiledPattern) (ns : list node) (input : text)
    (n : normalizedText) (index : Z) (state : nat) (rs : text) (matches : list rankedMatch) :
    list rankedMatch :=
  match rs with
  | [] => matches
  | r :: rest =>
      let state := advance ns state r in
      scanLoop c ps ns input n (index + 1) state rest
        (matches ++ omap (matchOf c ps input n index) (outputs (ns !!! state)))
  end.

(** [left] does not come after [right] in [sortRankedMatches]. *)
Definition rankedLess (left right : rankedMatch) : bool :=
  let l := rm_Match left in
  let r := rm_Match right in
  if negb (Start l =? Start r) then Start l <? Start r
  else
    let leftLen := End_ l - Start l in
    let rightLen := End_ r - Start r in
    if negb (leftLen =? rightLen) then rightLen <? leftLen
    else rm_order left <? rm_order right.

Definition rankedLe (left right : rankedMatch) : Prop := rankedLess right left = false.
#[local] Instance rankedLe_dec : RelDecision rankedLe.
Proof. intros a b. unfold rankedLe. apply _. Defined.

(** [sort.SliceStable] *)
Definition sortRankedMatches (matches : list rankedMatch) : list rankedMatch := merge_sort rankedLe matches.

(** The greedy selection of matches that do not overlap, by start and end. *)
Fixpoint selectLoop {A} (start end_ : A → Z) (nextStart : Z) (matches : list A) : list A :=
  match matches with
  | [] => []
  | m :: rest =>
      if start m <? nextStart then selectLoop start end_ nextStart rest
      else m :: selectLoop start end_ (end_ m) rest
  end.

Definition selectLeftmostLongest (matches : list rankedMatch) : list rankedMatch :=
  selectLoop (λ m, Start (rm_Match m)) (λ m, End_ (rm_Match m)) 0 matches.

(** [find] after the scan. *)
Definition finish (c : Config) (firstOnly : bool) (matches : list rankedMatch) : list Match :=
  match matches with
  | [] => []
  | _ =>
      let matches := sortRankedMatches matches in
      let matches := if decide (Overlap c = OverlapLeftmostLongest)
                     then selectLeftmostLongest matches else matches in
      let matches := if firstOnly && (1 <? length matches)%nat then take 1 matches else matches in
      map rm_Match matches
  end.

Definition find (m : option Matcher) (input : text) (firstOnly : bool) : list Match :=
  match m with
  | None => []
  | Some mm =>
      let normalized := normalizeString input (cfg mm) in
      match nt_runes normalized with
      | [] => []
      | rs => finish (cfg mm) firstOnly
                (scanLoop (cfg mm) (patterns mm) (nodes mm) input normalized 0 0 rs [])
      end
  end.

Definition FindAll (m : option Matcher) (input : text) : list Match := find m input false.

Definition First (m : option Matcher) (input : text) : option Match := list.head (find m input true).

Definition Contains (m : option Matcher) (input : text) : bool := bool_decide (is_Some (First m input)).

(** ** Replacing *)

Definition findForReplacement (m : Matcher) (input : text) : list Match :=
  let c := cfg m in
  find (Some (mkMatcher (mkConfig (IgnoreCase c) (Normalize c) (Boundary c) OverlapLeftmostLongest)
                (patterns m) (nodes m))) input false.

(** The copying loop from [offset] and the text written after it: the text
    between the matches is kept. *)
Fixpoint replaceLoop {A} (start end_ : A → Z) (replacement : A → text) (input : text)
    (builder : text) (offset : Z) (matches : list A) : text :=
  match matches with
  | [] => builder ++ byteSliceFrom input offset
  | m :: rest =>
      replaceLoop start end_ replacement input
        ((builder ++ byteSlice input offset (start m)) ++ replacement m) (end_ m) rest
  end.

Definition Replace (m : option Matcher) (input : text) (replacer : option (Match → text)) : text :=
  match m, replacer with
  | Some mm, Some f =>
      match findForReplacement mm input with
      | [] => input
      | matches => replaceLoop Start End_ f input [] 0 matches
      end
  | _, _ => input
  end.

Definition Mask (m : option Matcher) (input : text) (mask : Z) : text :=
  Replace m input (Some (λ mt, replicate (length (m_Text mt)) mask)).

(** ** Blockwords *)

Definition MaxBlockwordTextLength : Z := 100000.

Inductive Severity : Type := SeverityLow | SeverityMiddle | SeverityHigh.

Definition severityValue (s : Severity) : Z :=
  match s with SeverityLow => 0 | SeverityMiddle => 1 | SeverityHigh => 2 end.

Record BlockwordEntry : Type := mkBlockword {
  bw_ID : text;
  bw_Text : text;
  bw_Severity : Severity;
  bw_Metadata : gmap text text
}.

Record BlockwordOptions : Type := mkBlockwordOptions {
  bo_Mask : text;
  MinSeverity : Severity
}.

Record BlockwordRequest : Type := mkBlockwordRequest {
  br_Text : text;
  br_Options : BlockwordOptions
}.

Record BlockwordMatch : Type := mkBlockwordMatch {
  Entry : BlockwordEntry;
  bm_Start : Z;
  bm_End : Z;
  bm_Text : text
}.

Record BlockwordResponse : Type := mkBlockwordResponse {
  Request : BlockwordRequest;
  MaskedText : text;
  Matches : list BlockwordMatch
}.

Record BlockwordDictionary : Type := mkDictionary {
  matcher : Matcher;
  bw_entries : gmap text BlockwordEntry
}.

Definition BlockwordExists (r : BlockwordResponse) : bool := (0 <? length (Matches r))%nat.

Definition BlockWords (r : BlockwordResponse) : list text := map (λ m, bw_Text (Entry m)) (Matches r).

Definition normalizeBlockwordOptions (o : BlockwordOptions) : BlockwordOptions :=
  match bo_Mask o with [] => mkBlockwordOptions (lit "*") (MinSeverity o) | _ => o end.

Definition NewBlockwordRequest (s : text) (o : BlockwordOptions) : result BlockwordRequest :=
  if MaxBlockwordTextLength <? Z.of_nat (length s) then
    Fail (Errorf "%w: %d chars (max %d)" [ErrBlockwordTextTooLong])
  else if decide (TrimSpace s = []) then Fail ErrBlankBlockwordText
  else Ok (mkBlockwordRequest s (normalizeBlockwordOptions o)).

(** The loop of [NewBlockwordDictionary] from index [i]. *)
Fixpoint dictionaryLoop (i : nat) (entries : list BlockwordEntry) (ps : list Pattern)
    (compiled : gmap text BlockwordEntry) : result (list Pattern * gmap text BlockwordEntry) :=
  match entries with
  | [] => Ok (ps, compiled)
  | e :: rest =>
      match bw_Text e with
      | [] => Fail ErrEmptyPattern
      | _ =>
          let id := match bw_ID e with [] => Itoa i | id => id end in
          match compiled !! id with
          | Some _ => Fail (Errorf "%w: %s" [ErrDuplicatePatternID])
          | None =>
              let e := mkBlockword id (bw_Text e) (bw_Severity e) (bw_Metadata e) in
              dictionaryLoop (S i) rest (ps ++ [mkPattern id (bw_Text e)]) (<[id := e]> compiled)
          end
      end
  end.

Definition NewBlockwordDictionary (entries : list BlockwordEntry) (c : Config) : result BlockwordDictionary :=
  match entries with
  | [] => Fail ErrNoPatterns
  | _ =>
      match dictionaryLoop 0 entries [] ∅ with
      | Fail e => Fail e
      | Ok (ps, compiled) =>
          match Compile ps (mkConfig (IgnoreCase c) (Normalize c) (Boundary c) OverlapAll) with
          | Fail e => Fail e
          | Ok m => Ok (mkDictionary m compiled)
          end
      end
  end.

Definition selectBlockwordLeftmostLongest (matches : list BlockwordMatch) : list BlockwordMatch :=
  selectLoop bm_Start bm_End 0 matches.

Definition Detect (d : option BlockwordDictionary) (s : text) (o : BlockwordOptions) : list BlockwordMatch :=
  match d with
  | None => []
  | Some dict =>
      let o := normalizeBlockwordOptions o in
      selectBlockwordLeftmostLongest
        (omap (λ m,
           match bw_entries dict !! ID (m_Pattern m) with
           | None => None
           | Some e =>
               if severityValue (bw_Severity e) <? severityValue (MinSeverity o) then None
               else Some (mkBlockwordMatch e (Start m) (End_ m) (m_Text m))
           end) (FindAll (Some (matcher dict)) s))
  end.

(** [strings.Repeat] *)
Definition Repeat (s : text) (n : nat) : text := concat (replicate n s).

Definition maskBlockwordMatches (input : text) (matches : list BlockwordMatch) (mask : text) : text :=
  match matches with
  | [] => input
  | _ => replaceLoop bm_Start bm_End (λ m, Repeat mask (length (bm_Text m))) input [] 0 matches
  end.

Definition Process (d : option BlockwordDictionary) (request : BlockwordRequest) : result BlockwordResponse :=
  match NewBlockwordRequest (br_Text request) (br_Options request) with
  | Fail e => Fail e
  | Ok normalized =>
      let matches := Detect d (br_Text normalized) (br_Options normalized) in
      Ok (mkBlockwordResponse normalized
            (maskBlockwordMatches (br_Text normalized) matches (bo_Mask (br_Options normalized))) matches)
  end.

Definition Dictionary_Mask (d : option BlockwordDictionary) (s : text) (o : BlockwordOptions) : result text :=
  match NewBlockwordRequest s o with
  | Fail e => Fail e
  | Ok request =>
      match Process d request with
      | Fail e => Fail e
      | Ok response => Ok (MaskedText response)
      end
  end.
End unicode.
