(* ===== verification/TextSearchTrie.v ===== *)
(** * textsearch: the automaton

    The trie that [addPattern] builds, the failure links that [buildFailures]
    sets, and the state the scan is in: after reading [w] it is the node of the
    longest suffix of [w] that is a path of the trie. *)

From S2P Require Import Prelude GoError GoText TextSearch.

Local Open Scope nat_scope.

(** ** Paths *)

(** The node reached from [s] along [w]. *)
Fixpoint walk (ns : list node) (s : nat) (w : text) : option nat :=
  match w with
  | [] => Some s
  | r :: w' => match next (ns !!! s) !! r with Some t => walk ns t w' | None => None end
  end.

Lemma walk_app ns s w w' : walk ns s (w ++ w') = walk ns s w ≫= λ t, walk ns t w'.
Proof. revert s. induction w as [|r w IH]; intros s; simpl; [done|]. by destruct (next _ !! r). Qed.

Lemma walk_snoc ns s w r : walk ns s (w ++ [r]) = walk ns s w ≫= λ t, next (ns !!! t) !! r.
Proof. rewrite walk_app. destruct (walk ns s w) as [t|]; simpl; [|done]. by destruct (next _ !! r). Qed.

Lemma walk_ext ns ns' s w :
  (∀ t, next (ns' !!! t) = next (ns !!! t)) → walk ns' s w = walk ns s w.
Proof.
  intros Hn. revert s. induction w as [|r w IH]; intros s; simpl; [done|]. rewrite Hn.
  by destruct (next _ !! r).
Qed.

(** Every node is reached by exactly one word. *)
Record trie (ns : list node) : Prop := {
  trie_range w s : walk ns 0 w = Some s → s < length ns;
  trie_inj w w' s : walk ns 0 w = Some s → walk ns 0 w' = Some s → w = w';
  trie_reach s : s < length ns → ∃ w, walk ns 0 w = Some s
}.

Lemma trie_root_word ns w : trie ns → walk ns 0 w = Some 0 → w = [].
Proof. intros Ht Hw. eapply (trie_inj ns Ht); [exact Hw|done]. Qed.

(** ** Adding patterns *)

(** The outputs at the node of a word. *)
Definition outputsAt (ns : list node) (w : text) : list output :=
  match walk ns 0 w with Some t => outputs (ns !!! t) | None => [] end.

(** [ns] with a new child of [s] under [r]. *)
Definition grow (ns : list node) (s : nat) (r : Z) : list node :=
  <[s := setNext (ns !!! s) r (length ns)]> ns ++ [emptyNode].

Lemma grow_old ns s r u :
  s < length ns → u < length ns →
  grow ns s r !!! u = if decide (u = s) then setNext (ns !!! s) r (length ns) else ns !!! u.
Proof.
  intros Hs Hu. unfold grow. rewrite lookup_total_app_l by by rewrite length_insert.
  case_decide as E; [subst; by rewrite list_lookup_total_insert_eq|].
  by rewrite list_lookup_total_insert_ne by done.
Qed.

Lemma grow_new ns s r : grow ns s r !!! length ns = emptyNode.
Proof.
  unfold grow. rewrite lookup_total_app_r by by rewrite length_insert.
  by rewrite length_insert, Nat.sub_diag.
Qed.

Lemma length_grow ns s r : length (grow ns s r) = S (length ns).
Proof. unfold grow. rewrite length_app, length_insert. simpl. lia. Qed.

Lemma walk_grow ns s r ws w t :
  trie ns → walk ns 0 ws = Some s → next (ns !!! s) !! r = None →
  walk (grow ns s r) 0 w = Some t ↔ walk ns 0 w = Some t ∨ (w = ws ++ [r] ∧ t = length ns).
Proof.
  intros Ht Hs Hr. pose proof (trie_range ns Ht _ _ Hs) as Hslt. revert t.
  induction w as [|x w IH] using rev_ind; intros t.
  { simpl. split; [by left|]. intros [?|[H _]]; [done|]. by destruct ws. }
  rewrite !walk_snoc, !bind_Some. split.
  - intros (u & [Hu|[-> ->]]%IH & Hx).
    + pose proof (trie_range ns Ht _ _ Hu) as Hult. rewrite grow_old in Hx by done.
      case_decide as E; [subst u|left; eauto]. assert (w = ws) as -> by by eapply (trie_inj ns Ht).
      cbn [next setNext] in Hx. apply lookup_insert_Some in Hx as [[<- <-]|[_ Hx]]; [by right|left; eauto].
    + by rewrite grow_new in Hx.
  - intros [(u & Hu & Hx)|[[-> ->]%app_inj_tail ->]].
    + exists u. split; [apply IH; by left|]. rewrite grow_old by eauto using trie_range.
      case_decide as E; [subst u|done]. cbn [next setNext]. rewrite lookup_insert_ne; [done|]. congruence.
    + exists s. split; [apply IH; by left|]. rewrite grow_old, decide_True by done.
      cbn [next setNext]. by rewrite lookup_insert_eq.
Qed.

Lemma grow_trie ns s r ws :
  trie ns → walk ns 0 ws = Some s → next (ns !!! s) !! r = None → trie (grow ns s r).
Proof.
  intros Ht Hs Hr. pose proof (λ w t, walk_grow ns s r ws w t Ht Hs Hr) as Hw. split.
  - intros w t [H|[_ ->]]%Hw; rewrite length_grow; [|lia]. apply (trie_range ns Ht) in H. lia.
  - intros w w' t [H|[-> ->]]%Hw [H'|[-> E]]%Hw; subst.
    + by eapply (trie_inj ns Ht).
    + apply (trie_range ns Ht) in H. lia.
    + apply (trie_range ns Ht) in H'. lia.
    + done.
  - intros t Hlt. rewrite length_grow in Hlt. destruct (decide (t = length ns)) as [->|Hne].
    + exists (ws ++ [r]). apply Hw. by right.
    + destruct (trie_reach ns Ht t) as [w H]; [lia|]. exists w. apply Hw. by left.
Qed.

Lemma outputsAt_grow ns s r ws w :
  trie ns → walk ns 0 ws = Some s → next (ns !!! s) !! r = None →
  outputsAt (grow ns s r) w = outputsAt ns w.
Proof.
  intros Ht Hs Hr. unfold outputsAt. destruct (walk (grow ns s r) 0 w) as [t|] eqn:E.
  - apply (walk_grow ns s r ws w t Ht Hs Hr) in E as [E|[-> ->]].
    + rewrite E, grow_old by eauto using trie_range. case_decide; [by subst|done].
    + rewrite grow_new. rewrite walk_snoc, Hs. simpl. by rewrite Hr.
  - destruct (walk ns 0 w) as [t|] eqn:E'; [|done].
    assert (walk (grow ns s r) 0 w = Some t); [|congruence]. eapply walk_grow; eauto.
Qed.

(** No failure link is set yet. *)
Definition unlinked (ns : list node) : Prop := ∀ t, fail (ns !!! t) = 0.

Lemma grow_unlinked ns s r : s < length ns → unlinked ns → unlinked (grow ns s r).
Proof.
  intros Hs Hu t. destruct (decide (t < length ns)) as [Ht|Ht].
  - rewrite grow_old by done. case_decide; [apply Hu|apply Hu].
  - destruct (decide (t = length ns)) as [->|Hne]; [by rewrite grow_new|].
    rewrite list_lookup_total_alt, lookup_ge_None_2; [done|]. rewrite length_grow. lia.
Qed.

Lemma addLoop_spec rs ns s ws ns' s' :
  trie ns → unlinked ns → walk ns 0 ws = Some s → addLoop ns s rs = (ns', s') →
  trie ns' ∧ unlinked ns' ∧ walk ns' 0 (ws ++ rs) = Some s' ∧ (∀ w, outputsAt ns' w = outputsAt ns w).
Proof.
  revert ns s ws. induction rs as [|r rs IH]; intros ns s ws Ht Hu Hs; simpl.
  { intros [= <- <-]. by rewrite app_nil_r. }
  assert (ws ++ r :: rs = (ws ++ [r]) ++ rs) as -> by by rewrite <-(assoc_L app).
  destruct (next (ns !!! s) !! r) as [nxt|] eqn:Er; intros H.
  - eapply IH in H; [done..|]. by rewrite walk_snoc, Hs.
  - fold (grow ns s r) in H. eapply (IH (grow ns s r)) in H.
    + destruct H as (? & ? & ? & Ho). split_and!; try done. intros w.
      by rewrite Ho, (outputsAt_grow ns s r ws).
    + by eapply grow_trie.
    + apply grow_unlinked; [by eapply trie_range|done].
    + eapply walk_grow; [done..|]. by right.
Qed.

(** Changing one node but not its children. *)
Lemma insert_next (ns : list node) s n t :
  next n = next (ns !!! s) → next (<[s := n]> ns !!! t) = next (ns !!! t).
Proof.
  intros Hn. destruct (decide (s = t)) as [<-|Hne]; [|by rewrite list_lookup_total_insert_ne].
  destruct (decide (s < length ns)) as [Hs|Hs].
  - by rewrite list_lookup_total_insert_eq.
  - by rewrite list_insert_ge by lia.
Qed.

Lemma trie_ext ns ns' :
  length ns' = length ns → (∀ t, next (ns' !!! t) = next (ns !!! t)) → trie ns → trie ns'.
Proof.
  intros Hl Hn [H1 H2 H3]. pose proof (λ w, walk_ext ns ns' 0 w Hn) as Hw. split.
  - intros w s. rewrite Hw, Hl. apply H1.
  - intros w w' s. rewrite !Hw. apply H2.
  - intros s. rewrite Hl. intros [w Hs]%H3. exists w. by rewrite Hw.
Qed.

Definition outputOf (index : nat) (p : compiledPattern) : output := mkOutput index (length_ p) (order p).

Lemma addPattern_spec ns index p :
  trie ns → unlinked ns →
  trie (addPattern ns index p) ∧ unlinked (addPattern ns index p) ∧
  ∀ w, outputsAt (addPattern ns index p) w =
       outputsAt ns w ++ (if decide (runes p = w) then [outputOf index p] else []).
Proof.
  intros Ht Hu. unfold addPattern. destruct (addLoop ns 0 (runes p)) as [ns' s] eqn:E.
  destruct (addLoop_spec (runes p) ns 0 [] ns' s Ht Hu eq_refl E) as (Ht' & Hu' & Hs & Ho).
  simpl in Hs. fold (outputOf index p). set (n := addOutputs (ns' !!! s) [outputOf index p]).
  pose proof (trie_range ns' Ht' _ _ Hs) as Hlt.
  assert (∀ t, next (<[s := n]> ns' !!! t) = next (ns' !!! t)) as Hn by by intros; apply insert_next.
  split; [by eapply trie_ext; [apply length_insert|done|done]|]. split.
  - intros t. destruct (decide (s = t)) as [<-|Hne].
    + rewrite list_lookup_total_insert_eq by done. apply Hu'.
    + rewrite list_lookup_total_insert_ne by done. apply Hu'.
  - intros w. rewrite <-Ho. unfold outputsAt. rewrite (walk_ext ns') by done.
    destruct (walk ns' 0 w) as [t|] eqn:Ew.
    + destruct (decide (s = t)) as [<-|Hne].
      * rewrite list_lookup_total_insert_eq by done.
        assert (w = runes p) as -> by by eapply (trie_inj ns' Ht'). by rewrite decide_True.
      * rewrite list_lookup_total_insert_ne by done. rewrite decide_False, app_nil_r; [done|].
        intros <-. congruence.
    + rewrite decide_False; [done|]. intros <-. congruence.
Qed.

(** The patterns equal to a word, as outputs in the order of the patterns. *)
Definition own (cps : list compiledPattern) (w : text) : list output :=
  omap (λ '(i, p), if decide (runes p = w) then Some (outputOf i p) else None) (imap pair cps).

Lemma own_snoc cps p w :
  own (cps ++ [p]) w = own cps w ++ (if decide (runes p = w) then [outputOf (length cps) p] else []).
Proof.
  unfold own. rewrite imap_app, omap_app. f_equal. simpl. rewrite Nat.add_0_r. by case_decide.
Qed.

(** ** Longest suffixes *)

Section automaton.
Context (ns0 : list node) (Htrie : trie ns0) (Hunlinked : unlinked ns0)
        (Hroot : outputsAt ns0 [] = []).
Notation path w := (walk ns0 0 w).

(** The longest suffix of [w] that is a path. *)
Fixpoint longest (w : text) : text :=
  if decide (is_Some (path w)) then w else match w with [] => [] | _ :: w' => longest w' end.

Lemma longest_path w : is_Some (path (longest w)).
Proof. induction w as [|r w IH]; cbn [longest]; case_decide as H; done. Qed.

Lemma longest_length w : length (longest w) ≤ length w.
Proof. induction w as [|r w IH]; cbn [longest]; case_decide; simpl; lia. Qed.

Lemma longest_of_path w : is_Some (path w) → longest w = w.
Proof. intros Hw. destruct w; cbn [longest]; by rewrite decide_True. Qed.

Lemma longest_cons r w : path (r :: w) = None → longest (r :: w) = longest w.
Proof. intros Hw. cbn [longest]. rewrite decide_False; [done|]. rewrite Hw. by intros [? ?]. Qed.

Lemma path_prefix w w' : is_Some (path (w ++ w')) → is_Some (path w).
Proof. rewrite walk_app. intros [t Ht]. apply bind_Some in Ht as (u & -> & _). eauto. Qed.

(** Reading one more rune only depends on the longest suffix. *)
Lemma longest_snoc w r : longest (w ++ [r]) = longest (longest w ++ [r]).
Proof.
  induction w as [|c w IH]; [by cbn [longest]; rewrite decide_True by by eexists|].
  destruct (path (c :: w)) as [t|] eqn:E; [by rewrite (longest_of_path (c :: w)) by by eexists|].
  rewrite (longest_cons c w E), <-IH. cbn [app]. apply longest_cons.
  destruct (path (c :: w ++ [r])) eqn:E'; [|done].
  destruct (path_prefix (c :: w) [r]) as [? ?]; [by eexists|congruence].
Qed.

(** The outputs of a word: those of all its suffixes, longest first. *)
Fixpoint allOutputs (w : text) : list output :=
  match w with
  | [] => []
  | _ :: w' => outputsAt ns0 w ++ allOutputs w'
  end.

Lemma allOutputs_longest w : allOutputs (longest w) = allOutputs w.
Proof.
  induction w as [|r w IH]; [cbn [longest]; by case_decide|].
  destruct (path (r :: w)) as [t|] eqn:E; [by rewrite longest_of_path by by eexists|].
  rewrite longest_cons, IH by done. cbn [allOutputs]. unfold outputsAt. by rewrite E.
Qed.

(** ** Linked nodes *)

Definition sameNext (ns : list node) : Prop :=
  length ns = length ns0 ∧ ∀ t, next (ns !!! t) = next (ns0 !!! t).

(** The failure link and the outputs of the node of [w] are final. *)
Definition linked (ns : list node) (w : text) : Prop :=
  ∀ s, path w = Some s →
  path (longest (tail w)) = Some (fail (ns !!! s)) ∧ outputs (ns !!! s) = allOutputs w.

Lemma tail_length (w : text) : length (tail w) ≤ length w - 1.
Proof. destruct w; simpl; lia. Qed.

Lemma failureLoop_spec ns r v f fuel :
  sameNext ns → (∀ w, length w ≤ length v → linked ns w) →
  path v = Some f → length v < fuel →
  let g := failureLoop ns r f fuel in
  (g ≠ 0 ∧ path (longest (v ++ [r])) = Some g) ∨ (g = 0 ∧ longest (v ++ [r]) = longest [r]).
Proof.
  intros [_ Hn]. revert v f. induction fuel as [|fuel IH]; intros v f Hl Hv Hf; [lia|]. simpl.
  destruct f as [|f].
  { right. split; [done|]. by rewrite (trie_root_word ns0 v Htrie Hv). }
  rewrite Hn. destruct (next (ns0 !!! S f) !! r) as [nxt|] eqn:Er.
  - left. assert (path (v ++ [r]) = Some nxt) as Hp by by rewrite walk_snoc, Hv.
    rewrite longest_of_path by by eexists. split; [|done]. intros ->.
    apply trie_root_word in Hp; [by destruct v|done].
  - destruct v as [|c v]; [done|].
    destruct (Hl (c :: v) (le_n _) _ Hv) as [Hfail _]. cbn [tail] in Hfail.
    assert (longest ((c :: v) ++ [r]) = longest (longest v ++ [r])) as ->.
    { rewrite <-longest_snoc. cbn [app]. apply longest_cons. change (c :: v ++ [r]) with ((c :: v) ++ [r]).
      by rewrite walk_snoc, Hv. }
    apply IH; [|done|].
    + intros w Hw. apply Hl. pose proof (longest_length v). simpl. lia.
    + pose proof (longest_length v). simpl in Hf. lia.
Qed.

Lemma depth_bound w s : path w = Some s → length w < length ns0.
Proof.
  intros Hw.
  assert (∀ i, i ≤ length w → ∃ t, path (take i w) = Some t) as Hpre.
  { intros i Hi. apply (path_prefix (take i w) (drop i w)). rewrite take_drop. by eexists. }
  set (f i := match path (take i w) with Some t => t | None => 0 end).
  assert (NoDup (f <$> seq 0 (S (length w)))) as Hnd.
  { apply NoDup_fmap_2_strong; [|apply NoDup_seq]. intros i j Hi Hj Hij.
    apply elem_of_seq in Hi, Hj. unfold f in Hij.
    destruct (Hpre i) as [ti Hti]; [lia|]. destruct (Hpre j) as [tj Htj]; [lia|].
    rewrite Hti, Htj in Hij. subst tj. pose proof (trie_inj ns0 Htrie _ _ _ Hti Htj) as Heq.
    apply (f_equal length) in Heq. rewrite !length_take in Heq. lia. }
  assert (f <$> seq 0 (S (length w)) ⊆ seq 0 (length ns0)) as Hsub.
  { intros t (i & -> & Hi)%list_elem_of_fmap. apply elem_of_seq in Hi. apply elem_of_seq. unfold f.
    destruct (Hpre i) as [ti Hti]; [lia|]. rewrite Hti. apply (trie_range ns0 Htrie) in Hti. lia. }
  pose proof (submseteq_length _ _ (NoDup_submseteq _ _ Hnd Hsub)) as Hlen.
  rewrite length_fmap, !length_seq in Hlen. lia.
Qed.

Lemma node_of_word w w' s : path w = Some s → path w' = Some s → w = w'.
Proof. apply (trie_inj ns0 Htrie). Qed.

Lemma linkChild_spec ns w current r child :
  sameNext ns → w ≠ [] → path w = Some current → next (ns0 !!! current) !! r = Some child →
  (∀ v, length v ≤ length w → linked ns v) → outputs (ns !!! child) = outputsAt ns0 (w ++ [r]) →
  let ns' := linkChild current ns r child in
  sameNext ns' ∧ linked ns' (w ++ [r]) ∧ ∀ t, t ≠ child → ns' !!! t = ns !!! t.
Proof.
  intros Hsame Hw Hc Hr Hl Ho. pose proof Hsame as [Hlen Hn]. unfold linkChild. cbv zeta.
  assert (path (w ++ [r]) = Some child) as Hchild by by rewrite walk_snoc, Hc.
  destruct (Hl w (le_n _) _ Hc) as [Hf _].
  set (v := longest (tail w)) in *.
  assert (length v ≤ length w - 1) as Hvl.
  { pose proof (longest_length (tail w)). pose proof (tail_length w). unfold v. lia. }
  assert (longest (tail (w ++ [r])) = longest (v ++ [r])) as Htail.
  { unfold v. rewrite <-longest_snoc. by destruct w. }
  set (g := failureLoop ns r (fail (ns !!! current)) (S (length ns))).
  assert ((g ≠ 0 ∧ path (longest (v ++ [r])) = Some g) ∨ (g = 0 ∧ longest (v ++ [r]) = longest [r])) as Hg.
  { apply failureLoop_spec; [done| |done|].
    - intros u Hu. apply Hl. lia.
    - rewrite Hlen. pose proof (depth_bound v _ Hf). lia. }
  set (failure := if (g =? 0)%nat then _ else g).
  assert (path (longest (tail (w ++ [r]))) = Some failure) as Hfailure.
  { rewrite Htail. unfold failure. destruct Hg as [[Hg0 Hg]|[-> Hg]].
    - by rewrite (proj2 (Nat.eqb_neq g 0)).
    - rewrite Nat.eqb_refl, Hg, Hn. destruct (next (ns0 !!! 0) !! r) as [nxt|] eqn:E.
      + assert (path [r] = Some nxt) as Hp by (simpl; by rewrite E).
        rewrite longest_of_path, Hp by by eexists. rewrite (proj2 (Nat.eqb_neq nxt child)); [done|].
        intros ->. pose proof (node_of_word _ _ _ Hp Hchild) as Hx. by destruct w as [|? [|]].
      + assert (path [r] = None) as Hp by (simpl; by rewrite E). by rewrite longest_cons. }
  assert (failure ≠ child) as Hne.
  { intros ->. pose proof (node_of_word _ _ _ Hfailure Hchild) as Hx. apply (f_equal length) in Hx.
    pose proof (longest_length (tail (w ++ [r]))). pose proof (tail_length (w ++ [r])).
    rewrite length_app in *. simpl in *. lia. }
  pose proof (trie_range ns0 Htrie _ _ Hchild) as Hlt.
  rewrite list_insert_insert_eq. rewrite list_lookup_total_insert_eq by lia.
  rewrite list_lookup_total_insert_ne by done. split; [|split].
  - split; [by rewrite length_insert|]. intros t. rewrite insert_next; [apply Hn|done].
  - intros s Hs. rewrite Hchild in Hs. injection Hs as <-. rewrite list_lookup_total_insert_eq by lia.
    cbn [fail outputs addOutputs setFail]. split; [done|]. rewrite Ho.
    destruct (Hl (longest (tail (w ++ [r])))) with (s := failure) as [_ ->]; [|done|].
    { pose proof (longest_length (tail (w ++ [r]))). pose proof (tail_length (w ++ [r])).
      rewrite length_app in *. simpl in *. lia. }
    rewrite allOutputs_longest. by destruct w.
  - intros t Ht. by rewrite list_lookup_total_insert_ne.
Qed.

(** Linking all children of a node. *)
Lemma linkChildren_spec cs ns w current :
  sameNext ns → w ≠ [] → path w = Some current →
  Forall (λ rc, next (ns0 !!! current) !! rc.1 = Some rc.2) cs → NoDup cs.*2 →
  (∀ v, length v ≤ length w → linked ns v) →
  Forall (λ rc, outputs (ns !!! rc.2) = outputsAt ns0 (w ++ [rc.1])) cs →
  let ns' := foldl (λ ns '(r, child), linkChild current ns r child) ns cs in
  sameNext ns' ∧ Forall (λ rc, linked ns' (w ++ [rc.1])) cs ∧ ∀ t, t ∉ cs.*2 → ns' !!! t = ns !!! t.
Proof.
  revert ns. induction cs as [|[r c] cs IH]; intros ns Hs Hw Hc Hcs Hnd Hl Ho; simpl.
  { split_and!; [done|constructor|done]. }
  apply Forall_cons in Hcs as [Hr Hcs], Ho as [Ho Hos]. apply NoDup_cons in Hnd as [Hnin Hnd]. simpl in *.
  destruct (linkChild_spec ns w current r c Hs Hw Hc Hr Hl Ho) as (Hs' & Hlink & Hsame).
  assert (path (w ++ [r]) = Some c) as Hchild by by rewrite walk_snoc, Hc.
  assert (∀ v, length v ≤ length w → linked (linkChild current ns r c) v) as Hl'.
  { intros v Hv s Hvs. rewrite Hsame; [by apply Hl|]. intros ->.
    pose proof (node_of_word _ _ _ Hvs Hchild) as ->. rewrite length_app in Hv. simpl in Hv. lia. }
  destruct (IH (linkChild current ns r c) Hs' Hw Hc Hcs Hnd Hl') as (Hs'' & Hlinks & Hsame').
  { rewrite Forall_forall in *. intros rc Hrc. rewrite Hsame; [by apply Hos|].
    intros Heq. apply Hnin. rewrite <-Heq. by apply list_elem_of_fmap_2. }
  split_and!; [done| |].
  - constructor; [|done]. intros s Hvs. simpl in Hvs. rewrite Hchild in Hvs. injection Hvs as <-.
    rewrite Hsame' by done. by apply Hlink.
  - intros t [? ?]%not_elem_of_cons. rewrite Hsame' by done. by apply Hsame.
Qed.

(** ** The breadth-first loop *)

Context (visit : gmap Z nat → list (Z * nat)) (Hvisit : ∀ m, visit m ≡ₚ map_to_list m).

(** [s] is not deeper than [t]. *)
Definition shallower (s t : nat) : Prop :=
  ∀ u v, path u = Some s → path v = Some t → length u ≤ length v.

Record bfs (ns : list node) (done queue : list nat) : Prop := {
  bfs_same : sameNext ns;
  bfs_root : linked ns [];
  bfs_linked w s : path w = Some s → s ∈ done ++ queue → linked ns w;
  bfs_fresh w s : path w = Some s → w ≠ [] → s ∉ done ++ queue → outputs (ns !!! s) = outputsAt ns0 w;
  bfs_nodup : NoDup (done ++ queue);
  bfs_members u r s : path (u ++ [r]) = Some s →
    s ∈ done ++ queue ↔ u = [] ∨ ∃ p, path u = Some p ∧ p ∈ done;
  bfs_range s : s ∈ done ++ queue → s ≠ 0 ∧ s < length ns0;
  bfs_sorted : StronglySorted shallower queue;
  bfs_spread s t u v : s ∈ queue → t ∈ queue → path u = Some s → path v = Some t → length v ≤ length u + 1
}.

(** All nodes as shallow as the head of the queue are in the queue. *)
Lemma bfs_complete ns done current rest wc v s :
  bfs ns done (current :: rest) → path wc = Some current →
  v ≠ [] → length v ≤ length wc → path v = Some s → s ∈ done ++ current :: rest.
Proof.
  intros Hj Hwc. revert s. induction v as [|r u IH] using rev_ind; intros s Hne Hlen Hs; [done|].
  apply (bfs_members _ _ _ Hj u r s Hs). destruct (decide (u = [])) as [->|Hu]; [by left|]. right.
  destruct (path_prefix u [r]) as [p Hp]; [by eexists|]. exists p. split; [done|].
  rewrite length_app in Hlen. simpl in Hlen.
  specialize (IH p Hu ltac:(lia) Hp). apply elem_of_app in IH as [?|[->|Hrest]%elem_of_cons]; [done| |].
  - rewrite (node_of_word _ _ _ Hp Hwc) in Hlen. lia.
  - pose proof (bfs_sorted _ _ _ Hj) as [_ Hall]%StronglySorted_inv. rewrite Forall_forall in Hall.
    specialize (Hall p Hrest wc u Hwc Hp). lia.
Qed.

Lemma bfs_all_linked ns done current rest wc v :
  bfs ns done (current :: rest) → path wc = Some current → length v ≤ length wc → linked ns v.
Proof.
  intros Hj Hwc Hlen. destruct (decide (v = [])) as [->|Hne]; [apply Hj|].
  intros s Hs. eapply (bfs_linked _ _ _ Hj v s Hs); [|done]. by eapply bfs_complete.
Qed.

Lemma visit_spec ns t : sameNext ns →
  ∀ r c, (r, c) ∈ visit (next (ns !!! t)) ↔ next (ns0 !!! t) !! r = Some c.
Proof. intros [_ Hn] r c. by rewrite Hvisit, Hn, elem_of_map_to_list. Qed.

Lemma visit_nodup ns t w : sameNext ns → path w = Some t → NoDup (visit (next (ns !!! t))).*2.
Proof.
  intros Hs Hw. apply NoDup_fmap_2_strong; [|rewrite Hvisit; apply NoDup_map_to_list].
  intros [r c] [r' c'] H1%(visit_spec ns t Hs) H2%(visit_spec ns t Hs) Heq. simpl in Heq. subst c'.
  assert (w ++ [r] = w ++ [r']) as [_ ->]%app_inj_tail; [|done].
  by eapply node_of_word; rewrite walk_snoc, Hw.
Qed.

(** The children of one node are equally deep. *)
Lemma siblings_sorted w l :
  (∀ c, c ∈ l → ∃ r, path (w ++ [r]) = Some c) → StronglySorted shallower l.
Proof.
  induction l as [|c l IH]; intros Hall; constructor; [apply IH; intros; apply Hall; by right|].
  apply Forall_forall. intros t Ht u v Hu Hv.
  destruct (Hall c) as [r Hc]; [by left|]. destruct (Hall t) as [r' Ht']; [by right|].
  rewrite (node_of_word _ _ _ Hu Hc), (node_of_word _ _ _ Hv Ht'), !length_app. done.
Qed.

(** The children of the head of the queue are new. *)
Lemma bfs_children ns done current rest wc :
  bfs ns done (current :: rest) → path wc = Some current →
  let cs := visit (next (ns !!! current)) in
  wc ≠ [] ∧ (∀ c, c ∈ cs.*2 ↔ ∃ r, (r, c) ∈ cs) ∧
  (∀ r c, (r, c) ∈ cs → path (wc ++ [r]) = Some c ∧ c ∉ done ++ current :: rest).
Proof.
  intros Hj Hwc cs. pose proof Hj as [Hsame _ _ _ Hnd Hmem Hrange _ _].
  assert (wc ≠ []) as Hne.
  { intros ->. injection Hwc as <-. destruct (Hrange 0) as [? _]; [set_solver|done]. }
  assert (∀ r c, (r, c) ∈ cs → path (wc ++ [r]) = Some c) as Hpath.
  { intros r c H%(visit_spec ns current Hsame). by rewrite walk_snoc, Hwc. }
  split_and!; [done| |].
  - intros c. rewrite list_elem_of_fmap. split; [intros ([r c'] & -> & ?); eauto|intros [r ?]; by exists (r, c)].
  - intros r c Hc. split; [by apply Hpath|].
    intros [?|(p & Hp & Hin)]%(Hmem wc r c (Hpath _ _ Hc)); [done|].
    rewrite Hwc in Hp. injection Hp as <-. apply NoDup_app in Hnd as (_ & Hd & _). eapply Hd; [exact Hin|by left].
Qed.

(** The queue stays within two levels. *)
Lemma bfs_levels ns done current rest wc (cs : list nat) :
  bfs ns done (current :: rest) → path wc = Some current →
  (∀ c, c ∈ cs → ∃ r, path (wc ++ [r]) = Some c) →
  ∀ s u, s ∈ rest ++ cs → path u = Some s → length wc ≤ length u ≤ length wc + 1.
Proof.
  intros Hj Hwc Hcs s u [Hin|[r Hc]%Hcs]%elem_of_app Hu.
  - pose proof (bfs_sorted _ _ _ Hj) as [_ Hall]%StronglySorted_inv. rewrite Forall_forall in Hall.
    pose proof (Hall s Hin wc u Hwc Hu). split; [done|].
    eapply (bfs_spread _ _ _ Hj current s wc u); [by left|by right|done|done].
  - rewrite (node_of_word _ _ _ Hu Hc), length_app. simpl. lia.
Qed.

Lemma bfs_step ns done current rest wc :
  bfs ns done (current :: rest) → path wc = Some current →
  let cs := visit (next (ns !!! current)) in
  bfs (foldl (λ ns '(r, child), linkChild current ns r child) ns cs)
    (done ++ [current]) (rest ++ cs.*2).
Proof.
  intros Hj Hwc cs. pose proof Hj as [Hsame Hr Hlk Hfresh Hnd Hmem Hrange Hsort Hspread].
  destruct (bfs_children ns done current rest wc Hj Hwc) as (Hne & Hsnd & Hch). fold cs in Hsnd, Hch.
  assert (∀ r c, (r, c) ∈ cs → path (wc ++ [r]) = Some c) as Hpath by naive_solver.
  assert (∀ r c, (r, c) ∈ cs → c ∉ done ++ current :: rest) as Hnew by naive_solver.
  pose proof (visit_spec ns current Hsame) as Hcs. fold cs in Hcs.
  destruct (linkChildren_spec cs ns wc current Hsame Hne Hwc) as (Hsame' & Hlinks & Hkeep).
  { apply Forall_forall. intros [r c]. by apply Hcs. }
  { by eapply visit_nodup. }
  { intros v Hv. by eapply bfs_all_linked. }
  { apply Forall_forall. intros [r c] Hc. simpl. eapply Hfresh; [by apply Hpath|by destruct wc|by eapply Hnew]. }
  assert ((done ++ [current]) ++ rest ++ cs.*2 = (done ++ current :: rest) ++ cs.*2) as Happ
    by by rewrite <-!(assoc_L app).
  split; rewrite ?Happ.
  - done.
  - intros s Hs. injection Hs as <-. rewrite Hkeep; [by apply Hr|].
    intros [r Hc]%Hsnd. apply Hpath, trie_root_word in Hc; [by destruct wc|done].
  - intros w s Hw [Hin|[r Hc]%Hsnd]%elem_of_app s' Hs'; rewrite Hw in Hs'; injection Hs' as <-.
    + rewrite Hkeep; [by eapply Hlk|]. intros [r Hc]%Hsnd. by eapply Hnew.
    + rewrite (node_of_word w (wc ++ [r]) s Hw) by by apply Hpath.
      rewrite Forall_forall in Hlinks. apply (Hlinks (r, s) Hc). by apply Hpath.
  - intros w s Hw Hwne [Hin1 Hin2]%not_elem_of_app. rewrite Hkeep by done. by apply Hfresh.
  - apply NoDup_app. split_and!; [done| |by eapply visit_nodup]. intros c Hin [r Hc]%Hsnd. by eapply Hnew.
  - intros u r s Hs. rewrite elem_of_app, (Hmem u r s Hs), Hsnd. split.
    + intros [[->|(p & ? & ?)]|[r' Hc]]; [by left|right; exists p; set_solver|].
      apply Hpath in Hc. pose proof (node_of_word _ _ _ Hs Hc) as [-> ->]%app_inj_tail.
      right. exists current. set_solver.
    + intros [->|(p & Hp & [Hin|Hin%list_elem_of_singleton]%elem_of_app)]; [auto|left; right; eauto|].
      subst p. pose proof (node_of_word _ _ _ Hp Hwc) as ->. right. exists r. apply Hcs.
      by rewrite walk_snoc, Hwc in Hs.
  - intros s [Hin|[r Hc]%Hsnd]%elem_of_app; [by apply Hrange|]. apply Hpath in Hc.
    split; [|by apply (trie_range ns0 Htrie) in Hc]. intros ->. apply trie_root_word in Hc; [by destruct wc|done].
  - apply StronglySorted_inv in Hsort as [Hsort Hall]. apply StronglySorted_app_2.
    + intros s t Hin [r Hc]%Hsnd u v Hu Hv. rewrite (node_of_word _ _ _ Hv (Hpath _ _ Hc)), length_app. simpl.
      eapply (Hspread current s wc u); [by left|by right|done|done].
    + done.
    + apply (siblings_sorted wc). intros c [r Hc]%Hsnd. eauto.
  - assert (∀ c, c ∈ cs.*2 → ∃ r, path (wc ++ [r]) = Some c) as Hc by (intros c [r Hc]%Hsnd; eauto).
    pose proof (bfs_levels ns done current rest wc cs.*2 Hj Hwc Hc) as Hb.
    intros s t u v Hs Ht Hu Hv. pose proof (Hb s u Hs Hu). pose proof (Hb t v Ht Hv). lia.
Qed.

(** The loop ends with every node linked; a round per node is enough. *)
Lemma queueLoop_spec fuel ns done queue :
  bfs ns done queue → length ns0 ≤ length done + fuel →
  let ns' := queueLoop visit ns queue fuel in sameNext ns' ∧ ∀ w, linked ns' w.
Proof.
  revert ns done queue. induction fuel as [|fuel IH]; intros ns done queue Hj Hfuel.
  all: destruct queue as [|current rest]; cbn [queueLoop].
  1, 3: split; [apply Hj|]; intros w s Hw; destruct (decide (w = [])) as [->|Hne];
    [by apply (bfs_root _ _ _ Hj)|eapply (bfs_linked _ _ _ Hj); [exact Hw| |exact Hw]].
  1, 2: revert s Hw Hne; induction w as [|r u IHu] using rev_ind; intros s Hw Hne; [done|];
    apply (bfs_members _ _ _ Hj u r s Hw); destruct (decide (u = [])) as [->|Hu]; [by left|right];
    destruct (path_prefix u [r]) as [p Hp]; [by eexists|]; exists p; split; [done|];
    specialize (IHu p Hp Hu); by rewrite app_nil_r in IHu.
  - exfalso. pose proof (bfs_nodup _ _ _ Hj) as Hnd.
    assert (0 :: (done ++ current :: rest) ⊆ seq 0 (length ns0)) as Hsub.
    { intros s [->|Hs]%elem_of_cons; apply elem_of_seq.
      - destruct (bfs_range _ _ _ Hj current) as [_ ?]; [set_solver|lia].
      - apply (bfs_range _ _ _ Hj) in Hs. lia. }
    assert (NoDup (0 :: (done ++ current :: rest))) as Hnd'.
    { constructor; [|done]. intros H0%(bfs_range _ _ _ Hj). tauto. }
    pose proof (submseteq_length _ _ (NoDup_submseteq _ _ Hnd' Hsub)) as Hlen.
    rewrite length_seq in Hlen. simpl in Hlen. rewrite length_app in Hlen. simpl in Hlen. lia.
  - destruct (trie_reach ns0 Htrie current) as [wc Hwc].
    { destruct (bfs_range _ _ _ Hj current) as [_ ?]; [set_solver|done]. }
    apply (IH _ (done ++ [current])); [by eapply bfs_step|]. rewrite length_app. simpl. lia.
Qed.

Lemma sameNext_refl : sameNext ns0.
Proof. done. Qed.

Lemma linked_root : linked ns0 [].
Proof.
  intros s [= <-]. cbn [tail allOutputs]. rewrite Hunlinked. split; [by rewrite longest_of_path by by eexists|exact Hroot].
Qed.

Lemma bfs_start : bfs ns0 [] (visit (next (ns0 !!! 0))).*2.
Proof.
  set (cs := visit (next (ns0 !!! 0))).
  assert (∀ c, c ∈ cs.*2 ↔ ∃ r, path [r] = Some c) as Hcs.
  { intros c. rewrite list_elem_of_fmap. split.
    - intros ([r c'] & -> & Hc%(visit_spec ns0 0 sameNext_refl)). exists r. simpl. by rewrite Hc.
    - intros [r Hr]. exists (r, c). split; [done|]. apply (visit_spec ns0 0 sameNext_refl).
      simpl in Hr. by destruct (next (ns0 !!! 0) !! r). }
  split; cbn [app].
  - apply sameNext_refl.
  - apply linked_root.
  - intros w s Hw [r Hr]%Hcs s' Hs'. rewrite Hw in Hs'. injection Hs' as <-.
    rewrite (node_of_word _ _ _ Hw Hr) in *. rewrite Hunlinked. cbn [tail].
    rewrite longest_of_path by by eexists. split; [done|]. cbn [allOutputs]. rewrite app_nil_r.
    unfold outputsAt. by rewrite Hr.
  - intros w s Hw _ _. unfold outputsAt. by rewrite Hw.
  - by eapply (visit_nodup ns0 0 []).
  - intros u r s Hs. rewrite Hcs. split.
    + intros [r' Hr']. pose proof (node_of_word _ _ _ Hs Hr') as Hx. left. by destruct u as [|? [|]].
    + intros [->|(p & _ & Hp%not_elem_of_nil)]; [by exists r|done].
  - intros s [r Hr]%Hcs. split; [|by eapply (trie_range ns0 Htrie)]. intros ->.
    by apply trie_root_word in Hr.
  - apply (siblings_sorted []). intros c [r Hr]%Hcs. by exists r.
  - intros s t u v [r Hr]%Hcs [r' Hr']%Hcs Hu Hv.
    rewrite (node_of_word _ _ _ Hu Hr), (node_of_word _ _ _ Hv Hr'). simpl. lia.
Qed.

Lemma buildFailures_spec :
  sameNext (buildFailures visit ns0) ∧ ∀ w, linked (buildFailures visit ns0) w.
Proof. apply (queueLoop_spec _ ns0 []); [apply bfs_start|]. simpl. lia. Qed.

(** ** Scanning *)

Section scan.
Context (ns : list node) (Hsame : sameNext ns) (Hlinked : ∀ w, linked ns w).

Lemma advanceLoop_spec r v f fuel :
  path v = Some f → length v < fuel →
  ∃ u g, advanceLoop ns r f fuel = g ∧ path u = Some g ∧ longest (v ++ [r]) = longest (u ++ [r]) ∧
         (u = [] ∨ is_Some (path (u ++ [r]))).
Proof.
  pose proof Hsame as [_ Hn]. revert v f. induction fuel as [|fuel IH]; intros v f Hv Hf; [lia|]. simpl.
  destruct f as [|f].
  { exists [], 0. split_and!; try done; [|by left]. by rewrite (trie_root_word ns0 v Htrie Hv). }
  rewrite Hn. case_decide as Hr.
  - exists v, (S f). split_and!; try done. right. by rewrite walk_snoc, Hv.
  - destruct v as [|c v]; [done|]. destruct (Hlinked (c :: v) _ Hv) as [Hfail _]. cbn [tail] in Hfail.
    destruct (IH _ _ Hfail) as (u & g & Hg & Hu & Hlong & Hend).
    { pose proof (longest_length v). simpl in Hf. lia. }
    exists u, g. split_and!; try done. rewrite <-Hlong, <-longest_snoc. cbn [app]. apply longest_cons.
    change (c :: v ++ [r]) with ((c :: v) ++ [r]). rewrite walk_snoc, Hv. simpl.
    by apply eq_None_not_Some.
Qed.

(** A transition goes to the longest suffix of what has been read. *)
Lemma advance_spec w r s :
  path (longest w) = Some s → path (longest (w ++ [r])) = Some (advance ns s r).
Proof.
  intros Hs. pose proof Hsame as [Hlen Hn]. unfold advance.
  destruct (advanceLoop_spec r (longest w) s (S (length ns)) Hs) as (u & g & Hg & Hu & Hlong & Hend).
  { rewrite Hlen. pose proof (depth_bound (longest w) _ Hs). lia. }
  rewrite Hg, Hn, longest_snoc, Hlong.
  destruct (next (ns0 !!! g) !! r) as [nxt|] eqn:E.
  - assert (path (u ++ [r]) = Some nxt) as Hp by by rewrite walk_snoc, Hu.
    by rewrite longest_of_path by by eexists.
  - destruct Hend as [->|[x Hx]]; [|by rewrite walk_snoc, Hu in Hx; simpl in Hx; congruence].
    injection Hu as <-. cbn [app]. rewrite longest_cons; [by rewrite longest_of_path by by eexists|].
    simpl. by rewrite E.
Qed.

(** The outputs of the state are those of everything read so far. *)
Lemma state_outputs w s : path (longest w) = Some s → outputs (ns !!! s) = allOutputs w.
Proof. intros Hs. destruct (Hlinked (longest w) s Hs) as [_ ->]. apply allOutputs_longest. Qed.
End scan.
End automaton.
