(* ===== verification/TextSearchLaws.v ===== *)
(** * textsearch: the properties

    The compiled automaton finds exactly what a naive search finds, and masking
    changes exactly the characters that a selected match covers. *)

From S2P Require Import Prelude GoError GoText TextSearch TextSearchTrie.

Local Open Scope Z_scope.

(** ** Compiling *)

Lemma emptyNode_walk w s : walk [emptyNode] 0 w = Some s → w = [] ∧ s = 0%nat.
Proof. destruct w as [|r w]; simpl; [by intros [= <-]|done]. Qed.

Lemma emptyNode_trie : trie [emptyNode].
Proof.
  split.
  - intros w s [_ ->]%emptyNode_walk. simpl. lia.
  - by intros w w' s [-> _]%emptyNode_walk [-> _]%emptyNode_walk.
  - intros s Hs. exists []. simpl in *. by assert (s = 0%nat) as -> by lia.
Qed.

Lemma emptyNode_unlinked : unlinked [emptyNode].
Proof. intros [|[|t]]; done. Qed.

Section laws.
Context (visit : gmap Z nat → list (Z * nat)) (Hvisit : ∀ m, visit m ≡ₚ map_to_list m).
Context (ToLower : text → text) (unicode_IsLetter unicode_IsDigit : Z → bool).
Context (norm_Iter : NormalizeMode → text → list (text * Z * Z)).

Notation normalized := (normalizeString ToLower norm_Iter).
Notation accept := (acceptBoundary unicode_IsLetter unicode_IsDigit).
Notation matchOf := (matchOf unicode_IsLetter unicode_IsDigit).
Notation scanLoop := (scanLoop unicode_IsLetter unicode_IsDigit).
Notation find := (find ToLower unicode_IsLetter unicode_IsDigit norm_Iter).
Notation Compile := (Compile visit ToLower norm_Iter).

(** A compiled pattern is not empty and knows its length. *)
Definition wfPattern (p : compiledPattern) : Prop := runes p ≠ [] ∧ length_ p = Z.of_nat (length (runes p)).

Lemma normalizedPattern_wf p i c cp : normalizedPatternText ToLower norm_Iter p i c = Ok cp → wfPattern cp.
Proof.
  unfold normalizedPatternText. destruct (Text p); [done|].
  destruct (nt_runes _) as [|r rs] eqn:E; [done|]. by intros [= <-].
Qed.

Lemma compileLoop_spec c ps i ns cps ns' cps' :
  trie ns → unlinked ns → (∀ w, outputsAt ns w = own cps w) → Forall wfPattern cps →
  compileLoop ToLower norm_Iter c i ps ns cps = Ok (ns', cps') →
  trie ns' ∧ unlinked ns' ∧ (∀ w, outputsAt ns' w = own cps' w) ∧ Forall wfPattern cps'.
Proof.
  revert i ns cps. induction ps as [|p ps IH]; intros i ns cps Ht Hu Ho Hw; simpl.
  { by intros [= <- <-]. }
  destruct (normalizedPatternText _ _ p i c) as [cp|] eqn:E; [|done].
  destruct (addPattern_spec ns (length cps) cp Ht Hu) as (Ht' & Hu' & Ho').
  apply IH; try done.
  - intros w. by rewrite Ho', Ho, own_snoc.
  - apply Forall_app_2; [done|]. apply Forall_singleton. by eapply normalizedPattern_wf.
Qed.

Lemma own_nil cps : Forall wfPattern cps → own cps [] = [].
Proof.
  induction cps as [|p cps IH] using rev_ind; [done|]. intros [Hc Hp]%Forall_app.
  rewrite own_snoc, IH by done. apply Forall_singleton in Hp as [Hp _]. by rewrite decide_False.
Qed.

(** ** The reference *)

(** The patterns that end a text: for each of its suffixes, longest first, the
    patterns equal to it. *)
Fixpoint occurrences (cps : list compiledPattern) (w : text) : list output :=
  match w with
  | [] => []
  | _ :: w' => own cps w ++ occurrences cps w'
  end.

(** Every pattern at every position, without an automaton. *)
Definition naiveMatches (c : Config) (cps : list compiledPattern) (input : text) (n : normalizedText) :
    list rankedMatch :=
  mjoin ((λ i, omap (matchOf c cps input n (Z.of_nat i)) (occurrences cps (take (S i) (nt_runes n)))) <$>
         seq 0 (length (nt_runes n))).

Definition naiveFind (c : Config) (cps : list compiledPattern) (input : text) (firstOnly : bool) : list Match :=
  finish c firstOnly (naiveMatches c cps input (normalized input c)).

Section scan.
Context (ns0 : list node) (cps : list compiledPattern) (Htrie : trie ns0) (Hunlinked : unlinked ns0)
        (Hout : ∀ w, outputsAt ns0 w = own cps w) (Hwf : Forall wfPattern cps).

Lemma allOutputs_occurrences w : allOutputs ns0 w = occurrences cps w.
Proof. induction w as [|r w IH]; simpl; [done|]. by rewrite Hout, IH. Qed.

Lemma scanLoop_spec c input n seen rs state acc :
  let ns := buildFailures visit ns0 in
  nt_runes n = seen ++ rs → walk ns0 0 (longest ns0 seen) = Some state →
  scanLoop c cps ns input n (Z.of_nat (length seen)) state rs acc =
  acc ++ mjoin ((λ i, omap (matchOf c cps input n (Z.of_nat i)) (occurrences cps (take (S i) (nt_runes n))))
                <$> seq (length seen) (length rs)).
Proof.
  intros ns. revert seen state acc. induction rs as [|r rs IH]; intros seen state acc Hn Hs; simpl.
  { by rewrite app_nil_r. }
  assert (outputsAt ns0 [] = []) as Hroot by by rewrite Hout, own_nil.
  destruct (buildFailures_spec ns0 Htrie Hunlinked Hroot visit Hvisit) as [Hsame Hlink]. fold ns in Hsame, Hlink.
  pose proof (advance_spec ns0 Htrie ns Hsame Hlink seen r state Hs) as Hadv.
  rewrite (state_outputs ns0 ns Hlink (seen ++ [r]) _ Hadv), allOutputs_occurrences.
  assert (nt_runes n = (seen ++ [r]) ++ rs) as Hn' by by rewrite <-(assoc_L app).
  specialize (IH (seen ++ [r]) (advance ns state r)
    (acc ++ omap (matchOf c cps input n (Z.of_nat (length seen))) (occurrences cps (seen ++ [r]))) Hn' Hadv).
  rewrite length_app in IH. simpl in IH.
  replace (Z.of_nat (length seen) + 1) with (Z.of_nat (length seen + 1)) by lia. rewrite IH.
  rewrite Nat.add_1_r, <-(assoc_L app). do 3 f_equal.
  rewrite Hn'. by rewrite take_app_length' by (rewrite length_app; simpl; lia).
Qed.
End scan.

Lemma find_naive ps c m input firstOnly :
  Compile ps c = Ok m →
  cfg m = c ∧ Forall wfPattern (patterns m) ∧
  find (Some m) input firstOnly = naiveFind c (patterns m) input firstOnly.
Proof.
  unfold TextSearch.Compile. destruct ps as [|p ps]; [done|].
  destruct (compileLoop ToLower norm_Iter c 0 (p :: ps) [emptyNode] []) as [[ns cps]|] eqn:E; [|done].
  intros [= <-]. cbn [cfg patterns].
  eapply compileLoop_spec in E as (Ht & Hu & Ho & Hw);
    [|apply emptyNode_trie|apply emptyNode_unlinked| |constructor].
  2:{ intros [|r w]; [done|]. done. }
  split; [done|]. split; [done|]. unfold TextSearch.find, naiveFind. cbn [cfg patterns nodes].
  unfold naiveMatches. destruct (nt_runes (normalized input c)) as [|r rs] eqn:En; [done|].
  f_equal. pose proof (scanLoop_spec ns cps Ht Hu Ho Hw c input (normalized input c) [] (r :: rs) 0 []) as Hscan.
  simpl length in Hscan at 1. rewrite En in Hscan. by apply Hscan.
Qed.

(** ** Membership *)

Lemma elem_of_own cps w out :
  out ∈ own cps w ↔ ∃ i p, cps !! i = Some p ∧ runes p = w ∧ out = outputOf i p.
Proof.
  unfold own. rewrite list_elem_of_omap. split.
  - intros ([i p] & (j & q & Heq & Hlook)%elem_of_lookup_imap & Hsome). simplify_eq.
    case_decide; simplify_eq. by exists j, q.
  - intros (i & p & Hi & <- & ->). exists (i, p). split; [|by rewrite decide_True].
    apply elem_of_lookup_imap. by exists i, p.
Qed.

Lemma elem_of_occurrences cps w out :
  Forall wfPattern cps →
  out ∈ occurrences cps w ↔ ∃ i p, cps !! i = Some p ∧ runes p `suffix_of` w ∧ out = outputOf i p.
Proof.
  intros Hwf. induction w as [|r w IH]; cbn [occurrences].
  - split; [by intros ?%not_elem_of_nil|]. intros (i & p & Hi & Hsuf%suffix_nil_inv & _).
    rewrite Forall_lookup in Hwf. by destruct (Hwf _ _ Hi) as [? _].
  - rewrite elem_of_app, IH, elem_of_own. split.
    + intros [(i & p & Hi & Hr & ->)|(i & p & Hi & Hs & ->)]; exists i, p; split_and!; try done.
      * by rewrite Hr.
      * by apply suffix_cons_r.
    + intros (i & p & Hi & Hs & ->). rewrite Forall_lookup in Hwf. destruct (Hwf _ _ Hi) as [Hne _].
      destruct (runes p) as [|x l] eqn:Ep; [done|].
      apply suffix_cons_inv in Hs as [Hs|Hs]; [left|right]; exists i, p; rewrite Ep; by split_and!.
Qed.

(** What a match of pattern [p] at the runes from [a] up to [b] is. *)
Definition matchAt (input : text) (n : normalizedText) (p : compiledPattern) (a b : nat) : Match :=
  let s := nt_starts n !!! a in
  let e := nt_ends n !!! (b - 1)%nat in
  mkMatch (cp_Pattern p) s e (byteSlice input s e).

(** [p] occurs at the runes from [a] up to [b]. *)
Definition occursAt (n : normalizedText) (p : compiledPattern) (a b : nat) : Prop :=
  (a < b ≤ length (nt_runes n))%nat ∧ runes p = take (b - a) (drop a (nt_runes n)).

Lemma suffix_occursAt n p i :
  wfPattern p → (i < length (nt_runes n))%nat →
  runes p `suffix_of` take (S i) (nt_runes n) ↔ occursAt n p (S i - length (runes p)) (S i) ∧
    (length (runes p) ≤ S i)%nat.
Proof.
  intros [Hne _] Hi. assert (0 < length (runes p))%nat as Hpos by (destruct (runes p); simpl; [done|lia]).
  unfold occursAt. split.
  - intros [k Hk]. pose proof (f_equal length Hk) as Hl. rewrite length_take, length_app in Hl.
    split; [|lia]. split; [lia|].
    replace (S i - (S i - length (runes p)))%nat with (length (runes p)) by lia.
    rewrite take_drop_commute.
    replace (S i - length (runes p) + length (runes p))%nat with (S i) by lia. rewrite Hk.
    rewrite drop_app_length'; [done|lia].
  - intros [[_ Hr] Hle]. exists (take (S i - length (runes p)) (nt_runes n)).
    rewrite Hr at 2. rewrite take_drop_commute.
    replace (S i - length (runes p) + (S i - (S i - length (runes p))))%nat with (S i) by lia.
    rewrite <-(take_drop (S i - length (runes p)) (take (S i) (nt_runes n))) at 1.
    by rewrite take_take, Nat.min_l by lia.
Qed.

Lemma elem_of_naive c cps input n rm :
  Forall wfPattern cps →
  rm ∈ naiveMatches c cps input n ↔
  ∃ p a b, p ∈ cps ∧ occursAt n p a b ∧ accept c (nt_runes n) (Z.of_nat a) (Z.of_nat b) = true ∧
    rm = mkRanked (matchAt input n p a b) (Z.of_nat a) (Z.of_nat b) (order p).
Proof.
  intros Hwf. unfold naiveMatches. rewrite list_elem_of_join. setoid_rewrite list_elem_of_fmap. split.
  - intros (l & Hrm & i & -> & Hi%elem_of_seq). apply list_elem_of_omap in Hrm as (out & Hout & Hm).
    apply elem_of_occurrences in Hout as (j & p & Hj & Hs & ->); [|done].
    rewrite Forall_lookup in Hwf. pose proof (Hwf _ _ Hj) as [Hne Hlen].
    apply suffix_occursAt in Hs as [Hocc Hle]; [|done|lia].
    unfold TextSearch.matchOf in Hm. cbn [outputOf out_length out_pattern out_order] in Hm.
    rewrite Hj, Hlen in Hm. case_match eqn:E; [done|]. injection Hm as <-. bools.
    replace (Z.of_nat i - Z.of_nat (length (runes p)) + 1) with
      (Z.of_nat (S i - length (runes p))) in * by lia.
    replace (Z.of_nat i + 1) with (Z.of_nat (S i)) in * by lia.
    exists p, (S i - length (runes p))%nat, (S i). split_and!; try done; [by eapply list_elem_of_lookup_2|].
    unfold matchAt. rewrite !Nat2Z.id. by replace (S i - 1)%nat with i by lia.
  - intros (p & a & b & [j Hj]%list_elem_of_lookup & Hocc & Hacc & ->).
    rewrite Forall_lookup in Hwf. pose proof (Hwf _ _ Hj) as [Hne Hlen].
    pose proof Hocc as [Hab Hr]. destruct b as [|i]; [lia|].
    assert (length (runes p) = S i - a)%nat as Hl by (rewrite Hr, length_take, length_drop; lia).
    eexists. split; [|exists i; split; [done|apply elem_of_seq; lia]].
    apply list_elem_of_omap. exists (outputOf j p). split.
    + apply elem_of_occurrences; [by apply Forall_lookup|]. exists j, p. split_and!; try done.
      apply suffix_occursAt; [done|lia|]. split; [|lia].
      by replace (S i - length (runes p))%nat with a by lia.
    + unfold TextSearch.matchOf. cbn [outputOf out_length out_pattern out_order]. rewrite Hj, Hlen.
      replace (Z.of_nat i - Z.of_nat (length (runes p)) + 1) with (Z.of_nat a) by lia.
      replace (Z.of_nat i + 1) with (Z.of_nat (S i)) by lia. rewrite Hacc, (proj2 (Z.ltb_ge _ _)) by lia.
      simpl. unfold matchAt. rewrite !Nat2Z.id. by replace (S i - 1)%nat with i by lia.
Qed.

Lemma finish_all c ms : Overlap c = OverlapAll → finish c false ms ≡ₚ rm_Match <$> ms.
Proof.
  intros Hc. unfold finish. destruct ms as [|m ms]; [done|]. rewrite decide_False by by rewrite Hc.
  change (map rm_Match (sortRankedMatches (m :: ms))) with (rm_Match <$> sortRankedMatches (m :: ms)).
  apply fmap_Permutation, merge_sort_Permutation.
Qed.

(** C9. The Aho-Corasick matcher is equivalent to naive search, whatever order
    Go visits the maps of the trie in.  For every configuration, [find] returns
    exactly the list that testing every pattern at every position returns.  In
    the mode that keeps overlapping matches, a match is returned if and only if
    it is an occurrence of a compiled pattern in the normalized text whose
    boundaries are accepted, with the byte offsets of that occurrence. *)
Theorem matcher_equals_naive ps c m input :
  Compile ps c = Ok m →
  (∀ firstOnly, find (Some m) input firstOnly = naiveFind c (patterns m) input firstOnly) ∧
  (Overlap c = OverlapAll → ∀ mt,
     mt ∈ FindAll ToLower unicode_IsLetter unicode_IsDigit norm_Iter (Some m) input ↔
     let n := normalized input c in
     ∃ p a b, p ∈ patterns m ∧ occursAt n p a b ∧
       accept c (nt_runes n) (Z.of_nat a) (Z.of_nat b) = true ∧ mt = matchAt input n p a b).
Proof.
  intros Hm. split; [intros f; by eapply find_naive|]. intros Hc mt. unfold FindAll.
  destruct (find_naive ps c m input false Hm) as (_ & Hwf & ->). unfold naiveFind.
  rewrite finish_all, list_elem_of_fmap by done. setoid_rewrite elem_of_naive; [|done]. split.
  - intros (rm & -> & p & a & b & ? & ? & ? & ->). simpl. eauto 8.
  - intros (p & a & b & ? & ? & ? & ->). eexists. split; [|by exists p, a, b]. done.
Qed.
End laws.

Lemma matcher_equals_naive_witness :
  let c := mkConfig false NormalizeNone BoundaryNone OverlapAll in
  ∃ m, TextSearch.Compile map_to_list (λ s, s) (λ _ _, []) [mkPattern [] (lit "he"); mkPattern [] (lit "she")] c = Ok m ∧
  ∀ firstOnly, TextSearch.find (λ s, s) (λ _, true) (λ _, true) (λ _ _, []) (Some m) (lit "ushers") firstOnly =
    naiveFind (λ s, s) (λ _, true) (λ _, true) (λ _ _, []) c (patterns m) (lit "ushers") firstOnly.
Proof.
  intros c. eexists. split; [reflexivity|].
  eapply (matcher_equals_naive map_to_list (λ m, reflexivity _) (λ s, s) (λ _, true) (λ _, true) (λ _ _, [])
            [mkPattern [] (lit "he"); mkPattern [] (lit "she")] c).
  reflexivity.
Defined.

(** ** textsearch: selection, replacement and blockwords

    Selected matches do not overlap and cover the start of every match;
    masking replaces exactly the covered characters. *)

(** ** Selection *)

Section select.
Context {A : Type} (st en : A → Z).

(** The matches follow one another from offset [n] on. *)
Fixpoint disjointFrom (n : Z) (ms : list A) : Prop :=
  match ms with
  | [] => True
  | m :: rest => n ≤ st m ∧ st m ≤ en m ∧ disjointFrom (en m) rest
  end.

Lemma selectLoop_disjoint n ms :
  Forall (λ m, st m ≤ en m) ms → disjointFrom n (selectLoop st en n ms).
Proof.
  intros Hms. revert n. induction Hms as [|m ms Hm Hms IH]; intros n; simpl; [done|].
  destruct (st m <? n) eqn:E; bools; [done|]. simpl. auto.
Qed.

Lemma selectLoop_sublist n ms : sublist (selectLoop st en n ms) ms.
Proof.
  revert n. induction ms as [|m ms IH]; intros n; simpl; [constructor|].
  case_match; by constructor.
Qed.

(** A match that is not selected starts inside one that is. *)
Lemma selectLoop_covers n ms m :
  StronglySorted (λ a b, st a ≤ st b) ms → m ∈ ms → n ≤ st m →
  ∃ s, s ∈ selectLoop st en n ms ∧ st s ≤ st m ∧ (s = m ∨ st m < en s).
Proof.
  revert n. induction ms as [|x ms IH]; intros n Hs Hm Hn; [by apply not_elem_of_nil in Hm|].
  apply StronglySorted_inv in Hs as [Hs Hx]. simpl. destruct (st x <? n) eqn:E; bools.
  - apply elem_of_cons in Hm as [->|Hm]; [lia|]. by apply IH.
  - apply elem_of_cons in Hm as [->|Hm]; [exists x; split; [by left|auto with lia]|].
    destruct (Z.lt_ge_cases (st m) (en x)) as [Hlt|Hge].
    + exists x. split; [by left|]. rewrite Forall_forall in Hx. split; [by apply Hx|by right].
    + destruct (IH (en x) Hs Hm Hge) as (s & ? & ? & ?). exists s. split; [by right|done].
Qed.
End select.

(** ** Byte offsets *)

Lemma offsets_ge o s : Forall (λ p, o ≤ p.1) (offsets o s).
Proof.
  revert o. induction s as [|r s IH]; intros o; simpl; constructor; [done|].
  pose proof (RuneLen_pos r). eapply Forall_impl; [apply IH|]. simpl. intros p ?. lia.
Qed.

Lemma offsets_sorted o s : StronglySorted (λ p q, p.1 < q.1) (offsets o s).
Proof.
  revert o. induction s as [|r s IH]; intros o; simpl; constructor; [done|].
  pose proof (RuneLen_pos r). eapply Forall_impl; [apply offsets_ge|]. simpl. intros p ?. lia.
Qed.

Lemma offsets_snd o s : (offsets o s).*2 = s.
Proof. revert o. induction s as [|r s IH]; intros o; simpl; [done|]. by rewrite IH. Qed.

(** Cutting a sorted list at a key. *)
Lemma filter_split (l : list (Z * Z)) a b :
  StronglySorted (λ p q, p.1 < q.1) l → a ≤ b →
  filter (λ p, a ≤ p.1) l = filter (λ p, a ≤ p.1 ∧ p.1 < b) l ++ filter (λ p, b ≤ p.1) l.
Proof.
  intros Hs Hab. induction Hs as [|p l Hs IH Hp]; [done|]. rewrite !filter_cons.
  destruct (decide (b ≤ p.1)) as [Hb|Hb].
  - rewrite decide_True, decide_False by lia.
    assert (filter (λ q, a ≤ q.1 ∧ q.1 < b) l = []) as ->.
    { clear -Hp Hb. induction Hp as [|q l Hq Hl IH]; [done|]. by rewrite filter_cons_False by lia. }
    simpl. f_equal. clear -Hp Hb Hab. induction Hp as [|q l Hq Hl IH]; [done|].
    by rewrite !filter_cons_True, IH by lia.
  - destruct (decide (a ≤ p.1)) as [Ha|Ha].
    + rewrite decide_True by lia. simpl. by rewrite IH.
    + rewrite decide_False by lia. exact IH.
Qed.

(** ** Replacing *)

Section replace.
Context {A : Type} (st en : A → Z) (input mask : text).

Definition covered (ms : list A) (o : Z) : bool := existsb (λ m, (st m <=? o) && (o <? en m)) ms.

(** The input with every covered character replaced. *)
Definition maskCovered (ms : list A) : text :=
  concat ((λ p, if covered ms p.1 then mask else [p.2]) <$> offsets 0 input).

Definition maskFrom (ms : list A) (n : Z) : text :=
  concat ((λ p, if covered ms p.1 then mask else [p.2]) <$> filter (λ p, n ≤ p.1) (offsets 0 input)).

Lemma covered_cons m ms o : covered (m :: ms) o = ((st m <=? o) && (o <? en m)) || covered ms o.
Proof. done. Qed.

Lemma covered_before ms n o : disjointFrom st en n ms → o < n → covered ms o = false.
Proof.
  revert n. induction ms as [|m ms IH]; intros n; simpl; [done|]. intros (H1 & H2 & H3) Ho.
  rewrite (proj2 (Z.leb_gt _ _)) by lia. simpl. apply (IH (en m)); [done|lia].
Qed.

Lemma replace_step ms m n :
  n ≤ st m → st m ≤ en m → disjointFrom st en (en m) ms →
  maskFrom (m :: ms) n =
  byteSlice input n (st m) ++ concat (replicate (length (byteSlice input (st m) (en m))) mask) ++
  maskFrom ms (en m).
Proof.
  intros Hn Hm Hd. unfold maskFrom. pose proof (offsets_sorted 0 input) as Hs.
  rewrite (filter_split _ n (st m) Hs Hn), (filter_split _ (st m) (en m) Hs Hm).
  rewrite !fmap_app, !concat_app. f_equal; [|f_equal].
  - unfold byteSlice. induction (offsets 0 input) as [|[o r] l IH]; [done|].
    apply StronglySorted_inv in Hs as [Hs _]. rewrite filter_cons. case_decide as Hc; [|by apply IH].
    rewrite !fmap_cons. cbn [fst snd] in *. rewrite <-IH by done.
    rewrite covered_cons, (proj2 (Z.leb_gt _ _)) by lia. simpl.
    rewrite (covered_before ms (en m)) by (done || lia). done.
  - unfold byteSlice. rewrite length_fmap. induction (offsets 0 input) as [|[o r] l IH]; [done|].
    apply StronglySorted_inv in Hs as [Hs _]. rewrite filter_cons. case_decide as Hc; [|by apply IH].
    rewrite !fmap_cons. cbn [fst snd length replicate concat] in *. rewrite <-IH by done.
    rewrite covered_cons, (proj2 (Z.leb_le _ _)), (proj2 (Z.ltb_lt _ _)) by lia. done.
  - f_equal. apply list_fmap_ext. intros i [o r] [Ho _]%list_elem_of_lookup_2%list_elem_of_filter.
    simpl in *. rewrite (proj2 (Z.ltb_ge _ _) Ho). by rewrite andb_false_r, orb_false_l.
Qed.

Lemma uncovered l : concat ((λ p : Z * Z, if covered [] p.1 then mask else [p.2]) <$> l) = l.*2.
Proof. induction l as [|p l IH]; [done|]. rewrite !fmap_cons, <-IH. done. Qed.

Lemma replaceLoop_from (replacement : A → text) ms n acc :
  disjointFrom st en n ms →
  (∀ m, m ∈ ms → replacement m = concat (replicate (length (byteSlice input (st m) (en m))) mask)) →
  replaceLoop st en replacement input acc n ms = acc ++ maskFrom ms n.
Proof.
  revert n acc. induction ms as [|m ms IH]; intros n acc Hd Hrep; simpl.
  - f_equal. symmetry. apply uncovered.
  - destruct Hd as (H1 & H2 & H3). rewrite IH by (done || intros; apply Hrep; by right).
    rewrite (replace_step ms m n H1 H2 H3), (Hrep m) by by left. by rewrite <-!(assoc_L app).
Qed.

Lemma replaceLoop_mask (replacement : A → text) ms :
  disjointFrom st en 0 ms →
  (∀ m, m ∈ ms → replacement m = concat (replicate (length (byteSlice input (st m) (en m))) mask)) →
  replaceLoop st en replacement input [] 0 ms = maskCovered ms.
Proof.
  intros Hd Hrep. rewrite replaceLoop_from by done. unfold maskCovered, maskFrom. simpl.
  pose proof (offsets_ge 0 input) as H0. do 2 f_equal.
  induction H0 as [|p l Hp Hl IH]; [done|]. rewrite filter_cons_True by done. by f_equal.
Qed.
End replace.

(** ** Normalized offsets *)

Section matcher.
Context (visit : gmap Z nat → list (Z * nat)) (Hvisit : ∀ m, visit m ≡ₚ map_to_list m).
Context (ToLower : text → text) (unicode_IsLetter unicode_IsDigit : Z → bool).
Context (norm_Iter : NormalizeMode → text → list (text * Z * Z)).

Notation normalized := (normalizeString ToLower norm_Iter).
Notation Compile := (Compile visit ToLower norm_Iter).
Notation naive := (naiveFind ToLower unicode_IsLetter unicode_IsDigit norm_Iter).

(** All offsets are between 0 and [o], and a start is not after a later end. *)
Record ordered (n : normalizedText) (o : Z) : Prop := {
  ord_len : length (nt_starts n) = length (nt_runes n) ∧ length (nt_ends n) = length (nt_runes n);
  ord_starts : Forall (λ s, 0 ≤ s ≤ o) (nt_starts n);
  ord_pair i j s e : (i ≤ j)%nat → nt_starts n !! i = Some s → nt_ends n !! j = Some e → s ≤ e
}.

Lemma ordered_push n o o' start e r :
  ordered n o → 0 ≤ start → o ≤ start → start ≤ o' → start ≤ e →
  ordered (mkNormalized (nt_runes n ++ [r]) (nt_starts n ++ [start]) (nt_ends n ++ [e])) o'.
Proof.
  intros [[Hl1 Hl2] Hs Hp] H0 Ho Ho' He. split; simpl; rewrite ?length_app; simpl.
  - lia.
  - apply Forall_app_2; [eapply Forall_impl; [exact Hs|simpl; lia]|]. apply Forall_singleton. lia.
  - intros i j s e' Hij Hi Hj. rewrite Forall_lookup in Hs.
    apply lookup_app_Some in Hi as [Hi|[Hi1 Hi]], Hj as [Hj|[Hj1 Hj]].
    + by eapply Hp.
    + apply list_lookup_singleton_Some in Hj as [_ <-]. apply Hs in Hi. lia.
    + apply lookup_lt_Some in Hj. lia.
    + apply list_lookup_singleton_Some in Hi as [_ <-], Hj as [_ <-]. done.
Qed.

Lemma ordered_segment c n o seg start e :
  ordered n o → 0 ≤ start → o ≤ start → start ≤ e →
  ordered (appendNormalizedSegment ToLower c n (seg, start, e)) start.
Proof.
  intros Hn H0 Ho He. unfold appendNormalizedSegment.
  set (rs := if IgnoreCase c then ToLower seg else seg). clearbody rs.
  assert (ordered n start) as Hn'.
  { destruct Hn as [? Hs ?]. split; try done. eapply Forall_impl; [exact Hs|simpl; lia]. }
  clear Hn. revert n Hn'. induction rs as [|r rs IH]; intros n Hn; simpl; [done|].
  apply IH. by eapply ordered_push.
Qed.

Lemma ordered_runes c input :
  Normalize c = NormalizeNone → ∃ o, ordered (normalized input c) o.
Proof.
  intros Hc. unfold normalizeString. destruct input as [|r0 input]; [exists 0; by repeat split|].
  rewrite decide_True by done. unfold normalizeByRuneSegments.
  assert (∀ s o n, 0 ≤ o → ordered n o → ∃ o',
    ordered (foldl (appendNormalizedSegment ToLower c) n
               (map (λ p, ([p.2], p.1, p.1 + RuneLen p.2)) (offsets o s))) o') as Hloop.
  { clear. induction s as [|r s IH]; intros o n Ho Hn; [by exists o|]. cbn [offsets map foldl fst snd].
    pose proof (RuneLen_pos r). apply IH; [lia|].
    destruct (ordered_segment c n o [r] o (o + RuneLen r) Hn) as [H1 H2 H3]; try lia.
    split; try done. eapply Forall_impl; [exact H2|]. simpl. intros x ?. lia. }
  apply Hloop; [done|]. by split.
Qed.

Lemma matchAt_ordered input n o p a b :
  ordered n o → occursAt n p a b →
  0 ≤ Start (matchAt input n p a b) ∧ Start (matchAt input n p a b) ≤ End_ (matchAt input n p a b).
Proof.
  intros [[Hl1 Hl2] Hs Hp] [Hab _]. unfold matchAt. simpl.
  destruct (lookup_lt_is_Some_2 (nt_starts n) a) as [s Has]; [lia|].
  destruct (lookup_lt_is_Some_2 (nt_ends n) (b - 1)) as [e Hbe]; [lia|].
  rewrite (list_lookup_total_correct _ _ _ Has), (list_lookup_total_correct _ _ _ Hbe).
  rewrite Forall_lookup in Hs. apply Hs in Has as ?. split; [lia|]. eapply Hp; [|done|done]. lia.
Qed.

(** ** Changing the overlap mode of a compiled matcher *)

Definition withOverlap (c : Config) (o : OverlapMode) : Config :=
  mkConfig (IgnoreCase c) (Normalize c) (Boundary c) o.

Lemma Compile_overlap ps c m o :
  Compile ps c = Ok m → Compile ps (withOverlap c o) = Ok (mkMatcher (withOverlap c o) (patterns m) (nodes m)).
Proof.
  unfold TextSearch.Compile. destruct ps as [|p ps]; [done|].
  assert (∀ ps i ns cps, compileLoop ToLower norm_Iter (withOverlap c o) i ps ns cps =
            compileLoop ToLower norm_Iter c i ps ns cps) as Heq.
  { clear. induction ps as [|p ps IH]; intros i ns cps; simpl; [done|].
    assert (normalizedPatternText ToLower norm_Iter p i (withOverlap c o) =
            normalizedPatternText ToLower norm_Iter p i c) as -> by done.
    by destruct (normalizedPatternText _ _ p i c). }
  rewrite Heq. destruct (compileLoop _ _ c 0 (p :: ps) _ _) as [[ns cps]|]; [|done]. by intros [= <-].
Qed.

Lemma findForReplacement_naive ps c m input :
  Compile ps c = Ok m →
  findForReplacement ToLower unicode_IsLetter unicode_IsDigit norm_Iter m input =
    naive (withOverlap c OverlapLeftmostLongest) (patterns m) input false ∧ Forall wfPattern (patterns m).
Proof.
  intros Hm. unfold findForReplacement.
  destruct (find_naive visit Hvisit ToLower unicode_IsLetter unicode_IsDigit norm_Iter ps c m input false Hm)
    as (-> & Hwf & _).
  apply (Compile_overlap _ _ _ OverlapLeftmostLongest) in Hm.
  destruct (find_naive visit Hvisit ToLower unicode_IsLetter unicode_IsDigit norm_Iter _ _ _ input false Hm)
    as (_ & _ & Hfind). split; [exact Hfind|done].
Qed.

(** The matches that are replaced follow one another. *)
Lemma naive_leftmost_longest c cps input :
  Normalize c = NormalizeNone → Overlap c = OverlapLeftmostLongest → Forall wfPattern cps →
  let ms := naive c cps input false in
  disjointFrom Start End_ 0 ms ∧ ∀ m, m ∈ ms → m_Text m = byteSlice input (Start m) (End_ m).
Proof.
  intros Hnorm Hover Hwf. destruct (ordered_runes c input Hnorm) as [o Hord]. unfold naiveFind, finish.
  set (rms := naiveMatches _ _ c cps input (normalized input c)).
  assert (∀ rm, rm ∈ rms → 0 ≤ Start (rm_Match rm) ∧ Start (rm_Match rm) ≤ End_ (rm_Match rm) ∧
    m_Text (rm_Match rm) = byteSlice input (Start (rm_Match rm)) (End_ (rm_Match rm))) as Hrms.
  { intros rm (p & a & b & _ & Hocc & _ & ->)%elem_of_naive; [|done].
    destruct (matchAt_ordered input _ o p a b Hord Hocc). by split_and!. }
  destruct rms as [|rm rms]; [split; [done|]; by intros m ?%not_elem_of_nil|].
  rewrite decide_True by done. cbn [andb].
  set (sorted := sortRankedMatches (rm :: rms)).
  assert (∀ r, r ∈ sorted → r ∈ rm :: rms) as Hin.
  { intros r. unfold sorted, sortRankedMatches. by rewrite merge_sort_Permutation. }
  unfold selectLeftmostLongest. split.
  - assert (∀ n l, disjointFrom (λ m, Start (rm_Match m)) (λ m, End_ (rm_Match m)) n l →
              disjointFrom Start End_ n (map rm_Match l)) as Hmap.
    { intros n l. revert n. induction l as [|x l IH]; intros n; simpl; [done|]. naive_solver. }
    apply Hmap, selectLoop_disjoint. apply Forall_forall. intros r Hr. by apply Hrms, Hin.
  - intros m (r & -> & Hr)%list_elem_of_fmap. apply Hrms, Hin.
    eapply elem_of_sublist; [exact Hr|apply selectLoop_sublist].
Qed.

(** Masking changes exactly what it should.  For a matcher without Unicode
    normalization, the text that [Mask] returns has the characters of the
    input at every offset that no replaced match covers and the mask character
    at every other, so its length in characters is that of the input; the
    replaced matches do not overlap. *)
Theorem Mask_pointwise ps c m input mask :
  Compile ps c = Ok m → Normalize c = NormalizeNone →
  let ms := findForReplacement ToLower unicode_IsLetter unicode_IsDigit norm_Iter m input in
  disjointFrom Start End_ 0 ms ∧
  Mask ToLower unicode_IsLetter unicode_IsDigit norm_Iter (Some m) input mask =
    map (λ p, if covered Start End_ ms p.1 then mask else p.2) (offsets 0 input).
Proof.
  intros Hm Hnorm ms. destruct (findForReplacement_naive ps c m input Hm) as [Hms Hwf]. fold ms in Hms.
  destruct (naive_leftmost_longest (withOverlap c OverlapLeftmostLongest) (patterns m) input)
    as [Hd Ht]; [done..|]. rewrite <-Hms in Hd, Ht. split; [done|].
  assert (maskCovered Start End_ input [mask] ms =
    map (λ p, if covered Start End_ ms p.1 then mask else p.2) (offsets 0 input)) as <-.
  { unfold maskCovered. induction (offsets 0 input) as [|p l IH]; [done|]. rewrite fmap_cons. simpl.
    rewrite IH. by destruct (covered Start End_ ms p.1). }
  unfold Mask, Replace. fold ms. destruct ms as [|m0 ms']; [symmetry; unfold maskCovered; rewrite uncovered; apply offsets_snd|].
  apply replaceLoop_mask; [done|]. intros mt Hmt. rewrite (Ht mt Hmt).
  induction (length _) as [|k IH]; simpl; [done|]. by rewrite IH.
Qed.

(** ** Blockwords *)

Notation findAll := (FindAll ToLower unicode_IsLetter unicode_IsDigit norm_Iter).
Notation detect := (Detect ToLower unicode_IsLetter unicode_IsDigit norm_Iter).

Lemma rankedLess_asym a b : rankedLess a b = true → rankedLess b a = false.
Proof.
  unfold rankedLess. intros H. repeat case_match; bools; try lia; apply Z.ltb_ge; lia.
Qed.

#[local] Instance rankedLe_total : Total rankedLe.
Proof.
  intros a b. unfold rankedLe. destruct (rankedLess b a) eqn:E; [right; by apply rankedLess_asym|by left].
Qed.

Lemma rankedLe_start a b : rankedLe a b → Start (rm_Match a) ≤ Start (rm_Match b).
Proof. unfold rankedLe, rankedLess. intros H. repeat case_match; bools; lia. Qed.

(** Matches come out in the order of their starts. *)
Lemma finish_sorted c ms :
  Overlap c = OverlapAll → StronglySorted (λ a b, Start a ≤ Start b) (finish c false ms).
Proof.
  intros Hc. unfold finish. destruct ms as [|m ms]; [constructor|]. rewrite decide_False by by rewrite Hc.
  cbn [andb]. set (l := m :: ms). clearbody l.
  assert (Sorted rankedLe (sortRankedMatches l)) as Hs by apply Sorted_merge_sort, _.
  assert (StronglySorted (λ a b, Start (rm_Match a) ≤ Start (rm_Match b)) (sortRankedMatches l)) as Hss.
  { apply Sorted_StronglySorted; [intros x y z ? ?; lia|].
    induction Hs as [|x k Hk IH Hx]; constructor; [done|]. destruct Hx; constructor. by apply rankedLe_start. }
  clear Hs. induction Hss as [|x k Hk IH Hx]; simpl; constructor; [done|].
  apply Forall_forall. intros mt (r & -> & Hr)%list_elem_of_fmap. rewrite Forall_forall in Hx. by apply Hx.
Qed.

Lemma omap_sorted {A B} (f : A → option B) (sa : A → Z) (sb : B → Z) l :
  (∀ a b, f a = Some b → sb b = sa a) → StronglySorted (λ a a', sa a ≤ sa a') l →
  StronglySorted (λ b b', sb b ≤ sb b') (omap f l).
Proof.
  intros Hf. induction 1 as [|a l Hl IH Ha]; [constructor|]. simpl.
  destruct (f a) as [b|] eqn:E; [|done]. constructor; [done|].
  apply Forall_forall. intros b' (a' & Ha' & E')%list_elem_of_omap. rewrite Forall_forall in Ha.
  rewrite (Hf _ _ E), (Hf _ _ E'). by apply Ha.
Qed.

Lemma dictionary_matcher entries c d :
  NewBlockwordDictionary visit ToLower norm_Iter entries c = Ok d →
  ∃ ps, Compile ps (withOverlap c OverlapAll) = Ok (matcher d).
Proof.
  unfold NewBlockwordDictionary. destruct entries as [|e es]; [done|].
  destruct (dictionaryLoop _ _ _ _) as [[ps compiled]|]; [|done].
  destruct (TextSearch.Compile _ _ _ ps _) as [m|] eqn:E; [|done]. intros [= <-]. by exists ps.
Qed.

(** What [FindAll] of a dictionary returns. *)
Lemma dictionary_findAll entries c d s :
  NewBlockwordDictionary visit ToLower norm_Iter entries c = Ok d → Normalize c = NormalizeNone →
  StronglySorted (λ a b, Start a ≤ Start b) (findAll (Some (matcher d)) s) ∧
  ∀ mt, mt ∈ findAll (Some (matcher d)) s →
    0 ≤ Start mt ∧ Start mt ≤ End_ mt ∧ m_Text mt = byteSlice s (Start mt) (End_ mt).
Proof.
  intros [ps Hm]%dictionary_matcher Hnorm. unfold FindAll.
  destruct (find_naive visit Hvisit ToLower unicode_IsLetter unicode_IsDigit norm_Iter _ _ _ s false Hm)
    as (_ & Hwf & ->). unfold naiveFind. split; [by apply finish_sorted|].
  destruct (ordered_runes (withOverlap c OverlapAll) s Hnorm) as [o Hord].
  intros mt. rewrite finish_all, list_elem_of_fmap by done.
  intros (rm & -> & (p & a & b & _ & Hocc & _ & ->)%elem_of_naive); [|done].
  destruct (matchAt_ordered s _ o p a b Hord Hocc). by split_and!.
Qed.

(** The matches that [Detect] keeps before the selection. *)
Definition keep (d : BlockwordDictionary) (o : BlockwordOptions) (m : Match) : option BlockwordMatch :=
  match bw_entries d !! ID (m_Pattern m) with
  | None => None
  | Some e => if severityValue (bw_Severity e) <? severityValue (MinSeverity o) then None
              else Some (mkBlockwordMatch e (Start m) (End_ m) (m_Text m))
  end.

Lemma keep_Some d o mt bm :
  keep d o mt = Some bm ↔
  ∃ e, bw_entries d !! ID (m_Pattern mt) = Some e ∧
       severityValue (MinSeverity o) ≤ severityValue (bw_Severity e) ∧
       bm = mkBlockwordMatch e (Start mt) (End_ mt) (m_Text mt).
Proof.
  unfold keep. destruct (bw_entries d !! ID (m_Pattern mt)) as [e|]; [|naive_solver].
  destruct (_ <? _) eqn:E; bools; split; try naive_solver lia.
Qed.

Lemma normalizeOptions_idem o :
  normalizeBlockwordOptions (normalizeBlockwordOptions o) = normalizeBlockwordOptions o.
Proof. unfold normalizeBlockwordOptions. by destruct (bo_Mask o) eqn:E; simpl; rewrite ?E. Qed.

Lemma normalizeOptions_min o : MinSeverity (normalizeBlockwordOptions o) = MinSeverity o.
Proof. unfold normalizeBlockwordOptions. by destruct (bo_Mask o). Qed.

Lemma Detect_keep d s o :
  detect (Some d) s o = selectLoop bm_Start bm_End 0 (omap (keep d o) (findAll (Some (matcher d)) s)).
Proof.
  unfold Detect, selectBlockwordLeftmostLongest. f_equal. apply list_omap_ext, Forall_Forall2_diag, Forall_true. intros mt. unfold keep.
  by rewrite normalizeOptions_min.
Qed.

Lemma Dictionary_Mask_inv d s o masked :
  Dictionary_Mask ToLower unicode_IsLetter unicode_IsDigit norm_Iter (Some d) s o = Ok masked →
  masked = maskBlockwordMatches s (detect (Some d) s o) (bo_Mask (normalizeBlockwordOptions o)).
Proof.
  unfold Dictionary_Mask, Process, NewBlockwordRequest.
  destruct (MaxBlockwordTextLength <? Z.of_nat (length s)) eqn:E1; [done|].
  destruct (decide (TrimSpace s = [])) as [|E2]; [done|]. cbn [br_Text br_Options].
  rewrite E1, decide_False, normalizeOptions_idem by done. intros [= <-]. f_equal. rewrite !Detect_keep.
  f_equal. apply list_omap_ext, Forall_Forall2_diag, Forall_true. intros mt. unfold keep.
  by rewrite !normalizeOptions_min.
Qed.

(** Blockword masking.  For a dictionary without Unicode normalization,
    [Mask] returns the text in which exactly the characters covered by a
    detected match are replaced by the mask.  A detected match is an occurrence
    of an entry whose severity reaches the minimum, and every such occurrence
    is detected or begins inside a detected match, so no blocked word keeps its
    first character. *)
Theorem blockword_mask_covers entries c d s o masked :
  NewBlockwordDictionary visit ToLower norm_Iter entries c = Ok d → Normalize c = NormalizeNone →
  Dictionary_Mask ToLower unicode_IsLetter unicode_IsDigit norm_Iter (Some d) s o = Ok masked →
  let ms := detect (Some d) s o in
  masked = maskCovered bm_Start bm_End s (bo_Mask (normalizeBlockwordOptions o)) ms ∧
  (∀ bm, bm ∈ ms →
     severityValue (MinSeverity o) ≤ severityValue (bw_Severity (Entry bm)) ∧
     ∃ mt, mt ∈ findAll (Some (matcher d)) s ∧ bw_entries d !! ID (m_Pattern mt) = Some (Entry bm) ∧
           bm_Start bm = Start mt ∧ bm_End bm = End_ mt) ∧
  (∀ mt e, mt ∈ findAll (Some (matcher d)) s → bw_entries d !! ID (m_Pattern mt) = Some e →
     severityValue (MinSeverity o) ≤ severityValue (bw_Severity e) →
     ∃ bm, bm ∈ ms ∧ bm_Start bm ≤ Start mt ∧
           (bm = mkBlockwordMatch e (Start mt) (End_ mt) (m_Text mt) ∨ Start mt < bm_End bm)).
Proof.
  intros Hd Hnorm Hmask%Dictionary_Mask_inv ms.
  destruct (dictionary_findAll entries c d s Hd Hnorm) as [Hsort Hall].
  assert (ms = selectLoop bm_Start bm_End 0 (omap (keep d o) (findAll (Some (matcher d)) s))) as Ems
    by apply Detect_keep.
  assert (∀ bm, bm ∈ ms → ∃ mt, mt ∈ findAll (Some (matcher d)) s ∧ keep d o mt = Some bm) as Hms.
  { intros bm Hbm. apply list_elem_of_omap. rewrite Ems in Hbm.
    eapply elem_of_sublist; [exact Hbm|apply selectLoop_sublist]. }
  fold ms in Hmask. split_and!.
  - rewrite Hmask. clearbody ms. unfold maskBlockwordMatches. destruct ms as [|b0 ms'] eqn:E.
    { symmetry. unfold maskCovered. rewrite uncovered. apply offsets_snd. }
    rewrite <-E in *. apply replaceLoop_mask.
    + rewrite Ems. apply selectLoop_disjoint, Forall_forall.
      intros bm (mt & Hmt & (e & _ & _ & ->)%keep_Some)%list_elem_of_omap. by apply Hall.
    + intros bm (mt & Hmt & (e & _ & _ & ->)%keep_Some)%Hms. simpl. by destruct (Hall mt Hmt) as (_ & _ & ->).
  - intros bm (mt & Hmt & (e & He & Hsev & ->)%keep_Some)%Hms. simpl. split; [done|]. by exists mt.
  - intros mt e Hmt He Hsev. rewrite Ems.
    destruct (selectLoop_covers bm_Start bm_End 0 (omap (keep d o) (findAll (Some (matcher d)) s))
                (mkBlockwordMatch e (Start mt) (End_ mt) (m_Text mt))) as (bm & Hbm & Hle & Hor).
    + eapply omap_sorted; [|exact Hsort]. by intros a b (e' & _ & _ & ->)%keep_Some.
    + apply list_elem_of_omap. exists mt. split; [done|]. apply keep_Some. by exists e.
    + simpl. by apply Hall.
    + exists bm. by split_and!.
Qed.
End matcher.

(** ** Witnesses *)

Lemma Mask_pointwise_witness :
  let c := mkConfig false NormalizeNone BoundaryNone OverlapAll in
  ∃ m, TextSearch.Compile map_to_list (λ s, s) (λ _ _, []) [mkPattern [] (lit "he"); mkPattern [] (lit "hers")] c = Ok m ∧
  Mask (λ s, s) (λ _, true) (λ _, true) (λ _ _, []) (Some m) (lit "ushers") 42 = lit "us****".
Proof.
  intros c. eexists. split; [reflexivity|].
  destruct (Mask_pointwise map_to_list (λ m, reflexivity _) (λ s, s) (λ _, true) (λ _, true) (λ _ _, [])
              [mkPattern [] (lit "he"); mkPattern [] (lit "hers")] c
              _ (lit "ushers") 42 eq_refl eq_refl) as [_ H].
  exact H.
Defined.

Lemma blockword_mask_covers_witness :
  let c := mkConfig false NormalizeNone BoundaryNone OverlapAll in
  let entries := [mkBlockword [] (lit "bad") SeverityHigh ∅] in
  let o := mkBlockwordOptions [] SeverityLow in
  ∃ d, NewBlockwordDictionary map_to_list (λ s, s) (λ _ _, []) entries c = Ok d ∧
  lit "a*** " = maskCovered bm_Start bm_End (lit "abad ") (lit "*")
    (Detect (λ s, s) (λ _, true) (λ _, true) (λ _ _, []) (Some d) (lit "abad ") o).
Proof.
  intros c entries o. eexists. split; [reflexivity|].
  apply (blockword_mask_covers map_to_list (λ m, reflexivity _) (λ s, s) (λ _, true) (λ _, true) (λ _ _, [])
           entries c _ (lit "abad ") o (lit "a*** ") eq_refl eq_refl).
  vm_compute. reflexivity.
Defined.
