(* ===== verification/Leader.v ===== *)
(** * leader: options, errors and election strategies

    Models [src/leader] options.go, group.go, errors.go and strategy.go:
    validation of the identity of an elector and of its store key, the
    sanitised operation error, and the strategies that pick one candidate of a
    shared list.  A [time.Time] is its number of nanoseconds, 0 for the zero
    time.  A score is a value of any ordered type, so that the comparisons of
    floats, NaN included, are represented and their arithmetic is not. *)

From S2P Require Import Prelude GoError GoText Core.

Local Open Scope Z_scope.

(** ** Errors *)

Definition ErrAlreadyLeader : error := Sentinel "leader.ErrAlreadyLeader".
Definition ErrNotLeader : error := Sentinel "leader.ErrNotLeader".
Definition ErrCampaignInProgress : error := Sentinel "leader.ErrCampaignInProgress".
Definition ErrCleanupPending : error := Sentinel "leader.ErrCleanupPending".
Definition ErrInvalidContext : error := Sentinel "leader.ErrInvalidContext".
Definition ErrCommitUnknown : error := Sentinel "leader.ErrCommitUnknown".

Definition validOperationLabel (value : text) : bool :=
  negb (bool_decide (value = []) || negb (bool_decide (value = TrimSpace value)) || (32 <? byteLen value)) &&
  negb (existsb IsControl value).

(** An [OperationError]: its [Is] and [Unwrap] both go to the cause. *)
Definition OperationError (backend operation : text) (cause : error) : error :=
  Typed "leader.OperationError" [fieldOf backend; fieldOf operation] [] (Some cause).

Definition NewOperationError (backend operation : text) (cause : option error) : error :=
  match cause with
  | Some c =>
      if negb (validOperationLabel backend) || negb (validOperationLabel operation)
      then Sentinel "leader: invalid operation error"
      else OperationError backend operation c
  | None => Sentinel "leader: invalid operation error"
  end.

(** ** Options *)

Definition defaultLease : Z := 10 * 1000000000.
Definition defaultRenewInterval : Z := 3 * 1000000000.
Definition defaultKeyPrefix : text := lit "bluetape:leader".
Definition defaultGroupKeyPrefix : text := lit "bluetape:leader-group".

Record Options : Type := mkOptions {
  Group : text;
  MemberID : text;
  Lease : Z;
  RenewInterval : Z;
  KeyPrefix : text
}.

Definition containsControl (value : text) : bool := existsb IsControl value.

Definition validateIdentityPart (value : text) : option error :=
  if negb (bool_decide (value = TrimSpace value)) then
    Some (Errorf "leader %s must not have surrounding whitespace" [])
  else if 256 <? byteLen value then Some (Errorf "leader %s exceeds 256 bytes" [])
  else if ContainsAny value (lit ":{}") || containsControl value then
    Some (Errorf "leader %s has unsafe structure" [])
  else None.

(** The loop of [validateKeyPrefix] over the segments. *)
Fixpoint segmentsLoop (segments : list text) : option error :=
  match segments with
  | [] => None
  | segment :: rest =>
      if bool_decide (segment = []) || ContainsAny segment (lit "{}") then
        Some (Errorf "leader key prefix has unsafe segment" [])
      else segmentsLoop rest
  end.

Definition validateKeyPrefix (value : text) : option error :=
  if negb (bool_decide (value = TrimSpace value)) || containsControl value then
    Some (Errorf "leader key prefix has unsafe structure" [])
  else segmentsLoop (Split value 58).

(** [if err := ...; err != nil { return Options{}, err }] *)
Definition check {A} (err : option error) (k : result A) : result A :=
  match err with Some e => Fail e | None => k end.

Definition Options_Normalize (o : Options) : result Options :=
  check (RequireNotBlank (Group o)) (
  check (RequireNotBlank (MemberID o)) (
  check (validateIdentityPart (Group o)) (
  check (validateIdentityPart (MemberID o)) (
  check (if decide (KeyPrefix o = []) then None else validateKeyPrefix (KeyPrefix o)) (
  let o := mkOptions (Group o) (MemberID o)
             (if Lease o <=? 0 then defaultLease else Lease o)
             (if RenewInterval o <=? 0 then defaultRenewInterval else RenewInterval o)
             (if decide (KeyPrefix o = []) then defaultKeyPrefix else KeyPrefix o) in
  if 512 <? byteLen (KeyPrefix o) + 1 + byteLen (Group o) then
    Fail (Errorf "leader key exceeds 512 bytes" [])
  else Ok o))))).

Record GroupOptions : Type := mkGroupOptions {
  go_Options : Options;
  MaxLeaders : Z
}.

Definition GroupOptions_Normalize (o : GroupOptions) : result GroupOptions :=
  let opts := go_Options o in
  let opts := if decide (KeyPrefix opts = [])
              then mkOptions (Group opts) (MemberID opts) (Lease opts) (RenewInterval opts) defaultGroupKeyPrefix
              else opts in
  match Options_Normalize opts with
  | Fail e => Fail e
  | Ok normalized =>
      check (RequirePositive 0 (MaxLeaders o)) (Ok (mkGroupOptions normalized (MaxLeaders o)))
  end.

(** The key of a group in a store: [KeyPrefix + ":" + Group]. *)
Definition electorKey (o : Options) : text := KeyPrefix o ++ [58] ++ Group o.

(** ** Candidates and strategies *)

Section strategies.
Context {F T : Type} `{Ordered T}.

Record CandidateInfo : Type := mkCandidate {
  NodeID : text;
  RegisteredAt : Z;
  LastStartedAt : Z;
  LastCompletedAt : Z;
  SuccessCount : Z;
  FailureCount : Z;
  Weight : F;
  Metadata : gmap text text
}.

Definition TotalCount (c : CandidateInfo) : Z := wrap_i64 (SuccessCount c + FailureCount c).

(** [now.Sub(base)] saturates at the bounds of [time.Duration]. *)
Definition IdleDuration (c : CandidateInfo) (now : Z) : Z :=
  let base := if negb (LastCompletedAt c =? 0) then LastCompletedAt c else RegisteredAt c in
  if (base =? 0) || (now <? base) then 0 else Z.min (now - base) maxInt64.

(** The comparison of [sortCandidates]. *)
Definition candidateLess (left right : CandidateInfo) : bool :=
  if RegisteredAt left =? RegisteredAt right then text_lt (NodeID left) (NodeID right)
  else RegisteredAt left <? RegisteredAt right.

Definition candidateLe (a b : CandidateInfo) : Prop := candidateLess b a = false.
#[global] Instance candidateLe_dec : RelDecision candidateLe.
Proof. intros a b. unfold candidateLe. apply _. Defined.

Definition sortCandidates (candidates : list CandidateInfo) : list CandidateInfo :=
  merge_sort candidateLe candidates.

Definition nodeLe (a b : CandidateInfo) : Prop := text_le (NodeID a) (NodeID b).
#[global] Instance nodeLe_dec : RelDecision nodeLe.
Proof. intros a b. unfold nodeLe. apply _. Defined.

Definition sortCandidatesByNodeID (candidates : list CandidateInfo) : list CandidateInfo :=
  merge_sort nodeLe candidates.

(** [Elect] returns [None] for [CandidateInfo{}, false]. *)
Definition Fifo_Elect (candidates : list CandidateInfo) : option CandidateInfo :=
  head (sortCandidates candidates).

(** [hash/fnv] 64-bit FNV-1a on the bytes of the identifiers. *)
Definition fnvWrite (hash : Z) (bytes : list Z) : Z :=
  foldl (λ h b, wrap_u64 (Z.lxor h b * 1099511628211)) hash bytes.

Definition hashCandidateIDs (utf8 : text → list Z) (candidates : list CandidateInfo) : Z :=
  foldl (λ h c, fnvWrite (fnvWrite h (utf8 (NodeID c))) [0]) 14695981039346656037 candidates.

(** [rand.New(rand.NewPCG(seed1, seed2)).IntN(n)] is the argument [IntN]. *)
Definition Random_Elect (utf8 : text → list Z) (IntN : Z → Z → nat → nat) (Seed : Z)
    (candidates : list CandidateInfo) : option CandidateInfo :=
  let sorted := sortCandidatesByNodeID candidates in
  match sorted with
  | [] => None
  | _ => sorted !! IntN Seed (hashCandidateIDs utf8 sorted) (length sorted)
  end.

(** The loop of [ScoredStrategy.Elect] over [sorted[1:]]. *)
Fixpoint scoreLoop (score : CandidateInfo → T) (winner : CandidateInfo) (winnerScore : T)
    (rest : list CandidateInfo) : CandidateInfo :=
  match rest with
  | [] => winner
  | candidate :: rest' =>
      let s := score candidate in
      if go_gt s winnerScore then scoreLoop score candidate s rest'
      else scoreLoop score winner winnerScore rest'
  end.

Definition Scored_Elect (Scorer : option (CandidateInfo → list CandidateInfo → T))
    (candidates : list CandidateInfo) : option CandidateInfo :=
  match Scorer with
  | None => None
  | Some Score =>
      let sorted := sortCandidates candidates in
      match sorted with
      | [] => None
      | winner :: rest => Some (scoreLoop (λ c, Score c sorted) winner (Score winner sorted) rest)
      end
  end.
End strategies.
Arguments CandidateInfo : clear implicits.

(** ** Laws of the candidate order *)

Section candidate_order.
Context {F : Type}.
Implicit Types a b c : CandidateInfo F.

Lemma candidateLess_iff a b :
  candidateLess a b = true ↔
  RegisteredAt a < RegisteredAt b ∨ (RegisteredAt a = RegisteredAt b ∧ text_lt (NodeID a) (NodeID b) = true).
Proof.
  unfold candidateLess. destruct (RegisteredAt a =? RegisteredAt b) eqn:E; bools.
  - split; [by right|]. intros [|[]]; [lia|done].
  - rewrite Z.ltb_lt. split; [by left|]. intros [|[]]; [done|lia].
Qed.

Lemma candidateLess_trans a b c :
  candidateLess a b = true → candidateLess b c = true → candidateLess a c = true.
Proof.
  rewrite !candidateLess_iff. intros [|[]] [|[]]; try lia.
  right. split; [lia|]. by eapply text_lt_trans.
Qed.

Lemma candidateLess_irrefl a : candidateLess a a = false.
Proof. unfold candidateLess. by rewrite Z.eqb_refl, text_lt_irrefl. Qed.

Lemma candidateLess_trichotomy a b :
  candidateLess a b = true ∨ (RegisteredAt a = RegisteredAt b ∧ NodeID a = NodeID b) ∨ candidateLess b a = true.
Proof.
  rewrite !candidateLess_iff. destruct (Z.lt_trichotomy (RegisteredAt a) (RegisteredAt b)) as [|[|]]; auto.
  destruct (text_lt_trichotomy (NodeID a) (NodeID b)) as [|[|]]; auto 6.
Qed.

#[global] Instance candidateLe_total : Total (candidateLe (F := F)).
Proof.
  intros a b. unfold candidateLe. destruct (candidateLess b a) eqn:E; [right|by left].
  apply not_true_is_false. intros E'. pose proof (candidateLess_trans _ _ _ E E') as H.
  by rewrite candidateLess_irrefl in H.
Qed.

#[global] Instance candidateLe_trans : Transitive (candidateLe (F := F)).
Proof.
  intros a b c. unfold candidateLe. intros Hab Hbc. apply not_true_is_false. intros Hca.
  destruct (candidateLess_trichotomy a b) as [H|[[H1 H2]|H]]; [|..|congruence].
  - pose proof (candidateLess_trans _ _ _ Hca H). congruence.
  - revert Hbc Hca. unfold candidateLess. rewrite H1, H2. congruence.
Qed.

Lemma candidateLe_node a b : candidateLe a b → candidateLe b a → NodeID a = NodeID b.
Proof.
  unfold candidateLe. intros H1 H2.
  destruct (candidateLess_trichotomy a b) as [H|[[_ H]|H]]; congruence.
Qed.

#[global] Instance nodeLe_total : Total (nodeLe (F := F)).
Proof. intros a b. apply (total text_le). Qed.
#[global] Instance nodeLe_trans : Transitive (nodeLe (F := F)).
Proof. intros a b c. apply text_le_trans. Qed.

(** With distinct identifiers a sorted list is determined by its members, so
    an unstable sort has one result. *)
Lemma sorted_unique (R : CandidateInfo F → CandidateInfo F → Prop) `{!Transitive R} l1 l2 :
  (∀ a b, R a b → R b a → NodeID a = NodeID b) →
  NoDup (NodeID <$> l1) → l1 ≡ₚ l2 → StronglySorted R l1 → StronglySorted R l2 → l1 = l2.
Proof.
  intros Hanti. revert l2. induction l1 as [|a l1 IH]; intros l2 Hnd Hp Hs1 Hs2.
  { symmetry in Hp. by apply Permutation_nil_r in Hp. }
  destruct l2 as [|b l2]; [by apply Permutation_nil_r in Hp|].
  apply StronglySorted_inv in Hs1 as [Hs1 Ha], Hs2 as [Hs2 Hb].
  assert (a = b) as ->.
  { assert (a ∈ b :: l2) as [->|Hin]%elem_of_cons by (rewrite <-Hp; by left); [done|].
    assert (b ∈ a :: l1) as [->|Hin']%elem_of_cons by (rewrite Hp; by left); [done|].
    rewrite Forall_forall in Ha, Hb. exfalso.
    rewrite fmap_cons in Hnd. apply NoDup_cons in Hnd as [Hnd _]. apply Hnd.
    rewrite (Hanti a b (Ha _ Hin') (Hb _ Hin)). by apply list_elem_of_fmap_2. }
  f_equal. apply IH; [|by eapply Permutation_cons_inv|done..].
  rewrite fmap_cons in Hnd. by apply NoDup_cons in Hnd as [_ ?].
Qed.

Lemma sortCandidates_perm (l1 l2 : list (CandidateInfo F)) :
  NoDup (NodeID <$> l1) → l1 ≡ₚ l2 → sortCandidates l1 = sortCandidates l2.
Proof.
  intros Hnd Hp. unfold sortCandidates. apply (sorted_unique candidateLe).
  - apply candidateLe_node.
  - by rewrite merge_sort_Permutation.
  - by rewrite !merge_sort_Permutation.
  - apply StronglySorted_merge_sort; apply _.
  - apply StronglySorted_merge_sort; apply _.
Qed.

Lemma sortByNodeID_perm (l1 l2 : list (CandidateInfo F)) :
  NoDup (NodeID <$> l1) → l1 ≡ₚ l2 → sortCandidatesByNodeID l1 = sortCandidatesByNodeID l2.
Proof.
  intros Hnd Hp. unfold sortCandidatesByNodeID. apply (sorted_unique nodeLe).
  - intros a b. apply (anti_symm text_le).
  - by rewrite merge_sort_Permutation.
  - by rewrite !merge_sort_Permutation.
  - apply StronglySorted_merge_sort; apply _.
  - apply StronglySorted_merge_sort; apply _.
Qed.

Lemma sortCandidates_cons (l : list (CandidateInfo F)) w rest :
  sortCandidates l = w :: rest →
  w :: rest ≡ₚ l ∧ Forall (candidateLe w) rest ∧ StronglySorted candidateLe rest.
Proof.
  intros E. pose proof (merge_sort_Permutation candidateLe l) as Hp. unfold sortCandidates in E.
  pose proof (StronglySorted_merge_sort candidateLe l) as Hs. rewrite E in Hp, Hs.
  apply StronglySorted_inv in Hs as [? ?]. done.
Qed.
End candidate_order.

(** ** The strategies *)

Section elect.
Context {F T : Type} `{OrderedLaws T}.
Implicit Types c w : CandidateInfo F.

Lemma go_ge_cases (a b : T) :
  isOrderedNaN a = false → isOrderedNaN b = false → go_lt a b = false → a = b ∨ go_lt b a = true.
Proof. intros Ha Hb Hlt. destruct (go_trichotomy a b Ha Hb) as [|[|]]; [congruence|auto..]. Qed.

Lemma go_lt_false_trans (a b c : T) :
  isOrderedNaN a = false → isOrderedNaN b = false → isOrderedNaN c = false →
  go_lt a b = false → go_lt b c = false → go_lt a c = false.
Proof.
  intros Ha Hb Hc Hab Hbc. apply not_true_is_false. intros Hac.
  destruct (go_ge_cases a b Ha Hb Hab) as [->|Hba]; [congruence|].
  pose proof (go_lt_trans _ _ _ Hba Hac). congruence.
Qed.

Lemma scoreLoop_spec (score : CandidateInfo F → T) w rest :
  (∀ c, c ∈ w :: rest → isOrderedNaN (score c) = false) →
  Forall (candidateLe w) rest → StronglySorted candidateLe rest →
  let r := scoreLoop score w (score w) rest in
  r ∈ w :: rest ∧
  ∀ c, c ∈ w :: rest → go_lt (score r) (score c) = false ∧ (score c = score r → candidateLe r c).
Proof.
  revert w. induction rest as [|x rest IH]; intros w Hnan Hw Hs; simpl.
  { split; [by left|]. intros c ->%list_elem_of_singleton. split; [apply go_lt_irrefl|].
    intros _. unfold candidateLe. apply candidateLess_irrefl. }
  apply Forall_cons in Hw as [Hwx Hw]. apply StronglySorted_inv in Hs as [Hs Hx].
  assert (isOrderedNaN (score w) = false) as Hnw by (apply Hnan; by left).
  assert (isOrderedNaN (score x) = false) as Hnx by (apply Hnan; by right; left).
  destruct (go_gt (score x) (score w)) eqn:E; unfold go_gt in E.
  - destruct (IH x) as [Hr Hall]; [|done..|].
    { intros c Hc. apply Hnan. by right. }
    split; [by right|]. intros c [->|Hc]%elem_of_cons; [|by apply Hall].
    destruct (Hall x) as [Hlt _]; [by left|]. set (r := scoreLoop _ _ _ _) in *.
    assert (isOrderedNaN (score r) = false) as Hnr by (apply Hnan; by right).
    assert (go_lt (score w) (score r) = true) as Hwr.
    { destruct (go_ge_cases (score r) (score x) Hnr Hnx Hlt) as [->|]; [done|by eapply go_lt_trans]. }
    split.
    + apply not_true_is_false. intros H'. pose proof (go_lt_trans _ _ _ H' Hwr) as H''.
      by rewrite go_lt_irrefl in H''.
    + intros Heq. by rewrite Heq, go_lt_irrefl in Hwr.
  - destruct (IH w) as [Hr Hall]; [|done..|].
    { intros c [->|Hc]%elem_of_cons; apply Hnan; [by left|by right; right]. }
    set (r := scoreLoop _ _ _ _) in *. split; [set_solver|].
    intros c [->|[->|Hc]%elem_of_cons]%elem_of_cons.
    + apply Hall. by left.
    + destruct (Hall w) as [Hlt Heq]; [by left|].
      assert (isOrderedNaN (score r) = false) as Hnr by (apply Hnan; set_solver).
      split; [by apply (go_lt_false_trans _ (score w))|]. intros Hxr. etrans; [|exact Hwx]. apply Heq.
      destruct (go_ge_cases (score w) (score x)) as [|Hxw]; [done..|congruence|congruence].
    + apply Hall. by right.
Qed.

(** The elected candidate does not depend on the order in which a store
    lists the candidates, as long as their identifiers are distinct.  The FIFO
    strategy elects the one registered first, by identifier among equals.  A
    scored strategy elects a candidate that no other one beats and, among
    those with the best score, the first in FIFO order, provided that no score
    is NaN.  Only an empty list, or a missing scorer, elects nobody. *)
Theorem strategies_elect (Score : CandidateInfo F → list (CandidateInfo F) → T) l l' :
  NoDup (NodeID <$> l) → l ≡ₚ l' → l ≠ [] →
  Fifo_Elect l' = Fifo_Elect l ∧ Scored_Elect (Some Score) l' = Scored_Elect (Some Score) l ∧
  (∃ w, Fifo_Elect l = Some w ∧ w ∈ l ∧ ∀ c, c ∈ l → candidateLe w c) ∧
  let score c := Score c (sortCandidates l) in
  ((∀ c, c ∈ l → isOrderedNaN (score c) = false) →
   ∃ w, Scored_Elect (Some Score) l = Some w ∧ w ∈ l ∧
     ∀ c, c ∈ l → go_lt (score w) (score c) = false ∧ (score c = score w → candidateLe w c)).
Proof.
  intros Hnd Hp Hne. unfold Fifo_Elect, Scored_Elect.
  rewrite <-(sortCandidates_perm l l' Hnd Hp). split; [done|]. split; [done|].
  destruct (sortCandidates l) as [|w rest] eqn:E.
  { exfalso. apply Hne. apply Permutation_nil_r.
    rewrite <-(merge_sort_Permutation candidateLe l). unfold sortCandidates in E. by rewrite E. }
  apply sortCandidates_cons in E as (Hperm & Hw & Hs). split.
  - exists w. split; [done|]. rewrite <-Hperm. split; [by left|].
    intros c Hc. rewrite <-Hperm in Hc. apply elem_of_cons in Hc as [->|Hc].
    + unfold candidateLe. apply candidateLess_irrefl.
    + rewrite Forall_forall in Hw. auto.
  - intros Hnan. destruct (scoreLoop_spec (λ c, Score c (w :: rest)) w rest) as [Hr Hall]; [|done..|].
    + intros c Hc. apply Hnan. by rewrite <-Hperm.
    + eexists. split; [done|]. rewrite <-Hperm. split; [done|].
      intros c Hc. apply Hall. by rewrite Hperm.
Qed.
End elect.

(** ** Options *)

Lemma last_colon_unique p g p' g' :
  58 ∉ g → 58 ∉ g' → p ++ 58 :: g = p' ++ 58 :: g' → p = p' ∧ g = g'.
Proof.
  revert p'. induction p as [|x p IH]; intros [|y p'] Hg Hg' E; simplify_eq/=; try done.
  - exfalso. apply Hg. apply elem_of_app. right. by left.
  - exfalso. apply Hg'. apply elem_of_app. right. by left.
  - destruct (IH p') as [-> ->]; done.
Qed.

Lemma validateIdentityPart_None value :
  validateIdentityPart value = None ↔
  value = TrimSpace value ∧ byteLen value ≤ 256 ∧
  (∀ r, r ∈ value → r ∉ lit ":{}") ∧ containsControl value = false.
Proof.
  unfold validateIdentityPart. rewrite <-ContainsAny_false.
  destruct (bool_decide (value = TrimSpace value)) eqn:E1; simpl.
  2: { apply bool_decide_eq_false in E1. split; [done|]. by intros [? _]. }
  apply bool_decide_eq_true in E1. destruct (256 <? byteLen value) eqn:E2; bools.
  { split; [done|]. lia. }
  destruct (ContainsAny value (lit ":{}")); [split; naive_solver|].
  destruct (containsControl value); simpl; [split; naive_solver|]. split; [done|]. done.
Qed.

(** What a normalized value guarantees. *)
Definition normalOptions (o : Options) : Prop :=
  0 < Lease o ∧ 0 < RenewInterval o ∧ KeyPrefix o ≠ [] ∧ 58 ∉ Group o ∧ TrimSpace (Group o) ≠ [] ∧
  byteLen (electorKey o) ≤ 512 ∧
  validateIdentityPart (Group o) = None ∧ validateIdentityPart (MemberID o) = None.

Lemma Normalize_Ok o n :
  Options_Normalize o = Ok n →
  normalOptions n ∧ Group n = Group o ∧ MemberID n = MemberID o ∧
  (0 < Lease o → Lease n = Lease o) ∧ (0 < RenewInterval o → RenewInterval n = RenewInterval o) ∧
  (KeyPrefix o ≠ [] → KeyPrefix n = KeyPrefix o).
Proof.
  unfold Options_Normalize, check. destruct (RequireNotBlank (Group o)) eqn:Eg; [done|].
  destruct (RequireNotBlank (MemberID o)); [done|].
  destruct (validateIdentityPart (Group o)) eqn:E1; [done|].
  destruct (validateIdentityPart (MemberID o)) eqn:E2; [done|].
  destruct (if decide (KeyPrefix o = []) then _ else _) eqn:E3; [done|].
  cbv zeta. cbn [KeyPrefix Group]. destruct (512 <? _) eqn:E4; [done|]. bools.
  intros [= <-]. unfold normalOptions, electorKey. cbn [Lease RenewInterval KeyPrefix Group MemberID].
  split.
  2: { split_and!; try done; intros ?; [| |by case_decide].
       - destruct (Lease o <=? 0) eqn:E; bools; [lia|done].
       - destruct (RenewInterval o <=? 0) eqn:E; bools; [lia|done]. }
  split_and!; try done.
  - destruct (Lease o <=? 0) eqn:E; bools; [done|lia].
  - destruct (RenewInterval o <=? 0) eqn:E; bools; [done|lia].
  - case_decide; done.
  - apply validateIdentityPart_None in E1 as (_ & _ & E1 & _). intros Hin. apply (E1 _ Hin). by left.
  - unfold RequireNotBlank in Eg. by destruct (decide (TrimSpace (Group o) = [])).
  - rewrite !byteLen_app. change (byteLen [58]) with 1. lia.
Qed.

Lemma Normalize_idem o n : Options_Normalize o = Ok n → Options_Normalize n = Ok n.
Proof.
  intros H. pose proof (Normalize_Ok _ _ H) as ((Hl & Hr & Hk & _ & _ & Hlen & _) & _).
  unfold Options_Normalize, check in H.
  destruct (RequireNotBlank (Group o)) eqn:E0; [done|].
  destruct (RequireNotBlank (MemberID o)) eqn:E1; [done|].
  destruct (validateIdentityPart (Group o)) eqn:E2; [done|].
  destruct (validateIdentityPart (MemberID o)) eqn:E3; [done|].
  destruct (if decide (KeyPrefix o = []) then _ else _) eqn:E4; [done|].
  cbv zeta in H. cbn [KeyPrefix Group] in H. destruct (512 <? _) eqn:E5; [done|].
  injection H as <-. cbn [Lease RenewInterval KeyPrefix Group MemberID] in *.
  unfold Options_Normalize. cbn [Lease RenewInterval KeyPrefix Group MemberID].
  rewrite E0, E1, E2, E3. unfold check. rewrite (decide_False _ _ Hk).
  assert (validateKeyPrefix (if decide (KeyPrefix o = []) then defaultKeyPrefix else KeyPrefix o) = None) as ->.
  { destruct (decide (KeyPrefix o = [])); [vm_compute; done|done]. }
  cbv zeta. cbn [KeyPrefix Group]. rewrite (decide_False _ _ Hk), E5.
  by rewrite (proj2 (Z.leb_gt _ _) Hl), (proj2 (Z.leb_gt _ _) Hr).
Qed.

(** Groups never share a store key: two electors with normalized options
    have the same key only if they have the same prefix and the same group.
    A normalized key has at most 512 bytes, the lease and the renewal interval
    are positive, what the caller has set is kept, and normalizing again
    changes nothing. *)
Theorem elector_keys_injective o1 o2 n1 n2 :
  Options_Normalize o1 = Ok n1 → Options_Normalize o2 = Ok n2 →
  (electorKey n1 = electorKey n2 ↔ KeyPrefix n1 = KeyPrefix n2 ∧ Group n1 = Group n2) ∧
  normalOptions n1 ∧ Group n1 = Group o1 ∧ MemberID n1 = MemberID o1 ∧
  Options_Normalize n1 = Ok n1.
Proof.
  intros H1 H2. pose proof (Normalize_Ok _ _ H1) as (Hn1 & Hg1 & Hm1 & _).
  pose proof (Normalize_Ok _ _ H2) as (Hn2 & _). split_and!; try done.
  - split; [|intros [E1 E2]; unfold electorKey; by rewrite E1, E2].
    apply last_colon_unique; [apply Hn1|apply Hn2].
  - by apply (Normalize_idem o1).
Qed.

Definition sampleOptions (g : string) : Options := mkOptions (lit g) (lit "node-1") 0 5 [].

Lemma elector_keys_injective_witness :
  electorKey (mkOptions (lit "a") (lit "node-1") defaultLease 5 defaultKeyPrefix) ≠
  electorKey (mkOptions (lit "b") (lit "node-1") defaultLease 5 defaultKeyPrefix).
Proof.
  intros E. destruct (elector_keys_injective (sampleOptions "a") (sampleOptions "b")
    (mkOptions (lit "a") (lit "node-1") defaultLease 5 defaultKeyPrefix)
    (mkOptions (lit "b") (lit "node-1") defaultLease 5 defaultKeyPrefix)) as ([H _] & _);
    [vm_compute; reflexivity..|].
  destruct (H E) as [_ H']. discriminate H'.
Defined.

Definition sampleCandidate (node : string) (at_ weight : Z) : CandidateInfo Z :=
  mkCandidate (lit node) at_ 0 0 0 0 weight ∅.
Definition sampleCandidates : list (CandidateInfo Z) :=
  [sampleCandidate "c" 7 2; sampleCandidate "b" 5 2; sampleCandidate "a" 5 1].

Lemma strategies_elect_witness :
  Scored_Elect (Some (λ c _, Weight c)) (reverse sampleCandidates) = Some (sampleCandidate "b" 5 2) ∧
  Fifo_Elect (reverse sampleCandidates) = Some (sampleCandidate "a" 5 1).
Proof.
  destruct (strategies_elect (λ c _, Weight c) sampleCandidates (reverse sampleCandidates))
    as (-> & -> & _).
  - apply (bool_decide_unpack _). vm_compute. exact I.
  - symmetry. apply reverse_Permutation.
  - discriminate.
  - split; vm_compute; reflexivity.
Defined.
