(* ===== verification/SqlLeader.v ===== *)
(** * leader/sql: the lease elector

    Models [src/leader/sql] queries.go, lifecycle.go, backoff.go and elector.go.  The
    four SQL statements are functions on the row of the key and the time of the
    database; a statement is atomic, and a call that reports an error has taken
    effect or not ([outcome]).  The fields under the mutex of an elector are a
    record, its critical sections functions on it, and the goroutines that call
    [Campaign] and [Resign] and the renewal loops are the threads of a step
    relation over any number of electors of one key.  Test hooks are nil, as
    [New] leaves them; the [generation] counter does not overflow. *)

From S2P Require Import Prelude GoError GoText Leader.

Local Open Scope Z_scope.

(** ** The row of a key and the statements *)

(** The columns the statements test and set. *)
Record leaseRow : Type := mkRow {
  owner_token : text;
  lease_until : Z
}.

Definition acquireQuery (now micros : Z) (token : text) (row : option leaseRow) :
    option leaseRow * option text :=
  let taken := (Some (mkRow token (now + micros)), Some token) in
  match row with
  | None => taken
  | Some r =>
      if (lease_until r <=? now) || bool_decide (owner_token r = token) then taken else (row, None)
  end.

Definition renewQuery (now micros : Z) (token : text) (row : option leaseRow) :
    option leaseRow * option Z :=
  match row with
  | Some r =>
      if bool_decide (owner_token r = token) && (now <? lease_until r)
      then (Some (mkRow token (now + micros)), Some (now + micros)) else (row, None)
  | None => (row, None)
  end.

Definition deleteQuery (token : text) (row : option leaseRow) : option leaseRow :=
  match row with
  | Some r => if bool_decide (owner_token r = token) then None else row
  | None => None
  end.

Definition lookupQuery (now : Z) (row : option leaseRow) : option text :=
  match row with
  | Some r => if now <? lease_until r then Some (owner_token r) else None
  | None => None
  end.

(** What became of a statement: it completed, or the call failed and the
    statement has taken effect or not. *)
Inductive outcome : Type :=
| Completed
| Errored (applied : bool) (cause : error).

Definition postgres : text := lit "postgres".

Definition tryAcquire (out : outcome) (now micros : Z) (token : text) (row : option leaseRow) :
    option leaseRow * result bool :=
  let '(row', owner) := acquireQuery now micros token row in
  match out with
  | Completed => (row', Ok (match owner with Some o => bool_decide (o = token) | None => false end))
  | Errored applied cause =>
      (if applied then row' else row, Fail (NewOperationError postgres (lit "campaign") (Some cause)))
  end.

Definition renew (out : outcome) (now micros : Z) (token : text) (row : option leaseRow) :
    option leaseRow * result bool :=
  let '(row', until) := renewQuery now micros token row in
  match out with
  | Completed => (row', Ok (match until with Some _ => true | None => false end))
  | Errored applied cause =>
      (if applied then row' else row, Fail (NewOperationError postgres (lit "renew") (Some cause)))
  end.

Definition deleteOwner (out : outcome) (token : text) (row : option leaseRow) :
    option leaseRow * option error :=
  match out with
  | Completed => (deleteQuery token row, None)
  | Errored applied cause =>
      (if applied then deleteQuery token row else row,
       Some (NewOperationError postgres (lit "resign") (Some cause)))
  end.

Definition lookupOwner (out : outcome) (now : Z) (row : option leaseRow) : result text :=
  match out with
  | Completed => Ok (match lookupQuery now row with Some owner => owner | None => [] end)
  | Errored _ cause => Fail (NewOperationError postgres (lit "lookup") (Some cause))
  end.

Definition durationMicros (duration : Z) : Z :=
  if duration <=? 0 then 0
  else let micros := duration / 1000 in
       if negb (duration mod 1000 =? 0) then micros + 1 else micros.

(** ** The elector's own state *)

Record Elector : Type := mkElector {
  owned : bool;
  campaigning : bool;
  cleanup : bool;
  resigning : nat;
  resolved : bool;
  generation : nat;
  cancel : option nat;
  done : option nat
}.

(** A new elector. *)
Definition newElector : Elector := mkElector false false false 0 false 0 None None.

Definition beginCampaign (e : Elector) : Elector * option error :=
  if cleanup e then (e, Some ErrCleanupPending)
  else if owned e then (e, Some ErrAlreadyLeader)
  else if campaigning e then (e, Some ErrCampaignInProgress)
  else (mkElector (owned e) true (cleanup e) (resigning e) (resolved e) (generation e) (cancel e) (done e), None).

Definition endCampaign (e : Elector) : Elector :=
  mkElector (owned e) false (cleanup e) (resigning e) (resolved e) (generation e) (cancel e) (done e).

(** The loop's context and channel are named by its generation. *)
Definition startRenewal (e : Elector) : Elector :=
  let generation' := S (generation e) in
  mkElector true (campaigning e) false (resigning e) (resolved e) generation'
    (Some generation') (Some generation').

Definition clearOwnership (e : Elector) : Elector * (nat * option nat * option nat * bool) :=
  if negb (owned e) && negb (cleanup e) then (e, (generation e, None, None, false))
  else (mkElector false (campaigning e) true (S (resigning e)) (resolved e) (generation e) (cancel e) (done e),
        (generation e, cancel e, done e, true)).

Definition finishResign (gen : nat) (isResolved : bool) (e : Elector) : Elector :=
  if negb (generation e =? gen)%nat || (resigning e =? 0)%nat then e
  else
    let resolved' := isResolved || resolved e in
    let resigning' := pred (resigning e) in
    if (resigning' =? 0)%nat && resolved'
    then mkElector (owned e) (campaigning e) false resigning' false (generation e) None None
    else mkElector (owned e) (campaigning e) (cleanup e) resigning' resolved' (generation e) (cancel e) (done e).

Definition clearOwnershipAfterLoss (gen dn : nat) (isCleanup : bool) (e : Elector) : Elector :=
  if negb (generation e =? gen)%nat || negb (bool_decide (done e = Some dn)) then e
  else
    let cleanup' := isCleanup || (0 <? resigning e)%nat in
    if (resigning e =? 0)%nat
    then mkElector false (campaigning e) cleanup' (resigning e) (resolved e) (generation e) None None
    else mkElector false (campaigning e) cleanup' (resigning e) (resolved e) (generation e) (cancel e) (done e).

Definition markCleanupPending (e : Elector) : Elector :=
  mkElector false (campaigning e) true (resigning e) (resolved e) (generation e) (cancel e) (done e).

Definition IsLeader (e : Elector) : bool := owned e.

(** ** One attempt of a campaign *)

Inductive attempt : Type :=
| Attempted (r : result bool)
| Reconcile (operationErr : error) (internalTimeout : bool).

Definition isNone {A} (o : option A) : bool := match o with None => true | Some _ => false end.

(** [acquireAttempt] after [tryAcquire]: [attemptErr] and [ctxErr] are what the
    two contexts answer first, [attemptErr'] and [ctxErr'] what they answer the
    second time. *)
Definition afterTry (tried : result bool) (attemptErr ctxErr attemptErr' ctxErr' : option error) : attempt :=
  match tried with
  | Fail e => Reconcile e (negb (isNone attemptErr) && isNone ctxErr)
  | Ok acquired =>
      match attemptErr' with
      | Some e => Reconcile e (isNone ctxErr')
      | None => Attempted (Ok acquired)
      end
  end.

(** The [switch] after the probe; the second value tells to mark cleanup. *)
Definition afterProbe (token : text) (operationErr : error) (internalTimeout : bool) (probe : result text) :
    result bool * bool :=
  match probe with
  | Ok owner =>
      if bool_decide (owner = token) then (Ok true, false)
      else if internalTimeout then (Ok false, false)
      else (Fail operationErr, false)
  | Fail _ => (Fail (Joined [operationErr; ErrCommitUnknown]), true)
  end.

(** ** Budgets and backoff *)

Definition attemptBudget (o : Options) : Z := Z.min (Z.min (RenewInterval o) (Z.quot (Lease o) 4)) 1000000000.

Definition renewalBudget (o : Options) : Z :=
  let remainingMargin := Lease o - RenewInterval o in
  Z.min (RenewInterval o) (Z.quot remainingMargin 2).

(** [New] for a database that is not nil, up to the random token. *)
Definition New_validate (o : Options) : result Options :=
  match Options_Normalize o with
  | Fail e => Fail e
  | Ok normalized =>
      if Lease normalized <=? RenewInterval normalized
      then Fail (Sentinel "postgres leader renew interval must be less than lease")
      else Ok normalized
  end.

Definition campaignBackoffBase : Z := 25 * 1000000.

Definition newBackoff (lease : Z) : Z := Z.max campaignBackoffBase (Z.min (Z.quot lease 4) 1000000000).

(** FNV-1a on the bytes of the token and the eight bytes of the attempt. *)
Definition stableHash (tokenBytes : list Z) (attempt : Z) : Z :=
  fnvWrite (fnvWrite 14695981039346656037 tokenBytes)
    (map (λ shift, Z.land (Z.shiftr attempt (8 * Z.of_nat shift)) 255) (seq 0 8)).

Definition backoffDelay (tokenBytes : list Z) (cap attempt : Z) : Z :=
  let shift := Z.min attempt 6 in
  let delay := Z.shiftl campaignBackoffBase shift in
  let delay := if cap <? delay then cap else delay in
  let hash := stableHash tokenBytes attempt in
  let delay := Z.quot (wrap_i64 (delay * (80 + hash mod 41))) 100 in
  if cap <? delay then cap else delay.

(** ** Threads *)

(** Where a call of [Campaign] or [Resign] stands. *)
Inductive pc : Type :=
| CStart
| CTry
| CProbe (operationErr : error) (internalTimeout : bool)
| CWait
| CAcquired
| CMark (err : error)
| CEnd (err : option error)
| CReturn (err : option error)
| RStart
| RCancel (gen : nat) (cancel done : option nat)
| RWait (gen : nat) (done : option nat)
| RDelete (gen : nat)
| RFinish (gen : nat) (resolved : bool) (err : option error)
| RReturn (err : option error).

Record thread : Type := mkThread { th_elector : nat; th_pc : pc }.

(** Where a renewal loop stands; [LLost c] is about to give up ownership. *)
Inductive loopPc : Type :=
| LSelect
| LLost (cleanup : bool)
| LClosing
| LClosed.

Record loop : Type := mkLoop {
  lp_elector : nat;
  lp_gen : nat;
  lp_cancelled : bool;
  lp_pc : loopPc
}.

Record Sys : Type := mkSys {
  now : Z;
  row : option leaseRow;
  electors : nat → Elector;
  threads : list thread;
  loops : list loop;
  (** When the lease the store last confirmed to an elector ends. *)
  granted : nat → Z
}.

Definition upd {A} (f : nat → A) (i : nat) (x : A) : nat → A := λ j, if decide (j = i) then x else f j.

(** The choices of the environment in one step: what [ctx.Err] answers, how a
    statement ends, what the contexts of an attempt answer. *)
Record choice : Type := mkChoice {
  ch_ctx : option error;
  ch_out : outcome;
  ch_attempt : option error;
  ch_outer : option error;
  ch_attempt' : option error;
  ch_outer' : option error
}.

Section system.
Context (tok : nat → text) (lease : nat → Z).

Definition rowDeadline (r : option leaseRow) : Z := match r with Some r => lease_until r | None => 0 end.

(** What follows an attempt that is decided. *)
Definition decided (r : result bool) : pc :=
  match r with Ok true => CAcquired | Ok false => CWait | Fail e => CEnd (Some e) end.

Definition isAcquired (p : pc) : bool := match p with CAcquired => true | _ => false end.

Definition cancelLoop (i : nat) (c : option nat) (l : loop) : loop :=
  if bool_decide (lp_elector l = i ∧ Some (lp_gen l) = c) then mkLoop (lp_elector l) (lp_gen l) true (lp_pc l) else l.

Definition closedLoop (ls : list loop) (i d : nat) : bool :=
  existsb (λ l, bool_decide (lp_elector l = i) && (lp_gen l =? d)%nat &&
                match lp_pc l with LClosed => true | _ => false end) ls.

(** The next action of the call at index [k]; [None] when it cannot move. *)
Definition threadStep (ch : choice) (k : nat) (s : Sys) : option Sys :=
  match threads s !! k with
  | None => None
  | Some t =>
      let i := th_elector t in
      let e := electors s i in
      let goto p := <[k := mkThread i p]> (threads s) in
      let local e' p := Some (mkSys (now s) (row s) (upd (electors s) i e') (goto p) (loops s) (granted s)) in
      let query row' p :=
        Some (mkSys (now s) row' (electors s) (goto p) (loops s)
                (if isAcquired p then upd (granted s) i (rowDeadline row') else granted s)) in
      match th_pc t with
      | CStart =>
          match ch_ctx ch with
          | Some err => local e (CReturn (Some err))
          | None =>
              let '(e', err) := beginCampaign e in
              local e' (match err with Some err => CReturn (Some err) | None => CTry end)
          end
      | CTry =>
          let '(row', tried) := tryAcquire (ch_out ch) (now s) (lease i) (tok i) (row s) in
          query row'
            (match afterTry tried (ch_attempt ch) (ch_outer ch) (ch_attempt' ch) (ch_outer' ch) with
             | Attempted r => decided r
             | Reconcile err timeout => CProbe err timeout
             end)
      | CProbe operationErr internalTimeout =>
          let '(r, mark) := afterProbe (tok i) operationErr internalTimeout
                              (lookupOwner (ch_out ch) (now s) (row s)) in
          query (row s)
            (if mark then match r with Fail err => CMark err | Ok _ => CWait end else decided r)
      | CWait =>
          match ch_ctx ch with
          | Some err => local e (CEnd (Some err))
          | None => local e CTry
          end
      | CAcquired =>
          let e' := startRenewal e in
          Some (mkSys (now s) (row s) (upd (electors s) i e') (goto (CEnd None))
                  (loops s ++ [mkLoop i (generation e') false LSelect]) (granted s))
      | CMark err => local (markCleanupPending e) (CEnd (Some err))
      | CEnd err => local (endCampaign e) (CReturn err)
      | RStart =>
          match ch_ctx ch with
          | Some err => local e (RReturn (Some err))
          | None =>
              let '(e', (gen, c, d, active)) := clearOwnership e in
              local e' (if active then RCancel gen c d else RReturn None)
          end
      | RCancel gen c d =>
          Some (mkSys (now s) (row s) (electors s) (goto (RWait gen d))
                  (cancelLoop i c <$> loops s) (granted s))
      | RWait gen d =>
          match ch_ctx ch, d with
          | Some err, Some _ => local e (RFinish gen false (Some err))
          | None, Some d => if closedLoop (loops s) i d then local e (RDelete gen) else None
          | _, None => local e (RDelete gen)
          end
      | RDelete gen =>
          let '(row', err) := deleteOwner (ch_out ch) (tok i) (row s) in
          query row' (match err with
                      | None => RFinish gen true None
                      | Some err => RFinish gen false (Some (Joined [err; ErrCommitUnknown]))
                      end)
      | RFinish gen r err => local (finishResign gen r e) (RReturn err)
      | CReturn _ | RReturn _ => None
      end
  end.

(** The next action of the renewal loop at index [k].  A tick may win over a
    cancellation; [ch_ctx] tells that the cancellation is noticed. *)
Definition loopStep (ch : choice) (k : nat) (s : Sys) : option Sys :=
  match loops s !! k with
  | None => None
  | Some l =>
      let i := lp_elector l in
      let goto p := <[k := mkLoop i (lp_gen l) (lp_cancelled l) p]> (loops s) in
      match lp_pc l with
      | LSelect =>
          match ch_ctx ch with
          | Some _ =>
              if lp_cancelled l
              then Some (mkSys (now s) (row s) (electors s) (threads s) (goto LClosing) (granted s)) else None
          | None =>
              let '(row', r) := renew (ch_out ch) (now s) (lease i) (tok i) (row s) in
              match r with
              | Ok true =>
                  Some (mkSys (now s) row' (electors s) (threads s) (goto LSelect)
                          (upd (granted s) i (rowDeadline row')))
              | Ok false => Some (mkSys (now s) row' (electors s) (threads s) (goto (LLost false)) (granted s))
              | Fail _ => Some (mkSys (now s) row' (electors s) (threads s) (goto (LLost true)) (granted s))
              end
          end
      | LLost c =>
          Some (mkSys (now s) (row s)
                  (upd (electors s) i (clearOwnershipAfterLoss (lp_gen l) (lp_gen l) c (electors s i)))
                  (threads s) (goto LClosing) (granted s))
      | LClosing => Some (mkSys (now s) (row s) (electors s) (threads s) (goto LClosed) (granted s))
      | LClosed => None
      end
  end.

(** A step of the system: time passes, a call arrives, or a thread moves. *)
Inductive sqlStep (s : Sys) : Sys → Prop :=
| step_time t : now s ≤ t →
    sqlStep s (mkSys t (row s) (electors s) (threads s) (loops s) (granted s))
| step_call i p : p = CStart ∨ p = RStart →
    sqlStep s (mkSys (now s) (row s) (electors s) (threads s ++ [mkThread i p]) (loops s) (granted s))
| step_thread ch k s' : threadStep ch k s = Some s' → sqlStep s s'
| step_loop ch k s' : loopStep ch k s = Some s' → sqlStep s s'.

Definition initialSys (t : Z) : Sys := mkSys t None (λ _, newElector) [] [] (λ _, t).
End system.
