(* ===== verification/SqlLeaderLaws.v ===== *)
(** * leader/sql: exclusion

    The invariant of the elector's step relation and the theorems: at most one
    elector holds an unexpired lease and believes it, and an idle elector has
    left no lease behind. *)

From S2P Require Import Prelude GoError GoText Leader SqlLeader.

Local Open Scope Z_scope.

(** ** The invariant *)

Definition pendingGen (p : pc) : option nat :=
  match p with
  | RCancel gen _ _ | RWait gen _ | RDelete gen | RFinish gen _ _ => Some gen
  | _ => None
  end.
Definition trying (p : pc) : bool :=
  match p with CTry | CProbe _ _ | CWait | CAcquired | CMark _ => true | _ => false end.
Definition inCampaign (p : pc) : bool := match p with CEnd _ => true | _ => trying p end.
(** The call may have acquired the lease and has not said so yet. *)
Definition unsettled (p : pc) : bool := match p with CProbe _ _ | CAcquired | CMark _ => true | _ => false end.

Definition ofElector (i : nat) (f : pc → bool) (t : thread) : bool := (th_elector t =? i)%nat && f (th_pc t).
Definition isPending (p : pc) : bool := negb (isNone (pendingGen p)).

(** The flags of an elector and the calls that run on it. *)
Record linv (e : Elector) (i : nat) (ts : list thread) : Prop := {
  l_pending : countb (ofElector i isPending) ts = resigning e;
  l_gens : ∀ k t gen, ts !! k = Some t → th_elector t = i → pendingGen (th_pc t) = Some gen → gen = generation e;
  l_resigning : (0 < resigning e)%nat → cleanup e = true ∧ owned e = false;
  l_campaign : countb (ofElector i inCampaign) ts = if campaigning e then 1%nat else 0%nat;
  l_trying : ∀ k t, ts !! k = Some t → th_elector t = i → trying (th_pc t) = true →
    owned e = false ∧ cleanup e = false;
  l_done : owned e = false → cleanup e = false → done e = None;
  l_resolved : resolved e = true → (0 < resigning e)%nat
}.

Lemma ofElector_self i f p : ofElector i f (mkThread i p) = f p.
Proof. unfold ofElector. simpl. by rewrite Nat.eqb_refl. Qed.

Lemma ofElector_other i j f p : i ≠ j → ofElector j f (mkThread i p) = false.
Proof. intros H. unfold ofElector. simpl. by rewrite (proj2 (Nat.eqb_neq i j)). Qed.

Lemma trying_inCampaign p : trying p = true → inCampaign p = true.
Proof. by destruct p. Qed.

Lemma linv_other e i j ts k p p' :
  i ≠ j → ts !! k = Some (mkThread i p) → linv e j ts → linv e j (<[k := mkThread i p']> ts).
Proof.
  intros Hij Hk [H1 H2 H3 H4 H5 H6 H7]. split; try done.
  - rewrite <-H1. pose proof (countb_insert (ofElector j isPending) ts k _ (mkThread i p') Hk) as H.
    rewrite !ofElector_other in H by done. simpl in H. lia.
  - intros k' t gen [(? & <- & ?)|[? Ht]]%list_lookup_insert_Some; [done|eauto].
  - rewrite <-H4. pose proof (countb_insert (ofElector j inCampaign) ts k _ (mkThread i p') Hk) as H.
    rewrite !ofElector_other in H by done. simpl in H. lia.
  - intros k' t [(? & <- & ?)|[? Ht]]%list_lookup_insert_Some; [done|eauto].
Qed.

Lemma linv_call e i j ts p : p = CStart ∨ p = RStart → linv e j ts → linv e j (ts ++ [mkThread i p]).
Proof.
  intros Hp [H1 H2 H3 H4 H5 H6 H7].
  assert (∀ f, f CStart = false → f RStart = false → ofElector j f (mkThread i p) = false) as Hf.
  { intros f Hc Hr. unfold ofElector. destruct Hp as [->| ->]; simpl; by rewrite ?Hc, ?Hr, andb_false_r. }
  split; try done.
  - by rewrite countb_app, Hf, Nat.add_0_r.
  - intros k t gen [Ht|[_ Ht]]%lookup_app_Some; [eauto|].
    apply list_lookup_singleton_Some in Ht as [_ <-]. by destruct Hp as [->| ->].
  - by rewrite countb_app, Hf, Nat.add_0_r.
  - intros k t [Ht|[_ Ht]]%lookup_app_Some; [eauto|].
    apply list_lookup_singleton_Some in Ht as [_ <-]. by destruct Hp as [->| ->].
Qed.

(** Moving one call of the elector itself. *)
Lemma linv_move e e' i ts k p p' :
  ts !! k = Some (mkThread i p) → linv e i ts →
  Z.of_nat (resigning e') = Z.of_nat (resigning e) - Z.b2z (isPending p) + Z.b2z (isPending p') →
  (if campaigning e' then 1 else 0) = (if campaigning e then 1 else 0) - Z.b2z (inCampaign p) + Z.b2z (inCampaign p') →
  (generation e' = generation e ∨ resigning e = 0%nat) →
  (∀ gen, pendingGen p' = Some gen → gen = generation e') →
  ((0 < resigning e')%nat → cleanup e' = true ∧ owned e' = false) →
  (trying p' = true → owned e' = false ∧ cleanup e' = false) →
  (inCampaign p = false → owned e = false → cleanup e = false → owned e' = false ∧ cleanup e' = false) →
  (owned e' = false → cleanup e' = false → done e' = None) →
  (resolved e' = true → (0 < resigning e')%nat) →
  linv e' i (<[k := mkThread i p']> ts).
Proof.
  intros Hk [H1 H2 H3 H4 H5 H6 H7] Hr Hc Hg Hg' Hres Htry Hkeep Hd Hrs. split; try done.
  - pose proof (countb_insert (ofElector i isPending) ts k _ (mkThread i p') Hk) as H.
    rewrite !ofElector_self in H. lia.
  - intros k' t gen [(? & <- & ?)|[Hne Ht]]%list_lookup_insert_Some; [intros _; apply Hg'|].
    intros Hi Hp. destruct Hg as [->|Hz]; [eauto|]. exfalso.
    assert (1 ≤ countb (ofElector i isPending) ts)%nat as Hpos; [|lia].
    apply (countb_pos _ _ _ _ Ht). unfold ofElector, isPending. by rewrite Hi, Nat.eqb_refl, Hp.
  - pose proof (countb_insert (ofElector i inCampaign) ts k _ (mkThread i p') Hk) as H.
    rewrite !ofElector_self, H4 in H. destruct (campaigning e'), (campaigning e); lia.
  - intros k' t [(? & <- & ?)|[Hne Ht]]%list_lookup_insert_Some; [intros _; apply Htry|].
    intros Hi Hp. destruct (H5 _ _ Ht Hi Hp) as [Ho Hcl]. apply Hkeep; [|done..].
    destruct (inCampaign p) eqn:E; [exfalso|done].
    assert (2 ≤ countb (ofElector i inCampaign) ts)%nat as H2'.
    { apply (countb_two _ _ _ _ _ _ Hk Ht); [done|by rewrite ofElector_self|].
      unfold ofElector. by rewrite Hi, Nat.eqb_refl, trying_inCampaign. }
    destruct (campaigning e); lia.
Qed.

Section safety.
Context (tok : nat → text) (lease : nat → Z).
Hypothesis tok_inj : ∀ i j, tok i = tok j → i = j.
Hypothesis tok_nonempty : ∀ i, tok i ≠ [].

Definition ours (s : Sys) (i : nat) : Prop := ∃ r, row s = Some r ∧ owner_token r = tok i.
Definition liveOwn (s : Sys) (i : nat) : Prop := ∃ r, row s = Some r ∧ owner_token r = tok i ∧ now s < lease_until r.

(** The row of the key as one elector may rely on it. *)
Record rinv (s : Sys) (i : nat) : Prop := {
  r_live : owned (electors s i) = true ∨ (∃ k, threads s !! k = Some (mkThread i CAcquired)) →
    now s < granted s i → ∃ r, row s = Some r ∧ owner_token r = tok i ∧ granted s i ≤ lease_until r;
  r_until : ∀ r, row s = Some r → owner_token r = tok i → lease_until r ≤ now s + lease i;
  r_orphan : liveOwn s i → owned (electors s i) = true ∨ cleanup (electors s i) = true ∨
    ∃ k p, threads s !! k = Some (mkThread i p) ∧ unsettled p = true;
  r_gens : ∀ k l, loops s !! k = Some l → lp_elector l = i → (lp_gen l ≤ generation (electors s i))%nat;
  r_lost : ∀ k l, loops s !! k = Some l → lp_elector l = i → lp_pc l = LLost false →
    done (electors s i) = Some (lp_gen l) → ¬ liveOwn s i;
  r_gone : resolved (electors s i) = true ∨ (∃ k gen err, threads s !! k = Some (mkThread i (RFinish gen true err))) →
    ¬ ours s i
}.

(** What a statement of elector [i] can do to the row. *)
Definition foreign (i : nat) (t : Z) (r r' : option leaseRow) : Prop :=
  r' = r ∨
  ((∀ x, r = Some x → lease_until x ≤ t ∨ owner_token x = tok i) ∧ (∀ x, r' = Some x → owner_token x = tok i)).

Lemma tryAcquire_foreign out t m i r : foreign i t r (tryAcquire out t m (tok i) r).1.
Proof.
  unfold foreign, tryAcquire, acquireQuery. destruct r as [x|].
  - destruct ((lease_until x <=? t) || bool_decide (owner_token x = tok i)) eqn:E.
    + assert (lease_until x ≤ t ∨ owner_token x = tok i) as Hx.
      { apply orb_true_iff in E as [?%Z.leb_le|?%bool_decide_eq_true]; auto. }
      destruct out as [|[]]; simpl; [right|right|by left]; (split; [naive_solver|by intros ? [= <-]]).
    + destruct out as [|[]]; by left.
  - destruct out as [|[]]; simpl; [right|right|by left]; (split; [done|by intros ? [= <-]]).
Qed.

Lemma renewQuery_cases t m i r :
  (∃ x, r = Some x ∧ owner_token x = tok i ∧ t < lease_until x ∧
     renewQuery t m (tok i) r = (Some (mkRow (tok i) (t + m)), Some (t + m))) ∨
  ((∀ x, r = Some x → owner_token x = tok i → lease_until x ≤ t) ∧ renewQuery t m (tok i) r = (r, None)).
Proof.
  unfold renewQuery. destruct r as [x|]; [|by right].
  destruct (bool_decide (owner_token x = tok i)) eqn:E1; simpl.
  - apply bool_decide_eq_true in E1. destruct (t <? lease_until x) eqn:E2; bools; [by left; eauto|].
    right. split; [|done]. by intros ? [= <-].
  - apply bool_decide_eq_false in E1. right. split; [|done]. by intros ? [= <-].
Qed.

Lemma renew_foreign out t m i r : foreign i t r (renew out t m (tok i) r).1.
Proof.
  unfold foreign, renew. destruct (renewQuery_cases t m i r) as [(x & -> & Hx & Hl & ->)|[_ ->]].
  - destruct out as [|[]]; simpl; [right|right|by left]; (split; [naive_solver|by intros ? [= <-]]).
  - destruct out as [|[]]; by left.
Qed.

Lemma deleteOwner_foreign out t i r : foreign i t r (deleteOwner out (tok i) r).1.
Proof.
  unfold foreign, deleteOwner, deleteQuery. destruct r as [x|]; [|by destruct out as [|[]]; left].
  destruct (bool_decide (owner_token x = tok i)) eqn:E; [apply bool_decide_eq_true in E|].
  - destruct out as [|[]]; simpl; [right|right|by left]; (split; [naive_solver|done]).
  - destruct out as [|[]]; by left.
Qed.

(** An action of elector [i] leaves what another elector relies on. *)
Lemma rinv_foreign s s' i j :
  i ≠ j → rinv s j → now s' = now s → foreign i (now s) (row s) (row s') →
  electors s' j = electors s j → granted s' j = granted s j →
  (∀ k p, threads s' !! k = Some (mkThread j p) → threads s !! k = Some (mkThread j p)) →
  (∀ k p, threads s !! k = Some (mkThread j p) → threads s' !! k = Some (mkThread j p)) →
  (∀ k l, loops s' !! k = Some l → lp_elector l = j →
     ∃ k' c, loops s !! k' = Some (mkLoop j (lp_gen l) c (lp_pc l))) →
  rinv s' j.
Proof.
  intros Hij [H1 H2 H3 H4 H5 H6] Hnow Hrow He Hg Ht1 Ht2 Hl.
  assert (ours s' j → row s' = row s) as Hours.
  { intros (r & Hr & Ho). destruct Hrow as [|[_ Hx]]; [done|]. specialize (Hx _ Hr).
    rewrite Ho in Hx. by apply tok_inj in Hx. }
  assert (liveOwn s' j → liveOwn s j) as Hlive.
  { intros (r & Hr & Ho & Hn). exists r. rewrite <-Hours, <-Hnow by by exists r. done. }
  split; rewrite ?He, ?Hg, ?Hnow.
  - intros Hp Hn. destruct H1 as (r & Hr & Ho & Hu); [destruct Hp as [|(k & Hk)]; eauto|done|].
    exists r. destruct Hrow as [->|[Hx _]]; [done|]. exfalso.
    destruct (Hx _ Hr) as [|Heq]; [lia|]. rewrite Ho in Heq. by apply tok_inj in Heq.
  - intros r Hr Ho. apply H2; [|done]. rewrite <-Hours; [done|by exists r].
  - intros Hl'. destruct (H3 (Hlive Hl')) as [|[|(k & p & Hk & Hp)]]; eauto 8.
  - intros k l Hk Hj. destruct (Hl k l Hk Hj) as (k' & c & Hk'). by apply (H4 _ _ Hk').
  - intros k l Hk Hj Hpc Hd Hl'. destruct (Hl k l Hk Hj) as (k' & c & Hk'). rewrite Hpc in Hk'.
    by apply (H5 _ _ Hk'); auto.
  - intros Hp Ho. apply H6; [|destruct Ho as (r & Hr & ?); exists r; rewrite <-Hours; [done|by exists r]].
    destruct Hp as [|(k & gen & err & Hk)]; eauto 8.
Qed.

(** An action of elector [i] that is not a statement. *)
Lemma rinv_local s i k p p' e' ls' :
  threads s !! k = Some (mkThread i p) → rinv s i → isAcquired p' = false →
  (owned e' = true → owned (electors s i) = true ∨ p = CAcquired) →
  (liveOwn s i → owned (electors s i) = true ∨ cleanup (electors s i) = true ∨ unsettled p = true →
   owned e' = true ∨ cleanup e' = true) →
  (resolved e' = true → resolved (electors s i) = true ∨ ∃ gen err, p = RFinish gen true err) →
  (∀ gen err, p' ≠ RFinish gen true err) →
  (generation (electors s i) ≤ generation e')%nat →
  (∀ d, done e' = Some d → done (electors s i) = Some d ∨ (generation (electors s i) < d)%nat) →
  (∀ k l, ls' !! k = Some l → lp_elector l = i →
     (∃ k' c, loops s !! k' = Some (mkLoop i (lp_gen l) c (lp_pc l))) ∨
     (lp_pc l = LSelect ∧ (lp_gen l ≤ generation e')%nat)) →
  rinv (mkSys (now s) (row s) (upd (electors s) i e') (<[k := mkThread i p']> (threads s)) ls' (granted s)) i.
Proof.
  intros Hk [H1 H2 H3 H4 H5 H6] Hacq Ho Horph Hres Hfin Hgen Hdone Hls.
  assert (upd (electors s) i e' i = e') as Hupd by (unfold upd; by rewrite decide_True).
  split; cbn [now row electors threads loops granted]; rewrite ?Hupd.
  - intros Hp. apply H1. destruct Hp as [Hp|(k' & Hk')].
    + destruct (Ho Hp) as [| ->]; eauto.
    + apply list_lookup_insert_Some in Hk' as [(-> & [= ->] & _)|[_ Hk']]; [done|eauto].
  - done.
  - intros Hl. change (liveOwn s i) in Hl. specialize (Horph Hl).
    destruct (H3 Hl) as [|[|(k' & q & Hk' & Hq)]]; [tauto..|].
    destruct (decide (k' = k)) as [->|Hne].
    + rewrite Hk in Hk'. injection Hk' as <-. tauto.
    + right. right. exists k', q. by rewrite list_lookup_insert_ne by done.
  - intros k' l Hk' Hi. destruct (Hls k' l Hk' Hi) as [(k'' & c & Hl)|[_ ?]]; [|done].
    etrans; [|exact Hgen]. apply (H4 _ _ Hl eq_refl).
  - intros k' l Hk' Hi Hpc Hd. destruct (Hls k' l Hk' Hi) as [(k'' & c & Hl)|[? _]]; [|congruence].
    destruct (Hdone _ Hd) as [Hd'|Hlt].
    + rewrite Hpc in Hl. by apply (H5 _ _ Hl).
    + pose proof (H4 _ _ Hl eq_refl). simpl in *. lia.
  - intros Hp. apply H6. destruct Hp as [Hp|(k' & gen & err & Hk')].
    + destruct (Hres Hp) as [|(gen & err & ->)]; eauto 8.
    + apply list_lookup_insert_Some in Hk' as [(_ & [= ->] & _)|[_ Hk']]; [by destruct (Hfin gen err)|eauto 8].
Qed.

Definition inv (s : Sys) : Prop := ∀ i, linv (electors s i) i (threads s) ∧ rinv s i.

(** Facts about the calls that run on an elector. *)
Lemma linv_pending e i ts k p :
  linv e i ts → ts !! k = Some (mkThread i p) → isPending p = true →
  (0 < resigning e)%nat ∧ cleanup e = true ∧ owned e = false.
Proof.
  intros [H1 _ H3 _ _ _ _] Hk Hp. assert (0 < resigning e)%nat as Hr; [|by split; [|apply H3]].
  rewrite <-H1. apply (countb_pos _ _ _ _ Hk). by rewrite ofElector_self.
Qed.

Lemma linv_one_campaign e i ts k k' p p' :
  linv e i ts → ts !! k = Some (mkThread i p) → ts !! k' = Some (mkThread i p') →
  inCampaign p = true → inCampaign p' = true → k = k'.
Proof.
  intros [_ _ _ H4 _ _ _] Hk Hk' Hp Hp'. destruct (decide (k = k')) as [|Hne]; [done|exfalso].
  assert (2 ≤ countb (ofElector i inCampaign) ts)%nat as H.
  { apply (countb_two _ _ _ _ _ _ Hk Hk'); [done|by rewrite ofElector_self..]. }
  destruct (campaigning e); lia.
Qed.

Lemma upd_same {A} (f : nat → A) i x : upd f i x i = x.
Proof. unfold upd. by rewrite decide_True. Qed.
Lemma upd_other {A} (f : nat → A) i j x : i ≠ j → upd f i x j = f j.
Proof. intros. unfold upd. by rewrite decide_False by congruence. Qed.

Lemma insert_thread_other (ts : list thread) k i j p p' q k' :
  i ≠ j → ts !! k = Some (mkThread i p) →
  <[k := mkThread i p']> ts !! k' = Some (mkThread j q) ↔ ts !! k' = Some (mkThread j q).
Proof.
  intros Hij Hk. rewrite list_lookup_insert_Some. split.
  - intros [(_ & [= ? ?] & _)|[_ ?]]; done.
  - intros Hk'. right. split; [|done]. intros ->. rewrite Hk in Hk'. congruence.
Qed.

(** The other electors after a step of a call of elector [i]. *)
Lemma inv_others s i k p p' e' row' ls' g' :
  inv s → threads s !! k = Some (mkThread i p) → foreign i (now s) (row s) row' →
  (∀ j, i ≠ j → g' j = granted s j) →
  (∀ j k l, i ≠ j → ls' !! k = Some l → lp_elector l = j →
     ∃ k' c, loops s !! k' = Some (mkLoop j (lp_gen l) c (lp_pc l))) →
  let s' := mkSys (now s) row' (upd (electors s) i e') (<[k := mkThread i p']> (threads s)) ls' g' in
  linv e' i (threads s') → rinv s' i → inv s'.
Proof.
  intros Hinv Hk Hrow Hg Hls s' Hl Hr j. subst s'. destruct (decide (i = j)) as [<-|Hij].
  { cbn [electors threads]. rewrite upd_same. by split. }
  destruct (Hinv j) as [Hlj Hrj]. cbn [electors threads]. rewrite upd_other by done. split.
  - by eapply linv_other.
  - apply (rinv_foreign s _ i j); cbn [now row electors threads loops granted]; auto.
    + by rewrite upd_other.
    + intros k' q. by rewrite insert_thread_other.
    + intros k' q. by rewrite insert_thread_other.
    + intros k' l Hk' Hj. by eapply Hls.
Qed.

Lemma loops_same_other s i : ∀ j k l, i ≠ j → loops s !! k = Some l → lp_elector l = j →
  ∃ k' c, loops s !! k' = Some (mkLoop j (lp_gen l) c (lp_pc l)).
Proof. intros j k [x gen c p] _ Hk <-. by exists k, c. Qed.

Lemma loops_same s i e' : ∀ k l, loops s !! k = Some l → lp_elector l = i →
  (∃ k' c, loops s !! k' = Some (mkLoop i (lp_gen l) c (lp_pc l))) ∨
  (lp_pc l = LSelect ∧ (lp_gen l ≤ generation e')%nat).
Proof. intros k [x gen c p] Hk <-. left. by exists k, c. Qed.

Lemma foreign_refl i t r : foreign i t r r.
Proof. by left. Qed.

(** A step of a call that is a critical section of its elector. *)
Lemma inv_section s i k p p' e' :
  inv s → threads s !! k = Some (mkThread i p) →
  let e := electors s i in
  linv e' i (<[k := mkThread i p']> (threads s)) →
  isAcquired p' = false → owned e' = owned e ∨ owned e' = false →
  (liveOwn s i → owned e = true ∨ cleanup e = true ∨ unsettled p = true → owned e' = true ∨ cleanup e' = true) →
  (resolved e' = true → resolved e = true ∨ ∃ gen err, p = RFinish gen true err) →
  (∀ gen err, p' ≠ RFinish gen true err) →
  generation e' = generation e → done e' = done e ∨ done e' = None →
  inv (mkSys (now s) (row s) (upd (electors s) i e') (<[k := mkThread i p']> (threads s)) (loops s) (granted s)).
Proof.
  intros Hinv Hk e Hl Hacq Ho Horph Hres Hfin Hgen Hdone. subst e. eapply inv_others; try done.
  - apply foreign_refl.
  - by apply loops_same_other.
  - apply (rinv_local s i k p); try done; [apply Hinv|..].
    + destruct Ho as [->| ->]; [auto|done].
    + lia.
    + destruct Hdone as [->| ->]; [auto|done].
    + apply loops_same.
Qed.

(** Names where the call of the goal goes. *)
Ltac name_next p' := match goal with |- context [mkThread _ ?q] => set (p' := q) end.

(** The critical sections, one by one. *)
Ltac section_step := cbn [owned campaigning cleanup resigning resolved generation cancel done] in *.

Lemma inv_stay s i k p p' :
  inv s → threads s !! k = Some (mkThread i p) →
  isPending p' = isPending p → inCampaign p' = inCampaign p →
  (∀ gen, pendingGen p' = Some gen → pendingGen p = Some gen) →
  (trying p' = true → trying p = true) → isAcquired p' = false → unsettled p = false →
  (∀ gen err, p' ≠ RFinish gen true err) →
  inv (mkSys (now s) (row s) (upd (electors s) i (electors s i)) (<[k := mkThread i p']> (threads s))
         (loops s) (granted s)).
Proof.
  intros Hinv Hk Hpend Hcamp Hgen Htry Hacq Huns Hfin. destruct (Hinv i) as [Hl _]. pose proof Hl as [].
  eapply inv_section; try done; auto.
  - eapply linv_move; try done; rewrite ?Hpend, ?Hcamp; try lia; auto.
    + intros gen Hg. apply Hgen in Hg. eauto.
    + intros Ht. apply Htry in Ht. eauto.
  - intros _. rewrite Huns. by intros [|[|]]; auto.
Qed.

Lemma inv_begin s i k e' err :
  inv s → threads s !! k = Some (mkThread i CStart) → beginCampaign (electors s i) = (e', err) →
  inv (mkSys (now s) (row s) (upd (electors s) i e')
         (<[k := mkThread i (match err with Some err => CReturn (Some err) | None => CTry end)]> (threads s))
         (loops s) (granted s)).
Proof.
  intros Hinv Hk. unfold beginCampaign. destruct (Hinv i) as [Hl _]. pose proof Hl as [].
  destruct (cleanup (electors s i)) eqn:E1; [intros [= <- <-]; by apply (inv_stay s i k CStart)|].
  destruct (owned (electors s i)) eqn:E2; [intros [= <- <-]; by apply (inv_stay s i k CStart)|].
  destruct (campaigning (electors s i)) eqn:E3; [intros [= <- <-]; by apply (inv_stay s i k CStart)|].
  intros [= <- <-]. eapply inv_section; try done; section_step; auto.
  - eapply linv_move; try done; section_step; rewrite ?E3; simpl; try lia; auto.
  - intros _ [?|[?|?]]; [congruence..|done].
Qed.

Lemma inv_endCampaign s i k err :
  inv s → threads s !! k = Some (mkThread i (CEnd err)) →
  inv (mkSys (now s) (row s) (upd (electors s) i (endCampaign (electors s i)))
         (<[k := mkThread i (CReturn err)]> (threads s)) (loops s) (granted s)).
Proof.
  intros Hinv Hk. destruct (Hinv i) as [Hl _]. pose proof Hl as [].
  assert (campaigning (electors s i) = true) as Hc.
  { pose proof (countb_pos _ _ _ _ Hk (ofElector_self i inCampaign (CEnd err))) as Hp. simpl in Hp.
    destruct (campaigning (electors s i)); [done|lia]. }
  eapply inv_section; try done; unfold endCampaign; section_step; auto.
  - eapply linv_move; try done; section_step; rewrite ?Hc; simpl; try lia; auto.
  - intros _ [?|[?|?]]; [auto..|done].
Qed.

Lemma inv_mark s i k err :
  inv s → threads s !! k = Some (mkThread i (CMark err)) →
  inv (mkSys (now s) (row s) (upd (electors s) i (markCleanupPending (electors s i)))
         (<[k := mkThread i (CEnd (Some err))]> (threads s)) (loops s) (granted s)).
Proof.
  intros Hinv Hk. destruct (Hinv i) as [Hl _]. pose proof Hl as [].
  eapply inv_section; try done; unfold markCleanupPending; section_step; auto.
  eapply linv_move; try done; section_step; simpl; try lia; auto.
Qed.

Lemma inv_clear s i k e' gen c d active :
  inv s → threads s !! k = Some (mkThread i RStart) →
  clearOwnership (electors s i) = (e', (gen, c, d, active)) →
  inv (mkSys (now s) (row s) (upd (electors s) i e')
         (<[k := mkThread i (if active then RCancel gen c d else RReturn None)]> (threads s))
         (loops s) (granted s)).
Proof.
  intros Hinv Hk. unfold clearOwnership. destruct (Hinv i) as [Hl _]. pose proof Hl as [].
  destruct (negb (owned (electors s i)) && negb (cleanup (electors s i))) eqn:E.
  - intros [= <- <- <- <- <-]. by apply (inv_stay s i k RStart).
  - intros [= <- <- <- <- <-]. eapply inv_section; try done; section_step; auto.
    eapply linv_move; try done; section_step; simpl; try lia; auto.
    + by intros gen [= <-].
    + intros _ Ho Hc. by rewrite Ho, Hc in E.
Qed.

Lemma inv_finish s i k gen r err :
  inv s → threads s !! k = Some (mkThread i (RFinish gen r err)) →
  inv (mkSys (now s) (row s) (upd (electors s) i (finishResign gen r (electors s i)))
         (<[k := mkThread i (RReturn err)]> (threads s)) (loops s) (granted s)).
Proof.
  intros Hinv Hk. destruct (Hinv i) as [Hl Hr]. pose proof Hl as [].
  destruct (linv_pending _ _ _ _ _ Hl Hk eq_refl) as (Hpos & Hcl & Hown).
  assert (gen = generation (electors s i)) as -> by by eapply l_gens0.
  unfold finishResign. rewrite Nat.eqb_refl, (proj2 (Nat.eqb_neq _ _)) by lia. cbn [negb orb].
  destruct ((pred (resigning (electors s i)) =? 0)%nat && (r || resolved (electors s i))) eqn:E.
  - apply andb_true_iff in E as [Hz%Nat.eqb_eq Hres]. eapply inv_section; try done; section_step; auto.
    + eapply linv_move; try done; section_step; simpl; try lia; auto.
    + intros (x & Hx & Ho & _) _. exfalso. destruct Hr as [_ _ _ _ _ Hgone]. apply Hgone; [|by exists x].
      apply orb_true_iff in Hres as [->|]; eauto.
  - eapply inv_section; try done; section_step; auto.
    + eapply linv_move; try done; section_step; simpl; try lia; auto.
      * intros Hres. rewrite Hres, andb_true_r in E. apply Nat.eqb_neq in E. lia.
    + intros Hres. apply orb_true_iff in Hres as [->|]; eauto.
Qed.

Lemma inv_startRenewal s i k :
  inv s → threads s !! k = Some (mkThread i CAcquired) →
  let e' := startRenewal (electors s i) in
  inv (mkSys (now s) (row s) (upd (electors s) i e') (<[k := mkThread i (CEnd None)]> (threads s))
         (loops s ++ [mkLoop i (generation e') false LSelect]) (granted s)).
Proof.
  intros Hinv Hk e'. destruct (Hinv i) as [Hl Hr]. pose proof Hl as [].
  destruct (l_trying0 _ _ Hk eq_refl eq_refl) as [Ho Hc].
  assert (resigning (electors s i) = 0%nat) as Hz.
  { destruct (resigning (electors s i)); [done|]. destruct l_resigning0 as [? ?]; [lia|congruence]. }
  eapply inv_others; try done.
  - apply foreign_refl.
  - intros j k' l Hij [Hk'|[_ Hk']]%lookup_app_Some Hj; [by eapply loops_same_other|].
    apply list_lookup_singleton_Some in Hk' as [_ <-]. done.
  - subst e'. unfold startRenewal. eapply linv_move; try done; section_step; rewrite ?Hz; simpl; try lia; auto.
  - subst e'. unfold startRenewal. apply (rinv_local s i k CAcquired); try done; section_step; auto.
    + intros d [= <-]. right. lia.
    + intros k' l [Hk'|[_ Hk']]%lookup_app_Some Hi.
      * left. destruct l as [x gen c p]. simpl in Hi. subst x. by exists k', c.
      * apply list_lookup_singleton_Some in Hk' as [_ <-]. by right.
Qed.

Lemma cancelLoop_lookup i c (ls : list loop) k l :
  (cancelLoop i c <$> ls) !! k = Some l → ∃ b, ls !! k = Some (mkLoop (lp_elector l) (lp_gen l) b (lp_pc l)).
Proof.
  rewrite list_lookup_fmap. intros ([x gen b p] & Hk & ->)%fmap_Some.
  unfold cancelLoop. case_bool_decide; simpl; eauto.
Qed.

Lemma upd_id {A} (f : nat → A) i j : upd f i (f i) j = f j.
Proof. unfold upd. by case_decide; subst. Qed.

(** Writing the elector back unchanged. *)
Lemma inv_upd_id s i : inv (mkSys (now s) (row s) (upd (electors s) i (electors s i)) (threads s) (loops s) (granted s)) →
  inv s.
Proof.
  intros H j. destruct (H j) as [Hl Hr]. simpl in Hl. rewrite upd_id in Hl. split; [done|].
  destruct Hr as [H1 H2 H3 H4 H5 H6]. cbn [now row electors threads loops granted] in *.
  rewrite upd_id in *. done.
Qed.

Lemma inv_cancel s i k gen c d :
  inv s → threads s !! k = Some (mkThread i (RCancel gen c d)) →
  inv (mkSys (now s) (row s) (electors s) (<[k := mkThread i (RWait gen d)]> (threads s))
         (cancelLoop i c <$> loops s) (granted s)).
Proof.
  intros Hinv Hk. destruct (Hinv i) as [Hl Hr]. pose proof Hl as [].
  destruct (linv_pending _ _ _ _ _ Hl Hk eq_refl) as (Hpos & Hcl & Hown).
  apply (inv_upd_id _ i). cbn [now row electors threads loops granted]. eapply inv_others; try done.
  - apply foreign_refl.
  - intros j k' l Hij (b & Hk')%cancelLoop_lookup <-. eauto.
  - eapply linv_move; try done; simpl; try lia; auto. intros g [= <-]. eauto.
  - apply (rinv_local s i k (RCancel gen c d)); try done; auto.
    intros k' l (b & Hk')%cancelLoop_lookup <-. left. eauto.
Qed.

(** A statement of a campaign: the elector is not leader and no [Resign] is
    under way, so the facts about its own lease start anew. *)
Lemma inv_query_trying s i k p p' row' :
  inv s → threads s !! k = Some (mkThread i p) → trying p = true → inCampaign p' = true → 
  foreign i (now s) (row s) row' →
  (isAcquired p' = true → ∃ r, row' = Some r ∧ owner_token r = tok i) →
  (∀ r, row' = Some r → owner_token r = tok i → lease_until r ≤ now s + lease i) →
  (∀ r, row' = Some r → owner_token r = tok i → now s < lease_until r → unsettled p' = true) →
  inv (mkSys (now s) row' (electors s) (<[k := mkThread i p']> (threads s)) (loops s)
         (if isAcquired p' then upd (granted s) i (rowDeadline row') else granted s)).
Proof.
  intros Hinv Hk Htry Hcamp Hrow Hacq Huntil Horph. destruct (Hinv i) as [Hl Hr]. pose proof Hl as [].
  destruct (l_trying0 _ _ Hk eq_refl Htry) as [Ho Hc]. pose proof (trying_inCampaign _ Htry) as Hp.
  assert (resigning (electors s i) = 0%nat) as Hz.
  { destruct (resigning (electors s i)); [done|]. destruct l_resigning0 as [? ?]; [lia|congruence]. }
  assert (isPending p = false) as Hp1 by by destruct p.
  assert (isPending p' = false) as Hp2 by by destruct p'.
  apply (inv_upd_id _ i). cbn [now row electors threads loops granted]. eapply inv_others; try done.
  - intros j Hij. destruct (isAcquired p'); [by rewrite upd_other|done].
  - by apply loops_same_other.
  - eapply linv_move; try done; rewrite ?Hp1, ?Hp2, ?Hp, ?Hcamp; try lia; auto. by destruct p'.
  - split; cbn [now row electors threads loops granted]; rewrite ?upd_id.
    + intros [?|(k' & Hk')] Hn; [congruence|].
      apply list_lookup_insert_Some in Hk' as [(_ & [= ->] & _)|[Hne Hk']].
      * destruct Hacq as (r & -> & Ho'); [done|]. cbn [isAcquired] in Hn |- *. rewrite upd_same in *.
        exists r. simpl. eauto using Z.le_refl.
      * destruct Hne. by eapply (linv_one_campaign _ _ _ k k' p CAcquired).
    + done.
    + intros (r & Hr' & Ho' & Hn). simpl in *. right. right. exists k, p'. split; [|eauto].
      apply list_lookup_insert_eq. by eapply lookup_lt_Some.
    + apply Hr.
    + intros k' l _ _ _ Hd. rewrite l_done0 in Hd; done.
    + intros [Hres|(k' & gen & err & Hk')]; [apply l_resolved0 in Hres; lia|].
      apply list_lookup_insert_Some in Hk' as [(_ & [= ->] & _)|[_ Hk']]; [done|].
      destruct (linv_pending _ _ _ _ _ Hl Hk' eq_refl) as (Hpos & _). lia.
Qed.

Lemma decided_campaign r : inCampaign (decided r) = true.
Proof. by destruct r as [[]|]. Qed.

Lemma inv_try s i k ch :
  inv s → threads s !! k = Some (mkThread i CTry) →
  let '(row', tried) := tryAcquire (ch_out ch) (now s) (lease i) (tok i) (row s) in
  let p' := match afterTry tried (ch_attempt ch) (ch_outer ch) (ch_attempt' ch) (ch_outer' ch) with
            | Attempted r => decided r
            | Reconcile err timeout => CProbe err timeout
            end in
  inv (mkSys (now s) row' (electors s) (<[k := mkThread i p']> (threads s)) (loops s)
         (if isAcquired p' then upd (granted s) i (rowDeadline row') else granted s)).
Proof.
  intros Hinv Hk. destruct (Hinv i) as [_ [_ Huntil _ _ _ _]].
  pose proof (tryAcquire_foreign (ch_out ch) (now s) (lease i) i (row s)) as Hf.
  destruct (tryAcquire _ _ _ _ _) as [row' tried] eqn:E. simpl in Hf. cbv zeta.
  name_next p'.
  assert (inCampaign p' = true) as Hcamp.
  { subst p'. destruct (afterTry _ _ _ _ _); [apply decided_campaign|done]. }
  apply (inv_query_trying s i k CTry); try done.
  - intros Hacq. assert (tried = Ok true) as ->.
    { revert Hacq. subst p'. unfold afterTry. destruct tried as [[]|]; [done|by destruct (ch_attempt' ch)..]. }
    unfold tryAcquire in E. destruct (acquireQuery _ _ _ _) as [row'' owner] eqn:Eq.
    destruct (ch_out ch); [|done]. injection E as <- Ho. unfold acquireQuery in Eq.
    destruct (row s) as [x|]; [|injection Eq as <- <-; by eexists].
    destruct (_ || _); injection Eq as <- <-; [by eexists|done].
  - intros r Hr Ho. unfold tryAcquire, acquireQuery in E. destruct (row s) as [x|] eqn:Ex.
    + destruct (_ || _), (ch_out ch) as [|[]]; simplify_eq; simpl; [lia|lia|eauto..].
    + destruct (ch_out ch) as [|[]]; simplify_eq; simpl; lia.
  - intros r Hr Ho Hn. subst p'. unfold afterTry. destruct tried as [[]|err]; [by destruct (ch_attempt' ch)| |done].
    exfalso. unfold tryAcquire, acquireQuery in E. destruct (row s) as [x|] eqn:Ex.
    + destruct ((lease_until x <=? now s) || bool_decide (owner_token x = tok i)) eqn:Eb;
        destruct (ch_out ch) as [|[]]; simplify_eq/=; [by case_bool_decide|].
      apply orb_false_iff in Eb as [_ ?%bool_decide_eq_false]. done.
    + destruct (ch_out ch) as [|[]]; simplify_eq/=. by case_bool_decide.
Qed.

Lemma inv_probe s i k ch operationErr internalTimeout :
  inv s → threads s !! k = Some (mkThread i (CProbe operationErr internalTimeout)) →
  let '(r, mark) := afterProbe (tok i) operationErr internalTimeout (lookupOwner (ch_out ch) (now s) (row s)) in
  let p' := if mark then match r with Fail err => CMark err | Ok _ => CWait end else decided r in
  inv (mkSys (now s) (row s) (electors s) (<[k := mkThread i p']> (threads s)) (loops s)
         (if isAcquired p' then upd (granted s) i (rowDeadline (row s)) else granted s)).
Proof.
  intros Hinv Hk. destruct (Hinv i) as [_ [_ Huntil _ _ _ _]].
  destruct (afterProbe _ _ _ _) as [r mark] eqn:E. cbv zeta.
  name_next p'.
  assert (inCampaign p' = true) as Hcamp.
  { subst p'. destruct mark; [by destruct r|apply decided_campaign]. }
  apply (inv_query_trying s i k (CProbe operationErr internalTimeout)); try done.
  - apply foreign_refl.
  - intros Hacq. subst p'. unfold afterProbe, lookupOwner, lookupQuery in E.
    destruct (ch_out ch); [|injection E as <- <-; done]. destruct (row s) as [x|].
    + destruct (now s <? lease_until x); case_bool_decide; [eauto| |by destruct (tok_nonempty i)|];
        destruct internalTimeout; injection E as <- <-; done.
    + case_bool_decide; [by destruct (tok_nonempty i)|]. destruct internalTimeout; injection E as <- <-; done.
  - intros x Hx Ho Hn. subst p'. unfold afterProbe, lookupOwner, lookupQuery in E. rewrite Hx in E.
    rewrite (proj2 (Z.ltb_lt _ _) Hn) in E. destruct (ch_out ch); [|injection E as <- <-; done].
    rewrite bool_decide_eq_true_2 in E by done. injection E as <- <-. done.
Qed.

Lemma inv_delete s i k ch gen :
  inv s → threads s !! k = Some (mkThread i (RDelete gen)) →
  let '(row', err) := deleteOwner (ch_out ch) (tok i) (row s) in
  let p' := match err with
            | None => RFinish gen true None
            | Some err => RFinish gen false (Some (Joined [err; ErrCommitUnknown]))
            end in
  inv (mkSys (now s) row' (electors s) (<[k := mkThread i p']> (threads s)) (loops s) (granted s)).
Proof.
  intros Hinv Hk. destruct (Hinv i) as [Hl Hr]. pose proof Hl as []. pose proof Hr as [].
  destruct (linv_pending _ _ _ _ _ Hl Hk eq_refl) as (Hpos & Hcl & Hown).
  pose proof (deleteOwner_foreign (ch_out ch) (now s) i (row s)) as Hf.
  destruct (deleteOwner _ _ _) as [row' err] eqn:E. simpl in Hf. cbv zeta.
  name_next p'.
  assert (pendingGen p' = Some gen ∧ inCampaign p' = false) as [Hpg Hpc] by (subst p'; by destruct err).
  assert (∀ x, row' = Some x → owner_token x = tok i → row' = row s ∧ err ≠ None) as Hkeep.
  { intros x -> Hx. unfold deleteOwner, deleteQuery in E. destruct (row s) as [y|].
    - destruct (bool_decide (owner_token y = tok i)) eqn:Eb, (ch_out ch) as [|[]]; simplify_eq; try done.
      by apply bool_decide_eq_false in Eb.
    - destruct (ch_out ch) as [|[]]; done. }
  apply (inv_upd_id _ i). cbn [now row electors threads loops granted]. eapply inv_others; try done.
  - by apply loops_same_other.
  - eapply linv_move; try done; unfold isPending; rewrite ?Hpg, ?Hpc; simpl; try lia; auto.
    + intros g [= <-]. eauto.
    + by destruct p'.
  - split; cbn [now row electors threads loops granted]; rewrite ?upd_id; try done.
    + intros [?|(k' & Hk')]; [congruence|].
      apply list_lookup_insert_Some in Hk' as [(_ & [= Hp] & _)|[_ Hk']]; [by rewrite Hp in Hpg|].
      destruct (l_trying0 _ _ Hk' eq_refl eq_refl) as [_ ?]. congruence.
    + intros x Hx Ho. destruct (Hkeep x Hx Ho) as [Heq _]. rewrite Heq in Hx. eauto.
    + intros _. by right; left.
    + intros k' l Hl' Hi Hpl Hd (x & Hx & Ho & Hn). apply (r_lost0 k' l); try done.
      simpl in *. destruct (Hkeep x Hx Ho) as [Heq _]. rewrite Heq in Hx. by exists x.
    + intros Hp (x & Hx & Ho). simpl in Hx. destruct (Hkeep x Hx Ho) as [Heq Herr].
      rewrite Heq in Hx. apply r_gone0; [|by exists x]. destruct Hp as [|(k' & g & er & Hk')]; [by left|].
      apply list_lookup_insert_Some in Hk' as [(_ & [= Hp] & _)|[_ Hk']]; [|eauto 8].
      subst p'. by destruct err.
Qed.

(** ** The renewal loops *)

Lemma linv_loss e i ts gen c : linv e i ts → linv (clearOwnershipAfterLoss gen gen c e) i ts.
Proof.
  intros Hl. pose proof Hl as []. unfold clearOwnershipAfterLoss.
  destruct (negb (generation e =? gen)%nat || negb (bool_decide (done e = Some gen))) eqn:E; [done|].
  apply orb_false_iff in E as [_ E%negb_false_iff%bool_decide_eq_true].
  assert (∀ k t, ts !! k = Some t → th_elector t = i → trying (th_pc t) = true → False) as Hno.
  { intros k t Hk Ht Hp. destruct (l_trying0 k t Hk Ht Hp) as [Ho Hc]. rewrite l_done0 in E; done. }
  destruct (resigning e =? 0)%nat eqn:Ez; split; section_step; try done.
  - apply Nat.eqb_eq in Ez. lia.
  - intros k t Hk Ht Hp. by destruct (Hno k t).
  - intros Hpos. split; [|done]. rewrite (proj2 (Nat.ltb_lt _ _) Hpos). apply orb_true_r.
  - intros k t Hk Ht Hp. by destruct (Hno k t).
  - intros _ Hc. apply orb_false_iff in Hc as [_ Hc%Nat.ltb_ge]. apply Nat.eqb_neq in Ez. lia.
Qed.

Lemma insert_loop_other (ls : list loop) k i j gen b p q k' l :
  i ≠ j → ls !! k = Some (mkLoop i gen b p) → <[k := mkLoop i gen b q]> ls !! k' = Some l → lp_elector l = j →
  ∃ k'' c, ls !! k'' = Some (mkLoop j (lp_gen l) c (lp_pc l)).
Proof.
  intros Hij Hk [(_ & <- & _)|[_ Hk']]%list_lookup_insert_Some Hj; [done|].
  destruct l as [x g c pl]. simpl in *. subst x. eauto.
Qed.

(** A step of a renewal loop of elector [i]: the calls are as they were. *)
Lemma inv_loop s i k gen b p q row' e' g' :
  inv s → loops s !! k = Some (mkLoop i gen b p) → foreign i (now s) (row s) row' →
  (∀ j, i ≠ j → g' j = granted s j) → linv e' i (threads s) →
  let s' := mkSys (now s) row' (upd (electors s) i e') (threads s) (<[k := mkLoop i gen b q]> (loops s)) g' in
  rinv s' i → inv s'.
Proof.
  intros Hinv Hk Hrow Hg Hl s' Hr j. subst s'. destruct (decide (i = j)) as [<-|Hij].
  { cbn [electors threads]. rewrite upd_same. by split. }
  destruct (Hinv j) as [Hlj Hrj]. cbn [electors threads]. rewrite upd_other by done. split; [done|].
  apply (rinv_foreign s _ i j); cbn [now row electors threads loops granted]; auto.
  - by rewrite upd_other.
  - intros k' l Hk' Hj. by eapply insert_loop_other.
Qed.

(** The loops of elector [i] after the one at [k] has moved to [q]. *)
Lemma insert_loop_self (ls : list loop) k i gen b p q k' l :
  ls !! k = Some (mkLoop i gen b p) → <[k := mkLoop i gen b q]> ls !! k' = Some l → lp_elector l = i →
  l = mkLoop i gen b q ∨ ls !! k' = Some l.
Proof. intros Hk [(_ & <- & _)|[_ Hk']]%list_lookup_insert_Some _; auto. Qed.

Lemma inv_renew s i k gen b ch :
  inv s → loops s !! k = Some (mkLoop i gen b LSelect) →
  let '(row', r) := renew (ch_out ch) (now s) (lease i) (tok i) (row s) in
  inv (mkSys (now s) row' (electors s) (threads s)
         (<[k := mkLoop i gen b (match r with Ok true => LSelect | Ok false => LLost false | Fail _ => LLost true end)]>
            (loops s))
         (match r with Ok true => upd (granted s) i (rowDeadline row') | _ => granted s end)).
Proof.
  intros Hinv Hk. destruct (Hinv i) as [Hl Hr]. pose proof Hr as [].
  pose proof (renew_foreign (ch_out ch) (now s) (lease i) i (row s)) as Hf.
  destruct (renew _ _ _ _ _) as [row' r] eqn:E. simpl in Hf.
  apply (inv_upd_id _ i). cbn [now row electors threads loops granted].
  eapply inv_loop; try done.
  { intros j Hij. destruct r as [[]|]; [by rewrite upd_other|done..]. }
  assert ((∃ x, row s = Some x ∧ owner_token x = tok i ∧ now s < lease_until x ∧
             row' = Some (mkRow (tok i) (now s + lease i)) ∧ r ≠ Ok false) ∨
          (row' = row s ∧ r ≠ Ok true ∧
             (r = Ok false → ¬ liveOwn s i))) as Hcase.
  { unfold renew in E. destruct (renewQuery_cases (now s) (lease i) i (row s)) as [(x & Hx & Ho & Hn & Eq)|[Hx Eq]];
      rewrite Eq in E; destruct (ch_out ch) as [|[]]; simplify_eq.
    - left. by exists x.
    - left. by exists x.
    - right. done.
    - right. split_and!; [done..|]. intros _ (x & Hr' & Ho & Hn). specialize (Hx x Hr' Ho). lia.
    - right. done.
    - right. done. }
  set (q := match r with Ok true => _ | _ => _ end).
  assert (∀ k' l, <[k := mkLoop i gen b q]> (loops s) !! k' = Some l → lp_elector l = i →
    (lp_gen l ≤ generation (electors s i))%nat) as Hgens.
  { intros k' l Hk' Hi. destruct (insert_loop_self _ _ _ _ _ _ _ _ _ Hk Hk' Hi) as [->|Hl']; [|eauto].
    by apply (r_gens0 _ _ Hk). }
  destruct Hcase as [(x & Hx & Ho & Hn & -> & Hr')|(-> & Hr' & Hlost)].
  - assert (liveOwn s i) as Hlive by by exists x.
    split; cbn [now row electors threads loops granted]; rewrite ?upd_id; try done.
    + intros Hp Hng. exists (mkRow (tok i) (now s + lease i)). split_and!; [done..|]. simpl.
      destruct r as [[]|]; [by rewrite upd_same|done|].
      destruct r_live0 as (y & Hy & _ & Hle); [done..|]. rewrite Hx in Hy. injection Hy as <-.
      specialize (r_until0 x Hx Ho). lia.
    + intros y [= <-] _. simpl. lia.
    + intros _. by apply r_orphan0.
    + intros k' l Hk' Hi Hpl Hd. destruct (insert_loop_self _ _ _ _ _ _ _ _ _ Hk Hk' Hi) as [->|Hl'].
      * subst q. by destruct r as [[]|].
      * by destruct (r_lost0 k' l Hl' Hi Hpl Hd).
    + intros Hp _. apply (r_gone0 Hp). by exists x.
  - assert (match r with Ok true => upd (granted s) i (rowDeadline (row s)) | _ => granted s end = granted s) as ->
      by by destruct r as [[]|].
    split; cbn [now row electors threads loops granted]; rewrite ?upd_id; try done.
    intros k' l Hk' Hi Hpl Hd. destruct (insert_loop_self _ _ _ _ _ _ _ _ _ Hk Hk' Hi) as [->|Hl'].
    + apply Hlost. subst q. by destruct r as [[]|].
    + by apply (r_lost0 k' l).
Qed.

Lemma inv_lost s i k gen b c :
  inv s → loops s !! k = Some (mkLoop i gen b (LLost c)) →
  inv (mkSys (now s) (row s) (upd (electors s) i (clearOwnershipAfterLoss gen gen c (electors s i)))
         (threads s) (<[k := mkLoop i gen b LClosing]> (loops s)) (granted s)).
Proof.
  intros Hinv Hk. destruct (Hinv i) as [Hl Hr]. pose proof Hr as [].
  eapply inv_loop; try done; [apply foreign_refl|by apply linv_loss|].
  assert (let e := electors s i in let e' := clearOwnershipAfterLoss gen gen c e in
    e' = e ∨ (owned e' = false ∧ generation e' = generation e ∧ resolved e' = resolved e ∧
              (done e' = None ∨ done e' = done e) ∧ (liveOwn s i → cleanup e' = true))) as He.
  { cbv zeta. unfold clearOwnershipAfterLoss. destruct (_ || _) eqn:E; [by left|right].
    apply orb_false_iff in E as [_ E%negb_false_iff%bool_decide_eq_true].
    assert (liveOwn s i → c || (0 <? resigning (electors s i))%nat = true ∨ resigning (electors s i) = 0%nat ∧ c = true)
      as Hc.
    { intros Hlive. left. destruct c; [done|]. destruct (r_lost0 _ _ Hk eq_refl eq_refl E Hlive). }
    destruct (resigning (electors s i) =? 0)%nat; section_step; split_and!; auto;
      intros Hlive; destruct (Hc Hlive) as [->|[_ ->]]; done. }
  cbv zeta in He. set (e' := clearOwnershipAfterLoss _ _ _ _) in *.
  assert (generation e' = generation (electors s i)) as Hgen by by destruct He as [->|(_ & ? & _)].
  split; cbn [now row electors threads loops granted]; rewrite ?upd_same; try done.
  - intros [Ho|Hp]; [|eauto]. apply r_live0. left. destruct He as [->|(? & _)]; [done|congruence].
  - intros Hlive. change (liveOwn s i) in Hlive. destruct He as [->|(_ & _ & _ & _ & Hc)]; [by apply r_orphan0|auto].
  - intros k' l Hk' Hi. rewrite Hgen.
    destruct (insert_loop_self _ _ _ _ _ _ _ _ _ Hk Hk' Hi) as [->|Hl']; [by apply (r_gens0 _ _ Hk)|eauto].
  - intros k' l Hk' Hi Hpl Hd. destruct (insert_loop_self _ _ _ _ _ _ _ _ _ Hk Hk' Hi) as [->|Hl']; [done|].
    apply (r_lost0 k' l); try done. destruct He as [->|(_ & _ & _ & [?|Heq] & _)]; [done|congruence|congruence].
  - intros Hp. apply r_gone0. destruct He as [Heq|(_ & _ & Heq & _)]; [by rewrite Heq in Hp|by rewrite <-Heq].
Qed.

Lemma inv_closing s i k gen b p q :
  inv s → loops s !! k = Some (mkLoop i gen b p) → q = LClosing ∨ q = LClosed →
  inv (mkSys (now s) (row s) (electors s) (threads s) (<[k := mkLoop i gen b q]> (loops s)) (granted s)).
Proof.
  intros Hinv Hk Hq. destruct (Hinv i) as [Hl Hr]. pose proof Hr as [].
  apply (inv_upd_id _ i). cbn [now row electors threads loops granted].
  eapply inv_loop; try done; [apply foreign_refl|].
  split; cbn [now row electors threads loops granted]; rewrite ?upd_id; try done.
  - intros k' l Hk' Hi.
    destruct (insert_loop_self _ _ _ _ _ _ _ _ _ Hk Hk' Hi) as [->|Hl']; [by apply (r_gens0 _ _ Hk)|eauto].
  - intros k' l Hk' Hi Hpl Hd. destruct (insert_loop_self _ _ _ _ _ _ _ _ _ Hk Hk' Hi) as [->|Hl']; [|by apply (r_lost0 k' l)].
    simpl in Hpl. by destruct Hq; subst.
Qed.

Lemma inv_thread s ch k s' : inv s → threadStep tok lease ch k s = Some s' → inv s'.
Proof.
  intros Hinv. unfold threadStep. destruct (threads s !! k) as [[i p]|] eqn:Hk; [|done]. cbv zeta.
  cbn [th_elector th_pc]. destruct p.
  - destruct (ch_ctx ch); [intros [= <-]; by apply (inv_stay s i k CStart)|].
    destruct (beginCampaign (electors s i)) as [e' err] eqn:E. intros [= <-]. by apply inv_begin.
  - pose proof (inv_try s i k ch Hinv Hk) as H. destruct (tryAcquire _ _ _ _ _). intros [= <-]. exact H.
  - pose proof (inv_probe s i k ch _ _ Hinv Hk) as H. destruct (afterProbe _ _ _ _). intros [= <-]. exact H.
  - destruct (ch_ctx ch); intros [= <-]; by apply (inv_stay s i k CWait).
  - intros [= <-]. by apply inv_startRenewal.
  - intros [= <-]. by apply inv_mark.
  - intros [= <-]. by apply inv_endCampaign.
  - done.
  - destruct (ch_ctx ch); [intros [= <-]; by apply (inv_stay s i k RStart)|].
    destruct (clearOwnership (electors s i)) as [e' [[[gen c] d] active]] eqn:E. intros [= <-]. by apply inv_clear.
  - intros [= <-]. by eapply inv_cancel.
  - destruct (ch_ctx ch), done as [d|].
    3: destruct (closedLoop (loops s) i d); [|done].
    all: intros [= <-]; by eapply (inv_stay s i k _ _ Hinv Hk).
  - pose proof (inv_delete s i k ch gen Hinv Hk) as H. destruct (deleteOwner _ _ _) as [row' [err|]];
      intros [= <-]; exact H.
  - intros [= <-]. by apply inv_finish.
  - done.
Qed.

Lemma inv_loopStep s ch k s' : inv s → loopStep tok lease ch k s = Some s' → inv s'.
Proof.
  intros Hinv. unfold loopStep. destruct (loops s !! k) as [[i gen b p]|] eqn:Hk; [|done]. cbv zeta.
  cbn [lp_elector lp_gen lp_cancelled lp_pc]. destruct p.
  - destruct (ch_ctx ch).
    + destruct b; [|done]. intros [= <-]. eapply inv_closing; eauto.
    + pose proof (inv_renew s i k gen b ch Hinv Hk) as H. destruct (renew _ _ _ _ _) as [row' [[]|]];
        intros [= <-]; exact H.
  - intros [= <-]. by apply inv_lost.
  - intros [= <-]. eapply inv_closing; eauto.
  - done.
Qed.

Lemma inv_time s t : inv s → now s ≤ t → inv (mkSys t (row s) (electors s) (threads s) (loops s) (granted s)).
Proof.
  intros Hinv Ht i. destruct (Hinv i) as [Hl [H1 H2 H3 H4 H5 H6]]. split; [done|].
  assert (∀ s', row s' = row s → now s' = t → liveOwn s' i → liveOwn s i) as Hlive.
  { intros s' Hr Hn (x & Hx & Ho & Hlt). exists x. rewrite <-Hr. split_and!; [done..|lia]. }
  split; cbn [now row electors threads loops granted]; try done.
  - intros Hp Hn. apply H1; [done|lia].
  - intros r Hr Ho. specialize (H2 r Hr Ho). lia.
  - intros Hl'. apply H3. revert Hl'. by apply Hlive.
  - intros k l Hk Hi Hp Hd Hl'. apply (H5 k l); try done. revert Hl'. by apply Hlive.
Qed.

Lemma inv_call s i p :
  inv s → p = CStart ∨ p = RStart →
  inv (mkSys (now s) (row s) (electors s) (threads s ++ [mkThread i p]) (loops s) (granted s)).
Proof.
  intros Hinv Hp j. destruct (Hinv j) as [Hl [H1 H2 H3 H4 H5 H6]].
  split; [by apply linv_call|].
  assert (∀ k q, q ≠ CStart → q ≠ RStart → (threads s ++ [mkThread i p]) !! k = Some (mkThread j q) →
    threads s !! k = Some (mkThread j q)) as Hold.
  { intros k q Hc Hr [Hk|[_ Hk]]%lookup_app_Some; [done|].
    apply list_lookup_singleton_Some in Hk as [_ [= -> ->]]. by destruct Hp. }
  split; cbn [now row electors threads loops granted]; try done.
  - intros Hq. apply H1. destruct Hq as [|(k & Hk)]; [by left|]. right. exists k. by apply Hold.
  - intros Hlive. destruct (H3 Hlive) as [|[|(k & q & Hk & Hq)]]; [auto..|]. right. right. exists k, q.
    split; [|done]. by apply lookup_app_l_Some.
  - intros Hq. apply H6. destruct Hq as [|(k & gen & err & Hk)]; [by left|]. right. exists k, gen, err. by apply Hold.
Qed.

Lemma inv_initial t : inv (initialSys t).
Proof.
  intros i. split.
  - split; simpl; try done; lia.
  - assert (∀ P : Prop, ours (initialSys t) i → P) as Hno by by intros P (x & ? & _).
    split; simpl; try done; try lia.
    + intros (x & ? & _). done.
    + intros _ Ho. by apply Hno.
Qed.

Lemma reachable_inv_sql t s : rtc (sqlStep tok lease) (initialSys t) s → inv s.
Proof.
  intros Hr. apply (rtc_invariant (sqlStep tok lease) inv) with (2 := Hr); [|apply inv_initial].
  intros a b Ha [? ?|? ? ?|ch k s' Hs|ch k s' Hs].
  - by apply inv_time.
  - by apply inv_call.
  - by eapply inv_thread.
  - by eapply inv_loopStep.
Qed.

(** C2. Exclusive leadership.  Whatever calls of [Campaign] and [Resign] run on
    whatever electors of a key, in whatever interleaving with the renewal
    loops, the passing of time and statements that fail with or without having
    taken effect: an elector that reports leadership before the lease confirmed
    to it ends is the owner the database records, so two electors never both
    report leadership under leases that have not ended. *)
Theorem exclusive_leadership t s :
  rtc (sqlStep tok lease) (initialSys t) s →
  (∀ i, IsLeader (electors s i) = true → now s < granted s i → lookupQuery (now s) (row s) = Some (tok i)) ∧
  (∀ i j, i ≠ j → IsLeader (electors s i) = true → IsLeader (electors s j) = true →
     granted s i ≤ now s ∨ granted s j ≤ now s).
Proof.
  intros Hinv%reachable_inv_sql.
  assert (∀ i, IsLeader (electors s i) = true → now s < granted s i →
    lookupQuery (now s) (row s) = Some (tok i)) as Hown.
  { intros i Hi Hn. destruct (Hinv i) as [_ [Hlive _ _ _ _ _]].
    destruct Hlive as (r & Hr & Ho & Hu); [by left|done|].
    unfold lookupQuery. rewrite Hr, (proj2 (Z.ltb_lt _ _)) by lia. by rewrite Ho. }
  split; [done|]. intros i j Hij Hi Hj.
  destruct (Z.lt_ge_cases (now s) (granted s i)) as [Hni|]; [|by left].
  destruct (Z.lt_ge_cases (now s) (granted s j)) as [Hnj|]; [|by right].
  pose proof (Hown i Hi Hni) as H1. rewrite (Hown j Hj Hnj) in H1. injection H1 as H1.
  by apply tok_inj in H1.
Qed.

(** No lease is left behind: an elector that is not leader, runs no
    campaign and has no cleanup pending does not own an unexpired lease, so
    another elector can acquire the key at once. *)
Theorem idle_elector_holds_nothing t s i :
  rtc (sqlStep tok lease) (initialSys t) s →
  owned (electors s i) = false → cleanup (electors s i) = false → campaigning (electors s i) = false →
  lookupQuery (now s) (row s) ≠ Some (tok i).
Proof.
  intros Hinv%reachable_inv_sql Ho Hc Hg Hl. destruct (Hinv i) as [[_ _ _ Hcamp _ _ _] [_ _ Horph _ _ _]].
  unfold lookupQuery in Hl. destruct (row s) as [r|] eqn:Hr; [|done].
  destruct (now s <? lease_until r) eqn:Hn; [|done]. bools. injection Hl as Hl.
  destruct Horph as [|[|(k & p & Hk & Hp)]]; [by exists r|congruence..|].
  rewrite Hg in Hcamp. assert (1 ≤ countb (ofElector i inCampaign) (threads s))%nat; [|lia].
  apply (countb_pos _ _ _ _ Hk). rewrite ofElector_self. by destruct p.
Qed.
End safety.

(** ** Budgets *)

Lemma backoffDelay_bounds tokenBytes cap attempt :
  0 ≤ attempt → campaignBackoffBase ≤ cap ≤ 1000000000 → 0 < backoffDelay tokenBytes cap attempt ≤ cap.
Proof.
  intros Ha [Hlo Hhi]. unfold backoffDelay.
  set (h := 80 + stableHash tokenBytes attempt mod 41).
  assert (80 ≤ h ≤ 120) as Hh by (subst h; pose proof (Z.mod_pos_bound (stableHash tokenBytes attempt) 41); lia).
  set (d := if cap <? Z.shiftl campaignBackoffBase (Z.min attempt 6) then cap
            else Z.shiftl campaignBackoffBase (Z.min attempt 6)).
  assert (campaignBackoffBase ≤ d ≤ cap) as Hd.
  { subst d. rewrite Z.shiftl_mul_pow2 by lia.
    assert (1 ≤ 2 ^ Z.min attempt 6) by (apply Z.lt_pred_le, Z.pow_pos_nonneg; lia).
    destruct (cap <? _) eqn:E; bools; unfold campaignBackoffBase in *; lia. }
  cbv zeta. unfold campaignBackoffBase in *. rewrite wrap_i64_id by (unfold in_i64; nia).
  rewrite Z.quot_div_nonneg by nia.
  assert (1 ≤ d * h / 100) by (apply Z.div_le_lower_bound; nia).
  destruct (cap <? d * h / 100) eqn:E; bools; lia.
Qed.

(** Timing.  For the options of any elector that can be created, a renewal
    that starts when its tick is due and uses its whole budget still ends
    before the lease does, an attempt never outlasts a quarter of the lease,
    and the delay between attempts stays positive and within its cap. *)
Theorem renewal_fits_lease o n tokenBytes attempt :
  New_validate o = Ok n → 0 ≤ attempt →
  RenewInterval n + renewalBudget n < Lease n ∧
  0 ≤ renewalBudget n ≤ RenewInterval n ∧
  attemptBudget n * 4 ≤ Lease n ∧
  0 < backoffDelay tokenBytes (newBackoff (Lease n)) attempt ≤ newBackoff (Lease n) ∧
  newBackoff (Lease n) ≤ 1000000000.
Proof.
  unfold New_validate. destruct (Options_Normalize o) as [n'|] eqn:E; [|done].
  apply Normalize_Ok in E as ((Hl & Hr & _) & _). destruct (_ <=? _) eqn:Ei; [done|]. bools.
  intros [= <-] Ha. unfold renewalBudget, attemptBudget.
  rewrite !Z.quot_div_nonneg by lia.
  pose proof (Z.div_mod (Lease n' - RenewInterval n') 2 ltac:(lia)).
  pose proof (Z.mod_pos_bound (Lease n' - RenewInterval n') 2 ltac:(lia)).
  pose proof (Z.div_mod (Lease n') 4 ltac:(lia)). pose proof (Z.mod_pos_bound (Lease n') 4 ltac:(lia)).
  assert (newBackoff (Lease n') = Z.max 25000000 (Z.min (Lease n' / 4) 1000000000)) as Hcap.
  { unfold newBackoff, campaignBackoffBase. by rewrite Z.quot_div_nonneg by lia. }
  split; [lia|]. split; [lia|]. split; [lia|]. split; [|lia].
  apply backoffDelay_bounds; [done|]. unfold campaignBackoffBase. lia.
Qed.

(** ** Witnesses *)

Definition plain : choice := mkChoice None Completed None None None None.

(** Runs the calls at the given indices, one action each. *)
Fixpoint runCalls (tok : nat → text) (lease : nat → Z) (ks : list nat) (s : Sys) : option Sys :=
  match ks with
  | [] => Some s
  | k :: ks' => match threadStep tok lease plain k s with Some s' => runCalls tok lease ks' s' | None => None end
  end.

Lemma runCalls_rtc tok lease ks s s' : runCalls tok lease ks s = Some s' → rtc (sqlStep tok lease) s s'.
Proof.
  revert s. induction ks as [|k ks IH]; intros s; simpl; [intros [= <-]; done|].
  destruct (threadStep _ _ _ _ _) eqn:E; [|done]. intros H. eapply rtc_l; [by eapply step_thread|eauto].
Qed.

Definition demoTok (i : nat) : text := [65 + Z.of_nat i].
Definition demoLease (i : nat) : Z := 10.
Lemma demoTok_inj i j : demoTok i = demoTok j → i = j.
Proof. unfold demoTok. intros [= H]. lia. Qed.

(** Elector 0 campaigns and wins, then elector 1 tries. *)
Definition demoCalled : Sys :=
  mkSys 0 None (λ _, newElector) [mkThread 0 CStart; mkThread 1 CStart] [] (λ _, 0).
Definition demoRun : option Sys := runCalls demoTok demoLease [0; 0; 0; 0; 1; 1]%nat demoCalled.

Lemma demo_called : rtc (sqlStep demoTok demoLease) (initialSys 0) demoCalled.
Proof.
  eapply rtc_l; [apply (step_call _ _ _ 0 CStart); by left|].
  eapply rtc_l; [apply (step_call _ _ _ 1 CStart); by left|]. done.
Qed.

Lemma exclusive_leadership_witness :
  ∃ s, demoRun = Some s ∧ IsLeader (electors s 0) = true ∧ lookupQuery (now s) (row s) = Some (demoTok 0).
Proof.
  destruct demoRun as [s|] eqn:E; [|vm_compute in E; discriminate E].
  exists s. split; [done|].
  assert (rtc (sqlStep demoTok demoLease) (initialSys 0) s) as Hr.
  { etrans; [apply demo_called|]. by eapply runCalls_rtc. }
  assert (IsLeader (electors s 0) = true) as Hl.
  { assert ((λ s, IsLeader (electors s 0)) <$> demoRun = Some true) as H by (vm_compute; reflexivity).
    rewrite E in H. by injection H. }
  split; [done|].
  apply (exclusive_leadership demoTok demoLease demoTok_inj (λ _, ltac:(done)) 0 s Hr); [done|].
  assert ((λ s, now s <? granted s 0%nat) <$> demoRun = Some true) as H by (vm_compute; reflexivity).
  rewrite E in H. injection H as H. by apply Z.ltb_lt in H.
Defined.

Lemma idle_elector_holds_nothing_witness : lookupQuery 0 None ≠ Some (demoTok 0).
Proof.
  apply (idle_elector_holds_nothing demoTok demoLease demoTok_inj (λ _, ltac:(done)) 0 demoCalled 0);
    [apply demo_called|reflexivity..].
Defined.

Lemma renewal_fits_lease_witness :
  RenewInterval (mkOptions (lit "a") (lit "node-1") defaultLease 5 defaultKeyPrefix) +
  renewalBudget (mkOptions (lit "a") (lit "node-1") defaultLease 5 defaultKeyPrefix) < defaultLease.
Proof.
  apply (renewal_fits_lease (sampleOptions "a") (mkOptions (lit "a") (lit "node-1") defaultLease 5 defaultKeyPrefix)
           [] 0); [vm_compute; reflexivity|lia].
Defined.
