(* ===== verification/RedisLeader.v ===== *)
(** * leader/redis: the lease elector

    Models [src/leader/redis/elector.go]: the Redis commands and scripts on the
    key of a group, the fields of an elector under its mutex, and calls and
    renewal loops as a step relation, in the way of [SqlLeader.v].  A command is
    atomic, and one that reports an error has taken effect or not.  The key is
    absent or holds a token and the time at which it expires. *)

From S2P Require Import Prelude GoError GoText Leader SqlLeader.

Local Open Scope Z_scope.

Definition btredis_ErrCommitUnknown : error := Sentinel "redis.ErrCommitUnknown".

(** ** Commands on the key *)

(** What [GET] answers: an expired key is absent. *)
Definition redisGet (now : Z) (key : option leaseRow) : option text := lookupQuery now key.

(** [SET key token NX PX lease] *)
Definition SetNX (now lease : Z) (token : text) (key : option leaseRow) : option leaseRow * bool :=
  match redisGet now key with
  | None => (Some (mkRow token (now + lease)), true)
  | Some _ => (key, false)
  end.

Definition releaseScript (now : Z) (token : text) (key : option leaseRow) : option leaseRow :=
  if bool_decide (redisGet now key = Some token) then None else key.

Definition renewScript (now lease : Z) (token : text) (key : option leaseRow) : option leaseRow * Z :=
  if bool_decide (redisGet now key = Some token) then (Some (mkRow token (now + lease)), 1) else (key, 0).

(** ** The elector's own state *)

Record RElector : Type := mkRElector {
  r_owned : bool;
  r_campaigning : bool;
  r_cleanup : bool;
  r_generation : nat;
  r_cancel : option nat;
  r_done : option nat
}.

Definition newRElector : RElector := mkRElector false false false 0 None None.

Definition r_beginCampaign (e : RElector) : RElector * option error :=
  if r_cleanup e then (e, Some ErrCleanupPending)
  else if r_owned e then (e, Some ErrAlreadyLeader)
  else if r_campaigning e then (e, Some ErrCampaignInProgress)
  else (mkRElector (r_owned e) true (r_cleanup e) (r_generation e) (r_cancel e) (r_done e), None).

Definition r_endCampaign (e : RElector) : RElector :=
  mkRElector (r_owned e) false (r_cleanup e) (r_generation e) (r_cancel e) (r_done e).

Definition r_startRenewal (e : RElector) : RElector :=
  let generation' := S (r_generation e) in
  mkRElector true (r_campaigning e) false generation' (Some generation') (Some generation').

(** The first critical section of [Resign]. *)
Definition beginResign (e : RElector) : RElector * (nat * option nat * option nat * bool) :=
  if negb (r_owned e) && negb (r_cleanup e) then (e, (r_generation e, None, None, false))
  else (mkRElector false (r_campaigning e) true (r_generation e) (r_cancel e) (r_done e),
        (r_generation e, r_cancel e, r_done e, true)).

(** The last critical section of [Resign]. *)
Definition endResign (gen : nat) (e : RElector) : RElector :=
  if (r_generation e =? gen)%nat
  then mkRElector (r_owned e) (r_campaigning e) false (r_generation e) None None else e.

Definition r_clearOwnershipAfterLoss (gen dn : nat) (isCleanup : bool) (e : RElector) : RElector :=
  if negb (r_generation e =? gen)%nat || negb (bool_decide (r_done e = Some dn)) then e
  else mkRElector false (r_campaigning e) isCleanup (r_generation e) None None.

(** [e.cleanup = true] after a probe that failed. *)
Definition r_markCleanup (e : RElector) : RElector :=
  mkRElector (r_owned e) (r_campaigning e) true (r_generation e) (r_cancel e) (r_done e).

Definition r_IsLeader (e : RElector) : bool := r_owned e.

Definition campaignRetryBase : Z := 25 * 1000000.
Definition campaignRetryCap : Z := 250 * 1000000.

Definition campaignRetryDelay (tokenBytes : list Z) (attempt : Z) : Z :=
  let shift := Z.min attempt 4 in
  let delay := Z.shiftl campaignRetryBase shift in
  let delay := if campaignRetryCap <? delay then campaignRetryCap else delay in
  let hash := stableHash tokenBytes attempt in
  let jitterPercent := 80 + hash mod 41 in
  Z.quot (wrap_i64 (delay * jitterPercent)) 100.

Definition operationError (operation : text) (cause : error) : error :=
  NewOperationError (lit "redis") operation
    (Some (Typed "redis.OpError" [fieldOf (lit "leader redis"); fieldOf operation] [] (Some cause))).

(** The probe of [reconcileCampaign]. *)
Definition reconcileCampaign (out : outcome) (now : Z) (token : text) (key : option leaseRow) : result bool :=
  match out with
  | Completed => Ok (match redisGet now key with Some owner => bool_decide (owner = token) | None => false end)
  | Errored _ cause => Fail cause
  end.

(** ** Calls and loops *)

Inductive rpc : Type :=
| RC_Start
| RC_Try
| RC_Probe (err : error)
| RC_Wait
| RC_Acquired
| RC_Mark (err : error)
| RC_End (err : option error)
| RC_Return (err : option error)
| RR_Start
| RR_Cancel (gen : nat) (cancel done : option nat)
| RR_Wait (gen : nat) (done : option nat)
| RR_Release (gen : nat)
| RR_Finish (gen : nat)
| RR_Return (err : option error).

Record RSys : Type := mkRSys {
  r_now : Z;
  r_key : option leaseRow;
  r_electors : nat → RElector;
  r_threads : list (nat * rpc);
  r_loops : list loop;
  r_granted : nat → Z
}.

Section redis_system.
Context (tok : nat → text) (lease : nat → Z).

Definition applied {A} (out : outcome) (before after : A) : A :=
  match out with Completed | Errored true _ => after | Errored false _ => before end.

(** The next action of the call at index [k]. *)
Definition rThreadStep (ch : choice) (k : nat) (s : RSys) : option RSys :=
  match r_threads s !! k with
  | None => None
  | Some (i, p) =>
      let e := r_electors s i in
      let goto p := <[k := (i, p)]> (r_threads s) in
      let local e' p :=
        Some (mkRSys (r_now s) (r_key s) (upd (r_electors s) i e') (goto p) (r_loops s) (r_granted s)) in
      let query key' granted' p :=
        Some (mkRSys (r_now s) key' (r_electors s) (goto p) (r_loops s) granted') in
      let confirmed := upd (r_granted s) i in
      match p with
      | RC_Start =>
          match ch_ctx ch with
          | Some err => local e (RC_Return (Some err))
          | None =>
              let '(e', err) := r_beginCampaign e in
              local e' (match err with Some err => RC_Return (Some err) | None => RC_Try end)
          end
      | RC_Try =>
          let '(key', ok) := SetNX (r_now s) (lease i) (tok i) (r_key s) in
          match ch_out ch with
          | Completed =>
              if ok then query key' (confirmed (rowDeadline key')) RC_Acquired
              else query key' (r_granted s) RC_Wait
          | Errored a cause => query (if a then key' else r_key s) (r_granted s) (RC_Probe cause)
          end
      | RC_Probe err =>
          let wrapped := operationError (lit "campaign") err in
          match reconcileCampaign (ch_out ch) (r_now s) (tok i) (r_key s) with
          | Ok true => query (r_key s) (confirmed (rowDeadline (r_key s))) RC_Acquired
          | Ok false => query (r_key s) (r_granted s) (RC_End (Some wrapped))
          | Fail _ =>
              query (r_key s) (r_granted s) (RC_Mark (Joined [wrapped; ErrCommitUnknown; btredis_ErrCommitUnknown]))
          end
      | RC_Wait =>
          match ch_ctx ch with Some err => local e (RC_End (Some err)) | None => local e RC_Try end
      | RC_Acquired =>
          let e' := r_startRenewal e in
          Some (mkRSys (r_now s) (r_key s) (upd (r_electors s) i e') (goto (RC_End None))
                  (r_loops s ++ [mkLoop i (r_generation e') false LSelect]) (r_granted s))
      | RC_Mark err => local (r_markCleanup e) (RC_End (Some err))
      | RC_End err => local (r_endCampaign e) (RC_Return err)
      | RR_Start =>
          match ch_ctx ch with
          | Some err => local e (RR_Return (Some err))
          | None =>
              let '(e', (gen, c, d, active)) := beginResign e in
              local e' (if active then RR_Cancel gen c d else RR_Return None)
          end
      | RR_Cancel gen c d =>
          Some (mkRSys (r_now s) (r_key s) (r_electors s) (goto (RR_Wait gen d))
                  (cancelLoop i c <$> r_loops s) (r_granted s))
      | RR_Wait gen d =>
          match ch_ctx ch, d with
          | Some err, Some _ => local e (RR_Return (Some err))
          | None, Some d => if closedLoop (r_loops s) i d then local e (RR_Release gen) else None
          | _, None => local e (RR_Release gen)
          end
      | RR_Release gen =>
          query (applied (ch_out ch) (r_key s) (releaseScript (r_now s) (tok i) (r_key s))) (r_granted s)
            (match ch_out ch with
             | Completed => RR_Finish gen
             | Errored _ cause =>
                 RR_Return (Some (Joined [operationError (lit "resign") cause; ErrCommitUnknown;
                                          btredis_ErrCommitUnknown]))
             end)
      | RR_Finish gen => local (endResign gen e) (RR_Return None)
      | RC_Return _ | RR_Return _ => None
      end
  end.

(** The next action of the renewal loop at index [k]. *)
Definition rLoopStep (ch : choice) (k : nat) (s : RSys) : option RSys :=
  match r_loops s !! k with
  | None => None
  | Some l =>
      let i := lp_elector l in
      let goto p := <[k := mkLoop i (lp_gen l) (lp_cancelled l) p]> (r_loops s) in
      let query key' granted' p := Some (mkRSys (r_now s) key' (r_electors s) (r_threads s) (goto p) granted') in
      match lp_pc l with
      | LSelect =>
          match ch_ctx ch with
          | Some _ => if lp_cancelled l then query (r_key s) (r_granted s) LClosing else None
          | None =>
              let '(key', result) := renewScript (r_now s) (lease i) (tok i) (r_key s) in
              match ch_out ch with
              | Completed =>
                  if result =? 1 then query key' (upd (r_granted s) i (rowDeadline key')) LSelect
                  else query key' (r_granted s) (LLost false)
              | Errored a _ => query (if a then key' else r_key s) (r_granted s) (LLost true)
              end
          end
      | LLost c =>
          Some (mkRSys (r_now s) (r_key s)
                  (upd (r_electors s) i (r_clearOwnershipAfterLoss (lp_gen l) (lp_gen l) c (r_electors s i)))
                  (r_threads s) (goto LClosing) (r_granted s))
      | LClosing => query (r_key s) (r_granted s) LClosed
      | LClosed => None
      end
  end.

Inductive redisStep (s : RSys) : RSys → Prop :=
| rstep_time t : r_now s ≤ t →
    redisStep s (mkRSys t (r_key s) (r_electors s) (r_threads s) (r_loops s) (r_granted s))
| rstep_call i p : p = RC_Start ∨ p = RR_Start →
    redisStep s (mkRSys (r_now s) (r_key s) (r_electors s) (r_threads s ++ [(i, p)]) (r_loops s) (r_granted s))
| rstep_thread ch k s' : rThreadStep ch k s = Some s' → redisStep s s'
| rstep_loop ch k s' : rLoopStep ch k s = Some s' → redisStep s s'.

Definition initialRSys (t : Z) : RSys := mkRSys t None (λ _, newRElector) [] [] (λ _, t).

(** ** Schedules *)

(** One move of a schedule: a call arrives, a call acts, a loop acts or is seen
    to be cancelled. *)
Inductive move : Type :=
| Calls (i : nat) (p : rpc)
| Acts (k : nat)
| Renews (k : nat)
| Stops (k : nat).

Definition calm : choice := mkChoice None Completed None None None None.
Definition cancelledCtx : choice := mkChoice (Some Canceled) Completed None None None None.

Definition moveStep (m : move) (s : RSys) : option RSys :=
  match m with
  | Calls i p =>
      match p with
      | RC_Start | RR_Start =>
          Some (mkRSys (r_now s) (r_key s) (r_electors s) (r_threads s ++ [(i, p)]) (r_loops s) (r_granted s))
      | _ => None
      end
  | Acts k => rThreadStep calm k s
  | Renews k => rLoopStep calm k s
  | Stops k => rLoopStep cancelledCtx k s
  end.

Fixpoint play (ms : list move) (s : RSys) : option RSys :=
  match ms with
  | [] => Some s
  | m :: ms' => match moveStep m s with Some s' => play ms' s' | None => None end
  end.

Lemma moveStep_step m s s' : moveStep m s = Some s' → redisStep s s'.
Proof.
  destruct m as [i p|k|k|k]; simpl; [|by eapply rstep_thread|by eapply rstep_loop..].
  destruct p; try done; intros [= <-]; apply rstep_call; auto.
Qed.

Lemma play_reaches ms s s' : play ms s = Some s' → rtc redisStep s s'.
Proof.
  revert s. induction ms as [|m ms IH]; intros s; simpl; [intros [= <-]; done|].
  destruct (moveStep m s) eqn:E; [|done]. intros H. eapply rtc_l; [by eapply moveStep_step|eauto].
Qed.
End redis_system.

(** Two electors with leases of ten units of time. *)
Definition redisTok (i : nat) : text := [65 + Z.of_nat i].
Definition redisLease (i : nat) : Z := 10.

(** Elector 0 wins (call 0, loop 0).  Calls 1 and 2 resign it and both reach the
    release script; call 1 releases and finishes.  Call 3 campaigns again and
    wins; call 2 now runs its release script, which deletes the new lease, as
    the token is the same.  Call 4, on elector 1, wins too. *)
Definition twoResigns : list move :=
  [Calls 0 RC_Start; Acts 0; Acts 0; Acts 0; Acts 0;
   Calls 0 RR_Start; Calls 0 RR_Start; Acts 1; Acts 2; Acts 1; Acts 2;
   Stops 0; Renews 0; Acts 1; Acts 2; Acts 1; Acts 1;
   Calls 0 RC_Start; Acts 3; Acts 3; Acts 3; Acts 3;
   Acts 2; Acts 2;
   Calls 1 RC_Start; Acts 4; Acts 4; Acts 4; Acts 4].

(** Elector 0 wins and its lease runs out.  Call 1 resigns it and waits for the
    renewal loop, which finds the lease lost and clears the cleanup mark that
    call 1 has set.  Call 2 campaigns again and wins, then call 1 runs its
    release script.  Call 3, on elector 1, wins too. *)
Definition lossDuringResign : list move :=
  [Calls 0 RC_Start; Acts 0; Acts 0; Acts 0; Acts 0].
Definition lossDuringResign_late : list move :=
  [Calls 0 RR_Start; Renews 0; Acts 1; Acts 1; Renews 0; Renews 0;
   Calls 0 RC_Start; Acts 2; Acts 2; Acts 2; Acts 2;
   Acts 1; Acts 1;
   Calls 1 RC_Start; Acts 3; Acts 3; Acts 3; Acts 3].

Definition bothLead (s : RSys) : bool :=
  r_IsLeader (r_electors s 0%nat) && r_IsLeader (r_electors s 1%nat) &&
  (r_now s <? r_granted s 0%nat) && (r_now s <? r_granted s 1%nat).

Lemma bothLead_spec s :
  bothLead s = true →
  r_IsLeader (r_electors s 0%nat) = true ∧ r_IsLeader (r_electors s 1%nat) = true ∧
  r_now s < r_granted s 0%nat ∧ r_now s < r_granted s 1%nat.
Proof. unfold bothLead. intros H. bools. done. Qed.

(** The Redis elector does not exclude overlapping calls on the same
    elector: its [Resign] keeps no count of the resignations under way, as the
    PostgreSQL elector does, so that one that is late deletes the lease of a
    later campaign.  Two electors then lead at the same time, under leases
    that were confirmed to both and have not ended. *)
Theorem overlapping_resigns_split_leadership :
  ∃ s, rtc (redisStep redisTok redisLease) (initialRSys 0) s ∧
    r_IsLeader (r_electors s 0%nat) = true ∧ r_IsLeader (r_electors s 1%nat) = true ∧
    r_now s < r_granted s 0%nat ∧ r_now s < r_granted s 1%nat.
Proof.
  destruct (play redisTok redisLease twoResigns (initialRSys 0)) as [s|] eqn:E; [|vm_compute in E; discriminate E].
  exists s. split; [by eapply play_reaches|]. apply bothLead_spec.
  assert (bothLead <$> play redisTok redisLease twoResigns (initialRSys 0) = Some true) as H by (vm_compute; reflexivity).
  rewrite E in H. by injection H.
Qed.

(** One resignation is enough when the renewal loop loses the lease meanwhile. *)
Lemma loss_during_resign_splits_leadership :
  ∃ s, rtc (redisStep redisTok redisLease) (initialRSys 0) s ∧ bothLead s = true.
Proof.
  destruct (play redisTok redisLease lossDuringResign (initialRSys 0)) as [s1|] eqn:E1; [|vm_compute in E1; discriminate E1].
  set (s2 := mkRSys 20 (r_key s1) (r_electors s1) (r_threads s1) (r_loops s1) (r_granted s1)).
  assert ((λ s1, (r_now s1 <=? 20) &&
     match play redisTok redisLease lossDuringResign_late
             (mkRSys 20 (r_key s1) (r_electors s1) (r_threads s1) (r_loops s1) (r_granted s1)) with
     | Some s => bothLead s | None => false end) <$> play redisTok redisLease lossDuringResign (initialRSys 0) = Some true)
    as H by (vm_compute; reflexivity).
  rewrite E1 in H. apply (inj Some) in H. fold s2 in H. apply andb_true_iff in H as [Hn H]. bools.
  destruct (play redisTok redisLease lossDuringResign_late s2) as [s|] eqn:E2; rewrite ?E2 in H; [|discriminate H].
  exists s. split; [|done]. etrans; [by eapply play_reaches|].
  eapply rtc_l; [by apply (rstep_time _ _ s1 20)|]. by eapply play_reaches.
Qed.
