(* ===== verification/GoEncoding.v ===== *)
(** * Go encodings

    The parts of [encoding/base64], [encoding/json] and [unicode/utf8] that the
    components use, on strings as lists of bytes: standard base64, quoted JSON
    strings as [json.Marshal] writes and [json.Unmarshal] reads them, and JSON
    numbers that fit a byte. *)

From S2P Require Import Prelude GoText Core.

Local Open Scope Z_scope.

Notation bytes := (list Z).

(** ** base64.StdEncoding *)

(** The character of a six-bit value and back; -1 for a character outside the
    alphabet. *)
Definition b64char (v : Z) : Z :=
  if v <? 26 then 65 + v else if v <? 52 then 71 + v else if v <? 62 then v - 4
  else if v =? 62 then 43 else 47.

Definition b64val (c : Z) : Z :=
  if (65 <=? c) && (c <=? 90) then c - 65
  else if (97 <=? c) && (c <=? 122) then c - 97 + 26
  else if (48 <=? c) && (c <=? 57) then c - 48 + 52
  else if c =? 43 then 62
  else if c =? 47 then 63
  else -1.

(** [EncodeToString] *)
Fixpoint b64encode (l : bytes) : bytes :=
  match l with
  | [] => []
  | [a] => let n := a * 16 in [b64char (n / 64); b64char (n mod 64); 61; 61]
  | [a; b] =>
      let n := a * 1024 + b * 4 in
      [b64char (n / 4096); b64char (n / 64 mod 64); b64char (n mod 64); 61]
  | a :: b :: c :: l' =>
      let n := a * 65536 + b * 256 + c in
      b64char (n / 262144) :: b64char (n / 4096 mod 64) :: b64char (n / 64 mod 64) :: b64char (n mod 64) ::
      b64encode l'
  end.

(** [Decode] of text without line breaks; padding only in the last quantum,
    the bits below it ignored. *)
Fixpoint b64decode (l : bytes) : option bytes :=
  match l with
  | [] => Some []
  | w :: x :: y :: z :: l' =>
      if (b64val w <? 0) || (b64val x <? 0) then None
      else if z =? 61 then
        match l' with
        | [] =>
            if y =? 61 then Some [(b64val w * 64 + b64val x) / 16]
            else if b64val y <? 0 then None
            else let n := b64val w * 4096 + b64val x * 64 + b64val y in Some [n / 1024; n / 4 mod 256]
        | _ => None
        end
      else if (b64val y <? 0) || (b64val z <? 0) then None
      else
        let n := b64val w * 262144 + b64val x * 4096 + b64val y * 64 + b64val z in
        match b64decode l' with
        | None => None
        | Some r => Some (n / 65536 :: n / 256 mod 256 :: n mod 256 :: r)
        end
  | _ => None
  end.

(** [EncodedLen] *)
Definition EncodedLen (n : Z) : Z := (n + 2) / 3 * 4.

Lemma b64val_char v : 0 ≤ v < 64 → b64val (b64char v) = v.
Proof.
  intros Hv.
  assert (forallb (λ v, b64val (b64char v) =? v) (seqZ 0 64) = true) as Hall by by vm_compute.
  rewrite forallb_forall in Hall. apply Z.eqb_eq, Hall. apply list_elem_of_In, elem_of_seqZ. lia.
Qed.

Lemma b64char_range v : 0 ≤ v < 64 → 43 ≤ b64char v ≤ 122 ∧ b64char v ≠ 61 ∧ b64char v ≠ 92.
Proof. intros Hv. unfold b64char. repeat case_match; bools; lia. Qed.

Lemma b64char_val c : 0 ≤ b64val c → b64char (b64val c) = c ∧ b64val c < 64.
Proof.
  unfold b64val. intros Hc. repeat case_match; bools; subst; try lia; unfold b64char;
    repeat case_match; bools; lia.
Qed.

(** Splitting a number into six-bit digits and into bytes. *)
Lemma digits64 a b c d :
  0 ≤ a < 64 → 0 ≤ b < 64 → 0 ≤ c < 64 → 0 ≤ d < 64 →
  let n := a * 262144 + b * 4096 + c * 64 + d in
  n / 262144 = a ∧ n / 4096 mod 64 = b ∧ n / 64 mod 64 = c ∧ n mod 64 = d ∧ 0 ≤ n < 16777216.
Proof. intros. subst n. Z.div_mod_to_equations. lia. Qed.

Lemma digits256 a b c :
  0 ≤ a < 256 → 0 ≤ b < 256 → 0 ≤ c < 256 →
  let n := a * 65536 + b * 256 + c in
  n / 65536 = a ∧ n / 256 mod 256 = b ∧ n mod 256 = c ∧ 0 ≤ n < 16777216.
Proof. intros. subst n. Z.div_mod_to_equations. lia. Qed.

Lemma sextets n :
  0 ≤ n < 16777216 →
  n = n / 262144 * 262144 + n / 4096 mod 64 * 4096 + n / 64 mod 64 * 64 + n mod 64 ∧
  0 ≤ n / 262144 < 64 ∧ 0 ≤ n / 4096 mod 64 < 64 ∧ 0 ≤ n / 64 mod 64 < 64 ∧ 0 ≤ n mod 64 < 64.
Proof. intros. Z.div_mod_to_equations. lia. Qed.

Lemma octets n :
  0 ≤ n < 16777216 →
  n = n / 65536 * 65536 + n / 256 mod 256 * 256 + n mod 256 ∧
  is_byte (n / 65536) ∧ is_byte (n / 256 mod 256) ∧ is_byte (n mod 256).
Proof. intros. unfold is_byte. Z.div_mod_to_equations. lia. Qed.

(** Lists in steps of three and of four. *)
Lemma list_ind3 {A} (P : list A → Prop) :
  P [] → (∀ a, P [a]) → (∀ a b, P [a; b]) → (∀ a b c l, P l → P (a :: b :: c :: l)) → ∀ l, P l.
Proof.
  intros H0 H1 H2 H3. fix IH 1. intros [|a [|b [|c l]]]; [done|done|done|]. apply H3, IH.
Qed.

(** Canonical base64: full quanta, then at most one padded quantum whose unused
    bits are zero. *)
Inductive canon64 : bytes → Prop :=
| canon64_nil : canon64 []
| canon64_one w x : 0 ≤ b64val w → 0 ≤ b64val x → b64val x mod 16 = 0 → canon64 [w; x; 61; 61]
| canon64_two w x y : 0 ≤ b64val w → 0 ≤ b64val x → 0 ≤ b64val y → b64val y mod 4 = 0 → canon64 [w; x; y; 61]
| canon64_more w x y z l : 0 ≤ b64val w → 0 ≤ b64val x → 0 ≤ b64val y → 0 ≤ b64val z →
    canon64 l → canon64 (w :: x :: y :: z :: l).

Lemma b64val_pad : b64val 61 = -1.
Proof. done. Qed.

Lemma nonneg_ltb a : 0 ≤ a → (a <? 0) = false.
Proof. intros. by apply Z.ltb_ge. Qed.

Lemma canon64_decode e :
  canon64 e → ∃ l, b64decode e = Some l ∧ Forall is_byte l ∧ b64encode l = e.
Proof.
  induction 1 as [|w x Hw Hx Hm|w x y Hw Hx Hy Hm|w x y z l Hw Hx Hy Hz _ (r & Hd & Hb & He)].
  - by exists [].
  - destruct (b64char_val w Hw) as [Cw Lw], (b64char_val x Hx) as [Cx Lx].
    exists [(b64val w * 64 + b64val x) / 16]. cbn [b64decode b64encode].
    rewrite !nonneg_ltb by done. split; [done|]. split.
    + constructor; [|constructor]. unfold is_byte. Z.div_mod_to_equations. lia.
    + set (v := b64val w) in *. set (u := b64val x) in *.
      assert ((v * 64 + u) / 16 * 16 = v * 64 + u) as -> by (Z.div_mod_to_equations; lia).
      assert ((v * 64 + u) / 64 = v ∧ (v * 64 + u) mod 64 = u) as [-> ->] by (Z.div_mod_to_equations; lia).
      by rewrite Cw, Cx.
  - destruct (b64char_val w Hw) as [Cw Lw], (b64char_val x Hx) as [Cx Lx], (b64char_val y Hy) as [Cy Ly].
    assert (y =? 61 = false) as Ey. { apply Z.eqb_neq. intros ->. rewrite b64val_pad in Hy. lia. }
    set (n := b64val w * 4096 + b64val x * 64 + b64val y).
    exists [n / 1024; n / 4 mod 256]. cbn [b64decode b64encode].
    rewrite !nonneg_ltb by done. simpl. rewrite Ey. split; [done|]. split.
    + repeat constructor; unfold is_byte; subst n; Z.div_mod_to_equations; lia.
    + assert (n / 1024 * 1024 + n / 4 mod 256 * 4 = n) as -> by (subst n; Z.div_mod_to_equations; lia).
      assert (n / 4096 = b64val w ∧ n / 64 mod 64 = b64val x ∧ n mod 64 = b64val y) as (-> & -> & ->)
        by (subst n; Z.div_mod_to_equations; lia).
      by rewrite Cw, Cx, Cy.
  - destruct (b64char_val w Hw) as [Cw Lw], (b64char_val x Hx) as [Cx Lx],
      (b64char_val y Hy) as [Cy Ly], (b64char_val z Hz) as [Cz Lz].
    assert (z =? 61 = false) as Ez. { apply Z.eqb_neq. intros ->. rewrite b64val_pad in Hz. lia. }
    cbn [b64decode]. rewrite !nonneg_ltb by done. simpl. rewrite Ez, Hd. eexists. split; [done|].
    destruct (digits64 (b64val w) (b64val x) (b64val y) (b64val z)) as (D1 & D2 & D3 & D4 & Hn); [lia..|].
    set (n := b64val w * 262144 + b64val x * 4096 + b64val y * 64 + b64val z) in *.
    destruct (octets n Hn) as (Heq & B1 & B2 & B3). split; [by repeat (apply Forall_cons; split; [done|])|].
    cbn [b64encode]. rewrite <-Heq, D1, D2, D3, D4, Cw, Cx, Cy, Cz, He. done.
Qed.

Lemma canon64_encode l : Forall is_byte l → canon64 (b64encode l).
Proof.
  unfold is_byte. induction l as [|a|a b|a b c l IH] using list_ind3; intros Hl; cbn [b64encode].
  - constructor.
  - apply Forall_cons in Hl as [Ha _]. apply canon64_one; rewrite b64val_char; Z.div_mod_to_equations; lia.
  - apply Forall_cons in Hl as [Ha [Hb _]%Forall_cons].
    apply canon64_two; rewrite b64val_char; Z.div_mod_to_equations; lia.
  - apply Forall_cons in Hl as [Ha [Hb [Hc Hl]%Forall_cons]%Forall_cons].
    destruct (digits256 a b c Ha Hb Hc) as (_ & _ & _ & Hn).
    destruct (sextets _ Hn) as (_ & ? & ? & ? & ?).
    apply canon64_more; rewrite ?b64val_char; try lia. by apply IH.
Qed.

Lemma b64_roundtrip l : Forall is_byte l → b64decode (b64encode l) = Some l.
Proof.
  unfold is_byte. induction l as [|a|a b|a b c l IH] using list_ind3; intros Hl; cbn [b64encode b64decode].
  - done.
  - apply Forall_cons in Hl as [Ha _]. rewrite !b64val_char by (Z.div_mod_to_equations; lia).
    rewrite !nonneg_ltb by (Z.div_mod_to_equations; lia). simpl. repeat f_equal. Z.div_mod_to_equations; lia.
  - apply Forall_cons in Hl as [Ha [Hb _]%Forall_cons].
    rewrite (proj2 (Z.eqb_neq _ _) (proj1 (proj2 (b64char_range ((a * 1024 + b * 4) mod 64) ltac:(Z.div_mod_to_equations; lia))))).
    rewrite !b64val_char by (Z.div_mod_to_equations; lia).
    rewrite !nonneg_ltb by (Z.div_mod_to_equations; lia). simpl. repeat f_equal; Z.div_mod_to_equations; lia.
  - apply Forall_cons in Hl as [Ha [Hb [Hc Hl]%Forall_cons]%Forall_cons].
    destruct (digits256 a b c Ha Hb Hc) as (B1 & B2 & B3 & Hn).
    set (n := a * 65536 + b * 256 + c) in *. destruct (sextets n Hn) as (Heq & ? & ? & ? & H4).
    destruct (b64char_range _ H4) as (_ & E61%Z.eqb_neq & _). rewrite E61.
    rewrite !b64val_char by done. rewrite !nonneg_ltb by lia. simpl. rewrite IH by done.
    rewrite <-Heq, B1, B2, B3. done.
Qed.

Lemma length_b64encode l : Z.of_nat (length (b64encode l)) = EncodedLen (Z.of_nat (length l)).
Proof.
  unfold EncodedLen. induction l as [|a|a b|a b c l IH] using list_ind3; [done..|].
  cbn [b64encode length]. rewrite !Nat2Z.inj_succ, IH. Z.div_mod_to_equations. lia.
Qed.

(** ** base64.RawURLEncoding *)

Definition urlchar (v : Z) : Z := if v =? 62 then 45 else if v =? 63 then 95 else b64char v.

Definition urlval (c : Z) : Z :=
  if c =? 45 then 62 else if c =? 95 then 63 else if (c =? 43) || (c =? 47) then -1 else b64val c.

(** [EncodeToString]: no padding. *)
Fixpoint rawURLEncode (l : bytes) : bytes :=
  match l with
  | [] => []
  | [a] => let n := a * 16 in [urlchar (n / 64); urlchar (n mod 64)]
  | [a; b] =>
      let n := a * 1024 + b * 4 in [urlchar (n / 4096); urlchar (n / 64 mod 64); urlchar (n mod 64)]
  | a :: b :: c :: l' =>
      let n := a * 65536 + b * 256 + c in
      urlchar (n / 262144) :: urlchar (n / 4096 mod 64) :: urlchar (n / 64 mod 64) :: urlchar (n mod 64) ::
      rawURLEncode l'
  end.

(** The quanta of [Decode]; the unused bits of the last one are ignored. *)
Fixpoint rawURLQuanta (l : bytes) : option bytes :=
  match l with
  | [] => Some []
  | [_] => None
  | [w; x] =>
      if (urlval w <? 0) || (urlval x <? 0) then None else Some [(urlval w * 64 + urlval x) / 16]
  | [w; x; y] =>
      if (urlval w <? 0) || (urlval x <? 0) || (urlval y <? 0) then None
      else let n := urlval w * 4096 + urlval x * 64 + urlval y in Some [n / 1024; n / 4 mod 256]
  | w :: x :: y :: z :: l' =>
      if (urlval w <? 0) || (urlval x <? 0) || (urlval y <? 0) || (urlval z <? 0) then None
      else
        let n := urlval w * 262144 + urlval x * 4096 + urlval y * 64 + urlval z in
        match rawURLQuanta l' with
        | None => None
        | Some r => Some (n / 65536 :: n / 256 mod 256 :: n mod 256 :: r)
        end
  end.

(** [DecodeString] skips line breaks. *)
Definition rawURLDecode (l : bytes) : option bytes :=
  rawURLQuanta (filter (λ c, c ≠ 10 ∧ c ≠ 13) l).

Lemma urlval_char v : 0 ≤ v < 64 → urlval (urlchar v) = v ∧ urlchar v ≠ 10 ∧ urlchar v ≠ 13.
Proof.
  intros Hv.
  assert (forallb (λ v, (urlval (urlchar v) =? v) && negb (urlchar v =? 10) && negb (urlchar v =? 13))
            (seqZ 0 64) = true) as Hall by by vm_compute.
  rewrite forallb_forall in Hall. specialize (Hall v).
  rewrite !andb_true_iff, Z.eqb_eq, !negb_true_iff, !Z.eqb_neq in Hall.
  destruct Hall as [[??] ?]; [|done]. apply list_elem_of_In, elem_of_seqZ. lia.
Qed.

Lemma filter_keep {A} (P : A → Prop) `{∀ x, Decision (P x)} x l : P x → filter P (x :: l) = x :: filter P l.
Proof. apply filter_cons_True. Qed.

Lemma rawURL_roundtrip l : Forall is_byte l → rawURLDecode (rawURLEncode l) = Some l.
Proof.
  unfold is_byte, rawURLDecode.
  induction l as [|a|a b|a b c l IH] using list_ind3; intros Hl; cbn [rawURLEncode].
  - done.
  - apply Forall_cons in Hl as [Ha _].
    rewrite !filter_keep by (apply urlval_char; Z.div_mod_to_equations; lia). cbn [rawURLQuanta filter list_filter].
    rewrite !(fun v H => proj1 (urlval_char v H)) by (Z.div_mod_to_equations; lia).
    rewrite !nonneg_ltb by (Z.div_mod_to_equations; lia). simpl. repeat f_equal. Z.div_mod_to_equations; lia.
  - apply Forall_cons in Hl as [Ha [Hb _]%Forall_cons].
    rewrite !filter_keep by (apply urlval_char; Z.div_mod_to_equations; lia). cbn [rawURLQuanta filter list_filter].
    rewrite !(fun v H => proj1 (urlval_char v H)) by (Z.div_mod_to_equations; lia).
    rewrite !nonneg_ltb by (Z.div_mod_to_equations; lia). simpl. repeat f_equal; Z.div_mod_to_equations; lia.
  - apply Forall_cons in Hl as [Ha [Hb [Hc Hl]%Forall_cons]%Forall_cons].
    destruct (digits256 a b c Ha Hb Hc) as (B1 & B2 & B3 & Hn).
    set (n := a * 65536 + b * 256 + c) in *. destruct (sextets n Hn) as (Heq & ? & ? & ? & H4).
    rewrite !filter_keep by (by apply urlval_char). cbn [rawURLQuanta].
    rewrite !(fun v H => proj1 (urlval_char v H)) by done. rewrite !nonneg_ltb by lia. simpl. rewrite IH by done.
    rewrite <-Heq, B1, B2, B3. done.
Qed.

(** The characters of encoded text. *)
Definition b64text (c : Z) : Prop := 43 ≤ c ≤ 122 ∧ c ≠ 92.

Lemma b64encode_text l : Forall is_byte l → Forall b64text (b64encode l).
Proof.
  intros Hl%canon64_encode.
  assert (∀ c, 0 ≤ b64val c → b64text c) as Hc.
  { intros c H. destruct (b64char_val c H) as [Hc ?]. destruct (b64char_range (b64val c)); [lia|].
    rewrite Hc in *. unfold b64text. lia. }
  assert (b64text 61) as Hp by (unfold b64text; lia).
  induction Hl; repeat (apply Forall_cons; split); auto.
Qed.

(** ** JSON strings *)

Definition hexDigit (d : Z) : Z := if d <? 10 then 48 + d else 87 + d.

(** An ASCII character as [json.Marshal] writes it, with HTML escaping. *)
Definition jsonEscape (b : Z) : bytes :=
  if (b =? 34) || (b =? 92) then [92; b]
  else if b =? 8 then [92; 98]
  else if b =? 12 then [92; 102]
  else if b =? 10 then [92; 110]
  else if b =? 13 then [92; 114]
  else if b =? 9 then [92; 116]
  else if (b <? 32) || (b =? 60) || (b =? 62) || (b =? 38) then
    [92; 117; 48; 48; hexDigit (b / 16); hexDigit (b mod 16)]
  else [b].

(** The bytes of U+2028 and U+2029, which are escaped too. *)
Definition lineSeparator : bytes := [226; 128; 168].
Definition paragraphSeparator : bytes := [226; 128; 169].

Definition jsonRune (r : bytes) : bytes :=
  if decide (r = lineSeparator) then lit "\u2028"
  else if decide (r = paragraphSeparator) then lit "\u2029"
  else r.

(** The inside of a quoted string; a byte that starts no rune becomes
    [\ufffd]. *)
Fixpoint jsonBodyLoop (fuel : nat) (s : bytes) : bytes :=
  match fuel, s with
  | S fuel', b :: s' =>
      if b <? 128 then jsonEscape b ++ jsonBodyLoop fuel' s'
      else match runeLength s with
           | None => lit "\ufffd" ++ jsonBodyLoop fuel' s'
           | Some n => jsonRune (take n s) ++ jsonBodyLoop fuel' (drop n s)
           end
  | _, _ => []
  end.

Definition jsonBody (s : bytes) : bytes := jsonBodyLoop (length s) s.

(** [json.Marshal] of a string. *)
Definition jsonQuote (s : bytes) : bytes := [34] ++ jsonBody s ++ [34].

Definition hexVal (c : Z) : option Z :=
  if (48 <=? c) && (c <=? 57) then Some (c - 48)
  else if (97 <=? c) && (c <=? 102) then Some (c - 87)
  else if (65 <=? c) && (c <=? 70) then Some (c - 55)
  else None.

(** The four digits of a [\u] escape. *)
Definition getu4 (s : bytes) : option (Z * bytes) :=
  match s with
  | a :: b :: c :: d :: s' =>
      match hexVal a, hexVal b, hexVal c, hexVal d with
      | Some w, Some x, Some y, Some z => Some (w * 4096 + x * 256 + y * 16 + z, s')
      | _, _, _, _ => None
      end
  | _ => None
  end.

(** [utf8.EncodeRune] *)
Definition EncodeRune (r : Z) : bytes :=
  if r <? 128 then [r]
  else if r <? 2048 then [192 + r / 64; 128 + r mod 64]
  else if r <? 65536 then [224 + r / 4096; 128 + r / 64 mod 64; 128 + r mod 64]
  else [240 + r / 262144; 128 + r / 4096 mod 64; 128 + r / 64 mod 64; 128 + r mod 64].

Definition replacement : bytes := [239; 191; 189].

(** [utf16.DecodeRune] on the escape that follows a surrogate. *)
Definition surrogatePair (r : Z) (s : bytes) : option (Z * bytes) :=
  match s with
  | 92 :: 117 :: s' =>
      match getu4 s' with
      | Some (r', s'') =>
          if (55296 <=? r) && (r <? 56320) && (56320 <=? r') && (r' <? 57344)
          then Some ((r - 55296) * 1024 + (r' - 56320) + 65536, s'') else None
      | None => None
      end
  | _ => None
  end.

Definition simpleEscape (e : Z) : option Z :=
  if (e =? 34) || (e =? 92) || (e =? 47) then Some e
  else if e =? 98 then Some 8
  else if e =? 102 then Some 12
  else if e =? 110 then Some 10
  else if e =? 114 then Some 13
  else if e =? 116 then Some 9
  else None.

(** The string literal after its opening quote; the closing quote must be the
    last byte. *)
Fixpoint unquoteLoop (fuel : nat) (s : bytes) : option bytes :=
  match fuel, s with
  | S fuel', c :: s' =>
      if c =? 34 then match s' with [] => Some [] | _ => None end
      else if c =? 92 then
        match s' with
        | [] => None
        | e :: s2 =>
            if e =? 117 then
              match getu4 s2 with
              | None => None
              | Some (r, s3) =>
                  if (55296 <=? r) && (r <? 57344) then
                    match surrogatePair r s3 with
                    | Some (dec, s4) => app (EncodeRune dec) <$> unquoteLoop fuel' s4
                    | None => app replacement <$> unquoteLoop fuel' s3
                    end
                  else app (EncodeRune r) <$> unquoteLoop fuel' s3
              end
            else
              match simpleEscape e with
              | Some b => cons b <$> unquoteLoop fuel' s2
              | None => None
              end
        end
      else if c <? 32 then None
      else if c <? 128 then cons c <$> unquoteLoop fuel' s'
      else match runeLength s with
           | None => app replacement <$> unquoteLoop fuel' s'
           | Some n => app (take n s) <$> unquoteLoop fuel' (drop n s)
           end
  | _, _ => None
  end.

(** [json.Unmarshal] into a string. *)
Definition jsonUnquote (raw : bytes) : option bytes :=
  match raw with
  | 34 :: s => unquoteLoop (length s) s
  | _ => None
  end.

(** [json.Unmarshal] of a run of digits into a [uint8]: no leading zero, at
    most 255. *)
Definition jsonUint8 (ds : bytes) : option Z :=
  match ds with
  | [] => None
  | d :: rest =>
      if (d =? 48) && negb (bool_decide (rest = [])) then None
      else if digitsValue ds <=? 255 then Some (digitsValue ds) else None
  end.

(** The code points of valid UTF-8, for [strings.TrimSpace]. *)
Definition runeValue (s : bytes) : Z :=
  match s with
  | [a] => a
  | [a; b] => (a - 192) * 64 + (b - 128)
  | [a; b; c] => (a - 224) * 4096 + (b - 128) * 64 + (c - 128)
  | [a; b; c; d] => (a - 240) * 262144 + (b - 128) * 4096 + (c - 128) * 64 + (d - 128)
  | _ => 65533
  end.

Fixpoint runesLoop (fuel : nat) (s : bytes) : text :=
  match fuel, s with
  | S fuel', _ :: s' =>
      match runeLength s with
      | None => 65533 :: runesLoop fuel' s'
      | Some n => runeValue (take n s) :: runesLoop fuel' (drop n s)
      end
  | _, _ => []
  end.

Definition runesOf (s : bytes) : text := runesLoop (length s) s.

Example quote_sample : jsonQuote (lit "a<b" ++ [10; 226; 128; 168; 195; 169]) =
  [34] ++ lit "a\u003cb\n\u2028" ++ [195; 169; 34].
Proof. vm_compute. reflexivity. Qed.

Example unquote_sample : jsonUnquote ([34] ++ lit "\ud83d\ude00\/" ++ [34]) = Some [240; 159; 152; 128; 47].
Proof. vm_compute. reflexivity. Qed.

(** ** UTF-8 *)

Lemma runeLength_app s r n : runeLength s = Some n → runeLength (s ++ r) = Some n.
Proof.
  destruct s as [|b0 rest]; [done|]. cbn [runeLength app]. intros H.
  destruct (firstByte b0) as [[[m lo] hi]|]; [|done]. destruct m as [|[|m]]; [|done|].
  - destruct rest as [|b1 rest]; [done|]. cbn [app length] in *.
    destruct (_ && _) eqn:E in H; [|done].
    assert (take (0 - 2) (rest ++ r) = take (0 - 2) rest) as -> by done. by rewrite E.
  - destruct (length (b0 :: rest) <? S (S m))%nat eqn:El; [done|]. apply Nat.ltb_ge in El.
    rewrite (proj2 (Nat.ltb_ge _ _)) by (cbn [length] in *; rewrite length_app; lia).
    destruct rest as [|b1 rest]; [done|]. cbn [app length] in *.
    rewrite take_app_le by lia. done.
Qed.

Lemma runeLength_bound s n : runeLength s = Some n → (1 ≤ n ≤ length s)%nat.
Proof. intros H. by destruct (runeLength_spec s n H) as (? & ? & ? & ? & ? & _). Qed.

Lemma runeLength_high b s n :
  128 ≤ b → runeLength (b :: s) = Some n → Forall (λ c, 128 ≤ c) (take n (b :: s)).
Proof.
  intros Hb. cbn [runeLength]. destruct (firstByte b) as [[[m lo] hi]|] eqn:E; [|done].
  destruct (firstByte_spec _ _ _ _ E) as (_ & _ & Hm & Hlo). destruct m as [|[|m]]; [lia|..].
  { intros [= <-]. simpl. by repeat constructor. }
  destruct Hlo as [Hlo _]; [lia|]. destruct (_ <? _)%nat; [done|]. destruct s as [|b1 s]; [done|].
  destruct (_ && _) eqn:E2; [|done]. intros [= <-]. bools. cbn [take]. repeat (apply Forall_cons; split; [lia|]).
  replace (S (S m) - 2)%nat with m in * by lia. rewrite forallb_forall in H0.
  apply Forall_forall. intros c Hc%list_elem_of_In%H0. unfold continuation in Hc. bools. done.
Qed.

Lemma utf8_app a b : utf8 a → utf8 b → utf8 (a ++ b).
Proof.
  induction 1 as [|n s Hn _ IH]; intros Hb; [done|]. apply (utf8_rune n).
  - by apply runeLength_app.
  - rewrite drop_app_le by by apply runeLength_bound. auto.
Qed.

Lemma utf8_ascii l : Forall (λ b, 0 ≤ b < 128) l → utf8 l.
Proof.
  induction 1 as [|b l Hb _ IH]; [constructor|]. apply (utf8_rune 1); [|done].
  cbn [runeLength]. unfold firstByte. by rewrite (proj2 (Z.leb_le _ _)), (proj2 (Z.leb_le _ _)) by lia.
Qed.

(** ** Laws of JSON strings *)

Lemma jsonBodyLoop_fuel f1 f2 s :
  (length s ≤ f1)%nat → (length s ≤ f2)%nat → jsonBodyLoop f1 s = jsonBodyLoop f2 s.
Proof.
  revert f2 s. induction f1 as [|f1 IH]; intros [|f2] [|b s] H1 H2; simpl in H1, H2; try done; try lia.
  cbn [jsonBodyLoop]. destruct (b <? 128); [f_equal; apply IH; lia|].
  destruct (runeLength (b :: s)) as [n|] eqn:E; [|f_equal; apply IH; lia].
  pose proof (runeLength_bound _ _ E) as [Hn _]. f_equal.
  apply IH; rewrite length_drop; simpl; lia.
Qed.

Lemma jsonBody_ascii b s : b < 128 → jsonBody (b :: s) = jsonEscape b ++ jsonBody s.
Proof. intros Hb. unfold jsonBody. simpl. by rewrite (proj2 (Z.ltb_lt _ _) Hb). Qed.

Lemma jsonBody_rune b s n :
  128 ≤ b → runeLength (b :: s) = Some n →
  jsonBody (b :: s) = jsonRune (take n (b :: s)) ++ jsonBody (drop n (b :: s)).
Proof.
  intros Hb Hn. pose proof (runeLength_bound _ _ Hn) as [? ?]. unfold jsonBody.
  change (length (b :: s)) with (S (length s)). cbn [jsonBodyLoop].
  rewrite (proj2 (Z.ltb_ge _ _) Hb), Hn. f_equal. apply jsonBodyLoop_fuel; rewrite length_drop; simpl; lia.
Qed.

(** Valid strings rune by rune: an ASCII character or a longer rune. *)
Lemma utf8_ind_json (P : bytes → Prop) :
  P [] → (∀ b s, 0 ≤ b < 128 → utf8 s → P s → P (b :: s)) →
  (∀ b s n, 128 ≤ b → runeLength (b :: s) = Some n → utf8 (drop n (b :: s)) → P (drop n (b :: s)) → P (b :: s)) →
  ∀ s, utf8 s → P s.
Proof.
  intros H0 H1 H2 s Hs. induction Hs as [|n s Hn Hs IH]; [done|].
  destruct s as [|b s]; [done|]. destruct (Z.lt_ge_cases b 128) as [Hb|Hb]; [|by eapply H2].
  assert (n = 1%nat ∧ 0 ≤ b) as [-> Hb0].
  { cbn [runeLength] in Hn. unfold firstByte in Hn.
    destruct ((0 <=? b) && (b <=? 127)) eqn:E; [bools; by simplify_eq|].
    assert (∀ x, 128 ≤ x → (x <=? b) = false ∧ (b =? x) = false) as Hx.
    { intros x Hx. split; [apply Z.leb_gt|apply Z.eqb_neq]; lia. }
    repeat match goal with
    | H : context [?x <=? b] |- _ => rewrite (proj1 (Hx x ltac:(lia))) in H
    | H : context [b =? ?x] |- _ => rewrite (proj2 (Hx x ltac:(lia))) in H
    end. done. }
  apply H1; [lia|done..].
Qed.

Lemma elem_of_ascii b : 0 ≤ b < 128 → b ∈ seqZ 0 128.
Proof. intros. apply elem_of_seqZ. lia. Qed.

(** Splits a goal over the 128 ASCII characters. *)
Ltac ascii_cases b Hb :=
  let H := fresh in
  pose proof (elem_of_ascii b Hb) as H; clear Hb; revert b H; refine (proj1 (Forall_forall (λ b, _) _) _);
  let l := eval vm_compute in (seqZ 0 128) in change (seqZ 0 128) with l;
  repeat (apply Forall_cons; split); [..|apply Forall_nil; exact I].

Lemma unquote_ascii b fuel rest :
  0 ≤ b < 128 → unquoteLoop (S fuel) (jsonEscape b ++ rest) = cons b <$> unquoteLoop fuel rest.
Proof. intros Hb. revert rest. ascii_cases b Hb; intros rest; reflexivity. Qed.

Lemma unquote_rune b s n fuel rest :
  128 ≤ b → runeLength (b :: s) = Some n →
  unquoteLoop (S fuel) (jsonRune (take n (b :: s)) ++ rest) = app (take n (b :: s)) <$> unquoteLoop fuel rest.
Proof.
  intros Hb Hn. unfold jsonRune. case_decide as E1; [rewrite E1; reflexivity|].
  case_decide as E2; [rewrite E2; reflexivity|].
  destruct (runeLength_spec _ _ Hn) as (b0 & r0 & [= <- <-] & _ & Hle & _ & Htake).
  assert (runeLength (take n (b :: s) ++ rest) = Some n) as Hr.
  { apply runeLength_app. rewrite Htake. by rewrite decide_True. }
  assert (length (take n (b :: s)) = n) as Hlen by (rewrite length_take; lia).
  assert (drop n (take n (b :: s) ++ rest) = rest ∧ take n (take n (b :: s) ++ rest) = take n (b :: s)) as [Hd Ht].
  { split; [by rewrite drop_app_length'|by rewrite take_app_length']. }
  destruct n as [|n]; [lia|]. change (take (S n) (b :: s)) with (b :: take n s) in *. cbn [app] in *.
  cbn [unquoteLoop]. rewrite Hr, Hd, Ht, !(proj2 (Z.eqb_neq _ _)), !(proj2 (Z.ltb_ge _ _)) by lia. done.
Qed.

Lemma jsonRune_nonempty r : r ≠ [] → (1 ≤ length (jsonRune r))%nat.
Proof. intros Hr. unfold jsonRune. repeat case_decide; [vm_compute; lia..|]. destruct r; [done|simpl; lia]. Qed.

Lemma jsonEscape_nonempty b : (1 ≤ length (jsonEscape b) ≤ 6)%nat.
Proof. unfold jsonEscape. repeat case_match; simpl; lia. Qed.

Lemma take_cons_nonempty {A} n (b : A) s : (1 ≤ n)%nat → take n (b :: s) ≠ [].
Proof. by destruct n; [lia|]. Qed.

(** [json.Unmarshal] reads back what [json.Marshal] wrote. *)
Lemma jsonUnquote_jsonQuote s : utf8 s → jsonUnquote (jsonQuote s) = Some s.
Proof.
  intros Hs. unfold jsonUnquote, jsonQuote. cbn [app].
  enough (∀ fuel, (length (jsonBody s ++ [34%Z]) ≤ fuel)%nat → unquoteLoop fuel (jsonBody s ++ [34]) = Some s) as H
    by by apply H.
  induction Hs as [|b s Hb _ IH|b s n Hb Hn _ IH] using utf8_ind_json; intros fuel Hf.
  - by destruct fuel; [simpl in Hf; lia|].
  - rewrite jsonBody_ascii, <-app_assoc in * by lia. rewrite length_app in Hf.
    pose proof (jsonEscape_nonempty b). destruct fuel as [|fuel]; [lia|].
    rewrite unquote_ascii, IH by (try done; lia). done.
  - rewrite (jsonBody_rune b s n), <-app_assoc in * by done. rewrite length_app in Hf.
    pose proof (runeLength_bound _ _ Hn). pose proof (jsonRune_nonempty _ (take_cons_nonempty n b s ltac:(lia))).
    destruct fuel as [|fuel]; [lia|]. rewrite unquote_rune, IH by (try done; lia). simpl.
    by rewrite take_drop.
Qed.

Lemma jsonQuote_utf8 s : utf8 s → utf8 (jsonQuote s).
Proof.
  intros Hs. unfold jsonQuote. apply utf8_app; [apply utf8_ascii; repeat constructor; lia|].
  apply utf8_app; [|apply utf8_ascii; repeat constructor; lia].
  induction Hs as [|b s Hb _ IH|b s n Hb Hn _ IH] using utf8_ind_json; [constructor|..].
  - rewrite jsonBody_ascii by lia. apply utf8_app; [|done]. apply utf8_ascii. clear IH.
    ascii_cases b Hb; repeat constructor; vm_compute; congruence.
  - rewrite (jsonBody_rune b s n) by done. apply utf8_app; [|done]. unfold jsonRune.
    do 2 (case_decide; [apply utf8_ascii; repeat constructor; vm_compute; congruence|]).
    destruct (runeLength_spec _ _ Hn) as (_ & _ & _ & _ & Hle & _ & Htake).
    apply (utf8_rune n); [rewrite Htake; by rewrite decide_True|].
    rewrite drop_ge by (rewrite length_take; lia). constructor.
Qed.

Lemma length_jsonBody s : utf8 s → (length (jsonBody s) ≤ 6 * length s)%nat.
Proof.
  intros Hs. induction Hs as [|b s Hb _ IH|b s n Hb Hn _ IH] using utf8_ind_json; [simpl; lia|..].
  - rewrite jsonBody_ascii, length_app by lia. pose proof (jsonEscape_nonempty b). cbn [length]. lia.
  - rewrite (jsonBody_rune b s n), length_app by done. pose proof (runeLength_bound _ _ Hn).
    rewrite length_drop in IH.
    assert (length (jsonRune (take n (b :: s))) ≤ 6 * n)%nat; [|lia].
    unfold jsonRune. repeat case_decide; [change (length (lit "\u2028")) with 6%nat; lia|
      change (length (lit "\u2029")) with 6%nat; lia|]. rewrite length_take. lia.
Qed.

(** Text a scanner passes over on its way to the closing quote. *)
Inductive scans : bytes → Prop :=
| scans_nil : scans []
| scans_plain c s : 32 ≤ c → c ≠ 34 → c ≠ 92 → scans s → scans (c :: s)
| scans_escape e s : e ≠ 117 → scans s → scans (92 :: e :: s)
| scans_unicode w x y z s : scans s → scans (92 :: 117 :: w :: x :: y :: z :: s).

Lemma scans_app a b : scans a → scans b → scans (a ++ b).
Proof. induction 1; simpl; eauto using scans. Qed.

Lemma scans_plain_all l : Forall (λ c, 32 ≤ c ∧ c ≠ 34 ∧ c ≠ 92) l → scans l.
Proof. induction 1 as [|c l (? & ? & ?) _ IH]; eauto using scans. Qed.

Lemma jsonBody_scans s : utf8 s → scans (jsonBody s).
Proof.
  intros Hs. induction Hs as [|b s Hb _ IH|b s n Hb Hn _ IH] using utf8_ind_json; [constructor|..].
  - rewrite jsonBody_ascii by lia. apply scans_app; [|done]. clear IH.
    ascii_cases b Hb; vm_compute jsonEscape;
      repeat first [apply scans_unicode|apply scans_escape; [lia|]|apply scans_plain; [lia..|]|apply scans_nil].
  - rewrite (jsonBody_rune b s n) by done. apply scans_app; [|done]. unfold jsonRune.
    case_decide; [apply scans_unicode, scans_nil|]. case_decide; [apply scans_unicode, scans_nil|].
    apply scans_plain_all. eapply Forall_impl; [by apply (runeLength_high b s n)|]. simpl. lia.
Qed.

(** ** binary.BigEndian *)

Definition putUint64 (n : Z) : bytes := map (λ i, Z.shiftr n (8 * (7 - i)) mod 256) (seqZ 0 8).

Definition Uint64 (b : bytes) : Z := foldl (λ n x, Z.lor (Z.shiftl n 8) x) 0 (take 8 b).

Lemma putUint64_bytes n : length (putUint64 n) = 8%nat ∧ Forall is_byte (putUint64 n).
Proof.
  split; [done|]. unfold putUint64. apply Forall_fmap, Forall_true. intros i. simpl.
  unfold is_byte. apply Z.mod_pos_bound. lia.
Qed.

Lemma Uint64_putUint64 n : in_u64 n → Uint64 (putUint64 n) = n.
Proof.
  unfold in_u64. intros Hn.
  assert (putUint64 n = [Z.shiftr n 56 mod 256; Z.shiftr n 48 mod 256; Z.shiftr n 40 mod 256; Z.shiftr n 32 mod 256;
    Z.shiftr n 24 mod 256; Z.shiftr n 16 mod 256; Z.shiftr n 8 mod 256; Z.shiftr n 0 mod 256]) as -> by reflexivity.
  unfold Uint64. cbn [take foldl].
  assert (∀ a b, Z.lor (Z.shiftl a 8) (b mod 256) = a * 256 + b mod 256) as Hlor.
  { intros a b. apply (lor_shiftl_add a _ 8); [lia|]. apply Z.mod_pos_bound. lia. }
  rewrite !Hlor, !Z.shiftr_div_pow2 by lia.
  change (2 ^ 56) with 72057594037927936. change (2 ^ 48) with 281474976710656. change (2 ^ 40) with 1099511627776.
  change (2 ^ 32) with 4294967296. change (2 ^ 24) with 16777216. change (2 ^ 16) with 65536.
  change (2 ^ 8) with 256. change (2 ^ 0) with 1. change (2 ^ 64) with 18446744073709551616 in Hn.
  Z.to_euclidean_division_equations. lia.
Qed.
