(* ===== verification/KmsEnvelope.v ===== *)
(** * encrypt/kms: the envelope

    Models [src/encrypt/kms/envelope.go]: the writer of the canonical BTKMS
    bytes, the strict parser, the validation of both and the associated data.
    Strings are lists of bytes.  The parser's [data] and [offset] are the list
    of the bytes that are left.  [visit] is the order in which Go ranges over a
    context map. *)

From S2P Require Import Prelude GoError GoText Core GoEncoding.

Local Open Scope Z_scope.

Definition ErrUnexpectedEOF : error := Sentinel "io.ErrUnexpectedEOF".

(** [errorWith]: an [Error] matches its kind and its cause. *)
Definition errorWith (kind operation : string) (cause : option error) : error :=
  Typed "kms.Error" [FStr kind; FStr operation] [kind] cause.

Definition ErrInvalidKeyID : string := "kms.ErrInvalidKeyID".
Definition ErrInputTooLarge : string := "kms.ErrInputTooLarge".
Definition ErrMalformedEnvelope : string := "kms.ErrMalformedEnvelope".
Definition ErrUnsupportedVersion : string := "kms.ErrUnsupportedVersion".
Definition ErrUnsupportedAlgorithm : string := "kms.ErrUnsupportedAlgorithm".

Definition envelopeMagic : bytes := lit "BTKMS".
Definition gcmNonceSize : Z := 12.
Definition gcmOverhead : Z := 16.
Definition maxJSONStringEscapeBytes : Z := 6.
Definition MaxEnvelopeSize : Z := 67108864.
Definition MaxPlaintextSize : Z := 33554432.
Definition MaxAssociatedDataSize : Z := 65536.
Definition MaxKeyIDSize : Z := 2048.
Definition MaxContextEntries : nat := 64.
Definition MaxContextSize : Z := 8192.
Definition MaxEncryptedDataKeySize : Z := 6144.
Definition AlgorithmAES256GCM : bytes := lit "AES-256-GCM".
Definition EnvelopeVersion : Z := 1.

Notation context := (gmap bytes bytes).

Record Envelope : Type := mkEnvelope {
  Version : Z;
  Algorithm : bytes;
  KeyID : bytes;
  EncryptedDataKey : bytes;
  EncryptionContext : context;
  Nonce : bytes;
  Ciphertext : bytes
}.

Definition size (s : bytes) : Z := Z.of_nat (length s).

(** ** Validation *)

(** The loop of [validateContext]. *)
Fixpoint contextLoop (total : Z) (entries : list (bytes * bytes)) : option error :=
  match entries with
  | [] => None
  | (key, value) :: rest =>
      if negb (ValidString key) || negb (ValidString value) || bool_decide (key = []) then
        Some (errorWith ErrMalformedEnvelope "validate context" None)
      else
        let total := total + (size key + size value) in
        if MaxContextSize <? total then Some (errorWith ErrInputTooLarge "validate context" None)
        else contextLoop total rest
  end.

(** One round of the insertion sort of [contextEntries]: the sorted entries
    before [i] from the last to the first, and the entry at [i]. *)
Fixpoint sinkEntry (sorted : list (bytes * bytes)) (entry : bytes * bytes) : list (bytes * bytes) :=
  match sorted with
  | [] => [entry]
  | x :: rest => if text_lt entry.1 x.1 then x :: sinkEntry rest entry else entry :: sorted
  end.

Section envelope.
Context (visit : context → list (bytes * bytes)).

Definition validateContext (c : context) : option error :=
  let entries := visit c in
  if (MaxContextEntries <? length entries)%nat then Some (errorWith ErrInputTooLarge "validate context" None)
  else contextLoop 0 entries.

Definition contextEntries (c : context) : list (bytes * bytes) :=
  reverse (foldl sinkEntry [] (visit c)).

Definition validateMetadata (e : Envelope) : option error :=
  if negb (Version e =? EnvelopeVersion) then Some (errorWith ErrUnsupportedVersion "validate envelope" None)
  else if negb (bool_decide (Algorithm e = AlgorithmAES256GCM)) then
    Some (errorWith ErrUnsupportedAlgorithm "validate envelope" None)
  else if negb (ValidString (KeyID e)) || bool_decide (TrimSpace (runesOf (KeyID e)) = []) ||
          (MaxKeyIDSize <? size (KeyID e)) then
    Some (errorWith ErrInvalidKeyID "validate envelope" None)
  else if (size (EncryptedDataKey e) =? 0) || (MaxEncryptedDataKeySize <? size (EncryptedDataKey e)) then
    Some (errorWith ErrMalformedEnvelope "validate envelope" None)
  else validateContext (EncryptionContext e).

Definition validateEnvelope (e : Envelope) : option error :=
  match validateMetadata e with
  | Some err => Some err
  | None =>
      if negb (size (Nonce e) =? gcmNonceSize) then Some (errorWith ErrMalformedEnvelope "validate envelope" None)
      else if size (Ciphertext e) <? gcmOverhead then Some (errorWith ErrMalformedEnvelope "validate envelope" None)
      else if MaxPlaintextSize <? size (Ciphertext e) - gcmOverhead then
        Some (errorWith ErrInputTooLarge "validate envelope" None)
      else None
  end.

(** ** Writing *)

(** A literal of the source between quotes. *)
Definition quoted (s : string) : bytes := [34] ++ lit s ++ [34].

Definition writeEntry (entry : bytes * bytes) : bytes :=
  lit "{" ++ quoted "key" ++ lit ":" ++ jsonQuote entry.1 ++
  lit "," ++ quoted "value" ++ lit ":" ++ jsonQuote entry.2 ++ lit "}".

(** The loop over the entries, with commas between them. *)
Fixpoint writeEntries (entries : list (bytes * bytes)) : bytes :=
  match entries with
  | [] => []
  | [entry] => writeEntry entry
  | entry :: rest => writeEntry entry ++ lit "," ++ writeEntries rest
  end.

Definition writeBase64 (value : bytes) : bytes := [34] ++ b64encode value ++ [34].

(** What the buffer of [MarshalBinary] holds after the magic. *)
Definition envelopeJSON (e : Envelope) : bytes :=
  lit "{" ++ quoted "version" ++ lit ":1," ++ quoted "algorithm" ++ lit ":" ++ quoted "AES-256-GCM" ++ lit "," ++
  quoted "key_id" ++ lit ":" ++ jsonQuote (KeyID e) ++ lit "," ++
  quoted "encrypted_data_key" ++ lit ":" ++ writeBase64 (EncryptedDataKey e) ++ lit "," ++
  quoted "encryption_context" ++ lit ":[" ++ writeEntries (contextEntries (EncryptionContext e)) ++ lit "]," ++
  quoted "nonce" ++ lit ":" ++ writeBase64 (Nonce e) ++ lit "," ++
  quoted "ciphertext" ++ lit ":" ++ writeBase64 (Ciphertext e) ++ lit "}".

Definition MarshalBinary (e : Envelope) : result bytes :=
  match validateEnvelope e with
  | Some err => Fail err
  | None =>
      let out := envelopeMagic ++ envelopeJSON e in
      if MaxEnvelopeSize <? size out then Fail (errorWith ErrInputTooLarge "marshal envelope" None) else Ok out
  end.

(** ** Parsing *)

(** A parse step: the value read and the bytes left. *)
Definition parsed (A : Type) : Type := result (A * bytes).

Definition consume (expected : Z) (s : bytes) : option bytes :=
  match s with
  | c :: s' => if c =? expected then Some s' else None
  | [] => None
  end.

(** The loop of [stringRawBounded]: [raw] is [data[start:index]]. *)
Fixpoint scanLoop (fuel : nat) (maxRawBytes : Z) (raw s : bytes) : parsed bytes :=
  match fuel, s with
  | S fuel', c :: s' =>
      if c =? 34 then
        if (0 <? maxRawBytes) && (maxRawBytes <? size (raw ++ [c]))
        then Fail (errorWith ErrInputTooLarge "parse string" None) else Ok (raw ++ [c], s')
      else
        match
          if c =? 92 then
            match s' with
            | [] => None
            | e :: s2 =>
                if e =? 117 then
                  if (length s2 <? 4)%nat then None else Some (raw ++ [c; e] ++ take 4 s2, drop 4 s2)
                else Some (raw ++ [c; e], s2)
            end
          else if c <? 32 then None
          else Some (raw ++ [c], s')
        with
        | None => Fail ErrUnexpectedEOF
        | Some (raw', rest) =>
            if (0 <? maxRawBytes) && (maxRawBytes <? size raw')
            then Fail (errorWith ErrInputTooLarge "parse string" None)
            else scanLoop fuel' maxRawBytes raw' rest
        end
  | _, _ => Fail ErrUnexpectedEOF
  end.

Definition stringRawBounded (maxRawBytes : Z) (s : bytes) : parsed bytes :=
  match consume 34 s with
  | None => Fail ErrUnexpectedEOF
  | Some s' => scanLoop (length s') maxRawBytes [34] s'
  end.

Definition stringRaw (s : bytes) : parsed bytes := stringRawBounded 0 s.

Fixpoint takeDigits (s : bytes) : bytes :=
  match s with
  | c :: s' => if isDigit c then c :: takeDigits s' else []
  | [] => []
  end.

Definition parseUint8 (s : bytes) : parsed Z :=
  let ds := takeDigits s in
  match ds with
  | [] => Fail ErrUnexpectedEOF
  | _ => match jsonUint8 ds with
         | None => Fail ErrUnexpectedEOF
         | Some v => Ok (v, drop (length ds) s)
         end
  end.

Definition maxJSONStringBytes (maxDecodedBytes : Z) : Z := maxDecodedBytes * maxJSONStringEscapeBytes + 2.
Definition maxContextJSONStringBytes : Z :=
  MaxContextSize * maxJSONStringEscapeBytes + 4 * Z.of_nat MaxContextEntries.

Definition decodeCanonicalJSONString (raw : bytes) : result bytes :=
  match jsonUnquote raw with
  | None => Fail ErrUnexpectedEOF
  | Some value =>
      if negb (ValidString value) then Fail ErrUnexpectedEOF
      else if negb (bool_decide (jsonQuote value = raw)) then Fail ErrUnexpectedEOF
      else Ok value
  end.

Definition base64Value (value : Z) : Z := b64val value.

(** The number of ['='] at the end. *)
Fixpoint leadingPads (s : bytes) : nat :=
  match s with c :: s' => if c =? 61 then S (leadingPads s') else O | [] => O end.

Definition validCanonicalBase64 (encoded : bytes) : bool :=
  if negb (size encoded mod 4 =? 0) then false
  else
    let padding := leadingPads (reverse encoded) in
    if (2 <? padding)%nat then false
    else
      let contentLength := (length encoded - padding)%nat in
      if negb (forallb (λ c, c =? 61) (drop contentLength encoded) &&
               forallb (λ c, negb (base64Value c <? 0)) (take contentLength encoded)) then false
      else if (padding =? 0)%nat then Z.of_nat contentLength mod 4 =? 0
      else
        let last := base64Value (encoded !!! (contentLength - 1)%nat) in
        if (padding =? 1)%nat then (Z.of_nat contentLength mod 4 =? 3) && (Z.land last 3 =? 0)
        else (Z.of_nat contentLength mod 4 =? 2) && (Z.land last 15 =? 0).

(** [raw[1 : len(raw)-1]] *)
Definition inner (raw : bytes) : bytes := take (length raw - 2) (drop 1 raw).

Definition decodeCanonicalBase64Raw (raw : bytes) (maxDecoded : Z) : result bytes :=
  if (size raw <? 2) || negb (bool_decide (head raw = Some 34)) || negb (bool_decide (last raw = Some 34))
  then Fail ErrUnexpectedEOF
  else
    let encoded := inner raw in
    if (EncodedLen maxDecoded <? size encoded) || negb (validCanonicalBase64 encoded) then Fail ErrUnexpectedEOF
    else match b64decode encoded with None => Fail ErrUnexpectedEOF | Some v => Ok v end.

(** [if err != nil || !bytes.Equal(field, name) || !p.consume(':')] *)
Definition fieldName (name : string) (s : bytes) : option bytes :=
  match stringRaw s with
  | Fail _ => None
  | Ok (field, s') => if decide (field = quoted name) then consume 58 s' else None
  end.

(** A quoted string of the context, counted in [rawBytes]. *)
Definition contextString (rawBytes : Z) (s : bytes) : parsed (bytes * Z) :=
  match stringRawBounded (maxJSONStringBytes MaxContextSize) s with
  | Fail e => Fail e
  | Ok (raw, s') =>
      let rawBytes := rawBytes + size raw in
      if maxContextJSONStringBytes <? rawBytes then Fail (errorWith ErrInputTooLarge "parse context" None)
      else Ok ((raw, rawBytes), s')
  end.

(** The entry at the head of the loop of [context]. *)
Definition parseEntry (rawBytes : Z) (s : bytes) : parsed (bytes * bytes * Z) :=
  match consume 123 s ≫= fieldName "key" with
  | None => Fail ErrUnexpectedEOF
  | Some s1 =>
      match contextString rawBytes s1 with
      | Fail e => Fail e
      | Ok ((keyRaw, rawBytes), s2) =>
          match decodeCanonicalJSONString keyRaw with
          | Fail _ => Fail ErrUnexpectedEOF
          | Ok key =>
              if decide (key = []) then Fail ErrUnexpectedEOF
              else
                match consume 44 s2 ≫= fieldName "value" with
                | None => Fail ErrUnexpectedEOF
                | Some s3 =>
                    match contextString rawBytes s3 with
                    | Fail e => Fail e
                    | Ok ((valueRaw, rawBytes), s4) =>
                        match decodeCanonicalJSONString valueRaw with
                        | Fail e => Fail e
                        | Ok value => Ok ((key, value, rawBytes), s4)
                        end
                    end
                end
          end
      end
  end.

(** The loop of [context]; [fuel] rounds are left before [index] reaches
    [MaxContextEntries]. *)
Fixpoint entriesLoop (fuel : nat) (first : bool) (previous : bytes) (rawBytes : Z) (c : context) (s : bytes) :
    parsed context :=
  match fuel with
  | O => Fail (errorWith ErrInputTooLarge "parse context" None)
  | S fuel' =>
      match parseEntry rawBytes s with
      | Fail e => Fail e
      | Ok ((key, value, rawBytes), s1) =>
          match consume 125 s1 with
          | None => Fail ErrUnexpectedEOF
          | Some s2 =>
              if negb first && negb (text_lt previous key) then Fail ErrUnexpectedEOF
              else
                match c !! key with
                | Some _ => Fail ErrUnexpectedEOF
                | None =>
                    let c := <[key := value]> c in
                    match consume 93 s2 with
                    | Some s3 => Ok (c, s3)
                    | None =>
                        match consume 44 s2 with
                        | None => Fail ErrUnexpectedEOF
                        | Some s3 => entriesLoop fuel' false key rawBytes c s3
                        end
                    end
                end
          end
      end
  end.

Definition parseContext (s : bytes) : parsed context :=
  match consume 91 s with
  | None => Fail ErrUnexpectedEOF
  | Some s1 =>
      match consume 93 s1 with
      | Some s2 => Ok (∅, s2)
      | None =>
          match entriesLoop MaxContextEntries true [] 0 ∅ s1 with
          | Fail e => Fail e
          | Ok (c, s2) => match validateContext c with Some e => Fail e | None => Ok (c, s2) end
          end
      end
  end.

Definition parseString (maxRawBytes : Z) (s : bytes) : parsed bytes :=
  match stringRawBounded maxRawBytes s with
  | Fail e => Fail e
  | Ok (raw, s') => match decodeCanonicalJSONString raw with Fail e => Fail e | Ok v => Ok (v, s') end
  end.

Definition parseBase64 (maxDecoded : Z) (s : bytes) : parsed bytes :=
  match stringRaw s with
  | Fail e => Fail e
  | Ok (raw, s') => match decodeCanonicalBase64Raw raw maxDecoded with Fail e => Fail e | Ok v => Ok (v, s') end
  end.

(** The case "ciphertext", which tells a ciphertext that is too long. *)
Definition parseCiphertext (s : bytes) : parsed bytes :=
  match stringRaw s with
  | Fail e => Fail e
  | Ok (raw, s') =>
      if EncodedLen (MaxPlaintextSize + gcmOverhead) <? size (inner raw) then
        Fail (errorWith ErrInputTooLarge "parse envelope" None)
      else match decodeCanonicalBase64Raw raw (MaxPlaintextSize + gcmOverhead) with
           | Fail e => Fail e
           | Ok v => Ok (v, s')
           end
  end.

(** A round of the loop over the field names: the separator, the name, the
    colon and the value. *)
Definition parseField {A} (first : bool) (name : string) (value : bytes → parsed A) (s : bytes) : parsed A :=
  match if first then Some s else consume 44 s with
  | None => Fail ErrUnexpectedEOF
  | Some s1 => match fieldName name s1 with None => Fail ErrUnexpectedEOF | Some s2 => value s2 end
  end.

Definition parseVersion (s : bytes) : parsed Z :=
  match parseUint8 s with
  | Fail e => Fail e
  | Ok (version, s') =>
      if negb (version =? EnvelopeVersion) then Fail (errorWith ErrUnsupportedVersion "parse envelope" None)
      else Ok (version, s')
  end.

Definition parseAlgorithm (s : bytes) : parsed bytes :=
  match parseString (size AlgorithmAES256GCM + 2) s with
  | Fail e => Fail e
  | Ok (algorithm, s') =>
      if negb (bool_decide (algorithm = AlgorithmAES256GCM))
      then Fail (errorWith ErrUnsupportedAlgorithm "parse envelope" None) else Ok (algorithm, s')
  end.

(** [let '(x, s) <- m; k] on parse steps. *)
Definition pbind {A B} (m : parsed A) (k : A → bytes → result B) : result B :=
  match m with Fail e => Fail e | Ok (x, s) => k x s end.

Definition parseCanonicalEnvelope (data : bytes) : result Envelope :=
  match consume 123 data with
  | None => Fail ErrUnexpectedEOF
  | Some s =>
      pbind (parseField true "version" parseVersion s) (λ version s,
      pbind (parseField false "algorithm" parseAlgorithm s) (λ algorithm s,
      pbind (parseField false "key_id" (parseString (maxJSONStringBytes MaxKeyIDSize)) s) (λ keyID s,
      pbind (parseField false "encrypted_data_key" (parseBase64 MaxEncryptedDataKeySize) s) (λ dataKey s,
      pbind (parseField false "encryption_context" parseContext s) (λ c s,
      pbind (parseField false "nonce" (parseBase64 gcmNonceSize) s) (λ nonce s,
      pbind (parseField false "ciphertext" parseCiphertext s) (λ ciphertext s,
      match consume 125 s with
      | Some [] => Ok (mkEnvelope version algorithm keyID dataKey c nonce ciphertext)
      | _ => Fail ErrUnexpectedEOF
      end)))))))
  end.

Definition ParseEnvelope (data : bytes) : result Envelope :=
  if MaxEnvelopeSize <? size data then Fail (errorWith ErrInputTooLarge "parse envelope" None)
  else if (size data <=? size envelopeMagic) || negb (bool_decide (take (length envelopeMagic) data = envelopeMagic))
  then Fail (errorWith ErrMalformedEnvelope "parse envelope" None)
  else
    let jsonBytes := drop (length envelopeMagic) data in
    if negb (ValidString jsonBytes) then Fail (errorWith ErrMalformedEnvelope "parse envelope" None)
    else
      match parseCanonicalEnvelope jsonBytes with
      | Fail err =>
          if errors_Is err ErrInputTooLarge then Fail err
          else if errors_Is err ErrUnsupportedVersion || errors_Is err ErrUnsupportedAlgorithm then Fail err
          else Fail (errorWith ErrMalformedEnvelope "parse envelope" None)
      | Ok envelope => match validateEnvelope envelope with Some err => Fail err | None => Ok envelope end
      end.

(** ** Associated data *)

(** [json.Marshal] of [wireMetadata]. *)
Definition metadataJSON (e : Envelope) : bytes :=
  lit "{" ++ quoted "version" ++ lit ":1," ++ quoted "algorithm" ++ lit ":" ++ quoted "AES-256-GCM" ++ lit "," ++
  quoted "key_id" ++ lit ":" ++ jsonQuote (KeyID e) ++ lit "," ++
  quoted "encrypted_data_key" ++ lit ":" ++ writeBase64 (EncryptedDataKey e) ++ lit "," ++
  quoted "encryption_context" ++ lit ":[" ++ writeEntries (contextEntries (EncryptionContext e)) ++ lit "]}".

Definition canonicalMetadata (e : Envelope) : result bytes :=
  match validateMetadata e with Some err => Fail err | None => Ok (metadataJSON e) end.

(** [binary.BigEndian.PutUint32] *)
Definition putUint32 (n : Z) : bytes :=
  [n / 16777216 mod 256; n / 65536 mod 256; n / 256 mod 256; n mod 256].

Definition buildAssociatedData (metadata callerAD : bytes) : result bytes :=
  if (MaxEnvelopeSize <? size metadata) || (MaxAssociatedDataSize <? size callerAD) then
    Fail (errorWith ErrInputTooLarge "build associated data" None)
  else Ok (lit "BTKMS-AAD" ++ [1] ++ putUint32 (size metadata) ++ metadata ++
           putUint32 (size callerAD) ++ callerAD).
End envelope.
