(* ===== verification/KmsEnvelopeLaws.v ===== *)
(** * encrypt/kms: the canonical envelope

    Lemmas on the scanner, the base64 check and the sorted context, and the
    theorems: parsing reads back what was written, and accepts nothing but
    what would be written. *)

From S2P Require Import Prelude GoError GoText Core GoEncoding KmsEnvelope.

Local Open Scope Z_scope.

(** ** Scanning strings *)

Lemma size_app a b : size (a ++ b) = size a + size b.
Proof. unfold size. rewrite length_app. lia. Qed.
Lemma size_cons c s : size (c :: s) = 1 + size s.
Proof. unfold size. cbn [length]. lia. Qed.
Lemma size_nil : size [] = 0.
Proof. done. Qed.
Lemma size_nonneg s : 0 ≤ size s.
Proof. unfold size. lia. Qed.

#[export] Hint Rewrite size_app size_cons size_nil : size.

Definition fits (maxRawBytes n : Z) : Prop := maxRawBytes ≤ 0 ∨ n ≤ maxRawBytes.

Lemma fits_check maxRawBytes raw :
  fits maxRawBytes (size raw) → (0 <? maxRawBytes) && (maxRawBytes <? size raw) = false.
Proof.
  intros [H|H]; apply andb_false_iff; [left|right]; by apply Z.ltb_ge.
Qed.

Lemma fits_mono maxRawBytes n m : fits maxRawBytes n → m ≤ n → fits maxRawBytes m.
Proof. unfold fits. lia. Qed.

Ltac fit := first [done | lia | eapply fits_mono; [eassumption|autorewrite with size; lia]].

(** The scanner stops at the first quote that is not escaped. *)
Lemma scanLoop_body body maxRawBytes rest :
  scans body → ∀ fuel raw, (length (body ++ 34%Z :: rest) ≤ fuel)%nat →
  fits maxRawBytes (size raw + size body + 1) →
  scanLoop fuel maxRawBytes raw (body ++ 34 :: rest) = Ok (raw ++ body ++ [34], rest).
Proof.
  induction 1 as [|c s Hc H34 H92 Hs IH|e s He Hs IH|w x y z s Hs IH]; intros [|fuel] raw Hf Hfit;
    cbn [length app] in Hf; try lia; autorewrite with size in Hfit;
    try pose proof (size_nonneg s) as Hn.
  - cbn [app scanLoop]. rewrite Z.eqb_refl, fits_check; [done|].
    eapply fits_mono; [exact Hfit|]. autorewrite with size. lia.
  - cbn [app scanLoop]. rewrite !(proj2 (Z.eqb_neq _ _)), (proj2 (Z.ltb_ge _ _)), fits_check by fit.
    rewrite IH; [by rewrite <-app_assoc|lia|].
    eapply fits_mono; [exact Hfit|]. autorewrite with size. lia.
  - cbn [app scanLoop]. change (92 =? 34) with false. change (92 =? 92) with true. cbv iota.
    rewrite (proj2 (Z.eqb_neq _ _)), fits_check by fit.
    rewrite IH; [by rewrite <-app_assoc|lia|].
    eapply fits_mono; [exact Hfit|]. autorewrite with size. lia.
  - cbn [app scanLoop]. change (92 =? 34) with false. change (92 =? 92) with true.
    change (117 =? 117) with true. cbv iota. cbn [length Nat.ltb Nat.leb take drop]. rewrite take_0, drop_0.
    rewrite fits_check by fit.
    rewrite IH; [by rewrite <-app_assoc|cbn [length] in *; lia|].
    eapply fits_mono; [exact Hfit|]. autorewrite with size. lia.
Qed.

Lemma stringRawBounded_body maxRawBytes body rest :
  scans body → fits maxRawBytes (size body + 2) →
  stringRawBounded maxRawBytes (34 :: body ++ 34 :: rest) = Ok (34 :: body ++ [34], rest).
Proof.
  intros Hs Hfit. unfold stringRawBounded, consume. rewrite Z.eqb_refl.
  rewrite (scanLoop_body body) by fit.
  done.
Qed.

(** What is scanned is a prefix of the input. *)
Lemma scanLoop_prefix fuel maxRawBytes raw s out rest :
  scanLoop fuel maxRawBytes raw s = Ok (out, rest) → raw ++ s = out ++ rest.
Proof.
  revert raw s. induction fuel as [|fuel IH]; intros raw [|c s]; try done. cbn [scanLoop].
  destruct (c =? 34). { destruct (_ && _); [done|]. intros [= <- <-]. by rewrite <-app_assoc. }
  destruct (c =? 92).
  - destruct s as [|e s]; [done|]. destruct (e =? 117).
    + destruct (length s <? 4)%nat; [done|]. destruct (_ && _); [done|]. intros <-%IH.
      rewrite <-!app_assoc. cbn [app]. by rewrite take_drop.
    + destruct (_ && _); [done|]. intros <-%IH. by rewrite <-app_assoc.
  - destruct (c <? 32); [done|]. destruct (_ && _); [done|]. intros <-%IH. by rewrite <-app_assoc.
Qed.

Lemma consume_Some c s s' : consume c s = Some s' ↔ s = c :: s'.
Proof.
  unfold consume. destruct s as [|x s]; [done|]. destruct (x =? c) eqn:E; bools; [subst|]; naive_solver.
Qed.

Lemma stringRawBounded_prefix maxRawBytes s raw rest :
  stringRawBounded maxRawBytes s = Ok (raw, rest) → s = raw ++ rest.
Proof.
  unfold stringRawBounded. destruct (consume 34 s) as [s'|] eqn:E; [|done]. apply consume_Some in E as ->.
  by intros H%scanLoop_prefix.
Qed.

(** ** Field names *)

Definition plainName (name : string) : bool :=
  forallb (λ c, (32 <=? c) && negb (c =? 34) && negb (c =? 92)) (lit name).

Lemma plainName_scans name : plainName name = true → scans (lit name).
Proof.
  unfold plainName. rewrite forallb_forall. intros H. apply scans_plain_all, Forall_forall.
  intros c Hc%list_elem_of_In%H. bools. done.
Qed.

Lemma fieldName_quoted name rest :
  plainName name = true → fieldName name (quoted name ++ 58 :: rest) = Some rest.
Proof.
  intros Hp%plainName_scans. unfold fieldName, stringRaw, quoted. rewrite <-!app_assoc. cbn [app].
  rewrite stringRawBounded_body; [|done|by left]. rewrite decide_True by done. by apply consume_Some.
Qed.

Lemma fieldName_Some name s rest : fieldName name s = Some rest → s = quoted name ++ 58 :: rest.
Proof.
  unfold fieldName, stringRaw. destruct (stringRawBounded 0 s) as [[raw s']|] eqn:E; [|done].
  case_decide as Hn; [|done]. intros ->%consume_Some. apply stringRawBounded_prefix in E. by rewrite E, Hn.
Qed.

(** ** Values *)

Lemma decodeJSON_quote v : utf8 v → decodeCanonicalJSONString (jsonQuote v) = Ok v.
Proof.
  intros Hv. unfold decodeCanonicalJSONString. rewrite jsonUnquote_jsonQuote by done.
  rewrite (proj2 (ValidString_utf8 v) Hv), bool_decide_eq_true_2 by done. done.
Qed.

Lemma decodeJSON_Ok raw v : decodeCanonicalJSONString raw = Ok v → raw = jsonQuote v ∧ utf8 v.
Proof.
  unfold decodeCanonicalJSONString. destruct (jsonUnquote raw) as [v'|]; [|done].
  destruct (ValidString v') eqn:Hv; [|done]. destruct (bool_decide (jsonQuote v' = raw)) eqn:E; [|done].
  intros [= <-]. apply bool_decide_eq_true in E. by apply ValidString_utf8 in Hv.
Qed.

Lemma jsonQuote_shape v : jsonQuote v = 34 :: jsonBody v ++ [34].
Proof. done. Qed.

Lemma size_jsonQuote v : utf8 v → size (jsonQuote v) ≤ size v * 6 + 2.
Proof.
  intros Hv. rewrite jsonQuote_shape. autorewrite with size. pose proof (length_jsonBody v Hv).
  unfold size. lia.
Qed.

Lemma stringRaw_quote maxRawBytes v rest :
  utf8 v → fits maxRawBytes (size (jsonQuote v)) →
  stringRawBounded maxRawBytes (jsonQuote v ++ rest) = Ok (jsonQuote v, rest).
Proof.
  intros Hv Hfit. rewrite jsonQuote_shape in *. cbn [app]. rewrite <-app_assoc. cbn [app].
  apply stringRawBounded_body; [by apply jsonBody_scans|]. eapply fits_mono; [exact Hfit|].
  autorewrite with size. lia.
Qed.

Lemma parseString_quote maxRawBytes v rest :
  utf8 v → fits maxRawBytes (size (jsonQuote v)) → parseString maxRawBytes (jsonQuote v ++ rest) = Ok (v, rest).
Proof.
  intros Hv Hfit. unfold parseString. rewrite stringRaw_quote by done. by rewrite decodeJSON_quote.
Qed.

Lemma parseString_Ok maxRawBytes s v rest :
  parseString maxRawBytes s = Ok (v, rest) → s = jsonQuote v ++ rest ∧ utf8 v.
Proof.
  unfold parseString. destruct (stringRawBounded maxRawBytes s) as [[raw s']|] eqn:E; [|done].
  destruct (decodeCanonicalJSONString raw) as [v'|] eqn:Ed; [|done]. intros [= -> ->].
  apply stringRawBounded_prefix in E as ->. by apply decodeJSON_Ok in Ed as [-> ?].
Qed.

(** ** Canonical base64 *)

(** The content and the padding the check looks at. *)
Definition padded (content : bytes) (p : nat) : Prop :=
  Forall (λ c, 0 ≤ b64val c) content ∧
  let lastVal := b64val (content !!! (length content - 1)%nat) in
  (p = 0%nat ∧ size content mod 4 = 0) ∨
  (p = 1%nat ∧ size content mod 4 = 3 ∧ Z.land lastVal 3 = 0) ∨
  (p = 2%nat ∧ size content mod 4 = 2 ∧ Z.land lastVal 15 = 0).

Lemma list_ind4 {A} (P : list A → Prop) :
  P [] → (∀ a, P [a]) → (∀ a b, P [a; b]) → (∀ a b c, P [a; b; c]) →
  (∀ a b c d l, P l → P (a :: b :: c :: d :: l)) → ∀ l, P l.
Proof.
  intros H0 H1 H2 H3 H4. fix IH 1. intros [|a [|b [|c [|d l]]]]; [done|done|done|done|]. apply H4, IH.
Qed.

Lemma size_mod4 a b c d (l : bytes) : size (a :: b :: c :: d :: l) mod 4 = size l mod 4.
Proof. autorewrite with size. replace (1 + (1 + (1 + (1 + size l)))) with (size l + 1 * 4) by lia. apply Z.mod_add. lia. Qed.

Lemma last_cons4 a b c d (l : bytes) :
  size l mod 4 ≠ 0 →
  (a :: b :: c :: d :: l) !!! (length (a :: b :: c :: d :: l) - 1)%nat = l !!! (length l - 1)%nat.
Proof.
  destruct l as [|x l]; [done|]. intros _. cbn [length].
  replace (S (S (S (S (S (length l))))) - 1)%nat with (S (S (S (S (S (length l) - 1)))))%nat by lia. done.
Qed.

Lemma land_low v n : 0 ≤ v → 0 ≤ n → Z.land v (2 ^ n - 1) = 0 ↔ v mod 2 ^ n = 0.
Proof. intros. by rewrite land_ones_mod. Qed.

Lemma padded_canon content p : padded content p → canon64 (content ++ replicate p 61).
Proof.
  induction content as [|a|a b|a b c|a b c d l IH] using list_ind4; intros [Hf Hp]; cbv zeta in Hp.
  - destruct Hp as [[-> _]|[(-> & H & _)|(-> & H & _)]]; [constructor|done..].
  - destruct Hp as [[_ H]|[(_ & H & _)|(_ & H & _)]]; done.
  - destruct Hp as [[_ Hm]|[(_ & Hm & _)|(-> & _ & Hm)]]; [done..|].
    apply Forall_cons in Hf as [? [? _]%Forall_cons].
    apply (land_low _ 4) in Hm; [|done..]. by apply canon64_one.
  - destruct Hp as [[_ Hm]|[(-> & _ & Hm)|(_ & Hm & _)]]; [done| |done].
    apply Forall_cons in Hf as [? [? [? _]%Forall_cons]%Forall_cons].
    apply (land_low _ 2) in Hm; [|done..]. by apply canon64_two.
  - apply Forall_cons in Hf as [? [? [? [? Hf]%Forall_cons]%Forall_cons]%Forall_cons].
    apply canon64_more; [done..|]. apply IH. split; [done|]. cbv zeta. rewrite size_mod4 in Hp.
    destruct Hp as [?|[(? & Hm & Hl)|(? & Hm & Hl)]]; [by left|right; left|right; right];
      (rewrite last_cons4 in Hl by lia; done).
Qed.

Lemma canon_padded e : canon64 e → ∃ content p, e = content ++ replicate p 61 ∧ padded content p.
Proof.
  induction 1 as [|w x Hw Hx Hm|w x y Hw Hx Hy Hm|w x y z l Hw Hx Hy Hz _ (content & p & -> & Hf & Hp)].
  - exists [], 0%nat. split; [done|]. split; [done|]. by left.
  - exists [w; x], 2%nat. split; [done|]. split; [by repeat (apply Forall_cons; split; [done|])|].
    right. right. split_and!; [done..|]. by apply (land_low _ 4).
  - exists [w; x; y], 1%nat. split; [done|]. split; [by repeat (apply Forall_cons; split; [done|])|].
    right. left. split_and!; [done..|]. by apply (land_low _ 2).
  - exists (w :: x :: y :: z :: content), p. split; [done|].
    split; [by repeat (apply Forall_cons; split; [done|])|]. cbv zeta in *. rewrite size_mod4.
    destruct Hp as [?|[(? & H & Hl)|(? & H & Hl)]]; [by left|right; left|right; right];
      (rewrite last_cons4 by lia; done).
Qed.

Lemma leadingPads_replicate p s : head s ≠ Some 61 → leadingPads (replicate p 61 ++ s) = p.
Proof.
  intros Hs. induction p as [|p IH]; simpl; [|by rewrite IH].
  destruct s as [|c s]; [done|]. simpl. rewrite (proj2 (Z.eqb_neq _ _)); [done|]. intros ->. by apply Hs.
Qed.

Lemma leadingPads_le s : (leadingPads s ≤ length s)%nat.
Proof. induction s as [|c s IH]; simpl; [lia|]. destruct (c =? 61); lia. Qed.

Lemma padded_valid content p : padded content p → validCanonicalBase64 (content ++ replicate p 61) = true.
Proof.
  intros [Hf Hp]. cbv zeta in Hp. unfold validCanonicalBase64.
  assert (leadingPads (reverse (content ++ replicate p 61)) = p) as ->.
  { rewrite reverse_app, reverse_replicate. apply leadingPads_replicate.
    rewrite head_reverse. intros H. apply last_Some in H as [l' ->].
    apply Forall_app in Hf as [_ [H _]%Forall_cons]. rewrite b64val_pad in H. lia. }
  assert (size (content ++ replicate p 61) mod 4 = 0) as ->.
  { rewrite size_app. unfold size at 2. rewrite length_replicate, Z.add_mod by lia.
    destruct Hp as [[-> ->]|[(-> & -> & _)|(-> & -> & _)]]; done. }
  assert ((2 <? p)%nat = false) as ->. { apply Nat.ltb_ge. destruct Hp as [[-> _]|[[-> _]|[-> _]]]; lia. }
  rewrite length_app, length_replicate. replace (length content + p - p)%nat with (length content) by lia.
  rewrite drop_app_length, take_app_length.
  assert (forallb (λ c, c =? 61) (replicate p 61) = true) as ->.
  { apply forallb_forall. intros c Hc%list_elem_of_In%elem_of_replicate. destruct Hc as [-> _]. done. }
  assert (forallb (λ c, negb (base64Value c <? 0)) content = true) as ->.
  { apply forallb_forall. intros c Hc%list_elem_of_In. rewrite Forall_forall in Hf. specialize (Hf c Hc).
    unfold base64Value. by rewrite nonneg_ltb. }
  cbv zeta. cbn [negb andb Z.eqb]. fold (size content). destruct Hp as [[-> H]|Hp]; [by rewrite H|].
  assert (size content mod 4 ≠ 0) as Hnz by (destruct Hp as [(_ & -> & _)|(_ & -> & _)]; done).
  rewrite lookup_total_app_l by (destruct content; [done|simpl; lia]). unfold base64Value.
  destruct Hp as [(-> & H & Hl)|(-> & H & Hl)]; cbn [Nat.eqb]; by rewrite H, Hl.
Qed.

Lemma valid_canon64 e : validCanonicalBase64 e = true ↔ canon64 e.
Proof.
  split; [|intros (content & p & -> & Hp)%canon_padded; by apply padded_valid].
  unfold validCanonicalBase64. destruct (size e mod 4 =? 0); [|done]. cbn [negb].
  set (p := leadingPads (reverse e)). destruct (2 <? p)%nat eqn:P2; [done|]. apply Nat.ltb_ge in P2.
  assert (p ≤ length e)%nat as Hp by (subst p; rewrite <-(length_reverse e); apply leadingPads_le).
  set (n := (length e - p)%nat).
  destruct (forallb (λ c, c =? 61) (drop n e)) eqn:E1; [|done].
  destruct (forallb _ (take n e)) eqn:E2; [|done]. cbn [negb andb]. intros H.
  rewrite forallb_forall in E1, E2.
  assert (length (take n e) = n) as Hlen by (rewrite length_take; lia).
  assert (e = take n e ++ replicate p 61) as He.
  { rewrite <-(take_drop n e) at 1. f_equal. symmetry. apply replicate_as_Forall. split.
    - rewrite length_drop. lia.
    - apply Forall_forall. intros c Hc%list_elem_of_In%E1. by apply Z.eqb_eq in Hc. }
  rewrite He. apply padded_canon. split.
  { apply Forall_forall. intros c Hc%list_elem_of_In%E2. unfold base64Value in Hc. bools. lia. }
  cbv zeta. unfold size. rewrite Hlen.
  destruct (p =? 0)%nat eqn:P0; [left; apply Nat.eqb_eq in P0; by bools|]. right.
  assert (Z.of_nat n mod 4 ≠ 0) as Hnz.
  { intros Hz. rewrite Hz in H. by destruct (p =? 1)%nat. }
  assert (n ≠ 0)%nat as Hn0 by (intros Hz; rewrite Hz in Hnz; done).
  assert (e !!! (n - 1)%nat = take n e !!! (n - 1)%nat) as Hlast.
  { rewrite !list_lookup_total_alt. by rewrite lookup_take_lt by lia. }
  rewrite Hlast in H. unfold base64Value in H. destruct (p =? 1)%nat eqn:P1.
  - left. apply Nat.eqb_eq in P1. bools. done.
  - right. apply Nat.eqb_neq in P0, P1. bools. split; [lia|done].
Qed.

(** ** Quoted base64 *)

Lemma inner_quoted x : inner (34 :: x ++ [34]) = x.
Proof.
  unfold inner. cbn [length drop]. rewrite length_app, drop_0. cbn [length].
  replace (S (length x + 1) - 2)%nat with (length x) by lia. apply take_app_length.
Qed.

Lemma EncodedLen_mono a b : a ≤ b → EncodedLen a ≤ EncodedLen b.
Proof. intros H. unfold EncodedLen. pose proof (Z.div_le_mono (a + 2) (b + 2) 3). lia. Qed.

Lemma decode64_write l maxDecoded :
  Forall is_byte l → size l ≤ maxDecoded → decodeCanonicalBase64Raw (writeBase64 l) maxDecoded = Ok l.
Proof.
  intros Hl Hs. unfold decodeCanonicalBase64Raw, writeBase64. cbn [app].
  rewrite inner_quoted. rewrite (proj2 (Z.ltb_ge _ _)) by
    (autorewrite with size; pose proof (size_nonneg (b64encode l)); lia).
  rewrite bool_decide_eq_true_2 by done.
  rewrite bool_decide_eq_true_2 by (rewrite last_cons, last_snoc; done). cbn [negb orb].
  rewrite (proj2 (Z.ltb_ge _ _)) by (unfold size at 1; rewrite length_b64encode; by apply EncodedLen_mono).
  rewrite (proj2 (valid_canon64 _)) by by apply canon64_encode. cbn [negb orb]. by rewrite b64_roundtrip.
Qed.

Lemma decode64_Ok raw maxDecoded l :
  decodeCanonicalBase64Raw raw maxDecoded = Ok l → raw = writeBase64 l ∧ Forall is_byte l.
Proof.
  unfold decodeCanonicalBase64Raw. destruct (size raw <? 2) eqn:E1; [done|]. bools.
  destruct (bool_decide (head raw = Some 34)) eqn:E2; [|done].
  destruct (bool_decide (last raw = Some 34)) eqn:E3; [|done]. cbn [negb orb].
  apply bool_decide_eq_true in E2, E3. destruct raw as [|c raw]; [done|]. injection E2 as ->.
  destruct raw as [|c' raw'] using rev_ind; [done|]. clear IHraw'.
  rewrite last_cons, last_snoc in E3. injection E3 as ->. rewrite inner_quoted.
  destruct (EncodedLen maxDecoded <? size raw'); [done|].
  destruct (validCanonicalBase64 raw') eqn:Hv; [|done]. cbn [negb orb].
  apply valid_canon64, canon64_decode in Hv as (l' & -> & Hb & He). intros [= <-]. by rewrite <-He.
Qed.

Lemma stringRaw_write l rest :
  Forall is_byte l → stringRaw (writeBase64 l ++ rest) = Ok (writeBase64 l, rest).
Proof.
  intros Hl. unfold stringRaw, writeBase64. cbn [app]. rewrite <-app_assoc. cbn [app].
  apply stringRawBounded_body; [|by left]. apply scans_plain_all.
  eapply Forall_impl; [by apply b64encode_text|]. unfold b64text. simpl. lia.
Qed.

Lemma parseBase64_write l maxDecoded rest :
  Forall is_byte l → size l ≤ maxDecoded → parseBase64 maxDecoded (writeBase64 l ++ rest) = Ok (l, rest).
Proof. intros Hl Hs. unfold parseBase64. rewrite stringRaw_write by done. by rewrite decode64_write. Qed.

Lemma parseBase64_Ok maxDecoded s l rest :
  parseBase64 maxDecoded s = Ok (l, rest) → s = writeBase64 l ++ rest ∧ Forall is_byte l.
Proof.
  unfold parseBase64, stringRaw. destruct (stringRawBounded 0 s) as [[raw s']|] eqn:E; [|done].
  destruct (decodeCanonicalBase64Raw raw maxDecoded) as [v|] eqn:Ed; [|done]. intros [= -> ->].
  apply stringRawBounded_prefix in E as ->. by apply decode64_Ok in Ed as [-> ?].
Qed.

Lemma parseCiphertext_write l rest :
  Forall is_byte l → size l ≤ MaxPlaintextSize + gcmOverhead →
  parseCiphertext (writeBase64 l ++ rest) = Ok (l, rest).
Proof.
  intros Hl Hs. unfold parseCiphertext. rewrite stringRaw_write by done.
  rewrite (proj2 (Z.ltb_ge _ _)); [by rewrite decode64_write|].
  unfold writeBase64. cbn [app]. rewrite inner_quoted. unfold size at 1. rewrite length_b64encode.
  by apply EncodedLen_mono.
Qed.

Lemma parseCiphertext_Ok s l rest :
  parseCiphertext s = Ok (l, rest) → s = writeBase64 l ++ rest ∧ Forall is_byte l.
Proof.
  intros H. apply (parseBase64_Ok (MaxPlaintextSize + gcmOverhead)). revert H.
  unfold parseCiphertext, parseBase64. destruct (stringRaw s) as [[raw s']|]; [|done]. by destruct (_ <? _).
Qed.

(** ** The sorted context *)

Definition entry_lt (a b : bytes * bytes) : Prop := text_lt a.1 b.1 = true.

#[export] Instance entry_lt_trans : Transitive entry_lt.
Proof. intros a b c. apply text_lt_trans. Qed.

Lemma entry_lt_irrefl a : ¬ entry_lt a a.
Proof. unfold entry_lt. by rewrite text_lt_irrefl. Qed.

Lemma entries_unique l1 l2 :
  StronglySorted entry_lt l1 → StronglySorted entry_lt l2 → l1 ≡ₚ l2 → l1 = l2.
Proof.
  apply StronglySorted_unique_strong. intros a b _ _ H1 H2. exfalso. apply (entry_lt_irrefl a). by etrans.
Qed.

Lemma sinkEntry_perm l e : sinkEntry l e ≡ₚ e :: l.
Proof.
  induction l as [|x l IH]; simpl; [done|]. destruct (text_lt e.1 x.1); [|done].
  rewrite IH. apply Permutation_swap.
Qed.

Lemma sinkEntry_sorted l e :
  StronglySorted (flip entry_lt) l → (∀ x, x ∈ l → x.1 ≠ e.1) → StronglySorted (flip entry_lt) (sinkEntry l e).
Proof.
  induction l as [|x l IH]; intros Hs Hne; simpl; [by repeat constructor|].
  apply StronglySorted_cons in Hs as [Hx Hs]. destruct (text_lt e.1 x.1) eqn:E.
  - apply StronglySorted_cons. split; [|apply IH; [done|]; intros y Hy; apply Hne; by right].
    rewrite sinkEntry_perm. apply Forall_cons. split; [exact E|done].
  - apply StronglySorted_cons. split; [|by apply StronglySorted_cons].
    assert (entry_lt x e) as Hlt.
    { unfold entry_lt. destruct (text_lt_trichotomy x.1 e.1) as [|[|]]; [done| |congruence].
      exfalso. apply (Hne x); [by left|done]. }
    apply Forall_cons. split; [done|]. eapply Forall_impl; [exact Hx|]. simpl. intros y Hy. by etrans.
Qed.

Lemma foldl_sink l acc :
  StronglySorted (flip entry_lt) acc → NoDup ((l ++ acc).*1) →
  foldl sinkEntry acc l ≡ₚ l ++ acc ∧ StronglySorted (flip entry_lt) (foldl sinkEntry acc l).
Proof.
  revert acc. induction l as [|e l IH]; intros acc Hs Hnd; simpl; [done|].
  cbn [app] in Hnd. rewrite fmap_cons in Hnd. apply NoDup_cons in Hnd as [Hni Hnd].
  destruct (IH (sinkEntry acc e)) as [Hp Hs'].
  - apply sinkEntry_sorted; [done|]. intros x Hx Heq. apply Hni. rewrite <-Heq. apply list_elem_of_fmap_2.
    apply elem_of_app. by right.
  - rewrite sinkEntry_perm, <-Permutation_middle, fmap_cons. by apply NoDup_cons.
  - split; [|done]. by rewrite Hp, sinkEntry_perm, <-Permutation_middle.
Qed.

Lemma StronglySorted_flip_reverse {A} (R : relation A) l :
  StronglySorted (flip R) l → StronglySorted R (reverse l).
Proof.
  induction 1 as [|x l Hs IH Hx]; [constructor|]. rewrite reverse_cons. apply StronglySorted_app_2; [|done|by repeat constructor].
  intros a b Ha ->%list_elem_of_singleton. rewrite elem_of_reverse in Ha. rewrite Forall_forall in Hx. by apply Hx.
Qed.

(** Adding entries to a map one by one. *)
Definition addEntries (c : context) (es : list (bytes * bytes)) : context := foldl (λ c e, <[e.1 := e.2]> c) c es.

Lemma sorted_NoDup es : StronglySorted entry_lt es → NoDup (es.*1).
Proof.
  induction 1 as [|e es Hs IH He]; [constructor|]. rewrite fmap_cons. apply NoDup_cons. split; [|done].
  intros (x & Hx & Hin)%list_elem_of_fmap. rewrite Forall_forall in He. specialize (He x Hin).
  unfold entry_lt in He. rewrite Hx, text_lt_irrefl in He. done.
Qed.

Lemma addEntries_union c es : NoDup (es.*1) → addEntries c es = list_to_map es ∪ c.
Proof.
  revert c. induction es as [|[k v] es IH]; intros c Hnd; [symmetry; apply (left_id_L ∅ (∪))|].
  rewrite list_to_map_cons. change (addEntries (<[k := v]> c) es = <[k := v]> (list_to_map es) ∪ c).
  rewrite fmap_cons in Hnd. apply NoDup_cons in Hnd as [Hk Hnd]. change (k ∉ es.*1) in Hk.
  rewrite IH by done. rewrite <-insert_union_l, insert_union_r; [done|].
  by apply not_elem_of_list_to_map_1.
Qed.

(** ** Parsing the context *)

Definition validEntry (e : bytes * bytes) : Prop := utf8 e.1 ∧ utf8 e.2 ∧ e.1 ≠ [].

(** The bytes of the quoted strings of the entries. *)
Definition rawSize (es : list (bytes * bytes)) : Z :=
  foldr (λ e n, size (jsonQuote e.1) + size (jsonQuote e.2) + n) 0 es.

Definition textSize (es : list (bytes * bytes)) : Z := foldr (λ e n, size e.1 + size e.2 + n) 0 es.

#[export] Instance textSize_proper : Proper ((≡ₚ) ==> (=)) textSize.
Proof. unfold textSize. induction 1; simpl; lia. Qed.

Lemma rawSize_nonneg es : 0 ≤ rawSize es.
Proof.
  induction es as [|e es IH]; simpl; [done|]. pose proof (size_nonneg (jsonQuote e.1)).
  pose proof (size_nonneg (jsonQuote e.2)). lia.
Qed.

Lemma textSize_nonneg es : 0 ≤ textSize es.
Proof. induction es as [|e es IH]; simpl; [done|]. pose proof (size_nonneg e.1). pose proof (size_nonneg e.2). lia. Qed.

Lemma rawSize_bound es : Forall validEntry es → rawSize es ≤ textSize es * 6 + 4 * Z.of_nat (length es).
Proof.
  induction 1 as [|e es (Hk & Hv & _) _ IH]; cbn [rawSize textSize foldr length] in *; [done|].
  fold (rawSize es) (textSize es) in *.
  pose proof (size_jsonQuote _ Hk). pose proof (size_jsonQuote _ Hv). lia.
Qed.

Lemma textSize_elem e es : e ∈ es → size e.1 + size e.2 ≤ textSize es.
Proof.
  induction 1 as [e es|e x es _ IH]; cbn [textSize foldr] in *; fold (textSize es) in *.
  - pose proof (textSize_nonneg es). lia.
  - pose proof (size_nonneg x.1). pose proof (size_nonneg x.2). lia.
Qed.

Lemma contextLoop_None total es :
  contextLoop total es = None → Forall validEntry es ∧ (es ≠ [] → total + textSize es ≤ MaxContextSize).
Proof.
  revert total. induction es as [|[k v] es IH]; intros total; [done|]. cbn [contextLoop].
  destruct (ValidString k) eqn:Ek; [|done]. destruct (ValidString v) eqn:Ev; [|done].
  destruct (bool_decide (k = [])) eqn:E0; [done|]. cbn [negb orb].
  destruct (MaxContextSize <? total + (size k + size v)) eqn:Et; [done|]. bools. apply bool_decide_eq_false in E0.
  intros [Hf Hs]%IH. apply ValidString_utf8 in Ek, Ev. split; [by apply Forall_cons|]. intros _.
  cbn [textSize foldr fst snd]. fold (textSize es). destruct es as [|x es]; [simpl; lia|]. specialize (Hs ltac:(done)). lia.
Qed.

Lemma contextString_quote rawBytes v rest :
  utf8 v → size v ≤ MaxContextSize → rawBytes + size (jsonQuote v) ≤ maxContextJSONStringBytes →
  contextString rawBytes (jsonQuote v ++ rest) = Ok ((jsonQuote v, rawBytes + size (jsonQuote v)), rest).
Proof.
  intros Hv Hs Hr. unfold contextString. rewrite stringRaw_quote; [|done|].
  - by rewrite (proj2 (Z.ltb_ge _ _)).
  - right. pose proof (size_jsonQuote v Hv). unfold maxJSONStringBytes, maxJSONStringEscapeBytes. lia.
Qed.

Lemma contextString_Ok rawBytes s raw rawBytes' rest :
  contextString rawBytes s = Ok ((raw, rawBytes'), rest) → s = raw ++ rest.
Proof.
  unfold contextString. destruct (stringRawBounded _ s) as [[raw0 s']|] eqn:E; [|done].
  destruct (_ <? _); [done|]. intros [= <- _ <-]. by apply stringRawBounded_prefix in E.
Qed.

Lemma parseEntry_write rawBytes e rest :
  validEntry e → size e.1 ≤ MaxContextSize → size e.2 ≤ MaxContextSize →
  rawBytes + size (jsonQuote e.1) + size (jsonQuote e.2) ≤ maxContextJSONStringBytes →
  parseEntry rawBytes (writeEntry e ++ rest) =
    Ok ((e.1, e.2, rawBytes + size (jsonQuote e.1) + size (jsonQuote e.2)), 125 :: rest).
Proof.
  intros (Hk & Hv & Hne) Hsk Hsv Hr. unfold parseEntry, writeEntry. rewrite <-!app_assoc.
  pose proof (size_nonneg (jsonQuote e.2)).
  change (lit "{") with [123]. change (lit ":") with [58]. change (lit ",") with [44]. change (lit "}") with [125].
  cbn [app]. rewrite (proj2 (consume_Some _ _ _) eq_refl). cbn [mbind option_bind].
  rewrite fieldName_quoted, contextString_quote, decodeJSON_quote, decide_False by (done || lia).
  rewrite (proj2 (consume_Some _ _ _) eq_refl). cbn [mbind option_bind].
  by rewrite fieldName_quoted, contextString_quote, decodeJSON_quote by (done || lia).
Qed.

Lemma parseEntry_Ok rawBytes s k v rawBytes' rest :
  parseEntry rawBytes s = Ok ((k, v, rawBytes'), 125 :: rest) →
  s = writeEntry (k, v) ++ rest ∧ validEntry (k, v).
Proof.
  unfold parseEntry. destruct (consume 123 s ≫= fieldName "key") as [s1|] eqn:E1; [|done].
  apply bind_Some in E1 as (s0 & ->%consume_Some & ->%fieldName_Some).
  destruct (contextString rawBytes s1) as [[[keyRaw r1] s2]|] eqn:E2; [|done].
  destruct (decodeCanonicalJSONString keyRaw) as [key|] eqn:E3; [|done].
  destruct (decide (key = [])); [done|].
  destruct (consume 44 s2 ≫= fieldName "value") as [s3|] eqn:E4; [|done].
  apply bind_Some in E4 as (s2' & ->%consume_Some & ->%fieldName_Some).
  destruct (contextString r1 s3) as [[[valueRaw r2] s4]|] eqn:E5; [|done].
  destruct (decodeCanonicalJSONString valueRaw) as [value|] eqn:E6; [|done]. intros [= -> -> -> ->].
  apply contextString_Ok in E2 as ->, E5 as ->.
  apply decodeJSON_Ok in E3 as [-> Hk], E6 as [-> Hv]. split; [|done].
  unfold writeEntry. rewrite <-!app_assoc. done.
Qed.

Lemma writeEntries_cons e es :
  writeEntries (e :: es) = writeEntry e ++ match es with [] => [] | _ => 44 :: writeEntries es end.
Proof. destruct es; [by rewrite app_nil_r|done]. Qed.

Lemma entriesLoop_write es fuel first previous rawBytes c rest :
  es ≠ [] → Forall validEntry es → StronglySorted entry_lt es → (length es ≤ fuel)%nat →
  (first = false → Forall (λ e : bytes * bytes, text_lt previous e.1 = true) es) → (∀ e, e ∈ es → c !! e.1 = None) →
  textSize es ≤ MaxContextSize → rawBytes + rawSize es ≤ maxContextJSONStringBytes →
  entriesLoop fuel first previous rawBytes c (writeEntries es ++ 93 :: rest) = Ok (addEntries c es, rest).
Proof.
  revert fuel first previous rawBytes c.
  induction es as [|e es IH]; intros [|fuel] first previous rawBytes c Hne Hv Hs Hlen Hprev Hc Ht Hr;
    cbn [length] in Hlen; try done; try lia.
  apply Forall_cons in Hv as [Hve Hv]. apply StronglySorted_cons in Hs as [He Hs].
  pose proof (textSize_elem e (e :: es) ltac:(by left)) as Hte.
  cbn [rawSize textSize foldr] in Hr, Ht. fold (rawSize es) (textSize es) in Hr, Ht.
  pose proof (rawSize_nonneg es). pose proof (textSize_nonneg es).
  pose proof (size_nonneg e.1). pose proof (size_nonneg e.2).
  cbn [entriesLoop]. rewrite writeEntries_cons, <-app_assoc.
  rewrite parseEntry_write by (done || lia). rewrite (proj2 (consume_Some _ _ _) eq_refl).
  assert (negb first && negb (text_lt previous e.1) = false) as ->.
  { destruct first; [done|]. specialize (Hprev eq_refl). apply Forall_cons in Hprev as [Hp _]. cbv beta in Hp. by rewrite Hp. }
  rewrite Hc by by left. cbv zeta. destruct es as [|e' es].
  - cbn [app]. by rewrite (proj2 (consume_Some _ _ _) eq_refl).
  - cbn [app consume]. change (44 =? 93) with false. change (44 =? 44) with true. cbv iota.
    change (addEntries c (e :: e' :: es)) with (addEntries (<[e.1:=e.2]> c) (e' :: es)).
    apply IH; try done; try lia.
    intros x Hx. rewrite lookup_insert_ne; [apply Hc; by right|].
    rewrite Forall_forall in He. specialize (He x Hx). intros Heq. unfold entry_lt in He.
    by rewrite Heq, text_lt_irrefl in He.
Qed.

Lemma entriesLoop_Ok fuel first previous rawBytes c s c' rest :
  entriesLoop fuel first previous rawBytes c s = Ok (c', rest) →
  ∃ es, es ≠ [] ∧ s = writeEntries es ++ 93 :: rest ∧ c' = addEntries c es ∧ StronglySorted entry_lt es ∧
        Forall validEntry es ∧ (first = false → Forall (λ e : bytes * bytes, text_lt previous e.1 = true) es).
Proof.
  revert first previous rawBytes c s. induction fuel as [|fuel IH]; intros first previous rawBytes c s; [done|].
  cbn [entriesLoop]. destruct (parseEntry rawBytes s) as [[[[k v] r1] s1]|] eqn:Ep; [|done].
  destruct (consume 125 s1) as [s2|] eqn:E1; [|done]. apply consume_Some in E1 as ->.
  apply parseEntry_Ok in Ep as [-> Hv]. destruct (negb first && negb (text_lt previous k)) eqn:Ef; [done|].
  assert (first = false → text_lt previous k = true) as Hk.
  { intros ->. cbn [negb andb] in Ef. by apply negb_false_iff in Ef. }
  destruct (c !! k); [done|]. destruct (consume 93 s2) as [s3|] eqn:E2.
  - apply consume_Some in E2 as ->. intros [= <- <-]. exists [(k, v)]. do 3 (split; [done|]).
    split; [by repeat constructor|]. split; [by apply Forall_singleton|].
    intros Hf. apply Forall_singleton. by apply Hk.
  - destruct (consume 44 s2) as [s3|] eqn:E3; [|done]. apply consume_Some in E3 as ->.
    intros (es & Hne & -> & -> & Hs & Hve & Hp)%IH. specialize (Hp eq_refl).
    exists ((k, v) :: es). split_and!; try done.
    + rewrite writeEntries_cons, <-app_assoc. destruct es; [done|]. done.
    + apply StronglySorted_cons. split; [|done]. exact Hp.
    + by apply Forall_cons.
    + intros Hf. apply Forall_cons. split; [by apply Hk|]. eapply Forall_impl; [exact Hp|].
      intros e He. simpl in *. eapply text_lt_trans; [by apply Hk|done].
Qed.

(** ** Fields and the version *)

Lemma parseField_write {A} first name (value : bytes → parsed A) s :
  plainName name = true →
  parseField first name value ((if first then [] else [44]) ++ quoted name ++ 58 :: s) = value s.
Proof.
  intros Hp. unfold parseField. destruct first; cbn [app].
  - by rewrite fieldName_quoted.
  - rewrite (proj2 (consume_Some _ _ _) eq_refl). by rewrite fieldName_quoted.
Qed.

Lemma parseField_next {A} name (value : bytes → parsed A) s :
  plainName name = true → parseField false name value (44 :: quoted name ++ 58 :: s) = value s.
Proof. apply (parseField_write false). Qed.

Lemma parseField_Ok {A} first name (value : bytes → parsed A) s r :
  parseField first name value s = Ok r →
  ∃ s', s = (if first then [] else [44]) ++ quoted name ++ 58 :: s' ∧ value s' = Ok r.
Proof.
  unfold parseField. destruct first.
  - destruct (fieldName name s) as [s'|] eqn:E; [|done]. apply fieldName_Some in E as ->. eauto.
  - destruct (consume 44 s) as [s1|] eqn:E1; [|done]. apply consume_Some in E1 as ->.
    destruct (fieldName name s1) as [s'|] eqn:E; [|done]. apply fieldName_Some in E as ->. eauto.
Qed.

Lemma takeDigits_prefix s : s = takeDigits s ++ drop (length (takeDigits s)) s.
Proof. induction s as [|c s IH]; [done|]. cbn [takeDigits]. destruct (isDigit c); [|done]. cbn [length drop app]. by rewrite <-IH. Qed.

Lemma takeDigits_digits s : Forall (λ c, 48 ≤ c ≤ 57) (takeDigits s).
Proof.
  induction s as [|c s IH]; cbn [takeDigits]; [constructor|]. unfold isDigit. destruct (_ && _) eqn:E; [|constructor].
  bools. by constructor.
Qed.

Lemma digits_grow ds a : Forall (λ c, 48 ≤ c ≤ 57) ds → 0 ≤ a → a ≤ foldl (λ v d, v * 10 + (d - 48)) a ds.
Proof. intros Hd. revert a. induction Hd as [|d ds ? _ IH]; intros a Ha; simpl; [lia|]. etrans; [|apply IH]; lia. Qed.

Lemma one_digit ds : Forall (λ c, 48 ≤ c ≤ 57) ds → jsonUint8 ds = Some 1 → ds = [49].
Proof.
  intros Hd. unfold jsonUint8. destruct ds as [|d ds]; [done|]. destruct (_ && _) eqn:E0; [done|].
  destruct (_ <=? 255); [|done]. intros [= H]. apply Forall_cons in Hd as [Hd0 Hd].
  unfold digitsValue in H. cbn [foldl] in H. destruct ds as [|d' ds]; [simpl in H; f_equal; lia|exfalso].
  apply Forall_cons in Hd as [Hd1 Hd]. rewrite bool_decide_eq_false_2, andb_true_r in E0 by done. bools.
  cbn [foldl] in H. pose proof (digits_grow ds ((0 * 10 + (d - 48)) * 10 + (d' - 48)) Hd). lia.
Qed.

Lemma parseVersion_Ok s v rest : parseVersion s = Ok (v, rest) → v = 1 ∧ s = 49 :: rest.
Proof.
  unfold parseVersion, parseUint8. destruct (takeDigits s) as [|d ds] eqn:E; [done|]. rewrite <-E.
  destruct (jsonUint8 (takeDigits s)) as [v'|] eqn:Ej; [|done].
  destruct (v' =? EnvelopeVersion) eqn:Ev; [|done]. intros [= -> <-]. bools. subst v. unfold EnvelopeVersion in *.
  apply one_digit in Ej; [|apply takeDigits_digits]. split; [done|].
  rewrite (takeDigits_prefix s) at 1. by rewrite Ej.
Qed.

Lemma parseAlgorithm_Ok s a rest :
  parseAlgorithm s = Ok (a, rest) → a = AlgorithmAES256GCM ∧ s = jsonQuote AlgorithmAES256GCM ++ rest.
Proof.
  unfold parseAlgorithm. destruct (parseString _ s) as [[a' s']|] eqn:E; [|done].
  destruct (bool_decide _) eqn:Ea; [|done]. intros [= -> ->]. apply bool_decide_eq_true in Ea as ->.
  by apply parseString_Ok in E as [-> _].
Qed.

Lemma algorithm_quote : quoted "AES-256-GCM" = jsonQuote AlgorithmAES256GCM.
Proof. by vm_compute. Qed.

Lemma parseAlgorithm_write rest : parseAlgorithm (quoted "AES-256-GCM" ++ rest) = Ok (AlgorithmAES256GCM, rest).
Proof.
  unfold parseAlgorithm. rewrite algorithm_quote, parseString_quote; [done| |by right; vm_compute].
  apply ValidString_utf8. by vm_compute.
Qed.

(** ** The envelope *)

Section canonical.
Context (visit : context → list (bytes * bytes)).
Hypothesis visit_perm : ∀ c, visit c ≡ₚ map_to_list c.

Lemma visit_NoDup c : NoDup ((visit c).*1).
Proof. rewrite visit_perm. apply NoDup_fst_map_to_list. Qed.

Lemma contextEntries_spec c :
  contextEntries visit c ≡ₚ visit c ∧ StronglySorted entry_lt (contextEntries visit c).
Proof.
  unfold contextEntries. destruct (foldl_sink (visit c) []) as [Hp Hs]; [constructor| |].
  { rewrite app_nil_r. apply visit_NoDup. }
  split; [by rewrite reverse_Permutation, Hp, app_nil_r|by apply StronglySorted_flip_reverse].
Qed.

Lemma addEntries_contextEntries c : addEntries ∅ (contextEntries visit c) = c.
Proof.
  destruct (contextEntries_spec c) as [Hp Hs]. rewrite addEntries_union by by apply sorted_NoDup.
  rewrite (right_id_L ∅ (∪)).
  rewrite (list_to_map_proper _ (map_to_list c)); [apply list_to_map_to_list| |by rewrite Hp].
  by apply sorted_NoDup.
Qed.

Lemma contextEntries_addEntries es : StronglySorted entry_lt es → contextEntries visit (addEntries ∅ es) = es.
Proof.
  intros Hs. pose proof (sorted_NoDup _ Hs) as Hnd. destruct (contextEntries_spec (addEntries ∅ es)) as [Hp Hs'].
  apply entries_unique; [done..|]. rewrite Hp, visit_perm, addEntries_union by done.
  rewrite (right_id_L ∅ (∪)). by apply map_to_list_to_map.
Qed.

Lemma validateContext_None c :
  validateContext visit c = None →
  Forall validEntry (contextEntries visit c) ∧ textSize (contextEntries visit c) ≤ MaxContextSize ∧
  (length (contextEntries visit c) ≤ MaxContextEntries)%nat.
Proof.
  destruct (contextEntries_spec c) as [Hp _]. unfold validateContext. cbv zeta.
  destruct (_ <? _)%nat eqn:E; [done|]. apply Nat.ltb_ge in E. intros [Hv Hs]%contextLoop_None.
  split; [by rewrite Hp|]. split; [|by rewrite (Permutation_length Hp)].
  rewrite (textSize_proper _ _ Hp). destruct (visit c); [done|]. specialize (Hs ltac:(done)). lia.
Qed.

Lemma parseContext_write c rest :
  validateContext visit c = None →
  parseContext visit (91 :: writeEntries (contextEntries visit c) ++ 93 :: rest) = Ok (c, rest).
Proof.
  intros Hc. destruct (validateContext_None c Hc) as (Hv & Ht & Hl).
  destruct (contextEntries_spec c) as [_ Hs]. unfold parseContext.
  rewrite (proj2 (consume_Some _ _ _) eq_refl).
  destruct (contextEntries visit c) as [|e es] eqn:E.
  - cbn [writeEntries app]. rewrite (proj2 (consume_Some _ _ _) eq_refl).
    rewrite <-(addEntries_contextEntries c), E. done.
  - rewrite <-E in *.
    assert (consume 93 (writeEntries (contextEntries visit c) ++ 93 :: rest) = None) as ->.
    { rewrite E, writeEntries_cons. done. }
    rewrite entriesLoop_write; try done.
    + by rewrite addEntries_contextEntries, Hc.
    + by rewrite E.
    + pose proof (rawSize_bound _ Hv). unfold maxContextJSONStringBytes, maxJSONStringEscapeBytes, MaxContextSize in *.
      unfold MaxContextEntries in *. lia.
Qed.

Lemma parseContext_Ok s c rest :
  parseContext visit s = Ok (c, rest) → s = 91 :: writeEntries (contextEntries visit c) ++ 93 :: rest.
Proof.
  unfold parseContext. destruct (consume 91 s) as [s1|] eqn:E1; [|done]. apply consume_Some in E1 as ->.
  destruct (consume 93 s1) as [s2|] eqn:E2.
  - apply consume_Some in E2 as ->. intros [= <- <-].
    change (∅ : context) with (addEntries ∅ []). by rewrite contextEntries_addEntries by constructor.
  - destruct (entriesLoop _ _ _ _ _ s1) as [[c' s2]|] eqn:E3; [|done].
    destruct (validateContext visit c') eqn:Ev; [done|]. intros [= -> ->].
    apply entriesLoop_Ok in E3 as (es & _ & -> & -> & Hs & _). by rewrite contextEntries_addEntries.
Qed.

(** What the types of the fields say: the byte slices hold bytes. *)
Definition typedEnvelope (e : Envelope) : Prop :=
  Forall is_byte (EncryptedDataKey e) ∧ Forall is_byte (Nonce e) ∧ Forall is_byte (Ciphertext e).

Lemma validateMetadata_None e :
  validateMetadata visit e = None →
  Version e = 1 ∧ Algorithm e = AlgorithmAES256GCM ∧ utf8 (KeyID e) ∧ size (KeyID e) ≤ MaxKeyIDSize ∧
  size (EncryptedDataKey e) ≤ MaxEncryptedDataKeySize ∧ validateContext visit (EncryptionContext e) = None.
Proof.
  unfold validateMetadata. destruct (Version e =? EnvelopeVersion) eqn:E1; [|done].
  destruct (bool_decide (Algorithm e = _)) eqn:E2; [|done].
  destruct (ValidString (KeyID e)) eqn:E3; [|done]. destruct (bool_decide (TrimSpace _ = [])); [done|].
  destruct (MaxKeyIDSize <? size (KeyID e)) eqn:E4; [done|].
  destruct (size (EncryptedDataKey e) =? 0); [done|].
  destruct (MaxEncryptedDataKeySize <? size (EncryptedDataKey e)) eqn:E5; [done|]. cbn [negb orb].
  intros Hc. apply bool_decide_eq_true in E2. apply ValidString_utf8 in E3. bools. done.
Qed.

Lemma validateEnvelope_None e :
  validateEnvelope visit e = None →
  validateMetadata visit e = None ∧ size (Nonce e) = gcmNonceSize ∧
  size (Ciphertext e) ≤ MaxPlaintextSize + gcmOverhead.
Proof.
  unfold validateEnvelope. destruct (validateMetadata visit e); [done|].
  destruct (size (Nonce e) =? gcmNonceSize) eqn:E1; [|done]. destruct (_ <? gcmOverhead); [done|]. cbn [negb].
  destruct (MaxPlaintextSize <? _) eqn:E2; [done|]. bools. intros _. split_and!; [done..|lia].
Qed.

(** The written fields, with the separators in front of their names. *)
Lemma envelopeJSON_shape e :
  envelopeJSON visit e =
  123 :: [] ++ quoted "version" ++ 58 :: [49] ++
  [44] ++ quoted "algorithm" ++ 58 :: jsonQuote AlgorithmAES256GCM ++
  [44] ++ quoted "key_id" ++ 58 :: jsonQuote (KeyID e) ++
  [44] ++ quoted "encrypted_data_key" ++ 58 :: writeBase64 (EncryptedDataKey e) ++
  [44] ++ quoted "encryption_context" ++ 58 :: 91 :: writeEntries (contextEntries visit (EncryptionContext e)) ++ 93 ::
  [44] ++ quoted "nonce" ++ 58 :: writeBase64 (Nonce e) ++
  [44] ++ quoted "ciphertext" ++ 58 :: writeBase64 (Ciphertext e) ++ [125].
Proof.
  unfold envelopeJSON. rewrite algorithm_quote. cbn [app].
  change (lit "{") with [123]. change (lit ":1,") with [58; 49; 44]. change (lit ":") with [58].
  change (lit ",") with [44]. change (lit ":[") with [58; 91]. change (lit "],") with [93; 44].
  change (lit "}") with [125]. cbn [app]. done.
Qed.

Lemma parse_marshal e :
  typedEnvelope e → validateEnvelope visit e = None → parseCanonicalEnvelope visit (envelopeJSON visit e) = Ok e.
Proof.
  intros (Hk & Hn & Hc) Hv. destruct (validateEnvelope_None e Hv) as (Hm & Hns & Hcs).
  destruct (validateMetadata_None e Hm) as (Hver & Halg & Hid & Hids & Hdk & Hctx).
  rewrite envelopeJSON_shape. unfold parseCanonicalEnvelope. rewrite (proj2 (consume_Some _ _ _) eq_refl).
  rewrite (parseField_write true "version") by done.
  assert (∀ s, parseVersion (49 :: 44 :: s) = Ok (1, 44 :: s)) as Hpv by done.
  cbn [app]. rewrite Hpv. cbn [pbind].
  rewrite (parseField_next "algorithm") by done. rewrite <-algorithm_quote, parseAlgorithm_write. cbn [pbind].
  rewrite (parseField_next "key_id") by done.
  rewrite parseString_quote; [|done|].
  2: { right. pose proof (size_jsonQuote _ Hid). unfold maxJSONStringBytes, maxJSONStringEscapeBytes. lia. }
  cbn [pbind]. rewrite (parseField_next "encrypted_data_key"), parseBase64_write by done. cbn [pbind].
  rewrite (parseField_next "encryption_context"), parseContext_write by done. cbn [pbind].
  rewrite (parseField_next "nonce"), parseBase64_write by (done || lia). cbn [pbind].
  rewrite (parseField_next "ciphertext"), parseCiphertext_write by done. cbn [pbind].
  rewrite (proj2 (consume_Some _ _ _) eq_refl). rewrite <-Hver, <-Halg. by destruct e.
Qed.

Lemma parse_canonical data e :
  parseCanonicalEnvelope visit data = Ok e → data = envelopeJSON visit e ∧ typedEnvelope e.
Proof.
  unfold parseCanonicalEnvelope. destruct (consume 123 data) as [s0|] eqn:E0; [|done]. apply consume_Some in E0 as ->.
  destruct (parseField true "version" _ s0) as [[ver s1]|] eqn:E1; [|done]. cbn [pbind].
  apply parseField_Ok in E1 as (t1 & -> & [-> ->]%parseVersion_Ok).
  destruct (parseField false "algorithm" _ s1) as [[alg s2]|] eqn:E2; [|done]. cbn [pbind].
  apply parseField_Ok in E2 as (t2 & -> & [-> ->]%parseAlgorithm_Ok).
  destruct (parseField false "key_id" _ s2) as [[kid s3]|] eqn:E3; [|done]. cbn [pbind].
  apply parseField_Ok in E3 as (t3 & -> & [-> _]%parseString_Ok).
  destruct (parseField false "encrypted_data_key" _ s3) as [[dk s4]|] eqn:E4; [|done]. cbn [pbind].
  apply parseField_Ok in E4 as (t4 & -> & [-> Hdk]%parseBase64_Ok).
  destruct (parseField false "encryption_context" _ s4) as [[c s5]|] eqn:E5; [|done]. cbn [pbind].
  apply parseField_Ok in E5 as (t5 & -> & ->%parseContext_Ok).
  destruct (parseField false "nonce" _ s5) as [[n s6]|] eqn:E6; [|done]. cbn [pbind].
  apply parseField_Ok in E6 as (t6 & -> & [-> Hn]%parseBase64_Ok).
  destruct (parseField false "ciphertext" _ s6) as [[ct s7]|] eqn:E7; [|done]. cbn [pbind].
  apply parseField_Ok in E7 as (t7 & -> & [-> Hct]%parseCiphertext_Ok).
  destruct (consume 125 s7) as [[|]|] eqn:E8; [|done..]. apply consume_Some in E8 as ->. intros [= <-].
  split; [|done]. by rewrite envelopeJSON_shape.
Qed.

Lemma lit_utf8 l : forallb (λ b, (0 <=? b) && (b <? 128)) l = true → utf8 l.
Proof.
  intros H. apply utf8_ascii, Forall_forall. rewrite forallb_forall in H.
  intros b Hb%list_elem_of_In%H. bools. done.
Qed.

Lemma base64_utf8 l : Forall is_byte l → utf8 (writeBase64 l).
Proof.
  intros Hl. unfold writeBase64. apply utf8_app; [by apply lit_utf8; vm_compute|].
  apply utf8_app; [|by apply lit_utf8; vm_compute].
  apply utf8_ascii. eapply Forall_impl; [by apply b64encode_text|]. unfold b64text. simpl. lia.
Qed.

(** Splits a concatenation into literals and encoded values. *)
Ltac utf8_pieces :=
  repeat lazymatch goal with
  | |- utf8 (_ ++ _) => apply utf8_app
  | |- utf8 (jsonQuote _) => by apply jsonQuote_utf8
  | |- utf8 (writeBase64 _) => by apply base64_utf8
  | |- utf8 (lit _) => by apply lit_utf8; vm_compute
  | |- utf8 (quoted _) => by apply lit_utf8; vm_compute
  | |- utf8 (writeEntries _) => assumption
  end.

Lemma writeEntries_utf8 es : Forall validEntry es → utf8 (writeEntries es).
Proof.
  induction 1 as [|e es (Hk & Hv & _) _ IH]; [constructor|]. rewrite writeEntries_cons.
  apply utf8_app; [unfold writeEntry; utf8_pieces|]. destruct es; [constructor|].
  apply (utf8_app [44]); [by apply lit_utf8; vm_compute|done].
Qed.

Lemma envelopeJSON_utf8 e :
  typedEnvelope e → validateEnvelope visit e = None → utf8 (envelopeJSON visit e).
Proof.
  intros (Hk & Hn & Hc) Hv. destruct (validateEnvelope_None e Hv) as (Hm & _).
  destruct (validateMetadata_None e Hm) as (_ & _ & Hid & _ & _ & Hctx).
  assert (utf8 (writeEntries (contextEntries visit (EncryptionContext e)))) as Hes
    by by apply writeEntries_utf8, validateContext_None.
  unfold envelopeJSON. utf8_pieces.
Qed.

Lemma ParseEnvelope_MarshalBinary e data :
  typedEnvelope e → MarshalBinary visit e = Ok data → ParseEnvelope visit data = Ok e.
Proof.
  unfold MarshalBinary. intros Ht. destruct (validateEnvelope visit e) eqn:Hv; [done|].
  destruct (MaxEnvelopeSize <? size (envelopeMagic ++ envelopeJSON visit e)) eqn:Es; [done|]. intros Hd.
  assert (data = envelopeMagic ++ envelopeJSON visit e) as -> by congruence.
  unfold ParseEnvelope. rewrite Es, take_app_length, drop_app_length.
  rewrite (proj2 (Z.leb_gt _ _)), bool_decide_eq_true_2 by
    (done || (rewrite envelopeJSON_shape; autorewrite with size;
              match goal with |- context [size ?x] => pose proof (size_nonneg x) end; unfold size; lia)).
  cbn [negb orb]. rewrite (proj2 (ValidString_utf8 _)) by by apply envelopeJSON_utf8. cbn [negb].
  by rewrite parse_marshal, Hv.
Qed.

Lemma ParseEnvelope_canonical e data :
  ParseEnvelope visit data = Ok e → MarshalBinary visit e = Ok data ∧ typedEnvelope e.
Proof.
  unfold ParseEnvelope. destruct (MaxEnvelopeSize <? size data) eqn:Es; [done|].
  destruct (size data <=? size envelopeMagic); [done|].
  destruct (bool_decide (take (length envelopeMagic) data = envelopeMagic)) eqn:Em; [|done]. cbn [negb orb].
  destruct (ValidString _); [|done]. cbn [negb].
  destruct (parseCanonicalEnvelope visit (drop (length envelopeMagic) data)) as [e'|err] eqn:Ep.
  2: { destruct (errors_Is err ErrInputTooLarge); [done|]. by destruct (_ || _). }
  destruct (validateEnvelope visit e') eqn:Hv; [done|]. intros [= ->].
  apply parse_canonical in Ep as [Ej Ht]. apply bool_decide_eq_true in Em. split; [|done].
  assert (envelopeMagic ++ envelopeJSON visit e = data) as Heq.
  { rewrite <-Ej. transitivity (take (length envelopeMagic) data ++ drop (length envelopeMagic) data).
    - by rewrite Em.
    - apply take_drop. }
  unfold MarshalBinary. cbv zeta. by rewrite Hv, Heq, Es.
Qed.

(** C10. The BTKMS format is canonical, whatever order Go ranges over a context
    map in.  Parsing reads back every envelope that can be written; and it
    accepts only bytes that are exactly what writing the parsed envelope
    produces, so two different byte strings never parse to the same envelope
    and an envelope has one representation. *)
Theorem envelope_canonical e data :
  (typedEnvelope e → MarshalBinary visit e = Ok data → ParseEnvelope visit data = Ok e) ∧
  (ParseEnvelope visit data = Ok e → MarshalBinary visit e = Ok data ∧ typedEnvelope e).
Proof.
  split; [apply ParseEnvelope_MarshalBinary|apply ParseEnvelope_canonical].
Qed.
End canonical.

(** ** Associated data *)

Lemma putUint32_inj a b : 0 ≤ a < 4294967296 → 0 ≤ b < 4294967296 → putUint32 a = putUint32 b → a = b.
Proof. unfold putUint32. intros Ha Hb [= H1 H2 H3 H4]. Z.div_mod_to_equations. lia. Qed.

(** The associated data determines the metadata and the caller's data: the
    length prefixes leave no ambiguity. *)
Lemma associated_data_injective m1 a1 m2 a2 d :
  buildAssociatedData m1 a1 = Ok d → buildAssociatedData m2 a2 = Ok d → m1 = m2 ∧ a1 = a2.
Proof.
  unfold buildAssociatedData, MaxEnvelopeSize, MaxAssociatedDataSize. intros H1 H2.
  destruct (_ || _) eqn:E1 in H1; [done|]. destruct (_ || _) eqn:E2 in H2; [done|]. bools.
  pose proof (size_nonneg m1). pose proof (size_nonneg m2). pose proof (size_nonneg a1). pose proof (size_nonneg a2).
  assert (∀ m a, Ok (lit "BTKMS-AAD" ++ [1] ++ putUint32 (size m) ++ m ++ putUint32 (size a) ++ a) = Ok d →
    d = lit "BTKMS-AAD" ++ [1] ++ putUint32 (size m) ++ m ++ putUint32 (size a) ++ a) as Hok by congruence.
  apply Hok in H1. apply Hok in H2. rewrite H1 in H2. clear Hok H1.
  apply app_inj_1 in H2 as [_ H2]; [|done]. apply app_inj_1 in H2 as [_ H2]; [|done].
  apply app_inj_1 in H2 as [Hs H2]; [|done]. apply putUint32_inj in Hs; [|lia..].
  unfold size in Hs. apply app_inj_1 in H2 as [-> H2]; [|lia].
  apply app_inj_1 in H2 as [_ ->]; [|done]. done.
Qed.

(** A context of two entries, ranged over backwards. *)
Definition sampleEnvelope : Envelope :=
  mkEnvelope 1 AlgorithmAES256GCM (lit "alias/<k>") [1; 255; 7] {[ lit "b" := []; lit "a" := [195; 169] ]}
    (replicate 12 9) (replicate 17 200).
Definition backwards (c : context) : list (bytes * bytes) := reverse (map_to_list c).
Definition sampleWire : bytes := match MarshalBinary backwards sampleEnvelope with Ok d => d | Fail _ => [] end.

Lemma envelope_canonical_witness : ParseEnvelope backwards sampleWire = Ok sampleEnvelope ∧ length sampleWire = 241%nat.
Proof.
  split; [|vm_compute; reflexivity].
  apply (envelope_canonical backwards (λ c, reverse_Permutation (map_to_list c)) sampleEnvelope sampleWire).
  - split; [|split]; (repeat (apply Forall_cons; split; [unfold is_byte; lia|])); apply Forall_nil; exact I.
  - vm_compute. reflexivity.
Defined.
