(* ===== verification/SqlCheckpoint.v ===== *)
(** * batch/sqlcheckpoint: the PostgreSQL checkpoint writer

    [Writer.Load] and [Writer.Commit] over a transaction of PostgreSQL, with the
    savepoint that guards the caller's callback, the ownership probe after it,
    the compare-and-swap statements on the checkpoint row and the
    classification of every failure.  The meaning of the checkpoint statements
    on a table is written out; transactions are an interface with the laws of
    [Postgres].  The writer then keeps the promise [AtomicStore] of the batch
    step, which gives exactly-once output on a database. *)

From S2P Require Import Prelude GoError GoText GoEncoding Batch BatchStep BatchAtomic.

Local Open Scope Z_scope.

Notation payload := (list Z).

(** ** Options *)

Definition DefaultMaxKeyBytes : Z := 512.
Definition MaxKeyBytes : Z := 1024.
Definition DefaultMaxPayloadBytes : Z := 1048576.
Definition MaxPayloadBytes : Z := 16777216.
Definition maxNamespaceBytes : Z := 128.

Definition errNamespaceTooLong : error := Sentinel "sqlcheckpoint.errNamespaceTooLong".
Definition errMaxKeyBytes : error := Sentinel "sqlcheckpoint.errMaxKeyBytes".
Definition errMaxPayloadBytes : error := Sentinel "sqlcheckpoint.errMaxPayloadBytes".
Definition errWriterUninitialized : error := Sentinel "sqlcheckpoint.errWriterUninitialized".
Definition errEmptyKey : error := Sentinel "sqlcheckpoint.errEmptyKey".
Definition errKeyTooLong : error := Sentinel "sqlcheckpoint.errKeyTooLong".
Definition errInvalidStoredRevision : error := Sentinel "sqlcheckpoint.errInvalidStoredRevision".
Definition errNegativeStoredPayloadSize : error := Sentinel "sqlcheckpoint.errNegativeStoredPayloadSize".
Definition errStoredPayloadTooLarge : error := Sentinel "sqlcheckpoint.errStoredPayloadTooLarge".
Definition errStoredPayloadSizeMismatch : error := Sentinel "sqlcheckpoint.errStoredPayloadSizeMismatch".
Definition errExpectedVersionRange : error := Sentinel "sqlcheckpoint.errExpectedVersionRange".
Definition errCheckpointType : error := Sentinel "sqlcheckpoint.errCheckpointType".
Definition errEncodedPayloadTooLarge : error := Sentinel "sqlcheckpoint.errEncodedPayloadTooLarge".
Definition ErrCallbackContractViolation : error := Sentinel "sqlcheckpoint.ErrCallbackContractViolation".
Definition ErrCheckpointVersionExhausted : error := Sentinel "batch.ErrCheckpointVersionExhausted".

Record Options := mkOptions { Namespace : string; o_MaxKeyBytes : Z; o_MaxPayloadBytes : Z }.

Record normalizedOptions := mkNormalized { namespace : string; maxKeyBytes : Z; maxPayloadBytes : Z }.

(** [len] of the bytes of a string. *)
Definition len (s : string) : Z := Z.of_nat (String.length s).

Definition normalize (options : Options) : result normalizedOptions :=
  let namespace := if len (Namespace options) =? 0 then "default"%string else Namespace options in
  if maxNamespaceBytes <? len namespace then Fail errNamespaceTooLong
  else
    let maxKeyBytes := if o_MaxKeyBytes options =? 0 then DefaultMaxKeyBytes else o_MaxKeyBytes options in
    if (maxKeyBytes <? 1) || (MaxKeyBytes <? maxKeyBytes) then Fail errMaxKeyBytes
    else
      let maxPayloadBytes :=
        if o_MaxPayloadBytes options =? 0 then DefaultMaxPayloadBytes else o_MaxPayloadBytes options in
      if (maxPayloadBytes <? 1) || (MaxPayloadBytes <? maxPayloadBytes) then Fail errMaxPayloadBytes
      else Ok (mkNormalized namespace maxKeyBytes maxPayloadBytes).

(** ** The table and its statements *)

(** The committed contents of a database: the rows of
    [bluetape_batch_checkpoints] with their revision, which the schema checks to
    be positive, and payload; and the tables of the application. *)
Record Database (A : Type) := mkDatabase {
  rows : gmap (string * string) (positive * payload);
  app : A
}.
Arguments mkDatabase {A} _ _.
Arguments rows {A} _.
Arguments app {A} _.

(** The statements that [ScanRevision] runs, with their arguments. *)
Inductive checkpointSQL : Type :=
| insertCheckpointSQL (namespace key : string) (p : payload)
| updateCheckpointSQL (namespace key : string) (p : payload) (revision : Z).

(** The row a statement returns, if any, and what it leaves. *)
Definition runCheckpoint {A} (query : checkpointSQL) (d : Database A) : option (Z * Database A) :=
  match query with
  | insertCheckpointSQL ns key p =>
      match rows d !! (ns, key) with
      | Some _ => None
      | None => Some (1, mkDatabase (<[(ns, key) := (1%positive, p)]> (rows d)) (app d))
      end
  | updateCheckpointSQL ns key p revision =>
      match rows d !! (ns, key) with
      | Some (r, _) =>
          if Z.pos r =? revision
          then Some (Z.pos r + 1, mkDatabase (<[(ns, key) := ((r + 1)%positive, p)]> (rows d)) (app d))
          else None
      | None => None
      end
  end.

(** [loadSQL]: revision, size and the payload unless it is too large. *)
Definition loadSQL {A} (d : Database A) (ns key : string) (limit : Z) : option (Z * Z * payload) :=
  match rows d !! (ns, key) with
  | None => None
  | Some (revision, p) =>
      let size := Z.of_nat (length p) in
      Some (Z.pos revision, size, if size <=? limit then p else [])
  end.

Definition savepointSQL : string := "savepoint bluetape_sqlcheckpoint_guard".
Definition releaseSavepointSQL : string := "release savepoint bluetape_sqlcheckpoint_guard".
Definition rollbackToSavepointSQL : string := "rollback to savepoint bluetape_sqlcheckpoint_guard".
Definition guardSQL : list string := [savepointSQL; releaseSavepointSQL; rollbackToSavepointSQL].

(** ** Errors *)

Definition OperationLoad : string := "load".
Definition OperationBegin : string := "begin".
Definition OperationSavepoint : string := "savepoint".
Definition OperationCallback : string := "callback".
Definition OperationOwnershipProbe : string := "ownership probe".
Definition OperationCheckpoint : string := "checkpoint".
Definition OperationCommit : string := "commit".
Definition OperationRollback : string := "rollback".

Definition ErrNoRows : error := Sentinel "sql.ErrNoRows".
Definition ErrTxDone : error := Sentinel "sql.ErrTxDone".

Definition newCodecError (operation : string) (err : error) : error :=
  Typed "sqlcheckpoint.CodecError" [FStr operation] [] (Some err).

Definition hexEncode (bs : list Z) : list Z := bs ≫= λ b, [hexDigit (b / 16); hexDigit (b mod 16)].

(** The outcome of a call that can panic. *)
Inductive outcome (P A : Type) : Type :=
| Returned (a : A)
| Panicked (value : P).
Arguments Returned {P A} a.
Arguments Panicked {P A} value.

(** What [Commit] panics with: the value of the callback, or an
    [*AtomicityPanic] that holds it. *)
Inductive panic (P : Type) : Type :=
| PanicValue (value : P)
| AtomicityPanic (value : P).
Arguments PanicValue {P} value.
Arguments AtomicityPanic {P} value.

Section writer.
Context {W T C K P A : Type}.

(** [hash.Sum] of [crypto/sha256]. *)
Variable sha256 : list Z → list Z.
(** The code of the [*pgconn.PgError] that [errors.As] finds. *)
Variable pgError : error → option string.
(** [context.WithTimeout] *)
Variable WithTimeout : Context W → Z → Context W.
(** Go's interface conversion: [box c] is the [any] that holds [c], [unbox] the
    type assertion [.(C)]. *)
Variables (box : C → K) (unbox : K → option C).

Definition redactedKeyID (ns key : string) : list Z :=
  lit "sql-checkpoint-key:" ++ hexEncode (take 10 (sha256 (putUint64 (len ns) ++ lit ns ++ lit key))).

Definition newOperationError (operation ns key : string) (err : option error) : error :=
  Typed "sqlcheckpoint.OpError" [FStr operation; fieldOf (redactedKeyID ns key)] [] err.

(** [sqlkit.Session] as far as the package uses it. *)
Record Session := mkSession { ExecContext : Context W → string → Call W (option error) }.

Record transaction := mkTransaction {
  session : Session;
  ScanRevision : Context W → checkpointSQL → Call W (result Z);
  tx_Commit : Call W (option error);
  Rollback : Call W (option error)
}.

Record Codec := mkCodec { Encode : C → result payload; Decode : payload → result C }.

(** [WriteTxFunc]; the callback can panic. *)
Definition WriteTxFunc : Type := Context W → Session → list T → Call W (outcome P (option error)).

(** A [Writer] made by [New]; the nil and the zero writer are [None] below. *)
Record Writer := mkWriter {
  options : normalizedOptions;
  codec : Codec;
  write : WriteTxFunc;
  queryRow : Context W → string → string → Z → Call W (result (Z * Z * payload));
  beginTx : Context W → Call W (result transaction)
}.

(** [New] on arguments that are not nil. *)
Definition New (queryRow : Context W → string → string → Z → Call W (result (Z * Z * payload)))
    (beginTx : Context W → Call W (result transaction))
    (options : Options) (codec : Codec) (write : WriteTxFunc) : result Writer :=
  match normalize options with
  | Fail e => Fail e
  | Ok normalized => Ok (mkWriter normalized codec write queryRow beginTx)
  end.

(** [commitInitialized] and [loadInitialized] *)
Definition initialized (w : option Writer) : bool :=
  match w with
  | None => false
  | Some w =>
      let o := options w in
      (0 <? len (namespace o)) && (1 <=? maxKeyBytes o) && (maxKeyBytes o <=? MaxKeyBytes) &&
      (1 <=? maxPayloadBytes o) && (maxPayloadBytes o <=? MaxPayloadBytes)
  end.

(** ** Load *)

Definition decodeRow (w : Writer) (row : Z * Z * payload) : result (option (K * Z)) :=
  let '(revision, payloadLength, p) := row in
  if revision <=? 0 then Fail errInvalidStoredRevision
  else if payloadLength <? 0 then Fail errNegativeStoredPayloadSize
  else if (maxPayloadBytes (options w) <? payloadLength) || (MaxPayloadBytes <? payloadLength)
  then Fail errStoredPayloadTooLarge
  else if negb (payloadLength =? Z.of_nat (length p)) then Fail errStoredPayloadSizeMismatch
  else
    match Decode (codec w) p with
    | Fail e => Fail (newCodecError "decode" e)
    | Ok value => Ok (Some (box value, wrap_u64 revision))
    end.

Definition Load (ow : option Writer) (octx : option (Context W)) (key : string) :
    Call W (result (option (K * Z))) :=
  let ctx := orBackground octx in
  e ← ctx_Err ctx;
  match e, ow with
  | Some e, _ => mret (Fail e)
  | None, None => mret (Fail errWriterUninitialized)
  | None, Some w =>
      if negb (initialized ow) then mret (Fail errWriterUninitialized)
      else if len key =? 0 then mret (Fail errEmptyKey)
      else if (maxKeyBytes (options w) <? len key) || (MaxKeyBytes <? len key)
      then mret (Fail errKeyTooLong)
      else
        r ← queryRow w ctx (namespace (options w)) key (maxPayloadBytes (options w));
        match r with
        | Fail err =>
            if errors_Is err "sql.ErrNoRows" then mret (Ok None)
            else mret (Fail (newOperationError OperationLoad (namespace (options w)) key (Some err)))
        | Ok row => mret (decodeRow w row)
        end
  end.

(** ** Commit *)

Definition postgresCode (err : error) : string := default "" (pgError err).

Definition positiveLifecycleEvidence (ctx : Context W) (err : error) : Call W bool :=
  let code := postgresCode err in
  if String.eqb code "25P01" || String.eqb code "3B001" then mret true
  else if errors_Is err "sql.ErrTxDone"
  then (e ← ctx_Err ctx; mret (match e with None => true | Some _ => false end))
  else mret false.

Record ownershipProbe := mkProbe { proven : bool; probe_err : option error; contractViolation : bool }.

Definition ownershipProbeTimeout : Z := 1000000000.

Definition probeTransactionOwnership (ctx : Context W) (tx : transaction) : Call W ownershipProbe :=
  let probeCtx := WithTimeout (WithoutCancel ctx) ownershipProbeTimeout in
  releaseErr ← ExecContext (session tx) probeCtx releaseSavepointSQL;
  match releaseErr with
  | None => mret (mkProbe true None false)
  | Some releaseErr =>
      if String.eqb (postgresCode releaseErr) "25P02"
      then
        rollbackToErr ← ExecContext (session tx) probeCtx rollbackToSavepointSQL;
        match rollbackToErr with
        | None => mret (mkProbe true (Some releaseErr) false)
        | Some rollbackToErr =>
            violation ← positiveLifecycleEvidence ctx rollbackToErr;
            mret (mkProbe false (Some (Joined [releaseErr; rollbackToErr])) violation)
        end
      else
        violation ← positiveLifecycleEvidence ctx releaseErr;
        mret (mkProbe false (Some releaseErr) violation)
  end.

(** [if more != nil { cause = errors.Join(cause, more) }] *)
Definition joinCause (cause more : option error) : option error :=
  match more with None => cause | Some _ => errors_Join cause more end.

Definition rollbackOperation (w : Writer) (tx : transaction) (operation key : string)
    (cause : option error) : Call W error :=
  rollbackErr ← Rollback tx;
  mret (newOperationError operation (namespace (options w)) key (joinCause cause rollbackErr)).

Definition rollbackKnown (w : Writer) (tx : transaction) (key : string) (cause : error) : Call W error :=
  rollbackErr ← Rollback tx;
  mret (match rollbackErr with
        | None => cause
        | Some e => newOperationError OperationRollback (namespace (options w)) key (Some (Joined [cause; e]))
        end).

Definition failed (c : Call W error) : Call W (outcome (panic P) (result Z)) :=
  err ← c; mret (Returned (Fail err)).

(** What follows the callback and the probe when ownership is not proven. *)
Definition ownershipLost (w : Writer) (ctx : Context W) (tx : transaction) (key : string)
    (callbackErr : option error) (probe : ownershipProbe) : Call W (outcome (panic P) (result Z)) :=
  contextErr ← ctx_Err ctx;
  let cause := match callbackErr with None => probe_err probe | Some _ => errors_Join callbackErr (probe_err probe) end in
  opErr ← rollbackOperation w tx OperationOwnershipProbe key (joinCause cause contextErr);
  mret (Returned (Fail (Joined ([opErr; ErrAtomicityUnknown; ErrCommitUnknown] ++
    (if contractViolation probe then [ErrCallbackContractViolation] else []))))).

(** The checkpoint statement and the commit. *)
Definition commitCheckpoint (w : Writer) (ctx : Context W) (tx : transaction) (key : string)
    (expectedVersion : Z) (p : payload) : Call W (outcome (panic P) (result Z)) :=
  let ns := namespace (options w) in
  let query := if 0 <? expectedVersion then updateCheckpointSQL ns key p expectedVersion
               else insertCheckpointSQL ns key p in
  r ← ScanRevision tx ctx query;
  match r with
  | Fail err =>
      if errors_Is err "sql.ErrNoRows" then failed (rollbackKnown w tx key ErrCheckpointConflict)
      else failed (rollbackOperation w tx OperationCheckpoint key (Some err))
  | Ok revision =>
      e ← ctx_Err ctx;
      match e with
      | Some e => failed (rollbackKnown w tx key e)
      | None =>
          err ← tx_Commit tx;
          match err with
          | None => mret (Returned (Ok (wrap_u64 revision)))
          | Some err =>
              contextErr ← ctx_Err ctx;
              let opErr := newOperationError OperationCommit ns key (joinCause (Some err) contextErr) in
              if (match pgError err with Some _ => true | None => false end) ||
                 errors_Is err "pgx.ErrTxCommitRollback"
              then mret (Returned (Fail opErr))
              else mret (Returned (Fail (Joined [opErr; ErrCommitUnknown])))
          end
      end
  end.

(** What follows the callback and the probe. *)
Definition afterCallback (w : Writer) (ctx : Context W) (tx : transaction) (key : string)
    (expectedVersion : Z) (p : payload) (called : outcome P (option error)) (probe : ownershipProbe) :
    Call W (outcome (panic P) (result Z)) :=
  match called with
  | Panicked value =>
      _ ← Rollback tx;
      mret (Panicked (if proven probe then PanicValue value else AtomicityPanic value))
  | Returned callbackErr =>
      if negb (proven probe) then ownershipLost w ctx tx key callbackErr probe
      else
        match callbackErr, probe_err probe with
        | Some e, _ => failed (rollbackOperation w tx OperationCallback key (joinCause (Some e) (probe_err probe)))
        | None, Some e => failed (rollbackOperation w tx OperationOwnershipProbe key (Some e))
        | None, None =>
            e ← ctx_Err ctx;
            match e with
            | Some e => failed (rollbackKnown w tx key e)
            | None => commitCheckpoint w ctx tx key expectedVersion p
            end
        end
  end.

(** The callback inside its savepoint. *)
Definition commitItems (w : Writer) (ctx : Context W) (tx : transaction) (key : string)
    (expectedVersion : Z) (items : list T) (p : payload) : Call W (outcome (panic P) (result Z)) :=
  err ← ExecContext (session tx) ctx savepointSQL;
  match err with
  | Some err => failed (rollbackOperation w tx OperationSavepoint key (Some err))
  | None =>
      called ← write w ctx (session tx) items;
      probe ← probeTransactionOwnership ctx tx;
      afterCallback w ctx tx key expectedVersion p called probe
  end.

Definition Commit (ow : option Writer) (octx : option (Context W)) (key : string)
    (expectedVersion : Z) (items : list T) (checkpoint : K) : Call W (outcome (panic P) (result Z)) :=
  let ctx := orBackground octx in
  e ← ctx_Err ctx;
  match e, ow with
  | Some e, _ => mret (Returned (Fail e))
  | None, None => mret (Returned (Fail errWriterUninitialized))
  | None, Some w =>
      if negb (initialized ow) then mret (Returned (Fail errWriterUninitialized))
      else if len key =? 0 then mret (Returned (Fail errEmptyKey))
      else if (maxKeyBytes (options w) <? len key) || (MaxKeyBytes <? len key)
      then mret (Returned (Fail errKeyTooLong))
      else if maxInt64 <? expectedVersion then mret (Returned (Fail errExpectedVersionRange))
      else if expectedVersion =? maxInt64 then mret (Returned (Fail ErrCheckpointVersionExhausted))
      else
        match unbox checkpoint with
        | None => mret (Returned (Fail errCheckpointType))
        | Some typedCheckpoint =>
            match Encode (codec w) typedCheckpoint with
            | Fail err => mret (Returned (Fail (newCodecError "encode" err)))
            | Ok p =>
                if (maxPayloadBytes (options w) <? Z.of_nat (length p)) ||
                   (MaxPayloadBytes <? Z.of_nat (length p))
                then mret (Returned (Fail errEncodedPayloadTooLarge))
                else
                  tx ← beginTx w ctx;
                  match tx with
                  | Fail err =>
                      mret (Returned (Fail (newOperationError OperationBegin (namespace (options w)) key (Some err))))
                  | Ok tx =>
                      match items with
                      | [] => commitCheckpoint w ctx tx key expectedVersion p
                      | _ => commitItems w ctx tx key expectedVersion items p
                      end
                  end
            end
        end
  end.

(** The writer as the interface of the batch step, for a callback that does
    not panic. *)
Definition asAtomic (w : Writer) : AtomicCheckpointWriter W T K := mkAtomic
  (λ ctx key, Load (Some w) (Some ctx) key)
  (λ ctx key v items k,
    r ← Commit (Some w) (Some ctx) key v items k;
    mret (match r with Returned r => r | Panicked _ => Fail (Errorf "panic" []) end)).

(** ** What PostgreSQL promises

    [db] is the committed database, [work] what the open transaction sees,
    [guard] whether the savepoint of [Commit] still exists on the connection and
    [pos] state that the database does not touch.  Nothing else commits during a
    call. *)
Context {Loc : Type}.
Variables (db : W → Database A) (work : W → option (Database A)) (guard : W → bool) (pos : W → Loc).

Definition quiet (w w' : W) : Prop := db w' = db w ∧ pos w' = pos w.

(** A transaction that [beginTx] has returned. *)
Definition opened (w : Writer) (tx : transaction) : Prop := ∃ ctx x, (beginTx w ctx x).1 = Ok tx.

Class Postgres (w : Writer) : Prop := {
  pg_begin ctx x : let '(r, x') := beginTx w ctx x in quiet x x' ∧
    (is_Ok r → work x' = Some (db x));
  pg_exec tx ctx sql x : opened w tx → sql ∈ guardSQL →
    let '(e, x') := ExecContext (session tx) ctx sql x in quiet x x' ∧
    (e = None → sql ≠ rollbackToSavepointSQL → work x' = work x) ∧
    (sql ≠ savepointSQL → e = None → guard x = true) ∧
    (sql ≠ savepointSQL → guard x' = true → guard x = true);
  pg_scan tx ctx q x : opened w tx →
    let '(r, x') := ScanRevision tx ctx q x in quiet x x' ∧
    match r with
    | Ok v => ∃ d d', work x = Some d ∧ runCheckpoint q d = Some (v, d') ∧ work x' = Some d'
    | Fail e => errors_Is e "sql.ErrNoRows" = true → ∀ d, work x = Some d → runCheckpoint q d = None
    end;
  pg_commit tx x : opened w tx → let '(e, x') := tx_Commit tx x in pos x' = pos x ∧
    match e with
    | None => work x = Some (db x')
    | Some e => db x' = db x ∨ pgError e = None ∧ errors_Is e "pgx.ErrTxCommitRollback" = false ∧
                               work x = Some (db x')
    end;
  pg_rollback tx x : opened w tx → let '(_, x') := Rollback tx x in quiet x x';
  pg_query ctx ns key limit x : let '(r, x') := queryRow w ctx ns key limit x in quiet x x' ∧
    match r with
    | Ok row => loadSQL (db x) ns key limit = Some row ∧ row.1.1 ≤ maxInt64
    | Fail e => errors_Is e "sql.ErrNoRows" = true → loadSQL (db x) ns key limit = None
    end
}.

(** Looking at a context changes nothing. *)
Definition observes (ctx : Context W) : Prop := ∀ x, let x' := (ctx_Err ctx x).2 in
  quiet x x' ∧ work x' = work x ∧ guard x' = guard x.

(** A savepoint ends with its transaction, so as long as it exists nothing of
    the transaction has been committed, whatever the callback ran; unless the
    callback has begun a transaction and set a savepoint of the same name itself. *)
Definition confined (w : Writer) : Prop := ∀ ctx s items x,
  guard (write w ctx s items x).2 = true → db (write w ctx s items x).2 = db x.

(** ** Laws *)

(** The revision of a key, 0 when it has no row. *)
Definition versionAt (w : Writer) (key : string) (d : Database A) : Z :=
  match rows d !! (namespace (options w), key) with Some (r, _) => Z.pos r | None => 0 end.

(** The compare-and-swap on the row of [key]. *)
Definition swapped (w : Writer) (key : string) (v : Z) (p : payload) (d d' : Database A) : Prop :=
  versionAt w key d = v ∧
  d' = mkDatabase (<[(namespace (options w), key) := (Z.to_pos (v + 1), p)]> (rows d)) (app d).

(** [d] is what a call of the callback that returned nil made of [d0]; with no
    items there is no call. *)
Definition produced (w : Writer) (items : list T) (d0 d : Database A) : Prop :=
  match items with
  | [] => d = d0
  | _ => ∃ ctx s x, db x = d0 ∧ work x = Some d0 ∧ (write w ctx s items x).1 = Returned None ∧
           work (write w ctx s items x).2 = Some d
  end.

(** The callback leaves transaction control alone. *)
Definition calm (w : Writer) : Prop := ∀ ctx s items x, quiet x (write w ctx s items x).2.

(** What a commit against the database [d0] has done, by its outcome. *)
Definition verdict (w : Writer) (items : list T) (key : string) (v : Z) (p : payload)
    (d0 d' : Database A) (r : outcome (panic P) (result Z)) : Prop :=
  let committed := ∃ d, produced w items d0 d ∧ swapped w key v p d d' in
  match r with
  | Returned (Ok v') => v' = v + 1 ∧ committed
  | Returned (Fail e) =>
      d' = d0 ∨ errors_Is e "batch.ErrCommitUnknown" = true ∧
        (committed ∨ errors_Is e "batch.ErrAtomicityUnknown" = true ∧ (calm w → d' = d0))
  | Panicked (PanicValue _) => d' = d0
  | Panicked (AtomicityPanic _) => calm w → d' = d0
  end.

(** The callback keeps its contract: it leaves transaction control alone, does
    not panic, and when it returns nil it has appended the items to the [log]
    of the application. *)
Definition appends (w : Writer) (log : A → list T) : Prop := ∀ ctx s items x,
  let '(r, x') := write w ctx s items x in quiet x x' ∧ (∃ e, r = Returned e) ∧
  (r = Returned None → ∀ d, work x = Some d →
    ∃ d', work x' = Some d' ∧ rows d' = rows d ∧ log (app d') = log (app d) ++ items).

Section laws.
Context (w : Writer) `{Hpg : !Postgres w}.

Lemma quiet_trans x y z : quiet x y → quiet y z → quiet x z.
Proof. unfold quiet. intros [-> ->] [-> ->]. done. Qed.

Lemma runCheckpoint_swapped key v p d r d' :
  0 ≤ v →
  runCheckpoint (if 0 <? v then updateCheckpointSQL (namespace (options w)) key p v
                 else insertCheckpointSQL (namespace (options w)) key p) d = Some (r, d') →
  r = v + 1 ∧ swapped w key v p d d'.
Proof.
  intros Hv H. unfold swapped, versionAt. destruct (0 <? v) eqn:E; bools; cbn [runCheckpoint] in H.
  - destruct (rows d !! _) as [[r0 p0]|]; [|done]. destruct (Z.pos r0 =? v) eqn:Er; bools; [|done].
    injection H as <- <-. by subst.
  - destruct (rows d !! _) as [[r0 p0]|]; [done|]. injection H as <- <-.
    assert (v = 0) as -> by lia. done.
Qed.

Lemma rollbackOperation_quiet tx op key cause x :
  opened w tx → cwp (rollbackOperation w tx op key cause) (λ _, quiet x) x.
Proof.
  intros Ho. apply cwp_bind. pose proof (pg_rollback tx x Ho) as H. unfold cwp.
  by destruct (Rollback tx x).
Qed.

Lemma rollbackKnown_quiet tx key cause x :
  opened w tx → cwp (rollbackKnown w tx key cause) (λ _, quiet x) x.
Proof.
  intros Ho. apply cwp_bind. pose proof (pg_rollback tx x Ho) as H. unfold cwp.
  by destruct (Rollback tx x).
Qed.

Lemma failed_quiet c x (Q : outcome (panic P) (result Z) → W → Prop) :
  cwp c (λ _, quiet x) x → (∀ e x', quiet x x' → Q (Returned (Fail e)) x') → cwp (failed c) Q x.
Proof. intros Hc HQ. apply cwp_bind. eapply cwp_mono; [exact Hc|]. intros e x' Hq. apply HQ. done. Qed.

(** Run the next call of a goal about a [Call], with the law [H] of that call. *)
Local Ltac run_law H r x' :=
  let L := fresh "L" in
  pose proof H as L; apply cwp_bind; unfold cwp at 1;
  match type of L with
  | context [let '(_, _) := ?c in _] => destruct c as [r x']
  | context [snd ?c] => destruct c as [r x']
  end; simpl in L |- *.

Local Ltac rolled_back :=
  eapply failed_quiet;
  [first [by apply rollbackOperation_quiet | by apply rollbackKnown_quiet]|].

Lemma commitCheckpoint_spec ctx tx key v p x :
  opened w tx → observes ctx → 0 ≤ v < maxInt64 →
  cwp (commitCheckpoint w ctx tx key v p) (λ r x', pos x' = pos x ∧
    let done := ∃ d, work x = Some d ∧ swapped w key v p d (db x') in
    match r with
    | Returned (Ok v') => v' = v + 1 ∧ done
    | Returned (Fail e) => db x' = db x ∨ errors_Is e "batch.ErrCommitUnknown" = true ∧ done
    | Panicked _ => False
    end) x.
Proof.
  intros Ho Hctx Hv. unfold commitCheckpoint. set (q := if 0 <? v then _ else _).
  run_law (pg_scan (w:=w) tx ctx q x Ho) r x1. destruct L as [[Hdb Hpos] Hr].
  destruct r as [rev|err].
  2:{ destruct (errors_Is err "sql.ErrNoRows"); rolled_back; intros e x' [Hd Hp];
        (split; [congruence|left; congruence]). }
  destruct Hr as (d & d1 & Hwork & Hrun & Hwork1).
  apply runCheckpoint_swapped in Hrun as [-> Hsw]; [|lia].
  run_law (Hctx x1) ec x2. destruct L as ([Hdb2 Hpos2] & Hwork2 & _).
  destruct ec as [e|].
  { rolled_back. intros e' x' [Hd Hp]. split; [congruence|left; congruence]. }
  run_law (pg_commit (w:=w) tx x2 Ho) em x3. destruct L as [Hpos3 Hm].
  destruct em as [err|].
  - run_law (Hctx x3) e4 x4. destruct L as ([Hdb4 Hpos4] & _).
    assert (pos x4 = pos x) as Hp by congruence.
    destruct (_ || _) eqn:Eknown; unfold cwp; simpl; (split; [done|]).
    + left. destruct Hm as [Hm|(H1 & H2 & _)]; [congruence|].
      rewrite H1, H2 in Eknown. done.
    + destruct Hm as [Hm|(_ & _ & Hm)]; [left; congruence|right].
      split; [by rewrite orb_true_r|]. exists d. split; [done|].
      assert (db x4 = d1) as -> by congruence. done.
  - unfold cwp; simpl. split; [congruence|]. split; [unfold wrap_u64; rewrite Z.mod_small; unfold maxInt64 in *; lia|].
    exists d. split; [done|]. assert (db x3 = d1) as -> by congruence. done.
Qed.

Lemma positiveLifecycleEvidence_quiet ctx err x :
  observes ctx → cwp (positiveLifecycleEvidence ctx err) (λ _, quiet x) x.
Proof.
  intros Hctx. unfold positiveLifecycleEvidence. destruct (_ || _); [done|].
  destruct (errors_Is _ _); [|done]. run_law (Hctx x) e x1. unfold cwp. simpl. apply L.
Qed.

(** The probe proves ownership only while the savepoint exists, and keeps the
    transaction when it reports no error. *)
Lemma probe_spec ctx tx x :
  opened w tx → observes ctx →
  cwp (probeTransactionOwnership ctx tx) (λ probe x', quiet x x' ∧
    (proven probe = true → guard x = true) ∧
    (proven probe = true → probe_err probe = None → work x' = work x)) x.
Proof.
  intros Ho Hctx. unfold probeTransactionOwnership. set (pctx := WithTimeout _ _).
  run_law (pg_exec (w:=w) tx pctx releaseSavepointSQL x Ho ltac:(set_solver)) e x1.
  destruct L as (Hq & Hw & Hg & Hg').
  destruct e as [e|].
  2:{ unfold cwp. simpl. split_and!; [done|by intros _; apply Hg|intros _ _; by apply Hw]. }
  destruct (String.eqb _ _).
  - run_law (pg_exec (w:=w) tx pctx rollbackToSavepointSQL x1 Ho ltac:(set_solver)) e2 x2.
    destruct L as (Hq2 & Hw2 & Hg2 & _). pose proof (quiet_trans _ _ _ Hq Hq2) as Hq02.
    destruct e2 as [e2|].
    + apply cwp_bind. eapply cwp_mono; [by apply positiveLifecycleEvidence_quiet|].
      intros b x3 Hq3. unfold cwp. simpl. split_and!; [by eapply quiet_trans|done|done].
    + unfold cwp. simpl. split_and!; [done|intros _; apply Hg'; [done|by apply Hg2]|done].
  - apply cwp_bind. eapply cwp_mono; [by apply positiveLifecycleEvidence_quiet|].
    intros b x3 Hq3. unfold cwp. simpl. split_and!; [by eapply quiet_trans|done|done].
Qed.

Lemma ownershipLost_spec ctx tx key ce probe x :
  opened w tx → observes ctx →
  cwp (ownershipLost w ctx tx key ce probe) (λ r x', quiet x x' ∧ ∃ e, r = Returned (Fail e) ∧
    errors_Is e "batch.ErrCommitUnknown" = true ∧ errors_Is e "batch.ErrAtomicityUnknown" = true) x.
Proof.
  intros Ho Hctx. unfold ownershipLost. run_law (Hctx x) ec x1. destruct L as (Hq & _).
  apply cwp_bind. eapply cwp_mono; [by apply rollbackOperation_quiet|].
  intros op x2 Hq2. unfold cwp. simpl. split; [by eapply quiet_trans|].
  eexists. split; [done|]. simpl. by rewrite !orb_true_r.
Qed.

Section after.
Context (ctx : Context W) (tx : transaction) (key : string) (v : Z) (items : list T) (p : payload).
Context (d0 : Database A) (p0 : Loc).
Hypotheses (Ho : opened w tx) (Hctx : observes ctx) (Hv : 0 ≤ v < maxInt64).

Local Definition good (r : outcome (panic P) (result Z)) (x' : W) : Prop :=
  (calm w → pos x' = p0) ∧ verdict w items key v p d0 (db x') r.

Lemma afterCallback_spec called probe x :
  (calm w → db x = d0 ∧ pos x = p0) → (proven probe = true → db x = d0) →
  (called = Returned None → proven probe = true → probe_err probe = None →
    ∀ d, work x = Some d → produced w items d0 d) →
  cwp (afterCallback w ctx tx key v p called probe) good x.
Proof using Ho Hctx Hv Hpg.
  intros Hcalm Hdb Hprod. unfold afterCallback.
  assert (∀ e x', proven probe = true → quiet x x' → good (Returned (Fail e)) x') as Hback.
  { intros e x' Hp [Hd Hpos]. split; [intros [_ ?]%Hcalm; congruence|]. left. rewrite Hd. auto. }
  destruct called as [ce|value].
  2:{ run_law (pg_rollback (w:=w) tx x Ho) er x1. destruct L as [Hd Hpos]. unfold cwp. simpl.
      split; [intros [_ ?]%Hcalm; congruence|]. rewrite Hd.
      destruct (proven probe); simpl; [auto|]. by intros [? _]%Hcalm. }
  destruct (proven probe) eqn:Ep; simpl.
  2:{ eapply cwp_mono; [by apply ownershipLost_spec|]. intros r x' ([Hd Hpos] & e & -> & HC & HA).
      split; [intros [_ ?]%Hcalm; congruence|]. right. split; [done|]. right. split; [done|].
      rewrite Hd. by intros [? _]%Hcalm. }
  destruct ce as [ce|]; [rolled_back; auto|]. destruct (probe_err probe) as [pe|]; [rolled_back; auto|].
  run_law (Hctx x) ec x1. destruct L as (Hq1 & Hw1 & _).
  destruct ec as [e|]; [rolled_back; intros e' x' Hq; apply Hback; [done|]; by eapply quiet_trans|].
  eapply cwp_mono; [by apply commitCheckpoint_spec|]. intros r x' [Hpos Hr]. destruct Hq1 as [Hd1 Hp1].
  split; [intros [_ ?]%Hcalm; congruence|]. rewrite Hd1, Hdb in Hr by done.
  assert ((∃ d, work x1 = Some d ∧ swapped w key v p d (db x')) →
    ∃ d, produced w items d0 d ∧ swapped w key v p d (db x')) as Hdone.
  { intros (d & Hd & Hs). exists d. split; [|done]. apply Hprod; try done. congruence. }
  destruct r as [[v'|e]|]; simpl; [|destruct Hr as [Hr|[Hr1 Hr2]]|done].
  - destruct Hr as [-> Hr]. auto.
  - by left.
  - right. auto.
Qed.

Lemma commitItems_spec x :
  confined w → items ≠ [] → db x = d0 → pos x = p0 → work x = Some d0 →
  cwp (commitItems w ctx tx key v items p) good x.
Proof using Ho Hctx Hv Hpg.
  intros Hconf Hitems Hd0 Hp0 Hwork. unfold commitItems.
  run_law (pg_exec (w:=w) tx ctx savepointSQL x Ho ltac:(set_solver)) e x1.
  destruct L as ([Hd1 Hp1] & Hw1 & _).
  destruct e as [e|]; [rolled_back; intros e' x' [Hd Hp]; by split; [intros _|left]; congruence|].
  specialize (Hw1 eq_refl ltac:(done)).
  apply cwp_bind. pose proof (Hconf ctx (session tx) items x1) as Hc.
  assert (∀ d, (write w ctx (session tx) items x1).1 = Returned None →
    work (write w ctx (session tx) items x1).2 = Some d → produced w items d0 d) as Hprod.
  { intros d H1 H2. destruct items; [done|]. exists ctx, (session tx), x1. split_and!; congruence. }
  assert (calm w → quiet x1 (write w ctx (session tx) items x1).2) as Hcalm by (intros H; apply H).
  unfold cwp at 1. destruct (write w ctx (session tx) items x1) as [called x2]. simpl in *.
  apply cwp_bind. eapply cwp_mono; [by apply probe_spec|].
  intros probe x3 ([Hd3 Hp3] & Hg & Hw3). apply afterCallback_spec.
  - intros [Hd2 Hp2]%Hcalm. split; congruence.
  - intros Hp. rewrite Hd3, Hc by auto. congruence.
  - intros -> Hp He d Hd. apply Hprod; [done|]. rewrite <-Hd. symmetry. auto.
Qed.
End after.

Lemma Commit_spec ctx key v items k x :
  observes ctx → confined w → 0 ≤ v →
  cwp (Commit (Some w) (Some ctx) key v items k) (λ r x', (calm w → pos x' = pos x) ∧
    (db x' = db x ∧ (∃ e, r = Returned (Fail e)) ∨
     ∃ c p, unbox k = Some c ∧ Encode (codec w) c = Ok p ∧
       Z.of_nat (length p) ≤ maxPayloadBytes (options w) ∧
       verdict w items key v p (db x) (db x') r)) x.
Proof.
  intros Hctx Hconf Hv. unfold Commit. simpl orBackground.
  run_law (Hctx x) ec x1. destruct L as ([Hd Hp] & _).
  assert (∀ e, cwp (mret (Returned (Fail e))) (λ r x', (calm w → pos x' = pos x) ∧
    (db x' = db x ∧ (∃ e, r = Returned (P:=panic P) (A:=result Z) (Fail e)) ∨
     ∃ c p, unbox k = Some c ∧ Encode (codec w) c = Ok p ∧
       Z.of_nat (length p) ≤ maxPayloadBytes (options w) ∧ verdict w items key v p (db x) (db x') r)) x1) as Hfail.
  { intros e. unfold cwp. simpl. split; [done|]. left. eauto. }
  destruct ec as [e|]; [apply Hfail|]. fold (initialized (Some w)).
  destruct (negb _); [apply Hfail|]. destruct (len key =? 0); [apply Hfail|].
  destruct (_ || _); [apply Hfail|]. destruct (maxInt64 <? v) eqn:E1; [apply Hfail|].
  destruct (v =? maxInt64) eqn:E2; [apply Hfail|]. bools.
  destruct (unbox k) as [c|] eqn:Ek; [|apply Hfail].
  destruct (Encode _ _) as [p|err] eqn:Ee; [|apply Hfail].
  destruct (_ || _) eqn:Ep; [apply Hfail|]. bools.
  pose proof (pg_begin (w:=w) ctx x1) as L. apply cwp_bind. unfold cwp at 1.
  destruct (beginTx w ctx x1) as [[tx|err] x2] eqn:Eb; simpl in L |- *; destruct L as [[Hd2 Hp2] Hw2].
  2:{ unfold cwp. simpl. split; [congruence|]. left. split; [congruence|]. eauto. }
  assert (opened w tx) as Ho by (exists ctx, x1; by rewrite Eb).
  specialize (Hw2 ltac:(by eexists)).
  eapply cwp_mono with (P := good key v items p (db x) (pos x)).
  2:{ intros r x' [H1 H2]. split; [done|]. right. exists c, p. done. }
  destruct items as [|i items]; [|apply commitItems_spec; try done; try congruence; lia].
  eapply cwp_mono; [apply commitCheckpoint_spec; [done|done|lia]|]. rewrite Hw2.
  intros r x' [Hpos Hr]. split; [congruence|]. rewrite Hd2, Hd in Hr.
  destruct r as [[v'|e]|]; simpl; [|destruct Hr as [?|[? (d & [= <-] & ?)]]|done].
  - destruct Hr as (-> & d & [= <-] & ?). eauto.
  - by left.
  - right. split; [done|]. left. eauto.
Qed.

(** *** The promise to the batch step *)

Section store.
Context (key : string) (log : A → list T) (zero : C).
Hypothesis Hbox : ∀ k c, unbox k = Some c → k = box c.
Hypothesis Hcodec : ∀ c p, Encode (codec w) c = Ok p → Decode (codec w) p = Ok c.
Hypothesis Happends : appends w log.

(** The checkpoint of [key]; a payload that does not decode counts as [zero],
    and cannot be loaded. *)
Definition stored (x : W) : option (K * Z) :=
  (λ '(r, p), (box (match Decode (codec w) p with Ok c => c | Fail _ => zero end), Z.pos r))
    <$> rows (db x) !! (namespace (options w), key).

Definition written (x : W) : list T := log (app (db x)).

Lemma appends_calm : calm w.
Proof using Happends.
  intros ctx s items x. pose proof (Happends ctx s items x) as H.
  destruct (write w ctx s items x). apply H.
Qed.

Lemma stored_version x : versionOf (stored x) = versionAt w key (db x).
Proof. unfold stored, versionAt. by destruct (rows (db x) !! _) as [[r p]|]. Qed.

Lemma produced_appends items d0 d :
  produced w items d0 d → rows d = rows d0 ∧ log (app d) = log (app d0) ++ items.
Proof using Happends.
  destruct items as [|i items]; simpl; [intros ->; by rewrite app_nil_r|].
  intros (ctx & s & x & Hd & Hw & Hr & Hw'). pose proof (Happends ctx s (i :: items) x) as H.
  destruct (write w ctx s (i :: items) x) as [r x']. simpl in *. subst r.
  destruct H as (_ & _ & H). destruct (H eq_refl d0 Hw) as (d' & Hd' & ? & ?).
  by simplify_eq.
Qed.

(** After the swap the row holds the new checkpoint. *)
Lemma swapped_stored v items k c p x x' :
  unbox k = Some c → Encode (codec w) c = Ok p → 0 ≤ v →
  (∃ d, produced w items (db x) d ∧ swapped w key v p d (db x')) →
  v = versionOf (stored x) ∧ written x' = written x ++ items ∧ stored x' = Some (k, v + 1).
Proof using Hbox Hcodec Happends.
  intros Hk He Hv (d & [Hrows Hlog]%produced_appends & Hver & Hd').
  rewrite stored_version. unfold versionAt, written, stored in *. rewrite Hrows in Hver.
  rewrite Hd'. simpl. rewrite lookup_insert_eq. simpl. rewrite (Hcodec _ _ He), <-(Hbox _ _ Hk).
  split_and!; [done|done|]. do 2 f_equal. lia.
Qed.

Lemma decodeRow_stored x row c :
  loadSQL (db x) (namespace (options w)) key (maxPayloadBytes (options w)) = Some row →
  row.1.1 ≤ maxInt64 → decodeRow w row = Ok c → c = stored x.
Proof.
  unfold loadSQL, stored. destruct (rows (db x) !! _) as [[r p]|]; [|done].
  intros [= <-] Hr. unfold decodeRow. cbn [fst] in Hr.
  destruct (Z.pos r <=? 0) eqn:E1; bools; [lia|]. destruct (_ <? 0) eqn:E2; bools; [lia|].
  destruct (_ || _) eqn:E; bools; [done|].
  assert ((Z.of_nat (length p) <=? maxPayloadBytes (options w)) = true) as -> by lia.
  rewrite Z.eqb_refl. simpl. destruct (Decode (codec w) p) as [c0|]; [|done].
  intros [= <-]. rewrite wrap_u64_id; [done|]. unfold in_u64, maxInt64 in *. lia.
Qed.

#[export] Instance sql_atomic_store ctx :
  observes ctx → AtomicStore (asAtomic w) ctx key pos written stored.
Proof using Hbox Hcodec Happends Hpg.
  intros Hctx. split.
  - intros x k v. unfold stored. destruct (rows (db x) !! _) as [[r p]|]; [|done].
    intros [= <- <-]. lia.
  - intros x. cut (cwp (aLoad (asAtomic w) ctx key) (λ r x', quiet x x' ∧ ∀ c, r = Ok c → c = stored x) x).
    { unfold cwp. destruct (aLoad _ _ _ x) as [r x']. simpl. intros [[Hd Hp] Hr].
      unfold written, stored. rewrite Hd, Hp. done. }
    simpl. unfold Load. simpl orBackground. run_law (Hctx x) ec x1. destruct L as (Hq & _).
    assert (∀ e, cwp (mret (Fail e)) (λ r x', quiet x x' ∧ ∀ c, r = Ok c → c = stored x) x1) as Hfail.
    { intros e. by split. }
    destruct ec as [e|]; [apply Hfail|]. fold (initialized (Some w)).
    destruct (negb _); [apply Hfail|]. destruct (len key =? 0); [apply Hfail|].
    destruct (_ || _); [apply Hfail|].
    run_law (pg_query (w:=w) ctx (namespace (options w)) key (maxPayloadBytes (options w)) x1) r x2.
    destruct L as [Hq2 Hr]. pose proof (quiet_trans _ _ _ Hq Hq2) as Hq02.
    destruct Hq as [Hd1 _]. rewrite Hd1 in Hr. destruct r as [row|err].
    + unfold cwp. simpl. split; [done|]. intros c Hc. destruct Hr. by eapply decodeRow_stored.
    + destruct (errors_Is _ _); [|by split]. unfold cwp. simpl. split; [done|]. intros c [= <-].
      specialize (Hr eq_refl). unfold loadSQL, stored in *. by destruct (rows (db x) !! _) as [[]|].
  - intros v out k x Hv. pose proof appends_calm as Hcalm.
    assert (confined w) as Hconf by (intros ? ? ? ? _; apply Hcalm).
    pose proof (Commit_spec ctx key v out k x Hctx Hconf Hv) as H. unfold cwp in H. simpl.
    unfold mbind, call_bind. destruct (Commit _ _ _ _ _ _ x) as [r x']. simpl in *.
    destruct H as [Hp H]. split; [auto|].
    assert (db x' = db x → written x' = written x ∧ stored x' = stored x) as Hsame.
    { intros Hd. unfold written, stored. by rewrite Hd. }
    destruct H as [[Hd [e ->]]|(c & p & Hk & He & _ & Hver)]; [left; eauto|].
    pose proof (swapped_stored v out k c p x x' Hk He Hv) as Hsw.
    destruct r as [[v'|e]|[z|z]]; simpl in Hver.
    + destruct Hver as [-> Hc]. right. apply Hsw in Hc as (? & ? & ?). split_and!; [done|done|].
      exists (v + 1). split; [done|]. by intros ? [= <-].
    + destruct Hver as [Hd|[_ [Hc|[_ Hd]]]]; [left; eauto| |left; eauto].
      right. apply Hsw in Hc as (? & ? & ?). split_and!; [done|done|]. by exists (v + 1).
    + left. eauto.
    + left. eauto.
Qed.

(** C35. Exactly-once output on a database.  However often a batch step that
    writes through the checkpoint writer was run from a key without a row and an
    empty log, one run after the other, a further run returns, and then the
    application's log holds, for each item before the stored checkpoint, once and
    in order, what the processor answered when it was last asked for the item; when
    the run completes, these are all the items.  Any call may fail, any commit may
    lose its answer, the context may be cancelled at any time, and the processor
    may answer differently each time.  The callback appends the items to the log
    and leaves transaction control alone, the codec restores what it encoded, and
    no one else commits to the database during a call. *)
Theorem sql_restarts_exactly_once {I} (now : Call W Z)
    (so : AtomicStepOptions (W:=W) (I:=I) (O:=T) (K:=K)) (s : Step W I T K) (cr : CheckpointReader W K)
    (items : list I) (readerAt : Loc → nat) (heard : Loc → answers I T) (cp : nat → K) (usable : Context W → Prop) x x1 ctx fuel :
  NewAtomicStep so = Ok s → sink s = ToAtomic (asAtomic w) → asCheckpoint (reader s) = Some cr →
  Batch.key s = key →
  (∀ ctx, usable ctx → observes ctx ∧
    StepEnv now s cr ctx items (readerAt ∘ pos) (heard ∘ pos) written stored cp) →
  rows (db x) !! (namespace (options w), key) = None → log (app (db x)) = [] →
  rtc (restart now s items usable) x x1 → usable ctx → (length items < fuel)%nat →
  ∃ r x', Run now fuel (Some s) (Some ctx) x1 = Some (r, x') ∧
    ∃ n, committed s items (heard ∘ pos) written stored cp x' n ∧ (Status r = StatusCompleted → n = length items).
Proof using Hbox Hcodec Happends Hpg.
  intros Hnew Hsink Hcr Hkey Henv Hrow Hlog.
  apply (restarts_exactly_once now so s (asAtomic w) cr items (readerAt ∘ pos) (heard ∘ pos) written stored cp); try done.
  - intros ctx' [Hctx Hstep]%Henv. split; [done|]. rewrite Hkey.
    apply (atomicStore_map _ _ _ pos (λ l, (readerAt l, heard l))). by apply sql_atomic_store.
  - unfold stored. by rewrite Hrow.
Qed.
End store.

(** C11. A commit is atomic and its errors tell the truth.  Whatever the
    callback runs on the session, even a commit of its own, as long as it does not
    set up the savepoint of the writer again in a transaction of its own, and while
    no other connection commits: a commit that answers with a version has swapped
    the row from the expected version to that one together with exactly what the
    callback wrote; an error without [ErrCommitUnknown] means that the database is
    unchanged, one without [ErrAtomicityUnknown] that it is unchanged or holds the
    whole commit; and a panic that is passed on as it is has left nothing behind. *)
Theorem sql_commit_atomic ctx key v items k x :
  observes ctx → confined w → 0 ≤ v →
  let '(r, x') := Commit (Some w) (Some ctx) key v items k x in
  let committed := ∃ c p d, unbox k = Some c ∧ Encode (codec w) c = Ok p ∧
    Z.of_nat (length p) ≤ maxPayloadBytes (options w) ∧
    produced w items (db x) d ∧ swapped w key v p d (db x') in
  match r with
  | Returned (Ok v') => v' = v + 1 ∧ committed
  | Returned (Fail e) =>
      (errors_Is e "batch.ErrCommitUnknown" = false → db x' = db x) ∧
      (errors_Is e "batch.ErrAtomicityUnknown" = false → db x' = db x ∨ committed)
  | Panicked (PanicValue _) => db x' = db x
  | Panicked (AtomicityPanic _) => True
  end.
Proof using Hpg.
  intros Hctx Hconf Hv. pose proof (Commit_spec ctx key v items k x Hctx Hconf Hv) as H.
  unfold cwp in H. destruct (Commit _ _ _ _ _ _ x) as [r x']. simpl in *.
  destruct H as [_ [[Hd [e ->]]|(c & p & Hk & He & Hl & Hver)]]; [auto|].
  destruct r as [[v'|e]|[z|z]]; simpl in Hver; [| |done|done].
  - destruct Hver as (-> & d & ? & ?). split; [done|]. by exists c, p, d.
  - destruct Hver as [Hd|(HC & [(d & ? & ?)|[HA _]])]; [auto| |].
    + split; [congruence|]. intros _. right. by exists c, p, d.
    + split; congruence.
Qed.
End laws.
End writer.

(** ** Witnesses *)
Module SqlDemo.

(** One connection to a database whose application keeps a list; [c_lost]
    commits still lose their answer, [c_pos] are the reader's position and the
    answers of the processor. *)
Record conn := mkConn {
  c_db : Database (list Z); c_tx : option (Database (list Z)); c_guard : bool;
  c_pos : nat * answers Z Z; c_lost : nat
}.

Definition pgErr (code : string) : error := Typed "pgconn.PgError" [FStr code] [] None.
Definition pgCode (e : error) : option string :=
  match e with Typed "pgconn.PgError" [FStr code] _ _ => Some code | _ => None end.

Definition exec (sql : string) : Call conn (option error) := λ x,
  match c_tx x with
  | None => (Some ErrTxDone, x)
  | Some _ =>
      if String.eqb sql savepointSQL then (None, mkConn (c_db x) (c_tx x) true (c_pos x) (c_lost x))
      else if c_guard x
      then (None, mkConn (c_db x) (c_tx x) (negb (String.eqb sql releaseSavepointSQL)) (c_pos x) (c_lost x))
      else (Some (pgErr "3B001"), x)
  end.

Definition scan (q : checkpointSQL) : Call conn (result Z) := λ x,
  match c_tx x with
  | None => (Fail ErrTxDone, x)
  | Some d =>
      match runCheckpoint q d with
      | None => (Fail ErrNoRows, x)
      | Some (v, d') => (Ok v, mkConn (c_db x) (Some d') (c_guard x) (c_pos x) (c_lost x))
      end
  end.

Definition commit : Call conn (option error) := λ x,
  match c_tx x with
  | None => (Some ErrTxDone, x)
  | Some d =>
      match c_lost x with
      | O => (None, mkConn d None false (c_pos x) O)
      | S n => (Some (Errorf "connection reset" []), mkConn d None false (c_pos x) n)
      end
  end.

Definition rollback : Call conn (option error) := λ x,
  (None, mkConn (c_db x) None false (c_pos x) (c_lost x)).

Definition tx : transaction (W:=conn) := mkTransaction (mkSession (λ _, exec)) (λ _, scan) commit rollback.

Definition begin (_ : Context conn) : Call conn (result (transaction (W:=conn))) := λ x,
  (Ok tx, mkConn (c_db x) (Some (c_db x)) false (c_pos x) (c_lost x)).

Definition query (_ : Context conn) (ns key : string) (limit : Z) : Call conn (result (Z * Z * payload)) :=
  λ x, match loadSQL (c_db x) ns key limit with
       | None => (Fail ErrNoRows, x)
       | Some row => if row.1.1 <=? maxInt64 then (Ok row, x) else (Fail (pgErr "22003"), x)
       end.

Definition append : WriteTxFunc (W:=conn) (T:=Z) (P:=unit) := λ _ _ items x,
  match c_tx x with
  | None => (Returned (Some ErrTxDone), x)
  | Some d => (Returned None,
      mkConn (c_db x) (Some (mkDatabase (rows d) (app d ++ items))) (c_guard x) (c_pos x) (c_lost x))
  end.

(** A callback that commits the transaction itself. *)
Definition commits : WriteTxFunc (W:=conn) (T:=Z) (P:=unit) := λ c s items x,
  let '(r, x1) := append c s items x in let '(_, x2) := commit x1 in (r, x2).

Definition numbers : Codec (C:=nat) := mkCodec
  (λ n, Ok [Z.of_nat n])
  (λ p, match p with [z] => Ok (Z.to_nat z) | _ => Fail (Errorf "invalid" []) end).

Definition writerOf (f : WriteTxFunc (W:=conn) (T:=Z) (P:=unit)) : Writer (W:=conn) (T:=Z) (C:=nat) (P:=unit) :=
  mkWriter (mkNormalized "default" 512 1048576) numbers f query begin.

Definition sha (l : list Z) : list Z := l.
Definition timeout (c : Context conn) (_ : Z) : Context conn := c.
Definition start (lost : nat) : conn := mkConn (mkDatabase ∅ []) None false (0%nat, []) lost.
Definition store (f : WriteTxFunc (W:=conn) (T:=Z) (P:=unit)) (v : Z) (items : list Z) (k : nat) :=
  Commit sha pgCode timeout Some (Some (writerOf f)) (Some Background) "job" v items k.

Lemma demo_observes : observes c_db c_tx c_guard c_pos (Background (W:=conn)).
Proof. by intros x. Qed.

Lemma demo_confined f : (f = append ∨ f = commits) → confined c_db c_guard (writerOf f).
Proof.
  intros [-> | ->] ctx s items x; simpl; unfold commits, append, commit; destruct (c_tx x) eqn:E;
    simpl; rewrite ?E; try done.
  by destruct (c_lost x).
Qed.

#[global] Instance demo_postgres f : Postgres pgCode c_db c_tx c_guard c_pos (writerOf f).
Proof.
  split.
  - by intros ctx x.
  - intros t ctx sql x (? & ? & [= <-]) Hsql. simpl. unfold exec. destruct (c_tx x) eqn:E; [|by split_and!].
    destruct (String.eqb sql savepointSQL) eqn:Es; [apply String.eqb_eq in Es as ->|apply String.eqb_neq in Es].
    { simpl. split_and!; [by split|done|done|done]. }
    destruct (c_guard x) eqn:Eg; simpl; split_and!; try done; congruence.
  - intros t ctx q x (? & ? & [= <-]). simpl. unfold scan. destruct (c_tx x) as [d|]; [|by split].
    destruct (runCheckpoint q d) as [[v d']|] eqn:E; simpl; (split; [by split|]); [eauto|].
    intros _ d0 [= <-]. done.
  - intros t x (? & ? & [= <-]). simpl. unfold commit. destruct (c_tx x) as [d|]; [|auto].
    destruct (c_lost x); simpl; auto.
  - by intros t x (? & ? & [= <-]).
  - intros ctx ns key limit x. simpl. unfold query. destruct (loadSQL _ _ _ _) as [row|] eqn:E; [|by split].
    destruct (row.1.1 <=? maxInt64) eqn:Er; bools; split; done.
Qed.

Lemma demo_appends : appends c_db c_tx c_pos (writerOf append) id.
Proof.
  intros ctx s items x. simpl. unfold append. destruct (c_tx x) as [d|]; simpl.
  - split_and!; [by split|eauto|]. intros _ d0 [= <-]. eauto.
  - split_and!; [by split|eauto|done].
Qed.

Lemma demo_codec c p : Encode numbers c = Ok p → Decode numbers p = Ok c.
Proof. intros [= <-]. simpl. by rewrite Nat2Z.id. Qed.

(** *** A step over the writer *)

Definition source : list Z := [1; 2; 3; 4; 5].
Definition moveTo (n : nat) (x : conn) : conn := mkConn (c_db x) (c_tx x) (c_guard x) (n, (c_pos x).2) (c_lost x).

Definition positions : CheckpointReader conn nat := mkCheckpointReader
  (λ _ k x, (None, moveTo k x)) (λ _ x, (Ok (Some (c_pos x).1), x)).

Definition listReader : Reader conn Z nat := mkReader
  (λ _ x, (None, moveTo 0 x))
  (λ _ x, match source !! (c_pos x).1 with
          | Some i => (Ok (Some i), moveTo (S (c_pos x).1) x)
          | None => (Ok None, x)
          end)
  (λ _ x, (None, x)) (Some positions).

Definition square (i : Z) : option Z := if Z.even i then None else Some (i * i).

(** The third item is not there the first time. *)
Definition squares : Processor conn Z Z := λ _ i x,
  let r := if (i =? 3) && (length (filter (λ a, a.1 = (c_pos x).1) (c_pos x).2) <? 1)%nat
           then Fail (Sentinel "unavailable") else Ok (square i) in
  (r, mkConn (c_db x) (c_tx x) (c_guard x) ((c_pos x).1, (c_pos x).2 ++ [((c_pos x).1, (i, r))]) (c_lost x)).

Definition sqlWriter : AtomicCheckpointWriter conn Z nat :=
  asAtomic sha pgCode timeout id Some (writerOf append).

Definition stepOptions : AtomicStepOptions (W:=conn) (I:=Z) (O:=Z) (K:=nat) :=
  mkAtomicStepOptions "job" 2 (Some listReader) (Some squares) (Some sqlWriter)
    (mkRetryPolicy 0 None) (mkSkipPolicy 0 None) "".

Definition step : Step conn Z Z nat :=
  mkStep "job" 2 listReader squares (ToAtomic sqlWriter) (mkRetryPolicy 1 None)
    (mkSkipPolicy 0 None) None "job".

Definition clock : Call conn Z := λ x, (0, x).
Definition runFrom (x : conn) : option (Report * conn) := Run clock 6 (Some step) (Some Background) x.

Lemma demo_env :
  StepEnv clock step positions Background source (fst ∘ c_pos) (snd ∘ c_pos) (written c_db id)
    (stored id c_db (writerOf append) "job" 0%nat) id.
Proof.
  split; try done.
  - intros x. simpl. destruct (source !! (c_pos x).1) eqn:E; [done|]. by apply lookup_ge_None in E.
  - intros x. simpl. split_and!; try done. by intros k [= <-].
Qed.
End SqlDemo.

(** A commit, a stale one, one whose answer is lost, and a callback that ends
    the transaction. *)
Lemma sql_demo_runs :
  let '(r1, x1) := SqlDemo.store SqlDemo.append 0 [7] 1 (SqlDemo.start 0) in
  let '(r2, x2) := SqlDemo.store SqlDemo.append 0 [8] 2 x1 in
  let '(r3, x3) := SqlDemo.store SqlDemo.append 0 [7] 1 (SqlDemo.start 1) in
  let '(r4, x4) := SqlDemo.store SqlDemo.commits 0 [7] 1 (SqlDemo.start 0) in
  r1 = Returned (Ok 1) ∧ app (SqlDemo.c_db x1) = [7] ∧
  r2 = Returned (Fail ErrCheckpointConflict) ∧ app (SqlDemo.c_db x2) = [7] ∧
  (match r3 with Returned (Fail e) => errors_Is e "batch.ErrCommitUnknown" | _ => false end) = true ∧
  app (SqlDemo.c_db x3) = [7] ∧
  (match r4 with Returned (Fail e) => errors_Is e "batch.ErrAtomicityUnknown" | _ => false end) = true ∧
  app (SqlDemo.c_db x4) = [7].
Proof. vm_compute. by split_and!. Qed.

Lemma sql_commit_atomic_witness :
  let '(r, x') := SqlDemo.store SqlDemo.append 0 [7] 1 (SqlDemo.start 0) in
  match r with
  | Returned (Ok v') => v' = 1 ∧ ∃ c p d, Some 1%nat = Some c ∧ Encode SqlDemo.numbers c = Ok p ∧
      Z.of_nat (length p) ≤ 1048576 ∧
      produced SqlDemo.c_db SqlDemo.c_tx (SqlDemo.writerOf SqlDemo.append) [7] (mkDatabase ∅ []) d ∧
      swapped (SqlDemo.writerOf SqlDemo.append) "job" 0 p d (SqlDemo.c_db x')
  | _ => False
  end.
Proof.
  pose proof (sql_commit_atomic SqlDemo.sha SqlDemo.pgCode SqlDemo.timeout Some SqlDemo.c_db SqlDemo.c_tx
    SqlDemo.c_guard SqlDemo.c_pos (SqlDemo.writerOf SqlDemo.append) Background "job" 0 [7] 1%nat
    (SqlDemo.start 0) SqlDemo.demo_observes (SqlDemo.demo_confined _ (or_introl eq_refl)) ltac:(lia)) as H.
  unfold SqlDemo.store.
  destruct (Commit _ _ _ _ _ _ _ _ _ _ _) as [r x'] eqn:E.
  assert (r = Returned (Ok 1)) as -> by (vm_compute in E; injection E as <- _; reflexivity).
  exact H.
Defined.

(** The first run loses the answer of its first commit, the second one fails at
    the third item, and the third one completes. *)
Lemma sql_restarts_exactly_once_witness :
  ∃ r1 x1 r2 x2, SqlDemo.runFrom (SqlDemo.start 1) = Some (r1, x1) ∧ Status r1 = StatusFailed ∧
    SqlDemo.runFrom x1 = Some (r2, x2) ∧ Status r2 = StatusFailed ∧ app (SqlDemo.c_db x2) = [1] ∧
    ∃ r x, SqlDemo.runFrom x2 = Some (r, x) ∧ app (SqlDemo.c_db x) = [1; 9; 25] ∧
    ∃ n, committed SqlDemo.step SqlDemo.source (snd ∘ SqlDemo.c_pos) (written SqlDemo.c_db id)
           (stored id SqlDemo.c_db (SqlDemo.writerOf SqlDemo.append) "job" 0%nat) id x n ∧
      (Status r = StatusCompleted → n = 5%nat).
Proof.
  destruct (SqlDemo.runFrom (SqlDemo.start 1)) as [[r1 x1]|] eqn:E1;
    [|exfalso; vm_compute in E1; discriminate E1].
  destruct (SqlDemo.runFrom x1) as [[r2 x2]|] eqn:E2;
    [|exfalso; vm_compute in E1; injection E1 as <- <-; vm_compute in E2; discriminate E2].
  exists r1, x1, r2, x2.
  assert (Status r1 = StatusFailed) by (vm_compute in E1; injection E1 as <- <-; reflexivity).
  assert (Status r2 = StatusFailed ∧ app (SqlDemo.c_db x2) = [1] ∧
    (λ p, app (SqlDemo.c_db p.2)) <$> SqlDemo.runFrom x2 = Some [1; 9; 25]) as (Hs2 & Ho2 & Ho3).
  { vm_compute in E1. injection E1 as <- <-. vm_compute in E2. injection E2 as <- <-. vm_compute. by split_and!. }
  split_and!; [reflexivity|assumption..|].
  destruct (sql_restarts_exactly_once SqlDemo.sha SqlDemo.pgCode SqlDemo.timeout id Some SqlDemo.c_db
    SqlDemo.c_tx SqlDemo.c_guard SqlDemo.c_pos (SqlDemo.writerOf SqlDemo.append) "job" id 0%nat
    ltac:(intros k c [= <-]; reflexivity) SqlDemo.demo_codec SqlDemo.demo_appends
    SqlDemo.clock SqlDemo.stepOptions SqlDemo.step SqlDemo.positions SqlDemo.source fst snd id
    (λ c, c = Background) (SqlDemo.start 1) x2 Background 6) as (r & x & Hrun & Hn);
    [reflexivity|reflexivity|reflexivity|reflexivity
    |intros c ->; split; [exact SqlDemo.demo_observes|exact SqlDemo.demo_env]
    |reflexivity|reflexivity| |reflexivity|simpl; lia|].
  - eapply rtc_l; [|apply rtc_once].
    + exists Background, 6%nat, r1. split; [reflexivity|]. split; [simpl; lia|exact E1].
    + exists Background, 6%nat, r2. split; [reflexivity|]. split; [simpl; lia|exact E2].
  - exists r, x. split; [exact Hrun|]. split; [|exact Hn].
    unfold SqlDemo.runFrom in Ho3. rewrite Hrun in Ho3. injection Ho3 as Ho3. exact Ho3.
Defined.
