(* ===== verification/RedisKey.v ===== *)
(** * redis: keys, tokens, leases and operation errors

    The key builder of src/redis/key.go with its segment rules and hash tags,
    owner tokens, leases, TTLs and the typed operation error.  [sha256.Sum256]
    is a parameter. *)

From S2P Require Import Prelude GoError GoText GoEncoding.

Local Open Scope Z_scope.

(** ** Errors *)

Definition ErrInvalidKey : error := Sentinel "redis.ErrInvalidKey".
Definition ErrInvalidHashTag : error := Sentinel "redis.ErrInvalidHashTag".
Definition ErrInvalidTTL : error := Sentinel "redis.ErrInvalidTTL".
Definition ErrCommitUnknown : error := Sentinel "redis.ErrCommitUnknown".
Definition ErrInvalidOwnerToken : error := Sentinel "redis.ErrInvalidOwnerToken".

Definition invalidKey (name : string) : error := Errorf name [ErrInvalidKey].

(** ** Characters *)

Definition isLowerHex (c : Z) : bool := ((48 <=? c) && (c <=? 57)) || ((97 <=? c) && (c <=? 102)).

(** [hex.EncodeToString] *)
Definition EncodeToString (bs : list Z) : text := bs ≫= λ b, [hexDigit (b / 16); hexDigit (b mod 16)].

(** [tokenPattern] and [redactedKeyPattern], anchored at both ends. *)
Definition tokenPattern (s : text) : bool := (length s =? 64)%nat && forallb isLowerHex s.
Definition redactedPrefix : text := lit "redis-key:".
Definition redactedKeyPattern (s : text) : bool :=
  bool_decide (take 10 s = redactedPrefix) && (length s =? 34)%nat && forallb isLowerHex (drop 10 s).

(** ** Key builder *)

Record Key := mkKey { Value : text; RedactedID : text }.

Record KeyBuilder := mkBuilder { prefix : list text; structural : list text; hashTag : text }.

Definition validateStructuralSegment (part : text) : option error :=
  if bool_decide (TrimSpace part = []) || negb (bool_decide (TrimSpace part = part)) ||
     ContainsAny part (lit "{}:")
  then Some (invalidKey "structural segment") else None.

Fixpoint validateStructuralSegments (parts : list text) : option error :=
  match parts with
  | [] => None
  | part :: rest =>
      match validateStructuralSegment part with
      | Some e => Some e
      | None => validateStructuralSegments rest
      end
  end.

Definition validate (b : KeyBuilder) : option error :=
  match prefix b with [] => Some (invalidKey "builder") | _ => None end.

Definition NewKeyBuilder (p : text) : result KeyBuilder :=
  let parts := Split p 58 in
  match validateStructuralSegments parts with
  | Some _ => Fail (invalidKey "prefix")
  | None => Ok (mkBuilder parts [] [])
  end.

Definition Structural (b : KeyBuilder) (parts : list text) : result KeyBuilder :=
  match validate b with
  | Some e => Fail e
  | None =>
      match validateStructuralSegments parts with
      | Some e => Fail e
      | None => Ok (mkBuilder (prefix b) (structural b ++ parts) (hashTag b))
      end
  end.

Definition WithHashTag (b : KeyBuilder) (tag : text) : result KeyBuilder :=
  match validate b with
  | Some e => Fail e
  | None =>
      if bool_decide (TrimSpace tag = []) || ContainsAny tag (lit "{}")
      then Fail (Errorf "invalid hash tag" [ErrInvalidHashTag])
      else Ok (mkBuilder (prefix b) (structural b) tag)
  end.

(** [KeyBuilder.join] *)
Definition join (b : KeyBuilder) (suffix : list text) : text :=
  Join (prefix b ++ structural b ++
        (match hashTag b with [] => [] | tag => [lit "{" ++ tag ++ lit "}"] end) ++ suffix) 58.

Section sha.
(** [sha256.Sum256] of the bytes of a string. *)
Variable sha256 : text → list Z.

Definition RedactedKeyID (key : text) : text :=
  redactedPrefix ++ EncodeToString (take 12 (sha256 key)).

Definition ValidateRedactedKeyID (id : text) : option error :=
  if redactedKeyPattern id then None else Some (invalidKey "redacted key id").

Definition StructuralKey (b : KeyBuilder) (parts : list text) : result Key :=
  match validate b with
  | Some e => Fail e
  | None =>
      match validateStructuralSegments parts with
      | Some e => Fail e
      | None => let value := join b parts in Ok (mkKey value (RedactedKeyID value))
      end
  end.

Definition LogicalKey (b : KeyBuilder) (logicalKey : text) : result Key :=
  match validate b with
  | Some e => Fail e
  | None =>
      if bool_decide (TrimSpace logicalKey = []) then Fail (invalidKey "logical key")
      else let value := join b [logicalKey] in Ok (mkKey value (RedactedKeyID value))
  end.

(** ** Operation errors *)

Record OpLabels := mkLabels { Family : text; Operation : text }.

Definition validLabel (label : text) : bool :=
  negb (negb (bool_decide (label = TrimSpace label)) || bool_decide (label = []) || (64 <? byteLen label) ||
        ContainsAny label (lit "{}:")) &&
  forallb (λ r, negb (IsControl r)) label.

Definition OpLabels_validate (l : OpLabels) : option error :=
  if validLabel (Family l) && validLabel (Operation l) then None else Some (invalidKey "operation labels").

Definition newOpErrorWithKeyID (labels : OpLabels) (keyID : text) (err : option error) : error :=
  Typed "redis.OpError" [fieldOf (Family labels); fieldOf (Operation labels); fieldOf keyID] [] err.

Definition NewOpError (labels : OpLabels) (rawKey : text) (err : option error) : error :=
  match OpLabels_validate labels with
  | Some e => e
  | None => newOpErrorWithKeyID labels (RedactedKeyID rawKey) err
  end.

Definition NewOpErrorWithRedactedKey (labels : OpLabels) (redactedKeyID : text) (err : option error) : error :=
  match OpLabels_validate labels with
  | Some e => e
  | None =>
      match ValidateRedactedKeyID redactedKeyID with
      | Some e => e
      | None => newOpErrorWithKeyID labels redactedKeyID err
      end
  end.

(** ** Tokens, leases and TTLs *)

(** [NewOwnerToken] on what the random source returns. *)
Definition NewOwnerToken (random : result (list Z)) : result text :=
  match random with
  | Fail e => Fail (Errorf "redis owner token" [e])
  | Ok data => Ok (EncodeToString data)
  end.

Definition OwnerToken_Validate (token : text) : option error :=
  if bool_decide (TrimSpace token = []) || negb (tokenPattern token)
  then Some (Errorf "expected 64 lowercase hex characters" [ErrInvalidOwnerToken]) else None.

Definition ParseOwnerToken (value : text) : result text :=
  match OwnerToken_Validate value with Some e => Fail e | None => Ok value end.

(** [Lease] of src/redis/lease.go. *)
Record Lease := mkLease { lease_key : text; lease_token : text }.

Definition Lease_Validate (l : Lease) : option error :=
  if bool_decide (TrimSpace (lease_key l) = []) then Some (invalidKey "lease key")
  else OwnerToken_Validate (lease_token l).

Definition NewLease (key token : text) : result Lease :=
  let lease := mkLease key token in
  match Lease_Validate lease with Some e => Fail e | None => Ok lease end.

Definition Millisecond : Z := 1000000.

Definition ttlName (name : text) : text := if validLabel name then name else lit "ttl".

Definition ValidateTTL (name : text) (ttl : Z) : option error :=
  if ttl <? Millisecond then Some (Errorf "invalid duration" [ErrInvalidTTL]) else None.

Definition TTLMillis (name : text) (ttl : Z) : result Z :=
  match ValidateTTL name ttl with Some e => Fail e | None => Ok (ttl / Millisecond) end.

(** ** The keys of the lock and of the semaphore *)

Record keySet := mkKeySet { owner : text; counter : text; keyID : text }.

(** [buildKeys] of src/redis/lock. *)
Definition lockKeys (logicalKey : text) : result keySet :=
  if bool_decide (TrimSpace logicalKey = []) then Fail (Errorf "lock key" [ErrInvalidKey])
  else
    match NewKeyBuilder (lit "bluetape:redis:lock") with
    | Fail e => Fail e
    | Ok builder =>
        let keyID := RedactedKeyID logicalKey in
        match WithHashTag builder keyID with
        | Fail e => Fail e
        | Ok builder =>
            match StructuralKey builder [lit "owner"] with
            | Fail e => Fail e
            | Ok owner =>
                match StructuralKey builder [lit "counter"] with
                | Fail e => Fail e
                | Ok counter => Ok (mkKeySet (Value owner) (Value counter) keyID)
                end
            end
        end
    end.

(** [buildKeys] of src/redis/semaphore: the key of the leases and the key ID. *)
Definition semaphoreKeys (logicalKey : text) : result (text * text) :=
  if bool_decide (TrimSpace logicalKey = []) then Fail (Errorf "semaphore key" [ErrInvalidKey])
  else
    match NewKeyBuilder (lit "bluetape:redis:semaphore") with
    | Fail e => Fail e
    | Ok builder =>
        let keyID := RedactedKeyID logicalKey in
        match WithHashTag builder keyID with
        | Fail e => Fail e
        | Ok builder =>
            match StructuralKey builder [lit "leases"] with
            | Fail e => Fail e
            | Ok leases => Ok (Value leases, keyID)
            end
        end
    end.

(** ** Laws *)

(** A builder made by the operations of the package. *)
Inductive built : KeyBuilder → Prop :=
| built_new p b : NewKeyBuilder p = Ok b → built b
| built_structural b parts b' : built b → Structural b parts = Ok b' → built b'
| built_tag b tag b' : built b → WithHashTag b tag = Ok b' → built b'.

(** Where a structural key is: the segments, the tag and the suffix, which is
    part of the segments when there is no tag. *)
Definition location (b : KeyBuilder) (parts : list text) : list text * text * list text :=
  match hashTag b with
  | [] => (prefix b ++ structural b ++ parts, [], [])
  | tag => (prefix b ++ structural b, tag, parts)
  end.

Definition segment (p : text) : Prop := 58 ∉ p ∧ 123 ∉ p ∧ 125 ∉ p.

Lemma validateStructuralSegment_None p : validateStructuralSegment p = None → segment p ∧ TrimSpace p ≠ [].
Proof.
  unfold validateStructuralSegment. destruct (_ || _) eqn:E; [done|]. bools. intros _.
  apply bool_decide_eq_false in H. split; [|done].
  rewrite ContainsAny_false in H0. split_and!; intros Hin; apply (H0 _ Hin); vm_compute; set_solver.
Qed.

Lemma validateStructuralSegments_None parts :
  validateStructuralSegments parts = None → Forall segment parts.
Proof.
  induction parts as [|p parts IH]; simpl; [constructor|].
  destruct (validateStructuralSegment p) eqn:E; [done|].
  apply validateStructuralSegment_None in E as [E _]. constructor; auto.
Qed.

Lemma built_wf b :
  built b → prefix b ≠ [] ∧ Forall segment (prefix b ++ structural b) ∧
    123 ∉ hashTag b ∧ 125 ∉ hashTag b.
Proof.
  induction 1 as [p b H|b parts b' _ (Hp & Hs & Ht) H|b tag b' _ (Hp & Hs & Ht) H].
  - unfold NewKeyBuilder in H. destruct (validateStructuralSegments _) eqn:E; [done|].
    injection H as <-. simpl. rewrite app_nil_r. split_and!; [apply splitOn_nonempty|by apply validateStructuralSegments_None|set_solver..].
  - unfold Structural in H. destruct (validate b); [done|].
    destruct (validateStructuralSegments parts) eqn:E; [done|]. injection H as <-. simpl.
    split_and!; [done| |apply Ht..]. rewrite (assoc_L app). apply Forall_app. split; [done|].
    by apply validateStructuralSegments_None.
  - unfold WithHashTag in H. destruct (validate b); [done|]. destruct (_ || _) eqn:E; [done|].
    injection H as <-. bools. simpl. rewrite ContainsAny_false in H0.
    split_and!; [done|done|intros Hin; apply (H0 _ Hin); vm_compute; set_solver..].
Qed.

Lemma StructuralKey_Ok b parts k :
  StructuralKey b parts = Ok k → Value k = join b parts ∧ Forall segment parts.
Proof.
  unfold StructuralKey. destruct (validate b); [done|].
  destruct (validateStructuralSegments parts) eqn:E; [done|]. intros [= <-].
  split; [done|]. by apply validateStructuralSegments_None.
Qed.

Lemma Join_injective a b :
  a ≠ [] → b ≠ [] → Forall segment a → Forall segment b → Join a 58 = Join b 58 → a = b.
Proof.
  intros Ha Hb Hsa Hsb E. rewrite <-(Split_Join a 58), <-(Split_Join b 58); [by rewrite E|done| |done|].
  - eapply Forall_impl; [exact Hsb|]. by intros p [].
  - eapply Forall_impl; [exact Hsa|]. by intros p [].
Qed.

(** What follows the tag. *)
Local Definition tail (parts : list text) : text :=
  match parts with [] => [] | _ => 58 :: Join parts 58 end.

Lemma join_tagged b parts :
  prefix b ≠ [] → hashTag b ≠ [] →
  join b parts = Join (prefix b ++ structural b) 58 ++ [58] ++ 123 :: hashTag b ++ 125 :: tail parts.
Proof.
  intros Hp Ht. unfold join. destruct (hashTag b) as [|c tag] eqn:E; [done|]. rewrite <-E in *.
  rewrite (assoc_L app). rewrite Join_app; [|by destruct (prefix b)|done].
  f_equal. simpl. f_equal. destruct parts as [|q parts]; [done|].
  change (lit "{" ++ hashTag b ++ lit "}") with (123 :: hashTag b ++ [125]). simpl.
  f_equal. by rewrite <-(assoc_L app).
Qed.

Lemma tail_injective a b : Forall segment a → Forall segment b → tail a = tail b → a = b.
Proof.
  destruct a as [|p a], b as [|q b]; try done. intros Ha Hb [= E]. by apply Join_injective.
Qed.

Lemma join_location b1 b2 p1 p2 :
  built b1 → built b2 → Forall segment p1 → Forall segment p2 →
  join b1 p1 = join b2 p2 → location b1 p1 = location b2 p2.
Proof.
  intros (Hp1 & Hs1 & Ho1 & Hc1)%built_wf (Hp2 & Hs2 & Ho2 & Hc2)%built_wf Hf1 Hf2 E.
  assert (∀ b p, prefix b ≠ [] → Forall segment (prefix b ++ structural b) → Forall segment p →
    hashTag b = [] → join b p = Join (prefix b ++ structural b ++ p) 58 ∧
    123 ∉ join b p ∧ Forall segment (prefix b ++ structural b ++ p) ∧ prefix b ++ structural b ++ p ≠ []) as Hplain.
  { intros b p Hp Hs Hf Ht. assert (join b p = Join (prefix b ++ structural b ++ p) 58) as ->
      by (unfold join; by rewrite Ht).
    assert (Forall segment (prefix b ++ structural b ++ p)) as Hall
      by (rewrite (assoc_L app); by apply Forall_app).
    split_and!; [done| |done|by destruct (prefix b)].
    apply Join_free; [done|]. eapply Forall_impl; [exact Hall|]. by intros q (_ & ? & _). }
  assert (∀ l, Forall segment l → 123 ∉ Join l 58) as Hfree.
  { intros l Hl. apply Join_free; [done|]. eapply Forall_impl; [exact Hl|]. by intros q (_ & ? & _). }
  unfold location. destruct (hashTag b1) as [|c1 t1] eqn:E1, (hashTag b2) as [|c2 t2] eqn:E2.
  - destruct (Hplain b1 p1) as (J1 & _ & S1 & N1); [done..|].
    destruct (Hplain b2 p2) as (J2 & _ & S2 & N2); [done..|].
    f_equal. f_equal. apply Join_injective; congruence.
  - exfalso. destruct (Hplain b1 p1) as (_ & J1 & _); [done..|]. apply J1.
    rewrite E, join_tagged by (rewrite ?E2; done). set_solver.
  - exfalso. destruct (Hplain b2 p2) as (_ & J1 & _); [done..|]. apply J1.
    rewrite <-E, join_tagged by (rewrite ?E1; done). set_solver.
  - rewrite !join_tagged in E by (rewrite ?E1, ?E2; done). rewrite E1, E2 in E.
    rewrite !(assoc_L app) in E. apply first_occurrence_unique in E as [Ea Eb].
    2:{ apply not_elem_of_app. split; [by apply Hfree|set_solver]. }
    2:{ apply not_elem_of_app. split; [by apply Hfree|set_solver]. }
    apply (inj (λ l, l ++ [58])) in Ea. rewrite <-E1, <-E2 in Eb.
    apply first_occurrence_unique in Eb as [Et Er]; [|congruence..].
    apply tail_injective in Er; [|done..].
    apply Join_injective in Ea; [|by destruct (prefix b1)|by destruct (prefix b2)|done|done].
    congruence.
Qed.

(** Structural keys do not collide: two builders and suffixes give the
    same Redis key exactly when they agree on the segments, on the hash tag and
    on the suffix, so the braces of the tag and the colons cannot be forged by a
    segment. *)
Theorem redis_keys_injective b1 b2 p1 p2 k1 k2 :
  built b1 → built b2 → StructuralKey b1 p1 = Ok k1 → StructuralKey b2 p2 = Ok k2 →
  Value k1 = Value k2 ↔ location b1 p1 = location b2 p2.
Proof.
  intros Hb1 Hb2 [-> Hf1]%StructuralKey_Ok [-> Hf2]%StructuralKey_Ok.
  split; [by apply join_location|]. unfold location, join.
  destruct (hashTag b1) as [|c1 t1], (hashTag b2) as [|c2 t2]; intros E; try done.
  - injection E as E. by rewrite !app_nil_l, E.
  - injection E as E -> -> ->. rewrite (assoc_L app (prefix b1)), E. by rewrite <-(assoc_L app).
Qed.

Section lock.
Hypothesis Hsha : ∀ s, length (sha256 s) = 32%nat ∧ Forall is_byte (sha256 s).

Lemma hexDigit_lower d : 0 ≤ d < 16 → isLowerHex (hexDigit d) = true.
Proof. intros Hd. unfold hexDigit, isLowerHex. destruct (d <? 10) eqn:E; bools; lia. Qed.

Lemma EncodeToString_lower bs :
  Forall is_byte bs → forallb isLowerHex (EncodeToString bs) = true ∧
    length (EncodeToString bs) = (2 * length bs)%nat.
Proof.
  induction 1 as [|b bs Hb _ [IH1 IH2]]; [done|]. unfold EncodeToString in *. csimpl.
  unfold is_byte in Hb.
  rewrite !hexDigit_lower by (split; [apply Z.div_pos || apply Z.mod_pos_bound; lia|
    apply Z.div_lt_upper_bound || apply Z.mod_pos_bound; lia]).
  split; [done|lia].
Qed.

(** A key ID is well formed, so it can be used in errors and as a hash tag. *)
Lemma RedactedKeyID_valid key :
  ValidateRedactedKeyID (RedactedKeyID key) = None ∧
  ContainsAny (RedactedKeyID key) (lit "{}") = false ∧ TrimSpace (RedactedKeyID key) ≠ [].
Proof.
  destruct (Hsha key) as [Hl Hb].
  destruct (EncodeToString_lower (take 12 (sha256 key))) as [Hx Hn]; [by apply Forall_take|].
  rewrite length_take, Hl in Hn. unfold ValidateRedactedKeyID, redactedKeyPattern, RedactedKeyID.
  split_and!.
  - rewrite take_app_length' by done. rewrite drop_app_length' by done.
    rewrite bool_decide_eq_true_2 by done. rewrite length_app, Hn, Hx. done.
  - apply ContainsAny_false. intros r [Hr|Hr]%elem_of_app.
    + revert r Hr. apply Forall_forall. apply (bool_decide_unpack _). by vm_compute.
    + rewrite forallb_forall in Hx. apply list_elem_of_In in Hr. pose proof (Hx _ Hr) as Hc.
      change (lit "{}") with [123; 125]. intros Hin.
      apply elem_of_cons in Hin as [->|[->|[]%elem_of_nil]%elem_of_cons]; by vm_compute in Hc.
  - intros E. assert (114 ∈ TrimSpace (redactedPrefix ++ EncodeToString (take 12 (sha256 key)))) as Hin.
    { apply TrimSpace_keeps; [|done]. apply elem_of_app. left. vm_compute. by left. }
    rewrite E in Hin. by apply elem_of_nil in Hin.
Qed.

(** The builder of a component with the key ID as its tag. *)
Lemma tagged_builder p k :
  is_Ok (NewKeyBuilder p) →
  ∃ b0 b, NewKeyBuilder p = Ok b0 ∧ WithHashTag b0 (RedactedKeyID k) = Ok b ∧ built b ∧
    location b = λ parts, (Split p 58, RedactedKeyID k, parts).
Proof.
  intros [b0 H]. pose proof (RedactedKeyID_valid k) as (_ & Hc & Ht).
  assert (validate b0 = None ∧ prefix b0 = Split p 58 ∧ structural b0 = []) as (Hv & Hp & Hs).
  { pose proof (built_wf b0 (built_new _ _ H)) as (Hne & _). unfold NewKeyBuilder in H.
    destruct (validateStructuralSegments _); [done|]. injection H as <-. split; [|done].
    unfold validate. simpl in *. by destruct (Split p 58). }
  exists b0, (mkBuilder (prefix b0) (structural b0) (RedactedKeyID k)).
  assert (WithHashTag b0 (RedactedKeyID k) = Ok (mkBuilder (prefix b0) (structural b0) (RedactedKeyID k))) as Hw.
  { unfold WithHashTag. by rewrite Hv, bool_decide_eq_false_2, Hc. }
  split_and!; [done|done|by eapply built_tag; [by eapply built_new|]|].
  unfold location. simpl. rewrite Hp, Hs, app_nil_r. by unfold RedactedKeyID.
Qed.

Lemma StructuralKey_built b parts :
  built b → validateStructuralSegments parts = None →
  StructuralKey b parts = Ok (mkKey (join b parts) (RedactedKeyID (join b parts))).
Proof.
  intros (Hne & _)%built_wf Hp. unfold StructuralKey, validate. rewrite Hp. by destruct (prefix b).
Qed.

Lemma lockKeys_Ok k :
  TrimSpace k ≠ [] → ∃ ks b k1 k2, lockKeys k = Ok ks ∧ keyID ks = RedactedKeyID k ∧ built b ∧
    location b = (λ parts, (Split (lit "bluetape:redis:lock") 58, RedactedKeyID k, parts)) ∧
    StructuralKey b [lit "owner"] = Ok k1 ∧ StructuralKey b [lit "counter"] = Ok k2 ∧
    owner ks = Value k1 ∧ counter ks = Value k2.
Proof.
  intros Hk. destruct (tagged_builder (lit "bluetape:redis:lock") k) as (b0 & b & H0 & H1 & Hb & Hl);
    [by eexists|]. unfold lockKeys. rewrite bool_decide_eq_false_2, H0, H1 by done.
  rewrite !StructuralKey_built by done.
  eexists _, b, _, _. by rewrite !StructuralKey_built.
Qed.

Lemma semaphoreKeys_Ok k :
  TrimSpace k ≠ [] → ∃ l b k1, semaphoreKeys k = Ok (l, RedactedKeyID k) ∧ built b ∧
    location b = (λ parts, (Split (lit "bluetape:redis:semaphore") 58, RedactedKeyID k, parts)) ∧
    StructuralKey b [lit "leases"] = Ok k1 ∧ l = Value k1.
Proof.
  intros Hk. destruct (tagged_builder (lit "bluetape:redis:semaphore") k) as (b0 & b & H0 & H1 & Hb & Hl);
    [by eexists|]. unfold semaphoreKeys. rewrite bool_decide_eq_false_2, H0, H1 by done.
  rewrite !StructuralKey_built by done.
  eexists _, b, _. by rewrite StructuralKey_built.
Qed.

(** Locks and semaphores have keys of their own, shared only by logical keys
    with the same hash. *)
Theorem lock_keys_separate k1 k2 :
  TrimSpace k1 ≠ [] → TrimSpace k2 ≠ [] →
  ∃ ks1 ks2 l i, lockKeys k1 = Ok ks1 ∧ lockKeys k2 = Ok ks2 ∧ semaphoreKeys k2 = Ok (l, i) ∧
    owner ks1 ≠ counter ks2 ∧ l ≠ owner ks1 ∧ l ≠ counter ks1 ∧
    (owner ks1 = owner ks2 ↔ RedactedKeyID k1 = RedactedKeyID k2).
Proof.
  intros H1 H2. destruct (lockKeys_Ok k1 H1) as (ks1 & b1 & o1 & c1 & -> & _ & Hb1 & Hl1 & Ho1 & Hc1 & Eo1 & Ec1).
  destruct (lockKeys_Ok k2 H2) as (ks2 & b2 & o2 & c2 & -> & _ & Hb2 & Hl2 & Ho2 & Hc2 & Eo2 & Ec2).
  destruct (semaphoreKeys_Ok k2 H2) as (l & b3 & l3 & -> & Hb3 & Hl3 & Hs3 & ->).
  assert (∀ b p k b' p' k', built b → built b' → StructuralKey b p = Ok k → StructuralKey b' p' = Ok k' →
    Value k = Value k' → location b p = location b' p') as Hinj.
  { intros b p k b' p' k' Hb Hb' [-> ?]%StructuralKey_Ok [-> ?]%StructuralKey_Ok. by apply join_location. }
  exists ks1, ks2, (Value l3), (RedactedKeyID k2). rewrite Eo1, Ec1, Eo2, Ec2. split_and!; try done.
  - intros E. apply (Hinj _ _ _ _ _ _ Hb1 Hb2 Ho1 Hc2) in E. rewrite Hl1, Hl2 in E. apply (f_equal snd) in E. discriminate E.
  - intros E. apply (Hinj _ _ _ _ _ _ Hb3 Hb1 Hs3 Ho1) in E. rewrite Hl3, Hl1 in E. apply (f_equal (fst ∘ fst)) in E. discriminate E.
  - intros E. apply (Hinj _ _ _ _ _ _ Hb3 Hb1 Hs3 Hc1) in E. rewrite Hl3, Hl1 in E. apply (f_equal (fst ∘ fst)) in E. discriminate E.
  - split; intros E.
    + apply (Hinj _ _ _ _ _ _ Hb1 Hb2 Ho1 Ho2) in E. rewrite Hl1, Hl2 in E. by apply (f_equal (snd ∘ fst)) in E.
    + apply StructuralKey_Ok in Ho1 as [-> _], Ho2 as [-> _].
      assert (location b1 = location b2) as El by (by rewrite Hl1, Hl2, E).
      apply (f_equal (λ f, f [lit "owner"])) in El. unfold location, join in *.
      rewrite (assoc_L app), (assoc_L app (prefix b2)).
      pose proof (f_equal (λ f, f []) Hl1) as G1. pose proof (f_equal (λ f, f []) Hl2) as G2.
      destruct (hashTag b1) eqn:T1, (hashTag b2) eqn:T2; simpl in G1, G2; try done.
      injection El as -> -> ->. done.
Qed.
End lock.
End sha.

Definition zeroSha (_ : text) : list Z := repeat 0 32.
Definition sampleBuilder (tag : string) : KeyBuilder := mkBuilder [lit "app"; lit "lock"] [] (lit tag).

Lemma sampleBuilder_built : built (sampleBuilder "a:b").
Proof.
  eapply (built_tag (mkBuilder [lit "app"; lit "lock"] [] []) (lit "a:b")); [|vm_compute; reflexivity].
  apply (built_new (lit "app:lock")). vm_compute. reflexivity.
Qed.

Lemma redis_keys_injective_witness :
  join (sampleBuilder "a:b") [lit "x"] ≠ join (sampleBuilder "a:b") [lit "y"].
Proof.
  intros E.
  pose proof (proj1 (redis_keys_injective zeroSha (sampleBuilder "a:b") (sampleBuilder "a:b")
    [lit "x"] [lit "y"] (mkKey (join (sampleBuilder "a:b") [lit "x"]) _)
    (mkKey (join (sampleBuilder "a:b") [lit "y"]) _)
    sampleBuilder_built sampleBuilder_built eq_refl eq_refl) E) as H.
  discriminate H.
Defined.
