(* ===== verification/RedisLock.v ===== *)
(** * redis/lock and redis/semaphore

    The fenced lock and the semaphore over one Redis instance.  The Lua scripts
    are functions on the keys they touch.  Calls of any number of clients
    interleave command by command, with answers lost at will and the owner key
    expiring at any time; a run is a list of events for [lockStep] and
    [semStep].  The waiting loop [Acquire] of both packages is a loop over a
    world. *)

From S2P Require Import Prelude GoError GoText GoEncoding RedisKey.

Local Open Scope Z_scope.

(** ** The fenced lock *)

Definition ErrNotAcquired : error := Sentinel "redislock.ErrNotAcquired".
Definition redisNil : error := Sentinel "redis.Nil".

(** The two keys of a lock: the owner's token, and the counter, 0 before the
    first [INCR]. *)
Record lockStore := mkLockStore { l_owner : option text; l_counter : Z }.

(** [acquireScript]; [INCR] fails at the end of its range and the script with
    it. *)
Definition acquireScript (token : text) (s : lockStore) : result (list Z) * lockStore :=
  match l_owner s with
  | Some _ => (Ok [0; 0], s)
  | None =>
      if l_counter s =? maxInt64 then (Fail (Errorf "ERR increment or decrement would overflow" []), s)
      else let fencing := l_counter s + 1 in (Ok [1; fencing], mkLockStore (Some token) fencing)
  end.

Definition parseAcquireResult (cmd : result (list Z)) : result (bool * Z) :=
  match cmd with
  | Fail err => Fail err
  | Ok [status; fencing] =>
      if status =? 0 then
        if negb (fencing =? 0) then Fail (Errorf "unexpected busy fenced lock token" []) else Ok (false, 0)
      else if status =? 1 then
        if fencing <=? 0 then Fail (Errorf "unexpected fencing token" []) else Ok (true, wrap_u64 fencing)
      else Fail (Errorf "unexpected fenced lock script status" [])
  | Ok _ => Fail (Errorf "unexpected fenced lock script result length" [])
  end.

(** [compareDeleteScript] *)
Definition compareDeleteScript (token : text) (s : lockStore) : Z * lockStore :=
  if decide (l_owner s = Some token) then (1, mkLockStore None (l_counter s)) else (0, s).

(** [GET] of the owner key and of the counter, which is stored as a string. *)
Definition getOwner (s : lockStore) : result text :=
  match l_owner s with None => Fail redisNil | Some t => Ok t end.
Definition getCounter (s : lockStore) : result Z :=
  if l_counter s =? 0 then Fail redisNil else Ok (l_counter s).

Record LockLease := mkLockLease { lk_owner : text; fencing : Z; shared : Lease }.

Record FencedLock := mkLock { lk_ttl : Z; lk_keys : keySet }.

Definition lock_operationError (l : FencedLock) (operation : string) (err : option error) : error :=
  Joined [NewOpErrorWithRedactedKey (mkLabels (lit "redis fenced lock") (lit operation)) (keyID (lk_keys l)) err;
          ErrCommitUnknown].

Definition newLease (l : FencedLock) (token : text) (fence : Z) : result LockLease :=
  match NewLease (owner (lk_keys l)) token with
  | Fail e => Fail e
  | Ok shared => Ok (mkLockLease token fence shared)
  end.

(** What [TryAcquire] does before the script: the token and the TTL in
    milliseconds. *)
Definition beginAcquire (l : FencedLock) (ctxErr : option error) (random : result (list Z)) : result (text * Z) :=
  match ctxErr with
  | Some e => Fail e
  | None =>
      match NewOwnerToken random with
      | Fail e => Fail (Errorf "generate fenced lock owner token" [e])
      | Ok owner =>
          match TTLMillis (lit "lock") (lk_ttl l) with
          | Fail e => Fail e
          | Ok millis => Ok (owner, millis)
          end
      end
  end.

(** [reconcileAcquire] after the owner key has been read: [None] goes on to the
    counter. *)
Definition ownerRead (l : FencedLock) (token : text) (cause : error) (reply : result text) : option error :=
  match reply with
  | Ok value =>
      if decide (value = token) then None
      else Some (lock_operationError l "acquire" (errors_Join (Some cause) None))
  | Fail ownerErr => Some (lock_operationError l "acquire" (errors_Join (Some cause) (Some ownerErr)))
  end.

(** The rest of [reconcileAcquire] once the counter has been read. *)
Definition counterRead (l : FencedLock) (token : text) (cause : error) (reply : result Z) : result LockLease :=
  match reply with
  | Fail counterErr => Fail (lock_operationError l "acquire" (errors_Join (Some cause) (Some counterErr)))
  | Ok fence =>
      if 0 <? fence then
        match newLease l token fence with
        | Ok lease => Ok lease
        | Fail leaseErr => Fail (lock_operationError l "acquire" (errors_Join (Some cause) (Some leaseErr)))
        end
      else Fail (lock_operationError l "acquire" (errors_Join (Some cause) None))
  end.

(** [scriptBool] on the reply of a script. *)
Definition scriptBool (labels : OpLabels) (keyID : text) (cmd : result Z) : result bool :=
  match cmd with
  | Fail err => Fail (NewOpErrorWithRedactedKey labels keyID (Some err))
  | Ok r =>
      if r =? 0 then Ok false else if r =? 1 then Ok true
      else Fail (NewOpErrorWithRedactedKey labels keyID (Some (Errorf "unexpected script result type" [])))
  end.

(** [Lease.Release] through [CompareAndDelete], whose script runs. *)
Definition lock_Release (sha256 : text → list Z) (l : FencedLock) (lease : LockLease) (ctxErr : option error)
    (s : lockStore) : result bool * lockStore :=
  match ctxErr with
  | Some e => (Fail e, s)
  | None =>
      match Lease_Validate (shared lease) with
      | Some e => (Fail (lock_operationError l "release" (Some e)), s)
      | None =>
          let labels := mkLabels (lit "redis fenced lock") (lit "compare-delete") in
          let '(r, s') := compareDeleteScript (lease_token (shared lease)) s in
          (match scriptBool labels (RedactedKeyID sha256 (lease_key (shared lease))) (Ok r) with
           | Ok released => Ok released
           | Fail e => Fail (lock_operationError l "release" (Some e))
           end, s')
      end
  end.

(** Where a call of [TryAcquire] is.  [ACounting] and [AReconciled] remember the
    value that the counter had when the owner key was read. *)
Inductive acquirePc : Type :=
| AIdle
| ACalled (token : text)
| AProbing (token : text) (cause : error)
| ACounting (token : text) (cause : error) (seen : Z)
| AGranted (lease : LockLease)
| AReconciled (lease : LockLease) (seen : Z)
| ARefused (err : error).

(** All clients of one lock.  [l_used] are the tokens drawn so far, [l_history]
    the acquisitions that scripts have made, in order, [l_late] the tokens of
    scripts that are still under way although their clients have given up, and
    [l_returned] the calls that have returned a lease, the newest first. *)
Record lockSystem := mkLockSystem {
  l_store : lockStore;
  l_threads : list acquirePc;
  l_used : list text;
  l_history : list (text * Z);
  l_late : list text;
  l_returned : list acquirePc
}.

(** What becomes of a script whose answer does not arrive. *)
Inductive fate : Type := Ran | Dropped | Delayed.

(** [LateScript] runs a delayed script.  [LateRelease] runs the release script of
    any token, as a release that was delayed or whose answer was lost does. *)
Inductive lockEvent : Type :=
| Begin (i : nat) (token : text)
| Answered (i : nat)
| Lost (i : nat) (f : fate) (cause : error)
| LateScript (k : nat)
| ReadOwner (i : nat) (failure : option error)
| ReadCounter (i : nat) (failure : option error)
| ReleaseLease (i : nat) (delivered : bool)
| LateRelease (token : text)
| ExpireOwner.

(** The lease of a call that has returned one. *)
Definition leaseOf (pc : acquirePc) : option LockLease :=
  match pc with AGranted lease | AReconciled lease _ => Some lease | _ => None end.

Definition setPc (s : lockSystem) (i : nat) (pc : acquirePc) : lockSystem :=
  mkLockSystem (l_store s) (<[i := pc]> (l_threads s)) (l_used s) (l_history s) (l_late s)
    (match leaseOf pc with Some _ => pc :: l_returned s | None => l_returned s end).

(** The script of [token] runs on the store. *)
Definition runScript (token : text) (s : lockSystem) : result (bool * Z) * lockSystem :=
  let '(cmd, store') := acquireScript token (l_store s) in
  let answer := parseAcquireResult cmd in
  (answer, mkLockSystem store' (l_threads s) (l_used s)
             (match answer with Ok (true, f) => l_history s ++ [(token, f)] | _ => l_history s end)
             (l_late s) (l_returned s)).

Definition setLate (s : lockSystem) (late : list text) : lockSystem :=
  mkLockSystem (l_store s) (l_threads s) (l_used s) (l_history s) late (l_returned s).

Definition setStore (s : lockSystem) (st : lockStore) : lockSystem :=
  mkLockSystem st (l_threads s) (l_used s) (l_history s) (l_late s) (l_returned s).

(** One event, [None] where it cannot happen. *)
Definition lockStep (sha256 : text → list Z) (l : FencedLock) (e : lockEvent) (s : lockSystem) : option lockSystem :=
  match e with
  | Begin i token =>
      match l_threads s !! i with
      | Some AIdle | Some (ARefused _) =>
          if decide (token ∈ l_used s) then None
          else Some (mkLockSystem (l_store s) (<[i := ACalled token]> (l_threads s)) (token :: l_used s) (l_history s)
                       (l_late s) (l_returned s))
      | _ => None
      end
  | Answered i =>
      match l_threads s !! i with
      | Some (ACalled token) =>
          let '(answer, s') := runScript token s in
          Some (setPc s' i
            match answer with
            | Fail err => AProbing token err
            | Ok (false, _) => ARefused ErrNotAcquired
            | Ok (true, fence) =>
                match newLease l token fence with Ok lease => AGranted lease | Fail e => ARefused e end
            end)
      | _ => None
      end
  | Lost i f cause =>
      match l_threads s !! i with
      | Some (ACalled token) =>
          Some (setPc match f with
                      | Ran => (runScript token s).2
                      | Dropped => s
                      | Delayed => setLate s (token :: l_late s)
                      end i (AProbing token cause))
      | _ => None
      end
  | LateScript k =>
      match l_late s !! k with
      | Some token => Some (setLate (runScript token s).2 (delete k (l_late s)))
      | None => None
      end
  | ReadOwner i failure =>
      match l_threads s !! i with
      | Some (AProbing token cause) =>
          let reply := match failure with Some e => Fail e | None => getOwner (l_store s) end in
          Some (setPc s i
            match ownerRead l token cause reply with
            | Some e => ARefused e
            | None => ACounting token cause (l_counter (l_store s))
            end)
      | _ => None
      end
  | ReadCounter i failure =>
      match l_threads s !! i with
      | Some (ACounting token cause seen) =>
          let reply := match failure with Some e => Fail e | None => getCounter (l_store s) end in
          Some (setPc s i
            match counterRead l token cause reply with
            | Fail e => ARefused e
            | Ok lease => AReconciled lease seen
            end)
      | _ => None
      end
  | ReleaseLease i delivered =>
      match l_threads s !! i ≫= leaseOf with
      | Some lease =>
          if delivered then Some (setPc (setStore s (lock_Release sha256 l lease None (l_store s)).2) i AIdle)
          else Some s
      | None => None
      end
  | LateRelease token => Some (setStore s (compareDeleteScript token (l_store s)).2)
  | ExpireOwner => Some (setStore s (mkLockStore None (l_counter (l_store s))))
  end.

Fixpoint lockRun (sha256 : text → list Z) (l : FencedLock) (es : list lockEvent) (s : lockSystem) : option lockSystem :=
  match es with
  | [] => Some s
  | e :: es' => match lockStep sha256 l e s with Some s' => lockRun sha256 l es' s' | None => None end
  end.

Definition lockInit (n : nat) : lockSystem := mkLockSystem (mkLockStore None 0) (repeat AIdle n) [] [] [] [].

(** *** Invariant *)

(** What a call owes to the scripts. *)
Definition pcInv (s : lockSystem) (pc : acquirePc) : Prop :=
  match pc with
  | ACounting token _ seen => (token, seen) ∈ l_history s
  | AGranted lease => (lk_owner lease, fencing lease) ∈ l_history s
  | AReconciled lease seen => (lk_owner lease, seen) ∈ l_history s ∧ seen ≤ fencing lease ≤ l_counter (l_store s)
  | _ => True
  end.

(** The scripts have handed out 1, 2, 3 and so on up to the counter, each to a
    token of its own, and the owner key holds the last of them. *)
Definition historyInv (s : lockSystem) : Prop :=
  l_counter (l_store s) = Z.of_nat (length (l_history s)) ∧
  (∀ k t f, l_history s !! k = Some (t, f) → f = Z.of_nat k + 1) ∧
  NoDup (l_history s).*1 ∧ (l_history s).*1 ⊆ l_used s ∧
  (∀ t, l_owner (l_store s) = Some t → last (l_history s) = Some (t, l_counter (l_store s))).

(** A token whose script has not run belongs to one call, or to one delayed
    script. *)
Definition unrunInv (s : lockSystem) : Prop :=
  NoDup (l_late s) ∧ (∀ t, t ∈ l_late s → t ∈ l_used s ∧ t ∉ (l_history s).*1) ∧
  ∀ i t, l_threads s !! i = Some (ACalled t) →
    t ∈ l_used s ∧ t ∉ (l_history s).*1 ∧ t ∉ l_late s ∧ ∀ j, l_threads s !! j = Some (ACalled t) → j = i.

Definition lockInv (s : lockSystem) : Prop :=
  l_counter (l_store s) ≤ maxInt64 ∧ historyInv s ∧ unrunInv s ∧
  (∀ i pc, l_threads s !! i = Some pc → pcInv s pc) ∧ ∀ pc, pc ∈ l_returned s → pcInv s pc.

Lemma history_le s t f : historyInv s → (t, f) ∈ l_history s → 0 < f ≤ l_counter (l_store s).
Proof.
  intros (Hc & Hf & _) [k Hk]%list_elem_of_lookup. pose proof (Hf _ _ _ Hk) as ->.
  apply lookup_lt_Some in Hk. lia.
Qed.

(** Every number up to the counter belongs to an acquisition. *)
Lemma history_at s f : historyInv s → 0 < f ≤ l_counter (l_store s) → ∃ t, (t, f) ∈ l_history s.
Proof.
  intros (Hc & Hf & _) Hle. destruct (lookup_lt_is_Some_2 (l_history s) (Z.to_nat (f - 1))) as [[t f'] Hk]; [lia|].
  pose proof (Hf _ _ _ Hk) as E. exists t. replace f with f' by lia. by eapply list_elem_of_lookup_2.
Qed.

Lemma history_functional s t f t' f' :
  historyInv s → (t, f) ∈ l_history s → (t', f') ∈ l_history s → (t = t' ↔ f = f').
Proof.
  intros (_ & Hf & Hnd & _) [k Hk]%list_elem_of_lookup [k' Hk']%list_elem_of_lookup.
  split; intros E; subst.
  - assert (k = k') as ->; [|congruence]. eapply NoDup_lookup; [exact Hnd|..]; rewrite list_lookup_fmap.
    + by rewrite Hk.
    + by rewrite Hk'.
  - pose proof (Hf _ _ _ Hk). pose proof (Hf _ _ _ Hk'). assert (k = k') as -> by lia. congruence.
Qed.

(** What the other calls have does not change. *)
Lemma pcInv_mono s s' pc :
  l_history s ⊆ l_history s' → l_counter (l_store s) ≤ l_counter (l_store s') → pcInv s pc → pcInv s' pc.
Proof. intros Hh Hc. destruct pc; simpl; try done; [set_solver..|]. intros [? ?]. split; [set_solver|lia]. Qed.

(** A call moves to a pc that is not [ACalled]; the store and the history may
    grow, and so may the delayed scripts. *)
Lemma lockInv_move s s' i pc :
  lockInv s → l_threads s' = <[i := pc]> (l_threads s) → l_used s' = l_used s →
  l_counter (l_store s') ≤ maxInt64 → l_counter (l_store s) ≤ l_counter (l_store s') →
  l_history s ⊆ l_history s' → historyInv s' → (∀ t, pc ≠ ACalled t) → pcInv s' pc →
  l_returned s' ⊆ pc :: l_returned s → NoDup (l_late s') →
  (∀ t, t ∈ l_late s' → t ∈ l_used s ∧ ∀ j, j ≠ i → l_threads s !! j ≠ Some (ACalled t)) →
  (∀ t, t ∈ l_late s' ∨ (∃ j, j ≠ i ∧ l_threads s !! j = Some (ACalled t)) → t ∉ (l_history s').*1) →
  lockInv s'.
Proof.
  intros (_ & _ & (_ & _ & Hcalled) & Hpc & Hret) Ht Hu Hmax Hcnt Hsub Hh Hnc Hpc' Hret' Hnd Hlate Hnew.
  assert (Hother : ∀ j t, l_threads s' !! j = Some (ACalled t) → j ≠ i ∧ l_threads s !! j = Some (ACalled t)).
  { intros j t E. rewrite Ht in E. apply list_lookup_insert_Some in E as [(-> & -> & _)|[? E]]; [|done]. by destruct (Hnc t). }
  split_and!; [done|done|split_and!; [done| |]| |].
  - intros t Ht'. rewrite Hu. split; [by apply Hlate|auto].
  - intros j t [Hne E]%Hother. rewrite Hu. destruct (Hcalled _ _ E) as (? & _ & _ & Huniq). split_and!; [done|eauto| |].
    + intros Hl. by apply (proj2 (Hlate t Hl) j).
    + intros k [_ E']%Hother. auto.
  - intros j pc0. rewrite Ht. intros E. apply list_lookup_insert_Some in E as [(-> & -> & _)|[_ E]]; [done|].
    eapply pcInv_mono; eauto.
  - intros pc0 [->|Hin]%Hret'%elem_of_cons; [done|]. eapply pcInv_mono; eauto.
Qed.

Lemma acquire_result token st cmd st' :
  0 ≤ l_counter st ≤ maxInt64 → acquireScript token st = (cmd, st') →
  match parseAcquireResult cmd with
  | Ok (true, f) => l_owner st = None ∧ f = l_counter st + 1 ∧ f ≤ maxInt64 ∧ st' = mkLockStore (Some token) f
  | _ => st' = st
  end.
Proof.
  intros Hr. unfold acquireScript. destruct (l_owner st); [intros [= <- <-]; done|].
  destruct (l_counter st =? maxInt64) eqn:E; bools; [intros [= <- <-]; done|].
  intros [= <- <-]. simpl. destruct (_ <=? 0) eqn:E'; bools; [lia|].
  rewrite wrap_u64_id; [split_and!; try done; lia|]. unfold in_u64, maxInt64 in *. lia.
Qed.

(** Running a script keeps the books. *)
Lemma runScript_inv s token answer s' :
  lockInv s → token ∈ l_used s → token ∉ (l_history s).*1 → runScript token s = (answer, s') →
  l_threads s' = l_threads s ∧ l_used s' = l_used s ∧ l_late s' = l_late s ∧ l_returned s' = l_returned s ∧
  l_counter (l_store s') ≤ maxInt64 ∧ l_counter (l_store s) ≤ l_counter (l_store s') ∧
  l_history s ⊆ l_history s' ∧ historyInv s' ∧ (l_history s').*1 ⊆ token :: (l_history s).*1 ∧
  (∀ f, answer = Ok (true, f) → (token, f) ∈ l_history s' ∧ f = l_counter (l_store s) + 1).
Proof.
  intros (Hmax & Hh & _) Hused Hnew. unfold runScript.
  destruct (acquireScript token (l_store s)) as [cmd st'] eqn:E.
  pose proof Hh as (Hc & Hf & Hnd & Hsub & Hown).
  apply acquire_result in E; [|lia]. destruct (parseAcquireResult cmd) as [[[] f]|err]; intros [= <- <-]; simpl.
  2,3: subst; split_and!; try done; set_solver.
  destruct E as (Hnone & -> & Hle & ->). simpl. split_and!; try done; [lia|set_solver| |rewrite fmap_app; set_solver|].
  - unfold historyInv. simpl. rewrite fmap_app. split_and!.
    + rewrite length_app. simpl. lia.
    + intros k t f [Hk|[Hk E]]%lookup_app_Some; [by eapply Hf|].
      destruct (k - length (l_history s))%nat eqn:Ek; simplify_eq/=. lia.
    + apply NoDup_app. split_and!; [done|set_solver|apply NoDup_singleton].
    + set_solver.
    + intros t [= <-]. apply last_snoc.
  - intros f [= <-]. split; [set_solver|done].
Qed.

Lemma newLease_Ok l token fence lease :
  newLease l token fence = Ok lease → lk_owner lease = token ∧ fencing lease = fence.
Proof. unfold newLease. destruct (NewLease _ _); [|done]. by intros [= <-]. Qed.

Lemma counterRead_Ok l token cause reply lease :
  counterRead l token cause reply = Ok lease → lk_owner lease = token ∧ reply = Ok (fencing lease).
Proof.
  unfold counterRead. destruct reply as [fence|]; [|done]. destruct (0 <? fence); [|done].
  destruct (newLease _ _ _) as [lease'|] eqn:E; [|done]. intros [= <-].
  apply newLease_Ok in E as [-> ->]. done.
Qed.

(** The owner key goes away; nothing else changes. *)
Lemma historyInv_unowned s s' :
  historyInv s → l_counter (l_store s') = l_counter (l_store s) → l_history s' = l_history s →
  l_used s' = l_used s → (l_owner (l_store s') = None ∨ l_owner (l_store s') = l_owner (l_store s)) → historyInv s'.
Proof.
  intros (Hc & Hf & Hnd & Hsub & Hown) E1 E2 E3 Eo. unfold historyInv. rewrite E1, E2, E3.
  split_and!; try done. intros t Ht. apply Hown. destruct Eo as [Eo|Eo]; congruence.
Qed.

Lemma compareDelete_store token st :
  l_counter (compareDeleteScript token st).2 = l_counter st ∧
  (l_owner (compareDeleteScript token st).2 = None ∨ l_owner (compareDeleteScript token st).2 = l_owner st).
Proof. unfold compareDeleteScript. case_decide; simpl; auto. Qed.

Lemma lock_Release_store sha256 l lease st :
  l_counter (lock_Release sha256 l lease None st).2 = l_counter st ∧
  (l_owner (lock_Release sha256 l lease None st).2 = None ∨
   l_owner (lock_Release sha256 l lease None st).2 = l_owner st).
Proof.
  unfold lock_Release. destruct (Lease_Validate _); [auto|].
  pose proof (compareDelete_store (lease_token (shared lease)) st). by destruct (compareDeleteScript _ _).
Qed.

(** A call moves and the rest stays. *)
Lemma lockInv_setPc s i pc : lockInv s → (∀ t, pc ≠ ACalled t) → pcInv s pc → lockInv (setPc s i pc).
Proof.
  intros Hinv Hnc Hp. pose proof Hinv as (Hmax & Hh & (Hnd & Hlate & Hcalled) & _).
  apply (lockInv_move s _ i pc); simpl; try done.
  - destruct (leaseOf pc); set_solver.
  - intros t Ht. split; [by apply Hlate|]. intros j _ Hj. by apply (Hcalled _ _ Hj).
  - intros t [Ht|(j & _ & Hj)]; [by apply Hlate|by apply (Hcalled _ _ Hj)].
Qed.

Lemma lockInv_setStore s st :
  lockInv s → l_counter st = l_counter (l_store s) → (l_owner st = None ∨ l_owner st = l_owner (l_store s)) → lockInv (setStore s st).
Proof.
  intros (Hmax & Hh & Hun & Hpc & Hret) Ec Eo. split_and!; simpl; [by rewrite Ec| |done| |].
  - eapply historyInv_unowned; [exact Hh|done..].
  - intros i pc Hi. apply (pcInv_mono s); [done|simpl; lia|eauto].
  - intros pc Hi. apply (pcInv_mono s); [done|simpl; lia|eauto].
Qed.

Lemma step_begin sha256 l i token s s' : lockInv s → lockStep sha256 l (Begin i token) s = Some s' → lockInv s'.
Proof.
  intros (Hmax & Hh & (Hnd & Hlate & Hcalled) & Hpc & Hret) H. simpl in H.
  destruct (l_threads s !! i) as [pc|] eqn:Hi; [|done].
  destruct (decide (token ∈ l_used s)) as [|Hfresh]; [by destruct pc|].
  assert (s' = mkLockSystem (l_store s) (<[i := ACalled token]> (l_threads s)) (token :: l_used s) (l_history s) (l_late s) (l_returned s)) as ->
    by (destruct pc; congruence). clear H.
  pose proof Hh as (Hc & Hf & Hn & Hsub & Hown).
  assert (∀ j t, l_threads s !! j = Some (ACalled t) → t ≠ token) as Hother.
  { intros j t Ht ->. by destruct (Hcalled _ _ Ht). }
  split_and!; [done| |split_and!; [done| |]| |]; simpl.
  - unfold historyInv. simpl. split_and!; try done. set_solver.
  - intros t Ht. destruct (Hlate t Ht). split; [by right|done].
  - intros j t E. apply list_lookup_insert_Some in E as [(<- & [= ->] & Hlt)|[Hne E]].
    + split_and!; [by left|set_solver| |]; [intros Hl; by destruct (Hlate _ Hl)|].
      intros k E. apply list_lookup_insert_Some in E as [(<- & _)|[_ E]]; [done|]. by destruct (Hother _ _ E).
    + destruct (Hcalled _ _ E) as (? & ? & ? & Hu). split_and!; [by right|done|done|].
      intros k E'. apply list_lookup_insert_Some in E' as [(<- & [= ->] & _)|[_ E']]; [by destruct (Hother _ _ E)|auto].
  - intros j pc' E. apply list_lookup_insert_Some in E as [(<- & <- & _)|[_ E]]; [done|]. by apply (Hpc j).
  - done.
Qed.

(** The script of a call runs, and the call moves. *)
Lemma lockInv_script s i token answer s1 pc :
  lockInv s → l_threads s !! i = Some (ACalled token) → runScript token s = (answer, s1) →
  (∀ t, pc ≠ ACalled t) → pcInv s1 pc → lockInv (setPc s1 i pc).
Proof.
  intros Hinv Hi Er Hnc Hp. pose proof Hinv as (_ & _ & (Hnd & Hlate & Hcalled) & _).
  destruct (Hcalled _ _ Hi) as (Hu & Hnew & Hnl & Huniq).
  destruct (runScript_inv _ _ _ _ Hinv Hu Hnew Er) as (Et & Eu & El & Ert & Hm & Hc & Hsub & Hh & Hgrow & _).
  apply (lockInv_move s _ i pc); simpl; rewrite ?Et, ?Eu, ?El, ?Ert; try done.
  - destruct (leaseOf pc); set_solver.
  - intros t Ht. split; [by apply Hlate|]. intros j _ Hj. by apply (Hcalled _ _ Hj).
  - intros t Ht [->|Hin]%Hgrow%elem_of_cons.
    + destruct Ht as [Ht|(j & Hj & E)]; [done|]. by apply Hj, Huniq.
    + destruct Ht as [Ht|(j & Hj & E)]; [by destruct (Hlate t Ht)|by destruct (Hcalled _ _ E) as (_ & ? & _)].
Qed.

Lemma step_script sha256 l i s s' :
  lockInv s → (∃ f cause, lockStep sha256 l (Lost i f cause) s = Some s') ∨ lockStep sha256 l (Answered i) s = Some s' →
  lockInv s'.
Proof.
  intros Hinv H. pose proof Hinv as (Hmax & Hh & (Hnd & Hlate & Hcalled) & Hpc & Hret).
  assert (∃ token, l_threads s !! i = Some (ACalled token)) as [token Hi].
  { destruct H as [(f & cause & H)|H]; simpl in H; destruct (l_threads s !! i) as [[]|]; try done; eauto. }
  destruct (Hcalled _ _ Hi) as (Hu & Hnew & Hnl & Huniq). destruct (runScript token s) as [answer s1] eqn:Er.
  destruct H as [(f & cause & H)|H]; simpl in H; rewrite Hi, Er in H; injection H as <-.
  - destruct f; [by eapply lockInv_script|by apply lockInv_setPc|].
    apply (lockInv_move s _ i (AProbing token cause)); simpl; try done; [set_solver|by constructor| |].
    + intros t [->|Ht]%elem_of_cons.
      * split; [done|]. intros j Hj E. by apply Hj, Huniq.
      * split; [by apply Hlate|]. intros j _ Hj. by apply (Hcalled _ _ Hj).
    + intros t [[->|Ht]%elem_of_cons|(j & _ & Hj)]; [done|by apply Hlate|by apply (Hcalled _ _ Hj)].
  - eapply lockInv_script; [done|done|done| |].
    + intros t. destruct answer as [[[] f]|err]; try done. by destruct (newLease _ _ _).
    + destruct answer as [[[] f]|err]; try done. destruct (newLease l token f) as [lease|] eqn:El; [|done].
      apply newLease_Ok in El as [Eo Ef]. simpl. rewrite Eo, Ef.
      destruct (runScript_inv _ _ _ _ Hinv Hu Hnew Er) as (_ & _ & _ & _ & _ & _ & _ & _ & _ & Hans). by apply Hans.
Qed.

Lemma step_late sha256 l k s s' : lockInv s → lockStep sha256 l (LateScript k) s = Some s' → lockInv s'.
Proof.
  intros Hinv H. pose proof Hinv as (Hmax & Hh & (Hnd & Hlate & Hcalled) & Hpc & Hret). simpl in H.
  destruct (l_late s !! k) as [token|] eqn:Hk; [|done]. injection H as <-.
  pose proof (list_elem_of_lookup_2 _ _ _ Hk) as Hin. destruct (Hlate _ Hin) as [Hu Hnew].
  destruct (runScript token s) as [answer s1] eqn:Er.
  destruct (runScript_inv _ _ _ _ Hinv Hu Hnew Er) as (Et & Eu & El & Ert & Hm & Hc & Hsub & Hh1 & Hgrow & _).
  assert (Hrest : ∀ t, t ∈ delete k (l_late s) → t ∈ l_late s ∧ t ≠ token).
  { intros t Ht. pose proof (delete_Permutation _ _ _ Hk) as Hp. rewrite Hp in Hnd, Hin. apply NoDup_cons in Hnd as [Hnt _].
    split; [rewrite Hp; by right|]. by intros ->. }
  apply (lockInv_move s _ (length (l_threads s)) AIdle); simpl; rewrite ?Et, ?Eu, ?Ert; try done.
  - by rewrite list_insert_ge.
  - set_solver.
  - pose proof (delete_Permutation _ _ _ Hk) as Hp. rewrite Hp in Hnd. by apply NoDup_cons in Hnd as [_ ?].
  - intros t [Ht _]%Hrest. split; [by apply Hlate|]. intros j _ Hj. by apply (Hcalled _ _ Hj).
  - intros t Ht [->|Hin']%Hgrow%elem_of_cons.
    + destruct Ht as [[_ Ht]%Hrest|(j & _ & E)]; [done|]. by apply (Hcalled _ _ E).
    + destruct Ht as [[Ht _]%Hrest|(j & _ & E)]; [by destruct (Hlate t Ht)|by destruct (Hcalled _ _ E) as (_ & ? & _)].
Qed.

Lemma step_read sha256 l i failure s s' :
  lockInv s → lockStep sha256 l (ReadOwner i failure) s = Some s' ∨ lockStep sha256 l (ReadCounter i failure) s = Some s' →
  lockInv s'.
Proof.
  intros Hinv H. pose proof Hinv as (Hmax & Hh & Hun & Hpc & Hret).
  destruct H as [H|H]; simpl in H; destruct (l_threads s !! i) as [pc|] eqn:Hi; try done; destruct pc; try done;
    injection H as <-.
  - destruct (ownerRead l token cause _) eqn:E; [by apply lockInv_setPc|]. apply lockInv_setPc; [done|done|]. simpl.
    destruct failure; [done|]. simpl in E. unfold getOwner in E.
    destruct (l_owner (l_store s)) as [t|] eqn:Eo; [|done]. simpl in E. case_decide; [|done]. subst.
    destruct Hh as (_ & _ & _ & _ & Hown). apply last_Some_elem_of. by apply Hown.
  - destruct (counterRead l token cause _) as [lease|] eqn:E; [|by apply lockInv_setPc].
    apply counterRead_Ok in E as [Eo Er]. apply lockInv_setPc; [done|done|]. simpl. rewrite Eo.
    pose proof (Hpc _ _ Hi) as Hseen. simpl in Hseen. split; [done|].
    destruct failure; [done|]. unfold getCounter in Er. destruct (_ =? 0); [done|]. injection Er as <-.
    apply (history_le s) in Hseen; [lia|done].
Qed.

Lemma lockStep_inv sha256 l e s s' : lockInv s → lockStep sha256 l e s = Some s' → lockInv s'.
Proof.
  intros Hinv H. destruct e.
  - by eapply step_begin.
  - eapply step_script; eauto.
  - eapply step_script; [done|]. left. eauto.
  - by eapply step_late.
  - eapply step_read; eauto.
  - eapply step_read; eauto.
  - cbn [lockStep] in H. destruct (l_threads s !! i ≫= leaseOf) as [lease|]; [|done].
    destruct delivered; [|by simplify_eq]. injection H as <-.
    destruct (lock_Release_store sha256 l lease (l_store s)) as [Ec Eo]. apply lockInv_setPc; [|done|done].
    by apply lockInv_setStore.
  - injection H as <-. destruct (compareDelete_store token (l_store s)). by apply lockInv_setStore.
  - injection H as <-. apply lockInv_setStore; [done|done|by left].
Qed.

Lemma lockInit_threads n i pc : l_threads (lockInit n) !! i = Some pc → pc = AIdle.
Proof. simpl. revert i. induction n as [|n IH]; intros [|i]; simpl; [done..|congruence|apply IH]. Qed.

Lemma lockInit_inv n : lockInv (lockInit n).
Proof.
  split_and!; [by vm_compute|split_and!; try done; by constructor|split_and!; simpl; [constructor|set_solver|]| |].
  - by intros i t H%lockInit_threads.
  - by intros i pc ->%lockInit_threads.
  - set_solver.
Qed.

Lemma lockRun_inv sha256 l es s s' : lockInv s → lockRun sha256 l es s = Some s' → lockInv s'.
Proof.
  revert s. induction es as [|e es IH]; simpl; intros s Hs H; [by simplify_eq|].
  destruct (lockStep sha256 l e s) eqn:E; [|done]. eapply IH; [|done]. by eapply lockStep_inv.
Qed.

(** *** Properties of the lock *)

(** C12. Fencing.  However the calls of any number of clients interleave, with
    answers lost, scripts that run after their client has given up, releases that
    run late and the owner key expiring at any time: no two leases that the
    acquiring script has answered for share a fencing token unless they have the
    same owner; such a lease carries a token greater than that of every lease
    handed out before, released ones included, and its owner then has the lock;
    and a lease found by reconciliation belongs to an acquisition that a script
    made for its owner, and carries the token of that acquisition, or the token of
    another owner's acquisition that ran after the owner key was read and before
    the counter was. *)
Theorem fencing_tokens_increase sha256 l n es s :
  lockRun sha256 l es (lockInit n) = Some s →
  (∀ a b, AGranted a ∈ l_returned s → AGranted b ∈ l_returned s → lk_owner a = lk_owner b ↔ fencing a = fencing b) ∧
  (∀ a seen, AReconciled a seen ∈ l_returned s → (lk_owner a, seen) ∈ l_history s ∧
    (fencing a = seen ∨ seen < fencing a ∧ ∃ t, t ≠ lk_owner a ∧ (t, fencing a) ∈ l_history s)) ∧
  (∀ i s' a, lockStep sha256 l (Answered i) s = Some s' → l_threads s' !! i = Some (AGranted a) →
    l_owner (l_store s') = Some (lk_owner a) ∧
    ∀ pc b, pc ∈ l_returned s → leaseOf pc = Some b → fencing b < fencing a).
Proof.
  intros Hrun. pose proof (lockRun_inv _ _ _ _ _ (lockInit_inv n) Hrun) as Hinv.
  pose proof Hinv as (Hmax & Hh & (_ & _ & Hcalled) & Hpc & Hret). split_and!.
  - intros a b Ha%Hret Hb%Hret. by apply (history_functional s).
  - intros a seen [Hin Hle]%Hret. split; [done|]. destruct (decide (fencing a = seen)); [by left|right]. split; [lia|].
    pose proof (history_le s _ _ Hh Hin). destruct (history_at s (fencing a) Hh) as [t Ht]; [lia|]. exists t. split; [|done].
    intros ->. destruct (history_functional s _ _ _ _ Hh Hin Ht) as [E _]. specialize (E eq_refl). lia.
  - intros i s' a Hstep Hi'. simpl in Hstep.
    destruct (l_threads s !! i) as [pc|] eqn:Hi; [|done]. destruct pc as [|token| | | | |]; try done.
    destruct (runScript token s) as [answer s1] eqn:Er. destruct (Hcalled _ _ Hi) as (Hu & Hnew & _).
    destruct (runScript_inv _ _ _ _ Hinv Hu Hnew Er) as (Ht & _ & _ & _ & _ & _ & _ & _ & _ & Hans).
    injection Hstep as <-. simpl in Hi'. rewrite Ht, list_lookup_insert_eq in Hi' by (by eapply lookup_lt_Some).
    destruct answer as [[[] f]|err]; try done. destruct (newLease l token f) eqn:El; [|done].
    injection Hi' as ->. apply newLease_Ok in El as [-> ->]. destruct (Hans f eq_refl) as [Hin ->]. split.
    + simpl. unfold runScript in Er. destruct (acquireScript token (l_store s)) as [cmd st'] eqn:Ea.
      destruct Hh as (Hc & _). apply acquire_result in Ea; [|lia]. injection Er as Ep <-. rewrite Ep in Ea.
      by destruct Ea as (_ & _ & _ & ->).
    + intros pc b Hj%Hret Hb. destruct pc; simpl in Hb; simplify_eq; simpl in Hj.
      * apply (history_le s) in Hj; [lia|done].
      * lia.
Qed.

Definition sampleToken (c : Z) : text := repeat c 64.
Definition sampleLock : FencedLock :=
  mkLock 1000000000 (mkKeySet (lit "bluetape:redis:lock:{job}:owner") (lit "bluetape:redis:lock:{job}:counter")
    (RedactedKeyID zeroSha (lit "job"))).

(** The second acquisition runs late, after its client has given up, and expires;
    the third client then gets the token 3. *)
Lemma fencing_tokens_increase_witness :
  match lockRun zeroSha sampleLock
          [Begin 0 (sampleToken 97); Answered 0; ReleaseLease 0 true; Begin 1 (sampleToken 98); Lost 1 Delayed (Sentinel "timeout");
           LateScript 0; ExpireOwner; Begin 2 (sampleToken 99); Answered 2] (lockInit 3) with
  | Some s => (∀ a b, AGranted a ∈ l_returned s → AGranted b ∈ l_returned s → lk_owner a = lk_owner b ↔ fencing a = fencing b) ∧
              (λ pc, fencing <$> leaseOf pc) <$> l_returned s = [Some 3; Some 1]
  | None => False
  end.
Proof.
  destruct (lockRun _ _ _ _) as [s|] eqn:E; [|vm_compute in E; discriminate E].
  destruct (fencing_tokens_increase _ _ _ _ _ E) as (H & _). split; [exact H|].
  vm_compute in E. injection E as <-. reflexivity.
Defined.

(** Reconciliation can hand out the token of another owner.  The answer of
    the first client's script is lost; its probe still reads its own token in
    the owner key; the key expires and a second client acquires the lock; the
    first client then reads the counter.  Both return a lease with the same
    fencing token, so a resource that rejects older tokens accepts the writes
    of the first client after those of the second. *)
Theorem reconciled_lease_shares_token :
  match lockRun zeroSha sampleLock
          [Begin 0 (sampleToken 97); Lost 0 Ran (Errorf "i/o timeout" []); ReadOwner 0 None;
           ExpireOwner; Begin 1 (sampleToken 98); Answered 1; ReadCounter 0 None] (lockInit 2) with
  | Some s =>
      ∃ a b, l_threads s = [AReconciled a 1; AGranted b] ∧ lk_owner a ≠ lk_owner b ∧
        fencing a = 2 ∧ fencing b = 2 ∧ l_owner (l_store s) = Some (lk_owner b) ∧
        l_history s = [(lk_owner a, 1); (lk_owner b, 2)]
  | None => False
  end.
Proof.
  destruct (lockRun _ _ _ _) as [s|] eqn:E; [|vm_compute in E; discriminate E].
  vm_compute in E. injection E as <-. eexists _, _. split; [reflexivity|].
  split; [by vm_compute|]. by split_and!.
Qed.

(** ** The semaphore *)

Record Semaphore := mkSemaphore { permits : Z; sem_ttl : Z; leasesKey : text; sem_keyID : text }.

Definition ErrPermitNotAcquired : error := Sentinel "redissem.ErrNotAcquired".

(** [Options.normalize] of the semaphore on a client that is not nil, and
    [New]. *)
Definition newSemaphore (sha256 : text → list Z) (key : text) (permits ttl : Z) : result Semaphore :=
  if bool_decide (TrimSpace key = []) then Fail (Errorf "semaphore key" [ErrInvalidKey])
  else if permits <=? 0 then Fail (Errorf "permits" [ErrInvalidKey])
  else
    match ValidateTTL (lit "semaphore") ttl with
    | Some e => Fail e
    | None =>
        match semaphoreKeys sha256 key with
        | Fail e => Fail e
        | Ok (leases, keyID) => Ok (mkSemaphore permits ttl leases keyID)
        end
    end.

(** The script's clock in milliseconds, from the microseconds of [TIME]. *)
Definition nowMillis (micros : Z) : Z := micros / 1000000 * 1000 + micros mod 1000000 / 1000.

(** [acquireScript] of the semaphore on the sorted set of the leases. *)
Definition sem_acquireScript (permits ttlMillis : Z) (token : text) (micros : Z) (zset : gmap text Z) :
    Z * gmap text Z :=
  let now := nowMillis micros in
  let zset := filter (λ kv, now < kv.2) zset in
  if permits <=? Z.of_nat (size zset) then (0, zset) else (1, <[token := now + ttlMillis]> zset).

Definition sem_releaseScript (token : text) (zset : gmap text Z) : Z * gmap text Z :=
  (match zset !! token with Some _ => 1 | None => 0 end, delete token zset).

(** [Lease.Release] of the semaphore on the reply of the script. *)
Definition sem_Release (m : Semaphore) (ctxErr : option error) (reply : result Z) : result bool :=
  let operationError err := Joined [NewOpErrorWithRedactedKey (mkLabels (lit "redis semaphore") (lit "release"))
                                      (sem_keyID m) (Some err); ErrCommitUnknown] in
  match ctxErr with
  | Some e => Fail e
  | None =>
      match reply with
      | Fail err => Fail (operationError err)
      | Ok r =>
          if r =? 0 then Ok false else if r =? 1 then Ok true
          else Fail (operationError (Errorf "unexpected semaphore release result" []))
      end
  end.

Definition sem_parseAcquireResult (cmd : result Z) : result bool :=
  match cmd with
  | Fail e => Fail e
  | Ok r =>
      if r =? 0 then Ok false else if r =? 1 then Ok true
      else Fail (Errorf "unexpected semaphore acquire script result" [])
  end.

(** All clients of one semaphore: the clock of Redis, the sorted set, and the
    leases that clients hold with the time their permit ends. *)
Record semSystem := mkSemSystem {
  s_micros : Z;
  s_leases : gmap text Z;
  s_held : list (text * Z);
  s_used : list text
}.

Inductive semEvent : Type :=
| Tick (micros : Z)
| TryPermit (token : text) (delivered : bool)
| ReleasePermit (token : text) (ran : bool).

(** One event, [None] where it cannot happen: time goes forward and tokens are
    fresh. A lost answer leaves a permit that nobody holds. *)
Definition semStep (m : Semaphore) (e : semEvent) (s : semSystem) : option semSystem :=
  match e with
  | Tick d => if d <? 0 then None else Some (mkSemSystem (s_micros s + d) (s_leases s) (s_held s) (s_used s))
  | TryPermit token delivered =>
      if decide (token ∈ s_used s) then None
      else
        match TTLMillis (lit "semaphore") (sem_ttl m) with
        | Fail _ => None
        | Ok ttl =>
            let '(r, zset) := sem_acquireScript (permits m) ttl token (s_micros s) (s_leases s) in
            Some (mkSemSystem (s_micros s) zset
              (match sem_parseAcquireResult (Ok r), delivered with
               | Ok true, true => (token, nowMillis (s_micros s) + ttl) :: s_held s
               | _, _ => s_held s
               end) (token :: s_used s))
        end
  | ReleasePermit token ran =>
      Some (mkSemSystem (s_micros s)
        (if ran then (sem_releaseScript token (s_leases s)).2 else s_leases s)
        (if ran then filter (λ h, h.1 ≠ token) (s_held s) else s_held s) (s_used s))
  end.

Fixpoint semRun (m : Semaphore) (es : list semEvent) (s : semSystem) : option semSystem :=
  match es with
  | [] => Some s
  | e :: es' => match semStep m e s with Some s' => semRun m es' s' | None => None end
  end.

Definition semInit (micros : Z) : semSystem := mkSemSystem micros ∅ [] [].

(** The leases whose permit has not ended. *)
Definition liveLeases (s : semSystem) : list (text * Z) :=
  filter (λ h, nowMillis (s_micros s) < h.2) (s_held s).

Definition semInv (m : Semaphore) (s : semSystem) : Prop :=
  Z.of_nat (size (s_leases s)) ≤ permits m ∧ NoDup (s_held s).*1 ∧ (s_held s).*1 ⊆ s_used s ∧
  dom (s_leases s) ⊆ list_to_set (s_used s) ∧
  ∀ t e, (t, e) ∈ s_held s → nowMillis (s_micros s) < e → s_leases s !! t = Some e.

Lemma nowMillis_mono a b : a ≤ b → nowMillis a ≤ nowMillis b.
Proof.
  intros H. assert (∀ x, nowMillis x = x / 1000) as E.
  { intros x. unfold nowMillis. rewrite (Z.div_mod x 1000000) at 3 by lia.
    replace (1000000 * (x / 1000000) + x mod 1000000) with (x mod 1000000 + x / 1000000 * 1000 * 1000) by lia.
    rewrite Z.div_add by lia. lia. }
  rewrite !E. apply Z.div_le_mono; lia.
Qed.

Lemma live_bounded m s : semInv m s → Z.of_nat (length (liveLeases s)) ≤ permits m.
Proof.
  intros (Hsize & Hnd & _ & _ & Hlive).
  assert (NoDup (liveLeases s).*1) as Hnd'.
  { eapply sublist_NoDup; [exact Hnd|]. apply fmap_sublist, sublist_filter. }
  transitivity (Z.of_nat (size (s_leases s))); [|done].
  rewrite <-(length_fmap fst), <-(size_list_to_set (C:=gset text) _ Hnd'), <-size_dom.
  apply inj_le, subseteq_size. intros t Ht. apply elem_of_list_to_set, list_elem_of_fmap in Ht as ([t' e] & -> & Ht).
  apply list_elem_of_filter in Ht as [He Ht]. apply elem_of_dom. exists e. by apply Hlive.
Qed.

Lemma semStep_inv m e s s' : 0 < permits m → semInv m s → semStep m e s = Some s' → semInv m s'.
Proof.
  intros Hm (Hsize & Hnd & Hu & Hdom & Hlive) H. destruct e as [d|token delivered|token ran]; simpl in H.
  - destruct (d <? 0) eqn:E; bools; [done|]. injection H as <-. split_and!; try done. simpl.
    intros t e Hin Hlt. apply Hlive; [done|]. pose proof (nowMillis_mono (s_micros s) (s_micros s + d)). lia.
  - destruct (decide (token ∈ s_used s)) as [|Hfresh]; [done|].
    destruct (TTLMillis _ _) as [ttl|]; [|done]. unfold sem_acquireScript in H.
    set (z := filter _ (s_leases s)) in H.
    assert (z ⊆ s_leases s) as Hz by apply map_filter_subseteq.
    assert (size z ≤ size (s_leases s))%nat as Hsz.
    { rewrite <-!size_dom. apply subseteq_size, subseteq_dom, Hz. }
    assert (∀ t e, (t, e) ∈ s_held s → nowMillis (s_micros s) < e → z !! t = Some e) as Hkeep.
    { intros t e Hin Hlt. apply map_lookup_filter_Some. split; [by apply Hlive|done]. }
    assert (dom z ⊆ list_to_set (s_used s)) as Hzd.
    { etrans; [|exact Hdom]. by apply subseteq_dom. }
    destruct (permits m <=? Z.of_nat (size z)) eqn:E; bools.
    + injection H as <-. split_and!; simpl; [lia|done|set_solver|set_solver|done].
    + assert (z !! token = None) as Hnone.
      { apply not_elem_of_dom. intros Hin. apply Hzd in Hin. by apply elem_of_list_to_set in Hin. }
      injection H as <-. split_and!; simpl.
      * rewrite map_size_insert_None by done. lia.
      * destruct delivered; [|done]. csimpl. constructor; [|done]. set_solver.
      * destruct delivered; csimpl; set_solver.
      * rewrite dom_insert_L. set_solver.
      * intros t e Hin Hlt. destruct (decide (t = token)) as [->|Hne].
        -- destruct delivered; [|exfalso; apply Hfresh, Hu, list_elem_of_fmap; by exists (token, e)].
           apply elem_of_cons in Hin as [[= ->]|Hin]; [by rewrite lookup_insert_eq|].
           exfalso. apply Hfresh, Hu, list_elem_of_fmap. by exists (token, e).
        -- rewrite lookup_insert_ne by done. apply Hkeep; [|done]. destruct delivered; [|done].
           apply elem_of_cons in Hin as [[= -> _]|Hin]; done.
  - injection H as <-. destruct ran; [|done]. split_and!; simpl.
    + destruct (s_leases s !! token) eqn:E.
      * rewrite map_size_delete_Some by eauto. lia.
      * by rewrite delete_id.
    + eapply sublist_NoDup; [exact Hnd|]. apply fmap_sublist, sublist_filter.
    + etrans; [|exact Hu]. intros t. rewrite !list_elem_of_fmap. intros (h & -> & [_ Hin]%list_elem_of_filter). eauto.
    + rewrite dom_delete_L. set_solver.
    + intros t e [Hne Hin]%list_elem_of_filter Hlt. simpl in Hne. rewrite lookup_delete_ne by done. auto.
Qed.

Lemma semRun_inv m es s s' : 0 < permits m → semInv m s → semRun m es s = Some s' → semInv m s'.
Proof.
  intros Hm. revert s. induction es as [|e es IH]; simpl; intros s Hs H; [by simplify_eq|].
  destruct (semStep m e s) eqn:E; [|done]. eapply IH; [|done]. by eapply semStep_inv.
Qed.

(** The semaphore never grants more than its permits: whatever calls run,
    with answers lost and time passing, at most [permits] leases are live, and
    an attempt is refused only when that many permits have not ended. *)
Theorem semaphore_bounds_leases sha256 key n ttl m t0 es s :
  newSemaphore sha256 key n ttl = Ok m → semRun m es (semInit t0) = Some s →
  Z.of_nat (length (liveLeases s)) ≤ n ∧ Z.of_nat (size (s_leases s)) ≤ n ∧
  (∀ token, token ∉ s_used s → ∃ s', semStep m (TryPermit token true) s = Some s' ∧
    (token ∈ (s_held s').*1 ↔ Z.of_nat (size (filter (λ kv, nowMillis (s_micros s) < kv.2) (s_leases s))) < n)).
Proof.
  unfold newSemaphore. destruct (bool_decide _); [done|]. destruct (n <=? 0) eqn:En; [done|]. bools.
  destruct (ValidateTTL _ _) eqn:Et; [done|]. destruct (semaphoreKeys _ _) as [[lk ki]|]; [|done].
  intros [= <-]. set (m := mkSemaphore _ _ _ _). intros Hrun.
  assert (semInv m s) as Hinv.
  { eapply semRun_inv; [| |exact Hrun]; [done|].
    split_and!; simpl; [rewrite map_size_empty; simpl; lia|constructor|set_solver|set_solver|set_solver]. }
  split_and!; [by apply (live_bounded m)|apply Hinv|]. intros token Hfresh. simpl.
  rewrite decide_False by done. unfold TTLMillis. rewrite Et. unfold sem_acquireScript. simpl.
  destruct (n <=? _) eqn:E; bools; (eexists; split; [done|]); simpl.
  - split; [|lia]. intros Hin. destruct Hinv as (_ & _ & Hu & _). by apply Hu in Hin.
  - split; [lia|]. intros _. csimpl. by left.
Qed.

Lemma semaphore_bounds_leases_witness :
  match newSemaphore zeroSha (lit "pool") 1 5000000 with
  | Fail _ => False
  | Ok m =>
      match semRun m [TryPermit (sampleToken 97) true; TryPermit (sampleToken 98) true; Tick 5000;
                      TryPermit (sampleToken 99) true] (semInit 0) with
      | None => False
      | Some s => Z.of_nat (length (liveLeases s)) ≤ 1 ∧ (s_held s).*1 = [sampleToken 99; sampleToken 97]
      end
  end.
Proof.
  destruct (newSemaphore zeroSha (lit "pool") 1 5000000) as [m|] eqn:Em; [|vm_compute in Em; discriminate Em].
  destruct (semRun m _ _) as [s|] eqn:E.
  - split; [exact (proj1 (semaphore_bounds_leases _ _ _ _ _ _ _ _ Em E))|].
    vm_compute in Em. injection Em as <-. vm_compute in E. injection E as <-. reflexivity.
  - vm_compute in Em. injection Em as <-. vm_compute in E. discriminate E.
Defined.

(** ** Waiting

    [Acquire] of both packages: the same loop around [TryAcquire]. *)

Definition initialRetryDelay : Z := 5 * Millisecond.
Definition maxRetryDelay : Z := 100 * Millisecond.

Definition nextRetryDelay (delay : Z) : Z :=
  if maxRetryDelay <=? delay then maxRetryDelay
  else let next := delay * 2 in if maxRetryDelay <? next then maxRetryDelay else next.

Section wait.
Context {W L : Type} (busy : string) (tryAcquire : Call W (result L)) (waitForRetry : Z → Call W (option error)).

Fixpoint acquireLoop (fuel : nat) (delay : Z) : Go W (result L) :=
  match fuel with
  | O => out_of_fuel
  | S fuel' =>
      r ← call tryAcquire;
      match r with
      | Ok lease => mret (Ok lease)
      | Fail err =>
          if errors_Is err busy then
            (e ← call (waitForRetry delay);
             match e with
             | Some e => mret (Fail e)
             | None => acquireLoop fuel' (nextRetryDelay delay)
             end)
          else mret (Fail err)
      end
  end.

Definition Acquire (fuel : nat) : Go W (result L) := acquireLoop fuel initialRetryDelay.

(** The delay of the [k]-th wait. *)
Definition delayAt (k : nat) : Z := Z.min (initialRetryDelay * 2 ^ Z.of_nat k) maxRetryDelay.

Lemma nextRetryDelay_at k : nextRetryDelay (delayAt k) = delayAt (S k).
Proof.
  unfold nextRetryDelay, delayAt. rewrite Nat2Z.inj_succ, Z.pow_succ_r by lia.
  pose proof (Z.pow_pos_nonneg 2 (Z.of_nat k)). unfold initialRetryDelay, maxRetryDelay, Millisecond in *.
  destruct (_ <=? _) eqn:E; bools; [lia|]. destruct (_ <? _) eqn:E'; bools; lia.
Qed.

(** [refused k n w]: from the [k]-th attempt on, [n] more attempts find the
    resource busy and wait in full before one that does not, or a wait that is
    interrupted. *)
Inductive refused : nat → nat → W → Prop :=
| refused_answer k w : (∀ e, (tryAcquire w).1 = Fail e → errors_Is e busy = false) → refused k 0 w
| refused_interrupted k w e : (waitForRetry (delayAt k) (tryAcquire w).2).1 = Some e → refused k 0 w
| refused_again k n w : refused (S k) n (waitForRetry (delayAt k) (tryAcquire w).2).2 → refused k (S n) w.

(** Waiting ends with the first answer that is not busy, or with the error of
    the context; the waits double from 5 to 100 milliseconds. *)
Lemma acquireLoop_returns n : ∀ k fuel w,
  refused k n w → (n < fuel)%nat →
  wp (acquireLoop fuel (delayAt k)) (λ r _, match r with
    | Ok _ => True
    | Fail e => errors_Is e busy = false ∨ ∃ j w', (waitForRetry (delayAt j) w').1 = Some e
    end) w.
Proof.
  induction n as [|n IH]; intros k fuel w Hr Hfuel; (destruct fuel as [|fuel]; [lia|]); simpl; do 2 wp_step;
    (inversion Hr as [? ? Hans|? ? e He|? ? ? Hag]; subst; clear Hr); run_call r w1; simpl in *.
  - destruct r as [lease|err]; [by wp_step|]. rewrite (Hans _ eq_refl). wp_step. left. by apply Hans.
  - destruct r as [lease|err]; [by wp_step|]. destruct (errors_Is err busy) eqn:E; [|wp_step; auto].
    do 2 wp_step. rewrite He. wp_step. right. eauto.
  - destruct r as [lease|err]; [by wp_step|]. destruct (errors_Is err busy) eqn:E; [|wp_step; auto].
    do 2 wp_step. destruct (waitForRetry (delayAt k) w1) as [[e|] w2] eqn:Ew; simpl in *.
    + wp_step. right. exists k, w1. by rewrite Ew.
    + rewrite nextRetryDelay_at. apply IH; [done|lia].
Qed.
End wait.
