(* ===== verification/Ksuid.v ===== *)
(** * id: the millisecond KSUID

    Models src/id/ksuid_millis.go: bit input and output with the masks and
    shifts of the code, the Base62 code with five-bit entries, the generator
    and the parser.  A string is the list of its bytes; [None] is an index
    panic.  The clock answers milliseconds since the Unix epoch. *)

From S2P Require Import Prelude GoError GoText GoEncoding Snowflake.

Local Open Scope Z_scope.

Definition ksuidMillisEpoch : Z := 1400000000000.
Definition ksuidMillisTimestampLen : nat := 8.
Definition ksuidMillisPayloadLen : nat := 12.
Definition ksuidMillisTotalBytes : nat := 20.
Definition ksuidMillisEncodedLen : nat := 27.
Definition ksuidMillisCompactMask : Z := 30.
Definition ksuidMillisMask5Bits : Z := 31.

Definition ksuidMillisEncodeTable : list Z :=
  lit "ABCDEFGHIJKLMNOPQRSTUVWXYZabcdefghijklmnopqrstuvwxyz0123456789".

(** ** Bit input *)

(** [(1 << n) - 1] *)
Definition mask (n : nat) : Z := Z.shiftl 1 (Z.of_nat n) - 1.

(** [bitInput.readBits] at [offset]. *)
Definition readBits (bs : bytes) (offset bitsCount : nat) : option Z :=
  let bitNum := (offset mod 8)%nat in
  let byteNum := (offset / 8)%nat in
  let firstRead := Nat.min (8 - bitNum) bitsCount in
  let secondRead := (bitsCount - firstRead)%nat in
  match bs !! byteNum with
  | None => None
  | Some b =>
      let result := Z.shiftr (Z.land b (Z.shiftl (mask firstRead) (Z.of_nat bitNum))) (Z.of_nat bitNum) in
      match bs !! (byteNum + 1)%nat with
      | Some b' =>
          if (0 <? secondRead)%nat
          then Some (Z.lor result (Z.shiftl (Z.land b' (mask secondRead)) (Z.of_nat firstRead)))
          else Some result
      | None => Some result
      end
  end.

(** [rawBits&ksuidMillisCompactMask == ksuidMillisCompactMask] *)
Definition compact (bits : Z) : bool := Z.land bits ksuidMillisCompactMask =? ksuidMillisCompactMask.

(** One round of the encoder: the character and the next offset. *)
Definition nextChar (data : bytes) (offset : nat) : option (Z * nat) :=
  match readBits data offset 6 with
  | None => None
  | Some rawBits =>
      let '(bits, offset') :=
        if compact rawBits then (Z.land rawBits ksuidMillisMask5Bits, (offset + 5)%nat)
        else (rawBits, (offset + 6)%nat) in
      match ksuidMillisEncodeTable !! Z.to_nat bits with
      | None => None
      | Some c => Some (c, offset')
      end
  end.

(** The loop of [encodeKSUIDMillisBase62Prefix]. *)
Fixpoint encodeLoop (fuel : nat) (data : bytes) (offset limit : nat) (dst : bytes) : option bytes :=
  match fuel with
  | O => Some dst
  | S fuel' =>
      if (offset <? length data * 8)%nat && ((limit =? 0)%nat || (length dst <? limit)%nat)
      then
        match nextChar data offset with
        | None => None
        | Some (c, offset') => encodeLoop fuel' data offset' limit (dst ++ [c])
        end
      else Some dst
  end.

Definition encodeKSUIDMillisBase62Prefix (dst data : bytes) (limit : nat) : option bytes :=
  encodeLoop (length data * 8) data 0 limit dst.

Definition encodeKSUIDMillisBase62 (data : bytes) : option bytes :=
  match data with [] => Some [] | _ => encodeKSUIDMillisBase62Prefix [] data 0 end.

(** ** Bit output *)

Record bitOutput := mkOutput { o_bytes : bytes; o_offset : nat }.

Definition newBitOutput (capacity : nat) : bitOutput := mkOutput (replicate ((capacity + 7) / 8) 0) 0.

Definition bitsCountUpToByte (o : bitOutput) : nat :=
  let bit := (o_offset o mod 8)%nat in if (bit =? 0)%nat then 0 else 8 - bit.

(** [bytes[i] |= byte(v)] *)
Definition orByte (bs : bytes) (i : nat) (v : Z) : option bytes :=
  match bs !! i with None => None | Some b => Some (<[i := Z.lor b (v mod 256)]> bs) end.

Definition writeBits (bitsCount : nat) (bits : Z) (o : bitOutput) : option bitOutput :=
  if (bitsCount =? 0)%nat then Some o
  else
    let bitNum := (o_offset o mod 8)%nat in
    let byteNum := (o_offset o / 8)%nat in
    let firstWrite := Nat.min (8 - bitNum) bitsCount in
    let secondWrite := (bitsCount - firstWrite)%nat in
    match orByte (o_bytes o) byteNum (Z.shiftl (Z.land bits (mask firstWrite)) (Z.of_nat bitNum)) with
    | None => None
    | Some bs1 =>
        if (0 <? secondWrite)%nat
        then
          match orByte bs1 (byteNum + 1) (Z.land (Z.shiftr bits (Z.of_nat firstWrite)) (mask secondWrite)) with
          | None => None
          | Some bs2 => Some (mkOutput bs2 (o_offset o + bitsCount))
          end
        else Some (mkOutput bs1 (o_offset o + bitsCount))
    end.

Definition toArray (o : bitOutput) : bytes :=
  let size := (o_offset o / 8)%nat in
  take (if (o_offset o mod 8 =? 0)%nat then size else size + 1) (o_bytes o).

(** ** Decoder *)

Definition ksuidMillisDecodedBits (char : Z) : result Z :=
  if (65 <=? char) && (char <=? 90) then Ok (char - 65)
  else if (97 <=? char) && (char <=? 122) then Ok (char - 97 + 26)
  else if (48 <=? char) && (char <=? 57) then Ok (char - 48 + 52)
  else Fail (Errorf "invalid KSUID millis Base62 character" []).

(** The loop of [decodeKSUIDMillisBase62]; a string is read byte by byte, as the
    first byte of a longer rune is rejected. *)
Fixpoint decodeLoop (value : bytes) (output : bitOutput) : option (result bitOutput) :=
  match value with
  | [] => Some (Ok output)
  | c :: rest =>
      match ksuidMillisDecodedBits c with
      | Fail err => Some (Fail err)
      | Ok bits =>
          let bitsCount := if compact bits then 5%nat
                           else match rest with [] => bitsCountUpToByte output | _ => 6%nat end in
          match writeBits bitsCount bits output with
          | None => None
          | Some output' => decodeLoop rest output'
          end
      end
  end.

Definition decodeKSUIDMillisBase62 (value : bytes) (expectedBytes : Z) : option (result bytes) :=
  match value with
  | [] => Some (Ok [])
  | _ =>
      if expectedBytes <? 0 then Some (Fail (OptionError "expectedBytes" (errorsNew "must not be negative")))
      else
        match decodeLoop value (newBitOutput (length value * 6)) with
        | None => None
        | Some (Fail err) => Some (Fail err)
        | Some (Ok output) =>
            let decoded := toArray output in
            let expected := Z.to_nat expectedBytes in
            if (length decoded =? expected)%nat then Some (Ok decoded)
            else Some (Ok (take expected decoded ++ replicate (expected - length decoded) 0))
        end
  end.

Definition decodeKSUIDMillis (value : bytes) : option (result bytes) :=
  if negb (length value =? ksuidMillisEncodedLen)%nat
  then Some (Fail (Errorf "valid KSUID millis strings are 27 characters" []))
  else decodeKSUIDMillisBase62 value (Z.of_nat ksuidMillisTotalBytes).

(** ** Generator and parser *)

Definition parseError (value : bytes) (err : error) : error :=
  Typed "id.ParseError" [FStr "ksuid-millis"; fieldOf value] ["id.ErrInvalidID"] (Some err).

(** [NextString] on the answers of the clock and of [io.ReadFull]. *)
Definition NextString (now : Z) (entropy : result bytes) : option (result bytes) :=
  let timestamp := putUint64 (wrap_u64 (wrap_i64 (now - ksuidMillisEpoch))) in
  match entropy with
  | Fail err => Some (Fail (EntropyError "ksuid-millis" err))
  | Ok payload =>
      match encodeKSUIDMillisBase62Prefix [] (timestamp ++ payload) ksuidMillisEncodedLen with
      | None => None
      | Some encoded => Some (Ok encoded)
      end
  end.

Definition ParseKSUIDMillis (value : bytes) : option (result bytes) :=
  match decodeKSUIDMillis value with
  | None => None
  | Some (Fail err) => Some (Fail (parseError value err))
  | Some (Ok _) => Some (Ok value)
  end.

(** [KSUIDMillisTime] as milliseconds since the Unix epoch. *)
Definition KSUIDMillisTime (value : bytes) : option (result Z) :=
  match decodeKSUIDMillis value with
  | None => None
  | Some (Fail err) => Some (Fail (parseError value err))
  | Some (Ok raw) =>
      let offset := wrap_i64 (Uint64 (take ksuidMillisTimestampLen raw)) in
      Some (Ok (wrap_i64 (offset + ksuidMillisEpoch)))
  end.

Example ksuid_zero :
  encodeKSUIDMillisBase62Prefix [] (replicate 20 0) 27 = Some (replicate 27 65).
Proof. reflexivity. Qed.
Example ksuid_sample :
  match NextString 1700000000123 (Ok [255; 254; 30; 3; 1; 2; 4; 200; 100; 7; 9; 31]) with
  | Some (Ok s) => KSUIDMillisTime s = Some (Ok 1700000000123)
  | _ => False
  end.
Proof. vm_compute. reflexivity. Qed.

(** ** Bits *)

(** Bit [n] of a byte string, least significant bit of each byte first; past the
    end every bit is zero. *)
Definition bitAt (bs : bytes) (n : nat) : bool :=
  Z.testbit (default 0 (bs !! (n / 8)%nat)) (Z.of_nat (n mod 8)).

Lemma mask_testbit n k : Z.testbit (mask n) (Z.of_nat k) = (k <? n)%nat.
Proof.
  unfold mask. rewrite Z.shiftl_1_l, Z.sub_1_r, <-Z.ones_equiv.
  destruct (Nat.ltb_spec k n); [apply Z.ones_spec_low; lia|apply Z.ones_spec_high; lia].
Qed.

(** Positions of a run of bits that starts at [offset]. *)
Lemma bit_first offset k :
  (k < 8 - offset mod 8)%nat → ((offset + k) / 8 = offset / 8)%nat ∧ ((offset + k) mod 8 = offset mod 8 + k)%nat.
Proof.
  intros Hk. pose proof (Nat.div_mod_eq offset 8). pose proof (Nat.mod_upper_bound offset 8).
  split; [symmetry; apply (Nat.div_unique _ _ _ (offset mod 8 + k))|symmetry; apply (Nat.mod_unique _ _ (offset / 8))]; lia.
Qed.

Lemma bit_second offset k :
  (8 - offset mod 8 ≤ k < 16 - offset mod 8)%nat →
  ((offset + k) / 8 = offset / 8 + 1)%nat ∧ ((offset + k) mod 8 = k - (8 - offset mod 8))%nat.
Proof.
  intros Hk. pose proof (Nat.div_mod_eq offset 8). pose proof (Nat.mod_upper_bound offset 8).
  split; [symmetry; apply (Nat.div_unique _ _ _ (k - (8 - offset mod 8)))|
          symmetry; apply (Nat.mod_unique _ _ (offset / 8 + 1))]; lia.
Qed.

Lemma byte_testbit_high b k : is_byte b → (8 ≤ k)%nat → Z.testbit b (Z.of_nat k) = false.
Proof.
  unfold is_byte. intros Hb Hk. rewrite <-(Z.mod_small b (2 ^ 8)) by (change (2 ^ 8) with 256; lia).
  apply Z.mod_pow2_bits_high. lia.
Qed.

(** Reading gives the next bits as a number. *)
Lemma readBits_spec bs offset count :
  (offset < length bs * 8)%nat → (count ≤ 8)%nat →
  ∃ v, readBits bs offset count = Some v ∧
    ∀ k, Z.testbit v (Z.of_nat k) = (k <? count)%nat && bitAt bs (offset + k).
Proof.
  intros Hoff Hc. pose proof (Nat.mod_upper_bound offset 8) as Hm.
  assert (offset / 8 < length bs)%nat as Hlt by (apply Nat.Div0.div_lt_upper_bound; lia).
  unfold readBits. destruct (lookup_lt_is_Some_2 _ _ Hlt) as [b Hb]. rewrite Hb.
  set (first := Nat.min (8 - offset mod 8) count).
  assert (∀ k, Z.testbit (Z.shiftr (Z.land b (Z.shiftl (mask first) (Z.of_nat (offset mod 8))))
      (Z.of_nat (offset mod 8))) (Z.of_nat k) = (k <? first)%nat && bitAt bs (offset + k)) as Hfirst.
  { intros k. rewrite Z.shiftr_spec, Z.land_spec, Z.shiftl_spec by lia.
    replace (Z.of_nat k + Z.of_nat (offset mod 8) - Z.of_nat (offset mod 8)) with (Z.of_nat k) by lia.
    rewrite mask_testbit, andb_comm. destruct (Nat.ltb_spec k first) as [Hk|]; [|done].
    unfold bitAt. destruct (bit_first offset k) as [-> ->]; [lia|]. rewrite Hb. simpl. f_equal. lia. }
  assert (∀ k, (first ≤ k < count)%nat →
    (offset + k) / 8 = offset / 8 + 1 ∧ (offset + k) mod 8 = k - first)%nat as Hsecond.
  { intros k Hk. destruct (bit_second offset k) as [-> ->]; [lia|]. split; [done|]. lia. }
  destruct (bs !! (offset / 8 + 1)%nat) as [b'|] eqn:Hb'; [destruct (0 <? count - first)%nat eqn:E|].
  - eexists. split; [done|]. intros k. rewrite Z.lor_spec, Hfirst, Z.shiftl_spec by lia.
    destruct (Nat.ltb_spec k first) as [Hk|Hk]; simpl.
    + rewrite (Z.testbit_neg_r _ (Z.of_nat k - Z.of_nat first)) by lia. rewrite orb_false_r.
      by replace (k <? count)%nat with true by (symmetry; apply Nat.ltb_lt; lia).
    + replace (Z.of_nat k - Z.of_nat first) with (Z.of_nat (k - first)) by lia.
      rewrite Z.land_spec, mask_testbit, andb_comm.
      destruct (Nat.ltb_spec k count) as [Hk'|Hk'].
      * replace (k - first <? count - first)%nat with true by (symmetry; apply Nat.ltb_lt; lia).
        unfold bitAt. destruct (Hsecond k) as [-> ->]; [lia|]. by rewrite Hb'.
      * by replace (k - first <? count - first)%nat with false by (symmetry; apply Nat.ltb_ge; lia).
  - eexists. split; [done|]. intros k. rewrite Hfirst. apply Nat.ltb_ge in E.
    by replace first with count by lia.
  - eexists. split; [done|]. intros k. rewrite Hfirst. destruct (Nat.ltb_spec k first) as [Hk|Hk].
    + by replace (k <? count)%nat with true by (symmetry; apply Nat.ltb_lt; lia).
    + destruct (Nat.ltb_spec k count) as [Hk'|]; [|done]. unfold bitAt.
      destruct (Hsecond k) as [-> _]; [lia|]. rewrite Hb'. simpl. by rewrite Z.bits_0.
Qed.

Lemma orByte_spec bs i v :
  (i < length bs)%nat → ∃ bs', orByte bs i v = Some bs' ∧ length bs' = length bs ∧
    ∀ n, bitAt bs' n = bitAt bs n || ((n / 8 =? i)%nat && Z.testbit v (Z.of_nat (n mod 8))).
Proof.
  intros Hi. destruct (lookup_lt_is_Some_2 _ _ Hi) as [b Hb]. unfold orByte. rewrite Hb.
  eexists. split; [done|]. split; [apply length_insert|]. intros n. unfold bitAt.
  destruct (Nat.eqb_spec (n / 8) i) as [->|Hne].
  - rewrite list_lookup_insert_eq, Hb by done. simpl. rewrite Z.lor_spec. f_equal.
    change 256 with (2 ^ 8). apply Z.mod_pow2_bits_low. pose proof (Nat.mod_upper_bound n 8). lia.
  - rewrite list_lookup_insert_ne by done. by rewrite orb_false_r.
Qed.

(** Writing sets the next bits to those of the number. *)
Lemma writeBits_spec count v o :
  (o_offset o + count ≤ length (o_bytes o) * 8)%nat → (count ≤ 8)%nat →
  ∃ o', writeBits count v o = Some o' ∧ o_offset o' = (o_offset o + count)%nat ∧
    length (o_bytes o') = length (o_bytes o) ∧
    ∀ n, bitAt (o_bytes o') n = bitAt (o_bytes o) n ||
      ((o_offset o <=? n)%nat && (n <? o_offset o + count)%nat && Z.testbit v (Z.of_nat (n - o_offset o))).
Proof.
  intros Hcap Hc. unfold writeBits. destruct (Nat.eqb_spec count 0) as [->|Hpos].
  { exists o. rewrite Nat.add_0_r. split_and!; try done. intros n.
    destruct (Nat.leb_spec (o_offset o) n), (Nat.ltb_spec n (o_offset o)); try lia; by rewrite orb_false_r. }
  set (off := o_offset o) in *. pose proof (Nat.mod_upper_bound off 8) as Hm.
  pose proof (Nat.div_mod_eq off 8) as Hdm. set (first := Nat.min (8 - off mod 8) count).
  assert (∀ n k, n / 8 = k ↔ 8 * k ≤ n < 8 * k + 8)%nat as Hdiv.
  { intros n k. pose proof (Nat.div_mod_eq n 8). pose proof (Nat.mod_upper_bound n 8).
    split; [lia|]. intros Hk. symmetry. apply (Nat.div_unique _ _ _ (n - 8 * k)); lia. }
  destruct (orByte_spec (o_bytes o) (off / 8) (Z.shiftl (Z.land v (mask first)) (Z.of_nat (off mod 8))))
    as (bs1 & -> & Hl1 & Hb1); [lia|].
  assert (∀ n, (n / 8 =? off / 8)%nat && Z.testbit (Z.shiftl (Z.land v (mask first)) (Z.of_nat (off mod 8)))
      (Z.of_nat (n mod 8)) = (off <=? n)%nat && (n <? off + first)%nat && Z.testbit v (Z.of_nat (n - off))) as Hfirst.
  { intros n. pose proof (Nat.div_mod_eq n 8) as Hn. destruct (Nat.eqb_spec (n / 8) (off / 8)) as [E|E].
    - rewrite Z.shiftl_spec by lia. destruct (Nat.leb_spec off n) as [Hle|Hlt]; rewrite ?andb_true_l, ?andb_false_l.
      + replace (Z.of_nat (n mod 8) - Z.of_nat (off mod 8)) with (Z.of_nat (n - off)) by lia.
        rewrite Z.land_spec, mask_testbit, andb_comm. f_equal.
        destruct (Nat.ltb_spec (n - off) first), (Nat.ltb_spec n (off + first)); lia || done.
      + by rewrite Z.testbit_neg_r by lia.
    - destruct (Nat.leb_spec off n), (Nat.ltb_spec n (off + first)); try done.
      destruct E. apply Hdiv. pose proof (proj1 (Hdiv off (off / 8)%nat) eq_refl). lia. }
  destruct (Nat.ltb_spec 0 (count - first)) as [Hs|Hs].
  - destruct (orByte_spec bs1 (off / 8 + 1) (Z.land (Z.shiftr v (Z.of_nat first)) (mask (count - first))))
      as (bs2 & -> & Hl2 & Hb2); [lia|].
    eexists. split; [done|]. simpl. split_and!; [done|lia|]. intros n. rewrite Hb2, Hb1, Hfirst, <-orb_assoc. f_equal.
    pose proof (Nat.div_mod_eq n 8) as Hn. pose proof (Nat.mod_upper_bound n 8).
    destruct (Nat.eqb_spec (n / 8) (off / 8 + 1)) as [E|E].
    + rewrite Z.land_spec, mask_testbit, Z.shiftr_spec by lia.
      replace (Z.of_nat (n mod 8) + Z.of_nat first) with (Z.of_nat (n - off)) by lia.
      destruct (Nat.leb_spec off n); [|lia]. destruct (Nat.ltb_spec n (off + first)); [lia|]. rewrite ?andb_true_l, ?andb_false_l, ?orb_false_l.
      destruct (Nat.ltb_spec (n mod 8) (count - first)), (Nat.ltb_spec n (off + count)); try lia;
        by rewrite ?andb_true_r, ?andb_false_r.
    + rewrite andb_false_l, orb_false_r. destruct (Nat.leb_spec off n); [|done].
      destruct (Nat.ltb_spec n (off + first)), (Nat.ltb_spec n (off + count)); try lia; try done.
  - eexists. split; [done|]. simpl. split_and!; [done|done|]. intros n. rewrite Hb1, Hfirst.
    by replace first with count by lia.
Qed.

(** ** The code *)

(** The value that the character of six bits stands for, and how many of them. *)
Definition code (v : Z) : Z := if compact v then Z.land v ksuidMillisMask5Bits else v.
Definition width (v : Z) : nat := if compact v then 5 else 6.

Lemma code_char v :
  0 ≤ v < 64 → ∃ c, ksuidMillisEncodeTable !! Z.to_nat (code v) = Some c ∧
    ksuidMillisDecodedBits c = Ok (code v) ∧ compact (code v) = compact v.
Proof.
  intros Hv.
  assert (∀ v, v ∈ seqZ 0 64 → match ksuidMillisEncodeTable !! Z.to_nat (code v) with
    | Some c => match ksuidMillisDecodedBits c with Ok b => b = code v | Fail _ => False end
    | None => False
    end ∧ compact (code v) = compact v) as H.
  { apply Forall_forall. repeat (apply Forall_cons; split; [by vm_compute|]). apply Forall_nil. done. }
  destruct (H v) as [H1 H2]; [apply elem_of_seqZ; lia|].
  destruct (ksuidMillisEncodeTable !! _) as [c|]; [|done]. exists c.
  destruct (ksuidMillisDecodedBits c); [|done]. by subst.
Qed.

Lemma compact_bit v : compact v = true → Z.testbit v 4 = true.
Proof.
  unfold compact, ksuidMillisCompactMask. intros H%Z.eqb_eq.
  assert (Z.testbit (Z.land v 30) 4 = true) as H4 by (by rewrite H).
  rewrite Z.land_spec in H4. by apply andb_true_iff in H4 as [? _].
Qed.

Lemma code_bits v k : (k < width v)%nat → Z.testbit (code v) (Z.of_nat k) = Z.testbit v (Z.of_nat k).
Proof.
  unfold code, width. destruct (compact v); [|done]. intros Hk.
  change ksuidMillisMask5Bits with (Z.ones 5). rewrite Z.land_spec, Z.ones_spec_low by lia. by rewrite andb_true_r.
Qed.

Lemma nextChar_spec data offset :
  (offset < length data * 8)%nat → ∃ c v, nextChar data offset = Some (c, (offset + width v)%nat) ∧
    ksuidMillisDecodedBits c = Ok (code v) ∧ compact (code v) = compact v ∧
    (∀ k, (k < width v)%nat → Z.testbit (code v) (Z.of_nat k) = bitAt data (offset + k)) ∧
    (compact v = true → bitAt data (offset + 4) = true).
Proof.
  intros Hoff. destruct (readBits_spec data offset 6) as (v & Hr & Hv); [done|lia|].
  assert (0 ≤ v < 64) as Hrange.
  { split.
    - apply Z.bits_iff_nonneg_ex. exists 6. intros m Hm. rewrite <-(Z2Nat.id m) by lia. rewrite Hv.
      by replace (Z.to_nat m <? 6)%nat with false by (symmetry; apply Nat.ltb_ge; lia).
    - destruct (Z.ltb_spec v 64); [done|]. exfalso.
      assert (6 ≤ Z.log2 v) as Hlog by (change 6 with (Z.log2 64); by apply Z.log2_le_mono).
      pose proof (Z.bit_log2 v) as Hb. specialize (Hb ltac:(lia)).
      rewrite <-(Z2Nat.id (Z.log2 v)) in Hb by lia. rewrite Hv in Hb.
      apply andb_true_iff in Hb as [Hb%Nat.ltb_lt _]. lia. }
  destruct (code_char v Hrange) as (c & Ht & Hd & Hcc). exists c, v.
  split_and!; try done.
  - unfold nextChar. rewrite Hr. unfold code in Ht. unfold width. destruct (compact v); by rewrite Ht.
  - intros k Hk. rewrite (code_bits v k Hk), Hv.
    destruct (Nat.ltb_spec k 6); [done|]. unfold width in Hk. destruct (compact v); lia.
  - intros H4%compact_bit. change 4 with (Z.of_nat 4) in H4. rewrite Hv in H4. done.
Qed.

(** The characters that the encoder emits from [offset] on, up to [offset']. *)
Inductive emits (data : bytes) : nat → bytes → nat → Prop :=
| emits_nil offset : emits data offset [] offset
| emits_cons offset c offset1 cs offset2 :
    (offset < length data * 8)%nat → nextChar data offset = Some (c, offset1) →
    emits data offset1 cs offset2 → emits data offset (c :: cs) offset2.

Lemma emits_offset data offset cs offset' :
  emits data offset cs offset' → (offset + 5 * length cs ≤ offset' ≤ offset + 6 * length cs)%nat.
Proof.
  induction 1 as [|o c o1 cs o2 Ho Hn _ IH]; simpl; [lia|].
  destruct (nextChar_spec data o Ho) as (c' & v & E & _). rewrite E in Hn. injection Hn as <- <-.
  unfold width in *. destruct (compact v); lia.
Qed.

(** The encoder stops at the end of the data or at its limit. *)
Lemma encodeLoop_emits fuel data limit : ∀ offset dst,
  (length data * 8 - offset ≤ fuel)%nat → (limit = 0 ∨ length dst ≤ limit)%nat →
  ∃ cs offset', encodeLoop fuel data offset limit dst = Some (dst ++ cs) ∧ emits data offset cs offset' ∧
    (limit = 0 ∨ length (dst ++ cs) ≤ limit)%nat ∧
    (length data * 8 ≤ offset' ∨ limit ≠ 0 ∧ length (dst ++ cs) = limit)%nat.
Proof.
  induction fuel as [|fuel IH]; intros offset dst Hfuel Hlim; simpl.
  { exists [], offset. rewrite app_nil_r. split_and!; [done|constructor|done|left; lia]. }
  destruct (Nat.ltb_spec offset (length data * 8)) as [Ho|Ho].
  2:{ exists [], offset. rewrite app_nil_r. split_and!; [done|constructor|done|left; lia]. }
  destruct ((limit =? 0)%nat || (length dst <? limit)%nat) eqn:E; simpl.
  2:{ apply orb_false_iff in E as [E1%Nat.eqb_neq E2%Nat.ltb_ge].
      exists [], offset. rewrite app_nil_r. split_and!; [done|constructor|done|right; lia]. }
  destruct (nextChar_spec data offset Ho) as (c & v & Hn & _). rewrite Hn.
  destruct (IH (offset + width v)%nat (dst ++ [c])) as (cs & o' & He & Hem & Hl & Hend).
  - unfold width. destruct (compact v); lia.
  - rewrite length_app. simpl. apply orb_true_iff in E as [E%Nat.eqb_eq|E%Nat.ltb_lt]; lia.
  - exists (c :: cs), o'. rewrite <-(assoc_L app) in *. split_and!; try done. by econstructor.
Qed.

(** The output holds the first [off] bits of [data] and zeros after them. *)
Definition holds (data : bytes) (off : nat) (o : bitOutput) : Prop :=
  o_offset o = off ∧ ∀ n, bitAt (o_bytes o) n = (n <? off)%nat && bitAt data n.

Lemma bitAt_beyond data n : (length data * 8 ≤ n)%nat → bitAt data n = false.
Proof.
  intros Hn. unfold bitAt. rewrite lookup_ge_None_2; [by rewrite Z.bits_0|].
  apply Nat.div_le_lower_bound; lia.
Qed.

(** Writing the bits that [data] has there extends what the output holds. *)
Lemma holds_write data off o count v :
  holds data off o → (off + count ≤ length (o_bytes o) * 8)%nat → (count ≤ 8)%nat →
  (∀ k, (k < count)%nat → Z.testbit v (Z.of_nat k) = bitAt data (off + k)) →
  ∃ o', writeBits count v o = Some o' ∧ length (o_bytes o') = length (o_bytes o) ∧ holds data (off + count) o'.
Proof.
  intros [Ho Hb] Hcap Hc Hv. destruct (writeBits_spec count v o) as (o' & Hw & Hoff & Hl & Hbits); [lia|done|].
  exists o'. split_and!; [done|done|]. rewrite Ho in *. split; [done|]. intros n. rewrite Hbits, Hb.
  destruct (Nat.ltb_spec n off), (Nat.leb_spec off n), (Nat.ltb_spec n (off + count)); try lia; simpl;
    rewrite ?orb_false_r; try done.
  rewrite Hv by lia. do 2 f_equal. lia.
Qed.

Lemma upToByte_total (data : bytes) off o :
  o_offset o = off → (off < length data * 8 ≤ off + 6)%nat → bitsCountUpToByte o = (length data * 8 - off)%nat.
Proof.
  intros E H. unfold bitsCountUpToByte. rewrite E. pose proof (Nat.div_mod_eq off 8) as Hd.
  pose proof (Nat.mod_upper_bound off 8 ltac:(lia)). cbv zeta. destruct (Nat.eqb_spec (off mod 8) 0); lia.
Qed.

(** Decoding all that the encoder emits up to the end gives the data back. *)
Lemma decode_full data off cs off' :
  emits data off cs off' → (off ≤ length data * 8 ≤ off')%nat → ∀ o,
  holds data off o → (off + 6 * length cs ≤ length (o_bytes o) * 8)%nat →
  ∃ o', decodeLoop cs o = Some (Ok o') ∧ length (o_bytes o') = length (o_bytes o) ∧
    holds data (length data * 8) o'.
Proof.
  induction 1 as [off|off c off1 cs off2 Hlt Hn Hem IH]; intros Hrange o Ho Hcap; simpl in Hcap.
  { exists o. assert (off = length data * 8)%nat as <- by lia. done. }
  destruct (nextChar_spec data off Hlt) as (c' & v & E & Hd & Hcc & Hbits & Hc4). rewrite E in Hn.
  injection Hn as <- <-. simpl. rewrite Hd, Hcc. pose proof Ho as [Hoff _].
  unfold width in *. destruct (compact v).
  - assert (off + 4 < length data * 8)%nat.
    { apply Nat.nle_gt. intros Hge%bitAt_beyond. rewrite Hc4 in Hge; done. }
    destruct (holds_write data off o 5 (code v)) as (o1 & -> & Hl1 & Ho1); [done|lia|lia|done|].
    destruct (IH ltac:(lia) o1 Ho1) as (o' & -> & Hl & Ho'); [lia|]. exists o'. split_and!; [done|congruence|done].
  - destruct cs as [|c2 cs].
    + inversion Hem; subst. rewrite (upToByte_total data (o_offset o)) by (done || lia).
      destruct (holds_write data (o_offset o) o (length data * 8 - o_offset o) (code v)) as (o1 & -> & Hl1 & Ho1);
        [done|simpl in *; lia|lia|intros k Hk; apply Hbits; lia|].
      exists o1. split_and!; [done|done|]. by replace (length data * 8)%nat with
        (o_offset o + (length data * 8 - o_offset o))%nat by lia.
    + assert (off + 6 < length data * 8)%nat by (by inversion Hem; subst).
      destruct (holds_write data off o 6 (code v)) as (o1 & -> & Hl1 & Ho1); [done|lia|lia|done|].
      destruct (IH ltac:(lia) o1 Ho1) as (o' & -> & Hl & Ho'); [lia|]. exists o'. split_and!; [done|congruence|done].
Qed.

(** All characters but the last decode to what they stand for; the last one
    adds at most what completes its byte. *)
Lemma decode_prefix data c cs : ∀ off off' o,
  emits data off (cs ++ [c]) off' → holds data off o →
  (off + 6 * length (cs ++ [c]) ≤ length (o_bytes o) * 8)%nat →
  ∃ o' mid, decodeLoop (cs ++ [c]) o = Some (Ok o') ∧ length (o_bytes o') = length (o_bytes o) ∧
    (off + 5 * length cs ≤ mid ≤ o_offset o')%nat ∧ ∀ n, (n < mid)%nat → bitAt (o_bytes o') n = bitAt data n.
Proof.
  induction cs as [|c1 cs IH]; intros off off' o Hem Ho Hcap; inversion Hem as [|? ? off1 ? ? Hlt Hn Hem1]; subst;
    destruct (nextChar_spec data off Hlt) as (c' & v & E & Hd & Hcc & Hbits & Hc4); rewrite E in Hn;
    injection Hn as <- <-; pose proof Ho as [Hoff Hob]; cbn [app decodeLoop]; rewrite Hd, Hcc.
  - set (count := if compact v then 5%nat else bitsCountUpToByte o).
    assert (off + count ≤ length (o_bytes o) * 8 ∧ count ≤ 8)%nat as [Hc1 Hc2].
    { unfold count, bitsCountUpToByte. rewrite Hoff. simpl in Hcap. destruct (compact v); [lia|].
      pose proof (Nat.div_mod_eq off 8). pose proof (Nat.mod_upper_bound off 8).
      destruct (off mod 8 =? 0)%nat; lia. }
    destruct (writeBits_spec count (code v) o) as (o' & -> & Ho' & Hl & Hb); [lia|done|].
    exists o', off. split_and!; [done|done|simpl; lia|lia|]. intros n Hn. rewrite Hb, Hob, Hoff.
    destruct (Nat.ltb_spec n off), (Nat.leb_spec off n); try lia. by rewrite orb_false_r.
  - assert (match cs ++ [c] with [] => bitsCountUpToByte o | _ => 6%nat end = 6%nat) as -> by (by destruct cs).
    destruct (holds_write data off o (width v) (code v)) as (o1 & Hw & Hl1 & Ho1);
      [done|simpl in *; unfold width; destruct (compact v); lia|unfold width; destruct (compact v); lia|done|].
    unfold width in Hw at 1. rewrite Hw.
    destruct (IH _ _ o1 Hem1 Ho1) as (o' & mid & -> & Hl & Hmid & Hb);
      [simpl in Hcap; unfold width; destruct (compact v); lia|].
    exists o', mid. split_and!; [done|congruence| |lia|done]. simpl. unfold width in Hmid. destruct (compact v); lia.
Qed.

(** ** Bytes and bits *)

Lemma byte_eq a b : is_byte a → is_byte b → (∀ k, (k < 8)%nat → Z.testbit a (Z.of_nat k) = Z.testbit b (Z.of_nat k)) → a = b.
Proof.
  intros Ha Hb H. apply Z.bits_inj'. intros k Hk. rewrite <-(Z2Nat.id k) by lia.
  destruct (decide (Z.to_nat k < 8)%nat); [by apply H|]. by rewrite !byte_testbit_high by (done || lia).
Qed.

Lemma lor_byte a b : is_byte a → is_byte (Z.lor a (b mod 256)).
Proof.
  unfold is_byte. intros Ha. pose proof (Z.mod_pos_bound b 256). split; [apply Z.lor_nonneg; lia|].
  destruct (Z.eq_dec (Z.lor a (b mod 256)) 0) as [->|]; [lia|].
  change 256 with (2 ^ 8) at 2. apply Z.log2_lt_pow2.
  - assert (0 ≤ Z.lor a (b mod 256)) by (apply Z.lor_nonneg; lia). lia.
  - rewrite Z.log2_lor by lia. apply Z.max_lub_lt.
    + destruct (Z.eq_dec a 0) as [->|]; [done|]. apply Z.log2_lt_pow2; lia.
    + destruct (Z.eq_dec (b mod 256) 0) as [->|]; [done|]. apply Z.log2_lt_pow2; lia.
Qed.

Lemma orByte_bytes bs i v bs' : orByte bs i v = Some bs' → Forall is_byte bs → Forall is_byte bs'.
Proof.
  unfold orByte. destruct (bs !! i) as [b|] eqn:Hb; [|done]. intros [= <-] Hall.
  apply Forall_insert; [done|]. apply lor_byte. by eapply Forall_lookup_1.
Qed.

Lemma writeBits_bytes count v o o' :
  writeBits count v o = Some o' → Forall is_byte (o_bytes o) → Forall is_byte (o_bytes o').
Proof.
  unfold writeBits. destruct (count =? 0)%nat; [by intros [= <-]|].
  destruct (orByte _ _ _) as [bs1|] eqn:E1; [|done]. destruct (0 <? _)%nat.
  - destruct (orByte bs1 _ _) as [bs2|] eqn:E2; [|done]. intros [= <-] H. simpl. eauto using orByte_bytes.
  - intros [= <-] H. simpl. eauto using orByte_bytes.
Qed.

Lemma decodeLoop_bytes cs : ∀ o o',
  decodeLoop cs o = Some (Ok o') → Forall is_byte (o_bytes o) → Forall is_byte (o_bytes o').
Proof.
  induction cs as [|c cs IH]; simpl; intros o o' H; [by simplify_eq|].
  destruct (ksuidMillisDecodedBits c); [|done].
  destruct (writeBits _ _ o) eqn:E; [|done]. eauto using writeBits_bytes.
Qed.

(** Byte strings that agree on their first bits agree on their first bytes. *)
Lemma take_eq_bits a b k :
  Forall is_byte a → Forall is_byte b → (k ≤ length a)%nat → (k ≤ length b)%nat →
  (∀ n, (n < k * 8)%nat → bitAt a n = bitAt b n) → take k a = take k b.
Proof.
  intros Ha Hb Hla Hlb H. apply list_eq. intros i.
  destruct (decide (i < k)%nat); [|by rewrite !lookup_take_ge by lia]. rewrite !lookup_take_lt by done.
  destruct (lookup_lt_is_Some_2 a i) as [x Hx]; [lia|]. destruct (lookup_lt_is_Some_2 b i) as [y Hy]; [lia|].
  rewrite Hx, Hy. f_equal. apply byte_eq; [by apply (Forall_lookup_1 is_byte a i)|by apply (Forall_lookup_1 is_byte b i)|].
  intros j Hj. specialize (H (8 * i + j)%nat ltac:(lia)). unfold bitAt in H.
  assert ((8 * i + j) / 8 = i)%nat as E1 by (symmetry; apply (Nat.div_unique _ _ _ j); lia).
  assert ((8 * i + j) mod 8 = j)%nat as E2 by (symmetry; apply (Nat.mod_unique _ _ i); lia).
  by rewrite E1, E2, Hx, Hy in H.
Qed.

Lemma newBitOutput_holds data n :
  holds data 0 (newBitOutput n) ∧ Forall is_byte (o_bytes (newBitOutput n)) ∧
  length (o_bytes (newBitOutput n)) = ((n + 7) / 8)%nat ∧ (n ≤ length (o_bytes (newBitOutput n)) * 8)%nat.
Proof.
  split_and!.
  - split; [done|]. intros k. unfold bitAt. simpl. destruct (_ !! _) as [x|] eqn:E; simpl; [|apply Z.bits_0].
    apply lookup_replicate in E as [-> _]. apply Z.bits_0.
  - by apply Forall_replicate.
  - apply length_replicate.
  - unfold newBitOutput. cbn [o_bytes]. rewrite length_replicate. pose proof (Nat.div_mod_eq (n + 7) 8).
    pose proof (Nat.mod_upper_bound (n + 7) 8 ltac:(lia)). lia.
Qed.

(** *** Properties *)

(** The Base62 code of the millisecond KSUID loses nothing: whatever the
    bytes, encoding them in full does not panic, and decoding to their number
    gives them back, five-bit characters and the partial last character
    included. *)
Theorem ksuid_base62_roundtrip data :
  Forall is_byte data →
  ∃ s, encodeKSUIDMillisBase62 data = Some s ∧
    decodeKSUIDMillisBase62 s (Z.of_nat (length data)) = Some (Ok data).
Proof.
  intros Hdata. destruct data as [|b data']; [by exists []|]. set (data := b :: data') in *.
  destruct (encodeLoop_emits (length data * 8) data 0 0 []) as (cs & off' & He & Hem & _ & Hend); [lia|by left|].
  destruct Hend as [Hend|[]]; [|done]. exists cs. split; [exact He|].
  unfold decodeKSUIDMillisBase62. destruct cs as [|c cs']; [inversion Hem; subst; simpl in Hend; lia|].
  set (cs := c :: cs') in *. destruct (Z.ltb_spec (Z.of_nat (length data)) 0); [lia|].
  destruct (newBitOutput_holds data (length cs * 6)) as (H0 & Hb0 & _ & Hcap).
  destruct (decode_full data 0 cs off' Hem ltac:(lia) _ H0) as (o' & Hdec & Hl & Hoff & Hbits); [lia|].
  rewrite Hdec. pose proof (decodeLoop_bytes _ _ _ Hdec Hb0) as Hb'.
  pose proof (emits_offset _ _ _ _ Hem) as Hoffs.
  assert (toArray o' = data) as ->.
  { unfold toArray. rewrite Hoff, Nat.Div0.mod_mul, Nat.div_mul by lia. simpl Nat.eqb. cbv iota zeta.
    rewrite <-(firstn_all data) at 2. apply take_eq_bits; try done; [lia|].
    intros n Hn. rewrite Hbits. by replace (n <? length data * 8)%nat with true by (symmetry; apply Nat.ltb_lt; lia). }
  rewrite Nat2Z.id, Nat.eqb_refl. done.
Qed.

(** The first bytes survive the cut at 27 characters. *)
Lemma decode_truncated data s :
  Forall is_byte data → length data = 20%nat →
  encodeKSUIDMillisBase62Prefix [] data 27 = Some s →
  length s = 27%nat ∧ ∃ raw, decodeKSUIDMillis s = Some (Ok raw) ∧ take 8 raw = take 8 data.
Proof.
  intros Hdata Hlen Henc.
  destruct (encodeLoop_emits (length data * 8) data 27 0 []) as (cs & off' & He & Hem & Hlim & Hend);
    [lia|right; simpl; lia|].
  unfold encodeKSUIDMillisBase62Prefix in Henc. rewrite He in Henc. simpl in Henc, Hlim, Hend. injection Henc as <-.
  pose proof (emits_offset _ _ _ _ Hem) as Hoffs. assert (length cs = 27%nat) as Hcs by lia.
  split; [done|]. destruct (newBitOutput_holds data (length cs * 6)) as (H0 & Hb0 & Hl0 & Hcap).
  destruct (exists_last (l := cs)) as (cs0 & c & ->); [by intros ->|]. rewrite length_app in Hcs. simpl in Hcs.
  destruct (decode_prefix data c cs0 0 off' _ Hem H0) as (o' & mid & Hdec & Hl & Hmid & Hbits); [lia|].
  pose proof (decodeLoop_bytes _ _ _ Hdec Hb0) as Hb'.
  rewrite length_app in Hl0, Hl, Hdec, Hb0. replace (length cs0 + length [c])%nat with 27%nat in * by (simpl; lia).
  change ((27 * 6 + 7) / 8)%nat with 21%nat in Hl0. rewrite Hl0 in Hl.
  assert (take 8 (toArray o') = take 8 data ∧ (8 ≤ length (toArray o'))%nat) as [Ht Hlt].
  { unfold toArray. cbv zeta.
    set (size := if (o_offset o' mod 8 =? 0)%nat then (o_offset o' / 8)%nat else (o_offset o' / 8 + 1)%nat).
    assert (8 ≤ size)%nat.
    { pose proof (Nat.div_mod_eq (o_offset o') 8). pose proof (Nat.mod_upper_bound (o_offset o') 8 ltac:(lia)).
      unfold size. destruct (_ =? _)%nat; lia. }
    rewrite take_take, Nat.min_l, length_take, Hl by lia. split; [|lia].
    apply take_eq_bits; [done|done|lia|lia|]. intros n Hn. apply Hbits. lia. }
  unfold decodeKSUIDMillis, decodeKSUIDMillisBase62. rewrite length_app.
  replace (length cs0 + length [c])%nat with 27%nat by (simpl; lia). cbn [Nat.eqb negb ksuidMillisEncodedLen].
  destruct (cs0 ++ [c]) as [|c1 cs1] eqn:E; [by destruct cs0|]. rewrite <-E in *.
  change (Z.of_nat ksuidMillisTotalBytes <? 0) with false. cbv iota. rewrite Hdec.
  destruct (_ =? _)%nat; (eexists; split; [reflexivity|]); [done|].
  rewrite take_app_le by (rewrite length_take; change (Z.to_nat (Z.of_nat ksuidMillisTotalBytes)) with 20%nat; lia).
  rewrite take_take. done.
Qed.

(** A generated millisecond KSUID always has 27 characters, parses, and
    tells the time it was made at to the millisecond, whatever the entropy and
    although the code is cut at 27 characters: only payload bits can be lost. *)
Theorem ksuid_time_roundtrip now payload :
  in_i64 now → length payload = 12%nat → Forall is_byte payload →
  ∃ s, NextString now (Ok payload) = Some (Ok s) ∧ length s = 27%nat ∧
    ParseKSUIDMillis s = Some (Ok s) ∧ KSUIDMillisTime s = Some (Ok now).
Proof.
  intros Hnow Hlen Hp. set (ts := wrap_u64 (wrap_i64 (now - ksuidMillisEpoch))).
  destruct (putUint64_bytes ts) as [Hl8 Hb8]. set (data := putUint64 ts ++ payload).
  assert (length data = 20%nat) as Hl by (unfold data; rewrite length_app; lia).
  assert (Forall is_byte data) as Hdata by (by apply Forall_app).
  destruct (encodeLoop_emits (length data * 8) data 27 0 []) as (cs & off' & He & _); [lia|right; simpl; lia|].
  destruct (decode_truncated data cs Hdata Hl He) as (Hcs & raw & Hraw & Htake).
  exists cs. unfold NextString. fold ts. fold data. change ksuidMillisEncodedLen with 27%nat.
  unfold encodeKSUIDMillisBase62Prefix. rewrite He. split_and!; [done|done| |].
  - unfold ParseKSUIDMillis. by rewrite Hraw.
  - unfold KSUIDMillisTime. rewrite Hraw. change ksuidMillisTimestampLen with 8%nat. rewrite Htake.
    unfold data. rewrite take_app_le, take_ge by lia. rewrite Uint64_putUint64 by apply wrap_u64_range.
    do 2 f_equal. unfold ts, wrap_u64, wrap_i64, in_i64, ksuidMillisEpoch in *.
    Z.to_euclidean_division_equations. lia.
Qed.

Lemma ksuid_base62_roundtrip_witness :
  ∃ s, encodeKSUIDMillisBase62 [255; 30; 0; 7] = Some s ∧
    decodeKSUIDMillisBase62 s 4 = Some (Ok [255; 30; 0; 7]).
Proof.
  apply (ksuid_base62_roundtrip [255; 30; 0; 7]). repeat constructor; vm_compute; congruence.
Defined.

Lemma ksuid_time_roundtrip_witness :
  ∃ s, NextString 1700000000123 (Ok (replicate 12 255)) = Some (Ok s) ∧ length s = 27%nat ∧
    ParseKSUIDMillis s = Some (Ok s) ∧ KSUIDMillisTime s = Some (Ok 1700000000123).
Proof.
  apply (ksuid_time_roundtrip 1700000000123 (replicate 12 255)); [unfold in_i64; lia|reflexivity|].
  repeat constructor; vm_compute; congruence.
Defined.
