(* ===== verification/Permutations.v ===== *)
(** * collections: permutations

    Models [src/collections/permutations.go]: the iterator that
    [Permutations] returns, run over a consumer.  The consumer is the [yield]
    function of a range loop, a call on the world [W] that answers whether the
    loop goes on.  The work slice that [generate] swaps in place is the state
    it passes along; [yield] gets a copy of it, so the consumer cannot reach
    it.

    [perms] is the reference: the values the iterator produces, in order.
    The theorem [permutations_enumerates] says that the iterator hands
    exactly these to any consumer until the consumer stops it, and that they
    are the permutations of the input. *)

From S2P Require Import Prelude.

(** ** The iterator *)

Section generate.
Context {T W : Type}.
Context (yield : list T → Call W bool).

(** [work[i], work[j] = work[j], work[i]]; [None] is the panic of an index out
    of range. *)
Definition swap (i j : nat) (work : list T) : option (list T) :=
  x ← work !! i;
  y ← work !! j;
  Some (<[j := x]> (<[i := y]> work)).

(** [copySlice], nil being [None]. *)
Definition copySlice (values : option (list T)) : option (list T) :=
  match values with
  | None => None
  | Some vs => Some (take (length vs) vs)
  end.

(** A step that panics does not return. *)
Definition may_panic {A} (o : option A) : Go W A :=
  λ w, match o with Some a => Some (a, w) | None => None end.

(** The loop over [index] of [generate], [recurse] being the call
    [generate(start + 1)]; [rest] bounds the iterations left. *)
Fixpoint generateLoop (recurse : list T → Go W (list T * bool)) (rest start index : nat)
    (work : list T) : Go W (list T * bool) :=
  if (index <? length work)%nat then
    match rest with
    | 0 => out_of_fuel
    | S rest' =>
        swapped ← may_panic (swap start index work);
        r ← recurse swapped;
        restored ← may_panic (swap start index r.1);
        if negb r.2 then mret (restored, false)
        else generateLoop recurse rest' start (index + 1) restored
    end
  else mret (work, true).

(** The closure [generate] over the work slice: the result is the slice and
    whether to go on.  One unit of [depth] per position still to fill. *)
Fixpoint generate (depth : nat) (start : nat) (work : list T) : Go W (list T * bool) :=
  if (start =? length work)%nat then
    goOn ← call (yield work);
    mret (work, goOn)
  else match depth with
  | 0 => out_of_fuel
  | S depth' => generateLoop (generate depth' (start + 1)) (length work) start start work
  end.

(** The function [Permutations(values)] returns, run over [yield]. *)
Definition Permutations (values : option (list T)) : Go W () :=
  let source := default [] (copySlice values) in
  if (length source =? 0)%nat then
    _ ← call (yield []);
    mret ()
  else
    let work := default [] (copySlice (Some source)) in
    _ ← generate (length work) 0 work;
    mret ().

(** What a consumer sees of a list of values: it gets them in order until it
    answers false. *)
Fixpoint consume (vs : list (list T)) : Call W bool :=
  match vs with
  | [] => mret true
  | v :: rest =>
      goOn ← yield v;
      if goOn : bool then consume rest else mret false
  end.
End generate.

(** ** The reference *)

Section reference.
Context {T : Type}.

(** The element at [i] moved to the front, the front put in its place. *)
Definition front (i : nat) (l : list T) : option (T * list T) :=
  match swap 0 i l with
  | Some (x :: t) => Some (x, t)
  | _ => None
  end.

Fixpoint perms (n : nat) (l : list T) : list (list T) :=
  match n with
  | 0 => [l]
  | S n' =>
      i ← seq 0 (length l);
      match front i l with
      | Some (x, t) => cons x <$> perms n' t
      | None => []
      end
  end.
End reference.

(** ** Swaps *)

Section swaps.
Context {T : Type}.
Implicit Types (l : list T).

Lemma swap_is_Some i j l : i < length l → j < length l → is_Some (swap i j l).
Proof.
  intros [x Hx]%lookup_lt_is_Some [y Hy]%lookup_lt_is_Some.
  unfold swap. rewrite Hx. cbn. rewrite Hy. eauto.
Qed.

Lemma swap_length i j l l' : swap i j l = Some l' → length l' = length l.
Proof.
  unfold swap. destruct (l !! i), (l !! j); cbn; intros Hs; simplify_eq.
  by rewrite !length_insert.
Qed.

(** Swapping twice restores the slice. *)
Lemma swap_swap i j l l' : swap i j l = Some l' → swap i j l' = Some l.
Proof.
  unfold swap. destruct (l !! i) as [x|] eqn:Hx, (l !! j) as [y|] eqn:Hy; cbn; intros Hs; simplify_eq.
  pose proof (lookup_lt_Some _ _ _ Hx). pose proof (lookup_lt_Some _ _ _ Hy).
  destruct (decide (i = j)) as [->|Hne].
  - rewrite list_insert_insert_eq, list_lookup_insert_eq by done. cbn.
    rewrite !list_insert_insert_eq. f_equal. apply list_insert_id. congruence.
  - rewrite (list_lookup_insert_ne _ j i) by done. rewrite !list_lookup_insert_eq by (by rewrite ?length_insert).
    cbn. rewrite (list_insert_insert_ne _ i j), !list_insert_insert_eq by done.
    f_equal. rewrite (list_insert_id l i) by done. by apply list_insert_id.
Qed.

Lemma swap_app p l i j :
  swap (length p + i) (length p + j) (p ++ l) = app p <$> swap i j l.
Proof.
  unfold swap. rewrite !lookup_app_r by lia.
  replace (length p + i - length p) with i by lia.
  replace (length p + j - length p) with j by lia.
  destruct (l !! i), (l !! j); cbn; try done.
  by rewrite !insert_app_r.
Qed.

Lemma front_spec i x l :
  l !! i = Some x → ∃ t, front i l = Some (x, t) ∧ l ≡ₚ x :: t ∧ length l = S (length t).
Proof.
  intros Hx. destruct l as [|h l]; [done|]. destruct i as [|i]; cbn in Hx.
  - simplify_eq. unfold front, swap. cbn. eauto.
  - exists (<[i := h]> l). split; [unfold front, swap; cbn; by rewrite Hx|].
    cbn [length]. rewrite length_insert. split; [|done].
    rewrite <- (take_drop_middle l i x Hx) at 1.
    rewrite insert_take_drop by eauto using lookup_lt_Some.
    by rewrite <- !Permutation_middle, Permutation_swap.
Qed.

Lemma swap_0_front i l :
  i < length l → ∃ x t, front i l = Some (x, t) ∧ swap 0 i l = Some (x :: t) ∧ l !! i = Some x ∧
    l ≡ₚ x :: t ∧ length l = S (length t).
Proof.
  intros [x Hx]%lookup_lt_is_Some.
  destruct (front_spec i x l Hx) as (t & Hf & ? & ?).
  exists x, t. repeat split; try done.
  unfold front in Hf. destruct (swap 0 i l) as [[|? ?]|]; naive_solver.
Qed.
End swaps.

(** ** The reference lists the permutations *)

Section reference_laws.
Context {T : Type}.

Lemma elem_of_perms n (l q : list T) : length l = n → q ∈ perms n l ↔ q ≡ₚ l.
Proof.
  revert l q. induction n as [|n IH]; intros l q Hl; cbn [perms].
  - apply length_zero_iff_nil in Hl as ->. rewrite list_elem_of_singleton. split; [by intros ->|].
    apply Permutation_nil_r.
  - rewrite list_elem_of_bind. setoid_rewrite elem_of_seq. split.
    + intros (i & Hq & Hi). destruct (swap_0_front i l) as (x & t & Hf & _ & _ & Hp & Ht); [lia|].
      rewrite Hf in Hq. apply list_elem_of_fmap in Hq as (q' & -> & Hq').
      apply IH in Hq'; [|lia]. by rewrite Hp, Hq'.
    + intros Hq. destruct q as [|y q]; [apply Permutation_length in Hq; cbn in Hq; lia|].
      assert (y ∈ l) as [i Hy]%list_elem_of_lookup by (rewrite <- Hq; left).
      destruct (front_spec i y l Hy) as (t & Hf & Hp & Ht). exists i.
      split; [|apply lookup_lt_Some in Hy; lia].
      rewrite Hf. apply list_elem_of_fmap_2, IH; [lia|].
      apply (Permutation_cons_inv (a:=y)). by rewrite <- Hp.
Qed.

Lemma length_perms n (l : list T) : length l = n → length (perms n l) = fact n.
Proof.
  revert l. induction n as [|n IH]; intros l Hl; cbn [perms]; [done|].
  assert (Hsum : ∀ is_, (∀ i, i ∈ is_ → i < length l) →
    length (is_ ≫= λ i, match front i l with
      Some (x, t) => cons x <$> perms n t | None => [] end) = length is_ * fact n).
  { induction is_ as [|i is_ IHi]; intros Hi; [done|]. cbn [mbind list_bind].
    destruct (swap_0_front i l) as (x & t & -> & _ & _ & _ & Ht); [apply Hi; left|].
    rewrite length_app, IHi by (intros ? ?; apply Hi; by right).
    rewrite length_fmap, IH by lia. cbn. lia. }
  rewrite Hsum; [rewrite length_seq, Hl; cbn; lia|].
  intros i ?%elem_of_seq. lia.
Qed.

Lemma NoDup_perms n (l : list T) : length l = n → NoDup l → NoDup (perms n l).
Proof.
  revert l. induction n as [|n IH]; intros l Hl Hnd; cbn [perms].
  - apply NoDup_singleton.
  - apply NoDup_bind.
    + intros i j q Hi%elem_of_seq Hj%elem_of_seq Hqi Hqj.
      destruct (swap_0_front i l) as (x & t & Hf & _ & Hx & _); [lia|].
      destruct (swap_0_front j l) as (y & u & Hg & _ & Hy & _); [lia|].
      rewrite Hf in Hqi. rewrite Hg in Hqj.
      apply list_elem_of_fmap in Hqi as (? & -> & _). apply list_elem_of_fmap in Hqj as (? & ? & _). simplify_eq.
      by eapply NoDup_lookup.
    + intros i Hi%elem_of_seq.
      destruct (swap_0_front i l) as (x & t & -> & _ & _ & Hp & Ht); [lia|].
      apply (NoDup_fmap_2 _), IH; [lia|].
      rewrite Hp in Hnd. by apply NoDup_cons_1_2 in Hnd.
    + apply NoDup_seq.
Qed.
End reference_laws.

(** ** The iterator refines the reference *)

Section refinement.
Context {T W : Type}.
Context (yield : list T → Call W bool).

Lemma consume_app us vs w :
  consume yield (us ++ vs) w =
    (let '(goOn, w') := consume yield us w in if goOn : bool then consume yield vs w' else (false, w')).
Proof.
  revert w. induction us as [|u us IH]; intros w; [done|].
  cbn. unfold mbind, call_bind. destruct (yield u w) as [[] w']; [apply IH|done].
Qed.

(** One pass of the loop, given that the recursive call hands over the
    arrangements of a tail. *)
Lemma generateLoop_consumes recurse n rest p l i w :
  (∀ x t w, length t = n →
    recurse (p ++ x :: t) w =
      Some (let '(goOn, w') := consume yield (app p <$> (cons x <$> perms n t)) w in
            ((p ++ x :: t, goOn), w'))) →
  length l = S n → i ≤ length l → length l - i ≤ rest →
  generateLoop recurse rest (length p) (length p + i) (p ++ l) w =
    Some (let '(goOn, w') := consume yield (app p <$> (seq i (length l - i) ≫= λ i,
            match front i l with Some (x, t) => cons x <$> perms n t | None => [] end)) w in
          ((p ++ l, goOn), w')).
Proof.
  intros Hrec Hn. revert i w. induction rest as [|rest IH]; intros i w Hi Hrest.
  - replace (length l - i) with 0 by lia. cbn [generateLoop seq]. rewrite length_app.
    by destruct (Nat.ltb_spec (length p + i) (length p + length l)); [lia|].
  - cbn [generateLoop]. rewrite length_app.
    destruct (Nat.ltb_spec (length p + i) (length p + length l)) as [Hlt|Hge].
    + destruct (swap_0_front i l) as (x & t & Hf & Hs & _ & _ & Ht); [lia|].
      replace (length l - i) with (S (length l - S i)) by lia. cbn [seq]. rewrite bind_cons, Hf, fmap_app, consume_app.
      pose proof (swap_app p l 0 i) as Hsw. rewrite Nat.add_0_r, Hs in Hsw. cbn in Hsw.
      unfold mbind at 1, go_bind at 1, may_panic at 1. rewrite Hsw.
      unfold mbind at 1, go_bind at 1. rewrite Hrec by lia.
      destruct (consume yield _ w) as [goOn w'].
      unfold mbind at 1, go_bind at 1, may_panic at 1. cbn [fst snd]. rewrite (swap_swap _ _ _ _ Hsw).
      destruct goOn; cbn [negb]; [|done].
      replace (length p + i + 1) with (length p + S i) by lia. apply IH; lia.
    + by replace (length l - i) with 0 by lia.
Qed.

(** [generate] on a slice whose first [start] positions are fixed hands the
    arrangements of the others to the consumer, and restores the slice. *)
Lemma generate_consumes depth p (l : list T) w :
  length l ≤ depth →
  generate yield depth (length p) (p ++ l) w =
    Some (let '(goOn, w') := consume yield (app p <$> perms (length l) l) w in ((p ++ l, goOn), w')).
Proof.
  revert p l w. induction depth as [|depth IH]; intros p [|y l] w Hd; cbn in Hd; try lia.
  1, 2: cbn [generate]; rewrite app_nil_r, Nat.eqb_refl; cbn; rewrite app_nil_r;
    unfold mbind, go_bind, call_bind, call; by destruct (yield p w) as [[] ?].
  cbn [generate]. rewrite length_app. cbn [length].
  destruct (Nat.eqb_spec (length p) (length p + S (length l))); [lia|].
  rewrite <- (Nat.add_0_r (length p)) at 4.
  rewrite (generateLoop_consumes _ (length l)); cbn [length]; [done| |done|lia|lia].
  intros x t w' Ht. rewrite <- Ht. replace (length p + 1) with (length (p ++ [x])) by (rewrite length_app; done).
  replace (p ++ x :: t) with ((p ++ [x]) ++ t) by (by rewrite <- app_assoc).
  rewrite IH by lia. rewrite <- list_fmap_compose.
  by rewrite (list_fmap_ext (app (p ++ [x])) (app p ∘ cons x)) by (intros; cbn; by rewrite <- app_assoc).
Qed.

(** The whole iterator, for nil and empty inputs too. *)
Lemma Permutations_consumes (values : option (list T)) w :
  let source := default [] values in
  Permutations yield values w = Some ((), (consume yield (perms (length source) source) w).2).
Proof.
  intros source. unfold Permutations, copySlice.
  replace (default [] _) with source by (unfold source; destruct values; cbn; by rewrite ?firstn_all).
  cbn [default]. rewrite firstn_all. destruct source as [|y l] eqn:Hs.
  - cbn. unfold mbind, go_bind, call_bind, call. by destruct (yield [] w) as [[] ?].
  - cbn [length Nat.eqb]. pose proof (generate_consumes (length (y :: l)) [] (y :: l) w) as Hg.
    cbn [app length] in Hg. unfold mbind at 1, go_bind at 1. cbn [length].
    unfold id. cbn [length]. rewrite Hg by done. rewrite list_fmap_id.
    by destruct (consume yield (perms (S (length l)) (y :: l)) w).
Qed.
End refinement.

(** The iterator [Permutations] returns enumerates: there is one list of
    values that every consumer gets, in this order, until it stops the loop,
    and the run always ends without an index out of range.  The list holds
    exactly the permutations of the input, n! of them, and none twice when
    the input has no duplicates. *)
Theorem permutations_enumerates {T} (values : option (list T)) :
  let source := default [] values in
  ∃ ps : list (list T),
    (∀ W (yield : list T → Call W bool) w,
      Permutations yield values w = Some ((), (consume yield ps w).2)) ∧
    (∀ q, q ∈ ps ↔ q ≡ₚ source) ∧
    length ps = fact (length source) ∧
    (NoDup source → NoDup ps).
Proof.
  intros source. exists (perms (length source) source).
  split_and!; intros; auto using length_perms, NoDup_perms.
  - apply Permutations_consumes.
  - by apply elem_of_perms.
Qed.

(** A consumer that collects the values and stops after two. *)
Example permutations_stops_early :
  Permutations (λ v (acc : list (list nat)), (length acc <? 1, acc ++ [v])) (Some [1; 2; 3]) [] =
    Some ((), [[1; 2; 3]; [1; 3; 2]]).
Proof. reflexivity. Qed.

Example permutations_of_three :
  Permutations (λ v (acc : list (list nat)), (true, acc ++ [v])) (Some [1; 2; 3]) [] =
    Some ((), [[1; 2; 3]; [1; 3; 2]; [2; 1; 3]; [2; 3; 1]; [3; 2; 1]; [3; 1; 2]]).
Proof. reflexivity. Qed.
