(* ===== verification/SqlKitLaws.v ===== *)
(** * sqlkit: laws of the statement builders

    The intended meaning of a builder, [meaning], is the statement text with
    every value in its place, read off the builder without placeholders.  The
    theorems relate it to the statement that [Build] returns and that the
    database reads with [bindSQL]. *)

From S2P Require Import Prelude GoError GoText SqlKit.

Local Open Scope Z_scope.

(** ** The intended statement *)

Section meaning.
Context {A : Type}.

Definition chars (s : text) : list (token A) := Ch <$> s.

Lemma chars_app s1 s2 : chars (s1 ++ s2) = chars s1 ++ chars s2.
Proof. apply fmap_app. Qed.

(** A fragment with each mark replaced by its own value. *)
Fixpoint fragmentTokens (fragment : text) (args : list A) : list (token A) :=
  match fragment with
  | [] => []
  | r :: rest =>
      if r =? 63 then
        match args with
        | a :: args' => Arg a :: fragmentTokens rest args'
        | [] => fragmentTokens rest []
        end
      else Ch r :: fragmentTokens rest args
  end.

Fixpoint joinTokens (parts : list (list (token A))) (sep : text) : list (token A) :=
  match parts with
  | [] => []
  | [p] => p
  | p :: rest => p ++ chars sep ++ joinTokens rest sep
  end.

Definition whereTokens (clauses : list (whereClause A)) : list (token A) :=
  match clauses with
  | [] => []
  | _ => chars (lit " where ") ++
         joinTokens (map (λ c, fragmentTokens (fragment c) (args c)) clauses) (lit " and ")
  end.

(** A quoted identifier, as the text the caller named. *)
Definition identifierText (identifier : text) : text := Join (map quote (Split identifier 46)) 46.

Definition identifiersText (identifiers : list text) : text :=
  JoinText (map identifierText identifiers) (lit ", ").

(** An optional list of identifiers after a keyword. *)
Definition listText (keyword : string) (identifiers : list text) : text :=
  match identifiers with
  | [] => []
  | _ => lit keyword ++ identifiersText identifiers
  end.

Definition limitText (limit : option Z) : text :=
  match limit with None => [] | Some n => lit " limit " ++ Itoa (Z.to_nat n) end.

Definition meaning (b : builder A) : list (token A) :=
  match b with
  | BSelect b =>
      chars (lit "select " ++ (match s_columns b with [] => lit "*" | cs => identifiersText cs end) ++
             lit " from " ++ identifierText (s_table b)) ++
      whereTokens (s_where b) ++
      chars (listText " order by " (s_orderBy b) ++ limitText (s_limit b))
  | BInsert b =>
      chars (lit "insert into " ++ identifierText (i_table b) ++ lit " (" ++
             identifiersText (i_columns b) ++ lit ") values (") ++
      joinTokens (map (λ a, [Arg a]) (i_values b)) (lit ", ") ++
      chars (lit ")" ++ listText " returning " (i_returning b))
  | BUpdate b =>
      chars (lit "update " ++ identifierText (u_table b) ++ lit " set ") ++
      joinTokens (map (λ s, chars (identifierText (column s) ++ lit " = ") ++ [Arg (value s)]) (u_sets b))
        (lit ", ") ++
      whereTokens (u_where b)
  | BDelete b =>
      chars (lit "delete from " ++ identifierText (d_table b)) ++ whereTokens (d_where b)
  end.
End meaning.

(** A fragment keeps its marks where a value can stand.  Reading it from [st],
    right after a mark when [mark]: a mark stands outside quotes and touches
    neither a letter, digit, underscore, [$] or rune beyond ASCII nor another
    mark; quotes are closed, string literals have no backslash, there is no
    comment, and a [$] occurs only in quotes or inside an identifier. *)
Fixpoint wellPlaced (st : lexState) (mark : bool) (fragment : text) : bool :=
  match fragment with
  | [] => match st with Gap | Word _ | Dash | Slash => true | _ => false end
  | c :: rest =>
      if c =? 63 then negb mark && atGap st && wellPlaced Gap true rest
      else if mark && isWordRune c then false
      else match textStep st c with Some st' => wellPlaced st' false rest | None => false end
  end.

Definition clauses {A} (b : builder A) : list (whereClause A) :=
  match b with
  | BSelect b => s_where b
  | BInsert _ => []
  | BUpdate b => u_where b
  | BDelete b => d_where b
  end.

Definition marks_well_placed {A} (b : builder A) : bool :=
  forallb (λ c, wellPlaced Gap false (fragment c)) (clauses b).

(** ** Reading a text piece by piece *)

(** The states in which a text may end, and those in which it may go on. *)
Fixpoint textRun (st : lexState) (s : text) : option lexState :=
  match s with
  | [] => Some st
  | c :: rest => st' ← textStep st c; textRun st' rest
  end.

(** A rune that ends whatever came before it. *)
Definition breaking (c : Z) : bool := negb (isWordRune c) && negb (c =? 36) && negb (c =? 45) && negb (c =? 42).

Section reads.
Context {A : Type} (params : list A).

(** What has been read of a parameter. *)
Definition pending (st : lexState) : list (token A) :=
  match st with Num n => match parameter params n with Some a => [Arg a] | None => [] end | _ => [] end.

Definition ready (st : lexState) : Prop :=
  match st with Dollar | Quoted _ => False | Num n => is_Some (parameter params n) | _ => True end.

(** From [st] to [st'] the text [s] stands for [toks], whatever follows. *)
Definition reads (st : lexState) (s : text) (st' : lexState) (toks : list (token A)) : Prop :=
  ∃ out, (∀ rest, scan params st (s ++ rest) = app out <$> scan params st' rest) ∧
    out ++ pending st' = pending st ++ toks.

(** A text that can follow a gap, and one that can follow anything. *)
Definition piece (s : text) (toks : list (token A)) : Prop := ∃ st', ready st' ∧ reads Gap s st' toks.
Definition follows (s : text) (toks : list (token A)) : Prop := ∀ st, ready st → ∃ st', ready st' ∧ reads st s st' toks.
(** A text that can follow anything and leaves a gap. *)
Definition glue (s : text) (toks : list (token A)) : Prop := ∀ st, ready st → reads st s Gap toks.

Lemma app_compose (t1 t2 : list (token A)) (o : option (list (token A))) :
  app t1 <$> (app t2 <$> o) = app (t1 ++ t2) <$> o.
Proof. destruct o; cbn; by rewrite ?(assoc_L app). Qed.

Lemma reads_nil st : reads st [] st [].
Proof. exists []. rewrite app_nil_r. split; [|done]. intros rest. simpl. by destruct (scan params st rest). Qed.

Lemma reads_app st st1 st2 s1 s2 t1 t2 :
  reads st s1 st1 t1 → reads st1 s2 st2 t2 → reads st (s1 ++ s2) st2 (t1 ++ t2).
Proof.
  intros (o1 & H1 & E1) (o2 & H2 & E2). exists (o1 ++ o2). split.
  - intros rest. by rewrite <-(assoc_L app), H1, H2, app_compose.
  - by rewrite <-(assoc_L app), E2, (assoc_L app), E1, <-(assoc_L app).
Qed.

Lemma follows_nil : follows [] [].
Proof. intros st Hst. exists st. split; [done|apply reads_nil]. Qed.

Lemma glue_follows s t : glue s t → follows s t.
Proof. intros H st Hst. exists Gap. split; [done|auto]. Qed.

Lemma follows_app s1 s2 t1 t2 : follows s1 t1 → follows s2 t2 → follows (s1 ++ s2) (t1 ++ t2).
Proof.
  intros H1 H2 st Hst. destruct (H1 st Hst) as (st1 & Hst1 & Hr1). destruct (H2 st1 Hst1) as (st2 & Hst2 & Hr2).
  exists st2. split; [done|by eapply reads_app].
Qed.

Lemma glue_piece s1 s2 t1 t2 : glue s1 t1 → piece s2 t2 → follows (s1 ++ s2) (t1 ++ t2).
Proof. intros H1 (st' & Hst' & H2) st Hst. exists st'. split; [done|]. by eapply reads_app; [apply H1|]. Qed.

Lemma piece_follows s1 s2 t1 t2 : piece s1 t1 → follows s2 t2 → piece (s1 ++ s2) (t1 ++ t2).
Proof.
  intros (st1 & Hst1 & H1) H2. destruct (H2 st1 Hst1) as (st2 & Hst2 & Hr2). exists st2.
  split; [done|by eapply reads_app].
Qed.

Lemma gap_piece s1 s2 t1 t2 : reads Gap s1 Gap t1 → piece s2 t2 → piece (s1 ++ s2) (t1 ++ t2).
Proof. intros H1 (st' & Hst' & H2). exists st'. split; [done|by eapply reads_app]. Qed.

Lemma follows_piece s t : follows s t → piece s t.
Proof. intros H. by apply (H Gap). Qed.

Lemma follows_glue s1 s2 t1 t2 : follows s1 t1 → glue s2 t2 → glue (s1 ++ s2) (t1 ++ t2).
Proof. intros H1 H2 st Hst. destruct (H1 st Hst) as (st1 & Hst1 & Hr1). eapply reads_app; [done|auto]. Qed.

Lemma pending_outside c : pending (outside c) = [].
Proof. unfold outside. by repeat case_match. Qed.

(** Text that stands for itself. *)
Lemma textRun_plain st c st' : textStep st c = Some st' → pending st = [] ∧ pending st' = [] ∧ (c =? 36) && atGap st = false.
Proof.
  pose proof (pending_outside c) as Ho.
  destruct st; cbn [textStep atGap]; try done; destruct (c =? 36) eqn:E; cbn [orb andb]; repeat case_match;
    by intros [= <-].
Qed.

Lemma reads_textStep st c st' : textStep st c = Some st' → reads st [c] st' [Ch c].
Proof.
  intros E. destruct (textRun_plain _ _ _ E) as (Hp & Hp' & Hc). exists [Ch c]. rewrite Hp, Hp'. split; [|done].
  intros rest. cbn [app scan]. destruct st; try done; by rewrite Hc, E.
Qed.

Lemma reads_text st s st' : textRun st s = Some st' → pending st = [] → reads st s st' (chars s).
Proof.
  revert st. induction s as [|c s IH]; intros st; cbn [textRun]; [intros [= <-] _; apply reads_nil|].
  destruct (textStep st c) as [st1|] eqn:E; [|done]. intros Hr _.
  eapply (reads_app _ _ _ [c] s [Ch c]); [by apply reads_textStep|]. apply IH; [done|].
  by apply textRun_plain in E as (_ & ? & _).
Qed.

Lemma reads_breaking st c : ready st → breaking c = true → reads st [c] (outside c) [Ch c].
Proof.
  unfold breaking. intros Hst [[[Hw%negb_true_iff Hd]%andb_true_iff Hm]%andb_true_iff Hs]%andb_true_iff.
  apply negb_true_iff in Hd, Hm, Hs.
  assert (isDigit c = false) as Hdig.
  { unfold isWordRune in Hw. destruct (isDigit c); [|done]. by rewrite orb_true_r in Hw. }
  pose proof (pending_outside c) as Ho.
  destruct st; try done; cbn [ready] in Hst.
  5: destruct Hst as [a Ha].
  1-4: exists [Ch c]; rewrite Ho; split; [|done]; intros rest; cbn [app scan]; rewrite ?Hd; cbn [andb textStep orb];
       rewrite ?Hd, ?Hm, ?Hs, ?Hw; cbn [mbind option_bind orb]; apply (f_equal (λ o, o)); by destruct (scan _ _ rest).
  exists [Arg a; Ch c]. rewrite Ho. cbn [pending]. rewrite Ha. split; [|done]. intros rest. cbn [app scan].
  rewrite Hdig, Hw, Hd. cbn [orb]. by rewrite Ha.
Qed.

(** A literal that can follow anything. *)
Lemma glue_lit c (s : text) : breaking c = true → textRun Gap (c :: s) = Some Gap → glue (c :: s) (chars (c :: s)).
Proof.
  intros Hb Hr st Hst. apply (reads_app _ (outside c) _ [c] s [Ch c]); [by apply reads_breaking|].
  cbn [textRun] in Hr. assert (textStep Gap c = Some (outside c)) as E.
  { unfold breaking in Hb. cbn. by destruct (c =? 36); [rewrite andb_false_r in Hb|]. }
  rewrite E in Hr. apply reads_text; [done|apply pending_outside].
Qed.

(** The whole text. *)
Lemma piece_done s toks : piece s toks → scan params Gap s = Some toks.
Proof.
  intros (st' & Hst' & out & H & E). specialize (H []). rewrite app_nil_r in H. rewrite H. cbn in E. rewrite <-E.
  destruct st'; cbn [scan fmap option_fmap option_map pending] in *; rewrite ?app_nil_r; try done.
  destruct Hst' as [a ->]. done.
Qed.

(** A number: the digits are read and the value stands for them. *)
Lemma scan_Num_digits n ds rest :
  Forall (λ d, isDigit d = true) ds →
  scan params (Num n) (ds ++ rest) = scan params (Num (foldl (λ v d, v * 10 + (d - 48)) n ds)) rest.
Proof.
  intros H. revert n. induction H as [|d ds Hd _ IH]; intros n; [done|].
  cbn [app scan foldl]. by rewrite Hd.
Qed.

Lemma parameter_lookup k a : params !! k = Some a → parameter params (Z.of_nat (k + 1)) = Some a.
Proof.
  intros Ha. unfold parameter. destruct (Z.leb_spec (Z.of_nat (k + 1)) 0); [lia|].
  by replace (Z.to_nat (Z.of_nat (k + 1) - 1)) with k by lia.
Qed.

Lemma reads_placeholder st k a :
  atGap st = true → params !! k = Some a → reads st (lit "$" ++ Itoa (k + 1)) (Num (Z.of_nat (k + 1))) [Arg a].
Proof.
  intros Hst Ha. destruct (Itoa_spec (k + 1)) as (Hne & Hd & Hv). exists []. cbn [pending app].
  rewrite (parameter_lookup _ _ Ha). split; [|by destruct st]. intros rest.
  change (lit "$") with [36]. rewrite <-(assoc_L app).
  assert (scan params st ([36] ++ Itoa (k + 1) ++ rest) = scan params Dollar (Itoa (k + 1) ++ rest)) as ->.
  { by destruct st. }
  unfold digitsValue in Hv. destruct (Itoa (k + 1)) as [|d ds]; [done|]. inversion Hd as [|? ? Hd1 Hds]; subst.
  cbn [app scan]. rewrite Hd1, scan_Num_digits by done. cbn [foldl] in Hv. rewrite Z.mul_0_l, Z.add_0_l in Hv. rewrite Hv.
  by destruct (scan params _ rest).
Qed.

Lemma ready_Num k a : params !! k = Some a → ready (Num (Z.of_nat (k + 1))).
Proof. intros Ha. cbn. rewrite (parameter_lookup _ _ Ha). by eexists. Qed.

Lemma piece_placeholder k a : params !! k = Some a → piece (lit "$" ++ Itoa (k + 1)) [Arg a].
Proof. intros Ha. eexists. split; [by eapply ready_Num|by apply reads_placeholder]. Qed.

(** ** Fragments *)

(** The text [rewriteLoop] appends. *)
Fixpoint rewritten (fragment : text) (next : nat) : text :=
  match fragment with
  | [] => []
  | r :: rest => if r =? 63 then (lit "$" ++ Itoa next) ++ rewritten rest (next + 1)
                 else r :: rewritten rest next
  end.

Definition marks (fragment : text) : nat := countb (λ r, r =? 63) fragment.

Lemma rewriteLoop_spec fragment sql next count :
  rewriteLoop fragment sql next count =
    (sql ++ rewritten fragment next, (next + marks fragment)%nat, (count + marks fragment)%nat).
Proof.
  unfold marks. revert sql next count.
  induction fragment as [|r rest IH]; intros sql next count; [by rewrite app_nil_r, !Nat.add_0_r|].
  cbn [rewriteLoop rewritten]. rewrite countb_cons.
  destruct (r =? 63); cbn [negb]; by rewrite IH, <-!(assoc_L app), <-?Nat.add_assoc.
Qed.

(** [fargs] are the parameters numbered from [k + 1]. *)
Definition params_from (k : nat) (fargs : list A) : Prop :=
  ∀ i a, fargs !! i = Some a → params !! (k + i)%nat = Some a.

Lemma params_from_cons k a fargs :
  params_from k (a :: fargs) ↔ params !! k = Some a ∧ params_from (k + 1) fargs.
Proof.
  split.
  - intros H. split; [rewrite <-(Nat.add_0_r k); by apply H|].
    intros i b Hi. rewrite <-(Nat.add_assoc k 1 i). by apply H.
  - intros [Ha Hf] [|i] b Hi; simpl in Hi; [rewrite Nat.add_0_r; congruence|].
    rewrite Nat.add_succ_r, <-Nat.add_succ_l, <-Nat.add_1_r. by apply Hf.
Qed.

Lemma params_from_app k xs ys :
  params_from k (xs ++ ys) ↔ params_from k xs ∧ params_from (k + length xs) ys.
Proof.
  revert k. induction xs as [|x xs IH]; intros k; simpl.
  - rewrite Nat.add_0_r. split; [|by intros [_ ?]]. intros H; split; [by intros ??|done].
  - rewrite !params_from_cons, IH. replace (k + 1 + length xs)%nat with (k + S (length xs))%nat by lia. tauto.
Qed.

(** A rune right after a mark. *)
Lemma reads_afterMark k a c :
  params !! k = Some a → isWordRune c = false → (c =? 36) = false →
  reads (Num (Z.of_nat (k + 1))) [c] (outside c) [Ch c].
Proof.
  intros Ha%parameter_lookup Hw Hd. assert (isDigit c = false) as Hdig.
  { unfold isWordRune in Hw. destruct (isDigit c); [|done]. by rewrite orb_true_r in Hw. }
  exists [Arg a; Ch c]. cbn [pending]. rewrite Ha. split; [|by rewrite pending_outside]. intros rest.
  cbn [app scan]. by rewrite Hdig, Hw, Hd, Ha.
Qed.

(** A rewritten fragment, from a state of its own text or right after the
    placeholder before it. *)
Lemma reads_fragment fragment : ∀ k fargs st,
  marks fragment = length fargs → params_from k fargs →
  (wellPlaced st false fragment = true →
     ∃ st', ready st' ∧ reads st (rewritten fragment (k + 1)) st' (fragmentTokens fragment fargs)) ∧
  (∀ j a, params !! j = Some a → wellPlaced Gap true fragment = true →
     ∃ st', ready st' ∧ reads (Num (Z.of_nat (j + 1))) (rewritten fragment (k + 1)) st' (fragmentTokens fragment fargs)).
Proof.
  unfold marks. induction fragment as [|c rest IH]; intros k fargs st.
  { intros _ _. cbn. split.
    - intros Hst. exists st. split; [|apply reads_nil]. by destruct st.
    - intros j a Ha _. exists (Num (Z.of_nat (j + 1))). split; [by eapply ready_Num|apply reads_nil]. }
  rewrite countb_cons. cbn [rewritten fragmentTokens wellPlaced].
  destruct (c =? 63) eqn:Hc; cbn [negb andb].
  - destruct fargs as [|a fargs]; [done|]. intros Hm [Ha Hf]%params_from_cons. split; [|done].
    intros [Hst Hw]%andb_true_iff. destruct (IH (k + 1)%nat fargs Gap) as [_ IH']; [simpl in Hm; lia|done|].
    destruct (IH' k a Ha Hw) as (st' & Hst' & Hr). exists st'. split; [done|].
    eapply (reads_app _ _ _ _ _ [Arg a]); [by apply reads_placeholder|done].
  - intros Hm Hf. split.
    + destruct (textStep st c) as [st1|] eqn:E; [|done]. intros Hw.
      destruct (proj1 (IH k fargs st1 Hm Hf) Hw) as (st' & Hst' & Hr). exists st'. split; [done|].
      eapply (reads_app _ _ _ [c] _ [Ch c]); [by apply reads_textStep|done].
    + intros j a Ha. destruct (isWordRune c) eqn:Hwr; [done|]. cbn [textStep]. destruct (c =? 36) eqn:Hd; [done|]. intros Hw.
      destruct (proj1 (IH k fargs (outside c) Hm Hf) Hw) as (st' & Hst' & Hr). exists st'. split; [done|].
      eapply (reads_app _ _ _ [c] _ [Ch c]); [by eapply reads_afterMark|done].
Qed.

(** ** Identifiers *)

Lemma segmentLoop_parts i segment :
  segmentLoop i segment = true → Forall (λ c, isIdentifierPart c = true) segment.
Proof.
  revert i. induction segment as [|r rest IH]; intros i; [constructor|]. cbn [segmentLoop].
  destruct (i =? 0); [destruct (isIdentifierStart r) eqn:Hr|destruct (isIdentifierPart r) eqn:Hr];
    cbn [negb]; try done; constructor; eauto. unfold isIdentifierPart. by rewrite Hr.
Qed.

Lemma isIdentifierSegment_parts segment :
  isIdentifierSegment segment = true → segment ≠ [] ∧ Forall (λ c, isIdentifierPart c = true) segment.
Proof. destruct segment; [done|]. intros H. split; [done|by eapply segmentLoop_parts]. Qed.

Lemma identifier_part_code c : isIdentifierPart c = true → c ≠ 34 ∧ c ≠ 36 ∧ c ≠ 46.
Proof. intros H. split_and!; intros ->; discriminate. Qed.

Lemma quoteLoop_spec segments quoted out :
  quoteLoop segments quoted = Ok out →
  out = quoted ++ map quote segments ∧ Forall (λ s, isIdentifierSegment s = true) segments.
Proof.
  revert quoted. induction segments as [|s rest IH]; intros quoted; cbn [quoteLoop map].
  - intros [= ->]. by rewrite app_nil_r.
  - destruct (isIdentifierSegment s) eqn:Hs; cbn [negb]; [|done].
    intros [-> Hall]%IH. rewrite <-(assoc_L app). auto.
Qed.

Lemma quoteIdentifier_spec identifier out :
  quoteIdentifier identifier = Ok out →
  out = identifierText identifier ∧ Forall (λ s, isIdentifierSegment s = true) (Split identifier 46).
Proof.
  unfold quoteIdentifier, identifierText. destruct identifier as [|c rest]; [done|].
  destruct (quoteLoop _ []) as [quoted|] eqn:Hq; [|done]. intros [= <-].
  by apply quoteLoop_spec in Hq as [-> ?].
Qed.

Lemma textRun_quoted segment :
  Forall (λ c, isIdentifierPart c = true) segment → textRun (Quoted 34) (segment ++ [34]) = Some Gap.
Proof.
  intros H. induction H as [|c segment Hc _ IH]; [done|]. cbn [app textRun textStep].
  apply identifier_part_code in Hc as [Hc _]. by destruct (Z.eqb_spec c 34).
Qed.

Lemma glue_quote segment : isIdentifierSegment segment = true → glue (quote segment) (chars (quote segment)).
Proof.
  intros [_ Hp]%isIdentifierSegment_parts st Hst. unfold quote.
  apply (reads_app _ (Quoted 34) _ [34] _ [Ch 34]); [by apply (reads_breaking st 34)|].
  by apply reads_text; [apply textRun_quoted|].
Qed.

Lemma glue_identifier segments :
  segments ≠ [] → Forall (λ s, isIdentifierSegment s = true) segments →
  glue (Join (map quote segments) 46) (chars (Join (map quote segments) 46)).
Proof.
  intros Hne H. induction H as [|s segments Hs Hall IH]; [done|].
  destruct segments as [|s' segments]; [by apply glue_quote|].
  change (Join (map quote (s :: s' :: segments)) 46)
    with (quote s ++ [46] ++ Join (map quote (s' :: segments)) 46).
  unfold chars. rewrite !fmap_app.
  apply follows_glue; [by apply glue_follows, glue_quote|]. apply follows_glue; [by apply glue_follows, glue_lit|by apply IH].
Qed.

Lemma quoteIdentifier_reads identifier out :
  quoteIdentifier identifier = Ok out →
  out = identifierText identifier ∧ glue out (chars out).
Proof.
  intros [-> H]%quoteIdentifier_spec. split; [done|]. apply glue_identifier; [apply splitOn_nonempty|done].
Qed.

(** ** Joined parts *)

Lemma piece_JoinText parts toks sep :
  Forall2 piece parts toks → glue sep (chars sep) → piece (JoinText parts sep) (joinTokens toks sep).
Proof.
  intros H Hs. induction H as [|p t parts toks Hpt Hall IH]; [apply follows_piece, follows_nil|].
  destruct Hall as [|p' t' parts toks]; [done|].
  change (JoinText (p :: p' :: parts) sep) with (p ++ sep ++ JoinText (p' :: parts) sep).
  change (joinTokens (t :: t' :: toks) sep) with (t ++ chars sep ++ joinTokens (t' :: toks) sep).
  apply piece_follows; [done|]. by apply glue_piece.
Qed.

Lemma joinTokens_chars parts sep :
  joinTokens (map (@chars A) parts) sep = chars (JoinText parts sep).
Proof.
  induction parts as [|p [|p' parts] IH]; [done|done|].
  change (JoinText (p :: p' :: parts) sep) with (p ++ sep ++ JoinText (p' :: parts) sep).
  unfold chars in *. rewrite !fmap_app, <-IH. done.
Qed.

Lemma quoteIdentifiersLoop_reads identifiers quoted out :
  quoteIdentifiersLoop identifiers quoted = Ok out →
  ∃ new, out = quoted ++ new ∧ new = map identifierText identifiers ∧ Forall2 piece new (map chars new).
Proof.
  revert quoted. induction identifiers as [|i rest IH]; intros quoted; cbn [quoteIdentifiersLoop map].
  - intros [= <-]. exists []. rewrite app_nil_r. by repeat constructor.
  - destruct (quoteIdentifier i) as [v|] eqn:Hv; [|done]. intros (new & -> & -> & Hall)%IH.
    apply quoteIdentifier_reads in Hv as [-> Hv].
    eexists; split; [by rewrite <-(assoc_L app)|]. split; [done|constructor; [|done]]. by apply follows_piece, glue_follows.
Qed.

Lemma quoteIdentifiers_reads identifiers out :
  quoteIdentifiers identifiers = Ok out →
  JoinText out (lit ", ") = identifiersText identifiers ∧
  piece (identifiersText identifiers) (chars (identifiersText identifiers)).
Proof.
  intros (new & -> & -> & H)%quoteIdentifiersLoop_reads. cbn [app]. split; [done|].
  unfold identifiersText. rewrite <-joinTokens_chars. apply piece_JoinText; [done|by apply glue_lit].
Qed.

(** ** Where clauses *)

Lemma copyArgs_id (l : list A) : copyArgs l = l.
Proof. destruct l; [done|]. unfold copyArgs. by rewrite firstn_all. Qed.

Lemma whereLoop_reads cs out k fragments out' fragments' :
  whereLoop cs out (k + 1) fragments = Ok (out', fragments') →
  ∃ new, fragments' = fragments ++ new ∧ out' = out ++ (cs ≫= args) ∧
    (params_from k (cs ≫= args) → forallb (λ c, wellPlaced Gap false (fragment c)) cs = true →
     Forall2 piece new (map (λ c, fragmentTokens (fragment c) (args c)) cs)).
Proof.
  revert out k fragments. induction cs as [|c cs IH]; intros out k fragments; cbn [whereLoop].
  { intros [= <- <-]. exists []. rewrite !app_nil_r. by repeat constructor. }
  unfold rewritePlaceholders. destruct (fragment c) as [|r rest] eqn:Hfr; [done|].
  rewrite rewriteLoop_spec, <-Hfr. cbn [app]. rewrite Nat.add_0_l.
  destruct (Nat.eqb_spec (marks (fragment c)) (length (args c))) as [Hm|]; cbn [negb]; [|done].
  rewrite copyArgs_id. replace (k + 1 + marks (fragment c))%nat with (k + length (args c) + 1)%nat by lia.
  intros (new & -> & -> & Hnew)%IH. eexists; split; [by rewrite <-(assoc_L app)|].
  rewrite bind_cons. split; [by rewrite (assoc_L app)|].
  intros [Hc Hcs]%params_from_app. cbn [forallb map]. intros [Hw Hws]%andb_true_iff.
  constructor; [|by apply Hnew]. by apply (reads_fragment (fragment c) k (args c) Gap).
Qed.

Lemma appendWhere_reads sql k cs sql' out :
  appendWhere sql (k + 1) cs = Ok (sql', out) →
  ∃ w, sql' = sql ++ w ∧ out = cs ≫= args ∧
    (params_from k out → forallb (λ c, wellPlaced Gap false (fragment c)) cs = true →
     follows w (whereTokens cs)).
Proof.
  unfold appendWhere, whereTokens. destruct cs as [|c cs].
  - intros [= <- <-]. exists []. rewrite app_nil_r. split_and!; try done. intros; apply follows_nil.
  - destruct (whereLoop _ _ _ _) as [[out0 frs]|] eqn:Hl; [|done]. intros [= <- <-].
    apply whereLoop_reads in Hl as (new & -> & -> & Hr). rewrite !app_nil_l.
    exists (lit " where " ++ JoinText new (lit " and ")). split_and!; try done. intros Hp Hw.
    apply glue_piece; [by apply glue_lit|]. apply piece_JoinText; [auto|by apply glue_lit].
Qed.

(** ** Assignments and inserted values *)

Lemma setLoop_reads sets k setSQL out setSQL' out' :
  setLoop sets k setSQL out = Ok (setSQL', out') →
  ∃ new, setSQL' = setSQL ++ new ∧ out' = out ++ map value sets ∧
    (params_from k (map value sets) →
     Forall2 piece new
       (map (λ s, chars (identifierText (column s) ++ lit " = ") ++ [Arg (value s)]) sets)).
Proof.
  revert k setSQL out. induction sets as [|s sets IH]; intros k setSQL out; cbn [setLoop map].
  { intros [= <- <-]. exists []. rewrite !app_nil_r. by repeat constructor. }
  destruct (quoteIdentifier (column s)) as [c|] eqn:Hc; [|done].
  apply quoteIdentifier_reads in Hc as [-> Hc].
  intros (new & -> & -> & Hnew)%IH. eexists; split; [by rewrite <-(assoc_L app)|].
  split; [by rewrite <-(assoc_L app)|]. intros [Ha Hs]%params_from_cons.
  constructor; [|by apply Hnew].
  change (lit " = $" ++ Itoa (k + 1)) with (lit " = " ++ lit "$" ++ Itoa (k + 1)).
  unfold chars. rewrite fmap_app, <-(assoc_L app). apply piece_follows; [by apply follows_piece, glue_follows|].
  apply glue_piece; [by apply glue_lit|by apply piece_placeholder].
Qed.

Lemma insertPlaceholders_reads k values :
  params_from k values →
  Forall2 piece (map (λ i, lit "$" ++ Itoa (i + 1)) (seq k (length values))) (map (λ a, [Arg a]) values).
Proof.
  revert k. induction values as [|a values IH]; intros k; [constructor|].
  intros [Ha Hv]%params_from_cons. cbn [length seq map].
  constructor; [by apply piece_placeholder|]. apply IH. by rewrite <-Nat.add_1_r.
Qed.

End reads.

Lemma params_from_all {A} (params : list A) : params_from params 0 params.
Proof. by intros i a. Qed.

Lemma NewStatement_eq {A} (sql : text) (args : list A) : NewStatement sql args = mkStatement sql args.
Proof. unfold NewStatement. by rewrite copyArgs_id. Qed.

Section binds.
Context {A : Type}.

Lemma columns_reads (params : list A) cs columns :
  (match cs with [] => Ok [lit "*"] | c :: cs' => quoteIdentifiers (c :: cs') end) = Ok columns →
  let X := match cs with [] => lit "*" | c :: cs' => identifiersText (c :: cs') end in
  JoinText columns (lit ", ") = X ∧ piece params X (chars X).
Proof.
  destruct cs as [|c cs]; [|by intros; apply quoteIdentifiers_reads].
  intros [= <-]. split; [done|]. exists Gap. split; [done|by apply reads_text].
Qed.

(** The clauses that end with a list of identifiers. *)
Lemma listText_reads (params : list A) (keyword : string) sql ids sql' :
  glue params (lit keyword) (chars (lit keyword)) →
  (match ids with
   | [] => Ok sql
   | i :: ids' =>
            match quoteIdentifiers (i :: ids') with
            | Fail err => Fail err
            | Ok ids => Ok (sql ++ lit keyword ++ JoinText ids (lit ", "))
            end
   end) = Ok sql' →
  sql' = sql ++ listText keyword ids ∧ follows params (listText keyword ids) (chars (listText keyword ids)).
Proof.
  intros Hk. destruct ids as [|i ids]; unfold listText.
  - intros [= <-]. rewrite app_nil_r. split; [done|apply follows_nil].
  - destruct (quoteIdentifiers (i :: ids)) as [out|] eqn:Hq; [|done]. intros [= <-].
    destruct (quoteIdentifiers_reads params _ _ Hq) as [-> Hr]. split; [done|].
    unfold chars. rewrite fmap_app. by apply glue_piece.
Qed.

Lemma textRun_digits ds : ∀ b, Forall (λ d, isDigit d = true) ds → textRun (Word b) ds = Some (Word b).
Proof.
  induction ds as [|d ds IH]; intros b H; [done|]. inversion H as [|? ? Hd Hds]; subst. cbn [textRun textStep].
  unfold isWordRune. rewrite Hd. unfold isDigit in Hd. destruct (Z.eqb_spec d 36) as [->|]; [done|].
  rewrite orb_true_r. cbn. by apply IH.
Qed.

Lemma limitText_reads (params : list A) limit : follows params (limitText limit) (chars (limitText limit)).
Proof.
  destruct limit as [n|]; [|apply follows_nil]. unfold limitText, chars. rewrite fmap_app.
  apply glue_piece; [by apply glue_lit|]. destruct (Itoa_spec (Z.to_nat n)) as (Hne & Hd & _).
  exists (Word true). split; [done|]. apply reads_text; [|done].
  destruct (Itoa (Z.to_nat n)) as [|d ds]; [done|]. inversion Hd as [|? ? Hd1 Hds]; subst. cbn [textRun].
  assert (textStep Gap d = Some (Word true)) as ->; [|by apply textRun_digits].
  unfold isDigit in Hd1. apply andb_true_iff in Hd1 as [?%Z.leb_le ?%Z.leb_le]. unfold textStep, outside, isQuote, isWordRune, isDigit.
  repeat match goal with |- context [?a =? ?b] => destruct (Z.eqb_spec a b); [lia|] end.
  repeat match goal with |- context [?a <=? ?b] => destruct (Z.leb_spec a b); try lia end; done.
Qed.

Lemma Select_binds (b : SelectBuilder A) stmt :
  Select_Build b = Ok stmt → marks_well_placed (BSelect b) = true → bindSQL stmt = Some (meaning (BSelect b)).
Proof.
  unfold Select_Build. destruct (quoteIdentifier (s_table b)) as [table|] eqn:Ht; [|done].
  destruct (match s_columns b with [] => _ | _ => _ end) as [columns|] eqn:Hc; [|done].
  destruct (appendWhere _ _ _) as [[sql out]|] eqn:Hw; [|done].
  destruct (match s_orderBy b with [] => _ | _ => _ end) as [sql'|] eqn:Ho; [|done].
  intros Hs Hm. assert (stmt = mkStatement (sql' ++ limitText (s_limit b)) out) as ->.
  { destruct (s_limit b) as [n|]; [destruct (n <? 0); [done|]|]; rewrite NewStatement_eq in Hs; unfold limitText;
      rewrite ?app_nil_r; congruence. }
  apply (quoteIdentifier_reads out) in Ht as [-> Ht]. apply (columns_reads out) in Hc as [Hj Hc]. rewrite Hj in Hw.
  apply (listText_reads out) in Ho as [-> Ho]; [|by apply glue_lit].
  apply (appendWhere_reads out _ 0) in Hw as (w & -> & -> & Hw).
  specialize (Hw (params_from_all _) Hm). pose proof (limitText_reads (s_where b ≫= args) (s_limit b)) as Hl.
  unfold bindSQL. cbn [SQL Args meaning]. apply piece_done. clear Hs.
  rewrite ?chars_app, <-?(assoc_L app).
  apply gap_piece; [by apply reads_text|]. apply piece_follows; [done|].
  apply follows_app; [by apply glue_follows, glue_lit|]. apply follows_app; [by apply glue_follows|].
  by apply follows_app; [|apply follows_app].
Qed.

Lemma Insert_binds (b : InsertBuilder A) stmt :
  Insert_Build b = Ok stmt → bindSQL stmt = Some (meaning (BInsert b)).
Proof.
  unfold Insert_Build. destruct (quoteIdentifier (i_table b)) as [table|] eqn:Ht; [|done].
  destruct (length (i_columns b) =? 0)%nat; [done|].
  destruct (length (i_columns b) =? length (i_values b))%nat; cbn [negb]; [|done].
  destruct (quoteIdentifiers (i_columns b)) as [columns|] eqn:Hc; [|done].
  apply (quoteIdentifier_reads (i_values b)) in Ht as [-> Ht].
  apply (quoteIdentifiers_reads (i_values b)) in Hc as [-> Hc]. intros Hs.
  set (sql := lit "insert into " ++ _) in Hs.
  destruct (match i_returning b with
            | [] => Ok sql
            | i :: ids' => match quoteIdentifiers (i :: ids') with
                           | Fail err => Fail err
                           | Ok ids => Ok (sql ++ lit " returning " ++ JoinText ids (lit ", "))
                           end end) as [sql'|] eqn:Hr.
  2: by destruct (i_returning b); [|destruct (quoteIdentifiers _)].
  assert (stmt = mkStatement sql' (i_values b)) as ->.
  { destruct (i_returning b); [|destruct (quoteIdentifiers _)]; rewrite ?NewStatement_eq in Hs; congruence. }
  apply (listText_reads (i_values b)) in Hr as [-> Hr]; [|by apply glue_lit]. clear Hs.
  unfold bindSQL. cbn [SQL Args meaning]. apply piece_done. subst sql.
  rewrite ?chars_app, <-?(assoc_L app).
  apply gap_piece; [by apply reads_text|]. apply piece_follows; [by apply follows_piece, glue_follows|].
  rewrite !(assoc_L app (lit " (")), !(assoc_L app (chars (lit " ("))).
  apply follows_app; [by apply glue_piece; [apply glue_lit|]|].
  rewrite !(assoc_L app (lit ") values (")), !(assoc_L app (chars (lit ") values ("))).
  apply follows_app; [|apply follows_app; [by apply glue_follows, glue_lit|done]].
  apply glue_piece; [by apply glue_lit|]. apply piece_JoinText; [apply insertPlaceholders_reads, params_from_all|by apply glue_lit].
Qed.

Lemma Update_binds (b : UpdateBuilder A) stmt :
  Update_Build b = Ok stmt → marks_well_placed (BUpdate b) = true → bindSQL stmt = Some (meaning (BUpdate b)).
Proof.
  unfold Update_Build. destruct (quoteIdentifier (u_table b)) as [table|] eqn:Ht; [|done].
  destruct (length (u_sets b) =? 0)%nat; [done|].
  destruct (length (u_where b) =? 0)%nat eqn:Hl; [done|].
  destruct (setLoop _ _ _ _) as [[setSQL out]|] eqn:Hs; [|done].
  destruct (appendWhere _ _ _) as [[sql wargs]|] eqn:Hw; [|done].
  rewrite NewStatement_eq. intros [= <-] Hm. set (params := out ++ wargs).
  apply (quoteIdentifier_reads params) in Ht as [-> Ht].
  apply (setLoop_reads params) in Hs as (new & -> & -> & Hs). rewrite !app_nil_l in *.
  apply (appendWhere_reads params) in Hw as (w & -> & Ha & Hw).
  destruct (proj1 (params_from_app params 0 _ _) (params_from_all params)) as [Hp Hq].
  unfold bindSQL. cbn [SQL Args meaning]. apply piece_done.
  rewrite ?chars_app, <-?(assoc_L app).
  apply gap_piece; [by apply reads_text|]. apply piece_follows; [by apply follows_piece, glue_follows|].
  rewrite !(assoc_L app (lit " set ")), !(assoc_L app (chars (lit " set "))).
  apply follows_app; [|by apply Hw].
  apply glue_piece; [by apply glue_lit|]. apply piece_JoinText; [auto|by apply glue_lit].
Qed.

Lemma Delete_binds (b : DeleteBuilder A) stmt :
  Delete_Build b = Ok stmt → marks_well_placed (BDelete b) = true → bindSQL stmt = Some (meaning (BDelete b)).
Proof.
  unfold Delete_Build. destruct (quoteIdentifier (d_table b)) as [table|] eqn:Ht; [|done].
  destruct (length (d_where b) =? 0)%nat; [done|].
  destruct (appendWhere _ _ _) as [[sql out]|] eqn:Hw; [|done].
  rewrite NewStatement_eq. intros [= <-] Hm.
  apply (quoteIdentifier_reads out) in Ht as [-> Ht].
  apply (appendWhere_reads out _ 0) in Hw as (w & -> & -> & Hw).
  unfold bindSQL. cbn [SQL Args meaning]. apply piece_done.
  rewrite ?chars_app, <-?(assoc_L app).
  apply gap_piece; [by apply reads_text|]. apply piece_follows; [by apply follows_piece, glue_follows|].
  apply Hw; [apply params_from_all|done].
Qed.
End binds.

(** C27. Every value stands where the caller placed it.  When [Build] of any
    of the four builders succeeds, reading the statement by PostgreSQL's lexical
    rules, [$n] being the n-th argument, gives the statement the caller
    described: the quoted identifiers in their order, each mark of each fragment
    replaced by its own argument, each column by its own value.  The where
    fragments, which Build takes as they are, have to be well placed
    ([marks_well_placed]): each mark stands outside quotes and touches neither a
    letter, digit, underscore, [$] or rune beyond ASCII nor another mark; quotes
    are closed; a [$] occurs only in quotes or inside an identifier; there are
    no comments and no backslashes in string literals. *)
Theorem built_statement_binds {A} (b : builder A) stmt :
  Build b = Ok stmt → marks_well_placed b = true → bindSQL stmt = Some (meaning b).
Proof.
  destruct b; cbn [Build]; intros.
  - by apply Select_binds.
  - by apply Insert_binds.
  - by apply Update_binds.
  - by apply Delete_binds.
Qed.

Lemma built_statement_binds_witness :
  let b := BUpdate (Update_Where (Update_Where (Set_ (Update (lit "accounts")) (lit "name") 10)
             (lit "id-?=0 or note = '$9'") [30]) (lit "kind in (?, ?)") [40; 50]) in
  ∃ stmt, Build b = Ok stmt ∧ Args stmt = [10; 30; 40; 50] ∧ bindSQL stmt = Some (meaning b).
Proof.
  eexists. split; [vm_compute; reflexivity|]. split; [reflexivity|].
  apply built_statement_binds; vm_compute; reflexivity.
Defined.

(** Build does not check where the marks stand: a mark next to a letter becomes
    part of an identifier, and PostgreSQL reads a statement without parameters. *)
Example mark_joins_identifier :
  bindSQL (mkStatement (lit "delete from t where name like$1") [7]) = Some (chars (lit "delete from t where name like$1")) ∧
  (∃ sql, Build (BDelete (Delete_Where (DeleteFrom (lit "t")) (lit "name like?") [7])) = Ok (mkStatement sql [7]) ∧
     bindSQL (mkStatement sql [7]) = Some (chars sql)).
Proof. split; [vm_compute; reflexivity|]. eexists. split; vm_compute; reflexivity. Qed.

(** ** The text does not depend on the values *)

Section values.
Context {A B : Type} (f : A → B).

Definition mapWhere (c : whereClause A) : whereClause B := mkWhere (fragment c) (f <$> args c).

Definition mapValues (b : builder A) : builder B :=
  match b with
  | BSelect b => BSelect (mkSelect (s_table b) (s_columns b) (mapWhere <$> s_where b) (s_orderBy b) (s_limit b))
  | BInsert b => BInsert (mkInsert (i_table b) (i_columns b) (f <$> i_values b) (i_returning b))
  | BUpdate b => BUpdate (mkUpdate (u_table b)
                   ((λ s, mkAssignment (column s) (f (value s))) <$> u_sets b) (mapWhere <$> u_where b))
  | BDelete b => BDelete (mkDelete (d_table b) (mapWhere <$> d_where b))
  end.

Definition mapResult {X Y} (g : X → Y) (r : result X) : result Y :=
  match r with Ok x => Ok (g x) | Fail err => Fail err end.

Definition mapStatement (s : Statement A) : Statement B := mkStatement (SQL s) (f <$> Args s).

Lemma rewritePlaceholders_map fragment start args :
  rewritePlaceholders fragment start (f <$> args) =
    mapResult (λ r, (r.1.1, f <$> r.1.2, r.2)) (rewritePlaceholders fragment start args).
Proof.
  unfold rewritePlaceholders. destruct fragment; [done|]. rewrite rewriteLoop_spec, length_fmap.
  case_match; [done|]. cbn. by rewrite !copyArgs_id.
Qed.

Lemma whereLoop_map cs out next fragments :
  whereLoop (mapWhere <$> cs) (f <$> out) next fragments =
    mapResult (λ r, (f <$> r.1, r.2)) (whereLoop cs out next fragments).
Proof.
  revert out next fragments. induction cs as [|c cs IH]; intros out next fragments; [done|].
  rewrite fmap_cons. cbn [whereLoop]. cbn [mapWhere fragment args]. rewrite rewritePlaceholders_map.
  destruct (rewritePlaceholders _ _ _) as [[[fr ca] nx]|]; [|done]. cbn [mapResult fst snd].
  by rewrite <-fmap_app, IH.
Qed.

Lemma appendWhere_map sql start cs :
  appendWhere sql start (mapWhere <$> cs) =
    mapResult (λ r, (r.1, f <$> r.2)) (appendWhere sql start cs).
Proof.
  unfold appendWhere. destruct cs as [|c cs]; [done|].
  rewrite fmap_cons, <-fmap_cons. rewrite (whereLoop_map (c :: cs) []).
  by destruct (whereLoop _ _ _ _) as [[out frs]|].
Qed.

Lemma setLoop_map sets i setSQL out :
  setLoop ((λ s, mkAssignment (column s) (f (value s))) <$> sets) i setSQL (f <$> out) =
    mapResult (λ r, (r.1, f <$> r.2)) (setLoop sets i setSQL out).
Proof.
  revert i setSQL out. induction sets as [|s sets IH]; intros i setSQL out; [done|].
  rewrite fmap_cons. cbn [setLoop column value]. destruct (quoteIdentifier (column s)); [|done].
  rewrite <-IH. by rewrite fmap_app.
Qed.
End values.

(** Injection safety: the text of a statement is a function of the
    builder without its values.  Replacing every value by another one, through
    any function, changes the arguments of the built statement and neither its
    text nor whether, or with which error, [Build] fails. *)
Theorem build_natural {A B} (f : A → B) (b : builder A) :
  Build (mapValues f b) = mapResult (mapStatement f) (Build b).
Proof.
  destruct b as [b|b|b|b]; cbn [Build mapValues].
  - unfold Select_Build. cbn [s_table s_columns s_where s_orderBy s_limit].
    destruct (quoteIdentifier _); [|done].
    destruct (match s_columns b with [] => _ | _ => _ end); [|done]. rewrite appendWhere_map.
    destruct (appendWhere _ _ _) as [[sql out]|]; [|done]. cbn [mapResult fst snd].
    destruct (match s_orderBy b with [] => _ | _ => _ end); [|done]. destruct (s_limit b); [case_match; [done|]|]; by rewrite !NewStatement_eq.
  - unfold Insert_Build. cbn [i_table i_columns i_values i_returning]. rewrite length_fmap.
    repeat (case_match; try done); by rewrite !NewStatement_eq.
  - unfold Update_Build. cbn [u_table u_sets u_where]. rewrite !length_fmap.
    destruct (quoteIdentifier _); [|done]. do 2 (case_match; [done|]).
    pose proof (setLoop_map f (u_sets b) 0 [] []) as Hs. cbn [fmap list_fmap] in Hs. rewrite Hs. clear Hs.
    destruct (setLoop (u_sets b) 0 [] []) as [[setSQL out]|]; [|reflexivity].
    cbn [mapResult fst snd]. rewrite length_fmap, appendWhere_map.
    destruct (appendWhere _ _ _) as [[sql wargs]|]; [|done]. cbn [mapResult fst snd].
    rewrite !NewStatement_eq. unfold mapStatement. cbn [SQL Args]. by rewrite fmap_app.
  - unfold Delete_Build. cbn [d_table d_where]. rewrite length_fmap.
    destruct (quoteIdentifier _); [|done]. case_match; [done|]. rewrite appendWhere_map.
    destruct (appendWhere _ _ _) as [[sql out]|]; [|done]. cbn [mapResult fst snd].
    by rewrite !NewStatement_eq.
Qed.

(** ** Quoted identifiers read back *)

Inductive nameState : Type :=
| ExpectOpen
| Inside (segment : text)
| ExpectDot.

(** A qualified name in double quotes, the way PostgreSQL reads it. *)
Fixpoint readName (st : nameState) (s : text) : option (list text) :=
  match st, s with
  | ExpectOpen, c :: rest => if c =? 34 then readName (Inside []) rest else None
  | Inside segment, c :: rest =>
      if c =? 34 then cons segment <$> readName ExpectDot rest
      else readName (Inside (segment ++ [c])) rest
  | ExpectDot, [] => Some []
  | ExpectDot, c :: rest => if c =? 46 then readName ExpectOpen rest else None
  | _, [] => None
  end.

Lemma readName_inside acc segment rest :
  34 ∉ segment →
  readName (Inside acc) (segment ++ 34 :: rest) = cons (acc ++ segment) <$> readName ExpectDot rest.
Proof.
  revert acc. induction segment as [|c segment IH]; intros acc Hs; [by rewrite app_nil_r|].
  cbn [app readName]. destruct (Z.eqb_spec c 34) as [->|]; [set_solver|].
  rewrite IH by set_solver. by rewrite <-(assoc_L app).
Qed.

Lemma readName_Join segments :
  segments ≠ [] → Forall (λ s, isIdentifierSegment s = true) segments →
  readName ExpectOpen (Join (map quote segments) 46) = Some segments.
Proof.
  intros Hne H. induction H as [|s segments Hs Hall IH]; [done|].
  assert (34 ∉ s).
  { apply isIdentifierSegment_parts in Hs as [_ Hp]. intros Hin.
    by apply (proj1 (Forall_forall _ _) Hp) in Hin. }
  destruct segments as [|s' segments].
  - cbn [map Join]. unfold quote. cbn [app readName]. by rewrite readName_inside.
  - change (Join (map quote (s :: s' :: segments)) 46)
      with (quote s ++ 46 :: Join (map quote (s' :: segments)) 46).
    unfold quote at 1. rewrite <-!(assoc_L app). cbn [app readName]. rewrite Z.eqb_refl, readName_inside by done.
    cbn [readName]. by rewrite Z.eqb_refl, IH.
Qed.

Lemma quoteLoop_Fail segments quoted err :
  quoteLoop segments quoted = Fail err →
  errors_Is err "sqlkit: invalid argument" = true ∧ ¬ Forall (λ s, isIdentifierSegment s = true) segments.
Proof.
  revert quoted. induction segments as [|s rest IH]; intros quoted; cbn [quoteLoop]; [done|].
  destruct (isIdentifierSegment s) eqn:Hs; cbn [negb].
  - intros [? Hn]%IH. split; [done|]. by intros [_ ?]%Forall_cons.
  - intros [= <-]. split; [done|]. intros [? _]%Forall_cons. congruence.
Qed.

(** [quoteIdentifier] is the only way an identifier reaches a statement,
    and it is exact: it accepts a name when its dot-separated segments are all
    identifiers, the quoted text then reads back as those segments, and it
    refuses every other name with [ErrInvalidArgument]. *)
Theorem quoteIdentifier_roundtrip identifier :
  match quoteIdentifier identifier with
  | Ok out =>
      readName ExpectOpen out = Some (Split identifier 46) ∧
      Forall (λ s, isIdentifierSegment s = true) (Split identifier 46)
  | Fail err =>
      errors_Is err "sqlkit: invalid argument" = true ∧
      ¬ Forall (λ s, isIdentifierSegment s = true) (Split identifier 46)
  end.
Proof.
  destruct (quoteIdentifier identifier) as [out|err] eqn:Hq.
  - apply quoteIdentifier_spec in Hq as [-> Hall]. split; [|done].
    apply readName_Join; [apply splitOn_nonempty|done].
  - unfold quoteIdentifier in Hq. destruct identifier as [|c rest].
    + injection Hq as <-. split; [done|]. by intros [? _]%Forall_cons.
    + destruct (quoteLoop _ []) eqn:Hl; simplify_eq. by apply quoteLoop_Fail in Hl.
Qed.

(** The fragments of two [Where] calls are joined without parentheses, so that
    an [or] in the first one takes the second as its right operand only. *)
Example or_fragments_are_not_grouped :
  Build (BDelete (Delete_Where (Delete_Where (DeleteFrom (lit "t")) (lit "a = ? or b = ?") [1; 2])
    (lit "c = ?") [3])) =
  Ok (mkStatement (lit "delete from " ++ quote (lit "t") ++ lit " where a = $1 or b = $2 and c = $3") [1; 2; 3]).
Proof. vm_compute. reflexivity. Qed.
