(* ===== verification/Encrypt.v ===== *)
(** * encrypt: AES-GCM envelopes

    Models [src/encrypt/encrypt.go] and [errors.go]: the encryptor, its
    versioned envelope and the text form.  A [cipher.AEAD] is a record of its
    operations and [AEADLaws] is what the package relies on: opening undoes
    sealing and accepts nothing else, and sealing adds a tag of fixed length.
    [aes.NewCipher] followed by [cipher.NewGCM] and the random source are
    parameters.  The buffers that the code zeroes are never returned; clearing
    them is not modelled. *)

From S2P Require Import Prelude GoError GoText Core GoEncoding.

Local Open Scope Z_scope.

(** [cipher.AEAD]; the arguments of [Seal] and [Open] are the nonce, the text
    and the associated data. *)
Record AEAD : Type := mkAEAD {
  NonceSize : nat;
  Overhead : nat;
  Seal : bytes → bytes → bytes → bytes;
  Open : bytes → bytes → bytes → result bytes
}.

(** What [crypto/cipher] promises of GCM, for nonces of the right length. *)
Class AEADLaws (a : AEAD) : Prop := {
  open_seal : ∀ nonce p ad, length nonce = NonceSize a → Open a nonce (Seal a nonce p ad) ad = Ok p;
  open_exact : ∀ nonce c p ad, length nonce = NonceSize a → Open a nonce c ad = Ok p → c = Seal a nonce p ad;
  seal_length : ∀ nonce p ad, length nonce = NonceSize a →
    length (Seal a nonce p ad) = (length p + Overhead a)%nat;
  seal_bytes : ∀ nonce p ad, length nonce = NonceSize a →
    Forall is_byte nonce → Forall is_byte p → Forall is_byte (Seal a nonce p ad)
}.

Definition ErrInvalidKey : string := "encrypt.ErrInvalidKey".
Definition ErrMalformedCiphertext : string := "encrypt.ErrMalformedCiphertext".
Definition ErrAuthenticationFailed : string := "encrypt.ErrAuthenticationFailed".
Definition ErrInvalidOptions : string := "encrypt.ErrInvalidOptions".

(** [errorWith]: an [Error] matches its kind and its cause. *)
Definition errorWith (kind operation : string) (cause : option error) : error :=
  Typed "encrypt.Error" [FStr kind; FStr operation] [kind] cause.

Definition envelopeVersion : Z := 1.
Definition algorithmAESGCM : Z := 1.
Definition minAESKeySize : nat := 16.
Definition envelopeMagic : bytes := lit "BTENC".
Definition envelopeHeader : bytes := lit "BTENC" ++ [envelopeVersion; algorithmAESGCM].

Definition validAESKeySize (size : nat) : bool :=
  (size =? minAESKeySize)%nat || (size =? 24)%nat || (size =? 32)%nat.

(** [parseEnvelope(ciphertext, overhead)] *)
Definition parseEnvelope (ciphertext : bytes) (overhead : nat) : result bytes :=
  let headerLen := length envelopeHeader in
  if (length ciphertext <? headerLen + overhead)%nat then
    Fail (errorWith ErrMalformedCiphertext "parse envelope" None)
  else if negb (bool_decide (take (length envelopeMagic) ciphertext = envelopeMagic)) then
    Fail (errorWith ErrMalformedCiphertext "parse envelope" None)
  else if negb (ciphertext !!! length envelopeMagic =? envelopeVersion) then
    Fail (errorWith ErrMalformedCiphertext "parse envelope"
      (Some (Errorf "unsupported envelope version" [])))
  else if negb (ciphertext !!! (length envelopeMagic + 1)%nat =? algorithmAESGCM) then
    Fail (errorWith ErrMalformedCiphertext "parse envelope"
      (Some (Errorf "unsupported envelope algorithm" [])))
  else Ok (drop headerLen ciphertext).

Record Encryptor : Type := mkEncryptor { aead : option AEAD }.

Definition DecryptDetached (e : Encryptor) (nonce ciphertext associatedData : bytes) : result bytes :=
  match aead e with
  | None => Fail (errorWith ErrInvalidKey "decrypt detached" None)
  | Some a =>
      if negb (length nonce =? NonceSize a)%nat || (length ciphertext <? Overhead a)%nat then
        Fail (errorWith ErrMalformedCiphertext "decrypt detached" None)
      else match Open a nonce ciphertext associatedData with
      | Fail err => Fail (errorWith ErrAuthenticationFailed "decrypt detached" (Some err))
      | Ok plaintext => Ok plaintext
      end
  end.

Definition Decrypt (e : Encryptor) (ciphertext associatedData : bytes) : result bytes :=
  match aead e with
  | None => Fail (errorWith ErrInvalidKey "decrypt" None)
  | Some a =>
      match parseEnvelope ciphertext (NonceSize a + Overhead a) with
      | Fail err => Fail err
      | Ok payload =>
          DecryptDetached e (take (NonceSize a) payload) (drop (NonceSize a) payload) associatedData
      end
  end.

Definition DecryptString (e : Encryptor) (ciphertext associatedData : bytes) : result bytes :=
  match rawURLDecode ciphertext with
  | None => Fail (errorWith ErrMalformedCiphertext "decode string"
              (Some (Sentinel "base64.CorruptInputError")))
  | Some envelope =>
      match Decrypt e envelope associatedData with
      | Fail err => Fail err
      | Ok plaintext =>
          if negb (ValidString plaintext) then
            Fail (errorWith ErrMalformedCiphertext "decode string" None)
          else Ok plaintext
      end
  end.

Section encryptor.
Context {W : Type}.
(** [io.ReadFull(rand.Reader, b)] on a buffer of the given length. *)
Context (ReadFull : nat → Call W (result bytes)).

Definition EncryptDetached (e : Encryptor) (plaintext associatedData : bytes) : Call W (result (bytes * bytes)) :=
  match aead e with
  | None => mret (Fail (errorWith ErrInvalidKey "encrypt detached" None))
  | Some a =>
      nonce ← ReadFull (NonceSize a);
      match nonce with
      | Fail err => mret (Fail (errorWith ErrInvalidOptions "encrypt detached" (Some err)))
      | Ok nonce => mret (Ok (nonce, Seal a nonce plaintext associatedData))
      end
  end.

Definition Encrypt (e : Encryptor) (plaintext associatedData : bytes) : Call W (result bytes) :=
  detached ← EncryptDetached e plaintext associatedData;
  match detached with
  | Fail err => mret (Fail err)
  | Ok (nonce, ciphertext) => mret (Ok (envelopeHeader ++ nonce ++ ciphertext))
  end.

Definition EncryptString (e : Encryptor) (plaintext associatedData : bytes) : Call W (result bytes) :=
  if negb (ValidString plaintext) then mret (Fail (errorWith ErrInvalidOptions "encrypt string" None))
  else
    ciphertext ← Encrypt e plaintext associatedData;
    match ciphertext with
    | Fail err => mret (Fail err)
    | Ok ciphertext => mret (Ok (rawURLEncode ciphertext))
    end.
End encryptor.

Section construction.
Context {Block : Type}.
Context (NewCipher : bytes → result Block) (NewGCM : Block → result AEAD).

(** The loop over the options: nil, or the error an option returns. *)
Fixpoint optionsLoop (options : list (option (option error))) : option error :=
  match options with
  | [] => None
  | None :: _ => Some (errorWith ErrInvalidOptions "apply option" None)
  | Some (Some err) :: _ => Some (errorWith ErrInvalidOptions "apply option" (Some err))
  | Some None :: rest => optionsLoop rest
  end.

Definition New (key : bytes) (options : list (option (option error))) : result Encryptor :=
  match optionsLoop options with
  | Some err => Fail err
  | None =>
      if negb (validAESKeySize (length key)) then Fail (errorWith ErrInvalidKey "new" None)
      else match NewCipher key with
      | Fail err => Fail (errorWith ErrInvalidKey "new" (Some err))
      | Ok block =>
          match NewGCM block with
          | Fail err => Fail (errorWith ErrInvalidOptions "new" (Some err))
          | Ok a => Ok (mkEncryptor (Some a))
          end
      end
  end.

(** The package functions [Encrypt] and [Decrypt]. *)
Definition KeyEncrypt {W} (ReadFull : nat → Call W (result bytes)) (key plaintext associatedData : bytes)
    : Call W (result bytes) :=
  match New key [] with
  | Fail err => mret (Fail err)
  | Ok encryptor => Encrypt ReadFull encryptor plaintext associatedData
  end.

Definition KeyDecrypt (key ciphertext associatedData : bytes) : result bytes :=
  match New key [] with
  | Fail err => Fail err
  | Ok encryptor => Decrypt encryptor ciphertext associatedData
  end.
End construction.

(** ** Laws *)

(** The random source fills the buffer or fails. *)
Class RandomSource {W} (ReadFull : nat → Call W (result bytes)) : Prop := {
  read_full : ∀ n w b w', ReadFull n w = (Ok b, w') → length b = n ∧ Forall is_byte b
}.

Lemma parseEnvelope_Ok ciphertext overhead payload :
  parseEnvelope ciphertext overhead = Ok payload ↔
  ciphertext = envelopeHeader ++ payload ∧ (overhead ≤ length payload)%nat.
Proof.
  unfold parseEnvelope. change (length envelopeHeader) with 7%nat. split.
  - destruct (Nat.ltb_spec (length ciphertext) (7 + overhead)); [done|].
    case_bool_decide as Hm; cbn [negb]; [|done].
    destruct (Z.eqb_spec (ciphertext !!! length envelopeMagic) envelopeVersion) as [Hv|]; cbn [negb]; [|done].
    destruct (Z.eqb_spec (ciphertext !!! (length envelopeMagic + 1)%nat) algorithmAESGCM) as [Ha|];
      cbn [negb]; [|done].
    intros [= <-]. rewrite length_drop. split; [|lia].
    do 7 (destruct ciphertext as [|? ciphertext]; [simpl in *; lia|]).
    injection Hm as -> -> -> -> ->. simpl in Hv, Ha. by subst.
  - intros [-> Hl]. rewrite length_app. change (length envelopeHeader) with 7%nat.
    destruct (Nat.ltb_spec (7 + length payload) (7 + overhead)); [lia|]. reflexivity.
Qed.

Section laws.
Context (a : AEAD) `{!AEADLaws a}.
Let e := mkEncryptor (Some a).

Lemma DecryptDetached_Ok nonce c ad p :
  DecryptDetached e nonce c ad = Ok p ↔ length nonce = NonceSize a ∧ c = Seal a nonce p ad.
Proof.
  unfold DecryptDetached. cbn [aead e]. split.
  - destruct (Nat.eqb_spec (length nonce) (NonceSize a)) as [Hn|]; cbn [negb orb]; [|done].
    destruct (length c <? Overhead a)%nat; [done|].
    destruct (Open a nonce c ad) as [p'|] eqn:Ho; [|done]. intros [= ->].
    eauto using open_exact.
  - intros [Hn ->]. rewrite Hn, Nat.eqb_refl, seal_length by done. cbn [negb orb].
    destruct (Nat.ltb_spec (length p + Overhead a) (Overhead a)); [lia|]. by rewrite open_seal.
Qed.

Lemma Decrypt_Ok ciphertext ad p :
  Decrypt e ciphertext ad = Ok p ↔
  ∃ nonce, length nonce = NonceSize a ∧ ciphertext = envelopeHeader ++ nonce ++ Seal a nonce p ad.
Proof.
  unfold Decrypt. cbn [aead e]. split.
  - destruct (parseEnvelope _ _) as [payload|] eqn:Hp; [|done].
    apply parseEnvelope_Ok in Hp as [-> Hl]. intros [Hn Hs]%DecryptDetached_Ok.
    exists (take (NonceSize a) payload). by rewrite <-Hs, take_drop.
  - intros (nonce & Hn & ->).
    rewrite (proj2 (parseEnvelope_Ok _ _ (nonce ++ Seal a nonce p ad))).
    + apply DecryptDetached_Ok. rewrite <-Hn, take_app_length, drop_app_length. done.
    + split; [done|]. rewrite length_app, seal_length by done. lia.
Qed.

Context {W : Type} (ReadFull : nat → Call W (result bytes)) `{!RandomSource ReadFull}.

Lemma Encrypt_cwp p ad (Q : result bytes → W → Prop) w :
  (∀ err w', Q (Fail err) w') →
  (∀ nonce w', length nonce = NonceSize a → Forall is_byte nonce →
     Q (Ok (envelopeHeader ++ nonce ++ Seal a nonce p ad)) w') →
  cwp (Encrypt ReadFull e p ad) Q w.
Proof.
  intros Hf Hok. unfold Encrypt, EncryptDetached, cwp. cbn [aead e].
  unfold mbind, call_bind. destruct (ReadFull (NonceSize a) w) as [[nonce|err] w'] eqn:Hr; cbn; [|apply Hf].
  apply read_full in Hr as [? ?]. by apply Hok.
Qed.

Lemma header_bytes : Forall is_byte envelopeHeader.
Proof. do 7 (apply Forall_cons; split; [by vm_compute|]). constructor. Qed.

Lemma Encrypt_decrypts p ad w c w' :
  Encrypt ReadFull e p ad w = (Ok c, w') →
  Decrypt e c ad = Ok p ∧ (Forall is_byte p → Forall is_byte c).
Proof.
  intros He.
  pose proof (Encrypt_cwp p ad (λ r _, ∀ c, r = Ok c →
    Decrypt e c ad = Ok p ∧ (Forall is_byte p → Forall is_byte c)) w) as H.
  unfold cwp in H. rewrite He in H. apply H; [done| |done]. intros nonce _ Hn Hb c' Hc.
  assert (c' = envelopeHeader ++ nonce ++ Seal a nonce p ad) as -> by congruence. split.
  - apply Decrypt_Ok. eauto.
  - intros Hp. rewrite !Forall_app. auto using header_bytes, seal_bytes.
Qed.

(** The string form round trips. *)
Lemma EncryptString_decrypts p ad w t w' :
  Forall is_byte p → EncryptString ReadFull e p ad w = (Ok t, w') → DecryptString e t ad = Ok p.
Proof.
  intros Hp. unfold EncryptString. destruct (ValidString p) eqn:Hv; cbn [negb]; [|done].
  unfold mbind at 1, call_bind at 1. destruct (Encrypt ReadFull e p ad w) as [[c|err] w1] eqn:He; [|done].
  intros [= <- _]. apply Encrypt_decrypts in He as [Hd Hc].
  unfold DecryptString. by rewrite rawURL_roundtrip, Hd, Hv by auto.
Qed.
End laws.

(** The envelope is exact.  With an AEAD that opens what it sealed and
    nothing else, [Decrypt] returns a plaintext for precisely the ciphertexts
    made of the header, a nonce of the right length and the plaintext sealed
    under it with the same associated data; whatever [Encrypt] returns is one
    of them, so it decrypts to what was encrypted, for every random source. *)
Theorem decrypt_exact (a : AEAD) {W} (ReadFull : nat → Call W (result bytes)) ad p :
  AEADLaws a → RandomSource ReadFull →
  (∀ ciphertext, Decrypt (mkEncryptor (Some a)) ciphertext ad = Ok p ↔
     ∃ nonce, length nonce = NonceSize a ∧ ciphertext = envelopeHeader ++ nonce ++ Seal a nonce p ad) ∧
  (∀ w ciphertext w', Encrypt ReadFull (mkEncryptor (Some a)) p ad w = (Ok ciphertext, w') →
     Decrypt (mkEncryptor (Some a)) ciphertext ad = Ok p).
Proof.
  intros Ha Hr. split; [intros; by apply Decrypt_Ok|]. intros w c w' He.
  by apply Encrypt_decrypts in He as [? _].
Qed.

(** An AEAD whose tag is sixteen zeros. *)
Definition zeroTag : bytes := replicate 16 0.

Definition toyAEAD : AEAD := {|
  NonceSize := 12;
  Overhead := 16;
  Seal := λ _ p _, p ++ zeroTag;
  Open := λ _ c _,
    if bool_decide (drop (length c - 16) c = zeroTag) then Ok (take (length c - 16) c)
    else Fail (Sentinel "cipher: message authentication failed")
|}.

#[export] Instance toyAEAD_laws : AEADLaws toyAEAD.
Proof.
  split; cbn [toyAEAD NonceSize Overhead Seal Open].
  - intros nonce p ad _. rewrite length_app. change (length zeroTag) with 16%nat.
    replace (length p + 16 - 16)%nat with (length p) by lia.
    by rewrite drop_app_length, take_app_length, bool_decide_true.
  - intros nonce c p ad _. case_bool_decide as H; [|done]. intros [= <-]. rewrite <-H. by rewrite take_drop.
  - intros. rewrite length_app. done.
  - intros. apply Forall_app. split; [done|]. unfold zeroTag. apply Forall_replicate. unfold is_byte. lia.
Qed.

Definition zeroSource (n : nat) : Call () (result bytes) := λ w, (Ok (replicate n 0), w).

#[export] Instance zeroSource_random : RandomSource zeroSource.
Proof.
  split. intros n [] b [] [= <-]. rewrite length_replicate. split; [done|].
  apply Forall_replicate. unfold is_byte. lia.
Qed.

Lemma decrypt_exact_witness :
  ∃ ciphertext, Encrypt zeroSource (mkEncryptor (Some toyAEAD)) [7; 8] [9] () = (Ok ciphertext, ()) ∧
    Decrypt (mkEncryptor (Some toyAEAD)) ciphertext [9] = Ok [7; 8].
Proof.
  eexists. split; [vm_compute; reflexivity|].
  apply (decrypt_exact toyAEAD zeroSource [9] [7; 8]) with (w := ()) (w' := ());
    [apply _|apply _|vm_compute; reflexivity].
Defined.
