(* ===== verification/KmsProvider.v ===== *)
(** * encrypt/kms: the provider

    Models [src/encrypt/kms/provider.go] on top of the envelope codec
    ([KmsEnvelope]) and the local encryptor ([Encrypt]).  The KMS client is a
    record of its two calls; [KMS] states what the service promises: a data
    key and its encrypted form belong to a key ID and an encryption context,
    and decrypting the encrypted form under them gives that data key.  [GCM]
    states that the standard library builds a lawful AEAD with 12-byte nonces
    and 16-byte tags.  A nil or typed-nil client is [None]. *)

From S2P Require Import Prelude GoError GoText Core GoEncoding Encrypt KmsEnvelope KmsEnvelopeLaws.

Local Open Scope Z_scope.

Definition ErrNilClient : string := "kms.ErrNilClient".
Definition ErrInvalidProvider : string := "kms.ErrInvalidProvider".
Definition kmsErrInvalidOptions : string := "kms.ErrInvalidOptions".
Definition ErrMetadataMismatch : string := "kms.ErrMetadataMismatch".
Definition ErrInvalidDataKey : string := "kms.ErrInvalidDataKey".
Definition ErrKMSOperation : string := "kms.ErrKMSOperation".

(** [GenerateDataKeyOutput]: the data key and its encrypted form. *)
Record dataKey : Type := mkDataKey { dk_Plaintext : bytes; dk_CiphertextBlob : bytes }.

(** The client's calls: the output pointer, possibly nil, and the error. *)
Record Client (W : Type) : Type := mkClient {
  GenerateDataKey : bytes → context → Call W (option dataKey * option error);
  client_Decrypt : bytes → bytes → context → Call W (option bytes * option error)
}.
Arguments mkClient {W} _ _.
Arguments GenerateDataKey {W} _ _ _.
Arguments client_Decrypt {W} _ _ _ _.

Record Provider (W : Type) : Type := mkProvider {
  client : option (Client W);
  keyID : bytes;
  encryptionContext : context
}.
Arguments mkProvider {W} _ _ _.
Arguments client {W} _.
Arguments keyID {W} _.
Arguments encryptionContext {W} _.

Definition validKeyID (keyID : bytes) : bool :=
  ValidString keyID && negb (bool_decide (TrimSpace (runesOf keyID) = [])) && (size keyID <=? MaxKeyIDSize).

(** The loop of [sameContext] over the left map. *)
Fixpoint sameLoop (left_ : list (bytes * bytes)) (right_ : context) : bool :=
  match left_ with
  | [] => true
  | (key, value) :: rest =>
      match right_ !! key with
      | Some rightValue => if negb (bool_decide (rightValue = value)) then false else sameLoop rest right_
      | None => false
      end
  end.

(** The loop of [WithEncryptionContext] that adds the copied entries. *)
Fixpoint addLoop (copied : list (bytes * bytes)) (config : context) : result context :=
  match copied with
  | [] => Ok config
  | (key, value) :: rest =>
      match config !! key with
      | Some _ => Fail (errorWith kmsErrInvalidOptions "apply encryption context" None)
      | None => addLoop rest (<[key := value]> config)
      end
  end.

Section provider.
Context {W Block : Type}.
Context (visit : context → list (bytes * bytes)).
Context (NewCipher : bytes → result Block) (NewGCM : Block → result AEAD).
Context (ReadFull : nat → Call W (result bytes)).

Definition sameContext (left_ right_ : context) : bool :=
  if negb (length (visit left_) =? length (visit right_))%nat then false else sameLoop (visit left_) right_.

(** [WithEncryptionContext(values)] applied to a configuration, nil being
    [None]. *)
Definition WithEncryptionContext (copied : context) (config : option context) : result context :=
  match config with
  | None => Fail (errorWith kmsErrInvalidOptions "apply encryption context" None)
  | Some config =>
      match validateContext visit copied with
      | Some err => Fail err
      | None =>
          if (MaxContextEntries <? length (visit config) + length (visit copied))%nat then
            Fail (errorWith kmsErrInvalidOptions "apply encryption context" None)
          else match addLoop (visit copied) config with
          | Fail err => Fail err
          | Ok config =>
              match validateContext visit config with
              | Some err => Fail (errorWith kmsErrInvalidOptions "apply encryption context" (Some err))
              | None => Ok config
              end
          end
      end
  end.

(** The loop of [New] over the options; a nil option is [None]. *)
Fixpoint configLoop (options : list (option (option context → result context))) (config : context)
    : result context :=
  match options with
  | [] => Ok config
  | None :: _ => Fail (errorWith kmsErrInvalidOptions "apply option" None)
  | Some option_ :: rest =>
      match option_ (Some config) with
      | Fail err => Fail (errorWith kmsErrInvalidOptions "apply option" (Some err))
      | Ok config => configLoop rest config
      end
  end.

Definition NewProvider (client : option (Client W)) (keyID : bytes)
    (options : list (option (option context → result context))) : result (Provider W) :=
  match client with
  | None => Fail (Sentinel ErrNilClient)
  | Some _ =>
      if negb (validKeyID keyID) then Fail (Sentinel ErrInvalidKeyID)
      else match configLoop options ∅ with
      | Fail err => Fail err
      | Ok config => Ok (mkProvider client keyID config)
      end
  end.

(** [validate], on a possibly nil provider: the provider and its client. *)
Definition validate (p : option (Provider W)) : result (Provider W * Client W) :=
  match p with
  | None => Fail (Sentinel ErrInvalidProvider)
  | Some p =>
      match client p with
      | None => Fail (Sentinel ErrInvalidProvider)
      | Some c =>
          if negb (validKeyID (keyID p)) then Fail (Sentinel ErrInvalidProvider)
          else match validateContext visit (encryptionContext p) with
          | Some _ => Fail (Sentinel ErrInvalidProvider)
          | None => Ok (p, c)
          end
      end
  end.

(** The local part of [Encrypt], from the checked data key on. *)
Definition seal (p : Provider W) (localKey encryptedDataKey plaintext associatedData : bytes)
    : Call W (result bytes) :=
  let metadata := mkEnvelope EnvelopeVersion AlgorithmAES256GCM (keyID p) encryptedDataKey
                    (encryptionContext p) [] [] in
  match canonicalMetadata visit metadata with
  | Fail err => mret (Fail err)
  | Ok metadata =>
      match buildAssociatedData metadata associatedData with
      | Fail err => mret (Fail err)
      | Ok aad =>
          match Encrypt.New NewCipher NewGCM localKey [] with
          | Fail err => mret (Fail (errorWith ErrInvalidDataKey "encrypt payload" (Some err)))
          | Ok encryptor =>
              detached ← EncryptDetached ReadFull encryptor plaintext aad;
              match detached with
              | Fail err => mret (Fail err)
              | Ok (nonce, ciphertext) =>
                  mret (MarshalBinary visit (mkEnvelope EnvelopeVersion AlgorithmAES256GCM (keyID p)
                          encryptedDataKey (encryptionContext p) nonce ciphertext))
              end
          end
      end
  end.

(** [output == nil || len(output.Plaintext) != 32 || ...] *)
Definition validDataKey (output : option dataKey) : option dataKey :=
  match output with
  | None => None
  | Some k =>
      if negb (length (dk_Plaintext k) =? 32)%nat || (size (dk_CiphertextBlob k) =? 0) ||
         (MaxEncryptedDataKeySize <? size (dk_CiphertextBlob k))
      then None else Some k
  end.

(** [Provider.Encrypt] *)
Definition Provider_Encrypt (p : option (Provider W)) (ctx : option (Context W))
    (plaintext associatedData : bytes) : Call W (result bytes) :=
  match validate p with
  | Fail err => mret (Fail err)
  | Ok (p, c) =>
      let ctx := orBackground ctx in
      err ← ctx_Err ctx;
      match err with
      | Some err => mret (Fail err)
      | None =>
          if (MaxPlaintextSize <? size plaintext) || (MaxAssociatedDataSize <? size associatedData) then
            mret (Fail (errorWith ErrInputTooLarge "encrypt preflight" None))
          else
            output ← GenerateDataKey c (keyID p) (encryptionContext p);
            match output.2 with
            | Some callErr => mret (Fail (errorWith ErrKMSOperation "generate data key" (Some callErr)))
            | None =>
                match validDataKey output.1 with
                | None => mret (Fail (errorWith ErrInvalidDataKey "generate data key" None))
                | Some k =>
                    err ← ctx_Err ctx;
                    match err with
                    | Some err => mret (Fail err)
                    | None =>
                        envelope ← seal p (dk_Plaintext k) (dk_CiphertextBlob k) plaintext associatedData;
                        match envelope with
                        | Fail err => mret (Fail err)
                        | Ok envelope =>
                            err ← ctx_Err ctx;
                            match err with
                            | Some err => mret (Fail err)
                            | None => mret (Ok envelope)
                            end
                        end
                    end
                end
            end
      end
  end.

(** The local part of [Decrypt], from the data key on. *)
Definition unseal (envelope : Envelope) (localKey associatedData : bytes) : result bytes :=
  match canonicalMetadata visit envelope with
  | Fail err => Fail err
  | Ok metadata =>
      match buildAssociatedData metadata associatedData with
      | Fail err => Fail err
      | Ok aad =>
          match Encrypt.New NewCipher NewGCM localKey [] with
          | Fail err => Fail (errorWith ErrInvalidDataKey "decrypt payload" (Some err))
          | Ok encryptor => DecryptDetached encryptor (Nonce envelope) (Ciphertext envelope) aad
          end
      end
  end.

(** [Provider.Decrypt] *)
Definition Provider_Decrypt (p : option (Provider W)) (ctx : option (Context W))
    (data associatedData : bytes) : Call W (result bytes) :=
  match validate p with
  | Fail err => mret (Fail err)
  | Ok (p, c) =>
      let ctx := orBackground ctx in
      err ← ctx_Err ctx;
      match err with
      | Some err => mret (Fail err)
      | None =>
          if MaxAssociatedDataSize <? size associatedData then
            mret (Fail (errorWith ErrInputTooLarge "decrypt preflight" None))
          else match ParseEnvelope visit data with
          | Fail err => mret (Fail err)
          | Ok envelope =>
              if negb (bool_decide (KeyID envelope = keyID p)) ||
                 negb (sameContext (EncryptionContext envelope) (encryptionContext p)) then
                mret (Fail (errorWith ErrMetadataMismatch "decrypt metadata" None))
              else
                err ← ctx_Err ctx;
                match err with
                | Some err => mret (Fail err)
                | None =>
                    output ← client_Decrypt c (EncryptedDataKey envelope) (keyID p) (encryptionContext p);
                    match output.2 with
                    | Some callErr => mret (Fail (errorWith ErrKMSOperation "decrypt data key" (Some callErr)))
                    | None =>
                        match output.1 with
                        | Some localKey =>
                            if negb (length localKey =? 32)%nat then
                              mret (Fail (errorWith ErrInvalidDataKey "decrypt data key" None))
                            else
                              err ← ctx_Err ctx;
                              match err with
                              | Some err => mret (Fail err)
                              | None =>
                                  match unseal envelope localKey associatedData with
                                  | Fail err => mret (Fail err)
                                  | Ok plaintext =>
                                      err ← ctx_Err ctx;
                                      match err with
                                      | Some err => mret (Fail err)
                                      | None => mret (Ok plaintext)
                                      end
                                  end
                              end
                        | None => mret (Fail (errorWith ErrInvalidDataKey "decrypt data key" None))
                        end
                    end
                end
          end
      end
  end.
End provider.

(** ** What the service and the standard library promise *)

(** [belongs id c blob key]: the service issued [blob] as the encrypted form
    of [key] for the key ID and the context. *)
Class KMS {W} (c : Client W) (belongs : bytes → context → bytes → bytes → Prop) : Prop := {
  kms_generate : ∀ id ec w k w', GenerateDataKey c id ec w = ((Some k, None), w') →
    belongs id ec (dk_CiphertextBlob k) (dk_Plaintext k) ∧ Forall is_byte (dk_CiphertextBlob k);
  kms_decrypt : ∀ blob id ec w key w', client_Decrypt c blob id ec w = ((Some key, None), w') →
    belongs id ec blob key;
  kms_functional : ∀ id ec blob key key', belongs id ec blob key → belongs id ec blob key' → key = key'
}.

Class GCM {Block} (NewCipher : bytes → result Block) (NewGCM : Block → result AEAD) : Prop := {
  gcm_laws : ∀ key block a, NewCipher key = Ok block → NewGCM block = Ok a → AEADLaws a
}.

(** ** Laws *)

(** The context reports the error at some time. *)
Definition reported {W} (ctx : option (Context W)) (err : error) : Prop :=
  ∃ w, (ctx_Err (orBackground ctx) w).1 = Some err.

(** Observing the context: either it reports an error, or the call goes on. *)
Lemma cwp_ctx {W A} (ctx : option (Context W)) (k : Call W (result A)) (Q : result A → W → Prop) w :
  (∀ err w', reported ctx err → Q (Fail err) w') → (∀ w', cwp k Q w') →
  cwp (err ← ctx_Err (orBackground ctx); match err with Some err => mret (Fail err) | None => k end) Q w.
Proof.
  intros Hf Hk. apply cwp_bind, cwp_any. intros [err|] w' E; [|apply Hk].
  apply cwp_ret, Hf. exists w. by rewrite E.
Qed.

Section laws.
Context {W Block : Type}.
Context (visit : context → list (bytes * bytes)).
Hypothesis visit_perm : ∀ c, visit c ≡ₚ map_to_list c.
Context (NewCipher : bytes → result Block) (NewGCM : Block → result AEAD) `{!GCM NewCipher NewGCM}.

Lemma sameLoop_true l r : sameLoop l r = true ↔ ∀ k v, (k, v) ∈ l → r !! k = Some v.
Proof.
  induction l as [|[k v] l IH]; cbn [sameLoop]; [set_solver|]. split.
  - destruct (r !! k) as [rv|] eqn:E; [|done]. case_bool_decide; cbn [negb]; [|done]. subst.
    intros H k' v' [[= -> ->]|Hin]%elem_of_cons; [done|]. by apply IH.
  - intros H. rewrite (H k v) by left. rewrite bool_decide_true by done. cbn [negb]. apply IH.
    intros k' v' Hin. apply H. by right.
Qed.

Lemma sameContext_eq l r : sameContext visit l r = true ↔ l = r.
Proof.
  unfold sameContext. split.
  - destruct (Nat.eqb_spec (length (visit l)) (length (visit r))) as [Hl|]; cbn [negb]; [|done].
    rewrite sameLoop_true. intros H. apply map_subseteq_size_eq.
    + apply map_subseteq_spec. intros k v Hk. apply H. rewrite visit_perm. by apply elem_of_map_to_list.
    + rewrite !visit_perm, !length_map_to_list in Hl. lia.
  - intros ->. rewrite Nat.eqb_refl. cbn [negb]. apply sameLoop_true. intros k v Hin.
    rewrite visit_perm in Hin. by apply elem_of_map_to_list.
Qed.

Lemma New_Ok key e :
  Encrypt.New NewCipher NewGCM key [] = Ok e → ∃ a, e = mkEncryptor (Some a) ∧ AEADLaws a.
Proof.
  unfold Encrypt.New. cbn [optionsLoop]. destruct (validAESKeySize _); cbn [negb]; [|done].
  destruct (NewCipher key) as [block|] eqn:Hb; [|done]. destruct (NewGCM block) as [a|] eqn:Ha; [|done].
  intros [= <-]. exists a. split; [done|]. by eapply gcm_laws.
Qed.

(** What the local part of [Encrypt] returns opens with the local part of
    [Decrypt]. *)
Lemma seal_unseal (ReadFull : nat → Call W (result bytes)) `{!RandomSource ReadFull} p key blob pt ad w data w' :
  Forall is_byte pt → Forall is_byte blob →
  seal visit NewCipher NewGCM ReadFull p key blob pt ad w = (Ok data, w') →
  ∃ e, ParseEnvelope visit data = Ok e ∧ KeyID e = keyID p ∧
    EncryptionContext e = encryptionContext p ∧ EncryptedDataKey e = blob ∧
    unseal visit NewCipher NewGCM e key ad = Ok pt.
Proof.
  intros Hpt Hblob. unfold seal. destruct (canonicalMetadata _ _) as [md|] eqn:Hmd; [|done].
  destruct (buildAssociatedData md ad) as [aad|] eqn:Haad; [|done].
  destruct (Encrypt.New _ _ key []) as [en|] eqn:Hen; [|done].
  destruct (New_Ok _ _ Hen) as (a & -> & Ha). unfold EncryptDetached. cbn [aead].
  unfold mbind, call_bind. destruct (ReadFull (NonceSize a) w) as [[nonce|] w1] eqn:Hr; [|done].
  cbn. intros [= Hm <-]. apply read_full in Hr as [Hn Hb].
  eexists. split; [apply ParseEnvelope_MarshalBinary; [done| |done]|].
  { unfold typedEnvelope. cbn. auto using seal_bytes. }
  cbn. split_and!; [done..|]. unfold unseal.
  match goal with |- context [canonicalMetadata ?v ?e] => change (canonicalMetadata v e) with
    (canonicalMetadata v (mkEnvelope EnvelopeVersion AlgorithmAES256GCM (keyID p) blob (encryptionContext p) [] [])) end.
  rewrite Hmd, Haad, Hen. by apply DecryptDetached_Ok.
Qed.

Context (p : Provider W) (c : Client W) (Hclient : client p = Some c).
Context (belongs : bytes → context → bytes → bytes → Prop) `{!KMS c belongs}.

(** Bytes that hold [pt] for this provider: a canonical envelope with the
    provider's metadata, whose data key opens the payload to [pt]. *)
Definition holds (ad pt data : bytes) : Prop :=
  ∃ e key, ParseEnvelope visit data = Ok e ∧ KeyID e = keyID p ∧ EncryptionContext e = encryptionContext p ∧
    belongs (keyID p) (encryptionContext p) (EncryptedDataKey e) key ∧ length key = 32%nat ∧
    size ad ≤ MaxAssociatedDataSize ∧ unseal visit NewCipher NewGCM e key ad = Ok pt.

Lemma validate_Some q d : validate visit (Some p) = Ok (q, d) → q = p ∧ d = c.
Proof.
  unfold validate. rewrite Hclient. destruct (negb _); [done|]. destruct (validateContext _ _); [done|].
  by intros [= <- <-].
Qed.

Lemma Encrypt_holds (ReadFull : nat → Call W (result bytes)) `{!RandomSource ReadFull} ctx pt ad w :
  Forall is_byte pt →
  cwp (Provider_Encrypt visit NewCipher NewGCM ReadFull (Some p) ctx pt ad)
    (λ r _, ∀ data, r = Ok data → holds ad pt data ∧ validate visit (Some p) = Ok (p, c)) w.
Proof.
  intros Hpt. unfold Provider_Encrypt. destruct (validate visit (Some p)) as [[q d]|] eqn:Hv; [|done].
  destruct (validate_Some _ _ Hv) as [-> ->]. apply cwp_ctx; [done|intros w1].
  destruct (_ || _) eqn:Hsize; [done|]. bools.
  apply cwp_bind, cwp_any. intros [output callErr] w2 Hg. cbn [fst snd].
  destruct callErr; [done|]. destruct (validDataKey output) as [k|] eqn:Hk; [|done].
  apply cwp_ctx; [done|intros w3]. apply cwp_bind, cwp_any. intros r w4 Hseal.
  destruct r as [envelope|]; [|done]. apply cwp_ctx; [done|intros w5]. apply cwp_ret. intros data [= <-].
  unfold validDataKey in Hk. destruct output as [k'|]; [|done].
  destruct (length (dk_Plaintext k') =? 32)%nat eqn:Hl; [|done]. destruct (_ || _); [done|].
  injection Hk as ->. apply Nat.eqb_eq in Hl. apply kms_generate in Hg as [Hb Hbytes].
  apply seal_unseal in Hseal as (e & He & Hid & Hec & Hdk & Hu); [|done..].
  split; [|done]. exists e, (dk_Plaintext k). by rewrite Hdk.
Qed.

(** [Decrypt] of such bytes returns what they hold, unless the context or the
    service reports an error. *)
Lemma Decrypt_holds ctx pt ad data w :
  holds ad pt data → validate visit (Some p) = Ok (p, c) →
  cwp (Provider_Decrypt visit NewCipher NewGCM (Some p) ctx data ad)
    (λ r _, r = Ok pt ∨ ∃ err, r = Fail err ∧
       (reported ctx err ∨ errors_Is err ErrKMSOperation = true ∨ errors_Is err ErrInvalidDataKey = true)) w.
Proof.
  intros (e & key & He & Hid & Hec & Hb & Hl & Hs & Hu) Hv. unfold Provider_Decrypt. rewrite Hv.
  apply cwp_ctx; [eauto|intros w1]. rewrite (proj2 (Z.ltb_ge _ _)) by done.
  rewrite He, Hid, Hec, bool_decide_true by done.
  rewrite (proj2 (sameContext_eq _ _) eq_refl). cbn [negb orb].
  apply cwp_ctx; [eauto|intros w2]. apply cwp_bind, cwp_any. intros [output callErr] w3 Hd. cbn [fst snd].
  destruct callErr as [callErr|]; [apply cwp_ret; right; eexists; split; [done|]; by right; left|].
  destruct output as [key'|]; [|apply cwp_ret; right; eexists; split; [done|]; by right; right].
  apply kms_decrypt in Hd. rewrite (kms_functional _ _ _ _ _ Hd Hb), Hl. cbn [Nat.eqb negb].
  apply cwp_ctx; [eauto|intros w4]. rewrite Hu.
  apply cwp_ctx; [eauto|intros w5]. apply cwp_ret. by left.
Qed.

(** Everything that [Decrypt] accepts is such bytes. *)
Lemma Decrypt_accepts ctx ad data w :
  cwp (Provider_Decrypt visit NewCipher NewGCM (Some p) ctx data ad)
    (λ r _, ∀ pt, r = Ok pt → holds ad pt data) w.
Proof.
  unfold Provider_Decrypt. destruct (validate visit (Some p)) as [[q d]|] eqn:Hv; [|done].
  destruct (validate_Some _ _ Hv) as [-> ->]. apply cwp_ctx; [done|intros w1].
  destruct (MaxAssociatedDataSize <? size ad) eqn:Hs; [done|]. apply Z.ltb_ge in Hs.
  destruct (ParseEnvelope visit data) as [e|] eqn:He; [|done].
  case_bool_decide as Hid; [|done].
  destruct (sameContext visit _ _) eqn:Hec; [|done]. apply sameContext_eq in Hec. cbn [negb orb].
  apply cwp_ctx; [done|intros w2]. apply cwp_bind, cwp_any. intros [output callErr] w3 Hd. cbn [fst snd].
  destruct callErr; [done|]. destruct output as [key|]; [|done].
  destruct (Nat.eqb_spec (length key) 32) as [Hl|]; cbn [negb]; [|done].
  apply cwp_ctx; [done|intros w4]. destruct (unseal _ _ _ e key ad) as [pt|] eqn:Hu; [|done].
  apply cwp_ctx; [done|intros w5]. apply cwp_ret. intros pt' [= <-].
  apply kms_decrypt in Hd. by exists e, key.
Qed.
End laws.

(** C25. Envelope encryption round trips.  Whatever [Encrypt] of a provider
    returns, [Decrypt] of the same provider with the same associated data, at
    any later time and under any context, gives back the plaintext, or the
    error of the context or of the KMS call; it never reports a malformed
    envelope, a metadata mismatch or a failed authentication. *)
Theorem kms_roundtrip {W Block} (visit : context → list (bytes * bytes))
    (NewCipher : bytes → result Block) (NewGCM : Block → result AEAD)
    (ReadFull : nat → Call W (result bytes)) (p : Provider W) (c : Client W)
    (belongs : bytes → context → bytes → bytes → Prop) ctx pt ad w data w' :
  (∀ m, visit m ≡ₚ map_to_list m) → GCM NewCipher NewGCM → RandomSource ReadFull →
  client p = Some c → KMS c belongs → Forall is_byte pt →
  Provider_Encrypt visit NewCipher NewGCM ReadFull (Some p) ctx pt ad w = (Ok data, w') →
  ∀ ctx' w'',
    let r := (Provider_Decrypt visit NewCipher NewGCM (Some p) ctx' data ad w'').1 in
    r = Ok pt ∨ ∃ err, r = Fail err ∧
      (reported ctx' err ∨ errors_Is err ErrKMSOperation = true ∨ errors_Is err ErrInvalidDataKey = true).
Proof.
  intros Hvisit Hgcm Hrand Hc Hkms Hpt He ctx' w''.
  pose proof (Encrypt_holds visit Hvisit NewCipher NewGCM p c Hc belongs ReadFull ctx pt ad w Hpt) as H.
  unfold cwp in H. rewrite He in H. destruct (H data eq_refl) as [Hh Hv].
  exact (Decrypt_holds visit Hvisit NewCipher NewGCM p c belongs ctx' pt ad data w'' Hh Hv).
Qed.

(** C26. A plaintext that [Decrypt] returns is authenticated: the bytes are the
    canonical form of an envelope with the provider's key ID and encryption
    context, the service issued its data key for exactly these, and the
    payload is the plaintext sealed under that key and nonce with the metadata
    and the caller's associated data bound in. *)
Theorem kms_authenticates {W Block} (visit : context → list (bytes * bytes))
    (NewCipher : bytes → result Block) (NewGCM : Block → result AEAD) (p : Provider W) (c : Client W)
    (belongs : bytes → context → bytes → bytes → Prop) ctx data ad w pt w' :
  (∀ m, visit m ≡ₚ map_to_list m) → GCM NewCipher NewGCM → client p = Some c → KMS c belongs →
  Provider_Decrypt visit NewCipher NewGCM (Some p) ctx data ad w = (Ok pt, w') →
  ∃ e key a aad, MarshalBinary visit e = Ok data ∧
    KeyID e = keyID p ∧ EncryptionContext e = encryptionContext p ∧
    belongs (keyID p) (encryptionContext p) (EncryptedDataKey e) key ∧
    Encrypt.New NewCipher NewGCM key [] = Ok (mkEncryptor (Some a)) ∧
    buildAssociatedData (metadataJSON visit e) ad = Ok aad ∧
    Ciphertext e = Seal a (Nonce e) pt aad.
Proof.
  intros Hvisit Hgcm Hc Hkms Hd.
  pose proof (Decrypt_accepts visit Hvisit NewCipher NewGCM p c Hc belongs ctx ad data w) as H.
  unfold cwp in H. rewrite Hd in H. destruct (H pt eq_refl) as (e & key & He & Hid & Hec & Hb & _ & _ & Hu).
  apply ParseEnvelope_canonical in He as [He _]; [|done].
  unfold unseal, canonicalMetadata in Hu. destruct (validateMetadata visit e); [done|].
  destruct (buildAssociatedData _ ad) as [aad|] eqn:Haad; [|done].
  destruct (Encrypt.New _ _ key []) as [en|] eqn:Hen; [|done].
  destruct (New_Ok _ _ _ _ Hen) as (a & -> & Ha). apply DecryptDetached_Ok in Hu as [_ Hct]; [|done].
  by exists e, key, a, aad.
Qed.

(** A service with one data key, and the encryptor of [toyAEAD]. *)
Definition oneKey : bytes := replicate 32 5.
Definition toyClient : Client () := {|
  GenerateDataKey := λ _ _ w, ((Some (mkDataKey oneKey [1; 2; 3]), None), w);
  client_Decrypt := λ _ _ _ w, ((Some oneKey, None), w)
|}.
Definition toyProvider : Provider () := mkProvider (Some toyClient) (lit "key") {[ lit "tenant" := lit "blue" ]}.
Definition toyBelongs (_ : bytes) (_ : context) (_ key : bytes) : Prop := key = oneKey.

#[export] Instance toyKMS : KMS toyClient toyBelongs.
Proof.
  split; unfold toyBelongs.
  - intros id ec [] k [] [= <-]. split; [done|]. repeat (apply Forall_cons; split; [by vm_compute|]). constructor.
  - by intros blob id ec [] key [] [= <-].
  - by intros id ec blob key key' -> ->.
Qed.

Definition toyCipher (key : bytes) : result bytes := Ok key.
Definition toyGCM (_ : bytes) : result AEAD := Ok toyAEAD.

#[export] Instance toyGCM_laws : GCM toyCipher toyGCM.
Proof. split. intros key block a _ [= <-]. apply _. Qed.

Definition toyData : bytes :=
  match (Provider_Encrypt map_to_list toyCipher toyGCM zeroSource (Some toyProvider) None [42] [7] ()).1 with
  | Ok data => data
  | Fail _ => []
  end.

Lemma kms_roundtrip_witness :
  length toyData = 209%nat ∧
  (Provider_Decrypt map_to_list toyCipher toyGCM (Some toyProvider) None toyData [7] ()).1 = Ok [42].
Proof.
  split; [vm_compute; reflexivity|].
  destruct (kms_roundtrip map_to_list toyCipher toyGCM zeroSource toyProvider toyClient toyBelongs None [42] [7] ()
    toyData () (λ m, Permutation_refl _) _ _ eq_refl _) with (ctx' := @None (Context ())) (w'' := ()) as [H|(err & H & _)].
  - apply Forall_cons; split; [by vm_compute|constructor].
  - vm_compute. reflexivity.
  - exact H.
  - exfalso. revert H. vm_compute. discriminate.
Defined.

Lemma kms_authenticates_witness :
  ∃ e key, MarshalBinary map_to_list e = Ok toyData ∧ toyBelongs (lit "key") (EncryptionContext e) (EncryptedDataKey e) key.
Proof.
  destruct (kms_authenticates map_to_list toyCipher toyGCM toyProvider toyClient toyBelongs None toyData [7] () [42] ()
    (λ m, Permutation_refl _) _ eq_refl _) as (e & key & a & aad & He & _ & Hec & Hb & _).
  - vm_compute. reflexivity.
  - exists e, key. rewrite Hec. exact (conj He Hb).
Defined.
