(* ===== verification/SqlColumn.v ===== *)
(** * sqlkit: JSON and encrypted columns

    Models [src/sqlkit/json_column.go], [encrypted_column.go] and
    [column_errors.go]: how a column value is written for the driver ([Value])
    and read from it ([Scan]).  A column is updated through its pointer, so
    [Scan] returns the error and the column after it.  [encoding/json] on the
    column's type is a pair of callbacks that may panic; the encrypted columns
    use the encryptor of [Encrypt]. *)

From S2P Require Import Prelude GoError Core GoEncoding Collections Encrypt.

Local Open Scope Z_scope.

Definition ErrInvalidColumnValue : string := "sqlkit.ErrInvalidColumnValue".
Definition ErrColumnValueTooLarge : string := "sqlkit.ErrColumnValueTooLarge".

(** [newColumnError]: matches its kind and its cause. *)
Definition newColumnError (kind operation : string) (cause : option error) : error :=
  Typed "sqlkit.columnError" [FStr kind; FStr operation] [kind] cause.

(** A driver value as [Scan] gets it. *)
Inductive source : Type :=
| SrcNil
| SrcBytes (b : bytes)
| SrcString (s : bytes)
| SrcOther.

(** A driver value as [Value] returns it: [nil], [[]byte] or [string]. *)
Inductive driverValue : Type :=
| VNil
| VBytes (b : bytes)
| VString (s : bytes).

(** What the driver gives back for a stored value. *)
Definition stored (v : driverValue) : source :=
  match v with VNil => SrcNil | VBytes b => SrcBytes b | VString s => SrcString s end.

Definition len (b : bytes) : Z := Z.of_nat (length b).

Definition effectiveColumnLimit (configured fallback : Z) (operation : string) : result Z :=
  if configured <? 0 then Fail (newColumnError ErrInvalidColumnValue operation None)
  else if configured =? 0 then Ok fallback
  else Ok configured.

(** [boundedCopiedColumnSource]: the copied bytes, or [None] when there are
    none. *)
Definition boundedCopiedColumnSource (src : source) (limit : Z) (operation : string) : result (option bytes) :=
  match src with
  | SrcNil => Ok None
  | SrcBytes value | SrcString value =>
      if limit <? len value then Fail (newColumnError ErrColumnValueTooLarge operation None)
      else Ok (Some value)
  | SrcOther => Fail (newColumnError ErrInvalidColumnValue operation None)
  end.

(** [defer recoverColumnPanic(operation, &err)] around a value. *)
Definition recoverColumnPanic {A} (operation : string) (o : outcome (result A)) : result A :=
  match o with
  | Returns r => r
  | Panics => Fail (newColumnError ErrInvalidColumnValue operation None)
  end.

(** ** JSON columns *)

Definition DefaultJSONColumnMaxBytes : Z := Z.shiftl 1 20.

Record JSONColumn (T : Type) : Type := mkJSON { Data : T; Valid : bool; MaxBytes : Z }.
Arguments mkJSON {T} _ _ _.
Arguments Data {T} _.
Arguments Valid {T} _.
Arguments MaxBytes {T} _.

Section json.
Context {T : Type} (zero : T).
Context (Marshal : T → outcome (result bytes)) (Unmarshal : bytes → outcome (result T)).

(** [JSONColumn.Scan] after the value has been cleared: the decoded value,
    [None] for SQL NULL. *)
Definition scanJSON (c : JSONColumn T) (src : source) : outcome (result (option T)) :=
  match src with
  | SrcNil => Returns (Ok None)
  | _ =>
      match effectiveColumnLimit (MaxBytes c) DefaultJSONColumnMaxBytes "scan JSON limit" with
      | Fail err => Returns (Fail err)
      | Ok limit =>
          match boundedCopiedColumnSource src limit "scan JSON" with
          | Fail err => Returns (Fail err)
          | Ok None => Returns (Ok None)
          | Ok (Some raw) =>
              match Unmarshal raw with
              | Panics => Panics
              | Returns (Fail err) => Returns (Fail (newColumnError ErrInvalidColumnValue "scan JSON" (Some err)))
              | Returns (Ok decoded) => Returns (Ok (Some decoded))
              end
          end
      end
  end.

(** [JSONColumn.Scan]: the error and the column after the call. *)
Definition JSON_Scan (c : option (JSONColumn T)) (src : source) : option error * option (JSONColumn T) :=
  match c with
  | None => (Some (newColumnError ErrInvalidColumnValue "scan JSON" None), None)
  | Some c =>
      let cleared := mkJSON zero false (MaxBytes c) in
      match recoverColumnPanic "scan JSON" (scanJSON c src) with
      | Fail err => (Some err, Some cleared)
      | Ok None => (None, Some cleared)
      | Ok (Some decoded) => (None, Some (mkJSON decoded true (MaxBytes c)))
      end
  end.

(** [JSONColumn.Value] *)
Definition JSON_Value (c : JSONColumn T) : result driverValue :=
  if negb (Valid c) then Ok VNil
  else recoverColumnPanic "encode JSON"
    (match effectiveColumnLimit (MaxBytes c) DefaultJSONColumnMaxBytes "encode JSON limit" with
     | Fail err => Returns (Fail err)
     | Ok limit =>
         match Marshal (Data c) with
         | Panics => Panics
         | Returns (Fail err) => Returns (Fail (newColumnError ErrInvalidColumnValue "encode JSON" (Some err)))
         | Returns (Ok raw) =>
             if limit <? len raw then Returns (Fail (newColumnError ErrColumnValueTooLarge "encode JSON" None))
             else Returns (Ok (VBytes raw))
         end
     end).
End json.

(** ** Encrypted columns *)

Definition DefaultEncryptedColumnMaxPlaintextBytes : Z := Z.shiftl 1 20.
Definition DefaultEncryptedColumnMaxCiphertextBytes : Z := Z.shiftl 2 20.

Record encryptedColumnConfig : Type := mkConfig { encryptor : Encryptor; associatedData : bytes }.

(** [EncryptedBytesColumn] and [EncryptedStringColumn] have the same fields;
    [Data] of the latter is the bytes of the string. *)
Record EncryptedColumn : Type := mkColumn {
  c_Data : bytes;
  c_Valid : bool;
  MaxPlaintextBytes : Z;
  MaxCiphertextBytes : Z;
  config : encryptedColumnConfig
}.

Definition NewEncryptedBytesColumn (e : Encryptor) (associatedData : bytes) : EncryptedColumn :=
  mkColumn [] false 0 0 (mkConfig e associatedData).

Definition NewEncryptedStringColumn (e : Encryptor) (associatedData : bytes) : EncryptedColumn :=
  mkColumn [] false 0 0 (mkConfig e associatedData).

(** The column with its value replaced, [None] being the cleared value. *)
Definition withData (c : EncryptedColumn) (data : option bytes) : EncryptedColumn :=
  match data with
  | None => mkColumn [] false (MaxPlaintextBytes c) (MaxCiphertextBytes c) (config c)
  | Some d => mkColumn d true (MaxPlaintextBytes c) (MaxCiphertextBytes c) (config c)
  end.

(** [EncryptedBytesColumn.Scan] *)
Definition Bytes_Scan (c : option EncryptedColumn) (src : source) : option error * option EncryptedColumn :=
  match c with
  | None => (Some (newColumnError ErrInvalidColumnValue "scan encrypted bytes" None), None)
  | Some c =>
      let cleared := Some (withData c None) in
      match src with
      | SrcNil => (None, cleared)
      | _ =>
          match effectiveColumnLimit (MaxCiphertextBytes c) DefaultEncryptedColumnMaxCiphertextBytes
                  "scan encrypted bytes ciphertext limit" with
          | Fail err => (Some err, cleared)
          | Ok ciphertextLimit =>
              match effectiveColumnLimit (MaxPlaintextBytes c) DefaultEncryptedColumnMaxPlaintextBytes
                      "scan encrypted bytes plaintext limit" with
              | Fail err => (Some err, cleared)
              | Ok plaintextLimit =>
                  match boundedCopiedColumnSource src ciphertextLimit "scan encrypted bytes ciphertext" with
                  | Fail err => (Some err, cleared)
                  | Ok None => (None, cleared)
                  | Ok (Some raw) =>
                      match Decrypt (encryptor (config c)) raw (associatedData (config c)) with
                      | Fail err =>
                          (Some (newColumnError ErrInvalidColumnValue "scan encrypted bytes" (Some err)), cleared)
                      | Ok plaintext =>
                          if plaintextLimit <? len plaintext then
                            (Some (newColumnError ErrColumnValueTooLarge "scan encrypted bytes plaintext" None), cleared)
                          else (None, Some (withData c (Some plaintext)))
                      end
                  end
              end
          end
      end
  end.

(** [EncryptedStringColumn.Scan] *)
Definition String_Scan (c : option EncryptedColumn) (src : source) : option error * option EncryptedColumn :=
  match c with
  | None => (Some (newColumnError ErrInvalidColumnValue "scan encrypted string" None), None)
  | Some c =>
      let cleared := Some (withData c None) in
      match src with
      | SrcNil => (None, cleared)
      | _ =>
          match effectiveColumnLimit (MaxCiphertextBytes c) DefaultEncryptedColumnMaxCiphertextBytes
                  "scan encrypted string ciphertext limit" with
          | Fail err => (Some err, cleared)
          | Ok ciphertextLimit =>
              match effectiveColumnLimit (MaxPlaintextBytes c) DefaultEncryptedColumnMaxPlaintextBytes
                      "scan encrypted string plaintext limit" with
              | Fail err => (Some err, cleared)
              | Ok plaintextLimit =>
                  match boundedCopiedColumnSource src ciphertextLimit "scan encrypted string ciphertext" with
                  | Fail err => (Some err, cleared)
                  | Ok None => (None, cleared)
                  | Ok (Some raw) =>
                      match DecryptString (encryptor (config c)) raw (associatedData (config c)) with
                      | Fail err =>
                          (Some (newColumnError ErrInvalidColumnValue "scan encrypted string" (Some err)), cleared)
                      | Ok plaintext =>
                          if plaintextLimit <? len plaintext then
                            (Some (newColumnError ErrColumnValueTooLarge "scan encrypted string plaintext" None), cleared)
                          else (None, Some (withData c (Some plaintext)))
                      end
                  end
              end
          end
      end
  end.

Section encrypted.
Context {W : Type} (ReadFull : nat → Call W (result bytes)).

(** [EncryptedBytesColumn.Value]; the encryptor does not panic. *)
Definition Bytes_Value (c : EncryptedColumn) : Call W (result driverValue) :=
  if negb (c_Valid c) then mret (Ok VNil)
  else match effectiveColumnLimit (MaxPlaintextBytes c) DefaultEncryptedColumnMaxPlaintextBytes
               "encrypt bytes plaintext limit" with
  | Fail err => mret (Fail err)
  | Ok plaintextLimit =>
      if plaintextLimit <? len (c_Data c) then
        mret (Fail (newColumnError ErrColumnValueTooLarge "encrypt bytes plaintext" None))
      else match effectiveColumnLimit (MaxCiphertextBytes c) DefaultEncryptedColumnMaxCiphertextBytes
                   "encrypt bytes ciphertext limit" with
      | Fail err => mret (Fail err)
      | Ok ciphertextLimit =>
          ciphertext ← Encrypt ReadFull (encryptor (config c)) (c_Data c) (associatedData (config c));
          match ciphertext with
          | Fail err => mret (Fail (newColumnError ErrInvalidColumnValue "encrypt bytes" (Some err)))
          | Ok ciphertext =>
              if ciphertextLimit <? len ciphertext then
                mret (Fail (newColumnError ErrColumnValueTooLarge "encrypt bytes ciphertext" None))
              else mret (Ok (VBytes ciphertext))
          end
      end
  end.

(** [EncryptedStringColumn.Value] *)
Definition String_Value (c : EncryptedColumn) : Call W (result driverValue) :=
  if negb (c_Valid c) then mret (Ok VNil)
  else match effectiveColumnLimit (MaxPlaintextBytes c) DefaultEncryptedColumnMaxPlaintextBytes
               "encrypt string plaintext limit" with
  | Fail err => mret (Fail err)
  | Ok plaintextLimit =>
      if plaintextLimit <? len (c_Data c) then
        mret (Fail (newColumnError ErrColumnValueTooLarge "encrypt string plaintext" None))
      else match effectiveColumnLimit (MaxCiphertextBytes c) DefaultEncryptedColumnMaxCiphertextBytes
                   "encrypt string ciphertext limit" with
      | Fail err => mret (Fail err)
      | Ok ciphertextLimit =>
          ciphertext ← EncryptString ReadFull (encryptor (config c)) (c_Data c) (associatedData (config c));
          match ciphertext with
          | Fail err => mret (Fail (newColumnError ErrInvalidColumnValue "encrypt string" (Some err)))
          | Ok ciphertext =>
              if ciphertextLimit <? len ciphertext then
                mret (Fail (newColumnError ErrColumnValueTooLarge "encrypt string ciphertext" None))
              else mret (Ok (VString ciphertext))
          end
      end
  end.
End encrypted.

(** ** Laws *)

(** A value written by a column and read back into a column with the same
    limits, encryptor and associated data. *)
Section encrypted_laws.
Context (a : AEAD) `{!AEADLaws a}.
Context {W : Type} (ReadFull : nat → Call W (result bytes)) `{!RandomSource ReadFull}.

Lemma limit_op configured fallback op op' n :
  effectiveColumnLimit configured fallback op = Ok n → effectiveColumnLimit configured fallback op' = Ok n.
Proof. unfold effectiveColumnLimit. by repeat case_match. Qed.

(** The column that is scanned into: same settings, any value before. *)
Definition sameSettings (c c' : EncryptedColumn) : Prop :=
  MaxPlaintextBytes c' = MaxPlaintextBytes c ∧ MaxCiphertextBytes c' = MaxCiphertextBytes c ∧ config c' = config c.

Lemma withData_same c c' : sameSettings c c' → c_Valid c = true → withData c' (Some (c_Data c)) = c.
Proof. intros (H1 & H2 & H3) Hv. unfold withData. rewrite H1, H2, H3, <-Hv. by destruct c. Qed.

Lemma Bytes_roundtrip c c' v w w' :
  encryptor (config c) = mkEncryptor (Some a) → c_Valid c = true → sameSettings c c' →
  Bytes_Value ReadFull c w = (Ok v, w') → Bytes_Scan (Some c') (stored v) = (None, Some c).
Proof.
  intros He Hval Hs. unfold Bytes_Value. rewrite Hval. cbn [negb].
  destruct (effectiveColumnLimit (MaxPlaintextBytes c) _ _) as [pl|] eqn:Hpl; [|done].
  destruct (pl <? len (c_Data c)) eqn:Hp; [done|].
  destruct (effectiveColumnLimit (MaxCiphertextBytes c) _ _) as [cl|] eqn:Hcl; [|done].
  unfold mbind, call_bind. destruct (Encrypt _ _ _ _ w) as [[ct|] w1] eqn:Hct; [|done].
  destruct (cl <? len ct) eqn:Hc; [done|]. intros [= <- _].
  unfold Bytes_Scan. cbn [stored]. destruct Hs as (H1 & H2 & H3) eqn:Es. rewrite H1, H2, H3.
  rewrite (limit_op _ _ _ _ _ Hcl), (limit_op _ _ _ _ _ Hpl). cbn [boundedCopiedColumnSource]. rewrite Hc.
  rewrite He in *. apply Encrypt_decrypts in Hct as [-> _]; [|done..]. by rewrite Hp, withData_same.
Qed.

Lemma String_roundtrip c c' v w w' :
  encryptor (config c) = mkEncryptor (Some a) → c_Valid c = true → sameSettings c c' →
  Forall is_byte (c_Data c) →
  String_Value ReadFull c w = (Ok v, w') → String_Scan (Some c') (stored v) = (None, Some c).
Proof.
  intros He Hval Hs Hb. unfold String_Value. rewrite Hval. cbn [negb].
  destruct (effectiveColumnLimit (MaxPlaintextBytes c) _ _) as [pl|] eqn:Hpl; [|done].
  destruct (pl <? len (c_Data c)) eqn:Hp; [done|].
  destruct (effectiveColumnLimit (MaxCiphertextBytes c) _ _) as [cl|] eqn:Hcl; [|done].
  unfold mbind, call_bind. destruct (EncryptString _ _ _ _ w) as [[ct|] w1] eqn:Hct; [|done].
  destruct (cl <? len ct) eqn:Hc; [done|]. intros [= <- _].
  unfold String_Scan. cbn [stored]. destruct Hs as (H1 & H2 & H3) eqn:Es. rewrite H1, H2, H3.
  rewrite (limit_op _ _ _ _ _ Hcl), (limit_op _ _ _ _ _ Hpl). cbn [boundedCopiedColumnSource]. rewrite Hc.
  rewrite He in *. apply EncryptString_decrypts in Hct as ->; [|done..]. by rewrite Hp, withData_same.
Qed.
End encrypted_laws.

(** SQL NULL, whatever the settings. *)
Lemma null_roundtrip {W} (ReadFull : nat → Call W (result bytes)) c c' w :
  c_Valid c = false →
  Bytes_Value ReadFull c w = (Ok VNil, w) ∧ Bytes_Scan (Some c') SrcNil = (None, Some (withData c' None)) ∧
  String_Value ReadFull c w = (Ok VNil, w) ∧ String_Scan (Some c') SrcNil = (None, Some (withData c' None)).
Proof. intros Hv. unfold Bytes_Value, String_Value. by rewrite Hv. Qed.

(** [Scan] publishes a value only when everything succeeded. *)
Lemma Bytes_Scan_clears c src err c' :
  Bytes_Scan (Some c) src = (Some err, c') → c' = Some (withData c None).
Proof. unfold Bytes_Scan. intros H. repeat case_match; by simplify_eq. Qed.

Lemma String_Scan_clears c src err c' :
  String_Scan (Some c) src = (Some err, c') → c' = Some (withData c None).
Proof. unfold String_Scan. intros H. repeat case_match; by simplify_eq. Qed.

Section json_laws.
Context {T : Type} (zero : T).
Context (Marshal : T → outcome (result bytes)) (Unmarshal : bytes → outcome (result T)).

Lemma JSON_Scan_clears c src err c' :
  JSON_Scan zero Unmarshal (Some c) src = (Some err, c') → c' = Some (mkJSON zero false (MaxBytes c)).
Proof. unfold JSON_Scan. intros H. repeat case_match; by simplify_eq. Qed.

Lemma JSON_roundtrip c old v :
  (∀ x raw, Marshal x = Returns (Ok raw) → Unmarshal raw = Returns (Ok x)) →
  Valid c = true → JSON_Value Marshal c = Ok v →
  JSON_Scan zero Unmarshal (Some (mkJSON old.1 old.2 (MaxBytes c))) (stored v) = (None, Some c).
Proof.
  intros Hcodec Hval. unfold JSON_Value. rewrite Hval. cbn [negb].
  destruct (effectiveColumnLimit _ _ _) as [limit|] eqn:Hl; [|done].
  destruct (Marshal (Data c)) as [[raw|]|] eqn:Hm; [|done..].
  destruct (limit <? len raw) eqn:Hr; [done|]. intros [= <-].
  unfold JSON_Scan, scanJSON. cbn [stored MaxBytes]. rewrite (limit_op _ _ _ _ _ Hl).
  cbn [boundedCopiedColumnSource]. rewrite Hr, (Hcodec _ _ Hm). cbn. rewrite <-Hval. by destruct c.
Qed.
End json_laws.

(** Encrypted columns round trip.  What [Value] of a non-NULL byte or
    string column hands to the driver, [Scan] of any column with the same
    settings, encryptor and associated data turns back into that column, for
    every random source; and a [Scan] that fails leaves no plaintext behind:
    the column is cleared. *)
Theorem encrypted_column_roundtrip (a : AEAD) {W} (ReadFull : nat → Call W (result bytes)) c c' w w' :
  AEADLaws a → RandomSource ReadFull → encryptor (config c) = mkEncryptor (Some a) → c_Valid c = true →
  Forall is_byte (c_Data c) → sameSettings c c' →
  (∀ v, Bytes_Value ReadFull c w = (Ok v, w') → Bytes_Scan (Some c') (stored v) = (None, Some c)) ∧
  (∀ v, String_Value ReadFull c w = (Ok v, w') → String_Scan (Some c') (stored v) = (None, Some c)) ∧
  (∀ src err c'', Bytes_Scan (Some c') src = (Some err, c'') → c'' = Some (withData c' None)) ∧
  (∀ src err c'', String_Scan (Some c') src = (Some err, c'') → c'' = Some (withData c' None)).
Proof.
  intros Ha Hr He Hv Hb Hs. split_and!; intros *.
  - by apply (Bytes_roundtrip a).
  - by apply (String_roundtrip a).
  - apply Bytes_Scan_clears.
  - apply String_Scan_clears.
Qed.

Definition noteColumn (data : bytes) (valid : bool) : EncryptedColumn :=
  mkColumn data valid 100 200 (mkConfig (mkEncryptor (Some toyAEAD)) [1]).

Lemma encrypted_column_roundtrip_witness :
  let c := noteColumn [104; 105] true in
  ∃ v, String_Value zeroSource c () = (Ok v, ()) ∧ String_Scan (Some (noteColumn [] false)) (stored v) = (None, Some c).
Proof.
  intros c. eexists. split; [vm_compute; reflexivity|].
  apply (encrypted_column_roundtrip toyAEAD zeroSource c (noteColumn [] false) () ());
    try apply _; try reflexivity.
  - apply Forall_cons; split; [by vm_compute|]. apply Forall_cons; split; [by vm_compute|constructor].
  - exact (conj eq_refl (conj eq_refl eq_refl)).
Defined.
