(* ===== verification/SqlSession.v ===== *)
(** * sqlkit: queries and transactions

    Models [src/sqlkit/rows.go] and [transaction.go].  A [sql.Rows], a
    [sql.Tx] and the handles that open them are records of calls; the loop of
    [queryMapped] runs on fuel, one unit per row.  [Cursor] states what a
    result set promises to its reader, [Transactions] what ends a
    transaction. *)

From S2P Require Import Prelude GoError GoText Collections SqlKit.

Local Open Scope Z_scope.

Definition ErrNoRows : string := "sqlkit.ErrNoRows".
Definition ErrTooManyRows : string := "sqlkit.ErrTooManyRows".

(** ** Rows *)

Record Rows (W : Type) : Type := mkRows {
  rows_Next : Call W bool;
  rows_Err : Call W (option error);
  rows_Close : Call W (option error)
}.
Arguments rows_Next {W} _.
Arguments rows_Err {W} _.
Arguments rows_Close {W} _.

Section queries.
Context {W T : Type}.

(** The loop over the rows. *)
Fixpoint rowsLoop (fuel : nat) (rows : Rows W) (mapper : Call W (result T)) (limit : Z) (values : list T)
    : Go W (result (list T)) :=
  match fuel with
  | O => out_of_fuel
  | S fuel' =>
      next ← call (rows_Next rows);
      if next : bool then
        value ← call mapper;
        match value with
        | Fail err => mret (Fail (Errorf "map row: %w" [err]))
        | Ok value =>
            let values := values ++ [value] in
            if (0 <? limit) && (limit <=? Z.of_nat (length values)) then
              err ← call (rows_Err rows);
              match err with
              | Some err => mret (Fail (Errorf "iterate rows: %w" [err]))
              | None => mret (Ok values)
              end
            else rowsLoop fuel' rows mapper limit values
        end
      else
        err ← call (rows_Err rows);
        match err with
        | Some err => mret (Fail (Errorf "iterate rows: %w" [err]))
        | None => mret (Ok values)
        end
  end.

(** The deferred [rows.Close()]; the values that the code returns along with
    the error of a failed close are dropped. *)
Definition deferClose (rows : Rows W) (r : result (list T)) : Call W (result (list T)) :=
  closeErr ← rows_Close rows;
  match closeErr with
  | None => mret r
  | Some closeErr =>
      let wrapped := Errorf "close rows: %w" [closeErr] in
      match r with
      | Fail err => mret (Fail (Joined [err; wrapped]))
      | Ok _ => mret (Fail wrapped)
      end
  end.

(** [queryMapped]: a nil queryer or mapper is [None]; [db] runs
    [QueryContext] with the caller's query and arguments. *)
Definition queryMapped (fuel : nat) (db : option (Call W (result (Rows W))))
    (mapper : option (Rows W → Call W (result T))) (limit : Z) : Go W (result (list T)) :=
  match db with
  | None => mret (Fail (invalidArgument "%w: queryer is nil"))
  | Some db =>
      match mapper with
      | None => mret (Fail (invalidArgument "%w: mapper is nil"))
      | Some mapper =>
          rows ← call db;
          match rows with
          | Fail err => mret (Fail (Errorf "query rows: %w" [err]))
          | Ok rows =>
              r ← rowsLoop fuel rows (mapper rows) limit [];
              call (deferClose rows r)
          end
      end
  end.

Definition QueryAll (fuel : nat) db mapper : Go W (result (list T)) := queryMapped fuel db mapper 0.

(** [QueryOptional]: the value, or [None] for no row. *)
Definition QueryOptional (fuel : nat) db mapper : Go W (result (option T)) :=
  values ← queryMapped fuel db mapper 2;
  match values with
  | Fail err => mret (Fail err)
  | Ok values =>
      match values with
      | [] => mret (Ok None)
      | [v] => mret (Ok (Some v))
      | _ => mret (Fail (Errorf "%w: got at least %d rows" [Sentinel ErrTooManyRows]))
      end
  end.

Definition QueryOne (fuel : nat) db mapper : Go W (result T) :=
  value ← QueryOptional fuel db mapper;
  match value with
  | Fail err => mret (Fail err)
  | Ok None => mret (Fail (Errorf "%w" [Sentinel ErrNoRows]))
  | Ok (Some v) => mret (Ok v)
  end.
End queries.

(** ** Transactions *)

Record Tx (W : Type) : Type := mkTx {
  Rollback : Call W (option error);
  Commit : Call W (option error)
}.
Arguments Rollback {W} _.
Arguments Commit {W} _.

Definition ErrTxDone : string := "sql.ErrTxDone".

(** [WithTx]: [db] runs [BeginTx]; [fn] may panic, and nothing recovers. *)
Definition WithTx {W} (db : option (Call W (result (Tx W)))) (fn : option (Tx W → Call W (outcome (option error))))
    : Call W (outcome (option error)) :=
  match db with
  | None => mret (Returns (Some (invalidArgument "%w: db is nil")))
  | Some db =>
      match fn with
      | None => mret (Returns (Some (invalidArgument "%w: transaction function is nil")))
      | Some fn =>
          tx ← db;
          match tx with
          | Fail err => mret (Returns (Some (Errorf "begin transaction: %w" [err])))
          | Ok tx =>
              r ← fn tx;
              match r with
              | Panics => mret Panics
              | Returns (Some err) =>
                  rollbackErr ← Rollback tx;
                  match rollbackErr with
                  | Some rollbackErr =>
                      if negb (errors_Is rollbackErr ErrTxDone) then
                        mret (Returns (Some (Joined [Errorf "transaction function: %w" [err];
                                                     Errorf "rollback transaction: %w" [rollbackErr]])))
                      else mret (Returns (Some (Errorf "transaction function: %w" [err])))
                  | None => mret (Returns (Some (Errorf "transaction function: %w" [err])))
                  end
              | Returns None =>
                  err ← Commit tx;
                  match err with
                  | Some err => mret (Returns (Some (Errorf "commit transaction: %w" [err])))
                  | None => mret (Returns None)
                  end
              end
          end
      end
  end.

(** ** Result sets *)

(** What a result set of [rs] promises its reader: the rows not yet read, the
    current row, whether it was closed; the mapper turns the current row into
    [f row]; iterating and closing report no error. *)
Class Cursor {W R T} (rows : Rows W) (mapper : Call W (result T)) (f : R → result T)
    (unread : W → list R) (current : W → option R) (closed : W → bool) : Prop := {
  cursor_Next : ∀ w, let '(b, w') := rows_Next rows w in closed w' = closed w ∧
    match unread w with
    | [] => b = false ∧ unread w' = []
    | r :: rest => b = true ∧ unread w' = rest ∧ current w' = Some r
    end;
  cursor_map : ∀ w r, current w = Some r → let '(v, w') := mapper w in
    v = f r ∧ unread w' = unread w ∧ closed w' = closed w;
  cursor_Err : ∀ w, let '(e, w') := rows_Err rows w in
    e = None ∧ unread w' = unread w ∧ closed w' = closed w;
  cursor_Close : ∀ w, let '(e, w') := rows_Close rows w in
    e = None ∧ unread w' = unread w ∧ closed w' = true
}.

Section cursor.
Context {W R T : Type} (rows : Rows W) (mapper : Rows W → Call W (result T)) (f : R → result T)
  (unread : W → list R) (current : W → option R) (closed : W → bool)
  `{!Cursor rows (mapper rows) f unread current closed}.

(** The values of the rows up to the limit, the first failing row, and how
    many rows are read. *)
Fixpoint mapRows (limit : Z) (values : list T) (rs : list R) : result (list T) * list R :=
  match rs with
  | [] => (Ok values, [])
  | r :: rest =>
      match f r with
      | Fail err => (Fail (Errorf "map row: %w" [err]), rest)
      | Ok v =>
          if (0 <? limit) && (limit <=? Z.of_nat (length (values ++ [v]))) then (Ok (values ++ [v]), rest)
          else mapRows limit (values ++ [v]) rest
      end
  end.

Lemma end_of_rows (values : list T) w :
  wp (err ← call (rows_Err rows);
      match err with Some err => mret (Fail (Errorf "iterate rows: %w" [err])) | None => mret (Ok values) end)
    (λ r w', r = Ok values ∧ unread w' = unread w ∧ closed w' = closed w) w.
Proof.
  apply wp_bind, wp_call. pose proof (cursor_Err w) as E. destruct (rows_Err rows w) as [e w']. cbn in *.
  destruct E as (-> & Hu & Hc). by apply wp_ret.
Qed.

Lemma rowsLoop_spec fuel limit values w :
  (length (unread w) < fuel)%nat →
  wp (rowsLoop fuel rows (mapper rows) limit values)
    (λ r w', r = (mapRows limit values (unread w)).1 ∧ unread w' = (mapRows limit values (unread w)).2 ∧
             closed w' = closed w) w.
Proof.
  revert values w. induction fuel as [|fuel IH]; intros values w Hf; [lia|]. cbn [rowsLoop].
  apply wp_bind, wp_call. pose proof (cursor_Next w) as Hn. destruct (rows_Next rows w) as [b w1]. cbn [fst snd].
  destruct Hn as [Hc1 Hn]. destruct (unread w) as [|r rest] eqn:Hu.
  - destruct Hn as [-> Hu1]. eapply wp_mono; [|apply end_of_rows].
    intros x w' (-> & Hu' & Hc'). cbn [mapRows fst snd]. split_and!; congruence.
  - destruct Hn as (-> & Hu1 & Hcur). apply wp_bind, wp_call. pose proof (cursor_map w1 r Hcur) as Hm.
    destruct (mapper rows w1) as [v w2]. cbn [fst snd]. destruct Hm as (-> & Hu2 & Hc2). cbn [mapRows].
    destruct (f r) as [v|err]; [|apply wp_ret; cbn [fst snd]; split_and!; congruence].
    destruct (_ && _).
    + eapply wp_mono; [|apply end_of_rows]. intros x w' (-> & Hu' & Hc'). cbn [fst snd]. split_and!; congruence.
    + eapply wp_mono; [|apply IH; rewrite Hu2, Hu1; cbn in Hf; lia].
      rewrite Hu2, Hu1. intros x w' (-> & Hu' & Hc'). split_and!; congruence.
Qed.

Lemma queryMapped_spec fuel (db : Call W (result (Rows W))) limit w w0 :
  db w = (Ok rows, w0) → closed w0 = false → (length (unread w0) < fuel)%nat →
  wp (queryMapped fuel (Some db) (Some mapper) limit)
    (λ r w', r = (mapRows limit [] (unread w0)).1 ∧ unread w' = (mapRows limit [] (unread w0)).2 ∧
             closed w' = true) w.
Proof.
  intros Hdb Hc Hf. unfold queryMapped. apply wp_bind, wp_call. rewrite Hdb. cbn [fst snd].
  apply wp_bind. eapply wp_mono; [|by apply rowsLoop_spec]. intros r w1 (-> & Hu1 & Hc1).
  apply wp_call. unfold deferClose, mbind, call_bind. pose proof (cursor_Close w1) as Hcl.
  destruct (rows_Close rows w1) as [e w2]. destruct Hcl as (-> & Hu2 & Hc2). cbn. split_and!; congruence.
Qed.
End cursor.

(** The row count decides the answer of [QueryOne]. *)
Definition oneRow {R T} (f : R → result T) (rs : list R) : result T :=
  match rs with
  | [] => Fail (Errorf "%w" [Sentinel ErrNoRows])
  | r :: rest =>
      match f r with
      | Fail err => Fail (Errorf "map row: %w" [err])
      | Ok v =>
          match rest with
          | [] => Ok v
          | r' :: _ =>
              match f r' with
              | Fail err => Fail (Errorf "map row: %w" [err])
              | Ok _ => Fail (Errorf "%w: got at least %d rows" [Sentinel ErrTooManyRows])
              end
          end
      end
  end.

(** [QueryOne] answers by the number of rows: the mapped value for exactly
    one, [ErrNoRows] for none, [ErrTooManyRows] for more, or the error of the
    first row that does not map.  It always returns, reads at most two rows,
    and closes the result set on every path. *)
Theorem queryOne_exact {W R T} (rows : Rows W) (mapper : Rows W → Call W (result T)) (f : R → result T)
    (unread : W → list R) (current : W → option R) (closed : W → bool) (db : Call W (result (Rows W))) w w0 :
  Cursor rows (mapper rows) f unread current closed →
  db w = (Ok rows, w0) → closed w0 = false →
  ∃ r w', QueryOne (S (length (unread w0))) (Some db) (Some mapper) w = Some (r, w') ∧
    r = oneRow f (unread w0) ∧ closed w' = true ∧ drop 2 (unread w0) `suffix_of` unread w'.
Proof.
  intros Hcur Hdb Hc.
  change (wp (QueryOne (S (length (unread w0))) (Some db) (Some mapper))
    (λ r w', r = oneRow f (unread w0) ∧ closed w' = true ∧ drop 2 (unread w0) `suffix_of` unread w') w).
  unfold QueryOne, QueryOptional. do 2 apply wp_bind.
  eapply wp_mono; [|eapply (queryMapped_spec rows mapper f unread current closed); eauto].
  intros r w1 (-> & Hu & Hcl). destruct (unread w0) as [|x [|y rest]]; cbn [mapRows oneRow] in *.
  - do 2 apply wp_ret. rewrite Hu. done.
  - destruct (f x); cbn in *; do 2 apply wp_ret; rewrite Hu; done.
  - destruct (f x); cbn in *; [|do 2 apply wp_ret; rewrite Hu; split_and!; [done..|by exists [y]]].
    destruct (f y); cbn in *; do 2 apply wp_ret; rewrite Hu; done.
Qed.

(** ** Transactions that end *)

(** [begun w tx]: the transaction is open.  Committing or rolling back ends
    it, whatever they answer. *)
Class Transactions {W} (begun : W → bool) (committed : W → bool) (tx : Tx W) : Prop := {
  tx_rollback : ∀ w, begun (Rollback tx w).2 = false ∧ committed (Rollback tx w).2 = committed w;
  tx_commit : ∀ w, begun (Commit tx w).2 = false ∧ ((Commit tx w).1 = None → committed (Commit tx w).2 = true)
}.

(** [WithTx] ends the transaction it began whenever the callback returns,
    and answers nil exactly when the callback succeeded and the commit did;
    then the work is committed, and a failed callback is never committed. *)
Theorem withTx_ends {W} (begun committed : W → bool) (tx : Tx W) db fn w w0 r w1 :
  Transactions begun committed tx → db w = (Ok tx, w0) → fn tx w0 = (Returns r, w1) →
  let '(answer, w') := WithTx (Some db) (Some fn) w in
  begun w' = false ∧
  (answer = Returns None ↔ r = None ∧ (Commit tx w1).1 = None) ∧
  (answer = Returns None → committed w' = true) ∧
  (r ≠ None → committed w' = committed w1).
Proof.
  intros Htx Hdb Hfn. unfold WithTx, mbind, call_bind. rewrite Hdb, Hfn. destruct r as [err|].
  - pose proof (tx_rollback w1) as [Hb Hc]. destruct (Rollback tx w1) as [[e|] w2]; cbn in *.
    + destruct (errors_Is e ErrTxDone); cbn; naive_solver.
    + naive_solver.
  - pose proof (tx_commit w1) as [Hb Hc]. destruct (Commit tx w1) as [[e|] w2]; cbn in *; naive_solver.
Qed.

(** A callback that panics leaves the transaction open. *)
Lemma withTx_panic_leaves_open {W} (begun : W → bool) (tx : Tx W) db fn w w0 w1 :
  db w = (Ok tx, w0) → fn tx w0 = (Panics, w1) → begun w1 = true →
  let '(answer, w') := WithTx (Some db) (Some fn) w in answer = Panics ∧ begun w' = true.
Proof. intros Hdb Hfn Hb. unfold WithTx, mbind, call_bind. by rewrite Hdb, Hfn. Qed.

(** A result set of numbers: the rows left, the current one, closed or not. *)
Definition sampleRows : Rows (list nat * option nat * bool) := {|
  rows_Next := λ w, match w.1.1 with
                    | [] => (false, w)
                    | r :: rest => (true, (rest, Some r, w.2))
                    end;
  rows_Err := λ w, (None, w);
  rows_Close := λ w, (None, (w.1, true))
|}.

Definition sampleMapper (_ : Rows (list nat * option nat * bool)) : Call (list nat * option nat * bool) (result nat) :=
  λ w, (match w.1.2 with Some r => Ok (10 * r)%nat | None => Fail (Sentinel "no row") end, w).

#[export] Instance sampleCursor :
  Cursor sampleRows (sampleMapper sampleRows) (λ r, Ok (10 * r)%nat) (λ w, w.1.1) (λ w, w.1.2) snd.
Proof.
  split.
  - intros [[[|r rest] cur] cl]; cbn; done.
  - intros [[rs cur] cl] r; cbn. by intros [= ->].
  - done.
  - done.
Qed.

Lemma queryOne_exact_witness :
  ∃ r w', QueryOne 2 (Some (λ w, (Ok sampleRows, w))) (Some sampleMapper) ([7%nat], None, false) = Some (r, w') ∧
    r = Ok 70%nat ∧ w'.2 = true.
Proof.
  destruct (queryOne_exact sampleRows sampleMapper (λ r, Ok (10 * r)%nat) (λ w, w.1.1) (λ w, w.1.2) snd
    (λ w, (Ok sampleRows, w)) ([7%nat], None, false) ([7%nat], None, false) _ eq_refl eq_refl)
    as (r & w' & H1 & H2 & H3 & _).
  exists r, w'. exact (conj H1 (conj H2 H3)).
Defined.

(** A transaction of a world with an open flag and a committed flag. *)
Definition sampleTx : Tx (bool * bool) := {|
  Rollback := λ w, (None, (false, w.2));
  Commit := λ w, (None, (false, true))
|}.

#[export] Instance sampleTransactions : Transactions fst snd sampleTx.
Proof. by split. Qed.

Lemma withTx_ends_witness :
  (WithTx (Some (λ w, (Ok sampleTx, (true, w.2)))) (Some (λ _ w, (Returns None, w))) (false, false)).2 = (false, true).
Proof.
  pose proof (withTx_ends fst snd sampleTx (λ w, (Ok sampleTx, (true, w.2))) (λ _ w, (Returns None, w))
    (false, false) (true, false) None (true, false) _ eq_refl eq_refl) as H.
  exact (f_equal2 pair (proj1 H) (proj1 (proj2 (proj2 H)) eq_refl)).
Defined.
