(* ===== verification/RateLimit.v ===== *)
(** * ratelimit: results and the quota law

    Models [src/ratelimit/result.go] and [errors.go], and states what every
    token bucket of the repository promises: [QuotaBound] is the interface
    between a backend, whose steps grant tokens, and the bound that follows
    for all of its runs, [quota_window].  The PostgreSQL and the Redis limiter
    are its instances. *)

From S2P Require Import Prelude GoError.

Local Open Scope Z_scope.

Definition ErrCommitUnknown : error := Sentinel "ratelimit.ErrCommitUnknown".

Definition tokenScale : Z := 1000000.

(** Durations are nanoseconds. *)
Record Result : Type := mkResult {
  Allowed : bool;
  Requested : Z;
  Remaining : Z;
  RetryAfter : Z;
  ResetAfter : Z
}.

(** [tokensToMicros], the same in both backends. *)
Definition tokensToMicros (tokens : Z) : result Z :=
  if tokens <=? 0 then Fail (Errorf "tokens must be positive" [])
  else if maxInt64 / tokenScale <? tokens then Fail (Errorf "tokens are too large" [])
  else Ok (wrap_i64 (tokens * tokenScale)).

Lemma tokensToMicros_Ok tokens m :
  tokensToMicros tokens = Ok m → m = tokens * tokenScale ∧ 0 < m.
Proof.
  unfold tokensToMicros, tokenScale. destruct (Z.leb_spec tokens 0); [done|].
  destruct (Z.ltb_spec (maxInt64 / 1000000) tokens); [done|]. unfold maxInt64 in *.
  intros [= <-]. rewrite wrap_i64_id; [lia|]. unfold in_i64. Z.div_mod_to_equations. lia.
Qed.

(** ** The quota law *)

(** A bucket of a backend, in the states that satisfy [inv]: its level and its
    clock are read off the state, and no step grants more than the level plus
    what the clock adds, except for what a step regains by creating the bucket
    anew. *)
Class QuotaBound {St L : Type} (step : St → L → St → Prop) (granted regained : L → Z) (inv : St → Prop)
    (level clock : St → Z) (capacity rate : Z) : Prop := {
  quota_inv : ∀ s l s', inv s → step s l s' → inv s';
  quota_level : ∀ s, inv s → 0 ≤ level s ≤ capacity;
  quota_step : ∀ s l s', inv s → step s l s' →
    granted l + level s' ≤ level s + rate * (clock s' - clock s) + regained l
}.

(** A run: the labels of its steps. *)
Inductive run {St L : Type} (step : St → L → St → Prop) : St → list L → St → Prop :=
| run_nil s : run step s [] s
| run_cons s l s' ls s'' : step s l s' → run step s' ls s'' → run step s (l :: ls) s''.

Definition total {L} (granted : L → Z) (ls : list L) : Z := foldr (λ l n, granted l + n) 0 ls.

Lemma total_bound {L} (f g : L → Z) ls : Forall (λ l, f l ≤ g l) ls → total f ls ≤ total g ls.
Proof. unfold total. induction 1; cbn; lia. Qed.

Section quota.
Context {St L : Type} (step : St → L → St → Prop) (granted regained : L → Z) (inv : St → Prop)
  (level clock : St → Z) (capacity rate : Z) `{!QuotaBound step granted regained inv level clock capacity rate}.

Lemma run_total s ls s' :
  inv s → run step s ls s' →
  inv s' ∧ total granted ls + level s' ≤ level s + rate * (clock s' - clock s) + total regained ls.
Proof.
  unfold total. intros Hi Hr. induction Hr as [s|s l s' ls s'' Hs _ IH]; cbn; [split; [done|lia]|].
  pose proof (quota_step s l s' Hi Hs) as Hg.
  destruct IH as (Hi' & IH); [by eapply quota_inv|]. split; [done|].
  rewrite !Z.mul_sub_distr_l in *. lia.
Qed.

(** In every window of a run, what is granted is at most the capacity, plus the
    rate times the time that passes, plus what is regained. *)
Lemma quota_window s ls s' :
  inv s → run step s ls s' → total granted ls ≤ capacity + rate * (clock s' - clock s) + total regained ls.
Proof.
  intros Hi Hr. destruct (run_total s ls s' Hi Hr) as (Hi' & Ht).
  pose proof (quota_level s Hi). pose proof (quota_level s' Hi'). lia.
Qed.

(** A property of the labels that every step from the invariant has. *)
Lemma run_labels (P : L → Prop) s ls s' :
  (∀ s l s', inv s → step s l s' → P l) → inv s → run step s ls s' → Forall P ls.
Proof.
  intros Hp Hi Hr. induction Hr as [|s l s' ls s'' Hs _ IH]; constructor; [by eapply Hp|].
  apply IH. by eapply quota_inv.
Qed.
End quota.
