(* ===== verification/SqlRateLimit.v ===== *)
(** * ratelimit/sql: the PostgreSQL token bucket

    Models [src/ratelimit/sql/limiter.go], [queries.go], [errors.go] and the
    integer helpers of [options.go].  [allowQuery] and [cleanupQuery] are
    functions on the table; times are microseconds, and an amount of tokens in
    the table, numeric(30, 6) micro tokens, is the integer number of its
    smallest units, so that the refill is exact.  Quotients of numerics are
    exact in the model.  Test hooks are absent.

    A run is a list of calls of any number of processes, with answers lost and
    clock readings at will; [sql_quota_window] bounds what all of them are
    granted together. *)

From S2P Require Import Prelude GoError GoText GoEncoding RateLimit.

Local Open Scope Z_scope.

Definition maxMaxKeyBytes : Z := 1024.
Definition MaxCleanupBatch : Z := 1000.
Definition ErrConfigurationMismatch : error := Sentinel "sqlratelimit.ErrConfigurationMismatch".
Definition pgError : string := "pgconn.PgError".

(** Normalized options. *)
Record options : Type := mkOptions {
  namespace : bytes;
  rateMicrosPerSecond : Z;
  burst : Z;
  burstMicros : Z;
  idleTTLMicros : Z;
  maxKeyBytes : Z
}.

Definition saturatedDouble (value : Z) : Z := if maxInt64 / 2 <? value then maxInt64 else wrap_i64 (value * 2).

Definition durationMicrosCeil (value : Z) : result Z :=
  if value <=? 0 then Fail (Errorf "duration must be positive" [])
  else let micros := Z.quot value 1000 in
       Ok (if negb (Z.rem value 1000 =? 0) then micros + 1 else micros).

Definition normalizeKey (o : options) (key : bytes) : result bytes :=
  if bool_decide (TrimSpace (runesOf key) = []) then Fail (Errorf "key must not be blank" [])
  else if maxKeyBytes o <? Z.of_nat (length key) then Fail (Errorf "key exceeds maximum bytes" [])
  else Ok key.

Definition microsDuration (value : Z) : Z :=
  if value <=? 0 then 0
  else if maxInt64 / 1000 <? value then maxInt64
  else wrap_i64 (value * 1000).

(** ** Errors *)

Section errors_.
Context (sha256 : bytes → bytes).

Definition hexEncode (b : bytes) : text := b ≫= λ x, [hexDigit (x / 16); hexDigit (x mod 16)].

Definition redactedKeyID (namespace key : bytes) : text :=
  lit "sql-rate-key:" ++
  hexEncode (take 10 (sha256 (putUint64 (Z.of_nat (length namespace)) ++ namespace ++ key))).

Definition newOperationError (operation : string) (namespace key : bytes) (err : error) : error :=
  Typed "sqlratelimit.OpError" [FStr operation; fieldOf (redactedKeyID namespace key)] [] (Some err).

Definition newCleanupOperationError (err : error) : error :=
  Typed "sqlratelimit.OpError" [FStr "cleanup"; fieldOf (lit "sql-rate-key:<cleanup>")] [] (Some err).

(** [errors.As(err, &serverErr)] is a match of the driver's error type. *)
Definition classify (wrap : error → error) (err : error) (contextErr : option error) : error :=
  let cause := match contextErr with Some c => Joined [err; c] | None => err end in
  if errors_Is err pgError then wrap cause else Joined [wrap cause; ErrCommitUnknown].

Definition classifyOperationError (operation : string) (namespace key : bytes) (err : error)
    (contextErr : option error) : error := classify (newOperationError operation namespace key) err contextErr.

Definition classifyCleanupError (err : error) (contextErr : option error) : error :=
  classify newCleanupOperationError err contextErr.
End errors_.

(** ** The table *)

(** The units of a micro token in the table. *)
Definition unit_ : Z := 1000000.

Record bucketRow : Type := mkRow {
  r_rate : Z;
  r_burst : Z;
  r_ttl : Z;
  r_tokens : Z;
  r_last : bool;
  r_updated : Z;
  r_expires : Z
}.

Notation table := (gmap (bytes * bytes) bucketRow).

Definition ceilDiv (a b : Z) : Z := - (- a / b).

(** The columns that the query returns. *)
Definition returning (row : bucketRow) (requested : Z) : bool * Z * Z * Z :=
  (r_last row,
   r_tokens row / (unit_ * 1000000),
   if r_last row then 0
   else Z.min (ceilDiv (Z.max 0 (requested * unit_ - r_tokens row)) (r_rate row)) maxInt64,
   Z.min (ceilDiv (r_burst row * unit_ - r_tokens row) (r_rate row)) maxInt64).

(** The refilled tokens at [greatest(bucket.updated_at, excluded.updated_at)]. *)
Definition refilled (row : bucketRow) (observed : Z) : Z :=
  Z.min (r_burst row * unit_)
    (r_tokens row + Z.max 0 (Z.max (r_updated row) observed - r_updated row) * r_rate row).

(** [allowQuery] at the time [observed]; no row is returned when the options of
    an existing bucket differ. *)
Definition allowQuery (ns key : bytes) (requested burst rate ttl observed : Z) (t : table)
    : option (bool * Z * Z * Z) * table :=
  match t !! (ns, key) with
  | None =>
      let row := mkRow rate burst ttl (burst * unit_ - requested * unit_) true observed (observed + ttl) in
      (Some (returning row requested), <[(ns, key) := row]> t)
  | Some old =>
      if (r_rate old =? rate) && (r_burst old =? burst) && (r_ttl old =? ttl) then
        let available := refilled old observed in
        let allowed := requested * unit_ <=? available in
        let updated := Z.max (r_updated old) observed in
        let row := mkRow (r_rate old) (r_burst old) (r_ttl old)
                     (if allowed then available - requested * unit_ else available)
                     allowed updated (updated + r_ttl old) in
        (Some (returning row requested), <[(ns, key) := row]> t)
      else (None, t)
  end.

(** [bucket.expires_at <= observed_at] *)
Definition expiredAt (t : table) (observed : Z) (k : bytes * bytes) : bool :=
  match t !! k with Some row => r_expires row <=? observed | None => false end.

(** [cleanupQuery limit] at the time [observed]; [unlocked] are the rows that
    no other transaction has locked, in the order of their expiry. *)
Definition cleanupQuery (limit : Z) (observed : Z) (unlocked : list (bytes * bytes)) (t : table) : Z * table :=
  let candidates := take (Z.to_nat limit) (filter (expiredAt t observed) unlocked) in
  (Z.of_nat (length candidates), foldr delete t candidates).

(** ** The limiter *)

(** What happens around one statement: the context at entry, the error of
    [Conn], whether the statement ran and whether its answer arrived, and the
    context afterwards. *)
Inductive delivery : Type :=
| Delivered
| NotApplied (err : error)
| AnswerLost (err : error).

Record attempt : Type := mkAttempt {
  at_ctx : option error;
  at_conn : option error;
  at_delivery : delivery;
  at_observed : Z;
  at_ctxAfter : option error
}.

Section limiter.
Context (sha256 : bytes → bytes).

(** [Limiter.Allow]; a nil limiter or pool is [None]. *)
Definition Allow (l : option options) (key : bytes) (tokens : Z) (a : attempt) (t : table)
    : result Result * table :=
  match at_ctx a with
  | Some err => (Fail err, t)
  | None =>
      match l with
      | None => (Fail (Errorf "postgres rate limiter is not initialized" []), t)
      | Some o =>
          match normalizeKey o key with
          | Fail err => (Fail err, t)
          | Ok key =>
              if burst o <? tokens then (Fail (Errorf "tokens must not exceed burst" []), t)
              else match tokensToMicros tokens with
              | Fail err => (Fail err, t)
              | Ok requestedMicros =>
                  match at_conn a with
                  | Some err =>
                      match at_ctxAfter a with
                      | Some contextErr => (Fail contextErr, t)
                      | None => (Fail (newOperationError sha256 "allow" (namespace o) key err), t)
                      end
                  | None =>
                      let '(answer, t') := allowQuery (namespace o) key requestedMicros (burstMicros o)
                        (rateMicrosPerSecond o) (idleTTLMicros o) (at_observed a) t in
                      match at_delivery a with
                      | NotApplied err =>
                          (Fail (classifyOperationError sha256 "allow" (namespace o) key err (at_ctxAfter a)), t)
                      | AnswerLost err =>
                          (Fail (classifyOperationError sha256 "allow" (namespace o) key err (at_ctxAfter a)), t')
                      | Delivered =>
                          match answer with
                          | None => (Fail ErrConfigurationMismatch, t')
                          | Some (allowed, remaining, retryMicros, resetMicros) =>
                              (Ok (mkResult allowed tokens remaining (microsDuration retryMicros)
                                     (microsDuration resetMicros)), t')
                          end
                      end
                  end
              end
          end
      end
  end.

(** [Limiter.Cleanup] *)
Definition Cleanup (l : option options) (limit : Z) (unlocked : list (bytes * bytes)) (a : attempt) (t : table)
    : result Z * table :=
  match at_ctx a with
  | Some err => (Fail err, t)
  | None =>
      match l with
      | None => (Fail (Errorf "postgres rate limiter is not initialized" []), t)
      | Some _ =>
          if (limit <? 1) || (MaxCleanupBatch <? limit) then
            (Fail (Errorf "cleanup limit must be between 1 and %d" []), t)
          else match at_conn a with
          | Some err =>
              match at_ctxAfter a with
              | Some contextErr => (Fail contextErr, t)
              | None => (Fail (newCleanupOperationError err), t)
              end
          | None =>
              let '(count, t') := cleanupQuery limit (at_observed a) unlocked t in
              match at_delivery a with
              | NotApplied err => (Fail (classifyCleanupError err (at_ctxAfter a)), t)
              | AnswerLost err => (Fail (classifyCleanupError err (at_ctxAfter a)), t')
              | Delivered => (Ok count, t')
              end
          end
      end
  end.
End limiter.

(** ** Runs *)

(** A call of any process. *)
Inductive call_ : Type :=
| CAllow (key : bytes) (tokens : Z) (a : attempt)
| CCleanup (limit : Z) (unlocked : list (bytes * bytes)) (a : attempt).

(** The table, and for every key the row that was deleted last. *)
Record sys : Type := mkSys { s_table : table; s_gone : bytes * bytes → bucketRow }.

(** What a call of the run shows: its answer, and the deleted row that it
    replaced when it inserted a new one. *)
Record label : Type := mkLabel { l_call : call_; l_answer : option Result; l_anew : option bucketRow }.

Section runs.
Context (sha256 : bytes → bytes) (o : options).

Definition exec (c : call_) (t : table) : option Result * table :=
  match c with
  | CAllow key tokens a =>
      let '(r, t') := Allow sha256 (Some o) key tokens a t in
      (match r with Ok res => Some res | Fail _ => None end, t')
  | CCleanup limit unlocked a =>
      let '(_, t') := Cleanup (Some o) limit unlocked a t in (None, t')
  end.

(** The statements take effect one after the other; their clock readings are
    arbitrary, since a statement may wait after it has read the clock. *)
Definition sqlStep (s : sys) (l : label) (s' : sys) : Prop :=
  exec (l_call l) (s_table s) = (l_answer l, s_table s') ∧
  l_anew l = match l_call l with
             | CAllow key _ _ =>
                 match s_table s !! (namespace o, key), s_table s' !! (namespace o, key) with
                 | None, Some _ => Some (s_gone s (namespace o, key))
                 | _, _ => None
                 end
             | CCleanup _ _ _ => None
             end ∧
  ∀ k, s_gone s' k = match s_table s !! k, s_table s' !! k with Some row, None => row | _, _ => s_gone s k end.

(** Table units granted to the callers of a key. *)
Definition grantedTo (key : bytes) (l : label) : Z :=
  match l_call l, l_answer l with
  | CAllow key' tokens _, Some res =>
      if bool_decide (key' = key) && Allowed res then tokens * tokenScale * unit_ else 0
  | _, _ => 0
  end.

(** What the bucket of a key gains when its row is inserted anew: a new row is
    full, the deleted one would have held its tokens and what the rate adds
    until the clock reading of the insertion. *)
Definition regainedBy (key : bytes) (l : label) : Z :=
  match l_call l, l_anew l with
  | CAllow key' _ a, Some old =>
      if bool_decide (key' = key)
      then Z.max 0 (burstMicros o * unit_ - r_tokens old - rateMicrosPerSecond o * (at_observed a - r_updated old))
      else 0
  | _, _ => 0
  end.

(** The bucket of the key is inserted anew. *)
Definition recreates (key : bytes) (l : label) : Z :=
  match l_call l, l_anew l with CAllow key' _ _, Some _ => Z.b2z (bool_decide (key' = key)) | _, _ => 0 end.

(** An insertion reads the clock at or after the expiry of the deleted row. *)
Definition timely (l : label) : Prop :=
  match l_call l, l_anew l with CAllow _ _ a, Some old => r_expires old ≤ at_observed a | _, _ => True end.

(** What [normalize] guarantees.  The idle time covers a full refill at the
    rate before it is rounded to micro tokens, so it can fall short at the
    rounded rate by [shortfall]. *)
Definition wellConfigured : Prop :=
  0 < rateMicrosPerSecond o ∧ burstMicros o = burst o * tokenScale ∧ 0 < burst o.

Definition shortfall : Z := Z.max 0 (burstMicros o * unit_ - rateMicrosPerSecond o * idleTTLMicros o).

Definition rowInv (row : bucketRow) : Prop :=
  r_rate row = rateMicrosPerSecond o ∧ r_burst row = burstMicros o ∧ r_ttl row = idleTTLMicros o ∧
  0 ≤ r_tokens row ≤ burstMicros o * unit_ ∧ r_expires row = r_updated row + idleTTLMicros o.

(** A deleted row, or the full bucket that stands for a row that never was. *)
Definition goneInv (row : bucketRow) : Prop :=
  0 ≤ r_tokens row ≤ burstMicros o * unit_ ∧
  burstMicros o * unit_ - r_tokens row - rateMicrosPerSecond o * (r_expires row - r_updated row) ≤ shortfall.

Definition neverWas (start : Z) : bucketRow :=
  mkRow (rateMicrosPerSecond o) (burstMicros o) (idleTTLMicros o) (burstMicros o * unit_) true start start.

Definition sysInv (s : sys) : Prop :=
  (∀ key row, s_table s !! (namespace o, key) = Some row → rowInv row) ∧
  (∀ key, goneInv (s_gone s (namespace o, key))).

(** The row of a key, or what is left of it. *)
Definition rowOf (key : bytes) (s : sys) : bucketRow := default (s_gone s (namespace o, key)) (s_table s !! (namespace o, key)).

Definition sqlLevel (key : bytes) (s : sys) : Z := r_tokens (rowOf key s).
Definition sqlClock (key : bytes) (s : sys) : Z := r_updated (rowOf key s).

(** ** Laws *)

Context (Hwf : wellConfigured).

(** What one execution of the query does to the row of its key: from [level]
    and [clock] to the new row, granting [requested] or nothing. *)
Lemma allowQuery_row key requested observed t answer t' :
  0 < requested ≤ burstMicros o →
  (∀ row, t !! (namespace o, key) = Some row → rowInv row) →
  allowQuery (namespace o) key requested (burstMicros o) (rateMicrosPerSecond o) (idleTTLMicros o) observed t
    = (answer, t') →
  ∃ row, t' = <[(namespace o, key) := row]> t ∧ rowInv row ∧ answer = Some (returning row requested) ∧
    match t !! (namespace o, key) with
    | None => r_updated row = observed ∧ r_last row = true ∧
              requested * unit_ + r_tokens row = burstMicros o * unit_
    | Some old => r_updated row = Z.max (r_updated old) observed ∧
              r_last row = (requested * unit_ <=? refilled old observed) ∧
              (if r_last row then requested * unit_ else 0) + r_tokens row = refilled old observed
    end.
Proof.
  destruct Hwf as (Hr & Hb & Hbp). intros Hreq Hinv. unfold allowQuery.
  destruct (t !! (namespace o, key)) as [old|] eqn:Hold.
  - destruct (Hinv old eq_refl) as (E1 & E2 & E3 & E4 & E5). rewrite E1, E2, E3, !Z.eqb_refl. cbn [andb].
    intros [= <- <-]. eexists. split; [done|]. split; [|split; [done|]].
    + unfold rowInv, refilled, unit_ in *. cbn. rewrite E1, E2.
      destruct (Z.leb_spec (requested * 1000000) (Z.min (burstMicros o * 1000000)
        (r_tokens old + Z.max 0 (Z.max (r_updated old) observed - r_updated old) * rateMicrosPerSecond o)));
        split_and!; try done; nia.
    + cbn. split; [done|]. split; [done|]. destruct (requested * unit_ <=? _); lia.
  - intros [= <- <-]. eexists. split; [done|]. split; [|split; [done|]].
    + unfold rowInv, unit_ in *. cbn. split_and!; try done; nia.
    + cbn. split_and!; [done|done|lia].
Qed.

(** [Allow] either leaves the table alone and grants nothing, or runs the
    query; a result that arrives is that of the query. *)
Lemma sql_Allow_effect key tokens a t r t' :
  Allow sha256 (Some o) key tokens a t = (r, t') →
  (t' = t ∧ ∀ res, r = Ok res → False) ∨
  ∃ answer, 0 < tokens * tokenScale ≤ burstMicros o ∧
    allowQuery (namespace o) key (tokens * tokenScale) (burstMicros o) (rateMicrosPerSecond o)
      (idleTTLMicros o) (at_observed a) t = (answer, t') ∧
    ∀ res, r = Ok res → ∃ rem retry reset,
      answer = Some (Allowed res, rem, retry, reset) ∧
      res = mkResult (Allowed res) tokens rem (microsDuration retry) (microsDuration reset).
Proof.
  destruct Hwf as (_ & Hb & _). unfold Allow.
  destruct (at_ctx a); [intros [= <- <-]; by left|].
  unfold normalizeKey. case_bool_decide; [intros [= <- <-]; by left|].
  destruct (maxKeyBytes o <? _); [intros [= <- <-]; by left|].
  destruct (Z.ltb_spec (burst o) tokens); [intros [= <- <-]; by left|].
  destruct (tokensToMicros tokens) as [m|] eqn:Hm; [|intros [= <- <-]; by left].
  apply tokensToMicros_Ok in Hm as [-> Hpos].
  destruct (at_conn a); [destruct (at_ctxAfter a); intros [= <- <-]; by left|].
  destruct (allowQuery _ _ _ _ _ _ _ t) as [answer t1] eqn:Hq.
  destruct (at_delivery a).
  - intros H1. right. exists answer. split; [unfold tokenScale in *; lia|].
    destruct answer as [[[[al rem] retry] reset]|]; injection H1 as <- <-; (split; [done|]).
    + intros res [= <-]. cbn. eauto.
    + done.
  - intros [= <- <-]. by left.
  - intros [= <- <-]. right. exists answer. split; [unfold tokenScale in *; lia|]. split; [done|done].
Qed.

Lemma cleanupQuery_lookup limit observed unlocked t n t' k :
  cleanupQuery limit observed unlocked t = (n, t') →
  t' !! k = t !! k ∨ (t' !! k = None ∧ ∃ row, t !! k = Some row ∧ r_expires row ≤ observed).
Proof.
  unfold cleanupQuery. intros [= _ <-].
  set (cs := take _ _). assert (∀ k, k ∈ cs → expiredAt t observed k = true) as Hcs.
  { intros k' Hk. subst cs. apply elem_of_take in Hk as (i & Hk & _).
    apply list_elem_of_lookup_2, list_elem_of_filter in Hk as [Hk _]. by apply Is_true_true. }
  clearbody cs. clear limit unlocked. induction cs as [|c cs IH]; [by left|]. cbn [foldr].
  destruct (decide (c = k)) as [->|Hne].
  - right. rewrite lookup_delete_eq. split; [done|]. specialize (Hcs k ltac:(left)). unfold expiredAt in Hcs.
    destruct (t !! k) as [row|]; [|done]. exists row. split; [done|lia].
  - rewrite lookup_delete_ne by done. apply IH. intros k' Hk'. apply Hcs. by right.
Qed.

Lemma Cleanup_effect limit unlocked a t r t' k :
  Cleanup (Some o) limit unlocked a t = (r, t') →
  t' !! k = t !! k ∨ (t' !! k = None ∧ ∃ row, t !! k = Some row ∧ r_expires row ≤ at_observed a).
Proof.
  unfold Cleanup. destruct (at_ctx a); [intros [= _ <-]; by left|]. destruct (_ || _); [intros [= _ <-]; by left|].
  destruct (at_conn a); [destruct (at_ctxAfter a); intros [= _ <-]; by left|].
  destruct (cleanupQuery _ _ _ t) as [n t1] eqn:Hq. destruct (at_delivery a); intros [= _ <-]; [|by left|];
    by eapply cleanupQuery_lookup.
Qed.

Lemma rowInv_gone row : rowInv row → goneInv row.
Proof.
  destruct Hwf as (Hr & _). intros (_ & _ & _ & Ht & He). split; [done|]. rewrite He. unfold shortfall.
  replace (r_updated row + idleTTLMicros o - r_updated row) with (idleTTLMicros o) by lia. lia.
Qed.

Lemma neverWas_gone start : goneInv (neverWas start).
Proof. destruct Hwf as (_ & Hb & Hbp). unfold goneInv, shortfall. cbn. unfold unit_, tokenScale in *. lia. Qed.

Lemma sysInv_step s l s' : sysInv s → sqlStep s l s' → sysInv s'.
Proof.
  intros [Hi Hg] (He & _ & Hgone). split.
  - intros key row Hrow. destruct l as [[k tokens a|limit unlocked a] res anew]; cbn [exec l_call l_answer] in He.
    + destruct (Allow sha256 (Some o) k tokens a (s_table s)) as [r t'] eqn:Ha. injection He as _ Ht. rewrite <-Ht in Hrow.
      apply sql_Allow_effect in Ha as [[-> _]|(answer & Hreq & Hq & _)]; [by eapply Hi|].
      apply allowQuery_row in Hq as (row' & -> & Hr & _); [|done|by intros; eapply Hi].
      destruct (decide (k = key)) as [->|Hne].
      * rewrite lookup_insert_eq in Hrow. congruence.
      * rewrite lookup_insert_ne in Hrow by congruence. by eapply Hi.
    + destruct (Cleanup _ _ _ _ _) as [r t'] eqn:Hc. injection He as _ Ht. rewrite <-Ht in Hrow.
      apply (Cleanup_effect _ _ _ _ _ _ (namespace o, key)) in Hc as [E|[E _]]; [|congruence].
      rewrite E in Hrow. by eapply Hi.
  - intros key. rewrite Hgone. destruct (s_table s !! _) as [row|] eqn:E; [|done].
    destruct (s_table s' !! _); [done|]. by eapply rowInv_gone, Hi.
Qed.

Lemma rowOf_bounds key s : sysInv s → 0 ≤ r_tokens (rowOf key s) ≤ burstMicros o * unit_.
Proof.
  intros [Hi Hg]. unfold rowOf. destruct (s_table s !! _) as [row|] eqn:E; [by apply Hi in E as (_ & _ & _ & ? & _)|].
  apply Hg.
Qed.

(** A step that does not insert leaves of a row what there was. *)
Lemma rowOf_kept key s l s' :
  sqlStep s l s' → s_table s' !! (namespace o, key) = s_table s !! (namespace o, key) ∨ s_table s' !! (namespace o, key) = None →
  rowOf key s' = rowOf key s.
Proof.
  intros (_ & _ & Hgone). unfold rowOf. rewrite Hgone. intros [-> | ->]; by destruct (s_table s !! _).
Qed.

(** The quota interface, for the bucket of any key. *)
#[export] Instance sql_quota key :
  QuotaBound sqlStep (grantedTo key) (regainedBy key) sysInv (sqlLevel key) (sqlClock key)
    (burstMicros o * unit_) (rateMicrosPerSecond o).
Proof.
  destruct Hwf as (Hr & Hb & Hbp). split; [apply sysInv_step|intros s; apply rowOf_bounds|].
  intros s l s' Hi Hstep. pose proof (rowOf_kept key _ _ _ Hstep) as Hkept. unfold sqlLevel, sqlClock.
  destruct Hstep as (He & Hanew & _).
  destruct l as [[k tokens a|limit unlocked a] res anew]; cbn [exec l_call l_answer l_anew grantedTo regainedBy] in *.
  - assert (0 ≤ match anew with Some old => if bool_decide (k = key) then Z.max 0 (burstMicros o * unit_ - r_tokens old -
      rateMicrosPerSecond o * (at_observed a - r_updated old)) else 0 | None => 0 end) as Hpos.
    { destruct anew; [|done]. case_bool_decide; lia. }
    destruct (Allow sha256 (Some o) k tokens a (s_table s)) as [r t'] eqn:Ha. injection He as <- ->.
    apply sql_Allow_effect in Ha as [[Ht Hno]|(answer & Hreq & Hq & Hres)].
    { rewrite Hkept by (left; by rewrite Ht).
      replace (match r with Ok res => Some res | Fail _ => None end) with (@None Result)
        by (destruct r as [res|]; [by destruct (Hno res)|done]).
      lia. }
    apply allowQuery_row in Hq as (row & Ht & Hrow & -> & Hq); [|done|intros; by eapply (proj1 Hi)].
    destruct (decide (k = key)) as [->|Hne].
    + rewrite (bool_decide_true (key = key)) in * by done. cbn [andb].
      assert (Hg : match r with Ok res => if Allowed res then tokens * tokenScale * unit_ else 0 | Fail _ => 0 end
                   ≤ (if r_last row then tokens * tokenScale * unit_ else 0)).
      { destruct r as [res|]; [|destruct (r_last row); unfold unit_ in *; lia].
        destruct (Hres res eq_refl) as (? & ? & ? & Ha & _). unfold returning in Ha.
        injection Ha as <- _ _ _. lia. }
      assert (s_table s' !! (namespace o, key) = Some row) as Hnew by (rewrite Ht; apply lookup_insert_eq).
      unfold rowOf. rewrite Hnew in *. destruct (s_table s !! (namespace o, key)) as [old|] eqn:Hold; cbn [default from_option id].
      * destruct Hq as (Hu & _ & Hq). destruct (proj1 Hi _ _ Hold) as (E1 & E2 & _ & E4 & _).
        unfold refilled in Hq. rewrite E1, E2 in Hq. rewrite Hu. destruct r as [res|]; cbn in *; nia.
      * destruct Hq as (Hu & Hlast & Hq). rewrite Hlast in Hg. rewrite Hanew, Hu.
        destruct r as [res|]; cbn in *; lia.
    + rewrite Hkept by (left; rewrite Ht, lookup_insert_ne by congruence; done).
      rewrite !bool_decide_false by done. destruct r, anew; cbn; lia.
  - destruct (Cleanup _ _ _ _ _) as [r t'] eqn:Hc. injection He as <- ->.
    apply (Cleanup_effect _ _ _ _ _ _ (namespace o, key)) in Hc as [E|(E & _)]; rewrite Hkept by auto; lia.
Qed.

(** What a timely insertion regains. *)
Lemma timely_regains key s l s' :
  sysInv s → sqlStep s l s' → timely l → regainedBy key l ≤ recreates key l * shortfall.
Proof.
  intros [_ Hg] (_ & Hanew & _). unfold timely, regainedBy, recreates.
  destruct l as [[k tokens a|limit unlocked a] res anew]; cbn [l_call l_anew] in *; [|lia].
  destruct anew as [old|]; [|lia]. intros Hle. case_bool_decide; [|cbn; lia].
  destruct (s_table s !! _); [done|]. destruct (s_table s' !! _); [|done]. injection Hanew as ->.
  destruct (Hg k) as [Ht Hs]. destruct Hwf as (Hr & _). cbn [Z.b2z]. unfold shortfall in *. nia.
Qed.

(** ** Waiting for the advertised time *)

Lemma ceilDiv_le a b n : 0 < b → ceilDiv a b ≤ n ↔ a ≤ n * b.
Proof.
  intros Hb. unfold ceilDiv. pose proof (Z.div_mod (- a) b ltac:(lia)) as Hdiv.
  pose proof (Z.mod_pos_bound (- a) b Hb) as Hmod. split; intros Hle; nia.
Qed.

Lemma microsDuration_small v : microsDuration v < maxInt64 → microsDuration v = Z.max 0 v * 1000.
Proof.
  unfold microsDuration, maxInt64. destruct (Z.leb_spec v 0); [lia|].
  destruct (Z.ltb_spec ((2 ^ 63 - 1) / 1000) v); [lia|]. intros _.
  rewrite wrap_i64_id; [lia|]. unfold in_i64. Z.div_mod_to_equations. lia.
Qed.

Lemma allowed_result key tokens a t r t' :
  (∀ row, t !! (namespace o, key) = Some row → rowInv row) →
  Allow sha256 (Some o) key tokens a t = (Ok r, t') →
  ∃ row, t' = <[(namespace o, key) := row]> t ∧ rowInv row ∧ Allowed r = r_last row ∧
    0 < tokens * tokenScale ≤ burstMicros o ∧
    (r_last row = false → RetryAfter r =
      microsDuration (Z.min (ceilDiv (Z.max 0 (tokens * tokenScale * unit_ - r_tokens row)) (r_rate row)) maxInt64)) ∧
    match t !! (namespace o, key) with
    | None => r_last row = true
    | Some old => r_updated row = Z.max (r_updated old) (at_observed a) ∧
        r_last row = (tokens * tokenScale * unit_ <=? refilled old (at_observed a)) ∧
        (if r_last row then tokens * tokenScale * unit_ else 0) + r_tokens row = refilled old (at_observed a)
    end.
Proof.
  intros Hinv Ha. apply sql_Allow_effect in Ha as [[_ Hno]|(answer & Hreq & Hq & Hres)]; [by destruct (Hno r)|].
  apply allowQuery_row in Hq as (row & -> & Hrow & -> & Hm); [|done|done].
  destruct (Hres r eq_refl) as (rem & retry & reset & Ha & Hr).
  unfold returning in Ha. injection Ha as Hlast Hrem Hretry Hreset.
  exists row. split; [done|]. split; [done|]. split; [done|]. split; [done|]. split.
  - intros Hf. rewrite Hr. cbn. by rewrite <-Hretry, Hf.
  - destruct (t !! (namespace o, key)); [done|]. by destruct Hm as (_ & ? & _).
Qed.
End runs.

(** C28. The quota holds across processes.  In every run of the limiter, with
    any interleaving of statements of any number of processes that share the
    options, answers lost, any clock readings and expired buckets cleaned up at
    any time, the tokens granted for a key in a window are at most the burst,
    plus the rate times the time that passes on the bucket's clock, plus what is
    regained when a deleted bucket is inserted anew: what the deleted row lacked
    to be full at the clock reading of the insertion.  An insertion whose reading
    is not before the expiry of the deleted row regains at most [shortfall], and
    that is nothing when the idle time covers a full refill at the rate as it
    was rounded to micro tokens.  A bucket that did not exist is full. *)
Theorem sql_quota_window sha256 o key s ls s' :
  wellConfigured o → sysInv o s → run (sqlStep sha256 o) s ls s' →
  total (grantedTo key) ls ≤
    burst o * tokenScale * unit_ + rateMicrosPerSecond o * (sqlClock o key s' - sqlClock o key s) +
    total (regainedBy o key) ls ∧
  (Forall timely ls → total (regainedBy o key) ls ≤ total (recreates key) ls * shortfall o) ∧
  (burstMicros o * unit_ ≤ rateMicrosPerSecond o * idleTTLMicros o → shortfall o = 0).
Proof.
  intros Hwf Hi Hr. pose proof (sql_quota sha256 o Hwf key) as Hq. split_and!.
  - pose proof (quota_window _ _ _ _ _ _ _ _ s ls s' Hi Hr) as Hw. destruct Hwf as (_ & <- & _). exact Hw.
  - intros Ht. assert (Forall (λ l, timely l → regainedBy o key l ≤ recreates key l * shortfall o) ls) as Hl.
    { eapply run_labels; [exact Hq| |exact Hi|exact Hr]. intros. by eapply timely_regains. }
    transitivity (total (λ l, recreates key l * shortfall o) ls).
    + apply total_bound. eapply Forall_impl; [apply Forall_and; split; [exact Hl|exact Ht]|]. intros l [H1 H2]. by apply H1.
    + clear. unfold total. induction ls; cbn; lia.
  - unfold shortfall. lia.
Qed.

(** The advertised waiting time is exact.  When [Allow] denies a request,
    repeating it without other calls in between is granted precisely from the
    time of the denial plus [RetryAfter] on, and not a microsecond earlier. *)
Theorem retry_after_exact sha256 o key tokens a1 a2 t r1 t1 r2 t2 :
  wellConfigured o → (∀ row, t !! (namespace o, key) = Some row → rowInv o row) →
  Allow sha256 (Some o) key tokens a1 t = (Ok r1, t1) → Allowed r1 = false → RetryAfter r1 < maxInt64 →
  Allow sha256 (Some o) key tokens a2 t1 = (Ok r2, t2) →
  ∃ row, t1 !! (namespace o, key) = Some row ∧
    (Allowed r2 = true ↔ r_updated row * 1000 + RetryAfter r1 ≤ at_observed a2 * 1000).
Proof.
  intros Hwf Hinv H1 Hd Hmax H2. assert (Hr := Hwf). destruct Hr as (Hr & Hb & _).
  apply allowed_result in H1 as (row & -> & Hrow & Hl1 & Hreq & Hra & Hm1); [|done..].
  rewrite Hd in Hl1. specialize (Hra (eq_sym Hl1)).
  apply allowed_result in H2 as (row2 & _ & _ & -> & _ & _ & Hm2);
    [|done|intros ?; rewrite lookup_insert_eq; congruence].
  rewrite lookup_insert_eq in Hm2. destruct Hm2 as (_ & -> & _).
  exists row. rewrite lookup_insert_eq. split; [done|]. rewrite Hra in Hmax |- *.
  rewrite microsDuration_small in * by done. destruct Hrow as (E1 & E2 & _ & E4 & _).
  assert (Hlt : r_tokens row < tokens * tokenScale * unit_).
  { destruct (t !! (namespace o, key)) as [old|]; [|congruence]. destruct Hm1 as (_ & E & E').
    rewrite <-Hl1 in E, E'. symmetry in E. apply Z.leb_gt in E. lia. }
  unfold refilled. rewrite E1, E2 in *. rewrite Z.leb_le.
  set (need := tokens * tokenScale * unit_ - r_tokens row) in *.
  assert (Hpos : 0 < need) by lia. rewrite (Z.max_r 0 need) in * by lia.
  pose proof (ceilDiv_le need (rateMicrosPerSecond o)) as Hc.
  assert (0 < ceilDiv need (rateMicrosPerSecond o)) by (destruct (Hc 0 Hr); lia).
  assert (Hcap : ceilDiv need (rateMicrosPerSecond o) < maxInt64) by (unfold maxInt64 in *; lia).
  replace (Z.max 0 (Z.min (ceilDiv need (rateMicrosPerSecond o)) maxInt64))
    with (ceilDiv need (rateMicrosPerSecond o)) by lia.
  specialize (Hc (at_observed a2 - r_updated row) Hr).
  transitivity (need ≤ (at_observed a2 - r_updated row) * rateMicrosPerSecond o); [|rewrite <-Hc; lia].
  split; intros Hle; [nia|].
  replace (Z.max 0 (Z.max (r_updated row) (at_observed a2) - r_updated row))
    with (at_observed a2 - r_updated row) by nia.
  unfold unit_ in *. nia.
Qed.

(** Two tokens, one per second. *)
Definition sampleOptions : options := mkOptions [110] 1000000 2 2000000 2000000 512.
Definition sampleAttempt (t : Z) : attempt := mkAttempt None None Delivered t None.
Definition sampleKey : bytes := [107].

Lemma sample_configured : wellConfigured sampleOptions.
Proof. unfold wellConfigured, tokenScale. cbn. lia. Qed.

(** The sample bucket after a grant of both tokens at time 5. *)
Definition sampleTable : table := (Allow (λ b, b) (Some sampleOptions) sampleKey 2 (sampleAttempt 5) ∅).2.

Definition sampleGone : bytes * bytes → bucketRow := λ _, neverWas sampleOptions 0.
Definition sampleRow : bucketRow := mkRow 1000000 2000000 2000000 0 true 5 2000005.

Definition sampleGrant (t : Z) (anew : bucketRow) : label :=
  mkLabel (CAllow sampleKey 2 (sampleAttempt t)) (Some (mkResult true 2 0 0 2000000000)) (Some anew).

(** The bucket is cleaned up after its expiry, and a statement that had read the
    clock a second before that inserts it anew: it regains one token. *)
Definition sampleLabels : list label :=
  [sampleGrant 5 (neverWas sampleOptions 0);
   mkLabel (CCleanup 10 [([110], sampleKey)] (sampleAttempt 2000005)) None None;
   sampleGrant 1000005 sampleRow].

Definition sampleGone' (k : bytes * bytes) : bucketRow :=
  if bool_decide (k = ([110], sampleKey)) then sampleRow else neverWas sampleOptions 0.
Definition sampleTable' : table := (Allow (λ b, b) (Some sampleOptions) sampleKey 2 (sampleAttempt 1000005) ∅).2.

Lemma sample_lookup k row : ({[([110], sampleKey) := row]} : table) !! k = if bool_decide (k = ([110], sampleKey)) then Some row else None.
Proof. case_bool_decide as E; [subst; apply lookup_singleton_eq|]. by apply lookup_singleton_ne. Qed.

Lemma sample_run :
  run (sqlStep (λ b, b) sampleOptions) (mkSys ∅ sampleGone) sampleLabels (mkSys sampleTable' sampleGone').
Proof.
  apply (run_cons _ _ _ (mkSys sampleTable sampleGone)).
  { split; [vm_compute; reflexivity|]. split; [reflexivity|]. intros k. cbn. by rewrite lookup_empty. }
  apply (run_cons _ _ _ (mkSys ∅ sampleGone')).
  { split; [vm_compute; reflexivity|]. split; [reflexivity|]. intros k. cbn [s_table s_gone]. rewrite lookup_empty.
    change sampleTable with ({[([110], sampleKey) := sampleRow]} : table). rewrite sample_lookup. unfold sampleGone'.
    by case_bool_decide. }
  apply (run_cons _ _ _ (mkSys sampleTable' sampleGone')); [|apply run_nil].
  split; [vm_compute; reflexivity|]. split; [reflexivity|]. intros k. cbn [s_table s_gone]. by rewrite lookup_empty.
Qed.

Lemma sql_quota_window_witness :
  total (grantedTo sampleKey) sampleLabels = 4 * tokenScale * unit_ ∧
  total (regainedBy sampleOptions sampleKey) sampleLabels = 1 * tokenScale * unit_ ∧
  total (grantedTo sampleKey) sampleLabels ≤
    2 * tokenScale * unit_ + 1000000 *
      (sqlClock sampleOptions sampleKey (mkSys sampleTable' sampleGone') -
       sqlClock sampleOptions sampleKey (mkSys ∅ sampleGone)) + 1 * tokenScale * unit_.
Proof.
  split; [vm_compute; reflexivity|]. split; [vm_compute; reflexivity|].
  apply (sql_quota_window (λ b, b) sampleOptions sampleKey (mkSys ∅ sampleGone) sampleLabels
    (mkSys sampleTable' sampleGone') sample_configured); [|exact sample_run].
  split; [intros key row H; discriminate H|]. intros key. apply neverWas_gone, sample_configured.
Defined.

Lemma retry_after_exact_witness :
  let r1 := mkResult false 2 1 1000000000 1000000000 in
  (Allow (λ b, b) (Some sampleOptions) sampleKey 2 (sampleAttempt 1000005) sampleTable).1 = Ok r1 ∧
  Allowed r1 = false ∧
  ∃ row, r_updated row * 1000 + RetryAfter r1 ≤ 2000005 * 1000.
Proof.
  intros r1. split; [vm_compute; reflexivity|]. split; [reflexivity|].
  destruct (retry_after_exact (λ b, b) sampleOptions sampleKey 2 (sampleAttempt 1000005) (sampleAttempt 2000005)
    sampleTable r1 (Allow (λ b, b) (Some sampleOptions) sampleKey 2 (sampleAttempt 1000005) sampleTable).2
    (mkResult true 2 0 0 2000000000)
    (Allow (λ b, b) (Some sampleOptions) sampleKey 2 (sampleAttempt 2000005)
      (Allow (λ b, b) (Some sampleOptions) sampleKey 2 (sampleAttempt 1000005) sampleTable).2).2) as (row & _ & H).
  - exact sample_configured.
  - intros row Hrow. assert (E : sampleTable !! (namespace sampleOptions, sampleKey) =
      Some (mkRow 1000000 2000000 2000000 0 true 5 2000005)) by (vm_compute; reflexivity).
    rewrite E in Hrow. injection Hrow as <-. unfold rowInv, unit_. cbn. lia.
  - apply injective_projections; [vm_compute; reflexivity|cbn [snd]; reflexivity].
  - reflexivity.
  - vm_compute. reflexivity.
  - apply injective_projections; [vm_compute; reflexivity|cbn [snd]; reflexivity].
  - exists row. apply (proj1 H). reflexivity.
Defined.
