(* ===== verification/RedisRateLimit.v ===== *)
(** * ratelimit/redis: the Redis token bucket

    Models [src/ratelimit/redis/limiter.go] and the integer helpers of
    [options.go].  [consumeScript] is a function on the hash of one bucket;
    times are the milliseconds of [TIME], and a hash past its expiry is absent.
    Lua numbers are exact integers here, which holds for amounts below 2^53.

    The limiter is the second instance of the quota law of [RateLimit]
    ([redis_quota_window]).  Its refill is truncated at every call:
    [redis_polling_starves] shows what that means for a slow bucket.  The idle
    time is truncated to milliseconds: [truncated_ttl_grants_early]. *)

From S2P Require Import Prelude GoError GoText GoEncoding RedisKey RateLimit.

Local Open Scope Z_scope.

Definition defaultKeyPrefix : bytes := lit "bluetape:ratelimit".

(** Normalized options; a nil client is no limiter. *)
Record options : Type := mkOptions {
  namespace : bytes;
  rateMicrosPerSecond : Z;
  burst : Z;
  burstMicros : Z;
  idleTTL : Z;
  maxKeyBytes : Z
}.

(** [idleTTL.Milliseconds()] *)
Definition ttlMillis (o : options) : Z := Z.quot (idleTTL o) 1000000.

Definition normalizeKey (o : options) (key : bytes) : result bytes :=
  if bool_decide (TrimSpace (runesOf key) = []) then Fail (Errorf "key must not be empty" [])
  else if maxKeyBytes o <? Z.of_nat (length key) then Fail (Errorf "key exceeds max key bytes" [])
  else Ok key.

Definition bucketKey (o : options) (key : bytes) : bytes :=
  defaultKeyPrefix ++ lit ":" ++ namespace o ++ lit ":bucket:" ++ key.

(** ** The script *)

(** The hash of a bucket, with the time it expires at. *)
Record bucket : Type := mkBucket { b_tokens : Z; b_updated : Z; b_expires : Z }.

#[export] Instance bucket_eq : EqDecision bucket.
Proof. solve_decision. Defined.

Notation store := (gmap bytes bucket).

(** [HMGET] at a time: nothing for a hash that has expired. *)
Definition live (st : store) (k : bytes) (now : Z) : option bucket :=
  match st !! k with
  | Some b => if b_expires b <=? now then None else Some b
  | None => None
  end.

Definition ceilQuot (a b : Z) : Z := - (- a / b).

(** [consumeScript] *)
Definition consumeScript (k : bytes) (requested burst rate ttl scale now : Z) (st : store)
    : result (Z * Z * Z * Z) * store :=
  if (requested <=? 0) || (burst <=? 0) || (rate <=? 0) || (ttl <=? 0) then
    (Fail (Errorf "invalid token bucket arguments" []), st)
  else
    let '(tokens, updated) := match live st k now with
                              | Some b => (b_tokens b, b_updated b)
                              | None => (burst, now)
                              end in
    let elapsed := Z.max 0 (now - updated) in
    let '(tokens, updated) :=
      if 0 <? elapsed then (Z.min burst (tokens + elapsed * rate / 1000), now) else (tokens, updated) in
    let '(tokens, allowed) := if requested <=? tokens then (tokens - requested, 1) else (tokens, 0) in
    let st := <[k := mkBucket tokens updated (now + ttl)]> st in
    let retry := if allowed =? 0 then ceilQuot ((requested - tokens) * 1000) rate else 0 in
    let reset := ceilQuot ((burst - tokens) * 1000) rate in
    (Ok (allowed, tokens / scale, retry, reset), st).

(** ** Results *)

(** An element of the script's answer. *)
Inductive reply : Type :=
| RInt (z : Z)
| RText (s : text)
| ROther.

(** [strconv.ParseInt(s, 10, 64)] *)
Definition ParseInt (s : text) : result Z :=
  let '(negative, ds) := match s with
                         | 45 :: rest => (true, rest)
                         | 43 :: rest => (false, rest)
                         | _ => (false, s)
                         end in
  if bool_decide (ds = []) || negb (forallb isDigit ds) then Fail (Sentinel "strconv.ErrSyntax")
  else let v := if negative : bool then - digitsValue ds else digitsValue ds in
       if (v <? - 2 ^ 63) || (maxInt64 <? v) then Fail (Sentinel "strconv.ErrRange") else Ok v.

Definition int64Value (value : reply) : result Z :=
  match value with
  | RInt v => Ok v
  | RText s => ParseInt s
  | ROther => Fail (Errorf "unsupported value type %T" [])
  end.

Definition parseResult (requested : Z) (values : list reply) : result Result :=
  match values with
  | [v0; v1; v2; v3] =>
      match int64Value v0 with
      | Fail err => Fail (Errorf "parse allowed: %w" [err])
      | Ok allowed =>
          match int64Value v1 with
          | Fail err => Fail (Errorf "parse remaining: %w" [err])
          | Ok remaining =>
              match int64Value v2 with
              | Fail err => Fail (Errorf "parse retry after: %w" [err])
              | Ok retryAfterMillis =>
                  match int64Value v3 with
                  | Fail err => Fail (Errorf "parse reset after: %w" [err])
                  | Ok resetAfterMillis =>
                      Ok (mkResult (allowed =? 1) requested remaining
                            (wrap_i64 (retryAfterMillis * 1000000)) (wrap_i64 (resetAfterMillis * 1000000)))
                  end
              end
          end
      end
  | _ => Fail (Errorf "unexpected redis script result length: %d" [])
  end.

(** ** The limiter *)

(** One evaluation: the context at entry, whether the script ran and what came
    back, the server's time, the context afterwards. *)
Inductive delivery : Type :=
| Delivered
| NotDispatched (cause : error)
| NotApplied (err : error)
| AnswerLost (err : error).

Record attempt : Type := mkAttempt {
  at_ctx : option error;
  at_delivery : delivery;
  at_now : Z;
  at_ctxAfter : option error
}.

Section limiter.
Context (sha256 : text → bytes).

Definition operationError (operation : string) (rawKey : bytes) (err : error) (ctxErr : option error) : error :=
  NewOpError sha256 (mkLabels (lit "rate limiter") (lit operation)) rawKey
    (Some (match ctxErr with Some c => Joined [err; c] | None => err end)).

Definition unknown (err : error) : error :=
  Joined [err; ErrCommitUnknown; Sentinel "redis.ErrCommitUnknown"].

Definition Allow (l : option options) (key : bytes) (tokens : Z) (a : attempt) (st : store)
    : result Result * store :=
  match at_ctx a with
  | Some err => (Fail err, st)
  | None =>
      match l with
      | None => (Fail (Errorf "redis rate limiter is not initialized" []), st)
      | Some o =>
          match normalizeKey o key with
          | Fail err => (Fail err, st)
          | Ok key =>
              if burst o <? tokens then (Fail (Errorf "tokens must not exceed burst" []), st)
              else match tokensToMicros tokens with
              | Fail err => (Fail err, st)
              | Ok requestedMicros =>
                  let k := bucketKey o key in
                  let '(answer, st') := consumeScript k requestedMicros (burstMicros o) (rateMicrosPerSecond o)
                    (ttlMillis o) tokenScale (at_now a) st in
                  match at_delivery a with
                  | NotDispatched cause => (Fail cause, st)
                  | NotApplied err => (Fail (unknown (operationError "consume" k err (at_ctxAfter a))), st)
                  | AnswerLost err => (Fail (unknown (operationError "consume" k err (at_ctxAfter a))), st')
                  | Delivered =>
                      match answer with
                      | Fail err => (Fail (unknown (operationError "consume" k err (at_ctxAfter a))), st')
                      | Ok (v0, v1, v2, v3) =>
                          match parseResult tokens [RInt v0; RInt v1; RInt v2; RInt v3] with
                          | Fail err => (Fail (unknown (operationError "parse-result" k err (at_ctxAfter a))), st')
                          | Ok result => (Ok result, st')
                          end
                      end
                  end
              end
          end
      end
  end.

End limiter.

(** ** Runs *)

Record call_ : Type := mkCall { c_key : bytes; c_tokens : Z; c_attempt : attempt }.

(** The store, the latest time the server has shown, and the time from which a
    bucket that was never stored counts as full. *)
Record sys : Type := mkSys { s_store : store; s_now : Z; s_start : Z }.

(** What a call of the run shows: its answer, the expired bucket that it
    replaced when it created a new one, and whether the server's clock was
    behind an earlier reading. *)
Record label : Type := mkLabel { l_call : call_; l_answer : option Result; l_anew : option bucket; l_back : bool }.

Section runs.
Context (sha256 : text → bytes) (o : options).

(** The bucket of a key as the store has it, expired or not. *)
Definition bucketOf (key : bytes) (s : sys) : bucket :=
  default (mkBucket (burstMicros o) (s_start s) (s_start s)) (s_store s !! bucketKey o key).

(** A call of any process, at any time of the server. *)
Definition redisStep (s : sys) (l : label) (s' : sys) : Prop :=
  let c := l_call l in
  let k := bucketKey o (c_key c) in
  let now := at_now (c_attempt c) in
  let '(r, st') := Allow sha256 (Some o) (c_key c) (c_tokens c) (c_attempt c) (s_store s) in
  s' = mkSys st' (Z.max (s_now s) now) (s_start s) ∧
  l_answer l = (match r with Ok res => Some res | Fail _ => None end) ∧
  l_anew l = (match live (s_store s) k now with
              | None => if decide (st' !! k = s_store s !! k) then None else Some (bucketOf (c_key c) s)
              | Some _ => None
              end) ∧
  l_back l = (now <? s_now s).

(** Thousandths of a micro token granted to the callers of a key. *)
Definition grantedTo (key : bytes) (l : label) : Z :=
  match l_answer l with
  | Some res => if bool_decide (c_key (l_call l) = key) && Allowed res then c_tokens (l_call l) * tokenScale * 1000 else 0
  | None => 0
  end.

(** What the bucket of a key gains when it is created anew: a new bucket is
    full, the expired one would have held its tokens and what the rate adds. *)
Definition regainedBy (key : bytes) (l : label) : Z :=
  match l_anew l with
  | Some old =>
      if bool_decide (c_key (l_call l) = key)
      then Z.max 0 ((burstMicros o - b_tokens old) * 1000 -
                    rateMicrosPerSecond o * (at_now (c_attempt (l_call l)) - b_updated old))
      else 0
  | None => 0
  end.

(** The bucket of the key is created anew. *)
Definition recreates (key : bytes) (l : label) : Z :=
  match l_anew l with Some _ => Z.b2z (bool_decide (c_key (l_call l) = key)) | None => 0 end.

(** What [normalize] guarantees.  The idle time covers a full refill, but the
    script gets it in whole milliseconds, and the rate rounded to micro tokens:
    what is then missing is [shortfall]. *)
Definition wellConfigured : Prop :=
  0 < rateMicrosPerSecond o ∧ burstMicros o = burst o * tokenScale ∧ 0 < burst o.

Definition shortfall : Z := Z.max 0 (burstMicros o * 1000 - rateMicrosPerSecond o * ttlMillis o).

Definition sysInv (s : sys) : Prop :=
  ∀ key b, s_store s !! bucketKey o key = Some b → 0 ≤ b_tokens b ≤ burstMicros o.

(** The buckets when the clock has not run backwards. *)
Definition steadyInv (s : sys) : Prop :=
  (∀ key b, s_store s !! bucketKey o key = Some b → b_updated b ≤ s_now s ∧ b_expires b = b_updated b + ttlMillis o) ∧
  s_start s ≤ s_now s.

Definition redisLevel (key : bytes) (s : sys) : Z := b_tokens (bucketOf key s) * 1000.
Definition redisClock (key : bytes) (s : sys) : Z := b_updated (bucketOf key s).

(** ** Laws *)

Context (Hwf : wellConfigured).

Lemma bucketKey_inj key key' : bucketKey o key = bucketKey o key' → key = key'.
Proof. unfold bucketKey. intros H. do 4 apply app_inv_head in H. done. Qed.

(** What the script does to a bucket, for a request within the burst: it
    refuses its arguments, or it refills the bucket or creates it, and grants
    the request or nothing. *)
Lemma consumeScript_bucket k requested now st answer st' :
  (∀ b, st !! k = Some b → 0 ≤ b_tokens b ≤ burstMicros o) → 0 < requested ≤ burstMicros o →
  consumeScript k requested (burstMicros o) (rateMicrosPerSecond o) (ttlMillis o) tokenScale now st = (answer, st') →
  (st' = st ∧ ∃ err, answer = Fail err) ∨
  ∃ b allowed rest, st' = <[k := b]> st ∧ 0 ≤ b_tokens b ≤ burstMicros o ∧ b_expires b = now + ttlMillis o ∧
    0 < ttlMillis o ∧ answer = Ok (allowed, rest.1.1, rest.1.2, rest.2) ∧ (allowed = 0 ∨ allowed = 1) ∧
    match live st k now with
    | Some old => b_updated b = Z.max (b_updated old) now ∧
        (if allowed =? 1 then requested * 1000 else 0) + b_tokens b * 1000 ≤
          b_tokens old * 1000 + rateMicrosPerSecond o * (b_updated b - b_updated old)
    | None => b_updated b = now ∧ (if allowed =? 1 then requested * 1000 else 0) + b_tokens b * 1000 = burstMicros o * 1000
    end.
Proof.
  destruct Hwf as (Hr & Hb & Hbp). intros Hi Hreq. unfold consumeScript.
  destruct ((requested <=? 0) || (burstMicros o <=? 0) || (rateMicrosPerSecond o <=? 0) || (ttlMillis o <=? 0)) eqn:Hargs.
  { intros [= <- <-]. left. split; [done|]. by eexists. }
  intros Hq. bools. right. revert Hq. destruct (live st k now) as [old|] eqn:Hlive.
  - assert (0 ≤ b_tokens old ≤ burstMicros o) as Hold.
    { apply Hi. unfold live in Hlive. destruct (st !! k) as [b|]; [|done]. destruct (_ <=? _); [done|]. congruence. }
    set (new := if 0 <? Z.max 0 (now - b_updated old) then _ else _) in *.
    assert (Hnew : 0 ≤ new.1 ≤ burstMicros o ∧ new.2 = Z.max (b_updated old) now ∧
      new.1 * 1000 ≤ b_tokens old * 1000 + rateMicrosPerSecond o * (new.2 - b_updated old)).
    { subst new. destruct (Z.ltb_spec 0 (Z.max 0 (now - b_updated old))); cbn [fst snd].
      - pose proof (Z.mul_div_le (Z.max 0 (now - b_updated old) * rateMicrosPerSecond o) 1000 ltac:(lia)).
        pose proof (Z.div_pos (Z.max 0 (now - b_updated old) * rateMicrosPerSecond o) 1000 ltac:(nia) ltac:(lia)).
        split; [lia|]. split; [lia|]. rewrite (Z.max_r 0) in * by lia. nia.
      - split; [lia|]. split; [lia|]. nia. }
    clearbody new. destruct new as [tk up]. cbn [fst snd] in Hnew.
    destruct (Z.leb_spec requested tk) as [Hle|Hgt]; intros [= <- <-].
    + eexists _, 1, (_, _, _). split; [done|]. cbn. split_and!; first [done|lia|by right].
    + eexists _, 0, (_, _, _). split; [done|]. cbn. split_and!; first [done|lia|by left].
  - rewrite Z.sub_diag. change (0 <? Z.max 0 0) with false. cbn iota beta. rewrite (proj2 (Z.leb_le requested (burstMicros o))) by lia. intros [= <- <-].
    eexists _, 1, (_, _, _). split; [done|]. cbn. split_and!; first [done|lia|by right].
Qed.

(** [Allow] either leaves the store alone and grants nothing, or runs the
    script; a result that arrives is that of the script. *)
Lemma redis_Allow_effect key tokens a st r st' :
  Allow sha256 (Some o) key tokens a st = (r, st') →
  (st' = st ∧ ∀ res, r = Ok res → False) ∨
  ∃ answer, 0 < tokens * tokenScale ≤ burstMicros o ∧
    consumeScript (bucketKey o key) (tokens * tokenScale) (burstMicros o) (rateMicrosPerSecond o) (ttlMillis o)
      tokenScale (at_now a) st = (answer, st') ∧
    ∀ res, r = Ok res → ∃ v0 v1 v2 v3, answer = Ok (v0, v1, v2, v3) ∧ Allowed res = (v0 =? 1).
Proof.
  destruct Hwf as (_ & Hb & _). unfold Allow.
  destruct (at_ctx a); [intros [= <- <-]; by left|].
  unfold normalizeKey. case_bool_decide; [intros [= <- <-]; by left|].
  destruct (maxKeyBytes o <? _); [intros [= <- <-]; by left|].
  destruct (Z.ltb_spec (burst o) tokens); [intros [= <- <-]; by left|].
  destruct (tokensToMicros tokens) as [m|] eqn:Hm; [|intros [= <- <-]; by left].
  apply tokensToMicros_Ok in Hm as [-> Hpos].
  destruct (consumeScript _ _ _ _ _ _ _ st) as [answer st1] eqn:Hq.
  assert (0 < tokens * tokenScale ≤ burstMicros o) by (unfold tokenScale in *; lia).
  destruct (at_delivery a); [|intros [= <- <-]; by left|intros [= <- <-]; by left|].
  - intros He. right. exists answer. destruct answer as [[[[v0 v1] v2] v3]|]; cbn in He; injection He as <- <-.
    + split; [done|]. split; [done|]. intros res [= <-]. by eexists _, _, _, _.
    + by split.
  - intros [= <- <-]. right. exists answer. by split.
Qed.

(** A step leaves the bucket of a key as it is, or runs the script on it. *)
Lemma redisStep_bucket s l s' key :
  sysInv s → redisStep s l s' →
  let now := at_now (c_attempt (l_call l)) in
  (bucketOf key s' = bucketOf key s ∧ grantedTo key l = 0 ∧ 0 ≤ regainedBy key l ∧
     s_store s' !! bucketKey o key = s_store s !! bucketKey o key ∧ (l_anew l = None ∨ c_key (l_call l) ≠ key)) ∨
  ∃ b, c_key (l_call l) = key ∧ s_store s' !! bucketKey o key = Some b ∧ 0 ≤ b_tokens b ≤ burstMicros o ∧
    b_expires b = now + ttlMillis o ∧
    match live (s_store s) (bucketKey o key) now with
    | Some old => l_anew l = None ∧ b_updated b = Z.max (b_updated old) now ∧
        grantedTo key l + b_tokens b * 1000 ≤ b_tokens old * 1000 + rateMicrosPerSecond o * (b_updated b - b_updated old)
    | None => l_anew l = Some (bucketOf key s) ∧ b_updated b = now ∧ grantedTo key l + b_tokens b * 1000 ≤ burstMicros o * 1000
    end.
Proof.
  intros Hi Hstep. cbv zeta. unfold redisStep in Hstep. destruct l as [c answer anew back]. cbn [l_call l_answer l_anew l_back] in *.
  assert (0 ≤ regainedBy key (mkLabel c answer anew back)) as Hpos.
  { unfold regainedBy. cbn. destruct anew; [case_bool_decide|]; lia. }
  destruct (Allow _ _ _ _ _ _) as [r st'] eqn:Ha. destruct Hstep as (-> & -> & -> & ->). cbn [s_store].
  apply redis_Allow_effect in Ha as [[-> Hno]|(rep & Hreq & Hq & Hres)].
  { left. split; [done|]. split; [unfold grantedTo; cbn; destruct r as [res|]; [by destruct (Hno res)|done]|]. split; [done|].
    split; [done|]. left. destruct (live _ _ _); [done|]. by rewrite decide_True. }
  apply consumeScript_bucket in Hq as [(-> & err & ->)|(b & al & rest & Hst & Hb & He & Httl & -> & Hal & Hm)];
    [| |intros b; apply Hi|done].
  { left. split; [done|]. split; [unfold grantedTo; cbn; destruct r as [res|]; [|done]; by destruct (Hres res eq_refl) as (?&?&?&?&?&_)|].
    split; [done|]. split; [done|]. left. destruct (live _ _ _); [done|]. by rewrite decide_True. }
  destruct (decide (c_key c = key)) as [<-|Hne].
  - right. exists b. split; [done|]. assert (st' !! bucketKey o (c_key c) = Some b) as Hnew by (rewrite Hst; apply lookup_insert_eq).
    split; [done|]. split; [done|]. split; [done|].
    assert (∀ back' anew', grantedTo (c_key c) (mkLabel c (match r with Ok res => Some res | Fail _ => None end) anew' back') ≤
      (if al =? 1 then c_tokens c * tokenScale * 1000 else 0)) as Hg.
    { intros. unfold grantedTo. cbn [l_answer l_call]. rewrite bool_decide_true by done. cbn [andb].
      destruct r as [res|]; [|destruct (al =? 1); lia].
      destruct (Hres res eq_refl) as (? & ? & ? & ? & [= <- _ _ _] & ->). lia. }
    destruct (live (s_store s) (bucketKey o (c_key c)) (at_now (c_attempt c))) as [old|] eqn:Hl.
    + split; [done|]. destruct Hm as [Hu Hm]. split; [done|]. specialize (Hg (at_now (c_attempt c) <? s_now s) None). lia.
    + rewrite decide_False.
      * split; [done|]. destruct Hm as [Hu Hm]. split; [done|]. eapply Z.le_trans; [apply Z.add_le_mono_r, Hg|]. lia.
      * rewrite Hnew. intros E. unfold live in Hl. rewrite <-E in Hl. rewrite He in Hl.
        destruct (Z.leb_spec (at_now (c_attempt c) + ttlMillis o) (at_now (c_attempt c))); [lia|done].
  - left. assert (st' !! bucketKey o key = s_store s !! bucketKey o key) as Hk.
    { rewrite Hst. apply lookup_insert_ne. intros E%bucketKey_inj. congruence. }
    split; [unfold bucketOf; cbn [s_store s_start]; by rewrite Hk|]. split; [|split; [done|split; [done|by right]]].
    unfold grantedTo. cbn. rewrite bool_decide_false by done. by destruct r.
Qed.

(** The quota interface, for the bucket of any key. *)
#[export] Instance redis_quota key :
  QuotaBound redisStep (grantedTo key) (regainedBy key) sysInv (redisLevel key) (redisClock key)
    (burstMicros o * 1000) (rateMicrosPerSecond o).
Proof.
  destruct Hwf as (Hr & Hb & Hbp). split.
  - intros s l s' Hi Hs k b Hk. destruct (redisStep_bucket s l s' k Hi Hs) as [(_ & _ & _ & E & _)|(b' & _ & E & Hb' & _)].
    + rewrite E in Hk. by eapply Hi.
    + congruence.
  - intros s Hi. unfold redisLevel, bucketOf. destruct (s_store s !! _) as [b|] eqn:E; cbn; [apply Hi in E; lia|].
    unfold tokenScale in *. lia.
  - intros s l s' Hi Hs. unfold redisLevel, redisClock.
    destruct (redisStep_bucket s l s' key Hi Hs) as [(-> & -> & Hp & _)|(b & Hc & E & Hb' & _ & Hm)]; [lia|].
    assert (bucketOf key s' = b) as -> by (unfold bucketOf; by rewrite E).
    destruct (live (s_store s) (bucketKey o key) _) as [old|] eqn:Hl.
    + assert (bucketOf key s = old) as ->.
      { unfold live, bucketOf in *. destruct (s_store s !! bucketKey o key) as [b'|]; [|done]. destruct (_ <=? _); [done|]. by injection Hl. }
      destruct Hm as (Han & Hu & Hm). unfold regainedBy. rewrite Han. lia.
    + destruct Hm as (Han & Hu & Hm). unfold regainedBy. rewrite Han, Hu, bool_decide_true by done. lia.
Qed.

(** A clock that does not run backwards: what a new bucket regains. *)
Lemma steady_step s l s' key :
  sysInv s → steadyInv s → redisStep s l s' → l_back l = false →
  steadyInv s' ∧ regainedBy key l ≤ recreates key l * shortfall.
Proof.
  intros Hi [Hst Hstart] Hs Hback. destruct Hwf as (Hr & _).
  assert (s_now s ≤ at_now (c_attempt (l_call l)) ∧ s_now s' = at_now (c_attempt (l_call l)) ∧ s_start s' = s_start s) as (Hle & Hnow & Hstart').
  { unfold redisStep in Hs. destruct (Allow _ _ _ _ _ _) as [r st']. destruct Hs as (-> & _ & _ & E). rewrite E in Hback.
    apply Z.ltb_ge in Hback. cbn. split_and!; [done|lia|done]. }
  split.
  - split; [|lia]. intros k b Hk.
    destruct (redisStep_bucket s l s' k Hi Hs) as [(_ & _ & _ & E & _)|(b' & _ & E & _ & He & Hm)].
    + rewrite E in Hk. destruct (Hst _ _ Hk). lia.
    + rewrite E in Hk. injection Hk as ->. destruct (live _ _ _) as [old|] eqn:Hl; [|lia].
      unfold live in Hl. destruct (s_store s !! bucketKey o k) as [b'|] eqn:Eb; [|done]. destruct (_ <=? _); [done|].
      injection Hl as ->. destruct (Hst _ _ Eb). lia.
  - unfold regainedBy, recreates. destruct (l_anew l) as [old|] eqn:Han; [|lia]. case_bool_decide as Hk; [|cbn; lia].
    cbn [Z.b2z]. destruct (redisStep_bucket s l s' key Hi Hs) as [(_ & _ & _ & _ & [E|E])|(b' & _ & E & _ & He & Hm)]; [congruence|done|].
    destruct (live _ _ _) as [?|] eqn:Hl; [by destruct Hm; congruence|]. destruct Hm as (Eold & _). rewrite Han in Eold. injection Eold as ->.
    unfold bucketOf, live, shortfall in *. destruct (s_store s !! bucketKey o key) as [b|] eqn:Eb; cbn [default from_option id b_tokens b_updated].
    + destruct (Z.leb_spec (b_expires b) (at_now (c_attempt (l_call l)))) as [Hexp|]; [|done].
      destruct (Hst _ _ Eb) as [_ Ee]. specialize (Hi _ _ Eb). nia.
    + nia.
Qed.

Lemma steady_run s ls s' key :
  sysInv s → steadyInv s → run redisStep s ls s' → Forall (λ l, l_back l = false) ls →
  total (regainedBy key) ls ≤ total (recreates key) ls * shortfall.
Proof.
  intros Hi Hst Hr. unfold total. induction Hr as [s|s l s' ls s'' Hs _ IH]; intros HF; cbn; [lia|].
  inversion HF as [|? ? Hb HF']; subst. destruct (steady_step s l s' key Hi Hst Hs Hb) as [Hst' Hl].
  specialize (IH (quota_inv (QuotaBound := redis_quota key) s l s' Hi Hs) Hst' HF'). lia.
Qed.
End runs.

(** C29. The Redis limiter keeps the quota across processes: whatever calls of
    any number of processes that share the options interleave, with answers
    lost, buckets expiring and a server clock that may run backwards, the
    tokens granted for a key in a window of a run are at most the burst, plus
    the rate times the milliseconds that pass on the bucket's clock, plus what
    is regained when an expired bucket is created anew: what the expired one
    lacked to be full at that time.  When the server's clock does not run
    backwards in the run, each new bucket regains at most [shortfall], and
    that is nothing when the idle time in whole milliseconds covers a full
    refill at the rate in whole micro tokens.  Lua numbers are exact here, and
    Redis removes a bucket only when it expires. *)
Theorem redis_quota_window sha256 o key s ls s' :
  wellConfigured o → sysInv o s → run (redisStep sha256 o) s ls s' →
  total (grantedTo key) ls ≤
    burst o * tokenScale * 1000 + rateMicrosPerSecond o * (redisClock o key s' - redisClock o key s) +
    total (regainedBy o key) ls ∧
  (steadyInv o s → Forall (λ l, l_back l = false) ls →
     total (regainedBy o key) ls ≤ total (recreates key) ls * shortfall o) ∧
  (burstMicros o * 1000 ≤ rateMicrosPerSecond o * ttlMillis o → shortfall o = 0).
Proof.
  intros Hwf Hi Hr. pose proof (redis_quota sha256 o Hwf key) as Hq. split_and!.
  - pose proof (quota_window _ _ _ _ _ _ _ _ s ls s' Hi Hr) as Hw. destruct Hwf as (_ & <- & _). exact Hw.
  - intros Hst HF. by eapply steady_run.
  - unfold shortfall. lia.
Qed.

(** ** Polling a slow bucket *)

Definition poll (now : Z) : attempt := mkAttempt None Delivered now None.

(** The store after polling every millisecond, [n] times after [now]. *)
Fixpoint polled (sha256 : text → bytes) (o : options) (key : bytes) (tokens now : Z) (n : nat) (st : store) : store :=
  match n with
  | O => st
  | S n' => (Allow sha256 (Some o) key tokens (poll (now + Z.of_nat n)) (polled sha256 o key tokens now n' st)).2
  end.

Section polling.
Context (sha256 : text → bytes) (o : options) (key : bytes) (tokens : Z).
Hypothesis Hkey : normalizeKey o key = Ok key.
Hypothesis Htokens : 0 < tokens ≤ burst o.
Hypothesis Hburst : burstMicros o = burst o * tokenScale ∧ burst o ≤ maxInt64 / tokenScale.
Hypothesis Hslow : 0 < rateMicrosPerSecond o < 1000.
Hypothesis Httl : 1 < ttlMillis o.

(** One poll a millisecond after the last call: denied, and the refill of
    that millisecond is lost. *)
Lemma poll_denied now b st :
  st !! bucketKey o key = Some b → b_updated b = now → b_expires b = now + ttlMillis o →
  0 ≤ b_tokens b < tokens * tokenScale →
  ∃ r, Allow sha256 (Some o) key tokens (poll (now + 1)) st =
    (Ok r, <[bucketKey o key := mkBucket (b_tokens b) (now + 1) (now + 1 + ttlMillis o)]> st) ∧ Allowed r = false.
Proof.
  intros Hst Hu He Hb. destruct Hburst as [Hbm Hmax]. unfold Allow. cbn [at_ctx poll]. rewrite Hkey.
  rewrite (proj2 (Z.ltb_ge _ _)) by lia.
  assert (Hm : tokensToMicros tokens = Ok (tokens * tokenScale)).
  { unfold tokensToMicros. rewrite (proj2 (Z.leb_gt _ _)), (proj2 (Z.ltb_ge _ _)) by lia.
    f_equal. apply wrap_i64_id. unfold in_i64, tokenScale, maxInt64 in *. Z.div_mod_to_equations. lia. }
  rewrite Hm. cbn [at_now poll at_delivery]. unfold consumeScript, tokenScale in *.
  rewrite !(proj2 (Z.leb_gt _ _)) by lia. cbn [orb]. unfold live. rewrite Hst.
  rewrite (proj2 (Z.leb_gt _ _)) by lia. rewrite Hu.
  replace (Z.max 0 (now + 1 - now)) with 1 by lia. cbn [Z.ltb Z.compare].
  rewrite Z.mul_1_l, Z.div_small, Z.add_0_r by lia. rewrite Z.min_r by lia.
  rewrite (proj2 (Z.leb_gt _ _)) by lia. cbn. eexists. split; reflexivity.
Qed.

Lemma polled_bucket now b st n :
  st !! bucketKey o key = Some b → b_updated b = now → b_expires b = now + ttlMillis o →
  0 ≤ b_tokens b < tokens * tokenScale →
  ∃ b', polled sha256 o key tokens now n st !! bucketKey o key = Some b' ∧
    b_tokens b' = b_tokens b ∧ b_updated b' = now + Z.of_nat n ∧ b_expires b' = now + Z.of_nat n + ttlMillis o.
Proof.
  intros Hst Hu He Hb. induction n as [|n (b' & Hb' & Ht & Hu' & He')]; cbn [polled].
  - exists b. rewrite !Z.add_0_r. by split_and!.
  - destruct (poll_denied (now + Z.of_nat n) b' (polled sha256 o key tokens now n st)) as (r & Hr & _); [done..|lia|].
    replace (now + Z.of_nat (S n)) with (now + Z.of_nat n + 1) by lia. rewrite Hr. cbn [snd].
    rewrite lookup_insert_eq. eexists. split; [done|]. cbn. lia.
Qed.
End polling.

(** A truncated refill can starve a caller for ever.  With a rate below a
    thousandth of a token per second, a caller that polls an insufficient
    bucket every millisecond is denied at every poll, however long it goes on:
    each call rounds the refill since the previous one down to nothing and
    still moves the bucket's clock. *)
Theorem redis_polling_starves sha256 o key tokens now b st :
  normalizeKey o key = Ok key → 0 < tokens ≤ burst o →
  burstMicros o = burst o * tokenScale ∧ burst o ≤ maxInt64 / tokenScale →
  0 < rateMicrosPerSecond o < 1000 → 1 < ttlMillis o →
  st !! bucketKey o key = Some b → b_updated b = now → b_expires b = now + ttlMillis o →
  0 ≤ b_tokens b < tokens * tokenScale →
  ∀ n, ∃ r, (Allow sha256 (Some o) key tokens (poll (now + Z.of_nat n + 1)) (polled sha256 o key tokens now n st)).1
    = Ok r ∧ Allowed r = false.
Proof.
  intros Hk Ht Hb Hs Httl Hst Hu He Hbt n.
  destruct (polled_bucket sha256 o key tokens Hk Ht Hb Hs Httl now b st n Hst Hu He Hbt) as (b' & H1 & H2 & H3 & H4).
  destruct (poll_denied sha256 o key tokens Hk Ht Hb Hs Httl (now + Z.of_nat n) b' _ H1 H3 H4) as (r & Hr & Hd); [lia|].
  exists r. by rewrite Hr.
Qed.

(** One token every two thousand seconds. *)
Definition slowOptions : options := mkOptions (lit "ns") 500 1 1000000 4000000000000 512.

Lemma redis_polling_starves_witness :
  ∃ r, (Allow (λ t, t) (Some slowOptions) (lit "k") 1 (poll (7 + Z.of_nat 1000 + 1))
    (polled (λ t, t) slowOptions (lit "k") 1 7 1000 {[ bucketKey slowOptions (lit "k") := mkBucket 0 7 4000007 ]})).1
    = Ok r ∧ Allowed r = false.
Proof.
  apply (redis_polling_starves (λ t, t) slowOptions (lit "k") 1 7 (mkBucket 0 7 4000007) _) with (n := 1000%nat).
  - vm_compute. reflexivity.
  - cbn. lia.
  - split; [reflexivity|vm_compute; discriminate].
  - cbn. lia.
  - vm_compute. reflexivity.
  - apply lookup_singleton_eq.
  - reflexivity.
  - reflexivity.
  - unfold tokenScale. cbn. lia.
Defined.

(** One token, refilled in 1.9 milliseconds, and an idle time of 1.9 milliseconds,
    which [normalize] accepts and the script gets as one millisecond. *)
Definition shortOptions : options := mkOptions (lit "ns") 526315789 1 1000000 1900000 512.

Definition shortGrant (now : Z) (anew : bucket) : label :=
  mkLabel (mkCall (lit "k") 1 (poll now)) (Some (mkResult true 1 0 0 2000000)) (Some anew) false.

Definition shortLabels : list label := [shortGrant 0 (mkBucket 1000000 0 0); shortGrant 1 (mkBucket 0 0 1)].

Definition shortKey : bytes := bucketKey shortOptions (lit "k").

Lemma short_run :
  run (redisStep (λ t, t) shortOptions) (mkSys ∅ 0 0) shortLabels (mkSys {[shortKey := mkBucket 0 1 2]} 1 0).
Proof.
  apply (run_cons _ _ _ (mkSys {[shortKey := mkBucket 0 0 1]} 0 0)); [vm_compute; repeat split|].
  apply (run_cons _ _ _ (mkSys {[shortKey := mkBucket 0 1 2]} 1 0)); [vm_compute; repeat split|]. apply run_nil.
Qed.

(** A truncated idle time hands out tokens early: this bucket grants a token in
    every millisecond, although it refills one in 1.9 milliseconds. *)
Theorem truncated_ttl_grants_early :
  run (redisStep (λ t, t) shortOptions) (mkSys ∅ 0 0) shortLabels (mkSys {[shortKey := mkBucket 0 1 2]} 1 0) ∧
  total (grantedTo (lit "k")) shortLabels = 2 * tokenScale * 1000 ∧
  shortfall shortOptions = 473684211.
Proof. split; [exact short_run|]. split; vm_compute; reflexivity. Qed.

Lemma redis_quota_window_witness :
  total (grantedTo (lit "k")) shortLabels = 2 * tokenScale * 1000 ∧
  total (grantedTo (lit "k")) shortLabels ≤
    1 * tokenScale * 1000 + 526315789 *
      (redisClock shortOptions (lit "k") (mkSys {[shortKey := mkBucket 0 1 2]} 1 0) -
       redisClock shortOptions (lit "k") (mkSys ∅ 0 0)) + 473684211.
Proof.
  split; [vm_compute; reflexivity|].
  assert (wellConfigured shortOptions) as Hwf by (split_and!; vm_compute; reflexivity).
  destruct (redis_quota_window (λ t, t) shortOptions (lit "k") (mkSys ∅ 0 0) shortLabels
    (mkSys {[shortKey := mkBucket 0 1 2]} 1 0) Hwf) as (H & _ & _).
  - intros key b Hb. discriminate Hb.
  - exact short_run.
  - replace 473684211 with (total (regainedBy shortOptions (lit "k")) shortLabels) by (vm_compute; reflexivity). exact H.
Defined.

(** Buckets of different namespaces can share a Redis key. *)
Lemma bucket_keys_collide :
  bucketKey (mkOptions (lit "a") 1 1 1 1 512) (lit "x:bucket:y") =
  bucketKey (mkOptions (lit "a:bucket:x") 1 1 1 1 512) (lit "y").
Proof. reflexivity. Qed.

(** An idle time below a millisecond passes [normalize] when it covers the
    refill, and the script then refuses every call. *)
Lemma short_ttl_refused sha256 key tokens now st :
  let o := mkOptions (lit "ns") 10000000000 1 1000000 500000 512 in
  ∀ r, (Allow sha256 (Some o) key tokens (poll now) st).1 = Ok r → False.
Proof.
  intros o r. unfold Allow. cbn [at_ctx poll]. destruct (normalizeKey o key); [|done].
  destruct (_ <? _); [done|]. destruct (tokensToMicros tokens) as [m|]; [|done].
  unfold consumeScript. change (ttlMillis o <=? 0) with true. by rewrite !orb_true_r.
Qed.
