(* ===== verification/Outbox.v ===== *)
(** * audit/sqloutbox: the outbox store and the relay

    Models [src/audit/sqloutbox/store.go] and [relay.go].  The statements are
    functions on the outbox table; one statement is one atomic step.  A relay
    is a state machine ([relayStep]) whose steps are the statements and the
    publications of [RunOnce], so that any number of relays interleave between
    them.  Times are nanoseconds, the zero time is 0.

    Marshalling and unmarshalling of entries, the text form that PostgreSQL
    gives a jsonb value, and the text of an error are parameters.  PostgreSQL
    refuses text that is not valid UTF-8. *)

From S2P Require Import Prelude GoError GoText Core GoEncoding AuditRepo.

Local Open Scope Z_scope.

Definition ErrInvalidArgument : error := Sentinel "sqloutbox.ErrInvalidArgument".
Definition ErrInvalidRecord : error := Sentinel "sqloutbox.ErrInvalidRecord".
Definition ErrRecordNotFound : error := Sentinel "sqloutbox.ErrRecordNotFound".
Definition invalidArgument (format : string) : error := Errorf format [ErrInvalidArgument].

Definition defaultMaxEntryBytes : Z := Z.shiftl 1 20.
Definition defaultMaxErrorBytes : Z := 2048.
Definition defaultLeaseDuration : Z := 30 * 1000000000.
Definition defaultClaimLimit : Z := 10.
Definition defaultMaxAttempts : Z := 3.
Definition defaultRetryDelay : Z := 1000000000.
Definition defaultIdleDelay : Z := 100 * 1000000.

(** ** The table *)

Inductive Status : Type :=
| StatusPending
| StatusClaimed
| StatusPublished
| StatusDeadLetter.

#[export] Instance Status_eq_dec : EqDecision Status.
Proof. solve_decision. Defined.

Record row : Type := mkRow {
  o_status : Status;
  o_aggregate : AggregateID;
  o_revision : Z;
  o_event : text;
  o_key : text;
  o_type : text;
  o_occurred : Z;
  o_recorded : Z;
  o_schema : Z;
  o_json : bytes;
  o_attempts : Z;
  o_available : Z;
  o_claimedAt : option Z;
  o_publishedAt : option Z;
  o_deadLetteredAt : option Z;
  o_lastError : bytes;
  o_created : Z;
  o_updated : Z
}.

(** The rows by id, and the next value of the id sequence. *)
Record outbox : Type := mkOutbox { rows : gmap Z row; nextID : Z }.

Record Record_ : Type := mkRecord {
  ID : Z;
  Status_ : Status;
  rec_Aggregate : AggregateID;
  rec_Revision : Z;
  rec_EventID : text;
  rec_IdempotencyKey : text;
  rec_EventType : text;
  rec_OccurredAt : Z;
  rec_RecordedAt : Z;
  rec_SchemaVersion : Z;
  Attempts : Z;
  rec_Entry : Entry
}.

(** [status in ($1, $2)] *)
Definition open_ (s : Status) : bool :=
  match s with StatusPending | StatusClaimed => true | _ => false end.

(** The subquery [earlier]: an open row of the same aggregate with a lower
    revision. *)
Definition hasEarlier (t : outbox) (r : row) : bool :=
  existsb (λ e : Z * row, bool_decide (o_aggregate e.2 = o_aggregate r) && (o_revision e.2 <? o_revision r) &&
                 open_ (o_status e.2)) (map_to_list (rows t)).

Definition candidate (t : outbox) (now : Z) (id : Z) : bool :=
  match rows t !! id with
  | Some r => open_ (o_status r) && (o_available r <=? now) && negb (hasEarlier t r)
  | None => false
  end.

(** The update of a claimed row. *)
Definition claimRow (now leaseUntil : Z) (r : row) : row :=
  mkRow StatusClaimed (o_aggregate r) (o_revision r) (o_event r) (o_key r) (o_type r) (o_occurred r)
    (o_recorded r) (o_schema r) (o_json r) (o_attempts r + 1) leaseUntil (Some now) (o_publishedAt r)
    (o_deadLetteredAt r) [] (o_created r) now.

(** The claim statement: [unlocked] are the ids that no other transaction has
    locked, in the order of the query. *)
Definition claimQuery (limit now leaseUntil : Z) (unlocked : list Z) (t : outbox) : list (Z * row) * outbox :=
  let candidates := take (Z.to_nat limit) (filter (candidate t now) (remove_dups unlocked)) in
  let claimed := omap (λ id, (λ r, (id, claimRow now leaseUntil r)) <$> rows t !! id) candidates in
  (claimed, mkOutbox (foldr (λ p m, <[p.1 := p.2]> m) (rows t) claimed) (nextID t)).

(** [update ... where status = 'claimed' and id = $ and attempts = $]: the
    number of rows and the table. *)
Definition updateClaimed (id attempts : Z) (f : row → row) (t : outbox) : Z * outbox :=
  match rows t !! id with
  | Some r =>
      if bool_decide (o_status r = StatusClaimed) && (o_attempts r =? attempts) then
        (1, mkOutbox (<[id := f r]> (rows t)) (nextID t))
      else (0, t)
  | None => (0, t)
  end.

Definition publishRow (now : Z) (r : row) : row :=
  mkRow StatusPublished (o_aggregate r) (o_revision r) (o_event r) (o_key r) (o_type r) (o_occurred r)
    (o_recorded r) (o_schema r) (o_json r) (o_attempts r) (o_available r) (o_claimedAt r) (Some now)
    (o_deadLetteredAt r) (o_lastError r) (o_created r) now.

Definition failRow (maxAttempts retryAt now : Z) (lastError : bytes) (r : row) : row :=
  let dead := maxAttempts <=? o_attempts r in
  mkRow (if dead then StatusDeadLetter else StatusPending) (o_aggregate r) (o_revision r) (o_event r) (o_key r)
    (o_type r) (o_occurred r) (o_recorded r) (o_schema r) (o_json r) (o_attempts r)
    (if dead then o_available r else retryAt) (o_claimedAt r) (o_publishedAt r)
    (if dead then Some now else None) lastError (o_created r) now.

(** [requireRows(result, 1)] *)
Definition requireRows (n : Z) : option error :=
  if negb (n =? 1) then Some (Errorf "%w: updated %d of %d rows" [ErrRecordNotFound]) else None.

(** ** The store *)

Record Store : Type := mkStore { maxEntryBytes : Z; maxErrorBytes : Z }.

(** What happens to a statement: it runs and answers, it fails without effect,
    or it runs and the answer is lost. *)
Inductive delivery : Type :=
| Delivered
| NotApplied (err : error)
| AnswerLost (err : error).

Section store.
Context (json_Valid : AuditRepo.bytes → bool).
Context (Marshal : Entry → result bytes) (Unmarshal : bytes → result Entry) (jsonb : bytes → bytes).

(** The insert of one entry; event ids and idempotency keys are unique, and
    the driver refuses a revision above the range of bigint. *)
Definition insertRow (now : Z) (e : Entry) (encoded : bytes) (t : outbox) : result outbox :=
  if maxInt64 <? en_Revision e then Fail (Errorf "uint64 values with high bit set are not supported" [])
  else if existsb (λ p : Z * row, bool_decide (o_event p.2 = EventID (Event e)) ||
                         bool_decide (o_key p.2 = IdempotencyKey (Event e))) (map_to_list (rows t)) then
    Fail (Sentinel "pgconn.unique_violation")
  else Ok (mkOutbox
    (<[nextID t := mkRow StatusPending (Aggregate e) (en_Revision e) (EventID (Event e)) (IdempotencyKey (Event e))
        (EventType (Event e)) (OccurredAt (Event e)) (RecordedAt (Event e)) (en_SchemaVersion e) (jsonb encoded) 0
        (RecordedAt (Event e)) None None None [] now now]> (rows t)) (nextID t + 1)).

(** The loop of [Enqueue]; [errs] are the errors that the database answers
    with, statement by statement. *)
Fixpoint enqueueLoop (s : Store) (now : Z) (entries : list Entry) (errs : nat → option error) (i : nat) (t : outbox)
    : option error * outbox :=
  match entries with
  | [] => (None, t)
  | e :: rest =>
      match Entry_Validate json_Valid e with
      | Some err => (Some err, t)
      | None =>
          match Marshal e with
          | Fail err => (Some err, t)
          | Ok encoded =>
              if maxEntryBytes s <? Z.of_nat (length encoded) then
                (Some (Errorf "%w: entry_json exceeds %d bytes" [ErrInvalidRecord]), t)
              else match errs i with
              | Some err => (Some err, t)
              | None =>
                  match insertRow now e encoded t with
                  | Fail err => (Some err, t)
                  | Ok t => enqueueLoop s now rest errs (S i) t
                  end
              end
          end
      end
  end.

(** [Store.Enqueue]; a nil store or session is [None]. *)
Definition Enqueue (s : option Store) (now : Z) (entries : list Entry) (errs : nat → option error) (t : outbox)
    : option error * outbox :=
  match s with
  | None => (Some (invalidArgument "%w: store must not be nil"), t)
  | Some s => enqueueLoop s now entries errs 0 t
  end.

Definition decodeEntry (s : Store) (data : bytes) : result Entry :=
  match data with
  | [] => Fail (Errorf "%w: empty entry_json" [ErrInvalidRecord])
  | _ =>
      if maxEntryBytes s <? Z.of_nat (length data) then
        Fail (Errorf "%w: entry_json exceeds %d bytes" [ErrInvalidRecord])
      else Unmarshal data
  end.

(** One row of [scanRecords]. *)
Definition scanRecord (s : Store) (p : Z * row) : result Record_ :=
  let r := p.2 in
  if o_revision r <=? 0 then Fail (Errorf "%w: revision must be positive" [ErrInvalidRecord])
  else match NewAggregateID (agg_Type (o_aggregate r)) (agg_ID (o_aggregate r)) with
  | Fail err => Fail err
  | Ok aggregate =>
      match decodeEntry s (o_json r) with
      | Fail err => Fail err
      | Ok entry =>
          Ok (mkRecord p.1 (o_status r) aggregate (o_revision r) (o_event r) (o_key r) (o_type r) (o_occurred r)
                (o_recorded r) (o_schema r) (o_attempts r) entry)
      end
  end.

Fixpoint scanRecords (s : Store) (rs : list (Z * row)) (records : list Record_) : result (list Record_) :=
  match rs with
  | [] => Ok records
  | p :: rest =>
      match scanRecord s p with
      | Fail err => Fail err
      | Ok record => scanRecords s rest (records ++ [record])
      end
  end.

Record ClaimOptions : Type := mkClaimOptions { Limit : Z; co_Now : Z; LeaseDuration : Z }.

(** [Store.Claim] *)
Definition Claim (s : option Store) (o : ClaimOptions) (storeNow : Z) (unlocked : list Z) (d : delivery) (t : outbox)
    : result (list Record_) * outbox :=
  match s with
  | None => (Fail (invalidArgument "%w: store must not be nil"), t)
  | Some s =>
      if Limit o <=? 0 then (Fail (invalidArgument "%w: claim limit must be positive"), t)
      else
        let leaseDuration := if LeaseDuration o =? 0 then defaultLeaseDuration else LeaseDuration o in
        if leaseDuration <? 0 then (Fail (invalidArgument "%w: lease duration must not be negative"), t)
        else
          let now := if Time_IsZero (co_Now o) then storeNow else co_Now o in
          let '(claimed, t') := claimQuery (Limit o) now (now + leaseDuration) unlocked t in
          match d with
          | NotApplied err => (Fail err, t)
          | AnswerLost err => (Fail err, t')
          | Delivered => (scanRecords s claimed [], t')
          end
  end.

(** [Store.MarkPublished] for one record. *)
Definition MarkPublished (s : option Store) (record : Record_) (now : Z) (d : delivery) (t : outbox)
    : option error * outbox :=
  match s with
  | None => (Some (invalidArgument "%w: store must not be nil"), t)
  | Some _ =>
      if ID record <=? 0 then (Some (invalidArgument "%w: record id must be positive"), t)
      else if Attempts record <=? 0 then (Some (invalidArgument "%w: claim attempt must be positive"), t)
      else
        let '(n, t') := updateClaimed (ID record) (Attempts record) (publishRow now) t in
        match d with
        | NotApplied err => (Some err, t)
        | AnswerLost err => (Some err, t')
        | Delivered => (requireRows n, t')
        end
  end.

Record Failure : Type := mkFailure {
  f_ID : Z;
  f_Attempt : Z;
  f_Err : bytes;
  f_RetryAt : Z;
  f_MaxAttempts : Z;
  f_Now : Z
}.

(** [sanitizeFailure] on the text of the error without white space around it:
    it cuts bytes. *)
Definition sanitizeFailure (s : Store) (message : bytes) : bytes :=
  if maxErrorBytes s <? Z.of_nat (length message) then take (Z.to_nat (maxErrorBytes s)) message else message.

(** [Store.MarkFailed] *)
Definition MarkFailed (s : option Store) (f : Failure) (storeNow : Z) (d : delivery) (t : outbox)
    : option error * outbox :=
  match s with
  | None => (Some (invalidArgument "%w: store must not be nil"), t)
  | Some s =>
      if f_ID f <=? 0 then (Some (invalidArgument "%w: record id must be positive"), t)
      else if f_Attempt f <=? 0 then (Some (invalidArgument "%w: claim attempt must be positive"), t)
      else if f_MaxAttempts f <=? 0 then (Some (invalidArgument "%w: max attempts must be positive"), t)
      else
        let now := if Time_IsZero (f_Now f) then storeNow else f_Now f in
        let retryAt := if Time_IsZero (f_RetryAt f) then now else f_RetryAt f in
        let lastError := sanitizeFailure s (f_Err f) in
        if negb (ValidString lastError) then
          (Some (Sentinel "pgconn.invalid_byte_sequence"), t)
        else
          let '(n, t') := updateClaimed (f_ID f) (f_Attempt f) (failRow (f_MaxAttempts f) retryAt now lastError) t in
          match d with
          | NotApplied err => (Some err, t)
          | AnswerLost err => (Some err, t')
          | Delivered => (requireRows n, t')
          end
  end.
End store.

(** ** The relay *)

Record Relay : Type := mkRelay { r_store : Store; claimLimit : Z; maxAttempt : Z; retryDelay : Z }.

Record RelayResult : Type := mkResult { Claimed : Z; Published : Z; Failed : Z; DeadLettered : Z }.

Record RelayOptions : Type := mkRelayOptions { ro_ClaimLimit : Z; ro_MaxAttempts : Z; ro_RetryDelay : Z; ro_IdleDelay : Z }.

(** [NewRelay]; the delay between idle rounds is checked and not kept. *)
Definition NewRelay (store : option Store) (publisher : bool) (o : RelayOptions) : result Relay :=
  match store with
  | None => Fail (invalidArgument "%w: store must not be nil")
  | Some store =>
      if negb publisher then Fail (invalidArgument "%w: publisher must not be nil")
      else
        let claimLimit := if ro_ClaimLimit o =? 0 then defaultClaimLimit else ro_ClaimLimit o in
        if claimLimit <? 0 then Fail (invalidArgument "%w: claim limit must be positive")
        else
          let maxAttempts := if ro_MaxAttempts o =? 0 then defaultMaxAttempts else ro_MaxAttempts o in
          if maxAttempts <? 0 then Fail (invalidArgument "%w: max attempts must be positive")
          else
            let retryDelay := if ro_RetryDelay o =? 0 then defaultRetryDelay else ro_RetryDelay o in
            if retryDelay <? 0 then Fail (invalidArgument "%w: retry delay must not be negative")
            else
              let idleDelay := if ro_IdleDelay o =? 0 then defaultIdleDelay else ro_IdleDelay o in
              if idleDelay <? 0 then Fail (invalidArgument "%w: idle delay must not be negative")
              else Ok (mkRelay store claimLimit maxAttempts retryDelay)
  end.

(** Where a relay stands in [RunOnce] and [Run]. *)
Inductive phase : Type :=
| Idle
| Working (now : Z) (todo : list Record_) (res : RelayResult)
| MarkingPublished (now : Z) (record : Record_) (todo : list Record_) (res : RelayResult)
| MarkingFailed (now : Z) (record : Record_) (message : bytes) (todo : list Record_) (res : RelayResult)
| Stopped (res : RelayResult) (err : error).

(** What the environment answers at a step: the claim of a batch, the context
    before a record, the publisher ([AAborted] is an error of it that matches the
    one of the context), or a mark. *)
Inductive answer : Type :=
| AClaim (now : Z) (unlocked : list Z) (d : delivery)
| ACancelled (err : error)
| AAborted (err : error)
| APublished
| AFailed (message : bytes)
| AMark (storeNow : Z) (d : delivery)
| ANone.

Section relay.
Context (Unmarshal : bytes → result Entry).

(** One step of a relay: its phase, the table, and the record that it has handed
    to the publisher, if any, with whether the publisher took it.  An idle relay
    claims; a stopped one is started again. *)
Definition relayStep (r : Relay) (ph : phase) (a : answer) (t : outbox) : option (phase * outbox * option (Record_ * bool)) :=
  match ph, a with
  | Idle, AClaim now unlocked d =>
      match Claim Unmarshal (Some (r_store r)) (mkClaimOptions (claimLimit r) now 0) now unlocked d t with
      | (Fail err, t') => Some (Stopped (mkResult 0 0 0 0) err, t', None)
      | (Ok records, t') => Some (Working now records (mkResult (Z.of_nat (length records)) 0 0 0), t', None)
      end
  | Working _ [] _, ANone => Some (Idle, t, None)
  | Working _ (_ :: _) res, ACancelled err => Some (Stopped res err, t, None)
  | Working now (record :: todo) res, APublished =>
      Some (MarkingPublished now record todo res, t, Some (record, true))
  | Working now (record :: todo) res, AFailed message =>
      Some (MarkingFailed now record message todo res, t, Some (record, false))
  | Working _ (record :: _) res, AAborted err => Some (Stopped res err, t, Some (record, false))
  | MarkingPublished now record todo res, AMark storeNow d =>
      match MarkPublished (Some (r_store r)) record storeNow d t with
      | (Some err, t') => Some (Stopped res err, t', None)
      | (None, t') => Some (Working now todo (mkResult (Claimed res) (Published res + 1) (Failed res) (DeadLettered res)), t', None)
      end
  | MarkingFailed now record message todo res, AMark storeNow d =>
      match MarkFailed (Some (r_store r))
              (mkFailure (ID record) (Attempts record) message (now + retryDelay r) (maxAttempt r) now) storeNow d t with
      | (Some err, t') => Some (Stopped res err, t', None)
      | (None, t') =>
          let deadLetter := maxAttempt r <=? Attempts record in
          Some (Working now todo
            (if deadLetter then mkResult (Claimed res) (Published res) (Failed res) (DeadLettered res + 1)
             else mkResult (Claimed res) (Published res) (Failed res + 1) (DeadLettered res)), t', None)
      end
  | Stopped _ _, ANone => Some (Idle, t, None)
  | _, _ => None
  end.
End relay.
