(* ===== verification/OutboxLaws.v ===== *)
(** * audit/sqloutbox: laws of the outbox

    Any number of producers and relays work on one table, statement by
    statement.  [evolves] is what every statement does to the table; the
    invariant of the whole system follows from it once. *)

From S2P Require Import Prelude GoError GoText Core GoEncoding AuditRepo Outbox.

Local Open Scope Z_scope.

(** ** Statements *)

(** [lower a b]: an earlier event of the same aggregate. *)
Definition lower (a b : row) : Prop := o_aggregate a = o_aggregate b ∧ o_revision a < o_revision b.

(** What a statement can do: rows stay, attempts grow, finished rows do not
    change, a row whose attempts grow had no open predecessor, a row becomes
    published only if [P] allows it, and new rows are pending. *)
Record evolves (P : Z → Prop) (t t' : outbox) : Prop := {
  ev_keep : ∀ id r, rows t !! id = Some r → ∃ r', rows t' !! id = Some r' ∧
    o_aggregate r' = o_aggregate r ∧ o_revision r' = o_revision r ∧ o_attempts r ≤ o_attempts r' ∧
    (open_ (o_status r) = false → r' = r) ∧
    (o_attempts r < o_attempts r' → hasEarlier t r = false) ∧
    (o_status r' = StatusPublished → o_status r = StatusPublished ∨ P id);
  ev_new : ∀ id r', rows t' !! id = Some r' → rows t !! id = None →
    nextID t ≤ id < nextID t' ∧ o_status r' = StatusPending ∧ o_attempts r' = 0;
  ev_next : nextID t ≤ nextID t'
}.

Lemma evolves_refl P t : evolves P t t.
Proof.
  split; [|congruence|lia]. intros id r Hr. exists r. split; [done|]. split_and!; try done; [lia|auto].
Qed.

Lemma hasEarlier_false t r : hasEarlier t r = false ↔ ∀ id e, rows t !! id = Some e → lower e r → open_ (o_status e) = false.
Proof.
  unfold hasEarlier, lower. rewrite <-not_true_iff_false, existsb_exists. split.
  - intros Hn id e He [Ha Hl]. destruct (open_ (o_status e)) eqn:Ho; [|done]. exfalso. apply Hn.
    exists (id, e). split; [by apply list_elem_of_In, elem_of_map_to_list|]. cbn.
    rewrite Ho, bool_decide_true by done. rewrite (proj2 (Z.ltb_lt _ _)) by done. done.
  - intros H ([id e] & Hin%list_elem_of_In%elem_of_map_to_list & Hb). cbn in Hb.
    apply andb_true_iff in Hb as [[Ha%bool_decide_eq_true Hl%Z.ltb_lt]%andb_true_iff Ho].
    rewrite (H id e) in Ho; done.
Qed.

Lemma claim_lookup t now lease cs id :
  NoDup cs →
  foldr (λ p m, <[p.1 := p.2]> m) (rows t)
    (omap (λ id, (λ r, (id, claimRow now lease r)) <$> rows t !! id) cs) !! id =
  if decide (id ∈ cs) then claimRow now lease <$> rows t !! id else rows t !! id.
Proof.
  intros Hnd. induction Hnd as [|c cs Hc Hnd IH]; [by rewrite decide_False by set_solver|]. cbn [omap list_omap].
  destruct (rows t !! c) as [r|] eqn:Hr; cbn [fmap option_fmap option_map foldr fst snd].
  - destruct (decide (c = id)) as [->|Hne].
    + rewrite lookup_insert_eq, decide_True by set_solver. by rewrite Hr.
    + rewrite lookup_insert_ne by done. rewrite IH.
      destruct (decide (id ∈ cs)); [rewrite decide_True by set_solver|rewrite decide_False by set_solver]; done.
  - rewrite IH. destruct (decide (c = id)) as [->|Hne].
    + rewrite decide_False by done. rewrite decide_True by set_solver. by rewrite Hr.
    + destruct (decide (id ∈ cs)); [rewrite decide_True by set_solver|rewrite decide_False by set_solver]; done.
Qed.

Lemma claimQuery_evolves limit now lease unlocked t claimed t' :
  claimQuery limit now lease unlocked t = (claimed, t') →
  evolves (λ _, False) t t' ∧
  ∀ p, p ∈ claimed → rows t' !! p.1 = Some p.2 ∧ ∃ r, rows t !! p.1 = Some r ∧ p.2 = claimRow now lease r.
Proof.
  unfold claimQuery. set (cs := take _ _). intros [= <- <-].
  assert (Hcs : ∀ id, id ∈ cs → candidate t now id = true).
  { intros id Hid. subst cs. apply elem_of_take in Hid as (i & Hid & _).
    apply list_elem_of_lookup_2, list_elem_of_filter in Hid as [Hid _]. by apply Is_true_true. }
  assert (Hnd : NoDup cs).
  { subst cs. eapply sublist_NoDup; [|apply sublist_take].
    eapply sublist_NoDup; [apply NoDup_remove_dups|apply sublist_filter]. }
  clearbody cs. split; [split; cbn [rows nextID]|]; [| |lia|].
  - intros id r Hr. rewrite claim_lookup by done. destruct (decide (id ∈ cs)) as [Hin|]; rewrite Hr.
    + specialize (Hcs id Hin). unfold candidate in Hcs. rewrite Hr in Hcs.
      apply andb_true_iff in Hcs as [[Ho _]%andb_true_iff He%negb_true_iff].
      eexists. split; [done|]. cbn. split_and!; try done; [lia|]. by rewrite Ho.
    + exists r. split; [done|]. split_and!; try done; [lia|auto].
  - intros id r'. rewrite claim_lookup by done. destruct (decide _); [|congruence].
    intros H1 H2. by rewrite H2 in H1.
  - intros p (id & Hid & Hp)%list_elem_of_omap. destruct (rows t !! id) as [r|] eqn:Hr; [|done].
    cbn in Hp. injection Hp as <-. cbn [rows fst snd]. rewrite claim_lookup, decide_True, Hr by done. eauto.
Qed.

Lemma updateClaimed_evolves (P : Z → Prop) id attempts f t n t' :
  (∀ r, o_aggregate (f r) = o_aggregate r ∧ o_revision (f r) = o_revision r ∧ o_attempts (f r) = o_attempts r) →
  (∀ r, o_status (f r) = StatusPublished → P id) →
  updateClaimed id attempts f t = (n, t') → evolves P t t'.
Proof.
  intros Hf HP. unfold updateClaimed. destruct (rows t !! id) as [r|] eqn:Hr; [|intros [= _ <-]; apply evolves_refl].
  case_bool_decide as Hs; cbn [andb]; [|intros [= _ <-]; apply evolves_refl].
  destruct (o_attempts r =? attempts); [|intros [= _ <-]; apply evolves_refl]. intros [= _ <-].
  split; cbn [rows nextID]; [| |lia].
  - intros id' r' Hr'. destruct (decide (id = id')) as [<-|Hne].
    + rewrite lookup_insert_eq. assert (r' = r) as -> by congruence. destruct (Hf r) as (Hg & Hv & Ha).
      exists (f r). split; [done|]. rewrite Hg, Hv, Hs, Ha. split_and!; try done; [lia|]. intros. right. eauto.
    + rewrite lookup_insert_ne by done. exists r'. split; [done|]. split_and!; try done; [lia|auto].
  - intros id' r' H1 H2. destruct (decide (id = id')) as [<-|Hne]; [congruence|].
    rewrite lookup_insert_ne in H1 by done. congruence.
Qed.

(** An insert adds rows and changes none. *)
Record grows (t t' : outbox) : Prop := {
  gr_keep : rows t ⊆ rows t';
  gr_new : ∀ id r', rows t' !! id = Some r' → rows t !! id = None →
    nextID t ≤ id < nextID t' ∧ o_status r' = StatusPending ∧ o_attempts r' = 0;
  gr_next : nextID t ≤ nextID t'
}.

#[export] Instance grows_preorder : PreOrder grows.
Proof.
  split.
  - intros t. split; [done|congruence|lia].
  - intros t1 t2 t3 [K1 N1 X1] [K2 N2 X2]. split; [by etrans| |lia]. intros id r' H3 H1.
    destruct (rows t2 !! id) as [r|] eqn:H2; [|destruct (N2 id r' H3 H2); split; [lia|done]].
    assert (r' = r) as -> by (pose proof (lookup_weaken _ _ _ _ H2 K2); congruence).
    destruct (N1 id r H2 H1); split; [lia|done].
Qed.

Lemma grows_evolves P t t' : grows t t' → evolves P t t'.
Proof.
  intros [K N X]. split; [|exact N|exact X]. intros id r Hr. exists r. split; [by eapply lookup_weaken|].
  split_and!; try done; [lia|auto].
Qed.

(** Every id of the table comes from the sequence. *)
Definition drawn (t : outbox) : Prop := 0 < nextID t ∧ ∀ id, is_Some (rows t !! id) → 0 < id < nextID t.

Lemma evolves_drawn P t t' : evolves P t t' → drawn t → drawn t'.
Proof.
  intros [_ N X] [H0 H]. split; [lia|]. intros id [r' Hr']. destruct (rows t !! id) eqn:Hr.
  - specialize (H id ltac:(eauto)). lia.
  - destruct (N id r' Hr' Hr). lia.
Qed.

Section producers.
Context (json_Valid : AuditRepo.bytes → bool) (Marshal : Entry → result bytes) (jsonb : bytes → bytes).

Lemma insertRow_grows now e encoded t t' : drawn t → insertRow jsonb now e encoded t = Ok t' → grows t t'.
Proof.
  intros [_ Hd]. unfold insertRow. destruct (maxInt64 <? _); [done|]. destruct (existsb _ _); [done|].
  intros [= <-]. assert (Hf : rows t !! nextID t = None).
  { destruct (rows t !! nextID t) eqn:H; [|done]. specialize (Hd (nextID t) ltac:(eauto)). lia. }
  split; cbn [rows nextID]; [by apply insert_subseteq| |lia].
  intros id r' H1 H2. destruct (decide (nextID t = id)) as [<-|Hne].
  - rewrite lookup_insert_eq in H1. injection H1 as <-. cbn. split; [lia|done].
  - rewrite lookup_insert_ne in H1 by done. congruence.
Qed.

Lemma enqueueLoop_grows s now entries errs i t : drawn t →
  grows t (enqueueLoop json_Valid Marshal jsonb s now entries errs i t).2.
Proof.
  revert i t. induction entries as [|e rest IH]; intros i t Hd; cbn [enqueueLoop]; [reflexivity|].
  destruct (Entry_Validate _ _); [reflexivity|]. destruct (Marshal e) as [encoded|]; [|reflexivity].
  destruct (maxEntryBytes s <? _); [reflexivity|]. destruct (errs i); [reflexivity|].
  destruct (insertRow _ _ _ _ _) as [t1|] eqn:Hi; [|reflexivity].
  pose proof (insertRow_grows _ _ _ _ _ Hd Hi) as Hg. etrans; [exact Hg|].
  apply IH. eapply evolves_drawn; [by apply (grows_evolves (λ _, True))|done].
Qed.

Lemma Enqueue_grows s now entries errs t : drawn t →
  grows t (Enqueue json_Valid Marshal jsonb s now entries errs t).2.
Proof. intros Hd. destruct s; cbn [Enqueue]; [by apply enqueueLoop_grows|reflexivity]. Qed.
End producers.

(** ** Relays and producers together *)

(** A call of the publisher: the id of the record, the attempt, and whether the
    publisher took it. *)
Record handing : Type := mkHanding { h_id : Z; h_attempt : Z; h_ok : bool }.

(** A claim of a row: its id, the attempt that the claim begins, and the ids of
    all rows that were in the table then. *)
Record claim : Type := mkClaim { c_id : Z; c_attempt : Z; c_seen : gset Z }.

(** The table and the relays, with what has happened: the calls of the
    publisher, the newest first, and the claims. *)
Record system : Type := mkSystem { table : outbox; relays : list phase; trace : list handing; claims : list claim }.

(** The claims of a statement. *)
Definition claimsOf (t t' : outbox) : list claim :=
  omap (λ p : Z * row, r ← rows t !! p.1;
    if o_attempts r <? o_attempts p.2 then Some (mkClaim p.1 (o_attempts p.2) (dom (rows t))) else None)
    (map_to_list (rows t')).

Lemma elem_of_claimsOf t t' c :
  c ∈ claimsOf t t' ↔ ∃ r r', rows t !! c_id c = Some r ∧ rows t' !! c_id c = Some r' ∧
    o_attempts r < o_attempts r' ∧ c_attempt c = o_attempts r' ∧ c_seen c = dom (rows t).
Proof.
  unfold claimsOf. rewrite list_elem_of_omap. split.
  - intros ([id r'] & Hin%elem_of_map_to_list & Hc). cbn in Hc. destruct (rows t !! id) as [r|] eqn:Hr; [|done]. cbn in Hc.
    destruct (_ <? _) eqn:E; [|done]. bools. injection Hc as <-. cbn. eauto 10.
  - intros (r & r' & Hr & Hr' & Hlt & Ha & Hs). exists (c_id c, r'). split; [by apply elem_of_map_to_list|]. cbn.
    rewrite Hr. cbn. rewrite (proj2 (Z.ltb_lt _ _)) by done. destruct c; cbn in *. by subst.
Qed.

(** The records a relay works on, and the one it marks as published. *)
Definition held (ph : phase) : list Record_ :=
  match ph with
  | Working _ todo _ => todo
  | MarkingPublished _ record todo _ => record :: todo
  | MarkingFailed _ record _ todo _ => record :: todo
  | Idle | Stopped _ _ => []
  end.

Definition marked (ph : phase) : list Record_ :=
  match ph with MarkingPublished _ record _ _ => [record] | _ => [] end.

(** The record has been claimed at its attempt. *)
Definition claimed_in (cs : list claim) (record : Record_) : Prop :=
  ∃ c, c ∈ cs ∧ c_id c = ID record ∧ c_attempt c = Attempts record.

(** The publisher took a record of the row. *)
Definition taken (tr : list handing) (i : Z) : Prop := ∃ a, mkHanding i a true ∈ tr.

(** The invariant: when a row is claimed its predecessors in the table are
    finished, a published row was taken by the publisher, and so was every
    predecessor of a row that is handed to it, before it, unless it is a dead
    letter. *)
Record ordered (t : outbox) (tr : list handing) (cs : list claim) : Prop := {
  or_drawn : drawn t;
  or_attempts : ∀ i r, rows t !! i = Some r → 0 ≤ o_attempts r;
  or_claims : ∀ c, c ∈ cs → is_Some (rows t !! c_id c) ∧ ∀ j, j ∈ c_seen c → ∃ e, rows t !! j = Some e ∧
    ∀ r, rows t !! c_id c = Some r → lower e r → open_ (o_status e) = false;
  or_published : ∀ i r, rows t !! i = Some r → o_status r = StatusPublished → taken tr i;
  or_trace : ∀ later h earlier, tr = later ++ h :: earlier →
    ∃ c, c ∈ cs ∧ c_id c = h_id h ∧ c_attempt c = h_attempt h ∧ ∀ r j e, rows t !! h_id h = Some r →
      j ∈ c_seen c → rows t !! j = Some e → lower e r → o_status e = StatusDeadLetter ∨ taken earlier j
}.

Lemma ordered_evolves t t' tr cs :
  ordered t tr cs → evolves (taken tr) t t' → ordered t' tr (claimsOf t t' ++ cs).
Proof.
  intros O V.
  (* an old row, and what is below it, before and after *)
  assert (Hpair : ∀ i r r' j e e', rows t !! i = Some r → rows t' !! i = Some r' → rows t !! j = Some e → rows t' !! j = Some e' →
    lower e' r' → lower e r ∧ (open_ (o_status e) = false → e' = e)).
  { intros i r r' j e e' Hi Hi' Hj Hj' Hlow.
    destruct (ev_keep _ _ _ V _ _ Hi) as (x & Hx & Ha & Hv & _). assert (x = r') as -> by congruence.
    destruct (ev_keep _ _ _ V _ _ Hj) as (y & Hy & Ha' & Hv' & _ & Hfin & _). assert (y = e') as -> by congruence.
    split; [|done]. unfold lower in *. by rewrite <-Ha, <-Ha', <-Hv, <-Hv'. }
  split.
  - eapply evolves_drawn; [done|apply O].
  - intros i r' Hi'. destruct (rows t !! i) as [r|] eqn:Hi.
    + destruct (ev_keep _ _ _ V _ _ Hi) as (x & Hx & _ & _ & Hle & _). pose proof (or_attempts _ _ _ O i r Hi).
      assert (x = r') as -> by congruence. lia.
    + destruct (ev_new _ _ _ V _ _ Hi' Hi) as (_ & _ & Hz). lia.
  - intros c [Hc|Hc]%elem_of_app.
    + apply elem_of_claimsOf in Hc as (r & r' & Hr & Hr' & Hlt & _ & ->). split; [eauto|].
      intros j [e He]%elem_of_dom. destruct (ev_keep _ _ _ V _ _ He) as (e' & He' & _). exists e'. split; [done|].
      intros r'' Hr''. assert (r'' = r') as -> by congruence. intros Hlow.
      destruct (Hpair _ _ _ _ _ _ Hr Hr' He He' Hlow) as [Hl Hfin].
      destruct (ev_keep _ _ _ V _ _ Hr) as (x & Hx & _ & _ & _ & _ & Hgrow & _). assert (x = r') as -> by congruence.
      pose proof (proj1 (hasEarlier_false t r) (Hgrow Hlt) j e He Hl) as Ho. by rewrite (Hfin Ho).
    + destruct (or_claims _ _ _ O c Hc) as [[r Hr] Hseen]. destruct (ev_keep _ _ _ V _ _ Hr) as (r' & Hr' & _).
      split; [eauto|]. intros j (e & He & Ho)%Hseen. destruct (ev_keep _ _ _ V _ _ He) as (e' & He' & _). exists e'. split; [done|].
      intros r'' Hr''. assert (r'' = r') as -> by congruence. intros Hlow.
      destruct (Hpair _ _ _ _ _ _ Hr Hr' He He' Hlow) as [Hl Hfin]. specialize (Ho r Hr Hl). by rewrite (Hfin Ho).
  - intros i r' Hi' Hp. destruct (rows t !! i) as [r|] eqn:Hi.
    + destruct (ev_keep _ _ _ V _ _ Hi) as (x & Hx & _ & _ & _ & _ & _ & Hpub). assert (x = r') as -> by congruence.
      destruct (Hpub Hp) as [Hold|]; [by eapply (or_published _ _ _ O)|done].
    + destruct (ev_new _ _ _ V _ _ Hi' Hi) as (_ & Hs & _). congruence.
  - intros later h earlier Htr. destruct (or_trace _ _ _ O later h earlier Htr) as (c & Hc & Hid & Hat & Hbelow).
    exists c. split_and!; [set_solver|done|done|]. intros r' j e' Hi' Hj Hj' Hlow. rewrite <-Hid in *.
    destruct (or_claims _ _ _ O c Hc) as [[r Hr] Hseen]. destruct (Hseen j Hj) as (e & He & Ho).
    destruct (Hpair _ _ _ _ _ _ Hr Hi' He Hj' Hlow) as [Hl Hfin]. rewrite (Hfin (Ho r Hr Hl)). eauto.
Qed.

(** Handing a claimed record to the publisher keeps the order. *)
Lemma ordered_handing t tr cs record ok :
  ordered t tr cs → claimed_in cs record → ordered t (mkHanding (ID record) (Attempts record) ok :: tr) cs.
Proof.
  intros O (c & Hc & Hid & Hat). destruct O as [Od Oa Oc Op Ot]. split; try done.
  - intros i r' Hi Hs. destruct (Op i r' Hi Hs) as [a Ha]. exists a. set_solver.
  - intros [|x later] h earlier Htr; [injection Htr as <- <-|injection Htr as _ Htr; eauto].
    exists c. split_and!; try done. cbn [h_id]. intros r j e Hr Hj He Hlow. rewrite <-Hid in Hr.
    destruct (Oc c Hc) as [_ Hseen]. destruct (Hseen j Hj) as (e' & He' & Ho). assert (e' = e) as -> by congruence.
    specialize (Ho r Hr Hlow). destruct (o_status e) eqn:Hs; try done; [right; eauto|by left].
Qed.

(** *** A step of a relay *)

Section relay_step.
Context (Unmarshal : bytes → result Entry).

Lemma scanRecords_spec s claimed acc records :
  scanRecords Unmarshal s claimed acc = Ok records →
  ∀ record, record ∈ records → record ∈ acc ∨ ∃ p, p ∈ claimed ∧ ID record = p.1 ∧ Attempts record = o_attempts p.2.
Proof.
  revert acc. induction claimed as [|p rest IH]; cbn [scanRecords]; intros acc.
  - intros [= ->]. auto.
  - destruct (scanRecord Unmarshal s p) as [x|] eqn:Hx; [|done]. intros H record Hin.
    destruct (IH _ H record Hin) as [[Ha|Heq%list_elem_of_singleton]%elem_of_app|(q & Hq & Heq)]; [by left| |].
    + subst record. right. exists p. split; [set_solver|]. unfold scanRecord in Hx. destruct (_ <=? 0); [done|].
      destruct (NewAggregateID _ _); [|done]. destruct (decodeEntry _ _ _); [|done]. by injection Hx as <-.
    + right. exists q. split; [set_solver|done].
Qed.

Lemma Claim_spec s o storeNow unlocked d t res t' :
  Claim Unmarshal (Some s) o storeNow unlocked d t = (res, t') →
  evolves (λ _, False) t t' ∧ ∀ records, res = Ok records → Forall (claimed_in (claimsOf t t')) records.
Proof.
  unfold Claim.
  assert (Hr : ∀ err : error, (Fail err : result (list Record_), t) = (res, t') →
    evolves (λ _, False) t t' ∧ ∀ records, res = Ok records → Forall (claimed_in (claimsOf t t')) records).
  { intros err [= <- <-]. split; [apply evolves_refl|]. done. }
  destruct (Limit o <=? 0); [apply Hr|]. destruct (_ <? 0); [apply Hr|].
  destruct (claimQuery _ _ _ _ _) as [claimed tc] eqn:Hq.
  pose proof (claimQuery_evolves _ _ _ _ _ _ _ Hq) as [He Hc].
  destruct d; [|apply Hr|intros [= <- <-]; done]. intros [= <- <-]. split; [done|]. intros records Hrec.
  apply Forall_forall. intros record Hin. destruct (scanRecords_spec _ _ _ _ Hrec record Hin) as [?%not_elem_of_nil|(p & Hp & Hid & Ha)]; [done|].
  destruct (Hc p Hp) as (Hrow & r & Hold & Heq).
  exists (mkClaim (ID record) (Attempts record) (dom (rows t))). split; [|done]. apply elem_of_claimsOf. cbn. rewrite Hid, Ha.
  exists r, p.2. split_and!; try done. rewrite Heq. cbn. lia.
Qed.

(** The effect of a mark, however the answer gets lost. *)
Lemma delivered_spec (Q : outbox → Prop) (d : delivery) n (t t1 : outbox) res t' :
  match d with NotApplied err => (Some err, t) | AnswerLost err => (Some err, t1) | Delivered => (requireRows n, t1) end = (res, t') →
  Q t → Q t1 → Q t'.
Proof. destruct d; intros [= _ <-]; done. Qed.

Lemma MarkPublished_spec s record now d t res t' :
  MarkPublished (Some s) record now d t = (res, t') → evolves (.= ID record) t t'.
Proof.
  unfold MarkPublished. pose proof (evolves_refl (.= ID record) t) as Hr.
  destruct (_ <=? 0); [by intros [= _ <-]|]. destruct (_ <=? 0); [by intros [= _ <-]|].
  destruct (updateClaimed _ _ _ _) as [n t1] eqn:Hu. intros H.
  apply (delivered_spec (evolves (.= ID record) t) _ _ _ _ _ _ H); [done|].
  eapply updateClaimed_evolves, Hu; done.
Qed.

Lemma MarkFailed_spec s f storeNow d t res t' :
  MarkFailed (Some s) f storeNow d t = (res, t') → evolves (λ _, False) t t'.
Proof.
  unfold MarkFailed. pose proof (evolves_refl (λ _, False) t) as Hr.
  do 3 (destruct (_ <=? 0); [by intros [= _ <-]|]). cbv zeta. destruct (negb _); [by intros [= _ <-]|].
  destruct (updateClaimed _ _ _ _) as [n t1] eqn:Hu. intros H.
  apply (delivered_spec (evolves (λ _, False) t) _ _ _ _ _ _ H); [done|].
  eapply updateClaimed_evolves, Hu; [done|]. intros r. cbn. by destruct (_ <=? _).
Qed.

Lemma evolves_mono (P Q : Z → Prop) t t' : (∀ i, P i → Q i) → evolves P t t' → evolves Q t t'.
Proof.
  intros HPQ [K N X]. split; [|done|done]. intros id r Hr. destruct (K id r Hr) as (r' & ? & ? & ? & ? & ? & ? & Hp).
  exists r'. split_and!; try done. intros Hs. destruct (Hp Hs); auto.
Qed.

End relay_step.

(** *** The system *)

(** A producer runs [Enqueue], a relay takes a step, a relay dies and another
    takes its place, a relay is added. *)
Inductive sysEvent : Type :=
| Produce (s : Store) (now : Z) (entries : list Entry) (errs : nat → option error)
| RelayDoes (i : nat) (r : Relay) (a : answer)
| RelayDies (i : nat)
| RelayJoins.

Section system.
Context (json_Valid : AuditRepo.bytes → bool) (Marshal : Entry → result bytes) (Unmarshal : bytes → result Entry)
  (jsonb : bytes → bytes).

(** An event, with what it adds to the history. *)
Definition sysStep (x : system) (ev : sysEvent) : option system :=
  match ev with
  | Produce s now entries errs =>
      Some (mkSystem (Enqueue json_Valid Marshal jsonb (Some s) now entries errs (table x)).2 (relays x) (trace x) (claims x))
  | RelayDoes i r a =>
      ph ← relays x !! i;
      '(ph', t', out) ← relayStep Unmarshal r ph a (table x);
      Some (mkSystem t' (<[i := ph']> (relays x))
        (match out with Some (record, ok) => mkHanding (ID record) (Attempts record) ok :: trace x | None => trace x end)
        (claimsOf (table x) t' ++ claims x))
  | RelayDies i => Some (mkSystem (table x) (<[i := Idle]> (relays x)) (trace x) (claims x))
  | RelayJoins => Some (mkSystem (table x) (Idle :: relays x) (trace x) (claims x))
  end.

Fixpoint sysRun (x : system) (evs : list sysEvent) : option system :=
  match evs with
  | [] => Some x
  | ev :: rest => x' ← sysStep x ev; sysRun x' rest
  end.

Definition sysInit : system := mkSystem (mkOutbox ∅ 1) [] [] [].

(** A relay holds claimed records, and marks as published what was taken. *)
Definition relayOk (tr : list handing) (cs : list claim) (ph : phase) : Prop :=
  Forall (claimed_in cs) (held ph) ∧ Forall (λ record, taken tr (ID record)) (marked ph).

Lemma relayOk_mono tr tr' cs cs' ph : tr ⊆ tr' → cs ⊆ cs' → relayOk tr cs ph → relayOk tr' cs' ph.
Proof.
  intros Ht Hc [H1 H2]. split; (eapply Forall_impl; [eassumption|]).
  - intros record (c & ? & ?). exists c. split; [by apply Hc|done].
  - intros record [a ?]. exists a. by apply Ht.
Qed.

Lemma relayStep_spec r ph a t tr cs ph' t' out :
  ordered t tr cs → relayOk tr cs ph → relayStep Unmarshal r ph a t = Some (ph', t', out) →
  evolves (taken tr) t t' ∧
  match out with
  | Some (record, ok) => t' = t ∧ claimed_in cs record ∧ relayOk (mkHanding (ID record) (Attempts record) ok :: tr) cs ph'
  | None => relayOk tr (claimsOf t t' ++ cs) ph'
  end.
Proof.
  intros O [Hh Hm] H. pose proof (evolves_refl (taken tr) t) as Hr.
  assert (Hkeep : ∀ t' todo, Forall (claimed_in cs) todo → Forall (claimed_in (claimsOf t t' ++ cs)) todo).
  { intros t1 todo Ht. eapply Forall_impl; [exact Ht|]. intros record (c & ? & ?). exists c. split; [set_solver|done]. }
  destruct ph as [|now [|record todo] res|now record todo res|now record msg todo res|res err], a; cbn [relayStep] in H; try done;
    cbn [held marked] in *.
  - destruct (Claim _ _ _ _ _ _ _) as [[records|err] t1] eqn:Hc; injection H as <- <- <-;
      destruct (Claim_spec _ _ _ _ _ _ _ _ _ Hc) as (V & Hrec);
      (split; [by eapply evolves_mono; [|exact V]|split; cbn; try done]).
    eapply Forall_impl; [by apply Hrec|]. intros record (c & ? & ?). exists c. split; [set_solver|done].
  - injection H as <- <- <-. by split.
  - injection H as <- <- <-. by split.
  - injection H as <- <- <-. apply Forall_cons in Hh as [Hc Ht]. split; [done|]. by split_and!.
  - injection H as <- <- <-. apply Forall_cons in Hh as Hh'. destruct Hh' as [Hc Ht]. split; [done|].
    split_and!; [done|done|]. split; cbn; [done|]. apply Forall_singleton. eexists. by left.
  - injection H as <- <- <-. apply Forall_cons in Hh as Hh'. destruct Hh' as [Hc Ht]. split; [done|]. by split_and!.
  - apply Forall_cons in Hm as [Hm _]. apply Forall_cons in Hh as [Hc Ht].
    destruct (MarkPublished _ _ _ _ _) as [res' t1] eqn:Hp. pose proof (MarkPublished_spec _ _ _ _ _ _ _ Hp) as V.
    assert (V' : evolves (taken tr) t t1) by (eapply evolves_mono; [|exact V]; by intros i ->).
    destruct res' as [err|]; injection H as <- <- <-; (split; [done|]); split; cbn; auto.
  - apply Forall_cons in Hh as [Hc Ht]. destruct (MarkFailed _ _ _ _ _) as [res' t1] eqn:Hp.
    pose proof (MarkFailed_spec _ _ _ _ _ _ _ Hp) as V.
    assert (V' : evolves (taken tr) t t1) by (eapply evolves_mono; [|exact V]; done).
    destruct res' as [err|]; injection H as <- <- <-; (split; [done|]); split; cbn; auto.
  - injection H as <- <- <-. by split.
Qed.

Definition sysOk (x : system) : Prop :=
  ordered (table x) (trace x) (claims x) ∧ Forall (relayOk (trace x) (claims x)) (relays x).

(** A statement that claims nothing adds no claim. *)
Lemma claimsOf_grows t t' : grows t t' → claimsOf t t' = [].
Proof.
  intros [K _ _]. destruct (claimsOf t t') as [|c cs] eqn:E; [done|exfalso].
  assert (c ∈ claimsOf t t') as (r & r' & Hr & Hr' & Hlt & _)%elem_of_claimsOf by (rewrite E; by left).
  pose proof (lookup_weaken _ _ _ _ Hr K). assert (r' = r) as -> by congruence. lia.
Qed.

Lemma sysStep_ok x ev x' : sysOk x → sysStep x ev = Some x' → sysOk x'.
Proof.
  intros [O R]. destruct ev as [s now entries errs|i r a|i|]; cbn [sysStep].
  - intros [= <-]. pose proof (Enqueue_grows json_Valid Marshal jsonb (Some s) now entries errs _ (or_drawn _ _ _ O)) as G.
    pose proof (ordered_evolves _ _ _ _ O (grows_evolves _ _ _ G)) as O'. rewrite claimsOf_grows in O' by done.
    split; cbn [table relays trace claims]; done.
  - destruct (relays x !! i) as [ph|] eqn:Hph; [|done]. cbn [mbind option_bind].
    destruct (relayStep _ _ _ _ _) as [[[ph' t'] out]|] eqn:Hs; [|done]. cbn [mbind option_bind]. intros [= <-].
    pose proof (Forall_lookup_1 _ _ _ _ R Hph) as Hok.
    destruct (relayStep_spec _ _ _ _ _ _ _ _ _ O Hok Hs) as (V & Hout).
    pose proof (ordered_evolves _ _ _ _ O V) as O'.
    destruct out as [[record ok]|]; cbn [table relays trace claims].
    + destruct Hout as (-> & (c & Hc & Hid & Hat) & Hok'). split.
      * apply ordered_handing; [done|]. exists c. split; [set_solver|done].
      * apply Forall_insert; [|eapply relayOk_mono; [..|exact Hok']; set_solver].
        eapply Forall_impl; [exact R|]. intros ph0. apply relayOk_mono; set_solver.
    + split; [done|]. apply Forall_insert; [|done]. eapply Forall_impl; [exact R|]. intros ph0. apply relayOk_mono; set_solver.
  - intros [= <-]. split; [done|]. apply Forall_insert; [done|]. by split; cbn.
  - intros [= <-]. split; [done|]. apply Forall_cons. split; [|done]. by split; cbn.
Qed.

Lemma sysRun_ok evs x x' : sysOk x → sysRun x evs = Some x' → sysOk x'.
Proof.
  revert x. induction evs as [|ev evs IH]; cbn [sysRun]; intros x Hx.
  - by intros [= <-].
  - destruct (sysStep x ev) as [x1|] eqn:H1; [|done]. cbn. by apply IH, (sysStep_ok x ev).
Qed.

Lemma sysInit_ok : sysOk sysInit.
Proof.
  split; [|constructor]. split; cbn [sysInit table trace claims]; try done.
  - split; [cbn; lia|]. intros id [r Hr]. cbn in Hr. by rewrite lookup_empty in Hr.
  - set_solver.
  - by intros [].
Qed.
End system.

(** ** Fencing *)

(** A relay whose claim has run out cannot decide about the record: a mark
    whose attempt is not the current one of the row, or whose row is no longer
    claimed, changes nothing, and [ErrRecordNotFound] comes back. *)
Theorem stale_mark_refused (s : Store) (record : Record_) (f : Failure) (now : Z) (t : outbox) :
  (∀ r, rows t !! ID record = Some r → o_status r = StatusClaimed → o_attempts r ≠ Attempts record) →
  f_ID f = ID record → f_Attempt f = Attempts record →
  0 < ID record → 0 < Attempts record → 0 < f_MaxAttempts f → ValidString (sanitizeFailure s (f_Err f)) = true →
  MarkPublished (Some s) record now Delivered t = (Some (Errorf "%w: updated %d of %d rows" [ErrRecordNotFound]), t) ∧
  MarkFailed (Some s) f now Delivered t = (Some (Errorf "%w: updated %d of %d rows" [ErrRecordNotFound]), t).
Proof.
  intros Hst Hid Hat H1 H2 H3 Hv.
  assert (Hu : ∀ g, updateClaimed (ID record) (Attempts record) g t = (0, t)).
  { intros g. unfold updateClaimed. destruct (rows t !! ID record) as [r|] eqn:Hr; [|done].
    case_bool_decide as Hs; [|done]. cbn [andb]. rewrite (proj2 (Z.eqb_neq _ _)); [done|by eapply Hst]. }
  unfold MarkPublished, MarkFailed. rewrite Hid, Hat, !(proj2 (Z.leb_gt _ _)) by done. rewrite !Hu, Hv. done.
Qed.

(** ** Order of delivery *)

(** C3. Order of delivery.  With any number of producers and relays, claims that
    run out, answers of the database that get lost, publishers that fail and relays
    that die at any point: whenever a record is handed to the publisher, whether the
    publisher then takes it or not, it has been claimed before at this attempt, and
    every earlier event of its aggregate that was in the table at that claim has
    been taken by the publisher before, or is a dead letter; and a row is published
    only if the publisher took its record.  An earlier event that a producer adds
    after the claim is not waited for. *)
Theorem outbox_order json_Valid Marshal Unmarshal jsonb (evs : list sysEvent) (x : system) :
  sysRun json_Valid Marshal Unmarshal jsonb sysInit evs = Some x →
  (∀ later h earlier, trace x = later ++ h :: earlier →
     ∃ c, c ∈ claims x ∧ c_id c = h_id h ∧ c_attempt c = h_attempt h ∧
       ∀ r j e, rows (table x) !! h_id h = Some r → j ∈ c_seen c → rows (table x) !! j = Some e → lower e r →
         o_status e = StatusDeadLetter ∨ taken earlier j) ∧
  (∀ i r, rows (table x) !! i = Some r → o_status r = StatusPublished → taken (trace x) i).
Proof.
  intros H. destruct (sysRun_ok _ _ _ _ _ _ _ sysInit_ok H) as [O _]. split; apply O.
Qed.

(** Two events of one aggregate; the relay that publishes the first one dies
    before it marks it, and another one publishes it again after the lease. *)
Module OutboxExample.
Definition entryOf (revision : Z) : Entry :=
  mkEntry SchemaVersion (mkAggregateID (lit "order") (lit "7")) revision (lit "kim")
    (mkDomainEvent (lit "e" ++ [revision]) (lit "created") (mkAggregateID (lit "order") (lit "7")) revision 5 5 (lit "k" ++ [revision]) ∅ (lit "1"))
    None None.
Definition store : Store := mkStore defaultMaxEntryBytes defaultMaxErrorBytes.
Definition relay : Relay := mkRelay store 10 3 defaultRetryDelay.
Definition Marshal (e : Entry) : result bytes := Ok [en_Revision e].
Definition Unmarshal (b : bytes) : result Entry := Ok (entryOf (List.hd 0 b)).
Definition events : list sysEvent :=
  let lease := defaultLeaseDuration in
  [RelayJoins; RelayJoins; Produce store 5 [entryOf 65; entryOf 66] (λ _, None);
   RelayDoes 0 relay (AClaim 10 [1; 2] Delivered); RelayDoes 0 relay APublished;
   RelayDoes 1 relay (AClaim (20 + lease) [1; 2] Delivered); RelayDoes 1 relay APublished;
   RelayDies 0; RelayDoes 1 relay (AMark (21 + lease) Delivered); RelayDoes 1 relay ANone;
   RelayDoes 1 relay (AClaim (30 + lease) [1; 2] Delivered); RelayDoes 1 relay APublished;
   RelayDoes 1 relay (AMark (31 + lease) Delivered)].
(** The table when the second relay has claimed the first row again. *)
Definition reclaimed : outbox :=
  default (mkOutbox ∅ 1) (table <$> sysRun (λ _, true) Marshal Unmarshal (λ b, b) sysInit (take 6 events)).
Definition final : option system := sysRun (λ _, true) Marshal Unmarshal (λ b, b) sysInit events.
End OutboxExample.

Lemma outbox_order_witness : ∃ x, OutboxExample.final = Some x ∧
  trace x = [mkHanding 2 1 true; mkHanding 1 2 true; mkHanding 1 1 true] ∧
  ∀ i r, rows (table x) !! i = Some r → o_status r = StatusPublished → taken (trace x) i.
Proof.
  assert (H : trace <$> OutboxExample.final = Some [mkHanding 2 1 true; mkHanding 1 2 true; mkHanding 1 1 true])
    by (vm_compute; reflexivity).
  destruct OutboxExample.final as [x|] eqn:Hx; [|discriminate H]. exists x. split; [reflexivity|].
  split; [injection H as H; exact H|]. exact (proj2 (outbox_order _ _ _ _ OutboxExample.events x Hx)).
Defined.

Lemma stale_mark_refused_witness :
  let record := mkRecord 1 StatusClaimed (mkAggregateID (lit "order") (lit "7")) 65 [] [] [] 5 5 1 1 (OutboxExample.entryOf 65) in
  let f := mkFailure 1 1 (lit "down") 0 3 40 in
  (λ r, (o_status r, o_attempts r)) <$> rows OutboxExample.reclaimed !! 1 = Some (StatusClaimed, 2) ∧
  MarkFailed (Some OutboxExample.store) f 40 Delivered OutboxExample.reclaimed =
    (Some (Errorf "%w: updated %d of %d rows" [ErrRecordNotFound]), OutboxExample.reclaimed).
Proof.
  intros record f.
  assert (H : (λ r, (o_status r, o_attempts r)) <$> rows OutboxExample.reclaimed !! 1 = Some (StatusClaimed, 2))
    by (vm_compute; reflexivity).
  split; [exact H|].
  refine (proj2 (stale_mark_refused OutboxExample.store record f 40 OutboxExample.reclaimed _ eq_refl eq_refl _ _ _ _));
    [|reflexivity..].
  intros r Hr _. cbn [ID record] in Hr. rewrite Hr in H. cbn in H. injection H as _ H. rewrite H. discriminate.
Defined.

(** ** Failures that cannot be recorded *)

(** [sanitizeFailure] cuts between bytes, not between characters.  When the cut
    text is not valid UTF-8 the database refuses the mark: the relay stops, the
    row stays claimed, and since only a mark makes a dead letter it never
    becomes one. *)
Lemma cut_error_text_stops_relay Unmarshal r now record message todo res storeNow d t :
  0 < ID record → 0 < Attempts record → 0 < maxAttempt r →
  ValidString (sanitizeFailure (r_store r) message) = false →
  relayStep Unmarshal r (MarkingFailed now record message todo res) (AMark storeNow d) t =
    Some (Stopped res (Sentinel "pgconn.invalid_byte_sequence"), t, None).
Proof.
  intros H1 H2 H3 Hv. cbn [relayStep]. unfold MarkFailed. cbn [f_ID f_Attempt f_MaxAttempts f_Err].
  rewrite !(proj2 (Z.leb_gt _ _)) by done. by rewrite Hv.
Qed.

(** A valid text of 2049 bytes that the default limit cuts in a character. *)
Example cut_error_text :
  let message := repeat 97 2047 ++ [195; 169] in
  ValidString message = true ∧ ValidString (sanitizeFailure OutboxExample.store message) = false.
Proof. vm_compute. done. Qed.

(** A row whose stored text is longer than the limit makes the whole batch
    fail after it has been claimed. *)
Lemma oversized_row_fails_batch Unmarshal s claimed acc p :
  p ∈ claimed → maxEntryBytes s < Z.of_nat (length (o_json p.2)) →
  ∃ err, scanRecords Unmarshal s claimed acc = Fail err.
Proof.
  intros Hin Hlong. revert acc. induction claimed as [|q rest IH]; [by apply elem_of_nil in Hin|]. intros acc. cbn [scanRecords].
  apply elem_of_cons in Hin as [->|Hin]; [|destruct (scanRecord _ _ q); [by apply IH|eauto]].
  enough (∃ err, scanRecord Unmarshal s q = Fail err) as [err ->] by eauto.
  unfold scanRecord. destruct (_ <=? 0); [eauto|]. destruct (NewAggregateID _ _); [|eauto].
  unfold decodeEntry. destruct (o_json q.2) as [|b bs]; [eauto|]. rewrite (proj2 (Z.ltb_lt _ _)) by done. eauto.
Qed.
