(* ===== verification/Process.v ===== *)
(** * Concurrent calls as processes

    A call of a method that several goroutines run at the same time is a
    [prog]: a tree of commands, each one atomic (a critical section, an
    operation of a store, a wait), with a continuation for every answer.  A
    method is written as the code writes it, with [←] for each call it makes.
    A loop whose fuel is used up is [More]: a goroutine that still runs.

    A system runs the commands of its goroutines in any order; what a command
    does to the shared state depends on a choice of the environment. *)

From S2P Require Import Prelude.

Section prog.
Context {cmd : Type} {resp : cmd → Type}.

Inductive prog (A : Type) : Type :=
| Ret (a : A)
| More
| Act (c : cmd) (k : resp c → prog A).
Arguments Ret {A} a.
Arguments More {A}.
Arguments Act {A} c k.

#[export] Instance prog_ret : MRet prog := @Ret.

#[export] Instance prog_bind : MBind prog := λ A B f,
  fix go (p : prog A) : prog B :=
    match p with
    | Ret a => f a
    | More => More
    | Act c k => Act c (λ r, go (k r))
    end.

#[export] Instance prog_fmap : FMap prog := λ A B f p, p ≫= (λ a, Ret (f a)).

(** One command. *)
Definition act (c : cmd) : prog (resp c) := Act c Ret.

(** What a command does: it waits, it panics, or it answers. *)
Inductive effect (W A : Type) : Type :=
| Waits
| Panics
| Answers (a : A) (w : W).
Arguments Waits {W A}.
Arguments Panics {W A}.
Arguments Answers {W A} a w.

(** ** Systems *)

Context {W choice A : Type} (exec : ∀ c : cmd, choice → W → effect W (resp c)).

Record system : Type := mkSystem { shared : W; procs : list (prog A); crashed : bool }.

(** The goroutine [i] runs its next command, if it has one that does not wait. *)
Definition step (i : nat) (ch : choice) (x : system) : option system :=
  match procs x !! i with
  | Some (Act c k) =>
      match exec c ch (shared x) with
      | Waits => None
      | Panics => Some (mkSystem (shared x) (procs x) true)
      | Answers r w => Some (mkSystem w (<[i := k r]> (procs x)) (crashed x))
      end
  | _ => None
  end.

Fixpoint run (sched : list (nat * choice)) (x : system) : option system :=
  match sched with
  | [] => Some x
  | (i, ch) :: rest => x' ← step i ch x; run rest x'
  end.

Lemma run_app s1 s2 x : run (s1 ++ s2) x = (x' ← run s1 x; run s2 x').
Proof.
  revert x. induction s1 as [|[i ch] s1 IH]; intros x; [done|]. cbn [app run]. destruct (step i ch x); cbn; [apply IH|done].
Qed.

(** ** Disciplines

    A discipline says what a goroutine holds ([H]): which commands it may run
    with what it holds, and what it holds after the answer. *)

Context {H : Type} (pre : H → cmd → Prop) (post : H → ∀ c : cmd, resp c → H) (final : H → A → Prop).

(** The process keeps the discipline, whatever the answers are, and ends with
    [Q]. *)
Fixpoint keeps {B} (Q : H → B → Prop) (h : H) (p : prog B) : Prop :=
  match p with
  | Ret b => Q h b
  | More => True
  | Act c k => pre h c ∧ ∀ r, keeps Q (post h c r) (k r)
  end.

Lemma keeps_mono {B} (Q Q' : H → B → Prop) h p : (∀ h b, Q h b → Q' h b) → keeps Q h p → keeps Q' h p.
Proof.
  intros HQ. revert h. induction p as [b| |c k IH]; intros h; cbn; [auto|auto|].
  intros [Hpre Hk]. split; [done|]. intros r. by apply IH.
Qed.

Lemma keeps_bind {B C} (Q : H → C → Prop) h (p : prog B) (f : B → prog C) :
  keeps (λ h b, keeps Q h (f b)) h p → keeps Q h (p ≫= f).
Proof.
  revert h. induction p as [b| |c k IH]; intros h; cbn; [auto|auto|].
  intros [Hpre Hk]. split; [done|]. intros r. apply IH, Hk.
Qed.

(** The rest of a call, after a call that is known to end with [Q1]. *)
Lemma keeps_call {B C} (Q1 : H → B → Prop) (Q : H → C → Prop) h (p : prog B) (f : B → prog C) :
  keeps Q1 h p → (∀ h b, Q1 h b → keeps Q h (f b)) → keeps Q h (p ≫= f).
Proof. intros H1 H2. apply keeps_bind. by eapply keeps_mono. Qed.

Lemma keeps_fmap {B C} (Q : H → C → Prop) h (p : prog B) (f : B → C) :
  keeps (λ h b, Q h (f b)) h p → keeps Q h (f <$> p).
Proof. intros Hp. apply keeps_bind. exact Hp. Qed.

(** A hold that allows everything and never changes. *)
Lemma keeps_sink {B} (Q : H → B → Prop) h p :
  (∀ c, pre h c) → (∀ c r, post h c r = h) → (∀ b, Q h b) → keeps Q h p.
Proof.
  intros Hpre Hpost HQ. induction p as [b| |c k IH]; cbn; [done|done|]. split; [done|]. intros r. rewrite Hpost. apply IH.
Qed.

(** An invariant of the shared state, of the number of steps and of what the
    goroutines hold is one of the system, when every command keeps it under the
    choices that are [allowed], for as long as the number of steps is below
    [limit]; and then nothing panics, and a call that has ended has a [final]
    answer for what it holds. *)
Section invariant.
Context (inv : Z → W → list H → Prop) (limit : Z) (allowed : choice → Prop).
Hypothesis exec_inv : ∀ n w hs i h c ch,
  inv n w hs → (n < limit)%Z → allowed ch → hs !! i = Some h → pre h c →
  match exec c ch w with
  | Waits => True
  | Panics => False
  | Answers r w' => inv (n + 1)%Z w' (<[i := post h c r]> hs)
  end.

Definition good (n : Z) (x : system) : Prop :=
  crashed x = false ∧ ∃ hs, inv n (shared x) hs ∧ Forall2 (keeps final) hs (procs x).

Lemma step_good n i ch x x' : good n x → (n < limit)%Z → allowed ch → step i ch x = Some x' → good (n + 1)%Z x'.
Proof.
  intros (Hc & hs & Hi & Hp) Hn Ha. unfold step. destruct (procs x !! i) as [[a| |c k]|] eqn:Hx; try done.
  destruct (Forall2_lookup_r _ _ _ _ _ Hp Hx) as (h & Hh & Hpre & Hk).
  pose proof (exec_inv n (shared x) hs i h c ch Hi Hn Ha Hh Hpre) as He.
  destruct (exec c ch (shared x)) as [| |r w']; [done|done|]. intros [= <-]. split; [done|].
  exists (<[i := post h c r]> hs). split; [done|]. by apply Forall2_insert.
Qed.

Lemma run_good sched n x x' :
  good n x → (n + Z.of_nat (length sched) ≤ limit)%Z → Forall (λ s, allowed s.2) sched → run sched x = Some x' → good (n + Z.of_nat (length sched))%Z x'.
Proof.
  revert n x. induction sched as [|[i ch] rest IH]; intros n x Hg Hl Ha; cbn [run length] in *.
  - intros [= <-]. by rewrite Z.add_0_r.
  - destruct (step i ch x) as [x1|] eqn:H1; [|done]. cbn [mbind option_bind]. intros Hr.
    apply Forall_cons in Ha as [Ha Har]. replace (n + Z.of_nat (S (length rest)))%Z with (n + 1 + Z.of_nat (length rest))%Z by lia.
    eapply IH; [|lia|done|done]. eapply step_good; [done|lia|exact Ha|done].
Qed.
End invariant.
End prog.

(** Two disciplines at once. *)
Lemma keeps_both {cmd} {resp : cmd → Type} {H1 H2 B}
    (pre1 : H1 → cmd → Prop) (post1 : H1 → ∀ c, resp c → H1) (pre2 : H2 → cmd → Prop) (post2 : H2 → ∀ c, resp c → H2)
    (Q1 : H1 → B → Prop) (Q2 : H2 → B → Prop) h1 h2 (p : @prog cmd resp B) :
  keeps pre1 post1 Q1 h1 p → keeps pre2 post2 Q2 h2 p →
  keeps (λ h c, pre1 h.1 c ∧ pre2 h.2 c) (λ h c r, (post1 h.1 c r, post2 h.2 c r)) (λ h b, Q1 h.1 b ∧ Q2 h.2 b) (h1, h2) p.
Proof.
  revert h1 h2. induction p as [b| |c k IH]; intros h1 h2; cbn; [done|done|].
  intros [P1 K1] [P2 K2]. split; [done|]. intros r. by apply IH.
Qed.

Arguments prog {cmd} resp A.
Arguments Ret {cmd resp A} a.
Arguments More {cmd resp A}.
Arguments Act {cmd resp A} c k.
Arguments Waits {W A}.
Arguments Panics {W A}.
Arguments Answers {W A} a w.
Arguments system {cmd} resp W A.
Arguments mkSystem {cmd resp W A} _ _ _.
Arguments shared {cmd resp W A} _.
Arguments procs {cmd resp W A} _.
Arguments crashed {cmd resp W A} _.

(** Goes through the branches of a process that is given in full: the
    innermost case distinctions first. *)
Ltac walk tac :=
  repeat first [solve [tac]|match goal with
    | |- _ ∧ _ => split
    | |- ∀ _, _ => intros ?
    | |- context [match ?x with _ => _ end] =>
        lazymatch x with context [match _ with _ => _ end] => fail | _ => destruct x eqn:? end; cbn
    end].
