(* ===== verification/LocalState.v ===== *)
(** * cache/redisvalue: the state of the local tier

    Models [src/cache/redisvalue/local_state.go].  Every function is one
    critical section of the mutex [mu]; the methods that wait in a loop are
    processes of [TieredCache.v].  A channel is the number of broadcasts before
    it was made: [changed] is closed when a later number is current. *)

From S2P Require Import Prelude GoError.

Local Open Scope Z_scope.

Inductive localPhase : Type := phaseHealthy | phaseBlocking | phaseBlocked | phaseRepairing.
Inductive repairOrigin : Type := repairFromHealthy | repairFromBlocked.
Inductive repairKind : Type := repairMandatory | repairExplicit.
Inductive localDisposition : Type := localCurrent | localNewerGeneration | localBlocked.

#[export] Instance localPhase_eq_dec : EqDecision localPhase.
Proof. solve_decision. Defined.
#[export] Instance repairOrigin_eq_dec : EqDecision repairOrigin.
Proof. solve_decision. Defined.
#[export] Instance repairKind_eq_dec : EqDecision repairKind.
Proof. solve_decision. Defined.
#[export] Instance localDisposition_eq_dec : EqDecision localDisposition.
Proof. solve_decision. Defined.

Record localState : Type := mkLocal {
  phase : localPhase;
  origin : repairOrigin;
  generation : Z;
  active : Z;
  epoch : Z;
  changed : Z
}.

Record repairLease : Type := mkRepair { rl_epoch : Z; rl_origin : repairOrigin; rl_kind : repairKind }.

Definition newLocalState : localState := mkLocal phaseHealthy repairFromHealthy 0 0 0 0.

(** [close(s.changed); s.changed = make(chan struct{})] *)
Definition broadcastLocked (s : localState) : localState :=
  mkLocal (phase s) (origin s) (generation s) (active s) (epoch s) (changed s + 1).

Definition isClosed (s : localState) (ch : Z) : bool := ch <? changed s.

(** The answers of [tryAcquireHealthy]: a lease of the generation, the channel
    to wait for, or an error. *)
Inductive acquired : Type := Leased (gen : Z) | Changing (ch : Z) | Blocked.

Definition tryAcquireHealthy (s : localState) : acquired * localState :=
  if decide (phase s = phaseHealthy) then
    (Leased (generation s), mkLocal (phase s) (origin s) (generation s) (wrap_i64 (active s + 1)) (epoch s) (changed s))
  else if bool_decide (phase s = phaseRepairing) && bool_decide (origin s = repairFromHealthy) then (Changing (changed s), s)
  else (Blocked, s).

(** One round of [acquireMaintenance]: [None] when the lease is taken. *)
Definition tryAcquireMaintenance (s : localState) : option Z * localState :=
  if bool_decide (phase s = phaseHealthy) || bool_decide (phase s = phaseBlocked) then
    (None, mkLocal (phase s) (origin s) (generation s) (wrap_i64 (active s + 1)) (epoch s) (changed s))
  else (Some (changed s), s).

(** [issueTicket] on a lease that is not released. *)
Definition issueTicket (gen : Z) (s : localState) : bool :=
  bool_decide (phase s = phaseHealthy) && (generation s =? gen).

(** [releaseActiveLocked]; [None] is the panic on underflow. *)
Definition releaseActiveLocked (s : localState) : option localState :=
  if active s <=? 0 then None
  else
    let s := mkLocal (phase s) (origin s) (generation s) (wrap_i64 (active s - 1)) (epoch s) (changed s) in
    Some (if (active s =? 0) && bool_decide (phase s = phaseRepairing) then broadcastLocked s else s).

Definition classifyLocked (gen : Z) (s : localState) : localDisposition :=
  match phase s with
  | phaseHealthy => if generation s =? gen then localCurrent else localNewerGeneration
  | phaseRepairing => if decide (origin s = repairFromHealthy) then localNewerGeneration else localBlocked
  | _ => localBlocked
  end.

(** The condition of the drain loop and the test after it: wait for the
    channel, the repair is lost, or every lease is released. *)
Inductive drained : Type := Draining (ch : Z) | Lost | Drained.

Definition tryDrain (lease : repairLease) (s : localState) : drained :=
  let mine := bool_decide (phase s = phaseRepairing) && (epoch s =? rl_epoch lease) in
  if (0 <? active s) && mine then Draining (changed s)
  else if negb mine then Lost
  else Drained.

(** The answers of one round of [beginRepairAtGeneration]: another repair is
    under way, the generation is not the expected one, or the repair starts and
    the drain loop is entered. *)
Inductive began : Type := Busy (ch : Z) | Mismatch (d : localDisposition) | Began (lease : repairLease) (first : drained).

Definition tryBeginRepair (kind : repairKind) (expected : option Z) (s : localState) : began * localState :=
  if decide (phase s = phaseRepairing) then (Busy (changed s), s)
  else if match expected with Some g => negb (generation s =? g) | None => false end then
    (Mismatch (match expected with Some g => classifyLocked g s | None => localCurrent end), s)
  else
    let from :=
      if bool_decide (phase s = phaseBlocked) || bool_decide (phase s = phaseBlocking) then repairFromBlocked
      else repairFromHealthy in
    let s := mkLocal phaseRepairing from (wrap_u64 (generation s + 1)) (active s) (wrap_u64 (epoch s + 1)) (changed s) in
    let lease := mkRepair (epoch s) from kind in
    (Began lease (tryDrain lease (broadcastLocked s)), broadcastLocked s).

(** The end of the drain loop when the context is done. *)
Definition cancelDrain (lease : repairLease) (s : localState) : localState :=
  if bool_decide (phase s = phaseRepairing) && (epoch s =? rl_epoch lease) then
    broadcastLocked (mkLocal phaseBlocked repairFromBlocked (generation s) (active s) (epoch s) (changed s))
  else s.

Definition finishRepair (lease : repairLease) (repairErr : option error) (s : localState) : bool * localState :=
  if negb (bool_decide (phase s = phaseRepairing)) || negb (epoch s =? rl_epoch lease) then (false, s)
  else
    let healed := bool_decide (repairErr = None) &&
      (bool_decide (rl_origin lease = repairFromHealthy) || bool_decide (rl_kind lease = repairExplicit)) in
    (healed, broadcastLocked
      (if healed then mkLocal phaseHealthy repairFromHealthy (generation s) (active s) (epoch s) (changed s)
       else mkLocal phaseBlocked repairFromBlocked (generation s) (active s) (epoch s) (changed s))).

Definition block (s : localState) : localState :=
  if bool_decide (phase s = phaseBlocking) || bool_decide (phase s = phaseBlocked) then s
  else
    let s := broadcastLocked
      (mkLocal phaseBlocking repairFromBlocked (wrap_u64 (generation s + 1)) (active s) (wrap_u64 (epoch s + 1)) (changed s)) in
    broadcastLocked (mkLocal phaseBlocked (origin s) (generation s) (active s) (epoch s) (changed s)).
