(* ===== verification/RedisValue.v ===== *)
(** * cache/redisvalue: configuration, errors, TTLs and the remote tier

    Models [src/cache/redisvalue] config.go, errors.go, ttl.go, value_cache.go
    and clear.go.  The operations of [ValueCache] are processes over the
    commands of a Redis server; [cmd] holds the commands of the whole package,
    and [TieredCache.v] says what they do.

    The serializer and [sha256.Sum256] are parameters.  A context answers each
    observation as the environment chooses. *)

From S2P Require Import Prelude GoError GoText GoEncoding RedisKey Process LocalState.

Local Open Scope Z_scope.

Definition millisecond : Z := 1000000.
Definition second : Z := 1000 * millisecond.

Definition maxNamespaceBytes : Z := 128.
Definition maxLogicalKeyBytes : Z := 1024.
Definition maxValueBytes : Z := Z.shiftl 64 20.
Definition maxClearBatchSize : Z := 1000.

(** ** Errors *)

Inductive Reason : Type :=
| ReasonConfiguration
| ReasonUninitialized
| ReasonSerialization
| ReasonPayloadTooLarge
| ReasonInvalidPayload
| ReasonLocalFailure
| ReasonLocalBlocked
| ReasonProviderFailure
| ReasonPartialClear.

#[export] Instance Reason_eq_dec : EqDecision Reason.
Proof. solve_decision. Defined.

Definition reasonField (r : Reason) : field :=
  FStr match r with
  | ReasonConfiguration => "configuration"
  | ReasonUninitialized => "uninitialized"
  | ReasonSerialization => "serialization"
  | ReasonPayloadTooLarge => "payload-too-large"
  | ReasonInvalidPayload => "invalid-payload"
  | ReasonLocalFailure => "local-failure"
  | ReasonLocalBlocked => "local-blocked"
  | ReasonProviderFailure => "provider-failure"
  | ReasonPartialClear => "partial-clear"
  end.

Record ClearProgress : Type := mkProgress { ScannedKeys : Z; UnlinkedBatches : Z }.

(** The fields of a [CacheError] are its operation, reason, key id and, for a
    partial clear, the progress. *)
Definition newCacheError (operation : string) (reason : Reason) (keyID : text) (cause : option error) : error :=
  Typed "redisvalue.CacheError" [FStr operation; reasonField reason; fieldOf keyID] [] cause.

Definition newPartialClearError (operation : string) (progress : ClearProgress) (cause : error) : error :=
  Typed "redisvalue.CacheError"
    [FStr operation; reasonField ReasonPartialClear; fieldOf ([] : text); FInt (ScannedKeys progress); FInt (UnlinkedBatches progress)]
    [] (Some cause).

(** [errors.As(err, &cacheErr)]: the fields of the first [CacheError]. *)
Fixpoint asCacheError (err : error) : option (list field) :=
  let fix first (es : list error) : option (list field) :=
    match es with
    | [] => None
    | e :: rest => match asCacheError e with Some fs => Some fs | None => first rest end
    end in
  match err with
  | Sentinel _ => None
  | Errorf _ ws => first ws
  | Joined es => first es
  | Typed ty fs _ cause =>
      if String.eqb ty "redisvalue.CacheError" then Some fs
      else match cause with Some e => asCacheError e | None => None end
  end.

(** [errors.As(err, &cacheErr) && cacheErr.Reason() == reason] *)
Definition hasReason (err : error) (reason : Reason) : bool :=
  match asCacheError err with
  | Some (_ :: FStr r :: _) => match reasonField reason with FStr r' => String.eqb r r' | _ => false end
  | _ => false
  end.

(** ** TTLs *)

Definition validateEntryTTL (ttl : Z) : option error :=
  if ttl <? 0 then Some (Errorf "%w: negative cache ttl" [ErrInvalidTTL]) else None.

(** [d.Truncate(m)] for a positive [d]. *)
Definition Truncate (d m : Z) : Z := d - d mod m.

Definition normalizeWireTTL (ttl : Z) : Z :=
  if ttl =? 0 then 0
  else if ttl <? millisecond then millisecond
  else if ttl mod second =? 0 then Truncate ttl second
  else Truncate ttl millisecond.

(** [knownWriteLocalTTL] with the value of [now().Sub(started)]. *)
Definition knownWriteLocalTTL (localTTL remoteTTL elapsed : Z) : option Z :=
  if remoteTTL =? 0 then Some localTTL
  else
    let remaining := wrap_i64 (normalizeWireTTL remoteTTL - elapsed) in
    if remaining <=? 0 then None
    else if localTTL <? remaining then Some localTTL
    else Some remaining.

(** ** Configuration *)

Record ValueConfig : Type := mkValueConfig { RemoteTTL : Z; MaxValueBytes : Z; ClearBatchSize : Z }.
Record TieredConfig : Type := mkTieredConfig { LocalTTL : Z; InvalidationWaitTimeout : Z; LocalCleanupTimeout : Z }.

Definition DefaultValueConfig : ValueConfig := mkValueConfig (3600 * second) (Z.shiftl 1 20) 100.
Definition DefaultTieredConfig : TieredConfig := mkTieredConfig (1800 * second) (30 * second) second.

Definition configError (cause : error) : error := newCacheError "validate-config" ReasonConfiguration [] (Some cause).

Definition validateValueConfig (c : ValueConfig) : option error :=
  match validateEntryTTL (RemoteTTL c) with
  | Some err => Some (configError err)
  | None =>
      if (MaxValueBytes c <? 1) || (maxValueBytes <? MaxValueBytes c) then
        Some (configError (Errorf "max value bytes must be between 1 and %d" []))
      else if (ClearBatchSize c <? 1) || (maxClearBatchSize <? ClearBatchSize c) then
        Some (configError (Errorf "clear batch size must be between 1 and %d" []))
      else None
  end.

Definition invalidPositiveDuration (name : string) : error := configError (Errorf name [ErrInvalidTTL]).

Definition validateTieredConfig (c : TieredConfig) : option error :=
  if LocalTTL c <=? 0 then Some (invalidPositiveDuration "local ttl")
  else if InvalidationWaitTimeout c <=? 0 then Some (invalidPositiveDuration "invalidation wait timeout")
  else if LocalCleanupTimeout c <=? 0 then Some (invalidPositiveDuration "local cleanup timeout")
  else None.

(** [Config.Validate] *)
Definition Config_Validate (v : ValueConfig) (t : TieredConfig) : option error :=
  match validateValueConfig v with
  | Some err => Some err
  | None =>
      match validateTieredConfig t with
      | Some err => Some err
      | None =>
          if (0 <? RemoteTTL v) && (RemoteTTL v <? LocalTTL t) then
            Some (configError (Errorf "local ttl exceeds remote ttl: %w" [ErrInvalidTTL]))
          else None
      end
  end.

Definition namespaceByte (c : Z) : bool :=
  ((97 <=? c) && (c <=? 122)) || ((65 <=? c) && (c <=? 90)) || ((48 <=? c) && (c <=? 57)) ||
  (c =? 46) || (c =? 95) || (c =? 45).

Definition validateNamespace (namespace : text) : option error :=
  if (length namespace =? 0)%nat || (maxNamespaceBytes <? byteLen namespace) || negb (forallb namespaceByte namespace) then
    Some (Errorf "%w: invalid namespace" [ErrInvalidKey])
  else None.

Definition validateLogicalKey (key : text) : option error :=
  if (length key =? 0)%nat || (maxLogicalKeyBytes <? byteLen key) || bool_decide (TrimSpace key = []) then
    Some (Errorf "%w: invalid logical key" [ErrInvalidKey])
  else None.

Definition newValueKeyBuilder (namespace : text) : result KeyBuilder :=
  match validateNamespace namespace with
  | Some err => Fail err
  | None =>
      match NewKeyBuilder (lit "bluetape:cache:value") with
      | Fail err => Fail err
      | Ok builder => Structural builder [namespace]
      end
  end.

(** ** Commands *)

(** A coordinator and a flight of it, by number. *)
Notation flightID := (nat * Z)%type.

Section redisvalue.
Context {V : Type}.

Inductive cmd : Type :=
(* the context, the clock, the loader *)
| CtxErr
| Now
| Load (key : text)
(* the local state *)
| TryAcquireHealthy
| TryAcquireMaintenance
| IssueTicket (gen : Z)
| ReleaseLease
| ReleaseMaintenance
| BeginRepair (kind : repairKind) (expected : option Z)
| Drain (lease : repairLease)
| CancelDrain (lease : repairLease)
| FinishRepair (lease : repairLease) (err : option error)
| Block
| Classify (gen : Z)
| GenerationValue
| WaitChanged (ch : Z)
(* the local cache; [gen] is the generation that admitted the value *)
| LocalGet (key : text)
| LocalSet (key : text) (value : V) (ttl gen : Z)
| LocalDelete (key : text)
| LocalClear
(* Redis *)
| GetRange (key : text) (last : Z)
| GetRangeExists (key : text) (last : Z)
| RedisSet (key : text) (value : list Z) (ttl : Z)
| RedisDel (key : text)
| RedisScan (cursor : Z) (pattern : text) (count : Z)
| RedisUnlink (keys : list text)
(* the coordinators *)
| CoordAcquire (key : text)
| CoordRelease (key : text) (c : nat)
| TokenEnter (c : nat)
| TokenReceive (c : nat)
| TokenCancel (c : nat)
| TokenLeave (c : nat)
| TokenSend (c : nat)
| JoinFlight (c : nat)
| PublishFlight (f : flightID) (r : result V)
| AwaitFlight (f : flightID)
| ConsumeFlight (f : flightID)
| AbandonFlight (f : flightID) (err : error).

Definition resp (c : cmd) : Type :=
  match c with
  | CtxErr => option error
  | Now => Z
  | Load _ => option (result V)
  | TryAcquireHealthy => acquired
  | TryAcquireMaintenance => option Z
  | IssueTicket _ => bool
  | ReleaseLease | ReleaseMaintenance | CancelDrain _ | Block => unit
  | BeginRepair _ _ => began
  | Drain _ => drained
  | FinishRepair _ _ => bool
  | Classify _ => localDisposition
  | GenerationValue => Z
  | WaitChanged _ => option error
  | LocalGet _ => result V
  | LocalSet _ _ _ _ | LocalDelete _ | LocalClear => option error
  | GetRange _ _ => result (list Z)
  | GetRangeExists _ _ => result (list Z * bool)
  | RedisSet _ _ _ | RedisDel _ | RedisUnlink _ => option error
  | RedisScan _ _ _ => result (list text * Z)
  | CoordAcquire _ => nat
  | CoordRelease _ _ | TokenEnter _ | TokenCancel _ | TokenLeave _ | TokenSend _ => unit
  | TokenReceive _ => option error
  | JoinFlight _ => flightID * bool
  | PublishFlight _ _ => bool
  | AwaitFlight _ => option error
  | ConsumeFlight _ => result V
  | AbandonFlight _ _ => result V
  end.

Definition proc : Type → Type := prog resp.

(** ** The remote tier *)

(** [redisCommandClient.ReadBounded]: an empty answer is read again together
    with the existence of the key, in one transaction.  [None] is an absent
    key. *)
Definition ReadBounded (key : text) (last : Z) : proc (result (option (list Z))) :=
  r ← (act (GetRange key last) : proc (result (list Z)));
  match r with
  | Fail err => mret (if errors_Is err "redis.Nil" then Ok None else Fail err)
  | Ok (b :: encoded) => mret (Ok (Some (b :: encoded)))
  | Ok [] =>
      r ← (act (GetRangeExists key last) : proc (result (list Z * bool)));
      match r with
      | Fail err => mret (Fail err)
      | Ok (encoded, present) => mret (Ok (if present : bool then Some encoded else None))
      end
  end.

Context (sha256 : text → list Z) (Marshal : V → result (list Z)) (Unmarshal : list Z → result V).

Record ValueCache : Type := mkValueCache { keys : KeyBuilder; namespace : text; vconfig : ValueConfig }.

(** [NewValueCache]; [client] and [serializer] say whether they are given. *)
Definition NewValueCache (client serializer : bool) (ns : text) (config : option ValueConfig) : result ValueCache :=
  if negb client || negb serializer then Fail (newCacheError "configure" ReasonConfiguration [] None)
  else
    let config := default DefaultValueConfig config in
    match validateValueConfig config with
    | Some err => Fail err
    | None =>
        match newValueKeyBuilder ns with
        | Fail err => Fail (newCacheError "configure" ReasonConfiguration [] (Some err))
        | Ok builder => Ok (mkValueCache builder ns config)
        end
    end.

(** [operationError] *)
Definition operationError (operation : string) (keyID : text) (cause : error) (commitUnknown : bool) : error :=
  let cause := if commitUnknown then errors_Join (Some cause) (Some ErrCommitUnknown) else Some cause in
  NewOpErrorWithRedactedKey (mkLabels (lit "redisvalue") (lit operation)) keyID cause.

Definition providerError (operation : string) (keyID : text) (cause : error) (commitUnknown : bool) : error :=
  newCacheError operation ReasonProviderFailure keyID (Some (operationError operation keyID cause commitUnknown)).

Definition valueKey (c : ValueCache) (logicalKey : text) : result Key :=
  match validateLogicalKey logicalKey with
  | Some err => Fail err
  | None => LogicalKey sha256 (keys c) logicalKey
  end.

(** [ValueCache.Get] of an initialized cache. *)
Definition Value_Get (c : ValueCache) (logicalKey : text) : proc (result V) :=
  e ← (act CtxErr : proc (option error));
  match e with
  | Some err => mret (Fail err)
  | None =>
      match valueKey c logicalKey with
      | Fail err => mret (Fail err)
      | Ok key =>
          r ← ReadBounded (Value key) (MaxValueBytes (vconfig c));
          match r with
          | Fail err => mret (Fail (providerError "get" (RedactedID key) err false))
          | Ok None => mret (Fail (Sentinel "cache.ErrCacheMiss"))
          | Ok (Some encoded) =>
              if MaxValueBytes (vconfig c) <? Z.of_nat (length encoded) then
                mret (Fail (newCacheError "get" ReasonPayloadTooLarge (RedactedID key) None))
              else
                e ← (act CtxErr : proc (option error));
                match e with
                | Some err => mret (Fail err)
                | None =>
                    match Unmarshal encoded with
                    | Fail err => mret (Fail (newCacheError "get" ReasonInvalidPayload (RedactedID key) (Some err)))
                    | Ok value => mret (Ok value)
                    end
                end
          end
      end
  end.

(** [ValueCache.Set] *)
Definition Value_Set (c : ValueCache) (logicalKey : text) (value : V) (ttl : Z) : proc (option error) :=
  e ← (act CtxErr : proc (option error));
  match e with
  | Some err => mret (Some err)
  | None =>
      match valueKey c logicalKey with
      | Fail err => mret (Some err)
      | Ok key =>
          match validateEntryTTL ttl with
          | Some err => mret (Some err)
          | None =>
              match Marshal value with
              | Fail err => mret (Some (newCacheError "set" ReasonSerialization (RedactedID key) (Some err)))
              | Ok encoded =>
                  if MaxValueBytes (vconfig c) <? Z.of_nat (length encoded) then
                    mret (Some (newCacheError "set" ReasonPayloadTooLarge (RedactedID key) None))
                  else
                    e ← (act CtxErr : proc (option error));
                    match e with
                    | Some err => mret (Some err)
                    | None =>
                        e ← (act (RedisSet (Value key) encoded (normalizeWireTTL ttl)) : proc (option error));
                        mret (match e with
                              | Some err => Some (providerError "set" (RedactedID key) err true)
                              | None => None
                              end)
                    end
              end
          end
      end
  end.

(** [ValueCache.SetDefault] *)
Definition Value_SetDefault (c : ValueCache) (key : text) (value : V) : proc (option error) :=
  Value_Set c key value (RemoteTTL (vconfig c)).

(** [ValueCache.Delete] *)
Definition Value_Delete (c : ValueCache) (logicalKey : text) : proc (option error) :=
  e ← (act CtxErr : proc (option error));
  match e with
  | Some err => mret (Some err)
  | None =>
      match valueKey c logicalKey with
      | Fail err => mret (Some err)
      | Ok key =>
          e ← (act (RedisDel (Value key)) : proc (option error));
          mret (match e with
                | Some err => Some (providerError "delete" (RedactedID key) err true)
                | None => None
                end)
      end
  end.

(** The inner loop of [Clear]: the batches of one page; one unit of fuel per
    batch. *)
Fixpoint unlinkLoop (fuel : nat) (c : ValueCache) (patternID : text) (ks : list text) (progress : ClearProgress)
    : proc (ClearProgress + error) :=
  match fuel with
  | O => More
  | S fuel =>
      match ks with
      | [] => mret (inl progress)
      | _ =>
          e ← (act CtxErr : proc (option error));
          match e with
          | Some err => mret (inr (newPartialClearError "clear" progress err))
          | None =>
              let batch := take (Z.to_nat (ClearBatchSize (vconfig c))) ks in
              e ← (act (RedisUnlink batch) : proc (option error));
              match e with
              | Some err => mret (inr (newPartialClearError "clear" progress (operationError "unlink" patternID err true)))
              | None =>
                  unlinkLoop fuel c patternID (drop (Z.to_nat (ClearBatchSize (vconfig c))) ks)
                    (mkProgress (ScannedKeys progress) (UnlinkedBatches progress + 1))
              end
          end
      end
  end.

(** The loop of [Clear] over the pages of the scan; one unit of fuel per page. *)
Fixpoint clearLoop (fuel : nat) (c : ValueCache) (pattern patternID : text) (cursor : Z) (progress : ClearProgress)
    : proc (option error) :=
  match fuel with
  | O => More
  | S fuel =>
      e ← (act CtxErr : proc (option error));
      match e with
      | Some err => mret (Some (newPartialClearError "clear" progress err))
      | None =>
          r ← (act (RedisScan cursor pattern (ClearBatchSize (vconfig c))) : proc (result (list text * Z)));
          match r with
          | Fail err => mret (Some (newPartialClearError "clear" progress (operationError "scan" patternID err false)))
          | Ok (ks, next) =>
              u ← unlinkLoop (S (length ks)) c patternID ks
                    (mkProgress (ScannedKeys progress + Z.of_nat (length ks)) (UnlinkedBatches progress));
              match u with
              | inr err => mret (Some err)
              | inl progress => if next =? 0 then mret None else clearLoop fuel c pattern patternID next progress
              end
          end
      end
  end.

(** [ValueCache.Clear] *)
Definition Value_Clear (fuel : nat) (c : ValueCache) : proc (option error) :=
  e ← (act CtxErr : proc (option error));
  match e with
  | Some err => mret (Some err)
  | None =>
      let pattern := lit "bluetape:cache:value:" ++ namespace c ++ lit ":*" in
      clearLoop fuel c pattern (RedactedKeyID sha256 pattern) 0 (mkProgress 0 0)
  end.
End redisvalue.

Arguments cmd V : clear implicits.
Arguments proc V A : clear implicits.
