(* ===== verification/TieredCache.v ===== *)
(** * cache/redisvalue: the tiered cache

    Models [src/cache/redisvalue] coordination.go and tiered_cache.go: every
    method of [TieredCache] is a process over the commands of [RedisValue.v],
    written as the code writes it, and [exec] says what the commands do to the
    state that the goroutines share: the local state, the two tiers and the
    coordinators.

    The caches are initialized and the loader is given.  [ctx] is the context
    of the caller or one derived from it; every observation of a context, and
    every failure of a tier, is a choice of the environment.  A tier that fails
    has applied the operation or not.  One unit of fuel is one round of a
    waiting or retrying loop. *)

From S2P Require Import Prelude GoError GoText GoEncoding RedisKey Process LocalState RedisValue.

Local Open Scope Z_scope.

Section tiered.
Context {V : Type} (sha256 : text → list Z) (Marshal : V → result (list Z)) (Unmarshal : list Z → result V).

Record TieredCache : Type := mkTiered { remote : ValueCache; config : TieredConfig }.

(** [NewTieredCache]; [local] says whether the local cache is given. *)
Definition NewTieredCache (local : bool) (r : option ValueCache) (c : option TieredConfig) : result TieredCache :=
  match local, r with
  | true, Some r =>
      let c := default DefaultTieredConfig c in
      match validateTieredConfig c with
      | Some err => Fail err
      | None =>
          if (0 <? RemoteTTL (vconfig r)) && (RemoteTTL (vconfig r) <? LocalTTL c) then
            Fail (newCacheError "configure-tiered" ReasonConfiguration []
              (errors_Join (Some ErrInvalidTTL) (Some (Errorf "local ttl exceeds remote default ttl" []))))
          else Ok (mkTiered r c)
      end
  | _, _ => Fail (newCacheError "configure-tiered" ReasonConfiguration [] None)
  end.

(** ** Commands with their types *)

Definition ctxErr : proc V (option error) := act CtxErr.
Definition classify (gen : Z) : proc V localDisposition := act (Classify gen).
Definition waitChanged (ch : Z) : proc V (option error) := act (WaitChanged ch).
Definition releaseLease : proc V unit := act ReleaseLease.

(** ** Errors *)

Section methods.
Context (c : TieredCache).

Definition keyID (key : text) : text :=
  match LogicalKey sha256 (keys (remote c)) key with Ok physical => RedactedID physical | Fail _ => [] end.

Definition localFailureError (operation : string) (key : text) (cause : option error) : error :=
  newCacheError operation ReasonLocalFailure (keyID key) cause.

Definition localBlockedCallError (operation : string) (key : text) (cause : option error) : error :=
  newCacheError operation ReasonLocalBlocked (keyID key) cause.

(** [localBlockedError(nil)] *)
Definition localBlockedError : error := newCacheError "local-state" ReasonLocalBlocked [] None.

Definition withCallOperation (operation : string) (key : text) (err : error) : error :=
  if hasReason err ReasonLocalBlocked then localBlockedCallError operation key (Some err) else err.

Definition validateCall (key : text) : proc V (option error) :=
  e ← ctxErr;
  mret (match e with Some err => Some err | None => validateLogicalKey key end).

(** ** Waiting for the local state *)

(** [localState.acquireHealthy] *)
Fixpoint acquireHealthy (fuel : nat) : proc V (result Z) :=
  match fuel with
  | O => More
  | S fuel =>
      e ← ctxErr;
      match e with
      | Some err => mret (Fail err)
      | None =>
          a ← (act TryAcquireHealthy : proc V acquired);
          match a with
          | Blocked => mret (Fail localBlockedError)
          | Leased gen => mret (Ok gen)
          | Changing ch =>
              e ← waitChanged ch;
              match e with Some err => mret (Fail err) | None => acquireHealthy fuel end
          end
      end
  end.

(** [localState.acquireMaintenance] *)
Fixpoint acquireMaintenance (fuel : nat) : proc V (option error) :=
  match fuel with
  | O => More
  | S fuel =>
      e ← ctxErr;
      match e with
      | Some err => mret (Some err)
      | None =>
          a ← (act TryAcquireMaintenance : proc V (option Z));
          match a with
          | None => mret None
          | Some ch =>
              e ← waitChanged ch;
              match e with Some err => mret (Some err) | None => acquireMaintenance fuel end
          end
      end
  end.

(** The answers of [beginRepairAtGeneration]. *)
Inductive repairAnswer : Type :=
| Repair (lease : repairLease)
| Disposition (d : localDisposition)
| RepairError (err : error).

(** The drain loop of [beginRepairAtGeneration]. *)
Fixpoint drainLoop (fuel : nat) (lease : repairLease) (d : drained) : proc V repairAnswer :=
  match d with
  | Lost => mret (RepairError localBlockedError)
  | Drained => mret (Repair lease)
  | Draining ch =>
      match fuel with
      | O => More
      | S fuel =>
          e ← waitChanged ch;
          match e with
          | Some err => _ ← (act (CancelDrain lease) : proc V unit); mret (RepairError err)
          | None => d ← (act (Drain lease) : proc V drained); drainLoop fuel lease d
          end
      end
  end.

(** [localState.beginRepairAtGeneration] *)
Fixpoint beginRepairAtGeneration (fuel : nat) (kind : repairKind) (expected : option Z) : proc V repairAnswer :=
  match fuel with
  | O => More
  | S fuel =>
      e ← ctxErr;
      match e with
      | Some err => mret (RepairError err)
      | None =>
          b ← (act (BeginRepair kind expected) : proc V began);
          match b with
          | Busy ch =>
              e ← waitChanged ch;
              match e with
              | Some err => mret (RepairError err)
              | None => beginRepairAtGeneration fuel kind expected
              end
          | Mismatch d => mret (Disposition d)
          | Began lease first => drainLoop fuel lease first
          end
      end
  end.

(** [localState.beginRepair] *)
Definition beginRepair (fuel : nat) (kind : repairKind) : proc V repairAnswer := beginRepairAtGeneration fuel kind None.

(** ** Coordinators *)

(** [keyCoordinator.acquireToken] *)
Definition acquireToken (k : nat) : proc V (option error) :=
  _ ← (act (TokenEnter k) : proc V unit);
  e ← (act (TokenReceive k) : proc V (option error));
  match e with
  | Some err => _ ← (act (TokenCancel k) : proc V unit); mret (Some err)
  | None => mret None
  end.

(** [keyCoordinator.releaseToken] *)
Definition releaseToken (k : nat) : proc V unit :=
  _ ← (act (TokenLeave k) : proc V unit);
  (act (TokenSend k) : proc V unit).

(** [keyCoordinator.waitFlight] *)
Definition waitFlight (f : flightID) : proc V (result V) :=
  e ← (act (AwaitFlight f) : proc V (option error));
  match e with
  | None => (act (ConsumeFlight f) : proc V (result V))
  | Some err => (act (AbandonFlight f err) : proc V (result V))
  end.

(** [defer func() { if tokenHeld { coordinator.releaseToken() } }()] and the
    deferred release of the coordinator. *)
Definition finishCall {A} (key : text) (k : nat) (tokenHeld : bool) (a : A) : proc V A :=
  _ ← (if tokenHeld then releaseToken k else mret tt);
  _ ← (act (CoordRelease key k) : proc V unit);
  mret a.

(** The answers of [acquireHealthyForLeader], with the value of [tokenHeld]
    after an error. *)
Inductive leaderLease : Type :=
| LeaderLease (gen : Z)
| LeaderRetry
| LeaderError (err : error) (tokenHeld : bool).

Definition acquireHealthyForLeader (k : nat) : proc V leaderLease :=
  a ← (act TryAcquireHealthy : proc V acquired);
  match a with
  | Blocked => mret (LeaderError localBlockedError true)
  | Leased gen => mret (LeaderLease gen)
  | Changing ch =>
      _ ← releaseToken k;
      e ← waitChanged ch;
      match e with
      | Some err => mret (LeaderError err false)
      | None =>
          e ← acquireToken k;
          match e with
          | Some err => mret (LeaderError err false)
          | None => mret LeaderRetry
          end
      end
  end.

(** ** The local tier *)

Definition invalidateLocalHeld (fuel : nat) (key : text) : proc V (option error) :=
  e ← acquireMaintenance fuel;
  match e with
  | Some err =>
      _ ← (act Block : proc V unit);
      mret (Some (localBlockedCallError "invalidate-local" key (Some err)))
  | None =>
      localErr ← (act (LocalDelete key) : proc V (option error));
      _ ← (act ReleaseMaintenance : proc V unit);
      match localErr with
      | Some err =>
          _ ← (act Block : proc V unit);
          mret (Some (localBlockedCallError "invalidate-local" key (Some (localFailureError "delete-local" key (Some err)))))
      | None => mret None
      end
  end.

(** [mandatoryInvalidateLocalHeld]: the context is another one. *)
Definition mandatoryInvalidateLocalHeld (fuel : nat) (key : text) : proc V (option error) := invalidateLocalHeld fuel key.

Definition populateLocalHeld (fuel : nat) (key : text) (value : V) (ttl expectedGeneration : Z) : proc V (option error) :=
  a ← (act TryAcquireHealthy : proc V acquired);
  match a with
  | Blocked => mret (Some (withCallOperation "populate-local" key localBlockedError))
  | Changing _ => mret None
  | Leased gen =>
      if negb (gen =? expectedGeneration) then _ ← releaseLease; mret None
      else
        e ← ctxErr;
        match e with
        | Some err => _ ← releaseLease; mret (Some err)
        | None =>
            localErr ← (act (LocalSet key value ttl expectedGeneration) : proc V (option error));
            disposition ← classify expectedGeneration;
            _ ← releaseLease;
            match localErr with
            | Some err =>
                let failure := localFailureError "populate-local" key (Some err) in
                cleanupErr ← mandatoryInvalidateLocalHeld fuel key;
                match cleanupErr with
                | Some cleanup =>
                    mret (Some (localBlockedCallError "populate-local" key (errors_Join (Some failure) (Some cleanup))))
                | None =>
                    if decide (disposition = localBlocked) then
                      mret (Some (localBlockedCallError "populate-local" key (Some failure)))
                    else mret (Some failure)
                end
            | None =>
                if decide (disposition = localCurrent) then mret None
                else
                  cleanupErr ← mandatoryInvalidateLocalHeld fuel key;
                  match cleanupErr with
                  | Some cleanup => mret (Some cleanup)
                  | None =>
                      if decide (disposition = localBlocked) then
                        mret (Some (localBlockedCallError "populate-local" key None))
                      else mret None
                  end
            end
        end
  end.

(** [localGet]: the value, if it was a hit. *)
Definition localGet (fuel : nat) (key : text) : proc V (result (option V)) :=
  a ← acquireHealthy fuel;
  match a with
  | Fail err => mret (Fail (withCallOperation "get" key err))
  | Ok gen =>
      r ← (act (LocalGet key) : proc V (result V));
      disposition ← classify gen;
      _ ← releaseLease;
      if decide (disposition = localBlocked) then
        mret (Fail (localBlockedCallError "get" key (match r with Fail err => Some err | Ok _ => None end)))
      else match r with
      | Ok value => mret (Ok (Some value))
      | Fail err =>
          if errors_Is err "cache.ErrCacheMiss" then mret (Ok None)
          else mret (Fail (localFailureError "get" key (Some err)))
      end
  end.

Definition mutationResult (operation : string) (key : text) (gen : Z) (primaryErr cleanupErr : option error)
    : proc V (option error) :=
  match cleanupErr with
  | Some _ => mret (Some (localBlockedCallError operation key (errors_Join primaryErr cleanupErr)))
  | None =>
      d ← classify gen;
      if decide (d = localBlocked) then mret (Some (localBlockedCallError operation key primaryErr))
      else mret primaryErr
  end.

(** ** Reads *)

(** The loop of [getRemoteCoordinated]: the answer and [tokenHeld]. *)
Fixpoint getRemoteLoop (fuel : nat) (key : text) (k : nat) : proc V (result V * bool) :=
  match fuel with
  | O => More
  | S fuel =>
      a ← (act TryAcquireHealthy : proc V acquired);
      match a with
      | Blocked => mret (Fail (withCallOperation "get" key localBlockedError), true)
      | Changing ch =>
          _ ← releaseToken k;
          e ← waitChanged ch;
          match e with
          | Some err => mret (Fail err, false)
          | None =>
              e ← acquireToken k;
              match e with
              | Some err => mret (Fail err, false)
              | None => getRemoteLoop fuel key k
              end
          end
      | Leased gen =>
          r ← (act (LocalGet key) : proc V (result V));
          disposition ← classify gen;
          match r with
          | Ok value =>
              _ ← releaseLease;
              if decide (disposition = localBlocked) then mret (Fail (localBlockedCallError "get" key None), true)
              else mret (Ok value, true)
          | Fail err =>
              if negb (errors_Is err "cache.ErrCacheMiss") then
                _ ← releaseLease;
                if decide (disposition = localBlocked) then mret (Fail (localBlockedCallError "get" key (Some err)), true)
                else mret (Fail (localFailureError "get" key (Some err)), true)
              else
                admitted ← (act (IssueTicket gen) : proc V bool);
                _ ← releaseLease;
                if negb admitted then
                  d ← classify gen;
                  if decide (d = localBlocked) then mret (Fail (localBlockedCallError "get" key None), true)
                  else getRemoteLoop fuel key k
                else
                  e ← ctxErr;
                  match e with
                  | Some err => mret (Fail err, true)
                  | None =>
                      r ← Value_Get sha256 Unmarshal (remote c) key;
                      disposition ← classify gen;
                      if decide (disposition = localBlocked) then
                        mret (Fail (localBlockedCallError "get" key (match r with Fail err => Some err | Ok _ => None end)), true)
                      else match r with
                      | Fail err => mret (Fail err, true)
                      | Ok remoteValue =>
                          if decide (disposition = localNewerGeneration) then mret (Ok remoteValue, true)
                          else
                            e ← populateLocalHeld fuel key remoteValue (LocalTTL (config c)) gen;
                            match e with
                            | Some err => mret (Fail err, true)
                            | None => mret (Ok remoteValue, true)
                            end
                      end
                  end
          end
      end
  end.

Definition getRemoteCoordinated (fuel : nat) (key : text) : proc V (result V) :=
  k ← (act (CoordAcquire key) : proc V nat);
  e ← acquireToken k;
  match e with
  | Some err => finishCall key k false (Fail err)
  | None => '(r, tokenHeld) ← getRemoteLoop fuel key k; finishCall key k tokenHeld r
  end.

(** [TieredCache.Get] *)
Definition Get (fuel : nat) (key : text) : proc V (result V) :=
  e ← validateCall key;
  match e with
  | Some err => mret (Fail err)
  | None =>
      r ← localGet fuel key;
      match r with
      | Fail err => mret (Fail err)
      | Ok (Some value) => mret (Ok value)
      | Ok None => getRemoteCoordinated fuel key
      end
  end.

(** ** Loading *)

(** How a call of the loader ends: with a panic, or with a result and
    [tokenHeld]. *)
Inductive leaderResult : Type :=
| LoaderPanics
| LeaderResult (r : result V) (tokenHeld : bool).

Definition leaderFail (err : error) : proc V leaderResult := mret (LeaderResult (Fail err) true).
Definition leaderValue (v : V) : proc V leaderResult := mret (LeaderResult (Ok v) true).

(** The end of [runLoadLeader]: the loaded value is written to both tiers. *)
Definition storeLoaded (fuel : nat) (key : text) (remoteTTL : Z) (gen : Z) (loaded : V) : proc V leaderResult :=
  a ← (act TryAcquireHealthy : proc V acquired);
  match a with
  | Blocked => leaderFail (withCallOperation "get-or-load" key localBlockedError)
  | Changing _ => leaderValue loaded
  | Leased wgen =>
      if negb (wgen =? gen) then
        _ ← releaseLease;
        d ← classify gen;
        if decide (d = localBlocked) then leaderFail (localBlockedCallError "get-or-load" key None) else leaderValue loaded
      else
        admitted ← (act (IssueTicket wgen) : proc V bool);
        _ ← releaseLease;
        if negb admitted then
          d ← classify gen;
          if decide (d = localBlocked) then leaderFail (localBlockedCallError "get-or-load" key None) else leaderValue loaded
        else
          e ← ctxErr;
          match e with
          | Some err => leaderFail err
          | None =>
              started ← (act Now : proc V Z);
              remoteErr ← Value_Set sha256 Marshal (remote c) key loaded remoteTTL;
              disposition ← classify gen;
              if decide (disposition = localBlocked) then leaderFail (localBlockedCallError "get-or-load" key remoteErr)
              else match remoteErr with
              | Some err => leaderFail err
              | None =>
                  if decide (disposition = localNewerGeneration) then leaderValue loaded
                  else
                    now ← (if remoteTTL =? 0 then mret 0 else act Now : proc V Z);
                    match knownWriteLocalTTL (LocalTTL (config c)) remoteTTL (now - started) with
                    | None => leaderValue loaded
                    | Some localTTL =>
                        e ← populateLocalHeld fuel key loaded localTTL gen;
                        match e with
                        | Some err => leaderFail err
                        | None => leaderValue loaded
                        end
                    end
              end
          end
  end.

(** [runLoadLeader] *)
Fixpoint runLoadLeader (fuel : nat) (key : text) (remoteTTL : Z) (k : nat) : proc V leaderResult :=
  match fuel with
  | O => More
  | S fuel =>
      a ← acquireHealthyForLeader k;
      match a with
      | LeaderError err tokenHeld => mret (LeaderResult (Fail (withCallOperation "get-or-load" key err)) tokenHeld)
      | LeaderRetry => runLoadLeader fuel key remoteTTL k
      | LeaderLease gen =>
          r ← (act (LocalGet key) : proc V (result V));
          disposition ← classify gen;
          match r with
          | Ok localValue =>
              _ ← releaseLease;
              if decide (disposition = localBlocked) then leaderFail (localBlockedCallError "get-or-load" key None)
              else leaderValue localValue
          | Fail localErr =>
              if negb (errors_Is localErr "cache.ErrCacheMiss") then
                _ ← releaseLease;
                if decide (disposition = localBlocked) then
                  leaderFail (localBlockedCallError "get-or-load" key (Some localErr))
                else leaderFail (localFailureError "get-or-load" key (Some localErr))
              else
                admitted ← (act (IssueTicket gen) : proc V bool);
                _ ← releaseLease;
                if negb admitted then
                  d ← classify gen;
                  if decide (d = localBlocked) then leaderFail (localBlockedCallError "get-or-load" key None)
                  else runLoadLeader fuel key remoteTTL k
                else
                  e ← ctxErr;
                  match e with
                  | Some err => leaderFail err
                  | None =>
                      r ← Value_Get sha256 Unmarshal (remote c) key;
                      disposition ← classify gen;
                      if decide (disposition = localBlocked) then
                        leaderFail (localBlockedCallError "get-or-load" key (match r with Fail err => Some err | Ok _ => None end))
                      else match r with
                      | Ok remoteValue =>
                          if decide (disposition = localNewerGeneration) then leaderValue remoteValue
                          else
                            e ← populateLocalHeld fuel key remoteValue (LocalTTL (config c)) gen;
                            match e with
                            | Some err => leaderFail err
                            | None => leaderValue remoteValue
                            end
                      | Fail remoteErr =>
                          if negb (errors_Is remoteErr "cache.ErrCacheMiss") then leaderFail remoteErr
                          else if decide (disposition = localNewerGeneration) then runLoadLeader fuel key remoteTTL k
                          else
                            a ← acquireHealthyForLeader k;
                            match a with
                            | LeaderError err tokenHeld =>
                                mret (LeaderResult (Fail (withCallOperation "get-or-load" key err)) tokenHeld)
                            | LeaderRetry => runLoadLeader fuel key remoteTTL k
                            | LeaderLease lgen =>
                                if negb (lgen =? gen) then _ ← releaseLease; runLoadLeader fuel key remoteTTL k
                                else
                                  admitted ← (act (IssueTicket lgen) : proc V bool);
                                  _ ← releaseLease;
                                  if negb admitted then
                                    d ← classify gen;
                                    if decide (d = localBlocked) then leaderFail (localBlockedCallError "get-or-load" key None)
                                    else runLoadLeader fuel key remoteTTL k
                                  else
                                    e ← ctxErr;
                                    match e with
                                    | Some err => leaderFail err
                                    | None =>
                                        l ← (act (Load key) : proc V (option (result V)));
                                        match l with
                                        | None => mret LoaderPanics
                                        | Some l =>
                                            disposition ← classify gen;
                                            if decide (disposition = localBlocked) then
                                              leaderFail (localBlockedCallError "get-or-load" key
                                                (match l with Fail err => Some err | Ok _ => None end))
                                            else match l with
                                            | Fail err => leaderFail err
                                            | Ok loaded =>
                                                if decide (disposition = localNewerGeneration) then leaderValue loaded
                                                else storeLoaded fuel key remoteTTL gen loaded
                                            end
                                        end
                                    end
                            end
                      end
                  end
          end
      end
  end.

(** What a call of a method gives its caller. *)
Inductive outcome : Type :=
| Returns (r : result V)
| ReturnsErr (err : option error)
| Panicked.

(** [TieredCache.GetOrLoad]: when the loader panics only the deferred release of
    the coordinator runs. *)
Definition GetOrLoad (fuel : nat) (key : text) (remoteTTL : Z) : proc V outcome :=
  e ← validateCall key;
  match e with
  | Some err => mret (Returns (Fail err))
  | None =>
      match validateEntryTTL remoteTTL with
      | Some err => mret (Returns (Fail err))
      | None =>
          r ← localGet fuel key;
          match r with
          | Fail err => mret (Returns (Fail err))
          | Ok (Some value) => mret (Returns (Ok value))
          | Ok None =>
              k ← (act (CoordAcquire key) : proc V nat);
              '(flight, leader) ← (act (JoinFlight k) : proc V (flightID * bool));
              if negb leader then
                r ← waitFlight flight;
                finishCall key k false (Returns r)
              else
                e ← acquireToken k;
                match e with
                | Some err =>
                    _ ← (act (PublishFlight flight (Fail err)) : proc V bool);
                    finishCall key k false (Returns (Fail err))
                | None =>
                    l ← runLoadLeader fuel key remoteTTL k;
                    match l with
                    | LoaderPanics => finishCall key k false Panicked
                    | LeaderResult r tokenHeld =>
                        _ ← (act (PublishFlight flight r) : proc V bool);
                        finishCall key k tokenHeld (Returns r)
                    end
                end
          end
      end
  end.

(** [GetOrLoadDefault] *)
Definition GetOrLoadDefault (fuel : nat) (key : text) : proc V outcome := GetOrLoad fuel key (RemoteTTL (vconfig (remote c))).

(** ** Writes *)

(** The answers of the loop that admits a write: its generation, or an error
    and [tokenHeld]. *)
Inductive admission : Type :=
| Accepted (gen : Z)
| Refused (err : error) (tokenHeld : bool).

(** The first loop of [Set], which [Delete] has too. *)
Fixpoint admitLoop (fuel : nat) (operation : string) (key : text) (k : nat) : proc V admission :=
  match fuel with
  | O => More
  | S fuel =>
      a ← acquireHealthyForLeader k;
      match a with
      | LeaderError err tokenHeld => mret (Refused (withCallOperation operation key err) tokenHeld)
      | LeaderRetry => admitLoop fuel operation key k
      | LeaderLease gen =>
          admitted ← (act (IssueTicket gen) : proc V bool);
          _ ← releaseLease;
          if negb admitted then
            d ← classify gen;
            if decide (d = localBlocked) then mret (Refused (localBlockedCallError operation key None) true)
            else admitLoop fuel operation key k
          else
            e ← ctxErr;
            match e with
            | Some err => mret (Refused err true)
            | None => mret (Accepted gen)
            end
      end
  end.

(** The part of [Set] after the admission. *)
Definition setAdmitted (fuel : nat) (key : text) (value : V) (remoteTTL gen : Z) : proc V (option error) :=
  started ← (act Now : proc V Z);
  remoteErr ← Value_Set sha256 Marshal (remote c) key value remoteTTL;
  disposition ← classify gen;
  match remoteErr with
  | Some err =>
      cleanupErr ← mandatoryInvalidateLocalHeld fuel key;
      mutationResult "set" key gen (Some err) cleanupErr
  | None =>
      e ← ctxErr;
      match e with
      | Some err =>
          cleanupErr ← mandatoryInvalidateLocalHeld fuel key;
          mutationResult "set" key gen (Some err) cleanupErr
      | None =>
          match disposition with
          | localBlocked =>
              cleanupErr ← mandatoryInvalidateLocalHeld fuel key;
              mutationResult "set" key gen None cleanupErr
          | localNewerGeneration => mret None
          | localCurrent =>
              now ← (if remoteTTL =? 0 then mret 0 else act Now : proc V Z);
              match knownWriteLocalTTL (LocalTTL (config c)) remoteTTL (now - started) with
              | None => mret None
              | Some localTTL => populateLocalHeld fuel key value localTTL gen
              end
          end
      end
  end.

(** [TieredCache.Set] *)
Definition Set_ (fuel : nat) (key : text) (value : V) (remoteTTL : Z) : proc V (option error) :=
  e ← validateCall key;
  match e with
  | Some err => mret (Some err)
  | None =>
      match validateEntryTTL remoteTTL with
      | Some err => mret (Some err)
      | None =>
          k ← (act (CoordAcquire key) : proc V nat);
          e ← acquireToken k;
          match e with
          | Some err => finishCall key k false (Some err)
          | None =>
              a ← admitLoop fuel "set" key k;
              match a with
              | Refused err tokenHeld => finishCall key k tokenHeld (Some err)
              | Accepted gen => r ← setAdmitted fuel key value remoteTTL gen; finishCall key k true r
              end
          end
      end
  end.

(** [TieredCache.SetDefault] *)
Definition SetDefault (fuel : nat) (key : text) (value : V) : proc V (option error) :=
  Set_ fuel key value (RemoteTTL (vconfig (remote c))).

(** [TieredCache.Delete] *)
Definition Delete (fuel : nat) (key : text) : proc V (option error) :=
  e ← validateCall key;
  match e with
  | Some err => mret (Some err)
  | None =>
      k ← (act (CoordAcquire key) : proc V nat);
      e ← acquireToken k;
      match e with
      | Some err => finishCall key k false (Some err)
      | None =>
          a ← admitLoop fuel "delete" key k;
          match a with
          | Refused err tokenHeld => finishCall key k tokenHeld (Some err)
          | Accepted gen =>
              remoteErr ← Value_Delete sha256 (remote c) key;
              cleanupErr ← mandatoryInvalidateLocalHeld fuel key;
              remoteErr ← match remoteErr with Some err => mret (Some err) | None => ctxErr end;
              r ← mutationResult "delete" key gen remoteErr cleanupErr;
              finishCall key k true r
          end
      end
  end.

(** [TieredCache.InvalidateLocal] *)
Definition InvalidateLocal (fuel : nat) (key : text) : proc V (option error) :=
  e ← validateCall key;
  match e with
  | Some err => mret (Some err)
  | None =>
      k ← (act (CoordAcquire key) : proc V nat);
      e ← acquireToken k;
      match e with
      | Some err =>
          _ ← (act Block : proc V unit);
          finishCall key k false (Some (localBlockedCallError "invalidate-local" key (Some err)))
      | None => r ← invalidateLocalHeld fuel key; finishCall key k true r
      end
  end.

(** ** Repairs *)

(** The local cache is cleared under a repair lease, and the repair ends. *)
Definition clearUnder (lease : repairLease) : proc V (option error) :=
  e ← (act LocalClear : proc V (option error));
  localErr ← match e with Some err => mret (Some err) | None => ctxErr end;
  healed ← (act (FinishRepair lease localErr) : proc V bool);
  mret (if negb healed then Some (localBlockedCallError "clear-local" [] localErr) else None).

(** [TieredCache.ClearLocal] *)
Definition ClearLocal (fuel : nat) : proc V (option error) :=
  r ← beginRepair fuel repairExplicit;
  match r with
  | RepairError err =>
      _ ← (act Block : proc V unit);
      mret (Some (localBlockedCallError "clear-local" [] (Some err)))
  | Disposition _ => mret None (* no generation is expected *)
  | Repair lease => clearUnder lease
  end.

Definition mandatoryClearLocal (fuel : nat) (gen : Z) : proc V (option error) :=
  r ← beginRepairAtGeneration fuel repairMandatory (Some gen);
  match r with
  | RepairError err =>
      _ ← (act Block : proc V unit);
      mret (Some (localBlockedCallError "clear-local" [] (Some err)))
  | Disposition localNewerGeneration => mret None
  | Disposition localBlocked => mret (Some (localBlockedCallError "clear-local" [] None))
  | Disposition localCurrent => mret None (* a mismatch is not current *)
  | Repair lease => clearUnder lease
  end.

(** [TieredCache.Clear] *)
Definition Clear (fuel : nat) : proc V (option error) :=
  e ← ctxErr;
  match e with
  | Some err => mret (Some err)
  | None =>
      gen ← (act GenerationValue : proc V Z);
      remoteErr ← Value_Clear sha256 fuel (remote c);
      localErr ← mandatoryClearLocal fuel gen;
      match localErr with
      | Some _ => mret (Some (localBlockedCallError "clear" [] (errors_Join remoteErr localErr)))
      | None => mret remoteErr
      end
  end.

(** The calls of the methods. *)
Inductive call_ : Type :=
| CallGet (key : text)
| CallGetOrLoad (key : text) (remoteTTL : Z)
| CallSet (key : text) (value : V) (remoteTTL : Z)
| CallDelete (key : text)
| CallInvalidateLocal (key : text)
| CallClearLocal
| CallClear.

Definition callProc (fuel : nat) (x : call_) : proc V outcome :=
  match x with
  | CallGet key => Returns <$> Get fuel key
  | CallGetOrLoad key ttl => GetOrLoad fuel key ttl
  | CallSet key value ttl => ReturnsErr <$> Set_ fuel key value ttl
  | CallDelete key => ReturnsErr <$> Delete fuel key
  | CallInvalidateLocal key => ReturnsErr <$> InvalidateLocal fuel key
  | CallClearLocal => ReturnsErr <$> ClearLocal fuel
  | CallClear => ReturnsErr <$> Clear fuel
  end.
End methods.

(** ** The shared state *)

(** A coordinator: whether its token is in the channel, its flight, and its
    counters. *)
Record keyCoordinator : Type := mkCoordinator {
  token : bool;
  flight : option Z;
  nextFlight : Z;
  externalRef : Z;
  tokenUsers : Z
}.

(** A flight: what was published, and its participants. *)
Record loadFlight : Type := mkFlight { published : option (result V); participants : Z }.

(** The local state, the local cache with the generation that admitted each
    value, the server, the registry, and the coordinators and flights. *)
Record world : Type := mkWorld {
  local : localState;
  cached : gmap text (V * Z);
  redis : gmap text (list Z);
  items : gmap text nat;
  coords : gmap nat keyCoordinator;
  flights : gmap flightID loadFlight;
  nextCoord : nat
}.

Definition newWorld (r : gmap text (list Z)) : world := mkWorld newLocalState ∅ r ∅ ∅ ∅ 0.

Definition setLocal (s : localState) (w : world) : world :=
  mkWorld s (cached w) (redis w) (items w) (coords w) (flights w) (nextCoord w).
Definition setCached (m : gmap text (V * Z)) (w : world) : world :=
  mkWorld (local w) m (redis w) (items w) (coords w) (flights w) (nextCoord w).
Definition setRedis (m : gmap text (list Z)) (w : world) : world :=
  mkWorld (local w) (cached w) m (items w) (coords w) (flights w) (nextCoord w).
Definition setCoord (k : nat) (x : keyCoordinator) (w : world) : world :=
  mkWorld (local w) (cached w) (redis w) (items w) (<[k := x]> (coords w)) (flights w) (nextCoord w).
Definition setFlight (f : flightID) (x : loadFlight) (w : world) : world :=
  mkWorld (local w) (cached w) (redis w) (items w) (coords w) (<[f := x]> (flights w)) (nextCoord w).

(** What the environment decides at a command: an error of the context or of a
    tier, and then whether the operation was applied; the clock; the loader,
    which can panic; the page of a scan; the entries that the local cache has
    dropped; and what expired in Redis or was written there by others. *)
Record choice : Type := mkChoice {
  ch_err : option error;
  ch_applied : bool;
  ch_now : Z;
  ch_load : option (result V);
  ch_scan : list text * Z;
  ch_evicted : list text;
  ch_foreign : list (text * option (list Z))
}.

Definition settle (ch : choice) (w : world) : world :=
  setRedis (foldr (λ p m, match p.2 with Some v => <[p.1 := v]> m | None => delete p.1 m end) (redis w) (ch_foreign ch))
    (setCached (foldr delete (cached w) (ch_evicted ch)) w).

(** A write of a tier that can fail. *)
Definition writing (ch : choice) (w' w : world) : effect world (option error) :=
  match ch_err ch with
  | Some err => Answers (Some err) (if ch_applied ch then w' else w)
  | None => Answers None w'
  end.

(** A read of a tier that can fail. *)
Definition reading {A} (ch : choice) (r : result A) (w : world) : effect world (result A) :=
  Answers (match ch_err ch with Some err => Fail err | None => r end) w.

(** A wait: an error of the context, or the event if it has happened. *)
Definition waiting (ch : choice) (happened : bool) (w' w : world) : effect world (option error) :=
  match ch_err ch with
  | Some err => Answers (Some err) w
  | None => if happened then Answers None w' else Waits
  end.

Definition releasing (w : world) : effect world unit :=
  match releaseActiveLocked (local w) with
  | None => Panics
  | Some s => Answers tt (setLocal s w)
  end.

(** [GETRANGE key 0 last] *)
Definition getRange (key : text) (last : Z) (w : world) : list Z :=
  take (Z.to_nat (last + 1)) (default [] (redis w !! key)).

(** The keys of a page that match [prefix*]. *)
Definition matching (pattern : text) (ks : list text) : list text :=
  let prefix := take (length pattern - 1) pattern in
  filter (λ k, bool_decide (take (length prefix) k = prefix)) ks.

(** [coordinatorRegistry.acquire] *)
Definition registryAcquire (key : text) (w : world) : nat * world :=
  match items w !! key with
  | Some k =>
      (k, match coords w !! k with
          | Some x => setCoord k (mkCoordinator (token x) (flight x) (nextFlight x) (externalRef x + 1) (tokenUsers x)) w
          | None => w
          end)
  | None =>
      let k := nextCoord w in
      (k, mkWorld (local w) (cached w) (redis w) (<[key := k]> (items w))
            (<[k := mkCoordinator true None 0 1 0]> (coords w)) (flights w) (S k))
  end.

Definition idleLocked (x : keyCoordinator) : bool :=
  (externalRef x =? 0) && (tokenUsers x =? 0) && bool_decide (flight x = None).

(** [coordinatorRegistry.release] *)
Definition registryRelease (key : text) (k : nat) (w : world) : effect world unit :=
  if negb (bool_decide (items w !! key = Some k)) then Answers tt w
  else match coords w !! k with
  | None => Answers tt w
  | Some x =>
      if externalRef x <=? 0 then Panics
      else
        let x := mkCoordinator (token x) (flight x) (nextFlight x) (externalRef x - 1) (tokenUsers x) in
        let w := setCoord k x w in
        Answers tt
          (if idleLocked x then
             mkWorld (local w) (cached w) (redis w) (delete key (items w)) (coords w) (flights w) (nextCoord w)
           else w)
  end.

(** A command on a coordinator that exists. *)
Definition onCoord {A} (k : nat) (w : world) (f : keyCoordinator → effect world A) : effect world A :=
  match coords w !! k with Some x => f x | None => Waits end.

Definition addUsers (n : Z) (k : nat) (x : keyCoordinator) (w : world) : world :=
  setCoord k (mkCoordinator (token x) (flight x) (nextFlight x) (externalRef x) (tokenUsers x + n)) w.

Definition setToken (b : bool) (k : nat) (x : keyCoordinator) (w : world) : world :=
  setCoord k (mkCoordinator b (flight x) (nextFlight x) (externalRef x) (tokenUsers x)) w.

(** [joinFlight] *)
Definition joinFlight (k : nat) (x : keyCoordinator) (w : world) : flightID * bool * world :=
  match flight x with
  | Some n =>
      match flights w !! (k, n) with
      | Some (mkFlight None p) => ((k, n), false, setFlight (k, n) (mkFlight None (p + 1)) w)
      | _ =>
          let n := nextFlight x + 1 in
          ((k, n), true, setFlight (k, n) (mkFlight None 1)
             (setCoord k (mkCoordinator (token x) (Some n) n (externalRef x) (tokenUsers x)) w))
      end
  | None =>
      let n := nextFlight x + 1 in
      ((k, n), true, setFlight (k, n) (mkFlight None 1)
         (setCoord k (mkCoordinator (token x) (Some n) n (externalRef x) (tokenUsers x)) w))
  end.

(** [publishFlight] *)
Definition publishFlight (f : flightID) (r : result V) (x : keyCoordinator) (w : world) : bool * world :=
  match flights w !! f with
  | Some (mkFlight None p) =>
      if bool_decide (flight x = Some f.2) then
        (true, setFlight f (mkFlight (Some r) (p - 1))
           (setCoord f.1 (mkCoordinator (token x) None (nextFlight x) (externalRef x) (tokenUsers x)) w))
      else (false, w)
  | _ => (false, w)
  end.

Definition leaveFlight (f : flightID) (x : loadFlight) (w : world) : world :=
  setFlight f (mkFlight (published x) (participants x - 1)) w.

(** ** What the commands do *)

Definition execute (cm : cmd V) (ch : choice) (w : world) : effect world (resp cm) :=
  match cm with
  | CtxErr => Answers (ch_err ch) w
  | Now => Answers (ch_now ch) w
  | Load _ => Answers (ch_load ch) w
  | TryAcquireHealthy => let '(a, s) := tryAcquireHealthy (local w) in Answers a (setLocal s w)
  | TryAcquireMaintenance => let '(a, s) := tryAcquireMaintenance (local w) in Answers a (setLocal s w)
  | IssueTicket gen => Answers (issueTicket gen (local w)) w
  | ReleaseLease => releasing w
  | ReleaseMaintenance => releasing w
  | BeginRepair kind expected => let '(b, s) := tryBeginRepair kind expected (local w) in Answers b (setLocal s w)
  | Drain lease => Answers (tryDrain lease (local w)) w
  | CancelDrain lease => Answers tt (setLocal (cancelDrain lease (local w)) w)
  | FinishRepair lease err => let '(b, s) := finishRepair lease err (local w) in Answers b (setLocal s w)
  | Block => Answers tt (setLocal (block (local w)) w)
  | Classify gen => Answers (classifyLocked gen (local w)) w
  | GenerationValue => Answers (generation (local w)) w
  | WaitChanged n => waiting ch (isClosed (local w) n) w w
  | LocalGet key =>
      reading ch (match cached w !! key with Some (v, _) => Ok v | None => Fail (Sentinel "cache.ErrCacheMiss") end) w
  | LocalSet key value _ gen => writing ch (setCached (<[key := (value, gen)]> (cached w)) w) w
  | LocalDelete key => writing ch (setCached (delete key (cached w)) w) w
  | LocalClear => writing ch (setCached ∅ w) w
  | GetRange key last => reading ch (Ok (getRange key last w)) w
  | GetRangeExists key last => reading ch (Ok (getRange key last w, bool_decide (is_Some (redis w !! key)))) w
  | RedisSet key value _ => writing ch (setRedis (<[key := value]> (redis w)) w) w
  | RedisDel key => writing ch (setRedis (delete key (redis w)) w) w
  | RedisScan _ pattern _ => reading ch (Ok (matching pattern (ch_scan ch).1, (ch_scan ch).2)) w
  | RedisUnlink ks => writing ch (setRedis (foldr delete (redis w) ks) w) w
  | CoordAcquire key => let '(k, w') := registryAcquire key w in Answers k w'
  | CoordRelease key k => registryRelease key k w
  | TokenEnter k => onCoord k w (λ x, Answers tt (addUsers 1 k x w))
  | TokenReceive k => onCoord k w (λ x, waiting ch (token x) (setToken false k x w) w)
  | TokenCancel k => onCoord k w (λ x, Answers tt (addUsers (-1) k x w))
  | TokenLeave k => onCoord k w (λ x, if tokenUsers x <=? 0 then Panics else Answers tt (addUsers (-1) k x w))
  | TokenSend k => onCoord k w (λ x, if token x then Waits else Answers tt (setToken true k x w))
  | JoinFlight k => onCoord k w (λ x, let '(f, leader, w') := joinFlight k x w in Answers (f, leader) w')
  | PublishFlight f r => onCoord f.1 w (λ x, let '(b, w') := publishFlight f r x w in Answers b w')
  | AwaitFlight f =>
      match flights w !! f with
      | Some x => waiting ch (bool_decide (is_Some (published x))) w w
      | None => Waits
      end
  | ConsumeFlight f =>
      match flights w !! f with
      | Some x => match published x with Some r => Answers r (leaveFlight f x w) | None => Panics end
      | None => Waits
      end
  | AbandonFlight f err =>
      match flights w !! f with
      | Some x => Answers (default (Fail err) (published x)) (leaveFlight f x w)
      | None => Waits
      end
  end.

Definition exec (cm : cmd V) (ch : choice) (w : world) : effect world (resp cm) := execute cm ch (settle ch w).
End tiered.
