(* ===== verification/TieredLaws.v ===== *)
(** * cache/redisvalue: laws of the local tier

    What a goroutine holds of the local state is tracked along its process
    ([pre], [post]); every method keeps that discipline, and every command
    keeps the invariant of the local state and the local cache. *)

From S2P Require Import Prelude GoError GoText GoEncoding RedisKey Process LocalState RedisValue TieredCache.

Local Open Scope Z_scope.

(** ** The discipline *)

(** Nothing, a lease of a generation, a maintenance lease, or a repair that
    waits for the leases or has all of them back; [cleared] says whether the
    local cache was cleared since. *)
Inductive hold : Type :=
| Nothing
| Leasing (gen : Z)
| Maintaining
| Waiting (lease : repairLease)
| Repairing (lease : repairLease) (cleared : bool).

Definition drains (lease : repairLease) (d : drained) : hold :=
  match d with Draining _ => Waiting lease | Lost => Nothing | Drained => Repairing lease false end.

Section laws.
Context {V : Type} (sha256 : text → list Z) (Marshal : V → result (list Z)) (Unmarshal : list Z → result V).
Context (allow : repairKind → Prop).

Definition pre (h : hold) (c : cmd V) : Prop :=
  match c with
  | TryAcquireHealthy => h = Nothing
  | TryAcquireMaintenance => h = Nothing
  | BeginRepair kind _ => h = Nothing ∧ allow kind
  | IssueTicket gen => h = Leasing gen
  | ReleaseLease => ∃ gen, h = Leasing gen
  | LocalGet _ => ∃ gen, h = Leasing gen
  | LocalSet _ _ _ gen => h = Leasing gen
  | ReleaseMaintenance => h = Maintaining
  | LocalDelete _ => h = Maintaining
  | Drain lease => h = Waiting lease
  | CancelDrain lease => h = Waiting lease
  | LocalClear => ∃ lease cleared, h = Repairing lease cleared
  | FinishRepair lease err => ∃ cleared, h = Repairing lease cleared ∧ (err = None → cleared = true)
  | _ => True
  end.

Definition post (h : hold) (c : cmd V) : resp c → hold :=
  match c with
  | TryAcquireHealthy => λ a, match a with Leased gen => Leasing gen | _ => h end
  | TryAcquireMaintenance => λ a, match a with None => Maintaining | _ => h end
  | ReleaseLease => λ _, Nothing
  | ReleaseMaintenance => λ _, Nothing
  | BeginRepair _ _ => λ b, match b with Began lease first => drains lease first | _ => h end
  | Drain lease => λ d, drains lease d
  | CancelDrain _ => λ _, Nothing
  | LocalClear => λ e, match h, e with Repairing lease _, None => Repairing lease true | _, _ => h end
  | FinishRepair _ _ => λ _, Nothing
  | _ => λ _, h
  end.

Local Notation keeps := (keeps pre post).

(** The process holds nothing at its end. *)
Definition idle {A} (h : hold) (_ : A) : Prop := h = Nothing.

(** Runs a process up to the next call of a method. *)
Ltac walk :=
  repeat first
    [ progress cbn [Process.keeps pre post mbind prog_bind act mret prog_ret drains]
    | match goal with
      | |- _ ∧ _ => split
      | |- ∀ _, _ => intros ?
      | |- context [match ?x with _ => _ end] => case_match
      | H : idle _ _ |- _ => unfold idle in H; subst
      end
    | done
    | solve [eauto] ].

(** ** The methods keep the discipline *)

Create HintDb tiered.
Create HintDb tiered_defs.

(** Runs a process, with the laws of the methods it calls. *)
Ltac call_method :=
  match goal with
  | |- Process.keeps _ _ _ _ (_ ≫= _) => eapply keeps_call; [solve [eauto with tiered]|]
  | |- Process.keeps _ _ _ _ _ => solve [eauto with tiered]
  end.
Ltac keep := repeat (first [progress walk | progress subst | call_method]).

Hint Unfold ctxErr waitChanged classify releaseLease leaderFail leaderValue validateCall : tiered_defs.
Ltac open_ := autounfold with tiered_defs.

Lemma acquireHealthy_keeps fuel :
  keeps (λ h r, h = match r with Ok gen => Leasing gen | Fail _ => Nothing end) Nothing (acquireHealthy (V:=V) fuel).
Proof. induction fuel as [|fuel IH]; [done|]. cbn [acquireHealthy]. open_. walk. Qed.

Lemma acquireMaintenance_keeps fuel :
  keeps (λ h r, h = match r with None => Maintaining | Some _ => Nothing end) Nothing (acquireMaintenance (V:=V) fuel).
Proof. induction fuel as [|fuel IH]; [done|]. cbn [acquireMaintenance]. open_. walk. Qed.

Definition repairHold (r : repairAnswer) : hold := match r with Repair lease => Repairing lease false | _ => Nothing end.

Lemma drainLoop_keeps fuel lease d : keeps (λ h r, h = repairHold r) (drains lease d) (drainLoop (V:=V) fuel lease d).
Proof. revert d. induction fuel as [|fuel IH]; intros []; cbn [drainLoop]; open_; walk. Qed.
Hint Resolve drainLoop_keeps : tiered.

Lemma beginRepair_keeps fuel kind expected : allow kind →
  keeps (λ h r, h = repairHold r) Nothing (beginRepairAtGeneration (V:=V) fuel kind expected).
Proof. intros Hk. induction fuel as [|fuel IH]; [done|]. cbn [beginRepairAtGeneration]. open_. keep. Qed.

(** The commands on tokens and flights do not touch the local state. *)
Lemma acquireToken_keeps k h : keeps (λ h' _, h' = h) h (acquireToken (V:=V) k).
Proof. unfold acquireToken. walk. Qed.
Lemma releaseToken_keeps k h : keeps (λ h' _, h' = h) h (releaseToken (V:=V) k).
Proof. unfold releaseToken. walk. Qed.
Lemma waitFlight_keeps f h : keeps (λ h' _, h' = h) h (waitFlight (V:=V) f).
Proof. unfold waitFlight. walk. Qed.
Hint Resolve acquireToken_keeps releaseToken_keeps waitFlight_keeps : tiered.

Lemma finishCall_keeps {A} key k tokenHeld (a : A) : keeps idle Nothing (finishCall (V:=V) key k tokenHeld a).
Proof. unfold finishCall. destruct tokenHeld; keep. Qed.
Hint Resolve finishCall_keeps : tiered.

Lemma acquireHealthyForLeader_keeps k :
  keeps (λ h r, h = match r with LeaderLease gen => Leasing gen | _ => Nothing end) Nothing (acquireHealthyForLeader (V:=V) k).
Proof. unfold acquireHealthyForLeader. open_. keep. Qed.

Lemma ReadBounded_keeps key last h : keeps (λ h' _, h' = h) h (ReadBounded (V:=V) key last).
Proof. unfold ReadBounded. walk. Qed.
Hint Resolve acquireHealthyForLeader_keeps ReadBounded_keeps : tiered.

Lemma Value_Get_keeps c key h : keeps (λ h' _, h' = h) h (Value_Get sha256 Unmarshal c key).
Proof. unfold Value_Get. keep. Qed.
Lemma Value_Set_keeps c key v ttl h : keeps (λ h' _, h' = h) h (Value_Set sha256 Marshal c key v ttl).
Proof. unfold Value_Set. walk. Qed.
Lemma Value_Delete_keeps c key h : keeps (λ h' _, h' = h) h (Value_Delete (V:=V) sha256 c key).
Proof. unfold Value_Delete. walk. Qed.
Lemma unlinkLoop_keeps fuel c id ks p h : keeps (λ h' _, h' = h) h (unlinkLoop (V:=V) fuel c id ks p).
Proof. revert ks p. induction fuel as [|fuel IH]; [done|]. intros ks p. cbn [unlinkLoop]. walk. Qed.
Hint Resolve unlinkLoop_keeps : tiered.
Lemma clearLoop_keeps fuel c pat id cur p h : keeps (λ h' _, h' = h) h (clearLoop (V:=V) fuel c pat id cur p).
Proof.
  revert cur p. induction fuel as [|fuel IH]; [done|]. intros cur p. cbn [clearLoop]. keep.
Qed.
Lemma Value_Clear_keeps fuel c h : keeps (λ h' _, h' = h) h (Value_Clear (V:=V) sha256 fuel c).
Proof. unfold Value_Clear. walk. apply clearLoop_keeps. Qed.
Hint Resolve Value_Get_keeps Value_Set_keeps Value_Delete_keeps Value_Clear_keeps : tiered.
Hint Resolve acquireHealthy_keeps acquireMaintenance_keeps : tiered.

Section methods.
Context (c : TieredCache).

Lemma invalidateLocalHeld_keeps fuel key : keeps idle Nothing (invalidateLocalHeld (V:=V) sha256 c fuel key).
Proof. unfold invalidateLocalHeld. keep. Qed.
Lemma mandatoryInvalidate_keeps fuel key : keeps idle Nothing (mandatoryInvalidateLocalHeld (V:=V) sha256 c fuel key).
Proof. apply invalidateLocalHeld_keeps. Qed.
Hint Resolve invalidateLocalHeld_keeps mandatoryInvalidate_keeps : tiered.

Lemma populateLocalHeld_keeps fuel key v ttl gen : keeps idle Nothing (populateLocalHeld (V:=V) sha256 c fuel key v ttl gen).
Proof. unfold populateLocalHeld. open_. keep. all: bools; subst; done. Qed.

Lemma localGet_keeps fuel key : keeps idle Nothing (localGet (V:=V) sha256 c fuel key).
Proof. unfold localGet. open_. keep. Qed.

Lemma mutationResult_keeps op key gen e1 e2 : keeps idle Nothing (mutationResult (V:=V) sha256 c op key gen e1 e2).
Proof. unfold mutationResult. open_. keep. Qed.
Hint Resolve populateLocalHeld_keeps localGet_keeps mutationResult_keeps : tiered.

Lemma getRemoteLoop_keeps fuel key k : keeps idle Nothing (getRemoteLoop (V:=V) sha256 Unmarshal c fuel key k).
Proof. induction fuel as [|fuel IH]; [done|]. cbn [getRemoteLoop]. open_. keep. Qed.
Hint Resolve getRemoteLoop_keeps : tiered.

Lemma Get_keeps fuel key : keeps idle Nothing (Get (V:=V) sha256 Unmarshal c fuel key).
Proof. unfold Get, getRemoteCoordinated. open_. keep. Qed.

Lemma storeLoaded_keeps fuel key ttl gen v : keeps idle Nothing (storeLoaded (V:=V) sha256 Marshal c fuel key ttl gen v).
Proof. unfold storeLoaded. open_. keep. Qed.
Hint Resolve storeLoaded_keeps : tiered.

Lemma runLoadLeader_keeps fuel key ttl k :
  keeps idle Nothing (runLoadLeader (V:=V) sha256 Marshal Unmarshal c fuel key ttl k).
Proof. induction fuel as [|fuel IH]; [done|]. cbn [runLoadLeader]. open_. keep. Qed.
Hint Resolve runLoadLeader_keeps : tiered.

Lemma GetOrLoad_keeps fuel key ttl : keeps idle Nothing (GetOrLoad (V:=V) sha256 Marshal Unmarshal c fuel key ttl).
Proof. unfold GetOrLoad. open_. keep. Qed.

Lemma admitLoop_keeps fuel op key k : keeps idle Nothing (admitLoop (V:=V) sha256 c fuel op key k).
Proof. induction fuel as [|fuel IH]; [done|]. cbn [admitLoop]. open_. keep. Qed.
Lemma setAdmitted_keeps fuel key v ttl gen : keeps idle Nothing (setAdmitted (V:=V) sha256 Marshal c fuel key v ttl gen).
Proof. unfold setAdmitted. open_. keep. Qed.
Hint Resolve admitLoop_keeps setAdmitted_keeps : tiered.

Lemma Set_keeps fuel key v ttl : keeps idle Nothing (Set_ (V:=V) sha256 Marshal c fuel key v ttl).
Proof. unfold Set_. open_. keep. Qed.
Lemma Delete_keeps fuel key : keeps idle Nothing (Delete (V:=V) sha256 c fuel key).
Proof. unfold Delete. open_. keep. Qed.
Lemma InvalidateLocal_keeps fuel key : keeps idle Nothing (InvalidateLocal (V:=V) sha256 c fuel key).
Proof. unfold InvalidateLocal. open_. keep. Qed.

Lemma clearUnder_keeps lease : keeps idle (Repairing lease false) (clearUnder (V:=V) sha256 c lease).
Proof. unfold clearUnder. open_. walk. all: naive_solver. Qed.
Hint Resolve clearUnder_keeps : tiered.

Lemma ClearLocal_keeps fuel : allow repairExplicit → keeps idle Nothing (ClearLocal (V:=V) sha256 c fuel).
Proof.
  intros Hk. unfold ClearLocal. eapply keeps_call; [by apply beginRepair_keeps|]. intros h r ->. destruct r; cbn [repairHold]; keep.
Qed.

Lemma Clear_keeps fuel : allow repairMandatory → keeps idle Nothing (Clear (V:=V) sha256 c fuel).
Proof.
  intros Hk. unfold Clear. open_.
  assert (Hm : ∀ gen, keeps idle Nothing (mandatoryClearLocal (V:=V) sha256 c fuel gen)).
  { intros gen. unfold mandatoryClearLocal. eapply keeps_call; [by apply beginRepair_keeps|].
    intros h r ->. destruct r as [|[]|]; cbn [repairHold]; keep. }
  keep.
Qed.

(** The kinds of repair of a call. *)
Definition repairs (x : call_ (V:=V)) : option repairKind :=
  match x with CallClearLocal => Some repairExplicit | CallClear => Some repairMandatory | _ => None end.

Lemma callProc_keeps fuel x : (∀ kind, repairs x = Some kind → allow kind) →
  keeps idle Nothing (callProc (V:=V) sha256 Marshal Unmarshal c fuel x).
Proof.
  intros Ha. destruct x; cbn [callProc repairs] in *;
    [apply keeps_fmap, Get_keeps|apply GetOrLoad_keeps|apply keeps_fmap, Set_keeps|apply keeps_fmap, Delete_keeps
    |apply keeps_fmap, InvalidateLocal_keeps|apply keeps_fmap, ClearLocal_keeps; auto|apply keeps_fmap, Clear_keeps; auto].
Qed.
End methods.

(** ** The invariant of the local state *)

Definition leases (h : hold) : bool := match h with Leasing _ | Maintaining => true | _ => false end.

Definition repairOf (h : hold) : option repairLease :=
  match h with Waiting lease | Repairing lease _ => Some lease | _ => None end.

(** The repair is the one under way. *)
Definition current (s : localState) (lease : repairLease) : Prop :=
  phase s = phaseRepairing ∧ epoch s = rl_epoch lease.

Record localInv (n : Z) (s : localState) (m : gmap text (V * Z)) (hs : list hold) : Prop := {
  li_length : Z.of_nat (length hs) < 2 ^ 63;
  li_active : active s = Z.of_nat (countb leases hs);
  li_lease : ∀ i gen, hs !! i = Some (Leasing gen) → phase s = phaseHealthy → gen = generation s;
  li_repair : ∀ i h lease, hs !! i = Some h → repairOf h = Some lease →
    rl_epoch lease ≤ epoch s ∧ allow (rl_kind lease) ∧ (current s lease → origin s = rl_origin lease);
  li_distinct : ∀ i j h h' lease lease', hs !! i = Some h → hs !! j = Some h' →
    repairOf h = Some lease → repairOf h' = Some lease' → rl_epoch lease = rl_epoch lease' → i = j;
  li_drained : ∀ i lease cleared, hs !! i = Some (Repairing lease cleared) → current s lease →
    active s = 0 ∧ (cleared = true → m = ∅);
  li_bounds : 0 ≤ epoch s ≤ n ∧ 0 ≤ generation s ≤ n;
  li_cached : phase s = phaseHealthy → ∀ key v gen, m !! key = Some (v, gen) → gen = generation s
}.

Lemma countb_length {A} (f : A → bool) l : (countb f l ≤ length l)%nat.
Proof. unfold countb. apply length_filter. Qed.

Lemma insert_same {A} (l : list A) i x : l !! i = Some x → <[i := x]> l = l.
Proof. apply list_insert_id. Qed.

(** A step that keeps the local state and drops entries. *)
Lemma localInv_frame n n' s m m' hs : m' ⊆ m → n ≤ n' → localInv n s m hs → localInv n' s m' hs.
Proof.
  intros Hm Hle [L A Le R D Dr B C]. split; try done.
  - intros i lease cleared Hi Hc. destruct (Dr i lease cleared Hi Hc) as [Ha He]. split; [done|].
    intros Hcl. specialize (He Hcl). subst m. apply (anti_symm (⊆)); [done|apply map_empty_subseteq].
  - lia.
  - intros Hp key v gen Hk. eapply (C Hp key v). by eapply lookup_weaken.
Qed.

Section step.
Context (n : Z) (s : localState) (m : gmap text (V * Z)) (hs : list hold) (i : nat).
Hypothesis Hinv : localInv n s m hs.
Hypothesis Hn : n < 2 ^ 64 - 1.

Lemma length_changed (x : hold) : Z.of_nat (length (<[i := x]> hs)) < 2 ^ 63.
Proof. rewrite length_insert. apply Hinv. Qed.

(** A goroutine that holds nothing takes a lease. *)
Lemma take_lease x :
  hs !! i = Some Nothing → leases x = true →
  phase s ≠ phaseRepairing → (∀ gen, x = Leasing gen → gen = generation s) →
  localInv (n + 1) (mkLocal (phase s) (origin s) (generation s) (wrap_i64 (active s + 1)) (epoch s) (changed s)) m
    (<[i := x]> hs).
Proof.
  intros Hi Hx Hp Hg. destruct Hinv as [L A Le R D Dr B C].
  pose proof (countb_insert leases hs i Nothing x Hi) as Hc. rewrite Hx in Hc. cbn [leases Z.b2z] in Hc.
  pose proof (countb_length leases (<[i := x]> hs)) as Hl. rewrite length_insert in Hl.
  rewrite wrap_i64_id by (unfold in_i64; lia).
  assert (Hr : repairOf x = None) by (by destruct x).
  split; cbn [active phase generation epoch origin]; unfold current; cbn [phase epoch].
  - apply length_changed.
  - lia.
  - intros j gen Hj Hh. changed; [by apply Hg|eauto].
  - intros j h lease Hj Hl'. changed; [congruence|]. destruct (R j h lease Hj Hl') as (? & ? & ?). done.
  - intros j k h h' lease lease' Hj Hk H1 H2 He. changed; try congruence; eauto.
  - intros j lease cleared Hj [Hrep _]. done.
  - lia.
  - exact C.
Qed.

(** It gives the lease back. *)
Lemma drop_lease x : hs !! i = Some x → leases x = true →
  match releaseActiveLocked s with
  | None => False
  | Some s' => localInv (n + 1) s' m (<[i := Nothing]> hs)
  end.
Proof.
  intros Hi Hx. destruct Hinv as [L A Le R D Dr B C].
  pose proof (countb_pos leases hs i x Hi Hx) as Hpos. pose proof (countb_length leases hs) as Hl.
  pose proof (countb_insert leases hs i x Nothing Hi) as Hc. rewrite Hx in Hc. cbn [leases Z.b2z] in Hc.
  unfold releaseActiveLocked. rewrite (proj2 (Z.leb_gt _ _)) by lia. cbv zeta.
  match goal with |- localInv _ ?x _ _ => set (s' := x) end.
  assert (Hs : phase s' = phase s ∧ origin s' = origin s ∧ generation s' = generation s ∧ active s' = active s - 1 ∧ epoch s' = epoch s).
  { subst s'. rewrite wrap_i64_id by (unfold in_i64; lia). by destruct (_ && _). }
  clearbody s'. destruct Hs as (Hp & Ho & Hg & Ha & He).
  assert (Hn' : ∀ j h lease, <[i := Nothing]> hs !! j = Some h → repairOf h = Some lease → hs !! j = Some h).
  { intros j h lease Hj Hr. by changed. }
  split; unfold current; rewrite ?Hp, ?Ho, ?Hg, ?Ha, ?He.
  - apply length_changed.
  - lia.
  - intros j gen Hj Hh. changed; [done|eauto].
  - intros j h lease Hj Hr. exact (R j h lease (Hn' _ _ _ Hj Hr) Hr).
  - intros j k h h' lease lease' Hj Hk H1 H2 Heq. exact (D j k h h' lease lease' (Hn' _ _ _ Hj H1) (Hn' _ _ _ Hk H2) H1 H2 Heq).
  - intros j lease cleared Hj Hcur. destruct (Dr j lease cleared) as [H0 _]; [by eapply Hn'|done|]. lia.
  - lia.
  - exact C.
Qed.

(** A goroutine stops repairing. *)
Lemma drop_repair x : hs !! i = Some x → leases x = false → localInv (n + 1) s m (<[i := Nothing]> hs).
Proof.
  intros Hi Hx. destruct Hinv as [L A Le R D Dr B C].
  pose proof (countb_insert leases hs i x Nothing Hi) as Hc. rewrite Hx in Hc. cbn [leases Z.b2z] in Hc.
  split; try done.
  - apply length_changed.
  - lia.
  - intros j gen Hj. changed; [done|eauto].
  - intros j h lease Hj Hr. changed; [done|]. exact (R j h lease Hj Hr).
  - intros j k h h' lease lease' Hj Hk H1 H2 He. changed; try done. eauto.
  - intros j lease cleared Hj. changed; [done|eauto].
  - lia.
Qed.

(** The phase leaves the healthy one, and the repairs under way are lost. *)
Lemma unhealthy s' :
  phase s' ≠ phaseHealthy → active s' = active s → 0 ≤ epoch s' ≤ n + 1 → 0 ≤ generation s' ≤ n + 1 → epoch s ≤ epoch s' →
  (phase s' = phaseRepairing → epoch s < epoch s') → localInv (n + 1) s' m hs.
Proof.
  intros Hp Ha He Hg Hle Hlost. destruct Hinv as [L A Le R D Dr B C].
  assert (Hno : ∀ j h lease, hs !! j = Some h → repairOf h = Some lease → ¬ current s' lease).
  { intros j h lease Hj Hr [Hph Hep]. destruct (R j h lease Hj Hr) as [Hb _]. specialize (Hlost Hph). lia. }
  split; try done.
  - congruence.
  - intros j h lease Hj Hr. destruct (R j h lease Hj Hr) as (Hb & Hk & _). split; [lia|]. split; [done|].
    intros Hc. by destruct (Hno j h lease Hj Hr).
  - intros j lease cleared Hj Hc. exfalso. by eapply (Hno j (Repairing lease cleared) lease).
Qed.

Lemma block_inv : localInv (n + 1) (block s) m hs.
Proof.
  pose proof (li_bounds _ _ _ _ Hinv) as [He Hg]. unfold block.
  destruct (_ || _) eqn:Hp; [by apply (localInv_frame n (n + 1) s m m); [|lia|]|].
  rewrite !wrap_u64_id by (unfold in_u64; lia). apply unhealthy; cbn; try done; lia.
Qed.

Lemma cancelDrain_inv lease : hs !! i = Some (Waiting lease) → localInv (n + 1) (cancelDrain lease s) m (<[i := Nothing]> hs).
Proof.
  intros Hi. pose proof (li_bounds _ _ _ _ Hinv) as [He Hg]. unfold cancelDrain.
  destruct (_ && _); [|by eapply drop_repair].
  pose proof (drop_repair _ Hi eq_refl) as [L A Le R D Dr B C].
  split; try done; unfold current; cbn [phase epoch origin broadcastLocked].
  - intros j h lease' Hj Hr. destruct (R j h lease' Hj Hr) as (? & ? & _). split_and!; try done. by intros [].
  - by intros j lease' cleared Hj [].
Qed.

(** The repair starts: it waits for the leases, or has them all. *)
Lemma tryBeginRepair_inv kind expected b s' :
  hs !! i = Some Nothing → allow kind → tryBeginRepair kind expected s = (b, s') →
  localInv (n + 1) s' m (<[i := match b with Began lease first => drains lease first | _ => Nothing end]> hs).
Proof.
  intros Hi Hk. pose proof (li_bounds _ _ _ _ Hinv) as [He Hg]. unfold tryBeginRepair.
  assert (Hsame : localInv (n + 1) s m (<[i := Nothing]> hs)) by (rewrite insert_same by done; by apply (localInv_frame n (n + 1) s m m); [|lia|]).
  destruct (decide _) as [|Hp]; [by intros [= <- <-]|].
  destruct (match expected with Some _ => _ | None => _ end); [by intros [= <- <-]|].
  rewrite !wrap_u64_id by (unfold in_u64; lia). cbv zeta. cbn [epoch].
  set (from := if bool_decide _ || _ then repairFromBlocked else repairFromHealthy).
  set (s1 := broadcastLocked _). set (lease := mkRepair _ _ _). intros [= <- <-].
  assert (Hu : localInv (n + 1) s1 m hs) by (apply unhealthy; cbn; done || lia).
  destruct Hu as [L A Le R D Dr B C].
  assert (Hcur : current s1 lease) by done.
  assert (Hfresh : ∀ j h l, hs !! j = Some h → repairOf h = Some l → rl_epoch l < rl_epoch lease).
  { intros j h l Hj Hr. destruct (li_repair _ _ _ _ Hinv j h l Hj Hr) as [Hb _]. cbn. lia. }
  assert (Hd : leases (drains lease (tryDrain lease s1)) = false ∧ repairOf (drains lease (tryDrain lease s1)) = Some lease ∧
    (∀ l c, drains lease (tryDrain lease s1) = Repairing l c → active s1 = 0 ∧ c = false)).
  { unfold tryDrain. rewrite (bool_decide_true (phase s1 = phaseRepairing)) by done. cbn [epoch s1 lease rl_epoch broadcastLocked].
    rewrite Z.eqb_refl. cbn [andb negb]. destruct (0 <? active s1) eqn:Ha; cbn [drains leases repairOf]; split_and!; try done.
    intros l c [= <- <-]. apply Z.ltb_ge in Ha. split; [lia|done]. }
  destruct Hd as (Hl & Hr & Hd). set (h1 := drains lease _) in *. clearbody h1.
  pose proof (countb_insert leases hs i Nothing h1 Hi) as Hc. rewrite Hl in Hc. cbn [leases Z.b2z] in Hc.
  split; try done.
  - by rewrite length_insert.
  - lia.
  - intros j h l Hj Hr'. changed; [|exact (R j h l Hj Hr')]. assert (l = lease) as -> by congruence. cbn. split; [lia|done].
  - intros j k h h' l l' Hj Hk' H1 H2 Heq. changed; try congruence.
    + pose proof (Hfresh j h l Hj H1). assert (l' = lease) as -> by congruence. lia.
    + pose proof (Hfresh k h' l' Hk' H2). assert (l = lease) as -> by congruence. lia.
    + eauto.
  - intros j l cleared Hj Hcl. changed; [|eauto]. destruct (Hd l cleared eq_refl) as [H0 ->]. done.
Qed.

Lemma tryDrain_inv lease : hs !! i = Some (Waiting lease) → localInv (n + 1) s m (<[i := drains lease (tryDrain lease s)]> hs).
Proof.
  intros Hi. unfold tryDrain.
  destruct (bool_decide (phase s = phaseRepairing) && (epoch s =? rl_epoch lease)) eqn:Hc; cbn [negb].
  2: { rewrite andb_false_r. cbn [drains]. by eapply drop_repair. }
  rewrite andb_true_r. destruct (0 <? active s) eqn:Ha; cbn [drains].
  { rewrite insert_same by done. by apply (localInv_frame n (n + 1) s m m); [|lia|]. }
  apply Z.ltb_ge in Ha. destruct Hinv as [L A Le R D Dr B C].
  pose proof (countb_insert leases hs i _ (Repairing lease false) Hi) as Hn'. cbn [leases Z.b2z] in Hn'.
  split; try done.
  - by rewrite length_insert.
  - lia.
  - intros j gen Hj. changed; [done|eauto].
  - intros j h l Hj Hr. changed; [exact (R j _ l Hi Hr)|exact (R j h l Hj Hr)].
  - intros j k h h' l l' Hj Hk H1 H2 Heq.
    changed; [done|exact (D _ _ _ _ _ _ Hj Hi H1 H2 Heq)|exact (D _ _ _ _ _ _ Hi Hk H1 H2 Heq)|eauto].
  - intros j l cleared Hj Hcl. changed; [|eauto]. simplify_eq. split; [lia|done].
  - lia.
Qed.

(** A repair that heals has cleared the local cache, and no lease is out. *)
Lemma finishRepair_inv lease err cleared b s' :
  hs !! i = Some (Repairing lease cleared) → (err = None → cleared = true) → finishRepair lease err s = (b, s') →
  localInv (n + 1) s' m (<[i := Nothing]> hs).
Proof.
  intros Hi Hcl. unfold finishRepair.
  destruct (_ || _) eqn:Hc; [intros [= _ <-]; by eapply drop_repair|].
  apply orb_false_iff in Hc as [Hp%negb_false_iff%bool_decide_eq_true He%negb_false_iff%Z.eqb_eq].
  destruct (li_drained _ _ _ _ Hinv i lease cleared Hi (conj Hp He)) as [H0 Hempty].
  pose proof (li_active _ _ _ _ Hinv) as Hact.
  pose proof (drop_repair _ Hi eq_refl) as [L A Le R D Dr B C].
  set (healed := bool_decide (err = None) && _). intros [= _ <-].
  assert (Hph : phase (broadcastLocked (if healed then mkLocal phaseHealthy repairFromHealthy (generation s) (active s) (epoch s) (changed s)
       else mkLocal phaseBlocked repairFromBlocked (generation s) (active s) (epoch s) (changed s))) ≠ phaseRepairing) by (by destruct healed).
  split; try done.
  - by destruct healed.
  - intros j gen Hj Hh. changed; [done|]. pose proof (countb_pos leases hs j _ Hj eq_refl). lia.
  - intros j h l Hj Hr. destruct (R j h l Hj Hr) as (? & ? & _). split_and!; [by destruct healed|done|]. by intros [? _].
  - by intros j l c' Hj [? _].
  - by destruct healed.
  - intros Hh key v gen Hk. destruct healed eqn:Hhe; [|done]. subst healed.
    apply andb_true_iff in Hhe as [Hnone%bool_decide_eq_true _]. rewrite (Hempty (Hcl Hnone)) in Hk. by rewrite lookup_empty in Hk.
Qed.

(** The local cache under a repair. *)
Lemma localClear_inv lease cleared : hs !! i = Some (Repairing lease cleared) →
  localInv (n + 1) s ∅ (<[i := Repairing lease true]> hs).
Proof.
  intros Hi. destruct Hinv as [L A Le R D Dr B C].
  pose proof (countb_insert leases hs i _ (Repairing lease true) Hi) as Hn'. cbn [leases Z.b2z] in Hn'.
  split; try done.
  - by rewrite length_insert.
  - lia.
  - intros j gen Hj. changed; [done|eauto].
  - intros j h l Hj Hr. changed; [exact (R j _ l Hi Hr)|exact (R j h l Hj Hr)].
  - intros j k h h' l l' Hj Hk H1 H2 Heq.
    changed; [done|exact (D _ _ _ _ _ _ Hj Hi H1 H2 Heq)|exact (D _ _ _ _ _ _ Hi Hk H1 H2 Heq)|eauto].
  - intros j l c' Hj Hcl. changed; [simplify_eq; by destruct (Dr _ _ _ Hi Hcl)|by destruct (Dr _ _ _ Hj Hcl)].
  - lia.
Qed.

(** A write under a lease. *)
Lemma localSet_inv gen key v : hs !! i = Some (Leasing gen) → localInv (n + 1) s (<[key := (v, gen)]> m) hs.
Proof.
  intros Hi. destruct Hinv as [L A Le R D Dr B C]. split; try done.
  - intros j lease cleared Hj Hc. destruct (Dr j lease cleared Hj Hc) as [H0 _].
    pose proof (countb_pos leases hs i _ Hi eq_refl). lia.
  - lia.
  - intros Hp k v' g Hk. destruct (decide (key = k)) as [->|Hne].
    + rewrite lookup_insert_eq in Hk. simplify_eq. eauto.
    + rewrite lookup_insert_ne in Hk by done. eauto.
Qed.
End step.

(** ** The commands keep the invariant *)

Lemma evict_subseteq (m : gmap text (V * Z)) ks : foldr delete m ks ⊆ m.
Proof. induction ks as [|k ks IH]; [done|]. cbn [foldr]. etrans; [apply delete_subseteq|done]. Qed.

Definition leaseCommand (c : cmd V) : bool := match c with ReleaseLease | ReleaseMaintenance => true | _ => false end.

Definition tieredInv (n : Z) (w : world (V:=V)) (hs : list hold) : Prop := localInv n (local w) (cached w) hs.

Lemma tieredInv_settle n ch w hs : tieredInv n w hs → tieredInv n (settle ch w) hs.
Proof. intros Hi. eapply localInv_frame; [apply evict_subseteq|done|exact Hi]. Qed.

(** A command that does not touch the local tier. *)
Lemma tieredInv_same n w w' hs i h : hs !! i = Some h → local w' = local w → cached w' ⊆ cached w →
  tieredInv n w hs → tieredInv (n + 1) w' (<[i := h]> hs).
Proof. intros Hi Hl Hc H. rewrite insert_same by done. unfold tieredInv. rewrite Hl. by eapply (localInv_frame n (n + 1)); [|lia|]. Qed.

(** A write that can fail keeps what both outcomes keep. *)
Lemma writing_spec ch (w' w : world (V:=V)) (P : option error → world → Prop) (X : Prop) :
  P None w' → (∀ err, P (Some err) w') → (∀ err, P (Some err) w) →
  match writing ch w' w with Waits => True | Panics => X | Answers r x => P r x end.
Proof. intros H1 H2 H3. unfold writing. destruct (ch_err ch), (ch_applied ch); auto. Qed.

Lemma execute_inv n w hs i h c ch :
  tieredInv n w hs → n < 2 ^ 64 - 1 → hs !! i = Some h → pre h c →
  match execute c ch w with
  | Waits => True
  | Panics => leaseCommand c = false
  | Answers r w' => tieredInv (n + 1) w' (<[i := post h c r]> hs)
  end.
Proof.
  intros Hi Hn Hh Hpre.
  assert (Hsame : ∀ w', local w' = local w → cached w' ⊆ cached w → tieredInv (n + 1) w' (<[i := h]> hs))
    by (intros; by eapply tieredInv_same).
  destruct c; cbn [execute post pre] in *; try (by apply Hsame).
  all: try (apply (writing_spec ch _ _ (λ _ x, tieredInv (n + 1) x (<[i := h]> hs))); intros; by apply Hsame).
  all: try solve [unfold onCoord, registryAcquire, registryRelease, joinFlight, publishFlight, waiting in *;
    repeat case_match; simplify_eq; first [done | by apply Hsame]].
  - (* TryAcquireHealthy *) subst h. unfold tryAcquireHealthy. destruct (decide _) as [Hp|].
    + apply (take_lease n (local w)); try done; [congruence|]. by intros ? [= ->].
    + destruct (_ && _); by apply Hsame.
  - (* TryAcquireMaintenance *) subst h. unfold tryAcquireMaintenance. destruct (_ || _) eqn:Hp; [|by apply Hsame].
    apply (take_lease n (local w)); try done. intros Hr. rewrite Hr in Hp. done.
  - (* ReleaseLease *) destruct Hpre as [gen ->]. unfold releasing. pose proof (drop_lease n _ _ _ i Hi _ Hh eq_refl) as Hd.
    by destruct (releaseActiveLocked _).
  - (* ReleaseMaintenance *) subst h. unfold releasing. pose proof (drop_lease n _ _ _ i Hi _ Hh eq_refl) as Hd.
    by destruct (releaseActiveLocked _).
  - (* BeginRepair *) destruct Hpre as [-> Hk]. destruct (tryBeginRepair _ _ _) as [b s'] eqn:Hb.
    pose proof (tryBeginRepair_inv n _ _ _ i Hi Hn _ _ _ _ Hh Hk Hb) as Hx. by destruct b.
  - (* Drain *) subst h. by apply tryDrain_inv.
  - (* CancelDrain *) subst h. by apply cancelDrain_inv.
  - (* FinishRepair *) destruct Hpre as (cleared & -> & Hcl). destruct (finishRepair _ _ _) as [b s'] eqn:Hb.
    by eapply finishRepair_inv.
  - (* Block *) rewrite insert_same by done. by apply block_inv.
  - (* LocalSet *) subst h.
    apply (writing_spec ch _ _ (λ _ x, tieredInv (n + 1) x (<[i := Leasing gen]> hs))); [| |by intros; apply Hsame];
      intros; rewrite insert_same by done; by apply (localSet_inv n _ _ _ i).
  - (* LocalDelete *) apply (writing_spec ch _ _ (λ _ x, tieredInv (n + 1) x (<[i := h]> hs))); intros; apply Hsame; try done; apply delete_subseteq.
  - (* LocalClear *) destruct Hpre as (lease & cleared & ->).
    apply (writing_spec ch _ _ (λ r x, tieredInv (n + 1) x
      (<[i := match r with Some _ => Repairing lease cleared | None => Repairing lease true end]> hs))).
    + by eapply localClear_inv.
    + intros _. apply Hsame; [done|apply map_empty_subseteq].
    + intros _. by apply Hsame.
Qed.

(** ** Failing closed *)

(** Blocked, or under a repair that began so. *)
Definition closed (s : localState) : Prop :=
  phase s = phaseBlocked ∨ phase s = phaseBlocking ∨ (phase s = phaseRepairing ∧ origin s = repairFromBlocked).

(** Without explicit repairs the local state stays closed. *)
Lemma execute_closed n w hs i h c ch :
  (∀ kind, allow kind → kind = repairMandatory) → tieredInv n w hs → hs !! i = Some h → pre h c → closed (local w) →
  match execute c ch w with Answers _ w' => closed (local w') | _ => True end.
Proof.
  intros Hmand Hi Hh Hpre Hcl.
  destruct c; cbn [execute pre] in *; try done.
  all: try (apply (writing_spec ch _ _ (λ _ x, closed (local x))); intros; exact Hcl).
  all: try solve [unfold onCoord, registryAcquire, registryRelease, joinFlight, publishFlight, waiting in *;
    repeat case_match; simplify_eq; done].
  - unfold tryAcquireHealthy. destruct (decide _) as [Hp|]; [unfold closed in Hcl; rewrite Hp in Hcl; naive_solver|]. by destruct (_ && _).
  - unfold tryAcquireMaintenance. by destruct (_ || _).
  - unfold releasing, releaseActiveLocked. destruct (_ <=? _); [done|]. cbv zeta. by destruct (_ && _).
  - unfold releasing, releaseActiveLocked. destruct (_ <=? _); [done|]. cbv zeta. by destruct (_ && _).
  - unfold tryBeginRepair. destruct (decide _) as [|Hp]; [done|]. destruct (match expected with Some _ => _ | None => _ end); [done|].
    right; right. cbn. split; [done|]. unfold closed in Hcl. destruct (phase (local w)); naive_solver.
  - unfold cancelDrain. destruct (_ && _); [by left|done].
  - destruct Hpre as (cleared & -> & _). unfold finishRepair. destruct (_ || _) eqn:Hc; [done|].
    apply orb_false_iff in Hc as [Hp%negb_false_iff%bool_decide_eq_true He%negb_false_iff%Z.eqb_eq].
    destruct (li_repair _ _ _ _ Hi i _ lease Hh eq_refl) as (_ & Hk%Hmand & Ho).
    assert (Hor : rl_origin lease = repairFromBlocked).
    { rewrite <-(Ho (conj Hp He)). unfold closed in Hcl. rewrite Hp in Hcl. naive_solver. }
    rewrite Hor, Hk. rewrite andb_false_r. by left.
  - unfold block. destruct (_ || _); [done|]. by left.
Qed.
End laws.
