(* ===== verification/TieredCoord.v ===== *)
(** * cache/redisvalue: laws of the coordinators

    The tokens that serialize the operations on a key: what a goroutine holds
    of a coordinator is tracked along its process, every method keeps that
    discipline, and every command keeps the counters of the coordinators equal
    to what the goroutines hold. *)

From S2P Require Import Prelude GoError GoText GoEncoding RedisKey Process LocalState RedisValue TieredCache TieredLaws.

Local Open Scope Z_scope.

(** ** The discipline *)

(** The token of a coordinator: waited for, received, or given up and not yet
    sent back. *)
Inductive tokenHold : Type := NoToken | Entered (k : nat) | Got (k : nat) | Left_ (k : nat).

Inductive flightHold : Type := NoFlight | Awaited (f : flightID).

Record chold : Type := mkCHold { ref : option (text * nat); tok : tokenHold; fl : flightHold }.

Section laws.
Context {V : Type} (sha256 : text → list Z) (Marshal : V → result (list Z)) (Unmarshal : list Z → result V).
Context (c : TieredCache).

(** The key of Redis for a key of the cache. *)
Definition physical (key : text) : text := join (keys (remote c)) [key].

Definition coPre (h : chold) (cm : cmd V) : Prop :=
  match cm with
  | CoordAcquire _ => ref h = None ∧ tok h = NoToken
  | CoordRelease key k => ref h = Some (key, k) ∧ (tok h = NoToken ∨ tok h = Got k)
  | TokenEnter k => (∃ key, ref h = Some (key, k)) ∧ tok h = NoToken
  | TokenReceive k => tok h = Entered k
  | TokenCancel k => tok h = Entered k
  | TokenLeave k => tok h = Got k
  | TokenSend k => tok h = Left_ k
  | JoinFlight k => ∃ key, ref h = Some (key, k)
  | ConsumeFlight f => fl h = Awaited f
  | RedisSet pk _ _ => ∃ key k, ref h = Some (key, k) ∧ tok h = Got k ∧ pk = physical key
  | RedisDel pk => ∃ key k, ref h = Some (key, k) ∧ tok h = Got k ∧ pk = physical key
  | _ => True
  end.

Definition coPost (h : chold) (cm : cmd V) : resp cm → chold :=
  match cm with
  | CoordAcquire key => λ k, mkCHold (Some (key, k)) (tok h) (fl h)
  | CoordRelease _ _ => λ _, mkCHold None (tok h) (fl h)
  | TokenEnter k => λ _, mkCHold (ref h) (Entered k) (fl h)
  | TokenReceive k => λ e, match e with None => mkCHold (ref h) (Got k) (fl h) | Some _ => h end
  | TokenCancel _ => λ _, mkCHold (ref h) NoToken (fl h)
  | TokenLeave k => λ _, mkCHold (ref h) (Left_ k) (fl h)
  | TokenSend _ => λ _, mkCHold (ref h) NoToken (fl h)
  | AwaitFlight f => λ e, match e with None => mkCHold (ref h) (tok h) (Awaited f) | Some _ => h end
  | _ => λ _, h
  end.

Local Notation keeps := (keeps coPre coPost).

(** The goroutine has given the coordinator back. *)
Definition returned {A} (h : chold) (_ : A) : Prop := ref h = None.

(** A part of a process that does not touch a coordinator. *)
Definition apart {A} (p : proc V A) : Prop := ∀ h, keeps (λ h' _, h' = h) h p.

Ltac walk :=
  repeat first
    [ progress cbn [Process.keeps coPre coPost mbind prog_bind act mret prog_ret ref tok fl]
    | match goal with
      | |- _ ∧ _ => split
      | |- apart _ => intros ?
      | |- ∀ _, _ => intros ?
      | |- context [match ?x with _ => _ end] => case_match
      end
    | done
    | solve [eauto] ].

Create HintDb coord.
Create HintDb coord_defs.

Lemma keeps_apart {A B} (Q : chold → B → Prop) h (p : proc V A) (f : A → proc V B) :
  apart p → (∀ a, keeps Q h (f a)) → keeps Q h (p ≫= f).
Proof. intros Hp Hf. eapply keeps_call; [apply Hp|]. intros h' a ->. apply Hf. Qed.

Lemma keeps_apart_end {A} (Q : chold → A → Prop) h (p : proc V A) : apart p → (∀ a, Q h a) → keeps Q h p.
Proof. intros Hp HQ. eapply keeps_mono; [|apply Hp]. by intros h' a ->. Qed.

Ltac call_method :=
  match goal with
  | |- Process.keeps _ _ _ _ (_ ≫= _) =>
      first [ apply keeps_apart; [solve [eauto with coord]|] | eapply keeps_call; [solve [eauto with coord]|] ]
  | H : ?p |- Process.keeps _ _ _ _ _ => exact H
  | |- Process.keeps _ _ _ _ _ => first [solve [eauto with coord] | apply keeps_apart_end; [solve [eauto with coord]|]]
  end.
Ltac keep := repeat (first [progress walk | progress subst | call_method]).

Hint Unfold ctxErr waitChanged classify releaseLease leaderFail leaderValue validateCall : coord_defs.
Ltac open_ := autounfold with coord_defs.

(** ** Parts that do not touch a coordinator *)

Lemma ReadBounded_apart key last : apart (ReadBounded (V:=V) key last).
Proof. unfold ReadBounded. walk. Qed.
Hint Resolve ReadBounded_apart : coord.
Lemma Value_Get_apart r key : apart (Value_Get sha256 Unmarshal r key).
Proof. unfold Value_Get. keep. Qed.
Lemma unlinkLoop_apart fuel r id ks p : apart (unlinkLoop (V:=V) fuel r id ks p).
Proof. revert ks p. induction fuel as [|fuel IH]; [done|]. intros ks p. cbn [unlinkLoop]. walk; apply IH. Qed.
Hint Resolve unlinkLoop_apart : coord.
Lemma clearLoop_apart fuel r pat id cur p : apart (clearLoop (V:=V) fuel r pat id cur p).
Proof. revert cur p. induction fuel as [|fuel IH]; [done|]. intros cur p. cbn [clearLoop]. keep; apply IH. Qed.
Lemma Value_Clear_apart fuel r : apart (Value_Clear (V:=V) sha256 fuel r).
Proof. unfold Value_Clear. walk. apply clearLoop_apart. Qed.
Lemma acquireHealthy_apart fuel : apart (acquireHealthy (V:=V) fuel).
Proof. induction fuel as [|fuel IH]; [done|]. cbn [acquireHealthy]. open_. walk; apply IH. Qed.
Lemma acquireMaintenance_apart fuel : apart (acquireMaintenance (V:=V) fuel).
Proof. induction fuel as [|fuel IH]; [done|]. cbn [acquireMaintenance]. open_. walk; apply IH. Qed.
Lemma drainLoop_apart fuel lease d : apart (drainLoop (V:=V) fuel lease d).
Proof. revert d. induction fuel as [|fuel IH]; intros []; cbn [drainLoop]; open_; walk; apply IH. Qed.
Hint Resolve Value_Get_apart Value_Clear_apart acquireHealthy_apart acquireMaintenance_apart drainLoop_apart : coord.
Lemma beginRepair_apart fuel kind expected : apart (beginRepairAtGeneration (V:=V) fuel kind expected).
Proof. induction fuel as [|fuel IH]; [done|]. cbn [beginRepairAtGeneration]. open_. walk; first [apply IH|apply drainLoop_apart]. Qed.
Hint Resolve beginRepair_apart : coord.
Lemma invalidateLocalHeld_apart fuel key : apart (invalidateLocalHeld (V:=V) sha256 c fuel key).
Proof. unfold invalidateLocalHeld. keep. Qed.
Lemma mandatoryInvalidate_apart fuel key : apart (mandatoryInvalidateLocalHeld (V:=V) sha256 c fuel key).
Proof. apply invalidateLocalHeld_apart. Qed.
Hint Resolve invalidateLocalHeld_apart mandatoryInvalidate_apart : coord.
Lemma populateLocalHeld_apart fuel key v ttl gen : apart (populateLocalHeld (V:=V) sha256 c fuel key v ttl gen).
Proof. unfold populateLocalHeld. open_. keep. Qed.
Lemma localGet_apart fuel key : apart (localGet (V:=V) sha256 c fuel key).
Proof. unfold localGet. open_. keep. Qed.
Lemma mutationResult_apart op key gen e1 e2 : apart (mutationResult (V:=V) sha256 c op key gen e1 e2).
Proof. unfold mutationResult. open_. keep. Qed.
Lemma clearUnder_apart lease : apart (clearUnder (V:=V) sha256 c lease).
Proof. unfold clearUnder. open_. walk. Qed.
Hint Resolve populateLocalHeld_apart localGet_apart mutationResult_apart clearUnder_apart : coord.
Lemma ClearLocal_apart fuel : apart (ClearLocal (V:=V) sha256 c fuel).
Proof. unfold ClearLocal, beginRepair. keep; apply clearUnder_apart. Qed.
Lemma Clear_apart fuel : apart (Clear (V:=V) sha256 c fuel).
Proof.
  unfold Clear. open_.
  assert (Hm : ∀ gen, apart (mandatoryClearLocal (V:=V) sha256 c fuel gen)).
  { intros gen. unfold mandatoryClearLocal. keep; apply clearUnder_apart. }
  keep.
Qed.

(** ** Parts under a coordinator *)

(** What a goroutine has while it runs an operation on the key. *)
Definition under (key : text) (k : nat) (held : bool) : chold :=
  mkCHold (Some (key, k)) (if held then Got k else NoToken) NoFlight.

Lemma acquireToken_co key k :
  keeps (λ h e, h = under key k (match e with None => true | Some _ => false end)) (under key k false) (acquireToken (V:=V) k).
Proof. unfold acquireToken, under. walk. Qed.
Lemma releaseToken_co key k : keeps (λ h _, h = under key k false) (under key k true) (releaseToken (V:=V) k).
Proof. unfold releaseToken, under. walk. Qed.
Hint Resolve acquireToken_co releaseToken_co : coord.

Lemma finishCall_co {A} key k (held : bool) t f (a : A) :
  (if held then t = Got k else t = NoToken ∨ t = Got k) →
  keeps returned (mkCHold (Some (key, k)) t f) (finishCall (V:=V) key k held a).
Proof. intros Ht. unfold finishCall, releaseToken. destruct held; subst; walk. Qed.

Lemma finishCall_under {A} key k held (a : A) : keeps returned (under key k held) (finishCall (V:=V) key k held a).
Proof. apply finishCall_co. destruct held; auto. Qed.
Hint Resolve finishCall_under : coord.

Lemma acquireHealthyForLeader_co key k :
  keeps (λ h r, h = under key k (match r with LeaderError _ held => held | _ => true end)) (under key k true)
    (acquireHealthyForLeader (V:=V) k).
Proof. unfold acquireHealthyForLeader. open_. keep. Qed.
Hint Resolve acquireHealthyForLeader_co : coord.

Lemma valueKey_physical key pk : valueKey sha256 (remote c) key = Ok pk → Value pk = physical key.
Proof.
  unfold valueKey, LogicalKey, physical. destruct (validateLogicalKey key); [done|]. destruct (validate _); [done|].
  case_bool_decide; [done|]. by intros [= <-].
Qed.

Lemma Value_Set_co key k v ttl :
  keeps (λ h _, h = under key k true) (under key k true) (Value_Set sha256 Marshal (remote c) key v ttl).
Proof.
  unfold Value_Set. destruct (valueKey _ _ _) as [pk|] eqn:Hpk; [|walk]. apply valueKey_physical in Hpk. rewrite Hpk.
  walk; exists key, k; done.
Qed.
Lemma Value_Delete_co key k :
  keeps (λ h _, h = under key k true) (under key k true) (Value_Delete (V:=V) sha256 (remote c) key).
Proof.
  unfold Value_Delete. destruct (valueKey _ _ _) as [pk|] eqn:Hpk; [|walk]. apply valueKey_physical in Hpk. rewrite Hpk.
  walk; exists key, k; done.
Qed.
Hint Resolve Value_Set_co Value_Delete_co : coord.

Lemma getRemoteLoop_co fuel key k :
  keeps (λ h r, h = under key k r.2) (under key k true) (getRemoteLoop (V:=V) sha256 Unmarshal c fuel key k).
Proof. induction fuel as [|fuel IH]; [done|]. cbn [getRemoteLoop]. open_. keep. Qed.
Hint Resolve getRemoteLoop_co : coord.

Lemma storeLoaded_co fuel key ttl gen v k :
  keeps (λ h r, h = under key k (match r with LoaderPanics => true | LeaderResult _ held => held end)) (under key k true)
    (storeLoaded (V:=V) sha256 Marshal c fuel key ttl gen v).
Proof. unfold storeLoaded. open_. keep. Qed.
Hint Resolve storeLoaded_co : coord.

Lemma runLoadLeader_co fuel key ttl k :
  keeps (λ h r, h = under key k (match r with LoaderPanics => true | LeaderResult _ held => held end)) (under key k true)
    (runLoadLeader (V:=V) sha256 Marshal Unmarshal c fuel key ttl k).
Proof. induction fuel as [|fuel IH]; [done|]. cbn [runLoadLeader]. open_. keep. Qed.

Lemma admitLoop_co fuel op key k :
  keeps (λ h r, h = under key k (match r with Refused _ held => held | _ => true end)) (under key k true)
    (admitLoop (V:=V) sha256 c fuel op key k).
Proof. induction fuel as [|fuel IH]; [done|]. cbn [admitLoop]. open_. keep. Qed.
Hint Resolve runLoadLeader_co admitLoop_co : coord.

Lemma setAdmitted_co fuel key v ttl gen k :
  keeps (λ h _, h = under key k true) (under key k true) (setAdmitted (V:=V) sha256 Marshal c fuel key v ttl gen).
Proof. unfold setAdmitted. open_. keep. Qed.
Hint Resolve setAdmitted_co : coord.

(** ** The methods *)

Definition freeHold : chold := mkCHold None NoToken NoFlight.

Ltac enter :=
  repeat match goal with
  | |- context [mkCHold (Some (?key, ?k)) NoToken NoFlight] =>
      change (mkCHold (Some (key, k)) NoToken NoFlight) with (under key k false)
  end.

Lemma Get_co fuel key : keeps returned freeHold (Get (V:=V) sha256 Unmarshal c fuel key).
Proof. unfold Get, getRemoteCoordinated. open_. keep. all: enter; keep. Qed.

Lemma Set_co fuel key v ttl : keeps returned freeHold (Set_ (V:=V) sha256 Marshal c fuel key v ttl).
Proof. unfold Set_. open_. keep. all: enter; keep. Qed.

Lemma Delete_co fuel key : keeps returned freeHold (Delete (V:=V) sha256 c fuel key).
Proof. unfold Delete. open_. keep. all: enter; keep. Qed.

Lemma InvalidateLocal_co fuel key : keeps returned freeHold (InvalidateLocal (V:=V) sha256 c fuel key).
Proof. unfold InvalidateLocal. open_. keep. all: enter; keep. Qed.

Lemma waitFlight_co key k f :
  keeps (λ h _, ref h = Some (key, k) ∧ tok h = NoToken) (under key k false) (waitFlight (V:=V) f).
Proof. unfold waitFlight, under. walk. Qed.

Lemma GetOrLoad_co fuel key ttl : keeps returned freeHold (GetOrLoad (V:=V) sha256 Marshal Unmarshal c fuel key ttl).
Proof.
  unfold GetOrLoad. open_. keep. all: enter.
  - change (mkCHold _ _ _) with (under key r false). eapply keeps_call; [apply waitFlight_co|].
    intros [rf tk f'] x [Hr Ht]. cbn in Hr, Ht. subst. apply finishCall_co. by left.
  - apply finishCall_co. by right.
Qed.

Lemma callProc_co fuel x : keeps returned freeHold (callProc (V:=V) sha256 Marshal Unmarshal c fuel x).
Proof.
  destruct x; cbn [callProc];
    [apply keeps_fmap, Get_co|apply GetOrLoad_co|apply keeps_fmap, Set_co|apply keeps_fmap, Delete_co
    |apply keeps_fmap, InvalidateLocal_co|apply keeps_fmap|apply keeps_fmap].
  - apply keeps_apart_end; [apply ClearLocal_apart|done].
  - apply keeps_apart_end; [apply Clear_apart|done].
Qed.

(** ** The invariant of the coordinators *)

Definition refers (k : nat) (h : chold) : bool := match ref h with Some (_, k') => bool_decide (k = k') | None => false end.
Definition uses (k : nat) (h : chold) : bool := match tok h with Entered k' | Got k' => bool_decide (k = k') | _ => false end.
Definition owns (k : nat) (h : chold) : bool := match tok h with Got k' | Left_ k' => bool_decide (k = k') | _ => false end.
Definition tokenOf (t : tokenHold) : option nat := match t with NoToken => None | Entered k | Got k | Left_ k => Some k end.

(** The counters of a coordinator are what the goroutines hold. *)
Definition counted (hs : list chold) (k : nat) (x : keyCoordinator) : Prop :=
  externalRef x = Z.of_nat (countb (refers k) hs) ∧
  tokenUsers x = Z.of_nat (countb (uses k) hs) ∧
  Z.b2z (negb (token x)) = Z.of_nat (countb (owns k) hs).

Record coordInv (w : world (V:=V)) (hs : list chold) : Prop := {
  ci_ref : ∀ i h key k, hs !! i = Some h → ref h = Some (key, k) → items w !! key = Some k;
  ci_items : ∀ key k, items w !! key = Some k → is_Some (coords w !! k);
  ci_inj : ∀ key key' k, items w !! key = Some k → items w !! key' = Some k → key = key';
  ci_token : ∀ i h k, hs !! i = Some h → tokenOf (tok h) = Some k → is_Some (coords w !! k);
  ci_next : ∀ k, is_Some (coords w !! k) → (k < nextCoord w)%nat;
  ci_counts : ∀ k x, coords w !! k = Some x → counted hs k x;
  ci_awaited : ∀ i h f, hs !! i = Some h → fl h = Awaited f → ∃ y, flights w !! f = Some y ∧ is_Some (published y);
  ci_flights : ∀ k n, is_Some (flights w !! (k, n)) → ∃ x, coords w !! k = Some x ∧ n ≤ nextFlight x
}.

(** A command that does not touch the coordinators. *)
Lemma coordInv_same w w' hs i h : hs !! i = Some h →
  items w' = items w → coords w' = coords w → flights w' = flights w → nextCoord w' = nextCoord w →
  coordInv w hs → coordInv w' (<[i := h]> hs).
Proof. intros Hi E1 E2 E3 E4 [R I J T N C A F]. rewrite list_insert_id by done. split; rewrite ?E1, ?E2, ?E3, ?E4; done. Qed.

(** A goroutine changes its token and the coordinator accordingly. *)
Lemma coordInv_token w hs i h k x x' t :
  hs !! i = Some h → coords w !! k = Some x → (tokenOf t = None ∨ tokenOf t = Some k) →
  (∀ k', tokenOf (tok h) = Some k' → k' = k) →
  externalRef x' = externalRef x → nextFlight x' = nextFlight x →
  tokenUsers x' = tokenUsers x - Z.b2z (uses k h) + Z.b2z (uses k (mkCHold (ref h) t (fl h))) →
  Z.b2z (negb (token x')) = Z.b2z (negb (token x)) - Z.b2z (owns k h) + Z.b2z (owns k (mkCHold (ref h) t (fl h))) →
  coordInv w hs → coordInv (setCoord k x' w) (<[i := mkCHold (ref h) t (fl h)]> hs).
Proof.
  intros Hi Hk Ht Hold Hext Hnf Husers Htoken [R I J T N C A F].
  assert (Hother : ∀ k', is_Some (<[k := x']> (coords w) !! k') ↔ is_Some (coords w !! k')).
  { intros k'. destruct (decide (k = k')) as [<-|Hne]; [rewrite lookup_insert_eq, Hk; split; eauto|by rewrite lookup_insert_ne]. }
  split; cbn [setCoord items coords flights nextCoord].
  - intros j h' key k' Hj Hr. changed; [exact (R _ _ _ _ Hi Hr)|eauto].
  - intros key k' Hk'. apply Hother. eauto.
  - exact J.
  - intros j h' k' Hj Hr. apply Hother. changed; [|eauto]. cbn in Hr. destruct Ht as [Ht|Ht]; rewrite Hr in Ht; [done|].
    injection Ht as <-. eauto.
  - intros k' Hk'. apply N. by apply Hother.
  - intros k' y Hy. unfold counted. pose proof (countb_insert (refers k') hs i h (mkCHold (ref h) t (fl h)) Hi) as Cr.
    pose proof (countb_insert (uses k') hs i h (mkCHold (ref h) t (fl h)) Hi) as Cu.
    pose proof (countb_insert (owns k') hs i h (mkCHold (ref h) t (fl h)) Hi) as Co.
    change (refers k' (mkCHold (ref h) t (fl h))) with (refers k' h) in Cr.
    destruct (decide (k = k')) as [<-|Hne].
    + rewrite lookup_insert_eq in Hy. injection Hy as <-. destruct (C k x Hk) as (C1 & C2 & C3). lia.
    + rewrite lookup_insert_ne in Hy by done. destruct (C k' y Hy) as (C1 & C2 & C3).
      assert (Hz : ∀ s, (tokenOf s = None ∨ tokenOf s = Some k) → ∀ r f, uses k' (mkCHold r s f) = false ∧ owns k' (mkCHold r s f) = false).
      { intros s Hs r f. unfold uses, owns. cbn. destruct s; cbn in Hs; try done; destruct Hs as [Hs|[= ->]]; try done; by rewrite bool_decide_false. }
      destruct (Hz t Ht (ref h) (fl h)) as [Z1 Z2]. rewrite Z1 in Cu. rewrite Z2 in Co.
      assert (Hth : tokenOf (tok h) = None ∨ tokenOf (tok h) = Some k).
      { destruct (tokenOf (tok h)) as [k0|]; [right; by rewrite (Hold k0)|by left]. }
      destruct (Hz (tok h) Hth (ref h) (fl h)) as [Z3 Z4]. destruct h as [r0 t0 f0]. cbn [tok ref fl] in *. rewrite Z3 in Cu. rewrite Z4 in Co. lia.
  - intros j h' f Hj Hf. changed; [exact (A _ _ _ Hi Hf)|eauto].
  - intros k' n Hf. destruct (F k' n Hf) as (y & Hy & Hle). destruct (decide (k = k')) as [<-|Hne].
    + rewrite lookup_insert_eq. exists x'. split; [done|]. rewrite Hnf. congruence.
    + rewrite lookup_insert_ne by done. eauto.
Qed.


(** *** The registry *)

(** The counts when a goroutine gets a reference. *)
Lemma ref_counts hs i h key k : hs !! i = Some h → ref h = None → tok h = NoToken →
  ∀ k', Z.of_nat (countb (refers k') (<[i := mkCHold (Some (key, k)) (tok h) (fl h)]> hs)) =
          Z.of_nat (countb (refers k') hs) + Z.b2z (bool_decide (k' = k)) ∧
    countb (uses k') (<[i := mkCHold (Some (key, k)) (tok h) (fl h)]> hs) = countb (uses k') hs ∧
    countb (owns k') (<[i := mkCHold (Some (key, k)) (tok h) (fl h)]> hs) = countb (owns k') hs.
Proof.
  intros Hi Hr Ht k'. set (h' := mkCHold _ _ _).
  pose proof (countb_insert (refers k') hs i h h' Hi) as Cr. pose proof (countb_insert (uses k') hs i h h' Hi) as Cu.
  pose proof (countb_insert (owns k') hs i h h' Hi) as Co.
  assert (refers k' h = false) as E1 by (unfold refers; by rewrite Hr).
  assert (refers k' h' = bool_decide (k' = k)) as E2 by done.
  assert (uses k' h' = uses k' h) as E3 by done. assert (owns k' h' = owns k' h) as E4 by done.
  rewrite E1, E2 in Cr. rewrite E3 in Cu. rewrite E4 in Co. cbn [Z.b2z] in Cr. split; [lia|]. split; lia.
Qed.

Lemma acquire_known w hs i h key k0 x :
  hs !! i = Some h → ref h = None → tok h = NoToken → items w !! key = Some k0 → coords w !! k0 = Some x → coordInv w hs →
  coordInv (setCoord k0 (mkCoordinator (token x) (flight x) (nextFlight x) (externalRef x + 1) (tokenUsers x)) w)
    (<[i := mkCHold (Some (key, k0)) (tok h) (fl h)]> hs).
Proof.
  intros Hi Hr Ht Hk0 Hx [R I J T N C A F].
  assert (Hother : ∀ k' y, is_Some (<[k0 := y]> (coords w) !! k') ↔ is_Some (coords w !! k')).
  { intros k' y. destruct (decide (k0 = k')) as [<-|Hne]; [rewrite lookup_insert_eq, Hx; split; eauto|by rewrite lookup_insert_ne]. }
  pose proof (ref_counts hs i h key k0 Hi Hr Ht) as Hcnt. set (h' := mkCHold _ _ _) in *.
  split; cbn [setCoord items coords flights nextCoord].
  - intros j h1 key1 k1 Hj Hr1. changed; [|eauto]. subst h'. cbn in Hr1. congruence.
  - intros key1 k1 H1. apply Hother. eauto.
  - exact J.
  - intros j h1 k1 Hj Hr1. apply Hother. changed; [|eauto]. subst h'. cbn in Hr1. by rewrite Ht in Hr1.
  - intros k1 H1. apply N. by apply Hother in H1.
  - intros k1 y Hy. destruct (Hcnt k1) as (H1 & H2 & H3). unfold counted. rewrite H1, H2, H3. destruct (decide (k0 = k1)) as [<-|Hne].
    + rewrite lookup_insert_eq in Hy. injection Hy as <-. destruct (C k0 x Hx) as (C1 & C2 & C3). cbn [externalRef tokenUsers token].
        rewrite bool_decide_true by done. cbn [Z.b2z]. split; [lia|done].
    + rewrite lookup_insert_ne in Hy by done. rewrite bool_decide_false by done. cbn [Z.b2z]. rewrite Z.add_0_r. by apply C.
  - intros j h1 f Hj Hf. changed; [subst h'; exact (A _ _ _ Hi Hf)|eauto].
  - intros k1 n Hf. destruct (F k1 n Hf) as (y & Hy & Hle). destruct (decide (k0 = k1)) as [<-|Hne].
    + rewrite lookup_insert_eq. eexists. split; [done|]. cbn. assert (y = x) as -> by congruence. done.
    + rewrite lookup_insert_ne by done. eauto.
Qed.

Lemma acquire_new w hs i h key :
  hs !! i = Some h → ref h = None → tok h = NoToken → items w !! key = None → coordInv w hs →
  coordInv (mkWorld (local w) (cached w) (redis w) (<[key := nextCoord w]> (items w))
      (<[nextCoord w := mkCoordinator true None 0 1 0]> (coords w)) (flights w) (S (nextCoord w)))
    (<[i := mkCHold (Some (key, nextCoord w)) (tok h) (fl h)]> hs).
Proof.
  intros Hi Hr Ht Hk0 [R I J T N C A F].
  assert (Hnone : coords w !! nextCoord w = None).
  { destruct (coords w !! nextCoord w) eqn:E; [|done]. specialize (N (nextCoord w) ltac:(eauto)). lia. }
  assert (Hne : ∀ k1, is_Some (coords w !! k1) → nextCoord w ≠ k1) by (intros k1 H1 <-; rewrite Hnone in H1; by destruct H1).
  pose proof (ref_counts hs i h key (nextCoord w) Hi Hr Ht) as Hcnt. set (h' := mkCHold _ _ _) in *.
  split; cbn [items coords flights nextCoord].
  - intros j h1 key1 k1 Hj Hr1. changed; [subst h'; cbn in Hr1; injection Hr1 as <- <-; by rewrite lookup_insert_eq|].
      pose proof (R _ _ _ _ Hj Hr1) as H1. rewrite lookup_insert_ne; [done|]. congruence.
  - intros key1 k1 H1. destruct (decide (key = key1)) as [<-|Hk].
    + rewrite lookup_insert_eq in H1. injection H1 as <-. rewrite lookup_insert_eq. eauto.
    + rewrite lookup_insert_ne in H1 by done. pose proof (I key1 k1 H1). rewrite lookup_insert_ne by auto. done.
  - intros key1 key2 k1 H1 H2. destruct (decide (key = key1)) as [<-|Hk1], (decide (key = key2)) as [<-|Hk2]; [done|..];
        rewrite ?lookup_insert_eq, ?lookup_insert_ne in * by done; [| |eauto].
    + injection H1 as <-. by destruct (Hne _ (I _ _ H2)).
    + injection H2 as <-. by destruct (Hne _ (I _ _ H1)).
  - intros j h1 k1 Hj Hr1. changed; [subst h'; cbn in Hr1; by rewrite Ht in Hr1|]. pose proof (T _ _ _ Hj Hr1).
      rewrite lookup_insert_ne by auto. done.
  - intros k1 H1. destruct (decide (nextCoord w = k1)) as [<-|Hk]; [lia|]. rewrite lookup_insert_ne in H1 by done. specialize (N k1 H1). lia.
  - intros k1 y Hy. destruct (Hcnt k1) as (H1 & H2 & H3). unfold counted. rewrite H1, H2, H3. destruct (decide (nextCoord w = k1)) as [<-|Hk].
    + rewrite lookup_insert_eq in Hy. injection Hy as <-. cbn [externalRef tokenUsers token negb Z.b2z]. rewrite bool_decide_true by done.
        rewrite !countb_none; [done|..]; apply Forall_lookup; intros j h1 Hj.
      * unfold owns. destruct (tok h1) eqn:E; try done; apply bool_decide_false; apply Hne, (T _ _ _ Hj); by rewrite E.
      * unfold uses. destruct (tok h1) eqn:E; try done; apply bool_decide_false; apply Hne, (T _ _ _ Hj); by rewrite E.
      * unfold refers. destruct (ref h1) as [[key1 k1]|] eqn:E; [|done]. apply bool_decide_false, Hne. eapply I, R; eauto.
    + rewrite lookup_insert_ne in Hy by done. rewrite bool_decide_false by done. cbn [Z.b2z]. rewrite Z.add_0_r. by apply C.
  - intros j h1 f Hj Hf. changed; [subst h'; exact (A _ _ _ Hi Hf)|eauto].
  - intros k1 n Hf. destruct (F k1 n Hf) as (y & Hy & Hle). exists y. rewrite lookup_insert_ne; [done|]. apply Hne. eauto.
Qed.

Lemma registryAcquire_inv w hs i h key k w' :
  hs !! i = Some h → ref h = None → tok h = NoToken → registryAcquire key w = (k, w') → coordInv w hs →
  coordInv w' (<[i := mkCHold (Some (key, k)) (tok h) (fl h)]> hs).
Proof.
  intros Hi Hr Ht. unfold registryAcquire. destruct (items w !! key) as [k0|] eqn:Hk0.
  - intros [= <- <-] Hinv. destruct (ci_items _ _ Hinv key k0 Hk0) as [x Hx]. rewrite Hx. by apply acquire_known.
  - intros [= <- <-] Hinv. by apply acquire_new.
Qed.

Lemma registryRelease_inv w hs i h key k :
  hs !! i = Some h → ref h = Some (key, k) → coordInv w hs →
  match registryRelease key k w with
  | Waits => True
  | Panics => False
  | Answers _ w' => coordInv w' (<[i := mkCHold None (tok h) (fl h)]> hs)
  end.
Proof.
  intros Hi Hr [R I J T N C A F]. pose proof (R _ _ _ _ Hi Hr) as Hk. destruct (I key k Hk) as [x Hx].
  set (h' := mkCHold None (tok h) (fl h)).
  assert (Hcnt : ∀ k', Z.of_nat (countb (refers k') (<[i := h']> hs)) = Z.of_nat (countb (refers k') hs) - Z.b2z (bool_decide (k' = k)) ∧
    countb (uses k') (<[i := h']> hs) = countb (uses k') hs ∧ countb (owns k') (<[i := h']> hs) = countb (owns k') hs).
  { intros k'. pose proof (countb_insert (refers k') hs i h h' Hi) as Cr. pose proof (countb_insert (uses k') hs i h h' Hi) as Cu.
    pose proof (countb_insert (owns k') hs i h h' Hi) as Co.
    assert (refers k' h = bool_decide (k' = k)) as E1 by (unfold refers; by rewrite Hr).
    assert (refers k' h' = false) as E2 by done.
    assert (uses k' h' = uses k' h) as E3 by done. assert (owns k' h' = owns k' h) as E4 by done.
    rewrite E1, E2 in Cr. rewrite E3 in Cu. rewrite E4 in Co. cbn [Z.b2z] in Cr. split; [lia|]. split; lia. }
  unfold registryRelease. rewrite bool_decide_true by done. cbn [negb]. rewrite Hx.
  destruct (C k x Hx) as (C1 & C2 & C3).
  assert (Hpos : (1 ≤ countb (refers k) hs)%nat)
    by (apply (countb_pos _ _ i h Hi); unfold refers; rewrite Hr; by apply bool_decide_true).
  rewrite (proj2 (Z.leb_gt _ _)) by lia. cbv zeta.
  set (x' := mkCoordinator _ _ _ _ _).
  assert (Hw : ∀ its, (∀ key1 k1, its !! key1 = Some k1 → items w !! key1 = Some k1) →
    (∀ j h1 key1 k1, <[i := h']> hs !! j = Some h1 → ref h1 = Some (key1, k1) → its !! key1 = Some k1) →
    coordInv (mkWorld (local w) (cached w) (redis w) its (<[k := x']> (coords w)) (flights w) (nextCoord w)) (<[i := h']> hs)).
  { intros its Hits Href.
    assert (Hother : ∀ k', is_Some (<[k := x']> (coords w) !! k') ↔ is_Some (coords w !! k')).
    { intros k'. destruct (decide (k = k')) as [<-|Hne]; [rewrite lookup_insert_eq, Hx; split; eauto|by rewrite lookup_insert_ne]. }
    split; cbn [items coords flights nextCoord].
    - exact Href.
    - intros key1 k1 H1. apply Hother. eauto.
    - intros key1 key2 k1 H1 H2. eauto.
    - intros j h1 k1 Hj Hr1. apply Hother. changed; [exact (T _ _ _ Hi Hr1)|eauto].
    - intros k1 H1. apply N. by apply Hother.
    - intros k1 y Hy. destruct (Hcnt k1) as (H1 & H2 & H3). unfold counted. rewrite H1, H2, H3. destruct (decide (k = k1)) as [<-|Hne].
      + rewrite lookup_insert_eq in Hy. injection Hy as <-. rewrite bool_decide_true by done. cbn. split; [lia|done].
      + rewrite lookup_insert_ne in Hy by done. rewrite bool_decide_false by done. cbn [Z.b2z]. rewrite Z.sub_0_r. by apply C.
    - intros j h1 f Hj Hf. changed; [exact (A _ _ _ Hi Hf)|eauto].
    - intros k1 n Hf. destruct (F k1 n Hf) as (y & Hy & Hle). destruct (decide (k = k1)) as [<-|Hne].
      + rewrite lookup_insert_eq. exists x'. split; [done|]. assert (y = x) as -> by congruence. done.
      + rewrite lookup_insert_ne by done. eauto. }
  assert (Hold : ∀ j h1 key1 k1, <[i := h']> hs !! j = Some h1 → ref h1 = Some (key1, k1) → items w !! key1 = Some k1).
  { intros j h1 key1 k1 Hj Hr1. changed; [done|eauto]. }
  destruct (idleLocked x') eqn:Hidle; [|apply Hw; [done|exact Hold]].
  apply Hw; [intros key1 k1 H1; by apply lookup_delete_Some in H1 as [_ H1]|].
  intros j h1 key1 k1 Hj Hr1. rewrite lookup_delete_ne; [eauto|]. intros <-.
  assert (k1 = k) as -> by (pose proof (Hold _ _ _ _ Hj Hr1); congruence).
  unfold idleLocked in Hidle. apply andb_true_iff in Hidle as [[He%Z.eqb_eq _]%andb_true_iff _]. cbn in He.
  destruct (Hcnt k) as (H1 & _). rewrite bool_decide_true in H1 by done. cbn [Z.b2z] in H1.
  pose proof (countb_pos (refers k) _ j h1 Hj ltac:(unfold refers; rewrite Hr1; by apply bool_decide_true)). lia.
Qed.

(** *** Flights *)

(** New and changed flights: published ones stay published. *)
Lemma coordInv_flight w hs i h f y :
  hs !! i = Some h → (∃ x, coords w !! f.1 = Some x ∧ f.2 ≤ nextFlight x) →
  (∀ y', flights w !! f = Some y' → is_Some (published y') → is_Some (published y)) →
  coordInv w hs → coordInv (setFlight f y w) (<[i := h]> hs).
Proof.
  intros Hi Hx Hp [R I J T N C A F]. rewrite list_insert_id by done. split; cbn [setFlight items coords flights nextCoord]; try done.
  - intros j h1 f1 Hj Hf. destruct (A j h1 f1 Hj Hf) as (y1 & Hy1 & Hpub). destruct (decide (f = f1)) as [<-|Hne].
    + rewrite lookup_insert_eq. eauto.
    + rewrite lookup_insert_ne by done. eauto.
  - intros k n Hf. destruct (decide (f = (k, n))) as [->|Hne]; [done|]. rewrite lookup_insert_ne in Hf by done. eauto.
Qed.

(** A coordinator whose flight changes. *)
Lemma coordInv_setflight w hs k x fo n :
  coords w !! k = Some x → nextFlight x ≤ n → coordInv w hs →
  coordInv (setCoord k (mkCoordinator (token x) fo n (externalRef x) (tokenUsers x)) w) hs.
Proof.
  intros Hx Hn [R I J T N C A F].
  set (x' := mkCoordinator _ _ _ _ _).
  assert (Hother : ∀ k', is_Some (<[k := x']> (coords w) !! k') ↔ is_Some (coords w !! k')).
  { intros k'. destruct (decide (k = k')) as [<-|Hne]; [rewrite lookup_insert_eq, Hx; split; eauto|by rewrite lookup_insert_ne]. }
  split; cbn [setCoord items coords flights nextCoord]; try done.
  - intros key1 k1 H1. apply Hother. eauto.
  - intros j h1 k1 Hj Hr1. apply Hother. eauto.
  - intros k1 H1. apply N. by apply Hother.
  - intros k1 y Hy. destruct (decide (k = k1)) as [<-|Hne].
    + rewrite lookup_insert_eq in Hy. injection Hy as <-. exact (C k x Hx).
    + rewrite lookup_insert_ne in Hy by done. by apply C.
  - intros k1 m Hf. destruct (F k1 m Hf) as (y & Hy & Hle). destruct (decide (k = k1)) as [<-|Hne].
    + rewrite lookup_insert_eq. exists x'. split; [done|]. assert (y = x) as -> by congruence. cbn. lia.
    + rewrite lookup_insert_ne by done. eauto.
Qed.

Lemma joinFlight_inv w hs i h k x f leader w' :
  hs !! i = Some h → coords w !! k = Some x → joinFlight k x w = (f, leader, w') → coordInv w hs → coordInv w' (<[i := h]> hs).
Proof.
  intros Hi Hx Hj Hinv.
  assert (Hnew : coordInv (setFlight (k, nextFlight x + 1) (mkFlight None 1)
     (setCoord k (mkCoordinator (token x) (Some (nextFlight x + 1)) (nextFlight x + 1) (externalRef x) (tokenUsers x)) w)) (<[i := h]> hs)).
  { apply coordInv_flight; [done| | |by apply coordInv_setflight; [|lia|]].
    - cbn [fst snd setCoord coords]. rewrite lookup_insert_eq. eexists. split; [done|]. cbn. lia.
    - intros y' Hy'. cbn [setCoord flights] in Hy'. destruct (ci_flights _ _ Hinv k (nextFlight x + 1) ltac:(eauto)) as (x0 & Hx0 & Hle).
      assert (x0 = x) as -> by congruence. lia. }
  unfold joinFlight in Hj. cbv zeta in Hj. destruct (flight x) as [n|]; [|by injection Hj as _ _ <-].
  destruct (flights w !! (k, n)) as [[[r|] p]|] eqn:Hf; rewrite ?Hf in Hj; [by injection Hj as _ _ <-| |by injection Hj as _ _ <-].
  injection Hj as _ _ <-. apply coordInv_flight; [done|by apply (ci_flights _ _ Hinv); eauto| |done].
  intros y' Hy' Hpub. rewrite Hf in Hy'. injection Hy' as <-. by destruct Hpub.
Qed.

Lemma publishFlight_inv w hs i h f r x b w' :
  hs !! i = Some h → coords w !! f.1 = Some x → publishFlight f r x w = (b, w') → coordInv w hs → coordInv w' (<[i := h]> hs).
Proof.
  intros Hi Hx Hp Hinv. unfold publishFlight in Hp.
  assert (Hsame : coordInv w (<[i := h]> hs)) by (by rewrite list_insert_id).
  destruct (flights w !! f) as [[[r0|] p]|] eqn:Hf; rewrite ?Hf in Hp; [by injection Hp as _ <-| |by injection Hp as _ <-].
  destruct (bool_decide _); [|by injection Hp as _ <-]. injection Hp as _ <-.
  apply coordInv_flight; [done| |by eauto|by apply coordInv_setflight].
  cbn [setCoord coords]. rewrite lookup_insert_eq. eexists. split; [done|]. cbn [nextFlight].
  destruct f as [k n]. destruct (ci_flights _ _ Hinv k n ltac:(eauto)) as (x0 & Hx0 & Hle). cbn in Hx. assert (x0 = x) as -> by congruence. done.
Qed.

(** *** All commands *)

(** The commands that can panic because of a counter or a flight. *)
Definition coordCommand (cm : cmd V) : bool :=
  match cm with CoordRelease _ _ | TokenLeave _ | ConsumeFlight _ => true | _ => false end.

Lemma execute_coord w hs i h cm ch :
  coordInv w hs → hs !! i = Some h → coPre h cm →
  match execute cm ch w with
  | Waits => True
  | Panics => coordCommand cm = false
  | Answers r w' => coordInv w' (<[i := coPost h cm r]> hs)
  end.
Proof.
  intros Hinv Hi Hpre.
  assert (Hsame : ∀ w', items w' = items w → coords w' = coords w → flights w' = flights w → nextCoord w' = nextCoord w →
    coordInv w' (<[i := h]> hs)) by (intros; by eapply coordInv_same).
  destruct cm; cbn [execute coPost coPre] in *; try (by apply Hsame).
  all: try solve [unfold writing, waiting, releasing; repeat case_match; simplify_eq; first [done | by apply Hsame]].
  - (* CoordAcquire *) destruct Hpre as [Hr Ht]. destruct (registryAcquire key w) as [k w'] eqn:Ha. by eapply registryAcquire_inv.
  - (* CoordRelease *) destruct Hpre as [Hr _]. pose proof (registryRelease_inv w hs i h key c0 Hi Hr Hinv) as Hx.
    by destruct (registryRelease _ _ _).
  - (* TokenEnter *) destruct Hpre as [[key Hr] Ht]. unfold onCoord.
    destruct (coords w !! c0) as [x|] eqn:Hx; [|done]. apply (coordInv_token w hs i h c0 x); try done.
    + by right.
    + by rewrite Ht.
    + unfold uses. rewrite Ht. cbn. rewrite bool_decide_true by done. cbn. lia.
    + unfold owns. rewrite Ht. cbn. lia.
  - (* TokenReceive *) unfold onCoord. destruct (coords w !! c0) as [x|] eqn:Hx; [|done]. unfold waiting.
    destruct (ch_err ch); [by apply Hsame|]. destruct (token x) eqn:Htk; [|done].
    apply (coordInv_token w hs i h c0 x); try done.
    + by right.
    + rewrite Hpre. by intros k' [= ->].
    + unfold uses. rewrite Hpre. cbn. lia.
    + unfold owns. rewrite Hpre, Htk. cbn. rewrite bool_decide_true by done. done.
  - (* TokenCancel *) unfold onCoord. destruct (coords w !! c0) as [x|] eqn:Hx; [|done].
    apply (coordInv_token w hs i h c0 x); try done.
    + by left.
    + rewrite Hpre. by intros k' [= ->].
    + unfold uses. rewrite Hpre. cbn. rewrite bool_decide_true by done. cbn. lia.
    + unfold owns. rewrite Hpre. cbn. lia.
  - (* TokenLeave *) unfold onCoord. destruct (coords w !! c0) as [x|] eqn:Hx; [|done].
    destruct (ci_counts _ _ Hinv c0 x Hx) as (_ & C2 & _).
    pose proof (countb_pos (uses c0) hs i h Hi ltac:(unfold uses; rewrite Hpre; by apply bool_decide_true)) as Hpos.
    rewrite (proj2 (Z.leb_gt _ _)) by lia. apply (coordInv_token w hs i h c0 x); try done.
    + by right.
    + rewrite Hpre. by intros k' [= ->].
    + unfold uses. rewrite Hpre. cbn. rewrite bool_decide_true by done. cbn. lia.
    + unfold owns. rewrite Hpre. cbn. lia.
  - (* TokenSend *) unfold onCoord. destruct (coords w !! c0) as [x|] eqn:Hx; [|done].
    destruct (token x) eqn:Htk; [done|]. apply (coordInv_token w hs i h c0 x); try done.
    + by left.
    + rewrite Hpre. by intros k' [= ->].
    + unfold uses. rewrite Hpre. cbn. lia.
    + unfold owns. rewrite Hpre, Htk. cbn. rewrite bool_decide_true by done. done.
  - (* JoinFlight *) unfold onCoord. destruct (coords w !! c0) as [x|] eqn:Hx; [|done].
    destruct (joinFlight c0 x w) as [[f leader] w'] eqn:Hj. by eapply joinFlight_inv.
  - (* PublishFlight *) unfold onCoord. destruct (coords w !! f.1) as [x|] eqn:Hx; [|done].
    destruct (publishFlight f r x w) as [b w'] eqn:Hp. by eapply publishFlight_inv.
  - (* AwaitFlight *) destruct (flights w !! f) as [y|] eqn:Hf; [|done]. unfold waiting. destruct (ch_err ch); [by apply Hsame|].
    case_bool_decide as Hpub; [|done]. destruct Hinv as [R I J T N C A F].
    assert (Hcnt : ∀ p : chold → bool, p (mkCHold (ref h) (tok h) (Awaited f)) = p h → countb p (<[i := mkCHold (ref h) (tok h) (Awaited f)]> hs) = countb p hs).
    { intros p Hp. pose proof (countb_insert p hs i h (mkCHold (ref h) (tok h) (Awaited f)) Hi). rewrite Hp in *. lia. }
    split; try done.
    + intros j h1 key k Hj Hr. changed; [exact (R _ _ _ _ Hi Hr)|eauto].
    + intros j h1 k Hj Hr. changed; [exact (T _ _ _ Hi Hr)|eauto].
    + intros k x Hx. destruct (C k x Hx) as (C1 & C2 & C3). unfold counted. by rewrite !Hcnt.
    + intros j h1 f1 Hj Hf1. changed; [cbn in Hf1; injection Hf1 as <-; eauto|eauto].
  - (* ConsumeFlight *) destruct (ci_awaited _ _ Hinv i h f Hi Hpre) as (y & Hy & Hpub). rewrite Hy.
    destruct Hpub as [r Hr]. rewrite Hr. apply coordInv_flight; try done.
    destruct f as [k n]. by apply (ci_flights _ _ Hinv); eauto.
  - (* AbandonFlight *) destruct (flights w !! f) as [y|] eqn:Hy; [|done]. apply coordInv_flight; try done.
    + destruct f as [k n]. by apply (ci_flights _ _ Hinv); eauto.
    + intros y' Hy' Hpub. cbn. congruence.
Qed.
End laws.

(** ** cache/redisvalue: the tiered cache under any schedule

    Any number of calls of the methods run at the same time, in any order of
    their commands, against any choices of the environment.  The two
    disciplines of [TieredLaws.v] and [TieredCoord.v] hold together. *)

Section system.
Context {V : Type} (sha256 : text → list Z) (Marshal : V → result (list Z)) (Unmarshal : list Z → result V).
Context (c : TieredCache) (fuel : nat).

(** The system before the calls have begun. *)
Definition started (r : gmap text (list Z)) (calls : list call_) : system resp (world (V:=V)) outcome :=
  mkSystem (newWorld r) (callProc sha256 Marshal Unmarshal c fuel <$> calls) false.

Section disciplines.
Context (allow : repairKind → Prop).

Definition bothPre (h : hold * chold) (cm : cmd V) : Prop := pre allow h.1 cm ∧ coPre c h.2 cm.
Definition bothPost (h : hold * chold) (cm : cmd V) (r : resp cm) : hold * chold := (post h.1 cm r, coPost h.2 cm r).
Definition bothInv (n : Z) (w : world (V:=V)) (hs : list (hold * chold)) : Prop :=
  tieredInv allow n w hs.*1 ∧ coordInv w hs.*2.
Definition bothFinal (h : hold * chold) (_ : outcome (V:=V)) : Prop := h.1 = Nothing ∧ ref h.2 = None.

Lemma coordInv_settle ch (w : world (V:=V)) hs : coordInv w hs → coordInv (settle ch w) hs.
Proof. by intros []. Qed.

(** Only these commands panic. *)
Lemma panics_only cm ch (w : world (V:=V)) : execute cm ch w = Panics → leaseCommand cm = true ∨ coordCommand cm = true.
Proof.
  destruct cm; cbn [execute leaseCommand coordCommand]; try discriminate; auto.
  all: unfold writing, waiting, reading, onCoord; repeat case_match; simplify_eq; auto; discriminate.
Qed.

Lemma both_exec n w hs i h cm ch :
  bothInv n w hs → n < 2 ^ 64 - 1 → True → hs !! i = Some h → bothPre h cm →
  match exec cm ch w with
  | Waits => True
  | Panics => False
  | Answers r w' => bothInv (n + 1) w' (<[i := bothPost h cm r]> hs)
  end.
Proof.
  intros [Hl Hc] Hn _ Hi [P1 P2]. unfold exec.
  assert (Hi1 : hs.*1 !! i = Some h.1) by (by rewrite list_lookup_fmap, Hi).
  assert (Hi2 : hs.*2 !! i = Some h.2) by (by rewrite list_lookup_fmap, Hi).
  pose proof (execute_inv allow n _ _ i h.1 cm ch (tieredInv_settle allow n ch w _ Hl) Hn Hi1 P1) as E1.
  pose proof (execute_coord c _ _ i h.2 cm ch (coordInv_settle ch w _ Hc) Hi2 P2) as E2.
  destruct (execute cm ch (settle ch w)) as [| |r w'] eqn:He; [done| |].
  - destruct (panics_only _ _ _ He); congruence.
  - split; by rewrite list_fmap_insert.
Qed.

Definition admitted (calls : list (call_ (V:=V))) : Prop := Forall (λ x, ∀ kind, repairs x = Some kind → allow kind) calls.

Lemma started_good r calls :
  Z.of_nat (length calls) < 2 ^ 63 → admitted calls → good bothPre bothPost bothFinal bothInv 0 (started r calls).
Proof.
  intros Hlen Hadm. split; [done|]. exists (replicate (length calls) (Nothing, freeHold)). split.
  - unfold bothInv, tieredInv. rewrite !fmap_replicate. cbn [fst snd]. split; split; cbn [started shared newWorld local cached newLocalState active epoch generation phase items coords flights nextCoord]; unfold current.
    all: try (by rewrite length_replicate). all: try (by rewrite countb_none by (by apply Forall_replicate)).
    all: intros; repeat match goal with
      | H : replicate _ _ !! _ = Some _ |- _ => apply lookup_replicate_1 in H as [? _]
      | H : is_Some (∅ !! _) |- _ => destruct H as [? H]
      | H : ∅ !! _ = Some _ |- _ => by rewrite lookup_empty in H
      end; subst; try done.
  - cbn [started procs]. apply Forall2_fmap_r, Forall2_replicate_l; [done|].
    eapply Forall_impl; [exact Hadm|]. intros x Hx. eapply keeps_mono; [|apply keeps_both; [by apply (callProc_keeps _ _ _ allow)|apply callProc_co]].
    intros [h1 h2] o [H1 H2]. done.
Qed.

Lemma run_both r calls sched x :
  Z.of_nat (length calls) < 2 ^ 63 → Z.of_nat (length sched) < 2 ^ 64 → admitted calls →
  run exec sched (started r calls) = Some x → good bothPre bothPost bothFinal bothInv (Z.of_nat (length sched)) x.
Proof.
  intros Hlen Hs Hadm Hr. rewrite <-(Z.add_0_l (Z.of_nat (length sched))).
  apply (run_good exec bothPre bothPost bothFinal bothInv (2 ^ 64 - 1) (λ _, True) both_exec _ _ _ _ (started_good r calls Hlen Hadm)); [lia|by apply Forall_true|done].
Qed.

(** A closed local state stays closed when no call repairs it explicitly. *)
Lemma run_closed (Hm : ∀ kind, allow kind → kind = repairMandatory) sched n (x x' : system resp (world (V:=V)) (outcome (V:=V))) :
  good bothPre bothPost bothFinal bothInv n x → n + Z.of_nat (length sched) ≤ 2 ^ 64 - 1 → closed (local (shared x)) →
  run exec sched x = Some x' → closed (local (shared x')).
Proof.
  revert n x. induction sched as [|[i ch] rest IH]; intros n x Hg Hl Hc; cbn [run length] in *; [by intros [= <-]|].
  destruct (step exec i ch x) as [x1|] eqn:Hs; [|done]. cbn [mbind option_bind]. apply (IH (n + 1)); [|lia|].
  - eapply (step_good exec bothPre bothPost bothFinal bothInv (2 ^ 64 - 1) (λ _, True) both_exec); [done|lia|done|done].
  - destruct Hg as (_ & hs & [Hinv _] & Hk). unfold step in Hs.
    destruct (procs x !! i) as [[o| |cm k]|] eqn:Hp; try done. destruct (Forall2_lookup_r _ _ _ _ _ Hk Hp) as (h & Hh & [Hpre _] & _).
    pose proof (execute_closed allow n _ _ i h.1 cm ch Hm (tieredInv_settle allow n ch _ _ Hinv)) as He.
    specialize (He ltac:(by rewrite list_lookup_fmap, Hh) Hpre Hc). unfold exec in Hs.
    destruct (execute cm ch (settle ch (shared x))); [done|by injection Hs as <-|by injection Hs as <-].
Qed.
End disciplines.

(** The key of Redis that a process is about to set or delete; [Clear] sends UNLINK
    instead, for many keys at once. *)
Definition writesKey (p : proc V (outcome (V:=V))) : option text :=
  match p with
  | Act (RedisSet pk _ _) _ => Some pk
  | Act (RedisDel pk) _ => Some pk
  | _ => None
  end.

Lemma Join_last_inj (l : list text) (key key' : text) : Join (l ++ [key]) 58 = Join (l ++ [key']) 58 → key = key'.
Proof.
  induction l as [|p l IH]; [done|]. cbn [app Join]. destruct (l ++ [key]) eqn:E1, (l ++ [key']) eqn:E2;
    [by destruct l|by destruct l|by destruct l|]. intros H. apply app_inv_head in H. injection H as H. auto.
Qed.

Lemma physical_inj key key' : physical c key = physical c key' → key = key'.
Proof. unfold physical, join. rewrite !app_assoc. apply Join_last_inj. Qed.

(** A goroutine that is about to write a key of Redis has the token of the
    coordinator that the registry has for its key. *)
Lemma writes_owns allow n (w : world (V:=V)) hs i h p pk :
  bothInv allow n w hs → hs !! i = Some h → keeps (bothPre allow) bothPost bothFinal h p → writesKey p = Some pk →
  ∃ key k, pk = physical c key ∧ items w !! key = Some k ∧ owns k h.2 = true ∧ is_Some (coords w !! k).
Proof.
  intros [_ Hco] Hi Hk Hw.
  assert (Hpre : ∃ key k, ref h.2 = Some (key, k) ∧ tok h.2 = Got k ∧ pk = physical c key).
  { destruct p as [o| |cm kk]; [done|done|]. destruct Hk as [[_ Hpre] _]. destruct cm; try done; injection Hw as <-; exact Hpre. }
  destruct Hpre as (key & k & Hr & Ht & ->). exists key, k. split; [done|].
  assert (Hit : items w !! key = Some k) by (eapply (ci_ref _ _ Hco i); [by rewrite list_lookup_fmap, Hi|done]).
  split; [done|]. split; [|by eapply (ci_items _ _ Hco)]. unfold owns. rewrite Ht. by apply bool_decide_true.
Qed.
End system.

(** ** Properties *)

(** C4. The local tier holds no value of an earlier generation: with any number
    of concurrent calls, failures of the tiers and cancellations, no counter
    underflows, and whenever the local tier is healthy every value in it was
    admitted in its current generation, that is, after the last repair or block
    of the tier had begun.  A clear of Redis that ends when the generation has
    moved on begins no repair of its own, so values that it has removed from Redis
    may be among them ([clear_leaves_removed_value]). *)
Theorem healthy_local_current {V} sha256 Marshal Unmarshal c fuel r (calls : list (call_ (V:=V))) sched x :
  Z.of_nat (length calls) < 2 ^ 63 → Z.of_nat (length sched) < 2 ^ 64 →
  run exec sched (started sha256 Marshal Unmarshal c fuel r calls) = Some x →
  crashed x = false ∧
  (phase (local (shared x)) = phaseHealthy → ∀ key v gen,
     cached (shared x) !! key = Some (v, gen) → gen = generation (local (shared x))).
Proof.
  intros Hlen Hs Hr.
  destruct (run_both sha256 Marshal Unmarshal c fuel (λ _, True) r calls sched x Hlen Hs) as (Hc & hs & [Hl _] & _);
    [by apply Forall_true|done|].
  split; [done|]. apply Hl.
Qed.

(** The tiered cache fails closed: without a call of [ClearLocal], a local
    tier that is blocked, or under a repair that began while it was, never
    becomes healthy again, whatever the other calls do. *)
Theorem blocked_fails_closed {V} sha256 Marshal Unmarshal c fuel r (calls : list (call_ (V:=V))) s1 s2 x x' :
  Z.of_nat (length calls) < 2 ^ 63 → Z.of_nat (length s1) + Z.of_nat (length s2) < 2 ^ 64 →
  Forall (λ y, y ≠ CallClearLocal) calls →
  run exec s1 (started sha256 Marshal Unmarshal c fuel r calls) = Some x → closed (local (shared x)) →
  run exec s2 x = Some x' → closed (local (shared x')).
Proof.
  intros Hlen Hs Hno H1 Hc H2.
  eapply (run_closed c (λ kind, kind = repairMandatory) (λ _ H, H) s2 (Z.of_nat (length s1))); [|lia|exact Hc|exact H2].
  apply (run_both sha256 Marshal Unmarshal c fuel (λ kind, kind = repairMandatory) r calls s1 x Hlen); [lia| |done].
  eapply Forall_impl; [exact Hno|]. intros y Hy kind Hk. destruct y; try done. by injection Hk.
Qed.

(** C5. Sets and deletes of a key of Redis are serialized: two goroutines that run
    [Set], [Delete] or [GetOrLoad] are never about to send a SET or a DEL of the
    same key at the same time, although the coordinators that serialize them come
    and go with the calls, and whatever other calls run.  [Clear] is not part of
    this: it unlinks the keys of a page without their coordinators. *)
Theorem redis_writes_serialized {V} sha256 Marshal Unmarshal c fuel r (calls : list (call_ (V:=V))) sched x i j p q pk :
  Z.of_nat (length calls) < 2 ^ 63 → Z.of_nat (length sched) < 2 ^ 64 →
  run exec sched (started sha256 Marshal Unmarshal c fuel r calls) = Some x →
  procs x !! i = Some p → procs x !! j = Some q → writesKey p = Some pk → writesKey q = Some pk → i = j.
Proof.
  intros Hlen Hs Hr Hp Hq Wp Wq.
  destruct (run_both sha256 Marshal Unmarshal c fuel (λ _, True) r calls sched x Hlen Hs) as (_ & hs & Hinv & Hk);
    [by apply Forall_true|done|].
  destruct (Forall2_lookup_r _ _ _ _ _ Hk Hp) as (h & Hh & Kh). destruct (Forall2_lookup_r _ _ _ _ _ Hk Hq) as (g & Hg & Kg).
  destruct (writes_owns c _ _ _ _ _ _ _ _ Hinv Hh Kh Wp) as (key & k & -> & Hit & Ho & [y Hy]).
  destruct (writes_owns c _ _ _ _ _ _ _ _ Hinv Hg Kg Wq) as (key' & k' & Heq & Hit' & Ho' & _).
  apply physical_inj in Heq as <-. assert (k' = k) as -> by congruence.
  destruct (decide (i = j)); [done|]. destruct Hinv as [_ Hco].
  pose proof (countb_two (owns k) hs.*2 i j h.2 g.2) as H2.
  destruct (ci_counts _ _ Hco k y Hy) as (_ & _ & H3).
  rewrite !list_lookup_fmap, Hh, Hg in H2. specialize (H2 eq_refl eq_refl n Ho Ho'). destruct (token y); cbn in H3; lia.
Qed.

(** ** Concrete runs *)

Module TieredExample.
Definition Marshal (v : Z) : result (list Z) := Ok [v].
Definition Unmarshal (b : list Z) : result Z := match b with [v] => Ok v | _ => Fail (Errorf "invalid" []) end.
Definition remote_ : ValueCache := match NewValueCache true true (lit "ns") None with Ok c => c | Fail _ => mkValueCache (mkBuilder [] [] []) [] DefaultValueConfig end.
Definition cache : TieredCache := mkTiered remote_ DefaultTieredConfig.
Definition begin (calls : list (call_ (V:=Z))) := started (λ t, t) Marshal Unmarshal cache 5 ∅ calls.

(** Nothing fails and nothing happens outside; the loader panics. *)
Definition calm : choice (V:=Z) := mkChoice None false 0 None ([], 0) [] [].
Definition goes (i n : nat) : list (nat * choice) := replicate n (i, calm).
Definition key : text := lit "k".

(** A page of a scan that holds the key. *)
Definition page : choice (V:=Z) := mkChoice None false 0 None ([physical cache key], 0) [] [].

(** [Clear] reads the generation; [ClearLocal] runs; [Set] runs; then [Clear]
    scans and unlinks the key, and finds a newer generation. *)
Definition overtaken : list (nat * choice) :=
  goes 0 3 ++ goes 1 5 ++ goes 2 22 ++ goes 0 1 ++ [(0%nat, page)] ++ goes 0 4.
Definition overtakenCalls : list (call_ (V:=Z)) := [CallClear; CallClearLocal; CallSet key 7 0].

(** A blocked local tier: a [Delete] whose local cleanup fails. *)
Definition failing : choice (V:=Z) := mkChoice (Some (Errorf "local cache is down" [])) false 0 None ([], 0) [] [].
Definition blocking : list (nat * choice) := goes 0 12 ++ [(0%nat, failing)] ++ goes 0 2.

Definition nextCmd (p : prog (resp (V:=Z)) (outcome (V:=Z))) : option (cmd Z) := match p with Act cm _ => Some cm | _ => None end.
End TieredExample.

Lemma healthy_local_current_witness :
  ∃ x, run exec TieredExample.overtaken (TieredExample.begin TieredExample.overtakenCalls) = Some x ∧
    phase (local (shared x)) = phaseHealthy ∧ generation (local (shared x)) = 1 ∧
    ∀ key v gen, cached (shared x) !! key = Some (v, gen) → gen = generation (local (shared x)).
Proof.
  assert (H : (λ x, (phase (local (shared x)), generation (local (shared x)))) <$>
    run exec TieredExample.overtaken (TieredExample.begin TieredExample.overtakenCalls) = Some (phaseHealthy, 1))
    by (vm_compute; reflexivity).
  destruct (run exec TieredExample.overtaken _) as [x|] eqn:Hx; [|discriminate H].
  cbn in H. injection H as Hp Hg. exists x. split; [reflexivity|]. split; [exact Hp|]. split; [exact Hg|].
  refine (proj2 (healthy_local_current _ _ _ _ _ _ TieredExample.overtakenCalls _ x _ _ Hx) Hp); reflexivity.
Defined.

Lemma blocked_fails_closed_witness :
  ∃ x x', run exec TieredExample.blocking (TieredExample.begin [CallDelete TieredExample.key; CallGet TieredExample.key]) = Some x ∧
    phase (local (shared x)) = phaseBlocked ∧ run exec (TieredExample.goes 1 3) x = Some x' ∧ closed (local (shared x')).
Proof.
  assert (H : (λ x, phase (local (shared x))) <$>
    run exec TieredExample.blocking (TieredExample.begin [CallDelete TieredExample.key; CallGet TieredExample.key]) = Some phaseBlocked)
    by (vm_compute; reflexivity).
  destruct (run exec TieredExample.blocking _) as [x|] eqn:Hx; [|discriminate H]. cbn [fmap option_fmap option_map] in H. injection H as Hp.
  assert (H2 : is_Some (x ← run exec TieredExample.blocking (TieredExample.begin [CallDelete TieredExample.key; CallGet TieredExample.key]);
    run exec (TieredExample.goes 1 3) x)) by (vm_compute; eexists; reflexivity).
  rewrite Hx in H2. cbn [mbind option_bind] in H2. destruct H2 as [x' Hx']. exists x, x'.
  split; [reflexivity|]. split; [exact Hp|]. split; [exact Hx'|].
  refine (blocked_fails_closed _ _ _ _ _ _ [CallDelete TieredExample.key; CallGet TieredExample.key] TieredExample.blocking
    (TieredExample.goes 1 3) x x' _ _ _ Hx _ Hx'); [reflexivity|reflexivity| |left; exact Hp].
  repeat constructor; discriminate.
Defined.

Lemma redis_writes_serialized_witness :
  ∃ x p, run exec (TieredExample.goes 0 9 ++ TieredExample.goes 1 3)
      (TieredExample.begin [CallDelete TieredExample.key; CallDelete TieredExample.key]) = Some x ∧
    procs x !! 0%nat = Some p ∧ writesKey p = Some (physical TieredExample.cache TieredExample.key) ∧
    ∀ j q, procs x !! j = Some q → writesKey q = Some (physical TieredExample.cache TieredExample.key) → 0%nat = j.
Proof.
  assert (H : (x ← run exec (TieredExample.goes 0 9 ++ TieredExample.goes 1 3)
      (TieredExample.begin [CallDelete TieredExample.key; CallDelete TieredExample.key]); p ← procs x !! 0%nat; writesKey p) =
    Some (physical TieredExample.cache TieredExample.key)) by (vm_compute; reflexivity).
  destruct (run exec _ _) as [x|] eqn:Hx; [|discriminate H]. cbn [mbind option_bind] in H.
  destruct (procs x !! 0%nat) as [p|] eqn:Hp; [|discriminate H]. cbn [mbind option_bind] in H.
  exists x, p. split; [reflexivity|]. split; [exact Hp|]. split; [exact H|]. intros j q Hq Hw.
  refine (redis_writes_serialized _ _ _ _ _ _ [CallDelete TieredExample.key; CallDelete TieredExample.key] _ x 0 j p q _ _ _ Hx Hp Hq H Hw);
    reflexivity.
Defined.

(** ** What the disciplines do not give *)

(** A [Clear] that succeeds can leave values in the local tier that it has
    removed from Redis.  It reads the generation before it scans; when another
    repair ends and a value is stored during the scan, it removes that value
    from Redis, finds a newer generation and does not clear the local tier. *)
Theorem clear_leaves_removed_value :
  ∃ sched x, run exec sched (TieredExample.begin TieredExample.overtakenCalls) = Some x ∧
    procs x = replicate 3 (Ret (ReturnsErr None)) ∧
    phase (local (shared x)) = phaseHealthy ∧
    cached (shared x) !! TieredExample.key = Some (7, 1) ∧
    redis (shared x) !! physical TieredExample.cache TieredExample.key = None.
Proof.
  exists TieredExample.overtaken.
  assert (H : (λ x, (procs x, phase (local (shared x)), cached (shared x) !! TieredExample.key,
      redis (shared x) !! physical TieredExample.cache TieredExample.key)) <$>
    run exec TieredExample.overtaken (TieredExample.begin TieredExample.overtakenCalls) =
    Some (replicate 3 (Ret (ReturnsErr None)), phaseHealthy, Some (7, 1), None)) by (vm_compute; reflexivity).
  destruct (run exec TieredExample.overtaken _) as [x|] eqn:Hx; [|discriminate H].
  cbn [fmap option_fmap option_map] in H. injection H as H1 H2 H3 H4. exists x.
  split; [reflexivity|]. split; [exact H1|]. split; [exact H2|]. split; [exact H3|exact H4].
Qed.

(** A loader that panics takes the token of its key with it: the panic unwinds
    [GetOrLoad], which publishes no result and releases no token, and from then
    on nothing moves: no later operation on the key gets past the token, until
    its own context ends. *)
Theorem loader_panic_blocks_key :
  ∃ sched x, run exec sched (TieredExample.begin [CallGetOrLoad TieredExample.key 0; CallSet TieredExample.key 7 0]) = Some x ∧
    procs x !! 0%nat = Some (Ret Panicked) ∧
    ∀ i ch, ch_err ch = None → step exec i ch x = None.
Proof.
  exists (TieredExample.goes 0 26 ++ TieredExample.goes 1 3).
  assert (H : (λ x, (TieredExample.nextCmd <$> procs x, procs x !! 0%nat, token <$> coords (shared x) !! 0%nat)) <$>
    run exec (TieredExample.goes 0 26 ++ TieredExample.goes 1 3)
      (TieredExample.begin [CallGetOrLoad TieredExample.key 0; CallSet TieredExample.key 7 0]) =
    Some ([None; Some (TokenReceive 0)], Some (Ret Panicked), Some false)) by (vm_compute; reflexivity).
  destruct (run exec _ _) as [x|] eqn:Hx; [|discriminate H]. cbn [fmap option_fmap option_map] in H. injection H as H1 H2 H3.
  exists x. split; [reflexivity|]. split; [exact H2|]. intros i ch Hch. unfold step.
  destruct (procs x !! i) as [p|] eqn:Hi; [|reflexivity].
  assert (Hn : (TieredExample.nextCmd <$> procs x) !! i = Some (TieredExample.nextCmd p)) by (rewrite list_lookup_fmap, Hi; reflexivity).
  rewrite H1 in Hn. destruct i as [|[|i]]; cbn in Hn; [injection Hn as Hn|injection Hn as Hn|discriminate].
  - by destruct p.
  - destruct p as [| |cm k]; try discriminate Hn. cbn in Hn. injection Hn as <-. unfold exec. cbn [execute]. unfold onCoord.
    destruct (coords (shared x) !! 0%nat) as [y|] eqn:Hy; [|discriminate H3]. cbn [settle setRedis setCached coords]. rewrite Hy.
    cbn in H3. injection H3 as H3. unfold waiting. by rewrite Hch, H3.
Qed.
