(* ===== verification/JwtKey.v ===== *)
(** * jwt: key chains and their stored form

    Models [src/jwt/algorithm.go], [errors.go], [keychain.go] and
    [redis_dto.go]: algorithms, key chains with their checks, and the record of
    a key chain in Redis or MongoDB.

    A [*KeyChain] is an [option KeyChain], for the code looks at nil key
    chains; times are nanoseconds since the zero time.  RSA keys
    ([crypto/rsa], [crypto/x509]) and the JSON of the record are interfaces,
    [CryptoRSA] and [KeyJSON], with the documented round trips as laws. *)

From S2P Require Import Prelude GoError GoText Core GoEncoding RedisKey Snowflake.

Local Open Scope Z_scope.

(** ** Errors *)

Definition ErrInvalidOptions : string := "jwt.ErrInvalidOptions".
Definition ErrInvalidToken : string := "jwt.ErrInvalidToken".
Definition ErrInvalidKey : string := "jwt.ErrInvalidKey".
Definition ErrKeyNotFound : string := "jwt.ErrKeyNotFound".
Definition ErrExpiredToken : string := "jwt.ErrExpiredToken".
Definition ErrNotYetValid : string := "jwt.ErrNotYetValid".

Definition errorsNew (t : string) : error := Errorf t [].

Definition OptionError (option_ : string) (err : error) : error :=
  Typed "jwt.OptionError" [FStr option_] [ErrInvalidOptions] (Some err).

Definition KeyError (kind : string) (kid : bytes) (err : error) : error :=
  Typed "jwt.KeyError" [fieldOf kid] [kind] (Some err).

Definition TokenError (kind : string) (err : option error) : error :=
  Typed "jwt.TokenError" []
    (kind :: (if String.eqb kind ErrExpiredToken || String.eqb kind ErrNotYetValid then [ErrInvalidToken] else [])) err.

(** ** Algorithms *)

Definition Algorithm : Type := bytes.

Definition HS256 : Algorithm := lit "HS256".
Definition HS384 : Algorithm := lit "HS384".
Definition HS512 : Algorithm := lit "HS512".
Definition RS256 : Algorithm := lit "RS256".
Definition RS384 : Algorithm := lit "RS384".
Definition RS512 : Algorithm := lit "RS512".
Definition PS256 : Algorithm := lit "PS256".
Definition PS384 : Algorithm := lit "PS384".
Definition PS512 : Algorithm := lit "PS512".

Definition hmacSecretLength (a : Algorithm) : option Z :=
  if bool_decide (a = HS256) then Some 32
  else if bool_decide (a = HS384) then Some 48
  else if bool_decide (a = HS512) then Some 64
  else None.

Definition isRSA (a : Algorithm) : bool := bool_decide (a ∈ [RS256; RS384; RS512; PS256; PS384; PS512]).

(** [signingMethod]: the method of the token library has the same name. *)
Definition signingMethod (a : Algorithm) : result Algorithm :=
  if bool_decide (is_Some (hmacSecretLength a)) || isRSA a then Ok a
  else Fail (OptionError "algorithm" (Errorf "unsupported algorithm %q" [])).

Definition validateHMACSecret (algorithm : Algorithm) (secret : bytes) : option error :=
  match hmacSecretLength algorithm with
  | None => Some (OptionError "algorithm" (Errorf "unsupported hmac algorithm %q" []))
  | Some minimum =>
      if Z.of_nat (length secret) <? minimum
      then Some (KeyError ErrInvalidKey [] (Errorf "hmac secret must be at least %d bytes" []))
      else None
  end.

(** ** Key identifiers *)

Definition defaultKeyTTL : Z := 365 * 24 * 3600 * 1000000000.
Definition defaultRepositorySize : Z := 10.
Definition minRepositorySize : Z := 2.
Definition maxRepositorySize : Z := 1000.
Definition defaultRSAKeyBits : Z := 2048.
Definition defaultKIDBytes : nat := 16.
Definition maxKIDBytes : Z := 128.

Definition validateKID (kid : bytes) : option error :=
  if bool_decide (kid = []) then Some (KeyError ErrInvalidKey [] (errorsNew "kid must not be empty"))
  else if maxKIDBytes <? Z.of_nat (length kid) then Some (KeyError ErrInvalidKey [] (errorsNew "kid is too long"))
  else if forallb (λ r, negb ((r <? 33) || (126 <? r))) (runesOf kid) then None
  else Some (KeyError ErrInvalidKey [] (errorsNew "kid must contain only printable ASCII without spaces")).

Definition validateLookupKID (kid : bytes) : option error :=
  if bool_decide (kid = []) then Some (KeyError ErrKeyNotFound [] (errorsNew "kid is required"))
  else match validateKID kid with
       | Some err => Some (KeyError ErrKeyNotFound [] err)
       | None => None
       end.

(** [generateKID] on what [io.ReadFull] gives for [defaultKIDBytes] bytes. *)
Definition generateKID (entropy : nat → result bytes) : result bytes :=
  match entropy defaultKIDBytes with
  | Fail err => Fail (KeyError ErrInvalidKey [] err)
  | Ok buf => Ok (EncodeToString buf)
  end.

Definition generateHMACSecret (algorithm : Algorithm) (entropy : nat → result bytes) : result bytes :=
  match hmacSecretLength algorithm with
  | None => Fail (OptionError "algorithm" (errorsNew "algorithm must be hmac"))
  | Some len =>
      match entropy (Z.to_nat len) with
      | Fail err => Fail (KeyError ErrInvalidKey [] err)
      | Ok secret => Ok secret
      end
  end.

(** ** Key chains *)

(** [crypto/rsa] and [crypto/x509]: the key, the bits of its modulus (none for
    a nil modulus), [Validate], and the PKCS #1 form. *)
Class CryptoRSA : Type := {
  PrivateKey : Type;
  N_BitLen : PrivateKey → option Z;
  rsa_Validate : PrivateKey → option error;
  MarshalPKCS1PrivateKey : PrivateKey → bytes;
  ParsePKCS1PrivateKey : bytes → result PrivateKey
}.

Class CryptoRSALaws {R : CryptoRSA} : Prop := {
  pkcs1_roundtrip k : rsa_Validate k = None → ParsePKCS1PrivateKey (MarshalPKCS1PrivateKey k) = Ok k;
  pkcs1_bytes k : Forall is_byte (MarshalPKCS1PrivateKey k)
}.

Section keychain.
Context {R : CryptoRSA}.

(** A value of [signingKey] or [verificationKey]. *)
Inductive material : Type :=
| Secret (secret : bytes)
| Private (key : PrivateKey)
| PublicOf (key : PrivateKey).

Record KeyChain : Type := mkKeyChain {
  kid : bytes;
  algorithm : Algorithm;
  createdAt : Z;
  expiresAt : Z;
  signingKey : material;
  verificationKey : material
}.

Definition KID (k : option KeyChain) : bytes := match k with None => [] | Some k => kid k end.
Definition KeyAlgorithm (k : option KeyChain) : Algorithm := match k with None => [] | Some k => algorithm k end.
Definition CreatedAt (k : option KeyChain) : Z := match k with None => 0 | Some k => createdAt k end.
Definition ExpiresAt (k : option KeyChain) : Z := match k with None => 0 | Some k => expiresAt k end.

Definition Expired (k : option KeyChain) (now : Z) : bool :=
  match k with
  | None => true
  | Some k => negb (expiresAt k =? 0) && negb (now <? expiresAt k)
  end.

Definition newHMACKeyChain (kid : bytes) (algorithm : Algorithm) (secret : bytes) (createdAt ttl : Z) : result KeyChain :=
  match validateHMACSecret algorithm secret with
  | Some err => Fail err
  | None =>
      match validateKID kid with
      | Some err => Fail err
      | None => Ok (mkKeyChain kid algorithm createdAt (createdAt + ttl) (Secret secret) (Secret secret))
      end
  end.

Definition cloneRSAPrivateKey (privateKey : PrivateKey) : result PrivateKey :=
  match ParsePKCS1PrivateKey (MarshalPKCS1PrivateKey privateKey) with
  | Fail err => Fail (KeyError ErrInvalidKey [] err)
  | Ok copied => Ok copied
  end.

Definition newRSAKeyChain (kid : bytes) (algorithm : Algorithm) (privateKey : option PrivateKey) (createdAt ttl : Z)
    : result KeyChain :=
  if negb (isRSA algorithm) then Fail (OptionError "algorithm" (errorsNew "algorithm must be rsa"))
  else match privateKey with
  | None => Fail (KeyError ErrInvalidKey [] (errorsNew "rsa private key must not be nil"))
  | Some privateKey =>
      if match N_BitLen privateKey with None => true | Some n => n <? defaultRSAKeyBits end
      then Fail (KeyError ErrInvalidKey [] (errorsNew "rsa private key must be at least 2048 bits"))
      else match rsa_Validate privateKey with
      | Some err => Fail (KeyError ErrInvalidKey [] err)
      | None =>
          match cloneRSAPrivateKey privateKey with
          | Fail err => Fail err
          | Ok copied =>
              match validateKID kid with
              | Some err => Fail err
              | None => Ok (mkKeyChain kid algorithm createdAt (createdAt + ttl) (Private copied) (PublicOf copied))
              end
          end
      end
  end.

(** ** The stored record *)

Definition redisKeyVersion : Z := 1.
Definition redisKeyFamilyHMAC : bytes := lit "hmac".
Definition redisKeyFamilyRSA : bytes := lit "rsa".
Definition defaultRedisMaxKeyBytes : Z := 32 * 1024.

Record keyChainDTO : Type := mkDTO {
  dto_Version : Z;
  dto_KID : bytes;
  dto_Algorithm : bytes;
  dto_Family : bytes;
  dto_CreatedAt : Z;
  dto_ExpiresAt : Z;
  dto_HMAC : bytes;
  dto_RSA : bytes
}.
End keychain.

(** [json.Marshal] and [json.Unmarshal] of the record.  A text outside ASCII
    need not come back as it was, and a time outside the years that RFC 3339
    can write is an error. *)
Class KeyJSON : Type := {
  json_Marshal : keyChainDTO → result bytes;
  json_Unmarshal : bytes → result keyChainDTO
}.

Definition ascii (s : bytes) : Prop := Forall (λ c, 0 ≤ c < 128) s.

Class KeyJSONLaws {J : KeyJSON} : Prop := {
  json_roundtrip d p :
    ascii (dto_KID d) → ascii (dto_Algorithm d) → ascii (dto_Family d) → ascii (dto_HMAC d) → ascii (dto_RSA d) →
    json_Marshal d = Ok p → json_Unmarshal p = Ok d
}.

Section codec.
Context {R : CryptoRSA} {J : KeyJSON}.

(** The family and the two fields of the key material. *)
Definition encodeMaterial (key : KeyChain) : result (bytes * bytes * bytes) :=
  if bool_decide (is_Some (hmacSecretLength (algorithm key))) then
    match signingKey key with
    | Secret secret => Ok (redisKeyFamilyHMAC, b64encode secret, [])
    | _ => Fail (KeyError ErrInvalidKey (kid key) (errorsNew "hmac key material has invalid type"))
    end
  else if isRSA (algorithm key) then
    match signingKey key with
    | Private k => Ok (redisKeyFamilyRSA, [], b64encode (MarshalPKCS1PrivateKey k))
    | _ => Fail (KeyError ErrInvalidKey (kid key) (errorsNew "rsa key material has invalid type"))
    end
  else Fail (OptionError "algorithm" (Errorf "unsupported algorithm %q" [])).

Definition encodeRedisKeyChain (key : option KeyChain) : result bytes :=
  match key with
  | None => Fail (KeyError ErrInvalidKey [] (errorsNew "key must not be nil"))
  | Some key =>
      match encodeMaterial key with
      | Fail err => Fail err
      | Ok (family, hmac, rsa) =>
          let dto := mkDTO redisKeyVersion (kid key) (algorithm key) family (createdAt key) (expiresAt key) hmac rsa in
          match json_Marshal dto with
          | Fail err => Fail (KeyError ErrInvalidKey (kid key) err)
          | Ok payload => Ok payload
          end
      end
  end.

Definition decodeHMAC (dto : keyChainDTO) (ttl : Z) : result KeyChain :=
  if bool_decide (hmacSecretLength (dto_Algorithm dto) = None)
  then Fail (KeyError ErrInvalidKey (dto_KID dto) (errorsNew "algorithm family mismatch"))
  else match b64decode (dto_HMAC dto) with
  | None => Fail (KeyError ErrInvalidKey (dto_KID dto) (errorsNew "hmac key material is not valid base64"))
  | Some secret => newHMACKeyChain (dto_KID dto) (dto_Algorithm dto) secret (dto_CreatedAt dto) ttl
  end.

Definition decodeRSA (dto : keyChainDTO) (ttl : Z) : result KeyChain :=
  if negb (isRSA (dto_Algorithm dto))
  then Fail (KeyError ErrInvalidKey (dto_KID dto) (errorsNew "algorithm family mismatch"))
  else match b64decode (dto_RSA dto) with
  | None => Fail (KeyError ErrInvalidKey (dto_KID dto) (errorsNew "rsa key material is not valid base64"))
  | Some der =>
      match ParsePKCS1PrivateKey der with
      | Fail _ => Fail (KeyError ErrInvalidKey (dto_KID dto) (errorsNew "rsa key material is not valid pkcs1"))
      | Ok privateKey => newRSAKeyChain (dto_KID dto) (dto_Algorithm dto) (Some privateKey) (dto_CreatedAt dto) ttl
      end
  end.

Definition decodeRedisKeyChain (payload : bytes) (maxKeyBytes : Z) : result KeyChain :=
  let maxKeyBytes := if maxKeyBytes <=? 0 then defaultRedisMaxKeyBytes else maxKeyBytes in
  if maxKeyBytes <? Z.of_nat (length payload)
  then Fail (KeyError ErrInvalidKey [] (errorsNew "redis key payload exceeds max key bytes"))
  else match json_Unmarshal payload with
  | Fail _ => Fail (KeyError ErrInvalidKey [] (errorsNew "redis key payload is not valid json"))
  | Ok dto =>
      if negb (dto_Version dto =? redisKeyVersion)
      then Fail (KeyError ErrInvalidKey (dto_KID dto) (errorsNew "unsupported redis key version"))
      else if bool_decide (dto_KID dto = [])
      then Fail (KeyError ErrInvalidKey [] (errorsNew "kid must not be empty"))
      else
        let ttl := timeSub (dto_ExpiresAt dto) (dto_CreatedAt dto) in
        if bool_decide (dto_Family dto = redisKeyFamilyHMAC) then decodeHMAC dto ttl
        else if bool_decide (dto_Family dto = redisKeyFamilyRSA) then decodeRSA dto ttl
        else Fail (KeyError ErrInvalidKey (dto_KID dto) (errorsNew "unsupported key family"))
  end.

(** The checks that a payload of a store goes through. *)
Definition usableKey (maxKeyBytes : Z) (payload kid : bytes) (now : Z) : result KeyChain :=
  match decodeRedisKeyChain payload maxKeyBytes with
  | Fail err => Fail err
  | Ok key =>
      if Expired (Some key) now then Fail (KeyError ErrInvalidKey kid (errorsNew "key expired")) else Ok key
  end.
End codec.

(** ** Laws *)

Lemma hmac_not_rsa a : is_Some (hmacSecretLength a) → isRSA a = false.
Proof. unfold hmacSecretLength. repeat case_bool_decide; subst; intros [? Hlen]; simplify_eq; reflexivity. Qed.

Lemma hmac_ascii a : is_Some (hmacSecretLength a) → ascii a.
Proof.
  unfold hmacSecretLength, ascii. repeat case_bool_decide; subst; intros [? Hlen]; simplify_eq; vm_compute; repeat constructor; discriminate.
Qed.

Lemma rsa_ascii a : isRSA a = true → ascii a.
Proof.
  unfold isRSA, ascii. intros H%bool_decide_eq_true. set_unfold in H.
  destruct H as [->|[->|[->|[->|[->|[->|[]]]]]]]; vm_compute; repeat constructor; discriminate.
Qed.

(** A rune of several bytes is outside ASCII. *)
Lemma runeValue_ascii b s n : runeLength (b :: s) = Some n → runeValue (take n (b :: s)) ≤ 126 → n = 1%nat.
Proof.
  cbn [runeLength]. destruct (firstByte b) as [[[m lo] hi]|] eqn:E; [|done].
  assert (Hm : m = 1%nat ∨ (m = 2%nat ∧ 194 ≤ b ∧ 128 ≤ lo) ∨ (m = 3%nat ∧ (224 < b ∨ b = 224 ∧ 160 ≤ lo) ∧ 128 ≤ lo) ∨
               (m = 4%nat ∧ (240 < b ∨ b = 240 ∧ 144 ≤ lo) ∧ 128 ≤ lo)).
  { unfold firstByte in E. repeat match type of E with (if ?t then _ else _) = _ => destruct t eqn:? end; simplify_eq;
      rewrite ?orb_true_iff, ?andb_true_iff, ?Z.leb_le, ?Z.eqb_eq in *; lia. }
  destruct Hm as [->|[(-> & Hb & Hlo)|[(-> & Hb & Hlo)|(-> & Hb & Hlo)]]]; [by intros [= <-]|..].
  all: destruct (_ <? _)%nat eqn:El; [done|]; apply Nat.ltb_ge in El; destruct s as [|b1 s]; [done|].
  all: destruct (_ && _) eqn:E2; [|done]; intros [= <-]; rewrite !andb_true_iff, !Z.leb_le, forallb_forall in E2; destruct E2 as [[H1 _] H3].
  - cbn [take runeValue]. rewrite ?take_0. intros. lia.
  - destruct s as [|b2 s]; [cbn in El; lia|]. cbn [Nat.sub take] in *. pose proof (H3 b2 (or_introl eq_refl)) as H4.
    unfold continuation in H4. rewrite andb_true_iff, !Z.leb_le in H4. cbn [take runeValue]. rewrite ?take_0. intros. lia.
  - destruct s as [|b2 [|b3 s]]; [cbn in El; lia..|]. cbn [Nat.sub take] in *. pose proof (H3 b2 (or_introl eq_refl)) as H4.
    pose proof (H3 b3 (or_intror (or_introl eq_refl))) as H5. unfold continuation in H4, H5.
    rewrite andb_true_iff, !Z.leb_le in H4, H5. cbn [take runeValue]. rewrite ?take_0. intros. lia.
Qed.

(** A text whose runes are all printable ASCII has one byte per rune. *)
Lemma runesLoop_printable fuel s :
  (length s ≤ fuel)%nat → Forall (λ r, 33 ≤ r ≤ 126) (runesLoop fuel s) → Forall (λ c, 33 ≤ c ≤ 126) s.
Proof.
  revert s. induction fuel as [|fuel IH]; intros [|b s] Hl; try done; [cbn in Hl; lia|]. cbn [runesLoop].
  destruct (runeLength (b :: s)) as [n|] eqn:Hn; intros [H1 H2]%Forall_cons; [|lia].
  assert (n = 1%nat) as -> by (apply (runeValue_ascii _ _ _ Hn); lia).
  apply Forall_cons. split; [exact H1|]. apply IH; [cbn in Hl; lia|exact H2].
Qed.

Lemma validateKID_ascii k : validateKID k = None → ascii k.
Proof.
  unfold validateKID. case_bool_decide; [done|]. destruct (_ <? _); [done|]. destruct (forallb _ _) eqn:Hf; [|done]. intros _.
  eapply Forall_impl; [apply (runesLoop_printable (length k)); [lia|]|intros c ?; cbn in *; lia].
  rewrite forallb_forall in Hf. apply Forall_forall. intros r Hr. apply list_elem_of_In, Hf in Hr.
  rewrite negb_true_iff, orb_false_iff, !Z.ltb_ge in Hr. lia.
Qed.

Section laws.
Context {R : CryptoRSA} {J : KeyJSON}.

(** What the two constructors make. *)
Record wellFormed (k : KeyChain) : Prop := mkWellFormed {
  wf_kid : validateKID (kid k) = None;
  wf_ttl : in_i64 (expiresAt k - createdAt k);
  wf_material :
    (∃ secret, validateHMACSecret (algorithm k) secret = None ∧ Forall is_byte secret ∧
               signingKey k = Secret secret ∧ verificationKey k = Secret secret) ∨
    (∃ key bits, isRSA (algorithm k) = true ∧ N_BitLen key = Some bits ∧ defaultRSAKeyBits ≤ bits ∧ rsa_Validate key = None ∧
                 signingKey k = Private key ∧ verificationKey k = PublicOf key)
}.

Lemma newHMACKeyChain_wf kid a secret createdAt ttl k :
  Forall is_byte secret → in_i64 ttl → newHMACKeyChain kid a secret createdAt ttl = Ok k → wellFormed k.
Proof.
  intros Hb Ht. unfold newHMACKeyChain. destruct (validateHMACSecret a secret) eqn:Hs; [done|].
  destruct (validateKID kid) eqn:Hk; [done|]. intros [= <-]. split; cbn; [done| |].
  - by replace (createdAt + ttl - createdAt) with ttl by lia.
  - left. by exists secret.
Qed.

Context {RL : CryptoRSALaws}.

Lemma newRSAKeyChain_wf kid a key createdAt ttl k :
  in_i64 ttl → newRSAKeyChain kid a key createdAt ttl = Ok k → wellFormed k.
Proof.
  intros Ht. unfold newRSAKeyChain. destruct (isRSA a) eqn:Ha; [|done]. destruct key as [key|]; [|done]. cbn [negb].
  destruct (N_BitLen key) as [bits|] eqn:Hn; [|done]. destruct (bits <? defaultRSAKeyBits) eqn:Hlt; [done|].
  destruct (rsa_Validate key) eqn:Hv; [done|]. unfold cloneRSAPrivateKey. rewrite pkcs1_roundtrip by done.
  destruct (validateKID kid) eqn:Hk; [done|]. intros [= <-]. split; cbn; [done| |].
  - by replace (createdAt + ttl - createdAt) with ttl by lia.
  - right. exists key, bits. apply Z.ltb_ge in Hlt. done.
Qed.

Context {JL : KeyJSONLaws}.

Lemma b64_ascii l : Forall is_byte l → ascii (b64encode l).
Proof. intros H%b64encode_text. eapply Forall_impl; [exact H|]. intros c [? ?]. cbn in *. lia. Qed.

Lemma timeSub_small a b : in_i64 (a - b) → timeSub a b = a - b.
Proof. unfold in_i64, timeSub, maxInt64. lia. Qed.

Lemma stored_limit m n : n ≤ (if m <=? 0 then defaultRedisMaxKeyBytes else m) → ((if m <=? 0 then defaultRedisMaxKeyBytes else m) <? n) = false.
Proof. apply Z.ltb_ge. Qed.

(** A key chain that a constructor has made comes back from its stored record,
    when the record is not over the limit of the reader. *)
Lemma keychain_codec k payload maxKeyBytes :
  wellFormed k → encodeRedisKeyChain (Some k) = Ok payload →
  Z.of_nat (length payload) ≤ (if maxKeyBytes <=? 0 then defaultRedisMaxKeyBytes else maxKeyBytes) →
  decodeRedisKeyChain payload maxKeyBytes = Ok k.
Proof.
  destruct k as [kd a c e sk vk]. intros [Hk Ht Hm] He Hl. pose proof (validateKID_ascii _ Hk) as Hka. cbn in Hk, Ht, Hm, Hka.
  assert (Hne : kd ≠ []) by (intros ->; discriminate). unfold decodeRedisKeyChain. rewrite (stored_limit _ _ Hl).
  unfold encodeRedisKeyChain, encodeMaterial in He. cbn [algorithm signingKey kid createdAt expiresAt] in He.
  destruct Hm as [(secret & Hs & Hb & -> & ->)|(key & bits & Ha & Hbits & Hmin & Hv & -> & ->)].
  - pose proof Hs as Hs'. unfold validateHMACSecret in Hs'. destruct (hmacSecretLength a) as [len|] eqn:Hlen; [|done].
    rewrite bool_decide_true in He by eauto. destruct (json_Marshal _) as [p|] eqn:Hj; [|done]. injection He as ->.
    assert (Haa : ascii a) by (apply hmac_ascii; eauto).
    apply json_roundtrip in Hj; cbn; [|done|done|vm_compute; repeat constructor; discriminate|by apply b64_ascii|by constructor].
    rewrite Hj. cbn [dto_Version dto_KID dto_Family dto_Algorithm dto_HMAC dto_RSA dto_CreatedAt dto_ExpiresAt negb]. rewrite Z.eqb_refl, (bool_decide_false (kd = [])), bool_decide_true by done. unfold decodeHMAC.
    cbn [dto_Version dto_KID dto_Family dto_Algorithm dto_HMAC dto_RSA dto_CreatedAt dto_ExpiresAt negb]. rewrite Hlen, bool_decide_false, b64_roundtrip by done. unfold newHMACKeyChain. rewrite Hs, Hk, timeSub_small by done. do 2 f_equal. lia.
  - destruct (hmacSecretLength a) as [len|] eqn:Hlen; [by rewrite hmac_not_rsa in Ha by (rewrite Hlen; eauto)|].
    rewrite bool_decide_false, Ha in He by (by intros [? ?]). destruct (json_Marshal _) as [p|] eqn:Hj; [|done]. injection He as ->.
    apply json_roundtrip in Hj; cbn; [|done|by apply rsa_ascii|vm_compute; repeat constructor; discriminate|by constructor|by apply b64_ascii, pkcs1_bytes].
    rewrite Hj. cbn [dto_Version dto_KID dto_Family dto_Algorithm dto_HMAC dto_RSA dto_CreatedAt dto_ExpiresAt negb]. rewrite Z.eqb_refl, (bool_decide_false (kd = [])), bool_decide_false, bool_decide_true by done.
    unfold decodeRSA. cbn [dto_Version dto_KID dto_Family dto_Algorithm dto_HMAC dto_RSA dto_CreatedAt dto_ExpiresAt negb]. rewrite Ha, b64_roundtrip by apply pkcs1_bytes. cbn [negb]. rewrite pkcs1_roundtrip by done.
    unfold newRSAKeyChain. rewrite Ha, Hbits. cbn [negb]. rewrite (proj2 (Z.ltb_ge _ _) Hmin), Hv. unfold cloneRSAPrivateKey.
    rewrite pkcs1_roundtrip by done. rewrite Hk, timeSub_small by done. do 2 f_equal. lia.
Qed.
End laws.
