(* ===== verification/JwtRotation.v ===== *)
(** * jwt: what rotations of a shared key store agree on

    The key repositories of [src/jwt] keep a pointer to the current key and the
    stored keys.  This file has the argument that [JwtRedis] and [JwtMongo]
    share: a store is seen through a [view] (the current identifier, and the
    usable key behind each identifier), and a goroutine that rotates [hold]s
    what it has seen and made.  [rotInv] ties the two together, and a store
    keeps it as long as it changes in the ways of [moves].

    A key is settled when the pointer leads to it; [rotInv] makes a settled key
    stay, so all calls that find one find the same. *)

From S2P Require Import Prelude GoError GoText Core GoEncoding JwtKey.

Local Open Scope Z_scope.

Section rotation.
Context {R : CryptoRSA}.

Notation id := bytes.

(** The current identifier, and the usable key of an identifier. *)
Record view : Type := mkView { cur : option id; pay : id → option KeyChain }.

Definition settled (v : view) (k : KeyChain) : Prop := ∃ o, cur v = Some o ∧ pay v o = Some k.

Lemma settled_functional v k k' : settled v k → settled v k' → k = k'.
Proof. intros (o & H1 & H2) (o' & H3 & H4). congruence. Qed.

(** What a goroutine has: the pointer it has read, an identifier it has found
    to have no usable key, the identifier of a key that it has made and that
    is not current, the key it has found settled, the identifiers that it is
    about to delete, and the key that it has stored under its own
    identifier. *)
Record hold : Type := mkHold {
  saw : option id;
  dead : option id;
  mine : option id;
  sure : option KeyChain;
  cut : list id;
  stored : option KeyChain
}.

Definition idle : hold := mkHold None None None None [] None.

Record holdOk (v : view) (pub : id → Prop) (h : hold) : Prop := mkHoldOk {
  ok_saw o : saw h = Some o → pub o ∧ (cur v = Some o ∨ pay v o = None);
  ok_dead o : dead h = Some o → pub o ∧ pay v o = None;
  ok_sure k : sure h = Some k → settled v k;
  ok_cut o : o ∈ cut h → is_Some (sure h) ∧ cur v ≠ Some o;
  ok_stored o k : stored h = Some k → mine h = Some o → pay v o = Some k ∨ ∃ k', settled v k';
  ok_won o : saw h = Some o → is_Some (sure h) → cur v = Some o
}.

Lemma idle_ok v pub : holdOk v pub idle.
Proof. split; cbn; intros; try done. by apply elem_of_nil in H. Qed.

(** An identifier that was given out, and that no goroutine has for itself. *)
Definition public (issued : gset id) (hs : list hold) (o : id) : Prop :=
  o ∈ issued ∧ ∀ i h, hs !! i = Some h → mine h ≠ Some o.

Record rotInv (v : view) (issued : gset id) (hs : list hold) : Prop := mkRotInv {
  ri_cur o : cur v = Some o → public issued hs o;
  ri_mine i h o : hs !! i = Some h → mine h = Some o → o ∈ issued;
  ri_distinct i j h g o : hs !! i = Some h → hs !! j = Some g → mine h = Some o → mine g = Some o → i = j;
  ri_hold i h : hs !! i = Some h → holdOk v (public issued hs) h
}.

(** How the view may change when a goroutine that holds [h] comes to hold
    [h']. *)
Inductive moves (v v' : view) (h h' : hold) : Prop :=
| Quiet :
    cur v' = cur v → mine h' = mine h ∨ mine h' = None →
    (∀ o, pay v' o = pay v o ∨ (pay v' o = None ∧ cur v ≠ Some o ∧ ∃ k, settled v k) ∨ mine h = Some o) → moves v v' h h'
| Takes m :
    mine h = Some m → mine h' = None → (∀ k, ¬ settled v k) → cur v' = Some m → is_Some (pay v' m) →
    (∀ o, pay v' o = pay v o ∨ pay v' o = None ∨ o = m) → moves v v' h h'.

Lemma moves_settled v v' h h' issued hs i k :
  rotInv v issued hs → hs !! i = Some h → moves v v' h h' → settled v k → settled v' k.
Proof.
  intros Hi Hh [Hc _ Hp|m _ _ Hn _ _ _] Hs; [|by destruct (Hn k)].
  destruct Hs as (o & H1 & H2). exists o. split; [congruence|]. destruct (Hp o) as [Ho|[(_ & Ho & _)|Ho]]; [congruence|done|].
  by destruct (ri_cur _ _ _ Hi o H1) as [_ Hx]; destruct (Hx i h).
Qed.

Lemma unsettled_pay v o : (∀ k, ¬ settled v k) → cur v = Some o → pay v o = None.
Proof. intros Hn Hc. destruct (pay v o) as [k|] eqn:Hp; [|done]. destruct (Hn k). by exists o. Qed.

(** What the other goroutines hold stays true. *)
Lemma moves_other v v' h h' g (pub pub' : id → Prop) :
  holdOk v pub g → moves v v' h h' → (∀ o, pub o → pub' o) → (∀ o, pub o → mine h ≠ Some o) →
  (∀ o, mine g = Some o → mine h ≠ Some o) → (∀ k, settled v k → settled v' k) → holdOk v' pub' g.
Proof.
  intros [Ha Hd Hs Hc Hg Hw] Hm Hpub Hpr Hgh Hst. split.
  - intros o Ho. destruct (Ha o Ho) as [Hq Ho']. split; [auto|]. pose proof (Hpr o Hq) as Hmo.
    destruct Hm as [Hcur _ Hp|m Hm _ Hn _ _ Hp]; [|right].
    + destruct Ho' as [Ho'|Ho']; [left; congruence|right]. destruct (Hp o) as [Hpo|[(? & _)|?]]; congruence.
    + assert (pay v o = None) by (destruct Ho' as [?|?]; [by apply unsettled_pay|done]).
      destruct (Hp o) as [Hpo|[?|Hpo]]; congruence.
  - intros o Ho. destruct (Hd o Ho) as [Hq Ho']. split; [auto|]. pose proof (Hpr o Hq) as Hmo.
    destruct Hm as [Hcur _ Hp|m Hm _ Hn _ _ Hp].
    + destruct (Hp o) as [Hpo|[(? & _)|?]]; congruence.
    + destruct (Hp o) as [Hpo|[?|Hpo]]; congruence.
  - auto.
  - intros o Ho. destruct (Hc o Ho) as [[k Hk] Hcu]. split; [eauto|].
    destruct Hm as [Hcur _ Hp|m Hm _ Hn _ _ Hp]; [congruence|]. by destruct (Hn k); auto.
  - intros o k Hk Ho. destruct (Hg o k Hk Ho) as [Hp|[k' Hk']]; [|right; eauto].
    destruct Hm as [Hcur _ Hq|m Hm _ Hn Hcu [k' Hk'] Hq]; [|right; exists k'; by exists m].
    destruct (Hq o) as [Hpo|[(_ & _ & k' & Hk')|Ho']]; [left; congruence|right; eauto|by destruct (Hgh o Ho)].
  - intros o Ho [k Hk]. pose proof (Hw o Ho ltac:(eauto)) as Hcu.
    destruct Hm as [Hcur _ _|m _ _ Hn _ _ _]; [congruence|]. by destruct (Hn k); auto.
Qed.

Lemma public_insert issued hs i h h' o :
  hs !! i = Some h → mine h' = mine h ∨ mine h' = None → public issued hs o → public issued (<[i := h']> hs) o.
Proof.
  intros Hi Hm [H1 H2]. split; [done|]. intros j g Hj. changed; [|eauto]. destruct Hm as [Hm|Hm]; rewrite Hm; [eauto|done].
Qed.

(** A step of the store. *)
Lemma rotInv_step v v' issued hs i h h' :
  rotInv v issued hs → hs !! i = Some h → moves v v' h h' → holdOk v' (public issued (<[i := h']> hs)) h' →
  rotInv v' issued (<[i := h']> hs).
Proof.
  intros Hi Hh Hm Hok.
  assert (Hmine : mine h' = mine h ∨ mine h' = None) by (destruct Hm; auto).
  assert (Hsub : ∀ o, mine h' = Some o → mine h = Some o) by (intros o Ho; destruct Hmine; congruence).
  pose proof (λ o, public_insert issued hs i h h' o Hh Hmine) as Hpub.
  split.
  - intros o Ho. destruct Hm as [Hcur _ _|m Hm Hm' _ Hcur _ _]; [apply Hpub, (ri_cur _ _ _ Hi); congruence|].
    assert (o = m) as -> by congruence. split; [by eapply (ri_mine _ _ _ Hi)|]. intros j g Hj. changed; [congruence|].
    intros Hg. by destruct (ri_distinct _ _ _ Hi i j h g m).
  - intros j g o Hj Hg. changed; [eapply (ri_mine _ _ _ Hi); eauto|by eapply (ri_mine _ _ _ Hi)].
  - intros j l g f o Hj Hl Hg Hf. changed; [done|..].
    + by eapply (ri_distinct _ _ _ Hi); eauto.
    + by eapply (ri_distinct _ _ _ Hi); eauto.
    + by eapply (ri_distinct _ _ _ Hi j l).
  - intros j g Hj. changed; [done|]. eapply moves_other; [by apply (ri_hold _ _ _ Hi j)|done|done| | |].
    + intros o [_ Ho]. eauto.
    + intros o Ho1 Ho2. by destruct (ri_distinct _ _ _ Hi i j h g o).
    + intros k. exact (moves_settled v v' h h' issued hs i k Hi Hh Hm).
Qed.

(** A goroutine makes a key with a new identifier. *)
Lemma rotInv_create v issued hs i h m :
  rotInv v issued hs → hs !! i = Some h → m ∉ issued →
  rotInv v ({[m]} ∪ issued) (<[i := mkHold (saw h) (dead h) (Some m) (sure h) (cut h) None]> hs).
Proof.
  intros Hi Hh Hm.
  assert (Hpub : ∀ o, public issued hs o →
            public ({[m]} ∪ issued) (<[i := mkHold (saw h) (dead h) (Some m) (sure h) (cut h) None]> hs) o).
  { intros o [H1 H2]. split; [set_solver|]. intros j g Hj. changed; [|eauto]. cbn. intros [= ->]. done. }
  assert (Hkeep : ∀ g, holdOk v (public issued hs) g →
            holdOk v (public ({[m]} ∪ issued) (<[i := mkHold (saw h) (dead h) (Some m) (sure h) (cut h) None]> hs)) g).
  { intros g [Ha Hd Hs Hc Hk Hw]. split; [|..|done|done|done|done]; intros o Ho; [destruct (Ha o Ho)|destruct (Hd o Ho)]; auto. }
  split.
  - intros o Ho. by apply Hpub, (ri_cur _ _ _ Hi).
  - intros j g o Hj Ho. changed; [cbn in Ho; set_solver|]. pose proof (ri_mine _ _ _ Hi j g o). set_solver.
  - intros j l g f o Hj Hl Hg Hf. changed; [done|..].
    + cbn in Hf. injection Hf as ->. by destruct Hm; eapply (ri_mine _ _ _ Hi j).
    + cbn in Hg. injection Hg as ->. by destruct Hm; eapply (ri_mine _ _ _ Hi l).
    + by eapply (ri_distinct _ _ _ Hi j l).
  - intros j g Hj. changed; [|apply Hkeep; by eapply (ri_hold _ _ _ Hi)].
    destruct (Hkeep h (ri_hold _ _ _ Hi _ h Hh)) as [Ha Hd Hs Hc Hk Hw]. by split.
Qed.

(** The identifiers are as they were when nothing is done. *)
Lemma moves_refl v h h' : mine h' = mine h ∨ mine h' = None → moves v v h h'.
Proof. intros H. apply Quiet; auto. Qed.

(** Everything is gone, when no key was settled and nothing was stored. *)
Lemma rotInv_vanish v v' issued hs :
  rotInv v issued hs → (∀ k, ¬ settled v k) → (∀ i h, hs !! i = Some h → stored h = None) →
  cur v' = None → (∀ o, pay v' o = None) → rotInv v' issued hs.
Proof.
  intros [H1 H2 H3 H4] Hn Hs Hc Hp. split; [intros o Ho; congruence|done|done|]. intros i h Hh. specialize (Hs i h Hh).
  destruct (H4 i h Hh) as [Ha Hd Hsu Hcu _ _]. split.
  - intros o Ho. destruct (Ha o Ho). auto.
  - intros o Ho. destruct (Hd o Ho). auto.
  - intros k Hk. by destruct (Hn k); auto.
  - intros o Ho. destruct (Hcu o Ho) as [[k Hk] _]. by destruct (Hn k); auto.
  - intros o k Hk. congruence.
  - intros o _ [k Hk]. by destruct (Hn k); auto.
Qed.

(** A goroutine forgets. *)
Lemma rotInv_idle v issued hs i h : rotInv v issued hs → hs !! i = Some h → rotInv v issued (<[i := idle]> hs).
Proof. intros Hi Hh. eapply rotInv_step; [done|done|apply moves_refl; auto|apply idle_ok]. Qed.

(** No goroutine has done anything. *)
Lemma rotInv_start v issued n : (∀ o, cur v = Some o → o ∈ issued) → rotInv v issued (replicate n idle).
Proof.
  intros Hc. split.
  - intros o Ho. split; [by apply Hc|]. intros i h [-> _]%lookup_replicate_1. done.
  - by intros i h o [-> _]%lookup_replicate_1.
  - by intros i j h g o [-> _]%lookup_replicate_1.
  - intros i h [-> _]%lookup_replicate_1. apply idle_ok.
Qed.
End rotation.

(** ** Payloads

    The callers' clocks are between [t0] and [t1]; a key is steady when it does
    not expire in between.  [limit] is the limit of the reader. *)

Section payloads.
Context {R : CryptoRSA} {J : KeyJSON} (limit t0 t1 : Z).

(** The key of a payload, when it is usable: [None] for one that expires
    between the clocks. *)
Definition judge (payload : bytes) : option (option KeyChain) :=
  match decodeRedisKeyChain payload limit with
  | Fail _ => Some None
  | Ok k => if bool_decide (Expired (Some k) t0 = Expired (Some k) t1)
            then Some (if Expired (Some k) t0 then None else Some k) else None
  end.

Lemma Expired_between k now : Expired (Some k) t0 = Expired (Some k) t1 → t0 ≤ now ≤ t1 → Expired (Some k) now = Expired (Some k) t0.
Proof. cbn. destruct (expiresAt k =? 0); [done|]. cbn. destruct (Z.ltb_spec t0 (expiresAt k)), (Z.ltb_spec t1 (expiresAt k)), (Z.ltb_spec now (expiresAt k)); done || lia. Qed.

Lemma usableKey_judge payload kid now j :
  t0 ≤ now ≤ t1 → judge payload = Some j →
  match usableKey limit payload kid now with Ok k => j = Some k | Fail _ => j = None end.
Proof.
  intros Hn. unfold judge, usableKey. destruct (decodeRedisKeyChain payload limit) as [k|e]; [|by intros [= <-]].
  case_bool_decide as He; [|done]. intros Hj. apply (inj Some) in Hj as <-. rewrite (Expired_between k now He Hn). by destruct (Expired (Some k) t0).
Qed.

(** What a goroutine holds after the payload of a current key. *)
Definition learn (payload : bytes) (otherwise : hold) : option hold :=
  match judge payload with
  | None => None
  | Some None => Some otherwise
  | Some (Some k) => Some (mkHold None None None (Some k) [] None)
  end.

(** The answer of a call that rotates or reads the current key is the key that
    the goroutine has found settled. *)
Definition keyFinal (h : option hold) (x : result KeyChain) : Prop :=
  match h, x with
  | Some h, Ok k => sure h = Some k
  | _, _ => True
  end.

Lemma learn_final p nothing kid now :
  t0 ≤ now ≤ t1 → keyFinal (learn p nothing) (usableKey limit p kid now).
Proof.
  intros Hn. unfold learn. destruct (judge p) as [j|] eqn:Hj; [|done]. pose proof (usableKey_judge p kid now j Hn Hj) as Hu.
  by destruct (usableKey limit p kid now); subst.
Qed.

Lemma learn_cases p nothing kid now :
  t0 ≤ now ≤ t1 →
  learn p nothing = None ∨ (∃ k, usableKey limit p kid now = Ok k ∧ keyFinal (learn p nothing) (Ok k)) ∨
  (∃ e, usableKey limit p kid now = Fail e ∧ learn p nothing = Some nothing).
Proof.
  intros Hn. unfold learn. destruct (judge p) as [j|] eqn:Hj; [|by left]. right.
  pose proof (usableKey_judge p kid now j Hn Hj) as Hu. destruct (usableKey limit p kid now) as [k|e]; subst; [left; by exists k|right; by exists e].
Qed.

(** A key that can be read back from its payload. *)
Definition goodKey (k : KeyChain) : bool :=
  bool_decide (kid k ≠ []) &&
  match encodeRedisKeyChain (Some k) with
  | Ok p => match judge p with Some (Some _) => true | _ => false end
  | Fail _ => true
  end.

(** The keys that the constructors make are good, when they last. *)
Lemma goodKey_wf {RL : CryptoRSALaws} {JL : KeyJSONLaws} k :
  wellFormed k → t0 ≤ t1 → Expired (Some k) t1 = false →
  (∀ p, encodeRedisKeyChain (Some k) = Ok p → Z.of_nat (length p) ≤ (if limit <=? 0 then defaultRedisMaxKeyBytes else limit)) →
  goodKey k = true.
Proof.
  intros Hk Ht He Hl. unfold goodKey. apply andb_true_iff. split.
  - apply bool_decide_eq_true. intros E. pose proof (wf_kid k Hk) as Hv. by rewrite E in Hv.
  - destruct (encodeRedisKeyChain (Some k)) as [p|e] eqn:Hp; [|done]. unfold judge.
    rewrite (keychain_codec k p limit Hk Hp (Hl p eq_refl)).
    assert (E0 : Expired (Some k) t0 = false).
    { revert He. cbn. destruct (expiresAt k =? 0); [done|]. destruct (Z.ltb_spec t1 (expiresAt k)), (Z.ltb_spec t0 (expiresAt k)); done || lia. }
    by rewrite E0, He.
Qed.

Lemma judge_decode p k : judge p = Some (Some k) → decodeRedisKeyChain p limit = Ok k.
Proof. unfold judge. destruct (decodeRedisKeyChain p limit); [|done]. by repeat case_match; intros; simplify_eq. Qed.

Lemma steady_judge p :
  (∀ k, decodeRedisKeyChain p limit = Ok k → Expired (Some k) t0 = Expired (Some k) t1) → judge p ≠ None.
Proof. intros H. unfold judge. destruct (decodeRedisKeyChain p limit) as [k|]; [|done]. by rewrite bool_decide_true by auto. Qed.

(** A key as the constructors make it, which lasts until [t1] and is not too
    large for the readers. *)
Definition fairKey (k : KeyChain) : Prop :=
  wellFormed k ∧ Expired (Some k) t1 = false ∧
  ∀ p, encodeRedisKeyChain (Some k) = Ok p → Z.of_nat (length p) ≤ (if limit <=? 0 then defaultRedisMaxKeyBytes else limit).

Lemma fairKey_good {RL : CryptoRSALaws} {JL : KeyJSONLaws} k : t0 ≤ t1 → fairKey k → goodKey k = true.
Proof. intros Ht (H1 & H2 & H3). by apply goodKey_wf. Qed.
End payloads.

(** ** jwt: sample interfaces

    Concrete RSA and JSON interfaces and keys, at which the theorems on the key
    repositories are evaluated. *)

(** A key type with one key, and a record format that writes the lengths of
    the texts before the texts. *)
#[local] Instance sampleRSA : CryptoRSA := {|
  PrivateKey := unit;
  N_BitLen _ := Some 2048;
  rsa_Validate _ := None;
  MarshalPKCS1PrivateKey _ := [48];
  ParsePKCS1PrivateKey _ := Ok tt
|}.

#[local] Instance sampleRSALaws : CryptoRSALaws.
Proof. split; [by intros []|]. intros k. repeat constructor; discriminate. Qed.

Definition len (l : bytes) : Z := Z.of_nat (length l).

Definition writeRecord (d : keyChainDTO) : bytes :=
  [dto_Version d; dto_CreatedAt d; dto_ExpiresAt d; len (dto_KID d); len (dto_Algorithm d); len (dto_Family d); len (dto_HMAC d)] ++
  dto_KID d ++ dto_Algorithm d ++ dto_Family d ++ dto_HMAC d ++ dto_RSA d.

Definition readRecord (p : bytes) : result keyChainDTO :=
  match p with
  | v :: c :: e :: n1 :: n2 :: n3 :: n4 :: rest =>
      let r2 := drop (Z.to_nat n1) rest in
      let r3 := drop (Z.to_nat n2) r2 in
      let r4 := drop (Z.to_nat n3) r3 in
      Ok (mkDTO v (take (Z.to_nat n1) rest) (take (Z.to_nat n2) r2) (take (Z.to_nat n3) r3) c e
                (take (Z.to_nat n4) r4) (drop (Z.to_nat n4) r4))
  | _ => Fail (errorsNew "short record")
  end.

#[local] Instance sampleJSON : KeyJSON := {| json_Marshal d := Ok (writeRecord d); json_Unmarshal := readRecord |}.

#[local] Instance sampleJSONLaws : KeyJSONLaws.
Proof.
  split. intros [v k a f c e h r] p _ _ _ _ _ [= <-]. cbn. unfold len. rewrite !Nat2Z.id.
  rewrite !drop_app_length, !take_app_length. done.
Qed.

Definition secret : bytes := repeat 7 32.
Definition key (name : string) (created : Z) : KeyChain :=
  mkKeyChain (lit name) HS256 created (created + 1000) (Secret secret) (Secret secret).

Lemma key_wf name created : validateKID (lit name) = None → wellFormed (key name created).
Proof.
  intros Hk. split; cbn; [done|unfold in_i64; lia|]. left. exists secret. split; [reflexivity|]. split; [|done].
  apply Forall_forall. intros x Hx. apply list_elem_of_In, repeat_spec in Hx as ->. done.
Qed.


Lemma key_payload name created p : encodeRedisKeyChain (Some (key name created)) = Ok p → Z.of_nat (length p) = len (lit name) + 60.
Proof.
  cbn [encodeRedisKeyChain encodeMaterial key algorithm signingKey]. vm_compute (bool_decide (is_Some (hmacSecretLength HS256))).
  cbn [json_Marshal sampleJSON]. intros [= <-]. unfold writeRecord, len in *. rewrite !length_app. cbn [length dto_KID dto_Algorithm dto_Family dto_HMAC dto_RSA kid].
  vm_compute (length HS256). vm_compute (length redisKeyFamilyHMAC). vm_compute (length (b64encode secret)). cbn. lia.
Qed.

(** The sample keys are small and last for 1000 nanoseconds. *)
Lemma key_fair name created t1 :
  validateKID (lit name) = None → t1 < created + 1000 → 0 < created + 1000 → len (lit name) ≤ 4000 →
  fairKey 4096 t1 (key name created).
Proof.
  intros Hk H1 H2 H3. split; [by apply key_wf|]. split.
  - cbn. rewrite (proj2 (Z.eqb_neq _ _)) by lia. cbn. by rewrite (proj2 (Z.ltb_lt _ _)).
  - intros p Hp. rewrite (key_payload _ _ _ Hp). cbn. lia.
Qed.
