(* ===== verification/JwtRedis.v ===== *)
(** * jwt: the Redis key repository

    Models [src/jwt/redis_options.go], [redis_scripts.go],
    [redis_repository.go] and [requireContext], [createWithContext] of
    [distributed_repository.go].

    The four keys of a repository (a string, two hashes and a sorted set) are
    one [store]; every script that writes gives them the same expiry.  The
    scripts are functions on it.  A method is a process whose commands are the
    calls of the client, the looks at the context and the call of [create]; a
    command of the client may fail without or after its effect. *)

From S2P Require Import Prelude GoError GoText Core GoEncoding RedisKey Snowflake Process JwtKey JwtRotation.

Local Open Scope Z_scope.

(** ** Options *)

Definition defaultRedisKeyPrefix : text := lit "bluetape:jwt:v1".
Definition maxRedisNamespaceBytes : Z := 128.
Definition minRedisMaxKeyBytes : Z := 1024.
Definition maxRedisMaxKeyBytes : Z := 1024 * 1024.

Definition namespaceRune (r : Z) : bool :=
  ((97 <=? r) && (r <=? 122)) || ((65 <=? r) && (r <=? 90)) || ((48 <=? r) && (r <=? 57)) ||
  (r =? 46) || (r =? 95) || (r =? 45).

Definition normalizeRedisNamespace (namespace : text) : result text :=
  let trimmed := TrimSpace namespace in
  if bool_decide (trimmed = []) then Fail (OptionError "namespace" (errorsNew "must not be empty"))
  else if maxRedisNamespaceBytes <? byteLen trimmed
  then Fail (OptionError "namespace" (Errorf "must be at most %d bytes" []))
  else if forallb namespaceRune trimmed then Ok trimmed
  else Fail (OptionError "namespace" (errorsNew "must contain only ASCII letters, digits, dot, underscore, or hyphen")).

Record redisRepositoryKeys : Type := mkRepoKeys { k_meta : Key; k_current : Key; k_keys : Key; k_order : Key }.

Section keys.
Context (sha256 : text → list Z).

Definition buildRedisRepositoryKeys (namespace : text) : result redisRepositoryKeys :=
  match NewKeyBuilder defaultRedisKeyPrefix with
  | Fail err => Fail err
  | Ok builder =>
      match Structural builder [namespace] with
      | Fail err => Fail err
      | Ok builder =>
          match StructuralKey sha256 builder [lit "meta"] with
          | Fail err => Fail err
          | Ok meta =>
              match StructuralKey sha256 builder [lit "current"] with
              | Fail err => Fail err
              | Ok current =>
                  match StructuralKey sha256 builder [lit "keys"] with
                  | Fail err => Fail err
                  | Ok keys =>
                      match StructuralKey sha256 builder [lit "order"] with
                      | Fail err => Fail err
                      | Ok order => Ok (mkRepoKeys meta current keys order)
                      end
                  end
              end
          end
      end
  end.
End keys.

Record RedisRepositoryOptions : Type := mkRedisOptions {
  o_Client : bool;
  o_Namespace : text;
  o_Capacity : Z;
  o_KeyTTL : Z;
  o_RetentionLeeway : Z;
  o_MaxKeyBytes : Z
}.

Record redisRepositoryOptions : Type := mkRepo {
  namespace : text;
  keys : redisRepositoryKeys;
  capacity : Z;
  keyTTL : Z;
  retentionLeeway : Z;
  maxKeyBytes : Z
}.

Definition normalizeOptions (sha256 : text → list Z) (o : RedisRepositoryOptions) : result redisRepositoryOptions :=
  if negb (o_Client o) then Fail (OptionError "client" (errorsNew "must not be nil"))
  else match normalizeRedisNamespace (o_Namespace o) with
  | Fail err => Fail err
  | Ok namespace =>
      match buildRedisRepositoryKeys sha256 namespace with
      | Fail _ => Fail (OptionError "namespace" (errorsNew "invalid redis key configuration"))
      | Ok keys =>
          let capacity := if o_Capacity o =? 0 then defaultRepositorySize else o_Capacity o in
          if (capacity <? minRepositorySize) || (maxRepositorySize <? capacity)
          then Fail (OptionError "capacity" (errorsNew "outside repository capacity bounds"))
          else if o_KeyTTL o <? 0 then Fail (OptionError "key_ttl" (errorsNew "must not be negative"))
          else if o_RetentionLeeway o <? 0 then Fail (OptionError "retention_leeway" (errorsNew "must not be negative"))
          else
            let maxKeyBytes := if o_MaxKeyBytes o =? 0 then defaultRedisMaxKeyBytes else o_MaxKeyBytes o in
            if (maxKeyBytes <? minRedisMaxKeyBytes) || (maxRedisMaxKeyBytes <? maxKeyBytes)
            then Fail (OptionError "max_key_bytes" (errorsNew "outside redis key payload bounds"))
            else Ok (mkRepo namespace keys capacity (o_KeyTTL o) (o_RetentionLeeway o) maxKeyBytes)
      end
  end.

(** A [*RedisRepository]; a nil one has not been made by the constructor. *)
Definition NewRedisRepository (sha256 : text → list Z) (o : RedisRepositoryOptions) : result redisRepositoryOptions :=
  normalizeOptions sha256 o.

(** ** The store and its scripts *)

Record store : Type := mkStore {
  current : option bytes;
  hash : gmap bytes bytes;
  order : gmap bytes Z;
  meta : option (Z * bytes);
  deadline : option Z
}.

Definition emptyStore : store := mkStore None ∅ ∅ None None.

(** The store at a time of the server. *)
Definition live (t : Z) (st : store) : store :=
  match deadline st with
  | Some d => if d <=? t then emptyStore else st
  | None => st
  end.

(** [tonumber]: the double next to an integer, ties to even. *)
Definition tonumber (n : Z) : Z :=
  let q := 2 ^ Z.max 0 (Z.log2 (Z.abs n) - 52) in
  let f := n / q in
  let r := n mod q in
  (if 2 * r <? q then f else if q <? 2 * r then f + 1 else if Z.even f then f else f + 1) * q.

(** [ZRANGE key 0 -1] and [ZREVRANGE key 0 -1]: by score, then by member. *)
Definition ranked (x y : bytes * Z) : Prop := x.2 < y.2 ∨ (x.2 = y.2 ∧ text_lt y.1 x.1 = false).
#[export] Instance ranked_decision x y : Decision (ranked x y).
Proof. unfold ranked. apply _. Defined.

Definition ZRANGE (o : gmap bytes Z) : list bytes := (merge_sort ranked (map_to_list o)).*1.
Definition ZREVRANGE (o : gmap bytes Z) : list bytes := reverse (ZRANGE o).

Fixpoint keepLoop (candidate_kid : bytes) (capacity : Z) (newest : list bytes) (retained : Z) (keep : gset bytes) : gset bytes :=
  match newest with
  | [] => keep
  | retained_kid :: rest =>
      if bool_decide (retained_kid ≠ candidate_kid) && (retained <? capacity - 1)
      then keepLoop candidate_kid capacity rest (retained + 1) ({[retained_kid]} ∪ keep)
      else keepLoop candidate_kid capacity rest retained keep
  end.

Fixpoint dropStale (keep : gset bytes) (stale : list bytes) (st : store) : store :=
  match stale with
  | [] => st
  | stale_kid :: rest =>
      dropStale keep rest
        (if bool_decide (stale_kid ∈ keep) then st
         else mkStore (current st) (delete stale_kid (hash st)) (delete stale_kid (order st)) (meta st) (deadline st))
  end.

Definition trimStore (candidate_kid : bytes) (capacity : Z) (st : store) : store :=
  if capacity <? Z.of_nat (size (order st))
  then dropStale (keepLoop candidate_kid capacity (ZREVRANGE (order st)) 0 {[candidate_kid]}) (ZRANGE (order st)) st
  else st.

(** The arguments of the two scripts that write. *)
Record candidate : Type := mkCandidate {
  c_kid : bytes;
  c_payload : bytes;
  c_score : Z;
  c_capacity : Z;
  c_ttl_ms : Z;
  c_version : Z;
  c_algorithm : bytes
}.

(** The writes that the two scripts have in common. *)
Definition storeCandidate (t : Z) (c : candidate) (st : store) : store :=
  let st := mkStore (Some (c_kid c)) (<[c_kid c := c_payload c]> (hash st)) (<[c_kid c := tonumber (c_score c)]> (order st))
                    (Some (c_version c, c_algorithm c)) (deadline st) in
  let st := trimStore (c_kid c) (c_capacity c) st in
  mkStore (current st) (hash st) (order st) (meta st) (if 0 <? c_ttl_ms c then Some (t + c_ttl_ms c) else None).

(** An element of a script's answer, as the client gives it. *)
Inductive value : Type :=
| VNil
| VInt (z : Z)
| VString (s : bytes)
| VBytes (s : bytes)
| VOther.

Definition redisCurrentScript (st : store) : list value :=
  match current st with
  | None => [VInt 0; VString []; VString []]
  | Some kid =>
      if bool_decide (kid = []) then [VInt 0; VString []; VString []]
      else match hash st !! kid with
           | None => [VInt 0; VString []; VString kid]
           | Some payload => [VInt 1; VString payload; VString kid]
           end
  end.

Definition redisStoreScript (t : Z) (c : candidate) (st : store) : list value * store :=
  ([VInt 1; VString (c_payload c); VString (c_kid c)], storeCandidate t c st).

Definition redisRotateCASScript (t : Z) (observed_kid : bytes) (c : candidate) (st : store) : list value * store :=
  match current st with
  | Some current_kid =>
      if bool_decide (current_kid ≠ []) && bool_decide (current_kid ≠ observed_kid) then
        match hash st !! current_kid with
        | Some current_payload => ([VInt 0; VString current_payload; VString current_kid], st)
        | None => redisStoreScript t c st
        end
      else redisStoreScript t c st
  | None => redisStoreScript t c st
  end.

(** ** Answers of the scripts *)

Section parse.
(** [fmt.Sscan] of a decimal number. *)
Context (Sscan : bytes → result Z).

Definition redisInt (v : value) : result Z :=
  match v with
  | VInt z => Ok z
  | VString s | VBytes s => Sscan s
  | _ => Fail (Errorf "unsupported type %T" [])
  end.

Definition redisString (v : value) : result bytes :=
  match v with
  | VNil => Ok []
  | VString s | VBytes s => Ok s
  | _ => Fail (Errorf "unsupported type %T" [])
  end.

Definition parseRedisKeyScriptResult (values : list value) : result (bool * bytes * bytes) :=
  match values with
  | [v0; v1; v2] =>
      match redisInt v0 with
      | Fail err => Fail (Errorf "redis jwt script status: %w" [err])
      | Ok status =>
          match redisString v1 with
          | Fail err => Fail (Errorf "redis jwt script payload: %w" [err])
          | Ok payload =>
              match redisString v2 with
              | Fail err => Fail (Errorf "redis jwt script kid: %w" [err])
              | Ok kid => Ok ((status =? 1) || bool_decide (payload ≠ []), payload, kid)
              end
          end
      end
  | _ => Fail (Errorf "redis jwt script result length = %d" [])
  end.
End parse.

Definition durationMillis (duration : Z) : Z :=
  if duration <=? 0 then 0
  else let millis := Z.quot duration 1000000 in if millis =? 0 then 1 else millis.

(** Nanoseconds since 1970 as an [int64]. *)
Definition UnixNano (t : Z) : Z := wrap_i64 (t - 62135596800 * 1000000000).

(** ** The repository as processes *)

Section repository.
Context {R : CryptoRSA} {J : KeyJSON} (sha256 : text → list Z) (Sscan : bytes → result Z).

Inductive cmd : Type :=
| CtxErr
| Create
| Get
| HGet (kid : bytes)
| EvalCurrent
| EvalRotate (observedKID : bytes) (c : candidate)
| EvalStore (c : candidate)
| Del.

(** [None] is [redis.Nil]. *)
Definition resp (c : cmd) : Type :=
  match c with
  | CtxErr => option error
  | Create => result (option KeyChain)
  | Get | HGet _ => result (option bytes)
  | EvalCurrent | EvalRotate _ _ | EvalStore _ => result (list value)
  | Del => result unit
  end.

Notation proc := (prog resp).

(** [ctx] is false for a nil context, [create] for a nil function. *)
Definition requireContext (ctx : bool) : proc (option error) :=
  if ctx then act CtxErr else mret (Some (OptionError "context" (errorsNew "must not be nil"))).

Definition createWithContext (ctx : bool) : proc (result (option KeyChain)) :=
  err ← requireContext ctx;
  match err with
  | Some err => mret (Fail err)
  | None =>
      created ← act Create;
      match created with
      | Fail err => mret (Fail err)
      | Ok key =>
          err ← requireContext ctx;
          match err with
          | Some err => mret (Fail err)
          | None => mret (Ok key)
          end
      end
  end.

Context (repo : option redisRepositoryOptions).

Definition validateReady (ctx : bool) : proc (result redisRepositoryOptions) :=
  match repo with
  | None => mret (Fail (OptionError "repository" (errorsNew "must be constructed by a constructor")))
  | Some r =>
      err ← requireContext ctx;
      mret (match err with Some err => Fail err | None => Ok r end)
  end.

Definition redisRepositoryOperationError (ctx : bool) (operation : string) (rawKey : text) (err : error) : proc error :=
  let label := mkLabels (lit "jwt repository") (lit operation) in
  if ctx then
    ctxErr ← act CtxErr;
    mret (NewOpError sha256 label rawKey (match ctxErr with None => Some err | Some e => errors_Join (Some err) (Some e) end))
  else mret (NewOpError sha256 label rawKey (Some err)).

Definition findPayload (r : redisRepositoryOptions) (ctx : bool) (kid : bytes) (now : Z) : proc (result KeyChain) :=
  got ← act (HGet kid);
  match got with
  | Ok None => mret (Fail (KeyError ErrKeyNotFound kid (errorsNew "key not found")))
  | Fail err => err ← redisRepositoryOperationError ctx "key-get" (Value (k_keys (keys r))) err; mret (Fail err)
  | Ok (Some payload) => mret (usableKey (maxKeyBytes r) payload kid now)
  end.

(** The identifier that was observed comes with the key or the error. *)
Definition currentPayload (r : redisRepositoryOptions) (ctx : bool) (now : Z) : proc (bytes * result KeyChain) :=
  values ← act EvalCurrent;
  match values with
  | Fail err => err ← redisRepositoryOperationError ctx "current-script" (Value (k_current (keys r))) err; mret ([], Fail err)
  | Ok values =>
      mret match parseRedisKeyScriptResult Sscan values with
           | Fail err => ([], Fail err)
           | Ok (present, payload, kid) =>
               if negb present then (kid, Fail (KeyError ErrKeyNotFound kid (errorsNew "current key not found")))
               else (kid, usableKey (maxKeyBytes r) payload kid now)
           end
  end.

Definition validateKeyTTL (r : redisRepositoryOptions) (key : KeyChain) : option error :=
  if keyTTL r <=? 0 then None
  else
    let required := wrap_i64 (timeSub (expiresAt key) (createdAt key) + retentionLeeway r) in
    if required <=? 0 then Some (KeyError ErrInvalidKey (kid key) (errorsNew "key expired"))
    else if keyTTL r <? required
    then Some (OptionError "key_ttl" (Errorf "must be at least key validity plus retention leeway" []))
    else None.

Definition prepareStorePayload (r : redisRepositoryOptions) (ctx : bool) (key : option KeyChain) (now : Z)
    : proc (result (KeyChain * bytes)) :=
  err ← requireContext ctx;
  match err with
  | Some err => mret (Fail err)
  | None =>
      match key with
      | None => mret (Fail (KeyError ErrInvalidKey [] (errorsNew "key must not be nil")))
      | Some k =>
          if Expired (Some k) now then mret (Fail (KeyError ErrInvalidKey (kid k) (errorsNew "key expired")))
          else match validateKeyTTL r k with
          | Some err => mret (Fail err)
          | None =>
              match encodeRedisKeyChain (Some k) with
              | Fail err => mret (Fail err)
              | Ok payload =>
                  err ← requireContext ctx;
                  mret (match err with Some err => Fail err | None => Ok (k, payload) end)
              end
          end
      end
  end.

Definition candidateOf (r : redisRepositoryOptions) (k : KeyChain) (payload : bytes) : candidate :=
  mkCandidate (kid k) payload (UnixNano (createdAt k)) (capacity r) (durationMillis (keyTTL r)) redisKeyVersion (algorithm k).

Definition decodeStoreScriptResult (r : redisRepositoryOptions) (values : list value) (now : Z) : result KeyChain :=
  match parseRedisKeyScriptResult Sscan values with
  | Fail err => Fail err
  | Ok (present, payload, kid) =>
      if negb present then Fail (KeyError ErrKeyNotFound kid (errorsNew "stored key not found"))
      else usableKey (maxKeyBytes r) payload kid now
  end.

Definition storeCAS (r : redisRepositoryOptions) (ctx : bool) (observedKID : bytes) (key : option KeyChain) (now : Z)
    : proc (result KeyChain) :=
  prepared ← prepareStorePayload r ctx key now;
  match prepared with
  | Fail err => mret (Fail err)
  | Ok (k, payload) =>
      values ← act (EvalRotate observedKID (candidateOf r k payload));
      match values with
      | Fail err => err ← redisRepositoryOperationError ctx "rotate-script" (Value (k_current (keys r))) err; mret (Fail err)
      | Ok values => mret (decodeStoreScriptResult r values now)
      end
  end.

Definition storeKey (r : redisRepositoryOptions) (ctx : bool) (key : option KeyChain) (now : Z) : proc (result KeyChain) :=
  prepared ← prepareStorePayload r ctx key now;
  match prepared with
  | Fail err => mret (Fail err)
  | Ok (k, payload) =>
      values ← act (EvalStore (candidateOf r k payload));
      match values with
      | Fail err => err ← redisRepositoryOperationError ctx "store-script" (Value (k_current (keys r))) err; mret (Fail err)
      | Ok values => mret (decodeStoreScriptResult r values now)
      end
  end.

Definition Current (ctx : bool) (now : Z) : proc (result KeyChain) :=
  ready ← validateReady ctx;
  match ready with
  | Fail err => mret (Fail err)
  | Ok r =>
      got ← act Get;
      match got with
      | Ok None => mret (Fail (KeyError ErrKeyNotFound [] (errorsNew "current key not found")))
      | Fail err => err ← redisRepositoryOperationError ctx "current-get" (Value (k_current (keys r))) err; mret (Fail err)
      | Ok (Some kid) => findPayload r ctx kid now
      end
  end.

Definition Find (ctx : bool) (kid : bytes) (now : Z) : proc (result KeyChain) :=
  ready ← validateReady ctx;
  match ready with
  | Fail err => mret (Fail err)
  | Ok r =>
      match validateLookupKID kid with
      | Some err => mret (Fail err)
      | None => findPayload r ctx kid now
      end
  end.

Definition Rotate (ctx create : bool) (now : Z) : proc (result KeyChain) :=
  ready ← validateReady ctx;
  match ready with
  | Fail err => mret (Fail err)
  | Ok r =>
      if negb create then mret (Fail (OptionError "create" (errorsNew "must not be nil")))
      else
        '(observedKID, current) ← currentPayload r ctx now;
        match current with
        | Ok key => mret (Ok key)
        | Fail err =>
            if negb (errors_Is err ErrKeyNotFound) && negb (errors_Is err ErrInvalidKey) then mret (Fail err)
            else
              made ← createWithContext ctx;
              match made with
              | Fail err => mret (Fail err)
              | Ok key => storeCAS r ctx observedKID key now
              end
        end
  end.

Definition ForcedRotate (ctx create : bool) (now : Z) : proc (result KeyChain) :=
  ready ← validateReady ctx;
  match ready with
  | Fail err => mret (Fail err)
  | Ok r =>
      if negb create then mret (Fail (OptionError "create" (errorsNew "must not be nil")))
      else
        made ← createWithContext ctx;
        match made with
        | Fail err => mret (Fail err)
        | Ok key => storeKey r ctx key now
        end
  end.

Definition DeleteAll (ctx : bool) : proc (option error) :=
  ready ← validateReady ctx;
  match ready with
  | Fail err => mret (Some err)
  | Ok r =>
      deleted ← act Del;
      match deleted with
      | Fail err => err ← redisRepositoryOperationError ctx "delete-all" (Value (k_meta (keys r))) err; mret (Some err)
      | Ok _ => mret None
      end
  end.

(** ** Commands *)

(** What the environment chooses for a command: what the context says, what
    [create] gives, the time of the server, and whether the client fails, with
    or without the effect of the command. *)
Record choice : Type := mkChoice {
  ch_ctx : option error;
  ch_create : result (option KeyChain);
  ch_time : Z;
  ch_fail : option (error * bool)
}.

(** The store of the repository, and the identifiers that were given out. *)
Record world : Type := mkWorld { redis : store; issued : gset bytes }.

Definition onRedis {A} (ch : choice) (w : world) (f : store → A * store) : effect world (result A) :=
  let st := live (ch_time ch) (redis w) in
  let '(a, st') := f st in
  match ch_fail ch with
  | None => Answers (Ok a) (mkWorld st' (issued w))
  | Some (err, applied) => Answers (Fail err) (mkWorld (if applied then st' else st) (issued w))
  end.

(** Identifiers are unique: [create] does not give one twice. *)
Definition exec (c : cmd) (ch : choice) (w : world) : effect world (resp c) :=
  match c return effect world (resp c) with
  | CtxErr => Answers (ch_ctx ch) w
  | Create =>
      match ch_create ch with
      | Ok (Some k) =>
          if bool_decide (kid k ∈ issued w) then Waits
          else Answers (Ok (Some k)) (mkWorld (redis w) ({[kid k]} ∪ issued w))
      | other => Answers other w
      end
  | Get => onRedis ch w (λ st, (current st, st))
  | HGet kid => onRedis ch w (λ st, (hash st !! kid, st))
  | EvalCurrent => onRedis ch w (λ st, (redisCurrentScript st, st))
  | EvalRotate observedKID c => onRedis ch w (redisRotateCASScript (ch_time ch) observedKID c)
  | EvalStore c => onRedis ch w (redisStoreScript (ch_time ch) c)
  | Del => onRedis ch w (λ _, (tt, emptyStore))
  end.

(** A call of a method. *)
Inductive call_ : Type :=
| CCurrent (ctx : bool) (now : Z)
| CFind (ctx : bool) (kid : bytes) (now : Z)
| CRotate (ctx create : bool) (now : Z)
| CForced (ctx create : bool) (now : Z)
| CDeleteAll (ctx : bool).

Inductive outcome : Type :=
| OKey (r : result KeyChain)
| OFound (r : result KeyChain)
| OUnit (err : option error).

Definition callProc (x : call_) : proc outcome :=
  match x with
  | CCurrent ctx now => OKey <$> Current ctx now
  | CFind ctx kid now => OFound <$> Find ctx kid now
  | CRotate ctx create now => OKey <$> Rotate ctx create now
  | CForced ctx create now => OKey <$> ForcedRotate ctx create now
  | CDeleteAll ctx => OUnit <$> DeleteAll ctx
  end.

Definition started (st : store) (given : gset bytes) (calls : list call_) : system resp world outcome :=
  mkSystem (mkWorld st given) (callProc <$> calls) false.
End repository.
