(* ===== verification/JwtRedisLaws.v ===== *)
(** * jwt: laws of the Redis key repository

    The scripts keep the hash and the sorted set together, keep the current
    key, and bound the number of keys, whatever the scores are; rotations that
    run at the same time agree on one key. *)

From S2P Require Import Prelude GoError GoText Core GoEncoding RedisKey Process JwtKey JwtRotation JwtRedis.

Local Open Scope Z_scope.

(** ** Trimming *)

Lemma keepLoop_spec cand cap newest retained keep :
  keepLoop cand cap newest retained keep =
  list_to_set (take (Z.to_nat (cap - 1 - retained)) (filter (.≠ cand) newest)) ∪ keep.
Proof.
  revert retained keep. induction newest as [|o rest IH]; intros retained keep; cbn [keepLoop].
  { rewrite filter_nil, take_nil. set_solver. }
  destruct (decide (o = cand)) as [->|Ho].
  - rewrite bool_decide_false, filter_cons_False by naive_solver. apply IH.
  - rewrite bool_decide_true, filter_cons_True by done. cbn [andb]. destruct (retained <? cap - 1) eqn:Hr.
    + apply Z.ltb_lt in Hr. rewrite IH. replace (Z.to_nat (cap - 1 - retained)) with (S (Z.to_nat (cap - 1 - (retained + 1)))) by lia.
      cbn [take list_to_set]. set_solver.
    + apply Z.ltb_ge in Hr. rewrite IH. replace (Z.to_nat (cap - 1 - retained)) with 0%nat by lia. by rewrite !take_0.
Qed.

Definition dropped (keep : gset bytes) (stale : list bytes) (o : bytes) : Prop := o ∈ stale ∧ o ∉ keep.
#[export] Instance dropped_decision keep stale o : Decision (dropped keep stale o).
Proof. unfold dropped. apply _. Defined.

Lemma dropStale_spec keep stale st :
  current (dropStale keep stale st) = current st ∧ deadline (dropStale keep stale st) = deadline st ∧
  meta (dropStale keep stale st) = meta st ∧
  (∀ o, hash (dropStale keep stale st) !! o = if decide (dropped keep stale o) then None else hash st !! o) ∧
  (∀ o, order (dropStale keep stale st) !! o = if decide (dropped keep stale o) then None else order st !! o).
Proof.
  unfold dropped. revert st. induction stale as [|k rest IH]; intros st; cbn [dropStale].
  { repeat split; intros o; by rewrite decide_False by (intros [H _]; by apply elem_of_nil in H). }
  case_bool_decide as Hk.
  - destruct (IH st) as (-> & -> & -> & Hh & Ho). repeat split; intros o; [rewrite Hh|rewrite Ho];
      apply decide_ext; rewrite elem_of_cons; naive_solver.
  - destruct (IH (mkStore (current st) (delete k (hash st)) (delete k (order st)) (meta st) (deadline st))) as (-> & -> & -> & Hh & Ho).
    repeat split; intros o; [rewrite Hh|rewrite Ho]; cbn [hash order]; destruct (decide (o = k)) as [->|Hne].
    1,3: rewrite lookup_delete_eq, (decide_True (P := k ∈ k :: rest ∧ _)) by (split; [left|done]); by destruct (decide _).
    all: rewrite lookup_delete_ne by done; apply decide_ext; rewrite elem_of_cons; naive_solver.
Qed.

Lemma elem_of_ZRANGE o x : x ∈ ZRANGE o ↔ is_Some (o !! x).
Proof.
  unfold ZRANGE. rewrite list_elem_of_fmap. split.
  - intros ([y z] & -> & H). rewrite merge_sort_Permutation in H. apply elem_of_map_to_list in H. eauto.
  - intros [z Hz]. exists (x, z). split; [done|]. rewrite merge_sort_Permutation. by apply elem_of_map_to_list.
Qed.

Lemma NoDup_ZREVRANGE o : NoDup (ZREVRANGE o).
Proof.
  unfold ZREVRANGE, ZRANGE. rewrite reverse_Permutation, merge_sort_Permutation. apply NoDup_fst_map_to_list.
Qed.

(** The identifiers of both collections are the same, and the current one is
    among them. *)
Record storeWf (st : store) : Prop := mkStoreWf {
  wf_dom : dom (hash st) = dom (order st);
  wf_current o : current st = Some o → o ∈ dom (hash st)
}.

Lemma emptyStore_wf : storeWf emptyStore.
Proof. split; [cbn; by rewrite !dom_empty_L|done]. Qed.

Lemma live_wf t st : storeWf st → storeWf (live t st).
Proof. unfold live. intros H. destruct (deadline st) as [d|]; [destruct (d <=? t); [apply emptyStore_wf|done]|done]. Qed.

(** What a store holds after a candidate was written. *)
Section candidate.
Context (t : Z) (c : candidate) (st : store).

Notation st1 := (mkStore (Some (c_kid c)) (<[c_kid c := c_payload c]> (hash st)) (<[c_kid c := tonumber (c_score c)]> (order st))
                    (Some (c_version c, c_algorithm c)) (deadline st)).
Notation ord := (<[c_kid c := tonumber (c_score c)]> (order st)).
Notation kept := (keepLoop (c_kid c) (c_capacity c) (ZREVRANGE ord) 0 {[c_kid c]}).

Lemma storeCandidate_spec :
  current (storeCandidate t c st) = Some (c_kid c) ∧
  hash (storeCandidate t c st) !! c_kid c = Some (c_payload c) ∧
  order (storeCandidate t c st) !! c_kid c = Some (tonumber (c_score c)) ∧
  (∀ o, o ≠ c_kid c → (hash (storeCandidate t c st) !! o = hash st !! o ∧ order (storeCandidate t c st) !! o = order st !! o) ∨
                      (hash (storeCandidate t c st) !! o = None ∧ order (storeCandidate t c st) !! o = None)) ∧
  deadline (storeCandidate t c st) = (if 0 <? c_ttl_ms c then Some (t + c_ttl_ms c) else None).
Proof.
  unfold storeCandidate, trimStore. cbn [order]. destruct (c_capacity c <? _); cbn [current hash order deadline].
  - destruct (dropStale_spec kept (ZRANGE ord) st1)
      as (-> & _ & _ & Hh & Ho). cbn [order hash] in *.
    assert (Hk : c_kid c ∈ kept) by (rewrite keepLoop_spec; set_solver).
    split; [done|]. rewrite Hh, Ho, !decide_False by (by intros [_ []]). rewrite !lookup_insert_eq.
    split; [done|]. split; [done|]. split; [|done]. intros o Hne. rewrite Hh, Ho. destruct (decide _); [by right|left].
    by rewrite !lookup_insert_ne by done.
  - rewrite !lookup_insert_eq. repeat split; try done. intros o Hne. left. by rewrite !lookup_insert_ne by done.
Qed.

Lemma storeCandidate_wf : dom (hash st) = dom (order st) → storeWf (storeCandidate t c st).
Proof.
  intros Hd. destruct storeCandidate_spec as (Hc & Hh & Ho & Hr & _). split.
  - apply set_eq. intros o. rewrite !elem_of_dom. destruct (decide (o = c_kid c)) as [->|Hne]; [rewrite Hh, Ho; split; eauto|].
    destruct (Hr o Hne) as [[-> ->]|[-> ->]]; [|by split; intros []]. by rewrite <-!elem_of_dom, Hd.
  - intros o. rewrite Hc. intros [= <-]. apply elem_of_dom. eauto.
Qed.

(** At most [capacity] keys are left. *)
Lemma storeCandidate_bound : 1 ≤ c_capacity c → Z.of_nat (size (order (storeCandidate t c st))) ≤ c_capacity c.
Proof.
  intros Hcap. unfold storeCandidate, trimStore. cbn [order].
  destruct (c_capacity c <? _) eqn:Hs; cbn [order]; [|by apply Z.ltb_ge in Hs].
  destruct (dropStale_spec kept (ZRANGE ord) st1)
    as (_ & _ & _ & _ & Ho). cbn [order] in Ho. rewrite <-size_dom.
  assert (Hsub : dom (order (dropStale kept (ZRANGE ord) st1)) ⊆
                 kept).
  { intros o. rewrite elem_of_dom, Ho. destruct (decide _) as [|Hn]; [by intros []|]. intros Hx.
    destruct (decide (o ∈ kept)); [done|].
    destruct Hn. split; [by apply elem_of_ZRANGE|done]. }
  apply subseteq_size in Hsub.
  etransitivity; [apply inj_le, Hsub|]. rewrite keepLoop_spec, size_union_alt.
  pose proof (subseteq_size ({[c_kid c]} ∖ list_to_set (take (Z.to_nat (c_capacity c - 1 - 0)) (filter (.≠ c_kid c) (ZREVRANGE ord))) : gset bytes) {[c_kid c]} ltac:(set_solver)) as H1.
  rewrite size_singleton in H1. rewrite size_list_to_set by (eapply sublist_NoDup, sublist_take; apply NoDup_filter, NoDup_ZREVRANGE).
  rewrite length_take. lia.
Qed.
End candidate.

(** ** Every store of a system of calls *)

Section always.
Context {R : CryptoRSA} {J : KeyJSON} (sha256 : text → list Z) (Sscan : bytes → result Z) (r : redisRepositoryOptions).

(** The candidates of a repository have its capacity. *)
Definition writesWith (h : unit) (c : cmd) : Prop :=
  match c with
  | EvalRotate _ c | EvalStore c => c_capacity c = capacity r
  | _ => True
  end.

Definition storeInv (n : Z) (w : world) (hs : list unit) : Prop :=
  storeWf (redis w) ∧ Z.of_nat (size (order (redis w))) ≤ capacity r.

Lemma live_cases t st : live t st = st ∨ live t st = emptyStore.
Proof. unfold live. destruct (deadline st) as [d|]; [destruct (d <=? t)|]; auto. Qed.

Lemma onRedis_inv {A} ch w (f : store → A * store) (I : store → Prop) :
  (∀ st, I st → I (live (ch_time ch) st)) → (∀ st, I st → I (f st).2) → I (redis w) →
  match onRedis ch w f with Waits => True | Panics => False | Answers _ w' => I (redis w') end.
Proof.
  intros Hl Hf Hi. unfold onRedis. specialize (Hl _ Hi). specialize (Hf _ Hl). destruct (f (live (ch_time ch) (redis w))) as [a st'].
  destruct (ch_fail ch) as [[err []]|]; exact Hf || exact Hl.
Qed.

Hypothesis Hcap : 1 ≤ capacity r.

Lemma exec_storeInv lim n w hs i h c ch :
  storeInv n w hs → n < lim → True → hs !! i = Some h → writesWith h c →
  match exec c ch w with Waits => True | Panics => False | Answers _ w' => storeInv (n + 1) w' (<[i := tt]> hs) end.
Proof.
  intros Hi _ _ _ Hw. pose (I := λ st, storeWf st ∧ Z.of_nat (size (order st)) ≤ capacity r).
  assert (Hl : ∀ st, I st → I (live (ch_time ch) st)).
  { intros st [H1 H2]. split; [by apply live_wf|]. destruct (live_cases (ch_time ch) st) as [->| ->]; [done|cbn; rewrite map_size_empty; lia]. }
  assert (Hc : ∀ st cd, c_capacity cd = capacity r → I st → I (storeCandidate (ch_time ch) cd st)).
  { intros st cd Hcd [[H1 _] _]. split; [by apply storeCandidate_wf|]. rewrite <-Hcd. apply storeCandidate_bound. lia. }
  destruct c; cbn [exec]; try done.
  - destruct (ch_create ch) as [[k|]|]; [case_bool_decide|..]; done.
  - by apply (onRedis_inv ch w _ I Hl).
  - by apply (onRedis_inv ch w _ I Hl).
  - by apply (onRedis_inv ch w _ I Hl).
  - apply (onRedis_inv ch w _ I Hl); [|done]. intros st Hs. unfold redisRotateCASScript, redisStoreScript.
    repeat case_match; cbn [snd]; auto.
  - apply (onRedis_inv ch w _ I Hl); [|done]. intros st Hs. cbn. auto.
  - apply (onRedis_inv ch w _ I Hl); [|done]. intros st Hs. split; [apply emptyStore_wf|cbn; rewrite map_size_empty; lia].
Qed.

Lemma callProc_writes x : keeps writesWith (λ _ _ _, tt) (λ _ _, True) tt (callProc sha256 Sscan (Some r) x).
Proof.
  destruct x as [ctx now|ctx kid now|ctx create now|ctx create now|ctx];
    unfold callProc, Current, Find, Rotate, ForcedRotate, DeleteAll, validateReady, requireContext; destruct ctx; cbn; try done.
  all: walk done.
Qed.
End always.

(** ** Rotations at the same time

    The calls have clocks between [t0] and [t1], and the server between [lo]
    and [hi]; a key is steady when it does not expire in between. *)

Section agreement.
Context {R : CryptoRSA} {J : KeyJSON} (sha256 : text → list Z) (Sscan : bytes → result Z) (r : redisRepositoryOptions).
Context (t0 t1 lo hi : Z).

Notation judge := (judge (maxKeyBytes r) t0 t1).
Notation learn := (learn (maxKeyBytes r) t0 t1).
Notation goodKey := (goodKey (maxKeyBytes r) t0 t1).
Notation usableKey := (usableKey (maxKeyBytes r)).

(** What a store shows. *)
Definition payOf (st : store) (o : bytes) : option KeyChain := p ← hash st !! o; j ← judge p; j.
Definition viewOf (st : store) : view := mkView (current st) (payOf st).

Definition rotatePre (h : option hold) (c : cmd) : Prop :=
  match h, c with
  | None, _ => True
  | Some h, EvalRotate o c =>
      (o = [] ∨ dead h = Some o) ∧ mine h = Some (c_kid c) ∧ c_kid c ≠ [] ∧ c_ttl_ms c = durationMillis (keyTTL r) ∧
      ∃ k, judge (c_payload c) = Some (Some k)
  | Some _, EvalStore _ | Some _, Del => False
  | Some _, _ => True
  end.

(** A hold of [None] is one that no answer of the store leads to. *)
Definition rotatePost (h : option hold) (c : cmd) : resp c → option hold :=
  match h with
  | None => λ _, None
  | Some h =>
      match c return resp c → option hold with
      | CtxErr => λ _, Some h
      | Create => λ a, match a with
          | Ok (Some k) => if goodKey k then Some (mkHold (saw h) (dead h) (Some (kid k)) (sure h) (cut h) None) else None
          | _ => Some h
          end
      | Get => λ a, match a with Ok (Some o) => Some (mkHold (Some o) None None None [] None) | _ => Some idle end
      | HGet o => λ a, match a with
          | Ok (Some p) => if bool_decide (saw h = Some o) then learn p idle
                           else match judge p with None => None | Some _ => Some idle end
          | _ => Some idle
          end
      | EvalCurrent => λ a, match a with
          | Ok values =>
              match parseRedisKeyScriptResult Sscan values with
              | Ok (present, p, o) =>
                  let nothing := mkHold None (if bool_decide (o = []) then None else Some o) None None [] None in
                  if present then learn p nothing else Some nothing
              | Fail _ => Some idle
              end
          | Fail _ => Some idle
          end
      | EvalRotate _ _ => λ a, match a with
          | Ok values =>
              match parseRedisKeyScriptResult Sscan values with
              | Ok (present, p, _) => if present then learn p idle else Some idle
              | Fail _ => Some idle
              end
          | Fail _ => Some idle
          end
      | EvalStore _ => λ _, Some idle
      | Del => λ _, Some idle
      end
  end.

Definition rotateFinal (h : option hold) (o : outcome) : Prop :=
  match h, o with
  | h, OKey x => keyFinal h x
  | _, _ => True
  end.

(** The calls of the theorem: all but the forced rotation and the deletion. *)
Definition rotates (x : call_) : Prop :=
  match x with
  | CCurrent _ now | CRotate _ _ now | CFind _ _ now => t0 ≤ now ≤ t1
  | CForced _ _ _ | CDeleteAll _ => False
  end.

Notation keeps_ := (keeps rotatePre rotatePost).

Lemma redis_keeps_impossible {A} (Q : option hold → A → Prop) (p : prog resp A) : (∀ a, Q None a) → keeps_ Q None p.
Proof. intros HQ. by apply keeps_sink; [|intros []|]. Qed.

Lemma keeps_opError (Q : option hold → error → Prop) h ctx op key err :
  (∀ e, Q h e) → keeps_ Q h (redisRepositoryOperationError sha256 ctx op key err).
Proof. intros HQ. unfold redisRepositoryOperationError. destruct ctx, h; cbn; auto. Qed.

Lemma redis_keeps_ready (Q : option hold → result redisRepositoryOptions → Prop) h ctx :
  Q h (Ok r) → (∀ e, Q h (Fail e)) → keeps_ Q h (validateReady (Some r) ctx).
Proof. intros H1 H2. unfold validateReady, requireContext. destruct ctx; [|cbn; auto]. destruct h; cbn; (split; [done|]); intros []; auto. Qed.

Lemma redis_findPayload_keeps h ctx o now :
  t0 ≤ now ≤ t1 → saw h = Some o → keeps_ keyFinal (Some h) (findPayload sha256 r ctx o now).
Proof.
  intros Hn Hs. cbn. split; [done|]. intros [[p|]|e].
  - rewrite bool_decide_true by done. by apply learn_final.
  - done.
  - apply keeps_bind, keeps_opError. done.
Qed.

Lemma redis_findPayload_found h ctx o now : keeps_ (λ h x, rotateFinal h (OFound x)) (Some h) (findPayload sha256 r ctx o now).
Proof.
  cbn. split; [done|]. intros [[p|]|e]; [|done|].
  - by destruct (if bool_decide _ then _ else _).
  - apply keeps_bind, keeps_opError. by intros.
Qed.

Lemma redis_storeCAS_keeps ctx o h k now :
  t0 ≤ now ≤ t1 → o = [] ∨ dead h = Some o → mine h = Some (kid k) → goodKey k = true →
  keeps_ keyFinal (Some h) (storeCAS sha256 Sscan r ctx o (Some k) now).
Proof.
  intros Hn Ho Hm Hg. unfold storeCAS, prepareStorePayload, requireContext. unfold goodKey in Hg. apply andb_true_iff in Hg as [Hk Hg].
  apply bool_decide_eq_true in Hk. destruct ctx; [|done]. cbn [mbind prog_bind act keeps]. split; [done|]. intros [e|]; [done|].
  destruct (Expired (Some k) now); [done|]. destruct (validateKeyTTL r k); [done|].
  destruct (encodeRedisKeyChain (Some k)) as [p|e]; [|done]. cbn [mbind prog_bind act keeps]. split; [done|]. intros [e|]; [done|].
  cbn [mret prog_ret mbind prog_bind act keeps]. split.
  { cbn. destruct (judge p) as [[k'|]|]; try done. repeat split; try done. by exists k'. }
  intros [values|e]; [|by apply keeps_bind, keeps_opError]. cbn. unfold decodeStoreScriptResult.
  destruct (parseRedisKeyScriptResult Sscan values) as [[[[] p'] o']|e]; [by apply learn_final|done|done].
Qed.

Lemma redis_create_keeps h ctx (Q : option hold → result (option KeyChain) → Prop) :
  (∀ e h, Q h (Fail e)) → (∀ a, Q None a) → Q (Some h) (Ok None) →
  (∀ k, goodKey k = true → Q (Some (mkHold (saw h) (dead h) (Some (kid k)) (sure h) (cut h) None)) (Ok (Some k))) →
  keeps_ Q (Some h) (createWithContext ctx).
Proof.
  intros H1 H2 H3 H4. unfold createWithContext, requireContext. destruct ctx; [|apply H1]. cbn. split; [done|].
  intros [e|]; [apply H1|]. cbn. split; [done|]. intros [[k|]|e]; [|cbn; split; [done|]; intros []; cbn; auto|apply H1].
  destruct (goodKey k) eqn:Hg; cbn; (split; [done|]); intros []; cbn; auto.
Qed.

(** The part of [Rotate] after the current key was found to be unusable. *)
Lemma replace_keeps h ctx o now :
  t0 ≤ now ≤ t1 → o = [] ∨ dead h = Some o →
  keeps_ keyFinal (Some h)
    (made ← createWithContext ctx;
     match made with Fail err => mret (Fail err) | Ok key => storeCAS sha256 Sscan r ctx o key now end).
Proof.
  intros Hn Ho. apply keeps_bind, redis_create_keeps.
  - by intros e [].
  - intros a. by apply redis_keeps_impossible.
  - unfold storeCAS, prepareStorePayload, requireContext. destruct ctx; [|done]. cbn. split; [done|]. by intros [].
  - intros k Hg. by apply redis_storeCAS_keeps.
Qed.

Lemma redis_Rotate_keeps ctx create now : t0 ≤ now ≤ t1 → keeps_ keyFinal (Some idle) (Rotate sha256 Sscan (Some r) ctx create now).
Proof.
  intros Hn. unfold Rotate. apply keeps_bind, redis_keeps_ready; [|done]. destruct create; [|done]. cbn [negb].
  apply keeps_bind. unfold currentPayload. cbn [mbind prog_bind act keeps]. split; [done|].
  assert (Hrest : ∀ h o err, o = [] ∨ dead h = Some o → keeps_ keyFinal (Some h)
    (if negb (errors_Is err ErrKeyNotFound) && negb (errors_Is err ErrInvalidKey) then mret (Fail err)
     else made ← createWithContext ctx;
          match made with Fail err => mret (Fail err) | Ok key => storeCAS sha256 Sscan r ctx o key now end)).
  { intros h o err Ho. destruct (_ && _); [done|]. by apply replace_keeps. }
  intros [values|e]; [|apply keeps_bind, keeps_opError; intros e'; apply Hrest; auto].
  cbn [mret prog_ret keeps rotatePost]. destruct (parseRedisKeyScriptResult Sscan values) as [[[[] p] o]|e]; cbn [negb].
  - destruct (learn_cases (maxKeyBytes r) t0 t1 p (mkHold None (if bool_decide (o = []) then None else Some o) None None [] None) o now Hn)
      as [->|[(k & -> & Hk)|(e & -> & ->)]]; [by apply redis_keeps_impossible|done|]. apply Hrest. cbn. case_bool_decide; auto.
  - apply Hrest. cbn. case_bool_decide; auto.
  - apply Hrest. auto.
Qed.

Lemma redis_callProc_rotates x : rotates x → keeps_ rotateFinal (Some idle) (callProc sha256 Sscan (Some r) x).
Proof.
  destruct x as [ctx now|ctx kid now|ctx create now|ctx create now|ctx]; cbn [rotates callProc]; intros Hn; try done.
  - apply keeps_fmap. unfold Current. apply keeps_bind, redis_keeps_ready; [|done]. cbn [mbind prog_bind act keeps]. split; [done|].
    intros [[o|]|e]; [|done|by apply keeps_bind, keeps_opError]. by apply redis_findPayload_keeps.
  - apply keeps_fmap. unfold Find. apply keeps_bind, redis_keeps_ready; [|done]. destruct (validateLookupKID kid); [done|]. apply redis_findPayload_found.
  - apply keeps_fmap. by apply redis_Rotate_keeps.
Qed.

(** ** The invariant *)

Record stInv (st : store) (given : gset bytes) (gs : list hold) : Prop := mkStInv {
  si_rot : rotInv (viewOf st) given gs;
  si_steady o p : hash st !! o = Some p → judge p ≠ None;
  si_current : current st ≠ Some [];
  si_safe k : settled (viewOf st) k → match deadline st with None => True | Some d => hi ≤ d end;
  si_stored i g : gs !! i = Some g → stored g = None
}.

Definition redisInv (n : Z) (w : world) (hs : list (option hold)) : Prop :=
  ∃ gs, hs = Some <$> gs ∧ stInv (redis w) (issued w) gs.

(** The clock of the server is in its window, and the keys that are made can
    be read back throughout the window of the callers. *)
Definition allowed (ch : choice) : Prop :=
  lo ≤ ch_time ch < hi ∧ ∀ k, ch_create ch = Ok (Some k) → goodKey k = true.

Lemma stInv_live t st given gs : stInv st given gs → lo ≤ t < hi → stInv (live t st) given gs.
Proof.
  intros [Hr Hs Hc Hf Hst] Ht. unfold live. destruct (deadline st) as [d|] eqn:Hd; [|by split; rewrite ?Hd].
  destruct (d <=? t) eqn:Hle; [|by split; rewrite ?Hd]. apply Z.leb_le in Hle. split; [|done..| |done].
  - apply (rotInv_vanish (viewOf st)); try done. intros k Hk%Hf. lia.
  - intros k (o & Ho & _). done.
Qed.

Lemma stored_insert (gs : list hold) i g' :
  stored g' = None → (∀ j g, gs !! j = Some g → stored g = None) → ∀ j g, <[i := g']> gs !! j = Some g → stored g = None.
Proof. intros Hg Hs j g Hj. changed; eauto. Qed.

Lemma stInv_idle st given gs i g : stInv st given gs → gs !! i = Some g → stInv st given (<[i := idle]> gs).
Proof. intros [Hr Hs Hc Hf Hst] Hg. split; [by eapply rotInv_idle|done..|by apply stored_insert]. Qed.

(** A goroutine learns something from a command that only reads. *)
Lemma stInv_learn st given gs i g g' :
  stInv st given gs → gs !! i = Some g → mine g' = None → stored g' = None → holdOk (viewOf st) (public given gs) g' →
  stInv st given (<[i := g']> gs).
Proof.
  intros [Hr Hs Hc Hf Hst] Hg Hm Hsg [Ha Hd Hsu Hcu Hso Hw]. split; [|done..|by apply stored_insert].
  eapply rotInv_step; [done|done|apply moves_refl; auto|].
  pose proof (λ o, public_insert given gs i g g' o Hg (or_intror Hm)) as Hp.
  split; [..|done|done|done|done]; intros o Ho; [destruct (Ha o Ho)|destruct (Hd o Ho)]; auto.
Qed.

Section oneCommand.
Context {A : Type} (f : store → A * store) (after : A → option hold).

Lemma onRedis_rot n w hs i g ch :
  redisInv n w hs → allowed ch → hs !! i = Some (Some g) →
  (∀ gs st, stInv st (issued w) gs → gs !! i = Some g →
     (∃ g', after (f st).1 = Some g' ∧ stInv (f st).2 (issued w) (<[i := g']> gs)) ∧
     stInv (f st).2 (issued w) (<[i := idle]> gs)) →
  match onRedis ch w f with
  | Waits => True
  | Panics => False
  | Answers a w' => redisInv (n + 1) w' (<[i := match a with Ok a => after a | Fail _ => Some idle end]> hs)
  end.
Proof.
  intros (gs & -> & Hi) [Ht _] Hg Hf. rewrite list_lookup_fmap in Hg. destruct (gs !! i) as [g1|] eqn:Hg1; [|done]. injection Hg as ->.
  pose proof (stInv_live (ch_time ch) _ _ _ Hi Ht) as Hl. destruct (Hf _ _ Hl Hg1) as [(g' & Hg' & H1) H2].
  unfold onRedis. destruct (f (live (ch_time ch) (redis w))) as [a st']. cbn [fst snd] in *.
  destruct (ch_fail ch) as [[err applied]|].
  - exists (<[i := idle]> gs). split; [by rewrite list_fmap_insert|]. cbn. destruct applied; [done|]. by eapply stInv_idle.
  - exists (<[i := g']> gs). rewrite Hg'. split; [by rewrite list_fmap_insert|done].
Qed.
End oneCommand.

(** The key behind a payload of the store. *)
Lemma redis_payOf_judge st o p j : hash st !! o = Some p → judge p = Some j → payOf st o = j.
Proof. intros Hh Hj. unfold payOf. by rewrite Hh; cbn; rewrite Hj. Qed.

Lemma learned_ok st given gs o p k :
  current st = Some o → hash st !! o = Some p → judge p = Some (Some k) →
  holdOk (viewOf st) (public given gs) (mkHold None None None (Some k) [] None).
Proof.
  intros Hc Hh Hj. split; cbn; [done|done| |intros x Hx; by apply elem_of_nil in Hx|done|done || by intros ? _ [? ?]].
  intros k' [= <-]. exists o. split; [done|]. by eapply redis_payOf_judge.
Qed.

Lemma dead_ok st given gs o :
  (o ≠ [] → public given gs o ∧ payOf st o = None) →
  holdOk (viewOf st) (public given gs) (mkHold None (if bool_decide (o = []) then None else Some o) None None [] None).
Proof.
  intros Hd. split; cbn; [done| |done|intros x Hx; by apply elem_of_nil in Hx|done|done || by intros ? _ [? ?]].
  case_bool_decide; [done|]. intros x [= <-]. auto.
Qed.

Lemma get_inv gs st given i g :
  stInv st given gs → gs !! i = Some g →
  ∃ g', (match current st with Some o => Some (mkHold (Some o) None None None [] None) | None => Some idle end) = Some g' ∧
        stInv st given (<[i := g']> gs).
Proof.
  intros Hi Hg. destruct (current st) as [o|] eqn:Hc; eexists; (split; [done|]); [|by eapply stInv_idle].
  eapply stInv_learn; [done|done|done|done|]. split; cbn; [|done|done|intros x Hx; by apply elem_of_nil in Hx|done|done || by intros ? _ [? ?]].
  intros x [= <-]. split; [|by left]. by apply (ri_cur _ _ _ (si_rot _ _ _ Hi)).
Qed.

(** What the payload of the current identifier teaches. *)
Lemma learn_inv gs st given i g o p nothing :
  stInv st given gs → gs !! i = Some g → current st = Some o → hash st !! o = Some p →
  (payOf st o = None → stInv st given (<[i := nothing]> gs)) →
  ∃ g', learn p nothing = Some g' ∧ stInv st given (<[i := g']> gs).
Proof.
  intros Hi Hg Hc Hh Hn. unfold learn. destruct (judge p) as [[k|]|] eqn:Hj; [| |by destruct (si_steady _ _ _ Hi o p Hh)];
    eexists; (split; [done|]).
  - eapply stInv_learn; [done|done|done|done|]. by eapply learned_ok.
  - apply Hn. by eapply redis_payOf_judge.
Qed.

Lemma hget_inv gs st given i g o :
  stInv st given gs → gs !! i = Some g →
  ∃ g', (match hash st !! o with
         | Some p => if bool_decide (saw g = Some o) then learn p idle
                     else match judge p with None => None | Some _ => Some idle end
         | None => Some idle
         end) = Some g' ∧ stInv st given (<[i := g']> gs).
Proof.
  intros Hi Hg. pose proof (stInv_idle _ _ _ _ _ Hi Hg) as Hidle. destruct (hash st !! o) as [p|] eqn:Hh; [|eauto].
  pose proof (si_steady _ _ _ Hi o p Hh) as Hs. case_bool_decide as Hsaw; [|destruct (judge p); eauto; done].
  destruct (ok_saw _ _ _ (ri_hold _ _ _ (si_rot _ _ _ Hi) i g Hg) o Hsaw) as [_ [Hc|Hp]]; [by eapply learn_inv|].
  cbn in Hp. unfold payOf in Hp. rewrite Hh in Hp. cbn in Hp. unfold learn. destruct (judge p) as [[k|]|]; [done|eauto|done].
Qed.

Lemma evalCurrent_inv gs st given i g :
  stInv st given gs → gs !! i = Some g →
  ∃ g', (match parseRedisKeyScriptResult Sscan (redisCurrentScript st) with
         | Ok (present, p, o) =>
             let nothing := mkHold None (if bool_decide (o = []) then None else Some o) None None [] None in
             if present then learn p nothing else Some nothing
         | Fail _ => Some idle
         end) = Some g' ∧ stInv st given (<[i := g']> gs).
Proof.
  intros Hi Hg. unfold redisCurrentScript. destruct (current st) as [o|] eqn:Hc; [|eexists; split; [done|]; by eapply stInv_idle].
  rewrite bool_decide_false by (intros ->; by destruct (si_current _ _ _ Hi)).
  assert (Hno : payOf st o = None →
    stInv st given (<[i := mkHold None (if bool_decide (o = []) then None else Some o) None None [] None]> gs)).
  { intros Hp. eapply stInv_learn; [done|done|done|done|]. apply dead_ok. intros _. split; [|done].
    by apply (ri_cur _ _ _ (si_rot _ _ _ Hi)). }
  destruct (hash st !! o) as [p|] eqn:Hh; cbn; [by eapply learn_inv|]. eexists. split; [done|]. apply Hno.
  unfold payOf. by rewrite Hh.
Qed.

(** The current identifier of a store that has no usable current key. *)
Lemma unsettled_store st : (∀ o, current st = Some o → payOf st o = None) → ∀ k, ¬ settled (viewOf st) k.
Proof. intros H k (o & Hc & Hp). cbn in *. rewrite H in Hp by done. done. Qed.

Hypothesis Httl : durationMillis (keyTTL r) ≤ 0 ∨ hi - lo ≤ durationMillis (keyTTL r).

(** A goroutine replaces an unusable current key by its own. *)
Lemma store_inv gs st given i g t c k :
  stInv st given gs → gs !! i = Some g → lo ≤ t < hi → mine g = Some (c_kid c) → c_kid c ≠ [] →
  c_ttl_ms c = durationMillis (keyTTL r) → judge (c_payload c) = Some (Some k) → (∀ k, ¬ settled (viewOf st) k) →
  stInv (storeCandidate t c st) given (<[i := mkHold None None None (Some k) [] None]> gs) ∧
  stInv (storeCandidate t c st) given (<[i := idle]> gs).
Proof.
  intros Hi Hg Ht Hm Hne Hms Hj Hu. destruct (storeCandidate_spec t c st) as (Hc & Hh & _ & Hr & Hd).
  assert (Hall : ∀ g', mine g' = None → stored g' = None → (∀ pub, holdOk (viewOf (storeCandidate t c st)) pub g') →
    stInv (storeCandidate t c st) given (<[i := g']> gs)).
  { intros g' Hm' Hs' Hok. split.
    - apply (rotInv_step (viewOf st) _ _ _ _ g); [apply Hi|done| |apply Hok].
      apply (Takes _ _ _ _ (c_kid c)); [done|done|done|done|cbn; rewrite (redis_payOf_judge _ _ _ _ Hh Hj); eauto|]. intros o. cbn. unfold payOf.
      destruct (decide (o = c_kid c)) as [->|Ho]; [auto|]. destruct (Hr o Ho) as [[-> _]|[-> _]]; auto.
    - intros o p Ho. destruct (decide (o = c_kid c)) as [->|Hoc]; [rewrite Hh in Ho; injection Ho as <-; by rewrite Hj|].
      destruct (Hr o Hoc) as [[Hx _]|[Hx _]]; rewrite Hx in Ho; [by eapply (si_steady _ _ _ Hi)|done].
    - rewrite Hc. congruence.
    - intros k' _. rewrite Hd, Hms. destruct (0 <? durationMillis (keyTTL r)) eqn:Hz; [|done]. apply Z.ltb_lt in Hz. lia.
    - apply stored_insert; [done|]. apply Hi. }
  split; apply Hall; try done; intros pub; [|apply idle_ok].
  split; cbn; [done|done| |intros x Hx; by apply elem_of_nil in Hx|done|done || by intros ? _ [? ?]]. intros k' [= <-]. exists (c_kid c). split; [done|]. by eapply redis_payOf_judge.
Qed.

Lemma evalRotate_inv gs st given i g t o c :
  stInv st given gs → gs !! i = Some g → lo ≤ t < hi → rotatePre (Some g) (EvalRotate o c) →
  (∃ g', (match parseRedisKeyScriptResult Sscan (redisRotateCASScript t o c st).1 with
          | Ok (present, p, _) => if present then learn p idle else Some idle
          | Fail _ => Some idle
          end) = Some g' ∧ stInv (redisRotateCASScript t o c st).2 given (<[i := g']> gs)) ∧
  stInv (redisRotateCASScript t o c st).2 given (<[i := idle]> gs).
Proof.
  intros Hi Hg Ht (Ho & Hm & Hne & Hms & k & Hj). pose proof (stInv_idle _ _ _ _ _ Hi Hg) as Hidle.
  assert (Hwrite : (∀ o, current st = Some o → payOf st o = None) →
    (∃ g', learn (c_payload c) idle = Some g' ∧ stInv (storeCandidate t c st) given (<[i := g']> gs)) ∧
    stInv (storeCandidate t c st) given (<[i := idle]> gs)).
  { intros Hu. destruct (store_inv gs st given i g t c k) as [H1 H2]; try done; [by apply unsettled_store|].
    split; [|done]. unfold learn. rewrite Hj. eauto. }
  unfold redisRotateCASScript, redisStoreScript. destruct (current st) as [cu|] eqn:Hc; [|by apply Hwrite].
  destruct (bool_decide (cu ≠ []) && bool_decide (cu ≠ o)) eqn:Hb.
  - destruct (hash st !! cu) as [p|] eqn:Hh; cbn [fst snd].
    + split; [|done]. cbn. destruct (bool_decide (p ≠ [])); [|eauto]. by eapply learn_inv.
    + apply Hwrite. intros x [= <-]. unfold payOf. by rewrite Hh.
  - apply Hwrite. intros x [= <-]. rewrite andb_false_iff, !bool_decide_eq_false in Hb.
    assert (cu ≠ []) by (intros ->; by destruct (si_current _ _ _ Hi)).
    assert (cu = o) as -> by (destruct Hb as [Hb|Hb]; [done|by apply dec_stable]).
    destruct Ho as [->|Ho]; [done|]. by apply (ok_dead _ _ _ (ri_hold _ _ _ (si_rot _ _ _ Hi) i g Hg)).
Qed.

Lemma redis_exec_rot lim n w hs i h c ch :
  redisInv n w hs → n < lim → allowed ch → hs !! i = Some h → rotatePre h c →
  match exec c ch w with Waits => True | Panics => False | Answers a w' => redisInv (n + 1) w' (<[i := rotatePost h c a]> hs) end.
Proof.
  intros Hi _ Ha Hh Hp. destruct h as [g|].
  2:{ destruct Hi as (gs & -> & _). rewrite list_lookup_fmap in Hh. by destruct (gs !! i). }
  destruct c; cbn [exec]; try done.
  - cbn. rewrite list_insert_id by done. destruct Hi as (gs & -> & Hi). by exists gs.
  - destruct Hi as (gs & -> & Hi). destruct Ha as [_ Ha].
    assert (Hg : gs !! i = Some g) by (rewrite list_lookup_fmap in Hh; by destruct (gs !! i); simplify_eq/=).
    destruct (ch_create ch) as [[k|]|e]; cbn [rotatePost]; [|by rewrite list_insert_id by done; exists gs..].
    case_bool_decide as Hk; [done|]. rewrite (Ha k eq_refl).
    exists (<[i := mkHold (saw g) (dead g) (Some (kid k)) (sure g) (cut g) None]> gs). split; [by rewrite list_fmap_insert|].
    destruct Hi as [Hr Hs Hc Hf Hst]. split; [by apply rotInv_create|done..|by apply stored_insert].
  - apply (onRedis_rot (λ st, (current st, st)) (λ a, match a with Some o => Some (mkHold (Some o) None None None [] None) | None => Some idle end) n w hs i g); try done.
    intros gs st Hs Hg. split; [by eapply get_inv|by eapply stInv_idle].
  - apply (onRedis_rot (λ st, (hash st !! kid, st)) (λ a, match a with
          | Some p => if bool_decide (saw g = Some kid) then learn p idle else match judge p with None => None | Some _ => Some idle end
          | None => Some idle end) n w hs i g); try done.
    intros gs st Hs Hg. split; [by eapply hget_inv|by eapply stInv_idle].
  - apply (onRedis_rot _ (λ values, rotatePost (Some g) EvalCurrent (Ok values)) n w hs i g); try done.
    intros gs st Hs Hg. split; [by eapply evalCurrent_inv|by eapply stInv_idle].
  - apply (onRedis_rot _ (λ values, rotatePost (Some g) (EvalRotate observedKID c) (Ok values)) n w hs i g); try done.
    intros gs st Hs Hg. apply (evalRotate_inv gs st _ i g); try done. apply Ha.
Qed.

Lemma redis_started_rot st given calls :
  current st ≠ Some [] → (∀ o, current st = Some o → o ∈ given) → (∀ o p, hash st !! o = Some p → judge p ≠ None) →
  (∀ k, settled (viewOf st) k → match deadline st with None => True | Some d => hi ≤ d end) → Forall rotates calls →
  good rotatePre rotatePost rotateFinal redisInv 0 (started sha256 Sscan (Some r) st given calls).
Proof.
  intros Hc Hg Hs Hf Hx. split; [done|]. exists (replicate (length calls) (Some idle)). split.
  - exists (replicate (length calls) idle). split; [by rewrite fmap_replicate|]. split; try done; [by apply rotInv_start|by intros i g [-> _]%lookup_replicate_1].
  - cbn [started procs]. apply Forall2_fmap_r, Forall2_replicate_l; [done|].
    eapply Forall_impl; [exact Hx|]. intros x Hr. by apply redis_callProc_rotates.
Qed.
End agreement.

(** ** jwt: properties of the Redis key repository

    Rotations agree, a store stays bounded and keeps its current key; and what
    happens when a key is too large for the reader. *)

Section redis.
Context {R : CryptoRSA} {J : KeyJSON}.

(** The key that the pointer of a store leads to. *)
Definition redisCurrent (r : redisRepositoryOptions) (st : store) : option KeyChain :=
  o ← current st; p ← hash st !! o;
  match decodeRedisKeyChain p (maxKeyBytes r) with Ok k => Some k | Fail _ => None end.

Lemma settled_redis r t0 t1 st k : settled (viewOf r t0 t1 st) k → redisCurrent r st = Some k.
Proof.
  intros (o & Hc & Hp). cbn in *. unfold payOf in Hp. unfold redisCurrent. rewrite Hc. cbn.
  destruct (hash st !! o) as [p|]; [|done]. cbn in *. destruct (judge _ t0 t1 p) as [[k'|]|] eqn:Hj; try done. injection Hp as ->.
  by rewrite (judge_decode _ _ _ _ _ Hj).
Qed.

(** A store in which no key expires between two clocks. *)
Definition steadyStore (r : redisRepositoryOptions) (t0 t1 : Z) (st : store) : Prop :=
  ∀ o p k, hash st !! o = Some p → decodeRedisKeyChain p (maxKeyBytes r) = Ok k → Expired (Some k) t0 = Expired (Some k) t1.

(** What the environment may do in a step: the clock of the server is between
    [lo] and [hi], and a key that is made is well formed, lasts until [t1] and
    is not too large for the readers. *)
Definition redisFair (r : redisRepositoryOptions) (t1 lo hi : Z) (ch : choice) : Prop :=
  lo ≤ ch_time ch < hi ∧ ∀ k, ch_create ch = Ok (Some k) → fairKey (maxKeyBytes r) t1 k.
(** The choices of a step that goes well. *)
Definition smooth (k : KeyChain) : choice := mkChoice None (Ok (Some k)) 0 None.
End redis.

(** C6. Rotations of a Redis key repository agree: any number of [Rotate],
    [Current] and [Find] calls that run at the same time, with clocks between
    [t0] and [t1] in which no stored key expires, with failures of Redis before
    or after their effect and cancellations at any point, that give a key as
    the current one give the same, and it is the current key of the store.  The
    expiry of the store may be as short as the window of the server's clock. *)
Theorem redis_rotations_agree {R : CryptoRSA} {J : KeyJSON} {RL : CryptoRSALaws} {JL : KeyJSONLaws}
    sha256 Sscan r t0 t1 lo hi st given calls sched x :
  t0 ≤ t1 → (durationMillis (keyTTL r) ≤ 0 ∨ hi - lo ≤ durationMillis (keyTTL r)) →
  current st ≠ Some [] → (∀ o, current st = Some o → o ∈ given) → steadyStore r t0 t1 st →
  match deadline st with None => True | Some d => hi ≤ d end →
  Forall (rotates t0 t1) calls → Forall (λ s, redisFair r t1 lo hi s.2) sched →
  run exec sched (started sha256 Sscan (Some r) st given calls) = Some x →
  (∀ i k, procs x !! i = Some (Ret (OKey (Ok k))) → redisCurrent r (redis (shared x)) = Some k) ∧
  (∀ i j k k', procs x !! i = Some (Ret (OKey (Ok k))) → procs x !! j = Some (Ret (OKey (Ok k'))) → k = k').
Proof.
  intros Ht Httl Hc Hg Hs Hd Hx Hf Hr.
  assert (Hgood : good (rotatePre r t0 t1) (rotatePost Sscan r t0 t1) rotateFinal (redisInv r t0 t1 hi) (0 + Z.of_nat (length sched)) x).
  { apply (run_good exec _ _ _ _ (Z.of_nat (length sched)) (allowed r t0 t1 lo hi)
             (redis_exec_rot Sscan r t0 t1 lo hi Httl (Z.of_nat (length sched))) sched 0 (started sha256 Sscan (Some r) st given calls)); [|lia| |done].
    - apply redis_started_rot; try done. intros o p Ho. apply steady_judge. intros k. apply (Hs o p k Ho).
    - eapply Forall_impl; [exact Hf|]. intros [i ch] [H1 H2]. split; [done|]. intros k Hk. by apply fairKey_good, H2. }
  assert (Hall : ∀ i k, procs x !! i = Some (Ret (OKey (Ok k))) → redisCurrent r (redis (shared x)) = Some k).
  { intros i k Hi. destruct Hgood as (_ & hs & (gs & -> & Hinv) & Hk). destruct (Forall2_lookup_r _ _ _ _ _ Hk Hi) as (h & Hh & Hfin).
    rewrite list_lookup_fmap in Hh. destruct (gs !! i) as [g|] eqn:Hgi; [|done]. injection Hh as <-. cbn in Hfin.
    eapply settled_redis. by apply (ok_sure _ _ _ (ri_hold _ _ _ (si_rot _ _ _ _ _ _ _ Hinv) i g Hgi)). }
  split; [done|]. intros i j k k' H1%Hall H2%Hall. congruence.
Qed.

(** The store of a Redis key repository stays bounded and whole: whatever
    methods run at the same time, whatever fails and whatever the clocks say,
    there are never more keys than the capacity, the hash and the sorted set
    have the same keys, and the pointer leads to one of them. *)
Theorem redis_store_whole {R : CryptoRSA} {J : KeyJSON} sha256 Sscan r st given calls sched x :
  1 ≤ capacity r → storeWf st → Z.of_nat (size (order st)) ≤ capacity r →
  run exec sched (started sha256 Sscan (Some r) st given calls) = Some x →
  let st' := redis (shared x) in
  Z.of_nat (size (order st')) ≤ capacity r ∧ dom (hash st') = dom (order st') ∧
  (∀ o, current st' = Some o → is_Some (hash st' !! o)).
Proof.
  intros Hcap Hst Hsz Hr.
  assert (Hgood : good (writesWith r) (λ _ _ _, tt) (λ _ _, True) (storeInv r) (0 + Z.of_nat (length sched)) x).
  { apply (run_good exec (writesWith r) (λ _ _ _, tt) (λ _ _, True) (storeInv r) (Z.of_nat (length sched)) (λ _, True)
             (exec_storeInv r Hcap (Z.of_nat (length sched))) sched 0 (started sha256 Sscan (Some r) st given calls)); [|lia|by apply Forall_true|done].
    split; [done|]. exists (replicate (length calls) tt). split; [done|]. cbn [started procs].
    apply Forall2_fmap_r, Forall2_replicate_l; [done|]. apply Forall_true. intros y. apply callProc_writes. }
  destruct Hgood as (_ & hs & [[Hd Hc] Hs] & _). cbn. split; [done|]. split; [done|]. intros o Ho. by apply elem_of_dom, Hc.
Qed.

(** ** A key that is too large for the reader *)

(** Runs the commands of a call whose choices are given. *)
Ltac steps := cbn -[Expired validateKeyTTL encodeRedisKeyChain storeCandidate decodeRedisKeyChain candidateOf live].

(** A forced rotation that fails because the new key is too large for the
    reader has replaced the current key all the same: the answer is
    [ErrInvalidKey], but the pointer of the store leads to the key that no
    reader accepts, so the repository has no current key any more. *)
Theorem oversized_key_replaces_current {R : CryptoRSA} {J : KeyJSON} sha256 Sscan r st given now k payload :
  0 < maxKeyBytes r → kid k ∉ given → Expired (Some k) now = false → validateKeyTTL r k = None →
  encodeRedisKeyChain (Some k) = Ok payload → maxKeyBytes r < Z.of_nat (length payload) →
  ∃ x err, run exec (replicate 7 (0%nat, smooth k)) (started sha256 Sscan (Some r) st given [CForced true true now]) = Some x ∧
    procs x = [Ret (OKey (Fail err))] ∧ errors_Is err ErrInvalidKey = true ∧
    current (redis (shared x)) = Some (kid k) ∧ redisCurrent r (redis (shared x)) = None.
Proof.
  intros Hpos Hnew He Httl Henc Hlen.
  assert (Hdec : decodeRedisKeyChain payload (maxKeyBytes r) = Fail (KeyError ErrInvalidKey [] (errorsNew "redis key payload exceeds max key bytes"))).
  { unfold decodeRedisKeyChain. rewrite (proj2 (Z.leb_gt _ _)) by lia. by rewrite (proj2 (Z.ltb_lt _ _)). }
  do 2 eexists. split; [|split; [|split; [|split]]].
  - cbn [replicate run step started procs shared fmap list_fmap callProc lookup list_lookup mbind option_bind].
    steps. rewrite bool_decide_false by done. steps. rewrite He, Httl, Henc. steps. unfold decodeStoreScriptResult, usableKey. steps. reflexivity.
  - cbn [procs]. change (c_payload (candidateOf r k payload)) with payload. rewrite Hdec. reflexivity.
  - reflexivity.
  - exact (proj1 (storeCandidate_spec 0 (candidateOf r k payload) (live 0 st))).
  - cbn [redis shared]. unfold redisCurrent. destruct (storeCandidate_spec 0 (candidateOf r k payload) (live 0 st)) as (-> & Hh & _). cbn in *.
    rewrite Hh. cbn. by rewrite Hdec.
Qed.

(** ** A sample: two rotations that both find no key *)

#[local] Existing Instances sampleRSA sampleJSON sampleRSALaws sampleJSONLaws.

Definition sampleKeys : redisRepositoryKeys :=
  mkRepoKeys (mkKey (lit "meta") []) (mkKey (lit "current") []) (mkKey (lit "keys") []) (mkKey (lit "order") []).
Definition sampleRepo : redisRepositoryOptions := mkRepo (lit "ns") sampleKeys 2 0 0 4096.
Definition noScan (_ : bytes) : result Z := Fail (errorsNew "not a number").

Definition twoRotations : list (nat * choice) :=
  replicate 7 (0%nat, smooth (key "a" 0)) ++ replicate 7 (1%nat, smooth (key "b" 5)) ++
  [(0%nat, smooth (key "a" 0)); (1%nat, smooth (key "b" 5))].

Definition sampleSystem : system resp world outcome :=
  started zeroSha noScan (Some sampleRepo) emptyStore ∅ [CRotate true true 10; CRotate true true 20].

Lemma redis_rotations_agree_witness :
  ∃ x, run exec twoRotations sampleSystem = Some x ∧
       procs x = [Ret (OKey (Ok (key "a" 0))); Ret (OKey (Ok (key "a" 0)))] ∧
       redisCurrent sampleRepo (redis (shared x)) = Some (key "a" 0).
Proof.
  eexists. split; [vm_compute; reflexivity|]. split; [reflexivity|].
  refine (proj1 (redis_rotations_agree zeroSha noScan sampleRepo 10 20 0 1 emptyStore ∅
                   [CRotate true true 10; CRotate true true 20] twoRotations _ _ _ _ _ _ _ _ _ _) 0%nat (key "a" 0) _);
    [lia|left; vm_compute; discriminate|discriminate|discriminate| |exact I| | |vm_compute; reflexivity|reflexivity].
  - intros o p k Ho. vm_compute in Ho. discriminate.
  - repeat constructor; cbn; lia.
  - assert (Ha : redisFair sampleRepo 20 0 1 (smooth (key "a" 0))).
    { split; [cbn; lia|]. intros k [= <-]. apply key_fair; [reflexivity|lia..|vm_compute; discriminate]. }
    assert (Hb : redisFair sampleRepo 20 0 1 (smooth (key "b" 5))).
    { split; [cbn; lia|]. intros k [= <-]. apply key_fair; [reflexivity|lia..|vm_compute; discriminate]. }
    unfold twoRotations. apply Forall_app. split; [by apply Forall_replicate|]. apply Forall_app. split; [by apply Forall_replicate|].
    apply Forall_cons. split; [exact Ha|]. apply Forall_cons. split; [exact Hb|by apply Forall_nil].
Defined.


(** A reader with the least limit, and a key with a secret of 1024 bytes. *)
Definition largeKey : KeyChain :=
  mkKeyChain (lit "big") HS256 0 1000 (Secret (repeat 7 1024)) (Secret (repeat 7 1024)).
Definition smallRepo : redisRepositoryOptions := mkRepo (lit "ns") sampleKeys 2 0 0 1024.

Definition largePayload : bytes := match encodeRedisKeyChain (Some largeKey) with Ok p => p | Fail _ => [] end.

Lemma oversized_key_replaces_current_witness :
  wellFormed largeKey ∧ ∃ payload, encodeRedisKeyChain (Some largeKey) = Ok payload ∧ maxKeyBytes smallRepo < Z.of_nat (length payload) ∧
  ∃ x err, run exec (replicate 7 (0%nat, smooth largeKey)) (started zeroSha noScan (Some smallRepo) emptyStore ∅ [CForced true true 10]) = Some x ∧
    procs x = [Ret (OKey (Fail err))] ∧ errors_Is err ErrInvalidKey = true ∧
    current (redis (shared x)) = Some (kid largeKey) ∧ redisCurrent smallRepo (redis (shared x)) = None.
Proof.
  split.
  { split; [reflexivity|vm_compute; split; [discriminate|reflexivity]|]. left. exists (repeat 7 1024). split; [reflexivity|]. split; [|done].
    apply Forall_forall. intros x Hx. apply list_elem_of_In, repeat_spec in Hx as ->. done. }
  exists largePayload. split; [reflexivity|]. split; [vm_compute; reflexivity|].
  apply (oversized_key_replaces_current zeroSha noScan smallRepo emptyStore ∅ 10 largeKey largePayload);
    [vm_compute; reflexivity|intros H; by apply elem_of_empty in H|reflexivity|reflexivity|reflexivity|vm_compute; reflexivity].
Defined.
