(* ===== verification/JwtMongo.v ===== *)
(** * jwt: the MongoDB key repository

    Models [src/jwt/mongo_options.go] and [mongo_repository.go].

    The documents of a repository are the pointer to the current key and one
    document per key; the [_id] of a document is made from the namespace and
    the key identifier ([keyID_injective]), so a key document is found by its
    identifier.  The driver keeps milliseconds of a time.

    A rotation is not one transaction here: the document of the key, the
    pointer and the trimming are commands of their own, and other calls may
    come in between.  A list of documents is read at once. *)

From S2P Require Import Prelude GoError GoText Core GoEncoding RedisKey Process JwtKey JwtRotation JwtRedis.

Local Open Scope Z_scope.

(** ** Options *)

Definition defaultMongoCollection : text := lit "jwt_keychains".
Definition defaultMongoMaxKeyBytes : Z := defaultRedisMaxKeyBytes.
Definition minMongoMaxKeyBytes : Z := minRedisMaxKeyBytes.
Definition maxMongoMaxKeyBytes : Z := maxRedisMaxKeyBytes.

Definition validateMongoName (option_ : string) (value : text) : option error :=
  if ContainsAny value [0; 47; 92; 46; 36; 32]
  then Some (OptionError option_ (Errorf "must not contain null, slash, backslash, dot, dollar, or space" []))
  else None.

Record MongoRepositoryOptions : Type := mkMongoOptions {
  mo_Client : bool;
  mo_Database : text;
  mo_Collection : text;
  mo_Namespace : text;
  mo_Capacity : Z;
  mo_MaxKeyBytes : Z
}.

Record mongoRepositoryOptions : Type := mkMongo {
  database : text;
  collection : text;
  namespace : text;
  capacity : Z;
  maxKeyBytes : Z
}.

Definition normalizeOptions (o : MongoRepositoryOptions) : result mongoRepositoryOptions :=
  if negb (mo_Client o) then Fail (OptionError "client" (errorsNew "must not be nil"))
  else
    let database := TrimSpace (mo_Database o) in
    if bool_decide (database = []) then Fail (OptionError "database" (errorsNew "must not be empty"))
    else match validateMongoName "database" database with
    | Some err => Fail err
    | None =>
        let collection := if bool_decide (TrimSpace (mo_Collection o) = []) then defaultMongoCollection else TrimSpace (mo_Collection o) in
        match validateMongoName "collection" collection with
        | Some err => Fail err
        | None =>
            match normalizeRedisNamespace (mo_Namespace o) with
            | Fail err => Fail err
            | Ok namespace =>
                let capacity := if mo_Capacity o =? 0 then defaultRepositorySize else mo_Capacity o in
                if (capacity <? minRepositorySize) || (maxRepositorySize <? capacity)
                then Fail (OptionError "capacity" (errorsNew "outside repository capacity bounds"))
                else
                  let maxKeyBytes := if mo_MaxKeyBytes o =? 0 then defaultMongoMaxKeyBytes else mo_MaxKeyBytes o in
                  if (maxKeyBytes <? minMongoMaxKeyBytes) || (maxMongoMaxKeyBytes <? maxKeyBytes)
                  then Fail (OptionError "max_key_bytes" (errorsNew "outside mongo key payload bounds"))
                  else Ok (mkMongo database collection namespace capacity maxKeyBytes)
            end
        end
    end.

Definition NewMongoRepository (o : MongoRepositoryOptions) : result mongoRepositoryOptions := normalizeOptions o.

Definition currentID (r : mongoRepositoryOptions) : text := namespace r ++ lit ":current".
Definition keyID (r : mongoRepositoryOptions) (kid : bytes) : text := namespace r ++ lit ":key:" ++ kid.

(** ** Documents *)

Record mongoKeyDocument : Type := mkDoc {
  d_KID : bytes;
  d_Payload : bytes;
  d_CreatedAt : Z;
  d_ExpiresAt : Z
}.

(** The pointer, and the key documents by identifier. *)
Record documents : Type := mkDocuments { pointer : option bytes; keyDocs : gmap bytes mongoKeyDocument }.

Definition DateTime (t : Z) : Z := t / 1000000.

(** The order of [trim]: the newest first, then by identifier. *)
Definition newestFirst (x y : mongoKeyDocument) : Prop :=
  d_CreatedAt y < d_CreatedAt x ∨ (d_CreatedAt x = d_CreatedAt y ∧ text_lt (d_KID y) (d_KID x) = false).
#[export] Instance newestFirst_decision x y : Decision (newestFirst x y).
Proof. unfold newestFirst. apply _. Defined.

Definition sortedDocs (ds : documents) : list mongoKeyDocument := merge_sort newestFirst (map_to_list (keyDocs ds)).*2.

(** The loop of [trim] over the cursor: the identifiers to remove. *)
Fixpoint trimLoop (keepKID : bytes) (otherCapacity : Z) (docs : list mongoKeyDocument) (retainedOthers : Z) : list bytes :=
  match docs with
  | [] => []
  | doc :: rest =>
      if bool_decide (d_KID doc = keepKID) then trimLoop keepKID otherCapacity rest retainedOthers
      else if retainedOthers <? otherCapacity then trimLoop keepKID otherCapacity rest (retainedOthers + 1)
      else d_KID doc :: trimLoop keepKID otherCapacity rest retainedOthers
  end.

(** ** The repository as processes *)

Section repository.
Context {R : CryptoRSA} {J : KeyJSON}.

(** How an upsert that must insert the pointer ends. *)
Inductive insertion : Type :=
| Upserted (inserted : bool)
| DuplicateKey.

Inductive cmd : Type :=
| CtxErr
| Create
| FindPointer
| FindKey (kid : bytes)
| UpsertKey (doc : mongoKeyDocument)
| InsertPointer (kid : bytes)
| SwapPointer (observedKID kid : bytes)
| SetPointer (kid : bytes)
| DeleteOne (kid : bytes)
| FindKeys
| DeleteMany (kids : list bytes)
| DeleteNamespace
| Wait.

(** [None] is [mongo.ErrNoDocuments]; [Wait] answers with the error of the
    context, or nothing when the timer has fired. *)
Definition resp (c : cmd) : Type :=
  match c with
  | CtxErr | Wait => option error
  | Create => result (option KeyChain)
  | FindPointer => result (option bytes)
  | FindKey _ => result (option mongoKeyDocument)
  | InsertPointer _ => result insertion
  | SwapPointer _ _ => result bool
  | FindKeys => result (list mongoKeyDocument)
  | UpsertKey _ | SetPointer _ | DeleteOne _ | DeleteMany _ | DeleteNamespace => result unit
  end.

Notation proc := (prog resp).

Definition requireContext (ctx : bool) : proc (option error) :=
  if ctx then act CtxErr else mret (Some (OptionError "context" (errorsNew "must not be nil"))).

Definition createWithContext (ctx : bool) : proc (result (option KeyChain)) :=
  err ← requireContext ctx;
  match err with
  | Some err => mret (Fail err)
  | None =>
      created ← act Create;
      match created with
      | Fail err => mret (Fail err)
      | Ok key =>
          err ← requireContext ctx;
          match err with
          | Some err => mret (Fail err)
          | None => mret (Ok key)
          end
      end
  end.

Context (repo : option mongoRepositoryOptions).

Definition validateReady (ctx : bool) : proc (result mongoRepositoryOptions) :=
  match repo with
  | None => mret (Fail (OptionError "repository" (errorsNew "must be constructed by a constructor")))
  | Some r =>
      err ← requireContext ctx;
      mret (match err with Some err => Fail err | None => Ok r end)
  end.

Definition findPayload (r : mongoRepositoryOptions) (kid : bytes) (now : Z) : proc (result KeyChain) :=
  found ← act (FindKey kid);
  mret match found with
       | Ok None => Fail (KeyError ErrKeyNotFound kid (errorsNew "key not found"))
       | Fail err => Fail (Errorf "mongo jwt find key: %w" [err])
       | Ok (Some doc) => usableKey (maxKeyBytes r) (d_Payload doc) kid now
       end.

Definition currentKID : proc (result bytes) :=
  found ← act FindPointer;
  mret match found with
       | Ok None => Fail (KeyError ErrKeyNotFound [] (errorsNew "current key not found"))
       | Fail err => Fail (Errorf "mongo jwt current: %w" [err])
       | Ok (Some kid) =>
           if bool_decide (kid = []) then Fail (KeyError ErrKeyNotFound [] (errorsNew "current key not found")) else Ok kid
       end.

(** The identifier that was observed comes with the key or the error. *)
Definition currentPayload (r : mongoRepositoryOptions) (now : Z) : proc (bytes * result KeyChain) :=
  current ← currentKID;
  match current with
  | Fail err => mret ([], Fail err)
  | Ok kid => key ← findPayload r kid now; mret (kid, key)
  end.

Definition Current (ctx : bool) (now : Z) : proc (result KeyChain) :=
  ready ← validateReady ctx;
  match ready with
  | Fail err => mret (Fail err)
  | Ok r =>
      current ← currentKID;
      match current with
      | Fail err => mret (Fail err)
      | Ok kid => findPayload r kid now
      end
  end.

Definition Find (ctx : bool) (kid : bytes) (now : Z) : proc (result KeyChain) :=
  ready ← validateReady ctx;
  match ready with
  | Fail err => mret (Fail err)
  | Ok r =>
      match validateLookupKID kid with
      | Some err => mret (Fail err)
      | None => findPayload r kid now
      end
  end.

Definition prepareStoreDocument (r : mongoRepositoryOptions) (ctx : bool) (key : option KeyChain) (now : Z)
    : proc (result mongoKeyDocument) :=
  err ← requireContext ctx;
  match err with
  | Some err => mret (Fail err)
  | None =>
      match key with
      | None => mret (Fail (KeyError ErrInvalidKey [] (errorsNew "key must not be nil")))
      | Some k =>
          if Expired (Some k) now then mret (Fail (KeyError ErrInvalidKey (kid k) (errorsNew "key expired")))
          else match encodeRedisKeyChain (Some k) with
          | Fail err => mret (Fail err)
          | Ok payload =>
              if maxKeyBytes r <? Z.of_nat (length payload)
              then mret (Fail (KeyError ErrInvalidKey (kid k) (errorsNew "mongo key payload exceeds max key bytes")))
              else
                err ← requireContext ctx;
                mret (match err with
                      | Some err => Fail err
                      | None => Ok (mkDoc (kid k) payload (DateTime (createdAt k)) (DateTime (expiresAt k)))
                      end)
          end
      end
  end.

Definition upsertKey (doc : mongoKeyDocument) : proc (option error) :=
  done_ ← act (UpsertKey doc);
  mret match done_ with Fail err => Some (Errorf "mongo jwt store key: %w" [err]) | Ok _ => None end.

Definition deleteKey (kid : bytes) : proc (option error) :=
  done_ ← act (DeleteOne kid);
  mret match done_ with Fail err => Some (Errorf "mongo jwt delete key: %w" [err]) | Ok _ => None end.

Definition setCurrent (kid : bytes) : proc (option error) :=
  match validateLookupKID kid with
  | Some err => mret (Some err)
  | None =>
      done_ ← act (SetPointer kid);
      mret match done_ with Fail err => Some (Errorf "mongo jwt set current: %w" [err]) | Ok _ => None end
  end.

Definition compareAndSetCurrent (observedKID kid : bytes) : proc (result bool) :=
  if bool_decide (observedKID = []) then
    inserted ← act (InsertPointer kid);
    mret match inserted with
         | Ok DuplicateKey => Ok false
         | Ok (Upserted b) => Ok b
         | Fail err => Fail (Errorf "mongo jwt rotate current: %w" [err])
         end
  else
    matched ← act (SwapPointer observedKID kid);
    mret match matched with
         | Fail err => Fail (Errorf "mongo jwt rotate current: %w" [err])
         | Ok b => Ok b
         end.

(** The three steps of the listing ([Find], [Decode], the cursor's error) wrap
    their error alike. *)
Definition trim (r : mongoRepositoryOptions) (keepKID : bytes) : proc (option error) :=
  docs ← act FindKeys;
  match docs with
  | Fail err => mret (Some (Errorf "mongo jwt trim list: %w" [err]))
  | Ok docs =>
      let otherCapacity := if bool_decide (keepKID ≠ []) then capacity r - 1 else capacity r in
      let removeIDs := trimLoop keepKID otherCapacity docs 0 in
      if bool_decide (removeIDs = []) then mret None
      else
        done_ ← act (DeleteMany removeIDs);
        mret match done_ with Fail err => Some (Errorf "mongo jwt trim delete: %w" [err]) | Ok _ => None end
  end.

Fixpoint afterCASLoop (n : nat) (ctx : bool) (now : Z) (lastErr : error) : proc (result KeyChain) :=
  match n with
  | O => mret (Fail lastErr)
  | S n =>
      current ← Current ctx now;
      match current with
      | Ok key => mret (Ok key)
      | Fail err =>
          if negb (errors_Is err ErrKeyNotFound) then mret (Fail err)
          else
            waited ← act Wait;
            match waited with
            | Some err => mret (Fail err)
            | None => afterCASLoop n ctx now err
            end
      end
  end.

(** [lastErr] is set in the first round. *)
Definition currentAfterCAS (ctx : bool) (now : Z) : proc (result KeyChain) :=
  afterCASLoop 10 ctx now (errorsNew "nil").

Definition storeCAS (r : mongoRepositoryOptions) (ctx : bool) (observedKID : bytes) (key : option KeyChain) (now : Z)
    : proc (result KeyChain) :=
  prepared ← prepareStoreDocument r ctx key now;
  match prepared with
  | Fail err => mret (Fail err)
  | Ok doc =>
      err ← upsertKey doc;
      match err with
      | Some err => mret (Fail err)
      | None =>
          won ← compareAndSetCurrent observedKID (KID key);
          match won with
          | Fail err => mret (Fail err)
          | Ok false => _ ← deleteKey (KID key); currentAfterCAS ctx now
          | Ok true =>
              err ← trim r (KID key);
              match err with
              | Some err => mret (Fail err)
              | None => findPayload r (KID key) now
              end
          end
      end
  end.

Definition storeKey (r : mongoRepositoryOptions) (ctx : bool) (key : option KeyChain) (now : Z) : proc (result KeyChain) :=
  prepared ← prepareStoreDocument r ctx key now;
  match prepared with
  | Fail err => mret (Fail err)
  | Ok doc =>
      err ← upsertKey doc;
      match err with
      | Some err => mret (Fail err)
      | None =>
          err ← setCurrent (KID key);
          match err with
          | Some err => mret (Fail err)
          | None =>
              err ← trim r (KID key);
              match err with
              | Some err => mret (Fail err)
              | None => findPayload r (KID key) now
              end
          end
      end
  end.

Definition Rotate (ctx create : bool) (now : Z) : proc (result KeyChain) :=
  ready ← validateReady ctx;
  match ready with
  | Fail err => mret (Fail err)
  | Ok r =>
      if negb create then mret (Fail (OptionError "create" (errorsNew "must not be nil")))
      else
        '(observedKID, current) ← currentPayload r now;
        match current with
        | Ok key => mret (Ok key)
        | Fail err =>
            if negb (errors_Is err ErrKeyNotFound) && negb (errors_Is err ErrInvalidKey) then mret (Fail err)
            else
              made ← createWithContext ctx;
              match made with
              | Fail err => mret (Fail err)
              | Ok key => storeCAS r ctx observedKID key now
              end
        end
  end.

Definition ForcedRotate (ctx create : bool) (now : Z) : proc (result KeyChain) :=
  ready ← validateReady ctx;
  match ready with
  | Fail err => mret (Fail err)
  | Ok r =>
      if negb create then mret (Fail (OptionError "create" (errorsNew "must not be nil")))
      else
        made ← createWithContext ctx;
        match made with
        | Fail err => mret (Fail err)
        | Ok key => storeKey r ctx key now
        end
  end.

Definition DeleteAll (ctx : bool) : proc (option error) :=
  ready ← validateReady ctx;
  match ready with
  | Fail err => mret (Some err)
  | Ok r =>
      done_ ← act DeleteNamespace;
      mret match done_ with Fail err => Some (Errorf "mongo jwt delete all: %w" [err]) | Ok _ => None end
  end.

(** ** Commands *)

(** What the environment chooses for a command: what the context says, what
    [create] gives, whether the driver fails, with or without the effect of
    the command, and whether an insertion that comes late is told so by an
    error. *)
Record choice : Type := mkChoice {
  ch_ctx : option error;
  ch_create : result (option KeyChain);
  ch_fail : option (error * bool);
  ch_duplicate : bool
}.

Record world : Type := mkWorld { mongo : documents; issued : gset bytes }.

Definition onMongo {A} (ch : choice) (w : world) (f : documents → A * documents) : effect world (result A) :=
  let '(a, ds) := f (mongo w) in
  match ch_fail ch with
  | None => Answers (Ok a) (mkWorld ds (issued w))
  | Some (err, applied) => Answers (Fail err) (mkWorld (if applied then ds else mongo w) (issued w))
  end.

Definition deleteKeys (kids : list bytes) (m : gmap bytes mongoKeyDocument) : gmap bytes mongoKeyDocument :=
  foldr delete m kids.

Definition exec (c : cmd) (ch : choice) (w : world) : effect world (resp c) :=
  match c return effect world (resp c) with
  | CtxErr | Wait => Answers (ch_ctx ch) w
  | Create =>
      match ch_create ch with
      | Ok (Some k) =>
          if bool_decide (kid k ∈ issued w) then Waits
          else Answers (Ok (Some k)) (mkWorld (mongo w) ({[kid k]} ∪ issued w))
      | other => Answers other w
      end
  | FindPointer => onMongo ch w (λ ds, (pointer ds, ds))
  | FindKey kid => onMongo ch w (λ ds, (keyDocs ds !! kid, ds))
  | UpsertKey doc => onMongo ch w (λ ds, (tt, mkDocuments (pointer ds) (<[d_KID doc := doc]> (keyDocs ds))))
  | InsertPointer kid => onMongo ch w (λ ds,
      match pointer ds with
      | None => (Upserted true, mkDocuments (Some kid) (keyDocs ds))
      | Some _ => (if ch_duplicate ch then DuplicateKey else Upserted false, ds)
      end)
  | SwapPointer observedKID kid => onMongo ch w (λ ds,
      if bool_decide (pointer ds = Some observedKID) then (true, mkDocuments (Some kid) (keyDocs ds)) else (false, ds))
  | SetPointer kid => onMongo ch w (λ ds, (tt, mkDocuments (Some kid) (keyDocs ds)))
  | DeleteOne kid => onMongo ch w (λ ds, (tt, mkDocuments (pointer ds) (delete kid (keyDocs ds))))
  | FindKeys => onMongo ch w (λ ds, (sortedDocs ds, ds))
  | DeleteMany kids => onMongo ch w (λ ds, (tt, mkDocuments (pointer ds) (deleteKeys kids (keyDocs ds))))
  | DeleteNamespace => onMongo ch w (λ _, (tt, mkDocuments None ∅))
  end.

Inductive call_ : Type :=
| CCurrent (ctx : bool) (now : Z)
| CFind (ctx : bool) (kid : bytes) (now : Z)
| CRotate (ctx create : bool) (now : Z)
| CForced (ctx create : bool) (now : Z)
| CDeleteAll (ctx : bool).

Inductive outcome : Type :=
| OKey (r : result KeyChain)
| OFound (r : result KeyChain)
| OUnit (err : option error).

Definition callProc (x : call_) : proc outcome :=
  match x with
  | CCurrent ctx now => OKey <$> Current ctx now
  | CFind ctx kid now => OFound <$> Find ctx kid now
  | CRotate ctx create now => OKey <$> Rotate ctx create now
  | CForced ctx create now => OKey <$> ForcedRotate ctx create now
  | CDeleteAll ctx => OUnit <$> DeleteAll ctx
  end.

Definition started (ds : documents) (given : gset bytes) (calls : list call_) : system resp world outcome :=
  mkSystem (mkWorld ds given) (callProc <$> calls) false.
End repository.

(** Documents of different keys and the pointer have different identifiers. *)
Lemma keyID_injective r kid kid' : keyID r kid = keyID r kid' → kid = kid'.
Proof. unfold keyID. intros H%app_inv_head%app_inv_head. done. Qed.

Lemma keyID_not_current r kid : keyID r kid ≠ currentID r.
Proof. unfold keyID, currentID. intros H%app_inv_head. discriminate. Qed.
