(* ===== verification/JwtMongoLaws.v ===== *)
(** * jwt: laws of the MongoDB key repository

    Rotations that run at the same time agree on one key, although a rotation
    is several commands: the documents of the losers may be removed by the
    winner's trimming, and their pointers never show. *)

From S2P Require Import Prelude GoError GoText Core GoEncoding Process JwtKey JwtRotation JwtMongo.

Local Open Scope Z_scope.

Section agreement.
Context {R : CryptoRSA} {J : KeyJSON} (r : mongoRepositoryOptions) (t0 t1 : Z).

Notation judge := (judge (maxKeyBytes r) t0 t1).
Notation learn := (learn (maxKeyBytes r) t0 t1).
Notation goodKey := (goodKey (maxKeyBytes r) t0 t1).
Notation usableKey := (usableKey (maxKeyBytes r)).

Definition payOf (ds : documents) (o : bytes) : option KeyChain := d ← keyDocs ds !! o; j ← judge (d_Payload d); j.
Definition viewOf (ds : documents) : view := mkView (pointer ds) (payOf ds).

(** An error of this package, which the driver does not give. *)
Definition ownError (e : error) : bool := errors_Is e ErrKeyNotFound || errors_Is e ErrInvalidKey.

(** ** The discipline *)

Definition mongoPre (h : option hold) (c : cmd) : Prop :=
  match h, c with
  | None, _ => True
  | Some h, UpsertKey doc => mine h = Some (d_KID doc) ∧ ∃ k, judge (d_Payload doc) = Some (Some k)
  | Some h, InsertPointer m => mine h = Some m ∧ is_Some (stored h)
  | Some h, SwapPointer o m => dead h = Some o ∧ mine h = Some m ∧ is_Some (stored h)
  | Some h, DeleteOne m => mine h = Some m
  | Some h, DeleteMany kids => Forall (.∈ cut h) kids
  | Some _, SetPointer _ | Some _, DeleteNamespace => False
  | Some _, _ => True
  end.

Definition sawHold (o : bytes) : hold := mkHold (Some o) None None None [] None.
Definition deadHold (o : bytes) : hold := mkHold None (Some o) None None [] None.
Definition wonHold (m : bytes) (h : hold) : hold := mkHold (Some m) None None (stored h) [] None.
Definition lostHold (h : hold) : hold := mkHold None None (mine h) None [] None.
Definition cutHold (h : hold) (kids : list bytes) : hold := mkHold (saw h) None None (sure h) kids None.

Definition mongoPost (h : option hold) (c : cmd) : resp c → option hold :=
  match h with
  | None => λ _, None
  | Some h =>
      match c return resp c → option hold with
      | CtxErr | Wait => λ _, Some h
      | Create => λ a, match a with
          | Ok (Some k) => if goodKey k then Some (mkHold (saw h) (dead h) (Some (kid k)) (sure h) (cut h) None) else None
          | _ => Some h
          end
      | FindPointer => λ a, match a with
          | Ok (Some o) => if bool_decide (o = []) then Some idle else Some (sawHold o)
          | _ => Some idle
          end
      | FindKey o => λ a, match a with
          | Ok found =>
              if bool_decide (saw h = Some o) then
                match found with Some doc => learn (d_Payload doc) (deadHold o) | None => Some (deadHold o) end
              else match found with
                   | Some doc => match judge (d_Payload doc) with None => None | Some _ => Some idle end
                   | None => Some idle
                   end
          | Fail e => if ownError e then None else Some idle
          end
      | UpsertKey doc => λ a, match a with
          | Ok _ => Some (mkHold (saw h) (dead h) (mine h) (sure h) (cut h) (j ← judge (d_Payload doc); j))
          | Fail _ => Some idle
          end
      | InsertPointer m => λ a, match a with
          | Ok (Upserted true) => Some (wonHold m h)
          | Ok _ => Some (lostHold h)
          | Fail _ => Some idle
          end
      | SwapPointer _ m => λ a, match a with
          | Ok true => Some (wonHold m h)
          | Ok false => Some (lostHold h)
          | Fail _ => Some idle
          end
      | FindKeys => λ a, match a with
          | Ok docs =>
              match saw h, sure h with
              | Some m, Some _ => Some (cutHold h (filter (.≠ m) (d_KID <$> docs)))
              | _, _ => Some idle
              end
          | Fail _ => Some idle
          end
      | DeleteMany _ => λ a, match a with Ok _ => Some (cutHold h []) | Fail _ => Some idle end
      | DeleteOne _ | SetPointer _ | DeleteNamespace => λ _, Some idle
      end
  end.

Definition mongoFinal (h : option hold) (o : outcome) : Prop :=
  match h, o with
  | h, OKey x => keyFinal h x
  | _, _ => True
  end.

Definition rotates (x : call_) : Prop :=
  match x with
  | CCurrent _ now | CRotate _ _ now | CFind _ _ now => t0 ≤ now ≤ t1
  | CForced _ _ _ | CDeleteAll _ => False
  end.

Notation keeps_ := (keeps mongoPre mongoPost).

Lemma mongo_keeps_impossible {A} (Q : option hold → A → Prop) (p : prog resp A) : (∀ a, Q None a) → keeps_ Q None p.
Proof. intros HQ. by apply keeps_sink; [|intros []|]. Qed.

Lemma mongo_keeps_ready (Q : option hold → result mongoRepositoryOptions → Prop) h ctx :
  Q h (Ok r) → (∀ e, Q h (Fail e)) → keeps_ Q h (validateReady (Some r) ctx).
Proof. intros H1 H2. unfold validateReady, requireContext. destruct ctx; [|cbn; auto]. destruct h; cbn; (split; [done|]); intros []; auto. Qed.

Lemma mongo_findPayload_keeps h o now :
  t0 ≤ now ≤ t1 → saw h = Some o →
  keeps_ (λ h x, keyFinal h x ∧ (h = None ∨ is_Ok x ∨ h = Some (deadHold o) ∨ h = Some idle ∧ ∃ e, x = Fail e ∧ ownError e = false))
    (Some h) (findPayload r o now).
Proof.
  intros Hn Hs. cbn. split; [done|]. intros [found|e].
  2:{ destruct (ownError e) eqn:He; [split; [done|auto]|]. split; [done|]. right. right. right. split; [done|]. eexists. split; [done|].
      unfold ownError in *. cbn. by rewrite !orb_false_r. }
  rewrite bool_decide_true by done. destruct found as [doc|]; [|split; [done|auto]].
  destruct (learn_cases (maxKeyBytes r) t0 t1 (d_Payload doc) (deadHold o) o now Hn) as [->|[(k & -> & Hk)|(e & -> & ->)]].
  - split; [done|auto].
  - split; [done|]. right. left. by exists k.
  - split; [done|auto].
Qed.

Lemma mongo_findPayload_found h o now : keeps_ (λ h x, mongoFinal h (OFound x)) (Some h) (findPayload r o now).
Proof. cbn. split; [done|]. intros [[doc|]|e]; cbn; by repeat case_match. Qed.

Lemma currentKID_keeps h (Q : option hold → result bytes → Prop) :
  (∀ o, Q (Some (sawHold o)) (Ok o)) → (∀ e, Q (Some idle) (Fail e)) → keeps_ Q (Some h) currentKID.
Proof. intros H1 H2. cbn. split; [done|]. intros [[o|]|e]; auto. case_bool_decide; auto. Qed.

Lemma Current_keeps h ctx now : t0 ≤ now ≤ t1 → keeps_ keyFinal (Some h) (Current (Some r) ctx now).
Proof.
  intros Hn. unfold Current. apply keeps_bind, mongo_keeps_ready; [|done]. apply keeps_bind, currentKID_keeps; [|done].
  intros o. eapply keeps_mono; [|by apply mongo_findPayload_keeps]. by intros ? ? [].
Qed.

Lemma afterCAS_keeps n h ctx now e : t0 ≤ now ≤ t1 → keeps_ keyFinal (Some h) (afterCASLoop (Some r) n ctx now e).
Proof.
  intros Hn. revert h e. induction n as [|n IH]; intros h e; [done|]. cbn [afterCASLoop].
  eapply keeps_call; [by apply Current_keeps|]. intros [h'|] [k|e'] Hf; [done| |done|by apply mongo_keeps_impossible].
  destruct (negb _); [done|]. cbn. split; [done|]. intros [e''|]; [done|]. apply IH.
Qed.

Lemma mongo_create_keeps h ctx (Q : option hold → result (option KeyChain) → Prop) :
  (∀ e h, Q h (Fail e)) → (∀ a, Q None a) → Q (Some h) (Ok None) →
  (∀ k, goodKey k = true → Q (Some (mkHold (saw h) (dead h) (Some (kid k)) (sure h) (cut h) None)) (Ok (Some k))) →
  keeps_ Q (Some h) (createWithContext ctx).
Proof.
  intros H1 H2 H3 H4. unfold createWithContext, requireContext. destruct ctx; [|apply H1]. cbn. split; [done|].
  intros [e|]; [apply H1|]. cbn. split; [done|]. intros [[k|]|e]; [|cbn; split; [done|]; intros []; cbn; auto|apply H1].
  destruct (goodKey k) eqn:Hg; cbn; (split; [done|]); intros []; cbn; auto.
Qed.

Lemma trimLoop_kids keepKID cap docs n : Forall (λ o, o ∈ filter (.≠ keepKID) (d_KID <$> docs)) (trimLoop keepKID cap docs n).
Proof.
  revert n. induction docs as [|doc docs IH]; intros n; [constructor|]. cbn [trimLoop fmap list_fmap].
  assert (Hs : ∀ l, Forall (λ o, o ∈ filter (.≠ keepKID) (d_KID <$> docs)) l →
                    Forall (λ o, o ∈ filter (.≠ keepKID) (d_KID doc :: (d_KID <$> docs))) l).
  { intros l Hl. eapply Forall_impl; [exact Hl|]. intros o. rewrite !list_elem_of_filter, elem_of_cons. tauto. }
  case_bool_decide as Hd; [apply Hs, IH|]. destruct (n <? cap); [apply Hs, IH|]. apply Forall_cons. split; [|apply Hs, IH].
  apply list_elem_of_filter. split; [done|left].
Qed.

(** The rest of a rotation that has won the pointer. *)
Lemma won_keeps m h k now :
  t0 ≤ now ≤ t1 → stored h = Some k →
  keeps_ keyFinal (Some (wonHold m h))
    (err ← trim r m; match err with Some err => mret (Fail err) | None => findPayload r m now end).
Proof.
  intros Hn Hk. unfold trim. cbn [mbind prog_bind act keeps mongoPost wonHold saw sure]. rewrite Hk. split; [done|].
  assert (Hfind : ∀ g, saw g = Some m → keeps_ keyFinal (Some g) (findPayload r m now)).
  { intros g Hg. eapply keeps_mono; [|by apply mongo_findPayload_keeps]. by intros ? ? []. }
  intros [docs|e]; [|done]. case_bool_decide; [by apply Hfind|]. cbn [mbind prog_bind act keeps]. split; [apply trimLoop_kids|].
  intros [[]|e]; [by apply Hfind|done].
Qed.

Lemma mongo_storeCAS_keeps ctx o h k now :
  t0 ≤ now ≤ t1 → o = [] ∨ dead h = Some o → mine h = Some (kid k) → goodKey k = true →
  keeps_ keyFinal (Some h) (storeCAS (Some r) r ctx o (Some k) now).
Proof.
  intros Hn Ho Hm Hg. unfold storeCAS, prepareStoreDocument, requireContext. unfold JwtRotation.goodKey in Hg.
  apply andb_true_iff in Hg as [_ Hg]. destruct ctx; [|done]. cbn [mbind prog_bind act keeps]. split; [done|]. intros [e|]; [done|].
  destruct (Expired (Some k) now); [done|]. destruct (encodeRedisKeyChain (Some k)) as [p|e]; [|done].
  destruct (_ <? _); [done|]. cbn [mbind prog_bind act keeps]. split; [done|]. intros [e|]; [done|].
  destruct (judge p) as [[k'|]|] eqn:Hj; try done.
  cbn [mret prog_ret mbind prog_bind act keeps]. split; [cbn; eauto|]. intros [[]|e]; [|done].
  cbn [mongoPost d_Payload]. rewrite Hj. cbn [mbind option_bind prog_bind mret prog_ret]. unfold compareAndSetCurrent. cbn [KID].
  assert (Hlost : ∀ g, mine g = Some (kid k) → keeps_ keyFinal (Some g) (_ ← deleteKey (kid k); currentAfterCAS (Some r) true now)).
  { intros g Hgm. cbn [mbind prog_bind act keeps]. split; [done|]. intros a. by apply afterCAS_keeps. }
  case_bool_decide as Hoe; cbn [mbind prog_bind act keeps]; (split; [cbn|]).
  - eauto.
  - intros [[[]|]|e]; [by eapply won_keeps|by apply Hlost|by apply Hlost|done].
  - destruct Ho as [?|Ho]; [done|]. eauto.
  - intros [[]|e]; [by eapply won_keeps|by apply Hlost|done].
Qed.

Lemma mongo_Rotate_keeps ctx create now : t0 ≤ now ≤ t1 → keeps_ keyFinal (Some idle) (Rotate (Some r) ctx create now).
Proof.
  intros Hn. unfold Rotate. apply keeps_bind, mongo_keeps_ready; [|done]. destruct create; [|done]. cbn [negb].
  assert (Hrest : ∀ h o err, o = [] ∨ dead h = Some o → keeps_ keyFinal (Some h)
    (if negb (errors_Is err ErrKeyNotFound) && negb (errors_Is err ErrInvalidKey) then mret (Fail err)
     else made ← createWithContext ctx;
          match made with Fail err => mret (Fail err) | Ok key => storeCAS (Some r) r ctx o key now end)).
  { intros h o err Ho. destruct (_ && _); [done|]. apply keeps_bind, mongo_create_keeps.
    - by intros e [].
    - intros a. by apply mongo_keeps_impossible.
    - unfold storeCAS, prepareStoreDocument, requireContext. destruct ctx; [|done]. cbn. split; [done|]. by intros [].
    - intros k Hg. by apply mongo_storeCAS_keeps. }
  apply keeps_bind. unfold currentPayload. apply keeps_bind, currentKID_keeps; [|intros e; apply Hrest; auto].
  intros o. eapply keeps_call; [by apply mongo_findPayload_keeps|]. intros h x [Hf Hx]. cbn [mret prog_ret keeps].
  destruct Hx as [->|[[k ->]|[->|(-> & e & -> & He)]]]; [by apply mongo_keeps_impossible|done| |].
  - destruct x; [done|]. apply Hrest. auto.
  - unfold ownError in He. by rewrite <-negb_orb, He.
Qed.

Lemma mongo_callProc_rotates x : rotates x → keeps_ mongoFinal (Some idle) (callProc (Some r) x).
Proof.
  destruct x as [ctx now|ctx kid now|ctx create now|ctx create now|ctx]; cbn [rotates callProc]; intros Hn; try done.
  - apply keeps_fmap. by apply Current_keeps.
  - apply keeps_fmap. unfold Find. apply keeps_bind, mongo_keeps_ready; [|done]. destruct (validateLookupKID kid); [done|]. apply mongo_findPayload_found.
  - apply keeps_fmap. by apply mongo_Rotate_keeps.
Qed.

(** ** The invariant *)

Record dsInv (ds : documents) (given : gset bytes) (gs : list hold) : Prop := mkDsInv {
  di_rot : rotInv (viewOf ds) given gs;
  di_steady o d : keyDocs ds !! o = Some d → judge (d_Payload d) ≠ None
}.

Definition mongoInv (n : Z) (w : world) (hs : list (option hold)) : Prop :=
  ∃ gs, hs = Some <$> gs ∧ dsInv (mongo w) (issued w) gs.

Definition allowed (ch : choice) : Prop :=
  (∀ k, ch_create ch = Ok (Some k) → goodKey k = true) ∧ (∀ e b, ch_fail ch = Some (e, b) → ownError e = false).

Lemma dsInv_idle ds given gs i g : dsInv ds given gs → gs !! i = Some g → dsInv ds given (<[i := idle]> gs).
Proof. intros [Hr Hs] Hg. split; [by eapply rotInv_idle|done]. Qed.

Lemma dsInv_learn ds given gs i g g' :
  dsInv ds given gs → gs !! i = Some g → mine g' = None → holdOk (viewOf ds) (public given gs) g' → dsInv ds given (<[i := g']> gs).
Proof.
  intros [Hr Hs] Hg Hm [Ha Hd Hsu Hcu Hso Hw]. split; [|done]. eapply rotInv_step; [done|done|apply moves_refl; auto|].
  pose proof (λ o, public_insert given gs i g g' o Hg (or_intror Hm)) as Hp.
  split; [..|done|done|done|done]; intros o Ho; [destruct (Ha o Ho)|destruct (Hd o Ho)]; auto.
Qed.

Section oneCommand.
Context {A : Type} (f : documents → A * documents) (after : result A → option hold).

Lemma onMongo_rot n w hs i g ch :
  mongoInv n w hs → allowed ch → hs !! i = Some (Some g) →
  (∀ e, ownError e = false → after (Fail e) = Some idle) →
  (∀ gs, dsInv (mongo w) (issued w) gs → gs !! i = Some g →
     (∃ g', after (Ok (f (mongo w)).1) = Some g' ∧ dsInv (f (mongo w)).2 (issued w) (<[i := g']> gs)) ∧
     dsInv (f (mongo w)).2 (issued w) (<[i := idle]> gs)) →
  match onMongo ch w f with
  | Waits => True
  | Panics => False
  | Answers a w' => mongoInv (n + 1) w' (<[i := after a]> hs)
  end.
Proof.
  intros (gs & -> & Hi) [_ Ha] Hg Hfail Hf. rewrite list_lookup_fmap in Hg. destruct (gs !! i) as [g1|] eqn:Hg1; [|done]. injection Hg as ->.
  destruct (Hf _ Hi Hg1) as [(g' & Hg' & H1) H2]. unfold onMongo. destruct (f (mongo w)) as [a ds]. cbn [fst snd] in *.
  destruct (ch_fail ch) as [[err applied]|].
  - rewrite (Hfail err) by (by eapply Ha). exists (<[i := idle]> gs). split; [by rewrite list_fmap_insert|].
    cbn. destruct applied; [done|]. by eapply dsInv_idle.
  - exists (<[i := g']> gs). rewrite Hg'. split; [by rewrite list_fmap_insert|done].
Qed.
End oneCommand.

Lemma mongo_payOf_judge ds o d j : keyDocs ds !! o = Some d → judge (d_Payload d) = Some j → payOf ds o = j.
Proof. intros Hh Hj. unfold payOf. by rewrite Hh; cbn; rewrite Hj. Qed.

Lemma sawHold_ok ds given gs o : pointer ds = Some o → public given gs o → holdOk (viewOf ds) (public given gs) (sawHold o).
Proof.
  intros Hp Hpub. split; cbn; [|done|done|intros x Hx; by apply elem_of_nil in Hx|done|done || by intros ? _ [? ?]]. intros x [= <-]. split; [done|by left].
Qed.

Lemma deadHold_ok ds given gs o : payOf ds o = None → public given gs o → holdOk (viewOf ds) (public given gs) (deadHold o).
Proof. intros Hp Hpub. split; cbn; [done| |done|intros x Hx; by apply elem_of_nil in Hx|done|done || by intros ? _ [? ?]]. by intros x [= <-]. Qed.

Lemma findPointer_inv gs ds given i g :
  dsInv ds given gs → gs !! i = Some g →
  ∃ g', mongoPost (Some g) FindPointer (Ok (pointer ds)) = Some g' ∧ dsInv ds given (<[i := g']> gs).
Proof.
  intros Hi Hg. cbn. destruct (pointer ds) as [o|] eqn:Hp; [case_bool_decide|]; eexists; (split; [done|]); [by eapply dsInv_idle| |by eapply dsInv_idle].
  eapply dsInv_learn; [done|done|done|]. apply sawHold_ok; [done|]. by apply (ri_cur _ _ _ (di_rot _ _ _ Hi)).
Qed.

Lemma findKey_inv gs ds given i g o :
  dsInv ds given gs → gs !! i = Some g →
  ∃ g', mongoPost (Some g) (FindKey o) (Ok (keyDocs ds !! o)) = Some g' ∧ dsInv ds given (<[i := g']> gs).
Proof.
  intros Hi Hg. pose proof (dsInv_idle _ _ _ _ _ Hi Hg) as Hidle. cbn. case_bool_decide as Hsaw.
  - destruct (ok_saw _ _ _ (ri_hold _ _ _ (di_rot _ _ _ Hi) i g Hg) o Hsaw) as [Hpub Hs]. cbn in Hs.
    assert (Hdead : payOf ds o = None → dsInv ds given (<[i := deadHold o]> gs)).
    { intros Hp. eapply dsInv_learn; [done|done|done|]. by apply deadHold_ok. }
    destruct (keyDocs ds !! o) as [d|] eqn:Hd; [|eexists; split; [done|]; apply Hdead; unfold payOf; by rewrite Hd].
    pose proof (di_steady _ _ _ Hi o d Hd) as Hj. unfold JwtRotation.learn. destruct (judge (d_Payload d)) as [[k|]|] eqn:Hk; [| |done].
    + eexists. split; [done|]. eapply dsInv_learn; [done|done|done|]. split; cbn; [done|done| |intros x Hx; by apply elem_of_nil in Hx|done|done || by intros ? _ [? ?]].
      intros k' [= <-]. pose proof (mongo_payOf_judge _ _ _ _ Hd Hk) as Hp. exists o. split; [|done]. destruct Hs as [?|Hs]; [done|congruence].
    + eexists. split; [done|]. apply Hdead. by eapply mongo_payOf_judge.
  - destruct (keyDocs ds !! o) as [d|] eqn:Hd; [|eauto]. pose proof (di_steady _ _ _ Hi o d Hd).
    destruct (judge (d_Payload d)); [eauto|done].
Qed.

(** A change of the documents with the hold that follows, and with none. *)
Lemma dsInv_step ds ds' given gs i g g' :
  dsInv ds given gs → gs !! i = Some g → moves (viewOf ds) (viewOf ds') g g' →
  holdOk (viewOf ds') (public given (<[i := g']> gs)) g' →
  (∀ o d, keyDocs ds' !! o = Some d → judge (d_Payload d) ≠ None) → dsInv ds' given (<[i := g']> gs).
Proof. intros [Hr Hs] Hg Hm Hok Hst. split; [by eapply rotInv_step|done]. Qed.

(** What a goroutine holds, its own identifier apart, stays true when it
    changes the documents. *)
Lemma own_ok ds ds' given gs i g g' :
  dsInv ds given gs → gs !! i = Some g → moves (viewOf ds) (viewOf ds') g g' →
  holdOk (viewOf ds') (public given (<[i := g']> gs)) (mkHold (saw g) (dead g) None (sure g) (cut g) None).
Proof.
  intros [Hr Hs] Hg Hm. pose proof (ri_hold _ _ _ Hr i g Hg) as Hok. destruct Hok as [Ha Hd Hsu Hcu _ Hw].
  eapply (moves_other (viewOf ds) _ g g' _ (public given gs)); [by split|done| | |done|].
  - intros o. eapply public_insert; [done|]. destruct Hm; auto.
  - intros o [_ Ho]. eauto.
  - intros k. exact (moves_settled _ _ _ _ _ _ _ k Hr Hg Hm).
Qed.

Lemma upsert_inv gs ds given i g doc :
  dsInv ds given gs → gs !! i = Some g → mongoPre (Some g) (UpsertKey doc) →
  let ds' := mkDocuments (pointer ds) (<[d_KID doc := doc]> (keyDocs ds)) in
  (∃ g', mongoPost (Some g) (UpsertKey doc) (Ok tt) = Some g' ∧ dsInv ds' given (<[i := g']> gs)) ∧ dsInv ds' given (<[i := idle]> gs).
Proof.
  intros Hi Hg [Hm [k Hj]] ds'. cbn [mongoPost]. rewrite Hj. cbn [mbind option_bind].
  assert (Hmoves : ∀ g', mine g' = mine g ∨ mine g' = None → moves (viewOf ds) (viewOf ds') g g').
  { intros g' Hg'. apply Quiet; [done|done|]. intros o. cbn. unfold payOf. cbn. destruct (decide (o = d_KID doc)) as [->|Ho]; [auto|].
    rewrite lookup_insert_ne by done. auto. }
  assert (Hst : ∀ o d, keyDocs ds' !! o = Some d → judge (d_Payload d) ≠ None).
  { intros o d. cbn. destruct (decide (o = d_KID doc)) as [->|Ho]; [rewrite lookup_insert_eq; intros [= <-]; by rewrite Hj|].
    rewrite lookup_insert_ne by done. apply Hi. }
  split; [|eapply dsInv_step; [done|done|apply Hmoves; auto|apply idle_ok|done]].
  eexists. split; [done|]. eapply dsInv_step; [done|done|apply Hmoves; auto| |done].
  pose proof (own_ok ds ds' given gs i g _ Hi Hg (Hmoves (mkHold (saw g) (dead g) (mine g) (sure g) (cut g) (Some k)) (or_introl eq_refl))) as [Ha Hd Hsu Hcu _ Hw].
  split; cbn in *; [done..| |done]. intros o k' [= <-] Ho. left. assert (o = d_KID doc) as -> by congruence.
  eapply mongo_payOf_judge; [cbn; apply lookup_insert_eq|done].
Qed.

(** The pointer moves to the key of a goroutine, when no key was settled. *)
Lemma win_inv gs ds given i g m :
  dsInv ds given gs → gs !! i = Some g → mine g = Some m → is_Some (stored g) → (∀ k, ¬ settled (viewOf ds) k) →
  dsInv (mkDocuments (Some m) (keyDocs ds)) given (<[i := wonHold m g]> gs) ∧
  dsInv (mkDocuments (Some m) (keyDocs ds)) given (<[i := idle]> gs).
Proof.
  intros Hi Hg Hm [k Hk] Hu.
  assert (Hp : payOf ds m = Some k).
  { destruct (ok_stored _ _ _ (ri_hold _ _ _ (di_rot _ _ _ Hi) i g Hg) m k Hk Hm) as [?|[k' Hk']]; [done|by destruct (Hu k')]. }
  assert (Hmoves : ∀ g', mine g' = None → moves (viewOf ds) (viewOf (mkDocuments (Some m) (keyDocs ds))) g g').
  { intros g' Hg'. apply (Takes _ _ _ _ m); [done|done|done|done|by exists k|auto]. }
  split; (eapply dsInv_step; [done|done|by apply Hmoves| |apply Hi]); [|apply idle_ok].
  assert (Hpub : public given (<[i := wonHold m g]> gs) m).
  { split; [by eapply (ri_mine _ _ _ (di_rot _ _ _ Hi))|]. intros j h Hj. changed; [done|]. intros Hh.
    by destruct (ri_distinct _ _ _ (di_rot _ _ _ Hi) i j g h m). }
  split; cbn; [|done| |intros x Hx; by apply elem_of_nil in Hx|done|].
  - intros o [= <-]. split; [done|by left].
  - intros k' Hk'. exists m. split; [done|]. cbn. unfold payOf in *. cbn. congruence.
  - by intros o [= <-] _.
Qed.

Lemma lost_inv gs ds given i g : dsInv ds given gs → gs !! i = Some g → dsInv ds given (<[i := lostHold g]> gs).
Proof.
  intros Hi Hg. eapply dsInv_step; [done|done|apply moves_refl; auto| |apply Hi].
  split; cbn; [done|done|done|intros x Hx; by apply elem_of_nil in Hx|done|done].
Qed.

Lemma unsettled_docs ds : (∀ o, pointer ds = Some o → payOf ds o = None) → ∀ k, ¬ settled (viewOf ds) k.
Proof. intros H k (o & Hc & Hp). cbn in *. rewrite H in Hp by done. done. Qed.

(** Documents are deleted that are not settled. *)
Lemma delete_inv gs ds ds' given i g g' :
  dsInv ds given gs → gs !! i = Some g → mine g' = None → pointer ds' = pointer ds → keyDocs ds' ⊆ keyDocs ds →
  (∀ o, payOf ds' o = payOf ds o ∨ (payOf ds' o = None ∧ pointer ds ≠ Some o ∧ ∃ k, settled (viewOf ds) k) ∨ mine g = Some o) →
  (moves (viewOf ds) (viewOf ds') g g' → holdOk (viewOf ds') (public given (<[i := g']> gs)) g') →
  dsInv ds' given (<[i := g']> gs).
Proof.
  intros Hi Hg Hm Hp Hsub Hpay Hok.
  assert (Hmoves : moves (viewOf ds) (viewOf ds') g g') by (apply Quiet; [done|auto|done]).
  eapply dsInv_step; [done|done|done|auto|]. intros o d Ho. eapply (di_steady _ _ _ Hi o). by eapply lookup_weaken.
Qed.

Lemma deleteKeys_lookup kids (m : gmap bytes mongoKeyDocument) o : deleteKeys kids m !! o = if decide (o ∈ kids) then None else m !! o.
Proof.
  induction kids as [|k kids IH]; cbn [deleteKeys foldr]; [by rewrite decide_False by apply not_elem_of_nil|].
  destruct (decide (o = k)) as [->|Ho]; [rewrite lookup_delete_eq, decide_True by left; done|].
  rewrite lookup_delete_ne by done. unfold deleteKeys in IH. rewrite IH. apply decide_ext. rewrite elem_of_cons. naive_solver.
Qed.

Lemma deleteOne_inv gs ds given i g m :
  dsInv ds given gs → gs !! i = Some g → mine g = Some m →
  dsInv (mkDocuments (pointer ds) (delete m (keyDocs ds))) given (<[i := idle]> gs).
Proof.
  intros Hi Hg Hm. eapply delete_inv; [done|done|done|done|cbn; apply delete_subseteq| |intros _; apply idle_ok].
  intros o. unfold payOf. cbn. destruct (decide (o = m)) as [->|Ho]; [auto|]. rewrite lookup_delete_ne by done. auto.
Qed.

Lemma deleteMany_inv gs ds given i g kids :
  dsInv ds given gs → gs !! i = Some g → Forall (.∈ cut g) kids →
  let ds' := mkDocuments (pointer ds) (deleteKeys kids (keyDocs ds)) in
  dsInv ds' given (<[i := cutHold g []]> gs) ∧ dsInv ds' given (<[i := idle]> gs).
Proof.
  intros Hi Hg Hk ds'. pose proof (ri_hold _ _ _ (di_rot _ _ _ Hi) i g Hg) as Hok.
  assert (Hsub : keyDocs ds' ⊆ keyDocs ds).
  { apply map_subseteq_spec. intros o d. cbn. rewrite deleteKeys_lookup. by destruct (decide _). }
  assert (Hpay : ∀ o, payOf ds' o = payOf ds o ∨ (payOf ds' o = None ∧ pointer ds ≠ Some o ∧ ∃ k, settled (viewOf ds) k) ∨ mine g = Some o).
  { intros o. unfold payOf. cbn. rewrite deleteKeys_lookup. destruct (decide (o ∈ kids)) as [Ho|]; [|auto]. right. left.
    rewrite Forall_forall in Hk. destruct (ok_cut _ _ _ Hok o (Hk o Ho)) as [[k Hs] Hc]. split; [done|]. split; [done|].
    exists k. by apply (ok_sure _ _ _ Hok). }
  split; (eapply delete_inv; [done|done|done|done|done|done|intros Hmoves]); [|apply idle_ok].
  pose proof (own_ok ds ds' given gs i g _ Hi Hg Hmoves) as [Ha Hd Hsu Hcu _ Hw].
  split; cbn in *; [done|done|done|intros x Hx; by apply elem_of_nil in Hx|done|done].
Qed.

Lemma findKeys_inv gs ds given i g docs :
  dsInv ds given gs → gs !! i = Some g → ∃ g', mongoPost (Some g) FindKeys (Ok docs) = Some g' ∧ dsInv ds given (<[i := g']> gs).
Proof.
  intros Hi Hg. cbn. pose proof (dsInv_idle _ _ _ _ _ Hi Hg) as Hidle. destruct (saw g) as [m|] eqn:Hs; [|eauto].
  destruct (sure g) as [k|] eqn:Hk; [|eauto]. eexists. split; [done|]. pose proof (ri_hold _ _ _ (di_rot _ _ _ Hi) i g Hg) as Hok.
  pose proof (ok_won _ _ _ Hok m Hs ltac:(eauto)) as Hw. eapply dsInv_learn; [done|done|done|].
  destruct Hok as [Ha Hd Hsu Hcu _ Hwo]. split; cbn in *; rewrite ?Hs, ?Hk in *; [done|done|done| |done|done].
  intros o [Ho _]%list_elem_of_filter. split; [eauto|]. congruence.
Qed.

Ltac command i g Hi Ha Hh :=
  match goal with
  | |- context [onMongo ?ch ?w ?f] => apply (onMongo_rot f _ _ w _ i g ch Hi Ha Hh)
  end; [by intros e He; cbn; rewrite ?He|]; intros gs Hs Hg; cbn [fst snd].

Lemma mongo_exec_rot lim n w hs i h c ch :
  mongoInv n w hs → n < lim → allowed ch → hs !! i = Some h → mongoPre h c →
  match exec c ch w with Waits => True | Panics => False | Answers a w' => mongoInv (n + 1) w' (<[i := mongoPost h c a]> hs) end.
Proof.
  intros Hi _ Ha Hh Hp. destruct h as [g|].
  2:{ destruct Hi as (gs & -> & _). rewrite list_lookup_fmap in Hh. by destruct (gs !! i). }
  assert (Hsame : mongoInv (n + 1) w (<[i := Some g]> hs)).
  { rewrite list_insert_id by done. destruct Hi as (gs & -> & Hi). by exists gs. }
  destruct c as [| | |o|doc|m|o m|m|m| |kids| |]; cbn [exec]; try done.
  - destruct Hi as (gs & -> & Hi). destruct Ha as [Ha _].
    assert (Hg : gs !! i = Some g) by (rewrite list_lookup_fmap in Hh; by destruct (gs !! i); simplify_eq/=).
    destruct (ch_create ch) as [[k|]|e]; cbn [mongoPost]; [|done..].
    case_bool_decide as Hk; [done|]. rewrite (Ha k eq_refl).
    exists (<[i := mkHold (saw g) (dead g) (Some (kid k)) (sure g) (cut g) None]> gs). split; [by rewrite list_fmap_insert|].
    destruct Hi as [Hr Hs]. split; [by apply rotInv_create|done].
  - command i g Hi Ha Hh. split; [by apply (findPointer_inv gs _ _ i g)|by eapply dsInv_idle].
  - command i g Hi Ha Hh. split; [by apply (findKey_inv gs _ _ i g)|by eapply dsInv_idle].
  - command i g Hi Ha Hh. by apply (upsert_inv gs _ _ i g doc).
  - command i g Hi Ha Hh. destruct Hp as [Hm Hst]. pose proof (lost_inv _ _ _ _ _ Hs Hg) as Hlost.
    destruct (pointer (mongo w)) as [o|] eqn:Hpo; cbn [fst snd].
    + split; [|by eapply dsInv_idle]. destruct (ch_duplicate ch); by eexists.
    + destruct (win_inv _ _ _ i g m Hs Hg Hm Hst) as [H1 H2]; [apply unsettled_docs; by rewrite Hpo|]. split; [by eexists|done].
  - command i g Hi Ha Hh. destruct Hp as (Hd & Hm & Hst). pose proof (lost_inv _ _ _ _ _ Hs Hg) as Hlost. case_bool_decide as Hpo; cbn [fst snd].
    + destruct (win_inv _ _ _ i g m Hs Hg Hm Hst) as [H1 H2]; [|split; [by eexists|done]]. apply unsettled_docs. rewrite Hpo. intros x [= <-].
      by apply (ok_dead _ _ _ (ri_hold _ _ _ (di_rot _ _ _ Hs) i g Hg)).
    + split; [by eexists|by eapply dsInv_idle].
  - command i g Hi Ha Hh. pose proof (deleteOne_inv _ _ _ _ _ _ Hs Hg Hp). split; [by eexists|done].
  - command i g Hi Ha Hh. split; [by apply (findKeys_inv gs _ _ i g)|by eapply dsInv_idle].
  - command i g Hi Ha Hh. destruct (deleteMany_inv _ _ _ _ _ _ Hs Hg Hp) as [H1 H2]. split; [by eexists|done].
Qed.

Lemma mongo_started_rot ds given calls :
  (∀ o, pointer ds = Some o → o ∈ given) → (∀ o d, keyDocs ds !! o = Some d → judge (d_Payload d) ≠ None) → Forall rotates calls →
  good mongoPre mongoPost mongoFinal mongoInv 0 (started (Some r) ds given calls).
Proof.
  intros Hg Hs Hx. split; [done|]. exists (replicate (length calls) (Some idle)). split.
  - exists (replicate (length calls) idle). split; [by rewrite fmap_replicate|]. split; [by apply rotInv_start|done].
  - cbn [started procs]. apply Forall2_fmap_r, Forall2_replicate_l; [done|].
    eapply Forall_impl; [exact Hx|]. intros x Hr. by apply mongo_callProc_rotates.
Qed.
End agreement.

(** ** jwt: properties of the MongoDB key repository

    Rotations agree; forced rotations that overlap can leave a pointer to a key
    that is gone. *)

Section mongo.
Context {R : CryptoRSA} {J : KeyJSON}.

(** The key that the pointer leads to. *)
Definition mongoCurrent (r : mongoRepositoryOptions) (ds : documents) : option KeyChain :=
  o ← pointer ds; d ← keyDocs ds !! o;
  match decodeRedisKeyChain (d_Payload d) (maxKeyBytes r) with Ok k => Some k | Fail _ => None end.

Lemma settled_mongo r t0 t1 ds k : settled (viewOf r t0 t1 ds) k → mongoCurrent r ds = Some k.
Proof.
  intros (o & Hc & Hp). cbn in *. unfold payOf in Hp. unfold mongoCurrent. rewrite Hc. cbn.
  destruct (keyDocs ds !! o) as [d|]; [|done]. cbn in *. destruct (judge _ t0 t1 (d_Payload d)) as [[k'|]|] eqn:Hj; try done. injection Hp as ->.
  by rewrite (judge_decode _ _ _ _ _ Hj).
Qed.

Definition steadyDocs (r : mongoRepositoryOptions) (t0 t1 : Z) (ds : documents) : Prop :=
  ∀ o d k, keyDocs ds !! o = Some d → decodeRedisKeyChain (d_Payload d) (maxKeyBytes r) = Ok k →
           Expired (Some k) t0 = Expired (Some k) t1.

(** What the environment may do in a step: a key that is made is well formed,
    lasts until [t1] and is not too large; the driver does not give errors of
    this package. *)
Definition mongoFair (r : mongoRepositoryOptions) (t1 : Z) (ch : choice) : Prop :=
  (∀ k, ch_create ch = Ok (Some k) → fairKey (maxKeyBytes r) t1 k) ∧ (∀ e b, ch_fail ch = Some (e, b) → ownError e = false).

(** The choices of a step that goes well. *)
Definition smooth (k : KeyChain) : choice := mkChoice None (Ok (Some k)) None false.
End mongo.

(** C7. Rotations of a MongoDB key repository agree, although a rotation is
    several commands: any number of [Rotate], [Current] and [Find] calls that
    run at the same time, with clocks between [t0] and [t1] in which no stored
    key expires, with failures of the database before or after their effect and
    cancellations at any point, that give a key as the current one give the
    same, and it is the current key of the collection, which no trimming
    removes. *)
Theorem mongo_rotations_agree {R : CryptoRSA} {J : KeyJSON} {RL : CryptoRSALaws} {JL : KeyJSONLaws}
    r t0 t1 ds given calls sched x :
  t0 ≤ t1 → (∀ o, pointer ds = Some o → o ∈ given) → steadyDocs r t0 t1 ds →
  Forall (rotates t0 t1) calls → Forall (λ s, mongoFair r t1 s.2) sched →
  run exec sched (started (Some r) ds given calls) = Some x →
  (∀ i k, procs x !! i = Some (Ret (OKey (Ok k))) → mongoCurrent r (mongo (shared x)) = Some k) ∧
  (∀ i j k k', procs x !! i = Some (Ret (OKey (Ok k))) → procs x !! j = Some (Ret (OKey (Ok k'))) → k = k').
Proof.
  intros Ht Hg Hs Hx Hf Hr.
  assert (Hgood : good (mongoPre r t0 t1) (mongoPost r t0 t1) mongoFinal (mongoInv r t0 t1) (0 + Z.of_nat (length sched)) x).
  { apply (run_good exec _ _ _ _ (Z.of_nat (length sched)) (allowed r t0 t1)
             (mongo_exec_rot r t0 t1 (Z.of_nat (length sched))) sched 0 (started (Some r) ds given calls)); [|lia| |done].
    - apply mongo_started_rot; try done. intros o d Ho. apply steady_judge. intros k. apply (Hs o d k Ho).
    - eapply Forall_impl; [exact Hf|]. intros [i ch] [H1 H2]. split; [|done]. intros k Hk. by apply fairKey_good, H1. }
  assert (Hall : ∀ i k, procs x !! i = Some (Ret (OKey (Ok k))) → mongoCurrent r (mongo (shared x)) = Some k).
  { intros i k Hi. destruct Hgood as (_ & hs & (gs & -> & Hinv) & Hk). destruct (Forall2_lookup_r _ _ _ _ _ Hk Hi) as (h & Hh & Hfin).
    rewrite list_lookup_fmap in Hh. destruct (gs !! i) as [g|] eqn:Hgi; [|done]. injection Hh as <-. cbn in Hfin.
    eapply settled_mongo. by apply (ok_sure _ _ _ (ri_hold _ _ _ (di_rot _ _ _ _ _ _ Hinv) i g Hgi)). }
  split; [done|]. intros i j k k' H1%Hall H2%Hall. congruence.
Qed.

(** ** Samples *)

#[local] Existing Instances sampleRSA sampleJSON sampleRSALaws sampleJSONLaws.

Definition sampleRepo : mongoRepositoryOptions := mkMongo (lit "db") (lit "keys") (lit "ns") 2 4096.
Definition noDocs : documents := mkDocuments None ∅.

(** Two rotations that both find no key: the second one to move the pointer
    loses, removes its document and reads the winner's key. *)
Definition twoRotations : list (nat * choice) :=
  replicate 8 (0%nat, smooth (key "a" 0)) ++ replicate 8 (1%nat, smooth (key "b" 5)) ++
  replicate 3 (0%nat, smooth (key "a" 0)) ++ replicate 5 (1%nat, smooth (key "b" 5)).


Lemma mongo_rotations_agree_witness :
  ∃ x, run exec twoRotations (started (Some sampleRepo) noDocs ∅ [CRotate true true 10; CRotate true true 20]) = Some x ∧
       procs x = [Ret (OKey (Ok (key "a" 0))); Ret (OKey (Ok (key "a" 0)))] ∧
       mongoCurrent sampleRepo (mongo (shared x)) = Some (key "a" 0).
Proof.
  eexists. split; [vm_compute; reflexivity|]. split; [reflexivity|].
  refine (proj1 (mongo_rotations_agree sampleRepo 10 20 noDocs ∅
                   [CRotate true true 10; CRotate true true 20] twoRotations _ _ _ _ _ _ _) 0%nat (key "a" 0) _);
    [lia|discriminate| | | |vm_compute; reflexivity|reflexivity].
  - intros o d k Ho. vm_compute in Ho. discriminate.
  - repeat constructor; cbn; lia.
  - assert (Ha : mongoFair sampleRepo 20 (smooth (key "a" 0))).
    { split; [|discriminate]. intros k [= <-]. apply key_fair; [reflexivity|lia..|vm_compute; discriminate]. }
    assert (Hb : mongoFair sampleRepo 20 (smooth (key "b" 5))).
    { split; [|discriminate]. intros k [= <-]. apply key_fair; [reflexivity|lia..|vm_compute; discriminate]. }
    unfold twoRotations. repeat (apply Forall_app; split); by apply Forall_replicate.
Defined.

(** ** Forced rotations that overlap *)

Definition ms (n : Z) : Z := n * 1000000.
Definition msKey (name : string) (n : Z) : KeyChain :=
  mkKeyChain (lit name) HS256 (ms n) (ms 1000) (Secret secret) (Secret secret).

(** Three forced rotations, each up to its pointer; then each trims. *)
Definition threeForced : list (nat * choice) :=
  replicate 8 (0%nat, smooth (msKey "a" 1)) ++ replicate 8 (1%nat, smooth (msKey "c" 3)) ++
  replicate 8 (2%nat, smooth (msKey "b" 2)) ++ replicate 3 (0%nat, smooth (msKey "a" 1)) ++
  replicate 3 (2%nat, smooth (msKey "b" 2)) ++ replicate 2 (1%nat, smooth (msKey "c" 3)).

(** Forced rotations of a MongoDB key repository that overlap can remove
    the current key: with a capacity of two and three [ForcedRotate] calls, in
    which nothing fails, one call's trimming removes the key that another call
    has just made current.  All three calls end, one of them with
    [ErrKeyNotFound], and the pointer leads to no key, although a usable key is
    stored. *)
Theorem forced_rotations_lose_current :
  ∃ x err, run exec threeForced (started (Some sampleRepo) noDocs ∅ [CForced true true (ms 10); CForced true true (ms 10); CForced true true (ms 10)]) = Some x ∧
    procs x = [Ret (OKey (Ok (msKey "a" 1))); Ret (OKey (Ok (msKey "c" 3))); Ret (OKey (Fail err))] ∧
    errors_Is err ErrKeyNotFound = true ∧
    pointer (mongo (shared x)) = Some (lit "b") ∧ keyDocs (mongo (shared x)) !! lit "b" = None ∧
    mongoCurrent sampleRepo (mongo (shared x)) = None ∧ is_Some (keyDocs (mongo (shared x)) !! lit "c").
Proof.
  do 2 eexists. split; [vm_compute; reflexivity|]. split; [vm_compute; reflexivity|]. split; [reflexivity|].
  split; [vm_compute; reflexivity|]. split; [vm_compute; reflexivity|]. split; [vm_compute; reflexivity|].
  vm_compute. eexists. reflexivity.
Qed.
