(* ===== verification/JwtProvider.v ===== *)
(** * jwt: the key repository in memory and the provider

    Models [src/jwt/repository.go], [options.go], the composing of headers and
    claims of [composer.go], and the key handling of [provider.go].

    The methods of the repository are processes whose commands are the critical
    sections of its lock; [create] runs inside one in [rotate], and outside in
    [forceRotate].  Signing, parsing and checking of tokens belong to the token
    library; what this package adds is the choice of the key, [keyFunc]. *)

From S2P Require Import Prelude GoError GoText Core GoEncoding Process JwtKey.

Local Open Scope Z_scope.

(** ** The repository *)

Section repository.
Context {R : CryptoRSA}.

Notation key := (option KeyChain).

Record keyChainRepository : Type := mkRepository { capacity : Z; keys : list key }.

Definition newKeyChainRepository (capacity : Z) : result keyChainRepository :=
  let capacity := if capacity =? 0 then defaultRepositorySize else capacity in
  if (capacity <? minRepositorySize) || (maxRepositorySize <? capacity)
  then Fail (OptionError "capacity" (errorsNew "outside repository capacity bounds"))
  else Ok (mkRepository capacity []).

(** The loop that two methods have: the first key that has not expired. *)
Fixpoint firstUnexpired (ks : list key) (now : Z) : option key :=
  match ks with
  | [] => None
  | k :: rest => if negb (Expired k now) then Some k else firstUnexpired rest now
  end.

Definition current (r : keyChainRepository) (now : Z) : result key :=
  match firstUnexpired (keys r) now with
  | Some k => Ok k
  | None => Fail (KeyError ErrKeyNotFound [] (errorsNew "current key not found"))
  end.

Fixpoint findLoop (ks : list key) (kid : bytes) (now : Z) : result key :=
  match ks with
  | [] => Fail (KeyError ErrKeyNotFound kid (errorsNew "key not found"))
  | k :: rest =>
      if bool_decide (KID k = kid) then
        if Expired k now then Fail (KeyError ErrInvalidKey kid (errorsNew "key expired")) else Ok k
      else findLoop rest kid now
  end.

Definition find (r : keyChainRepository) (kid : bytes) (now : Z) : result key :=
  match validateLookupKID kid with
  | Some err => Fail err
  | None => findLoop (keys r) kid now
  end.

Definition prependLocked (r : keyChainRepository) (k : key) : keyChainRepository :=
  let ks := k :: keys r in
  mkRepository (capacity r) (if capacity r <? Z.of_nat (length ks) then take (Z.to_nat (capacity r)) ks else ks).

(** The critical section of [rotate], with what [create] gives. *)
Definition rotateLocked (r : keyChainRepository) (create : result key) (now : Z) : result key * keyChainRepository :=
  match firstUnexpired (keys r) now with
  | Some k => (Ok k, r)
  | None =>
      match create with
      | Fail err => (Fail err, r)
      | Ok k => (Ok k, prependLocked r k)
      end
  end.

Inductive cmd : Type :=
| RCurrent (now : Z)
| RFind (kid : bytes) (now : Z)
| LRotate (now : Z)
| CreateKey
| LPrepend (k : key).

Definition resp (c : cmd) : Type :=
  match c with
  | LPrepend _ => unit
  | _ => result key
  end.

(** The environment chooses what [create] gives. *)
Definition exec (c : cmd) (create : result key) (r : keyChainRepository) : effect keyChainRepository (resp c) :=
  match c return effect keyChainRepository (resp c) with
  | RCurrent now => Answers (current r now) r
  | RFind kid now => Answers (find r kid now) r
  | LRotate now => let '(a, r') := rotateLocked r create now in Answers a r'
  | CreateKey => Answers create r
  | LPrepend k => Answers tt (prependLocked r k)
  end.

Definition rotate (now : Z) : prog resp (result key) :=
  found ← act (RCurrent now);
  match found with
  | Ok k => mret (Ok k)
  | Fail _ => act (LRotate now)
  end.

Definition forceRotate : prog resp (result key) :=
  made ← act CreateKey;
  match made with
  | Fail err => mret (Fail err)
  | Ok k => _ ← act (LPrepend k); mret (Ok k)
  end.

(** ** The configuration of a provider *)

Record providerConfig : Type := mkConfig {
  keyTTL : Z;
  cfgCapacity : Z;
  rsaKeyBits : Z
}.

(** A nil option is [None]. *)
Definition ProviderOption : Type := providerConfig → result providerConfig.

Definition WithKeyTTL (ttl : Z) : ProviderOption := λ cfg,
  if ttl <=? 0 then Fail (OptionError "key_ttl" (errorsNew "must be positive"))
  else Ok (mkConfig ttl (cfgCapacity cfg) (rsaKeyBits cfg)).

Definition WithRepositoryCapacity (capacity : Z) : ProviderOption := λ cfg,
  Ok (mkConfig (keyTTL cfg) capacity (rsaKeyBits cfg)).

Definition WithRSAKeyBits (bits : Z) : ProviderOption := λ cfg,
  if bits <? 2048 then Fail (OptionError "rsa_key_bits" (errorsNew "must be at least 2048"))
  else Ok (mkConfig (keyTTL cfg) (cfgCapacity cfg) bits).

Fixpoint applyOptions (options : list (option ProviderOption)) (cfg : providerConfig) : result providerConfig :=
  match options with
  | [] => Ok cfg
  | None :: _ => Fail (OptionError "option" (errorsNew "must not be nil"))
  | Some o :: rest =>
      match o cfg with
      | Fail err => Fail err
      | Ok cfg => applyOptions rest cfg
      end
  end.

Definition normalizeProviderConfig (options : list (option ProviderOption)) : result providerConfig :=
  applyOptions options (mkConfig defaultKeyTTL defaultRepositorySize defaultRSAKeyBits).

(** ** The provider *)

Record Provider : Type := mkProvider {
  p_algorithm : Algorithm;
  cfg : providerConfig;
  repo : option keyChainRepository;
  fixedKey : key
}.

Definition validateReady (p : option Provider) : option error :=
  match p with
  | None => Some (OptionError "provider" (errorsNew "must not be nil"))
  | Some p =>
      match fixedKey p, repo p with
      | None, None => Some (OptionError "provider" (errorsNew "must be constructed by a constructor"))
      | _, _ => None
      end
  end.

(** What a call of [createKeyChain] meets: the generator of identifiers, the
    source of randomness, the key generator of [crypto/rsa] and the clock. *)
Record keySource : Type := mkSource {
  src_keyID : option (result bytes);
  src_kidEntropy : nat → result bytes;
  src_secretEntropy : nat → result bytes;
  src_rsa : Z → result PrivateKey;
  src_now : Z
}.

Definition nextKID (s : keySource) : result bytes :=
  match src_keyID s with
  | Some kid => kid
  | None => generateKID (src_kidEntropy s)
  end.

Definition createKeyChain (p : Provider) (s : keySource) : result key :=
  match nextKID s with
  | Fail err => Fail err
  | Ok kid =>
      match hmacSecretLength (p_algorithm p) with
      | Some _ =>
          match generateHMACSecret (p_algorithm p) (src_secretEntropy s) with
          | Fail err => Fail err
          | Ok secret =>
              match newHMACKeyChain kid (p_algorithm p) secret (src_now s) (keyTTL (cfg p)) with
              | Fail err => Fail err
              | Ok k => Ok (Some k)
              end
          end
      | None =>
          match src_rsa s (rsaKeyBits (cfg p)) with
          | Fail err => Fail (KeyError ErrInvalidKey [] err)
          | Ok privateKey =>
              match newRSAKeyChain kid (p_algorithm p) (Some privateKey) (src_now s) (keyTTL (cfg p)) with
              | Fail err => Fail err
              | Ok k => Ok (Some k)
              end
          end
      end
  end.

Definition withRepo (p : Provider) (r : keyChainRepository) : Provider := mkProvider (p_algorithm p) (cfg p) (Some r) (fixedKey p).

(** [CurrentKeyChain] and [Rotate], as one call at a time sees them. *)
Definition Rotate (op : option Provider) (s : keySource) (now : Z) : result key * option Provider :=
  match validateReady op, op with
  | Some err, _ => (Fail err, op)
  | None, None => (Fail (errorsNew "unreachable"), op)
  | None, Some p =>
      match fixedKey p, repo p with
      | Some k, _ => (Ok (Some k), op)
      | None, None => (Fail (errorsNew "unreachable"), op)
      | None, Some r =>
          match current r now with
          | Ok k => (Ok k, op)
          | Fail _ => let '(a, r') := rotateLocked r (createKeyChain p s) now in (a, Some (withRepo p r'))
          end
      end
  end.

Definition ForcedRotate (op : option Provider) (s : keySource) : result key * option Provider :=
  match validateReady op, op with
  | Some err, _ => (Fail err, op)
  | None, None => (Fail (errorsNew "unreachable"), op)
  | None, Some p =>
      match fixedKey p, repo p with
      | Some _, _ => (Fail (OptionError "provider" (errorsNew "fixed provider cannot rotate")), op)
      | None, None => (Fail (errorsNew "unreachable"), op)
      | None, Some r =>
          match createKeyChain p s with
          | Fail err => (Fail err, op)
          | Ok k => (Ok k, Some (withRepo p (prependLocked r k)))
          end
      end
  end.

Definition FindKeyChain (op : option Provider) (kid : bytes) (now : Z) : result key :=
  match validateReady op, op with
  | Some err, _ => Fail err
  | None, None => Fail (errorsNew "unreachable")
  | None, Some p =>
      match fixedKey p, repo p with
      | Some k, _ =>
          if bool_decide (kid = []) || bool_decide (kid = JwtKey.kid k) then Ok (Some k)
          else Fail (KeyError ErrKeyNotFound kid (errorsNew "key not found"))
      | None, None => Fail (errorsNew "unreachable")
      | None, Some r => find r kid now
      end
  end.

Definition newRotatingProvider (a : Algorithm) (options : list (option ProviderOption)) (s : keySource) : result Provider :=
  match normalizeProviderConfig options with
  | Fail err => Fail err
  | Ok cfg =>
      match newKeyChainRepository (cfgCapacity cfg) with
      | Fail err => Fail err
      | Ok r =>
          match ForcedRotate (Some (mkProvider a cfg (Some r) None)) s with
          | (Ok _, Some p) => Ok p
          | (Ok _, None) => Fail (errorsNew "unreachable")
          | (Fail err, _) => Fail err
          end
      end
  end.

Definition NewHMACProvider (a : Algorithm) (options : list (option ProviderOption)) (s : keySource) : result Provider :=
  match hmacSecretLength a with
  | None => Fail (OptionError "algorithm" (errorsNew "algorithm must be hmac"))
  | Some _ => newRotatingProvider a options s
  end.

Definition NewRSAProvider (a : Algorithm) (options : list (option ProviderOption)) (s : keySource) : result Provider :=
  if negb (isRSA a) then Fail (OptionError "algorithm" (errorsNew "algorithm must be rsa"))
  else newRotatingProvider a options s.

Definition NewFixedHMACProvider (a : Algorithm) (secret : bytes) (options : list (option ProviderOption)) (s : keySource) : result Provider :=
  match normalizeProviderConfig options with
  | Fail err => Fail err
  | Ok cfg =>
      match nextKID s with
      | Fail err => Fail err
      | Ok kid =>
          match newHMACKeyChain kid a secret (src_now s) (keyTTL cfg) with
          | Fail err => Fail err
          | Ok k => Ok (mkProvider a cfg None (Some k))
          end
      end
  end.

Definition NewFixedRSAProvider (a : Algorithm) (privateKey : option PrivateKey) (options : list (option ProviderOption)) (s : keySource)
    : result Provider :=
  match normalizeProviderConfig options with
  | Fail err => Fail err
  | Ok cfg =>
      match nextKID s with
      | Fail err => Fail err
      | Ok kid =>
          match newRSAKeyChain kid a privateKey (src_now s) (keyTTL cfg) with
          | Fail err => Fail err
          | Ok k => Ok (mkProvider a cfg None (Some k))
          end
      end
  end.

Definition requireKeyAlgorithm (p : Provider) (k : key) : option error :=
  match k with
  | None => Some (KeyError ErrInvalidKey [] (errorsNew "key must not be nil"))
  | Some c =>
      if bool_decide (algorithm c ≠ p_algorithm p) then Some (KeyError ErrInvalidKey (kid c) (errorsNew "key algorithm mismatch"))
      else None
  end.
End repository.

(** ** Headers and claims *)

(** A value of a header or a claim: texts, lists of texts, numeric dates,
    durations, and what the package does not look at. *)
Inductive anyValue : Type :=
| AText (s : bytes)
| ATexts (l : list bytes)
| ADate (seconds : Z)
| ADuration (d : Z)
| AOther (z : Z).

Definition reservedHeaders : list bytes :=
  [lit "alg"; lit "kid"; lit "zip"; lit "crit"; lit "jku"; lit "jwk"; lit "x5u"; lit "x5c"].
Definition reservedClaims : list bytes :=
  [lit "iss"; lit "sub"; lit "aud"; lit "exp"; lit "nbf"; lit "iat"; lit "jti"].

Record composeConfig : Type := mkCompose { c_headers : gmap bytes anyValue; c_claims : gmap bytes anyValue }.

Definition newComposeConfig : composeConfig := mkCompose ∅ ∅.

Definition ComposeOption : Type := composeConfig → result composeConfig.

Definition withClaim (name : bytes) (v : anyValue) : ComposeOption := λ cfg, Ok (mkCompose (c_headers cfg) (<[name := v]> (c_claims cfg))).

(** [golangjwt.NewNumericDate]: the second, rounded down. *)
Definition NewNumericDate (t : Z) : anyValue := ADate (t / 1000000000).

Definition WithHeader (name : bytes) (v : anyValue) : ComposeOption := λ cfg,
  if bool_decide (name ∈ reservedHeaders) then Fail (OptionError "header" (errorsNew "reserved header"))
  else Ok (mkCompose (<[name := v]> (c_headers cfg)) (c_claims cfg)).

Definition WithClaim (name : bytes) (v : anyValue) : ComposeOption := λ cfg,
  if bool_decide (name ∈ reservedClaims) then Fail (OptionError "claim" (errorsNew "reserved claim"))
  else withClaim name v cfg.

Definition WithIssuer (issuer : bytes) : ComposeOption := withClaim (lit "iss") (AText issuer).
Definition WithSubject (subject : bytes) : ComposeOption := withClaim (lit "sub") (AText subject).
Definition WithAudience (audience : list bytes) : ComposeOption := withClaim (lit "aud") (ATexts audience).
Definition WithIssuedAt (t : Z) : ComposeOption := withClaim (lit "iat") (NewNumericDate t).
Definition WithNotBefore (t : Z) : ComposeOption := withClaim (lit "nbf") (NewNumericDate t).
Definition WithExpiresAt (t : Z) : ComposeOption := withClaim (lit "exp") (NewNumericDate t).
Definition WithJWTID (id : bytes) : ComposeOption := withClaim (lit "jti") (AText id).

Definition WithExpiresAfter (ttl : Z) : ComposeOption := λ cfg,
  if ttl <=? 0 then Fail (OptionError "expires_after" (errorsNew "must be positive"))
  else withClaim (lit "expires_after") (ADuration ttl) cfg.

Definition build (cfg : composeConfig) (now : Z) : gmap bytes anyValue * gmap bytes anyValue :=
  let headers := c_headers cfg ∪ {[lit "typ" := AText (lit "JWT")]} in
  let claims := c_claims cfg in
  let claims := match claims !! lit "expires_after" with
                | Some (ADuration ttl) => delete (lit "expires_after") (<[lit "exp" := NewNumericDate (now + ttl)]> claims)
                | _ => claims
                end in
  let claims := match claims !! lit "iat" with
                | None => <[lit "iat" := NewNumericDate now]> claims
                | Some _ => claims
                end in
  (headers, claims).

Fixpoint applyCompose (options : list (option ComposeOption)) (cfg : composeConfig) : result composeConfig :=
  match options with
  | [] => Ok cfg
  | None :: _ => Fail (OptionError "compose_option" (errorsNew "must not be nil"))
  | Some o :: rest =>
      match o cfg with
      | Fail err => Fail err
      | Ok cfg => applyCompose rest cfg
      end
  end.

Section tokens.
Context {R : CryptoRSA}.

(** What is handed to the token library: the headers, the claims and the key.
    [NewWithClaims] has set [typ] and [alg]. *)
Record unsigned : Type := mkUnsigned { u_headers : gmap bytes anyValue; u_claims : gmap bytes anyValue; u_key : material }.

Definition composeWithKey (p : Provider) (k : option KeyChain) (options : list (option ComposeOption)) (now : Z) : result unsigned :=
  match requireKeyAlgorithm p k with
  | Some err => Fail err
  | None =>
      match signingMethod (p_algorithm p), k with
      | Fail err, _ => Fail err
      | Ok _, None => Fail (errorsNew "unreachable")
      | Ok method, Some c =>
          match applyCompose options newComposeConfig with
          | Fail err => Fail err
          | Ok cfg =>
              let '(headers, claims) := build cfg now in
              let headers := <[lit "kid" := AText (kid c)]> headers in
              Ok (mkUnsigned (headers ∪ {[lit "alg" := AText method; lit "typ" := AText (lit "JWT")]}) claims (signingKey c))
          end
      end
  end.

(** [Compose], up to the signature. *)
Definition Compose (op : option Provider) (options : list (option ComposeOption)) (s : keySource) (now : Z)
    : result unsigned * option Provider :=
  match validateReady op, op with
  | Some err, _ => (Fail err, op)
  | None, None => (Fail (errorsNew "unreachable"), op)
  | None, Some p =>
      match Rotate op s now with
      | (Fail err, op') => (Fail err, op')
      | (Ok k, op') => (composeWithKey p k options now, op')
      end
  end.

Definition rejectUnsupportedInboundHeaders (headers : gmap bytes anyValue) : option error :=
  if bool_decide (Exists (λ h, h ∈ reservedHeaders ∧ h ≠ lit "alg" ∧ h ≠ lit "kid") (map_to_list headers).*1)
  then Some (TokenError ErrInvalidToken (Some (errorsNew "unsupported header")))
  else None.

(** [token.Header[name].(string)], with the empty text for anything else. *)
Definition headerText (headers : gmap bytes anyValue) (name : bytes) : bytes :=
  match headers !! name with
  | Some (AText s) => s
  | _ => []
  end.

(** The key that the token library is given for a token with these headers. *)
Definition keyFunc (p : Provider) (now : Z) (headers : gmap bytes anyValue) : result material :=
  match rejectUnsupportedInboundHeaders headers with
  | Some err => Fail err
  | None =>
      if bool_decide (headerText headers (lit "alg") ≠ p_algorithm p)
      then Fail (TokenError ErrInvalidToken (Some (errorsNew "algorithm mismatch")))
      else
        let kid := headerText headers (lit "kid") in
        let found :=
          match fixedKey p with
          | Some k => if bool_decide (kid = []) then Ok (Some k) else FindKeyChain (Some p) kid now
          | None => match repo p with
                    | Some r => find r kid now
                    | None => Fail (errorsNew "unreachable")
                    end
          end in
        match found with
        | Fail err => Fail (TokenError ErrInvalidToken (Some err))
        | Ok None => Fail (TokenError ErrInvalidToken (Some (errorsNew "key algorithm mismatch")))
        | Ok (Some k) =>
            if bool_decide (algorithm k ≠ p_algorithm p)
            then Fail (TokenError ErrInvalidToken (Some (errorsNew "key algorithm mismatch")))
            else Ok (verificationKey k)
        end
  end.
End tokens.
