(* ===== verification/JwtProviderLaws.v ===== *)
(** * jwt: laws of the key repository in memory and of the provider

    The repository keeps the newest [capacity] keys, so the tokens of a key can
    be checked until that many newer keys were made; rotations at the same time
    make one key. *)

From S2P Require Import Prelude GoError GoText Core GoEncoding Process JwtKey JwtRotation JwtProvider.

Local Open Scope Z_scope.

Section repository.
Context {R : CryptoRSA}.

(** ** What the repository keeps *)

Record repoOk (r : keyChainRepository) : Prop := mkRepoOk {
  ro_capacity : minRepositorySize ≤ capacity r ≤ maxRepositorySize;
  ro_length : Z.of_nat (length (keys r)) ≤ capacity r
}.

Lemma newKeyChainRepository_ok cap r : newKeyChainRepository cap = Ok r → repoOk r ∧ keys r = [].
Proof.
  unfold newKeyChainRepository. destruct (_ || _) eqn:Hb; [done|]. intros [= <-]. apply orb_false_iff in Hb as [H1%Z.ltb_ge H2%Z.ltb_ge].
  split; [|done]. split; cbn [capacity keys length]; [done|]. unfold minRepositorySize in *. cbn. lia.
Qed.

Lemma prepend_keys r k : keys (prependLocked r k) = take (Z.to_nat (capacity r)) (k :: keys r) ∧ capacity (prependLocked r k) = capacity r.
Proof.
  unfold prependLocked. cbn [keys capacity]. split; [|done]. destruct (_ <? _) eqn:Hl; [done|]. apply Z.ltb_ge in Hl.
  symmetry. apply take_ge. lia.
Qed.

Lemma prepend_ok r k : repoOk r → repoOk (prependLocked r k).
Proof. intros [H1 H2]. destruct (prepend_keys r k) as [Hk Hc]. split; rewrite Hc; [done|]. rewrite Hk, length_take. lia. Qed.

(** The newest [capacity] keys of all that were ever prepended. *)
Lemma prepend_all r ks :
  repoOk r →
  keys (foldl prependLocked r ks) = take (Z.to_nat (capacity r)) (reverse ks ++ keys r) ∧
  capacity (foldl prependLocked r ks) = capacity r.
Proof.
  revert r. induction ks as [|k ks IH]; intros r Hr; cbn [foldl].
  - rewrite reverse_nil. split; [|done]. cbn. symmetry. apply take_ge. pose proof (ro_length r Hr). lia.
  - destruct (IH _ (prepend_ok r k Hr)) as [-> ->]. destruct (prepend_keys r k) as [-> ->]. split; [|done].
    rewrite reverse_cons, <-app_assoc. cbn [app].
    rewrite !take_app. f_equal. rewrite take_take. f_equal. lia.
Qed.

(** [find] gives the newest key of an identifier, when it has not expired. *)
Lemma findLoop_lookup ks kid now j k :
  ks !! j = Some k → KID k = kid → (∀ i k', (i < j)%nat → ks !! i = Some k' → KID k' ≠ kid) → Expired k now = false →
  findLoop ks kid now = Ok k.
Proof.
  revert j. induction ks as [|k0 ks IH]; intros [|j] Hj Hk Hn He; cbn [findLoop]; try done; cbn in Hj.
  - injection Hj as ->. by rewrite bool_decide_true, He by done.
  - rewrite bool_decide_false by (apply (Hn 0%nat); [lia|done]). eapply IH; [done|done| |done].
    intros i k' Hi. apply (Hn (S i)). lia.
Qed.

Lemma findLoop_Ok ks kid now k : findLoop ks kid now = Ok k → k ∈ ks ∧ KID k = kid ∧ Expired k now = false.
Proof.
  induction ks as [|k0 ks IH]; cbn [findLoop]; [done|]. case_bool_decide as Hk.
  - destruct (Expired k0 now) eqn:He; [done|]. intros [= <-]. split; [left|done].
  - intros Hf. destruct (IH Hf) as (? & ? & ?). split; [by right|done].
Qed.

Lemma firstUnexpired_spec ks now k : firstUnexpired ks now = Some k → k ∈ ks ∧ Expired k now = false.
Proof.
  induction ks as [|k0 ks IH]; cbn [firstUnexpired]; [done|]. destruct (Expired k0 now) eqn:He; cbn [negb].
  - intros Hf. destruct (IH Hf). split; [by right|done].
  - intros [= <-]. split; [left|done].
Qed.

(** ** Rotations at the same time *)

Section agreement.
Context (t0 t1 : Z).

Definition steady (k : option KeyChain) : Prop := Expired k t0 = Expired k t1.

Lemma steady_between k now : steady k → t0 ≤ now ≤ t1 → Expired k now = Expired k t0.
Proof. destruct k as [k|]; [|done]. apply Expired_between. Qed.

Lemma firstUnexpired_steady ks now : Forall steady ks → t0 ≤ now ≤ t1 → firstUnexpired ks now = firstUnexpired ks t0.
Proof.
  intros Hs Hn. induction Hs as [|k ks Hk Hs IH]; [done|]. cbn [firstUnexpired]. rewrite (steady_between k now Hk Hn). by destruct (Expired k t0).
Qed.

(** A goroutine holds the key it has found, if any. *)
Definition memPre (h : option (option KeyChain)) (c : cmd) : Prop :=
  match c with
  | RCurrent now | LRotate now => t0 ≤ now ≤ t1
  | RFind _ _ => True
  | CreateKey | LPrepend _ => False
  end.

Definition memPost (h : option (option KeyChain)) (c : cmd) : resp c → option (option KeyChain) :=
  match c return resp c → option (option KeyChain) with
  | RCurrent _ | LRotate _ => λ a, match a with Ok k => Some k | Fail _ => None end
  | _ => λ _, h
  end.

Definition memFinal (h : option (option KeyChain)) (a : result (option KeyChain)) : Prop :=
  match a with Ok k => h = Some k | Fail _ => True end.

Definition memInv (n : Z) (r : keyChainRepository) (hs : list (option (option KeyChain))) : Prop :=
  repoOk r ∧ Forall steady (keys r) ∧ ∀ i k, hs !! i = Some (Some k) → firstUnexpired (keys r) t0 = Some k.

Definition lasting (create : result (option KeyChain)) : Prop := ∀ k, create = Ok k → Expired k t0 = false ∧ Expired k t1 = false.

Lemma rotate_keeps now : t0 ≤ now ≤ t1 → keeps memPre memPost memFinal None (rotate now).
Proof. intros Hn. unfold rotate. cbn. split; [done|]. intros [k|e]; cbn; [done|]. split; [done|]. by intros [k|e']. Qed.

Lemma firstUnexpired_prepend r k : repoOk r → Expired k t0 = false → firstUnexpired (keys (prependLocked r k)) t0 = Some k.
Proof.
  intros [Hc _] He. destruct (prepend_keys r k) as [-> _]. destruct (Z.to_nat (capacity r)) eqn:Hz; [unfold minRepositorySize in Hc; lia|].
  cbn. by rewrite He.
Qed.

Lemma exec_mem lim n r hs i h c ch :
  memInv n r hs → n < lim → lasting ch → hs !! i = Some h → memPre h c →
  match exec c ch r with Waits => True | Panics => False | Answers a r' => memInv (n + 1) r' (<[i := memPost h c a]> hs) end.
Proof.
  intros (Hr & Hs & Hh) _ Hl Hi Hp.
  assert (Hsame : ∀ g, (∀ k, g = Some k → firstUnexpired (keys r) t0 = Some k) → memInv (n + 1) r (<[i := g]> hs)).
  { intros g Hg. split; [done|]. split; [done|]. intros j k Hj. changed; eauto. }
  destruct c as [now|kid now|now| |k]; cbn [exec memPre] in *; try done.
  - apply Hsame. cbn. unfold current. rewrite (firstUnexpired_steady _ _ Hs Hp). destruct (firstUnexpired (keys r) t0); [|done].
    by intros k [= <-].
  - apply Hsame. cbn. intros k ->. eauto.
  - unfold rotateLocked. rewrite (firstUnexpired_steady _ _ Hs Hp). destruct (firstUnexpired (keys r) t0) as [k|] eqn:Hf.
    + apply Hsame. cbn. by intros ? [= <-].
    + destruct ch as [k|e]; [|by apply Hsame]. destruct (Hl k eq_refl) as [H1 H2].
      split; [by apply prepend_ok|]. split.
      * destruct (prepend_keys r k) as [-> _]. apply Forall_take, Forall_cons. split; [congruence|done].
      * intros j k' Hj. changed; [|apply Hh in Hj; congruence]. cbn in *. simplify_eq. by apply firstUnexpired_prepend.
Qed.
End agreement.
End repository.

(** ** Headers *)

(** The options of the package. *)
Inductive packageOption : ComposeOption → Prop :=
| PHeader name v : packageOption (WithHeader name v)
| PClaim name v : packageOption (WithClaim name v)
| PIssuer s : packageOption (WithIssuer s)
| PSubject s : packageOption (WithSubject s)
| PAudience l : packageOption (WithAudience l)
| PIssuedAt t : packageOption (WithIssuedAt t)
| PNotBefore t : packageOption (WithNotBefore t)
| PExpiresAt t : packageOption (WithExpiresAt t)
| PExpiresAfter d : packageOption (WithExpiresAfter d)
| PJWTID s : packageOption (WithJWTID s).

Definition freeHeaders (cfg : composeConfig) : Prop := ∀ h, is_Some (c_headers cfg !! h) → h ∉ reservedHeaders.

Lemma packageOption_free o cfg cfg' : packageOption o → freeHeaders cfg → o cfg = Ok cfg' → freeHeaders cfg'.
Proof.
  intros Ho Hf. destruct Ho; unfold WithHeader, WithClaim, WithExpiresAfter, withClaim;
    try match goal with |- (if ?b then _ else _) = _ → _ => destruct b eqn:Hb; [done|] end; intros [= <-]; try exact Hf.
  apply bool_decide_eq_false in Hb. intros h. cbn. rewrite lookup_insert_is_Some. intros [<-|[_ Hh]]; [done|by apply Hf].
Qed.

Lemma applyCompose_free options cfg cfg' :
  Forall (λ o, ∃ f, o = Some f ∧ packageOption f) options → freeHeaders cfg → applyCompose options cfg = Ok cfg' → freeHeaders cfg'.
Proof.
  intros Ho. revert cfg. induction Ho as [|o options (f & -> & Hf) _ IH]; intros cfg Hc; cbn [applyCompose]; [by intros [= <-]|].
  destruct (f cfg) as [cfg1|] eqn:He; [|done]. apply IH. by eapply packageOption_free.
Qed.

Section tokens.
Context {R : CryptoRSA}.

Lemma composeWithKey_spec p k options now u :
  Forall (λ o, ∃ f, o = Some f ∧ packageOption f) options → composeWithKey p (Some k) options now = Ok u →
  algorithm k = p_algorithm p ∧ u_key u = signingKey k ∧ headerText (u_headers u) (lit "alg") = p_algorithm p ∧
  headerText (u_headers u) (lit "kid") = kid k ∧ rejectUnsupportedInboundHeaders (u_headers u) = None.
Proof.
  intros Ho. unfold composeWithKey, requireKeyAlgorithm. case_bool_decide as Ha; [done|].
  unfold signingMethod. destruct (_ || _); [|done]. destruct (applyCompose options newComposeConfig) as [cfg|] eqn:Hc; [|done].
  assert (Hf : freeHeaders cfg). { eapply applyCompose_free; [done| |done]. intros h [? Hh]. cbn in Hh. by rewrite lookup_empty in Hh. }
  cbn [build fst snd]. intros [= <-]. cbn [u_headers u_key]. split; [done|]. split; [done|].
  assert (Hall : ∀ h, h ∈ reservedHeaders → c_headers cfg !! h = None).
  { intros h Hh. destruct (c_headers cfg !! h) eqn:E; [|done]. by destruct (Hf h); eauto. }
  assert (Htyp : lit "typ" ∉ reservedHeaders) by (apply (bool_decide_eq_false_1 _); vm_compute; reflexivity).
  unfold headerText. split; [|split].
  - rewrite lookup_union_r; [by rewrite lookup_insert_eq|]. rewrite lookup_insert_ne by done. rewrite lookup_union_r by (apply Hall; left). by rewrite lookup_singleton_ne.
  - rewrite (lookup_union_Some_l _ _ _ (AText (kid k))); [done|]. by rewrite lookup_insert_eq.
  - unfold rejectUnsupportedInboundHeaders. rewrite bool_decide_false; [done|]. rewrite Exists_exists. intros (h & Hin & Hres & Hna & Hnk).
    apply list_elem_of_fmap in Hin as ([h' v] & -> & Hin%elem_of_map_to_list). cbn [fst] in *.
    assert (h' ≠ lit "typ") by (intros ->; done).
    rewrite lookup_union_r in Hin; [by rewrite lookup_insert_ne, lookup_singleton_ne in Hin by done|].
    rewrite lookup_insert_ne by done. rewrite lookup_union_r by (by apply Hall). by rewrite lookup_singleton_ne.
Qed.

(** Forced rotations, one after the other. *)
Definition forcedRotations (op : option Provider) (ss : list keySource) : option Provider :=
  foldl (λ op s, (ForcedRotate op s).2) op ss.

(** How many of them made a key. *)
Fixpoint newKeys (op : option Provider) (ss : list keySource) : nat :=
  match ss with
  | [] => 0
  | s :: rest =>
      let '(res, op') := ForcedRotate op s in
      ((match res with Ok _ => 1 | Fail _ => 0 end) + newKeys op' rest)%nat
  end.

Lemma forcedRotations_keys p r ss kid :
  fixedKey p = None → repo p = Some r → Forall (λ s, nextKID s ≠ Ok kid) ss →
  ∃ ks, forcedRotations (Some p) ss = Some (withRepo p (foldl prependLocked r ks)) ∧ length ks = newKeys (Some p) ss ∧
        Forall (λ k, KID k ≠ kid) ks.
Proof.
  intros Hx Hr Hk. revert p r Hx Hr. induction Hk as [|s ss Hs _ IH]; intros p r Hx Hr.
  { exists []. destruct p as [a c re f]; cbn in *; subst. by split_and!. }
  change (forcedRotations (Some p) (s :: ss)) with (forcedRotations (ForcedRotate (Some p) s).2 ss).
  cbn [newKeys]. unfold ForcedRotate, validateReady. rewrite Hx, Hr.
  destruct (createKeyChain p s) as [k|e] eqn:Hc; cbn [snd].
  - destruct (IH (withRepo p (prependLocked r k)) (prependLocked r k)) as (ks & -> & Hl & Hf); [done|done|].
    exists (k :: ks). cbn [foldl length withRepo p_algorithm cfg fixedKey]. split; [done|]. split; [by rewrite Hl|]. apply Forall_cons. split; [|done].
    unfold createKeyChain in Hc. destruct (nextKID s) as [kd|]; [|done]. assert (Hkd : KID k = kd).
    { unfold newHMACKeyChain, newRSAKeyChain in Hc. repeat case_match; simplify_eq; done. }
    rewrite Hkd. intros ->. done.
  - destruct (IH p r Hx Hr) as (ks & H1 & H2 & H3). exists ks. split; [done|]. by split.
Qed.
End tokens.

(** ** jwt: properties of the provider

    Tokens stay verifiable through rotations, only keys of the provider verify
    them, and rotations at the same time make one key. *)

(** C8. A token stays verifiable through rotations: the headers of a token
    that was composed with the key [k] lead [keyFunc] to the verification key
    of [k] after further forced rotations, some of which may fail, as long as the
    keys that they made and the keys that were in front of [k] before are fewer
    than the capacity, the identifiers of these are different, and [k] has not
    expired.  A rotation that fails costs no room. *)
Theorem tokens_survive_rotation {R : CryptoRSA} p r k j options now u ss now' :
  fixedKey p = None → repo p = Some r → repoOk r → validateKID (kid k) = None →
  keys r !! j = Some (Some k) → (∀ i k', (i < j)%nat → keys r !! i = Some k' → KID k' ≠ kid k) →
  Forall (λ o, ∃ f, o = Some f ∧ packageOption f) options → composeWithKey p (Some k) options now = Ok u →
  Forall (λ s, nextKID s ≠ Ok (kid k)) ss → Z.of_nat (newKeys (Some p) ss + j) < capacity r → Expired (Some k) now' = false →
  u_key u = signingKey k ∧
  ∃ p', forcedRotations (Some p) ss = Some p' ∧ keyFunc p' now' (u_headers u) = Ok (verificationKey k).
Proof.
  intros Hx Hr Hok Hv Hj Hu Ho Hc Hs Hl He. destruct (composeWithKey_spec _ _ _ _ _ Ho Hc) as (Ha & Hk & Halg & Hkid & Hrej).
  split; [done|]. destruct (forcedRotations_keys p r ss (kid k) Hx Hr Hs) as (ks & -> & Hlen & Hne). eexists. split; [done|].
  unfold keyFunc. rewrite Hrej. cbn [p_algorithm withRepo fixedKey repo]. rewrite Halg, Hx, Hkid, bool_decide_false by (by intros []).
  destruct (prepend_all r ks Hok) as [Hks _].
  assert (Hf : find (foldl prependLocked r ks) (kid k) now' = Ok (Some k)).
  { unfold find, validateLookupKID. rewrite bool_decide_false, Hv by (intros E; by rewrite E in Hv). rewrite Hks.
    apply (findLoop_lookup _ _ _ (length ks + j)); [| | |done].
    - rewrite lookup_take_lt by lia. rewrite lookup_app_r, length_reverse by (rewrite length_reverse; lia).
      replace (length ks + j - length ks)%nat with j by lia. exact Hj.
    - done.
    - intros i k' Hi Hk'. apply lookup_take_Some in Hk' as [Hk' _]. apply lookup_app_Some in Hk' as [Hk'|[Hge Hk']].
      + apply list_elem_of_lookup_2 in Hk'. rewrite elem_of_reverse in Hk'. rewrite Forall_forall in Hne. by apply Hne.
      + rewrite length_reverse in *. apply (Hu (i - length ks)%nat); [lia|done]. }
  rewrite Hf. cbn. by rewrite bool_decide_false by (by intros []).
Qed.

(** Only a key of the provider verifies a token: when [keyFunc] gives a key,
    the token's algorithm is the provider's, it has no header that the package
    does not support, and the key is the fixed key, or a key of the repository
    that has the token's identifier, the provider's algorithm, and has not
    expired. *)
Theorem keyFunc_safe {R : CryptoRSA} p now headers m :
  keyFunc p now headers = Ok m →
  headerText headers (lit "alg") = p_algorithm p ∧
  (∀ h, is_Some (headers !! h) → h ∈ reservedHeaders → h = lit "alg" ∨ h = lit "kid") ∧
  ∃ k, m = verificationKey k ∧ algorithm k = p_algorithm p ∧
    ((fixedKey p = Some k ∧ (headerText headers (lit "kid") = [] ∨ headerText headers (lit "kid") = kid k)) ∨
     (fixedKey p = None ∧ ∃ r, repo p = Some r ∧ Some k ∈ keys r ∧ kid k = headerText headers (lit "kid") ∧ Expired (Some k) now = false)).
Proof.
  unfold keyFunc. destruct (rejectUnsupportedInboundHeaders headers) eqn:Hrej; [done|]. case_bool_decide as Halg; [done|].
  assert (Hh : ∀ h, is_Some (headers !! h) → h ∈ reservedHeaders → h = lit "alg" ∨ h = lit "kid").
  { intros h [v Hv] Hres. unfold rejectUnsupportedInboundHeaders in Hrej. case_bool_decide as Hex; [done|].
    destruct (decide (h = lit "alg")) as [->|H1]; [by left|]. destruct (decide (h = lit "kid")) as [->|H2]; [by right|].
    destruct Hex. apply Exists_exists. exists h. split; [|done]. apply list_elem_of_fmap. exists (h, v). split; [done|]. by apply elem_of_map_to_list. }
  intros Hm. split; [done|]. split; [done|]. destruct (fixedKey p) as [k0|] eqn:Hf.
  - assert (Hk : ∃ k, m = verificationKey k ∧ algorithm k = p_algorithm p ∧ k = k0 ∧ (headerText headers (lit "kid") = [] ∨ headerText headers (lit "kid") = kid k0)).
    { case_bool_decide as He; [|unfold FindKeyChain, validateReady in Hm; rewrite Hf in Hm;
        rewrite (bool_decide_false _ He) in Hm; cbn [orb] in Hm; case_bool_decide as Hk0; [|done]].
      all: case_bool_decide as Ha; [done|]; injection Hm as <-; exists k0; auto. }
    destruct Hk as (k & H1 & H2 & -> & H3). exists k0. split; [done|]. split; [done|]. by left.
  - destruct (repo p) as [r|] eqn:Hr; [|done]. destruct (find r _ now) as [[k|]|] eqn:Hk; [|done..].
    case_bool_decide as Ha; [done|]. injection Hm as <-. exists k. split; [done|]. split; [done|]. right. split; [done|]. exists r. split; [done|].
    unfold find in Hk. destruct (validateLookupKID _); [done|]. by apply findLoop_Ok in Hk.
Qed.

(** Rotations of a repository in memory agree: any number of [rotate] calls
    that run at the same time, with clocks between [t0] and [t1] in which no
    key of the repository expires, and with [create] giving keys that last, end
    with the same key, or with an error of [create]. *)
Theorem memory_rotations_agree {R : CryptoRSA} t0 t1 r nows sched x :
  repoOk r → Forall (steady t0 t1) (keys r) → Forall (λ now, t0 ≤ now ≤ t1) nows → Forall (λ s, lasting t0 t1 s.2) sched →
  run exec sched (mkSystem r (rotate <$> nows) false) = Some x →
  repoOk (shared x) ∧
  ∀ i k, procs x !! i = Some (Ret (Ok k)) → current (shared x) t0 = Ok k.
Proof.
  intros Hr Hs Hn Hl Hrun.
  assert (Hgood : good (memPre t0 t1) memPost memFinal (memInv t0 t1) (0 + Z.of_nat (length sched)) x).
  { apply (run_good exec _ _ _ _ (Z.of_nat (length sched)) (lasting t0 t1) (exec_mem t0 t1 (Z.of_nat (length sched))) sched 0
             (mkSystem r (rotate <$> nows) false)); [|lia|done|done].
    split; [done|]. exists (replicate (length nows) None). split.
    - split; [done|]. split; [done|]. intros i k [? _]%lookup_replicate_1. done.
    - cbn [procs]. apply Forall2_fmap_r, Forall2_replicate_l; [done|]. eapply Forall_impl; [exact Hn|]. intros now Ht. by apply rotate_keeps. }
  destruct Hgood as (_ & hs & (Hok & _ & Hh) & Hk). split; [done|]. intros i k Hi.
  destruct (Forall2_lookup_r _ _ _ _ _ Hk Hi) as (h & Hhi & Hf). cbn in Hf. subst h. unfold current. by rewrite (Hh i k Hhi).
Qed.

(** ** A sample *)

#[local] Existing Instances sampleRSA sampleJSON.

Definition sampleProvider : Provider :=
  mkProvider HS256 (mkConfig 1000 2 2048) (Some (mkRepository 2 [Some (key "a" 0)])) None.
Definition sampleSource : keySource :=
  mkSource (Some (Ok (lit "b"))) (λ n, Ok (repeat 1 n)) (λ n, Ok (repeat 1 n)) (λ _, Ok tt) 5.
(** A rotation without random bytes fails. *)
Definition dryRotation : keySource :=
  mkSource (Some (Ok (lit "c"))) (λ _, Fail (Sentinel "entropy")) (λ _, Fail (Sentinel "entropy")) (λ _, Ok tt) 5.
Definition sampleOptions : list (option ComposeOption) :=
  [Some (WithHeader (lit "typ") (AText (lit "at+jwt"))); Some (WithExpiresAfter 60000000000)].

Lemma tokens_survive_rotation_witness :
  ∃ u p', composeWithKey sampleProvider (Some (key "a" 0)) sampleOptions 1 = Ok u ∧
    forcedRotations (Some sampleProvider) [dryRotation; sampleSource; dryRotation] = Some p' ∧ keyFunc p' 10 (u_headers u) = Ok (Secret secret).
Proof.
  eexists. destruct (tokens_survive_rotation sampleProvider (mkRepository 2 [Some (key "a" 0)]) (key "a" 0) 0 sampleOptions 1
    (match composeWithKey sampleProvider (Some (key "a" 0)) sampleOptions 1 with Ok u => u | Fail _ => mkUnsigned ∅ ∅ (Secret []) end)
    [dryRotation; sampleSource; dryRotation] 10) as (_ & p' & H1 & H2).
  - reflexivity.
  - reflexivity.
  - split; vm_compute; [split; discriminate|discriminate].
  - reflexivity.
  - reflexivity.
  - intros i k' Hi. lia.
  - apply Forall_cons. split; [eexists; split; [done|apply PHeader]|]. apply Forall_cons. split; [eexists; split; [done|apply PExpiresAfter]|by apply Forall_nil].
  - reflexivity.
  - repeat (apply Forall_cons; split; [vm_compute; discriminate|]). by apply Forall_nil.
  - vm_compute. reflexivity.
  - reflexivity.
  - exists p'. split; [reflexivity|]. split; [exact H1|exact H2].
Defined.
