(* ===== verification/Graph.v ===== *)
(** * Graph elements and paths

    Models src/graph: errors.go, types.go and path.go without their JSON
    methods.  A property value is a string, [nil] or another Go value [V], of
    which the package only keeps a reference; a weight is a float64 ([spec_float]
    with 53 bits of precision). *)

From Stdlib Require Import SpecFloat.
From S2P Require Import Prelude GoError GoText.

Local Open Scope Z_scope.

(** ** errors.go *)

Definition ErrInvalidElementID : string := "graph.ErrInvalidElementID".
Definition ErrInvalidLabel : string := "graph.ErrInvalidLabel".
Definition ErrInvalidVertex : string := "graph.ErrInvalidVertex".
Definition ErrInvalidEdge : string := "graph.ErrInvalidEdge".
Definition ErrInvalidPath : string := "graph.ErrInvalidPath".

(** [&ValidationError{Kind, Field, Summary, Cause}]: [Unwrap] gives the kind and
    the cause. *)
Definition validationError (kind field summary : string) (cause : option error) : error :=
  Typed "graph.ValidationError" [FStr field; FStr summary] [kind] cause.

(** ** Identifiers and labels *)

Definition ElementID : Type := text.
Definition Label : Type := text.

(** [ElementID.Validate] *)
Definition ElementID_Validate (id : ElementID) : option error :=
  match TrimSpace id with
  | [] => Some (validationError ErrInvalidElementID "id" "blank value" None)
  | _ => None
  end.

Definition NewElementID (value : text) : result ElementID :=
  let id := TrimSpace value in
  match ElementID_Validate id with Some err => Fail err | None => Ok id end.

Definition ElementIDFromInt (value : Z) : result ElementID :=
  if value <? 0 then Fail (validationError ErrInvalidElementID "id" "negative integer id" None)
  else Ok (Itoa (Z.to_nat value)).

(** [MustElementID]: [None] is a panic. *)
Definition MustElementID (value : text) : option ElementID :=
  match NewElementID value with Ok id => Some id | Fail _ => None end.

(** [Label.Validate] *)
Definition Label_Validate (label : Label) : option error :=
  match TrimSpace label with
  | [] => Some (validationError ErrInvalidLabel "label" "blank value" None)
  | _ => None
  end.

Definition NewLabel (value : text) : result Label :=
  let label := TrimSpace value in
  match Label_Validate label with Some err => Fail err | None => Ok label end.

(** ** Vertices and edges *)

(** A value of type [any] in a property map. *)
Inductive any (V : Type) : Type :=
| AText (s : text)
| ANil
| AOther (v : V).
Arguments AText {V} s.
Arguments ANil {V}.
Arguments AOther {V} v.

Section elements.
Context {V : Type}.

(** [map[string]any]; [None] is the nil map. *)
Definition Properties : Type := option (gmap text (any V)).

(** [Properties.Clone]: a new map with the entries of [p], one by one. *)
Definition Properties_Clone (p : Properties) : Properties :=
  match p with
  | None => None
  | Some m => Some (map_fold (λ key value clone, <[key := value]> clone) ∅ m)
  end.

Record Vertex := mkVertex { v_id : ElementID; v_label : Label; v_properties : Properties }.

(** [Vertex{}] *)
Definition zeroVertex : Vertex := mkVertex [] [] None.

Definition NewVertex (id : ElementID) (label : Label) (properties : Properties) : result Vertex :=
  match ElementID_Validate id with
  | Some err => Fail err
  | None =>
      match Label_Validate label with
      | Some err => Fail err
      | None => Ok (mkVertex id label (Properties_Clone properties))
      end
  end.

Definition ParseVertex (id label : text) (properties : Properties) : result Vertex :=
  match NewElementID id with
  | Fail err => Fail err
  | Ok parsedID =>
      match NewLabel label with
      | Fail err => Fail err
      | Ok parsedLabel => NewVertex parsedID parsedLabel properties
      end
  end.

(** [Vertex.Properties] *)
Definition Vertex_Properties (v : Vertex) : Properties := Properties_Clone (v_properties v).

(** [Vertex.Validate] *)
Definition Vertex_Validate (v : Vertex) : option error :=
  match ElementID_Validate (v_id v) with
  | Some err => Some (validationError ErrInvalidVertex "id" "invalid vertex id" (Some err))
  | None =>
      match Label_Validate (v_label v) with
      | Some err => Some (validationError ErrInvalidVertex "label" "invalid vertex label" (Some err))
      | None => None
      end
  end.

Record EdgeEndpoints := mkEndpoints { Start : ElementID; End : ElementID }.

(** [EdgeEndpoints.Validate] *)
Definition EdgeEndpoints_Validate (endpoints : EdgeEndpoints) : option error :=
  match ElementID_Validate (Start endpoints) with
  | Some err => Some (validationError ErrInvalidElementID "start" "invalid start endpoint" (Some err))
  | None =>
      match ElementID_Validate (End endpoints) with
      | Some err => Some (validationError ErrInvalidElementID "end" "invalid end endpoint" (Some err))
      | None => None
      end
  end.

Record RawEdgeEndpoints := mkRawEndpoints { RawStart : text; RawEnd : text }.

Record Edge := mkEdge {
  e_id : ElementID;
  e_label : Label;
  e_endpoints : EdgeEndpoints;
  e_properties : Properties
}.

(** [Edge{}] *)
Definition zeroEdge : Edge := mkEdge [] [] (mkEndpoints [] []) None.

Definition NewEdge (id : ElementID) (label : Label) (endpoints : EdgeEndpoints) (properties : Properties) : result Edge :=
  match ElementID_Validate id with
  | Some err => Fail err
  | None =>
      match Label_Validate label with
      | Some err => Fail err
      | None =>
          match EdgeEndpoints_Validate endpoints with
          | Some err => Fail err
          | None => Ok (mkEdge id label endpoints (Properties_Clone properties))
          end
      end
  end.

Definition ParseEdge (id label : text) (endpoints : RawEdgeEndpoints) (properties : Properties) : result Edge :=
  match NewElementID id with
  | Fail err => Fail err
  | Ok parsedID =>
      match NewLabel label with
      | Fail err => Fail err
      | Ok parsedLabel =>
          match NewElementID (RawStart endpoints) with
          | Fail err => Fail err
          | Ok start =>
              match NewElementID (RawEnd endpoints) with
              | Fail err => Fail err
              | Ok finish => NewEdge parsedID parsedLabel (mkEndpoints start finish) properties
              end
          end
      end
  end.

Definition StartID (e : Edge) : ElementID := Start (e_endpoints e).
Definition EndID (e : Edge) : ElementID := End (e_endpoints e).

(** [Edge.Properties] *)
Definition Edge_Properties (e : Edge) : Properties := Properties_Clone (e_properties e).

(** [Edge.Validate] *)
Definition Edge_Validate (e : Edge) : option error :=
  match ElementID_Validate (e_id e) with
  | Some err => Some (validationError ErrInvalidEdge "id" "invalid edge id" (Some err))
  | None =>
      match Label_Validate (e_label e) with
      | Some err => Some (validationError ErrInvalidEdge "label" "invalid edge label" (Some err))
      | None =>
          match EdgeEndpoints_Validate (e_endpoints e) with
          | Some err => Some (validationError ErrInvalidEdge "endpoints" "invalid edge endpoints" (Some err))
          | None => None
          end
      end
  end.

(** ** Paths *)

Inductive PathStep : Type :=
| pathStepInvalid
| pathStepVertex (vertex : Vertex)
| pathStepEdge (edge : Edge).

Definition VertexStep (vertex : Vertex) : result PathStep :=
  match Vertex_Validate vertex with
  | Some err => Fail (validationError ErrInvalidPath "vertex" "invalid vertex step" (Some err))
  | None => Ok (pathStepVertex vertex)
  end.

Definition EdgeStep (edge : Edge) : result PathStep :=
  match Edge_Validate edge with
  | Some err => Fail (validationError ErrInvalidPath "edge" "invalid edge step" (Some err))
  | None => Ok (pathStepEdge edge)
  end.

Definition IsVertex (step : PathStep) : bool := match step with pathStepVertex _ => true | _ => false end.
Definition IsEdge (step : PathStep) : bool := match step with pathStepEdge _ => true | _ => false end.

(** [PathStep.Vertex] and [PathStep.Edge] *)
Definition stepVertex (step : PathStep) : option Vertex :=
  match step with pathStepVertex v => Some v | _ => None end.
Definition stepEdge (step : PathStep) : option Edge :=
  match step with pathStepEdge e => Some e | _ => None end.

(** [PathStep.Validate] *)
Definition PathStep_Validate (step : PathStep) : option error :=
  match step with
  | pathStepVertex vertex =>
      match Vertex_Validate vertex with
      | Some err => Some (validationError ErrInvalidPath "vertex" "invalid vertex step" (Some err))
      | None => None
      end
  | pathStepEdge edge =>
      match Edge_Validate edge with
      | Some err => Some (validationError ErrInvalidPath "edge" "invalid edge step" (Some err))
      | None => None
      end
  | pathStepInvalid => Some (validationError ErrInvalidPath "step" "missing step value" None)
  end.

(** [a + b] on float64. *)
Definition float64_add : spec_float → spec_float → spec_float := SFadd 53 1024.
Definition float64_one : spec_float := S754_finite false 4503599627370496 (-52).

(** [weight >= 0 && !math.IsNaN(weight) && !math.IsInf(weight, 0)] *)
Definition validWeight (weight : spec_float) : bool :=
  SFleb (S754_zero false) weight &&
  negb (match weight with S754_nan => true | _ => false end) &&
  negb (match weight with S754_infinity _ => true | _ => false end).

Record Path := mkPath { p_steps : list PathStep; p_totalWeight : spec_float }.

Definition EmptyPath : Path := mkPath [] (S754_zero false).

(** The loop of [NewWeightedPath] that validates and copies the steps. *)
Fixpoint copySteps (steps copied : list PathStep) : result (list PathStep) :=
  match steps with
  | [] => Ok copied
  | step :: rest =>
      match PathStep_Validate step with
      | Some err => Fail err
      | None => copySteps rest (copied ++ [step])
      end
  end.

Definition NewWeightedPath (weight : spec_float) (steps : list PathStep) : result Path :=
  if negb (validWeight weight) then Fail (validationError ErrInvalidPath "total_weight" "invalid path weight" None)
  else match copySteps steps [] with
       | Fail err => Fail err
       | Ok copied => Ok (mkPath copied weight)
       end.

Definition NewPath (steps : list PathStep) : result Path :=
  let weight := foldl (λ weight step, if IsEdge step then float64_add weight float64_one else weight)
                      (S754_zero false) steps in
  NewWeightedPath weight steps.

Definition Vertices (path : Path) : list Vertex := omap stepVertex (p_steps path).
Definition Edges (path : Path) : list Edge := omap stepEdge (p_steps path).

(** [Path.Length] *)
Definition Path_Length (path : Path) : nat :=
  foldl (λ count step, if IsEdge step then S count else count) 0%nat (p_steps path).

Definition IsEmpty (path : Path) : bool := match p_steps path with [] => true | _ => false end.

(** [Path.Validate] *)
Definition Path_Validate (path : Path) : option error :=
  if negb (validWeight (p_totalWeight path))
  then Some (validationError ErrInvalidPath "total_weight" "invalid path weight" None)
  else match copySteps (p_steps path) [] with Fail err => Some err | Ok _ => None end.

(** ** Laws *)

Lemma Properties_Clone_id p : Properties_Clone p = p.
Proof.
  destruct p as [m|]; [|done]. cbn [Properties_Clone]. f_equal.
  apply (map_fold_weak_ind (λ acc m, acc = m)); [done|]. by intros i x m' r _ ->.
Qed.

(** An identifier the package hands out is trimmed and not blank. *)
Lemma NewElementID_Ok value id : NewElementID value = Ok id ↔ id = TrimSpace value ∧ id ≠ [].
Proof.
  unfold NewElementID, ElementID_Validate. rewrite TrimSpace_idem.
  destruct (TrimSpace value) eqn:E; split; naive_solver.
Qed.

Lemma NewLabel_Ok value label : NewLabel value = Ok label ↔ label = TrimSpace value ∧ label ≠ [].
Proof.
  unfold NewLabel, Label_Validate. rewrite TrimSpace_idem.
  destruct (TrimSpace value) eqn:E; split; naive_solver.
Qed.

(** A string that is its own identifier: trimmed and not blank. *)
Definition trimmed (s : text) : Prop := TrimSpace s = s ∧ s ≠ [].
#[global] Instance trimmed_dec s : Decision (trimmed s).
Proof. unfold trimmed. apply _. Defined.

Lemma trimmed_TrimSpace s : TrimSpace s ≠ [] → trimmed (TrimSpace s).
Proof. split; [apply TrimSpace_idem|done]. Qed.

Lemma trimmed_id s : trimmed s → NewElementID s = Ok s.
Proof. intros [Ht Hs]. by rewrite NewElementID_Ok, Ht. Qed.

Lemma trimmed_label s : trimmed s → NewLabel s = Ok s.
Proof. intros [Ht Hs]. by rewrite NewLabel_Ok, Ht. Qed.

Lemma trimmed_valid s : trimmed s → ElementID_Validate s = None ∧ Label_Validate s = None.
Proof. unfold ElementID_Validate, Label_Validate. intros [-> Hs]. by destruct s. Qed.

Lemma ParseVertex_Ok id label ps v :
  ParseVertex id label ps = Ok v ↔
  v = mkVertex (TrimSpace id) (TrimSpace label) ps ∧ TrimSpace id ≠ [] ∧ TrimSpace label ≠ [].
Proof.
  unfold ParseVertex. split.
  - destruct (NewElementID id) eqn:Hi; [|done]. apply NewElementID_Ok in Hi as [-> Hi].
    destruct (NewLabel label) eqn:Hl; [|done]. apply NewLabel_Ok in Hl as [-> Hl].
    unfold NewVertex. destruct (trimmed_valid _ (trimmed_TrimSpace _ Hi)) as [-> _].
    destruct (trimmed_valid _ (trimmed_TrimSpace _ Hl)) as [_ ->].
    rewrite Properties_Clone_id. by intros [= <-].
  - intros (-> & Hi & Hl).
    rewrite (proj2 (NewElementID_Ok _ _) (conj eq_refl Hi)), (proj2 (NewLabel_Ok _ _) (conj eq_refl Hl)).
    unfold NewVertex. destruct (trimmed_valid _ (trimmed_TrimSpace _ Hi)) as [-> _].
    destruct (trimmed_valid _ (trimmed_TrimSpace _ Hl)) as [_ ->].
    by rewrite Properties_Clone_id.
Qed.

Lemma ParseEdge_Ok id label es ps e :
  ParseEdge id label es ps = Ok e ↔
  e = mkEdge (TrimSpace id) (TrimSpace label) (mkEndpoints (TrimSpace (RawStart es)) (TrimSpace (RawEnd es))) ps ∧
  TrimSpace id ≠ [] ∧ TrimSpace label ≠ [] ∧ TrimSpace (RawStart es) ≠ [] ∧ TrimSpace (RawEnd es) ≠ [].
Proof.
  unfold ParseEdge, NewEdge, EdgeEndpoints_Validate. split.
  - destruct (NewElementID id) eqn:Hi; [|done]. apply NewElementID_Ok in Hi as [-> Hi].
    destruct (NewLabel label) eqn:Hl; [|done]. apply NewLabel_Ok in Hl as [-> Hl].
    destruct (NewElementID (RawStart es)) eqn:Hs; [|done]. apply NewElementID_Ok in Hs as [-> Hs].
    destruct (NewElementID (RawEnd es)) eqn:He; [|done]. apply NewElementID_Ok in He as [-> He].
    cbn [Start End]. destruct (trimmed_valid _ (trimmed_TrimSpace _ Hi)) as [-> _].
    destruct (trimmed_valid _ (trimmed_TrimSpace _ Hl)) as [_ ->].
    destruct (trimmed_valid _ (trimmed_TrimSpace _ Hs)) as [-> _].
    destruct (trimmed_valid _ (trimmed_TrimSpace _ He)) as [-> _].
    rewrite Properties_Clone_id. by intros [= <-].
  - intros (-> & Hi & Hl & Hs & He).
    rewrite (proj2 (NewElementID_Ok _ _) (conj eq_refl Hi)), (proj2 (NewLabel_Ok _ _) (conj eq_refl Hl)),
      (proj2 (NewElementID_Ok _ _) (conj eq_refl Hs)), (proj2 (NewElementID_Ok _ _) (conj eq_refl He)).
    cbn [Start End]. destruct (trimmed_valid _ (trimmed_TrimSpace _ Hi)) as [-> _].
    destruct (trimmed_valid _ (trimmed_TrimSpace _ Hl)) as [_ ->].
    destruct (trimmed_valid _ (trimmed_TrimSpace _ Hs)) as [-> _].
    destruct (trimmed_valid _ (trimmed_TrimSpace _ He)) as [-> _].
    by rewrite Properties_Clone_id.
Qed.

Lemma copySteps_Ok steps copied out :
  copySteps steps copied = Ok out ↔ out = copied ++ steps ∧ Forall (λ s, PathStep_Validate s = None) steps.
Proof.
  revert copied. induction steps as [|s steps IH]; intros copied; cbn [copySteps].
  - rewrite app_nil_r, Forall_nil. naive_solver.
  - rewrite Forall_cons. destruct (PathStep_Validate s) eqn:E; [naive_solver|].
    rewrite IH, <-(assoc_L app). naive_solver.
Qed.

Lemma Path_Length_edges path : Path_Length path = length (Edges path).
Proof.
  unfold Path_Length, Edges. rewrite <-(Nat.add_0_l (length _)). generalize 0%nat.
  induction (p_steps path) as [|s steps IH]; intros n; [cbn; lia|].
  cbn [foldl omap list_omap]. rewrite IH. destruct s; cbn; lia.
Qed.

(** A path is exactly what its constructor accepts: a valid weight and valid
    steps, kept in order; such a path is valid, and its vertices and edges are
    valid. *)
Theorem path_well_formed weight steps path :
  NewWeightedPath weight steps = Ok path ↔
  path = mkPath steps weight ∧ Path_Validate path = None.
Proof.
  unfold NewWeightedPath, Path_Validate. split.
  - destruct (validWeight weight) eqn:Hw; [|done]. cbn [negb].
    destruct (copySteps steps []) as [c|] eqn:Hc; [|done]. intros [= <-].
    apply copySteps_Ok in Hc as [-> HF]. cbn [p_totalWeight p_steps app]. rewrite Hw. split; [done|].
    cbn [negb]. by rewrite (proj2 (copySteps_Ok steps [] steps) (conj eq_refl HF)).
  - intros [-> Hv]. cbn [p_totalWeight p_steps] in Hv. destruct (validWeight weight); [|done].
    cbn [negb] in *. destruct (copySteps steps []) as [c|] eqn:Hc; [|done].
    by apply copySteps_Ok in Hc as [-> _].
Qed.

End elements.

Arguments Vertex V : clear implicits.
Arguments Edge V : clear implicits.
Arguments Properties V : clear implicits.
Arguments PathStep V : clear implicits.
Arguments Path V : clear implicits.
