(* ===== verification/GoCsv.v ===== *)
(** * Go's package encoding/csv

    Models the [Writer] and the [Reader] of Go's standard library with the
    settings the repository uses (comma [','], no comment character, strict
    quotes, [FieldsPerRecord] negative), on strings that are lists of code
    points.  The delimiters are ASCII, so that a byte that is compared with one
    is a code point. *)

From S2P Require Import Prelude GoError GoText.

Local Open Scope Z_scope.

Definition COMMA : Z := 44.
Definition QUOTE : Z := 34.
Definition CR : Z := 13.
Definition LF : Z := 10.

Definition EOF : error := Sentinel "io.EOF".
Definition ErrQuote : error := Typed "csv.ParseError" [] [] (Some (Sentinel "csv.ErrQuote")).
Definition ErrBareQuote : error := Typed "csv.ParseError" [] [] (Some (Sentinel "csv.ErrBareQuote")).

(** ** Writer *)

Definition special (c : Z) : bool := (c =? LF) || (c =? CR) || (c =? QUOTE) || (c =? COMMA).

Definition fieldNeedsQuotes (field : text) : bool :=
  match field with
  | [] => false
  | r1 :: _ => bool_decide (field = [92; 46]) || existsb special field || isSpace r1
  end.

(** The body of a quoted field: a quote is doubled. *)
Definition encodeBody (field : text) : text :=
  flat_map (λ c, if c =? QUOTE then [QUOTE; QUOTE] else [c]) field.

Definition encodeField (field : text) : text :=
  if fieldNeedsQuotes field then QUOTE :: encodeBody field ++ [QUOTE] else field.

(** The text of [Writer.Write]: the fields, a comma between two of them, a
    newline. *)
Definition encodeRow (row : list text) : text := Join (map encodeField row) COMMA ++ [LF].

(** A writer over an [io.Writer].  [cw_out] is the text of the rows that were
    written without an error; [cw_err] the error of the buffer, which stays.
    [cw_sink] answers whether the flush that a write may cause fails, and with
    what; it is told the text it would have to hold. *)
Record csvWriter (W : Type) := mkCsvWriter {
  cw_sink : text → Call W (option error);
  cw_out : text;
  cw_err : option error
}.
Arguments mkCsvWriter {W}.
Arguments cw_sink {W}.
Arguments cw_out {W}.
Arguments cw_err {W}.

Section writer.
Context {W : Type}.

Definition NewWriter (sink : text → Call W (option error)) : csvWriter W := mkCsvWriter sink [] None.

Definition writer_Write (row : list text) (cw : csvWriter W) : Call W (option error * csvWriter W) :=
  match cw_err cw with
  | Some err => mret (Some err, cw)
  | None =>
      let out := cw_out cw ++ encodeRow row in
      answer ← cw_sink cw out;
      mret (match answer with
            | Some err => (Some err, mkCsvWriter (cw_sink cw) (cw_out cw) (Some err))
            | None => (None, mkCsvWriter (cw_sink cw) out None)
            end)
  end.

(** [Flush], then [Error]. *)
Definition writer_Flush (cw : csvWriter W) : Call W (option error * csvWriter W) :=
  match cw_err cw with
  | Some err => mret (Some err, cw)
  | None =>
      answer ← cw_sink cw (cw_out cw);
      mret (answer, mkCsvWriter (cw_sink cw) (cw_out cw) answer)
  end.
End writer.

(** ** Reader *)

(** The text up to the first occurrence of [c], and what follows it. *)
Fixpoint breakAt (c : Z) (s : text) : text * option text :=
  match s with
  | [] => ([], None)
  | x :: s' => if x =? c then ([], Some s') else let '(a, b) := breakAt c s' in (x :: a, b)
  end.

(** The first line with its newline, and the rest. *)
Fixpoint cutLine (s : text) : text * text :=
  match s with
  | [] => ([], [])
  | x :: s' => if x =? LF then ([LF], s') else let '(l, r) := cutLine s' in (x :: l, r)
  end.

(** [\r\n] at the end of a line becomes [\n]; a line that the end of the input
    cuts loses its last [\r]. *)
Definition normalizeLine (l : text) : text :=
  match reverse l with
  | x :: y :: r => if (x =? LF) && (y =? CR) then reverse r ++ [LF]
                   else if x =? CR then reverse (y :: r) else l
  | [x] => if x =? CR then [] else l
  | [] => l
  end.

(** [Reader.readLine]: the next line, what follows, and whether the input is at
    its end. *)
Definition readLine (s : text) : text * text * bool :=
  match s with
  | [] => ([], [], true)
  | _ => let '(l, r) := cutLine s in (normalizeLine l, r, false)
  end.

(** Lines that hold nothing are skipped. *)
Fixpoint firstLine (fuel : nat) (s : text) : option (text * text) :=
  match fuel with
  | O => None
  | S fuel' =>
      let '(line, rest, eof) := readLine s in
      if eof then None
      else if bool_decide (line = [] ∨ line = [LF]) then firstLine fuel' rest
      else Some (line, rest)
  end.

Definition startsWith (c : Z) (line : text) : bool := match line with x :: _ => c =? x | [] => false end.

Definition dropNL (line : text) : text :=
  match reverse line with x :: r => if x =? LF then reverse r else line | [] => line end.

(** [readRecord] from the beginning of a field ([quoted = false]) or inside of a
    quoted one, with what it holds in [buf]; [line] is what is left of the line,
    [rest] the lines after it.  [None]: the fuel is used up. *)
Fixpoint parseFields (fuel : nat) (quoted : bool) (line rest buf : text) (fields : list text) : option (result (list text)) :=
  match fuel with
  | O => None
  | S fuel' =>
      if quoted then
        match breakAt QUOTE line with
        | (pre, Some after) =>
            match after with
            | c :: after' =>
                if c =? QUOTE then parseFields fuel' true after' rest (buf ++ pre ++ [QUOTE]) fields
                else if c =? COMMA then parseFields fuel' false after' rest [] (fields ++ [buf ++ pre])
                else if bool_decide (after = [LF]) then Some (Ok (fields ++ [buf ++ pre]))
                else Some (Fail ErrQuote)
            | [] => Some (Ok (fields ++ [buf ++ pre]))
            end
        | (_, None) =>
            match line with
            | [] => Some (Fail ErrQuote)
            | _ => let '(line', rest', _) := readLine rest in
                   parseFields fuel' true line' rest' (buf ++ line) fields
            end
        end
      else if startsWith QUOTE line then parseFields fuel' true (tail line) rest [] fields
      else
        match breakAt COMMA line with
        | (field, Some after) =>
            if existsb (Z.eqb QUOTE) field then Some (Fail ErrBareQuote)
            else parseFields fuel' false after rest [] (fields ++ [field])
        | (_, None) =>
            let field := dropNL line in
            if existsb (Z.eqb QUOTE) field then Some (Fail ErrBareQuote)
            else Some (Ok (fields ++ [field]))
        end
  end.

(** [csv.NewReader(bytes.NewReader(raw)).Read()] *)
Definition reader_Read (raw : text) : option (result (list text)) :=
  match firstLine (S (length raw)) raw with
  | None => Some (Fail EOF)
  | Some (line, rest) => parseFields (S (length line + length rest)) false line rest [] []
  end.

(** ** The fuel is enough *)

Lemma breakAt_spec c s :
  match breakAt c s with
  | (a, Some b) => s = a ++ c :: b ∧ c ∉ a
  | (a, None) => s = a ∧ c ∉ s
  end.
Proof.
  induction s as [|x s IH]; cbn [breakAt]; [set_solver|].
  destruct (x =? c) eqn:E; bools; [subst; set_solver|].
  destruct (breakAt c s) as [a [b|]]; destruct IH as [-> IH]; set_solver.
Qed.

Lemma cutLine_app s : (cutLine s).1 ++ (cutLine s).2 = s.
Proof.
  induction s as [|x s IH]; [done|]. cbn [cutLine]. destruct (x =? LF) eqn:E; bools; [by subst|].
  destruct (cutLine s). cbn in *. by rewrite IH.
Qed.

Lemma cutLine_pos s : s ≠ [] → (1 ≤ length (cutLine s).1)%nat.
Proof. destruct s as [|x s]; [done|]. cbn [cutLine]. destruct (x =? LF); [cbn; lia|]. destruct (cutLine s). cbn. lia. Qed.

Lemma normalizeLine_length l : (length (normalizeLine l) ≤ length l)%nat.
Proof.
  unfold normalizeLine. destruct (reverse l) as [|x [|y r]] eqn:E; [done|destruct (x =? CR); cbn; lia|].
  apply (f_equal length) in E. rewrite length_reverse in E. cbn in E.
  destruct (_ && _); [rewrite length_app, length_reverse; cbn; lia|].
  destruct (x =? CR); [rewrite length_reverse; cbn; lia|lia].
Qed.

Lemma readLine_length s line rest eof :
  readLine s = (line, rest, eof) → (length line + length rest ≤ length s)%nat ∧ (eof = false → (length rest < length s)%nat).
Proof.
  unfold readLine. destruct s as [|x s]; [by intros [= <- <- <-]; cbn|].
  pose proof (cutLine_app (x :: s)) as Happ. pose proof (cutLine_pos (x :: s)) as Hpos.
  destruct (cutLine (x :: s)) as [l r]. cbn [fst snd] in *. intros [= <- <- <-].
  apply (f_equal length) in Happ. rewrite length_app in Happ.
  pose proof (normalizeLine_length l). specialize (Hpos ltac:(done)). lia.
Qed.

Lemma firstLine_fuel f1 f2 s :
  (length s < f1)%nat → (length s < f2)%nat → firstLine f1 s = firstLine f2 s.
Proof.
  revert f2 s. induction f1 as [|f1 IH]; intros [|f2] s H1 H2; [lia..|]. cbn [firstLine].
  destruct (readLine s) as [[line rest] eof] eqn:E. apply readLine_length in E as [E1 E2].
  destruct eof; [done|]. specialize (E2 eq_refl). case_bool_decide; [|done]. apply IH; lia.
Qed.

Lemma parseFields_total fuel quoted line rest buf fields :
  (length line + length rest < fuel)%nat → is_Some (parseFields fuel quoted line rest buf fields).
Proof.
  revert quoted line rest buf fields. induction fuel as [|fuel IH]; intros quoted line rest buf fields Hf; [lia|].
  cbn [parseFields]. destruct quoted.
  - pose proof (breakAt_spec QUOTE line) as Hb. destruct (breakAt QUOTE line) as [pre [tl|]].
    + destruct Hb as [-> _]. rewrite length_app in Hf. cbn in Hf. destruct tl as [|c tl]; [done|].
      cbn in Hf. repeat case_match; try done; apply IH; lia.
    + destruct line as [|x line]; [done|]. destruct (readLine rest) as [[l r] eof] eqn:E.
      apply readLine_length in E as [E _]. cbn in Hf. apply IH. lia.
  - destruct line as [|x line]; cbn [startsWith tail].
    + cbn [breakAt]. by case_match.
    + cbn in Hf. destruct (QUOTE =? x); [apply IH; lia|].
      pose proof (breakAt_spec COMMA (x :: line)) as Hb. destruct (breakAt COMMA (x :: line)) as [pre [tl|]].
      * destruct Hb as [Hb _]. apply (f_equal length) in Hb. rewrite length_app in Hb. cbn in Hb.
        case_match; [done|]. apply IH. lia.
      * by case_match.
Qed.

Lemma reader_Read_total raw : is_Some (reader_Read raw).
Proof.
  unfold reader_Read. destruct (firstLine _ _) as [[line rest]|]; [|done].
  apply parseFields_total. lia.
Qed.

(** ** Round trip

    A reader turns [\r\n] inside of a field into [\n]; other fields come back as
    they were written. *)

Fixpoint noCRLF (s : text) : bool :=
  match s with
  | x :: (y :: _) as s' => negb ((x =? CR) && (y =? LF)) && noCRLF s'
  | _ => true
  end.

Lemma noCRLF_cons x s : noCRLF (x :: s) = negb ((x =? CR) && startsWith LF s) && noCRLF s.
Proof. destruct s as [|y s]; cbn [noCRLF startsWith]; [by rewrite andb_false_r|]. by rewrite (Z.eqb_sym LF y). Qed.

Lemma noCRLF_tail x s : noCRLF (x :: s) = true → noCRLF s = true.
Proof. rewrite noCRLF_cons. intros H. by bools. Qed.

Lemma cutLine_cons x s : x ≠ LF → cutLine (x :: s) = (x :: (cutLine s).1, (cutLine s).2).
Proof. intros Hx. cbn [cutLine]. apply Z.eqb_neq in Hx as ->. by destruct (cutLine s). Qed.

Lemma cutLine_LF s : LF ∈ s → ∃ a, (cutLine s).1 = a ++ [LF] ∧ LF ∉ a ∧ s = a ++ LF :: (cutLine s).2.
Proof.
  induction s as [|x s IH]; [set_solver|]. intros Hin.
  destruct (decide (x = LF)) as [->|Hx].
  { exists []. split; [done|]. split; [set_solver|done]. }
  rewrite cutLine_cons by done. destruct IH as (a & Ha & Hn & Hs); [set_solver|].
  exists (x :: a). cbn. rewrite Ha. split; [done|]. split; [set_solver|]. by rewrite Hs at 1.
Qed.

Lemma readLine_clean s : noCRLF s = true → LF ∈ s → readLine s = (cutLine s, false).
Proof.
  intros Hc Hin. destruct (cutLine_LF s Hin) as (a & Ha & Hn & Hs). unfold readLine.
  destruct s as [|x s]; [set_solver|]. destruct (cutLine (x :: s)) as [l r]. cbn [fst snd] in *. subst l.
  enough (normalizeLine (a ++ [LF]) = a ++ [LF]) as -> by done.
  unfold normalizeLine. rewrite reverse_snoc. destruct a as [|y a _] using rev_ind; [done|].
  rewrite reverse_snoc, Z.eqb_refl. cbn [andb].
  destruct (y =? CR) eqn:E; bools; [|done]. subst y. exfalso. rewrite Hs in Hc. clear -Hc. revert Hc.
  rewrite <-(assoc_L app). induction a as [|z a IH]; intros Hc; [by cbn in Hc|].
  by apply noCRLF_tail in Hc.
Qed.

Lemma noCRLF_body f s : noCRLF (encodeBody f ++ QUOTE :: s) = noCRLF f && noCRLF s.
Proof.
  induction f as [|c f IH]; cbn [encodeBody flat_map app].
  - by rewrite noCRLF_cons.
  - fold (encodeBody f). rewrite <-(assoc_L app). rewrite (noCRLF_cons c f). destruct (c =? QUOTE) eqn:E; bools.
    + subst c. cbn [app]. by rewrite !noCRLF_cons, IH.
    + cbn [app]. rewrite noCRLF_cons, IH, andb_assoc. do 3 f_equal.
      destruct f as [|d f]; [done|]. cbn. destruct (d =? QUOTE) eqn:Ed; bools; [by subst|done].
Qed.

Lemma noCRLF_bare f s : existsb special f = false → noCRLF (f ++ s) = noCRLF s.
Proof.
  induction f as [|c f IH]; [done|]. cbn [existsb app]. intros H. bools.
  rewrite noCRLF_cons, IH by done. unfold special in *. bools. by rewrite (proj2 (Z.eqb_neq c CR)).
Qed.

(** A character of a quoted field that is neither a quote nor a newline. *)
Lemma quoted_char c fuel line rest buf fields :
  c ≠ QUOTE → line ≠ [] →
  parseFields (S fuel) true (c :: line) rest buf fields = parseFields (S fuel) true line rest (buf ++ [c]) fields.
Proof.
  intros Hq Hl. cbn [parseFields breakAt]. apply Z.eqb_neq in Hq as ->.
  destruct (breakAt QUOTE line) as [pre [after|]].
  - by rewrite <-!(assoc_L app).
  - destruct line as [|x line]; [done|]. destruct (readLine rest) as [[line' rest'] ?]. by rewrite <-(assoc_L app).
Qed.

Lemma cutLine_nonempty s : s ≠ [] → (cutLine s).1 ≠ [].
Proof. intros H. apply cutLine_pos in H. by destruct (cutLine s).1; cbn in *; [lia|]. Qed.

Lemma quoted_body f s buf fields fuel :
  noCRLF (encodeBody f ++ QUOTE :: s) = true → LF ∈ s →
  (length (encodeBody f ++ QUOTE :: s) < fuel)%nat →
  ∃ fuel', (length (QUOTE :: s) < fuel')%nat ∧
  let t := cutLine (encodeBody f ++ QUOTE :: s) in
  let t' := cutLine (QUOTE :: s) in
  parseFields fuel true t.1 t.2 buf fields = parseFields fuel' true t'.1 t'.2 (buf ++ f) fields.
Proof.
  intros Hc Hs. revert buf fuel Hc. induction f as [|c f IH]; intros buf fuel Hc Hf.
  { exists fuel. by rewrite app_nil_r. }
  revert Hc Hf. cbn [encodeBody flat_map]. fold (encodeBody f). rewrite <-(assoc_L app).
  destruct fuel as [|fuel]; [lia|]. set (T := encodeBody f ++ QUOTE :: s) in *.
  destruct (c =? QUOTE) eqn:E; bools; cbn [app]; intros Hc Hf.
  - subst c. apply noCRLF_tail in Hc. cbn in Hf.
    destruct (IH (buf ++ [] ++ [QUOTE]) fuel) as (fuel' & Hf' & HE); [by apply noCRLF_tail in Hc|lia|].
    exists fuel'. split; [done|]. rewrite (cutLine_cons QUOTE (QUOTE :: T)), (cutLine_cons QUOTE T) by done.
    cbn [fst snd parseFields breakAt]. rewrite !Z.eqb_refl. cbn zeta in HE. rewrite HE. by rewrite <-(assoc_L app).
  - cbn in Hf. destruct (decide (c = LF)) as [->|Hn].
    + destruct (IH (buf ++ [LF]) fuel) as (fuel' & Hf' & HE); [by apply noCRLF_tail in Hc|lia|].
      exists fuel'. split; [done|]. cbn [cutLine]. cbn [fst snd]. rewrite Z.eqb_refl. cbn [fst snd parseFields breakAt].
      rewrite (proj2 (Z.eqb_neq LF QUOTE)) by done. rewrite (readLine_clean T) by
        (first [by apply noCRLF_tail in Hc|unfold T; set_solver]).
      rewrite <-(assoc_L app) in HE. destruct (cutLine T). exact HE.
    + destruct (IH (buf ++ [c]) (S fuel)) as (fuel' & Hf' & HE); [by apply noCRLF_tail in Hc|lia|].
      exists fuel'. split; [done|]. rewrite (cutLine_cons c) by done. cbn [fst snd].
      rewrite quoted_char; [|done|apply cutLine_nonempty; unfold T; destruct (encodeBody f); discriminate].
      by rewrite <-(assoc_L app) in HE.
Qed.

Lemma breakAt_app c a b : c ∉ a → breakAt c (a ++ c :: b) = (a, Some b).
Proof.
  induction a as [|x a IH]; cbn [app breakAt]; [by rewrite Z.eqb_refl|]. intros H.
  apply not_elem_of_cons in H as [Hx H]. rewrite IH by done. by rewrite (proj2 (Z.eqb_neq x c)) by done.
Qed.

Lemma breakAt_none c a : c ∉ a → breakAt c a = (a, None).
Proof.
  induction a as [|x a IH]; cbn [breakAt]; [done|]. intros H.
  apply not_elem_of_cons in H as [Hx H]. rewrite IH by done. by rewrite (proj2 (Z.eqb_neq x c)) by done.
Qed.

Lemma cutLine_bare a s : LF ∉ a → cutLine (a ++ s) = (a ++ (cutLine s).1, (cutLine s).2).
Proof.
  induction a as [|x a IH]; cbn [app]; [by destruct (cutLine s)|]. intros H.
  apply not_elem_of_cons in H as [Hx H]. by rewrite cutLine_cons, IH by done.
Qed.

Lemma special_free f : existsb special f = false → LF ∉ f ∧ CR ∉ f ∧ QUOTE ∉ f ∧ COMMA ∉ f.
Proof.
  intros H. assert (∀ c, c ∈ f → special c = false) as Hall.
  { intros c Hc. destruct (special c) eqn:E; [|done]. exfalso.
    enough (existsb special f = true) by congruence. apply existsb_exists. exists c. by rewrite <-list_elem_of_In. }
  repeat split; intros Hc; by apply Hall in Hc.
Qed.

Lemma bare_field f : fieldNeedsQuotes f = false → existsb special f = false.
Proof. destruct f as [|r f]; [done|]. cbn [fieldNeedsQuotes]. intros H. by bools. Qed.

Lemma existsb_quote f : QUOTE ∉ f → existsb (Z.eqb QUOTE) f = false.
Proof.
  intros H. destruct (existsb _ f) eqn:E; [|done]. apply existsb_exists in E as (x & Hx & Ex). bools. subst.
  by rewrite list_elem_of_In in H.
Qed.

Lemma startsWith_bare f s : QUOTE ∉ f → startsWith QUOTE s = false → startsWith QUOTE (f ++ s) = false.
Proof. destruct f as [|x f]; [done|]. cbn [app startsWith]. intros H _. apply Z.eqb_neq. set_solver. Qed.

(** One field that is followed by a comma. *)
Lemma parse_field f s fields fuel :
  noCRLF (encodeField f ++ COMMA :: s) = true → LF ∈ s →
  (length (encodeField f ++ COMMA :: s) < fuel)%nat →
  ∃ fuel', (length s < fuel')%nat ∧
  let t := cutLine (encodeField f ++ COMMA :: s) in
  parseFields fuel false t.1 t.2 [] fields = parseFields fuel' false (cutLine s).1 (cutLine s).2 [] (fields ++ [f]).
Proof.
  unfold encodeField. destruct fuel as [|fuel]; [lia|]. destruct (fieldNeedsQuotes f) eqn:E.
  - cbn [app]. rewrite <-(assoc_L app). cbn [app]. intros Hc Hs Hf. apply noCRLF_tail in Hc. cbn in Hf.
    destruct (quoted_body f (COMMA :: s) [] fields fuel) as (fuel' & Hf' & HE); [done|set_solver|lia|].
    cbn zeta in HE. cbn in Hf'. destruct fuel' as [|fuel']; [lia|]. exists fuel'. split; [lia|].
    rewrite cutLine_cons by done. cbn [fst snd parseFields startsWith tail]. rewrite Z.eqb_refl, HE.
    rewrite (cutLine_cons QUOTE), (cutLine_cons COMMA) by done.
    cbn [fst snd parseFields breakAt]. rewrite !Z.eqb_refl. by rewrite app_nil_r.
  - apply bare_field in E. apply special_free in E as (HL & HR & HQ & HC). intros Hc Hs Hf.
    rewrite length_app in Hf. cbn in Hf. exists fuel. split; [lia|]. rewrite cutLine_bare, cutLine_cons by done.
    cbn [fst snd parseFields]. rewrite startsWith_bare by done. by rewrite breakAt_app, existsb_quote by done.
Qed.

(** The last field. *)
Lemma parse_last f fields fuel :
  noCRLF (encodeField f ++ [LF]) = true → (length (encodeField f ++ [LF]) < fuel)%nat →
  let t := cutLine (encodeField f ++ [LF]) in
  parseFields fuel false t.1 t.2 [] fields = Some (Ok (fields ++ [f])).
Proof.
  unfold encodeField. destruct fuel as [|fuel]; [lia|]. destruct (fieldNeedsQuotes f) eqn:E.
  - cbn [app]. rewrite <-(assoc_L app). cbn [app]. intros Hc Hf. apply noCRLF_tail in Hc. cbn in Hf.
    destruct (quoted_body f [LF] [] fields fuel) as (fuel' & Hf' & HE); [done|set_solver|lia|].
    cbn zeta in HE. cbn in Hf'. destruct fuel' as [|fuel']; [lia|].
    rewrite cutLine_cons by done. cbn [fst snd parseFields startsWith tail]. rewrite Z.eqb_refl, HE.
    rewrite (cutLine_cons QUOTE) by done. cbn. by rewrite app_nil_r.
  - apply bare_field in E. apply special_free in E as (HL & HR & HQ & HC). intros Hc Hf.
    rewrite cutLine_bare by done. cbn [cutLine]. rewrite Z.eqb_refl. cbn [fst snd parseFields].
    rewrite startsWith_bare by done. rewrite breakAt_none by set_solver.
    unfold dropNL. rewrite reverse_snoc, Z.eqb_refl, reverse_involutive. by rewrite existsb_quote.
Qed.

Lemma noCRLF_field f s : noCRLF f = true → noCRLF (encodeField f ++ s) = noCRLF s.
Proof.
  intros Hf. unfold encodeField. destruct (fieldNeedsQuotes f) eqn:E.
  - cbn [app]. rewrite <-(assoc_L app), noCRLF_cons. cbn [app]. by rewrite noCRLF_body, Hf.
  - by apply noCRLF_bare, bare_field.
Qed.

Lemma encodeRow_cons f row : row ≠ [] → encodeRow (f :: row) = encodeField f ++ COMMA :: encodeRow row.
Proof. destruct row as [|g row]; [done|]. intros _. unfold encodeRow. cbn [map Join]. by rewrite <-(assoc_L app). Qed.

Lemma encodeRow_LF row : LF ∈ encodeRow row.
Proof. unfold encodeRow. set_solver. Qed.

Lemma encodeRow_clean row : Forall (λ f, noCRLF f = true) row → noCRLF (encodeRow row) = true.
Proof.
  induction 1 as [|f row Hf HF IH]; [done|]. destruct (decide (row = [])) as [->|Hr].
  - unfold encodeRow. cbn [map Join]. by rewrite noCRLF_field by auto.
  - rewrite encodeRow_cons, noCRLF_field by auto. by rewrite noCRLF_cons, IH.
Qed.

Lemma parse_row row fields fuel :
  row ≠ [] → Forall (λ f, noCRLF f = true) row → (length (encodeRow row) < fuel)%nat →
  parseFields fuel false (cutLine (encodeRow row)).1 (cutLine (encodeRow row)).2 [] fields = Some (Ok (fields ++ row)).
Proof.
  intros Hr HF. revert fields fuel Hr. induction HF as [|f row Hf HF IH]; intros fields fuel Hr Hfu; [done|].
  pose proof (encodeRow_clean (f :: row) ltac:(by constructor)) as Hc.
  destruct (decide (row = [])) as [->|Hrow]; [by apply parse_last|].
  rewrite encodeRow_cons in * by done.
  destruct (parse_field f (encodeRow row) fields fuel) as (fuel' & Hf' & HE); [done|apply encodeRow_LF|done|].
  rewrite HE, IH by done. by rewrite <-(assoc_L app).
Qed.

(** A row of two fields or more comes back from the reader. *)
Lemma reader_encodeRow row :
  (2 ≤ length row)%nat → Forall (λ f, noCRLF f = true) row → reader_Read (encodeRow row) = Some (Ok row).
Proof.
  intros Hl HF. assert (row ≠ []) as Hr by (by destruct row; cbn in Hl; [lia|]).
  pose proof (encodeRow_clean row HF) as Hc.
  assert (Hne : (cutLine (encodeRow row)).1 ≠ [LF]).
  { destruct row as [|f [|g row]]; cbn in Hl; [lia..|]. rewrite encodeRow_cons by done.
    unfold encodeField. destruct (fieldNeedsQuotes f) eqn:E; [by cbn [app]; rewrite cutLine_cons|].
    apply bare_field, special_free in E as (HL & _). rewrite cutLine_bare, cutLine_cons by done.
    destruct f as [|? [|? f]]; cbn; naive_solver. }
  unfold reader_Read. cbn [firstLine]. rewrite readLine_clean by (first [done|apply encodeRow_LF]).
  pose proof (cutLine_app (encodeRow row)) as Happ. apply (f_equal length) in Happ. rewrite length_app in Happ.
  pose proof (parse_row row [] (S (length (encodeRow row))) Hr HF ltac:(lia)) as HP.
  assert ((cutLine (encodeRow row)).1 ≠ []) as Hnn.
  { apply cutLine_nonempty. pose proof (encodeRow_LF row) as H. intros E. rewrite E in H. set_solver. }
  destruct (cutLine (encodeRow row)) as [line rest]. cbn [fst snd] in *.
  rewrite bool_decide_false by naive_solver. by rewrite Happ.
Qed.

(** What [reader_Read] answers; it always does ([reader_Read_total]). *)
Definition parseRow (raw : text) : result (list text) := default (Fail EOF) (reader_Read raw).
