(* ===== verification/GraphIO.v ===== *)
(** * Graph import and export: errors, options, records, reports

    Models src/graph/graphio: errors.go, options.go, records.go and report.go. *)

From S2P Require Import Prelude GoError GoText Graph.

Local Open Scope Z_scope.

(** ** errors.go *)

Definition ErrInvalidRecord : string := "graphio.ErrInvalidRecord".
Definition ErrInvalidOptions : string := "graphio.ErrInvalidOptions".
Definition ErrDuplicateVertex : string := "graphio.ErrDuplicateVertex".
Definition ErrMissingEndpoint : string := "graphio.ErrMissingEndpoint".
Definition ErrMalformedInput : string := "graphio.ErrMalformedInput".
Definition ErrStreamClosed : error := Sentinel "graphio.ErrStreamClosed".

Definition PhaseReadVertex : string := "read_vertex".
Definition PhaseReadEdge : string := "read_edge".
Definition PhaseWriteVertex : string := "write_vertex".
Definition PhaseWriteEdge : string := "write_edge".
Definition PhaseValidate : string := "validate".

Definition FileRoleVertices : string := "vertices".
Definition FileRoleEdges : string := "edges".
Definition FileRoleStream : string := "stream".

Record Location := mkLocation { Line : Z; Row : Z; Column : string; FileRole : string }.

(** [Location{}], [Location{FileRole: role}], [Location{Row: row, FileRole: role}] *)
Definition noLocation : Location := mkLocation 0 0 "" "".
Definition atRole (role : string) : Location := mkLocation 0 0 "" role.
Definition atRow (row : Z) (role : string) : Location := mkLocation 0 row "" role.

(** The hexadecimal digits of the first eight bytes of a SHA-256 sum. *)
Class Digest := sha256Prefix : text → text.

(** [strings.ToLower] as far as ASCII letters are asked for: those, and the two
    other characters whose lower case is an ASCII letter. *)
Definition lowerRune (r : Z) : Z :=
  if (65 <=? r) && (r <=? 90) then r + 32 else if r =? 8490 then 107 else if r =? 304 then 105 else r.

(** [strings.HasPrefix] and [strings.TrimPrefix] *)
Fixpoint HasPrefix (s prefix : text) : bool :=
  match prefix, s with
  | [], _ => true
  | p :: prefix', c :: s' => (p =? c) && HasPrefix s' prefix'
  | _ :: _, [] => false
  end.

Definition TrimPrefix (s prefix : text) : text := if HasPrefix s prefix then drop (length prefix) s else s.

(** [strings.Contains] *)
Fixpoint Contains (s part : text) : bool :=
  HasPrefix s part || match s with [] => false | _ :: s' => Contains s' part end.

Definition redactID `{Digest} (value : text) : text :=
  let value := TrimSpace value in
  match value with
  | [] => []
  | _ =>
      let lower := map lowerRune value in
      if Contains lower (lit "secret") || Contains lower (lit "token") || Contains lower (lit "key")
      then lit "<redacted>"
      else if 64 <? byteLen value then lit "sha256:" ++ sha256Prefix value
      else value
  end.

(** [NewError], through [wrap]: [Unwrap] gives the kind and the cause. *)
Definition wrap `{Digest} (kind format phase : string) (loc : Location) (field recordID : text) (summary : string)
    (cause : option error) : error :=
  Typed "graphio.Error"
    [FStr format; FStr phase; FInt (Line loc); FInt (Row loc); FStr (Column loc); FStr (FileRole loc);
     fieldOf field; fieldOf (redactID recordID); FStr summary] [kind] cause.

Definition optionError `{Digest} (summary : string) : error :=
  wrap ErrInvalidOptions "" PhaseValidate noLocation [] [] summary None.

(** ** options.go *)

Definition defaultMaxLineBytes : Z := 2 ^ 20.
Definition defaultMaxRecordBytes : Z := 2 ^ 20.
Definition defaultMaxFieldBytes : Z := 256 * 2 ^ 10.
Definition defaultMaxColumns : Z := 1024.
Definition defaultMaxRecords : Z := 1000000.
Definition defaultMaxFailures : Z := 100.
Definition UnlimitedRecords : Z := -1.

Definition FormatNDJSON : string := "ndjson".
Definition FormatCSV : string := "csv".
Definition DuplicateVertexFail : string := "fail".
Definition DuplicateVertexSkip : string := "skip".
Definition MissingEndpointFail : string := "fail".
Definition MissingEndpointSkipEdge : string := "skip_edge".

Record ReadOptions := mkReadOptions {
  DuplicateVertexPolicy : string;
  MissingEndpointPolicy : string;
  MaxLineBytes : Z;
  MaxRecordBytes : Z;
  MaxFieldBytes : Z;
  MaxColumns : Z;
  MaxRecords : Z;
  MaxFailures : Z
}.

Record WriteOptions := mkWriteOptions { IncludeEmptyProperties : bool; WriteMaxFailures : Z }.

(** [if value == 0 { value = def }], on strings [if value == "" ...] *)
Definition orDefault (value def : Z) : Z := if value =? 0 then def else value.
Definition orString (value def : string) : string := if String.eqb value "" then def else value.
Definition orText (value def : text) : text := match value with [] => def | _ => value end.

Definition normalizeWriteOptions `{Digest} (options : WriteOptions) : WriteOptions * option error :=
  let options := mkWriteOptions (IncludeEmptyProperties options) (orDefault (WriteMaxFailures options) defaultMaxFailures) in
  (options, if WriteMaxFailures options <? 0 then Some (optionError "max failures must not be negative") else None).

Definition NormalizeReadOptions `{Digest} (options : ReadOptions) : ReadOptions * option error :=
  let options := mkReadOptions (orString (DuplicateVertexPolicy options) DuplicateVertexFail)
    (orString (MissingEndpointPolicy options) MissingEndpointFail) (MaxLineBytes options) (MaxRecordBytes options)
    (MaxFieldBytes options) (MaxColumns options) (MaxRecords options) (MaxFailures options) in
  if negb (String.eqb (DuplicateVertexPolicy options) DuplicateVertexFail) &&
     negb (String.eqb (DuplicateVertexPolicy options) DuplicateVertexSkip)
  then (options, Some (optionError "unknown duplicate vertex policy"))
  else if negb (String.eqb (MissingEndpointPolicy options) MissingEndpointFail) &&
          negb (String.eqb (MissingEndpointPolicy options) MissingEndpointSkipEdge)
  then (options, Some (optionError "unknown missing endpoint policy"))
  else
    let options := mkReadOptions (DuplicateVertexPolicy options) (MissingEndpointPolicy options)
      (orDefault (MaxLineBytes options) defaultMaxLineBytes) (orDefault (MaxRecordBytes options) defaultMaxRecordBytes)
      (orDefault (MaxFieldBytes options) defaultMaxFieldBytes) (orDefault (MaxColumns options) defaultMaxColumns)
      (orDefault (MaxRecords options) defaultMaxRecords) (orDefault (MaxFailures options) defaultMaxFailures) in
    if (MaxLineBytes options <? 0) || (MaxRecordBytes options <? 0) || (MaxFieldBytes options <? 0) ||
       (MaxColumns options <? 0) || (MaxFailures options <? 0)
    then (options, Some (optionError "limits must not be negative"))
    else if (MaxRecords options <? 0) && negb (MaxRecords options =? UnlimitedRecords)
    then (options, Some (optionError "max records must not be negative"))
    else (options, None).

Definition checkRecordLimit `{Digest} (options : ReadOptions) (count : Z) : option error :=
  if negb (MaxRecords options =? UnlimitedRecords) && (MaxRecords options <? count)
  then Some (wrap ErrMalformedInput "" PhaseValidate noLocation [] [] "record limit exceeded" None)
  else None.

Definition CSVPropertiesPrefixedColumns : string := "prefixed_columns".
Definition CSVPropertiesRawJSONColumn : string := "raw_json_column".
Definition CSVPropertiesNone : string := "none".
Definition CSVFormulaEscape : string := "escape".
Definition CSVFormulaRaw : string := "raw".

Record CSVWriteOptions := mkCSVWriteOptions {
  cwWrite : WriteOptions;
  cwPropertyMode : string;
  cwPropertyPrefix : text;
  cwRawPropertiesColumn : text;
  cwFormulaPolicy : string;
  cwPropertyColumns : list text
}.

Record CSVReadOptions := mkCSVReadOptions {
  crRead : ReadOptions;
  crPropertyMode : string;
  crPropertyPrefix : text;
  crRawPropertiesColumn : text
}.

Definition knownMode (mode : string) : bool :=
  String.eqb mode CSVPropertiesPrefixedColumns || String.eqb mode CSVPropertiesRawJSONColumn ||
  String.eqb mode CSVPropertiesNone.

Definition normalizeCSVWriteOptions `{Digest} (options : CSVWriteOptions) : CSVWriteOptions * option error :=
  match normalizeWriteOptions (cwWrite options) with
  | (_, Some err) => (options, Some err)
  | (write, None) =>
      let options := mkCSVWriteOptions write (orString (cwPropertyMode options) CSVPropertiesPrefixedColumns)
        (cwPropertyPrefix options) (cwRawPropertiesColumn options) (cwFormulaPolicy options) (cwPropertyColumns options) in
      if negb (knownMode (cwPropertyMode options)) then (options, Some (optionError "unknown csv property mode"))
      else
        let options := mkCSVWriteOptions (cwWrite options) (cwPropertyMode options)
          (orText (cwPropertyPrefix options) (lit "prop.")) (orText (cwRawPropertiesColumn options) (lit "properties"))
          (orString (cwFormulaPolicy options) CSVFormulaEscape) (cwPropertyColumns options) in
        if negb (String.eqb (cwFormulaPolicy options) CSVFormulaEscape) && negb (String.eqb (cwFormulaPolicy options) CSVFormulaRaw)
        then (options, Some (optionError "unknown csv formula policy"))
        else (options, None)
  end.

Definition normalizeCSVReadOptions `{Digest} (options : CSVReadOptions) : CSVReadOptions * option error :=
  match NormalizeReadOptions (crRead options) with
  | (_, Some err) => (options, Some err)
  | (read, None) =>
      let options := mkCSVReadOptions read (orString (crPropertyMode options) CSVPropertiesPrefixedColumns)
        (crPropertyPrefix options) (crRawPropertiesColumn options) in
      if negb (knownMode (crPropertyMode options)) then (options, Some (optionError "unknown csv property mode"))
      else
        (mkCSVReadOptions (crRead options) (crPropertyMode options) (orText (crPropertyPrefix options) (lit "prop."))
           (orText (crRawPropertiesColumn options) (lit "properties")), None)
  end.

(** ** records.go *)

Definition RecordVertex : string := "vertex".
Definition RecordEdge : string := "edge".

Record Record_ (V : Type) := mkRecord { Kind : string; rVertex : Vertex V; rEdge : Edge V }.
Arguments mkRecord {V}.
Arguments Kind {V}.
Arguments rVertex {V}.
Arguments rEdge {V}.

Section records.
Context {V : Type} `{Digest}.

(** [Record.Validate] *)
Definition Record_Validate (r : Record_ V) : option error :=
  let vertexOK := match Vertex_Validate (rVertex r) with None => true | Some _ => false end in
  let edgeOK := match Edge_Validate (rEdge r) with None => true | Some _ => false end in
  if String.eqb (Kind r) RecordVertex then
    if negb vertexOK || edgeOK
    then Some (wrap ErrInvalidRecord "" PhaseValidate noLocation (lit "record") [] "expected exactly one valid vertex" None)
    else None
  else if String.eqb (Kind r) RecordEdge then
    if negb edgeOK || vertexOK
    then Some (wrap ErrInvalidRecord "" PhaseValidate noLocation (lit "record") [] "expected exactly one valid edge" None)
    else None
  else Some (wrap ErrInvalidRecord "" PhaseValidate noLocation (lit "kind") [] "unknown record kind" None).

(** [VertexRecord] and [EdgeRecord] *)
Definition VertexRecord (vertex : Vertex V) : Record_ V * option error :=
  let record := mkRecord RecordVertex vertex zeroEdge in (record, Record_Validate record).

Definition EdgeRecord (edge : Edge V) : Record_ V * option error :=
  let record := mkRecord RecordEdge zeroVertex edge in (record, Record_Validate record).

Lemma VertexRecord_valid v : Vertex_Validate v = None → VertexRecord v = (mkRecord RecordVertex v zeroEdge, None).
Proof. unfold VertexRecord, Record_Validate. cbn [rVertex rEdge Kind]. by intros ->. Qed.

Lemma EdgeRecord_valid e : Edge_Validate e = None → EdgeRecord e = (mkRecord RecordEdge zeroVertex e, None).
Proof. unfold EdgeRecord, Record_Validate. cbn [rVertex rEdge Kind]. by intros ->. Qed.
End records.

(** ** report.go *)

Record Failure := mkFailure {
  fPhase : string;
  fSeverity : string;
  fLocation : Location;
  fField : text;
  fRecordID : text;
  fSummary : string
}.

Record Report := mkReport {
  Format : string;
  VerticesRead : Z;
  EdgesRead : Z;
  VerticesWritten : Z;
  EdgesWritten : Z;
  SkippedVertices : Z;
  SkippedEdges : Z;
  Failures : list Failure;
  OmittedFailures : Z;
  Elapsed : Z
}.

(** [Report{Format: format}] *)
Definition newReport (format : string) : Report := mkReport format 0 0 0 0 0 0 [] 0 0.

Definition setElapsed (r : Report) (elapsed : Z) : Report :=
  mkReport (Format r) (VerticesRead r) (EdgesRead r) (VerticesWritten r) (EdgesWritten r) (SkippedVertices r)
    (SkippedEdges r) (Failures r) (OmittedFailures r) elapsed.
Definition incVerticesRead (r : Report) : Report :=
  mkReport (Format r) (VerticesRead r + 1) (EdgesRead r) (VerticesWritten r) (EdgesWritten r) (SkippedVertices r)
    (SkippedEdges r) (Failures r) (OmittedFailures r) (Elapsed r).
Definition incEdgesRead (r : Report) : Report :=
  mkReport (Format r) (VerticesRead r) (EdgesRead r + 1) (VerticesWritten r) (EdgesWritten r) (SkippedVertices r)
    (SkippedEdges r) (Failures r) (OmittedFailures r) (Elapsed r).
Definition incVerticesWritten (r : Report) : Report :=
  mkReport (Format r) (VerticesRead r) (EdgesRead r) (VerticesWritten r + 1) (EdgesWritten r) (SkippedVertices r)
    (SkippedEdges r) (Failures r) (OmittedFailures r) (Elapsed r).
Definition incEdgesWritten (r : Report) : Report :=
  mkReport (Format r) (VerticesRead r) (EdgesRead r) (VerticesWritten r) (EdgesWritten r + 1) (SkippedVertices r)
    (SkippedEdges r) (Failures r) (OmittedFailures r) (Elapsed r).
Definition incSkippedVertices (r : Report) : Report :=
  mkReport (Format r) (VerticesRead r) (EdgesRead r) (VerticesWritten r) (EdgesWritten r) (SkippedVertices r + 1)
    (SkippedEdges r) (Failures r) (OmittedFailures r) (Elapsed r).
Definition incSkippedEdges (r : Report) : Report :=
  mkReport (Format r) (VerticesRead r) (EdgesRead r) (VerticesWritten r) (EdgesWritten r) (SkippedVertices r)
    (SkippedEdges r + 1) (Failures r) (OmittedFailures r) (Elapsed r).

Definition AddFailure `{Digest} (failure : Failure) (maxFailures : Z) (r : Report) : Report :=
  let maxFailures := orDefault maxFailures defaultMaxFailures in
  let failure := mkFailure (fPhase failure) (fSeverity failure) (fLocation failure) (fField failure)
    (redactID (fRecordID failure)) (fSummary failure) in
  if (maxFailures <? 0) || (Z.of_nat (length (Failures r)) <? maxFailures) then
    mkReport (Format r) (VerticesRead r) (EdgesRead r) (VerticesWritten r) (EdgesWritten r) (SkippedVertices r)
      (SkippedEdges r) (Failures r ++ [failure]) (OmittedFailures r) (Elapsed r)
  else
    mkReport (Format r) (VerticesRead r) (EdgesRead r) (VerticesWritten r) (EdgesWritten r) (SkippedVertices r)
      (SkippedEdges r) (Failures r) (OmittedFailures r + 1) (Elapsed r).
