(* ===== verification/GraphCSV.v ===== *)
(** * Graphs as CSV

    Models src/graph/graphio/csv.go: the writer over two CSV streams, the reader
    with its own record splitter, [WriteCSV] and [ReadCSV].  The world [W] holds
    what the code observes: the context, the clock and the answers of the
    streams that are written.  A stream that is read is its text and the error
    that ends it.  [PropertyJSON] is [json.Marshal] and [json.Unmarshal] on
    property maps, [Sprint] is [fmt.Sprint] on values that are not strings. *)

From S2P Require Import Prelude GoError GoText Graph GoCsv GraphIO.

Local Open Scope Z_scope.

Class PropertyText (V : Type) := {
  Sprint : V → text;
  jsonMarshal : Properties V → result text;
  jsonUnmarshal : text → result (Properties V)
}.

Definition is_mode (mode expected : string) : bool := String.eqb mode expected.

Definition prefixedColumn (prefix column : text) : text :=
  if HasPrefix column prefix then column else prefix ++ column.

(** What a row gives: an element, or nothing because a policy skips it. *)
Inductive rowResult (A : Type) : Type :=
| RowElement (a : A)
| RowSkipped
| RowError (e : error).
Arguments RowElement {A}.
Arguments RowSkipped {A}.
Arguments RowError {A}.

(** A loop that works on the streams of a reader alone. *)
Definition onStreams {W A} (o : option A) : Go W A := λ w, match o with Some a => Some (a, w) | None => None end.

Section csv.
Context {V W : Type} `{Digest} `{PropertyText V} (now : Call W Z).

(** ** Writer *)

(** The answers of the two streams; [None] is a nil stream. *)
Record CSVWriterStreams := mkWriterStreams {
  outVertices : option (text → Call W (option error));
  outEdges : option (text → Call W (option error))
}.

Record CSVWriter := mkCSVWriter {
  w_ctx : Context W;
  w_options : CSVWriteOptions;
  w_vertexWriter : option (csvWriter W);
  w_edgeWriter : option (csvWriter W);
  w_vertexHeader : bool;
  w_edgeHeader : bool;
  w_report : Report;
  w_started : Z;
  w_closed : bool;
  w_final : Report;
  w_terminalError : option error
}.

Definition NewCSVWriter (ctx : option (Context W)) (streams : CSVWriterStreams) (options : CSVWriteOptions) : Call W CSVWriter :=
  started ← now;
  let '(normalized, err) := normalizeCSVWriteOptions options in
  mret (mkCSVWriter (orBackground ctx) normalized (NewWriter <$> outVertices streams) (NewWriter <$> outEdges streams)
          false false (newReport FormatCSV) started false (newReport "") err).

(** [CSVWriter.ready] *)
Definition writerReady (phase : string) (w : CSVWriter) : Call W (option error) :=
  match w_terminalError w with
  | Some err => mret (Some err)
  | None =>
      err ← ctx_Err (w_ctx w);
      mret (match err with
            | Some err => Some err
            | None =>
                match w_vertexWriter w, w_edgeWriter w with
                | Some _, Some _ =>
                    if is_mode (cwPropertyMode (w_options w)) CSVPropertiesPrefixedColumns &&
                       match cwPropertyColumns (w_options w) with [] => true | _ => false end
                    then Some (wrap ErrInvalidOptions FormatCSV phase noLocation (lit "property_columns") []
                                 "property columns required for streaming csv writer" None)
                    else None
                | _, _ => Some (wrap ErrInvalidOptions FormatCSV phase noLocation (lit "streams") []
                                  "csv streams must not be nil" None)
                end
            end)
  end.

(** The row of [writeHeader]. *)
Definition headerRow (options : CSVWriteOptions) (role : string) : list text :=
  [lit "id"; lit "label"] ++
  (if String.eqb role FileRoleEdges then [lit "from"; lit "to"] else []) ++
  (if is_mode (cwPropertyMode options) CSVPropertiesPrefixedColumns then
     map (prefixedColumn (cwPropertyPrefix options)) (cwPropertyColumns options)
   else if is_mode (cwPropertyMode options) CSVPropertiesRawJSONColumn then [cwRawPropertiesColumn options]
   else []).

(** [CSVWriter.escape] *)
Definition escape (options : CSVWriteOptions) (value : text) : text :=
  if negb (String.eqb (cwFormulaPolicy options) CSVFormulaEscape) then value
  else match value with
       | [] => value
       | c :: _ => if bool_decide (c ∈ lit "=+-@" ++ [9; 13; 10]) then 39 :: value else value
       end.

(** The cell of one property column. *)
Definition propertyCell (properties : Properties V) (column : text) : text :=
  match properties with
  | None => []
  | Some m => match m !! column with
              | Some (AText s) => s
              | Some (AOther v) => Sprint v
              | Some ANil | None => []
              end
  end.

(** [CSVWriter.propertyCells] *)
Definition propertyCells (options : CSVWriteOptions) (properties : Properties V) : result (list text) :=
  if is_mode (cwPropertyMode options) CSVPropertiesNone then Ok []
  else if is_mode (cwPropertyMode options) CSVPropertiesRawJSONColumn then
    if match properties with None => true | Some _ => false end && negb (IncludeEmptyProperties (cwWrite options))
    then Ok [[]]
    else match jsonMarshal properties with
         | Fail err => Fail (wrap ErrInvalidRecord FormatCSV PhaseValidate noLocation (lit "properties") []
                               "properties are not json serializable" (Some err))
         | Ok data => Ok [data]
         end
  else Ok (map (λ column, escape options (propertyCell properties column)) (cwPropertyColumns options)).

(** [CSVWriter.vertexRow] and [CSVWriter.edgeRow] *)
Definition vertexRow (options : CSVWriteOptions) (vertex : Vertex V) : result (list text) :=
  let row := [escape options (v_id vertex); escape options (v_label vertex)] in
  match propertyCells options (Vertex_Properties vertex) with
  | Fail err => Fail err
  | Ok props => Ok (row ++ props)
  end.

Definition edgeRow (options : CSVWriteOptions) (edge : Edge V) : result (list text) :=
  let row := [escape options (e_id edge); escape options (e_label edge); escape options (StartID edge); escape options (EndID edge)] in
  match propertyCells options (Edge_Properties edge) with
  | Fail err => Fail err
  | Ok props => Ok (row ++ props)
  end.

Definition setVertexWriter (cw : csvWriter W) (header : bool) (w : CSVWriter) : CSVWriter :=
  mkCSVWriter (w_ctx w) (w_options w) (Some cw) (w_edgeWriter w) header (w_edgeHeader w) (w_report w) (w_started w)
    (w_closed w) (w_final w) (w_terminalError w).
Definition setEdgeWriter (cw : csvWriter W) (header : bool) (w : CSVWriter) : CSVWriter :=
  mkCSVWriter (w_ctx w) (w_options w) (w_vertexWriter w) (Some cw) (w_vertexHeader w) header (w_report w) (w_started w)
    (w_closed w) (w_final w) (w_terminalError w).
Definition setWriterReport (report : Report) (w : CSVWriter) : CSVWriter :=
  mkCSVWriter (w_ctx w) (w_options w) (w_vertexWriter w) (w_edgeWriter w) (w_vertexHeader w) (w_edgeHeader w) report
    (w_started w) (w_closed w) (w_final w) (w_terminalError w).

(** The body of [WriteVertex] once the writer is ready and its stream [cw] is
    there. *)
Definition writeVertexTo (cw : csvWriter W) (vertex : Vertex V) (w : CSVWriter) : Call W (option error * CSVWriter) :=
  '(err, cw) ← (if w_vertexHeader w then mret (None, cw)
                else writer_Write (headerRow (w_options w) FileRoleVertices) cw);
  match err with
  | Some err => mret (Some err, setVertexWriter cw (w_vertexHeader w) w)
  | None =>
      match vertexRow (w_options w) vertex with
      | Fail err => mret (Some err, setVertexWriter cw true w)
      | Ok row =>
          '(err, cw) ← writer_Write row cw;
          let w := setVertexWriter cw true w in
          mret (match err with
                | Some err => (Some (Errorf "write vertex csv: %w" [err]), w)
                | None => (None, setWriterReport (incVerticesWritten (w_report w)) w)
                end)
      end
  end.

Definition WriteVertex (vertex : Vertex V) (w : CSVWriter) : Call W (option error * CSVWriter) :=
  if w_closed w then mret (Some ErrStreamClosed, w)
  else
    err ← writerReady PhaseWriteVertex w;
    match err, Vertex_Validate vertex, w_vertexWriter w with
    | Some err, _, _ => mret (Some err, w)
    | None, Some err, _ =>
        mret (Some (wrap ErrInvalidRecord FormatCSV PhaseWriteVertex (atRole FileRoleVertices) (lit "vertex") (v_id vertex)
                      "invalid vertex" (Some err)), w)
    | None, None, Some cw => writeVertexTo cw vertex w
    | None, None, None => mret (None, w)
    end.

(** The body of [WriteEdge] once the writer is ready and its stream [cw] is
    there. *)
Definition writeEdgeTo (cw : csvWriter W) (edge : Edge V) (w : CSVWriter) : Call W (option error * CSVWriter) :=
  '(err, cw) ← (if w_edgeHeader w then mret (None, cw)
                else writer_Write (headerRow (w_options w) FileRoleEdges) cw);
  match err with
  | Some err => mret (Some err, setEdgeWriter cw (w_edgeHeader w) w)
  | None =>
      match edgeRow (w_options w) edge with
      | Fail err => mret (Some err, setEdgeWriter cw true w)
      | Ok row =>
          '(err, cw) ← writer_Write row cw;
          let w := setEdgeWriter cw true w in
          mret (match err with
                | Some err => (Some (Errorf "write edge csv: %w" [err]), w)
                | None => (None, setWriterReport (incEdgesWritten (w_report w)) w)
                end)
      end
  end.

Definition WriteEdge (edge : Edge V) (w : CSVWriter) : Call W (option error * CSVWriter) :=
  if w_closed w then mret (Some ErrStreamClosed, w)
  else
    err ← writerReady PhaseWriteEdge w;
    match err, Edge_Validate edge, w_edgeWriter w with
    | Some err, _, _ => mret (Some err, w)
    | None, Some err, _ =>
        mret (Some (wrap ErrInvalidRecord FormatCSV PhaseWriteEdge (atRole FileRoleEdges) (lit "edge") (e_id edge)
                      "invalid edge" (Some err)), w)
    | None, None, Some cw => writeEdgeTo cw edge w
    | None, None, None => mret (None, w)
    end.

(** Flush one of the streams and keep the first error. *)
Definition flushStream (format : string) (cw : option (csvWriter W)) (terminal : option error)
    : Call W (option (csvWriter W) * option error) :=
  match cw with
  | None => mret (None, terminal)
  | Some cw =>
      '(err, cw) ← writer_Flush cw;
      mret (Some cw, match err, terminal with
                     | Some err, None => Some (Errorf format [err])
                     | _, _ => terminal
                     end)
  end.

(** [CSVWriter.Close] *)
Definition writerClose (w : CSVWriter) : Call W (Report * option error * CSVWriter) :=
  if w_closed w then mret (w_final w, w_terminalError w, w)
  else
    '(vertexWriter, terminal) ← flushStream "flush vertex csv: %w" (w_vertexWriter w) (w_terminalError w);
    '(edgeWriter, terminal) ← flushStream "flush edge csv: %w" (w_edgeWriter w) terminal;
    time ← now;
    let final := setElapsed (w_report w) (time - w_started w) in
    mret (final, terminal,
          mkCSVWriter (w_ctx w) (w_options w) vertexWriter edgeWriter (w_vertexHeader w) (w_edgeHeader w) (w_report w)
            (w_started w) true final terminal).

Definition discoverPropertyColumns (records : list (Record_ V)) : list text :=
  let keys (record : Record_ V) : gset text :=
    let properties :=
      if String.eqb (Kind record) RecordVertex then Vertex_Properties (rVertex record)
      else if String.eqb (Kind record) RecordEdge then Edge_Properties (rEdge record)
      else None in
    match properties with None => ∅ | Some m => dom m end in
  merge_sort text_le (elements (foldl (λ set record, set ∪ keys record) ∅ records)).

(** The two loops of [WriteCSV]. *)
Fixpoint writeVertices (records : list (Record_ V)) (w : CSVWriter) : Call W (option error * CSVWriter) :=
  match records with
  | [] => mret (None, w)
  | record :: rest =>
      if String.eqb (Kind record) RecordVertex then
        '(err, w) ← WriteVertex (rVertex record) w;
        match err with Some err => mret (Some err, w) | None => writeVertices rest w end
      else writeVertices rest w
  end.

Fixpoint writeEdges (records : list (Record_ V)) (w : CSVWriter) : Call W (option error * CSVWriter) :=
  match records with
  | [] => mret (None, w)
  | record :: rest =>
      if String.eqb (Kind record) RecordEdge then
        '(err, w) ← WriteEdge (rEdge record) w;
        match err with Some err => mret (Some err, w) | None => writeEdges rest w end
      else writeEdges rest w
  end.

Definition withColumns (options : CSVWriteOptions) (columns : list text) : CSVWriteOptions :=
  mkCSVWriteOptions (cwWrite options) (cwPropertyMode options) (cwPropertyPrefix options) (cwRawPropertiesColumn options)
    (cwFormulaPolicy options) columns.

(** [WriteCSV] on the options it has normalized; the writer it used comes
    back with its answer. *)
Definition writeRecords (ctx : option (Context W)) (streams : CSVWriterStreams) (records : list (Record_ V))
    (normalized : CSVWriteOptions) : Call W (Report * option error * CSVWriter) :=
  w ← NewCSVWriter ctx streams normalized;
  '(err, w) ← writeVertices records w;
  match err with
  | Some err => '(report, _, w) ← writerClose w; mret (report, Some err, w)
  | None =>
      '(err, w) ← writeEdges records w;
      match err with
      | Some err => '(report, _, w) ← writerClose w; mret (report, Some err, w)
      | None => writerClose w
      end
  end.

(** The options of a run: the columns are discovered when none are given. *)
Definition withDiscovered (records : list (Record_ V)) (normalized : CSVWriteOptions) : CSVWriteOptions :=
  if is_mode (cwPropertyMode normalized) CSVPropertiesPrefixedColumns &&
     match cwPropertyColumns normalized with [] => true | _ => false end
  then withColumns normalized (discoverPropertyColumns records) else normalized.

(** The answer of [WriteCSV], and the writer it used ([None] when it used
    none). *)
Definition WriteCSV (ctx : option (Context W)) (streams : CSVWriterStreams) (records : list (Record_ V))
    (options : CSVWriteOptions) : Call W (Report * option error * option CSVWriter) :=
  match normalizeCSVWriteOptions options with
  | (_, Some err) => mret (newReport FormatCSV, Some err, None)
  | (normalized, None) =>
      '(report, err, w) ← writeRecords ctx streams records (withDiscovered records normalized);
      mret (report, err, Some w)
  end.

(** ** Reading rows *)

Record csvRecordReader := mkRecordReader {
  rr_rest : text;
  rr_end : error;
  rr_options : ReadOptions;
  rr_role : string;
  rr_row : Z
}.

Inductive rawResult : Type :=
| RawRecord (buf rest : text)
| RawTooLarge (rest : text)
| RawStop (buf : text).

(** The loop of [readRaw]. *)
Fixpoint rawLoop (maxRecordBytes : Z) (rest buf : text) (inQuotes : bool) : rawResult :=
  match rest with
  | [] => RawStop buf
  | b :: rest' =>
      let buf := buf ++ [b] in
      if maxRecordBytes <? byteLen buf then RawTooLarge rest'
      else if b =? QUOTE then
        match inQuotes, rest' with
        | true, next :: rest'' =>
            if next =? QUOTE then rawLoop maxRecordBytes rest'' (buf ++ [next]) inQuotes
            else rawLoop maxRecordBytes rest' buf (negb inQuotes)
        | _, _ => rawLoop maxRecordBytes rest' buf (negb inQuotes)
        end
      else if (b =? LF) && negb inQuotes then RawRecord buf rest'
      else rawLoop maxRecordBytes rest' buf inQuotes
  end.

Definition phaseForRole (role : string) : string :=
  if String.eqb role FileRoleEdges then PhaseReadEdge else PhaseReadVertex.

Definition setRest (r : csvRecordReader) (rest : text) (row : Z) : csvRecordReader :=
  mkRecordReader rest (rr_end r) (rr_options r) (rr_role r) row.

Definition readRaw (r : csvRecordReader) : result text * Location * csvRecordReader :=
  let here := atRow (rr_row r + 1) (rr_role r) in
  match rawLoop (MaxRecordBytes (rr_options r)) (rr_rest r) [] false with
  | RawRecord buf rest => (Ok buf, here, setRest r rest (rr_row r + 1))
  | RawTooLarge rest =>
      (Fail (wrap ErrMalformedInput FormatCSV (phaseForRole (rr_role r)) here (lit "record") [] "record too large" None),
       here, setRest r rest (rr_row r))
  | RawStop buf =>
      if errors_Is (rr_end r) "io.EOF" && match buf with [] => false | _ => true end
      then (Ok buf, here, setRest r [] (rr_row r + 1))
      else (Fail (rr_end r), here, setRest r [] (rr_row r))
  end.

(** [csvRecordReader.Read] *)
Definition readRow (r : csvRecordReader) : result (list text) * Location * csvRecordReader :=
  let '(raw, loc, r) := readRaw r in
  let malformed field summary cause :=
    Fail (wrap ErrMalformedInput FormatCSV (phaseForRole (rr_role r)) loc (lit field) [] summary cause) in
  match raw with
  | Fail err => (Fail err, loc, r)
  | Ok raw =>
      (match parseRow raw with
       | Fail err => malformed "row" "csv parse failed" (Some err)
       | Ok row =>
           if MaxColumns (rr_options r) <? Z.of_nat (length row) then malformed "columns" "too many columns" None
           else if existsb (λ field, MaxFieldBytes (rr_options r) <? byteLen field) row
           then malformed "field" "field too large" None
           else Ok row
       end, loc, r)
  end.

(** ** Headers *)

Record csvHeader := mkHeader {
  h_columns : list text;
  h_id : Z;
  h_label : Z;
  h_from : Z;
  h_to : Z;
  h_properties : gmap text Z;
  h_rawProperties : Z
}.

(** One column of [parseHeader]. *)
Definition headerColumn (options : CSVReadOptions) (idx : Z) (column : text) (h : csvHeader) : csvHeader :=
  let '(mkHeader columns id label from to properties raw) := h in
  if bool_decide (column = lit "id") then mkHeader columns idx label from to properties raw
  else if bool_decide (column = lit "label") then mkHeader columns id idx from to properties raw
  else if bool_decide (column = lit "from") then mkHeader columns id label idx to properties raw
  else if bool_decide (column = lit "to") then mkHeader columns id label from idx properties raw
  else if bool_decide (column = crRawPropertiesColumn options) then mkHeader columns id label from to properties idx
  else if HasPrefix column (crPropertyPrefix options)
  then mkHeader columns id label from to (<[TrimPrefix column (crPropertyPrefix options) := idx]> properties) raw
  else h.

(** The loop of [parseHeader]. *)
Fixpoint headerLoop (options : CSVReadOptions) (idx : Z) (row : list text) (h : csvHeader) : csvHeader :=
  match row with
  | [] => h
  | column :: rest => headerLoop options (idx + 1) rest (headerColumn options idx column h)
  end.

Definition parseHeader (row : list text) (role : string) (options : CSVReadOptions) : result csvHeader :=
  let header := headerLoop options 0 row (mkHeader row (-1) (-1) (-1) (-1) ∅ (-1)) in
  if (h_id header <? 0) || (h_label header <? 0) then Fail (Errorf "missing id or label" [])
  else if String.eqb role FileRoleEdges && ((h_from header <? 0) || (h_to header <? 0))
  then Fail (Errorf "missing edge endpoints" [])
  else if is_mode (crPropertyMode options) CSVPropertiesRawJSONColumn && (h_rawProperties header <? 0)
  then Fail (Errorf "missing raw properties column" [])
  else Ok header.

(** ** Reader *)

Record CSVReaderStreams := mkReaderStreams {
  inVertices : option (text * error);
  inEdges : option (text * error)
}.

Record CSVReader := mkCSVReader {
  r_ctx : Context W;
  r_options : CSVReadOptions;
  r_vertices : option csvRecordReader;
  r_edges : option csvRecordReader;
  r_vertexHeader : csvHeader;
  r_edgeHeader : csvHeader;
  r_vertexReady : bool;
  r_edgeReady : bool;
  r_vertexEOF : bool;
  r_edgeEOF : bool;
  r_records : Z;
  r_seen : gset text;
  r_report : Report;
  r_started : Z;
  r_closed : bool;
  r_final : Report;
  r_setupErr : option error
}.

(** [csvHeader{}] *)
Definition zeroHeader : csvHeader := mkHeader [] 0 0 0 0 ∅ 0.

Definition newCSVRecordReader (stream : text * error) (options : ReadOptions) (role : string) : csvRecordReader :=
  mkRecordReader stream.1 stream.2 options role 0.

Definition NewCSVReader (ctx : option (Context W)) (streams : CSVReaderStreams) (options : CSVReadOptions) : Call W CSVReader :=
  started ← now;
  let '(normalized, err) := normalizeCSVReadOptions options in
  mret (mkCSVReader (orBackground ctx) normalized
          ((λ s, newCSVRecordReader s (crRead normalized) FileRoleVertices) <$> inVertices streams)
          ((λ s, newCSVRecordReader s (crRead normalized) FileRoleEdges) <$> inEdges streams)
          zeroHeader zeroHeader false false false false 0 ∅ (newReport FormatCSV) started false (newReport "") err).

(** Assignments to the fields of a reader. *)
Definition setVertices (rr : csvRecordReader) (header : csvHeader) (ready eof : bool) (r : CSVReader) : CSVReader :=
  mkCSVReader (r_ctx r) (r_options r) (Some rr) (r_edges r) header (r_edgeHeader r) ready (r_edgeReady r) eof (r_edgeEOF r)
    (r_records r) (r_seen r) (r_report r) (r_started r) (r_closed r) (r_final r) (r_setupErr r).
Definition setEdges (rr : csvRecordReader) (header : csvHeader) (ready eof : bool) (r : CSVReader) : CSVReader :=
  mkCSVReader (r_ctx r) (r_options r) (r_vertices r) (Some rr) (r_vertexHeader r) header (r_vertexReady r) ready (r_vertexEOF r) eof
    (r_records r) (r_seen r) (r_report r) (r_started r) (r_closed r) (r_final r) (r_setupErr r).
Definition setCounts (records : Z) (seen : gset text) (report : Report) (r : CSVReader) : CSVReader :=
  mkCSVReader (r_ctx r) (r_options r) (r_vertices r) (r_edges r) (r_vertexHeader r) (r_edgeHeader r) (r_vertexReady r)
    (r_edgeReady r) (r_vertexEOF r) (r_edgeEOF r) records seen report (r_started r) (r_closed r) (r_final r) (r_setupErr r).

(** [row[i]]: the index is inside of the row. *)
Definition cell (row : list text) (i : Z) : text := default [] (row !! Z.to_nat i).

(** [CSVReader.propertiesFromRow] *)
Definition propertiesFromRow (options : CSVReadOptions) (row : list text) (header : csvHeader) (loc : Location) (phase : string)
    : result (Properties V) :=
  if is_mode (crPropertyMode options) CSVPropertiesNone then Ok None
  else if is_mode (crPropertyMode options) CSVPropertiesRawJSONColumn then
    if (h_rawProperties header <? 0) || match cell row (h_rawProperties header) with [] => true | _ => false end then Ok None
    else match jsonUnmarshal (cell row (h_rawProperties header)) with
         | Fail err => Fail (wrap ErrMalformedInput FormatCSV phase loc (crRawPropertiesColumn options) []
                               "raw properties json decode failed" (Some err))
         | Ok properties => Ok properties
         end
  else
    let properties := (λ idx, AText (cell row idx)) <$> h_properties header in
    Ok (if bool_decide (properties = ∅) then None else Some properties).

(** [CSVReader.countRecord] *)
Definition countRecord (phase : string) (loc : Location) (r : CSVReader) : option error * CSVReader :=
  let r := setCounts (r_records r + 1) (r_seen r) (r_report r) r in
  (if negb (MaxRecords (crRead (r_options r)) =? UnlimitedRecords) && (MaxRecords (crRead (r_options r)) <? r_records r)
   then Some (wrap ErrMalformedInput FormatCSV phase loc (lit "record") [] "record limit exceeded" None)
   else None, r).

(** [CSVReader.vertexFromRow] *)
Definition vertexFromRow (row : list text) (loc : Location) (r : CSVReader) : rowResult (Vertex V) * CSVReader :=
  let header := r_vertexHeader r in
  let '(limit, r) := countRecord PhaseReadVertex loc r in
  match limit with
  | Some err => (RowError err, r)
  | None =>
      if negb (Nat.eqb (length row) (length (h_columns header)))
      then (RowError (wrap ErrMalformedInput FormatCSV PhaseReadVertex loc (lit "row") [] "vertex row width mismatch" None), r)
      else
        match propertiesFromRow (r_options r) row header loc PhaseReadVertex with
        | Fail err => (RowError err, r)
        | Ok properties =>
            match ParseVertex (cell row (h_id header)) (cell row (h_label header)) properties with
            | Fail err =>
                (RowError (wrap ErrInvalidRecord FormatCSV PhaseReadVertex loc (lit "vertex") (cell row (h_id header))
                             "invalid vertex" (Some err)), r)
            | Ok vertex =>
                let id := v_id vertex in
                if bool_decide (id ∈ r_seen r) then
                  if String.eqb (DuplicateVertexPolicy (crRead (r_options r))) DuplicateVertexSkip
                  then (RowSkipped, setCounts (r_records r) (r_seen r) (incSkippedVertices (r_report r)) r)
                  else (RowError (wrap ErrDuplicateVertex FormatCSV PhaseReadVertex loc (lit "id") id "duplicate vertex" None), r)
                else (RowElement vertex, setCounts (r_records r) ({[id]} ∪ r_seen r) (incVerticesRead (r_report r)) r)
            end
        end
  end.

(** [CSVReader.edgeFromRow] *)
Definition edgeFromRow (row : list text) (loc : Location) (r : CSVReader) : rowResult (Edge V) * CSVReader :=
  let header := r_edgeHeader r in
  let '(limit, r) := countRecord PhaseReadEdge loc r in
  match limit with
  | Some err => (RowError err, r)
  | None =>
      if negb (Nat.eqb (length row) (length (h_columns header)))
      then (RowError (wrap ErrMalformedInput FormatCSV PhaseReadEdge loc (lit "row") [] "edge row width mismatch" None), r)
      else
        match propertiesFromRow (r_options r) row header loc PhaseReadEdge with
        | Fail err => (RowError err, r)
        | Ok properties =>
            match ParseEdge (cell row (h_id header)) (cell row (h_label header))
                    (mkRawEndpoints (cell row (h_from header)) (cell row (h_to header))) properties with
            | Fail err =>
                (RowError (wrap ErrInvalidRecord FormatCSV PhaseReadEdge loc (lit "edge") (cell row (h_id header))
                             "invalid edge" (Some err)), r)
            | Ok edge =>
                if negb (bool_decide (StartID edge ∈ r_seen r)) || negb (bool_decide (EndID edge ∈ r_seen r)) then
                  if String.eqb (MissingEndpointPolicy (crRead (r_options r))) MissingEndpointSkipEdge
                  then (RowSkipped, setCounts (r_records r) (r_seen r) (incSkippedEdges (r_report r)) r)
                  else (RowError (wrap ErrMissingEndpoint FormatCSV PhaseReadEdge loc (lit "endpoint") (e_id edge)
                                    "missing endpoint" None), r)
                else (RowElement edge, setCounts (r_records r) (r_seen r) (incEdgesRead (r_report r)) r)
            end
        end
  end.

(** [CSVReader.ready] *)
Definition readerReady (role : string) (r : CSVReader) : Call W (option error) :=
  match r_setupErr r with
  | Some err => mret (Some err)
  | None =>
      err ← ctx_Err (r_ctx r);
      mret (match err with
            | Some err => Some err
            | None =>
                if String.eqb role FileRoleVertices && match r_vertices r with None => true | Some _ => false end
                then Some (wrap ErrInvalidOptions FormatCSV PhaseReadVertex (atRole role) (lit "vertices") []
                             "vertices stream must not be nil" None)
                else if String.eqb role FileRoleEdges && match r_edges r with None => true | Some _ => false end
                then Some (wrap ErrInvalidOptions FormatCSV PhaseReadEdge (atRole role) (lit "edges") []
                             "edges stream must not be nil" None)
                else None
            end)
  end.

(** [CSVReader.readHeader] *)
Definition readHeader (options : CSVReadOptions) (rr : csvRecordReader) (role : string) : result csvHeader * csvRecordReader :=
  let '(row, loc, rr) := readRow rr in
  let invalid summary err :=
    Fail (wrap ErrMalformedInput FormatCSV (phaseForRole role) loc (lit "header") [] summary (Some err)) in
  (match row with
   | Fail err => if errors_Is err "io.EOF" then invalid "missing csv header" err else Fail err
   | Ok row =>
       match parseHeader row role options with
       | Fail err => invalid "invalid csv header" err
       | Ok header => Ok header
       end
   end, rr).

(** The loop of [ReadVertex] over the rows of its stream. *)
Fixpoint vertexRows (fuel : nat) (rr : csvRecordReader) (r : CSVReader) : option (result (Vertex V) * CSVReader) :=
  match fuel with
  | O => None
  | S fuel' =>
      let '(row, loc, rr) := readRow rr in
      match row with
      | Fail err =>
          if errors_Is err "io.EOF" then Some (Fail EOF, setVertices rr (r_vertexHeader r) (r_vertexReady r) true r)
          else Some (Fail err, setVertices rr (r_vertexHeader r) (r_vertexReady r) (r_vertexEOF r) r)
      | Ok row =>
          let '(res, r) := vertexFromRow row loc (setVertices rr (r_vertexHeader r) (r_vertexReady r) (r_vertexEOF r) r) in
          match res with
          | RowError err => Some (Fail err, r)
          | RowSkipped => vertexRows fuel' rr r
          | RowElement vertex => Some (Ok vertex, r)
          end
      end
  end.

Fixpoint edgeRows (fuel : nat) (rr : csvRecordReader) (r : CSVReader) : option (result (Edge V) * CSVReader) :=
  match fuel with
  | O => None
  | S fuel' =>
      let '(row, loc, rr) := readRow rr in
      match row with
      | Fail err =>
          if errors_Is err "io.EOF" then Some (Fail EOF, setEdges rr (r_edgeHeader r) (r_edgeReady r) true r)
          else Some (Fail err, setEdges rr (r_edgeHeader r) (r_edgeReady r) (r_edgeEOF r) r)
      | Ok row =>
          let '(res, r) := edgeFromRow row loc (setEdges rr (r_edgeHeader r) (r_edgeReady r) (r_edgeEOF r) r) in
          match res with
          | RowError err => Some (Fail err, r)
          | RowSkipped => edgeRows fuel' rr r
          | RowElement edge => Some (Ok edge, r)
          end
      end
  end.

(** [ReadVertex] once the reader is ready and its stream [rr] is there. *)
Definition readVertexFrom (fuel : nat) (rr : csvRecordReader) (r : CSVReader) : option (result (Vertex V) * CSVReader) :=
  if r_vertexReady r then vertexRows fuel rr r
  else
    let '(header, rr) := readHeader (r_options r) rr FileRoleVertices in
    match header with
    | Fail err => Some (Fail err, setVertices rr (r_vertexHeader r) false (r_vertexEOF r) r)
    | Ok header => vertexRows fuel rr (setVertices rr header true (r_vertexEOF r) r)
    end.

Definition ReadVertex (fuel : nat) (r : CSVReader) : Go W (result (Vertex V) * CSVReader) :=
  if r_closed r then mret (Fail ErrStreamClosed, r)
  else if r_vertexEOF r then mret (Fail EOF, r)
  else
    err ← call (readerReady FileRoleVertices r);
    match err, r_vertices r with
    | Some err, _ => mret (Fail err, r)
    | None, Some rr => onStreams (readVertexFrom fuel rr r)
    | None, None => mret (Fail EOF, r)
    end.

(** [ReadEdge] once the reader is ready and its stream [rr] is there. *)
Definition readEdgeFrom (fuel : nat) (rr : csvRecordReader) (r : CSVReader) : option (result (Edge V) * CSVReader) :=
  if r_edgeReady r then edgeRows fuel rr r
  else
    let '(header, rr) := readHeader (r_options r) rr FileRoleEdges in
    match header with
    | Fail err => Some (Fail err, setEdges rr (r_edgeHeader r) false (r_edgeEOF r) r)
    | Ok header => edgeRows fuel rr (setEdges rr header true (r_edgeEOF r) r)
    end.

Definition ReadEdge (fuel : nat) (r : CSVReader) : Go W (result (Edge V) * CSVReader) :=
  if r_closed r then mret (Fail ErrStreamClosed, r)
  else if r_edgeEOF r then mret (Fail EOF, r)
  else if negb (r_vertexEOF r) then
    mret (Fail (wrap ErrInvalidRecord FormatCSV PhaseReadEdge (atRole FileRoleEdges) (lit "edge") []
                  "read vertices before edges" None), r)
  else
    err ← call (readerReady FileRoleEdges r);
    match err, r_edges r with
    | Some err, _ => mret (Fail err, r)
    | None, Some rr => onStreams (readEdgeFrom fuel rr r)
    | None, None => mret (Fail EOF, r)
    end.

(** [CSVReader.Close] *)
Definition readerClose (r : CSVReader) : Call W (Report * CSVReader) :=
  if r_closed r then mret (r_final r, r)
  else
    time ← now;
    let final := setElapsed (r_report r) (time - r_started r) in
    mret (final, mkCSVReader (r_ctx r) (r_options r) (r_vertices r) (r_edges r) (r_vertexHeader r) (r_edgeHeader r)
                   (r_vertexReady r) (r_edgeReady r) (r_vertexEOF r) (r_edgeEOF r) (r_records r) (r_seen r) (r_report r)
                   (r_started r) true final (r_setupErr r)).

(** The first loop of [ReadCSV]: the vertices, and the error that ended it,
    [None] for the end of the stream. *)
Fixpoint readVertices (fuel rows : nat) (r : CSVReader) (records : list (Record_ V)) : Go W (list (Record_ V) * option error * CSVReader) :=
  match fuel with
  | O => out_of_fuel
  | S fuel' =>
      '(vertex, r) ← ReadVertex rows r;
      match vertex with
      | Ok vertex =>
          match VertexRecord vertex with
          | (_, Some err) => mret (records, Some err, r)
          | (record, None) => readVertices fuel' rows r (records ++ [record])
          end
      | Fail err => mret (records, if errors_Is err "io.EOF" then None else Some err, r)
      end
  end.

Fixpoint readEdges (fuel rows : nat) (r : CSVReader) (records : list (Record_ V)) : Go W (list (Record_ V) * option error * CSVReader) :=
  match fuel with
  | O => out_of_fuel
  | S fuel' =>
      '(edge, r) ← ReadEdge rows r;
      match edge with
      | Ok edge =>
          match EdgeRecord edge with
          | (_, Some err) => mret (records, Some err, r)
          | (record, None) => readEdges fuel' rows r (records ++ [record])
          end
      | Fail err => mret (records, if errors_Is err "io.EOF" then None else Some err, r)
      end
  end.

Definition ReadCSV (fuel : nat) (ctx : option (Context W)) (streams : CSVReaderStreams) (options : CSVReadOptions)
    : Go W (list (Record_ V) * Report * option error) :=
  r ← call (NewCSVReader ctx streams options);
  '(records, err, r) ← readVertices fuel fuel r [];
  match err with
  | Some err => '(report, _) ← call (readerClose r); mret (records, report, Some err)
  | None =>
      '(records, err, r) ← readEdges fuel fuel r records;
      '(report, _) ← call (readerClose r);
      mret (records, report, err)
  end.

End csv.
