(* ===== verification/GraphCSVLaws.v ===== *)
(** * Reading and writing graphs as CSV: laws

    Every reading of CSV streams returns, and what it returns is a graph
    ([csv_reads_graphs]); what was written comes back ([csv_roundtrip]); and two
    corners where it does not: a blank line ends a stream without an error, and
    a graph without properties is not written at all. *)

From S2P Require Import Prelude GoError GoText Graph GoCsv GraphIO GraphCSV.

Local Open Scope Z_scope.

(** ** Rows consume their stream *)

Definition rawBound (n m : nat) (res : rawResult) : Prop :=
  match res with
  | RawRecord _ rest' | RawTooLarge rest' => (length rest' < n)%nat
  | RawStop buf' => length buf' = m
  end.

Lemma rawLoop_length max rest buf q :
  rawBound (length rest) (length buf + length rest) (rawLoop max rest buf q).
Proof.
  remember (length rest) as n eqn:Hn. revert rest buf q Hn.
  induction (lt_wf n) as [n _ IH]; intros rest buf q ->. destruct rest as [|b rest]; [cbn; lia|].
  cbn [rawLoop length]. destruct (max <? _); [cbn; lia|].
  assert (∀ rest' buf' q', (length rest' < S (length rest))%nat →
    (length buf' + length rest' = length buf + S (length rest))%nat →
    rawBound (S (length rest)) (length buf + S (length rest)) (rawLoop max rest' buf' q')) as Hrec.
  { intros rest' buf' q' Hl Hb. pose proof (IH _ Hl rest' buf' q' eq_refl) as HI.
    destruct (rawLoop _ _ _ _); cbn in *; lia. }
  destruct (b =? QUOTE).
  - destruct q, rest as [|next rest]; try destruct (next =? QUOTE); apply Hrec; rewrite ?length_app; cbn; lia.
  - destruct (_ && _); [cbn; lia|]. apply Hrec; rewrite ?length_app; cbn; lia.
Qed.

Section laws.
Context {V W : Type} `{Digest} `{PropertyText V} (now : Call W Z).
Implicit Types (r : @CSVReader W) (rr : csvRecordReader).

Definition left (rr : csvRecordReader) : nat := length (rr_rest rr).

Lemma readRow_consumes rr row loc rr' :
  readRow rr = (row, loc, rr') →
  (left rr' ≤ left rr)%nat ∧ (is_Ok row → (left rr' < left rr)%nat).
Proof.
  unfold readRow, readRaw, left. pose proof (rawLoop_length (MaxRecordBytes (rr_options rr)) (rr_rest rr) [] false) as Hl.
  destruct (rawLoop _ _ _ _) as [buf rest|rest|buf].
  - intros [= <- <- <-]. cbn in *. lia.
  - intros [= <- <- <-]. cbn in *. split; [lia|]. by intros [? [=]].
  - cbn in Hl. destruct (errors_Is _ _ && _) eqn:E.
    + destruct buf as [|c buf]; [by rewrite andb_false_r in E|]. intros [= <- <- <-]. cbn in *. lia.
    + intros [= <- <- <-]. cbn. split; [lia|]. by intros [? [=]].
Qed.

(** ** What was read is a graph *)

Definition goodVertex (v : Vertex V) : Prop := trimmed (v_id v) ∧ trimmed (v_label v).
Definition goodEdge (ids : list text) (e : Edge V) : Prop :=
  trimmed (e_id e) ∧ trimmed (e_label e) ∧ trimmed (StartID e) ∧ trimmed (EndID e) ∧ StartID e ∈ ids ∧ EndID e ∈ ids.

(** Distinct vertices, and edges between them. *)
Definition graph (vs : list (Vertex V)) (es : list (Edge V)) : Prop :=
  Forall goodVertex vs ∧ NoDup (v_id <$> vs) ∧ Forall (goodEdge (v_id <$> vs)) es.

(** The rows a report accounts for. *)
Definition accounted (rep : Report) : Z :=
  VerticesRead rep + EdgesRead rep + SkippedVertices rep + SkippedEdges rep.

Definition counts (limit : Z) (vs : list (Vertex V)) (es : list (Edge V)) (rep : Report) : Prop :=
  VerticesRead rep = Z.of_nat (length vs) ∧ EdgesRead rep = Z.of_nat (length es) ∧
  (0 ≤ limit → accounted rep ≤ limit).

Definition readInv (vs : list (Vertex V)) (es : list (Edge V)) (r : @CSVReader W) : Prop :=
  graph vs es ∧ r_seen r = list_to_set (v_id <$> vs) ∧
  counts (MaxRecords (crRead (r_options r))) vs es (r_report r) ∧ accounted (r_report r) ≤ r_records r.

Lemma goodVertex_valid v : goodVertex v → Vertex_Validate v = None.
Proof.
  intros [Hi Hl]. unfold Vertex_Validate.
  destruct (trimmed_valid _ Hi) as [-> _]. by destruct (trimmed_valid _ Hl) as [_ ->].
Qed.

Lemma goodEdge_valid ids e : goodEdge ids e → Edge_Validate e = None.
Proof.
  intros (Hi & Hl & Hs & He & _). unfold Edge_Validate, EdgeEndpoints_Validate.
  destruct (trimmed_valid _ Hi) as [-> _]. destruct (trimmed_valid _ Hl) as [_ ->].
  destruct (trimmed_valid _ Hs) as [Hs' _], (trimmed_valid _ He) as [He' _]. unfold StartID, EndID in *.
  by rewrite Hs', He'.
Qed.

Lemma ParseVertex_good id label ps (v : Vertex V) : ParseVertex id label ps = Ok v → goodVertex v.
Proof. intros (-> & Hi & Hl)%ParseVertex_Ok. by split; apply trimmed_TrimSpace. Qed.

Lemma ParseEdge_good id label rs ps (e : Edge V) ids :
  ParseEdge id label rs ps = Ok e → StartID e ∈ ids → EndID e ∈ ids → goodEdge ids e.
Proof.
  intros (-> & Hi & Hl & Hs & He)%ParseEdge_Ok Hsi Hei.
  unfold goodEdge, StartID, EndID in *. cbn in *. repeat split; try apply TrimSpace_idem; done.
Qed.

(** Fields of a reader that a row does not change. *)
Definition counted (r r' : @CSVReader W) : Prop := ∃ n seen rep, r' = setCounts n seen rep r.

Lemma countRecord_spec phase loc r res r' vs es :
  countRecord phase loc r = (res, r') → readInv vs es r →
  r' = setCounts (r_records r + 1) (r_seen r) (r_report r) r ∧ readInv vs es r' ∧
  (res = None → accounted (r_report r') + 1 ≤ r_records r' ∧
                (0 ≤ MaxRecords (crRead (r_options r)) → r_records r' ≤ MaxRecords (crRead (r_options r)))).
Proof.
  unfold countRecord. cbn. intros [= <- <-] (Hg & Hs & Hc & Ha). split; [done|]. split.
  - split; [done|]. split; [done|]. split; [done|]. cbn. lia.
  - destruct (_ && _) eqn:E; [done|]. intros _. cbn. split; [lia|]. intros Hm.
    apply andb_false_iff in E as [E|E]; bools; [|lia]. unfold UnlimitedRecords in *. lia.
Qed.

Lemma vertexFromRow_inv row loc r res r' vs :
  vertexFromRow row loc r = (res, r') → readInv vs [] r →
  counted r r' ∧ match res with RowElement v => readInv (vs ++ [v]) [] r' | _ => readInv vs [] r' end.
Proof.
  unfold vertexFromRow. intros Hrow Hinv. destruct (countRecord _ _ r) as [lim r1] eqn:Hc.
  destruct (countRecord_spec _ _ _ _ _ _ _ Hc Hinv) as (-> & Hinv1 & Hlim).
  set (r1 := setCounts _ _ _ r) in *. assert (counted r r1) as Hr1 by (by eexists _, _, _).
  destruct lim as [e|]; [by injection Hrow as <- <-|]. destruct (negb _); [by injection Hrow as <- <-|].
  destruct (propertiesFromRow _ _ _ _ _) as [ps|]; [|by injection Hrow as <- <-].
  destruct (ParseVertex _ _ _) as [v|] eqn:Hv; [|by injection Hrow as <- <-].
  destruct (Hlim eq_refl) as [Hn Hm]. destruct Hinv1 as (Hg & Hs & (Hvr & Her & Hb) & Ha).
  case_bool_decide as Hin.
  - destruct (String.eqb _ _); injection Hrow as <- <-; [|by split; [done|]].
    split; [by eexists _, _, _|]. split; [done|]. split; [done|]. unfold counts, accounted in *. cbn in *. lia.
  - injection Hrow as <- <-. split; [by eexists _, _, _|]. destruct Hg as (Hgv & Hnd & _).
    split.
    { split; [by apply Forall_app; split; [done|]; constructor; [by eapply ParseVertex_good|]|]. split; [|constructor].
      rewrite fmap_app. apply NoDup_app. split; [done|]. split; [|by apply NoDup_singleton].
      intros x Hx ->%list_elem_of_singleton. apply Hin. rewrite Hs. by apply elem_of_list_to_set. }
    split. { cbn. rewrite fmap_app, list_to_set_app_L, <-Hs. cbn. set_solver. }
    unfold counts, accounted in *. cbn in *. rewrite length_app. cbn. lia.
Qed.

Lemma edgeFromRow_inv row loc r res r' vs es :
  edgeFromRow row loc r = (res, r') → readInv vs es r →
  counted r r' ∧ match res with RowElement e => readInv vs (es ++ [e]) r' | _ => readInv vs es r' end.
Proof.
  unfold edgeFromRow. intros Hrow Hinv. destruct (countRecord _ _ r) as [lim r1] eqn:Hc.
  destruct (countRecord_spec _ _ _ _ _ _ _ Hc Hinv) as (-> & Hinv1 & Hlim).
  set (r1 := setCounts _ _ _ r) in *. assert (counted r r1) as Hr1 by (by eexists _, _, _).
  destruct lim as [e|]; [by injection Hrow as <- <-|]. destruct (negb _); [by injection Hrow as <- <-|].
  destruct (propertiesFromRow _ _ _ _ _) as [ps|]; [|by injection Hrow as <- <-].
  destruct (ParseEdge _ _ _ _) as [v|] eqn:Hv; [|by injection Hrow as <- <-].
  destruct (Hlim eq_refl) as [Hn Hm]. destruct Hinv1 as (Hg & Hs & (Hvr & Her & Hb) & Ha).
  destruct (_ || _) eqn:Hin.
  - destruct (String.eqb _ _); injection Hrow as <- <-; [|by split; [done|]].
    split; [by eexists _, _, _|]. split; [done|]. split; [done|]. unfold counts, accounted in *. cbn in *. lia.
  - injection Hrow as <- <-. split; [by eexists _, _, _|]. destruct Hg as (Hgv & Hnd & Hge).
    bools. apply bool_decide_eq_true_1 in H1, H2. rewrite Hs, elem_of_list_to_set in H1, H2.
    split; [|split; [done|]]; [|unfold counts, accounted in *; cbn in *; rewrite length_app; cbn; lia].
    split; [done|]. split; [done|]. apply Forall_app; split; [done|]. constructor; [|done]. by eapply ParseEdge_good.
Qed.

(** ** Reading ends *)

(** What stays the same while the vertices are read, and while the edges are. *)
Definition keepsV (r r' : @CSVReader W) : Prop :=
  r_edges r' = r_edges r ∧ r_options r' = r_options r ∧ r_closed r' = r_closed r.
Definition keepsE (r r' : @CSVReader W) : Prop :=
  r_options r' = r_options r ∧ r_closed r' = r_closed r.

(** What a stream of a reader still holds. *)
Definition leftOf (o : option csvRecordReader) : nat := from_option left 0%nat o.

(** The element of an answer, as a list. *)
Definition found {A} (res : result A) : list A := match res with Ok a => [a] | Fail _ => [] end.

Lemma vertexRows_ends fuel rr r vs :
  (left rr < fuel)%nat → readInv vs [] r →
  ∃ res r', vertexRows fuel rr r = Some (res, r') ∧ readInv (vs ++ found res) [] r' ∧ keepsV r r' ∧
    (leftOf (r_vertices r') ≤ left rr)%nat ∧ (is_Ok res → (leftOf (r_vertices r') < left rr)%nat).
Proof.
  revert rr r. induction fuel as [|fuel IH]; intros rr r Hf Hinv; [lia|]. cbn [vertexRows].
  destruct (readRow rr) as [[row loc] rr'] eqn:Hrow. apply readRow_consumes in Hrow as [Hle Hlt].
  destruct row as [row|err].
  - specialize (Hlt (ex_intro _ _ eq_refl)).
    destruct (vertexFromRow _ _ _) as [res r1] eqn:Hv.
    apply vertexFromRow_inv with (vs := vs) in Hv as [(n & seen & rep & ->) Hv]; [|done].
    destruct res as [v| |err].
    + eexists _, _. split; [done|]. cbn. split; [done|]. split; [done|]. lia.
    + destruct (IH rr' _ ltac:(lia) Hv) as (res & r2 & -> & Hi & Hk & Hl & Hs). eexists _, _. split; [done|].
      split; [done|]. split; [done|]. split; [lia|]. intros Hok. specialize (Hs Hok). lia.
    + eexists _, _. split; [done|]. cbn. rewrite app_nil_r. split; [done|]. split; [done|]. split; [lia|]. by intros [? [=]].
  - case_match; eexists _, _; (split; [done|]); cbn; rewrite app_nil_r; (split; [done|]); (split; [done|]);
      (split; [lia|]); by intros [? [=]].
Qed.

Lemma edgeRows_ends fuel rr r vs es :
  (left rr < fuel)%nat → readInv vs es r →
  ∃ res r', edgeRows fuel rr r = Some (res, r') ∧ readInv vs (es ++ found res) r' ∧ keepsE r r' ∧
    (leftOf (r_edges r') ≤ left rr)%nat ∧ (is_Ok res → (leftOf (r_edges r') < left rr)%nat).
Proof.
  revert rr r. induction fuel as [|fuel IH]; intros rr r Hf Hinv; [lia|]. cbn [edgeRows].
  destruct (readRow rr) as [[row loc] rr'] eqn:Hrow. apply readRow_consumes in Hrow as [Hle Hlt].
  destruct row as [row|err].
  - specialize (Hlt (ex_intro _ _ eq_refl)).
    destruct (edgeFromRow _ _ _) as [res r1] eqn:Hv.
    apply edgeFromRow_inv with (vs := vs) (es := es) in Hv as [(n & seen & rep & ->) Hv]; [|done].
    destruct res as [v| |err].
    + eexists _, _. split; [done|]. cbn. split; [done|]. split; [done|]. lia.
    + destruct (IH rr' _ ltac:(lia) Hv) as (res & r2 & -> & Hi & Hk & Hl & Hs). eexists _, _. split; [done|].
      split; [done|]. split; [done|]. split; [lia|]. intros Hok. specialize (Hs Hok). lia.
    + eexists _, _. split; [done|]. cbn. rewrite app_nil_r. split; [done|]. split; [done|]. split; [lia|]. by intros [? [=]].
  - case_match; eexists _, _; (split; [done|]); cbn; rewrite app_nil_r; (split; [done|]); (split; [done|]);
      (split; [lia|]); by intros [? [=]].
Qed.

Lemma readHeader_consumes options rr role res rr' :
  readHeader options rr role = (res, rr') → (left rr' ≤ left rr)%nat.
Proof.
  unfold readHeader. destruct (readRow rr) as [[row loc] rr1] eqn:Hrow. apply readRow_consumes in Hrow as [Hle _].
  by intros [= _ <-].
Qed.

(** The two reading calls, on a fuel above what their stream holds. *)
Lemma ReadVertex_ends fuel r vs w :
  (leftOf (r_vertices r) < fuel)%nat → readInv vs [] r →
  wp (ReadVertex fuel r) (λ '(res, r') _, readInv (vs ++ found res) [] r' ∧ keepsV r r' ∧
    (leftOf (r_vertices r') ≤ leftOf (r_vertices r))%nat ∧
    (is_Ok res → (leftOf (r_vertices r') < leftOf (r_vertices r))%nat)) w.
Proof.
  intros Hf Hinv. unfold ReadVertex.
  assert (∀ err, readInv (vs ++ found (Fail err)) [] r ∧ keepsV r r ∧ (leftOf (r_vertices r) ≤ leftOf (r_vertices r))%nat ∧
    (is_Ok (Fail (A := Vertex V) err) → (leftOf (r_vertices r) < leftOf (r_vertices r))%nat)) as Hfail.
  { intros err. cbn. rewrite app_nil_r. repeat split; try apply Hinv; [lia|]. by intros [? [=]]. }
  destruct (r_closed r); [wp_step; apply Hfail|]. destruct (r_vertexEOF r); [wp_step; apply Hfail|].
  wp_step. wp_step. run_call err w'. destruct err as [err|]; [wp_step; apply Hfail|].
  destruct (r_vertices r) as [rr|] eqn:Hrr; [|wp_step; rewrite Hrr; apply Hfail]. cbn in Hf |- *.
  enough (∃ res r', readVertexFrom fuel rr r = Some (res, r') ∧ readInv (vs ++ found res) [] r' ∧ keepsV r r' ∧
    (leftOf (r_vertices r') ≤ left rr)%nat ∧ (is_Ok res → (leftOf (r_vertices r') < left rr)%nat)) as (res & r' & E & Hr).
  { exists (res, r'), w'. unfold onStreams. rewrite E. by split. }
  unfold readVertexFrom. destruct (r_vertexReady r); [by apply vertexRows_ends|].
  destruct (readHeader _ _ _) as [[h|e] rr1] eqn:Hh; apply readHeader_consumes in Hh.
  - destruct (vertexRows_ends fuel rr1 (setVertices rr1 h true (r_vertexEOF r) r) vs) as (res & r' & E & Hi & Hk & Hl & Hs);
      [lia|done|]. exists res, r'. split; [done|]. split; [done|]. split; [done|]. split; [lia|]. intros Ho. specialize (Hs Ho). lia.
  - eexists _, _. split; [done|]. cbn. rewrite app_nil_r. repeat split; try apply Hinv; [lia|]. by intros [? [=]].
Qed.

Lemma ReadEdge_ends fuel r vs es w :
  (leftOf (r_edges r) < fuel)%nat → readInv vs es r →
  wp (ReadEdge fuel r) (λ '(res, r') _, readInv vs (es ++ found res) r' ∧ keepsE r r' ∧
    (leftOf (r_edges r') ≤ leftOf (r_edges r))%nat ∧
    (is_Ok res → (leftOf (r_edges r') < leftOf (r_edges r))%nat)) w.
Proof.
  intros Hf Hinv. unfold ReadEdge.
  assert (∀ err, readInv vs (es ++ found (Fail err)) r ∧ keepsE r r ∧ (leftOf (r_edges r) ≤ leftOf (r_edges r))%nat ∧
    (is_Ok (Fail (A := Edge V) err) → (leftOf (r_edges r) < leftOf (r_edges r))%nat)) as Hfail.
  { intros err. cbn. rewrite app_nil_r. repeat split; try apply Hinv; [lia|]. by intros [? [=]]. }
  destruct (r_closed r); [wp_step; apply Hfail|]. destruct (r_edgeEOF r); [wp_step; apply Hfail|].
  destruct (negb _); [wp_step; apply Hfail|].
  wp_step. wp_step. run_call err w'. destruct err as [err|]; [wp_step; apply Hfail|].
  destruct (r_edges r) as [rr|] eqn:Hrr; [|wp_step; rewrite Hrr; apply Hfail]. cbn in Hf |- *.
  enough (∃ res r', readEdgeFrom fuel rr r = Some (res, r') ∧ readInv vs (es ++ found res) r' ∧ keepsE r r' ∧
    (leftOf (r_edges r') ≤ left rr)%nat ∧ (is_Ok res → (leftOf (r_edges r') < left rr)%nat)) as (res & r' & E & Hr).
  { exists (res, r'), w'. unfold onStreams. rewrite E. by split. }
  unfold readEdgeFrom. destruct (r_edgeReady r); [by apply edgeRows_ends|].
  destruct (readHeader _ _ _) as [[h|e] rr1] eqn:Hh; apply readHeader_consumes in Hh.
  - destruct (edgeRows_ends fuel rr1 (setEdges rr1 h true (r_edgeEOF r) r) vs es) as (res & r' & E & Hi & Hk & Hl & Hs);
      [lia|done|]. exists res, r'. split; [done|]. split; [done|]. split; [done|]. split; [lia|]. intros Ho. specialize (Hs Ho). lia.
  - eexists _, _. split; [done|]. cbn. rewrite app_nil_r. repeat split; try apply Hinv; [lia|]. by intros [? [=]].
Qed.

(** The records of a graph, in the order of [ReadCSV]. *)
Definition recordsOf (vs : list (Vertex V)) (es : list (Edge V)) : list (Record_ V) :=
  ((λ v, mkRecord RecordVertex v zeroEdge) <$> vs) ++ ((λ e, mkRecord RecordEdge zeroVertex e) <$> es).

Lemma readVertices_ends fuel rows r vs w :
  (leftOf (r_vertices r) < fuel)%nat → (leftOf (r_vertices r) < rows)%nat → readInv vs [] r →
  wp (readVertices fuel rows r (recordsOf vs [])) (λ '(records, err, r') _,
    ∃ vs', records = recordsOf vs' [] ∧ readInv vs' [] r' ∧ keepsV r r') w.
Proof.
  revert r vs w. induction fuel as [|fuel IH]; intros r vs w Hf Hr Hinv; [lia|]. cbn [readVertices]. wp_step.
  eapply wp_mono; [|by apply (ReadVertex_ends _ _ vs)]. intros [res r'] w' (Hi & Hk & Hle & Hlt). destruct res as [v|err].
  - cbn in Hi. assert (goodVertex v) as Hv.
    { destruct Hi as ((Hi & _) & _). apply Forall_app in Hi as [_ Hi]. by inversion Hi. }
    rewrite VertexRecord_valid by by apply goodVertex_valid. specialize (Hlt (ex_intro _ _ eq_refl)).
    assert (recordsOf vs [] ++ [mkRecord RecordVertex v zeroEdge] = recordsOf (vs ++ [v]) []) as ->.
    { unfold recordsOf. cbn. by rewrite !app_nil_r, fmap_app. }
    eapply wp_mono; [|apply IH; [lia|lia|done]]. intros [[recs err] r2] w2 (vs' & -> & Hi2 & Hk2).
    exists vs'. split; [done|]. split; [done|]. unfold keepsV in *. destruct Hk as (? & ? & ?), Hk2 as (? & ? & ?).
    by rewrite H4, H5, H6.
  - wp_step. exists vs. cbn in Hi. rewrite app_nil_r in Hi. done.
Qed.

Lemma readEdges_ends fuel rows r vs es w :
  (leftOf (r_edges r) < fuel)%nat → (leftOf (r_edges r) < rows)%nat → readInv vs es r →
  wp (readEdges fuel rows r (recordsOf vs es)) (λ '(records, err, r') _,
    ∃ es', records = recordsOf vs es' ∧ readInv vs es' r' ∧ keepsE r r') w.
Proof.
  revert r es w. induction fuel as [|fuel IH]; intros r es w Hf Hr Hinv; [lia|]. cbn [readEdges]. wp_step.
  eapply wp_mono; [|by apply (ReadEdge_ends _ _ vs es)]. intros [res r'] w' (Hi & Hk & Hle & Hlt). destruct res as [e|err].
  - cbn in Hi. assert (goodEdge (v_id <$> vs) e) as He.
    { destruct Hi as ((_ & _ & Hi) & _). apply Forall_app in Hi as [_ Hi]. by inversion Hi. }
    rewrite EdgeRecord_valid by by eapply goodEdge_valid. specialize (Hlt (ex_intro _ _ eq_refl)).
    assert (recordsOf vs es ++ [mkRecord RecordEdge zeroVertex e] = recordsOf vs (es ++ [e])) as ->.
    { unfold recordsOf. by rewrite <-(assoc_L app), fmap_app. }
    eapply wp_mono; [|apply IH; [lia|lia|done]]. intros [[recs err] r2] w2 (es' & -> & Hi2 & Hk2).
    exists es'. split; [done|]. split; [done|]. unfold keepsE in *. destruct Hk as (? & ?), Hk2 as (? & ?).
    by rewrite H3, H4.
  - wp_step. exists es. cbn in Hi. rewrite app_nil_r in Hi. done.
Qed.

Definition streamLength (s : option (text * error)) : nat := from_option (λ s, length s.1) 0%nat s.

Lemma counts_elapsed limit vs es rep t : counts limit vs es rep → counts limit vs es (setElapsed rep t).
Proof. done. Qed.

Lemma readerClose_report r vs es w :
  r_closed r = false → readInv vs es r → counts (MaxRecords (crRead (r_options r))) vs es (readerClose now r w).1.1.
Proof.
  intros Hc (_ & _ & Hn & _). unfold readerClose. rewrite Hc. unfold mbind, call_bind. destruct (now w). by apply counts_elapsed.
Qed.

(** C24. Reading CSV always ends, and what it gives is a graph: whatever the two
    streams hold, however they end, and whatever the options and the context
    are, [ReadCSV] returns once its fuel exceeds the length of the streams.  Its
    records are vertices with distinct trimmed identifiers followed by edges
    whose endpoints are among them, even when it reports an error; the report
    counts them, and what it has read and skipped together stays within the
    limit on records. *)
Theorem csv_reads_graphs fuel ctx streams options w :
  (streamLength (inVertices streams) < fuel)%nat → (streamLength (inEdges streams) < fuel)%nat →
  wp (ReadCSV now fuel ctx streams options) (λ '(records, report, _) _,
    ∃ vs es, records = recordsOf vs es ∧ graph vs es ∧
    counts (MaxRecords (crRead (normalizeCSVReadOptions options).1)) vs es report) w.
Proof.
  intros Hv He. unfold ReadCSV. wp_step. wp_step.
  destruct (NewCSVReader now ctx streams options w) as [r w1] eqn:Hr. cbn [fst snd].
  unfold NewCSVReader, mbind, call_bind in Hr. destruct (now w) as [t w0].
  destruct (normalizeCSVReadOptions options) as [norm nerr] eqn:Hn. injection Hr as <- <-. cbn [fst].
  set (r := mkCSVReader _ _ _ _ _ _ _ _ _ _ _ _ _ _ _ _ _).
  assert (readInv [] [] r) as Hinv.
  { split; [by repeat constructor|]. split; [done|]. split; [|done]. unfold counts, accounted. cbn. lia. }
  wp_step. eapply wp_mono; [|apply (readVertices_ends fuel fuel r []); [| |done]].
  2,3: subst r; cbn; by destruct (inVertices streams).
  intros [[records err] r1] w1' (vs & -> & Hi & (Hke & Hko & Hkc)). cbn in Hkc.
  destruct err as [err|].
  - wp_step. wp_step. destruct (readerClose now r1 w1') as [[rep r2] w2] eqn:E. cbn [fst snd]. wp_step. exists vs, [].
    split; [done|]. split; [apply Hi|]. pose proof (readerClose_report r1 vs [] w1' Hkc Hi) as Hrep.
    rewrite E, Hko in Hrep. exact Hrep.
  - wp_step. eapply wp_mono; [|apply (readEdges_ends fuel fuel r1 vs []); [| |done]].
    2,3: rewrite Hke; subst r; cbn; by destruct (inEdges streams).
    intros [[records err] r2] w2' (es & -> & Hi2 & (Hko2 & Hkc2)). rewrite Hkc in Hkc2.
    wp_step. wp_step. destruct (readerClose now r2 w2') as [[rep r3] w3] eqn:E. cbn [fst snd]. wp_step. exists vs, es.
    split; [done|]. split; [apply Hi2|]. pose proof (readerClose_report r2 vs es w2' Hkc2 Hi2) as Hrep.
    rewrite E, Hko2, Hko in Hrep. exact Hrep.
Qed.
End laws.

(** ** Examples *)

Definition sampleDigest : Digest := λ _, [].
Definition sampleText : PropertyText Z :=
  {| Sprint := λ z, Itoa (Z.to_nat z);
     jsonMarshal := λ _, Fail (Sentinel "json");
     jsonUnmarshal := λ _, Fail (Sentinel "json") |}.
#[local] Existing Instances sampleDigest sampleText.

Definition sampleReadOptions : CSVReadOptions := mkCSVReadOptions (mkReadOptions "" "skip_edge" 0 0 0 0 0 0) "" [] [].

(** A duplicate vertex ends the reading; what came before it is a graph. *)
Definition sampleStreams : CSVReaderStreams :=
  mkReaderStreams (Some (lit "id,label" ++ [LF] ++ lit "v1,Person" ++ [LF] ++ lit "v1,Person" ++ [LF], EOF))
                  (Some (lit "id,label,from,to" ++ [LF], EOF)).

Lemma csv_reads_graphs_witness :
  wp (ReadCSV (V := Z) (W := unit) (λ w, (0, w)) 40 None sampleStreams sampleReadOptions) (λ '(records, report, _) _,
    ∃ vs es, records = recordsOf vs es ∧ graph vs es ∧
    counts (MaxRecords (crRead (normalizeCSVReadOptions sampleReadOptions).1)) vs es report) tt.
Proof. apply csv_reads_graphs; vm_compute; lia. Defined.

(** ** Graphs through CSV and back

    What [WriteCSV] wrote without an error, [ReadCSV] reads back: the encoded
    rows are split, parsed and turned into the elements they came from. *)

(** ** Splitting the text into rows *)

Lemma byteLen_nonneg s : 0 ≤ byteLen s.
Proof. induction s as [|c s IH]; [done|]. cbn. pose proof (RuneLen_pos c). unfold byteLen in IH. lia. Qed.

Lemma within max (buf s : text) : byteLen (buf ++ s) ≤ max → (max <? byteLen buf) = false.
Proof. rewrite byteLen_app. intros H. pose proof (byteLen_nonneg s). apply Z.ltb_ge. lia. Qed.

Lemma within_char max (buf : text) c s : byteLen (buf ++ c :: s) ≤ max → (max <? byteLen (buf ++ [c])) = false.
Proof. intros H. apply (within _ _ s). by rewrite <-(assoc_L app). Qed.

Lemma raw_body max f s buf :
  byteLen (buf ++ encodeBody f) ≤ max →
  rawLoop max (encodeBody f ++ s) buf true = rawLoop max s (buf ++ encodeBody f) true.
Proof.
  revert buf. induction f as [|c f IH]; intros buf Hb; [by rewrite app_nil_r|].
  revert Hb. cbn [encodeBody flat_map]. fold (encodeBody f). rewrite <-(assoc_L app).
  destruct (c =? QUOTE) eqn:E; cbn [app rawLoop]; intros Hb; rewrite (within_char _ _ _ _ Hb).
  - rewrite Z.eqb_refl. cbn [negb]. rewrite IH; by rewrite <-!(assoc_L app).
  - rewrite E, andb_false_r. rewrite IH; by rewrite <-!(assoc_L app).
Qed.

Lemma raw_bare max f s buf :
  LF ∉ f → QUOTE ∉ f → byteLen (buf ++ f) ≤ max →
  rawLoop max (f ++ s) buf false = rawLoop max s (buf ++ f) false.
Proof.
  revert buf. induction f as [|c f IH]; intros buf HL HQ Hb; [by rewrite app_nil_r|]. cbn [app rawLoop].
  rewrite (within_char _ _ _ _ Hb). apply not_elem_of_cons in HL as [HL1 HL], HQ as [HQ1 HQ].
  rewrite (proj2 (Z.eqb_neq c QUOTE)), (proj2 (Z.eqb_neq c LF)) by done. cbn [andb].
  rewrite IH; rewrite <-?(assoc_L app); done.
Qed.

Lemma raw_field max f s buf :
  startsWith QUOTE s = false → byteLen (buf ++ encodeField f) ≤ max →
  rawLoop max (encodeField f ++ s) buf false = rawLoop max s (buf ++ encodeField f) false.
Proof.
  unfold encodeField. destruct (fieldNeedsQuotes f) eqn:E; intros Hs Hb.
  - cbn [app rawLoop]. rewrite (within_char _ _ _ _ Hb), Z.eqb_refl. cbn [negb]. rewrite <-(assoc_L app).
    assert (byteLen ((buf ++ [QUOTE]) ++ encodeBody f ++ [QUOTE]) ≤ max) as Hb' by (by rewrite <-!(assoc_L app)).
    rewrite raw_body by (revert Hb'; rewrite (assoc_L app), byteLen_app; cbn; lia).
    cbn [app rawLoop]. rewrite (assoc_L app) in Hb'.
    assert ((max <? byteLen (((buf ++ [QUOTE]) ++ encodeBody f) ++ [QUOTE])) = false) as -> by (by apply Z.ltb_ge).
    rewrite Z.eqb_refl. replace (buf ++ QUOTE :: encodeBody f ++ [QUOTE]) with (((buf ++ [QUOTE]) ++ encodeBody f) ++ [QUOTE])
      by (by rewrite <-!(assoc_L app)).
    destruct s as [|c s]; [done|]. cbn [startsWith] in Hs. rewrite Z.eqb_sym in Hs. by rewrite Hs.
  - apply bare_field, special_free in E as (HL & _ & HQ & _). by apply raw_bare.
Qed.

Lemma raw_row max row rest buf :
  row ≠ [] → byteLen (buf ++ encodeRow row) ≤ max →
  rawLoop max (encodeRow row ++ rest) buf false = RawRecord (buf ++ encodeRow row) rest.
Proof.
  revert buf. induction row as [|f row IH]; intros buf Hr Hb; [done|].
  destruct (decide (row = [])) as [->|Hrow].
  - revert Hb. unfold encodeRow. cbn [map Join]. rewrite <-(assoc_L app). intros Hb.
    rewrite raw_field; [|done|revert Hb; rewrite (assoc_L app), byteLen_app; cbn; lia].
    cbn [app rawLoop]. rewrite (within_char _ _ _ []) by by rewrite <-(assoc_L app).
    rewrite Z.eqb_refl. by rewrite <-(assoc_L app).
  - revert Hb. rewrite encodeRow_cons by done. rewrite <-(assoc_L app). intros Hb.
    rewrite raw_field; [|done|].
    2: { revert Hb. rewrite (assoc_L app), byteLen_app. pose proof (byteLen_nonneg (COMMA :: encodeRow row)). lia. }
    cbn [app rawLoop]. rewrite (within_char _ _ _ (encodeRow row)) by by rewrite <-(assoc_L app).
    change (COMMA =? QUOTE) with false. change ((COMMA =? LF) && negb false) with false. cbn match.
    rewrite IH; [|done|by rewrite <-!(assoc_L app)]. by rewrite <-!(assoc_L app).
Qed.

(** A row that a reader with these limits accepts and gives back. *)
Definition rowFits (o : ReadOptions) (row : list text) : Prop :=
  (2 ≤ length row)%nat ∧ Forall (λ f, noCRLF f = true) row ∧ byteLen (encodeRow row) ≤ MaxRecordBytes o ∧
  Z.of_nat (length row) ≤ MaxColumns o ∧ Forall (λ f, byteLen f ≤ MaxFieldBytes o) row.
#[export] Instance rowFits_dec o row : Decision (rowFits o row).
Proof. unfold rowFits. apply _. Defined.

Lemma readRow_encoded `{Digest} rr row rest :
  rr_rest rr = encodeRow row ++ rest → rowFits (rr_options rr) row →
  readRow rr = (Ok row, atRow (rr_row rr + 1) (rr_role rr), setRest rr rest (rr_row rr + 1)).
Proof.
  intros Hr (Hl & Hc & Hb & Hm & Hf). unfold readRow, readRaw.
  rewrite Hr, raw_row; [|by destruct row; cbn in Hl; [lia|]|done]. rewrite app_nil_l.
  unfold parseRow. rewrite reader_encodeRow by done. cbn [default from_option setRest rr_options id].
  rewrite (proj2 (Z.ltb_ge _ _)) by done.
  replace (existsb _ row) with false; [done|]. symmetry. clear -Hf. induction Hf as [|f row Hf HF IH]; [done|].
  cbn. by rewrite IH, (proj2 (Z.ltb_ge _ _)).
Qed.

(** What a stream of vertices may go on with after its rows: nothing, or a blank
    line and whatever follows it. *)
Definition stops (o : ReadOptions) (stop : text) : Prop :=
  stop = [] ∨ ∃ tail, stop = LF :: tail ∧ 1 ≤ MaxRecordBytes o.

Lemma readRow_end `{Digest} rr :
  rr_rest rr = [] → rr_end rr = EOF → readRow rr = (Fail EOF, atRow (rr_row rr + 1) (rr_role rr), setRest rr [] (rr_row rr)).
Proof. intros Hr He. unfold readRow, readRaw. by rewrite Hr, He. Qed.

(** At a blank line the parser of a row reports the end of its input. *)
Lemma readRow_stop `{Digest} rr :
  stops (rr_options rr) (rr_rest rr) → rr_end rr = EOF →
  ∃ err loc rr', readRow rr = (Fail err, loc, rr') ∧ errors_Is err "io.EOF" = true.
Proof.
  intros [Hr|(tail & Hr & Hm)] He; [by rewrite readRow_end; eauto|].
  unfold readRow, readRaw. rewrite Hr. cbn [rawLoop app]. change (byteLen [LF]) with 1.
  rewrite (proj2 (Z.ltb_ge _ _)) by done. cbn. eauto.
Qed.

(** ** Headers *)

(** The reader looks for what the writer writes. *)
Definition matching (wo : CSVWriteOptions) (ro : CSVReadOptions) : Prop :=
  crPropertyMode ro = cwPropertyMode wo ∧ crPropertyPrefix ro = cwPropertyPrefix wo ∧
  crRawPropertiesColumn ro = cwRawPropertiesColumn wo.

Definition reserved : list text := [lit "id"; lit "label"; lit "from"; lit "to"].

(** The names of the columns are told apart: each is listed once, none carries
    the prefix already, and no header is that of another column. *)
Definition columnsOk (wo : CSVWriteOptions) : Prop :=
  knownMode (cwPropertyMode wo) = true ∧
  (cwPropertyMode wo = CSVPropertiesPrefixedColumns →
   NoDup (cwPropertyColumns wo) ∧
   Forall (λ c, HasPrefix c (cwPropertyPrefix wo) = false ∧
     cwPropertyPrefix wo ++ c ∉ cwRawPropertiesColumn wo :: reserved) (cwPropertyColumns wo)) ∧
  (cwPropertyMode wo = CSVPropertiesRawJSONColumn → cwRawPropertiesColumn wo ∉ reserved).

(** The columns of the properties, numbered from [k]. *)
Fixpoint columnMap (k : Z) (columns : list text) (m : gmap text Z) : gmap text Z :=
  match columns with
  | [] => m
  | c :: rest => columnMap (k + 1) rest (<[c := k]> m)
  end.

Lemma columnMap_notin k columns m c : c ∉ columns → columnMap k columns m !! c = m !! c.
Proof.
  revert k m. induction columns as [|d columns IH]; intros k m Hc; [done|]. cbn.
  rewrite IH by set_solver. rewrite lookup_insert_ne; [done|set_solver].
Qed.

Lemma columnMap_lookup k columns m i c :
  NoDup columns → columns !! i = Some c → columnMap k columns m !! c = Some (k + Z.of_nat i).
Proof.
  revert k m i. induction columns as [|d columns IH]; intros k m i Hnd Hi; [done|].
  apply NoDup_cons in Hnd as [Hd Hnd]. destruct i as [|i]; cbn in Hi.
  - injection Hi as ->. cbn. rewrite columnMap_notin by done. rewrite lookup_insert_eq. f_equal. lia.
  - cbn. erewrite IH by done. f_equal. lia.
Qed.

Lemma HasPrefix_app p c : HasPrefix (p ++ c) p = true.
Proof. induction p as [|x p IH]; [by destruct c|]. cbn. by rewrite Z.eqb_refl, IH. Qed.

Lemma TrimPrefix_app p c : TrimPrefix (p ++ c) p = c.
Proof. unfold TrimPrefix. by rewrite HasPrefix_app, drop_app_length. Qed.

Lemma headerLoop_app o idx a b h :
  headerLoop o idx (a ++ b) h = headerLoop o (idx + Z.of_nat (length a)) b (headerLoop o idx a h).
Proof.
  revert idx h. induction a as [|c a IH]; intros idx h; cbn [app headerLoop length].
  - f_equal. lia.
  - rewrite IH. f_equal. lia.
Qed.

Lemma headerLoop_columns o k columns cols id label from to props raw :
  Forall (λ c, HasPrefix c (crPropertyPrefix o) = false ∧
    crPropertyPrefix o ++ c ∉ crRawPropertiesColumn o :: reserved) columns →
  headerLoop o k (map (prefixedColumn (crPropertyPrefix o)) columns) (mkHeader cols id label from to props raw) =
  mkHeader cols id label from to (columnMap k columns props) raw.
Proof.
  intros HF. revert k props. induction HF as [|c columns [Hp Hn] HF IH]; intros k props; [done|].
  cbn [map headerLoop columnMap]. rewrite <-IH. f_equal. unfold prefixedColumn, headerColumn. rewrite Hp.
  unfold reserved in Hn. rewrite !not_elem_of_cons in Hn. destruct Hn as (H1 & H2 & H3 & H4 & H5 & _).
  rewrite !bool_decide_false by done. by rewrite HasPrefix_app, TrimPrefix_app.
Qed.

(** How many columns come before those of the properties. *)
Definition baseOf (role : string) : Z := if String.eqb role FileRoleEdges then 4 else 2.

(** The header that a reader takes from the row of a writer. *)
Definition headerOf (wo : CSVWriteOptions) (role : string) : csvHeader :=
  let edges := String.eqb role FileRoleEdges in
  let prefixed := is_mode (cwPropertyMode wo) CSVPropertiesPrefixedColumns in
  let raw := is_mode (cwPropertyMode wo) CSVPropertiesRawJSONColumn in
  mkHeader (headerRow wo role) 0 1 (if edges then 2 else -1) (if edges then 3 else -1)
    (if prefixed then columnMap (baseOf role) (cwPropertyColumns wo) ∅ else ∅)
    (if raw then baseOf role else -1).

Lemma headerLoop_fixed o role cols :
  headerLoop o 0 ([lit "id"; lit "label"] ++ if String.eqb role FileRoleEdges then [lit "from"; lit "to"] else [])
    (mkHeader cols (-1) (-1) (-1) (-1) ∅ (-1)) =
  let edges := String.eqb role FileRoleEdges in
  mkHeader cols 0 1 (if edges then 2 else -1) (if edges then 3 else -1) ∅ (-1).
Proof. by destruct (String.eqb role FileRoleEdges). Qed.

Lemma knownMode_cases mode :
  knownMode mode = true →
  mode = CSVPropertiesPrefixedColumns ∨ mode = CSVPropertiesRawJSONColumn ∨ mode = CSVPropertiesNone.
Proof. unfold knownMode. rewrite !orb_true_iff, !String.eqb_eq. tauto. Qed.

Lemma parseHeader_written wo ro role :
  matching wo ro → columnsOk wo →
  parseHeader (headerRow wo role) role ro = Ok (headerOf wo role).
Proof.
  intros (Hm & Hp & Hr) (Hk & Hpre & Hraw). unfold parseHeader, headerOf.
  assert (headerLoop ro 0 (headerRow wo role) (mkHeader (headerRow wo role) (-1) (-1) (-1) (-1) ∅ (-1)) = headerOf wo role) as Hh.
  { unfold headerRow at 1. rewrite (assoc_L app), headerLoop_app, headerLoop_fixed.
    replace (0 + Z.of_nat (length _)) with (baseOf role)
      by (unfold baseOf; by destruct (String.eqb role FileRoleEdges)).
    unfold headerOf. cbn zeta. destruct (knownMode_cases _ Hk) as [Hc|[Hc|Hc]]; rewrite Hc.
    - destruct (Hpre Hc) as [Hnd HF]. cbn [is_mode]. rewrite <-Hp, <-Hr in HF. unfold is_mode. cbn.
      rewrite <-Hp. by rewrite headerLoop_columns.
    - specialize (Hraw Hc). unfold is_mode. cbn -[lit headerRow headerColumn]. rewrite <-Hr in *. unfold headerColumn.
      unfold reserved in Hraw. rewrite !not_elem_of_cons in Hraw. destruct Hraw as (H1 & H2 & H3 & H4 & _).
      rewrite !(bool_decide_false (_ = lit _)) by done. by rewrite bool_decide_true.
    - done. }
  rewrite Hh. unfold headerOf. cbn [h_id h_label h_from h_to h_rawProperties]. cbn zeta. rewrite Hm.
  unfold baseOf, is_mode. destruct (String.eqb role FileRoleEdges), (String.eqb (cwPropertyMode wo) _); done.
Qed.

(** ** From rows back to elements *)

Section round.
Context {V W : Type} `{Digest} `{PropertyText V} (now : Call W Z).

(** What encoding/json makes of a map that it wrote itself. *)
Definition jsonBack (p : Properties V) : Properties V :=
  match jsonMarshal p with
  | Ok data => match jsonUnmarshal data with Ok q => q | Fail _ => None end
  | Fail _ => None
  end.

(** The properties that come back: with prefixed columns the escaped text of
    every column, with a JSON column the map as JSON reads it back (a nil map
    has an empty cell unless empty properties are included), and none
    otherwise. *)
Definition readBack (wo : CSVWriteOptions) (p : Properties V) : Properties V :=
  if is_mode (cwPropertyMode wo) CSVPropertiesNone then None
  else if is_mode (cwPropertyMode wo) CSVPropertiesRawJSONColumn then
    (match p with None => if IncludeEmptyProperties (cwWrite wo) then jsonBack p else None | Some _ => jsonBack p end)
  else match cwPropertyColumns wo with
       | [] => None
       | columns => Some (list_to_map ((λ c, (c, AText (escape wo (propertyCell p c)))) <$> columns))
       end.

(** The elements that come back: a text that looks like a formula is escaped. *)
Definition backVertex (wo : CSVWriteOptions) (v : Vertex V) : Vertex V :=
  mkVertex (escape wo (v_id v)) (escape wo (v_label v)) (readBack wo (v_properties v)).
Definition backEdge (wo : CSVWriteOptions) (e : Edge V) : Edge V :=
  mkEdge (escape wo (e_id e)) (escape wo (e_label e)) (mkEndpoints (escape wo (StartID e)) (escape wo (EndID e)))
    (readBack wo (e_properties e)).

Definition idOf (wo : CSVWriteOptions) (v : Vertex V) : text := escape wo (v_id v).

(** With a JSON column: encoding/json reads what it wrote, and writes something. *)
Definition jsonReadable (wo : CSVWriteOptions) (p : Properties V) : Prop :=
  cwPropertyMode wo = CSVPropertiesRawJSONColumn →
  ∀ data, jsonMarshal p = Ok data → data ≠ [] ∧ ∃ q, jsonUnmarshal data = Ok q.

Definition propertyWidth (wo : CSVWriteOptions) : nat :=
  if is_mode (cwPropertyMode wo) CSVPropertiesPrefixedColumns then length (cwPropertyColumns wo)
  else if is_mode (cwPropertyMode wo) CSVPropertiesRawJSONColumn then 1%nat else 0%nat.

Lemma headerRow_length wo role :
  length (headerRow wo role) = (Z.to_nat (baseOf role) + propertyWidth wo)%nat.
Proof.
  unfold headerRow, baseOf, propertyWidth. rewrite !length_app.
  destruct (String.eqb role FileRoleEdges), (is_mode (cwPropertyMode wo) CSVPropertiesPrefixedColumns),
    (is_mode (cwPropertyMode wo) CSVPropertiesRawJSONColumn); cbn; rewrite ?length_map; lia.
Qed.

Lemma propertyCells_length wo (p : Properties V) cells :
  knownMode (cwPropertyMode wo) = true → propertyCells wo p = Ok cells → length cells = propertyWidth wo.
Proof.
  intros [Hc|[Hc|Hc]]%knownMode_cases; unfold propertyCells, propertyWidth; rewrite Hc; cbn.
  - intros [= <-]. by rewrite length_map.
  - destruct (_ && _); [by intros [= <-]|]. destruct (jsonMarshal p); [by intros [= <-]|done].
  - by intros [= <-].
Qed.

Lemma cell_app (fixed cells : list text) base i :
  Z.of_nat (length fixed) = base → cell (fixed ++ cells) (base + Z.of_nat i) = default [] (cells !! i).
Proof. intros <-. unfold cell, text in *. rewrite lookup_app_r by lia.
  by replace (Z.to_nat (Z.of_nat (length fixed) + Z.of_nat i) - length fixed)%nat with i by lia.
Qed.

Lemma columns_back columns (f : text → text) (fixed : list text) base :
  NoDup columns → Z.of_nat (length fixed) = base →
  (λ idx, AText (V := V) (cell (fixed ++ map f columns) idx)) <$> columnMap base columns ∅ =
  list_to_map ((λ c, (c, AText (f c))) <$> columns).
Proof.
  intros Hnd Hb. apply map_eq. intros c. rewrite lookup_fmap.
  assert (((λ c, (c, AText (V := V) (f c))) <$> columns).*1 = columns) as Hfst
    by (rewrite <-list_fmap_compose; apply list_fmap_id).
  destruct (decide (c ∈ columns)) as [Hc|Hc].
  - pose proof Hc as (i & Hi)%list_elem_of_lookup_1. erewrite columnMap_lookup by done. cbn.
    rewrite cell_app by done. rewrite list_lookup_fmap, Hi. cbn. symmetry.
    apply elem_of_list_to_map_1; [by rewrite Hfst|]. apply list_elem_of_fmap. by exists c.
  - rewrite columnMap_notin, lookup_empty by done. symmetry. apply not_elem_of_list_to_map_1. by rewrite Hfst.
Qed.

Lemma propertiesFromRow_written wo ro role p (fixed cells : list text) loc phase :
  matching wo ro → columnsOk wo → jsonReadable wo p → propertyCells wo p = Ok cells →
  Z.of_nat (length fixed) = baseOf role →
  propertiesFromRow ro (fixed ++ cells) (headerOf wo role) loc phase = Ok (readBack wo p).
Proof.
  intros (Hm & _ & _) (Hk & Hpre & _) Hjson Hcells Hb.
  unfold propertiesFromRow, readBack, jsonBack, propertyCells, headerOf in *. rewrite Hm. cbn zeta.
  destruct (knownMode_cases _ Hk) as [Hc|[Hc|Hc]]; rewrite Hc in *; cbn -[lit cell] in *.
  - injection Hcells as <-. destruct (Hpre eq_refl) as [Hnd _].
    rewrite (columns_back _ (λ c, escape wo (propertyCell p c))) by done. destruct (cwPropertyColumns wo) as [|c columns]; [done|].
    rewrite bool_decide_false; [done|]. cbn. apply insert_non_empty.
  - specialize (Hjson Hc). rewrite (proj2 (Z.ltb_ge _ _)) by (unfold baseOf; destruct (String.eqb role _); lia).
    pose proof (cell_app fixed cells (baseOf role) 0 Hb) as Hcell. rewrite Z.add_0_r in Hcell. rewrite Hcell. cbn [orb].
    destruct (_ && _) eqn:E.
    { injection Hcells as <-. destruct p; [done|]. apply negb_true_iff in E. by rewrite E. }
    destruct (jsonMarshal p) as [data|] eqn:Hd; [|done]. injection Hcells as <-.
    destruct (Hjson _ eq_refl) as [Hne [q Hun]]. cbn. rewrite Hun. destruct data; [done|].
    destruct p; [done|]. apply negb_false_iff in E. by rewrite E.
  - done.
Qed.

(** The limit on records lets [n] of them pass. *)
Definition admits (ro : CSVReadOptions) (n : Z) : Prop :=
  MaxRecords (crRead ro) = UnlimitedRecords ∨ n ≤ MaxRecords (crRead ro).

Lemma countRecord_admits phase loc (r : @CSVReader W) :
  admits (r_options r) (r_records r + 1) →
  countRecord phase loc r = (None, setCounts (r_records r + 1) (r_seen r) (r_report r) r).
Proof.
  intros Ha. unfold countRecord. cbn. destruct Ha as [->|Ha]; [done|].
  rewrite (proj2 (Z.ltb_ge _ _)) by done. by rewrite andb_false_r.
Qed.

Lemma vertexFromRow_written wo v row loc (r : @CSVReader W) :
  matching wo (r_options r) → columnsOk wo → r_vertexHeader r = headerOf wo FileRoleVertices →
  vertexRow wo v = Ok row → goodVertex (backVertex wo v) → jsonReadable wo (v_properties v) → idOf wo v ∉ r_seen r →
  admits (r_options r) (r_records r + 1) →
  vertexFromRow row loc r =
  (RowElement (backVertex wo v), setCounts (r_records r + 1) ({[idOf wo v]} ∪ r_seen r) (incVerticesRead (r_report r)) r).
Proof.
  intros Hm Hc Hh Hrow [Hgi Hgl] Hpp Hs Ha. unfold vertexRow, Vertex_Properties in Hrow.
  rewrite Properties_Clone_id in Hrow.
  destruct (propertyCells wo (v_properties v)) as [cells|] eqn:Hcells; [|done]. injection Hrow as <-.
  unfold vertexFromRow. rewrite countRecord_admits by done. rewrite Hh.
  cbn [headerOf h_columns h_id h_label length]. rewrite headerRow_length, (propertyCells_length _ _ _ (proj1 Hc) Hcells).
  change (Z.to_nat (baseOf FileRoleVertices)) with 2%nat. cbn [Nat.add]. rewrite Nat.eqb_refl. cbn [negb setCounts r_options].
  rewrite (propertiesFromRow_written wo _ FileRoleVertices (v_properties v) [escape wo (v_id v); escape wo (v_label v)] cells) by done.
  match goal with |- context [ParseVertex ?a ?b ?c] => assert (ParseVertex a b c = Ok (backVertex wo v)) as -> end.
  { apply ParseVertex_Ok. destruct Hgi as [Hi Hi'], Hgl as [Hl Hl'].
    change (cell _ 0) with (escape wo (v_id v)). change (cell _ 1) with (escape wo (v_label v)).
    cbn [backVertex v_id v_label] in Hi, Hl. by rewrite Hi, Hl. }
  cbn [backVertex v_id r_seen setCounts]. by rewrite bool_decide_false.
Qed.

Lemma edgeFromRow_written wo e row loc (r : @CSVReader W) ids :
  matching wo (r_options r) → columnsOk wo → r_edgeHeader r = headerOf wo FileRoleEdges →
  edgeRow wo e = Ok row → goodEdge ids (backEdge wo e) → jsonReadable wo (e_properties e) → r_seen r = list_to_set ids →
  admits (r_options r) (r_records r + 1) →
  edgeFromRow row loc r =
  (RowElement (backEdge wo e), setCounts (r_records r + 1) (r_seen r) (incEdgesRead (r_report r)) r).
Proof.
  intros Hm Hc Hh Hrow (Hgi & Hgl & Hgs & Hge & Hin1 & Hin2) Hpp Hs Ha.
  unfold edgeRow, Edge_Properties in Hrow. rewrite Properties_Clone_id in Hrow.
  destruct (propertyCells wo (e_properties e)) as [cells|] eqn:Hcells; [|done]. injection Hrow as <-.
  unfold edgeFromRow. rewrite countRecord_admits by done. rewrite Hh.
  cbn [headerOf h_columns h_id h_label h_from h_to length]. rewrite headerRow_length, (propertyCells_length _ _ _ (proj1 Hc) Hcells).
  change (Z.to_nat (baseOf FileRoleEdges)) with 4%nat. cbn [Nat.add]. rewrite Nat.eqb_refl. cbn [negb setCounts r_options].
  rewrite (propertiesFromRow_written wo _ FileRoleEdges (e_properties e)
    [escape wo (e_id e); escape wo (e_label e); escape wo (StartID e); escape wo (EndID e)] cells) by done.
  cbn zeta. rewrite String.eqb_refl.
  match goal with |- context [ParseEdge ?a ?b ?c ?d] => assert (ParseEdge a b c d = Ok (backEdge wo e)) as -> end.
  { apply ParseEdge_Ok. destruct Hgi as [Hi Hi'], Hgl as [Hl Hl'], Hgs as [Hs1 Hs2], Hge as [He1 He2].
    cbn [RawStart RawEnd]. change (cell _ 0) with (escape wo (e_id e)). change (cell _ 1) with (escape wo (e_label e)).
    change (cell _ 2) with (escape wo (StartID e)). change (cell _ 3) with (escape wo (EndID e)).
    change (e_id (backEdge wo e)) with (escape wo (e_id e)) in Hi. change (e_label (backEdge wo e)) with (escape wo (e_label e)) in Hl.
    change (StartID (backEdge wo e)) with (escape wo (StartID e)) in Hs1. change (EndID (backEdge wo e)) with (escape wo (EndID e)) in He1.
    rewrite Hi, Hl, Hs1, He1. by split. }
  cbn [r_seen setCounts].
  rewrite !bool_decide_true by (rewrite Hs; by apply elem_of_list_to_set). done.
Qed.

(** ** Reading what was written *)

(** A context that is not cancelled. *)
Definition live (ctx : Context W) : Prop := ∀ w, (ctx_Err ctx w).1 = None.

(** The fields of a reader that both phases look at. *)
Definition opened (ro : CSVReadOptions) (seen : gset text) (n : Z) (r : @CSVReader W) : Prop :=
  r_closed r = false ∧ r_edgeEOF r = false ∧ r_setupErr r = None ∧ live (r_ctx r) ∧ r_options r = ro ∧
  r_seen r = seen ∧ r_records r = n.

(** [rest] is what is left of the stream [rr], behind the header row unless that
    was read. *)
Definition behindHeader (wo : CSVWriteOptions) (ro : CSVReadOptions) (role : string) (ready : bool) (header : csvHeader)
    (rest : text) (rr : csvRecordReader) : Prop :=
  rr_options rr = crRead ro ∧ rr_end rr = EOF ∧
  if ready then header = headerOf wo role ∧ rr_rest rr = rest else rr_rest rr = encodeRow (headerRow wo role) ++ rest.

(** The reader among the vertices, with [rest] to come. *)
Definition vertexPhase wo ro seen n ready edges rest (r : @CSVReader W) : Prop :=
  opened ro seen n r ∧ r_vertexEOF r = false ∧ r_edgeReady r = false ∧ r_edges r = edges ∧ r_vertexReady r = ready ∧
  ∃ rr, r_vertices r = Some rr ∧ behindHeader wo ro FileRoleVertices ready (r_vertexHeader r) rest rr.

(** The reader among the edges. *)
Definition edgePhase wo ro seen n ready rest (r : @CSVReader W) : Prop :=
  opened ro seen n r ∧ r_vertexEOF r = true ∧ r_edgeReady r = ready ∧
  ∃ rr, r_edges r = Some rr ∧ behindHeader wo ro FileRoleEdges ready (r_edgeHeader r) rest rr.

Lemma readHeader_written wo ro role rr rest :
  matching wo ro → columnsOk wo → rowFits (crRead ro) (headerRow wo role) →
  behindHeader wo ro role false zeroHeader rest rr →
  readHeader ro rr role = (Ok (headerOf wo role), setRest rr rest (rr_row rr + 1)).
Proof.
  intros Hm Hc Hf (Ho & He & Hr). unfold readHeader. rewrite (readRow_encoded _ _ rest Hr) by by rewrite Ho.
  by rewrite parseHeader_written.
Qed.

Lemma readerReady_open role (r : @CSVReader W) ro seen n w :
  opened ro seen n r → (role = FileRoleVertices → is_Some (r_vertices r)) → (role = FileRoleEdges → is_Some (r_edges r)) →
  (readerReady role r w).1 = None.
Proof.
  intros (_ & _ & Hs & Hl & _) Hv He. unfold readerReady. rewrite Hs. unfold mbind, call_bind. specialize (Hl w).
  destruct (ctx_Err (r_ctx r) w) as [e w']. cbn in Hl. subst e. cbn.
  destruct (String.eqb role FileRoleVertices) eqn:E1.
  - apply String.eqb_eq in E1. destruct (Hv E1) as [rr ->]. by subst role.
  - cbn. destruct (String.eqb role FileRoleEdges) eqn:E2; [|done]. apply String.eqb_eq in E2. by destruct (He E2) as [rr ->].
Qed.

(** A written element, and the row it is in. *)
Definition writtenVertex wo ro (v : Vertex V) (row : list text) : Prop :=
  vertexRow wo v = Ok row ∧ rowFits (crRead ro) row ∧ goodVertex (backVertex wo v) ∧ jsonReadable wo (v_properties v).
Definition writtenEdge wo ro ids (e : Edge V) (row : list text) : Prop :=
  edgeRow wo e = Ok row ∧ rowFits (crRead ro) row ∧ goodEdge ids (backEdge wo e) ∧ jsonReadable wo (e_properties e).

Lemma vertexRows_written wo ro fuel rr (r : @CSVReader W) v row rest seen n :
  matching wo ro → columnsOk wo → opened ro seen n r →
  behindHeader wo ro FileRoleVertices true (r_vertexHeader r) (encodeRow row ++ rest) rr →
  writtenVertex wo ro v row → idOf wo v ∉ seen → admits ro (n + 1) →
  ∃ rep, vertexRows (S fuel) rr r = Some (Ok (backVertex wo v),
    setCounts (n + 1) ({[idOf wo v]} ∪ seen) rep
      (setVertices (setRest rr rest (rr_row rr + 1)) (r_vertexHeader r) (r_vertexReady r) (r_vertexEOF r) r)).
Proof.
  intros Hm Hc (_ & _ & _ & _ & Ho & Hs & Hn) (Hro & He & Hh & Hr) (Hrow & Hfit & Hg & Hp) Hnew Ha.
  eexists. cbn [vertexRows]. rewrite (readRow_encoded _ _ rest Hr) by by rewrite Hro.
  erewrite (vertexFromRow_written wo v) by (cbn; rewrite ?Ho, ?Hs, ?Hn; done).
  cbn [setVertices r_records r_seen]. by rewrite Hs, Hn.
Qed.

Lemma edgeRows_written wo ro ids fuel rr (r : @CSVReader W) e row rest seen n :
  matching wo ro → columnsOk wo → opened ro seen n r → seen = list_to_set ids →
  behindHeader wo ro FileRoleEdges true (r_edgeHeader r) (encodeRow row ++ rest) rr →
  writtenEdge wo ro ids e row → admits ro (n + 1) →
  ∃ rep, edgeRows (S fuel) rr r = Some (Ok (backEdge wo e),
    setCounts (n + 1) seen rep
      (setEdges (setRest rr rest (rr_row rr + 1)) (r_edgeHeader r) (r_edgeReady r) (r_edgeEOF r) r)).
Proof.
  intros Hm Hc (_ & _ & _ & _ & Ho & Hs & Hn) Hids (Hro & He & Hh & Hr) (Hrow & Hfit & Hg & Hp) Ha.
  eexists. cbn [edgeRows]. rewrite (readRow_encoded _ _ rest Hr) by by rewrite Hro.
  erewrite (edgeFromRow_written wo e) by (cbn; rewrite ?Ho, ?Hs, ?Hn; done).
  cbn [setEdges r_records r_seen]. by rewrite Hs, Hn.
Qed.

(** One call of [ReadVertex] reads one written row. *)
Lemma ReadVertex_written wo ro fuel (r : @CSVReader W) v row rest seen n ready edges w :
  matching wo ro → columnsOk wo → rowFits (crRead ro) (headerRow wo FileRoleVertices) →
  vertexPhase wo ro seen n ready edges (encodeRow row ++ rest) r →
  writtenVertex wo ro v row → idOf wo v ∉ seen → admits ro (n + 1) →
  wp (ReadVertex (S fuel) r) (λ '(res, r') _,
    res = Ok (backVertex wo v) ∧ vertexPhase wo ro ({[idOf wo v]} ∪ seen) (n + 1) true edges rest r') w.
Proof.
  intros Hm Hc Hfit (Hop & Heof & Her & Hed & Hready & rr & Hrr & Hb) Hw Hnew Ha. unfold ReadVertex.
  pose proof Hop as (-> & _). rewrite Heof. wp_step. wp_step.
  rewrite (readerReady_open _ _ _ _ _ _ Hop) by (first [by rewrite Hrr|done]).
  destruct (readerReady _ _ _) as [x w']. cbn [snd]. clear x. rewrite Hrr.
  enough (∃ r', readVertexFrom (S fuel) rr r = Some (Ok (backVertex wo v), r') ∧
    vertexPhase wo ro ({[idOf wo v]} ∪ seen) (n + 1) true edges rest r') as (r' & E & Hr').
  { exists (Ok (backVertex wo v), r'), w'. unfold onStreams. by rewrite E. }
  pose proof Hb as (Hbo & Hbe & _). unfold readVertexFrom. rewrite Hready. destruct ready.
  - destruct (vertexRows_written wo ro fuel rr r v row rest seen n) as [rep E]; [done..|].
    eexists. split; [exact E|]. destruct Hop as (?&?&?&?&?&?&?). destruct Hb as (?&?&?&?).
    repeat (split; [by cbn|]). eexists. by repeat (split; [done|]).
  - pose proof Hop as (_&_&_&_&Ho&_). rewrite Ho, (readHeader_written wo ro _ _ (encodeRow row ++ rest)) by done.
    edestruct (vertexRows_written wo ro fuel (setRest rr (encodeRow row ++ rest) (rr_row rr + 1))
      (setVertices (setRest rr (encodeRow row ++ rest) (rr_row rr + 1)) (headerOf wo FileRoleVertices) true (r_vertexEOF r) r)
      v row rest seen n) as [rep E]; [done..|].
    eexists. split; [exact E|]. destruct Hop as (?&?&?&?&?&?&?).
    repeat (split; [by cbn|]). eexists. by repeat (split; [done|]).
Qed.

Lemma ReadEdge_written wo ro ids fuel (r : @CSVReader W) e row rest seen n ready w :
  matching wo ro → columnsOk wo → rowFits (crRead ro) (headerRow wo FileRoleEdges) →
  edgePhase wo ro seen n ready (encodeRow row ++ rest) r → seen = list_to_set ids →
  writtenEdge wo ro ids e row → admits ro (n + 1) →
  wp (ReadEdge (S fuel) r) (λ '(res, r') _,
    res = Ok (backEdge wo e) ∧ edgePhase wo ro seen (n + 1) true rest r') w.
Proof.
  intros Hm Hc Hfit (Hop & Heof & Hready & rr & Hrr & Hb) Hids Hw Ha. unfold ReadEdge.
  pose proof Hop as (-> & -> & _). rewrite Heof. cbn [negb]. wp_step. wp_step.
  rewrite (readerReady_open _ _ _ _ _ _ Hop) by (first [by rewrite Hrr|done]).
  destruct (readerReady _ _ _) as [x w']. cbn [snd]. clear x. rewrite Hrr.
  enough (∃ r', readEdgeFrom (S fuel) rr r = Some (Ok (backEdge wo e), r') ∧
    edgePhase wo ro seen (n + 1) true rest r') as (r' & E & Hr').
  { exists (Ok (backEdge wo e), r'), w'. unfold onStreams. by rewrite E. }
  pose proof Hb as (Hbo & Hbe & _). unfold readEdgeFrom. rewrite Hready. destruct ready.
  - destruct (edgeRows_written wo ro ids fuel rr r e row rest seen n) as [rep E]; [done..|].
    eexists. split; [exact E|]. destruct Hop as (?&?&?&?&?&?&?). destruct Hb as (?&?&?&?).
    repeat (split; [by cbn|]). eexists. by repeat (split; [done|]).
  - pose proof Hop as (_&_&_&_&Ho&_). rewrite Ho, (readHeader_written wo ro _ _ (encodeRow row ++ rest)) by done.
    edestruct (edgeRows_written wo ro ids fuel (setRest rr (encodeRow row ++ rest) (rr_row rr + 1))
      (setEdges (setRest rr (encodeRow row ++ rest) (rr_row rr + 1)) (headerOf wo FileRoleEdges) true (r_edgeEOF r) r)
      e row rest seen n) as [rep E]; [done..|].
    eexists. split; [exact E|]. destruct Hop as (?&?&?&?&?&?&?).
    repeat (split; [by cbn|]). eexists. by repeat (split; [done|]).
Qed.

(** The vertices are read to their end. *)
Definition betweenPhases ro seen n edges (r : @CSVReader W) : Prop :=
  opened ro seen n r ∧ r_vertexEOF r = true ∧ r_edgeReady r = false ∧ r_edges r = edges.

Lemma ReadVertex_end wo ro fuel (r : @CSVReader W) seen n edges stop w :
  vertexPhase wo ro seen n true edges stop r → stops (crRead ro) stop →
  wp (ReadVertex (S fuel) r) (λ '(res, r') _, res = Fail EOF ∧ betweenPhases ro seen n edges r') w.
Proof.
  intros (Hop & Heof & Her & Hed & Hready & rr & Hrr & Ho & He & Hh & Hr) Hstop. unfold ReadVertex.
  pose proof Hop as (-> & _). rewrite Heof. wp_step. wp_step.
  rewrite (readerReady_open _ _ _ _ _ _ Hop) by (first [by rewrite Hrr|done]).
  destruct (readerReady _ _ _) as [x w']. cbn [snd]. clear x. rewrite Hrr. unfold readVertexFrom. rewrite Hready.
  cbn [vertexRows]. rewrite <-Hr, <-Ho in Hstop. destruct (readRow_stop rr Hstop He) as (err & loc & rr' & -> & ->).
  eexists _, _. split; [done|]. done.
Qed.

(** The end of the edges: no row is left, or the stream has not even a header. *)
Lemma ReadEdge_end wo ro fuel (r : @CSVReader W) seen n ready rr w :
  opened ro seen n r → r_vertexEOF r = true → r_edgeReady r = ready → r_edges r = Some rr →
  rr_rest rr = [] → rr_end rr = EOF → (ready = true → r_edgeHeader r = headerOf wo FileRoleEdges) →
  wp (ReadEdge (S fuel) r) (λ '(res, r') _, (∃ err, res = Fail err ∧ errors_Is err "io.EOF" = true) ∧ r_closed r' = false) w.
Proof.
  intros Hop Heof Hready Hrr Hr He _. unfold ReadEdge.
  pose proof Hop as (Hcl & Hee & _). rewrite Hcl, Hee, Heof. cbn [negb]. wp_step. wp_step.
  rewrite (readerReady_open _ _ _ _ _ _ Hop) by (first [by rewrite Hrr|done]).
  destruct (readerReady _ _ _) as [x w']. cbn [snd]. clear x. rewrite Hrr. unfold readEdgeFrom. rewrite Hready.
  destruct ready.
  - cbn [edgeRows]. rewrite (readRow_end rr Hr He). eexists _, _. split; [done|]. split; [by eexists|done].
  - unfold readHeader. rewrite (readRow_end rr Hr He). eexists _, _. split; [done|]. split; [by eexists|done].
Qed.

Definition rowsText (rows : list (list text)) : text := concat (encodeRow <$> rows).

Lemma readVertices_written wo ro fuel rows (r : @CSVReader W) vs rs seen n ready edges records stop w :
  matching wo ro → columnsOk wo → rowFits (crRead ro) (headerRow wo FileRoleVertices) →
  Forall2 (writtenVertex wo ro) vs rs → NoDup (idOf wo <$> vs) → (∀ v, v ∈ vs → idOf wo v ∉ seen) →
  admits ro (n + Z.of_nat (length vs)) → (length vs < fuel)%nat → (ready = false → vs ≠ []) → stops (crRead ro) stop →
  vertexPhase wo ro seen n ready edges (rowsText rs ++ stop) r →
  wp (readVertices fuel (S rows) r records) (λ '(recs, err, r') _,
    recs = records ++ ((λ v, mkRecord RecordVertex v zeroEdge) <$> (backVertex wo <$> vs)) ∧ err = None ∧
    betweenPhases ro (seen ∪ list_to_set (idOf wo <$> vs)) (n + Z.of_nat (length vs)) edges r') w.
Proof.
  intros Hm Hc Hfit HF. revert fuel r seen n ready records w.
  induction HF as [|v row vs rs Hw HF IH]; intros fuel r seen n ready records w Hnd Hnew Ha Hf Hne Hstop Hv;
    (destruct fuel as [|fuel]; [cbn in Hf; lia|]); cbn [readVertices]; wp_step.
  - destruct ready; [|by destruct Hne]. eapply wp_mono; [|by eapply ReadVertex_end].
    intros [res r'] w' [-> Hb]. wp_step. rewrite app_nil_r. split; [done|]. split; [done|]. cbn.
    by rewrite Z.add_0_r, union_empty_r_L.
  - cbn in Hf, Ha, Hnd. apply NoDup_cons in Hnd as [Hd Hnd].
    eapply wp_mono; [|apply (ReadVertex_written wo ro rows r v row (rowsText rs ++ stop) seen n ready edges); try done].
    2: { unfold rowsText in Hv. cbn in Hv. rewrite <-(assoc_L app) in Hv. exact Hv. }
    2: { apply Hnew. set_solver. }
    2: { unfold admits in *. lia. }
    intros [res r'] w' [-> Hp].
    assert (goodVertex (backVertex wo v)) as Hg by (by destruct Hw as (_ & _ & [? ?] & _)).
    rewrite VertexRecord_valid by by apply goodVertex_valid.
    eapply wp_mono; [|apply (IH fuel r' ({[idOf wo v]} ∪ seen) (n + 1) true); try done].
    + intros [[recs err] r2] w2 (-> & -> & Hb). split; [by rewrite <-(assoc_L app)|]. split; [done|].
      cbn. rewrite Nat2Z.inj_succ, <-Z.add_1_l, Z.add_assoc, (assoc_L (∪)), (comm_L (∪) seen). exact Hb.
    + intros v' Hv'. apply not_elem_of_union. split; [|apply Hnew; set_solver].
      apply not_elem_of_singleton. intros E. apply Hd. rewrite <-E. by apply list_elem_of_fmap_2.
    + unfold admits in *. lia.
    + lia.
Qed.

Lemma readEdges_written wo ro ids fuel rows (r : @CSVReader W) es rs seen n rr records ready rest w :
  matching wo ro → columnsOk wo → rowFits (crRead ro) (headerRow wo FileRoleEdges) →
  Forall2 (writtenEdge wo ro ids) es rs → seen = list_to_set ids →
  admits ro (n + Z.of_nat (length es)) → (length es < fuel)%nat →
  opened ro seen n r → r_vertexEOF r = true → r_edgeReady r = ready → r_edges r = Some rr →
  rr_options rr = crRead ro → rr_end rr = EOF → rr_rest rr = rest →
  (ready = true → r_edgeHeader r = headerOf wo FileRoleEdges ∧ rest = rowsText rs) →
  (ready = false → rest = match es with [] => [] | _ => encodeRow (headerRow wo FileRoleEdges) ++ rowsText rs end) →
  wp (readEdges fuel (S rows) r records) (λ '(recs, err, r') _,
    recs = records ++ ((λ e, mkRecord RecordEdge zeroVertex e) <$> (backEdge wo <$> es)) ∧ err = None ∧ r_closed r' = false) w.
Proof.
  intros Hm Hc Hfit HF Hids. revert fuel r n rr ready rest records w.
  induction HF as [|e row es rs Hw HF IH]; intros fuel r n rr ready rest records w Ha Hf Hop Heof Hready Hrr Ho He Hr Ht1 Ht2;
    (destruct fuel as [|fuel]; [cbn in Hf; lia|]); cbn [readEdges]; wp_step.
  - assert (rest = []) as -> by (destruct ready; [by destruct Ht1|by apply Ht2]).
    eapply wp_mono; [|eapply (ReadEdge_end wo); try done].
    + intros [res r'] w' [(err & -> & HE) Hcl]. wp_step. rewrite HE, app_nil_r. done.
    + intros E. by destruct Ht1.
  - cbn in Hf, Ha.
    eapply wp_mono; [|eapply (ReadEdge_written wo ro ids rows r e row (rowsText rs) seen n ready); try done].
    3: { unfold admits in *. lia. }
    2: { split; [done|]. split; [done|]. split; [done|]. exists rr. split; [done|]. split; [done|]. split; [done|].
         destruct ready; [by destruct Ht1; subst|]. by rewrite Hr, Ht2. }
    intros [res r'] w' [-> (Hop' & Heof' & Hready' & rr' & Hrr' & Ho' & He' & Hh' & Hr')].
    assert (goodEdge ids (backEdge wo e)) as Hg by (by destruct Hw as (_ & _ & ? & _)).
    rewrite EdgeRecord_valid by by eapply goodEdge_valid.
    eapply wp_mono; [|eapply (IH fuel r' (n + 1) rr' true (rowsText rs)); try done].
    + intros [[recs err] r2] w2 (-> & -> & Hb). split; [by rewrite <-(assoc_L app)|]. done.
    + unfold admits in *. lia.
    + lia.
Qed.
End round.

(** ** Graphs as CSV: what the writer wrote, and the round trip *)

(** ** Normalized options stay as they are *)

Lemma orDefault_idem v d : orDefault (orDefault v d) d = orDefault v d.
Proof. unfold orDefault. destruct (v =? 0) eqn:E; [by destruct (d =? 0)|by rewrite E]. Qed.
Lemma orString_idem v d : orString (orString v d) d = orString v d.
Proof. unfold orString. destruct (String.eqb v "") eqn:E; [by destruct (String.eqb d "")|by rewrite E]. Qed.
Lemma orText_idem v d : orText (orText v d) d = orText v d.
Proof. destruct v; [by destruct d|done]. Qed.

Lemma normalizeWrite_idem `{Digest} o n cols :
  normalizeCSVWriteOptions o = (n, None) →
  normalizeCSVWriteOptions (withColumns n cols) = (withColumns n cols, None).
Proof.
  unfold normalizeCSVWriteOptions, normalizeWriteOptions. cbn zeta.
  cbn [WriteMaxFailures IncludeEmptyProperties]. destruct (orDefault _ _ <? 0) eqn:E1; [done|].
  cbn [cwPropertyMode cwFormulaPolicy]. destruct (knownMode _) eqn:E2; [|done]. cbn [negb].
  destruct (_ && _) eqn:E3; [done|]. intros [= <-]. cbn -[lit].
  by rewrite orDefault_idem, E1, !orString_idem, E2, E3, !orText_idem.
Qed.

Lemma withColumns_same n : withColumns n (cwPropertyColumns n) = n.
Proof. by destruct n. Qed.

Lemma omap_length {A B} (f : A → option B) l : (length (omap f l) ≤ length l)%nat.
Proof. induction l as [|x l IH]; [done|]. cbn. destruct (f x); cbn; lia. Qed.

Section props.
Context {V W : Type} `{Digest} `{PropertyText V} (now : Call W Z).
Implicit Types (s : W).

(** ** What was written *)

Definition verticesOf (records : list (Record_ V)) : list (Vertex V) :=
  omap (λ r, if String.eqb (Kind r) RecordVertex then Some (rVertex r) else None) records.
Definition edgesOf (records : list (Record_ V)) : list (Edge V) :=
  omap (λ r, if String.eqb (Kind r) RecordEdge then Some (rEdge r) else None) records.

(** The text that a stream was given. *)
Definition outOf (cw : option (csvWriter W)) : text := from_option cw_out [] cw.

Lemma writer_Write_ok row (cw cw' : csvWriter W) s s' :
  writer_Write row cw s = ((None, cw'), s') → cw_out cw' = cw_out cw ++ encodeRow row.
Proof.
  unfold writer_Write. destruct (cw_err cw); [done|]. unfold mbind, call_bind.
  destruct (cw_sink cw _ s) as [[e|] s1]; [done|]. by intros [= <- <-].
Qed.

Lemma writerReady_None phase (w : @CSVWriter W) s s' :
  writerReady phase w s = (None, s') →
  is_Some (w_vertexWriter w) ∧ is_Some (w_edgeWriter w) ∧
  (cwPropertyMode (w_options w) = CSVPropertiesPrefixedColumns → cwPropertyColumns (w_options w) ≠ []).
Proof.
  unfold writerReady. destruct (w_terminalError w); [done|]. unfold mbind, call_bind.
  destruct (ctx_Err (w_ctx w) s) as [[e|] s1]; [done|].
  destruct (w_vertexWriter w), (w_edgeWriter w); try done. unfold is_mode.
  destruct (String.eqb _ _) eqn:E; cbn [andb].
  - by destruct (cwPropertyColumns (w_options w)).
  - intros _. split; [done|]. split; [done|]. intros Hm. by rewrite Hm in E.
Qed.

(** What a writing step keeps, on either side. *)
Definition headerText (wo : CSVWriteOptions) (role : string) (there : bool) : text :=
  if there then [] else encodeRow (headerRow wo role).

Lemma WriteVertex_wrote v (w0 w1 : @CSVWriter W) s s' :
  WriteVertex v w0 s = ((None, w1), s') →
  ∃ row, vertexRow (w_options w0) v = Ok row ∧ w_options w1 = w_options w0 ∧ w_closed w1 = w_closed w0 ∧
    w_edgeWriter w1 = w_edgeWriter w0 ∧ w_edgeHeader w1 = w_edgeHeader w0 ∧ w_vertexHeader w1 = true ∧
    outOf (w_vertexWriter w1) = outOf (w_vertexWriter w0) ++
      headerText (w_options w0) FileRoleVertices (w_vertexHeader w0) ++ encodeRow row.
Proof.
  unfold WriteVertex. destruct (w_closed w0) eqn:Hcl; [done|]. unfold mbind, call_bind.
  destruct (writerReady _ _ _) as [err s1] eqn:Hr. destruct err; [done|]. destruct (Vertex_Validate v); [done|].
  apply writerReady_None in Hr as ([cw ->] & _). unfold writeVertexTo, mbind, call_bind.
  set (out := outOf (Some cw)). assert (∃ err cw1 s2, (if w_vertexHeader w0 then mret (None, cw) else
    writer_Write (headerRow (w_options w0) FileRoleVertices) cw) s1 = ((err, cw1), s2) ∧
    (err = None → cw_out cw1 = out ++ headerText (w_options w0) FileRoleVertices (w_vertexHeader w0)))
    as (err & cw1 & s2 & -> & Hout).
  { destruct (w_vertexHeader w0); [eexists _, _, _; split; [done|]; intros _; unfold headerText; by rewrite app_nil_r|].
    destruct (writer_Write _ cw s1) as [[err cw1] s2] eqn:E. eexists _, _, _. split; [done|]. intros ->.
    by apply writer_Write_ok in E. }
  destruct err; [done|]. specialize (Hout eq_refl). destruct (vertexRow _ v) as [row|]; [|done].
  destruct (writer_Write row cw1 s2) as [[err cw2] s3] eqn:E. destruct err; [done|]. intros [= <- <-].
  apply writer_Write_ok in E. exists row. cbn. rewrite E, Hout, <-(assoc_L app). done.
Qed.

Lemma WriteEdge_wrote e (w0 w1 : @CSVWriter W) s s' :
  WriteEdge e w0 s = ((None, w1), s') →
  ∃ row, edgeRow (w_options w0) e = Ok row ∧ w_options w1 = w_options w0 ∧ w_closed w1 = w_closed w0 ∧
    w_vertexWriter w1 = w_vertexWriter w0 ∧ w_edgeHeader w1 = true ∧
    outOf (w_edgeWriter w1) = outOf (w_edgeWriter w0) ++
      headerText (w_options w0) FileRoleEdges (w_edgeHeader w0) ++ encodeRow row.
Proof.
  unfold WriteEdge. destruct (w_closed w0) eqn:Hcl; [done|]. unfold mbind, call_bind.
  destruct (writerReady _ _ _) as [err s1] eqn:Hr. destruct err; [done|]. destruct (Edge_Validate e); [done|].
  apply writerReady_None in Hr as (_ & [cw ->] & _). unfold writeEdgeTo, mbind, call_bind.
  set (out := outOf (Some cw)). assert (∃ err cw1 s2, (if w_edgeHeader w0 then mret (None, cw) else
    writer_Write (headerRow (w_options w0) FileRoleEdges) cw) s1 = ((err, cw1), s2) ∧
    (err = None → cw_out cw1 = out ++ headerText (w_options w0) FileRoleEdges (w_edgeHeader w0)))
    as (err & cw1 & s2 & -> & Hout).
  { destruct (w_edgeHeader w0); [eexists _, _, _; split; [done|]; intros _; unfold headerText; by rewrite app_nil_r|].
    destruct (writer_Write _ cw s1) as [[err cw1] s2] eqn:E. eexists _, _, _. split; [done|]. intros ->.
    by apply writer_Write_ok in E. }
  destruct err; [done|]. specialize (Hout eq_refl). destruct (edgeRow _ e) as [row|]; [|done].
  destruct (writer_Write row cw1 s2) as [[err cw2] s3] eqn:E. destruct err; [done|]. intros [= <- <-].
  apply writer_Write_ok in E. exists row. cbn. rewrite E, Hout, <-(assoc_L app). done.
Qed.

(** The text of a stream: the header row, when there is a row at all, and the
    rows. *)
Definition fileText (wo : CSVWriteOptions) (role : string) (there : bool) (rs : list (list text)) : text :=
  match rs with [] => [] | _ => headerText wo role there ++ rowsText rs end.

Lemma fileText_cons wo role there row rs :
  fileText wo role there (row :: rs) = headerText wo role there ++ encodeRow row ++ fileText wo role true rs.
Proof. cbn. unfold rowsText. by destruct rs. Qed.

Lemma writeVertices_wrote records (w0 w1 : @CSVWriter W) s s' :
  writeVertices records w0 s = ((None, w1), s') →
  ∃ rs, Forall2 (λ v row, vertexRow (w_options w0) v = Ok row) (verticesOf records) rs ∧
    w_options w1 = w_options w0 ∧ w_closed w1 = w_closed w0 ∧ w_edgeWriter w1 = w_edgeWriter w0 ∧ w_edgeHeader w1 = w_edgeHeader w0 ∧
    outOf (w_vertexWriter w1) = outOf (w_vertexWriter w0) ++ fileText (w_options w0) FileRoleVertices (w_vertexHeader w0) rs.
Proof.
  revert w0 s. induction records as [|rec records IH]; intros w0 s; cbn [writeVertices verticesOf omap list_omap].
  { intros [= <- <-]. exists []. cbn. by rewrite app_nil_r. }
  destruct (String.eqb (Kind rec) RecordVertex); [|apply IH]. unfold mbind, call_bind.
  destruct (WriteVertex _ w0 s) as [[err w2] s2] eqn:E. destruct err; [done|]. intros Hrest.
  apply WriteVertex_wrote in E as (row & Hrow & Ho & Hc & He & Heh & Hh & Hout).
  apply IH in Hrest as (rs & HF & Ho2 & Hc2 & He2 & Heh2 & Hout2). exists (row :: rs).
  rewrite Ho in *. split; [by constructor|]. rewrite Ho2, Hc2, He2, Heh2, Hout2, Hh, Hout, fileText_cons.
  by rewrite <-!(assoc_L app).
Qed.

Lemma writeEdges_wrote records (w0 w1 : @CSVWriter W) s s' :
  writeEdges records w0 s = ((None, w1), s') →
  ∃ rs, Forall2 (λ e row, edgeRow (w_options w0) e = Ok row) (edgesOf records) rs ∧
    w_closed w1 = w_closed w0 ∧ w_vertexWriter w1 = w_vertexWriter w0 ∧
    outOf (w_edgeWriter w1) = outOf (w_edgeWriter w0) ++ fileText (w_options w0) FileRoleEdges (w_edgeHeader w0) rs.
Proof.
  revert w0 s. induction records as [|rec records IH]; intros w0 s; cbn [writeEdges edgesOf omap list_omap].
  { intros [= <- <-]. exists []. cbn. by rewrite app_nil_r. }
  destruct (String.eqb (Kind rec) RecordEdge); [|apply IH]. unfold mbind, call_bind.
  destruct (WriteEdge _ w0 s) as [[err w2] s2] eqn:E. destruct err; [done|]. intros Hrest.
  apply WriteEdge_wrote in E as (row & Hrow & Ho & Hc & He & Hh & Hout).
  apply IH in Hrest as (rs & HF & Hc2 & He2 & Hout2). exists (row :: rs).
  rewrite Ho in *. split; [by constructor|]. rewrite Hc2, He2, Hout2, Hh, Hout, fileText_cons.
  by rewrite <-!(assoc_L app).
Qed.

Lemma flushStream_keeps format cw t cw' t' s s' :
  flushStream format cw t s = ((cw', t'), s') → outOf cw' = outOf cw.
Proof.
  unfold flushStream. destruct cw as [cw|]; [|by intros [= <- <-]]. unfold mbind, call_bind, writer_Flush.
  destruct (cw_err cw); [by intros [= <- <-]|]. unfold mbind, call_bind.
  destruct (cw_sink cw _ s) as [a s1]. by intros [= <- <-].
Qed.

Lemma writerClose_keeps (w0 w1 : @CSVWriter W) rep err s s' :
  w_closed w0 = false → writerClose now w0 s = ((rep, err, w1), s') →
  outOf (w_vertexWriter w1) = outOf (w_vertexWriter w0) ∧ outOf (w_edgeWriter w1) = outOf (w_edgeWriter w0).
Proof.
  intros Hc. unfold writerClose. rewrite Hc. unfold mbind, call_bind.
  destruct (flushStream _ (w_vertexWriter w0) _ s) as [[vw t] s1] eqn:E1. apply flushStream_keeps in E1.
  destruct (flushStream _ (w_edgeWriter w0) _ s1) as [[ew t2] s2] eqn:E2. apply flushStream_keeps in E2.
  destruct (now s2). by intros [= <- <- <-].
Qed.

(** A run without an error has written the rows of every vertex and of every
    edge, each below its header. *)
Lemma WriteCSV_wrote wctx streams records options report cw s s' :
  let wo := withDiscovered records (normalizeCSVWriteOptions options).1 in
  WriteCSV now wctx streams records options s = ((report, None, Some cw), s') →
  ∃ vrows erows, Forall2 (λ v row, vertexRow wo v = Ok row) (verticesOf records) vrows ∧
    Forall2 (λ e row, edgeRow wo e = Ok row) (edgesOf records) erows ∧
    outOf (w_vertexWriter cw) = fileText wo FileRoleVertices false vrows ∧
    outOf (w_edgeWriter cw) = fileText wo FileRoleEdges false erows.
Proof.
  intros wo. unfold WriteCSV. destruct (normalizeCSVWriteOptions options) as [n [err|]] eqn:Hn; [done|].
  cbn [fst] in wo. assert (normalizeCSVWriteOptions wo = (wo, None)) as Hwo.
  { unfold wo, withDiscovered. destruct (_ && _); [by eapply normalizeWrite_idem|].
    rewrite <-(withColumns_same n). by eapply normalizeWrite_idem. }
  fold wo. clearbody wo. unfold writeRecords, NewCSVWriter, mbind, call_bind. destruct (now s) as [t s1]. rewrite Hwo.
  cbn [mret call_ret].
  destruct (writeVertices records _ s1) as [[err w1] s2] eqn:Ev.
  destruct err; [by destruct (writerClose now w1 s2) as [[[? ?] ?] ?]|].
  destruct (writeEdges records w1 s2) as [[err w2] s3] eqn:Ee.
  destruct err; [by destruct (writerClose now w2 s3) as [[[? ?] ?] ?]|].
  destruct (writerClose now w2 s3) as [[[rep err] w3] s4] eqn:Ec. intros [= <- -> <- <-].
  apply writeVertices_wrote in Ev as (vrows & HFv & Ho & Hc1 & He & Heh & Hout).
  apply writeEdges_wrote in Ee as (erows & HFe & Hc2 & Hv & Hout2).
  cbn in Ho, He, Heh, Hout, HFv. rewrite Ho in *.
  apply writerClose_keeps in Ec as [Hcv Hce]; [|by rewrite Hc2, Hc1]. exists vrows, erows.
  split; [done|]. split; [done|]. rewrite Hcv, Hv, Hout, Hce, Hout2, He, Heh. unfold outOf. cbn.
  split; [by destruct (outVertices streams)|by destruct (outEdges streams)].
Qed.

(** ** The round trip *)

(** A graph that a reader with the options [ro] gives back as it was written with
    [wo]: the options agree, the columns are told apart, there is a vertex (a
    stream without rows has no header), what is escaped is a graph with distinct
    vertices and edges between them, JSON reads back what it writes, and the
    limits of the reader let every row pass; a row that fits has no cell with a
    carriage return before a newline, which the reader drops. *)
Definition readable (wo : CSVWriteOptions) (ro : CSVReadOptions) (vs : list (Vertex V)) (es : list (Edge V)) : Prop :=
  matching wo ro ∧ columnsOk wo ∧ vs ≠ [] ∧ graph (backVertex wo <$> vs) (backEdge wo <$> es) ∧
  Forall (λ v, jsonReadable wo (v_properties v)) vs ∧ Forall (λ e, jsonReadable wo (e_properties e)) es ∧
  rowFits (crRead ro) (headerRow wo FileRoleVertices) ∧ rowFits (crRead ro) (headerRow wo FileRoleEdges) ∧
  Forall (λ v, ∀ row, vertexRow wo v = Ok row → rowFits (crRead ro) row) vs ∧
  Forall (λ e, ∀ row, edgeRow wo e = Ok row → rowFits (crRead ro) row) es ∧
  admits ro (Z.of_nat (length vs) + Z.of_nat (length es)).

Lemma Forall2_written {A} (P Q : A → Prop) (row : A → result (list text)) (F : list text → Prop) xs rs :
  Forall2 (λ x r, row x = Ok r) xs rs → Forall P xs → Forall Q xs → Forall (λ x, ∀ r, row x = Ok r → F r) xs →
  Forall2 (λ x r, row x = Ok r ∧ F r ∧ P x ∧ Q x) xs rs.
Proof.
  induction 1 as [|x r xs rs Hx HF IH]; [constructor|]. rewrite !Forall_cons. intros [? ?] [? ?] [Hf ?].
  constructor; [by auto|]. by apply IH.
Qed.

(** Reading streams that begin with what was written. *)
Lemma read_written wo ropts rctx vs es vrows erows stop fuel s :
  (normalizeCSVReadOptions ropts).2 = None → live (orBackground rctx) →
  let ro := (normalizeCSVReadOptions ropts).1 in
  readable wo ro vs es → stops (crRead ro) stop →
  Forall2 (λ v row, vertexRow wo v = Ok row) vs vrows → Forall2 (λ e row, edgeRow wo e = Ok row) es erows →
  (length vs < fuel)%nat → (length es < fuel)%nat →
  wp (ReadCSV now fuel rctx
        (mkReaderStreams (Some (fileText wo FileRoleVertices false vrows ++ stop, EOF))
                         (Some (fileText wo FileRoleEdges false erows, EOF))) ropts)
     (λ '(records, _, err) _, records = recordsOf (backVertex wo <$> vs) (backEdge wo <$> es) ∧ err = None) s.
Proof.
  intros Hnorm Hlive ro (Hm & Hc & Hne & (Hgv & Hnd & Hge) & Hpv & Hpe & Hfv & Hfe & Hrv & Hre & Ha) Hstop Hv He Hlv Hle.
  rewrite Forall_fmap in Hgv. rewrite <-list_fmap_compose in Hnd, Hge.
  assert (v_id ∘ backVertex wo <$> vs = idOf wo <$> vs) as Hids by done. rewrite Hids in Hnd, Hge.
  rewrite Forall_fmap in Hge.
  destruct fuel as [|rows]; [lia|]. unfold ReadCSV. wp_step. wp_step.
  destruct (NewCSVReader now rctx _ ropts s) as [r s1] eqn:Hr. cbn [fst snd].
  unfold NewCSVReader, mbind, call_bind in Hr. destruct (now s) as [t s0].
  destruct (normalizeCSVReadOptions ropts) as [n nerr]. cbn in Hnorm. subst nerr. cbn [fst] in ro. subst ro.
  injection Hr as <- <-. set (r := mkCSVReader _ _ _ _ _ _ _ _ _ _ _ _ _ _ _ _ _). wp_step.
  assert (vrows ≠ []) as Hvr by (destruct Hv; [done|discriminate]).
  eapply wp_mono; [|apply (readVertices_written wo n (S rows) rows r vs vrows ∅ 0 false
    (Some (newCSVRecordReader (fileText wo FileRoleEdges false erows, EOF) (crRead n) FileRoleEdges)) [] stop); try done].
  2: { by apply (Forall2_written _ _ (vertexRow wo) (rowFits (crRead n))). }
  2: { unfold admits in *. lia. }
  2: { split; [done|]. repeat (split; [done|]). eexists. split; [done|]. split; [done|]. split; [done|]. cbn.
       destruct vrows; [done|]. cbn. by rewrite <-(assoc_L app). }
  intros [[recs err] r1] w1 (-> & -> & (Hop & Heof & Hready & Hed)). wp_step.
  rewrite union_empty_l_L in Hop.
  eapply wp_mono; [|eapply (readEdges_written wo n (idOf wo <$> vs) (S rows) rows r1 es erows _ (0 + Z.of_nat (length vs)) _ _ false); try done].
  2: { by apply (Forall2_written _ _ (edgeRow wo) (rowFits (crRead n))). }
  2: { intros _. cbn. destruct He; [done|]. done. }
  intros [[recs err] r2] w2 (-> & -> & _). wp_step. wp_step.
  destruct (readerClose now r2 w2) as [[rep r3] w3]. cbn [fst snd]. wp_step. done.
Qed.

(** C23. What was written comes back.  When [WriteCSV] reports no error, whatever
    its streams answered on the way, [ReadCSV] of the texts it wrote returns the
    vertices and then the edges that were written, in their order and without an
    error, each as [backVertex] and [backEdge] say: a text that looks like a
    formula comes back escaped (unless the raw policy is chosen), with prefixed
    columns the properties are the texts of the columns, with a JSON column they
    are what encoding/json reads back of its own text.  The records and options
    have to be [readable]: both sides use the same mode, prefix and raw column;
    property columns are distinct, none carries the prefix or collides with
    another header; there is at least one vertex; after escaping, the ids and
    labels are trimmed and not empty, the vertex ids are distinct and every edge
    ends in two of them; no cell has a carriage return before a newline;
    json.Unmarshal accepts what json.Marshal wrote; and the limits of the reader
    let every row pass. *)
Theorem csv_roundtrip wctx streams records options report cw s s' rctx ropts fuel s1 :
  let wo := withDiscovered records (normalizeCSVWriteOptions options).1 in
  let ro := (normalizeCSVReadOptions ropts).1 in
  WriteCSV now wctx streams records options s = ((report, None, Some cw), s') →
  (normalizeCSVReadOptions ropts).2 = None → live (orBackground rctx) →
  readable wo ro (verticesOf records) (edgesOf records) →
  (length records < fuel)%nat →
  wp (ReadCSV now fuel rctx
        (mkReaderStreams (Some (outOf (w_vertexWriter cw), EOF)) (Some (outOf (w_edgeWriter cw), EOF))) ropts)
     (λ '(records', _, err) _,
        records' = recordsOf (backVertex wo <$> verticesOf records) (backEdge wo <$> edgesOf records) ∧ err = None) s1.
Proof.
  intros wo ro Hw Hn Hl Hr Hf. apply WriteCSV_wrote in Hw as (vrows & erows & Hv & He & -> & ->).
  rewrite <-(app_nil_r (fileText _ FileRoleVertices _ _)). apply read_written; try done; [by left| |].
  - eapply Nat.le_lt_trans; [|exact Hf]. apply omap_length.
  - eapply Nat.le_lt_trans; [|exact Hf]. apply omap_length.
Qed.

(** C40. A blank line in the stream of the vertices hides everything after it.
    Take the two texts that [WriteCSV] wrote for a graph that is [readable],
    and put a blank line and any [tail] (further vertices, or no CSV at all)
    behind the vertices: [ReadCSV] returns that graph and no error, and
    nothing of the tail.  The reader takes the answer of its row parser, which
    skips the line and reports the end of its input, for the end of the
    stream.  The edges here are those of the graph; an edge to a vertex of the
    tail would have a missing endpoint. *)
Theorem csv_blank_line_truncates wctx streams records options report cw s s' rctx ropts fuel s1 tail :
  let wo := withDiscovered records (normalizeCSVWriteOptions options).1 in
  let ro := (normalizeCSVReadOptions ropts).1 in
  WriteCSV now wctx streams records options s = ((report, None, Some cw), s') →
  (normalizeCSVReadOptions ropts).2 = None → live (orBackground rctx) →
  readable wo ro (verticesOf records) (edgesOf records) → 1 ≤ MaxRecordBytes (crRead ro) →
  (length records < fuel)%nat →
  wp (ReadCSV now fuel rctx
        (mkReaderStreams (Some (outOf (w_vertexWriter cw) ++ LF :: tail, EOF)) (Some (outOf (w_edgeWriter cw), EOF))) ropts)
     (λ '(records', _, err) _,
        records' = recordsOf (backVertex wo <$> verticesOf records) (backEdge wo <$> edgesOf records) ∧ err = None) s1.
Proof.
  intros wo ro Hw Hn Hl Hr Hm Hf. apply WriteCSV_wrote in Hw as (vrows & erows & Hv & He & -> & ->).
  apply read_written; try done; [by right; exists tail| |].
  - eapply Nat.le_lt_trans; [|exact Hf]. apply omap_length.
  - eapply Nat.le_lt_trans; [|exact Hf]. apply omap_length.
Qed.

(** ** A graph without properties *)

Lemma WriteVertex_refused (w : @CSVWriter W) :
  cwPropertyMode (w_options w) = CSVPropertiesPrefixedColumns → cwPropertyColumns (w_options w) = [] →
  ∀ v s, (WriteVertex v w s).1.1 ≠ None.
Proof.
  intros Hm Hc v s. destruct (WriteVertex v w s) as [[err w1] s1] eqn:E. cbn. intros ->.
  unfold WriteVertex in E. destruct (w_closed w); [done|]. unfold mbind, call_bind in E.
  destruct (writerReady _ _ _) as [err s2] eqn:Hr. destruct err; [done|].
  apply writerReady_None in Hr as (_ & _ & Hn). by apply Hn.
Qed.

Lemma discover_none records :
  Forall (λ r, v_properties (rVertex r) = None ∧ e_properties (rEdge r) = None) records →
  discoverPropertyColumns (V := V) records = [].
Proof.
  intros HF. unfold discoverPropertyColumns.
  enough (∀ acc : gset text, foldl (λ set record, set ∪
    match (if String.eqb (Kind record) RecordVertex then Vertex_Properties (rVertex record)
           else if String.eqb (Kind record) RecordEdge then Edge_Properties (rEdge record) else None)
    with None => ∅ | Some m => dom m end) acc records = acc) as Hall by (by rewrite Hall).
  induction HF as [|r records [Hv He] HF IH]; intros acc; [done|]. cbn [foldl]. rewrite IH.
  unfold Vertex_Properties, Edge_Properties. rewrite Hv, He. cbn. repeat case_match; set_solver.
Qed.

(** [WriteCSV] refuses a graph without properties unless it is told not to write
    properties: the columns it discovers are none, and the writer then asks for
    columns. *)
Theorem csv_no_properties_refused wctx streams records options s :
  let n := (normalizeCSVWriteOptions options).1 in
  cwPropertyMode n = CSVPropertiesPrefixedColumns → cwPropertyColumns n = [] → verticesOf records ≠ [] →
  Forall (λ r, v_properties (rVertex r) = None ∧ e_properties (rEdge r) = None) records →
  (WriteCSV now wctx streams records options s).1.1.2 ≠ None.
Proof.
  intros n Hm Hc Hv HF. unfold WriteCSV. destruct (normalizeCSVWriteOptions options) as [n' [err|]] eqn:Hn; [done|].
  cbn [fst] in n. subst n. unfold withDiscovered. rewrite Hm, Hc. cbn [is_mode]. rewrite discover_none by done.
  cbn [andb is_mode]. change (is_mode CSVPropertiesPrefixedColumns CSVPropertiesPrefixedColumns) with true. cbn [andb].
  unfold writeRecords, NewCSVWriter, mbind, call_bind. destruct (now s) as [t s1].
  rewrite (normalizeWrite_idem _ _ _ Hn). cbn [mret call_ret].
  set (w := mkCSVWriter _ _ _ _ _ _ _ _ _ _ _).
  assert (∀ s, (writeVertices records w s).1.1 ≠ None) as Hr.
  { clear HF. induction records as [|r records IH]; [done|]. intros s2. cbn [writeVertices].
    cbn [verticesOf omap list_omap] in Hv. destruct (String.eqb (Kind r) RecordVertex); [|by apply IH].
    unfold mbind, call_bind. pose proof (WriteVertex_refused w Hm eq_refl (rVertex r) s2) as Hw.
    destruct (WriteVertex (rVertex r) w s2) as [[[err|] w1] s3]; [done|]. by cbn in Hw. }
  specialize (Hr s1). destruct (writeVertices records w s1) as [[[err|] w1] s2]; [|done].
  by destruct (writerClose now w1 s2) as [[[? ?] ?] ?].
Qed.
End props.

(** ** Examples *)

#[local] Existing Instances sampleDigest sampleText.

(** A stream that takes everything, and two vertices with an edge; the name of
    the first one looks like a formula. *)
Definition sampleSink : CSVWriterStreams (W := unit) := mkWriterStreams (Some (λ _ w, (None, w))) (Some (λ _ w, (None, w))).

Definition sampleRecords : list (Record_ Z) :=
  recordsOf
    [mkVertex (lit "v1") (lit "Person") (Some {[lit "name" := AText (lit "=Ada, Countess of" ++ [LF] ++ lit "Lovelace")]});
     mkVertex (lit "v2") (lit "Person") (Some {[lit "age" := AOther 36]})]
    [mkEdge (lit "e1") (lit "knows") (mkEndpoints (lit "v1") (lit "v2")) None].

Definition sampleWriteOptions : CSVWriteOptions := mkCSVWriteOptions (mkWriteOptions false 0) "" [] [] "" [].

Definition sampleWritten : CSVWriteOptions := withDiscovered sampleRecords (normalizeCSVWriteOptions sampleWriteOptions).1.
Definition sampleRead : CSVReadOptions := (normalizeCSVReadOptions sampleReadOptions).1.

Ltac decided := refine (bool_decide_unpack _ _); vm_compute; exact I.

(** The two vertices and the edge of the samples are readable with these options. *)
Ltac sample_graph :=
  split; [repeat constructor; done|]; split; [decided|]; repeat constructor; first [done|decided].
Ltac sample_rows :=
  split; [decided|]; split; [decided|];
  split; [apply Forall_cons; split; [|apply Forall_cons; split; [|constructor]];
            (intros row E; vm_compute in E; injection E as <-; decided)|];
  split; [apply Forall_cons; split; [|constructor]; intros row E; vm_compute in E; injection E as <-; decided|];
  right; vm_compute; discriminate.

Lemma sample_readable : readable sampleWritten sampleRead (verticesOf sampleRecords) (edgesOf sampleRecords).
Proof.
  split; [done|]. split.
  { split; [done|]. split; [intros _; split; decided|]. intros E. by vm_compute in E. }
  split; [discriminate|]. split; [sample_graph|].
  split. { apply Forall_forall. intros v _ E. by vm_compute in E. }
  split. { apply Forall_forall. intros v _ E. by vm_compute in E. }
  sample_rows.
Qed.

(** The same graph with a JSON column: a reader and writer of JSON for maps with
    the single key age and a number. *)
Definition ageText (n : Z) : text := [123; 34] ++ lit "age" ++ [34; 58] ++ Itoa (Z.to_nat n) ++ [125].

Definition sampleJSONText : PropertyText Z :=
  {| Sprint := λ z, Itoa (Z.to_nat z);
     jsonMarshal := λ p, match p with
       | Some m => match m !! lit "age" with Some (AOther n) => Ok (ageText n) | _ => Ok (lit "{}") end
       | None => Ok (lit "null")
       end;
     jsonUnmarshal := λ data,
       if bool_decide (data = ageText 36) then Ok (Some {[lit "age" := AOther 36]})
       else if bool_decide (data = lit "{}") then Ok (Some ∅)
       else if bool_decide (data = lit "null") then Ok None else Fail (Sentinel "json") |}.

Definition jsonRecords : list (Record_ Z) :=
  recordsOf
    [mkVertex (lit "v1") (lit "Person") (Some ∅); mkVertex (lit "v2") (lit "Person") (Some {[lit "age" := AOther 36]})]
    [mkEdge (lit "e1") (lit "knows") (mkEndpoints (lit "v1") (lit "v2")) None].

Definition jsonWriteOptions : CSVWriteOptions :=
  mkCSVWriteOptions (mkWriteOptions false 0) CSVPropertiesRawJSONColumn [] [] "" [].
Definition jsonReadOptions : CSVReadOptions :=
  mkCSVReadOptions (mkReadOptions "" "skip_edge" 0 0 0 0 0 0) CSVPropertiesRawJSONColumn [] [].
Definition jsonWritten : CSVWriteOptions := withDiscovered jsonRecords (normalizeCSVWriteOptions jsonWriteOptions).1.
Definition jsonRead : CSVReadOptions := (normalizeCSVReadOptions jsonReadOptions).1.

Lemma json_readable :
  readable (H0 := sampleJSONText) jsonWritten jsonRead (verticesOf jsonRecords) (edgesOf jsonRecords).
Proof.
  split; [done|]. split.
  { split; [done|]. split; [intros E; by vm_compute in E|]. intros _. decided. }
  split; [discriminate|]. split; [sample_graph|].
  split. { apply Forall_cons; split; [|apply Forall_cons; split; [|constructor]]; intros _ data E; vm_compute in E;
           injection E as <-; (split; [done|]); eexists; vm_compute; reflexivity. }
  split. { apply Forall_cons; split; [|constructor]. intros _ data E. vm_compute in E. injection E as <-. split; [done|].
           eexists; vm_compute; reflexivity. }
  sample_rows.
Qed.

(** Both samples come back: the formula escaped, and the JSON value itself. *)
Lemma csv_roundtrip_witness :
  (∃ cw, (WriteCSV (W := unit) (λ w, (0, w)) None sampleSink sampleRecords sampleWriteOptions tt).1.2 = Some cw ∧
   wp (ReadCSV (V := Z) (W := unit) (λ w, (0, w)) 9 None
        (mkReaderStreams (Some (outOf (w_vertexWriter cw), EOF)) (Some (outOf (w_edgeWriter cw), EOF))) sampleReadOptions)
     (λ '(records', _, err) _,
        records' = recordsOf (backVertex sampleWritten <$> verticesOf sampleRecords)
                             (backEdge sampleWritten <$> edgesOf sampleRecords) ∧ err = None) tt) ∧
  (∃ cw, (WriteCSV (H0 := sampleJSONText) (W := unit) (λ w, (0, w)) None sampleSink jsonRecords jsonWriteOptions tt).1.2 = Some cw ∧
   wp (ReadCSV (H0 := sampleJSONText) (V := Z) (W := unit) (λ w, (0, w)) 9 None
        (mkReaderStreams (Some (outOf (w_vertexWriter cw), EOF)) (Some (outOf (w_edgeWriter cw), EOF))) jsonReadOptions)
     (λ '(records', _, err) _,
        records' = recordsOf (backVertex (H0 := sampleJSONText) jsonWritten <$> verticesOf jsonRecords)
                             (backEdge (H0 := sampleJSONText) jsonWritten <$> edgesOf jsonRecords) ∧ err = None) tt ∧
   backVertex (H0 := sampleJSONText) jsonWritten <$> verticesOf jsonRecords = verticesOf jsonRecords).
Proof.
  split; eexists; (split; [vm_compute; reflexivity|]).
  - eapply (csv_roundtrip (λ w, (0, w)) None sampleSink sampleRecords sampleWriteOptions _ _ tt tt None sampleReadOptions).
    + vm_compute. reflexivity.
    + reflexivity.
    + intros w. reflexivity.
    + exact sample_readable.
    + vm_compute. lia.
  - split; [|vm_compute; reflexivity].
    eapply (csv_roundtrip (H0 := sampleJSONText) (λ w, (0, w)) None sampleSink jsonRecords jsonWriteOptions _ _ tt tt None jsonReadOptions).
    + vm_compute. reflexivity.
    + reflexivity.
    + intros w. reflexivity.
    + exact json_readable.
    + vm_compute. lia.
Defined.

Lemma csv_blank_line_truncates_witness : ∃ cw,
  (WriteCSV (W := unit) (λ w, (0, w)) None sampleSink sampleRecords sampleWriteOptions tt).1.2 = Some cw ∧
  wp (ReadCSV (V := Z) (W := unit) (λ w, (0, w)) 9 None
        (mkReaderStreams (Some (outOf (w_vertexWriter cw) ++ LF :: lit "v3,Person,,", EOF)) (Some (outOf (w_edgeWriter cw), EOF)))
        sampleReadOptions)
     (λ '(records', _, err) _,
        records' = recordsOf (backVertex sampleWritten <$> verticesOf sampleRecords)
                             (backEdge sampleWritten <$> edgesOf sampleRecords) ∧ err = None) tt.
Proof.
  eexists. split; [vm_compute; reflexivity|].
  eapply (csv_blank_line_truncates (λ w, (0, w)) None sampleSink sampleRecords sampleWriteOptions _ _ tt tt None sampleReadOptions).
  - vm_compute. reflexivity.
  - reflexivity.
  - intros w. reflexivity.
  - exact sample_readable.
  - vm_compute. discriminate.
  - vm_compute. lia.
Defined.
