(* ===== verification/SqsExtended.v ===== *)
(** * Large messages through SQS and S3

    Models src/messaging/sqsextended: errors.go, envelope.go and provider.go.
    Strings are their bytes.  [json.Marshal] of an envelope is written out; the
    tokens and the strict decoding of a body are an interface ([EnvelopeJSON])
    and what it has to read back is [readsBack].  The SQS and S3
    clients are calls on a world: they may answer anything. *)

From S2P Require Import Prelude GoError GoText Core GoEncoding.

Local Open Scope Z_scope.

(** ** errors.go *)

Definition ErrNilClient : string := "sqsextended.ErrNilClient".
Definition ErrInvalidOptions : string := "sqsextended.ErrInvalidOptions".
Definition ErrInvalidRequest : string := "sqsextended.ErrInvalidRequest".
Definition ErrInvalidEnvelope : string := "sqsextended.ErrInvalidEnvelope".
Definition ErrUnsupportedVersion : string := "sqsextended.ErrUnsupportedVersion".
Definition ErrEnvelopeTooLarge : string := "sqsextended.ErrEnvelopeTooLarge".
Definition ErrPayloadTooLarge : string := "sqsextended.ErrPayloadTooLarge".
Definition ErrPayloadSizeMismatch : string := "sqsextended.ErrPayloadSizeMismatch".
Definition ErrChecksumMismatch : string := "sqsextended.ErrChecksumMismatch".
Definition ErrObjectPutFailed : string := "sqsextended.ErrObjectPutFailed".
Definition ErrMessageSendFailed : string := "sqsextended.ErrMessageSendFailed".
Definition ErrReceiveFailed : string := "sqsextended.ErrReceiveFailed".
Definition ErrObjectReadFailed : string := "sqsextended.ErrObjectReadFailed".
Definition ErrMessageDeleteFailed : string := "sqsextended.ErrMessageDeleteFailed".
Definition ErrObjectDeleteFailed : string := "sqsextended.ErrObjectDeleteFailed".
Definition ErrMalformedOutput : string := "sqsextended.ErrMalformedOutput".
Definition ErrCanceled : string := "sqsextended.ErrCanceled".

Definition safeOperation (operation : string) : string :=
  if existsb (String.eqb operation)
       ["validate options"; "validate request"; "encode envelope"; "decode envelope"; "send"; "put object";
        "send message"; "receive"; "get object"; "read object"; "delete"; "delete message"; "delete object"]%string
  then operation else "".

(** [safeKind], on sentinels *)
Definition safeKind (kind : string) : string :=
  if existsb (String.eqb kind)
       [ErrNilClient; ErrInvalidOptions; ErrInvalidRequest; ErrInvalidEnvelope; ErrUnsupportedVersion; ErrEnvelopeTooLarge;
        ErrPayloadTooLarge; ErrPayloadSizeMismatch; ErrChecksumMismatch; ErrObjectPutFailed; ErrMessageSendFailed;
        ErrReceiveFailed; ErrObjectReadFailed; ErrMessageDeleteFailed; ErrObjectDeleteFailed; ErrMalformedOutput; ErrCanceled]
  then kind else ErrInvalidOptions.

(** [newError]: the error answers [Is] for its kind and for its cause. *)
Definition newError (kind operation : string) (cause : option error) (orphaned queueDeleted : bool) : error :=
  Typed "sqsextended.Error" [FStr (safeKind kind); FStr (safeOperation operation); FInt (Z.b2z orphaned); FInt (Z.b2z queueDeleted)]
    [safeKind kind] cause.

Definition flagOf (i : nat) (e : error) : bool :=
  match e with
  | Typed ty fields _ _ =>
      String.eqb ty "sqsextended.Error" && match fields !! i with Some (FInt z) => z =? 1 | _ => false end
  | _ => false
  end.

(** [Error.OrphanedObject] and [Error.QueueDeleted] *)
Definition OrphanedObject : error → bool := flagOf 2.
Definition QueueDeleted : error → bool := flagOf 3.

(** ** envelope.go *)

Definition EnvelopeVersion : Z := 1.
Definition DefaultMaxPayloadSize : Z := 256 * 2 ^ 20.
Definition DefaultMaxReceivePayloadSize : Z := 512 * 2 ^ 20.
Definition MaxEnvelopeSize : Z := 64 * 2 ^ 10.
Definition maxBucketSize : Z := 1024.
Definition maxObjectKeySize : Z := 1024.
Definition maxContentTypeSize : Z := 1024.
Definition maxMetadataEntries : Z := 32.
Definition maxMetadataKeySize : Z := 128.
Definition maxMetadataValSize : Z := 2048.

Definition size (b : bytes) : Z := Z.of_nat (length b).

Record Envelope := mkEnvelope {
  Version : Z;
  Bucket : bytes;
  Key : bytes;
  ContentSize : Z;
  Checksum : bytes;
  ContentType : bytes;
  (** [None] is a nil map. *)
  EncryptionMetadata : option (gmap bytes bytes)
}.

Definition metadata (m : option (gmap bytes bytes)) : gmap bytes bytes := default ∅ m.

Definition validString (value : bytes) (maxBytes : Z) : bool := (size value <=? maxBytes) && ValidString value.

Definition validRequiredString (value : bytes) (maxBytes : Z) : bool :=
  negb (bool_decide (value = [])) && validString value maxBytes && negb (bool_decide (TrimSpace (runesOf value) = [])).

Definition isLowerHex (value : bytes) : bool :=
  forallb (λ c, negb (((c <? 48) || (57 <? c)) && ((c <? 97) || (102 <? c)))) (runesOf value).

(** The loop over the metadata; its outcome does not depend on the order. *)
Definition metadataOk (m : option (gmap bytes bytes)) : bool :=
  forallb (λ kv, validRequiredString kv.1 maxMetadataKeySize && validString kv.2 maxMetadataValSize)
    (map_to_list (metadata m)).

Definition validateEnvelope (e : Envelope) : option error :=
  let invalid := newError ErrInvalidEnvelope "validate envelope" None false false in
  if negb (Version e =? EnvelopeVersion) then Some (newError ErrUnsupportedVersion "validate envelope" None false false)
  else if negb (validRequiredString (Bucket e) maxBucketSize) || negb (validRequiredString (Key e) maxObjectKeySize)
  then Some invalid
  else if (ContentSize e <? 0) || (DefaultMaxPayloadSize <? ContentSize e)
  then Some (newError ErrPayloadTooLarge "validate envelope" None false false)
  else if negb (size (Checksum e) =? 64) || negb (isLowerHex (Checksum e)) then Some invalid
  else if negb (bool_decide (ContentType e = [])) && negb (validRequiredString (ContentType e) maxContentTypeSize)
  then Some invalid
  else if maxMetadataEntries <? Z.of_nat (length (map_to_list (metadata (EncryptionMetadata e)))) then Some invalid
  else if negb (metadataOk (EncryptionMetadata e)) then Some invalid
  else None.

(** *** json.Marshal of an envelope *)

Definition quoted (s : string) : bytes := [34] ++ lit s ++ [34].

(** A map is written with its keys in order. *)
Definition sortedEntries (m : gmap bytes bytes) : list (bytes * bytes) :=
  omap (λ k, (λ v, (k, v)) <$> m !! k) (merge_sort text_le (elements (dom m))).

Definition jsonMap (m : gmap bytes bytes) : bytes :=
  lit "{" ++ Join (map (λ kv, jsonQuote kv.1 ++ lit ":" ++ jsonQuote kv.2) (sortedEntries m)) 44 ++ lit "}".

Definition jsonInt (n : Z) : bytes := if n <? 0 then 45 :: Itoa (Z.to_nat (- n)) else Itoa (Z.to_nat n).

Definition jsonMarshal (e : Envelope) : bytes :=
  lit "{" ++ quoted "version" ++ lit ":" ++ jsonInt (Version e) ++ lit "," ++
  quoted "bucket" ++ lit ":" ++ jsonQuote (Bucket e) ++ lit "," ++
  quoted "key" ++ lit ":" ++ jsonQuote (Key e) ++ lit "," ++
  quoted "content_size" ++ lit ":" ++ jsonInt (ContentSize e) ++ lit "," ++
  quoted "checksum" ++ lit ":" ++ jsonQuote (Checksum e) ++
  (match ContentType e with [] => [] | t => lit "," ++ quoted "content_type" ++ lit ":" ++ jsonQuote t end) ++
  (if bool_decide (metadata (EncryptionMetadata e) = ∅) then []
   else lit "," ++ quoted "encryption_metadata" ++ lit ":" ++ jsonMap (metadata (EncryptionMetadata e))) ++ lit "}".

(** [json.Marshal] does not fail on an envelope. *)
Definition EncodeEnvelope (e : Envelope) : result bytes :=
  match validateEnvelope e with
  | Some err => Fail err
  | None =>
      let encoded := jsonMarshal e in
      if MaxEnvelopeSize <? size encoded then Fail (newError ErrEnvelopeTooLarge "encode envelope" None false false)
      else Ok encoded
  end.

(** *** Reading *)

(** A token of [json.Decoder.Token]: a delimiter, a string, or another value. *)
Inductive token : Type := TDelim (c : Z) | TString (s : bytes) | TValue.

(** The tokens of a body with the error that ends them, and the strict decoding
    into an envelope (unknown fields refused). *)
Class EnvelopeJSON := {
  jsonTokens : bytes → list token * error;
  jsonDecodeStrict : bytes → result Envelope
}.

Definition invalidBody (cause : option error) : error := newError ErrInvalidEnvelope "decode envelope" cause false false.

(** A closing delimiter or the end: [decoder.More] is false. *)
Definition noMore (ts : list token) : bool :=
  match ts with [] => true | TDelim c :: _ => (c =? 125) || (c =? 93) | _ => false end.

(** The token that closes a value. *)
Definition closing (fin : error) (delim : Z) (ts : list token) : result (list token) :=
  match ts with
  | [] => Fail (invalidBody (Some fin))
  | TDelim c :: rest => if c =? delim then Ok rest else Fail (invalidBody None)
  | _ :: _ => Fail (invalidBody None)
  end.

(** [inspectJSONValue] on the tokens that are left ([fin] ends them): the tokens
    after the value.  [None]: the fuel is used up. *)
Fixpoint inspectJSONValue (fuel : nat) (fin : error) (requireObject : bool) (ts : list token) : option (result (list token)) :=
  match fuel with
  | O => None
  | S fuel' =>
      match ts with
      | [] => Some (Fail (invalidBody (Some fin)))
      | TDelim c :: rest =>
          if c =? 123 then inspectObject fuel' fin ∅ rest
          else if c =? 91 then inspectArray fuel' fin rest
          else Some (Fail (invalidBody None))
      | _ :: rest => if requireObject then Some (Fail (invalidBody None)) else Some (Ok rest)
      end
  end
(** The loop over the fields of an object; [seen] are its keys so far. *)
with inspectObject (fuel : nat) (fin : error) (seen : gset bytes) (ts : list token) : option (result (list token)) :=
  match fuel with
  | O => None
  | S fuel' =>
      if noMore ts then Some (closing fin 125 ts)
      else match ts with
           | TString key :: rest =>
               if bool_decide (key ∈ seen) then Some (Fail (invalidBody None))
               else match inspectJSONValue fuel' fin false rest with
                    | Some (Ok rest) => inspectObject fuel' fin ({[key]} ∪ seen) rest
                    | failed => failed
                    end
           | _ => Some (Fail (invalidBody None))
           end
  end
(** The loop over the elements of an array. *)
with inspectArray (fuel : nat) (fin : error) (ts : list token) : option (result (list token)) :=
  match fuel with
  | O => None
  | S fuel' =>
      if noMore ts then Some (closing fin 93 ts)
      else match inspectJSONValue fuel' fin false ts with
           | Some (Ok rest) => inspectArray fuel' fin rest
           | failed => failed
           end
  end.

Section provider.
Context {W : Type} `{EnvelopeJSON} (sha256 : bytes → bytes).

Definition rejectDuplicateOrTrailingFields (data : bytes) : option (option error) :=
  let '(ts, fin) := jsonTokens data in
  match inspectJSONValue (S (2 * length ts)) fin true ts with
  | None => None
  | Some (Fail err) => Some (Some err)
  | Some (Ok []) => Some (if errors_Is fin "io.EOF" then None else Some (invalidBody (Some fin)))
  | Some (Ok (_ :: _)) => Some (Some (invalidBody None))
  end.

(** [cloneMetadata] *)
Definition cloneMetadata (m : option (gmap bytes bytes)) : option (gmap bytes bytes) :=
  match m with
  | None => None
  | Some m => Some (map_fold (λ key value clone, <[key := value]> clone) ∅ m)
  end.

Definition withMetadata (e : Envelope) (m : option (gmap bytes bytes)) : Envelope :=
  mkEnvelope (Version e) (Bucket e) (Key e) (ContentSize e) (Checksum e) (ContentType e) m.

(** [DecodeEnvelope]; [None]: the inspection has used up its fuel. *)
Definition decodeEnvelope (data : bytes) : option (result Envelope) :=
  if (size data =? 0) || (MaxEnvelopeSize <? size data) then
    Some (Fail (if MaxEnvelopeSize <? size data then newError ErrEnvelopeTooLarge "decode envelope" None false false
                else invalidBody None))
  else match rejectDuplicateOrTrailingFields data with
       | None => None
       | Some (Some err) => Some (Fail err)
       | Some None =>
           Some (match jsonDecodeStrict data with
                 | Fail err => Fail (invalidBody (Some err))
                 | Ok envelope =>
                     match validateEnvelope envelope with
                     | Some err => Fail err
                     | None =>
                         match EncodeEnvelope envelope with
                         | Fail err => Fail err
                         | Ok canonical =>
                             if negb (bool_decide (canonical = data)) then Fail (invalidBody None)
                             else Ok (withMetadata envelope (cloneMetadata (EncryptionMetadata envelope)))
                         end
                     end
                 end)
       end.

(** The inspection always ends ([inspect_total]). *)
Definition DecodeEnvelope (data : bytes) : result Envelope := default (Fail (invalidBody None)) (decodeEnvelope data).

(** ** provider.go *)

(** The body of an object: its bytes, the error that ends them, and what closing
    it answers. *)
Record objectBody := mkBody { b_content : bytes; b_readErr : option error; b_closeErr : option error }.
Record GetObjectOutput := mkObject { o_body : option objectBody; o_contentLength : option Z }.

(** A pointer field of a message is [None] when it is nil. *)
Record sqsMessage := mkMessage { m_body : option bytes; m_messageId : option bytes; m_receiptHandle : option bytes }.

Record ReceiveMessageInput := mkReceiveInput {
  i_queueURL : bytes;
  i_maxMessages : Z;
  i_visibilityTimeout : Z;
  i_waitTimeSeconds : Z
}.

(** What [Send] passes to S3; the content type is nil when it is empty. *)
Record PutObjectInput := mkPutInput {
  pi_bucket : bytes;
  pi_key : bytes;
  pi_body : bytes;
  pi_contentLength : Z;
  pi_contentType : option bytes;
  pi_checksumSHA256 : bytes
}.

(** The clients: a nil output is [None], [false]. *)
Record SQSClient := mkSQS {
  SendMessage : bytes → bytes → Call W (option (option bytes) * option error);
  ReceiveMessage : ReceiveMessageInput → Call W (option (list sqsMessage) * option error);
  DeleteMessage : bytes → bytes → Call W (bool * option error)
}.

Record S3Client := mkS3 {
  PutObject : PutObjectInput → Call W (bool * option error);
  GetObject : bytes → bytes → Call W (option GetObjectOutput * option error);
  s3DeleteObject : bytes → bytes → Call W (bool * option error)
}.

Record Options := mkOptions {
  optSQS : option SQSClient;
  optS3 : option S3Client;
  optMaxPayloadSize : Z;
  optMaxReceivePayloadSize : Z
}.

Record Provider := mkProvider {
  sqsClient : SQSClient;
  s3Client : S3Client;
  maxPayloadSize : Z;
  maxReceivePayloadSize : Z
}.

Definition New (options : Options) : result Provider :=
  match optSQS options, optS3 options with
  | Some sqs, Some s3 =>
      let invalid := newError ErrInvalidOptions "validate options" None false false in
      let maxPayload := if optMaxPayloadSize options =? 0 then DefaultMaxPayloadSize else optMaxPayloadSize options in
      if (maxPayload <? 1) || (DefaultMaxPayloadSize <? maxPayload) then Fail invalid
      else
        let maxReceive := if optMaxReceivePayloadSize options =? 0 then DefaultMaxReceivePayloadSize
                          else optMaxReceivePayloadSize options in
        if (maxReceive <? maxPayload) || (DefaultMaxReceivePayloadSize <? maxReceive) then Fail invalid
        else Ok (mkProvider sqs s3 maxPayload maxReceive)
  | _, _ => Fail (newError ErrNilClient "validate options" None false false)
  end.

(** [Provider.validate], on a provider that is not nil. *)
Definition validateProvider (p : Provider) : option error :=
  if maxPayloadSize p <? 1 then Some (newError ErrInvalidOptions "validate options" None false false) else None.

Record SendRequest := mkSendRequest {
  sr_QueueURL : bytes;
  sr_Bucket : bytes;
  sr_Key : bytes;
  sr_Payload : bytes;
  sr_ContentType : bytes;
  sr_EncryptionMetadata : option (gmap bytes bytes)
}.

Record SendResult := mkSendResult { MessageID : bytes; ResultEnvelope : Envelope }.

Definition validateSendRequest (p : Provider) (r : SendRequest) : option error :=
  let invalid := newError ErrInvalidRequest "validate request" None false false in
  if negb (validRequiredString (sr_QueueURL r) 2048) || negb (validRequiredString (sr_Bucket r) maxBucketSize) ||
     negb (validRequiredString (sr_Key r) maxObjectKeySize) then Some invalid
  else if maxPayloadSize p <? size (sr_Payload r)
  then Some (newError ErrPayloadTooLarge "validate request" None false false)
  else if negb (bool_decide (sr_ContentType r = [])) &&
          (negb (ValidString (sr_ContentType r)) || bool_decide (TrimSpace (runesOf (sr_ContentType r)) = []) ||
           (maxContentTypeSize <? size (sr_ContentType r))) then Some invalid
  else if maxMetadataEntries <? Z.of_nat (length (map_to_list (metadata (sr_EncryptionMetadata r)))) then Some invalid
  else if negb (metadataOk (sr_EncryptionMetadata r)) then Some invalid
  else None.

(** [Provider.MaxPayloadSize] and [Provider.MaxReceivePayloadSize]; a nil provider answers 0. *)
Definition MaxPayloadSize (p : option Provider) : Z := match p with None => 0 | Some p => maxPayloadSize p end.
Definition MaxReceivePayloadSize (p : option Provider) : Z := match p with None => 0 | Some p => maxReceivePayloadSize p end.

(** [hex.EncodeToString] *)
Definition hexEncode (b : bytes) : bytes := flat_map (λ x, [hexDigit (x / 16); hexDigit (x mod 16)]) b.

Definition payloadChecksum (payload : bytes) : bytes := hexEncode (sha256 payload).

Definition optionalString (value : bytes) : option bytes := if bool_decide (value = []) then None else Some value.

Definition putInputFor (r : SendRequest) : PutObjectInput :=
  mkPutInput (sr_Bucket r) (sr_Key r) (sr_Payload r) (size (sr_Payload r)) (optionalString (sr_ContentType r))
    (b64encode (sha256 (sr_Payload r))).

(** The envelope of a request. *)
Definition envelopeFor (r : SendRequest) : Envelope :=
  mkEnvelope EnvelopeVersion (sr_Bucket r) (sr_Key r) (size (sr_Payload r)) (payloadChecksum (sr_Payload r))
    (sr_ContentType r) (cloneMetadata (sr_EncryptionMetadata r)).

(** [if err := ctx.Err(); err != nil { return err }] *)
Definition unlessDone {A} (ctx : Context W) (onErr : error → result A) (k : Call W (result A)) : Call W (result A) :=
  err ← ctx_Err ctx;
  match err with Some err => mret (onErr err) | None => k end.

Definition Send (ctx : option (Context W)) (r : SendRequest) (p : Provider) : Call W (result SendResult) :=
  let ctx := orBackground ctx in
  unlessDone ctx Fail (
  match validateProvider p, validateSendRequest p r with
  | Some err, _ | None, Some err => mret (Fail err)
  | None, None =>
      let envelope := envelopeFor r in
      match EncodeEnvelope envelope with
      | Fail err => mret (Fail err)
      | Ok envelopeBody =>
          unlessDone ctx Fail (
          '(s3Output, callErr) ← PutObject (s3Client p) (putInputFor r);
          unlessDone ctx (λ err, Fail (newError ErrCanceled "put object" (Some err) true false)) (
          match callErr, s3Output with
          | Some callErr, _ => mret (Fail (newError ErrObjectPutFailed "put object" (Some callErr) s3Output false))
          | None, false => mret (Fail (newError ErrMalformedOutput "put object" None true false))
          | None, true =>
              unlessDone ctx (λ err, Fail (newError ErrCanceled "send message" (Some err) true false)) (
              '(output, callErr) ← SendMessage (sqsClient p) (sr_QueueURL r) envelopeBody;
              unlessDone ctx (λ err, Fail (newError ErrCanceled "send message" (Some err) true false)) (
              mret (match callErr, output with
                    | Some callErr, _ => Fail (newError ErrMessageSendFailed "send message" (Some callErr) true false)
                    | None, Some (Some id) =>
                        if validRequiredString id 128 then Ok (mkSendResult id envelope)
                        else Fail (newError ErrMalformedOutput "send message" None true false)
                    | None, _ => Fail (newError ErrMalformedOutput "send message" None true false)
                    end)))
          end))
      end
  end).

Record ReceiveRequest := mkReceiveRequest {
  rr_QueueURL : bytes;
  rr_MaxNumberOfMessages : Z;
  rr_VisibilityTimeout : Z;
  rr_WaitTimeSeconds : Z
}.

Record ReceivedMessage := mkReceived {
  rm_QueueURL : bytes;
  rm_MessageID : bytes;
  rm_ReceiptHandle : bytes;
  rm_Envelope : Envelope;
  rm_Payload : bytes
}.

(** [aws.ToString] *)
Definition toString (s : option bytes) : bytes := default [] s.

(** The first loop of [Receive]: the envelopes of the messages, within the
    budget of one call. *)
Fixpoint preflight (ctx : Context W) (p : Provider) (messages : list sqsMessage) (total : Z)
    (pending : list (sqsMessage * Envelope)) : Call W (result (list (sqsMessage * Envelope))) :=
  match messages with
  | [] => mret (Ok pending)
  | message :: rest =>
      unlessDone ctx Fail (
      let malformed := newError ErrMalformedOutput "receive" None false false in
      match m_body message with
      | None => mret (Fail malformed)
      | Some body =>
          if (size body =? 0) || (MaxEnvelopeSize <? size body) ||
             negb (validRequiredString (toString (m_messageId message)) 128) ||
             negb (validRequiredString (toString (m_receiptHandle message)) 1024)
          then mret (Fail malformed)
          else match DecodeEnvelope body with
               | Fail err => mret (Fail err)
               | Ok envelope =>
                   if (maxPayloadSize p <? ContentSize envelope) || (maxReceivePayloadSize p - total <? ContentSize envelope)
                   then mret (Fail (newError ErrPayloadTooLarge "receive" None false false))
                   else preflight ctx p rest (total + ContentSize envelope) (pending ++ [(message, envelope)])
               end
      end)
  end.

(** [readPayload]: at most one byte more than expected is read. *)
Definition readPayload (ctx : Context W) (output : option GetObjectOutput) (expected : Z) : Call W (result bytes) :=
  match output with
  | Some (mkObject (Some body) contentLength) =>
      if (expected <? 0) || (DefaultMaxPayloadSize <? expected)
      then mret (Fail (newError ErrPayloadTooLarge "read object" None false false))
      else
        let limit := Z.to_nat (expected + 1) in
        let payload := take limit (b_content body) in
        let readErr := if (limit <=? length (b_content body))%nat then None else b_readErr body in
        unlessDone ctx Fail (
        mret (match readErr, b_closeErr body with
              | Some err, _ | None, Some err => Fail (newError ErrObjectReadFailed "read object" (Some err) false false)
              | None, None =>
                  if match contentLength with Some n => negb (n =? size payload) | None => false end
                  then Fail (newError ErrPayloadSizeMismatch "read object" None false false)
                  else if negb (size payload =? expected)
                  then Fail (newError ErrPayloadSizeMismatch "read object" None false false)
                  else Ok payload
              end))
  | _ => mret (Fail (newError ErrMalformedOutput "get object" None false false))
  end.

(** The second loop of [Receive]: the objects, read and verified. *)
Fixpoint fetch (ctx : Context W) (p : Provider) (queueURL : bytes) (pending : list (sqsMessage * Envelope))
    (messages : list ReceivedMessage) : Call W (result (list ReceivedMessage)) :=
  match pending with
  | [] => unlessDone ctx Fail (mret (Ok messages))
  | (message, envelope) :: rest =>
      unlessDone ctx Fail (
      '(object, callErr) ← GetObject (s3Client p) (Bucket envelope) (Key envelope);
      unlessDone ctx Fail (
      match callErr with
      | Some callErr => mret (Fail (newError ErrObjectReadFailed "get object" (Some callErr) false false))
      | None =>
          payload ← readPayload ctx object (ContentSize envelope);
          match payload with
          | Fail err => mret (Fail err)
          | Ok payload =>
              if negb (bool_decide (payloadChecksum payload = Checksum envelope))
              then mret (Fail (newError ErrChecksumMismatch "receive" None false false))
              else fetch ctx p queueURL rest
                     (messages ++ [mkReceived queueURL (toString (m_messageId message)) (toString (m_receiptHandle message))
                                     envelope payload])
          end
      end))
  end.

Definition Receive (ctx : option (Context W)) (r : ReceiveRequest) (p : Provider) : Call W (result (list ReceivedMessage)) :=
  let ctx := orBackground ctx in
  unlessDone ctx Fail (
  match validateProvider p with
  | Some err => mret (Fail err)
  | None =>
      let maxMessages := if rr_MaxNumberOfMessages r =? 0 then 1 else rr_MaxNumberOfMessages r in
      if negb (validRequiredString (rr_QueueURL r) 2048) || (maxMessages <? 1) || (10 <? maxMessages) ||
         (rr_VisibilityTimeout r <? 0) || (43200 <? rr_VisibilityTimeout r) || (rr_WaitTimeSeconds r <? 0) ||
         (20 <? rr_WaitTimeSeconds r)
      then mret (Fail (newError ErrInvalidRequest "validate request" None false false))
      else
        unlessDone ctx Fail (
        '(output, callErr) ← ReceiveMessage (sqsClient p)
           (mkReceiveInput (rr_QueueURL r) maxMessages (rr_VisibilityTimeout r) (rr_WaitTimeSeconds r));
        unlessDone ctx Fail (
        match callErr, output with
        | Some callErr, _ => mret (Fail (newError ErrReceiveFailed "receive" (Some callErr) false false))
        | None, None => mret (Fail (newError ErrMalformedOutput "receive" None false false))
        | None, Some messages =>
            if maxMessages <? Z.of_nat (length messages)
            then mret (Fail (newError ErrMalformedOutput "receive" None false false))
            else
              pending ← preflight ctx p messages 0 [];
              match pending with
              | Fail err => mret (Fail err)
              | Ok pending => fetch ctx p (rr_QueueURL r) pending []
              end
        end))
  end).

Record DeleteRequest := mkDeleteRequest { dr_QueueURL : bytes; dr_ReceiptHandle : bytes; dr_Envelope : Envelope }.

(** An operation without a value. *)
Definition Delete (ctx : option (Context W)) (r : DeleteRequest) (p : Provider) : Call W (result unit) :=
  let ctx := orBackground ctx in
  unlessDone ctx Fail (
  match validateProvider p with
  | Some err => mret (Fail err)
  | None =>
      if negb (validRequiredString (dr_QueueURL r) 2048) || negb (validRequiredString (dr_ReceiptHandle r) 1024)
      then mret (Fail (newError ErrInvalidRequest "validate request" None false false))
      else match validateEnvelope (dr_Envelope r) with
           | Some err => mret (Fail err)
           | None =>
               unlessDone ctx Fail (
               '(sqsOutput, callErr) ← DeleteMessage (sqsClient p) (dr_QueueURL r) (dr_ReceiptHandle r);
               unlessDone ctx (λ err, Fail (newError ErrCanceled "delete message" (Some err) false true)) (
               match callErr, sqsOutput with
               | Some callErr, _ => mret (Fail (newError ErrMessageDeleteFailed "delete message" (Some callErr) false sqsOutput))
               | None, false => mret (Fail (newError ErrMalformedOutput "delete message" None false false))
               | None, true =>
                   unlessDone ctx (λ err, Fail (newError ErrCanceled "delete object" (Some err) false true)) (
                   '(s3Output, callErr) ← s3DeleteObject (s3Client p) (Bucket (dr_Envelope r)) (Key (dr_Envelope r));
                   unlessDone ctx (λ err, Fail (newError ErrCanceled "delete object" (Some err) false true)) (
                   mret (match callErr, s3Output with
                         | Some callErr, _ => Fail (newError ErrObjectDeleteFailed "delete object" (Some callErr) false true)
                         | None, false => Fail (newError ErrMalformedOutput "delete object" None false true)
                         | None, true => Ok tt
                         end)))
               end))
           end
  end).

(** [Provider.DeleteObject] *)
Definition DeleteObject (ctx : option (Context W)) (envelope : Envelope) (p : Provider) : Call W (result unit) :=
  let ctx := orBackground ctx in
  unlessDone ctx Fail (
  match validateProvider p, validateEnvelope envelope with
  | Some err, _ | None, Some err => mret (Fail err)
  | None, None =>
      unlessDone ctx Fail (
      '(output, callErr) ← s3DeleteObject (s3Client p) (Bucket envelope) (Key envelope);
      unlessDone ctx Fail (
      mret (match callErr, output with
            | Some callErr, _ => Fail (newError ErrObjectDeleteFailed "delete object" (Some callErr) false false)
            | None, false => Fail (newError ErrMalformedOutput "delete object" None false false)
            | None, true => Ok tt
            end)))
  end).
End provider.

(** ** The inspection ends *)

Lemma closing_shorter fin d ts rest : closing fin d ts = Ok rest → (length rest < length ts)%nat.
Proof. destruct ts as [|[c| |] ts]; cbn; try done. destruct (c =? d); [|done]. intros [= <-]. lia. Qed.

Lemma inspect_ends fuel fin :
  (∀ req ts, (2 * length ts < fuel)%nat →
    ∃ r, inspectJSONValue fuel fin req ts = Some r ∧ ∀ rest, r = Ok rest → (length rest < length ts)%nat) ∧
  (∀ seen ts, (2 * length ts < fuel)%nat →
    ∃ r, inspectObject fuel fin seen ts = Some r ∧ ∀ rest, r = Ok rest → (length rest < length ts)%nat) ∧
  (∀ ts, (2 * length ts + 1 < fuel)%nat →
    ∃ r, inspectArray fuel fin ts = Some r ∧ ∀ rest, r = Ok rest → (length rest < length ts)%nat).
Proof.
  induction fuel as [|fuel (IHv & IHo & IHa)]; [split; [|split]; intros; lia|]. split; [|split].
  - intros req ts Hf. cbn [inspectJSONValue]. destruct ts as [|t ts]; [by eexists|]. cbn in Hf.
    destruct t as [c| |]; [|by case_match; eexists; (split; [done|]); intros rest; [|intros [= <-]; cbn; lia]..].
    destruct (c =? 123).
    + destruct (IHo ∅ ts ltac:(lia)) as (r & -> & Hr). exists r. split; [done|]. intros rest E. specialize (Hr _ E). cbn. lia.
    + destruct (c =? 91); [|by eexists].
      destruct (IHa ts ltac:(lia)) as (r & -> & Hr). exists r. split; [done|]. intros rest E. specialize (Hr _ E). cbn. lia.
  - intros seen ts Hf. cbn [inspectObject]. destruct (noMore ts).
    { eexists. split; [done|]. intros rest E. by eapply closing_shorter. }
    destruct ts as [|[c|key|] ts]; try (by eexists). case_bool_decide; [by eexists|]. cbn in Hf.
    destruct (IHv false ts ltac:(lia)) as (r & -> & Hr). destruct r as [rest|e]; [|by eexists].
    specialize (Hr _ eq_refl). destruct (IHo ({[key]} ∪ seen) rest ltac:(lia)) as (r & -> & Hr').
    exists r. split; [done|]. intros rest' E. specialize (Hr' _ E). cbn. lia.
  - intros ts Hf. cbn [inspectArray]. destruct (noMore ts).
    { eexists. split; [done|]. intros rest E. by eapply closing_shorter. }
    destruct (IHv false ts ltac:(lia)) as (r & -> & Hr). destruct r as [rest|e]; [|by eexists].
    specialize (Hr _ eq_refl). destruct (IHa rest ltac:(lia)) as (r & -> & Hr').
    exists r. split; [done|]. intros rest' E. specialize (Hr' _ E). lia.
Qed.

Lemma inspect_total `{EnvelopeJSON} data : is_Some (decodeEnvelope data).
Proof.
  unfold decodeEnvelope, rejectDuplicateOrTrailingFields. destruct (_ || _); [done|].
  destruct (jsonTokens data) as [ts fin].
  destruct (proj1 (inspect_ends (S (2 * length ts)) fin) true ts ltac:(lia)) as (r & -> & _).
  destruct r as [[|? ?]|]; try done. by destruct (errors_Is fin "io.EOF").
Qed.

(** ** The envelope is canonical *)

Lemma cloneMetadata_id m : cloneMetadata m = m.
Proof.
  destruct m as [m|]; [|done]. cbn [cloneMetadata]. f_equal.
  apply (map_fold_weak_ind (λ acc m, acc = m)); [done|]. by intros i x m' r _ ->.
Qed.

Lemma withMetadata_same e : withMetadata e (EncryptionMetadata e) = e.
Proof. by destruct e. Qed.

(** An empty map of metadata is not written, and read as nil. *)
Definition normal (e : Envelope) : Envelope :=
  withMetadata e (if bool_decide (metadata (EncryptionMetadata e) = ∅) then None else EncryptionMetadata e).

Definition stringField (name : string) (value : bytes) : list token := [TString (lit name); TString value].

(** The tokens of an encoded envelope. *)
Definition envelopeTokens (e : Envelope) : list token :=
  [TDelim 123] ++ [TString (lit "version"); TValue] ++ stringField "bucket" (Bucket e) ++ stringField "key" (Key e) ++
  [TString (lit "content_size"); TValue] ++ stringField "checksum" (Checksum e) ++
  (match ContentType e with [] => [] | t => stringField "content_type" t end) ++
  (if bool_decide (metadata (EncryptionMetadata e) = ∅) then []
   else TString (lit "encryption_metadata") :: TDelim 123 ::
        flat_map (λ kv, [TString kv.1; TString kv.2]) (sortedEntries (metadata (EncryptionMetadata e))) ++ [TDelim 125]) ++
  [TDelim 125].

(** encoding/json reads back this envelope as it writes it. *)
Definition readsBack `{EnvelopeJSON} (e : Envelope) : Prop :=
  jsonTokens (jsonMarshal e) = (envelopeTokens e, Sentinel "io.EOF") ∧ jsonDecodeStrict (jsonMarshal e) = Ok (normal e).

Lemma marshal_normal e : jsonMarshal (normal e) = jsonMarshal e.
Proof.
  unfold normal. destruct (decide (metadata (EncryptionMetadata e) = ∅)) as [Hm|Hm].
  - rewrite (bool_decide_true _ Hm). unfold jsonMarshal.
    cbn [withMetadata Version Bucket Key ContentSize Checksum ContentType EncryptionMetadata].
    by rewrite Hm.
  - by rewrite (bool_decide_false _ Hm), withMetadata_same.
Qed.

Lemma validate_normal e : validateEnvelope (normal e) = validateEnvelope e.
Proof.
  unfold normal. destruct (decide (metadata (EncryptionMetadata e) = ∅)) as [Hm|Hm].
  - rewrite (bool_decide_true _ Hm). unfold validateEnvelope, metadataOk.
    cbn [withMetadata Version Bucket Key ContentSize Checksum ContentType EncryptionMetadata].
    by rewrite Hm.
  - by rewrite (bool_decide_false _ Hm), withMetadata_same.
Qed.

Lemma encode_normal e : EncodeEnvelope (normal e) = EncodeEnvelope e.
Proof. unfold EncodeEnvelope. by rewrite marshal_normal, validate_normal. Qed.

Lemma sortedEntries_keys m : (sortedEntries m).*1 = merge_sort text_le (elements (dom m)).
Proof.
  unfold sortedEntries. assert (∀ ks, Forall (λ k, k ∈ dom m) ks →
    (omap (λ k, (λ v, (k, v)) <$> m !! k) ks).*1 = ks) as Hk.
  { induction 1 as [|k ks Hk HF IH]; [done|]. cbn. apply elem_of_dom in Hk as [v Hv]. rewrite Hv. cbn. by rewrite IH. }
  apply Hk. apply Forall_forall. intros k Hin. rewrite merge_sort_Permutation in Hin. by apply elem_of_elements in Hin.
Qed.

Lemma sortedEntries_NoDup m : NoDup (sortedEntries m).*1.
Proof. rewrite sortedEntries_keys, merge_sort_Permutation. apply NoDup_elements. Qed.

(** A field with a string, or with a plain value, at the head of an object. *)
Lemma object_field fuel fin seen name t rest :
  name ∉ seen → (match t with TDelim _ => False | _ => True end) →
  inspectObject (S (S fuel)) fin seen (TString name :: t :: rest) = inspectObject (S fuel) fin ({[name]} ∪ seen) rest.
Proof.
  intros Hn Ht. cbn [inspectObject noMore]. rewrite bool_decide_false by done. by destruct t.
Qed.

Definition plain (kts : list (bytes * token)) : list token := flat_map (λ kt, [TString kt.1; kt.2]) kts.

Lemma object_plain fin (kts : list (bytes * token)) : ∀ fuel seen rest,
  NoDup kts.*1 → Forall (λ kt, kt.1 ∉ seen) kts → Forall (λ kt, match kt.2 with TDelim _ => False | _ => True end) kts →
  inspectObject (S (length kts + fuel)) fin seen (plain kts ++ rest) =
  inspectObject (S fuel) fin (list_to_set kts.*1 ∪ seen) rest.
Proof.
  induction kts as [|[k t] kts IH]; intros fuel seen rest Hnd Hs HF.
  - cbn [fmap list_fmap list_to_set]. by rewrite union_empty_l_L.
  - rewrite fmap_cons in Hnd |- *. apply NoDup_cons in Hnd as [Hk Hnd]. cbn [fst] in *.
    apply Forall_cons in Hs as [Hks Hs]. apply Forall_cons in HF as [Ht HF].
    cbn [length Nat.add]. change (plain ((k, t) :: kts) ++ rest) with (TString k :: t :: plain kts ++ rest).
    rewrite object_field by done. rewrite IH; [|done| |done].
    + f_equal. rewrite list_to_set_cons. set_solver.
    + rewrite Forall_forall in Hs |- *. intros kt Hkt. apply not_elem_of_union. split; [|by apply Hs].
      intros Heq%elem_of_singleton. apply Hk. rewrite <-Heq. by apply (list_elem_of_fmap_2 fst).
Qed.

Lemma length_plain kts : length (plain kts) = (2 * length kts)%nat.
Proof. induction kts as [|kt kts IH]; [done|]. cbn in *. unfold plain in IH. lia. Qed.

(** An object of plain fields only, read from its first field on. *)
Lemma object_plain_closed fin kts fuel seen rest :
  NoDup kts.*1 → Forall (λ kt, kt.1 ∉ seen) kts → Forall (λ kt, match kt.2 with TDelim _ => False | _ => True end) kts →
  (length kts < fuel)%nat →
  inspectObject fuel fin seen (plain kts ++ TDelim 125 :: rest) = Some (Ok rest).
Proof.
  intros Hnd Hs HF Hf. replace fuel with (S (length kts + (fuel - S (length kts))))%nat by lia.
  by rewrite object_plain.
Qed.

Definition plainFields (e : Envelope) : list (bytes * token) :=
  [(lit "version", TValue); (lit "bucket", TString (Bucket e)); (lit "key", TString (Key e)); (lit "content_size", TValue);
   (lit "checksum", TString (Checksum e))] ++
  match ContentType e with [] => [] | t => [(lit "content_type", TString t)] end.

Definition metadataFields (m : gmap bytes bytes) : list (bytes * token) := prod_map id TString <$> sortedEntries m.

Lemma plainFields_ok e :
  NoDup (plainFields e).*1 ∧ Forall (λ kt, match kt.2 with TDelim _ => False | _ => True end) (plainFields e) ∧
  lit "encryption_metadata" ∉ (plainFields e).*1.
Proof.
  unfold plainFields. destruct (ContentType e); (split; [|split]).
  all: try (repeat constructor; done).
  all: refine (bool_decide_unpack _ _); vm_compute; exact I.
Qed.

Lemma metadataFields_ok m :
  NoDup (metadataFields m).*1 ∧ Forall (λ kt, match kt.2 with TDelim _ => False | _ => True end) (metadataFields m).
Proof.
  unfold metadataFields. split.
  - rewrite <-list_fmap_compose. apply (sortedEntries_NoDup m).
  - apply Forall_fmap, Forall_true. by intros [].
Qed.

Lemma envelopeTokens_plain e :
  envelopeTokens e = TDelim 123 :: plain (plainFields e) ++
  (if bool_decide (metadata (EncryptionMetadata e) = ∅) then []
   else TString (lit "encryption_metadata") :: TDelim 123 ::
        plain (metadataFields (metadata (EncryptionMetadata e))) ++ [TDelim 125]) ++ [TDelim 125].
Proof.
  assert (∀ m, flat_map (λ kv : bytes * bytes, [TString kv.1; TString kv.2]) (sortedEntries m) = plain (metadataFields m)) as Hm.
  { intros m. unfold plain, metadataFields. induction (sortedEntries m) as [|kv kvs IH]; [done|]. cbn. by rewrite IH. }
  unfold envelopeTokens. rewrite Hm. unfold plainFields. destruct (ContentType e); reflexivity.
Qed.

Lemma inspect_envelope e :
  inspectJSONValue (S (2 * length (envelopeTokens e))) (Sentinel "io.EOF") true (envelopeTokens e) = Some (Ok []).
Proof.
  set (fin := Sentinel "io.EOF"). destruct (plainFields_ok e) as (Hnd & HF & Hname).
  destruct (metadataFields_ok (metadata (EncryptionMetadata e))) as (Hnd' & HF').
  rewrite envelopeTokens_plain. set (mf := metadataFields _) in *.
  assert (∀ kts, Forall (λ kt : bytes * token, kt.1 ∉ (∅ : gset bytes)) kts) as Hempty.
  { intros kts. apply Forall_true. intros kt. apply not_elem_of_empty. }
  case_bool_decide as Hm; cbn [length app]; rewrite !length_app, ?length_plain; cbn [length app];
    rewrite ?length_app, ?length_plain; cbn [length app].
  { match goal with |- inspectJSONValue (S ?n) _ _ _ = _ => set (f := n) end.
    cbn [inspectJSONValue]. change (123 =? 123) with true. cbv iota beta.
    apply object_plain_closed; try done. unfold f. lia. }
  match goal with |- inspectJSONValue (S ?n) _ _ _ = _ => set (f := n) end.
  cbn [inspectJSONValue]. change (123 =? 123) with true. cbv iota beta.
  assert (∃ g, f = S (length (plainFields e) + S (S g)) ∧ (length mf < g)%nat) as (g & -> & Hg).
  { exists (f - 3 - length (plainFields e))%nat. unfold f. lia. }
  rewrite object_plain by done.
  change (inspectObject (S (S (S g))) fin ?s ?ts) with (inspectObject (S (S (S g))) fin s ts).
  cbn [app inspectObject noMore]. rewrite bool_decide_false.
  2: { rewrite union_empty_r_L. by intros Hin%elem_of_list_to_set. }
  cbn [inspectJSONValue]. change (123 =? 123) with true. cbv iota beta.
  rewrite <-(app_assoc (plain mf)). cbn [app].
  rewrite object_plain_closed by (done || lia). done.
Qed.

(** ** Encoding and decoding *)

Lemma decode_Ok `{EnvelopeJSON} data e :
  DecodeEnvelope data = Ok e → EncodeEnvelope e = Ok data ∧ jsonDecodeStrict data = Ok e.
Proof.
  unfold DecodeEnvelope, decodeEnvelope. destruct (_ || _); [done|].
  destruct (rejectDuplicateOrTrailingFields data) as [[?|]|]; cbn [default]; try done.
  destruct (jsonDecodeStrict data) as [e'|] eqn:Hd; [|done]. destruct (validateEnvelope e'); [done|].
  destruct (EncodeEnvelope e') as [canonical|] eqn:He; [|done]. case_bool_decide as Hc; [|done]. cbn [negb].
  intros [= <-]. rewrite cloneMetadata_id, withMetadata_same. by subst.
Qed.

Lemma encode_Ok e data :
  EncodeEnvelope e = Ok data ↔ validateEnvelope e = None ∧ data = jsonMarshal e ∧ size data ≤ MaxEnvelopeSize.
Proof.
  unfold EncodeEnvelope. destruct (validateEnvelope e); [naive_solver|].
  destruct (Z.ltb_spec MaxEnvelopeSize (size (jsonMarshal e))); split; try done.
  - intros (_ & -> & ?). lia.
  - by intros [= <-].
  - by intros (_ & -> & _).
Qed.

Lemma marshal_nonempty e : size (jsonMarshal e) ≠ 0.
Proof. unfold jsonMarshal, size. rewrite length_app. cbn [lit length String.list_ascii_of_string map]. lia. Qed.

(** An encoded envelope is read as the envelope in normal form. *)
Lemma decode_encode `{EnvelopeJSON} e data :
  readsBack e → EncodeEnvelope e = Ok data → DecodeEnvelope data = Ok (normal e).
Proof.
  intros [Ht Hd] He. pose proof He as (Hv & -> & Hs)%encode_Ok.
  unfold DecodeEnvelope, decodeEnvelope, rejectDuplicateOrTrailingFields.
  rewrite (proj2 (Z.eqb_neq _ _) (marshal_nonempty e)), (proj2 (Z.ltb_ge _ _) Hs). cbn [orb].
  rewrite Ht, inspect_envelope. change (errors_Is (Sentinel "io.EOF") "io.EOF") with true. cbv iota.
  rewrite Hd, validate_normal, Hv, encode_normal, He, bool_decide_true by done. cbn [negb default].
  by rewrite cloneMetadata_id, withMetadata_same.
Qed.

(** ** What large messages promise

    Theorems on src/messaging/sqsextended/provider.go: what [Receive] delivers is
    verified whatever the services answer, a payload that was sent is received
    again, and the services are called in an order that never leaves a message
    without its object. *)

(** ** The envelope format *)

(** The envelope format is canonical: a body is read as an envelope exactly
    when it is the encoding of that envelope with empty metadata written as nil,
    so two bodies never stand for the same envelope, and an encoded envelope is
    read back. *)
Theorem sqs_envelope_canonical `{EnvelopeJSON} data e :
  readsBack e → (DecodeEnvelope data = Ok e ↔ EncodeEnvelope e = Ok data ∧ normal e = e).
Proof.
  intros Hr. split.
  - intros [He Hd]%decode_Ok. split; [done|]. apply encode_Ok in He as (_ & -> & _).
    destruct Hr as [_ Hr]. rewrite Hr in Hd. by injection Hd.
  - intros [He Hn]. rewrite <-Hn. by apply decode_encode.
Qed.

(** ** Symbolic execution *)

(** An observation of the context. *)
Lemma cwp_unlessDone {W A} (ctx : Context W) onErr (k : Call W (result A)) Q w :
  (∀ err w', Q (onErr err) w') → (∀ w', cwp k Q w') → cwp (unlessDone ctx onErr k) Q w.
Proof. intros Hf Hk. apply cwp_bind, cwp_any. intros [err|] w' _; [apply cwp_ret, Hf|apply Hk]. Qed.

(** ** What is received is verified *)

Section verified.
Context {W : Type} `{EnvelopeJSON} (sha256 : bytes → bytes) (p : Provider (W := W)).

(** The first loop: the message and the canonical envelope of its body. *)
Definition inspected (message : sqsMessage) (item : sqsMessage * Envelope) : Prop :=
  item.1 = message ∧ (∃ body, m_body message = Some body ∧ DecodeEnvelope body = Ok item.2) ∧
  ContentSize item.2 ≤ maxPayloadSize p.

Definition total (es : list Envelope) : Z := foldr (λ e n, ContentSize e + n) 0 es.

Lemma preflight_spec ctx messages : ∀ sum pending w, sum ≤ maxReceivePayloadSize p →
  cwp (preflight ctx p messages sum pending) (λ r _, ∀ out, r = Ok out →
    ∃ new, out = pending ++ new ∧ Forall2 inspected messages new ∧ sum + total new.*2 ≤ maxReceivePayloadSize p) w.
Proof.
  induction messages as [|message rest IH]; intros sum pending w Hsum; cbn [preflight].
  { apply cwp_ret. intros out [= <-]. exists []. rewrite app_nil_r. cbn. split; [done|]. split; [constructor|lia]. }
  apply cwp_unlessDone; [done|]. intros w1. destruct (m_body message) as [body|] eqn:Hb; [|by apply cwp_ret].
  destruct (_ || _ || _ || _); [by apply cwp_ret|].
  destruct (DecodeEnvelope body) as [e|] eqn:He; [|by apply cwp_ret].
  destruct (_ || _) eqn:Hlim; [by apply cwp_ret|]. bools.
  eapply cwp_mono; [apply IH; lia|]. cbn beta. intros r w2 Hr out Hout.
  destruct (Hr out Hout) as (new & -> & HF & Ht). exists ((message, e) :: new). rewrite <-app_assoc.
  split; [done|]. split; [|change (total _) with (ContentSize e + total new.*2); lia]. constructor; [|done]. split; [done|]. cbn. split; [by exists body|lia].
Qed.

Lemma readPayload_spec (ctx : Context W) object expected w :
  cwp (readPayload ctx object expected) (λ r _, ∀ payload, r = Ok payload → size payload = expected) w.
Proof.
  unfold readPayload. destruct object as [[[body|] len]|]; try (by apply cwp_ret).
  destruct (_ || _); [by apply cwp_ret|]. apply cwp_unlessDone; [done|]. intros w1. apply cwp_ret.
  set (payload := take _ _). destruct (if (_ <=? _)%nat then None else b_readErr body); [done|].
  destruct (b_closeErr body); [done|]. destruct (match len with Some n => _ | None => false end); [done|].
  destruct (size payload =? expected) eqn:Hs; [|done]. cbn [negb]. intros q [= <-]. by bools.
Qed.

(** The second loop: the payload has the size and the checksum of the envelope. *)
Definition fetched (queueURL : bytes) (item : sqsMessage * Envelope) (m : ReceivedMessage) : Prop :=
  m = mkReceived queueURL (toString (m_messageId item.1)) (toString (m_receiptHandle item.1)) item.2 (rm_Payload m) ∧
  size (rm_Payload m) = ContentSize item.2 ∧ payloadChecksum sha256 (rm_Payload m) = Checksum item.2.

Lemma fetch_spec ctx url pending : ∀ messages w,
  cwp (fetch sha256 ctx p url pending messages) (λ r _, ∀ out, r = Ok out →
    ∃ new, out = messages ++ new ∧ Forall2 (fetched url) pending new) w.
Proof.
  induction pending as [|[message e] rest IH]; intros messages w; cbn [fetch].
  { apply cwp_unlessDone; [done|]. intros w1. apply cwp_ret. intros out [= <-]. exists []. by rewrite app_nil_r. }
  apply cwp_unlessDone; [done|]. intros w1. apply cwp_bind, cwp_any. intros [object callErr] w2 _.
  apply cwp_unlessDone; [done|]. intros w3. destruct callErr; [by apply cwp_ret|].
  apply cwp_bind. eapply cwp_mono; [apply readPayload_spec|]. cbn beta. intros [payload|] w4 Hp; [|by apply cwp_ret].
  case_bool_decide as Hc; cbn [negb]; [|by apply cwp_ret].
  eapply cwp_mono; [apply IH|]. cbn beta. intros r w5 Hr out Hout. destruct (Hr out Hout) as (new & -> & HF).
  eexists (_ :: new). rewrite <-app_assoc. split; [done|]. constructor; [|done]. split; [done|]. cbn. auto.
Qed.

(** A message of the queue and what is delivered for it. *)
Definition delivered (queueURL : bytes) (message : sqsMessage) (m : ReceivedMessage) : Prop :=
  (∃ body, m_body message = Some body ∧ EncodeEnvelope (rm_Envelope m) = Ok body) ∧
  rm_QueueURL m = queueURL ∧ rm_MessageID m = toString (m_messageId message) ∧
  rm_ReceiptHandle m = toString (m_receiptHandle message) ∧
  size (rm_Payload m) = ContentSize (rm_Envelope m) ∧ size (rm_Payload m) ≤ maxPayloadSize p ∧
  hexEncode (sha256 (rm_Payload m)) = Checksum (rm_Envelope m).

Lemma delivered_all url answer pending messages :
  Forall2 inspected answer pending → Forall2 (fetched url) pending messages →
  Forall2 (delivered url) answer messages ∧ total pending.*2 = foldr (λ m n, size (rm_Payload m) + n) 0 messages.
Proof.
  intros H1. revert messages. induction H1 as [|message [message' e] answer pending Hi H1 IH]; intros messages H2.
  { inversion H2. by split. }
  inversion H2 as [|? m ? ms Hf HF]; subst. destruct (IH _ HF) as [Hd Ht].
  destruct Hi as (Heq & (body & Hb & He) & Hle). cbn in Heq, Hle, He. subst message'. destruct Hf as (Hm & Hsz & Hck). cbn [fst snd] in *.
  split; [|change (ContentSize e + total pending.*2 = size (rm_Payload m) + foldr (λ m n, size (rm_Payload m) + n) 0 ms); lia].
  constructor; [|done]. apply decode_Ok in He as [He _].
  split; [exists body; by rewrite Hm|]. unfold payloadChecksum in Hck. rewrite Hm. cbn. repeat split; try done. by rewrite Hsz.
Qed.
End verified.

Lemma New_limits {W} (options : Options (W := W)) p :
  New options = Ok p →
  1 ≤ maxPayloadSize p ∧ 0 ≤ maxReceivePayloadSize p ∧ maxPayloadSize p ≤ maxReceivePayloadSize p ∧
  maxPayloadSize p ≤ DefaultMaxPayloadSize.
Proof.
  unfold New. destruct (optSQS options), (optS3 options); try done. cbv zeta.
  set (a := if optMaxPayloadSize options =? 0 then _ else _).
  set (b := if optMaxReceivePayloadSize options =? 0 then _ else _).
  destruct ((a <? 1) || (DefaultMaxPayloadSize <? a)) eqn:H1; [done|].
  destruct ((b <? a) || (DefaultMaxReceivePayloadSize <? b)) eqn:H2; [done|].
  intros [= <-]. cbn [maxPayloadSize maxReceivePayloadSize]. bools. lia.
Qed.

(** The input of [ReceiveMessage]: one message unless the caller asks for more. *)
Definition receiveInput (r : ReceiveRequest) : ReceiveMessageInput :=
  mkReceiveInput (rr_QueueURL r) (if rr_MaxNumberOfMessages r =? 0 then 1 else rr_MaxNumberOfMessages r)
    (rr_VisibilityTimeout r) (rr_WaitTimeSeconds r).

(** C17. What [Receive] delivers is verified, whatever SQS, S3 and the context do:
    it delivers every message of the answer of SQS, in order and at most ten; the
    body of each is the canonical encoding of the envelope that is delivered, the
    payload has exactly the size and the SHA-256 checksum that envelope says and is
    within the limit of the provider, and all payloads together are within the
    limit of one call. *)
Theorem sqs_receive_verified {W} `{EnvelopeJSON} (sha256 : bytes → bytes) (options : Options (W := W)) p ctx r w messages w' :
  New options = Ok p → Receive sha256 ctx r p w = (Ok messages, w') →
  ∃ w1 answer w2, ReceiveMessage (sqsClient p) (receiveInput r) w1 = ((Some answer, None), w2) ∧
    Forall2 (delivered sha256 p (rr_QueueURL r)) answer messages ∧ (length messages ≤ 10)%nat ∧
    foldr (λ m n, size (rm_Payload m) + n) 0 messages ≤ maxReceivePayloadSize p.
Proof.
  intros (_ & Hpos & _)%New_limits Hrun.
  enough (cwp (Receive sha256 ctx r p) (λ res _, ∀ messages, res = Ok messages →
    ∃ w1 answer w2, ReceiveMessage (sqsClient p) (receiveInput r) w1 = ((Some answer, None), w2) ∧
    Forall2 (delivered sha256 p (rr_QueueURL r)) answer messages ∧ (length messages ≤ 10)%nat ∧
    foldr (λ m n, size (rm_Payload m) + n) 0 messages ≤ maxReceivePayloadSize p) w) as Hc.
  { unfold cwp in Hc. rewrite Hrun in Hc. by apply Hc. }
  apply cwp_unlessDone; [done|]. intros w1. destruct (validateProvider p); [by apply cwp_ret|].
  cbv zeta. set (n := if rr_MaxNumberOfMessages r =? 0 then 1 else _). destruct (_ || _) eqn:Hreq; [by apply cwp_ret|].
  apply cwp_unlessDone; [done|]. intros w2. apply cwp_bind, cwp_any. intros [answer callErr] w3 Hans.
  apply cwp_unlessDone; [done|]. intros w4. destruct callErr; [by apply cwp_ret|].
  destruct answer as [answer|]; [|by apply cwp_ret]. destruct (n <? Z.of_nat (length answer)) eqn:Hn; [by apply cwp_ret|].
  apply cwp_bind. eapply cwp_mono; [by apply preflight_spec|]. cbn beta. intros [pending|] w5 Hp; [|by apply cwp_ret].
  destruct (Hp _ eq_refl) as (new & -> & Hi & Ht). cbn [app] in *.
  eapply cwp_mono; [apply fetch_spec|]. cbn beta. intros res w6 Hf out Hout. destruct (Hf _ Hout) as (ms & -> & HF).
  cbn [app]. destruct (delivered_all _ _ _ _ _ _ Hi HF) as [Hd Hsum].
  exists w2, answer, w3. split; [done|]. split; [done|]. rewrite <-(Forall2_length _ _ _ Hd). bools. split; [lia|lia].
Qed.

(** ** A payload that was sent is received *)

(** An answer of GetObject that broke off: an error, or a body that ends early or
    fails to close. *)
Definition faulty (content : bytes) (answer : option GetObjectOutput * option error) : Prop :=
  match answer.2, answer.1 with
  | Some _, _ => True
  | None, Some (mkObject (Some body) _) =>
      b_content body `prefix_of` content ∧ (is_Some (b_readErr body) ∨ is_Some (b_closeErr body))
  | None, _ => False
  end.

(** The answer that hands out the whole object; its length may be missing. *)
Definition whole (content : bytes) (answer : option GetObjectOutput * option error) : Prop :=
  ∃ length, answer = (Some (mkObject (Some (mkBody content None None)) length), None) ∧
    (length = None ∨ length = Some (size content)).

(** A store that keeps what it confirms and is not touched by reading it or by
    the queue.  Reading an object may fail at any time. *)
Class ObjectStore {W} (p : Provider (W := W)) (stored : W → bytes → bytes → option bytes) : Prop := {
  store_put : ∀ input w w', PutObject (s3Client p) input w = ((true, None), w') →
    stored w' (pi_bucket input) (pi_key input) = Some (pi_body input);
  store_get : ∀ bucket key content w, stored w bucket key = Some content →
    let '(answer, w') := GetObject (s3Client p) bucket key w in
    stored w' = stored w ∧ (faulty content answer ∨ whole content answer);
  store_send : ∀ url body w, stored (SendMessage (sqsClient p) url body w).2 = stored w;
  store_receive : ∀ input w, stored (ReceiveMessage (sqsClient p) input w).2 = stored w
}.

(** Observing the context does not change the store. *)
Definition observes {W} (ctx : option (Context W)) (stored : W → bytes → bytes → option bytes) : Prop :=
  ∀ w, stored (ctx_Err (orBackground ctx) w).2 = stored w.

(** The context is done with this error. *)
Definition doneWith {W} (ctx : option (Context W)) (err : error) : Prop :=
  ∃ w, (ctx_Err (orBackground ctx) w).1 = Some err.

(** A message of the queue that carries the encoding of the envelope of a request. *)
Record letter := mkLetter { l_request : SendRequest; l_body : bytes; l_id : bytes; l_handle : bytes }.

Definition letterMessage (l : letter) : sqsMessage := mkMessage (Some (l_body l)) (Some (l_id l)) (Some (l_handle l)).

(** What [Receive] has to return for it. *)
Definition letterReceived (sha256 : bytes → bytes) (url : bytes) (l : letter) : ReceivedMessage :=
  mkReceived url (l_id l) (l_handle l) (normal (envelopeFor sha256 (l_request l))) (sr_Payload (l_request l)).

Definition letterSize (l : letter) : Z := size (sr_Payload (l_request l)).

(** The letter is well formed, and its object is still stored. *)
Definition intact {W} `{EnvelopeJSON} (sha256 : bytes → bytes) (p : Provider (W := W))
    (stored : bytes → bytes → option bytes) (l : letter) : Prop :=
  EncodeEnvelope (envelopeFor sha256 (l_request l)) = Ok (l_body l) ∧ readsBack (envelopeFor sha256 (l_request l)) ∧
  validRequiredString (l_id l) 128 = true ∧ validRequiredString (l_handle l) 1024 = true ∧
  letterSize l ≤ maxPayloadSize p ∧
  stored (sr_Bucket (l_request l)) (sr_Key (l_request l)) = Some (sr_Payload (l_request l)).

Lemma cwp_observed {W A} (ctx : option (Context W)) stored onErr (k : Call W (result A)) Q w :
  observes ctx stored → (∀ err w', doneWith ctx err → Q (onErr err) w') → (∀ w', stored w' = stored w → cwp k Q w') →
  cwp (unlessDone (orBackground ctx) onErr k) Q w.
Proof.
  intros Ho Hf Hk. apply cwp_bind, cwp_any. intros [err|] w' E.
  - apply cwp_ret, Hf. exists w. by rewrite E.
  - apply Hk. specialize (Ho w). by rewrite E in Ho.
Qed.

Section roundtrip.
Context {W : Type} `{EnvelopeJSON} (sha256 : bytes → bytes) (p : Provider (W := W)).
Context (stored : W → bytes → bytes → option bytes) `{!ObjectStore p stored}.

(** After a successful [Send] the store holds the payload the envelope is about. *)
Lemma Send_stored ctx r w : observes ctx stored →
  cwp (Send sha256 ctx r p) (λ out w', ∀ res, out = Ok res →
    stored w' (sr_Bucket r) (sr_Key r) = Some (sr_Payload r) ∧ ResultEnvelope res = envelopeFor sha256 r ∧
    size (sr_Payload r) ≤ maxPayloadSize p ∧ ∃ body, EncodeEnvelope (envelopeFor sha256 r) = Ok body) w.
Proof.
  intros Ho. unfold Send. cbv zeta. apply (cwp_observed ctx stored); [done..|]. intros w1 H1.
  destruct (validateProvider p); [by apply cwp_ret|]. destruct (validateSendRequest p r) eqn:Hv; [by apply cwp_ret|].
  assert (size (sr_Payload r) ≤ maxPayloadSize p) as Hsz.
  { revert Hv. unfold validateSendRequest. cbv zeta. destruct (_ || _ || _); [done|].
    destruct (maxPayloadSize p <? size (sr_Payload r)) eqn:Hs; [done|]. intros _. by bools. }
  destruct (EncodeEnvelope (envelopeFor sha256 r)) as [body|] eqn:He; [|by apply cwp_ret].
  apply (cwp_observed ctx stored); [done..|]. intros w2 H2. apply cwp_bind, cwp_any. intros [out callErr] w3 Hput.
  apply (cwp_observed ctx stored); [done..|]. intros w4 H4. destruct callErr; [by apply cwp_ret|].
  destruct out; [|by apply cwp_ret]. apply store_put in Hput. cbn in Hput.
  apply (cwp_observed ctx stored); [done..|]. intros w5 H5. apply cwp_bind, cwp_any. intros [out callErr] w6 Hsend.
  pose proof (store_send (sr_QueueURL r) body w5) as Hs. rewrite Hsend in Hs. cbn in Hs.
  apply (cwp_observed ctx stored); [done..|]. intros w7 H7. apply cwp_ret. intros res Hres.
  destruct callErr; [done|]. destruct out as [[id|]|]; try done. destruct (validRequiredString id 128); [|done].
  injection Hres as <-. cbn. split; [by rewrite H7, Hs, H5, H4|]. split; [done|]. split; [done|]. by exists body.
Qed.

Lemma validateProvider_None (q : Provider (W := W)) : validateProvider q = None ↔ 1 ≤ maxPayloadSize q.
Proof. unfold validateProvider. destruct (Z.ltb_spec (maxPayloadSize q) 1); naive_solver lia. Qed.

(** A result that is good, or an error of the context or of reading an object. *)
Definition orDisturbed {A} (ctx : option (Context W)) (letters : list letter) (good : A → W → Prop) (r : result A) (w' : W) : Prop :=
  match r with
  | Ok a => good a w'
  | Fail err => doneWith ctx err ∨
      errors_Is err ErrObjectReadFailed = true ∧ ∃ l w, l ∈ letters ∧
        faulty (sr_Payload (l_request l)) (GetObject (s3Client p) (sr_Bucket (l_request l)) (sr_Key (l_request l)) w).1
  end.

Lemma orDisturbed_mono {A} ctx letters letters' (good good' : A → W → Prop) r w :
  letters ⊆ letters' → (∀ a, good a w → good' a w) → orDisturbed ctx letters good r w → orDisturbed ctx letters' good' r w.
Proof. intros Hl Hg. destruct r as [a|err]; cbn; [auto|]. intros [Hd|(He & l & w' & Hin & Hf)]; [by left|right; eauto 10]. Qed.

(** An observation of the context on the way to a good result. *)
Lemma cwp_undisturbed {A} ctx letters good (k : Call W (result A)) w :
  observes ctx stored → (∀ w', stored w' = stored w → cwp k (orDisturbed ctx letters good) w') →
  cwp (unlessDone (orBackground ctx) Fail k) (orDisturbed ctx letters good) w.
Proof. intros Ho Hk. apply (cwp_observed ctx stored); [done| |done]. by left. Qed.

Definition letterPending (l : letter) : sqsMessage * Envelope := (letterMessage l, normal (envelopeFor sha256 (l_request l))).

Lemma preflight_letters ctx letters : ∀ sum pending w, observes ctx stored → Forall (intact sha256 p (stored w)) letters →
  0 ≤ sum → sum + foldr (λ l n, letterSize l + n) 0 letters ≤ maxReceivePayloadSize p →
  cwp (preflight (orBackground ctx) p (letterMessage <$> letters) sum pending)
    (orDisturbed ctx [] (λ out w', stored w' = stored w ∧ out = pending ++ (letterPending <$> letters))) w.
Proof.
  induction letters as [|l letters IH]; intros sum pending w Ho HF Hpos Hsum; cbn [preflight fmap list_fmap].
  { apply cwp_ret. cbn. by rewrite app_nil_r. }
  inversion HF as [|? ? (He & Hrb & Hid & Hh & Hsz & Hst) HF']; subst. cbn [foldr] in Hsum.
  assert (0 ≤ foldr (λ l n, letterSize l + n) 0 letters) as Hrest.
  { clear. induction letters; cbn; unfold letterSize, size in *; lia. }
  assert (0 ≤ letterSize l) as H0 by (unfold letterSize, size; lia).
  pose proof He as (Hval & Hm & Hbody)%encode_Ok.
  assert (DecodeEnvelope (l_body l) = Ok (normal (envelopeFor sha256 (l_request l)))) as Hdec by (by apply decode_encode).
  assert (size (l_body l) ≠ 0) as Hb0 by (rewrite Hm; apply marshal_nonempty).
  apply cwp_undisturbed; [done|]. intros w1 H1. cbv zeta.
  cbn [letterMessage m_body m_messageId m_receiptHandle]. change (toString (Some (l_id l))) with (l_id l).
  change (toString (Some (l_handle l))) with (l_handle l).
  rewrite (proj2 (Z.eqb_neq _ _) Hb0), (proj2 (Z.ltb_ge _ _) Hbody), Hid, Hh, Hdec. cbn [negb orb].
  change (ContentSize (normal _)) with (letterSize l). rewrite !(proj2 (Z.ltb_ge _ _)) by lia. cbn [orb].
  rewrite <-H1 in HF'. eapply cwp_mono; [apply IH; [done|done|lia|lia]|]. cbn beta. intros r w2. apply orDisturbed_mono; [done|].
  intros out [Hs ->]. by rewrite <-app_assoc, Hs.
Qed.

(** What reading the body of an answer gives. *)
Lemma readPayload_whole ctx content answer w :
  size content ≤ DefaultMaxPayloadSize → observes ctx stored → faulty content answer ∨ whole content answer → answer.2 = None →
  cwp (readPayload (orBackground ctx) answer.1 (size content)) (λ r w',
    match r with
    | Ok payload => stored w' = stored w ∧ payload = content
    | Fail err => doneWith ctx err ∨ errors_Is err ErrObjectReadFailed = true ∧ faulty content answer
    end) w.
Proof.
  intros Hle Ho Ha Hnone. destruct answer as [object callErr]. cbn in Hnone. subst callErr. cbn [fst].
  assert (0 ≤ size content) as H0 by (unfold size; lia).
  assert (∃ body len, object = Some (mkObject (Some body) len) ∧ b_content body `prefix_of` content) as (body & len & -> & Hpre).
  { destruct Ha as [Hf|(len & [= ->] & _)]; [|by eexists _, len].
    cbn in Hf. destruct object as [[[body|] len]|]; try done. eexists _, _. split; [done|apply Hf]. }
  unfold readPayload. rewrite (proj2 (Z.ltb_ge _ _) H0), (proj2 (Z.ltb_ge _ _) Hle). cbn [orb].
  assert (length (b_content body) < Z.to_nat (size content + 1))%nat as Hlen.
  { apply prefix_length in Hpre. unfold size. lia. }
  rewrite (proj2 (Nat.leb_gt _ _) Hlen), take_ge by lia.
  apply (cwp_observed ctx stored); [done|by left|]. intros w1 H1. apply cwp_ret.
  destruct (b_readErr body) eqn:Hr; [|destruct (b_closeErr body) eqn:Hc].
  1,2: right; split; [done|]; cbn; split; [done|]; rewrite Hr; try rewrite Hc; eauto.
  destruct Ha as [Hf|(len' & [= -> ->] & Hlen')].
  - cbn in Hf. rewrite Hr, Hc in Hf. destruct Hf as [_ [[? ?]|[? ?]]]; done.
  - cbn [b_content]. rewrite Z.eqb_refl. destruct Hlen' as [->| ->]; [done|]. by rewrite Z.eqb_refl.
Qed.

Lemma fetch_letters ctx url letters : ∀ messages w, observes ctx stored → maxPayloadSize p ≤ DefaultMaxPayloadSize →
  Forall (intact sha256 p (stored w)) letters →
  cwp (fetch sha256 (orBackground ctx) p url (letterPending <$> letters) messages)
    (orDisturbed ctx letters (λ out _, out = messages ++ (letterReceived sha256 url <$> letters))) w.
Proof.
  induction letters as [|l letters IH]; intros messages w Ho Hmax HF; cbn [fetch fmap list_fmap letterPending].
  { apply cwp_undisturbed; [done|]. intros w1 _. apply cwp_ret. cbn. by rewrite app_nil_r. }
  inversion HF as [|? ? (He & Hrb & Hid & Hh & Hsz & Hst) HF']; subst.
  change (Bucket (normal _)) with (sr_Bucket (l_request l)). change (Key (normal _)) with (sr_Key (l_request l)).
  change (ContentSize (normal _)) with (letterSize l).
  change (Checksum (normal _)) with (payloadChecksum sha256 (sr_Payload (l_request l))).
  apply cwp_undisturbed; [done|]. intros w1 H1. apply cwp_bind, cwp_any. intros [object callErr] w2 Hget.
  rewrite <-H1 in Hst. pose proof (store_get _ _ _ w1 Hst) as Hstore. rewrite Hget in Hstore. destruct Hstore as [H2 Ha].
  assert (∀ err w', errors_Is err ErrObjectReadFailed = true → faulty (sr_Payload (l_request l)) (object, callErr) →
    orDisturbed ctx (l :: letters) (λ out _, out = messages ++ letterReceived sha256 url l :: (letterReceived sha256 url <$> letters))
      (Fail err) w') as Hfail.
  { intros err w' Herr Hf. right. split; [done|]. exists l, w1. split; [by left|]. by rewrite Hget. }
  apply cwp_undisturbed; [done|]. intros w3 H3. destruct callErr as [callErr|]; [apply cwp_ret, Hfail; done|].
  apply cwp_bind. eapply cwp_mono; [apply (readPayload_whole ctx _ (object, None)); [unfold letterSize in Hsz; lia|done|done|done]|].
  cbn beta. intros [payload|err] w4 Hp; [|destruct Hp as [Hd|[Hi Hf]]; [apply cwp_ret; by left|apply cwp_ret, Hfail; done]].
  destruct Hp as [H4 ->]. rewrite bool_decide_true by done. cbn [negb].
  rewrite <-H1, <-H2, <-H3, <-H4 in HF'.
  eapply cwp_mono; [apply (IH _ w4); done|]. cbn beta. intros r w5. apply orDisturbed_mono; [by intros x Hx; right|].
  intros out ->. by rewrite <-app_assoc.
Qed.

(** The world in which SQS is asked: the context has been observed twice. *)
Definition asked (ctx : option (Context W)) (w : W) : W := (ctx_Err (orBackground ctx) (ctx_Err (orBackground ctx) w).2).2.

Lemma Receive_letters ctx rr letters w w1 :
  1 ≤ maxPayloadSize p ≤ DefaultMaxPayloadSize → observes ctx stored →
  validRequiredString (rr_QueueURL rr) 2048 = true → 0 ≤ rr_MaxNumberOfMessages rr ≤ 10 →
  0 ≤ rr_VisibilityTimeout rr ≤ 43200 → 0 ≤ rr_WaitTimeSeconds rr ≤ 20 →
  Forall (intact sha256 p (stored w)) letters → Z.of_nat (length letters) ≤ i_maxMessages (receiveInput rr) →
  foldr (λ l n, letterSize l + n) 0 letters ≤ maxReceivePayloadSize p →
  ReceiveMessage (sqsClient p) (receiveInput rr) (asked ctx w) = ((Some (letterMessage <$> letters), None), w1) →
  cwp (Receive sha256 ctx rr p) (orDisturbed ctx letters (λ out _, out = letterReceived sha256 (rr_QueueURL rr) <$> letters)) w.
Proof.
  intros [Hp Hmax] Ho Hq Hn Hvt Hwt HF Hlen Hsum Hrecv.
  assert (∀ w, stored (ctx_Err (orBackground ctx) w).2 = stored w) as Hobs by apply Ho.
  assert (stored w1 = stored w) as Hw1.
  { pose proof (store_receive (receiveInput rr) (asked ctx w)) as Hw. rewrite Hrecv in Hw. cbn in Hw.
    by rewrite Hw; unfold asked; rewrite !Hobs. }
  unfold Receive. cbv zeta. rewrite (proj2 (validateProvider_None p) Hp), Hq. cbn [negb orb]. fold (receiveInput rr).
  change (i_maxMessages (receiveInput rr)) with (if rr_MaxNumberOfMessages rr =? 0 then 1 else rr_MaxNumberOfMessages rr) in Hlen.
  set (n := if rr_MaxNumberOfMessages rr =? 0 then 1 else _) in *.
  assert (1 ≤ n ≤ 10) as Hn10 by (unfold n; destruct (Z.eqb_spec (rr_MaxNumberOfMessages rr) 0); lia).
  rewrite !(proj2 (Z.ltb_ge _ _)) by lia. cbn [orb].
  unfold asked in Hrecv.
  apply cwp_bind, cwp_any. intros [err|] wa Ea; [apply cwp_ret; left; exists w; by rewrite Ea|]. rewrite Ea in Hrecv.
  apply cwp_bind, cwp_any. cbn [snd] in Hrecv. intros [err|] wb Eb; [apply cwp_ret; left; exists wa; by rewrite Eb|].
  rewrite Eb in Hrecv. cbn [snd] in Hrecv. apply cwp_bind. unfold cwp at 1. rewrite Hrecv. cbn [fst snd].
  apply cwp_undisturbed; [done|]. intros w2 H2. rewrite length_fmap, (proj2 (Z.ltb_ge _ _)) by lia.
  rewrite <-Hw1, <-H2 in HF. apply cwp_bind. eapply cwp_mono; [by apply (preflight_letters ctx letters 0 [])|]. cbn beta.
  intros [pending|err] w3 Hpre; [|apply cwp_ret; cbn in *; destruct Hpre as [Hd|(_ & l & ? & Hin & _)]; [by left|by apply elem_of_nil in Hin]].
  destruct Hpre as [H3 ->]. rewrite <-H3 in HF. cbn [app].
  eapply cwp_mono; [by apply fetch_letters|]. done.
Qed.
End roundtrip.

(** C18. A payload that was sent is received.  Once [Send] has succeeded, the
    store holds the payload under the bucket and key of the envelope it
    returns, and that envelope encodes to the body of a message.  Take any
    answer of SQS to a valid [Receive] of the same provider whose messages
    carry such bodies (with valid ids and handles, no more of them than were
    asked for, the payloads together within the budget of one call), while the
    store still holds the objects.  Then [Receive] returns exactly these
    payloads in the order of the messages, each with its envelope (empty
    metadata is read as nil) and its receipt handle; or it fails with the
    error of the context, or with ErrObjectReadFailed, and then GetObject
    answered one of these objects with an error or with a body that broke off.
    No other failure is possible.  Assumed: encoding/json reads the envelope
    back as it wrote it ([readsBack]), and the store keeps what PutObject
    confirmed ([ObjectStore]); each GetObject may fail. *)
Theorem sqs_roundtrip {W} `{EnvelopeJSON} (sha256 : bytes → bytes) (stored : W → bytes → bytes → option bytes)
    (options : Options (W := W)) p :
  New options = Ok p → ObjectStore p stored →
  (∀ ctx r w res w1, observes ctx stored → Send sha256 ctx r p w = (Ok res, w1) →
     ResultEnvelope res = envelopeFor sha256 r ∧ stored w1 (sr_Bucket r) (sr_Key r) = Some (sr_Payload r) ∧
     ∃ body, EncodeEnvelope (ResultEnvelope res) = Ok body ∧
       ∀ id handle w2, readsBack (ResultEnvelope res) →
         validRequiredString id 128 = true → validRequiredString handle 1024 = true →
         stored w2 (sr_Bucket r) (sr_Key r) = Some (sr_Payload r) →
         intact sha256 p (stored w2) (mkLetter r body id handle)) ∧
  (∀ ctx rr letters w w1, observes ctx stored →
     validRequiredString (rr_QueueURL rr) 2048 = true → 0 ≤ rr_MaxNumberOfMessages rr ≤ 10 →
     0 ≤ rr_VisibilityTimeout rr ≤ 43200 → 0 ≤ rr_WaitTimeSeconds rr ≤ 20 →
     Forall (intact sha256 p (stored w)) letters → Z.of_nat (length letters) ≤ i_maxMessages (receiveInput rr) →
     foldr (λ l n, letterSize l + n) 0 letters ≤ maxReceivePayloadSize p →
     ReceiveMessage (sqsClient p) (receiveInput rr) (asked ctx w) = ((Some (letterMessage <$> letters), None), w1) →
     match (Receive sha256 ctx rr p w).1 with
     | Ok messages => messages = letterReceived sha256 (rr_QueueURL rr) <$> letters
     | Fail err => doneWith ctx err ∨
         errors_Is err ErrObjectReadFailed = true ∧ ∃ l w', l ∈ letters ∧
           faulty (sr_Payload (l_request l)) (GetObject (s3Client p) (sr_Bucket (l_request l)) (sr_Key (l_request l)) w').1
     end).
Proof.
  intros (Hp & _ & Hpr & Hdef)%New_limits Hst. split.
  - intros ctx r w res w1 Ho Hsend. pose proof (Send_stored sha256 p stored ctx r w Ho) as Hs. unfold cwp in Hs.
    rewrite Hsend in Hs. destruct (Hs res eq_refl) as (Hin & -> & Hsz & body & He). repeat (split; [done|]). by exists body.
  - intros ctx rr letters w w1 Ho Hq Hn Hvt Hwt HF Hlen Hsum Hrecv.
    pose proof (Receive_letters sha256 p stored ctx rr letters w w1 ltac:(lia) Ho Hq Hn Hvt Hwt HF Hlen Hsum Hrecv) as Hr.
    unfold cwp, orDisturbed in Hr. by destruct (Receive _ _ _ _ _) as [[?|?] ?].
Qed.

(** ** The order of the calls *)

(** A call of a client with what it answered: whether there was an output, and
    the error. *)
Inductive event : Type :=
| PutCalled (input : PutObjectInput) (output : bool) (err : option error)
| SendCalled (queueURL body : bytes) (output : option (option bytes)) (err : option error)
| ReceiveCalled (input : ReceiveMessageInput)
| GetCalled (bucket key : bytes)
| DeleteMessageCalled (queueURL receiptHandle : bytes) (output : bool) (err : option error)
| DeleteObjectCalled (bucket key : bytes) (output : bool) (err : option error).

(** The same clients and context in a world that also records the calls. *)
Section logged.
Context {W : Type}.

Definition logging {A} (c : Call W A) (ev : A → event) : Call (W * list event) A :=
  λ wl, let '(a, w') := c wl.1 in (a, (w', wl.2 ++ [ev a])).

Definition loggedSQS (c : SQSClient (W := W)) : SQSClient (W := W * list event) := {|
  SendMessage := λ url body, logging (SendMessage c url body) (λ a, SendCalled url body a.1 a.2);
  ReceiveMessage := λ input, logging (ReceiveMessage c input) (λ _, ReceiveCalled input);
  DeleteMessage := λ url handle, logging (DeleteMessage c url handle) (λ a, DeleteMessageCalled url handle a.1 a.2)
|}.

Definition loggedS3 (c : S3Client (W := W)) : S3Client (W := W * list event) := {|
  PutObject := λ input, logging (PutObject c input) (λ a, PutCalled input a.1 a.2);
  GetObject := λ bucket key, logging (GetObject c bucket key) (λ _, GetCalled bucket key);
  s3DeleteObject := λ bucket key, logging (s3DeleteObject c bucket key) (λ a, DeleteObjectCalled bucket key a.1 a.2)
|}.

Definition logged (p : Provider (W := W)) : Provider (W := W * list event) :=
  mkProvider (loggedSQS (sqsClient p)) (loggedS3 (s3Client p)) (maxPayloadSize p) (maxReceivePayloadSize p).

Definition loggedContext (ctx : option (Context W)) : option (Context (W * list event)) :=
  (λ c, mkContext (λ wl, let '(err, w') := ctx_Err c wl.1 in (err, (w', wl.2)))) <$> ctx.

Lemma cwp_logging {A} (c : Call W A) ev Q w log :
  (∀ a w', Q a (w', log ++ [ev a])) → cwp (logging c ev) Q (w, log).
Proof. intros HQ. unfold cwp, logging. cbn. destruct (c w) as [a w']. apply HQ. Qed.

Lemma cwp_loggedContext {A} ctx onErr (k : Call (W * list event) (result A)) Q w log :
  (∀ err w', Q (onErr err) (w', log)) → (∀ w', cwp k Q (w', log)) →
  cwp (unlessDone (orBackground (loggedContext ctx)) onErr k) Q (w, log).
Proof.
  intros Hf Hk. apply cwp_bind. unfold cwp at 1. destruct ctx as [c|]; cbn; [|apply Hk].
  destruct (ctx_Err c w) as [[err|] w']; cbn; [apply Hf|apply Hk].
Qed.
End logged.

(** What the result of an operation says about the calls it made. *)
Definition sendOrder (sha256 : bytes → bytes) (r : SendRequest) (out : result SendResult) (log : list event) : Prop :=
  match out with
  | Ok res => ∃ id body, EncodeEnvelope (envelopeFor sha256 r) = Ok body ∧ res = mkSendResult id (envelopeFor sha256 r) ∧
      log = [PutCalled (putInputFor sha256 r) true None; SendCalled (sr_QueueURL r) body (Some (Some id)) None]
  | Fail err =>
      log = [] ∨
      (∃ output putErr, log = [PutCalled (putInputFor sha256 r) output putErr] ∧ (output = true → OrphanedObject err = true)) ∨
      (∃ body output sendErr, EncodeEnvelope (envelopeFor sha256 r) = Ok body ∧ OrphanedObject err = true ∧
         log = [PutCalled (putInputFor sha256 r) true None; SendCalled (sr_QueueURL r) body output sendErr])
  end.

Definition deleteOrder (r : DeleteRequest) (out : result unit) (log : list event) : Prop :=
  let ack := DeleteMessageCalled (dr_QueueURL r) (dr_ReceiptHandle r) in
  let cleanup := DeleteObjectCalled (Bucket (dr_Envelope r)) (Key (dr_Envelope r)) in
  match out with
  | Ok _ => log = [ack true None; cleanup true None]
  | Fail err =>
      log = [] ∨ (∃ output ackErr, log = [ack output ackErr] ∧ (output = true → QueueDeleted err = true)) ∨
      (∃ output cleanupErr, log = [ack true None; cleanup output cleanupErr] ∧ QueueDeleted err = true)
  end.

Definition readOnly (ev : event) : Prop := match ev with ReceiveCalled _ | GetCalled _ _ => True | _ => False end.

Section ordered.
Context {W : Type} `{EnvelopeJSON} (sha256 : bytes → bytes) (p : Provider (W := W)).

Lemma Send_order ctx r w :
  cwp (Send sha256 (loggedContext ctx) r (logged p)) (λ out wl, sendOrder sha256 r out wl.2) (w, []).
Proof.
  unfold Send. cbv zeta. apply cwp_loggedContext; [by left|]. intros w1.
  destruct (validateProvider _); [apply cwp_ret; by left|]. destruct (validateSendRequest _ r); [apply cwp_ret; by left|].
  destruct (EncodeEnvelope (envelopeFor sha256 r)) as [body|] eqn:He; [|apply cwp_ret; by left].
  apply cwp_loggedContext; [by left|]. intros w2. apply cwp_bind, cwp_logging. intros [out callErr] w3. cbn [fst snd app].
  apply cwp_loggedContext; [by right; left; eexists _, _|]. intros w4.
  destruct callErr as [callErr|]; [apply cwp_ret; right; left; eexists _, _; split; [done|]; by destruct out|].
  destruct out; [|apply cwp_ret; by right; left; eexists _, _].
  apply cwp_loggedContext; [by right; left; eexists _, _|]. intros w5. apply cwp_bind, cwp_logging.
  intros [out callErr] w6. cbn [fst snd app]. apply cwp_loggedContext; [by right; right; eexists _, _, _|].
  intros w7. apply cwp_ret. cbn [snd].
  destruct callErr; [by right; right; eexists _, _, _|].
  destruct out as [[id|]|]; try (by right; right; eexists _, _, _).
  destruct (validRequiredString id 128); [|by right; right; eexists _, _, _]. by eexists _, _.
Qed.

Lemma Delete_order ctx r w :
  cwp (Delete (loggedContext ctx) r (logged p)) (λ out wl, deleteOrder r out wl.2) (w, []).
Proof.
  unfold Delete. cbv zeta. apply cwp_loggedContext; [by left|]. intros w1.
  destruct (validateProvider _); [apply cwp_ret; by left|]. destruct (_ || _); [apply cwp_ret; by left|].
  destruct (validateEnvelope _); [apply cwp_ret; by left|].
  apply cwp_loggedContext; [by left|]. intros w2. apply cwp_bind, cwp_logging. intros [out callErr] w3. cbn [fst snd app].
  apply cwp_loggedContext; [by right; left; eexists _, _|]. intros w4.
  destruct callErr as [callErr|]; [apply cwp_ret; right; left; eexists _, _; split; [done|]; by destruct out|].
  destruct out; [|apply cwp_ret; by right; left; eexists _, _].
  apply cwp_loggedContext; [by right; left; eexists _, _|]. intros w5. apply cwp_bind, cwp_logging.
  intros [out callErr] w6. cbn [fst snd app]. apply cwp_loggedContext; [by right; right; eexists _, _|].
  intros w7. apply cwp_ret. cbn [snd]. destruct callErr; [by right; right; eexists _, _|].
  destruct out; [done|]. by right; right; eexists _, _.
Qed.

Lemma preflight_order ctx ms : ∀ total pending w log,
  cwp (preflight (orBackground (loggedContext ctx)) (logged p) ms total pending) (λ _ wl, wl.2 = log) (w, log).
Proof.
  induction ms as [|m ms IH]; intros total pending w log; cbn [preflight]; [by apply cwp_ret|].
  apply cwp_loggedContext; [done|]. intros w1. cbv zeta. destruct (m_body m) as [body|]; [|by apply cwp_ret].
  destruct (_ || _ || _ || _); [by apply cwp_ret|]. destruct (DecodeEnvelope body); [|by apply cwp_ret].
  destruct (_ || _); [by apply cwp_ret|]. apply IH.
Qed.

Lemma readPayload_order ctx object expected (w : W) log :
  cwp (readPayload (orBackground (loggedContext ctx)) object expected) (λ _ wl, wl.2 = log) (w, log).
Proof.
  unfold readPayload. destruct object as [[[body|] len]|]; try (by apply cwp_ret).
  destruct (_ || _); [by apply cwp_ret|]. by apply cwp_loggedContext.
Qed.

Lemma fetch_order ctx url pending : ∀ messages w log, Forall readOnly log →
  cwp (fetch sha256 (orBackground (loggedContext ctx)) (logged p) url pending messages) (λ _ wl, Forall readOnly wl.2) (w, log).
Proof.
  induction pending as [|[m e] pending IH]; intros messages w log Hlog; cbn [fetch].
  { by apply cwp_loggedContext. }
  apply cwp_loggedContext; [done|]. intros w1. apply cwp_bind, cwp_logging. intros [object callErr] w2.
  assert (Forall readOnly (log ++ [GetCalled (Bucket e) (Key e)])) as Hlog' by (apply Forall_app; by repeat constructor).
  apply cwp_loggedContext; [done|]. intros w3. destruct callErr; [by apply cwp_ret|].
  apply cwp_bind. eapply cwp_mono; [apply readPayload_order|]. cbn beta. intros [payload|] [w4 log'] Heq; cbn in Heq; subst log';
    [|by apply cwp_ret].
  destruct (negb _); [by apply cwp_ret|]. by apply IH.
Qed.

Lemma Receive_order ctx r w :
  cwp (Receive sha256 (loggedContext ctx) r (logged p)) (λ _ wl, Forall readOnly wl.2) (w, []).
Proof.
  unfold Receive. cbv zeta. apply cwp_loggedContext; [constructor|]. intros w1.
  destruct (validateProvider _); [apply cwp_ret; constructor|].
  set (n := if rr_MaxNumberOfMessages r =? 0 then 1 else _). destruct (_ || _); [apply cwp_ret; constructor|].
  apply cwp_loggedContext; [constructor|]. intros w2. apply cwp_bind, cwp_logging. intros [out callErr] w3. cbn [app].
  apply cwp_loggedContext; [by repeat constructor|]. intros w4. destruct callErr; [apply cwp_ret; by repeat constructor|].
  destruct out as [answer|]; [|apply cwp_ret; by repeat constructor].
  destruct (n <? Z.of_nat (length answer)); [apply cwp_ret; by repeat constructor|].
  apply cwp_bind. eapply cwp_mono; [apply preflight_order|]. cbn beta. intros [pending|] [w5 log] Heq; cbn in Heq; subst log.
  - apply fetch_order. by repeat constructor.
  - apply cwp_ret. by repeat constructor.
Qed.
End ordered.

(** C16. The services are called in the safe order, whatever they and the context
    answer.  [Send] passes the payload to S3 first and hands the encoded envelope
    to SQS only after S3 has confirmed without an error; a failure after S3 gave an
    output says that the object is orphaned.  [Delete] removes the object only
    after SQS has confirmed the acknowledgement, and a failure after that says that
    the message is gone.  [Receive] only reads: it never acknowledges and never
    deletes. *)
Theorem sqs_calls_ordered {W} `{EnvelopeJSON} (sha256 : bytes → bytes) (p : Provider (W := W)) ctx w :
  (∀ r, let '(out, (_, log)) := Send sha256 (loggedContext ctx) r (logged p) (w, []) in sendOrder sha256 r out log) ∧
  (∀ r, let '(out, (_, log)) := Delete (loggedContext ctx) r (logged p) (w, []) in deleteOrder r out log) ∧
  (∀ r, let '(_, (_, log)) := Receive sha256 (loggedContext ctx) r (logged p) (w, []) in Forall readOnly log).
Proof.
  split; [|split]; intros r.
  - pose proof (Send_order sha256 p ctx r w) as Ho. unfold cwp in Ho. by destruct (Send _ _ _ _ _) as [? []].
  - pose proof (Delete_order p ctx r w) as Ho. unfold cwp in Ho. by destruct (Delete _ _ _ _) as [? []].
  - pose proof (Receive_order sha256 p ctx r w) as Ho. unfold cwp in Ho. by destruct (Receive _ _ _ _ _) as [? []].
Qed.

(** ** Sample services *)

(** A bucket and a queue; the context is cancelled while its flag is up, and the
    next read of an object breaks off while [flaky] is up. *)
Record sampleWorld := mkSample { objects : gmap (bytes * bytes) bytes; queue : list bytes; cancelled : bool; flaky : bool }.

Definition sampleSQS : SQSClient (W := sampleWorld) := {|
  SendMessage := λ _ body w, ((Some (Some (lit "id")), None), mkSample (objects w) (queue w ++ [body]) (cancelled w) (flaky w));
  ReceiveMessage := λ input w,
    ((Some (map (λ body, mkMessage (Some body) (Some (lit "id")) (Some (lit "handle"))) (take (Z.to_nat (i_maxMessages input)) (queue w))),
      None), w);
  DeleteMessage := λ _ _ w, ((false, Some Canceled), mkSample (objects w) (queue w) true (flaky w))
|}.

Definition sampleS3 : S3Client (W := sampleWorld) := {|
  PutObject := λ i w, ((true, None), mkSample (<[(pi_bucket i, pi_key i) := pi_body i]> (objects w)) (queue w) (cancelled w) (flaky w));
  GetObject := λ bucket key w,
    (match objects w !! (bucket, key) with
     | Some content =>
         (Some (mkObject (Some (if flaky w then mkBody (take 5 content) (Some (Sentinel "io.ErrUnexpectedEOF")) None
                                else mkBody content None None)) (Some (size content))), None)
     | None => (None, Some (Sentinel "NoSuchKey"))
     end, mkSample (objects w) (queue w) (cancelled w) false);
  s3DeleteObject := λ bucket key w, ((true, None), mkSample (delete (bucket, key) (objects w)) (queue w) (cancelled w) (flaky w))
|}.

Definition sampleStored (w : sampleWorld) (bucket key : bytes) : option bytes := objects w !! (bucket, key).
Definition sampleOptions : Options (W := sampleWorld) := mkOptions (Some sampleSQS) (Some sampleS3) 0 0.
Definition sampleProvider : Provider (W := sampleWorld) :=
  mkProvider sampleSQS sampleS3 DefaultMaxPayloadSize DefaultMaxReceivePayloadSize.
Definition sampleContext : Context sampleWorld := mkContext (λ w, (if cancelled w then Some Canceled else None, w)).
Definition sampleStart : sampleWorld := mkSample ∅ [] false false.

Lemma sampleStore : ObjectStore sampleProvider sampleStored.
Proof.
  split.
  - intros input w w' [= <-]. unfold sampleStored. cbn. apply lookup_insert_eq.
  - intros bucket key content w Hs. unfold sampleStored in Hs. cbn. rewrite Hs. split; [done|].
    destruct (flaky w); [left; cbn; split; [apply prefix_take|by left]|right; eexists; split; [done|by right]].
  - done.
  - done.
Qed.

(** A digest that is not a hash function, only its width is right. *)
Definition sampleDigest (b : bytes) : bytes := replicate 32 (foldr Z.add 0 b mod 256).

Definition sampleRequest : SendRequest :=
  mkSendRequest (lit "queue") (lit "bucket") (lit "key") (lit "large payload") (lit "text/plain")
    (Some {[lit "algorithm" := lit "AES256"]}).
Definition sampleEnvelope : Envelope := envelopeFor sampleDigest sampleRequest.

(** A reader of one body. *)
Definition sampleJSON : EnvelopeJSON := {|
  jsonTokens := λ data, if bool_decide (data = jsonMarshal sampleEnvelope) then (envelopeTokens sampleEnvelope, Sentinel "io.EOF")
                        else ([], Sentinel "io.ErrUnexpectedEOF");
  jsonDecodeStrict := λ data, if bool_decide (data = jsonMarshal sampleEnvelope) then Ok sampleEnvelope
                              else Fail (Sentinel "json.SyntaxError")
|}.
#[local] Existing Instance sampleJSON.

Lemma sampleReadsBack : readsBack sampleEnvelope.
Proof. split; cbn [jsonTokens jsonDecodeStrict sampleJSON]; rewrite bool_decide_true by done; reflexivity. Qed.

Definition sampleBody : bytes := jsonMarshal sampleEnvelope.

Lemma sqs_envelope_canonical_witness : DecodeEnvelope sampleBody = Ok sampleEnvelope.
Proof. apply (sqs_envelope_canonical sampleBody sampleEnvelope sampleReadsBack). split; vm_compute; reflexivity. Defined.

Definition sampleReceive : ReceiveRequest := mkReceiveRequest (lit "queue") 10 30 0.
Definition sampleSent : sampleWorld := mkSample {[(lit "bucket", lit "key") := lit "large payload"]} [sampleBody] false false.
Definition sampleReceived : ReceivedMessage :=
  mkReceived (lit "queue") (lit "id") (lit "handle") sampleEnvelope (lit "large payload").

Lemma sqs_receive_verified_witness :
  ∃ answer, Forall2 (delivered sampleDigest sampleProvider (lit "queue")) answer [sampleReceived].
Proof.
  destruct (sqs_receive_verified sampleDigest sampleOptions sampleProvider None sampleReceive sampleSent [sampleReceived] sampleSent)
    as (w1 & answer & w2 & _ & Hd & _).
  - reflexivity.
  - vm_compute. reflexivity.
  - exact (ex_intro _ answer Hd).
Defined.

(** The message is handed out twice, and S3 breaks off the first read. *)
Definition sampleFlaky : sampleWorld := mkSample (objects sampleSent) [sampleBody; sampleBody] false true.
Definition sampleLetter : letter := mkLetter sampleRequest sampleBody (lit "id") (lit "handle").

Lemma sqs_roundtrip_witness :
  (match (Receive sampleDigest (Some sampleContext) sampleReceive sampleProvider sampleFlaky).1 with
   | Ok messages => messages = [sampleReceived; sampleReceived]
   | Fail err => doneWith (Some sampleContext) err ∨
       errors_Is err ErrObjectReadFailed = true ∧ ∃ l w', l ∈ [sampleLetter; sampleLetter] ∧
         faulty (lit "large payload") (GetObject sampleS3 (lit "bucket") (lit "key") w').1
   end) ∧
  (Receive sampleDigest (Some sampleContext) sampleReceive sampleProvider
     (Receive sampleDigest (Some sampleContext) sampleReceive sampleProvider sampleFlaky).2).1 = Ok [sampleReceived; sampleReceived].
Proof.
  destruct (sqs_roundtrip sampleDigest sampleStored sampleOptions sampleProvider eq_refl sampleStore) as [Hs Hr].
  split; [|vm_compute; reflexivity].
  destruct (Hs (Some sampleContext) sampleRequest sampleStart (mkSendResult (lit "id") sampleEnvelope) sampleSent) as (_ & _ & body & Hb & Hl).
  { by intros w. }
  { vm_compute. reflexivity. }
  assert (body = sampleBody) as ->.
  { assert (EncodeEnvelope sampleEnvelope = Ok sampleBody) as He by (vm_compute; reflexivity). cbn [ResultEnvelope] in Hb. congruence. }
  assert (intact sampleDigest sampleProvider (sampleStored sampleFlaky) sampleLetter) as Hi.
  { apply Hl; [exact sampleReadsBack|vm_compute; reflexivity..]. }
  assert (Forall (intact sampleDigest sampleProvider (sampleStored sampleFlaky)) [sampleLetter; sampleLetter]) as HF
    by (apply Forall_cons; split; [exact Hi|]; apply Forall_cons; split; [exact Hi|constructor]).
  specialize (Hr (Some sampleContext) sampleReceive [sampleLetter; sampleLetter] sampleFlaky sampleFlaky
    (λ w, eq_refl) ltac:(vm_compute; reflexivity) ltac:(cbn; lia) ltac:(cbn; lia) ltac:(cbn; lia) HF
    ltac:(cbn; lia) ltac:(vm_compute; discriminate) ltac:(vm_compute; reflexivity)).
  revert Hr. destruct (Receive _ _ _ _ _) as [[messages|err] w']; cbn [fst]; intros Hr; [exact Hr|].
  destruct Hr as [Hd|(He & l & w1 & Hin & Hf)]; [left; exact Hd|]. right. split; [exact He|]. exists l, w1. split; [exact Hin|].
  repeat (apply elem_of_cons in Hin as [->|Hin]; [exact Hf|]). inversion Hin.
Defined.

(** A [Delete] whose context is cancelled during the call to SQS, which fails: the
    message is still in the queue, and the error says that it is deleted. *)
Theorem canceled_delete_reports_queue_deleted :
  ∃ err w', Delete (loggedContext (Some sampleContext)) (mkDeleteRequest (lit "queue") (lit "handle") sampleEnvelope)
              (logged sampleProvider) (sampleSent, []) =
    (Fail err, (w', [DeleteMessageCalled (lit "queue") (lit "handle") false (Some Canceled)])) ∧
  QueueDeleted err = true ∧ queue w' = queue sampleSent.
Proof. eexists _, _. split; [vm_compute; reflexivity|]. split; vm_compute; reflexivity. Qed.
