(* ===== verification/StepFunctions.v ===== *)
(** * Executions of AWS Step Functions

    Models src/workflow/stepfunctions: errors.go and bridge.go.  Strings are their
    bytes, durations and times nanoseconds.  The client, the contexts and the
    timers are calls on a world: they may answer anything.  [json.Valid] is a
    parameter; a [Backoff] is a function. *)

From S2P Require Import Prelude GoError GoText Core GoEncoding.

Local Open Scope Z_scope.

(** ** errors.go *)

Definition ErrNilClient : string := "stepfunctions.ErrNilClient".
Definition ErrInvalidOptions : string := "stepfunctions.ErrInvalidOptions".
Definition ErrInvalidRequest : string := "stepfunctions.ErrInvalidRequest".
Definition ErrInputTooLarge : string := "stepfunctions.ErrInputTooLarge".
Definition ErrInvalidName : string := "stepfunctions.ErrInvalidName".
Definition ErrStartFailed : string := "stepfunctions.ErrStartFailed".
Definition ErrDescribeFailed : string := "stepfunctions.ErrDescribeFailed".
Definition ErrStopFailed : string := "stepfunctions.ErrStopFailed".
Definition ErrStopUnsupported : string := "stepfunctions.ErrStopUnsupported".
Definition ErrMalformedOutput : string := "stepfunctions.ErrMalformedOutput".
Definition ErrUnknownStatus : string := "stepfunctions.ErrUnknownStatus".
Definition ErrExecutionFailed : string := "stepfunctions.ErrExecutionFailed".
Definition ErrExecutionTimedOut : string := "stepfunctions.ErrExecutionTimedOut".
Definition ErrExecutionAborted : string := "stepfunctions.ErrExecutionAborted".
Definition ErrWaitTimeout : string := "stepfunctions.ErrWaitTimeout".

Definition ExecutionStatus : Type := string.
Definition StatusRunning : ExecutionStatus := "RUNNING".
Definition StatusSucceeded : ExecutionStatus := "SUCCEEDED".
Definition StatusFailed : ExecutionStatus := "FAILED".
Definition StatusTimedOut : ExecutionStatus := "TIMED_OUT".
Definition StatusAborted : ExecutionStatus := "ABORTED".
Definition StatusPendingRedrive : ExecutionStatus := "PENDING_REDRIVE".

Definition IsTerminal (s : ExecutionStatus) : bool :=
  existsb (String.eqb s) [StatusSucceeded; StatusFailed; StatusTimedOut; StatusAborted; StatusPendingRedrive].

Definition isKnownStatus (s : ExecutionStatus) : bool :=
  existsb (String.eqb s) [StatusRunning; StatusSucceeded; StatusFailed; StatusTimedOut; StatusAborted; StatusPendingRedrive].

(** On sentinels. *)
Definition safeKind (kind : string) : string :=
  if existsb (String.eqb kind)
       [ErrNilClient; ErrInvalidOptions; ErrInvalidRequest; ErrInputTooLarge; ErrInvalidName; ErrStartFailed;
        ErrDescribeFailed; ErrStopFailed; ErrStopUnsupported; ErrMalformedOutput; ErrUnknownStatus; ErrExecutionFailed;
        ErrExecutionTimedOut; ErrExecutionAborted; ErrWaitTimeout]
  then kind else ErrInvalidOptions.

Definition isRequestValidationKind (kind : string) : bool :=
  existsb (String.eqb kind) [ErrInvalidRequest; ErrInputTooLarge; ErrInvalidName].

Definition safeOperation (operation : string) : string :=
  if existsb (String.eqb operation) ["validate options"; "validate request"; "start"; "describe"; "stop"; "wait"]%string
  then operation else "".

Definition safeStatus (s : ExecutionStatus) : ExecutionStatus := if isKnownStatus s then s else "".

(** [newError] with the matches of [Error.Is]: the kind, [ErrInvalidRequest] for an
    error of validation, and the cause. *)
Definition newError (kind operation : string) (status : ExecutionStatus) (cause : option error) : error :=
  let kind := safeKind kind in
  Typed "stepfunctions.Error" [FStr kind; FStr (safeOperation operation); FStr (safeStatus status)]
    (if isRequestValidationKind kind then [kind; ErrInvalidRequest] else [kind]) cause.

(** [Error.Status] and [Error.Operation] *)
Definition fieldOf (i : nat) (e : error) : string :=
  match e with
  | Typed ty fields _ _ =>
      if String.eqb ty "stepfunctions.Error" then match fields !! i with Some (FStr s) => s | _ => "" end else ""
  | _ => ""
  end.
Definition error_Operation : error → string := fieldOf 1.
Definition error_Status : error → ExecutionStatus := fieldOf 2.

(** ** bridge.go *)

Definition defaultMaxInputSize : Z := 262144.
Definition maxARNSize : Z := 256.
Definition maxExecutionName : Z := 80.
Definition maxTraceHeaderSize : Z := 256.
Definition maxStopErrorSize : Z := 256.
Definition maxStopCauseSize : Z := 32768.
Definition second : Z := 1000000000.
Definition defaultPollInterval : Z := second.
Definition defaultMaxPoll : Z := 30 * second.

Definition size (b : bytes) : Z := Z.of_nat (length b).

(** *** Validation *)

Definition invalidRequest : error := newError ErrInvalidRequest "validate request" "" None.

(** [validateARNValue] is nil. *)
Definition validARNValue (value : bytes) : bool :=
  negb (negb (ValidString value) || bool_decide (TrimSpace (runesOf value) = []) || (maxARNSize <? size value)).

Definition validateARN (value : bytes) : option error :=
  if validARNValue value then None else Some invalidRequest.

Definition isASCII (value : bytes) : bool := forallb (λ b, negb (127 <? b)) value.

Definition nameByte (c : Z) : bool :=
  negb (((c <? 97) || (122 <? c)) && ((c <? 65) || (90 <? c)) && ((c <? 48) || (57 <? c)) && negb (c =? 45) && negb (c =? 95)).

Definition validateExecutionName (value : bytes) : option error :=
  let invalid := newError ErrInvalidName "validate request" "" None in
  if (size value <? 1) || (maxExecutionName <? size value) || negb (isASCII value) then Some invalid
  else if forallb nameByte (runesOf value) then None else Some invalid.

(** The characters that a name of a response must not have. *)
Definition reservedRunes : list Z :=
  [60; 62; 123; 125; 91; 93; 63; 42; 34; 35; 37; 92; 94; 124; 126; 96; 36; 38; 44; 59; 58; 47].

Definition responseRune (r : Z) : bool :=
  negb (isSpace r || IsControl r || (r =? 65534) || (r =? 65535)) && negb (bool_decide (r ∈ reservedRunes)).

(** [validateResponseName] is nil. *)
Definition validResponseName (value : bytes) : bool :=
  bool_decide (value = []) ||
  negb (negb (ValidString value) || (maxExecutionName <? size value)) && forallb responseRune (runesOf value).

Definition validTraceHeader (value : bytes) : bool :=
  bool_decide (value = []) || negb ((maxTraceHeaderSize <? size value) || negb (isASCII value)).

Definition validBoundedUTF8 (value : bytes) (limit : Z) : bool := negb (negb (ValidString value) || (limit <? size value)).

Definition validOptionalBoundedUTF8 (value : bytes) (limit : Z) : bool :=
  bool_decide (value = []) || validBoundedUTF8 value limit.

(** *** Waiting *)

Definition Backoff : Type := Z → Z → Z.

Record WaitOptions := mkWaitOptions {
  optPollInterval : Z;
  optMaxPollInterval : Z;
  optTimeout : Z;
  optBackoff : option Backoff
}.

Record waitConfig := mkWaitConfig { pollInterval : Z; maxPollInterval : Z; backoff : Backoff }.

Definition defaultBackoff : Backoff := λ attempt previous,
  if (attempt <=? 0) || (previous <=? 0) then previous
  else if maxInt64 / 2 <? previous then maxInt64
  else previous * 2.

Definition normalizeWaitOptions (options : WaitOptions) : result waitConfig :=
  let poll := if optPollInterval options =? 0 then defaultPollInterval else optPollInterval options in
  let maxPoll := if optMaxPollInterval options =? 0 then defaultMaxPoll else optMaxPollInterval options in
  if (poll <? 0) || (maxPoll <? 0) || (optTimeout options <? 0) || (maxPoll <? poll)
  then Fail (newError ErrInvalidOptions "wait" "" None)
  else Ok (mkWaitConfig poll maxPoll (default defaultBackoff (optBackoff options))).

(** The case that a [select] on a timer, the caller's context and the context of
    the wait takes. *)
Inductive selected : Type := TimerFired | ParentDone | WaitDone.

Section bridge.
Context {W : Type} (jsonValid : bytes → bool).
(** [context.WithTimeout], and the [select] of [waitFor]. *)
Context (WithTimeout : Context W → Z → Call W (Context W)).
Context (select_ : Context W → Context W → Z → Call W selected).

(** A pointer of an input or an output is [None] when it is nil. *)
Record StartExecutionInput := mkStartInput {
  si_stateMachineArn : bytes;
  si_input : bytes;
  si_name : option bytes;
  si_traceHeader : option bytes
}.
Record StartExecutionOutput := mkStartOutput { so_executionArn : option bytes; so_startDate : option Z }.
Record DescribeExecutionOutput := mkDescribeOutput {
  do_executionArn : option bytes;
  do_stateMachineArn : option bytes;
  do_name : option bytes;
  do_input : option bytes;
  do_output : option bytes;
  do_error : option bytes;
  do_cause : option bytes;
  do_status : ExecutionStatus;
  do_startDate : option Z;
  do_stopDate : option Z
}.
Record StopExecutionInput := mkStopInput { pi_executionArn : bytes; pi_error : option bytes; pi_cause : option bytes }.

(** The client; [StopExecution] is the optional capability, its output the date. *)
Record Client := mkClient {
  StartExecution : StartExecutionInput → Call W (option StartExecutionOutput * option error);
  DescribeExecution : bytes → Call W (option DescribeExecutionOutput * option error);
  StopExecution : option (StopExecutionInput → Call W (option (option Z) * option error))
}.

Record Options := mkOptions { optClient : option Client; optMaxInputSize : Z }.
Record Bridge := mkBridge { client : Client; maxInputSize : Z }.

Definition New (options : Options) : result Bridge :=
  match optClient options with
  | None => Fail (newError ErrNilClient "validate options" "" None)
  | Some c =>
      let max := if optMaxInputSize options =? 0 then defaultMaxInputSize else optMaxInputSize options in
      if (max <? 1) || (defaultMaxInputSize <? max) then Fail (newError ErrInvalidOptions "validate options" "" None)
      else Ok (mkBridge c max)
  end.

(** [Bridge.validate]; a nil bridge is [None]. *)
Definition validateBridge (b : option Bridge) : result Bridge :=
  match b with
  | None => Fail (newError ErrInvalidOptions "validate options" "" None)
  | Some b =>
      if (maxInputSize b <? 1) || (defaultMaxInputSize <? maxInputSize b)
      then Fail (newError ErrInvalidOptions "validate options" "" None) else Ok b
  end.

Record Execution := mkExecution {
  ExecutionARN : bytes;
  StateMachineARN : bytes;
  Name : bytes;
  Input : bytes;
  Output : bytes;
  ExecutionError : bytes;
  Cause : bytes;
  Status : ExecutionStatus;
  StartedAt : option Z;
  StoppedAt : option Z
}.

(** An execution and an error: both can be given. *)
Definition answer : Type := option Execution * option error.
Definition failed (err : error) : answer := (None, Some err).

(** [if err := ctx.Err(); err != nil { return nil, err }] *)
Definition unlessDone (ctx : Context W) (k : Call W answer) : Call W answer :=
  err ← ctx_Err ctx;
  match err with Some err => mret (failed err) | None => k end.

Record StartRequest := mkStartRequest {
  sr_StateMachineARN : bytes;
  sr_Name : bytes;
  sr_Input : bytes;
  sr_TraceHeader : bytes
}.

Definition validateStartRequest (b : Bridge) (r : StartRequest) : result StartRequest :=
  match validateARN (sr_StateMachineARN r) with
  | Some err => Fail err
  | None =>
      match (if bool_decide (sr_Name r = []) then None else validateExecutionName (sr_Name r)) with
      | Some err => Fail err
      | None =>
          if negb (validTraceHeader (sr_TraceHeader r)) then Fail invalidRequest
          else
            let input := match sr_Input r with [] => lit "{}" | input => input end in
            if maxInputSize b <? size input then Fail (newError ErrInputTooLarge "validate request" "" None)
            else if negb (ValidString input) || negb (jsonValid input) then Fail invalidRequest
            else Ok (mkStartRequest (sr_StateMachineARN r) (sr_Name r) input (sr_TraceHeader r))
      end
  end.

Definition optionalString (value : bytes) : option bytes := if bool_decide (value = []) then None else Some value.

Definition startInputFor (r : StartRequest) : StartExecutionInput :=
  mkStartInput (sr_StateMachineARN r) (sr_Input r) (optionalString (sr_Name r)) (optionalString (sr_TraceHeader r)).

(** [Bridge.Start] *)
Definition Start (b : option Bridge) (ctx : option (Context W)) (r : StartRequest) : Call W answer :=
  let ctx := orBackground ctx in
  let malformed := failed (newError ErrMalformedOutput "start" "" None) in
  unlessDone ctx (
  match validateBridge b with
  | Fail err => mret (failed err)
  | Ok b =>
      match validateStartRequest b r with
      | Fail err => mret (failed err)
      | Ok normalized =>
          unlessDone ctx (unlessDone ctx (
          '(output, callErr) ← StartExecution (client b) (startInputFor normalized);
          unlessDone ctx (mret (
          match callErr, output with
          | Some callErr, _ => failed (newError ErrStartFailed "start" "" (Some callErr))
          | None, Some (mkStartOutput (Some arn) (Some started)) =>
              if negb (validARNValue arn) then malformed
              else (Some (mkExecution arn (sr_StateMachineARN normalized) (sr_Name normalized) (sr_Input normalized)
                            [] [] [] StatusRunning (Some started) None), None)
          | None, _ => malformed
          end))))
      end
  end).

(** [Bridge.responsePayload]; [None] is the error. *)
Definition responsePayload (b : Bridge) (value : option bytes) : option bytes :=
  match value with
  | None => Some []
  | Some v => if (maxInputSize b <? size v) || negb (ValidString v) then None else Some v
  end.

(** The answer of [Describe] to an output of the service. *)
Definition describeOutput (b : Bridge) (executionARN : bytes) (output : option DescribeExecutionOutput) : answer :=
  let malformed := failed (newError ErrMalformedOutput "describe" "" None) in
  match output with
  | Some (mkDescribeOutput (Some arn) (Some machine) name input output errText cause status (Some started) stopped) =>
      if negb (validARNValue arn) then malformed
      else if negb (bool_decide (arn = executionARN)) then malformed
      else if negb (validARNValue machine) then malformed
      else if negb (match name with Some n => validResponseName n | None => true end) then malformed
      else match responsePayload b input, responsePayload b output with
           | Some input, Some output =>
               if negb (match errText with Some e => validBoundedUTF8 e maxStopErrorSize | None => true end) then malformed
               else if negb (match cause with Some c => validBoundedUTF8 c maxStopCauseSize | None => true end) then malformed
               else
                 let execution := mkExecution arn machine (default [] name) input output (default [] errText)
                                    (default [] cause) status (Some started) stopped in
                 (Some execution, if isKnownStatus status then None else Some (newError ErrUnknownStatus "describe" status None))
           | _, _ => malformed
           end
  | _ => malformed
  end.

(** [Bridge.Describe] *)
Definition Describe (b : option Bridge) (ctx : option (Context W)) (executionARN : bytes) : Call W answer :=
  let ctx := orBackground ctx in
  unlessDone ctx (
  match validateBridge b with
  | Fail err => mret (failed err)
  | Ok b =>
      match validateARN executionARN with
      | Some err => mret (failed err)
      | None =>
          unlessDone ctx (
          '(output, callErr) ← DescribeExecution (client b) executionARN;
          unlessDone ctx (mret (
          match callErr with
          | Some callErr => failed (newError ErrDescribeFailed "describe" "" (Some callErr))
          | None => describeOutput b executionARN output
          end)))
      end
  end).

Record StopRequest := mkStopRequest { st_ExecutionARN : bytes; st_Error : bytes; st_Cause : bytes }.

(** [Bridge.Stop] *)
Definition Stop (b : option Bridge) (ctx : option (Context W)) (r : StopRequest) : Call W answer :=
  let ctx := orBackground ctx in
  unlessDone ctx (
  match validateBridge b with
  | Fail err => mret (failed err)
  | Ok b =>
      match validateARN (st_ExecutionARN r) with
      | Some err => mret (failed err)
      | None =>
          if negb (validOptionalBoundedUTF8 (st_Error r) maxStopErrorSize) then mret (failed invalidRequest)
          else if negb (validOptionalBoundedUTF8 (st_Cause r) maxStopCauseSize) then mret (failed invalidRequest)
          else match StopExecution (client b) with
               | None => mret (failed (newError ErrStopUnsupported "stop" "" None))
               | Some stop =>
                   unlessDone ctx (unlessDone ctx (
                   '(output, callErr) ← stop (mkStopInput (st_ExecutionARN r) (optionalString (st_Error r))
                                                (optionalString (st_Cause r)));
                   unlessDone ctx (mret (
                   match callErr, output with
                   | Some callErr, _ => failed (newError ErrStopFailed "stop" "" (Some callErr))
                   | None, Some (Some stopped) =>
                       (Some (mkExecution (st_ExecutionARN r) [] [] [] [] [] [] "" None (Some stopped)), None)
                   | None, _ => failed (newError ErrMalformedOutput "stop" "" None)
                   end))))
               end
      end
  end).

Definition waitFor (waitCtx parent : Context W) (delay : Z) : Call W (option error) :=
  if delay <=? 0 then
    err ← ctx_Err parent;
    match err with Some err => mret (Some err) | None => ctx_Err waitCtx end
  else
    s ← select_ waitCtx parent delay;
    match s with
    | TimerFired => mret None
    | ParentDone => ctx_Err parent
    | WaitDone =>
        err ← ctx_Err parent;
        match err with Some err => mret (Some err) | None => ctx_Err waitCtx end
    end.

Definition waitError (parent waitCtx : Context W) (err : error) (ownedTimeout : bool) : Call W error :=
  parentErr ← ctx_Err parent;
  match parentErr with
  | Some parentErr => mret parentErr
  | None =>
      if ownedTimeout then
        waitErr ← ctx_Err waitCtx;
        mret (if opt_Is waitErr "context.DeadlineExceeded" && errors_Is err "context.DeadlineExceeded"
              then newError ErrWaitTimeout "wait" "" (Some DeadlineExceeded) else err)
      else mret err
  end.

(** [return last, waitError(ctx, waitCtx, err, ownedTimeout)] *)
Definition giveUp (ctx waitCtx : Context W) (last : option Execution) (err : error) (owned : bool) : Go W answer :=
  err ← call (waitError ctx waitCtx err owned);
  mret (last, Some err).

(** Both observations before a round goes on. *)
Definition unlessEither (ctx waitCtx : Context W) (last : option Execution) (owned : bool) (k : Go W answer) : Go W answer :=
  err ← call (ctx_Err ctx);
  match err with
  | Some err => mret (last, Some err)
  | None =>
      err ← call (ctx_Err waitCtx);
      match err with
      | Some err => giveUp ctx waitCtx last err owned
      | None => k
      end
  end.

(** The delay before the next round; [None] when the backoff answers a negative. *)
Definition nextDelay (config : waitConfig) (attempt delay : Z) : option Z :=
  let next := backoff config attempt delay in
  if next <? 0 then None else Some (if maxPollInterval config <? next then maxPollInterval config else next).

(** The result of a wait that has observed this execution. *)
Definition statusResult (execution : Execution) : answer :=
  let s := Status execution in
  (Some execution,
   if String.eqb s StatusSucceeded then None
   else if String.eqb s StatusFailed then Some (newError ErrExecutionFailed "wait" s None)
   else if String.eqb s StatusTimedOut then Some (newError ErrExecutionTimedOut "wait" s None)
   else if String.eqb s StatusAborted then Some (newError ErrExecutionAborted "wait" s None)
   else if String.eqb s StatusPendingRedrive then None
   else Some (newError ErrUnknownStatus "wait" s None)).

Fixpoint waitLoop (fuel : nat) (b : Bridge) (ctx waitCtx : Context W) (executionARN : bytes) (config : waitConfig)
    (owned : bool) (last : option Execution) (delay attempt : Z) : Go W answer :=
  match fuel with
  | O => out_of_fuel
  | S fuel' =>
      unlessEither ctx waitCtx last owned (
      '(execution, describeErr) ← call (Describe (Some b) (Some waitCtx) executionARN);
      let last := execution in
      err ← call (ctx_Err ctx);
      match err with
      | Some err => mret (last, Some err)
      | None =>
          match describeErr, execution with
          | Some err, _ => giveUp ctx waitCtx last err owned
          | None, None => mret (failed (newError ErrMalformedOutput "wait" "" None))
          | None, Some execution =>
              if String.eqb (Status execution) StatusRunning then
                err ← call (waitFor waitCtx ctx delay);
                match err with
                | Some err => giveUp ctx waitCtx last err owned
                | None =>
                    unlessEither ctx waitCtx last owned (
                    match nextDelay config attempt delay with
                    | None => mret (last, Some (newError ErrInvalidOptions "wait" "" None))
                    | Some delay => waitLoop fuel' b ctx waitCtx executionARN config owned last delay (attempt + 1)
                    end)
                end
              else mret (statusResult execution)
          end
      end)
  end.

(** [Bridge.Wait] *)
Definition Wait (fuel : nat) (b : option Bridge) (ctx : option (Context W)) (executionARN : bytes) (options : WaitOptions)
    : Go W answer :=
  let ctx := orBackground ctx in
  err ← call (ctx_Err ctx);
  match err with
  | Some err => mret (failed err)
  | None =>
      match validateBridge b, validateARN executionARN with
      | Fail err, _ => mret (failed err)
      | Ok _, Some err => mret (failed err)
      | Ok b, None =>
          match normalizeWaitOptions options with
          | Fail err => mret (failed err)
          | Ok config =>
              let owned := 0 <? optTimeout options in
              waitCtx ← call (if owned then WithTimeout ctx (optTimeout options) else mret ctx);
              waitLoop fuel b ctx waitCtx executionARN config owned None (pollInterval config) 1
          end
      end
  end.
End bridge.

(** ** Waiting ends *)

Section waiting.
Context {W : Type}.
Context (WithTimeout : Context W → Z → Call W (Context W)) (select_ : Context W → Context W → Z → Call W selected).
(** The clock, and the delays of the timers that were started so far. *)
Context (now : W → Z) (delays : W → list Z).

Definition later (w w' : W) : Prop := now w ≤ now w' ∧ delays w' = delays w.
Definition quietCall {A} (c : Call W A) : Prop := ∀ w, later w (c w).2.

(** Time goes on, a timer that fires has taken its delay, a context that is done
    reports an error, and one with a timeout does so once its deadline is over. *)
Class WaitEnv (b : Bridge (W := W)) (ctx : Context W) : Prop := {
  env_describe : ∀ arn, quietCall (DescribeExecution (client b) arn);
  env_ctx : quietCall (ctx_Err ctx);
  env_timeout : ∀ t w, let '(c, w') := WithTimeout ctx t w in
    later w w' ∧ quietCall (ctx_Err c) ∧ ∀ v, now w' + t ≤ now v → is_Some (ctx_Err c v).1;
  env_select : ∀ c d w, 0 < d → let '(s, w') := select_ c ctx d w in
    now w ≤ now w' ∧ delays w' = delays w ++ [d] ∧
    match s with
    | TimerFired => now w + d ≤ now w'
    | ParentDone => is_Some (ctx_Err ctx w').1
    | WaitDone => is_Some (ctx_Err c (ctx_Err ctx w').2).1
    end
}.

Lemma later_refl w : later w w.
Proof. split; [lia|done]. Qed.

Lemma later_trans w1 w2 w3 : later w1 w2 → later w2 w3 → later w1 w3.
Proof. intros [H1 E1] [H2 E2]. split; [lia|by rewrite E2]. Qed.

Lemma quiet_ret {A} (a : A) : quietCall (mret a).
Proof. intros w. apply later_refl. Qed.

Lemma quiet_bind {A B} (c : Call W A) (f : A → Call W B) :
  quietCall c → (∀ a, quietCall (f a)) → quietCall (c ≫= f).
Proof.
  intros Hc Hf w. unfold mbind, call_bind. specialize (Hc w). destruct (c w) as [a w1].
  eapply later_trans; [exact Hc|apply Hf].
Qed.

Lemma quiet_unlessDone ctx (k : Call W answer) : quietCall (ctx_Err ctx) → quietCall k → quietCall (unlessDone ctx k).
Proof. intros Hc Hk. apply quiet_bind; [done|]. intros [err|]; [apply quiet_ret|done]. Qed.

Lemma wp_quiet {A B} (c : Call W A) (f : A → Go W B) Q w :
  quietCall c → (∀ a w', c w = (a, w') → later w w' → wp (f a) Q w') → wp (call c ≫= f) Q w.
Proof.
  intros Hc Hf. apply wp_bind, wp_call. specialize (Hc w). destruct (c w) as [a w'] eqn:E. by apply Hf.
Qed.

Section round.
Context (b : Bridge (W := W)) (ctx waitCtx : Context W) `{!WaitEnv b ctx}.
Context (Hwait : quietCall (ctx_Err waitCtx)).

Lemma Describe_quiet arn : quietCall (Describe (Some b) (Some waitCtx) arn).
Proof.
  apply quiet_unlessDone; [done|]. destruct (validateBridge (Some b)) as [b'|] eqn:Hb; [|apply quiet_ret].
  destruct (validateARN arn); [apply quiet_ret|]. apply quiet_unlessDone; [done|].
  assert (b' = b) as -> by (revert Hb; unfold validateBridge; by destruct (_ || _); intros [=]).
  apply quiet_bind; [apply env_describe|]. intros [out err]. apply quiet_unlessDone; [done|]. apply quiet_ret.
Qed.

Lemma waitError_quiet err owned : quietCall (waitError ctx waitCtx err owned).
Proof.
  apply quiet_bind; [apply env_ctx|]. intros [e|]; [apply quiet_ret|]. destruct owned; [|apply quiet_ret].
  apply quiet_bind; [done|]. intros e. apply quiet_ret.
Qed.

(** An execution of [Describe] is the one that was asked for, and there is an error
    exactly when its status is not known. *)
Lemma Describe_arn (c : option (Context W)) arn w :
  cwp (Describe (Some b) c arn) (λ r _,
    (∀ x, r.1 = Some x → ExecutionARN x = arn ∧ (isKnownStatus (Status x) = true ↔ r.2 = None)) ∧
    (r.2 = None → is_Some r.1)) w.
Proof.
  unfold Describe, unlessDone. cbv zeta. apply cwp_bind. unfold cwp at 1. destruct (ctx_Err _ w) as [[err|] w1]; [done|]. cbn [fst snd].
  destruct (validateBridge (Some b)) as [b'|]; [|by apply cwp_ret]. destruct (validateARN arn); [by apply cwp_ret|].
  apply cwp_bind. unfold cwp at 1. destruct (ctx_Err _ w1) as [[err|] w2]; [done|]. cbn [fst snd].
  apply cwp_bind. unfold cwp at 1. destruct (DescribeExecution _ _ w2) as [[out callErr] w3]. cbn [fst snd].
  apply cwp_bind. unfold cwp at 1. destruct (ctx_Err _ w3) as [[err|] w4]; [done|]. apply cwp_ret.
  destruct callErr; [done|]. unfold describeOutput. cbv zeta.
  destruct out as [[[a|] [m|] name input output errText cause status [started|] stopped]|]; try done.
  destruct (negb (validARNValue a)); [done|]. case_bool_decide as Ha; cbn [negb]; [|done].
  destruct (negb (validARNValue m)); [done|]. destruct (negb _); [done|].
  destruct (responsePayload b' input); [|done]. destruct (responsePayload b' output); [|done].
  destruct (negb _); [done|]. destruct (negb _); [done|]. cbn [fst snd]. split; [|done].
  intros x [= <-]. split; [done|]. cbn [Status]. by destruct (isKnownStatus status).
Qed.

Lemma wp_giveUp last err owned Q w :
  (∀ e w', later w w' → Q (last, Some e) w') → wp (giveUp ctx waitCtx last err owned) Q w.
Proof. intros HQ. apply wp_quiet; [apply waitError_quiet|]. intros e w' _ Hl. by apply wp_ret, HQ. Qed.

Lemma wp_unlessEither last owned k Q w :
  (∀ e w', later w w' → Q (last, Some e) w') →
  (∀ w' w'', later w w' → ctx_Err waitCtx w' = (None, w'') → later w' w'' → wp k Q w'') →
  wp (unlessEither ctx waitCtx last owned k) Q w.
Proof.
  intros HQ Hk. apply wp_quiet; [apply env_ctx|]. intros [e|] w1 _ H1; [by apply wp_ret, HQ|].
  apply wp_quiet; [done|]. intros [e|] w2 E H2.
  - apply wp_giveUp. intros e' w3 H3. eapply HQ, later_trans, later_trans; eauto.
  - by eapply Hk.
Qed.

Lemma waitFor_spec d w : 0 < d →
  cwp (waitFor select_ waitCtx ctx d) (λ r w', now w ≤ now w' ∧ delays w' = delays w ++ [d] ∧
    (r = None → now w + d ≤ now w')) w.
Proof.
  intros Hd. unfold waitFor. rewrite (proj2 (Z.leb_gt _ _) Hd). apply cwp_bind. unfold cwp at 1.
  pose proof (env_select waitCtx d w Hd) as Hs. destruct (select_ waitCtx ctx d w) as [s w1]. cbn [fst snd].
  destruct Hs as (Hn & Hdl & Hs). destruct s.
  - by apply cwp_ret.
  - unfold cwp. destruct (env_ctx w1) as [H1 H2]. rewrite H2. split; [lia|]. split; [done|].
    destruct Hs as [e ->]. done.
  - apply cwp_bind. unfold cwp at 1. destruct (env_ctx w1) as [H1 H2]. destruct (ctx_Err ctx w1) as [[e|] w2]; cbn [fst snd] in *.
    + apply cwp_ret. rewrite H2. by split; [lia|].
    + unfold cwp. destruct (Hwait w2) as [H3 H4]. rewrite H4, H2. split; [lia|]. split; [done|]. destruct Hs as [e ->]. done.
Qed.

(** What a wait for this execution answers: the execution that was asked for; no
    error only for one that has succeeded or waits for a redrive; and for one that
    has ended the result of its status, unless the caller's context is done. *)
Definition waitOutcome (arn : bytes) (res : answer) : Prop :=
  (∀ x, res.1 = Some x → ExecutionARN x = arn) ∧
  (res.2 = None → ∃ x, res.1 = Some x ∧ (Status x = StatusSucceeded ∨ Status x = StatusPendingRedrive)) ∧
  (∀ x, res.1 = Some x → IsTerminal (Status x) = true →
     res = statusResult x ∨ ∃ v err, (ctx_Err ctx v).1 = Some err ∧ res.2 = Some err).

(** An execution that goes on, or whose status is not known. *)
Definition open_ (arn : bytes) (last : option Execution) : Prop :=
  ∀ x, last = Some x → ExecutionARN x = arn ∧ IsTerminal (Status x) = false.

Lemma outcome_open arn last e : open_ arn last → waitOutcome arn (last, Some e).
Proof.
  intros Ho. split; [by intros x Hx; apply Ho|]. split; [done|]. cbn [fst]. intros x Hx Ht.
  destruct (Ho x Hx) as [_ Hf]. congruence.
Qed.

Lemma outcome_canceled arn last e v :
  (∀ x, last = Some x → ExecutionARN x = arn) → (ctx_Err ctx v).1 = Some e → waitOutcome arn (last, Some e).
Proof. intros Ha He. split; [done|]. split; [done|]. intros x Hx _. right. by exists v, e. Qed.

Lemma known_cases s : isKnownStatus s = true → s = StatusRunning ∨ IsTerminal s = true.
Proof.
  unfold isKnownStatus, IsTerminal. cbn [existsb]. destruct (String.eqb_spec s StatusRunning); [by left|]. by right.
Qed.

Lemma terminal_known s : IsTerminal s = true → isKnownStatus s = true.
Proof. intros Ht. apply orb_true_iff. by right. Qed.

Lemma outcome_status x : IsTerminal (Status x) = true → waitOutcome (ExecutionARN x) (statusResult x).
Proof.
  intros Ht. split; [by intros y [= ->]|]. split; [|by intros y [= ->] _; left].
  unfold statusResult. cbn [fst snd]. intros Hn. exists x. split; [done|]. revert Hn.
  destruct (String.eqb_spec (Status x) StatusSucceeded); [by left|].
  destruct (String.eqb (Status x) StatusFailed); [discriminate|].
  destruct (String.eqb (Status x) StatusTimedOut); [discriminate|].
  destruct (String.eqb (Status x) StatusAborted); [discriminate|].
  destruct (String.eqb_spec (Status x) StatusPendingRedrive); [by right|discriminate].
Qed.

(** The delay of round [k]: doubled each time, up to the maximum. *)
Definition doubling (config : waitConfig) (k : Z) : Z := Z.min (pollInterval config * 2 ^ k) (maxPollInterval config).

Definition doublingConfig (config : waitConfig) : Prop :=
  0 < pollInterval config ≤ maxPollInterval config ∧ maxPollInterval config ≤ maxInt64 ∧ backoff config = defaultBackoff.

Lemma doubling_bounds config k : doublingConfig config → 0 ≤ k → pollInterval config ≤ doubling config k.
Proof.
  intros (Hp & _) Hk. unfold doubling. assert (1 ≤ 2 ^ k) by (pose proof (Z.pow_pos_nonneg 2 k); lia). nia.
Qed.

Lemma nextDelay_doubling config k :
  doublingConfig config → 0 ≤ k → nextDelay config (k + 1) (doubling config k) = Some (doubling config (k + 1)).
Proof.
  intros Hc Hk. pose proof (doubling_bounds config k Hc Hk) as Hb. destruct Hc as (Hp & Hm & Hd).
  unfold nextDelay. rewrite Hd. unfold defaultBackoff. rewrite (proj2 (Z.leb_gt (k + 1) 0)) by lia.
  rewrite (proj2 (Z.leb_gt (doubling config k) 0)) by lia. cbn [orb]. unfold doubling in *. rewrite Z.pow_add_r by lia.
  set (p := 2 ^ k) in *. assert (maxInt64 = 2 * (maxInt64 / 2) + 1) as Hodd by done.
  set (half := maxInt64 / 2) in *. clearbody half p.
  destruct (Z.ltb_spec half (Z.min (pollInterval config * p) (maxPollInterval config))).
  - rewrite (proj2 (Z.ltb_ge maxInt64 0)) by lia. destruct (Z.ltb_spec (maxPollInterval config) maxInt64); f_equal; lia.
  - rewrite (proj2 (Z.ltb_ge _ 0)) by lia.
    destruct (Z.ltb_spec (maxPollInterval config) (Z.min (pollInterval config * p) (maxPollInterval config) * 2)); f_equal; lia.
Qed.

Lemma seqZ_snoc {A} (f : Z → A) k : 0 ≤ k → map f (seqZ 0 (k + 1)) = map f (seqZ 0 k) ++ [f k].
Proof. intros Hk. rewrite seqZ_app by lia. rewrite map_app. cbn. by rewrite Z.add_0_l. Qed.

Section deadline.
Context (start T : Z) (config : waitConfig) (owned : bool) (arn : bytes) (before : list Z).
Hypothesis Hconfig : doublingConfig config.
Hypothesis Hdead : ∀ v, start + T ≤ now v → is_Some (ctx_Err waitCtx v).1.

(** [k] timers have fired, and there is time left. *)
Definition rounds (k : Z) (w : W) : Prop :=
  0 ≤ k ∧ k * pollInterval config < T ∧ start + k * pollInterval config ≤ now w ∧
  delays w = before ++ map (doubling config) (seqZ 0 k).

Definition waited (res : answer) (w : W) : Prop :=
  waitOutcome arn res ∧ ∃ n, 0 ≤ n ≤ T / pollInterval config + 1 ∧ delays w = before ++ map (doubling config) (seqZ 0 n).

Lemma rounds_later k w w' : later w w' → rounds k w → rounds k w'.
Proof. intros [H1 H2] (Hk & Ht & Hn & Hd). repeat split; try done; [lia|by rewrite H2]. Qed.

Lemma rounds_waited k res w : waitOutcome arn res → rounds k w → waited res w.
Proof.
  intros Ho (Hk & Ht & Hn & Hd). split; [done|]. exists k. split; [|done]. split; [done|].
  destruct Hconfig as ((Hp & _) & _). assert (k ≤ T / pollInterval config) by (apply Z.div_le_lower_bound; lia). lia.
Qed.

(** One more timer was started. *)
Lemma timer_waited k res w w' :
  rounds k w → delays w' = delays w ++ [doubling config k] → waitOutcome arn res → waited res w'.
Proof.
  intros (Hk & Ht & Hn & Hd) Hd' Ho. split; [done|]. exists (k + 1). rewrite seqZ_snoc, app_assoc, <-Hd by done.
  split; [|done]. destruct Hconfig as ((Hp & _) & _). split; [lia|].
  assert (k ≤ T / pollInterval config) by (apply Z.div_le_lower_bound; lia). lia.
Qed.

Lemma waitLoop_spec fuel : ∀ k last w, rounds k w → open_ arn last → T / pollInterval config + 1 < Z.of_nat fuel + k →
  wp (waitLoop select_ fuel b ctx waitCtx arn config owned last (doubling config k) (k + 1)) waited w.
Proof.
  induction fuel as [|fuel IH]; intros k last w Hr Hlast Hfuel.
  { destruct Hr as (Hk & Ht & _). exfalso. destruct Hconfig as ((Hp & _) & _).
    assert (k ≤ T / pollInterval config) by (apply Z.div_le_lower_bound; lia). lia. }
  cbn [waitLoop]. apply wp_unlessEither.
  { intros e w' Hl. eapply rounds_waited; [by apply outcome_open|by eapply rounds_later]. }
  intros w0 w1 H0 _ H1. apply (rounds_later _ _ _ H0), (rounds_later _ _ _ H1) in Hr. clear w w0 H0 H1.
  pose proof (Describe_arn (Some waitCtx) arn w1) as Hda. apply wp_quiet; [apply Describe_quiet|].
  intros [x derr] w2 E H2. unfold cwp in Hda. rewrite E in Hda. cbn [fst snd] in Hda. destruct Hda as [Hx Hnone].
  apply (rounds_later _ _ _ H2) in Hr. cbv zeta beta iota. apply wp_quiet; [apply env_ctx|]. intros e w3 E3 H3.
  apply (rounds_later _ _ _ H3) in Hr. destruct e as [e|].
  { apply wp_ret. eapply rounds_waited; [|done]. apply (outcome_canceled _ _ _ w2); [|by rewrite E3].
    intros y Hy. by apply Hx. }
  destruct derr as [derr|].
  { apply wp_giveUp. intros e w4 H4. eapply rounds_waited; [|by eapply rounds_later]. apply outcome_open. intros y Hy.
    destruct (Hx y Hy) as [Ha Hk]. split; [done|]. destruct (IsTerminal (Status y)) eqn:Ht; [|done].
    enough (isKnownStatus (Status y) = true) by (destruct Hk as [Hk _]; by specialize (Hk ltac:(done))).
    by apply terminal_known. }
  destruct x as [x|]; [|by destruct (Hnone eq_refl)]. destruct (Hx x eq_refl) as [Ha Hk].
  destruct (String.eqb_spec (Status x) StatusRunning) as [Hrun|Hrun].
  2: { apply wp_ret. eapply rounds_waited; [|done]. rewrite <-Ha. apply outcome_status.
       by destruct (known_cases (Status x) (proj2 Hk eq_refl)). }
  assert (open_ arn (Some x)) as Hopen by (intros y [= <-]; by rewrite Hrun).
  assert (0 ≤ k) as Hk0 by apply Hr. pose proof (doubling_bounds config k Hconfig Hk0) as Hdb.
  assert (0 < doubling config k) as Hdpos by (destruct Hconfig as ((Hp & _) & _); lia).
  apply wp_bind, wp_call. pose proof (waitFor_spec (doubling config k) w3 Hdpos) as Hw. unfold cwp in Hw.
  destruct (waitFor select_ waitCtx ctx (doubling config k) w3) as [r w4]. cbn [fst snd] in *. destruct Hw as (Hn4 & Hd4 & Hfired).
  assert (∀ e w5, later w4 w5 → waited (Some x, Some e) w5) as Hgive.
  { intros e w5 [_ H5]. eapply (timer_waited k _ w3); [done|by rewrite H5|by apply outcome_open]. }
  destruct r as [e|]; [by apply wp_giveUp; intros; apply Hgive|]. specialize (Hfired eq_refl).
  apply wp_unlessEither; [done|]. intros w5 w6 H5 E6 H6.
  rewrite nextDelay_doubling by done.
  apply IH; [|done|lia]. destruct Hr as (_ & Ht & Hn & Hd). destruct H5 as [H5 D5], H6 as [H6 D6].
  assert (now w5 < start + T) as Hleft.
  { destruct (Z.lt_ge_cases (now w5) (start + T)) as [|Hge]; [done|]. destruct (Hdead w5 Hge) as [e He]. by rewrite E6 in He. }
  split; [lia|]. split; [lia|]. split; [lia|]. rewrite seqZ_snoc, app_assoc, <-Hd by done. by rewrite D6, D5, Hd4.
Qed.
End deadline.
End round.
End waiting.

(** C19. Waiting is bounded.  With a timeout of its own and the default
    backoff, [Wait] always returns, after at most one timer per poll interval
    in the timeout and one more; the timers have the first interval doubled
    each time, up to the maximum.  What it returns is the execution that was
    asked for; there is no error only when that execution has succeeded or
    waits for a redrive; and an execution that has ended gives the error of
    its status, unless the caller's context is done. *)
Theorem wait_bounded {W} WithTimeout select_ (now : W → Z) (delays : W → list Z) (b : Bridge (W := W)) ctx arn options config fuel w :
  WaitEnv WithTimeout select_ now delays b (orBackground ctx) →
  normalizeWaitOptions options = Ok config → 0 < optTimeout options → optBackoff options = None →
  in_i64 (optMaxPollInterval options) → optTimeout options / pollInterval config + 1 < Z.of_nat fuel →
  wp (Wait WithTimeout select_ fuel (Some b) ctx arn options) (λ res w',
    waitOutcome (orBackground ctx) arn res ∧
    ∃ n, 0 ≤ n ≤ optTimeout options / pollInterval config + 1 ∧
      delays w' = delays w ++ map (doubling config) (seqZ 0 n)) w.
Proof.
  intros Henv Hconf HT Hback Hmax Hfuel.
  assert (doublingConfig config) as Hc.
  { revert Hconf. unfold normalizeWaitOptions. cbv zeta. rewrite Hback.
    destruct (Z.eqb_spec (optPollInterval options) 0), (Z.eqb_spec (optMaxPollInterval options) 0);
      destruct (_ || _ || _ || _) eqn:Hv; try done; intros [= <-]; bools; split; cbn; unfold defaultPollInterval, defaultMaxPoll,
      second, maxInt64, in_i64 in *; try lia; (split; [lia|done]). }
  assert (0 ≤ optTimeout options / pollInterval config) as Hdiv by (destruct Hc as ((? & _) & _); apply Z.div_pos; lia).
  assert (∀ e w', later now delays w w' → waitOutcome (orBackground ctx) arn (failed e) ∧
    ∃ n, 0 ≤ n ≤ optTimeout options / pollInterval config + 1 ∧ delays w' = delays w ++ map (doubling config) (seqZ 0 n)) as Hearly.
  { intros e w' [_ Hd]. split; [by apply outcome_open|]. exists 0. split; [lia|]. rewrite Hd. cbn. by rewrite app_nil_r. }
  unfold Wait. cbv zeta. apply (wp_quiet now delays); [exact (@env_ctx _ _ _ _ _ _ _ Henv)|]. intros [e|] w1 _ H1; [by apply wp_ret, Hearly|].
  destruct (validateBridge (Some b)) as [b'|] eqn:Hb; [|by apply wp_ret, Hearly].
  assert (b' = b) as -> by (revert Hb; unfold validateBridge; by destruct (_ || _); intros [=]).
  destruct (validateARN arn); [by apply wp_ret, Hearly|]. rewrite Hconf, (proj2 (Z.ltb_lt _ _) HT).
  apply wp_bind, wp_call. pose proof (@env_timeout _ _ _ _ _ _ _ Henv (optTimeout options) w1) as Ht.
  destruct (WithTimeout (orBackground ctx) (optTimeout options) w1) as [waitCtx w2]. cbn [fst snd]. destruct Ht as (H2 & Hq & Hdead).
  assert (pollInterval config = doubling config 0) as Hp0 by (unfold doubling; destruct Hc as (? & _); lia).
  rewrite Hp0 at 1. apply (waitLoop_spec WithTimeout select_ now delays b (orBackground ctx) waitCtx Hq (now w2) (optTimeout options)
    config true arn (delays w) Hc Hdead fuel 0); [|done|lia].
  split; [lia|]. split; [lia|]. split; [lia|]. cbn. rewrite app_nil_r. destruct H1 as [_ D1], H2 as [_ D2]. by rewrite D2.
Qed.

(** ** What is sent *)

(** The requests that the service accepts. *)
Definition acceptable (jsonValid : bytes → bool) (max : Z) (input : StartExecutionInput) : Prop :=
  (ValidString (si_stateMachineArn input) = true ∧ TrimSpace (runesOf (si_stateMachineArn input)) ≠ [] ∧
   size (si_stateMachineArn input) ≤ 256) ∧
  (ValidString (si_input input) = true ∧ jsonValid (si_input input) = true ∧ 1 ≤ size (si_input input) ≤ max) ∧
  (∀ name, si_name input = Some name → 1 ≤ size name ≤ 80 ∧ isASCII name = true ∧ forallb nameByte (runesOf name) = true) ∧
  (∀ header, si_traceHeader input = Some header → 1 ≤ size header ≤ 256 ∧ isASCII header = true).

Lemma size_pos (l : bytes) : l ≠ [] → 1 ≤ size l.
Proof. destruct l; [done|]. intros _. unfold size. cbn [length]. lia. Qed.

Lemma optionalString_Some v x : optionalString v = Some x ↔ v = x ∧ v ≠ [].
Proof. unfold optionalString. case_bool_decide; naive_solver. Qed.

Lemma start_request_acceptable {W} jsonValid (b : Bridge (W := W)) r r' :
  validateStartRequest jsonValid b r = Ok r' → acceptable jsonValid (maxInputSize b) (startInputFor r').
Proof.
  unfold validateStartRequest, validateARN. destruct (validARNValue (sr_StateMachineARN r)) eqn:Ha; [|done].
  destruct (if bool_decide _ then None else _) eqn:Hn; [done|]. destruct (validTraceHeader (sr_TraceHeader r)) eqn:Ht; [|done].
  cbn [negb]. set (input := match sr_Input r with [] => _ | _ => _ end). cbv zeta.
  assert (input ≠ []) as Hne by (unfold input; by destruct (sr_Input r)).
  destruct (maxInputSize b <? size input) eqn:Hs; [done|]. destruct (_ || _) eqn:Hj; [done|]. intros [= <-].
  unfold validARNValue in Ha. bools. unfold acceptable. cbn [startInputFor si_stateMachineArn si_input si_name si_traceHeader
    sr_StateMachineARN sr_Input sr_Name sr_TraceHeader]. split; [|split; [|split]].
  - split; [done|]. split; [by eapply bool_decide_eq_false|]. unfold maxARNSize in *. lia.
  - split; [done|]. split; [done|]. split; [by apply size_pos|done].
  - intros name [<- Hne']%optionalString_Some. rewrite bool_decide_false in Hn by done. revert Hn. unfold validateExecutionName.
    cbv zeta. destruct (_ || _ || _) eqn:Hv; [done|]. destruct (forallb nameByte _); [|done]. intros _.
    bools. unfold maxExecutionName in *. split; [lia|done].
  - intros header [<- Hne']%optionalString_Some. revert Ht. unfold validTraceHeader. rewrite bool_decide_false by done.
    cbn [orb]. intros Hv. bools. unfold maxTraceHeaderSize in *. split; [|done]. split; [by apply size_pos|done].
Qed.

Lemma unlessDone_ext {W} (ctx : Context W) (k1 k2 : Call W answer) : (∀ w, k1 w = k2 w) → ∀ w, unlessDone ctx k1 w = unlessDone ctx k2 w.
Proof. intros Hk w. unfold unlessDone, mbind, call_bind. by destruct (ctx_Err ctx w) as [[err|] w']. Qed.

(** [Start] sends nothing that the service would refuse: how a client answers a
    request outside the limits (an ARN, a name, a trace header or an input that is
    too long or has characters that are not allowed, an input that is not JSON) never matters,
    since two clients that agree on the requests within them give the same answers. *)
Theorem start_sends_acceptable {W} jsonValid (b1 b2 : Bridge (W := W)) ctx r w :
  maxInputSize b1 = maxInputSize b2 →
  (∀ input v, acceptable jsonValid (maxInputSize b1) input →
     StartExecution (client b1) input v = StartExecution (client b2) input v) →
  Start jsonValid (Some b1) ctx r w = Start jsonValid (Some b2) ctx r w.
Proof.
  intros Hmax Hagree. unfold Start. cbv zeta. apply unlessDone_ext. clear w. intros w.
  unfold validateBridge. rewrite Hmax. destruct (_ || _); [done|].
  assert (validateStartRequest jsonValid b1 r = validateStartRequest jsonValid b2 r) as Hv
    by (unfold validateStartRequest; by rewrite Hmax).
  destruct (validateStartRequest jsonValid b1 r) as [r'|] eqn:Hr; rewrite <-Hv; [|done].
  apply unlessDone_ext. clear w. intros w. apply unlessDone_ext. clear w. intros w.
  unfold mbind, call_bind. by rewrite (Hagree _ w (start_request_acceptable _ _ _ _ Hr)).
Qed.

(** ** A sample service *)

(** A clock with the timers that were started; every timer fires, and the
    execution ends after five seconds. *)
Record sampleWorld := mkSample { sampleNow : Z; sampleDelays : list Z }.

Definition sampleARN : bytes := lit "arn:aws:states:execution".

Definition sampleClient (accept : StartExecutionInput → bool) : Client (W := sampleWorld) := {|
  StartExecution := λ input w,
    (if accept input then (Some (mkStartOutput (Some sampleARN) (Some (sampleNow w))), None)
     else (None, Some (Sentinel "ValidationException")), w);
  DescribeExecution := λ arn w,
    ((Some (mkDescribeOutput (Some arn) (Some (lit "arn:machine")) None None None None None
              (if sampleNow w <? 5 * second then StatusRunning else StatusSucceeded) (Some 0) None), None), w);
  StopExecution := None
|}.

Definition sampleBridge : Bridge (W := sampleWorld) := mkBridge (sampleClient (λ _, true)) 262144.

Definition sampleTimeout (ctx : Context sampleWorld) (t : Z) : Call sampleWorld (Context sampleWorld) := λ w,
  (mkContext (λ v, (if sampleNow w + t <=? sampleNow v then Some DeadlineExceeded else None, v)), w).

Definition sampleSelect (_ _ : Context sampleWorld) (d : Z) : Call sampleWorld selected := λ w,
  (TimerFired, mkSample (sampleNow w + d) (sampleDelays w ++ [d])).

Lemma sampleEnv : WaitEnv sampleTimeout sampleSelect sampleNow sampleDelays sampleBridge (orBackground None).
Proof.
  split.
  - intros arn w. apply later_refl.
  - intros w. apply later_refl.
  - intros t w. cbn. split; [apply later_refl|]. split; [intros v; apply later_refl|].
    intros v Hv. cbn. by rewrite (proj2 (Z.leb_le _ _) Hv).
  - intros c d w Hd. cbn. split; [lia|]. split; [done|lia].
Qed.

Definition sampleWait : WaitOptions := mkWaitOptions 0 (3 * second) (10 * second) None.

Lemma wait_bounded_witness :
  ∃ res w', Wait sampleTimeout sampleSelect 12 (Some sampleBridge) None sampleARN sampleWait (mkSample 0 []) = Some (res, w') ∧
    waitOutcome (W := sampleWorld) (orBackground None) sampleARN res ∧ sampleDelays w' = [second; 2 * second; 3 * second].
Proof.
  destruct (wait_bounded sampleTimeout sampleSelect sampleNow sampleDelays sampleBridge None sampleARN sampleWait
    (mkWaitConfig second (3 * second) defaultBackoff) 12 (mkSample 0 []) sampleEnv) as (res & w' & Hrun & Hout & _).
  - reflexivity.
  - reflexivity.
  - reflexivity.
  - unfold in_i64. split; vm_compute; [discriminate|reflexivity].
  - vm_compute. reflexivity.
  - exists res, w'. split; [exact Hrun|]. split; [exact Hout|].
    vm_compute in Hrun. injection Hrun as _ Hw. rewrite <-Hw. vm_compute. reflexivity.
Defined.

(** One client refuses an ARN that is too long; no such ARN is sent. *)
Definition sampleLimit (input : StartExecutionInput) : bool := size (si_stateMachineArn input) <=? 256.

Lemma start_sends_acceptable_witness :
  Start (λ _, true) (Some sampleBridge) None (mkStartRequest (lit "arn") [] [] []) (mkSample 7 []) =
  Start (λ _, true) (Some (mkBridge (sampleClient sampleLimit) 262144)) None (mkStartRequest (lit "arn") [] [] []) (mkSample 7 []).
Proof.
  apply (start_sends_acceptable (λ _, true) sampleBridge (mkBridge (sampleClient sampleLimit) 262144)); [reflexivity|].
  intros input v ((_ & _ & Hsize) & _). unfold sampleBridge, client, sampleClient, StartExecution, sampleLimit.
  rewrite (proj2 (Z.leb_le _ _) Hsize). reflexivity.
Defined.
