(* ===== verification/RedisMap.v ===== *)
(** * Typed values in Redis

    Models src/redis/mapcache (mapcache.go, errors.go) and src/redis/bucket
    (bucket.go, errors.go).  The two packages have the same operations and scripts
    and differ in their names only, so both are instances of one definition per operation.
    The Lua scripts run on a server; the client is a set of calls on a world.  Log
    records are left out. *)

From S2P Require Import Prelude GoError GoText GoEncoding RedisKey RedisRateLimit.

Local Open Scope Z_scope.

(** ** Names *)

(** What tells the packages apart. *)
Record package := mkPackage { pkg_name : string; pkg_segment : text; pkg_family : text }.

Definition mapPackage : package := mkPackage "redismap" (lit "map") (lit "redis-mapcache").
Definition bucketPackage : package := mkPackage "redisbucket" (lit "bucket") (lit "redis-bucket").

Definition sentinel (name : string) (pkg : package) : error := Sentinel (pkg_name pkg ++ name).
Definition ErrInvalidClient : package → error := sentinel ".ErrInvalidClient".
Definition ErrInvalidOptions : package → error := sentinel ".ErrInvalidOptions".
Definition ErrInvalidContext : package → error := sentinel ".ErrInvalidContext".
Definition ErrSerialization : package → error := sentinel ".ErrSerialization".
Definition ErrInvalidPayload : package → error := sentinel ".ErrInvalidPayload".
Definition ErrPayloadTooLarge : package → error := sentinel ".ErrPayloadTooLarge".
Definition ErrMalformedResult : package → error := sentinel ".ErrMalformedResult".
Definition ErrUninitialized : package → error := sentinel ".ErrUninitialized".

(** ** errors.go *)

Section errors.
Variable pkg : package.

(** Its [Is] answers for the chain of the cause only. *)
Definition newError (operation keyID : text) (cause : error) : error :=
  Typed (pkg_name pkg ++ ".Error") [fieldOf operation; fieldOf keyID] [] (Some cause).

Definition providerError (operation keyID : text) (cause : error) (unknown : bool) : error :=
  let cause := if unknown then errors_Join (Some cause) (Some ErrCommitUnknown) else Some cause in
  newError operation keyID (NewOpErrorWithRedactedKey (mkLabels (pkg_family pkg) operation) keyID cause).

Definition codecError (operation keyID : text) (kind cause : error) : error :=
  newError operation keyID (Joined [kind; cause]).

Definition malformedMutation (operation keyID : text) : error :=
  providerError operation keyID (ErrMalformedResult pkg) true.
End errors.

(** ** The scripts *)

Record entry := mkEntry { e_payload : bytes; e_expiresAt : option Z }.

(** The server: its clock in milliseconds and its keys. *)
Record server := mkServer { clock : Z; entries : gmap text entry }.

Definition size (b : bytes) : Z := Z.of_nat (length b).

(** The value of a key that has not expired. *)
Definition live (s : server) (key : text) : option bytes :=
  match entries s !! key with
  | Some e => match e_expiresAt e with
              | Some t => if t <=? clock s then None else Some (e_payload e)
              | None => Some (e_payload e)
              end
  | None => None
  end.

Definition EXISTS (s : server) (key : text) : bool := match live s key with Some _ => true | None => false end.

(** [GETRANGE key 0 last]: the empty string for a key that is not there. *)
Definition GETRANGE (s : server) (key : text) (last : Z) : bytes := take (Z.to_nat (last + 1)) (default [] (live s key)).

(** [SET key value] with the time to live in milliseconds, 0 for none. *)
Definition SET (s : server) (key : text) (value : bytes) (ttl : Z) : server :=
  mkServer (clock s) (<[key := mkEntry value (if ttl =? 0 then None else Some (clock s + ttl))]> (entries s)).

Definition DEL (s : server) (key : text) : server := mkServer (clock s) (delete key (entries s)).

Definition SETNX (s : server) (key : text) (value : bytes) (ttl : Z) : bool * server :=
  if EXISTS s key then (false, s) else (true, SET s key value ttl).

Definition boundedGetScript (key : text) (last limit : Z) (s : server) : list reply * server :=
  let value := GETRANGE s key last in
  (if bool_decide (value = []) && negb (EXISTS s key) then [RInt 0]
   else if limit <? size value then [RInt 2]
   else [RInt 1; RText value], s).

Definition getAndDeleteScript (key : text) (limit : Z) (s : server) : list reply * server :=
  let value := GETRANGE s key limit in
  if bool_decide (value = []) && negb (EXISTS s key) then ([RInt 0], s)
  else if limit <? size value then ([RInt 2], s)
  else ([RInt 1; RText value], DEL s key).

Definition compareAndSetScript (key : text) (expected replacement : bytes) (ttl limit : Z) (s : server) : Z * server :=
  let current := GETRANGE s key limit in
  if bool_decide (current = []) && negb (EXISTS s key) then (0, s)
  else if limit <? size current then (2, s)
  else if negb (bool_decide (current = expected)) then (0, s)
  else (1, SET s key replacement ttl).

(** ** Results of scripts *)

Definition scriptInt (value : reply) : option Z :=
  match value with
  | RInt z => Some z
  | RText t => match ParseInt t with Ok z => Some z | Fail _ => None end
  | ROther => None
  end.

Definition resultBytes (value : reply) : option bytes :=
  match value with RText t => Some t | _ => None end.

(** [parseBoundedGetResult] and [parseGetAndDeleteResult] on a slice: the status
    with the payload of a hit; [None] when the result is malformed. *)
Definition parseBoundedGetResult (values : list reply) : option (Z * option bytes) :=
  match values with
  | [] => None
  | first :: rest =>
      match scriptInt first with
      | None => None
      | Some status =>
          if (status =? 0) || (status =? 2) then match rest with [] => Some (status, None) | _ => None end
          else if status =? 1 then
            match rest with
            | [value] => match resultBytes value with Some payload => Some (status, Some payload) | None => None end
            | _ => None
            end
          else None
      end
  end.

Definition parseGetAndDeleteResult (values : list reply) : option (Z * option bytes) :=
  match values with
  | [] => None
  | first :: rest =>
      match scriptInt first with
      | None => None
      | Some status =>
          if status =? 0 then match rest with [] => Some (status, None) | _ => None end
          else if status =? 1 then
            match rest with
            | [value] => match resultBytes value with Some payload => Some (status, Some payload) | None => None end
            | _ => None
            end
          else if status =? 2 then match rest with [] => Some (status, None) | _ => None end
          else None
      end
  end.

(** ** Options *)

Definition DefaultMaxPayloadBytes : Z := 2 ^ 20.
Definition MaxPayloadBytesLimit : Z := 64 * 2 ^ 20.

Definition normalizeMaxPayloadBytes (pkg : package) (n : Z) : result Z :=
  if n =? 0 then Ok DefaultMaxPayloadBytes
  else if (n <? 1) || (MaxPayloadBytesLimit <? n) then Fail (Errorf "max payload bytes" [ErrInvalidOptions pkg])
  else Ok n.

(** In milliseconds; the wire has no other unit. *)
Definition normalizeTTL (ttl : Z) : result Z :=
  if ttl <? 0 then Fail (Errorf "negative ttl" [ErrInvalidTTL])
  else if ttl =? 0 then Ok 0
  else if ttl <? Millisecond then Ok 1
  else Ok (ttl / Millisecond).

Section cache.
Context {W V : Type} (sha256 : text → list Z) (pkg : package).

(** [serialization.Serializer] *)
Record Serializer := mkSerializer { Marshal : V → result bytes; Unmarshal : bytes → result V }.

(** A nil command is [None]; [Eval] with [Result], which is a slice or something
    else, and with [Int64]. *)
Record Client := mkClient {
  client_Set : text → bytes → Z → Call W (option (option error));
  client_SetNX : text → bytes → Z → Call W (option (bool * option error));
  client_Del : text → Call W (option (option error));
  evalBoundedGet : text → Z → Z → Call W (option (option (list reply) * option error));
  evalGetAndDelete : text → Z → Call W (option (option (list reply) * option error));
  evalCompareAndSet : text → bytes → bytes → Z → Z → Call W (option (Z * option error))
}.

Record Options := mkOptions {
  optNamespace : text;
  optHashTag : text;
  optSerializer : option Serializer;
  optMaxPayloadBytes : Z
}.

Record MapCache := mkMapCache {
  client : Client;
  serializer : Serializer;
  keys : KeyBuilder;
  maxPayloadBytes : Z
}.

Definition New (c : option Client) (options : Options) : result MapCache :=
  match c with
  | None => Fail (ErrInvalidClient pkg)
  | Some c =>
      match optSerializer options with
      | None => Fail (ErrInvalidOptions pkg)
      | Some ser =>
          match normalizeMaxPayloadBytes pkg (optMaxPayloadBytes options) with
          | Fail err => Fail err
          | Ok max =>
              match NewKeyBuilder (optNamespace options) with
              | Fail err => Fail err
              | Ok builder =>
                  match Structural builder [pkg_segment pkg] with
                  | Fail err => Fail err
                  | Ok builder =>
                      match (if bool_decide (optHashTag options = []) then Ok builder
                             else WithHashTag builder (optHashTag options)) with
                      | Fail err => Fail err
                      | Ok builder => Ok (mkMapCache c ser builder max)
                      end
                  end
              end
          end
      end
  end.

(** [ready], [validateContext] and the key of an operation; a cache that is nil or
    a zero value is [None]. *)
Definition begin {A} (m : option MapCache) (ctx : option (Context W)) (logicalKey : text)
    (k : MapCache → Context W → Key → Call W (result A)) : Call W (result A) :=
  match m with
  | None => mret (Fail (ErrUninitialized pkg))
  | Some m =>
      match ctx with
      | None => mret (Fail (ErrInvalidContext pkg))
      | Some ctx =>
          err ← ctx_Err ctx;
          match err with
          | Some err => mret (Fail err)
          | None =>
              match LogicalKey sha256 (keys m) logicalKey with
              | Fail err => mret (Fail err)
              | Ok key => k m ctx key
              end
          end
      end
  end.

(** The serialized form of a value, within the limit. *)
Definition encoded (m : MapCache) (operation : text) (key : Key) (value : V) : result bytes :=
  match Marshal (serializer m) value with
  | Fail err => Fail (codecError pkg operation (RedactedID key) (ErrSerialization pkg) err)
  | Ok payload =>
      if maxPayloadBytes m <? size payload
      then Fail (newError pkg operation (RedactedID key) (ErrPayloadTooLarge pkg)) else Ok payload
  end.

(** The value of a payload; a hit. *)
Definition decoded (m : MapCache) (operation : text) (key : Key) (payload : bytes) : result (option V) :=
  match Unmarshal (serializer m) payload with
  | Fail err => Fail (codecError pkg operation (RedactedID key) (ErrInvalidPayload pkg) err)
  | Ok value => Ok (Some value)
  end.

(** [if err := ctx.Err(); err != nil { return err }] *)
Definition unlessDone {A} (ctx : Context W) (k : Call W (result A)) : Call W (result A) :=
  err ← ctx_Err ctx;
  match err with Some err => mret (Fail err) | None => k end.

(** [MapCache.Get]: the value, or nothing for a key that is not there. *)
Definition Get (m : option MapCache) (ctx : option (Context W)) (logicalKey : text) : Call W (result (option V)) :=
  begin m ctx logicalKey (λ m ctx key,
  let operation := lit "get" in
  let id := RedactedID key in
  cmd ← evalBoundedGet (client m) (Value key) (maxPayloadBytes m) (maxPayloadBytes m);
  match cmd with
  | None => mret (Fail (newError pkg operation id (ErrMalformedResult pkg)))
  | Some (res, err) =>
      ctxErr ← ctx_Err ctx;
      mret (match ctxErr, err with
            | Some ctxErr, Some err => Fail (Joined [providerError pkg operation id err false; ctxErr])
            | Some ctxErr, None => Fail ctxErr
            | None, Some err => Fail (providerError pkg operation id err false)
            | None, None =>
                match (values ← res; parseBoundedGetResult values) with
                | None => Fail (newError pkg operation id (ErrMalformedResult pkg))
                | Some (status, hit) =>
                    if status =? 2 then Fail (newError pkg operation id (ErrPayloadTooLarge pkg))
                    else match hit with
                         | None => Ok None
                         | Some payload =>
                             if maxPayloadBytes m <? size payload
                             then Fail (newError pkg operation id (ErrPayloadTooLarge pkg))
                             else decoded m operation key payload
                         end
                end
            end)
  end).

(** [MapCache.prepareWrite] *)
Definition prepareWrite {A} (m : option MapCache) (ctx : option (Context W)) (operation logicalKey : text) (value : V) (ttl : Z)
    (k : MapCache → Context W → Key → bytes → Z → Call W (result A)) : Call W (result A) :=
  begin m ctx logicalKey (λ m ctx key,
  match normalizeTTL ttl with
  | Fail err => mret (Fail err)
  | Ok normalized =>
      match encoded m operation key value with
      | Fail err => mret (Fail err)
      | Ok payload => unlessDone ctx (k m ctx key payload normalized)
      end
  end).

(** [MapCache.finishMutation] *)
Definition finishMutation (ctx : Context W) (operation id : text) (dispatchErr : option error) : Call W (option error) :=
  ctxErr ← ctx_Err ctx;
  mret (match dispatchErr, ctxErr with
        | Some err, None => Some (providerError pkg operation id err true)
        | Some err, Some ctxErr => Some (Joined [providerError pkg operation id err true; ctxErr])
        | None, ctxErr => ctxErr
        end).

(** The result of an operation without a value. *)
Definition finished (err : option error) : result unit := match err with Some err => Fail err | None => Ok tt end.

(** The error of a mutation whose command reported one. *)
Definition dispatchFailed {A} (ctx : Context W) (operation id : text) (err : error) : Call W (result A) :=
  e ← finishMutation ctx operation id (Some err);
  mret (Fail (default err e)).

(** [MapCache.Set] *)
Definition Set_ (m : option MapCache) (ctx : option (Context W)) (logicalKey : text) (value : V) (ttl : Z) : Call W (result unit) :=
  let operation := lit "set" in
  prepareWrite m ctx operation logicalKey value ttl (λ m ctx key payload ttl,
  cmd ← client_Set (client m) (Value key) payload ttl;
  match cmd with
  | None => mret (Fail (malformedMutation pkg operation (RedactedID key)))
  | Some dispatchErr =>
      err ← finishMutation ctx operation (RedactedID key) dispatchErr;
      mret (finished err)
  end).

(** [MapCache.SetIfAbsent] *)
Definition SetIfAbsent (m : option MapCache) (ctx : option (Context W)) (logicalKey : text) (value : V) (ttl : Z) : Call W (result bool) :=
  let operation := lit "set-if-absent" in
  prepareWrite m ctx operation logicalKey value ttl (λ m ctx key payload ttl,
  cmd ← client_SetNX (client m) (Value key) payload ttl;
  match cmd with
  | None => mret (Fail (malformedMutation pkg operation (RedactedID key)))
  | Some (_, Some err) => dispatchFailed ctx operation (RedactedID key) err
  | Some (stored, None) => unlessDone ctx (mret (Ok stored))
  end).

(** [MapCache.GetAndDelete] *)
Definition GetAndDelete (m : option MapCache) (ctx : option (Context W)) (logicalKey : text) : Call W (result (option V)) :=
  let operation := lit "get-and-delete" in
  begin m ctx logicalKey (λ m ctx key,
  let id := RedactedID key in
  cmd ← evalGetAndDelete (client m) (Value key) (maxPayloadBytes m);
  match cmd with
  | None => mret (Fail (malformedMutation pkg operation id))
  | Some (_, Some err) => dispatchFailed ctx operation id err
  | Some (res, None) =>
      unlessDone ctx (mret (
      match (values ← res; parseGetAndDeleteResult values) with
      | None => Fail (malformedMutation pkg operation id)
      | Some (status, hit) =>
          if status =? 2 then Fail (newError pkg operation id (ErrPayloadTooLarge pkg))
          else match hit with None => Ok None | Some payload => decoded m operation key payload end
      end))
  end).

(** [MapCache.CompareAndSet] *)
Definition CompareAndSet (m : option MapCache) (ctx : option (Context W)) (logicalKey : text) (expected replacement : V) (ttl : Z)
    : Call W (result bool) :=
  let operation := lit "compare-and-set" in
  begin m ctx logicalKey (λ m ctx key,
  let id := RedactedID key in
  match normalizeTTL ttl with
  | Fail err => mret (Fail err)
  | Ok ttl =>
      match encoded m operation key expected with
      | Fail err => mret (Fail err)
      | Ok expectedPayload =>
          match encoded m operation key replacement with
          | Fail err => mret (Fail err)
          | Ok replacementPayload =>
              unlessDone ctx (
              cmd ← evalCompareAndSet (client m) (Value key) expectedPayload replacementPayload ttl (maxPayloadBytes m);
              match cmd with
              | None => mret (Fail (malformedMutation pkg operation id))
              | Some (_, Some err) => dispatchFailed ctx operation id err
              | Some (res, None) =>
                  unlessDone ctx (mret (
                  if res =? 0 then Ok false
                  else if res =? 1 then Ok true
                  else if res =? 2 then Fail (newError pkg operation id (ErrPayloadTooLarge pkg))
                  else Fail (malformedMutation pkg operation id)))
              end)
          end
      end
  end).

(** [MapCache.Delete] *)
Definition Delete (m : option MapCache) (ctx : option (Context W)) (logicalKey : text) : Call W (result unit) :=
  let operation := lit "delete" in
  begin m ctx logicalKey (λ m ctx key,
  cmd ← client_Del (client m) (Value key);
  match cmd with
  | None => mret (Fail (malformedMutation pkg operation (RedactedID key)))
  | Some dispatchErr =>
      err ← finishMutation ctx operation (RedactedID key) dispatchErr;
      mret (finished err)
  end).
End cache.

(** ** Requests *)

Inductive request (V : Type) : Type :=
| RGet
| RSet (value : V) (ttl : Z)
| RSetIfAbsent (value : V) (ttl : Z)
| RGetAndDelete
| RCompareAndSet (expected replacement : V) (ttl : Z)
| RDelete.
Arguments RGet {V}.
Arguments RSet {V} _ _.
Arguments RSetIfAbsent {V} _ _.
Arguments RGetAndDelete {V}.
Arguments RCompareAndSet {V} _ _ _.
Arguments RDelete {V}.

Inductive answer (V : Type) : Type := AValue (v : option V) | ABool (b : bool) | ADone.
Arguments AValue {V} _.
Arguments ABool {V} _.
Arguments ADone {V}.

Definition mapAnswer {W A B} (f : A → B) (c : Call W (result A)) : Call W (result B) :=
  r ← c;
  mret (match r with Ok a => Ok (f a) | Fail e => Fail e end).

(** An operation on one key. *)
Definition perform {W V} (sha256 : text → list Z) (pkg : package) (m : option (MapCache (W := W) (V := V)))
    (ctx : option (Context W)) (logicalKey : text) (r : request V) : Call W (result (answer V)) :=
  match r with
  | RGet => mapAnswer AValue (Get sha256 pkg m ctx logicalKey)
  | RSet value ttl => mapAnswer (λ _, ADone) (Set_ sha256 pkg m ctx logicalKey value ttl)
  | RSetIfAbsent value ttl => mapAnswer ABool (SetIfAbsent sha256 pkg m ctx logicalKey value ttl)
  | RGetAndDelete => mapAnswer AValue (GetAndDelete sha256 pkg m ctx logicalKey)
  | RCompareAndSet expected replacement ttl =>
      mapAnswer ABool (CompareAndSet sha256 pkg m ctx logicalKey expected replacement ttl)
  | RDelete => mapAnswer (λ _, ADone) (Delete sha256 pkg m ctx logicalKey)
  end.

(** ** The specification: a map of values with times to live *)

Section spec.
Context {W V : Type} (m : MapCache (W := W) (V := V)) (k : text).

Definition put (s : server) (value : V) (ttl : Z) : server :=
  match Marshal (serializer m) value, normalizeTTL ttl with
  | Ok payload, Ok ttl => SET s k payload ttl
  | _, _ => s
  end.

Definition holds (s : server) (value : V) : bool :=
  match Marshal (serializer m) value, live s k with
  | Ok payload, Some current => bool_decide (current = payload)
  | _, _ => false
  end.

(** What a request does to the server. *)
Definition change (r : request V) (s : server) : server :=
  match r with
  | RGet => s
  | RSet value ttl => put s value ttl
  | RSetIfAbsent value ttl => if EXISTS s k then s else put s value ttl
  | RGetAndDelete => match live s k with Some p => if maxPayloadBytes m <? size p then s else DEL s k | None => s end
  | RCompareAndSet expected replacement ttl => if holds s expected then put s replacement ttl else s
  | RDelete => DEL s k
  end.

(** The answer of a request that finds the server like this. *)
Definition answers (r : request V) (s : server) (a : answer V) : Prop :=
  match r with
  | RGet | RGetAndDelete =>
      match live s k with
      | Some p => ∃ v, size p ≤ maxPayloadBytes m ∧ Unmarshal (serializer m) p = Ok v ∧ a = AValue (Some v)
      | None => a = AValue None
      end
  | RSet value ttl => a = ADone ∧ ∃ p, Marshal (serializer m) value = Ok p ∧ size p ≤ maxPayloadBytes m ∧ is_Ok (normalizeTTL ttl)
  | RSetIfAbsent value ttl =>
      a = ABool (negb (EXISTS s k)) ∧
      ∃ p, Marshal (serializer m) value = Ok p ∧ size p ≤ maxPayloadBytes m ∧ is_Ok (normalizeTTL ttl)
  | RCompareAndSet expected replacement ttl =>
      a = ABool (holds s expected) ∧
      ∃ p, Marshal (serializer m) replacement = Ok p ∧ size p ≤ maxPayloadBytes m ∧ is_Ok (normalizeTTL ttl)
  | RDelete => a = ADone
  end.
End spec.

(** ** The scripts do what the specification says *)

Lemma getrange_live s key n : 0 ≤ n →
  GETRANGE s key n = take (Z.to_nat (n + 1)) (default [] (live s key)) ∧
  (n <? size (GETRANGE s key n)) = (n <? size (default [] (live s key))).
Proof.
  intros Hn. split; [done|]. unfold GETRANGE, size. set (l := default [] (live s key)). rewrite length_take.
  destruct (Z.ltb_spec n (Z.of_nat (length l))), (Z.ltb_spec n (Z.of_nat (Z.to_nat (n + 1) `min` length l))); lia.
Qed.

(** The three cases of a bounded read. *)
Lemma bounded_read {A} (s : server) key limit (absent tooLarge : A) (found : bytes → A) : 0 ≤ limit →
  (let value := GETRANGE s key limit in
   if bool_decide (value = []) && negb (EXISTS s key) then absent
   else if limit <? size value then tooLarge else found value) =
  match live s key with
  | Some p => if limit <? size p then tooLarge else found p
  | None => absent
  end.
Proof.
  intros Hl. cbv zeta. destruct (getrange_live s key limit Hl) as [Hg ->]. unfold EXISTS. rewrite Hg.
  destruct (live s key) as [p|].
  - rewrite andb_false_r. change (default [] (Some p)) with p. destruct (Z.ltb_spec limit (size p)); [done|].
    rewrite take_ge; [done|]. unfold size in *. lia.
  - change (default [] (@None bytes)) with (@nil Z). by rewrite take_nil.
Qed.

Lemma boundedGet_spec key limit s : 0 ≤ limit →
  boundedGetScript key limit limit s =
  (match live s key with
   | Some p => if limit <? size p then [RInt 2] else [RInt 1; RText p]
   | None => [RInt 0]
   end, s).
Proof.
  intros Hl. unfold boundedGetScript. cbv zeta. f_equal.
  by rewrite <-(bounded_read s key limit [RInt 0] [RInt 2] (λ value, [RInt 1; RText value]) Hl).
Qed.

Lemma getAndDelete_spec key limit s : 0 ≤ limit →
  getAndDeleteScript key limit s =
  match live s key with
  | Some p => if limit <? size p then ([RInt 2], s) else ([RInt 1; RText p], DEL s key)
  | None => ([RInt 0], s)
  end.
Proof.
  intros Hl. unfold getAndDeleteScript.
  by rewrite <-(bounded_read s key limit ([RInt 0], s) ([RInt 2], s) (λ value, ([RInt 1; RText value], DEL s key)) Hl).
Qed.

Lemma compareAndSet_spec key expected replacement ttl limit s : 0 ≤ limit →
  compareAndSetScript key expected replacement ttl limit s =
  match live s key with
  | Some p => if limit <? size p then (2, s) else if bool_decide (p = expected) then (1, SET s key replacement ttl) else (0, s)
  | None => (0, s)
  end.
Proof.
  intros Hl. unfold compareAndSetScript.
  etransitivity; [exact (bounded_read s key limit (0, s) (2, s)
    (λ current, if negb (bool_decide (current = expected)) then (0, s) else (1, SET s key replacement ttl)) Hl)|].
  destruct (live s key) as [p|]; [|done]. destruct (limit <? size p); [done|]. by destruct (bool_decide (p = expected)).
Qed.

(** ** Every operation takes effect at one moment *)

Section refine.
Context {W V : Type} (sha256 : text → list Z) (pkg : package).
(** The server in the world, and what else happens to it: time, and the other
    clients. *)
Context (view : W → server) (env : server → server → Prop) `{!PreOrder env}.

(** A command takes effect at once; one that reports an error, or has no result,
    may have taken effect or not. *)
Definition atomic {X B} (c : Call W (option X)) (err : X → option error) (ans : X → B) (exec : server → B * server) : Prop :=
  ∀ w, let '(x, w') := c w in ∃ s0, env (view w) s0 ∧
    match x with
    | Some x =>
        match err x with
        | None => ans x = (exec s0).1 ∧ env (exec s0).2 (view w')
        | Some _ => env s0 (view w') ∨ env (exec s0).2 (view w')
        end
    | None => env s0 (view w') ∨ env (exec s0).2 (view w')
    end.

Definition slice (r : list reply * server) : option (list reply) * server := (Some r.1, r.2).

Class RedisServer (c : Client (W := W)) : Prop := {
  set_atomic : ∀ k p ttl, atomic (client_Set c k p ttl) id (λ _, ()) (λ s, ((), SET s k p ttl));
  setnx_atomic : ∀ k p ttl, atomic (client_SetNX c k p ttl) snd fst (λ s, SETNX s k p ttl);
  del_atomic : ∀ k, atomic (client_Del c k) id (λ _, ()) (λ s, ((), DEL s k));
  get_atomic : ∀ k last limit, atomic (evalBoundedGet c k last limit) snd fst (λ s, slice (boundedGetScript k last limit s));
  take_atomic : ∀ k limit, atomic (evalGetAndDelete c k limit) snd fst (λ s, slice (getAndDeleteScript k limit s));
  cas_atomic : ∀ k e p ttl limit, atomic (evalCompareAndSet c k e p ttl limit) snd fst (λ s, compareAndSetScript k e p ttl limit s)
}.

Context (m : MapCache (W := W) (V := V)) (ctx : Context W) `{!RedisServer (client m)}.
Hypothesis Hlimit : 0 ≤ maxPayloadBytes m.
Hypothesis Hsha : ∀ s, length (sha256 s) = 32%nat ∧ Forall is_byte (sha256 s).
Hypothesis Hpkg : pkg = mapPackage ∨ pkg = bucketPackage.
Hypothesis Hctx : ∀ w, env (view w) (view (ctx_Err ctx w).2).
Context (logicalKey : text) (key : Key).
Hypothesis Hkey : LogicalKey sha256 (keys m) logicalKey = Ok key.

(** The context has reported the error, or it is one that leaves the effect open. *)
Definition reported (err : error) : Prop := ∃ v, (ctx_Err ctx v).1 = Some err.
Definition unknown (err : error) : Prop := errors_Is err "redis.ErrCommitUnknown" = true.
Definition undecodable (r : request V) (err : error) : Prop :=
  r = RGetAndDelete ∧ errors_Is err (pkg_name pkg ++ ".ErrInvalidPayload") = true.

(** An operation that has found the server in [s] and leaves it in [s']. *)
Definition outcome (r : request V) (s : server) (out : result (answer V)) (s' : server) : Prop :=
  match out with
  | Ok a => ∃ s0, env s s0 ∧ answers m (Value key) r s0 a ∧ env (change m (Value key) r s0) s'
  | Fail err =>
      env s s' ∨
      (unknown err ∨ reported err ∨ undecodable r err) ∧ ∃ s0, env s s0 ∧ env (change m (Value key) r s0) s'
  end.

Lemma outcome_env r s s1 out s2 s' : env s s1 → outcome r s1 out s2 → env s2 s' → outcome r s out s'.
Proof.
  intros H1 Ho H2. destruct out as [a|err].
  - destruct Ho as (s0 & H0 & Ha & Hc). exists s0. split; [by etransitivity|]. split; [done|by etransitivity].
  - destruct Ho as [Ho|(He & s0 & H0 & Hc)].
    + left. etransitivity; [exact H1|]. by etransitivity.
    + right. split; [done|]. exists s0. split; by etransitivity.
Qed.

Lemma cwp_observe {A} (k : Call W (result A)) Q w :
  (∀ err w', env (view w) (view w') → reported err → Q (Fail err) w') →
  (∀ w', env (view w) (view w') → cwp k Q w') → cwp (unlessDone ctx k) Q w.
Proof.
  intros Hf Hk. apply cwp_bind, cwp_any. intros [err|] w' E; pose proof (Hctx w) as Hc; rewrite E in Hc.
  - apply cwp_ret, Hf; [done|]. exists w. by rewrite E.
  - by apply Hk.
Qed.

Lemma cwp_begin {A} (k : MapCache → Context W → Key → Call W (result A)) Q w :
  (∀ err w', env (view w) (view w') → Q (Fail err) w') →
  (∀ w', env (view w) (view w') → cwp (k m ctx key) Q w') → cwp (begin sha256 pkg (Some m) (Some ctx) logicalKey k) Q w.
Proof. intros Hf Hk. apply cwp_observe; [auto|]. intros w' Hw. rewrite Hkey. by apply Hk. Qed.

Lemma key_valid : ValidateRedactedKeyID (RedactedID key) = None.
Proof.
  revert Hkey. unfold LogicalKey. destruct (validate (keys m)); [done|]. case_bool_decide; [done|]. intros [= <-].
  by apply RedactedKeyID_valid.
Qed.

Lemma provider_unknown operation err :
  OpLabels_validate (mkLabels (pkg_family pkg) operation) = None → unknown (providerError pkg operation (RedactedID key) err true).
Proof.
  intros Ho. unfold unknown, providerError, NewOpErrorWithRedactedKey. rewrite Ho, key_valid. cbn.
  by rewrite orb_true_r.
Qed.

Lemma operations_valid : Forall (λ operation, OpLabels_validate (mkLabels (pkg_family pkg) operation) = None)
  [lit "get"; lit "set"; lit "set-if-absent"; lit "get-and-delete"; lit "compare-and-set"; lit "delete"].
Proof. destruct Hpkg as [->| ->]; repeat constructor. Qed.

Lemma joined_unknown e e' : unknown e → unknown (Joined [e; e']).
Proof. unfold unknown. cbn. by intros ->. Qed.

Lemma finishMutation_spec operation dispatchErr w :
  OpLabels_validate (mkLabels (pkg_family pkg) operation) = None →
  cwp (finishMutation pkg ctx operation (RedactedID key) dispatchErr) (λ e w', env (view w) (view w') ∧
    match dispatchErr with
    | Some _ => ∃ err, e = Some err ∧ unknown err
    | None => match e with Some err => reported err | None => True end
    end) w.
Proof.
  intros Ho. apply cwp_bind, cwp_any. intros ctxErr w' E. pose proof (Hctx w) as Hc. rewrite E in Hc. apply cwp_ret.
  split; [done|]. destruct dispatchErr as [err|].
  - destruct ctxErr as [c|]; eexists; (split; [done|]); [apply joined_unknown|]; by apply provider_unknown.
  - destruct ctxErr as [c|]; [|done]. exists w. by rewrite E.
Qed.

(** A command that leaves its effect open. *)
Lemma outcome_undecided r s err s' :
  unknown err → (∃ s0, env s s0 ∧ (env s0 s' ∨ env (change m (Value key) r s0) s')) → outcome r s (Fail err) s'.
Proof.
  intros He (s0 & H0 & [H|H]); [left; by etransitivity|]. right. split; [by left|]. by exists s0.
Qed.

Lemma cwp_mapAnswer {A B} (f : A → B) (c : Call W (result A)) Q w :
  cwp c (λ r, Q (match r with Ok a => Ok (f a) | Fail e => Fail e end)) w → cwp (mapAnswer f c) Q w.
Proof. intros Hc. by apply cwp_bind. Qed.

(** What a command has done when it has answered [x]. *)
Definition took {X B} (err : X → option error) (ans : X → B) (exec : server → B * server) (s0 : server) (x : option X) (s' : server)
    : Prop :=
  match x with
  | Some x => match err x with
              | None => ans x = (exec s0).1 ∧ env (exec s0).2 s'
              | Some _ => env s0 s' ∨ env (exec s0).2 s'
              end
  | None => env s0 s' ∨ env (exec s0).2 s'
  end.

Lemma cwp_atomic {X B} (c : Call W (option X)) err ans (exec : server → B * server) Q w :
  atomic c err ans exec →
  (∀ x w' s0, env (view w) s0 → took err ans exec s0 x (view w') → Q x w') → cwp c Q w.
Proof.
  intros Ha HQ. apply cwp_any. intros x w' E. specialize (Ha w). rewrite E in Ha. destruct Ha as (s0 & H0 & Ht).
  by eapply HQ.
Qed.

Lemma took_open {X B} err (ans : X → B) exec s0 x s' r :
  took err ans exec s0 x s' → (exec s0).2 = change m (Value key) r s0 → env s0 s' ∨ env (change m (Value key) r s0) s'.
Proof.
  intros Ht <-. destruct x as [x|]; [|done]. cbn in Ht. destruct (err x); [done|]. right. apply Ht.
Qed.

(** A mutation whose command was not confirmed. *)
Lemma outcome_unconfirmed {X B} err (ans : X → B) exec s s0 x s' r e :
  unknown e → env s s0 → took err ans exec s0 x s' → (exec s0).2 = change m (Value key) r s0 → outcome r s (Fail e) s'.
Proof. intros He H0 Ht Hx. apply outcome_undecided; [done|]. exists s0. split; [done|]. by eapply took_open. Qed.

Lemma encoded_Ok operation value payload :
  encoded pkg m operation key value = Ok payload →
  Marshal (serializer m) value = Ok payload ∧ size payload ≤ maxPayloadBytes m.
Proof.
  unfold encoded. destruct (Marshal (serializer m) value) as [p|]; [|done].
  destruct (maxPayloadBytes m <? size p) eqn:Hs; [done|]. intros [= <-]. by bools.
Qed.

Lemma cwp_prepareWrite {A} operation value ttl (k : MapCache → Context W → Key → bytes → Z → Call W (result A)) Q w :
  (∀ err w', env (view w) (view w') → Q (Fail err) w') →
  (∀ p n w', env (view w) (view w') → Marshal (serializer m) value = Ok p → size p ≤ maxPayloadBytes m →
     normalizeTTL ttl = Ok n → cwp (k m ctx key p n) Q w') →
  cwp (prepareWrite sha256 pkg (Some m) (Some ctx) operation logicalKey value ttl k) Q w.
Proof.
  intros Hf Hk. apply cwp_begin; [done|]. intros w1 H1. destruct (normalizeTTL ttl) as [n|] eqn:Hn; [|by apply cwp_ret, Hf].
  destruct (encoded pkg m operation key value) as [p|] eqn:He; [|by apply cwp_ret, Hf].
  apply encoded_Ok in He as [Hm Hp]. apply cwp_observe.
  - intros err w2 H2 _. apply Hf. by etransitivity.
  - intros w2 H2. apply Hk; try done. by etransitivity.
Qed.

Lemma put_SET s value ttl p n :
  Marshal (serializer m) value = Ok p → normalizeTTL ttl = Ok n → put m (Value key) s value ttl = SET s (Value key) p n.
Proof. unfold put. by intros -> ->. Qed.

(** A confirmed mutation followed by an observation of the context. *)
Lemma outcome_confirmed r s s0 s1 s' e a :
  env s s0 → env (change m (Value key) r s0) s1 → env s1 s' → match e with Some err => reported err | None => True end →
  answers m (Value key) r s0 a → outcome r s (match e with Some err => Fail err | None => Ok a end) s'.
Proof.
  intros H0 H1 H2 He Ha. destruct e as [err|].
  - right. split; [by right; left|]. exists s0. split; [done|by etransitivity].
  - exists s0. split; [done|]. split; [done|by etransitivity].
Qed.

Lemma valid_operation operation :
  operation ∈ [lit "get"; lit "set"; lit "set-if-absent"; lit "get-and-delete"; lit "compare-and-set"; lit "delete"] →
  OpLabels_validate (mkLabels (pkg_family pkg) operation) = None.
Proof. pose proof operations_valid as Hv. rewrite Forall_forall in Hv. apply Hv. Qed.

Lemma Set_outcome value ttl w :
  cwp (perform sha256 pkg (Some m) (Some ctx) logicalKey (RSet value ttl)) (λ out w', outcome (RSet value ttl) (view w) out (view w')) w.
Proof.
  assert (OpLabels_validate (mkLabels (pkg_family pkg) (lit "set")) = None) as Hop by (apply valid_operation; set_solver).
  apply cwp_mapAnswer, cwp_prepareWrite; [by left|]. intros p n w1 H1 Hp Hs Hn.
  apply cwp_bind. eapply cwp_atomic; [apply set_atomic|]. intros x w2 s0 H0 Ht.
  assert (env (view w) s0) as Hs0 by (by etransitivity).
  assert (change m (Value key) (RSet value ttl) s0 = SET s0 (Value key) p n) as Hc by (by apply put_SET).
  destruct x as [dispatchErr|]; [|apply cwp_ret; eapply outcome_unconfirmed; eauto; by apply provider_unknown].
  apply cwp_bind. eapply cwp_mono; [by apply finishMutation_spec|]. cbn beta. intros e w3 [H3 He]. apply cwp_ret.
  destruct dispatchErr as [err|].
  - destruct He as (e' & -> & He). eapply outcome_env; [reflexivity| |exact H3].
    eapply outcome_unconfirmed; eauto.
  - destruct Ht as [_ Ht]. cbn [snd] in Ht. rewrite <-Hc in Ht.
    assert (answers m (Value key) (RSet value ttl) s0 ADone) as Ha by (split; [done|]; exists p; by repeat split; [..|exists n]).
    pose proof (outcome_confirmed _ _ _ _ _ e _ Hs0 Ht H3 He Ha) as Hout. by destruct e.
Qed.

Lemma Delete_outcome w :
  cwp (perform sha256 pkg (Some m) (Some ctx) logicalKey RDelete) (λ out w', outcome RDelete (view w) out (view w')) w.
Proof.
  assert (OpLabels_validate (mkLabels (pkg_family pkg) (lit "delete")) = None) as Hop by (apply valid_operation; set_solver).
  apply cwp_mapAnswer, cwp_begin; [by left|]. intros w1 H1.
  apply cwp_bind. eapply cwp_atomic; [apply del_atomic|]. intros x w2 s0 H0 Ht.
  assert (env (view w) s0) as Hs0 by (by etransitivity).
  destruct x as [dispatchErr|]; [|apply cwp_ret; eapply outcome_unconfirmed; eauto; by apply provider_unknown].
  apply cwp_bind. eapply cwp_mono; [by apply finishMutation_spec|]. cbn beta. intros e w3 [H3 He]. apply cwp_ret.
  destruct dispatchErr as [err|].
  - destruct He as (e' & -> & He). eapply outcome_env; [reflexivity| |exact H3]. eapply outcome_unconfirmed; eauto.
  - destruct Ht as [_ Ht]. cbn [snd] in Ht.
    pose proof (outcome_confirmed RDelete _ _ _ _ e ADone Hs0 Ht H3 He eq_refl) as Hout. by destruct e.
Qed.

Lemma dispatchFailed_spec {A} operation err Q w :
  OpLabels_validate (mkLabels (pkg_family pkg) operation) = None →
  (∀ e w', env (view w) (view w') → unknown e → Q (Fail e) w') →
  cwp (dispatchFailed (A := A) pkg ctx operation (RedactedID key) err) Q w.
Proof.
  intros Ho HQ. apply cwp_bind. eapply cwp_mono; [by apply finishMutation_spec|]. cbn beta.
  intros e w' [Hw (e' & -> & He)]. apply cwp_ret. by apply HQ.
Qed.

Lemma SetIfAbsent_outcome value ttl w :
  cwp (perform sha256 pkg (Some m) (Some ctx) logicalKey (RSetIfAbsent value ttl))
    (λ out w', outcome (RSetIfAbsent value ttl) (view w) out (view w')) w.
Proof.
  assert (OpLabels_validate (mkLabels (pkg_family pkg) (lit "set-if-absent")) = None) as Hop by (apply valid_operation; set_solver).
  apply cwp_mapAnswer, cwp_prepareWrite; [by left|]. intros p n w1 H1 Hp Hs Hn.
  apply cwp_bind. eapply cwp_atomic; [apply setnx_atomic|]. intros x w2 s0 H0 Ht.
  assert (env (view w) s0) as Hs0 by (by etransitivity).
  assert ((SETNX s0 (Value key) p n).2 = change m (Value key) (RSetIfAbsent value ttl) s0) as Hc.
  { unfold SETNX. cbn [change]. rewrite (put_SET _ _ _ _ _ Hp Hn). by destruct (EXISTS s0 (Value key)). }
  destruct x as [[stored [err|]]|].
  - apply dispatchFailed_spec; [done|]. intros e w3 H3 He. eapply outcome_env; [reflexivity| |exact H3].
    eapply outcome_unconfirmed; eauto.
  - destruct Ht as [Ha Ht]. cbn [fst snd] in Ha, Ht. rewrite Hc in Ht. apply cwp_observe.
    + intros e w3 H3 He. right. split; [by right; left|]. exists s0. split; [done|by etransitivity].
    + intros w3 H3. apply cwp_ret. exists s0. split; [done|]. split; [|by etransitivity]. rewrite Ha.
      split; [unfold SETNX; by destruct (EXISTS s0 (Value key))|]. exists p. split; [done|]. split; [done|by exists n].
  - apply cwp_ret. eapply outcome_unconfirmed; eauto. by apply provider_unknown.
Qed.

Lemma Get_outcome w :
  cwp (perform sha256 pkg (Some m) (Some ctx) logicalKey RGet) (λ out w', outcome RGet (view w) out (view w')) w.
Proof.
  apply cwp_mapAnswer, cwp_begin; [by left|]. intros w1 H1.
  apply cwp_bind. eapply cwp_atomic; [apply get_atomic|]. intros x w2 s0 H0 Ht.
  assert (env (view w) s0) as Hs0 by (by etransitivity). unfold took in Ht. rewrite boundedGet_spec in Ht by done.
  assert (env s0 (view w2)) as H2.
  { destruct x as [[res [err|]]|]; cbn in Ht; [by destruct Ht|apply Ht|by destruct Ht]. }
  destruct x as [[res err]|]; [|apply cwp_ret; left; by etransitivity].
  apply cwp_bind, cwp_any. intros ctxErr w3 E. pose proof (Hctx w2) as H3. rewrite E in H3. cbn [snd] in H3. apply cwp_ret.
  assert (env (view w) (view w3)) as Hall by (etransitivity; [exact Hs0|]; by etransitivity).
  destruct ctxErr as [c|]; [by destruct err; left|]. destruct err as [err|]; [by left|].
  destruct Ht as [Ha _]. cbn [fst slice snd] in Ha. rewrite Ha. cbn [mbind option_bind].
  destruct (live s0 (Value key)) as [p|] eqn:Hlive.
  - destruct (maxPayloadBytes m <? size p) eqn:Hsz; cbn [parseBoundedGetResult scriptInt orb Z.eqb]; [by left|].
    cbn [resultBytes Z.eqb Pos.eqb]. rewrite Hsz. unfold decoded. destruct (Unmarshal (serializer m) p) as [v|] eqn:Hu; [|by left].
    exists s0. split; [done|]. split; [|by etransitivity]. cbn [answers]. rewrite Hlive. exists v. bools. done.
  - exists s0. split; [done|]. split; [|by etransitivity]. cbn [answers]. by rewrite Hlive.
Qed.

Lemma GetAndDelete_outcome w :
  cwp (perform sha256 pkg (Some m) (Some ctx) logicalKey RGetAndDelete) (λ out w', outcome RGetAndDelete (view w) out (view w')) w.
Proof.
  assert (OpLabels_validate (mkLabels (pkg_family pkg) (lit "get-and-delete")) = None) as Hop by (apply valid_operation; set_solver).
  apply cwp_mapAnswer, cwp_begin; [by left|]. intros w1 H1.
  apply cwp_bind. eapply cwp_atomic; [apply take_atomic|]. intros x w2 s0 H0 Ht.
  assert (env (view w) s0) as Hs0 by (by etransitivity).
  assert ((slice (getAndDeleteScript (Value key) (maxPayloadBytes m) s0)).2 = change m (Value key) RGetAndDelete s0) as Hc.
  { rewrite getAndDelete_spec by done. cbn [change]. destruct (live s0 (Value key)) as [p|]; [|done]. by destruct (_ <? size p). }
  destruct x as [[res [err|]]|].
  - apply dispatchFailed_spec; [done|]. intros e w3 H3 He. eapply outcome_env; [reflexivity| |exact H3].
    eapply outcome_unconfirmed; eauto.
  - destruct Ht as [Ha Ht]. rewrite Hc in Ht. cbn [fst] in Ha. apply cwp_observe.
    + intros e w3 H3 He. right. split; [by right; left|]. exists s0. split; [done|by etransitivity].
    + intros w3 H3. apply cwp_ret. assert (env (change m (Value key) RGetAndDelete s0) (view w3)) as Hch by (by etransitivity).
      rewrite Ha, getAndDelete_spec by done. cbn [change] in Hch. destruct (live s0 (Value key)) as [p|] eqn:Hlive.
      * destruct (maxPayloadBytes m <? size p) eqn:Hsz; [left; by etransitivity|].
        cbn [slice fst mbind option_bind parseGetAndDeleteResult scriptInt Z.eqb Pos.eqb resultBytes]. unfold decoded.
        destruct (Unmarshal (serializer m) p) as [v|uerr] eqn:Hu.
        -- exists s0. split; [done|]. cbn [answers change]. rewrite Hlive, Hsz. split; [|done]. exists v. bools. done.
        -- right. split; [right; right; split; [done|]|].
           { unfold codecError, newError, ErrInvalidPayload, sentinel. cbn [errors_Is existsb orb]. by rewrite String.eqb_refl. }
           exists s0. split; [done|]. cbn [change]. by rewrite Hlive, Hsz.
      * exists s0. split; [done|]. cbn [answers change]. by rewrite Hlive.
  - apply cwp_ret. eapply outcome_unconfirmed; eauto. by apply provider_unknown.
Qed.

Lemma CompareAndSet_outcome expected replacement ttl w :
  cwp (perform sha256 pkg (Some m) (Some ctx) logicalKey (RCompareAndSet expected replacement ttl))
    (λ out w', outcome (RCompareAndSet expected replacement ttl) (view w) out (view w')) w.
Proof.
  assert (OpLabels_validate (mkLabels (pkg_family pkg) (lit "compare-and-set")) = None) as Hop by (apply valid_operation; set_solver).
  apply cwp_mapAnswer, cwp_begin; [by left|]. intros w1 H1.
  destruct (normalizeTTL ttl) as [n|] eqn:Hn; [|apply cwp_ret; by left].
  destruct (encoded pkg m _ key expected) as [pe|] eqn:Hpe; [|apply cwp_ret; by left]. apply encoded_Ok in Hpe as [Hpe Hse].
  destruct (encoded pkg m _ key replacement) as [pr|] eqn:Hpr; [|apply cwp_ret; by left]. apply encoded_Ok in Hpr as [Hpr Hsr].
  apply cwp_observe; [intros e w2 H2 _; left; by etransitivity|]. intros w2 H2.
  apply cwp_bind. eapply cwp_atomic; [apply cas_atomic|]. intros x w3 s0 H0 Ht.
  assert (env (view w) s0) as Hs0 by (etransitivity; [exact H1|]; by etransitivity).
  assert ((compareAndSetScript (Value key) pe pr n (maxPayloadBytes m) s0).2 =
    change m (Value key) (RCompareAndSet expected replacement ttl) s0) as Hc.
  { rewrite compareAndSet_spec by done. cbn [change]. unfold holds. rewrite Hpe, (put_SET _ _ _ _ _ Hpr Hn).
    destruct (live s0 (Value key)) as [p|]; [|done]. destruct (Z.ltb_spec (maxPayloadBytes m) (size p)).
    - rewrite bool_decide_false; [done|]. intros ->. lia.
    - by destruct (bool_decide (p = pe)). }
  destruct x as [[res [err|]]|].
  - apply dispatchFailed_spec; [done|]. intros e w4 H4 He. eapply outcome_env; [reflexivity| |exact H4].
    eapply outcome_unconfirmed; eauto.
  - destruct Ht as [Ha Ht]. rewrite Hc in Ht. cbn [fst] in Ha. apply cwp_observe.
    + intros e w4 H4 He. right. split; [by right; left|]. exists s0. split; [done|by etransitivity].
    + intros w4 H4. apply cwp_ret.
      assert (env (change m (Value key) (RCompareAndSet expected replacement ttl) s0) (view w4)) as Hch by (by etransitivity).
      assert (∃ p, Marshal (serializer m) replacement = Ok p ∧ size p ≤ maxPayloadBytes m ∧ is_Ok (normalizeTTL ttl)) as Hr
        by (exists pr; split; [done|]; split; [done|by exists n]).
      rewrite Ha, compareAndSet_spec by done. destruct (live s0 (Value key)) as [p|] eqn:Hlive.
      * destruct (Z.ltb_spec (maxPayloadBytes m) (size p)) as [Hbig|Hsmall].
        -- left. etransitivity; [exact Hs0|]. revert Hch. cbn [change]. unfold holds. rewrite Hpe, Hlive, bool_decide_false; [done|].
           intros ->. lia.
        -- destruct (bool_decide (p = pe)) eqn:Heq; exists s0; (split; [done|]); (split; [|done]); split; try done;
             unfold holds; by rewrite Hpe, Hlive, Heq.
      * exists s0. split; [done|]. split; [|done]. split; [|done]. unfold holds. by rewrite Hpe, Hlive.
  - apply cwp_ret. eapply outcome_unconfirmed; eauto. by apply provider_unknown.
Qed.
End refine.

Lemma NewCache_Ok {W V} pkg c (options : Options (V := V)) (m : MapCache (W := W)) :
  New pkg (Some c) options = Ok m → client m = c ∧ 1 ≤ maxPayloadBytes m ≤ MaxPayloadBytesLimit.
Proof.
  unfold New, normalizeMaxPayloadBytes. destruct (optSerializer options); [|done].
  destruct (optMaxPayloadBytes options =? 0); [|destruct (_ || _) eqn:Hm; [done|]].
  all: destruct (NewKeyBuilder _) as [b|]; [|done]; destruct (Structural _ _) as [b'|]; [|done].
  all: destruct (if bool_decide _ then _ else _); [|done]; intros [= <-]; cbn; (split; [done|]); bools; try done; lia.
Qed.

(** C22. A map of values with times to live.  Every operation of a cache (and of a
    bucket) that succeeds takes effect at one moment between its call and its
    return: it answers what the specification answers for the server it finds then
    and leaves the server the specification leaves, whatever the other clients do
    before and after.  One that fails has left the server alone, unless its error
    is [ErrCommitUnknown], the one of the caller's context, or the value that
    [GetAndDelete] has removed could not be decoded. *)
Theorem redis_map_refines {W V} (sha256 : text → list Z) pkg (view : W → server) (env : server → server → Prop) c
    (options : Options (V := V)) m ctx logicalKey key r w :
  PreOrder env → pkg = mapPackage ∨ pkg = bucketPackage →
  (∀ s, length (sha256 s) = 32%nat ∧ Forall is_byte (sha256 s)) →
  New pkg (Some c) options = Ok m → RedisServer view env c →
  (∀ w, env (view w) (view (ctx_Err ctx w).2)) → LogicalKey sha256 (keys m) logicalKey = Ok key →
  let '(out, w') := perform sha256 pkg (Some m) (Some ctx) logicalKey r w in
  outcome pkg env m ctx key r (view w) out (view w').
Proof.
  intros Henv Hpkg Hsha [Hc Hmax]%NewCache_Ok Hsrv Hctx Hkey. rewrite <-Hc in Hsrv.
  assert (0 ≤ maxPayloadBytes m) as Hlimit by lia.
  enough (cwp (perform sha256 pkg (Some m) (Some ctx) logicalKey r)
    (λ out w', outcome pkg env m ctx key r (view w) out (view w')) w) as Ho
    by (unfold cwp in Ho; by destruct (perform _ _ _ _ _ _ w)).
  destruct r; [by apply Get_outcome|by eapply Set_outcome|by eapply SetIfAbsent_outcome|by eapply GetAndDelete_outcome|
    by eapply CompareAndSet_outcome|by eapply Delete_outcome].
Qed.

(** ** src/redis/bucket *)

Definition Bucket {W V} : Type := MapCache (W := W) (V := V).
Definition NewBucket {W V} := New (W := W) (V := V) bucketPackage.
Definition Bucket_Get {W V} sha256 := Get (W := W) (V := V) sha256 bucketPackage.
Definition Bucket_Set {W V} sha256 := Set_ (W := W) (V := V) sha256 bucketPackage.
Definition Bucket_SetIfAbsent {W V} sha256 := SetIfAbsent (W := W) (V := V) sha256 bucketPackage.
Definition Bucket_GetAndDelete {W V} sha256 := GetAndDelete (W := W) (V := V) sha256 bucketPackage.
Definition Bucket_CompareAndSet {W V} sha256 := CompareAndSet (W := W) (V := V) sha256 bucketPackage.
Definition Bucket_Delete {W V} sha256 := Delete (W := W) (V := V) sha256 bucketPackage.

(** ** A sample server *)

Definition sampleClient : Client (W := server) := {|
  client_Set := λ k p ttl s, (Some None, SET s k p ttl);
  client_SetNX := λ k p ttl s, let '(b, s') := SETNX s k p ttl in (Some (b, None), s');
  client_Del := λ k s, (Some None, DEL s k);
  evalBoundedGet := λ k last limit s, let '(r, s') := boundedGetScript k last limit s in (Some (Some r, None), s');
  evalGetAndDelete := λ k limit s, let '(r, s') := getAndDeleteScript k limit s in (Some (Some r, None), s');
  evalCompareAndSet := λ k e p ttl limit s, let '(r, s') := compareAndSetScript k e p ttl limit s in (Some (r, None), s')
|}.

Lemma sampleServer : RedisServer id eq sampleClient.
Proof.
  split; intros; intros s; cbn [sampleClient client_Set client_SetNX client_Del evalBoundedGet evalGetAndDelete evalCompareAndSet].
  - by exists s.
  - destruct (SETNX s k p ttl) as [b s'] eqn:E. exists s. cbn. by rewrite E.
  - by exists s.
  - by exists s.
  - destruct (getAndDeleteScript k limit s) as [b s'] eqn:E. exists s. cbn. by rewrite E.
  - destruct (compareAndSetScript k e p ttl limit s) as [b s'] eqn:E. exists s. cbn. by rewrite E.
Qed.

Definition sampleSha (_ : text) : list Z := replicate 32 0.
Definition sampleSerializer : Serializer (V := bytes) := mkSerializer Ok Ok.
Definition sampleMapOptions : Options (V := bytes) := mkOptions (lit "catalog:v1") [] (Some sampleSerializer) 0.
Definition sampleCache : MapCache (W := server) (V := bytes) :=
  mkMapCache sampleClient sampleSerializer (mkBuilder [lit "catalog"; lit "v1"] [lit "map"] []) DefaultMaxPayloadBytes.
Definition sampleKey : Key := mkKey (lit "catalog:v1:map:sku") (RedactedKeyID sampleSha (lit "catalog:v1:map:sku")).
Definition sampleState : server := mkServer 5 {[lit "catalog:v1:map:sku" := mkEntry [1] (Some 9)]}.

Lemma redis_map_refines_witness :
  let '(out, s') := perform sampleSha mapPackage (Some sampleCache) (Some Background) (lit "sku") (RCompareAndSet [1] [2] 3000000)
    sampleState in
  out = Ok (ABool true) ∧ s' = mkServer 5 {[lit "catalog:v1:map:sku" := mkEntry [2] (Some 8)]} ∧
  outcome mapPackage eq sampleCache Background sampleKey (RCompareAndSet [1] [2] 3000000) sampleState out s'.
Proof.
  pose proof (redis_map_refines sampleSha mapPackage id eq sampleClient sampleMapOptions sampleCache Background (lit "sku") sampleKey
    (RCompareAndSet [1] [2] 3000000) sampleState _ (or_introl eq_refl)) as H.
  destruct (perform sampleSha mapPackage (Some sampleCache) (Some Background) (lit "sku") (RCompareAndSet [1] [2] 3000000)
    sampleState) as [out s'] eqn:E.
  assert ((out, s') = (Ok (ABool true), mkServer 5 {[lit "catalog:v1:map:sku" := mkEntry [2] (Some 8)]})) as Heq
    by (rewrite <-E; vm_compute; reflexivity).
  injection Heq as Ho Hs. split; [exact Ho|]. split; [exact Hs|]. apply H.
  - intros t. split; [reflexivity|]. apply Forall_replicate. unfold is_byte. lia.
  - vm_compute. reflexivity.
  - exact sampleServer.
  - intros w. reflexivity.
  - vm_compute. reflexivity.
Defined.
