(* ===== verification/S3Vectors.v ===== *)
(** * Vectors in Amazon S3

    Models src/s3vectors: errors.go and s3vectors.go.  Every operation has its own
    input and output; the client answers each of them on a world.  Strings are
    their bytes, a float32 is its 32 bits, a nil pointer or slice is [None]. *)

From S2P Require Import Prelude GoError GoText Core GoEncoding.

Local Open Scope Z_scope.

(** ** errors.go *)

Definition ErrNilClient : string := "s3vectors.ErrNilClient".
Definition ErrInvalidProvider : string := "s3vectors.ErrInvalidProvider".
Definition ErrInvalidRequest : string := "s3vectors.ErrInvalidRequest".
Definition ErrOperationFailed : string := "s3vectors.ErrOperationFailed".
Definition ErrMalformedOutput : string := "s3vectors.ErrMalformedOutput".

(** On sentinels. *)
Definition safeKind (kind : string) : string :=
  if existsb (String.eqb kind) [ErrNilClient; ErrInvalidProvider; ErrInvalidRequest; ErrOperationFailed; ErrMalformedOutput]
  then kind else ErrInvalidProvider.

Definition safeOperation (operation : string) : string :=
  if existsb (String.eqb operation)
       ["validate provider"; "validate request"; "list vector buckets"; "get vector bucket"; "list indexes"; "get index";
        "put vectors"; "get vectors"; "list vectors"; "query vectors"]%string
  then operation else "".

Definition newError (kind operation : string) (cause : option error) : error :=
  Typed "s3vectors.Error" [FStr (safeKind kind); FStr (safeOperation operation)] [safeKind kind] cause.

Definition invalidRequest : error := newError ErrInvalidRequest "validate request" None.

(** ** Limits *)

Definition MaxListVectorBucketsResults : Z := 500.
Definition MaxListIndexesResults : Z := 500.
Definition MaxPutVectors : Z := 500.
Definition MaxGetVectors : Z := 100.
Definition MaxListVectorsResults : Z := 1000.
Definition MaxQueryTopK : Z := 10000.
Definition MaxVectorDimension : Z := 4096.
Definition MaxVectorKeyCharacters : Z := 1024.
Definition MaxSegmentCount : Z := 16.
Definition MaxVectorMetadataBytes : Z := 40 * 2 ^ 10.
Definition MaxRequestPayloadBytes : Z := 20 * 2 ^ 20.
Definition MaxIdentifierBytes : Z := 1024.
Definition MaxPaginationTokenBytes : Z := 2048.
Definition MaxPrefixBytes : Z := 1024.
Definition maxVectorComponentBytes : Z := 32.

Definition size {A} (l : list A) : Z := Z.of_nat (length l).

(** ** Data *)

(** [types.VectorData]: a nil interface, a nil pointer, the member with float32
    values, or another member. *)
Inductive VectorData : Type := NilData | NilFloat32 | Float32 (value : list Z) | OtherMember (tag value : bytes).

(** A document: nil, a value that is not a marshaler, or a marshaler with what it
    answers. *)
Inductive document : Type := NoDocument | NotMarshaler | Document (encoded : result bytes).

Record PutInputVector := mkPutInputVector { pv_Key : option bytes; pv_Data : VectorData; pv_Metadata : document }.

Record ListVectorBucketsInput := mkListVectorBucketsInput {
  lb_MaxResults : option Z;
  lb_NextToken : option bytes;
  lb_Prefix : option bytes
}.
Record GetVectorBucketInput := mkGetVectorBucketInput {
  gb_VectorBucketArn : option bytes;
  gb_VectorBucketName : option bytes
}.
Record ListIndexesInput := mkListIndexesInput {
  li_MaxResults : option Z;
  li_NextToken : option bytes;
  li_Prefix : option bytes;
  li_VectorBucketArn : option bytes;
  li_VectorBucketName : option bytes
}.
(** The three ways to name an index. *)
Record indexReference := mkIndexReference {
  IndexArn : option bytes;
  IndexName : option bytes;
  IndexBucketName : option bytes
}.
Record PutVectorsInput := mkPutVectorsInput { pu_Index : indexReference; pu_Vectors : list PutInputVector }.
Record GetVectorsInput := mkGetVectorsInput {
  gv_Keys : list bytes;
  gv_Index : indexReference;
  gv_ReturnData : bool;
  gv_ReturnMetadata : bool
}.
Record ListVectorsInput := mkListVectorsInput {
  lv_Index : indexReference;
  lv_MaxResults : option Z;
  lv_NextToken : option bytes;
  lv_ReturnData : bool;
  lv_ReturnMetadata : bool;
  lv_SegmentCount : option Z;
  lv_SegmentIndex : Z
}.
Record QueryVectorsInput := mkQueryVectorsInput {
  qv_QueryVector : VectorData;
  qv_TopK : option Z;
  qv_Filter : document;
  qv_Index : indexReference;
  qv_NextToken : option bytes;
  qv_ReturnDistance : bool;
  qv_ReturnMetadata : bool
}.

(** ** Validation *)

Definition nonBlank (value : bytes) : bool :=
  ValidString value && (size value <=? MaxIdentifierBytes) && negb (bool_decide (TrimSpace (runesOf value) = [])).

Definition nonBlankPointer (value : option bytes) : bool := match value with Some v => nonBlank v | None => false end.

Definition given {A} (value : option A) : bool := match value with Some _ => true | None => false end.

Definition validIdentifierPair (arn name : option bytes) : bool :=
  let arnPresent := nonBlankPointer arn in
  let namePresent := nonBlankPointer name in
  if given arn && negb arnPresent || given name && negb namePresent then false else xorb arnPresent namePresent.

Definition validIndexReference (r : indexReference) : bool :=
  let arnPresent := nonBlankPointer (IndexArn r) in
  let indexPresent := nonBlankPointer (IndexName r) in
  let bucketPresent := nonBlankPointer (IndexBucketName r) in
  if given (IndexArn r) && negb arnPresent || given (IndexName r) && negb indexPresent ||
     given (IndexBucketName r) && negb bucketPresent then false
  else if arnPresent then negb indexPresent && negb bucketPresent
  else indexPresent && bucketPresent.

Definition validOptionalString (value : option bytes) (maxBytes : Z) : bool :=
  match value with None => true | Some v => ValidString v && (size v <=? maxBytes) end.

Definition validKeyText (v : bytes) : bool :=
  ValidString v && negb (bool_decide (TrimSpace (runesOf v) = [])) && (size (runesOf v) <=? MaxVectorKeyCharacters).

Definition validVectorKey (value : option bytes) : bool := match value with Some v => validKeyText v | None => false end.

(** [math.IsNaN] or [math.IsInf]: the exponent of the float32 has all bits set. *)
Definition finite (bits : Z) : bool := negb (Z.land (Z.shiftr bits 23) 255 =? 255).

Definition validVectorData (data : VectorData) : bool :=
  match data with
  | Float32 value => negb ((size value =? 0) || (MaxVectorDimension <? size value)) && forallb finite value
  | _ => false
  end.

Definition vectorDimension (data : VectorData) : Z := match data with Float32 value => size value | _ => 0 end.

Definition serializedDocumentSize (d : document) : option Z :=
  match d with
  | NoDocument => Some 0
  | NotMarshaler => None
  | Document (Ok encoded) => Some (size encoded)
  | Document (Fail _) => None
  end.

(** The total after [addRequestBytes]; [None] when it answers false. *)
Definition addRequestBytes (total amount : Z) : option Z :=
  if (amount <? 0) || (MaxRequestPayloadBytes - total <? amount) then None else Some (total + amount).

Definition validResults (results : option Z) (max : Z) : bool :=
  match results with None => true | Some n => negb ((n <=? 0) || (max <? n)) end.

(** The functions [validate...Input] are nil. *)
Definition validListVectorBucketsInput (input : option ListVectorBucketsInput) : bool :=
  match input with
  | None => true
  | Some i => validResults (lb_MaxResults i) MaxListVectorBucketsResults &&
      (validOptionalString (lb_Prefix i) MaxPrefixBytes && validOptionalString (lb_NextToken i) MaxPaginationTokenBytes)
  end.

Definition validGetVectorBucketInput (i : GetVectorBucketInput) : bool :=
  validIdentifierPair (gb_VectorBucketArn i) (gb_VectorBucketName i).

Definition validListIndexesInput (i : ListIndexesInput) : bool :=
  validIdentifierPair (li_VectorBucketArn i) (li_VectorBucketName i) &&
  validResults (li_MaxResults i) MaxListIndexesResults &&
  (validOptionalString (li_Prefix i) MaxPrefixBytes && validOptionalString (li_NextToken i) MaxPaginationTokenBytes).

(** The loop over the vectors; [total] is [requestBytes]. *)
Fixpoint putLoop (vectors : list PutInputVector) (total : Z) : bool :=
  match vectors with
  | [] => true
  | vector :: rest =>
      match pv_Key vector with
      | Some key =>
          if negb (validKeyText key) || negb (validVectorData (pv_Data vector)) then false
          else match serializedDocumentSize (pv_Metadata vector) with
               | None => false
               | Some metadataBytes =>
                   if MaxVectorMetadataBytes <? metadataBytes then false
                   else match addRequestBytes total (size key + vectorDimension (pv_Data vector) * maxVectorComponentBytes +
                                                       metadataBytes + 64) with
                        | None => false
                        | Some total => putLoop rest total
                        end
               end
      | None => false
      end
  end.

Definition validPutVectorsInput (i : PutVectorsInput) : bool :=
  validIndexReference (pu_Index i) && negb ((size (pu_Vectors i) =? 0) || (MaxPutVectors <? size (pu_Vectors i))) &&
  putLoop (pu_Vectors i) 0.

Fixpoint keysLoop (keys : list bytes) (total : Z) : bool :=
  match keys with
  | [] => true
  | key :: rest =>
      if negb (validKeyText key) then false
      else match addRequestBytes total (size key + 8) with None => false | Some total => keysLoop rest total end
  end.

Definition validGetVectorsInput (i : GetVectorsInput) : bool :=
  validIndexReference (gv_Index i) && negb ((size (gv_Keys i) =? 0) || (MaxGetVectors <? size (gv_Keys i))) &&
  keysLoop (gv_Keys i) 0.

Definition validListVectorsInput (i : ListVectorsInput) : bool :=
  validIndexReference (lv_Index i) && validResults (lv_MaxResults i) MaxListVectorsResults &&
  validOptionalString (lv_NextToken i) MaxPaginationTokenBytes &&
  match lv_SegmentCount i with
  | None => lv_SegmentIndex i =? 0
  | Some n => negb ((n <=? 0) || (MaxSegmentCount <? n) || (lv_SegmentIndex i <? 0) || (n <=? lv_SegmentIndex i))
  end.

Definition validQueryVectorsInput (i : QueryVectorsInput) : bool :=
  validIndexReference (qv_Index i) &&
  match qv_TopK i with Some k => negb ((k <=? 0) || (MaxQueryTopK <? k)) | None => false end &&
  validVectorData (qv_QueryVector i) &&
  match serializedDocumentSize (qv_Filter i) with
  | None => false
  | Some filterBytes =>
      negb (MaxRequestPayloadBytes <? filterBytes) &&
      negb (MaxRequestPayloadBytes <? vectorDimension (qv_QueryVector i) * maxVectorComponentBytes + filterBytes + 128)
  end &&
  validOptionalString (qv_NextToken i) MaxPaginationTokenBytes.

(** ** Copies *)

Definition cloneString (value : option bytes) : option bytes := match value with None => None | Some v => Some v end.
Definition cloneInt32 (value : option Z) : option Z := match value with None => None | Some v => Some v end.

Definition cloneVectorData (data : VectorData) : VectorData :=
  match data with
  | Float32 value => Float32 ([] ++ value)
  | NilFloat32 => NilFloat32
  | OtherMember tag value => OtherMember tag ([] ++ value)
  | NilData => NilData
  end.

Definition cloneReference (r : indexReference) : indexReference :=
  mkIndexReference (cloneString (IndexArn r)) (cloneString (IndexName r)) (cloneString (IndexBucketName r)).

Definition cloneListVectorBucketsInput (input : option ListVectorBucketsInput) : ListVectorBucketsInput :=
  match input with
  | None => mkListVectorBucketsInput None None None
  | Some i => mkListVectorBucketsInput (cloneInt32 (lb_MaxResults i)) (cloneString (lb_NextToken i)) (cloneString (lb_Prefix i))
  end.

Definition cloneGetVectorBucketInput (i : GetVectorBucketInput) : GetVectorBucketInput :=
  mkGetVectorBucketInput (cloneString (gb_VectorBucketArn i)) (cloneString (gb_VectorBucketName i)).

Definition cloneListIndexesInput (i : ListIndexesInput) : ListIndexesInput :=
  mkListIndexesInput (cloneInt32 (li_MaxResults i)) (cloneString (li_NextToken i)) (cloneString (li_Prefix i))
    (cloneString (li_VectorBucketArn i)) (cloneString (li_VectorBucketName i)).

Definition clonePutInputVector (v : PutInputVector) : PutInputVector :=
  mkPutInputVector (cloneString (pv_Key v)) (cloneVectorData (pv_Data v)) (pv_Metadata v).

Definition clonePutVectorsInput (i : PutVectorsInput) : PutVectorsInput :=
  mkPutVectorsInput (cloneReference (pu_Index i)) (map clonePutInputVector (pu_Vectors i)).

Definition cloneGetVectorsInput (i : GetVectorsInput) : GetVectorsInput :=
  mkGetVectorsInput ([] ++ gv_Keys i) (cloneReference (gv_Index i)) (gv_ReturnData i) (gv_ReturnMetadata i).

Definition cloneListVectorsInput (i : ListVectorsInput) : ListVectorsInput :=
  mkListVectorsInput (cloneReference (lv_Index i)) (cloneInt32 (lv_MaxResults i)) (cloneString (lv_NextToken i))
    (lv_ReturnData i) (lv_ReturnMetadata i) (cloneInt32 (lv_SegmentCount i)) (lv_SegmentIndex i).

Definition cloneQueryVectorsInput (i : QueryVectorsInput) : QueryVectorsInput :=
  mkQueryVectorsInput (cloneVectorData (qv_QueryVector i)) (cloneInt32 (qv_TopK i)) (qv_Filter i) (cloneReference (qv_Index i))
    (cloneString (qv_NextToken i)) (qv_ReturnDistance i) (qv_ReturnMetadata i).

(** ** The provider *)

Inductive operation : Type :=
| ListVectorBuckets | GetVectorBucket | ListIndexes | GetIndex | PutVectors | GetVectors | ListVectors | QueryVectors.

Definition inputOf (op : operation) : Type :=
  match op with
  | ListVectorBuckets => ListVectorBucketsInput
  | GetVectorBucket => GetVectorBucketInput
  | ListIndexes => ListIndexesInput
  | GetIndex => indexReference
  | PutVectors => PutVectorsInput
  | GetVectors => GetVectorsInput
  | ListVectors => ListVectorsInput
  | QueryVectors => QueryVectorsInput
  end.

Definition operationName (op : operation) : string :=
  match op with
  | ListVectorBuckets => "list vector buckets"
  | GetVectorBucket => "get vector bucket"
  | ListIndexes => "list indexes"
  | GetIndex => "get index"
  | PutVectors => "put vectors"
  | GetVectors => "get vectors"
  | ListVectors => "list vectors"
  | QueryVectors => "query vectors"
  end.

(** The input that the client is given; [None] when the validation fails.  A nil
    input is [None]; only [ListVectorBuckets] takes one. *)
Definition prepare (op : operation) : option (inputOf op) → option (inputOf op) :=
  let required {I : Type} (valid : I → bool) (clone : I → I) (input : option I) : option I :=
    match input with Some i => if valid i then Some (clone i) else None | None => None end in
  match op with
  | ListVectorBuckets => λ input,
      if validListVectorBucketsInput input then Some (cloneListVectorBucketsInput input) else None
  | GetVectorBucket => required validGetVectorBucketInput cloneGetVectorBucketInput
  | ListIndexes => required validListIndexesInput cloneListIndexesInput
  | GetIndex => required validIndexReference cloneReference
  | PutVectors => required validPutVectorsInput clonePutVectorsInput
  | GetVectors => required validGetVectorsInput cloneGetVectorsInput
  | ListVectors => required validListVectorsInput cloneListVectorsInput
  | QueryVectors => required validQueryVectorsInput cloneQueryVectorsInput
  end.

Section provider.
(** What the SDK puts into its outputs. *)
Context {W Item : Type}.

(** The fields of an output that are looked at: a slice or a pointer that may be
    nil, and the distance metric of a query. *)
Record Output := mkOutput { o_items : option (list Item); o_distanceMetric : bytes }.

(** The functions [valid...Output]; [PutVectors] has none. *)
Definition validOutput (op : operation) (output : Output) : bool :=
  match op with
  | PutVectors => true
  | QueryVectors => negb (bool_decide (o_distanceMetric output = [])) && given (o_items output)
  | _ => given (o_items output)
  end.

Definition Client : Type := ∀ op : operation, inputOf op → Call W (option Output * option error).

(** A client of [Options] that is nil is [None]. *)
Definition New (client : option Client) : result Client :=
  match client with None => Fail (Sentinel ErrNilClient) | Some c => Ok c end.

Definition unlessDone {A} (ctx : Context W) (k : Call W (result A)) : Call W (result A) :=
  err ← ctx_Err ctx;
  match err with Some err => mret (Fail err) | None => k end.

(** [Provider.begin]; a nil provider, or one without a client, is [None]. *)
Definition begin {A} (p : option Client) (ctx : option (Context W)) (k : Context W → Client → Call W (result A)) : Call W (result A) :=
  let ctx := orBackground ctx in
  unlessDone ctx (match p with
                  | None => mret (Fail (newError ErrInvalidProvider "validate provider" None))
                  | Some c => k ctx c
                  end).

Definition finish (ctx : Context W) (op : operation) (output : option Output) (callErr : option error) : Call W (result Output) :=
  unlessDone ctx (mret (
  match callErr, output with
  | Some callErr, _ => Fail (newError ErrOperationFailed (operationName op) (Some callErr))
  | None, Some output =>
      if validOutput op output then Ok output else Fail (newError ErrMalformedOutput (operationName op) None)
  | None, None => Fail (newError ErrMalformedOutput (operationName op) None)
  end)).

(** The method of an operation. *)
Definition run (op : operation) (p : option Client) (ctx : option (Context W)) (input : option (inputOf op)) : Call W (result Output) :=
  begin p ctx (λ ctx c,
  match prepare op input with
  | None => mret (Fail invalidRequest)
  | Some input =>
      unlessDone ctx (
      '(output, callErr) ← c op input;
      finish ctx op output callErr)
  end).

Definition Provider_ListVectorBuckets := run ListVectorBuckets.
Definition Provider_GetVectorBucket := run GetVectorBucket.
Definition Provider_ListIndexes := run ListIndexes.
Definition Provider_GetIndex := run GetIndex.
Definition Provider_PutVectors := run PutVectors.
Definition Provider_GetVectors := run GetVectors.
Definition Provider_ListVectors := run ListVectors.
Definition Provider_QueryVectors := run QueryVectors.
End provider.

(** ** What is sent *)

(** An index is named by its ARN, or by its name and the one of its bucket. *)
Definition namesIndex (r : indexReference) : Prop :=
  (∃ arn, r = mkIndexReference (Some arn) None None ∧ nonBlank arn = true) ∨
  (∃ name bucket, r = mkIndexReference None (Some name) (Some bucket) ∧ nonBlank name = true ∧ nonBlank bucket = true).

(** A bucket is named by its ARN or by its name. *)
Definition namesBucket (arn name : option bytes) : Prop :=
  (∃ a, arn = Some a ∧ name = None ∧ nonBlank a = true) ∨ (∃ n, arn = None ∧ name = Some n ∧ nonBlank n = true).

Definition within (value : option Z) (low high : Z) : Prop := ∀ n, value = Some n → low ≤ n ≤ high.
Definition textWithin (value : option bytes) (high : Z) : Prop := ∀ v, value = Some v → ValidString v = true ∧ size v ≤ high.

(** Finite values in the dimensions of the service. *)
Definition vector (data : VectorData) (dimension : Z) : Prop :=
  ∃ values, data = Float32 values ∧ dimension = size values ∧ 1 ≤ dimension ≤ 4096 ∧ Forall (λ b, finite b = true) values.

Definition vectorBytes (v : PutInputVector) : Z :=
  size (default [] (pv_Key v)) + vectorDimension (pv_Data v) * 32 + default 0 (serializedDocumentSize (pv_Metadata v)) + 64.

Definition putVector (v : PutInputVector) : Prop :=
  (∃ key, pv_Key v = Some key ∧ validKeyText key = true) ∧ (∃ d, vector (pv_Data v) d) ∧
  ∃ n, serializedDocumentSize (pv_Metadata v) = Some n ∧ n ≤ 40 * 1024.

Definition sumBy {A} (f : A → Z) (l : list A) : Z := foldr (λ x n, f x + n) 0 l.

(** The requests that are within the documented limits. *)
Definition acceptable (op : operation) : inputOf op → Prop :=
  match op with
  | ListVectorBuckets => λ i, within (lb_MaxResults i) 1 500 ∧ textWithin (lb_Prefix i) 1024 ∧ textWithin (lb_NextToken i) 2048
  | GetVectorBucket => λ i, namesBucket (gb_VectorBucketArn i) (gb_VectorBucketName i)
  | ListIndexes => λ i, namesBucket (li_VectorBucketArn i) (li_VectorBucketName i) ∧ within (li_MaxResults i) 1 500 ∧
      textWithin (li_Prefix i) 1024 ∧ textWithin (li_NextToken i) 2048
  | GetIndex => namesIndex
  | PutVectors => λ i, namesIndex (pu_Index i) ∧ 1 ≤ size (pu_Vectors i) ≤ 500 ∧ Forall putVector (pu_Vectors i) ∧
      sumBy vectorBytes (pu_Vectors i) ≤ 20 * 1024 * 1024
  | GetVectors => λ i, namesIndex (gv_Index i) ∧ 1 ≤ size (gv_Keys i) ≤ 100 ∧ Forall (λ k, validKeyText k = true) (gv_Keys i) ∧
      sumBy (λ k, size k + 8) (gv_Keys i) ≤ 20 * 1024 * 1024
  | ListVectors => λ i, namesIndex (lv_Index i) ∧ within (lv_MaxResults i) 1 1000 ∧ textWithin (lv_NextToken i) 2048 ∧
      within (lv_SegmentCount i) 1 16 ∧ 0 ≤ lv_SegmentIndex i < default 1 (lv_SegmentCount i)
  | QueryVectors => λ i, namesIndex (qv_Index i) ∧ (∃ k, qv_TopK i = Some k ∧ 1 ≤ k ≤ 10000) ∧
      (∃ d n, vector (qv_QueryVector i) d ∧ serializedDocumentSize (qv_Filter i) = Some n ∧ d * 32 + n + 128 ≤ 20 * 1024 * 1024) ∧
      textWithin (qv_NextToken i) 2048
  end.

Lemma validIndexReference_names r : validIndexReference r = true → namesIndex r.
Proof.
  unfold validIndexReference, namesIndex. destruct r as [[a|] [n|] [b|]]; cbn [IndexArn IndexName IndexBucketName given nonBlankPointer].
  all: try destruct (nonBlank a) eqn:Ha; try destruct (nonBlank n) eqn:Hn; try destruct (nonBlank b) eqn:Hb; try done.
  - intros _. left. by exists a.
  - intros _. right. by exists n, b.
Qed.

Lemma validIdentifierPair_names arn name : validIdentifierPair arn name = true → namesBucket arn name.
Proof.
  unfold validIdentifierPair, namesBucket. destruct arn as [a|], name as [n|]; cbn [given nonBlankPointer].
  all: try destruct (nonBlank a) eqn:Ha; try destruct (nonBlank n) eqn:Hn; try done.
  - intros _. left. by exists a.
  - intros _. right. by exists n.
Qed.

Lemma validResults_within r max : validResults r max = true → within r 1 max.
Proof. intros Hv n ->. unfold validResults in Hv. bools. lia. Qed.

Lemma validOptionalString_within v max : validOptionalString v max = true → textWithin v max.
Proof. intros Hv t ->. unfold validOptionalString in Hv. bools. by split. Qed.

Lemma validVectorData_vector data : validVectorData data = true → vector data (vectorDimension data).
Proof.
  destruct data as [| |values|]; try done. cbn [validVectorData vectorDimension]. intros Hv. bools. exists values.
  unfold MaxVectorDimension in *. split; [done|]. split; [done|]. split; [unfold size in *; lia|]. rewrite Forall_forall.
  rewrite forallb_forall in H0. intros x Hx. apply H0. by apply list_elem_of_In.
Qed.

Lemma addRequestBytes_Some total amount total' :
  addRequestBytes total amount = Some total' → total' = total + amount ∧ 0 ≤ amount ∧ total' ≤ MaxRequestPayloadBytes.
Proof. unfold addRequestBytes. destruct (_ || _) eqn:Hv; [done|]. intros [= <-]. bools. lia. Qed.

Lemma putVectorsLoop_spec vectors : ∀ total, total ≤ MaxRequestPayloadBytes → putLoop vectors total = true →
  Forall putVector vectors ∧ total + sumBy vectorBytes vectors ≤ MaxRequestPayloadBytes.
Proof.
  induction vectors as [|[key data md] vectors IH]; intros total Ht; cbn [putLoop pv_Key pv_Data pv_Metadata].
  { intros _. split; [constructor|]. unfold sumBy. cbn. lia. }
  destruct key as [key|]; [|done]. destruct (_ || _) eqn:Hv; [done|]. destruct (serializedDocumentSize md) as [n|] eqn:Hmd; [|done].
  destruct (MaxVectorMetadataBytes <? n) eqn:Hn; [done|]. destruct (addRequestBytes _ _) as [t|] eqn:Ha; [|done].
  apply addRequestBytes_Some in Ha as (-> & Hpos & Hmax). bools. intros HP. destruct (IH _ Hmax HP) as [HF Hs].
  split.
  - constructor; [|done]. split; [by exists key|]. split; [|by exists n].
    eexists. by apply validVectorData_vector.
  - change (sumBy vectorBytes (?v :: vectors)) with (vectorBytes v + sumBy vectorBytes vectors).
    unfold vectorBytes at 1. cbn [pv_Key pv_Data pv_Metadata]. rewrite Hmd. unfold maxVectorComponentBytes in *. cbn. lia.
Qed.

Lemma keysLoop_spec keys : ∀ total, total ≤ MaxRequestPayloadBytes → keysLoop keys total = true →
  Forall (λ k, validKeyText k = true) keys ∧ total + sumBy (λ k, size k + 8) keys ≤ MaxRequestPayloadBytes.
Proof.
  induction keys as [|key keys IH]; intros total Ht; cbn [keysLoop].
  { intros _. split; [constructor|]. unfold sumBy. cbn. lia. }
  destruct (validKeyText key) eqn:Hk; [|done]. cbn [negb]. destruct (addRequestBytes _ _) as [t|] eqn:Ha; [|done].
  apply addRequestBytes_Some in Ha as (-> & Hpos & Hmax). intros HP. destruct (IH _ Hmax HP) as [HF Hs].
  split; [by constructor|]. change (sumBy _ (key :: keys)) with (size key + 8 + sumBy (λ k, size k + 8) keys). lia.
Qed.

(** *** Copies are equal *)

Lemma cloneString_id v : cloneString v = v.
Proof. by destruct v. Qed.
Lemma cloneInt32_id v : cloneInt32 v = v.
Proof. by destruct v. Qed.
Lemma cloneReference_id r : cloneReference r = r.
Proof. unfold cloneReference. rewrite !cloneString_id. by destruct r. Qed.
Lemma clonePutInputVector_id v : clonePutInputVector v = v.
Proof. unfold clonePutInputVector. rewrite cloneString_id. destruct v as [k d md]. by destruct d. Qed.

(** The copy that is sent is what the caller gave, and within the limits. *)
Lemma prepare_acceptable op (input : option (inputOf op)) i :
  prepare op input = Some i → acceptable op i ∧ ∀ g, input = Some g → i = g.
Proof.
  destruct op; cbn [prepare acceptable inputOf] in *.
  - destruct input as [g|]; cbn [validListVectorBucketsInput].
    + destruct (_ && _) eqn:Hv; [|done]. intros [= <-]. unfold cloneListVectorBucketsInput. rewrite cloneInt32_id, !cloneString_id.
      bools. split; [|intros ? [= <-]; by destruct g]. cbn [lb_MaxResults lb_NextToken lb_Prefix li_MaxResults li_NextToken li_Prefix li_VectorBucketArn li_VectorBucketName
      pu_Index pu_Vectors gv_Keys gv_Index lv_Index lv_MaxResults lv_NextToken lv_SegmentCount lv_SegmentIndex qv_QueryVector qv_TopK
      qv_Filter qv_Index qv_NextToken].
      split; [by apply validResults_within|]. split; by apply validOptionalString_within.
    + intros [= <-]. split; [|done]. by repeat split.
  - destruct input as [g|]; [|done]. destruct (validGetVectorBucketInput g) eqn:Hv; [|done]. intros [= <-].
    unfold cloneGetVectorBucketInput. rewrite !cloneString_id. split; [by apply validIdentifierPair_names|].
    intros ? [= <-]. by destruct g.
  - destruct input as [g|]; [|done]. destruct (validListIndexesInput g) eqn:Hv; [|done]. intros [= <-].
    unfold cloneListIndexesInput. rewrite cloneInt32_id, !cloneString_id. unfold validListIndexesInput in Hv. bools.
    split; [|intros ? [= <-]; by destruct g]. cbn [lb_MaxResults lb_NextToken lb_Prefix li_MaxResults li_NextToken li_Prefix li_VectorBucketArn li_VectorBucketName
      pu_Index pu_Vectors gv_Keys gv_Index lv_Index lv_MaxResults lv_NextToken lv_SegmentCount lv_SegmentIndex qv_QueryVector qv_TopK
      qv_Filter qv_Index qv_NextToken]. split; [by apply validIdentifierPair_names|].
    split; [by apply validResults_within|]. split; by apply validOptionalString_within.
  - destruct input as [g|]; [|done]. destruct (validIndexReference g) eqn:Hv; [|done]. intros [= <-]. rewrite cloneReference_id.
    split; [by apply validIndexReference_names|]. by intros ? [= <-].
  - destruct input as [g|]; [|done]. destruct (validPutVectorsInput g) eqn:Hv; [|done]. intros [= <-].
    unfold clonePutVectorsInput. rewrite cloneReference_id, (map_ext _ id clonePutInputVector_id), map_id.
    unfold validPutVectorsInput in Hv. bools. split; [|intros ? [= <-]; by destruct g]. cbn [lb_MaxResults lb_NextToken lb_Prefix li_MaxResults li_NextToken li_Prefix li_VectorBucketArn li_VectorBucketName
      pu_Index pu_Vectors gv_Keys gv_Index lv_Index lv_MaxResults lv_NextToken lv_SegmentCount lv_SegmentIndex qv_QueryVector qv_TopK
      qv_Filter qv_Index qv_NextToken].
    destruct (putVectorsLoop_spec (pu_Vectors g) 0 ltac:(by vm_compute) ltac:(done)) as [HF Hs]. unfold MaxPutVectors, MaxRequestPayloadBytes in *.
    split; [by apply validIndexReference_names|]. split; [unfold size in *; lia|]. split; [done|lia].
  - destruct input as [g|]; [|done]. destruct (validGetVectorsInput g) eqn:Hv; [|done]. intros [= <-].
    unfold cloneGetVectorsInput. rewrite cloneReference_id. change ([] ++ gv_Keys g) with (gv_Keys g). unfold validGetVectorsInput in Hv. bools.
    split; [|intros ? [= <-]; by destruct g]. cbn [lb_MaxResults lb_NextToken lb_Prefix li_MaxResults li_NextToken li_Prefix li_VectorBucketArn li_VectorBucketName
      pu_Index pu_Vectors gv_Keys gv_Index lv_Index lv_MaxResults lv_NextToken lv_SegmentCount lv_SegmentIndex qv_QueryVector qv_TopK
      qv_Filter qv_Index qv_NextToken].
    destruct (keysLoop_spec (gv_Keys g) 0 ltac:(by vm_compute) ltac:(done)) as [HF Hs]. unfold MaxGetVectors, MaxRequestPayloadBytes in *.
    split; [by apply validIndexReference_names|]. split; [unfold size in *; lia|]. split; [done|lia].
  - destruct input as [g|]; [|done]. destruct (validListVectorsInput g) eqn:Hv; [|done]. intros [= <-].
    unfold cloneListVectorsInput. rewrite cloneReference_id, !cloneInt32_id, cloneString_id. unfold validListVectorsInput in Hv. bools.
    split; [|intros ? [= <-]; by destruct g]. cbn [lb_MaxResults lb_NextToken lb_Prefix li_MaxResults li_NextToken li_Prefix li_VectorBucketArn li_VectorBucketName
      pu_Index pu_Vectors gv_Keys gv_Index lv_Index lv_MaxResults lv_NextToken lv_SegmentCount lv_SegmentIndex qv_QueryVector qv_TopK
      qv_Filter qv_Index qv_NextToken]. split; [by apply validIndexReference_names|].
    split; [by apply validResults_within|]. split; [by apply validOptionalString_within|]. unfold MaxSegmentCount in *.
    destruct (lv_SegmentCount g) as [n|]; bools; [|cbn; split; [done|lia]]. cbn. split; [intros ? [= <-]; lia|lia].
  - destruct input as [g|]; [|done]. destruct (validQueryVectorsInput g) eqn:Hv; [|done]. intros [= <-].
    unfold cloneQueryVectorsInput. rewrite cloneReference_id, !cloneInt32_id, cloneString_id.
    assert (cloneVectorData (qv_QueryVector g) = qv_QueryVector g) as -> by (by destruct (qv_QueryVector g)).
    unfold validQueryVectorsInput in Hv. bools.
    destruct (qv_TopK g) as [k|] eqn:Hk; [|done]. destruct (serializedDocumentSize (qv_Filter g)) as [n|] eqn:Hf; [|done]. bools.
    split; [|intros ? [= <-]; rewrite <-Hk; by destruct g]. cbn [lb_MaxResults lb_NextToken lb_Prefix li_MaxResults li_NextToken li_Prefix li_VectorBucketArn li_VectorBucketName
      pu_Index pu_Vectors gv_Keys gv_Index lv_Index lv_MaxResults lv_NextToken lv_SegmentCount lv_SegmentIndex qv_QueryVector qv_TopK
      qv_Filter qv_Index qv_NextToken]. unfold MaxQueryTopK, MaxRequestPayloadBytes, maxVectorComponentBytes in *.
    split; [by apply validIndexReference_names|]. split; [exists k; split; [done|lia]|]. split; [|by apply validOptionalString_within].
    exists (vectorDimension (qv_QueryVector g)), n. split; [by apply validVectorData_vector|]. split; [done|lia].
Qed.

Lemma unlessDone_same {W A} (ctx : Context W) (k1 k2 : Call W (result A)) :
  (∀ w, k1 w = k2 w) → ∀ w, unlessDone ctx k1 w = unlessDone ctx k2 w.
Proof. intros Hk w. unfold unlessDone, mbind, call_bind. by destruct (ctx_Err ctx w) as [[err|] w']. Qed.

(** C20. No operation sends a request outside of the documented limits: the
    answers of a client to such requests never matter.  What is within them is
    the names of buckets and indexes, page sizes, tokens and prefixes,
    segments, the keys, dimensions and finite values of vectors, the size of
    their metadata and filters, and the estimated size of the whole request,
    at most 20 MiB; and what is sent is what the caller gave. *)
Theorem vectors_sends_acceptable {W Item} (c1 c2 : Client (W := W) (Item := Item)) op ctx input w :
  (∀ i v, acceptable op i → (∀ g, input = Some g → i = g) → c1 op i v = c2 op i v) →
  run op (Some c1) ctx input w = run op (Some c2) ctx input w.
Proof.
  intros Hagree. unfold run, begin. apply unlessDone_same. clear w. intros w.
  destruct (prepare op input) as [i|] eqn:Hp; [|done]. apply unlessDone_same. clear w. intros w.
  destruct (prepare_acceptable op input i Hp) as [Ha Hg]. unfold mbind, call_bind. by rewrite (Hagree i w Ha Hg).
Qed.

(** A client that refuses requests with more than 500 vectors, and one that takes them. *)
Definition sampleClient (limit : Z) : Client (W := ()) (Item := bytes) := λ op,
  match op with
  | PutVectors => λ i w, (if limit <? size (pu_Vectors i) then (None, Some (Sentinel "ValidationException"))
                          else (Some (mkOutput None []), None), w)
  | _ => λ _ w, ((Some (mkOutput (Some []) (lit "cosine")), None), w)
  end.

Definition samplePut : PutVectorsInput :=
  mkPutVectorsInput (mkIndexReference (Some (lit "arn:index")) None None)
    [mkPutInputVector (Some (lit "key")) (Float32 [1065353216; 0]) NoDocument].

Lemma vectors_sends_acceptable_witness :
  run PutVectors (Some (sampleClient 500)) None (Some samplePut) () = (Ok (mkOutput None []), ()) ∧
  run PutVectors (Some (sampleClient 500)) None (Some samplePut) () =
  run PutVectors (Some (sampleClient 1000000)) None (Some samplePut) ().
Proof.
  split; [vm_compute; reflexivity|].
  apply (vectors_sends_acceptable (sampleClient 500) (sampleClient 1000000) PutVectors None (Some samplePut) ()).
  intros i v (_ & Hs & _) _. unfold sampleClient.
  rewrite !(proj2 (Z.ltb_ge _ _)) by lia. reflexivity.
Defined.
