(* ===== verification/CloudValues.v ===== *)
(** * Parameters and secrets of AWS

    Models src/ssm and src/secretsmanager (errors.go, value.go and provider.go).
    The two packages share their errors, limits and the use of the cache; they
    differ in their lookups, and the parameter store knows two modes.  The clients and the
    caller's cache are calls on a world.  Strings are their bytes. *)

From S2P Require Import Prelude GoError GoText Core GoEncoding Resilience.

Local Open Scope Z_scope.

(** ** errors.go *)

(** The name of the package. *)
Definition package : Type := string.
Definition ssmPackage : package := "ssm".
Definition secretsPackage : package := "secretsmanager".

Inductive kind : Type :=
| ErrNilClient | ErrInvalidOptions | ErrInvalidName | ErrLookupFailed | ErrMalformedOutput | ErrMissingValue | ErrCacheFailed.

Definition kindName (k : kind) : string :=
  match k with
  | ErrNilClient => ".ErrNilClient"
  | ErrInvalidOptions => ".ErrInvalidOptions"
  | ErrInvalidName => ".ErrInvalidName"
  | ErrLookupFailed => ".ErrLookupFailed"
  | ErrMalformedOutput => ".ErrMalformedOutput"
  | ErrMissingValue => ".ErrMissingValue"
  | ErrCacheFailed => ".ErrCacheFailed"
  end.

Definition sentinelOf (pkg : package) (k : kind) : string := pkg ++ kindName k.
Definition errorType (pkg : package) : string := pkg ++ ".Error".

Definition safeOperation (operation : string) : string :=
  if existsb (String.eqb operation) ["validate options"; "validate name"; "lookup"; "cache"]%string then operation else "".

(** The error answers [Is] for its kind and its cause. *)
Definition newError (pkg : package) (k : kind) (operation : string) (cause : option error) : error :=
  Typed (errorType pkg) [FStr (sentinelOf pkg k); FStr (safeOperation operation)] [sentinelOf pkg k] cause.

(** [errors.As(err, &providerErr)] *)
Definition isProviderError (pkg : package) (err : error) : bool := errors_As err (errorType pkg).

(** ** value.go *)

Record Value_ := mkValue { v_data : bytes; v_binary : bool; v_present : bool }.

Definition zeroValue : Value_ := mkValue [] false false.
Definition newTextValue (value : bytes) : Value_ := mkValue ([] ++ value) false true.
Definition newBinaryValue (value : bytes) : Value_ := mkValue ([] ++ value) true true.
(** [newValue] of src/ssm *)
Definition newValue (value : bytes) : Value_ := mkValue ([] ++ value) false true.

Definition clone (v : Value_) : Value_ :=
  if negb (v_present v) then zeroValue else mkValue ([] ++ v_data v) (v_binary v) true.

(** A nil slice is [None]. *)
Definition value_Bytes (v : Value_) : option bytes := if negb (v_present v) then None else Some ([] ++ v_data v).
(** [Value.Text] of src/secretsmanager *)
Definition value_Text (v : Value_) : bytes := if v_binary v then [] else v_data v.
Definition value_IsBinary (v : Value_) : bool := v_present v && v_binary v.
Definition value_IsSet (v : Value_) : bool := v_present v.
Definition value_Len (v : Value_) : Z := Z.of_nat (length (v_data v)).
Definition value_String (v : Value_) : string := "[REDACTED]".

(** ** provider.go *)

Definition maxNameBytes : Z := 2048.

Definition validateName (pkg : package) (name : bytes) : option error :=
  if negb (ValidString name) || bool_decide (TrimSpace (runesOf name) = []) || (maxNameBytes <? Z.of_nat (length name))
  then Some (newError pkg ErrInvalidName "validate name" None) else None.

Section provider.
Context {W : Type}.

(** The one method of the cache that is used. *)
Record LoadingCache := mkCache {
  GetOrLoad : Context W → bytes → Z → (Context W → Call W (result Value_)) → Call W (result Value_)
}.

(** A client of the parameter store: its output, the parameter in it and the value
    in that may be nil.  A client of the secrets: the string and the binary. *)
Definition ParameterClient : Type := bytes → bool → Call W (option (option (option bytes)) * option error).
Definition SecretClient : Type := bytes → Call W (option (option bytes * option bytes) * option error).

(** A nil client, typed or not, is [None].  The cache is [None] when the interface
    is nil and [Some None] when it holds a nil pointer. *)
Record Options (C : Type) := mkOptions {
  optClient : option C;
  optCache : option (option LoadingCache);
  optCacheTTL : Z;
  optWithDecryption : bool
}.
Arguments optClient {C} _.
Arguments optCache {C} _.
Arguments optCacheTTL {C} _.
Arguments optWithDecryption {C} _.

Record Provider (C : Type) := mkProvider {
  client : C;
  lookupCache : option (option LoadingCache);
  cacheTTL : Z;
  withDecryption : bool
}.
Arguments mkProvider {C} _ _ _ _.
Arguments client {C} _.
Arguments lookupCache {C} _.
Arguments cacheTTL {C} _.
Arguments withDecryption {C} _.

(** [New] of both packages; the secrets have no mode. *)
Definition New {C} (pkg : package) (options : Options C) : result (Provider C) :=
  match optClient options with
  | None => Fail (Sentinel (sentinelOf pkg ErrNilClient))
  | Some c =>
      let invalid := newError pkg ErrInvalidOptions "validate options" None in
      if optCacheTTL options <? 0 then Fail invalid
      else if match optCache options with Some None => true | _ => false end then Fail invalid
      else if (0 <? optCacheTTL options) && match optCache options with None => true | Some _ => false end then Fail invalid
      else Ok (mkProvider c (optCache options) (optCacheTTL options) (optWithDecryption options))
  end.

(** [Provider.validate]; a nil provider is [None]. *)
Definition validateProvider {C} (pkg : package) (p : option (Provider C)) : result (Provider C) :=
  let invalid := newError pkg ErrInvalidOptions "validate options" None in
  match p with
  | None => Fail invalid
  | Some p =>
      if (cacheTTL p <? 0) || (0 <? cacheTTL p) && match lookupCache p with None | Some None => true | Some (Some _) => false end
      then Fail invalid
      else if match lookupCache p with Some None => true | _ => false end then Fail invalid
      else Ok p
  end.

(** [if err := ctx.Err(); err != nil { return zero, err }] *)
Definition unlessDone {A} (ctx : Context W) (k : Call W (result A)) : Call W (result A) :=
  err ← ctx_Err ctx;
  match err with Some err => mret (Fail err) | None => k end.

(** A call of the client with the value of its output. *)
Definition lookupWith {O} (pkg : package) (ctx : Context W) (request : Call W (O * option error))
    (valueOf : O → result Value_) : Call W (result Value_) :=
  unlessDone ctx (
  '(output, callErr) ← request;
  unlessDone ctx (
  match callErr with
  | Some callErr => mret (Fail (newError pkg ErrLookupFailed "lookup" (Some callErr)))
  | None =>
      match valueOf output with
      | Fail err => mret (Fail err)
      | Ok value => unlessDone ctx (mret (Ok value))
      end
  end)).

(** [Provider.lookup] of src/ssm *)
Definition parameterValue (output : option (option (option bytes))) : result Value_ :=
  match output with
  | Some (Some (Some value)) => Ok (newValue value)
  | Some (Some None) => Fail (newError ssmPackage ErrMissingValue "lookup" None)
  | _ => Fail (newError ssmPackage ErrMalformedOutput "lookup" None)
  end.

Definition ssm_lookup (p : Provider ParameterClient) (name : bytes) (withDecryption : bool) (ctx : Context W) : Call W (result Value_) :=
  lookupWith ssmPackage ctx (client p name withDecryption) parameterValue.

(** [Provider.lookup] of src/secretsmanager *)
Definition secretValue (output : option (option bytes * option bytes)) : result Value_ :=
  match output with
  | None => Fail (newError secretsPackage ErrMalformedOutput "lookup" None)
  | Some (Some _, Some _) => Fail (newError secretsPackage ErrMalformedOutput "lookup" None)
  | Some (None, None) => Fail (newError secretsPackage ErrMissingValue "lookup" None)
  | Some (Some text, None) => Ok (newTextValue text)
  | Some (None, Some binary) => Ok (newBinaryValue binary)
  end.

Definition secrets_lookup (p : Provider SecretClient) (name : bytes) (ctx : Context W) : Call W (result Value_) :=
  lookupWith secretsPackage ctx (client p name) secretValue.

(** The body of [Provider.get] of src/ssm and [Provider.Get] of src/secretsmanager. *)
Definition getWith {C} (pkg : package) (p : option (Provider C)) (ctx : option (Context W)) (name : bytes) (cacheKey : bytes)
    (lookup : Provider C → Context W → Call W (result Value_)) : Call W (result Value_) :=
  let ctx := orBackground ctx in
  unlessDone ctx (
  match validateProvider pkg p with
  | Fail err => mret (Fail err)
  | Ok p =>
      match validateName pkg name with
      | Some err => mret (Fail err)
      | None =>
          match lookupCache p with
          | Some (Some c) =>
              if cacheTTL p =? 0 then lookup p ctx
              else
                res ← GetOrLoad c ctx cacheKey (cacheTTL p) (lookup p);
                unlessDone ctx (
                match res with
                | Fail err =>
                    mret (Fail (if isContextError err || isProviderError pkg err then err
                                else newError pkg ErrCacheFailed "cache" (Some err)))
                | Ok value => unlessDone ctx (mret (Ok (clone value)))
                end)
          (* [Some None] is refused by [validateProvider] *)
          | None | Some None => lookup p ctx
          end
      end
  end).

Definition cacheKey (name : bytes) (withDecryption : bool) : bytes :=
  (if withDecryption then lit "secure" else lit "plain") ++ [0] ++ name.

Definition ssm_get (p : option (Provider ParameterClient)) (ctx : option (Context W)) (name : bytes) (withDecryption : bool)
    : Call W (result Value_) :=
  getWith ssmPackage p ctx name (cacheKey name withDecryption) (λ p, ssm_lookup p name withDecryption).

(** [Provider.Get] and [Provider.GetSecure] of src/ssm *)
Definition ssm_Get (p : option (Provider ParameterClient)) (ctx : option (Context W)) (name : bytes) : Call W (result Value_) :=
  ssm_get p ctx name (match p with Some p => withDecryption p | None => false end).

Definition ssm_GetSecure (p : option (Provider ParameterClient)) (ctx : option (Context W)) (name : bytes) : Call W (result Value_) :=
  ssm_get p ctx name true.

(** [Provider.Get] of src/secretsmanager *)
Definition secrets_Get (p : option (Provider SecretClient)) (ctx : option (Context W)) (name : bytes) : Call W (result Value_) :=
  getWith secretsPackage p ctx name name (λ p, secrets_lookup p name).
End provider.

Arguments mkProvider {W C} _ _ _ _.
Arguments client {W C} _.
Arguments lookupCache {W C} _.
Arguments cacheTTL {W C} _.
Arguments optCache {W C} _.
Arguments mkOptions {W C} _ _ _ _.

(** ** Where a value comes from *)

(** A value of the parameter [name] that the service has answered in this mode. *)
Definition answered {W} (c : ParameterClient (W := W)) (name : bytes) (mode : bool) (v : Value_) : Prop :=
  ∃ w text, (c name mode w).1 = (Some (Some (Some text)), None) ∧ v = mkValue text false true.

(** A secret of this name: text, or binary. *)
Definition answeredSecret {W} (c : SecretClient (W := W)) (name : bytes) (v : Value_) : Prop :=
  ∃ w, (∃ text, (c name w).1 = (Some (Some text, None), None) ∧ v = mkValue text false true) ∨
       (∃ data, (c name w).1 = (Some (None, Some data), None) ∧ v = mkValue data true true).

Section laws.
Context {W : Type}.
(** The contexts of the caller and those the cache derives from them. *)
Context (derived : Context W → Prop).

(** A call keeps what the cache holds. *)
Definition keepsInv {A} (inv : W → Prop) (c : Call W A) : Prop := ∀ w, inv w → inv (c w).2.

(** A cache that holds only values with [G]: what it gives for a key is what a
    loader for this key has returned, now or before. *)
Class CacheLaws (c : LoadingCache (W := W)) (inv : (bytes → Value_ → Prop) → W → Prop) : Prop := {
  cache_loads : ∀ G ctx key ttl loader w, derived ctx → inv G w →
    (∀ ctx', derived ctx' → keepsInv (inv G) (loader ctx') ∧ ∀ w1 v, (loader ctx' w1).1 = Ok v → G key v) →
    let '(r, w') := GetOrLoad c ctx key ttl loader w in inv G w' ∧ ∀ v, r = Ok v → G key v
}.

Section invariant.
Context (inv : W → Prop).
Hypothesis Hderived : ∀ ctx, derived ctx → keepsInv inv (ctx_Err ctx).

Lemma keepsInv_ret {A} (a : A) : keepsInv inv (mret a).
Proof. by intros w. Qed.

Lemma keepsInv_bind {A B} (c : Call W A) (f : A → Call W B) : keepsInv inv c → (∀ a, keepsInv inv (f a)) → keepsInv inv (c ≫= f).
Proof.
  intros Hc Hf w Hw. unfold mbind, call_bind. specialize (Hc w Hw). destruct (c w) as [a w1]. by apply Hf.
Qed.

Lemma keepsInv_unless {A} ctx (k : Call W (result A)) : derived ctx → keepsInv inv k → keepsInv inv (unlessDone ctx k).
Proof. intros Hd Hk. apply keepsInv_bind; [by apply Hderived|]. intros [e|]; [apply keepsInv_ret|done]. Qed.

Lemma cwp_unless {A} ctx (k : Call W (result A)) Q w :
  derived ctx → inv w → (∀ e w', inv w' → Q (Fail e) w') → (∀ w', inv w' → cwp k Q w') → cwp (unlessDone ctx k) Q w.
Proof.
  intros Hd Hw Hf Hk. apply cwp_bind, cwp_any. intros [e|] w' E; pose proof (Hderived ctx Hd w Hw) as Hi; rewrite E in Hi.
  - by apply cwp_ret, Hf.
  - by apply Hk.
Qed.

Lemma lookupWith_keeps {O} pkg ctx (request : Call W (O * option error)) valueOf :
  derived ctx → keepsInv inv request → keepsInv inv (lookupWith pkg ctx request valueOf).
Proof.
  intros Hd Hr. apply keepsInv_unless; [done|]. apply keepsInv_bind; [done|]. intros [o e]. apply keepsInv_unless; [done|].
  destruct e; [apply keepsInv_ret|]. destruct (valueOf o); [|apply keepsInv_ret]. apply keepsInv_unless; [done|apply keepsInv_ret].
Qed.
End invariant.

Lemma lookupWith_Ok {O} pkg ctx (request : Call W (O * option error)) valueOf w v :
  (lookupWith pkg ctx request valueOf w).1 = Ok v → ∃ w1 o, (request w1).1 = (o, None) ∧ valueOf o = Ok v.
Proof.
  enough (cwp (lookupWith pkg ctx request valueOf) (λ r _, ∀ v, r = Ok v → ∃ w1 o, (request w1).1 = (o, None) ∧ valueOf o = Ok v) w)
    as Hc by apply Hc.
  apply cwp_bind, cwp_any. intros [e|] w1 _; [by apply cwp_ret|]. apply cwp_bind, cwp_any. intros [o e] w2 E.
  apply cwp_bind, cwp_any. intros [c|] w3 _; [by apply cwp_ret|]. destruct e; [by apply cwp_ret|].
  destruct (valueOf o) as [x|] eqn:Hx; [|by apply cwp_ret]. apply cwp_bind, cwp_any. intros [c|] w4 _; apply cwp_ret; [done|].
  intros y [= <-]. exists w1, o. by rewrite E.
Qed.

(** What both providers share: a value comes from a lookup, or from a cache that
    was filled by lookups for the same key. *)
Lemma getWith_genuine {C} pkg (p : Provider (W := W) C) ctx name key lookup inv (G : bytes → Value_ → Prop) w :
  derived (orBackground ctx) → (∀ c, lookupCache p = Some (Some c) → CacheLaws c inv) →
  (∀ ctx, derived ctx → keepsInv (inv G) (ctx_Err ctx)) → inv G w →
  (∀ ctx', derived ctx' → keepsInv (inv G) (lookup p ctx') ∧ ∀ w1 v, (lookup p ctx' w1).1 = Ok v → G key v) →
  (∀ key v, G key v → v_present v = true) →
  let '(r, w') := getWith pkg (Some p) ctx name key lookup w in inv G w' ∧ ∀ v, r = Ok v → G key v.
Proof.
  intros Hd Hcache Hctx Hw Hl Hp.
  enough (cwp (getWith pkg (Some p) ctx name key lookup) (λ r w', inv G w' ∧ ∀ v, r = Ok v → G key v) w) as Hc
    by (unfold cwp in Hc; by destruct (getWith _ _ _ _ _ _ w)).
  assert (∀ w1, inv G w1 → cwp (lookup p (orBackground ctx)) (λ r w', inv G w' ∧ ∀ v, r = Ok v → G key v) w1) as Hdirect.
  { intros w1 H1. destruct (Hl _ Hd) as [Hk Hv]. split; [by apply Hk|]. intros v. apply Hv. }
  unfold getWith. cbv zeta. apply (cwp_unless (inv G)); [done..|by split|]. intros w1 H1.
  destruct (validateProvider pkg (Some p)) as [p'|] eqn:Hv; [|by apply cwp_ret].
  assert (p' = p) as -> by (revert Hv; unfold validateProvider; cbv zeta; destruct (_ || _); [done|]; destruct (match lookupCache p with Some None => true | _ => false end); by intros [=]).
  destruct (validateName pkg name); [by apply cwp_ret|].
  destruct (lookupCache p) as [[c|]|] eqn:Hc; [|by apply Hdirect..]. destruct (cacheTTL p =? 0); [by apply Hdirect|].
  apply cwp_bind, cwp_any. intros r w2 E. destruct (Hcache c eq_refl) as [Hload].
  specialize (Hload G _ key (cacheTTL p) (lookup p) w1 Hd H1 Hl). rewrite E in Hload. destruct Hload as [H2 Hr].
  apply (cwp_unless (inv G)); [done..|by split|]. intros w3 H3. destruct r as [v|err]; [|by apply cwp_ret].
  apply (cwp_unless (inv G)); [done..|by split|]. intros w4 H4. apply cwp_ret. split; [done|]. intros x [= <-].
  specialize (Hr v eq_refl). unfold clone. rewrite (Hp _ _ Hr). cbn [negb]. pose proof (Hp _ _ Hr) as Hpv.
  destruct v as [d b pr]. cbn in *. by subst pr.
Qed.
End laws.

Lemma cacheKey_injective name mode name' mode' : cacheKey name mode = cacheKey name' mode' → name = name' ∧ mode = mode'.
Proof. unfold cacheKey. destruct mode, mode'; cbn; intros [=]; by subst. Qed.

(** C21. Plain and decrypted parameters never mix.  Whatever a provider of
    parameters returns for a name and a mode, from the service or from the caller's
    cache, is a value that the service has answered to a request for exactly this
    name in exactly this mode, provided that the cache gives for a key only what was
    loaded for it; and the cache still holds only such values afterwards. *)
Theorem parameters_genuine {W} (derived : Context W → Prop) (options : Options (ParameterClient (W := W))) p
    (inv : (bytes → Value_ → Prop) → W → Prop) ctx name mode w v w' :
  let G key v := ∃ name mode, key = cacheKey name mode ∧ answered (client p) name mode v in
  New ssmPackage options = Ok p → (∀ c, optCache options = Some (Some c) → CacheLaws derived c inv) → derived (orBackground ctx) →
  (∀ ctx, derived ctx → keepsInv (inv G) (ctx_Err ctx)) → (∀ name mode, keepsInv (inv G) (client p name mode)) → inv G w →
  ssm_get (Some p) ctx name mode w = (Ok v, w') → answered (client p) name mode v ∧ inv G w'.
Proof.
  intros G Hnew Hcache Hd Hctx Hcl Hw Hget.
  assert (lookupCache p = optCache options) as Hlc.
  { revert Hnew. unfold New. cbv zeta. destruct (optClient _ options); [|done]. destruct (_ <? 0); [done|].
    destruct (match optCache options with Some None => true | _ => false end); [done|]. destruct (_ && _); [done|]. by intros [= <-]. }
  assert (∀ key v, G key v → v_present v = true) as Hpres by (by intros key x (? & ? & _ & ? & ? & _ & ->)).
  assert (∀ ctx', derived ctx' → keepsInv (inv G) (ssm_lookup p name mode ctx') ∧
    ∀ w1 x, (ssm_lookup p name mode ctx' w1).1 = Ok x → G (cacheKey name mode) x) as Hl.
  { intros ctx' Hd'. split; [apply (lookupWith_keeps derived); auto|].
    intros w1 x (w2 & o & Ho & Hx)%lookupWith_Ok. exists name, mode. split; [done|].
    destruct o as [[[text|]|]|]; try done. injection Hx as <-. by exists w2, text. }
  rewrite <-Hlc in Hcache.
  pose proof (getWith_genuine derived ssmPackage p ctx name (cacheKey name mode) (λ p, ssm_lookup p name mode) inv G w
    Hd Hcache Hctx Hw Hl Hpres) as Hg.
  unfold ssm_get in Hget. rewrite Hget in Hg. destruct Hg as [Hi Hv]. split; [|done].
  destruct (Hv v eq_refl) as (n & d & [-> ->]%cacheKey_injective & Ha). done.
Qed.

(** The same for secrets, whose key in the cache is the name. *)
Theorem secrets_genuine {W} (derived : Context W → Prop) (options : Options (SecretClient (W := W))) p
    (inv : (bytes → Value_ → Prop) → W → Prop) ctx name w v w' :
  let G key v := answeredSecret (client p) key v in
  New secretsPackage options = Ok p → (∀ c, optCache options = Some (Some c) → CacheLaws derived c inv) → derived (orBackground ctx) →
  (∀ ctx, derived ctx → keepsInv (inv G) (ctx_Err ctx)) → (∀ name, keepsInv (inv G) (client p name)) → inv G w →
  secrets_Get (Some p) ctx name w = (Ok v, w') → answeredSecret (client p) name v ∧ inv G w'.
Proof.
  intros G Hnew Hcache Hd Hctx Hcl Hw Hget.
  assert (lookupCache p = optCache options) as Hlc.
  { revert Hnew. unfold New. cbv zeta. destruct (optClient _ options); [|done]. destruct (_ <? 0); [done|].
    destruct (match optCache options with Some None => true | _ => false end); [done|]. destruct (_ && _); [done|]. by intros [= <-]. }
  assert (∀ key v, G key v → v_present v = true) as Hpres by (by intros key x (? & [(? & _ & ->)|(? & _ & ->)])).
  assert (∀ ctx', derived ctx' → keepsInv (inv G) (secrets_lookup p name ctx') ∧
    ∀ w1 x, (secrets_lookup p name ctx' w1).1 = Ok x → G name x) as Hl.
  { intros ctx' Hd'. split; [apply (lookupWith_keeps derived); auto|].
    intros w1 x (w2 & o & Ho & Hx)%lookupWith_Ok. exists w2.
    destruct o as [[[text|] [data|]]|]; try done; injection Hx as <-; [left; by exists text|right; by exists data]. }
  rewrite <-Hlc in Hcache.
  pose proof (getWith_genuine derived secretsPackage p ctx name name (λ p, secrets_lookup p name) inv G w
    Hd Hcache Hctx Hw Hl Hpres) as Hg.
  unfold secrets_Get in Hget. rewrite Hget in Hg. destruct Hg as [Hi Hv]. split; [|done]. by apply Hv.
Qed.

(** A cache of one value, in a world that is the value. *)
Definition slotCache : LoadingCache (W := option (bytes * Value_)) := mkCache (λ ctx key _ loader w,
  match w with
  | Some (key', v) => if decide (key' = key) then (Ok v, w) else
      let '(r, w') := loader ctx w in (r, match r with Ok v => Some (key, v) | Fail _ => w' end)
  | None => let '(r, w') := loader ctx w in (r, match r with Ok v => Some (key, v) | Fail _ => w' end)
  end).

Definition slotInv (G : bytes → Value_ → Prop) (w : option (bytes * Value_)) : Prop := ∀ key v, w = Some (key, v) → G key v.

#[export] Instance slotCache_laws derived : CacheLaws derived slotCache slotInv.
Proof.
  split. intros G ctx key ttl loader w Hd Hw Hl. destruct (Hl ctx Hd) as [Hk Hv].
  assert (let '(r, w') := (let '(r, w') := loader ctx w in (r, match r with Ok v => Some (key, v) | Fail _ => w' end)) in
    slotInv G w' ∧ ∀ v, r = Ok v → G key v) as Hload.
  { specialize (Hk w Hw). specialize (Hv w). destruct (loader ctx w) as [[v|e] w1]; cbn in *; (split; [|done || by intros x [= <-]; apply Hv]); [|done].
    intros k x [= <- <-]. by apply Hv. }
  cbn. destruct w as [[k x]|]; [|done]. destruct (decide (k = key)) as [->|]; [|done].
  split; [done|]. intros y [= <-]. by apply Hw.
Qed.

(** A service that answers the name, with a mark when it decrypts. *)
Definition sampleParameters : ParameterClient (W := option (bytes * Value_)) :=
  λ name mode w, ((Some (Some (Some ((if mode then lit "!" else []) ++ name))), None), w).

Definition sampleOptions : Options (ParameterClient (W := option (bytes * Value_))) :=
  mkOptions (Some sampleParameters) (Some (Some slotCache)) 60 false.

Definition sampleProvider : Provider (ParameterClient (W := option (bytes * Value_))) :=
  mkProvider sampleParameters (Some (Some slotCache)) 60 false.

(** The plain value is in the cache; the decrypted one is looked up. *)
Lemma parameters_genuine_witness :
  let w := Some (cacheKey (lit "db") false, mkValue (lit "db") false true) in
  let w' := Some (cacheKey (lit "db") true, mkValue (lit "!db") false true) in
  ssm_Get (Some sampleProvider) None (lit "db") w = (Ok (mkValue (lit "db") false true), w) ∧
  ssm_GetSecure (Some sampleProvider) None (lit "db") w = (Ok (mkValue (lit "!db") false true), w') ∧
  answered sampleParameters (lit "db") true (mkValue (lit "!db") false true).
Proof.
  split; [vm_compute; reflexivity|]. split; [vm_compute; reflexivity|].
  refine (proj1 (parameters_genuine (λ ctx, ctx = orBackground None) sampleOptions sampleProvider slotInv None (lit "db") true
    (Some (cacheKey (lit "db") false, mkValue (lit "db") false true)) (mkValue (lit "!db") false true)
    (Some (cacheKey (lit "db") true, mkValue (lit "!db") false true)) _ _ _ _ _ _ _)).
  - reflexivity.
  - intros c [= <-]. apply slotCache_laws.
  - reflexivity.
  - intros ctx -> w Hw. exact Hw.
  - intros name mode w Hw. exact Hw.
  - intros key v [= <- <-]. exists (lit "db"), false. split; [reflexivity|]. by exists None, (lit "db").
  - vm_compute. reflexivity.
Defined.
